(* ===== verification/_CoqProject ===== *)
-Q . S2P
Prelude.v
Text.v
ServiceMetrics.v
Http.v
Inbox.v
DeliveryService.v
DeliveryConcurrency.v
DeliveryModes.v
MessageRelay.v
KeyRepository.v
Servers.v
HeapTracker.v
HeapBudget.v
AllocCounter.v
RunnerConfig.v
Plateau.v
Sampling.v
Batches.v
Interaction.v
Program.v
HttpRetry.v
Client.v
HttpEffects.v
WorkerHttp.v
Worker.v
GroupHistory.v
ToyMls.v
Network.v
GroupAgreement.v
WorkerRuns.v
CommandCache.v
WorkerActor.v
RunnerCommands.v
RunnerState.v
Membership.v
RunnerPhases.v
RunnerTermination.v
PhaseTermination.v
BenchmarkRun.v
RunnerEvidence.v
RunnerToWorker.v
WorkerServer.v
EvictionRaces.v
MlsTree.v
MlsBinaryTree.v
MlsCrypto.v
MlsTreeSync.v
MlsTreeViews.v
MlsRatchets.v
MlsSecretTree.v
MlsPastSecrets.v
MlsKeySchedule.v
MlsMessages.v
MlsProposals.v
MlsTreeKem.v
MlsTreeKeys.v
MlsCommits.v
MlsEpochs.v
SenderKeyState.v
GroupCipher.v
SignalHttp.v
PreKeys.v
Ratchet.v
Sessions.v
RatchetSchedule.v
SessionTurns.v
Correspondence.v
Participant.v
ToySession.v
SignalWorker.v
LibsignalSessions.v
PrekeyLifecycle.v
SignalRunner.v
SignalMembership.v
SignalBenchmark.v
SignalTermination.v
SignalRun.v
Conversation.v
Replay.v
