(* ===== verification/Prelude.v ===== *)
(** * OpenMLS / Signal containerised benchmark: a verification development

    The repository measures group messaging: [src/OpenMLS_containerized] runs MLS groups
    of containerised workers, [src/Signal_containerized] does the same over Signal's
    pairwise sessions and sender keys.  In each, a runner ([staircase_runner.rs]) drives a
    population of workers ([bin/worker.rs], [worker_api.rs]) over HTTP; the workers own a
    protocol client ([client.rs], [signal_participant.rs]) and talk to the services: the
    delivery service ([delivery_service.rs], [bin/ds.rs]), the message relays
    ([message_relay.rs]) and the prekey repository ([key_repository.rs]).  A counting
    allocator ([allocation_counter]) enforces heap budgets inside the workers.  The clients
    call patched copies of OpenMLS ([openmls-main]) and libsignal ([libsignal-main]) that are
    part of the tree.

    ** Files and what they model

    Shared: [Prelude] (options, results, wrapping integers, lists, maps), [Text] (the
    string functions of the Rust standard library that the program uses), [Interaction]
    (programs as trees of effects, their runs and interleavings, and the logic [wp]),
    [Program] (programs of the runners: a state, errors, panics, fuel, and the logic
    [ensures]), [HttpRetry] ([http_retry.rs], and programs with a borrowed state with the
    logic [runs]).

    Services: [ServiceMetrics] ([service_metrics.rs]), [Inbox] (the per-recipient queues
    of the services), [DeliveryService] ([delivery_service.rs]) with [DeliveryConcurrency] (an
    interleaving semantics of its critical sections) and [DeliveryModes] (its two modes
    simulate each other), [MessageRelay] (both relays), [KeyRepository] with its abstract
    object [KeySpec], [Http] and [Servers] (the handlers of the four binaries, proved
    against the interface [HttpService]).

    Heap budgets: [HeapTracker] and [AllocCounter] ([allocation_counter], both copies),
    [HeapBudget] (the worker's layer and the runner's parsing of its failure line).

    OpenMLS workers: [HttpEffects] and [WorkerHttp] (the HTTP calls), [Client], [Worker]
    (every command), [CommandCache] and [WorkerActor] (the actor of [bin/worker.rs]) and
    [WorkerServer] (its endpoints, tasks and channels).  [GroupHistory], [Network] and
    [GroupAgreement] put any number of workers, the delivery service and the relay together
    over a network that loses requests and responses; [WorkerRuns] runs workers on a good
    network.

    OpenMLS runner ([OpenMLS_containerized/src/staircase_runner.rs]): [RunnerConfig],
    [Plateau], [Sampling] and [Batches] (configuration, plateau sequences, samples, the
    adaptive fan-out); [RunnerCommands] (one command, one worker), [RunnerState] (what a run
    keeps, and the fan-out), [Membership] (growing, shrinking, eviction, convergence) and
    [RunnerPhases] (all phases and the run); [RunnerTermination], [PhaseTermination] and
    [BenchmarkRun] (it comes to an end), [RunnerEvidence] and [RunnerToWorker] (what it takes
    as done was done, once), [EvictionRaces].

    In-tree OpenMLS ([openmls-main/openmls/src]): [MlsTree] (the index arithmetic of
    [treemath.rs]), [MlsBinaryTree] (tree and diff of [array_representation]), [MlsCrypto]
    (ciphersuites, secrets, AEAD), [MlsTreeSync] and [MlsTreeViews] ([treesync/] and its
    operations by position), [MlsRatchets], [MlsSecretTree] and [MlsPastSecrets] (message
    keys), [MlsMessages] (private messages), [MlsKeySchedule] ([schedule/]), [MlsProposals]
    ([apply_proposals.rs]), [MlsTreeKem] and [MlsTreeKeys] (the path of a commit and the keys of
    the members), [MlsCommits] (making, staging and merging commits, welcomes) and
    [MlsEpochs] (the members agree on the next epoch).

    In-tree libsignal: [SenderKeyState] and [GroupCipher] (sender keys), [PreKeys] (keys,
    bundles, in-memory stores), [Ratchet] (root, chain and message keys, the ratchet state)
    and [Sessions] (session records, PQXDH, the triple ratchet, [message_encrypt] and
    [message_decrypt]).  Their proofs go bottom up: [RatchetSchedule] (what the keys of a chain
    are), [SessionTurns] (sessions between whole operations), [Correspondence] (two sides of a
    session, the messages between them, and the handshake).

    Signal workers and runner: [Participant], [SignalHttp] and [SignalWorker] (every command),
    [PrekeyLifecycle] (a bundle's way from its owner through the repository to an initiator);
    over libsignal's sessions [LibsignalSessions] (the participant's pairwise operations),
    [Conversation] (a first contact, and whole runs of two participants) and [Replay] (a
    message that is delivered again); [SignalRunner], [SignalMembership], [SignalBenchmark],
    [SignalTermination] and [SignalRun] (the Signal [staircase_runner.rs]).

    [ToyMls] and [ToySession] are toy instances of the interfaces below.

    A definition has the name of the function it models; the functions of one Rust file
    that need separate name spaces are in a Module named after it.

    ** What the theorems show

    - Agreement: [workers_agree] for whole systems of workers, whatever is lost.
    - MLS epochs: what a member's commit makes, the other members make of it, down to the
      private keys of everybody's place in the tree ([commit_agreement]), so do those it invites
      ([welcome_agreement]), and merging keeps exactly those keys ([merge_keeps_keys]); a commit
      changes the members as its proposals say ([members_after_proposals]).
    - MLS message keys: members derive the same keys in any order, each once, and delete what
      they used ([secret_tree_keeps_promises], [members_share_keys], [used_secrets_deleted],
      [late_messages]); private messages are read as written ([private_message_read]).
    - The delivery service: commits are totally ordered per group
      ([accepted_epochs_linear], over HTTP [commits_accepted_once]), delivered at least
      once and drained in order, alike in both modes.  Member lists are as the clients
      put them; a list that repeats a member has its commits queued for it as often.
    - Repository and relays: refinement of a queue with a fallback and what is hidden
      behind it, under every operation; draining by sender.
    - Sender keys: any order, each message once, within the window of skipped keys.
    - Pairwise sessions: from a fetched bundle on, whatever two participants write to each
      other and in whatever order it arrives, within the window of skipped keys, of old
      chains and of post-quantum epochs, every message is read as it was written, once
      ([conversation]); every initiator
      gets a one-time prekey of its own ([each_initiator_its_prekey]).
    - Runners: every run settles and every transition ends with some of the workers it had
      ([run_settles], [transition_settles], [signal_run_settles], [transition_terminates]);
      what they take as
      done was shown to them ([actor_commit_confirmed], [converged_groups_agree]); a command is
      executed at most once ([command_executed_once]); samplers end, the fan-out stays bounded.
    - Workers: retries are bounded, a request sent again is not executed again
      ([resent_once]), clients take turns ([clients_take_turns]).
    - Heap budgets: the failure report survives its way to the runner.
    - Where the code does not do what it seems to mean, a theorem says what happens
      instead: [fan_out_may_overtake], [lost_response_rolls_back], [strangers_block_eviction],
      [sender_removed_for_recipient], [replayed_message_stays], [removed_member_returns],
      [resumption_rollover].

    ** Conventions, bounds and fuel

    Integers are [N] or [Z] with the wrap-around or the checked operation the release
    profile has.  A [while] loop or a recursion that is not structural carries fuel and
    answers [None] (in a [Program], is cut off) without enough of it; termination theorems give
    an amount that is enough: the population for the group loops, the period of the generator
    for the sampler ([sampler_fuel]), the number of plateaus for the sequences, [loop_fuel] for
    the loops of the runners on states that are [roomy], 32 or 33 turns for the loops over MLS
    trees, whose depth is at most 30.  Errors are values: the source's error type, or anyhow's
    chain of texts where the code reads the text.  Clocks, randomness and hash-map iteration
    orders are arguments or effects.  Identifiers are ASCII: cutting a text at a byte is then
    cutting it at a character, where [String::truncate] does not panic.

    ** Interfaces

    Code outside the repository, and upstream code taken as it is, is an interface whose
    laws are documented behaviour; every law class has a toy instance to which the theorems are
    applied on concrete runs: [MlsLibrary]/[MlsLaws] (OpenMLS, as the client uses it),
    [OpenMlsCrypto]/[CryptoLaws], [TreeCrypto]/[TreeLaws] and [ScheduleCrypto] (the provider of
    OpenMLS: HKDF and AEAD, HPKE and signatures of leaves, extraction and MAC),
    [TlsCodec]/[TlsCodecLaws] and [CommitCodec] (the [tls_codec] serialisations),
    [SignalCrypto]/[SignalLaws] (primitives and protobuf), [AgreementLaws] (Diffie-Hellman and
    key derivation), [SpqrLaws] (the sparse post-quantum ratchet, with its limits on skipped
    keys and on old epochs), [SessionCodecLaws] (the
    protobuf of sessions), [Csprng], [KemPrimitives] (random numbers, libcrux), [Rng] of
    [Plateau] (the [rand] crate).  Inside, [PairwiseLibrary] states what a participant needs of
    pairwise sessions; its instance [libsignal] is the model of the in-tree library.

    ** Not modelled

    - Measurement: profiling contexts, metrics of commands, CSV output, the operation journal,
      progress bars, logs.  They do not feed back into what the programs do.
    - Transport: axum's routing and decoding, reqwest's connections, timeouts and
      permits.  Each HTTP handler is one step of the system.
    - Process start-up, health checks, the verification of capabilities, command-line parsing,
      the profile aggregation binaries and the benchmark scripts.
    - OpenMLS outside the files above: filtering and validating proposals and commits,
      verifying signatures, making and checking a group info and the tree in it, the set-up of
      external commits, storage, and the extensions of draft 08, whose feature is off.
    - libsignal's sealed sender, network code, bridges and backups, which are not called. *)

From Stdlib Require Export Lia.
From Stdlib Require Export Ascii.
From stdpp Require Export sorting.
From stdpp Require Export base gmap strings list sets fin_maps pretty numbers.
From stdpp Require Export list_basics list_relations list_monad list_misc.
From stdpp Require Import options.

#[export] Set Default Proof Using "Type".

(** ** Fallible computations

    Rust's [Result<A, E>]; [let?] is the [?] operator. *)

Inductive result (E A : Type) : Type :=
| Ok (a : A)
| Err (e : E).
Arguments Ok {_ _} _.
Arguments Err {_ _} _.

Declare Scope outcome_scope.
Delimit Scope outcome_scope with outcome.
Notation "'let?' x '<-' c 'in' k" :=
  (match c with Ok x => k | Err e => Err e end)
  (at level 10, x pattern at level 99, c at level 200, k at level 200) : outcome_scope.
Notation "'let!' x '<-' c 'in' k" :=
  (match c with Some x => k | None => None end)
  (at level 10, x pattern at level 99, c at level 200, k at level 200) : outcome_scope.
Open Scope outcome_scope.

Definition is_ok {E A} (r : result E A) : bool :=
  match r with Ok _ => true | Err _ => false end.

Definition ok_or {E A} (o : option A) (e : E) : result E A :=
  match o with Some a => Ok a | None => Err e end.

#[export] Instance result_eq_dec {E A} `{EqDecision E, EqDecision A} :
  EqDecision (result E A).
Proof. solve_decision. Defined.

(** ** Machine integers

    Unsigned integers are [N]; each width has its bound, its wrap-around
    (release builds, where overflow checks are off), and the checked and
    saturating operations of [core::num]. *)

Definition pow64 : N := 18446744073709551616.
Definition u64_max : N := 18446744073709551615.
Definition u32_max : N := 4294967295.
Definition u128_max : N := 340282366920938463463374607431768211455.

Definition wrap64 (x : N) : N := (x mod pow64)%N.
Definition wrap32 (x : N) : N := (x mod 4294967296)%N.
Definition wrapping_add64 (x y : N) : N := wrap64 (x + y).
Definition wrapping_sub64 (x y : N) : N := wrap64 (x + (pow64 - wrap64 y)).
Definition wrapping_mul64 (x y : N) : N := wrap64 (x * y).
Definition saturating_sub (x y : N) : N := (x - y)%N.
Definition saturating_add64 (x y : N) : N := N.min (x + y) u64_max.
Definition checked_add64 (x y : N) : option N :=
  if (x + y <=? u64_max)%N then Some (x + y)%N else None.
Definition checked_mul64 (x y : N) : option N :=
  if (x * y <=? u64_max)%N then Some (x * y)%N else None.
Definition checked_add32 (x y : N) : option N :=
  if (x + y <=? u32_max)%N then Some (x + y)%N else None.

Lemma wrap32_small x : (x <= u32_max)%N → wrap32 x = x.
Proof. intros H. apply N.mod_small. unfold u32_max in H. lia. Qed.

Lemma wrap64_small x : (x < pow64)%N → wrap64 x = x.
Proof. apply N.mod_small. Qed.

Lemma wrap64_bound x : (wrap64 x < pow64)%N.
Proof. apply N.mod_lt. done. Qed.

Lemma u64_max_pow64 x : (x <= u64_max ↔ x < pow64)%N.
Proof. unfold u64_max, pow64. lia. Qed.

Lemma checked_add64_spec x y z :
  checked_add64 x y = Some z ↔ z = (x + y)%N ∧ (x + y <= u64_max)%N.
Proof.
  unfold checked_add64. destruct (N.leb_spec (x + y) u64_max); split; intros; destruct_and?; simplify_eq; auto; lia.
Qed.

Lemma checked_mul64_spec x y z :
  checked_mul64 x y = Some z ↔ z = (x * y)%N ∧ (x * y <= u64_max)%N.
Proof.
  unfold checked_mul64. destruct (N.leb_spec (x * y) u64_max); split; intros; destruct_and?; simplify_eq; auto; lia.
Qed.

(** ** Bytes *)

Definition bytes := list Byte.byte.

#[export] Instance byte_eq_dec : EqDecision Byte.byte := Byte.byte_eq_dec.

#[export] Program Instance byte_countable : Countable Byte.byte :=
  inj_countable Byte.to_N Byte.of_N _.
Next Obligation. intros b. apply Byte.of_to_N. Qed.

(** ** Small automation

    [destruct_match] exposes the next branch taken by the code. *)

Ltac destruct_match :=
  match goal with
  | |- context [match ?x with _ => _ end] => destruct x eqn:?
  | H : context [match ?x with _ => _ end] |- _ => destruct x eqn:?
  end.

Create HintDb bench discriminated.

(** ** Lists *)

Lemma filter_all_true {A} (P : A → Prop) `{∀ x, Decision (P x)} (l : list A) :
  Forall P l → filter P l = l.
Proof.
  induction 1; [done|]. rewrite filter_cons_True by done. by f_equal.
Qed.

Lemma filter_all_false {A} (P : A → Prop) `{∀ x, Decision (P x)} (l : list A) :
  Forall (λ x, ¬ P x) l → filter P l = [].
Proof. induction 1; [done|]. by rewrite filter_cons_False. Qed.

Lemma length_filter_eq {A} (P : A → Prop) `{∀ x, Decision (P x)} (l : list A) :
  length (filter P l) = length l → filter P l = l.
Proof.
  induction l as [|x l IH]; [done|].
  destruct (decide (P x)) as [Hx|Hx].
  - rewrite filter_cons_True by done. simpl. intros [= Hl]. by rewrite IH.
  - rewrite filter_cons_False by done. simpl. intros Hl.
    pose proof (length_filter P l). lia.
Qed.

Lemma lookup_default {A} (l : list A) d j :
  (j < length l)%nat → l !! j = Some (default d (l !! j)).
Proof. intros H. by destruct (lookup_lt_is_Some_2 l j H) as [x ->]. Qed.

(** Filtering with a boolean predicate of the code. *)
Lemma filter_true {A} (p : A → bool) x (l : list A) :
  p x = true → filter p (x :: l) = x :: filter p l.
Proof. intros E. apply (filter_cons_True p). by apply Is_true_true. Qed.

Lemma filter_false {A} (p : A → bool) x (l : list A) :
  p x = false → filter p (x :: l) = filter p l.
Proof. intros E. apply (filter_cons_False p). rewrite E. by intros []. Qed.

Lemma filter_ext_in {A} (p q : A → bool) (l : list A) :
  (∀ x, x ∈ l → p x = q x) → filter p l = filter q l.
Proof.
  induction l as [|x l IH]; intros H; [done|].
  assert (Hx : p x = q x) by (apply H; left).
  assert (Hl : filter p l = filter q l) by (apply IH; intros; apply H; by right).
  destruct (q x) eqn:E.
  - rewrite !filter_true by done. by rewrite Hl.
  - rewrite !filter_false by done. done.
Qed.

(** Two lists sorted by a total order of a key, permutations of each other and
    with pairwise distinct keys, are equal: this is what makes results that
    sort a hash map's entries independent of its iteration order. *)
Lemma sorted_by_key_unique {A K} (key : A → K) (R : relation K)
    `{!Transitive R, !AntiSymm (=) R} (l1 l2 : list A) :
  Sorted (λ x y, R (key x) (key y)) l1 →
  Sorted (λ x y, R (key x) (key y)) l2 →
  NoDup (key <$> l1) →
  l1 ≡ₚ l2 → l1 = l2.
Proof.
  intros Hs1 Hs2 Hnd Hp.
  assert (Htr : Transitive (λ x y : A, R (key x) (key y)))
    by (intros x y z; apply transitivity).
  eapply (Sorted_unique_strong (λ x y, R (key x) (key y))); [|done..].
  intros x y Hx Hy Hxy Hyx.
  assert (Hk : key x = key y) by (by apply (anti_symm R)).
  rewrite <-Hp in Hy.
  apply list_elem_of_lookup in Hx as [i Hi].
  apply list_elem_of_lookup in Hy as [j Hj].
  assert (i = j) as ->; [|congruence].
  eapply NoDup_lookup; [exact Hnd|..]; rewrite list_lookup_fmap;
    [by rewrite Hi|rewrite Hj; simpl; by rewrite Hk].
Qed.

(** ** Strings: decimal rendering and separators *)

Fixpoint char_free (c : ascii) (s : string) : bool :=
  match s with
  | EmptyString => true
  | String d s' => negb (Ascii.eqb c d) && char_free c s'
  end.

Lemma char_free_app c s t : char_free c (s +:+ t) = char_free c s && char_free c t.
Proof.
  induction s as [|d s IH]; [done|]. simpl. rewrite IH. apply andb_assoc.
Qed.

Lemma string_app_cons_l c (s : string) : String c s = String c "" +:+ s.
Proof. done. Qed.

Lemma string_app_assoc (s t u : string) : (s +:+ t) +:+ u = s +:+ (t +:+ u).
Proof. induction s as [|c s IH]; [done|]. simpl. exact (f_equal (String c) IH). Qed.

(** A separator-free prefix before a separator is determined by the string. *)
Lemma split_at_char c a a' b b' :
  char_free c a → char_free c a' →
  a +:+ String c b = a' +:+ String c b' → a = a' ∧ b = b'.
Proof.
  revert a'. induction a as [|d a IH]; intros [|d' a'] Ha Ha' Heq; simplify_eq/=.
  - done.
  - rewrite Ascii.eqb_refl in Ha'. done.
  - rewrite Ascii.eqb_refl in Ha. done.
  - destruct (Ascii.eqb c d') eqn:E; [done|]. simpl in *.
    destruct (IH a') as [-> ->]; auto.
Qed.

Lemma string_app_inj_l (p : string) s t : p +:+ s = p +:+ t → s = t.
Proof. induction p as [|c p IH]; simpl; [done|]. intros [=]. auto. Qed.

Definition is_digit (c : ascii) : bool :=
  let n := N_of_ascii c in (48 <=? n)%N && (n <=? 57)%N.

Lemma pretty_N_go_char_free c x s :
  is_digit c = false → char_free c s → char_free c (pretty_N_go x s).
Proof.
  intros Hc. revert s. induction (N.lt_wf_0 x) as [x _ IH]; intros s Hs.
  assert (x = 0 ∨ 0 < x)%N as [->|Hx] by lia; [done|].
  rewrite pretty_N_go_step by done. apply IH; [by apply N.div_lt|].
  simpl. apply andb_prop_intro. split; [|done].
  apply Is_true_true, negb_true_iff, Ascii.eqb_neq. intros ->.
  revert Hc. unfold pretty_N_char. repeat case_match; done.
Qed.

(** The decimal rendering of an integer contains digits only. *)
Lemma pretty_char_free c (x : N) : is_digit c = false → char_free c (pretty x).
Proof.
  intros Hc. unfold pretty, pretty_N. case_decide.
  - simpl. destruct (Ascii.eqb c "0") eqn:E; [|done].
    apply Ascii.eqb_eq in E as ->. done.
  - by apply pretty_N_go_char_free.
Qed.

(** [str::to_ascii_lowercase] *)
Definition ascii_lower (c : ascii) : ascii :=
  let n := N_of_ascii c in
  if (65 <=? n)%N && (n <=? 90)%N then ascii_of_N (n + 32) else c.

Fixpoint to_ascii_lowercase (s : string) : string :=
  match s with
  | EmptyString => EmptyString
  | String c s' => String (ascii_lower c) (to_ascii_lowercase s')
  end.

(** ** String order: Rust's [Ord for str] is the byte-wise lexicographic order *)

Fixpoint str_leb (s t : string) : bool :=
  match s, t with
  | EmptyString, _ => true
  | String _ _, EmptyString => false
  | String c s', String d t' =>
      if (N_of_ascii c <? N_of_ascii d)%N then true
      else if (N_of_ascii d <? N_of_ascii c)%N then false
      else str_leb s' t'
  end.

Lemma N_of_ascii_inj c d : N_of_ascii c = N_of_ascii d → c = d.
Proof. intros H. rewrite <-(ascii_N_embedding c), H. apply ascii_N_embedding. Qed.

Lemma str_leb_refl s : str_leb s s.
Proof. induction s as [|c s IH]; [done|]. simpl. by rewrite N.ltb_irrefl. Qed.

Lemma str_leb_total s t : str_leb s t ∨ str_leb t s.
Proof.
  revert t. induction s as [|c s IH]; intros [|d t]; simpl; [auto..|].
  destruct (N.ltb_spec (N_of_ascii c) (N_of_ascii d)),
    (N.ltb_spec (N_of_ascii d) (N_of_ascii c)); auto.
Qed.

Lemma str_leb_antisym s t : str_leb s t → str_leb t s → s = t.
Proof.
  revert t. induction s as [|c s IH]; intros [|d t]; simpl; [done..|].
  destruct (N.ltb_spec (N_of_ascii c) (N_of_ascii d)),
    (N.ltb_spec (N_of_ascii d) (N_of_ascii c)); try lia; try done.
  intros ??. f_equal; [apply N_of_ascii_inj; lia|auto].
Qed.

Lemma str_leb_trans s t u : str_leb s t → str_leb t u → str_leb s u.
Proof.
  revert t u. induction s as [|c s IH]; intros [|d t] [|e u]; simpl; try done.
  destruct (N.ltb_spec (N_of_ascii c) (N_of_ascii d)),
    (N.ltb_spec (N_of_ascii d) (N_of_ascii c)),
    (N.ltb_spec (N_of_ascii d) (N_of_ascii e)),
    (N.ltb_spec (N_of_ascii e) (N_of_ascii d)),
    (N.ltb_spec (N_of_ascii c) (N_of_ascii e)),
    (N.ltb_spec (N_of_ascii e) (N_of_ascii c)); try lia; try done.
  apply IH.
Qed.

(** ** Transition systems: reflexive-transitive closure and invariants *)

Section transition_system.
Context {S : Type} (step : S → S → Prop).

Lemma rtc_invariant (I : S → Prop) s s' :
  (∀ x y, I x → step x y → I y) → I s → rtc step s s' → I s'.
Proof. intros Hstep HI. induction 1; eauto. Qed.
End transition_system.
