(* ===== verification/Text.v ===== *)
(** * Text handling of the Rust standard library used by the program

    [str::parse] of unsigned integers, [trim], [split], [split_once],
    [strip_prefix], [contains] and [replace] on ASCII text (the identifiers, URLs
    and messages of the benchmark).  A [char] is an [ascii]. *)

From S2P Require Import Prelude.
From stdpp Require Import options.

Local Open Scope N_scope.

Fixpoint rev_append (s acc : string) : string :=
  match s with
  | EmptyString => acc
  | String c s' => rev_append s' (String c acc)
  end.

Definition rev_string (s : string) : string := rev_append s "".

Definition digit_value (c : ascii) : option N :=
  if is_digit c then Some (N_of_ascii c - 48) else None.

(** The digit loop of [from_str_radix]: checked multiply, checked add. *)
Fixpoint parse_digits (max acc : N) (s : string) : option N :=
  match s with
  | EmptyString => Some acc
  | String c s' =>
      match digit_value c with
      | None => None
      | Some d =>
          if (max <? acc * 10) then None
          else if (max <? acc * 10 + d) then None
          else parse_digits max (acc * 10 + d) s'
      end
  end.

(** [str::parse::<uN>]: an optional [+], then at least one digit. *)
Definition parse_unsigned (max : N) (s : string) : option N :=
  match s with
  | EmptyString => None
  | String "+" EmptyString => None
  | String "+" s' => parse_digits max 0 s'
  | _ => parse_digits max 0 s
  end.

Definition parse_u64 : string → option N := parse_unsigned u64_max.
Definition parse_u32 : string → option N := parse_unsigned u32_max.
(** [usize] is 64 bits on the benchmark's targets. *)
Definition parse_usize : string → option N := parse_unsigned u64_max.

Definition hex_digit (n : N) : ascii :=
  if n <? 10 then ascii_of_N (48 + n) else ascii_of_N (87 + n).

Definition is_whitespace (c : ascii) : bool :=
  let n := N_of_ascii c in ((9 <=? n) && (n <=? 13)) || (n =? 32).

Fixpoint trim_start (s : string) : string :=
  match s with
  | EmptyString => EmptyString
  | String c s' => if is_whitespace c then trim_start s' else s
  end.

Definition trim_end (s : string) : string := rev_string (trim_start (rev_string s)).

Definition trim (s : string) : string := trim_end (trim_start s).

(** [find(p).unwrap_or(len)] followed by [split_at]. *)
Fixpoint span_string (p : ascii → bool) (s : string) : string * string :=
  match s with
  | EmptyString => ("", "")
  | String c s' =>
      if p c then let '(a, b) := span_string p s' in (String c a, b) else ("", s)
  end.

(** [split_once(c)] *)
Fixpoint split_once (c : ascii) (s : string) : option (string * string) :=
  match s with
  | EmptyString => None
  | String d s' =>
      if Ascii.eqb c d then Some ("", s')
      else match split_once c s' with
           | Some (a, b) => Some (String d a, b)
           | None => None
           end
  end.

(** [split(c)]: always at least one piece. *)
Fixpoint split_char (c : ascii) (s : string) : list string :=
  match s with
  | EmptyString => [""]
  | String d s' =>
      if Ascii.eqb c d then "" :: split_char c s'
      else match split_char c s' with
           | p :: ps => String d p :: ps
           | [] => [String d ""]
           end
  end.

Fixpoint strip_prefix (p s : string) : option string :=
  match p, s with
  | EmptyString, _ => Some s
  | String c p', String d s' => if Ascii.eqb c d then strip_prefix p' s' else None
  | String _ _, EmptyString => None
  end.

Fixpoint contains (p s : string) : bool :=
  match strip_prefix p s with
  | Some _ => true
  | None => match s with EmptyString => false | String _ s' => contains p s' end
  end.

(** [replace(c, with)] for a single character *)
Fixpoint replace_char (c d : ascii) (s : string) : string :=
  match s with
  | EmptyString => EmptyString
  | String e s' => String (if Ascii.eqb c e then d else e) (replace_char c d s')
  end.

(** ** Decimal round trip *)

Lemma pretty_N_char_digit d : d < 10 → digit_value (pretty_N_char d) = Some d.
Proof.
  intros Hd. assert (d = 0 ∨ d = 1 ∨ d = 2 ∨ d = 3 ∨ d = 4 ∨ d = 5 ∨ d = 6 ∨ d = 7
                     ∨ d = 8 ∨ d = 9) as Hc by lia.
  repeat (destruct Hc as [->|Hc]; [reflexivity|]). by subst.
Qed.

Lemma parse_digits_app max s t : ∀ acc,
  parse_digits max acc (s +:+ t)
  = match parse_digits max acc s with Some a => parse_digits max a t | None => None end.
Proof.
  induction s as [|c s IH]; intros acc; [done|]. simpl.
  destruct (digit_value c) as [d|]; [|done].
  destruct (max <? acc * 10); [done|]. destruct (max <? acc * 10 + d); [done|]. apply IH.
Qed.

Lemma pretty_N_go_app x s : pretty_N_go x s = pretty_N_go x "" +:+ s.
Proof.
  revert s. induction (N.lt_wf_0 x) as [x _ IH]; intros s.
  assert (x = 0 ∨ 0 < x) as [->|Hx] by lia; [done|].
  rewrite (pretty_N_go_step x s), (pretty_N_go_step x "") by done.
  assert (Hlt : x `div` 10 < x) by (apply N.div_lt; lia).
  rewrite (IH _ Hlt (String _ s)), (IH _ Hlt (String _ "")). by rewrite string_app_assoc.
Qed.

(** Quotient and remainder by ten, named (lia does not see through [N.div]). *)
Lemma divmod10 (x : N) :
  0 < x → ∃ q r, x `div` 10 = q ∧ x `mod` 10 = r ∧ x = q * 10 + r ∧ r < 10 ∧ q < x.
Proof.
  intros Hx. exists (x `div` 10), (x `mod` 10). split_and!; [done|done| | |].
  - rewrite N.mul_comm. by apply N.div_mod.
  - by apply N.mod_lt.
  - by apply N.div_lt.
Qed.

Lemma parse_digits_pretty_go max x :
  x <= max → parse_digits max 0 (pretty_N_go x "") = Some x.
Proof.
  induction (N.lt_wf_0 x) as [x _ IH]; intros Hx.
  assert (x = 0 ∨ 0 < x) as [->|Hpos] by lia; [done|].
  destruct (divmod10 x Hpos) as (q & r & Hq & Hr & Hdm & Hlt & Hqx).
  rewrite pretty_N_go_step, Hq, Hr by done. rewrite pretty_N_go_app, parse_digits_app.
  rewrite (IH q) by lia. simpl. rewrite pretty_N_char_digit by done.
  destruct (N.ltb_spec max (q * 10)); [lia|].
  destruct (N.ltb_spec max (q * 10 + r)); [lia|]. f_equal. lia.
Qed.

Lemma parse_digits_overflow max x :
  max < x → parse_digits max 0 (pretty_N_go x "") = None.
Proof.
  induction (N.lt_wf_0 x) as [x _ IH]; intros Hx.
  destruct (divmod10 x ltac:(lia)) as (q & r & Hq & Hr & Hdm & Hlt & Hqx).
  rewrite pretty_N_go_step, Hq, Hr by lia. rewrite pretty_N_go_app, parse_digits_app.
  destruct (N.ltb_spec max q) as [Hgt|Hge].
  - by rewrite IH.
  - rewrite parse_digits_pretty_go by done. simpl. rewrite pretty_N_char_digit by done.
    destruct (N.ltb_spec max (q * 10)); [done|].
    destruct (N.ltb_spec max (q * 10 + r)); [done|]. lia.
Qed.

Fixpoint all_digits (s : string) : bool :=
  match s with EmptyString => true | String c s' => is_digit c && all_digits s' end.

Lemma pretty_N_go_digits x s : all_digits s → all_digits (pretty_N_go x s).
Proof.
  revert s. induction (N.lt_wf_0 x) as [x _ IH]; intros s Hs.
  assert (x = 0 ∨ 0 < x) as [->|Hx] by lia; [done|].
  rewrite pretty_N_go_step by done. apply IH; [apply N.div_lt; lia|].
  simpl. apply andb_prop_intro. split; [|done].
  pose proof (pretty_N_char_digit (x `mod` 10) (N.mod_lt x 10 ltac:(done))) as Hd.
  unfold digit_value in Hd. by destruct (is_digit _).
Qed.

Lemma pretty_digits (x : N) : all_digits (pretty x) ∧ pretty x ≠ "".
Proof.
  unfold pretty, pretty_N. case_decide as Hx; [done|]. split; [by apply pretty_N_go_digits|].
  rewrite pretty_N_go_step by lia. rewrite pretty_N_go_app. by destruct (pretty_N_go _ _).
Qed.

Lemma parse_unsigned_digits max s :
  all_digits s → s ≠ "" → parse_unsigned max s = parse_digits max 0 s.
Proof.
  destruct s as [|c s]; [done|]. intros Hd _. simpl in Hd.
  apply andb_prop_elim in Hd as [Hc _].
  destruct c as [[] [] [] [] [] [] [] []]; try done.
Qed.

Lemma parse_pretty max x : x <= max → parse_unsigned max (pretty x) = Some x.
Proof.
  intros Hx. destruct (pretty_digits x) as [Hd Hne].
  rewrite parse_unsigned_digits by done. unfold pretty, pretty_N.
  case_decide as H0; [subst|by apply parse_digits_pretty_go].
  by destruct max.
Qed.

Lemma parse_pretty_overflow max x : max < x → parse_unsigned max (pretty x) = None.
Proof.
  intros Hx. destruct (pretty_digits x) as [Hd Hne].
  rewrite parse_unsigned_digits by done. unfold pretty, pretty_N.
  case_decide as H0; [lia|by apply parse_digits_overflow].
Qed.

(** ** Splitting *)

Lemma span_string_app p s t :
  (∀ c, p c = is_digit c) → all_digits s →
  (match t with String c _ => p c = false | EmptyString => True end) →
  span_string p (s +:+ t) = (s, t).
Proof.
  intros Hp. induction s as [|c s IH]; intros Hs Ht; simpl.
  - destruct t as [|c t]; [done|]. simpl. by rewrite Ht.
  - simpl in Hs. apply andb_prop_elim in Hs as [Hc Hs].
    rewrite Hp. destruct (is_digit c); [|done]. rewrite IH by done. done.
Qed.

Lemma split_once_app c a b :
  char_free c a → split_once c (a +:+ String c b) = Some (a, b).
Proof.
  induction a as [|d a IH]; intros Hf; simpl.
  - by rewrite Ascii.eqb_refl.
  - simpl in Hf. destruct (Ascii.eqb c d); [done|]. by rewrite IH.
Qed.

Lemma split_once_none c a : char_free c a → split_once c a = None.
Proof.
  induction a as [|d a IH]; [done|]. simpl. intros Hf.
  destruct (Ascii.eqb c d); [done|]. by rewrite IH.
Qed.

Lemma split_char_free c a : char_free c a → split_char c a = [a].
Proof.
  induction a as [|d a IH]; [done|]. simpl. intros Hf.
  destruct (Ascii.eqb c d); [done|]. by rewrite IH.
Qed.

Lemma split_char_app c a b :
  char_free c a → split_char c (a +:+ String c b) = a :: split_char c b.
Proof.
  induction a as [|d a IH]; intros Hf; simpl.
  - by rewrite Ascii.eqb_refl.
  - simpl in Hf. destruct (Ascii.eqb c d); [done|]. by rewrite IH.
Qed.

Lemma strip_prefix_app p s : strip_prefix p (p +:+ s) = Some s.
Proof. induction p as [|c p IH]; [done|]. simpl. by rewrite Ascii.eqb_refl. Qed.

Lemma strip_prefix_Some p s t : strip_prefix p s = Some t ↔ s = p +:+ t.
Proof.
  split; [|intros ->; apply strip_prefix_app].
  revert s. induction p as [|c p IH]; intros s; [by intros [= ->]|].
  destruct s as [|d s]; [done|]. simpl.
  destruct (Ascii.eqb_spec c d) as [->|]; [|done]. intros H. by rewrite (IH s).
Qed.

Lemma rev_append_app s acc : rev_append s acc = rev_append s "" +:+ acc.
Proof.
  revert acc. induction s as [|c s IH]; intros acc; [done|]. simpl.
  rewrite IH, (IH (String c "")). by rewrite string_app_assoc.
Qed.

Lemma rev_string_cons c s : rev_string (String c s) = rev_string s +:+ String c "".
Proof. unfold rev_string. simpl. apply rev_append_app. Qed.

Lemma string_app_nil_r (s : string) : s +:+ "" = s.
Proof. induction s as [|c s IH]; [done|]. simpl. exact (f_equal (String c) IH). Qed.

Lemma rev_string_app s t : rev_string (s +:+ t) = rev_string t +:+ rev_string s.
Proof.
  induction s as [|c s IH].
  - symmetry. apply string_app_nil_r.
  - change (String c s +:+ t) with (String c (s +:+ t)).
    rewrite !rev_string_cons, IH. apply string_app_assoc.
Qed.

Lemma rev_string_involutive s : rev_string (rev_string s) = s.
Proof.
  induction s as [|c s IH]; [done|]. by rewrite rev_string_cons, rev_string_app, IH.
Qed.

(** Text without whitespace is its own [trim]. *)
Fixpoint no_space (s : string) : bool :=
  match s with EmptyString => true | String c s' => negb (is_whitespace c) && no_space s' end.

Lemma no_space_app s t : no_space (s +:+ t) = no_space s && no_space t.
Proof. induction s as [|c s IH]; [done|]. simpl. rewrite IH. apply andb_assoc. Qed.

Lemma no_space_rev s : no_space s → no_space (rev_string s).
Proof.
  induction s as [|c s IH]; [done|]. simpl. intros [Hc Hs]%andb_prop_elim.
  rewrite rev_string_cons, no_space_app. apply andb_prop_intro. split; [auto|].
  cbn [no_space]. apply andb_prop_intro. split; done.
Qed.

Lemma trim_start_no_space s : no_space s → trim_start s = s.
Proof.
  destruct s as [|c s]; [done|]. cbn [no_space trim_start].
  intros [Hc _]%andb_prop_elim. destruct (is_whitespace c); [destruct Hc|done].
Qed.

Lemma trim_no_space s : no_space s → trim s = s.
Proof.
  intros Hs. unfold trim, trim_end. rewrite (trim_start_no_space s) by done.
  rewrite trim_start_no_space by (by apply no_space_rev). apply rev_string_involutive.
Qed.

Lemma digits_no_space s : all_digits s → no_space s.
Proof.
  induction s as [|c s IH]; [done|]. simpl. intros [Hc Hs]%andb_prop_elim.
  apply andb_prop_intro. split; [|auto].
  unfold is_digit, is_whitespace in *. apply Is_true_true in Hc. apply Is_true_true.
  apply andb_true_iff in Hc as [H1%N.leb_le H2%N.leb_le].
  apply negb_true_iff, orb_false_iff. split; [|apply N.eqb_neq; lia].
  apply andb_false_iff. right. apply N.leb_gt. lia.
Qed.

(** ** Tokens *)

(** The first token, if the text starts with one, and the tokens after it. *)
Fixpoint split_ws_go (s : string) : string * list string :=
  match s with
  | EmptyString => ("", [])
  | String c s' =>
      let '(w, ws) := split_ws_go s' in
      if is_whitespace c then ("", match w with EmptyString => ws | _ => w :: ws end)
      else (String c w, ws)
  end.

(** [split_whitespace]: the maximal runs of non-space characters. *)
Definition split_whitespace (s : string) : list string :=
  let '(w, ws) := split_ws_go s in match w with EmptyString => ws | _ => w :: ws end.

Fixpoint trim_start_char (c : ascii) (s : string) : string :=
  match s with
  | EmptyString => EmptyString
  | String d s' => if Ascii.eqb c d then trim_start_char c s' else s
  end.

(** [trim_matches(c)] *)
Definition trim_matches (c : ascii) (s : string) : string :=
  rev_string (trim_start_char c (rev_string (trim_start_char c s))).

Lemma split_ws_go_token v rest :
  no_space v → split_ws_go (v +:+ String " " rest) = (v, split_whitespace rest).
Proof.
  unfold split_whitespace. induction v as [|c v IH]; simpl.
  - intros _. by destruct (split_ws_go rest).
  - intros [Hc Hv]%andb_prop_elim. rewrite (IH Hv).
    destruct (split_ws_go rest). by destruct (is_whitespace c).
Qed.

Lemma split_whitespace_token v rest :
  no_space v → v ≠ "" → split_whitespace (v +:+ String " " rest) = v :: split_whitespace rest.
Proof.
  intros Hv Hne. unfold split_whitespace at 1. rewrite split_ws_go_token by done.
  by destruct v.
Qed.

Lemma split_whitespace_app a b :
  split_whitespace (a +:+ String " " b) = split_whitespace a ++ split_whitespace b.
Proof.
  assert (H : split_ws_go (a +:+ String " " b)
              = ((split_ws_go a).1, (split_ws_go a).2 ++ split_whitespace b)).
  { induction a as [|c a IH]; simpl.
    - unfold split_whitespace. by destruct (split_ws_go b).
    - rewrite IH. destruct (split_ws_go a) as [w ws]. simpl.
      destruct (is_whitespace c); simpl; [|done]. by destruct w. }
  unfold split_whitespace at 1. rewrite H. unfold split_whitespace.
  destruct (split_ws_go a) as [w ws]. simpl. by destruct w.
Qed.

Lemma trim_start_char_free c s : char_free c s → trim_start_char c s = s.
Proof.
  destruct s as [|d s]; [done|]. simpl. intros [H _]%andb_prop_elim.
  by destruct (Ascii.eqb c d).
Qed.

Lemma char_free_rev c s : char_free c s → char_free c (rev_string s).
Proof.
  induction s as [|d s IH]; [done|]. simpl. intros [Hc Hs]%andb_prop_elim.
  rewrite rev_string_cons, char_free_app. apply andb_prop_intro. split; [auto|].
  cbn [char_free]. apply andb_prop_intro. by split.
Qed.

Lemma trim_matches_free c s : char_free c s → trim_matches c s = s.
Proof.
  intros Hs. unfold trim_matches. rewrite (trim_start_char_free c s) by done.
  rewrite trim_start_char_free by (by apply char_free_rev). apply rev_string_involutive.
Qed.

Lemma no_space_pretty (x : N) : no_space (pretty x).
Proof. apply digits_no_space, pretty_digits. Qed.

Lemma contains_prefix p s : contains p (p +:+ s) = true.
Proof.
  pose proof (strip_prefix_app p s) as E. destruct (p +:+ s); cbn [contains]; by rewrite E.
Qed.

Lemma contains_app p a s : contains p s = true → contains p (a +:+ s) = true.
Proof.
  intros Hs. induction a as [|c a IH]; [done|]. simpl. by case_match.
Qed.

Lemma strip_prefix_free c p s : Is_true (char_free c s) → ¬ char_free c p → strip_prefix p s = None.
Proof.
  revert s. induction p as [|d p IH]; intros s Hs Hp; [by destruct Hp|]. destruct s as [|e s]; [done|].
  cbn [strip_prefix]. destruct (Ascii.eqb_spec d e) as [->|]; [|done].
  cbn [char_free] in *. apply andb_prop_elim in Hs as [He Hs]. apply IH; [done|].
  intros H. apply Hp. by apply andb_prop_intro.
Qed.

(** A text without a character of the word does not contain the word. *)
Lemma contains_free c p s : Is_true (char_free c s) → ¬ char_free c p → contains p s = false.
Proof.
  intros Hs Hp. induction s as [|d s IH].
  - cbn [contains]. by rewrite (strip_prefix_free c).
  - cbn [contains]. rewrite (strip_prefix_free c) by done. apply IH.
    cbn [char_free] in Hs. by apply andb_prop_elim in Hs as [_ Hs].
Qed.

Lemma strip_prefix_before c p : ∀ s t, Is_true (char_free c p) →
  (strip_prefix p (s +:+ String c t) = None ↔ strip_prefix p s = None).
Proof.
  induction p as [|d p IH]; intros s t Hp; [done|].
  cbn [char_free] in Hp. apply andb_prop_elim in Hp as [Hd Hp]. destruct s as [|e s].
  - change ("" +:+ String c t) with (String c t). cbn [strip_prefix].
    destruct (Ascii.eqb_spec d c) as [->|]; [by rewrite Ascii.eqb_refl in Hd|done].
  - change (String e s +:+ String c t) with (String e (s +:+ String c t)). cbn [strip_prefix].
    destruct (Ascii.eqb d e); [by apply IH|done].
Qed.

(** A word without [c] is on one side of a [c]. *)
Lemma contains_split c p s t : Is_true (char_free c p) → p ≠ "" →
  contains p (s +:+ String c t) = contains p s || contains p t.
Proof.
  intros Hp Hne. induction s as [|d s IH].
  - change ("" +:+ String c t) with (String c t). cbn [contains].
    pose proof (proj2 (strip_prefix_before c p "" t Hp)) as Hb.
    change ("" +:+ String c t) with (String c t) in Hb. rewrite Hb; by destruct p.
  - pose proof (strip_prefix_before c p (String d s) t Hp) as Hb.
    change (String d s +:+ String c t) with (String d (s +:+ String c t)) in *. cbn [contains]. rewrite IH.
    destruct (strip_prefix p (String d (s +:+ String c t))), (strip_prefix p (String d s)); try done;
      by destruct Hb as [Hb1 Hb2]; (discriminate (Hb1 eq_refl) || discriminate (Hb2 eq_refl)).
Qed.

(** Tokens inherit the absence of a character. *)
Lemma split_whitespace_char_free c s :
  char_free c s → Forall (λ w, Is_true (char_free c w)) (split_whitespace s).
Proof.
  intros Hs.
  assert (H : char_free c (split_ws_go s).1
              ∧ Forall (λ w, Is_true (char_free c w)) (split_ws_go s).2).
  { induction s as [|d s IH]; simpl; [done|]. simpl in Hs.
    apply andb_prop_elim in Hs as [Hd Hs]. destruct (IH Hs) as [H1 H2].
    destruct (split_ws_go s) as [w ws]. simpl in *. destruct (is_whitespace d); simpl.
    - split; [done|]. destruct w; [done|by constructor].
    - split; [|done]. apply andb_prop_intro. by split. }
  unfold split_whitespace. destruct (split_ws_go s) as [w ws], H as [H1 H2]. simpl in *.
  destruct w; [done|by constructor].
Qed.

(** ** [join] *)

Fixpoint join (c : ascii) (l : list string) : string :=
  match l with
  | [] => ""
  | [x] => x
  | x :: l' => x +:+ String c (join c l')
  end.

Lemma split_join c l :
  l ≠ [] → Forall (λ x, Is_true (char_free c x)) l → split_char c (join c l) = l.
Proof.
  intros Hne Hl. induction Hl as [|x l Hx Hl IH]; [done|].
  destruct l as [|y l]; [by apply split_char_free|].
  change (join c (x :: y :: l)) with (x +:+ String c (join c (y :: l))).
  by rewrite split_char_app, IH.
Qed.

Lemma parse_digits_bound max s : ∀ acc n,
  acc <= max → parse_digits max acc s = Some n → n <= max.
Proof.
  induction s as [|c s IH]; intros acc n Ha; simpl; [by intros [= <-]|].
  destruct (digit_value c) as [d|]; [|done].
  destruct (N.ltb_spec max (acc * 10)); [done|].
  destruct (N.ltb_spec max (acc * 10 + d)); [done|]. by apply IH.
Qed.

Lemma parse_unsigned_bound max s n : parse_unsigned max s = Some n → n <= max.
Proof.
  intros H. assert (Hp : ∃ t, parse_digits max 0 t = Some n).
  { unfold parse_unsigned in H. repeat (case_match; try done); by eexists. }
  destruct Hp as [t Ht]. eapply parse_digits_bound; [|exact Ht]. lia.
Qed.

Lemma char_free_join c d l :
  Ascii.eqb c d = false → Forall (λ x, Is_true (char_free c x)) l → char_free c (join d l).
Proof.
  intros Hd. induction 1 as [|x l Hx Hl IH]; [done|]. destruct l as [|y l]; [done|].
  change (join d (x :: y :: l)) with (x +:+ String d (join d (y :: l))).
  rewrite char_free_app. apply andb_prop_intro. split; [done|]. cbn [char_free].
  rewrite Hd. exact IH.
Qed.

Lemma no_space_join d l :
  is_whitespace d = false → Forall (λ x, Is_true (no_space x)) l → no_space (join d l).
Proof.
  intros Hd. induction 1 as [|x l Hx Hl IH]; [done|]. destruct l as [|y l]; [done|].
  change (join d (x :: y :: l)) with (x +:+ String d (join d (y :: l))).
  rewrite no_space_app. apply andb_prop_intro. split; [done|]. cbn [no_space].
  rewrite Hd. exact IH.
Qed.
