(* ===== verification/ServiceMetrics.v ===== *)
(** * Endpoint metrics of the HTTP services ([src/service_metrics.rs])

    The three services (delivery service, key repository, message relay) count
    requests per endpoint.  [start] opens a request, [finish] closes it with a
    latency and an optional HTTP status; [snapshot] computes order statistics of
    the retained latency window.  Counters are [u64]: they wrap, as [+= 1] does
    in the release profile.  Latencies ([u128] milliseconds) are inputs of
    [finish], read from the clock by the caller. *)

From S2P Require Import Prelude.
From stdpp Require Import options.

Local Open Scope N_scope.

Definition DEFAULT_WARN_IN_FLIGHT : N := 128.
Definition DEFAULT_LATENCY_SAMPLE_LIMIT : nat := 4096.

Record EndpointMetrics := MkEndpointMetrics {
  request_count : N;
  error_count : N;
  non_success_count : N;
  client_error_count : N;
  server_error_count : N;
  not_found_count : N;
  in_flight : N;
  max_in_flight : N;
  latencies_ms : list N;
}.

Definition default_metrics : EndpointMetrics :=
  MkEndpointMetrics 0 0 0 0 0 0 0 0 [].

Record ServiceMetrics := MkServiceMetrics {
  endpoints : gmap string EndpointMetrics;
  warn_in_flight : N;
  latency_sample_limit : nat;
}.

(** [new]: the environment variable's parsed value, when it parses. *)
Definition new (env_warn_in_flight : option N) : ServiceMetrics :=
  MkServiceMetrics ∅ (default DEFAULT_WARN_IN_FLIGHT env_warn_in_flight)
    DEFAULT_LATENCY_SAMPLE_LIMIT.

Definition entry (m : ServiceMetrics) (endpoint : string) : EndpointMetrics :=
  default default_metrics (endpoints m !! endpoint).

Definition put (m : ServiceMetrics) (endpoint : string) (e : EndpointMetrics) :
    ServiceMetrics :=
  MkServiceMetrics (<[endpoint := e]> (endpoints m)) (warn_in_flight m)
    (latency_sample_limit m).

(** [start]: the new state, and whether the in-flight warning is printed. *)
Definition start (m : ServiceMetrics) (endpoint : string) : ServiceMetrics * bool :=
  let e := entry m endpoint in
  let inflight := wrap64 (in_flight e + 1) in
  let e' := MkEndpointMetrics (wrap64 (request_count e + 1)) (error_count e)
              (non_success_count e) (client_error_count e) (server_error_count e)
              (not_found_count e) inflight (N.max (max_in_flight e) inflight)
              (latencies_ms e) in
  (put m endpoint e', warn_in_flight m <? inflight).

Definition in_range (lo hi status : N) : bool := (lo <=? status) && (status <? hi).

Definition bump (b : bool) (c : N) : N := if b then wrap64 (c + 1) else c.

(** [while latencies_ms.len() > limit { pop_front() }] *)
Fixpoint trim (limit : nat) (l : list N) : list N :=
  match l with
  | [] => []
  | _ :: l' => if (limit <? length l)%nat then trim limit l' else l
  end.

Definition finish_entry (limit : nat) (e : EndpointMetrics) (latency : N)
    (status_code : option N) : EndpointMetrics :=
  let inflight := if 0 <? in_flight e then in_flight e - 1 else in_flight e in
  let is_error :=
    match status_code with Some s => negb (in_range 200 300 s) | None => false end in
  let on (p : N → bool) := match status_code with Some s => p s | None => false end in
  MkEndpointMetrics (request_count e)
    (bump is_error (error_count e))
    (bump (on (λ s, negb (in_range 200 300 s))) (non_success_count e))
    (bump (on (in_range 400 500)) (client_error_count e))
    (bump (on (in_range 500 600)) (server_error_count e))
    (bump (on (λ s, s =? 404)) (not_found_count e))
    inflight (max_in_flight e)
    (trim limit (latencies_ms e ++ [latency])).

Definition finish (m : ServiceMetrics) (endpoint : string) (latency : N)
    (status_code : option N) : ServiceMetrics :=
  put m endpoint
    (finish_entry (latency_sample_limit m) (entry m endpoint) latency status_code).

(** [EndpointMetricsGuard::finish] and [finish_http_status]. *)
Definition guard_finish (m : ServiceMetrics) (endpoint : string) (latency : N)
    (error : bool) : ServiceMetrics :=
  finish m endpoint latency (if error then Some 500 else Some 200).

Definition guard_finish_http_status (m : ServiceMetrics) (endpoint : string)
    (latency status : N) : ServiceMetrics :=
  finish m endpoint latency (Some status).

(** [usize::div_ceil] *)
Definition div_ceil (a b : nat) : nat := ((a + (b - 1)) / b)%nat.

Definition percentile (sorted : list N) (pct : nat) : option N :=
  sorted !! div_ceil ((length sorted - 1) * pct) 100.

Definition latency_percentiles (latencies : list N) :
    option N * option N * option N * option N :=
  match latencies with
  | [] => (None, None, None, None)
  | _ =>
      let sorted := merge_sort N.le latencies in
      (percentile sorted 50, percentile sorted 95, percentile sorted 99,
       last sorted)
  end.

Record EndpointMetricsSnapshot := MkSnapshot {
  snap_metrics : EndpointMetrics;
  latency_sample_count : nat;
  latency_p50_ms : option N;
  latency_p95_ms : option N;
  latency_p99_ms : option N;
  latency_max_ms : option N;
}.

Definition snapshot_entry (e : EndpointMetrics) : EndpointMetricsSnapshot :=
  let '(p50, p95, p99, mx) := latency_percentiles (latencies_ms e) in
  MkSnapshot e (length (latencies_ms e)) p50 p95 p99 mx.

Definition snapshot (m : ServiceMetrics) : gmap string EndpointMetricsSnapshot :=
  snapshot_entry <$> endpoints m.

(** ** Traces of events on all endpoints, and what one endpoint sees of them *)

Inductive event :=
| Started
| Finished (latency : N) (status : option N).

Definition apply_event (m : ServiceMetrics) (ev : string * event) : ServiceMetrics :=
  match ev with
  | (endpoint, Started) => fst (start m endpoint)
  | (endpoint, Finished l s) => finish m endpoint l s
  end.

Definition run (m : ServiceMetrics) (evs : list (string * event)) : ServiceMetrics :=
  foldl apply_event m evs.

Definition events_of (endpoint : string) (evs : list (string * event)) : list event :=
  snd <$> filter (λ ev, ev.1 = endpoint) evs.

Definition is_started (ev : event) : bool :=
  match ev with Started => true | _ => false end.

Definition latencies (evs : list event) : list N :=
  omap (λ ev, match ev with Finished l _ => Some l | Started => None end) evs.

Definition statuses (evs : list event) : list N :=
  omap (λ ev, match ev with Finished _ (Some s) => Some s | _ => None end) evs.

Definition count {A} (p : A → bool) (l : list A) : N := N.of_nat (length (filter p l)).

(** Requests in flight and their peak, reading the events left to right: a
    [Finished] with nothing in flight is ignored, as in the code. *)
Definition flight_peak (evs : list event) : N * N :=
  foldl (λ '(n, pk) ev,
           match ev with
           | Started => (n + 1, N.max pk (n + 1))
           | Finished _ _ => (n - 1, pk)
           end) (0, 0) evs.

(** ** Lemmas *)

Lemma trim_drop limit l : trim limit l = drop (length l - limit) l.
Proof.
  induction l as [|x l IH]; [by rewrite drop_nil|].
  cbn [trim]. destruct (Nat.ltb_spec limit (length (x :: l))) as [H|H].
  - rewrite IH. simpl in *.
    replace (S (length l) - limit)%nat with (S (length l - limit)) by lia. done.
  - replace (length (x :: l) - limit)%nat with 0%nat by lia. done.
Qed.

Lemma drop_drop_snoc {A} (n : nat) (l : list A) (x : A) :
  drop (length (drop (length l - n) l ++ [x]) - n) (drop (length l - n) l ++ [x])
  = drop (length (l ++ [x]) - n) (l ++ [x]).
Proof.
  rewrite !length_app, length_drop. simpl.
  destruct (decide (length l <= n)%nat) as [Hle|Hgt].
  - replace (length l - n)%nat with 0%nat by lia. rewrite drop_0.
    f_equal. lia.
  - rewrite <-drop_app_le by lia. rewrite drop_drop. f_equal. lia.
Qed.

Lemma entry_put m ep e : entry (put m ep e) ep = e.
Proof. unfold entry, put. simpl. by rewrite lookup_insert_eq. Qed.

Lemma entry_put_ne m ep ep' e : ep ≠ ep' → entry (put m ep e) ep' = entry m ep'.
Proof. intros. unfold entry, put. simpl. by rewrite lookup_insert_ne. Qed.

Lemma count_snoc {A} (p : A → bool) l x :
  count p (l ++ [x]) = count p l + (if p x then 1 else 0).
Proof.
  unfold count. rewrite filter_app, length_app.
  destruct (p x) eqn:E.
  - rewrite filter_true by done. simpl. lia.
  - rewrite filter_false by done. simpl. lia.
Qed.

Lemma count_bound {A} (p : A → bool) l : count p l <= N.of_nat (length l).
Proof. unfold count. pose proof (length_filter p l). lia. Qed.

Lemma statuses_snoc evs l s :
  statuses (evs ++ [Finished l s]) = statuses evs ++ option_list s.
Proof. unfold statuses. rewrite omap_app. by destruct s. Qed.

Lemma length_statuses evs : (length (statuses evs) <= length evs)%nat.
Proof.
  induction evs as [|ev evs IH] using rev_ind; [done|].
  rewrite length_app. simpl. destruct ev as [|l s].
  - unfold statuses in *. rewrite omap_app, length_app. simpl. lia.
  - rewrite statuses_snoc, length_app. destruct s; simpl; lia.
Qed.

Lemma flight_peak_snoc evs ev :
  flight_peak (evs ++ [ev])
  = match ev with
    | Started => ((flight_peak evs).1 + 1,
                  N.max (flight_peak evs).2 ((flight_peak evs).1 + 1))
    | Finished _ _ => ((flight_peak evs).1 - 1, (flight_peak evs).2)
    end.
Proof. unfold flight_peak. rewrite foldl_app. simpl. by destruct (foldl _ _ _), ev. Qed.

Lemma flight_peak_bound evs :
  (flight_peak evs).1 <= (flight_peak evs).2 <= count is_started evs.
Proof.
  induction evs as [|ev evs IH] using rev_ind; [done|].
  rewrite flight_peak_snoc, count_snoc. destruct ev; simpl in *; lia.
Qed.

Lemma run_snoc m evs ev : run m (evs ++ [ev]) = apply_event (run m evs) ev.
Proof. unfold run. by rewrite foldl_app. Qed.

Lemma run_limit m evs : latency_sample_limit (run m evs) = latency_sample_limit m.
Proof.
  induction evs as [|[ep [|l s]] evs IH] using rev_ind; [done|..]; rewrite run_snoc; done.
Qed.

Lemma events_of_snoc ep evs ep' ev :
  events_of ep (evs ++ [(ep', ev)])
  = events_of ep evs ++ (if decide (ep' = ep) then [ev] else []).
Proof.
  unfold events_of. rewrite filter_app, fmap_app. f_equal.
  rewrite filter_cons. simpl. by repeat case_decide.
Qed.

(** What an endpoint's record says of the events the endpoint saw. *)
Definition describes (limit : nat) (e : EndpointMetrics) (evs : list event) : Prop :=
  e = MkEndpointMetrics
    (count is_started evs)
    (count (λ s, negb (in_range 200 300 s)) (statuses evs))
    (count (λ s, negb (in_range 200 300 s)) (statuses evs))
    (count (in_range 400 500) (statuses evs))
    (count (in_range 500 600) (statuses evs))
    (count (λ s, s =? 404) (statuses evs))
    (flight_peak evs).1 (flight_peak evs).2
    (drop (length (latencies evs) - limit) (latencies evs)).

Lemma bump_count (p : N → bool) (l : list N) (s : option N) :
  N.of_nat (length l) + 1 < pow64 →
  bump (match s with Some x => p x | None => false end) (count p l)
  = count p (l ++ option_list s).
Proof.
  intros Hb. destruct s as [x|]; simpl; [|by rewrite app_nil_r].
  rewrite count_snoc. pose proof (count_bound p l).
  destruct (p x); simpl; [apply wrap64_small|]; lia.
Qed.

Lemma describes_start limit e evs :
  N.of_nat (length evs) + 1 < pow64 →
  describes limit e evs →
  describes limit
    (MkEndpointMetrics (wrap64 (request_count e + 1)) (error_count e)
       (non_success_count e) (client_error_count e) (server_error_count e)
       (not_found_count e) (wrap64 (in_flight e + 1))
       (N.max (max_in_flight e) (wrap64 (in_flight e + 1))) (latencies_ms e))
    (evs ++ [Started]).
Proof.
  intros Hb ->. unfold describes. simpl.
  pose proof (count_bound is_started evs). pose proof (flight_peak_bound evs).
  rewrite !wrap64_small, flight_peak_snoc, count_snoc by lia.
  unfold statuses, latencies. rewrite !omap_app. simpl. by rewrite !app_nil_r.
Qed.

Lemma describes_finish limit e evs l s :
  N.of_nat (length evs) + 1 < pow64 →
  describes limit e evs →
  describes limit (finish_entry limit e l s) (evs ++ [Finished l s]).
Proof.
  intros Hb ->. unfold describes, finish_entry. simpl.
  pose proof (length_statuses evs) as Hs.
  rewrite !bump_count by lia.
  rewrite flight_peak_snoc, count_snoc, statuses_snoc, trim_drop. simpl.
  rewrite N.add_0_r. unfold latencies. rewrite omap_app. simpl.
  rewrite drop_drop_snoc. f_equal.
  destruct (N.ltb_spec 0 (flight_peak evs).1); lia.
Qed.

#[export] Instance le_trans_N : Transitive N.le := N.le_trans.
#[export] Instance le_total_N : Total N.le := N.le_ge_cases.

Lemma sorted_lookup_le l i j x y :
  Sorted N.le l → l !! i = Some x → l !! j = Some y → (i <= j)%nat → x <= y.
Proof.
  intros Hs%(Sorted_StronglySorted N.le) Hi Hj Hij.
  destruct (decide (i = j)) as [->|Hne]; [simplify_eq; lia|].
  rewrite <-(take_drop (S i) l) in Hs.
  eapply (StronglySorted_app_1_elem_of N.le); [exact Hs|..].
  - apply list_elem_of_lookup. exists i. rewrite lookup_take_lt; [done|lia].
  - apply list_elem_of_lookup. exists (j - S i)%nat. rewrite lookup_drop.
    by replace (S i + (j - S i))%nat with j by lia.
Qed.

(** The element at index [i] of a sorted list has at most [i] elements below it
    and more than [i] elements at most as large. *)
Lemma sorted_rank l i v :
  Sorted N.le l → l !! i = Some v →
  (length (filter (λ x, (x < v)%N) l) <= i)%nat
  ∧ (i < length (filter (λ x, (x <= v)%N) l))%nat.
Proof.
  intros Hs Hv. pose proof (lookup_lt_Some _ _ _ Hv) as Hlt.
  assert (Hlo : Forall (λ x, x <= v) (take (S i) l)).
  { apply Forall_lookup. intros j x [Hj ?]%lookup_take_Some.
    eapply sorted_lookup_le; [done|exact Hj|exact Hv|lia]. }
  assert (Hhi : Forall (λ x, ¬ x < v) (drop i l)).
  { apply Forall_lookup. intros j x Hj. rewrite lookup_drop in Hj.
    apply N.nlt_ge. eapply sorted_lookup_le; [done|exact Hv|exact Hj|lia]. }
  split.
  - rewrite <-(take_drop i l), filter_app, (filter_all_false _ (drop i l)) by done.
    rewrite app_nil_r. etrans; [apply length_filter|]. rewrite length_take. lia.
  - rewrite <-(take_drop (S i) l) at 1.
    rewrite filter_app, (filter_all_true _ (take (S i) l)) by done.
    rewrite length_app, length_take. lia.
Qed.

Lemma div_ceil_spec a b :
  (0 < b)%nat → (a <= b * div_ceil a b < a + b)%nat.
Proof.
  intros Hb. unfold div_ceil.
  pose proof (Nat.div_mod_eq (a + (b - 1)) b).
  pose proof (Nat.mod_upper_bound (a + (b - 1)) b). lia.
Qed.

Lemma rank_mono a a' : (a <= a')%nat → (div_ceil a 100 <= div_ceil a' 100)%nat.
Proof. intros. unfold div_ceil. apply Nat.Div0.div_le_mono. lia. Qed.

Lemma rank_lt n pct :
  (0 < n)%nat → (pct <= 100)%nat → (div_ceil ((n - 1) * pct) 100 < n)%nat.
Proof. intros Hn Hp. pose proof (div_ceil_spec ((n - 1) * pct) 100). nia. Qed.

Lemma count_permutation (P : N → Prop) `{∀ x, Decision (P x)} l1 l2 :
  l1 ≡ₚ l2 → length (filter P l1) = length (filter P l2).
Proof. intros ->. done. Qed.

(** What it means for [v] to be the [pct]-th percentile of the samples [l]: the
    order statistic of (0-based) rank [ceil ((n - 1) * pct / 100)]. *)
Definition is_percentile (l : list N) (pct : nat) (v : N) : Prop :=
  let rank := div_ceil ((length l - 1) * pct) 100 in
  v ∈ l
  ∧ (length (filter (λ x, (x < v)%N) l) <= rank)%nat
  ∧ (rank < length (filter (λ x, (x <= v)%N) l))%nat.

Lemma percentile_sorted l pct :
  l ≠ [] → (pct <= 100)%nat →
  ∃ v, percentile (merge_sort N.le l) pct = Some v ∧ is_percentile l pct v.
Proof.
  intros Hl Hp. unfold percentile, is_percentile.
  pose proof (merge_sort_Permutation N.le l) as Hperm.
  assert (Hn : (0 < length l)%nat) by (destruct l; simpl; [done|lia]).
  rewrite (Permutation_length Hperm).
  destruct (lookup_lt_is_Some_2 (merge_sort N.le l)
              (div_ceil ((length l - 1) * pct) 100)) as [v Hv].
  { rewrite (Permutation_length Hperm). by apply rank_lt. }
  exists v. split; [done|].
  apply sorted_rank in Hv as Hr; [|apply Sorted_merge_sort; apply _].
  rewrite !(count_permutation _ _ _ Hperm) in Hr.
  split; [|done]. rewrite <-Hperm. by eapply list_elem_of_lookup_2.
Qed.

Lemma percentile_mono l p q v w :
  (p <= q)%nat → percentile (merge_sort N.le l) p = Some v →
  percentile (merge_sort N.le l) q = Some w → v <= w.
Proof.
  intros Hpq Hv Hw. eapply sorted_lookup_le; [|exact Hv|exact Hw|].
  - apply Sorted_merge_sort; apply _.
  - apply rank_mono. nia.
Qed.

Lemma percentile_le_last l p v :
  percentile (merge_sort N.le l) p = Some v →
  ∃ mx, last (merge_sort N.le l) = Some mx ∧ mx ∈ l ∧ (∀ x, x ∈ l → x <= mx) ∧ v <= mx.
Proof.
  intros Hv. pose proof (merge_sort_Permutation N.le l) as Hperm.
  pose proof (lookup_lt_Some _ _ _ Hv) as Hlt.
  rewrite last_lookup.
  destruct (lookup_lt_is_Some_2 (merge_sort N.le l)
              (pred (length (merge_sort N.le l)))) as [mx Hmx]; [lia|].
  assert (Hs : Sorted N.le (merge_sort N.le l)) by (apply Sorted_merge_sort; apply _).
  exists mx. split; [done|]. split; [|split].
  - rewrite <-Hperm. by eapply list_elem_of_lookup_2.
  - intros x Hx. rewrite <-Hperm in Hx. apply list_elem_of_lookup in Hx as [i Hi].
    pose proof (lookup_lt_Some _ _ _ Hi).
    eapply sorted_lookup_le; [done|exact Hi|exact Hmx|lia].
  - eapply sorted_lookup_le; [done|exact Hv|exact Hmx|lia].
Qed.

(** After any interleaving, each endpoint's record is determined by its events. *)
Lemma run_describes_events limit warn evs ep :
  N.of_nat (length evs) < pow64 →
  describes limit (entry (run (MkServiceMetrics ∅ warn limit) evs) ep) (events_of ep evs).
Proof.
  induction evs as [|[ep' ev] evs IH] using rev_ind; intros Hb; [done|].
  rewrite length_app in Hb. simpl in Hb.
  rewrite run_snoc, events_of_snoc.
  assert (He : (length (events_of ep evs) <= length evs)%nat)
    by (unfold events_of; rewrite length_fmap; apply length_filter).
  specialize (IH ltac:(lia)).
  case_decide as E; [subst ep'|rewrite app_nil_r]; destruct ev as [|l s]; simpl.
  - rewrite entry_put. apply describes_start; [lia|done].
  - unfold finish. rewrite entry_put, run_limit. apply describes_finish; [lia|done].
  - by rewrite entry_put_ne.
  - unfold finish. by rewrite entry_put_ne.
Qed.

(** ** Properties *)

(** starting from an empty registry, after any interleaving of requests on
    any endpoints (fewer than 2^64 events), the record of every endpoint is
    exactly determined by the events of that endpoint alone: request, error,
    client-error, server-error and not-found counts are the numbers of such
    events, the in-flight gauge and its maximum are those of the event order,
    and the latency window is the last [limit] latencies, oldest first. *)
Theorem run_describes limit warn evs ep :
  N.of_nat (length evs) < pow64 →
  describes limit (entry (run (MkServiceMetrics ∅ warn limit) evs) ep) (events_of ep evs).
Proof. apply run_describes_events. Qed.

Lemma run_describes_witness :
  describes 2 (entry (run (MkServiceMetrics ∅ 128 2)
    [("a", Started); ("b", Started); ("a", Finished 7 (Some 404))]) "a")
    [Started; Finished 7 (Some 404)].
Proof.
  apply (run_describes 2 128
    [("a", Started); ("b", Started); ("a", Finished 7 (Some 404))] "a").
  reflexivity.
Defined.

(** for a non-empty latency window the snapshot's p50, p95, p99 and maximum
    exist, are samples of the window, are the order statistics of the stated
    rank, and satisfy p50 <= p95 <= p99 <= max with no sample above max. *)
Theorem snapshot_percentiles e :
  latencies_ms e ≠ [] →
  ∃ p50 p95 p99 mx,
    let s := snapshot_entry e in
    (latency_p50_ms s, latency_p95_ms s, latency_p99_ms s, latency_max_ms s)
      = (Some p50, Some p95, Some p99, Some mx)
    ∧ is_percentile (latencies_ms e) 50 p50
    ∧ is_percentile (latencies_ms e) 95 p95
    ∧ is_percentile (latencies_ms e) 99 p99
    ∧ mx ∈ latencies_ms e ∧ (∀ x, x ∈ latencies_ms e → x <= mx)
    ∧ p50 <= p95 <= p99 ∧ p99 <= mx.
Proof.
  intros Hl. unfold snapshot_entry.
  destruct (percentile_sorted (latencies_ms e) 50) as (p50 & H50 & I50); [done|lia|].
  destruct (percentile_sorted (latencies_ms e) 95) as (p95 & H95 & I95); [done|lia|].
  destruct (percentile_sorted (latencies_ms e) 99) as (p99 & H99 & I99); [done|lia|].
  destruct (percentile_le_last _ _ _ H99) as (mx & Hmx & Hin & Hmax & Hle).
  pose proof (percentile_mono _ 50 95 _ _ ltac:(lia) H50 H95).
  pose proof (percentile_mono _ 95 99 _ _ ltac:(lia) H95 H99).
  exists p50, p95, p99, mx. unfold latency_percentiles.
  destruct (latencies_ms e) as [|x l] eqn:E; [done|]. simpl latency_p50_ms.
  rewrite H50, H95, H99, Hmx. simpl. split_and!; try done; apply Hmax.
Qed.

Lemma snapshot_percentiles_witness :
  ∃ p50 p95 p99 mx,
    let s := snapshot_entry (MkEndpointMetrics 3 0 0 0 0 0 0 1 [30; 10; 20]) in
    (latency_p50_ms s, latency_p95_ms s, latency_p99_ms s, latency_max_ms s)
      = (Some p50, Some p95, Some p99, Some mx)
    ∧ is_percentile [30; 10; 20] 50 p50
    ∧ is_percentile [30; 10; 20] 95 p95
    ∧ is_percentile [30; 10; 20] 99 p99
    ∧ mx ∈ [30; 10; 20] ∧ (∀ x, x ∈ [30; 10; 20] → x <= mx)
    ∧ p50 <= p95 <= p99 ∧ p99 <= mx.
Proof.
  apply (snapshot_percentiles (MkEndpointMetrics 3 0 0 0 0 0 0 1 [30; 10; 20])).
  discriminate.
Defined.
