(* ===== verification/Http.v ===== *)
(** * HTTP servers

    What the four servers of the benchmark share: every handler starts the metrics
    of its endpoint, runs one operation of its service, turns the outcome into a
    response, and finishes the metrics with the response's status.  [HttpService]
    is the interface of a server; the theorem about the metrics is proved once
    against it. The latency of a request is an input. *)

From S2P Require Import Prelude Text ServiceMetrics.
From stdpp Require Import options.

Local Open Scope N_scope.

(** A response body: raw bytes, a message, or a JSON value of the server. *)
Inductive Body (J : Type) :=
| NoBody
| Octets (b : bytes)
| Message (s : string)
| Json (j : J).
Arguments NoBody {_}.
Arguments Octets {_} _.
Arguments Message {_} _.
Arguments Json {_} _.

Record Response (J : Type) := MkResponse { status : N; body : Body J }.
Arguments MkResponse {_} _ _.
Arguments status {_} _.
Arguments body {_} _.

Definition OK : N := 200.
Definition BAD_REQUEST : N := 400.
Definition NOT_FOUND : N := 404.
Definition CONFLICT : N := 409.

Definition status_only {J} (s : N) : Response J := MkResponse s NoBody.
Definition bytes_response {J} (b : bytes) : Response J := MkResponse OK (Octets b).

(** [match o { Some(x) => f(x), None => NOT_FOUND }] *)
Definition or_not_found {A J} (f : A → Response J) (o : option A) : Response J :=
  match o with Some x => f x | None => status_only NOT_FOUND end.

Class HttpService (S Req J : Type) := {
  get_metrics : S → ServiceMetrics;
  put_metrics : S → ServiceMetrics → S;
  handle : S → N → Req → S * Response J;
}.

Section observed.
Context {S J : Type} (get : S → ServiceMetrics) (put : S → ServiceMetrics → S).

(** [let metrics = state.metrics().start(ep); let response = ..;
    metrics.finish_http_status(response.status())] *)
Definition observed (ep : string) (latency : N) (op : S → S * Response J) (s : S) :
    S * Response J :=
  let s1 := put s (start (get s) ep).1 in
  let '(s2, response) := op s1 in
  (put s2 (guard_finish_http_status (get s2) ep latency (status response)), response).

(** The handlers that always answer [OK] finish with [finish(false)]. *)
Definition observed_ok (ep : string) (latency : N) (op : S → S) (s : S) : S * Response J :=
  let s1 := put s (start (get s) ep).1 in
  let s2 := op s1 in
  (put s2 (guard_finish (get s2) ep latency false), status_only OK).
End observed.

(** The law of a server: a request is one start and one finish of its endpoint,
    with the status of the response, and touches no other metrics. *)
Class HttpServiceLaws (S Req J : Type) `{!HttpService S Req J} := {
  endpoint_of : Req → string;
  handle_metrics (s : S) latency r :
    get_metrics (handle s latency r).1
    = finish (start (get_metrics s) (endpoint_of r)).1 (endpoint_of r) latency
        (Some (status (handle s latency r).2));
}.

(** An observed operation that leaves the metrics alone obeys the law. *)
Section observed_laws.
Context {S J : Type} (get : S → ServiceMetrics) (put : S → ServiceMetrics → S).
Context (get_put : ∀ s m, get (put s m) = m).

Lemma observed_metrics ep latency (op : S → S * Response J) s :
  (∀ s, get (op s).1 = get s) →
  get (observed get put ep latency op s).1
  = finish (start (get s) ep).1 ep latency
      (Some (status (observed get put ep latency op s).2)).
Proof using get_put.
  intros Hop. unfold observed. specialize (Hop (put s (start (get s) ep).1)).
  destruct (op _) as [s2 resp]. simpl in *. by rewrite get_put, Hop, get_put.
Qed.

Lemma observed_ok_metrics ep latency (op : S → S) s :
  (∀ s, get (op s) = get s) →
  get (observed_ok (J := J) get put ep latency op s).1
  = finish (start (get s) ep).1 ep latency (Some OK).
Proof using get_put. intros Hop. simpl. by rewrite get_put, Hop, get_put. Qed.
End observed_laws.

Section server.
Context {S Req J : Type} `{srv : !HttpService S Req J, laws : !HttpServiceLaws S Req J}.

(** A sequence of requests with their latencies, and the responses. *)
Fixpoint serve (s : S) (reqs : list (Req * N)) : S * list (Response J) :=
  match reqs with
  | [] => (s, [])
  | (r, latency) :: rest =>
      let '(s1, resp) := handle s latency r in
      let '(s2, resps) := serve s1 rest in (s2, resp :: resps)
  end.

Definition http_events (reqs : list (Req * N)) (resps : list (Response J)) :
    list (string * event) :=
  mjoin (zip_with (λ '(r, latency) resp,
           [(endpoint_of r, Started); (endpoint_of r, Finished latency (Some (status resp)))])
         reqs resps).

Lemma serve_metrics reqs : ∀ s,
  get_metrics (serve s reqs).1
  = run (get_metrics s) (http_events reqs (serve s reqs).2)
  ∧ length (serve s reqs).2 = length reqs.
Proof.
  induction reqs as [|[r l] reqs IH]; intros s; [done|]. simpl.
  pose proof (handle_metrics s l r) as Hm. destruct (handle s l r) as [s1 resp].
  destruct (IH s1) as [H1 H2]. destruct (serve s1 reqs) as [s2 resps]. simpl in *.
  rewrite H1, H2. split; [|done]. by rewrite Hm.
Qed.

Lemma length_http_events reqs resps :
  (length (http_events reqs resps) <= 2 * length reqs)%nat.
Proof.
  unfold http_events. revert resps.
  induction reqs as [|[r l] reqs IH]; intros [|resp resps]; simpl; try lia.
  specialize (IH resps). simpl in *. lia.
Qed.

(** The requests an endpoint served: latency and status. *)
Definition served_at (ep : string) (reqs : list (Req * N)) (resps : list (Response J)) :
    list (N * N) :=
  omap (λ '((r, latency), resp),
          if decide (endpoint_of r = ep) then Some (latency, status resp) else None)
    (zip reqs resps).

Lemma http_events_of ep reqs resps :
  events_of ep (http_events reqs resps)
  = served_at ep reqs resps ≫= λ x, [Started; Finished x.1 (Some x.2)].
Proof.
  unfold http_events, served_at, events_of. revert resps.
  induction reqs as [|[r l] reqs IH]; intros [|resp resps]; [done..|].
  cbn [zip_with mjoin list_join zip omap list_omap app].
  rewrite !filter_cons. cbn [fst]. case_decide as E; cbn [fmap list_fmap]; by rewrite IH.
Qed.

Lemma paired_events (l : list (N * N)) :
  let evs := l ≫= λ x, [Started; Finished x.1 (Some x.2)] in
  count is_started evs = N.of_nat (length l)
  ∧ statuses evs = l.*2 ∧ latencies evs = l.*1 ∧ (flight_peak evs).1 = 0.
Proof.
  induction l as [|[lat st] l IH] using rev_ind; [done|]. simpl in *.
  rewrite bind_app. cbn [mbind list_bind app fst snd].
  destruct IH as (H1 & H2 & H3 & H4).
  set (evs := l ≫= _) in *.
  assert (Hf : (flight_peak (evs ++ [Started; Finished lat (Some st)])).1 = 0).
  { unfold flight_peak. rewrite foldl_app. fold (flight_peak evs).
    destruct (flight_peak evs). simpl in *. lia. }
  unfold count, statuses, latencies in *. rewrite filter_app, !omap_app, !fmap_app, H2, H3, !length_app.
  split_and!; [|done|done|done]. simpl. lia.
Qed.

(** What a server's metrics say once its requests are answered. *)
Lemma serve_describes s reqs warn limit ep :
  get_metrics s = MkServiceMetrics ∅ warn limit →
  2 * N.of_nat (length reqs) < pow64 →
  let '(s', resps) := serve s reqs in
  let served := served_at ep reqs resps in
  let e := entry (get_metrics s') ep in
  request_count e = N.of_nat (length served) ∧ in_flight e = 0
  ∧ error_count e = count (λ st, negb (in_range 200 300 st)) (served.*2)
  ∧ client_error_count e = count (in_range 400 500) (served.*2)
  ∧ not_found_count e = count (λ st, st =? 404) (served.*2)
  ∧ latencies_ms e = drop (length served - limit) (served.*1).
Proof.
  intros Hs Hb. destruct (serve_metrics reqs s) as [Hm Hl].
  destruct (serve s reqs) as [s' resps]. simpl in *. rewrite Hm, Hs.
  pose proof (length_http_events reqs resps).
  pose proof (run_describes_events limit warn (http_events reqs resps) ep ltac:(lia)) as Hd.
  rewrite http_events_of in Hd. unfold describes in Hd. rewrite Hd.
  destruct (paired_events (served_at ep reqs resps)) as (H1 & H2 & H3 & H4).
  rewrite H1, H2, H3. simpl. rewrite H4, length_fmap. done.
Qed.
End server.
