(* ===== verification/Inbox.v ===== *)
(** * Per-recipient inboxes

    The services keep [RwLock<HashMap<String, Arc<Mutex<VecDeque<T>>>>>]: one
    FIFO queue per recipient, created on first use and never dropped.  Each
    operation below is one critical section of the code ([inbox_queue] followed
    by one queue operation).  The contract clients rely on is at-least-once
    delivery: [fetch] replays the same envelope until it is acknowledged by its
    identifier, and an acknowledged envelope is never replayed. *)

From S2P Require Import Prelude.
From stdpp Require Import options.

Section inbox.
Context {A : Type}.
Implicit Types (m : gmap string (list A)) (r : string).

(** The queue a recipient observes: an absent inbox is an empty one. *)
Definition queue m r : list A := default [] (m !! r).

Definition push m r (x : A) : gmap string (list A) := <[r := queue m r ++ [x]]> m.

Definition pop m r : gmap string (list A) * option A :=
  match m !! r with
  | Some (x :: q) => (<[r := q]> m, Some x)
  | _ => (m, None)
  end.

Definition peek m r : option A := m !! r ≫= head.

Definition find_first (p : A → bool) m r : option A :=
  let! q <- m !! r in List.find p q.

(** [queue.retain(|x| x.id != id); before != queue.len()] *)
Definition ack (id_of : A → string) m r (id : string) : gmap string (list A) * bool :=
  match m !! r with
  | None => (m, false)
  | Some q =>
      let q' := filter (λ x, id_of x ≠ id) q in
      (<[r := q']> m, negb (length q =? length q')%nat)
  end.

Lemma queue_push m r x : queue (push m r x) r = queue m r ++ [x].
Proof. unfold queue, push. by rewrite lookup_insert_eq. Qed.

Lemma queue_push_ne m r r' x : r ≠ r' → queue (push m r x) r' = queue m r'.
Proof. intros. unfold queue, push. by rewrite lookup_insert_ne. Qed.

Lemma peek_queue m r : peek m r = head (queue m r).
Proof. unfold peek, queue. by destruct (m !! r). Qed.

Lemma pop_queue m r :
  (pop m r).2 = head (queue m r) ∧ queue (pop m r).1 r = tail (queue m r).
Proof.
  unfold pop, queue. destruct (m !! r) as [[|x q]|] eqn:E; simpl;
    rewrite ?E, ?lookup_insert_eq; done.
Qed.

Lemma pop_queue_ne m r r' : r ≠ r' → queue (pop m r).1 r' = queue m r'.
Proof.
  intros. unfold pop, queue. destruct (m !! r) as [[|x q]|]; simpl;
    by rewrite ?lookup_insert_ne.
Qed.

Lemma ack_queue id_of m r id :
  queue (ack id_of m r id).1 r = filter (λ x, id_of x ≠ id) (queue m r).
Proof.
  unfold ack, queue. destruct (m !! r) as [q|] eqn:E; simpl.
  - by rewrite lookup_insert_eq.
  - by rewrite E.
Qed.

Lemma ack_queue_ne id_of m r r' id :
  r ≠ r' → queue (ack id_of m r id).1 r' = queue m r'.
Proof.
  intros. unfold ack, queue. destruct (m !! r); simpl; by rewrite ?lookup_insert_ne.
Qed.

Lemma ack_result id_of m r id :
  (ack id_of m r id).2 = true ↔ ∃ x, x ∈ queue m r ∧ id_of x = id.
Proof.
  unfold ack, queue. destruct (m !! r) as [q|]; simpl;
    [|split; [done|intros (x & Hx%not_elem_of_nil & _); done]].
  rewrite negb_true_iff, Nat.eqb_neq. split.
  - intros Hne. destruct (decide (Exists (λ x, id_of x = id) q)) as [He|He].
    + by apply Exists_exists in He.
    + destruct Hne. rewrite filter_all_true; [done|].
      apply Forall_forall. intros x Hx Hid. apply He, Exists_exists. eauto.
  - intros (x & Hx & Hid) Heq. symmetry in Heq. apply length_filter_eq in Heq.
    rewrite <-Heq in Hx. apply list_elem_of_filter in Hx. naive_solver.
Qed.

(** Acknowledging the head of a queue removes it, and what has the same identifier. *)
Lemma ack_front id_of m r x q :
  queue m r = x :: q →
  queue (ack id_of m r (id_of x)).1 r = filter (λ y, id_of y ≠ id_of x) q
  ∧ (ack id_of m r (id_of x)).2 = true.
Proof.
  intros Hq. split.
  - by rewrite ack_queue, Hq, filter_cons_False by (intros Hx; by apply Hx).
  - apply ack_result. exists x. rewrite Hq. split; [apply list_elem_of_here|done].
Qed.

(** When the identifiers are distinct, that is the head and nothing else. *)
Lemma ack_head id_of m r x q :
  queue m r = x :: q → NoDup (id_of <$> queue m r) →
  queue (ack id_of m r (id_of x)).1 r = q ∧ (ack id_of m r (id_of x)).2 = true.
Proof.
  intros Hq Hnd. destruct (ack_front id_of m r x q Hq) as [-> Hok]. split; [|done].
  apply filter_all_true, Forall_forall. intros y Hy Heq.
  rewrite Hq, fmap_cons, NoDup_cons in Hnd. destruct Hnd as [Hni _].
  apply Hni. rewrite <-Heq. by apply list_elem_of_fmap_2.
Qed.

(** The entries of a queue, without the later ones that repeat an identifier *)
Fixpoint firsts (id_of : A → string) (l : list A) : list A :=
  match l with
  | [] => []
  | x :: l => x :: filter (λ y, id_of y ≠ id_of x) (firsts id_of l)
  end.

Lemma firsts_filter id_of i l :
  firsts id_of (filter (λ y, id_of y ≠ i) l) = filter (λ y, id_of y ≠ i) (firsts id_of l).
Proof.
  induction l as [|x l IH]; [done|]. cbn [firsts]. rewrite !filter_cons.
  destruct (decide (id_of x ≠ i)) as [Hx|Hx]; cbn [firsts]; rewrite IH, !list_filter_filter.
  - f_equal. apply list_filter_iff. tauto.
  - apply list_filter_iff. intros y. apply dec_stable in Hx. subst i. tauto.
Qed.

Lemma firsts_id id_of l i : i ∈ id_of <$> firsts id_of l ↔ i ∈ id_of <$> l.
Proof.
  induction l as [|x l IH]; [done|]. cbn [firsts fmap list_fmap]. rewrite !elem_of_cons, <-IH.
  rewrite !list_elem_of_fmap. setoid_rewrite list_elem_of_filter.
  destruct (decide (i = id_of x)); naive_solver.
Qed.

Lemma firsts_distinct id_of l : NoDup (id_of <$> l) → firsts id_of l = l.
Proof.
  induction l as [|x l IH]; [done|]. cbn [firsts fmap list_fmap]. intros [Hx Hl]%NoDup_cons.
  rewrite IH by done. f_equal. apply filter_all_true, Forall_forall. intros y Hy E. apply Hx.
  rewrite <-E. by apply list_elem_of_fmap_2.
Qed.

Lemma firsts_sublist id_of l : firsts id_of l `sublist_of` l.
Proof.
  induction l as [|x l IH]; cbn [firsts]; [done|]. apply sublist_skip.
  etrans; [apply sublist_filter|exact IH].
Qed.
End inbox.

(** ** The at-least-once contract

    [Redelivery S D] is the interface a polling client uses: [fetch] is a pure
    observation, [acknowledge] consumes what has an identifier.  [contents] is the
    abstract queue the laws speak about. *)

Class Redelivery (S D : Type) := {
  fetch : S → string → option D;
  acknowledge : S → string → string → S * bool;
  delivery_id : D → string;
  contents : S → string → list D;
}.

Class RedeliveryLaws (S D : Type) `{Redelivery S D} (wf : S → Prop) := {
  fetch_head : ∀ s r, wf s → fetch s r = head (contents s r);
  ack_fetched : ∀ s r d q,
    wf s → contents s r = d :: q →
    contents (acknowledge s r (delivery_id d)).1 r
    = filter (λ x, delivery_id x ≠ delivery_id d) q
    ∧ (acknowledge s r (delivery_id d)).2 = true;
  ack_other : ∀ s r r' i,
    wf s → r ≠ r' → contents (acknowledge s r i).1 r' = contents s r';
  ack_wf : ∀ s r i, wf s → wf (acknowledge s r i).1;
}.

Section client.
Context {S D : Type} `{RedeliveryLaws S D}.

(** A client that polls its inbox, handles what it fetched, and then
    acknowledges it; [fuel] bounds the number of polls. *)
Fixpoint drain (fuel : nat) (s : S) (r : string) : S * list D :=
  match fuel with
  | O => (s, [])
  | Datatypes.S fuel' =>
      match fetch s r with
      | None => (s, [])
      | Some d =>
          let '(s', ds) := drain fuel' (acknowledge s r (delivery_id d)).1 r in
          (s', d :: ds)
      end
  end.

Lemma drain_spec fuel s r :
  wf s → (length (contents s r) <= fuel)%nat →
  (drain fuel s r).2 = firsts delivery_id (contents s r)
  ∧ contents (drain fuel s r).1 r = []
  ∧ fetch (drain fuel s r).1 r = None
  ∧ (∀ r', r ≠ r' → contents (drain fuel s r).1 r' = contents s r')
  ∧ wf (drain fuel s r).1.
Proof using All.
  revert s. induction fuel as [|fuel IH]; intros s Hwf Hlen.
  - destruct (contents s r) eqn:E; simpl in *; [|lia].
    rewrite fetch_head, E by done. done.
  - simpl. rewrite fetch_head by done.
    destruct (contents s r) as [|d q] eqn:E; simpl in *.
    + rewrite fetch_head, E by done. done.
    + destruct (ack_fetched s r d q Hwf E) as [Hq _].
      pose proof (ack_wf s r (delivery_id d) Hwf) as Hwf'.
      destruct (IH (acknowledge s r (delivery_id d)).1) as (H1 & H2 & H3 & H4 & H5);
        [done|rewrite Hq; etrans; [apply length_filter|lia]|].
      destruct (drain fuel _ r) as [s' ds]. simpl in *.
      rewrite H1, Hq, firsts_filter. split_and!; try done.
      intros r' Hr. rewrite H4 by done. by apply ack_other.
Qed.
End client.
