(* ===== verification/DeliveryService.v ===== *)
(** * The MLS delivery service ([OpenMLS_containerized/src/delivery_service.rs])

    The untrusted server of the benchmark: KeyPackage directory, group epoch
    registry, and commit/Welcome/ratchet-tree delivery, in one of two commit
    delivery modes.  Each operation is one function of the state.  A
    [HashMap]'s iteration order is not specified: the functions that iterate
    take the entries in the order the iteration produced them.  [hex_encode] is
    the [hex] crate's encoder.  Epochs are [u64] and [+ 1] wraps (release).  The lemmas of the
    operations are at the end. *)

From S2P Require Import Prelude Inbox ServiceMetrics.
From stdpp Require Import options.

Local Open Scope N_scope.

Record GroupInfo := MkGroupInfo {
  info_current_epoch : N;
  info_members : list string;
}.

Record GroupState := MkGroupState {
  current_epoch : N;
  members : list string;
}.

Inductive CommitDeliveryMode := PerRecipient | GroupLog.

Record GroupLogCommit := MkGroupLogCommit {
  glc_epoch : N;
  glc_sender : string;
  glc_recipients : list string;
  glc_commit_bytes : bytes;
}.

Record CommitDeliveryRecord := MkCommitDeliveryRecord {
  cdr_id : string;
  cdr_group_id : string;
  cdr_epoch : N;
  cdr_sender : string;
  cdr_commit_bytes : bytes;
}.

Record PendingCommitDelivery := MkPendingCommitDelivery {
  pcd_id : string;
  pcd_group_id : string;
  pcd_epoch : N;
  pcd_sender : string;
  pcd_commit_hex : string;
}.

Record PendingCommit := MkPendingCommit {
  pc_group_id : string;
  pc_epoch : N;
  pc_sender : string;
  pc_commit_hex : string;
}.

Record DeliveryService := MkDeliveryService {
  key_packages : gmap string bytes;
  commit_inboxes : gmap string (list CommitDeliveryRecord);
  commit_cursors : gmap (string * string) N;
  group_commit_log : gmap string (list GroupLogCommit);
  welcome_inboxes : gmap string (list bytes);
  ratchet_tree_inboxes : gmap string (list bytes);
  groups : gmap string GroupState;
  delivery_mode : CommitDeliveryMode;
  metrics : ServiceMetrics;
}.

#[export] Instance mode_eq_dec : EqDecision CommitDeliveryMode.
Proof. solve_decision. Defined.
#[export] Instance glc_eq_dec : EqDecision GroupLogCommit.
Proof. solve_decision. Defined.
#[export] Instance cdr_eq_dec : EqDecision CommitDeliveryRecord.
Proof. solve_decision. Defined.

(** *** Construction *)

Definition with_delivery_mode (m : ServiceMetrics) (mode : CommitDeliveryMode) :
    DeliveryService := MkDeliveryService ∅ ∅ ∅ ∅ ∅ ∅ ∅ mode m.

Definition new (m : ServiceMetrics) (env_mode : option string) : DeliveryService :=
  let raw := to_ascii_lowercase (default "per-recipient" env_mode) in
  let mode :=
    if decide (raw = "group-log" ∨ raw = "group_log" ∨ raw = "grouplog")
    then GroupLog else PerRecipient in
  with_delivery_mode m mode.

(** *** Field updates *)

Definition set_key_packages (ds : DeliveryService) x :=
  MkDeliveryService x (commit_inboxes ds) (commit_cursors ds) (group_commit_log ds)
    (welcome_inboxes ds) (ratchet_tree_inboxes ds) (groups ds) (delivery_mode ds) (metrics ds).
Definition set_commit_inboxes (ds : DeliveryService) x :=
  MkDeliveryService (key_packages ds) x (commit_cursors ds) (group_commit_log ds)
    (welcome_inboxes ds) (ratchet_tree_inboxes ds) (groups ds) (delivery_mode ds) (metrics ds).
Definition set_commit_cursors (ds : DeliveryService) x :=
  MkDeliveryService (key_packages ds) (commit_inboxes ds) x (group_commit_log ds)
    (welcome_inboxes ds) (ratchet_tree_inboxes ds) (groups ds) (delivery_mode ds) (metrics ds).
Definition set_group_commit_log (ds : DeliveryService) x :=
  MkDeliveryService (key_packages ds) (commit_inboxes ds) (commit_cursors ds) x
    (welcome_inboxes ds) (ratchet_tree_inboxes ds) (groups ds) (delivery_mode ds) (metrics ds).
Definition set_welcome_inboxes (ds : DeliveryService) x :=
  MkDeliveryService (key_packages ds) (commit_inboxes ds) (commit_cursors ds)
    (group_commit_log ds) x (ratchet_tree_inboxes ds) (groups ds) (delivery_mode ds) (metrics ds).
Definition set_ratchet_tree_inboxes (ds : DeliveryService) x :=
  MkDeliveryService (key_packages ds) (commit_inboxes ds) (commit_cursors ds)
    (group_commit_log ds) (welcome_inboxes ds) x (groups ds) (delivery_mode ds) (metrics ds).
Definition set_groups (ds : DeliveryService) x :=
  MkDeliveryService (key_packages ds) (commit_inboxes ds) (commit_cursors ds)
    (group_commit_log ds) (welcome_inboxes ds) (ratchet_tree_inboxes ds) x (delivery_mode ds)
    (metrics ds).
Definition set_metrics (ds : DeliveryService) x :=
  MkDeliveryService (key_packages ds) (commit_inboxes ds) (commit_cursors ds)
    (group_commit_log ds) (welcome_inboxes ds) (ratchet_tree_inboxes ds) (groups ds)
    (delivery_mode ds) x.

(** *** KeyPackages: published once, handed out once *)

Definition publish_key_package ds (owner : string) (kp : bytes) : DeliveryService :=
  set_key_packages ds (<[owner := kp]> (key_packages ds)).

Definition fetch_key_package ds (owner : string) : DeliveryService * option bytes :=
  (set_key_packages ds (delete owner (key_packages ds)), key_packages ds !! owner).

(** *** Group state *)

Definition put_group_state ds (group_id : string) (epoch : N) (ms : list string) :
    result string DeliveryService :=
  match groups ds !! group_id with
  | Some state =>
      if decide (epoch ≠ current_epoch state) then
        Err ("Group state update mismatch for group '" +:+ group_id +:+ "': expected epoch "
             +:+ pretty (current_epoch state) +:+ ", got " +:+ pretty epoch)
      else
        Ok (set_groups ds (<[group_id := MkGroupState (current_epoch state) ms]> (groups ds)))
  | None =>
      Ok (set_groups ds (<[group_id := MkGroupState epoch ms]> (groups ds)))
  end.

Definition get_group_state ds (group_id : string) : option GroupInfo :=
  (λ state, MkGroupInfo (current_epoch state) (members state)) <$> groups ds !! group_id.

(** *** Publishing a commit *)

Definition commit_delivery_id (group_id : string) (epoch : N) (sender recipient : string) :
    string :=
  group_id +:+ ":" +:+ pretty epoch +:+ ":" +:+ sender +:+ ":" +:+ recipient.

(** The critical section on [groups]: check the epoch, take the recipients,
    advance the epoch. *)
Definition accept_commit ds (group_id : string) (epoch : N) :
    result string (DeliveryService * list string) :=
  match groups ds !! group_id with
  | None => Err ("Unknown group_id '" +:+ group_id +:+ "'")
  | Some state =>
      if decide (epoch ≠ current_epoch state) then
        Err ("Commit epoch mismatch for group '" +:+ group_id +:+ "': expected "
             +:+ pretty (current_epoch state) +:+ ", got " +:+ pretty epoch)
      else
        Ok (set_groups ds
              (<[group_id := MkGroupState (wrap64 (current_epoch state + 1)) (members state)]>
                 (groups ds)),
            members state)
  end.

Definition delivery_record (group_id sender : string) (epoch : N) (commit : bytes)
    (recipient : string) : CommitDeliveryRecord :=
  MkCommitDeliveryRecord
    (commit_delivery_id group_id (wrap64 (epoch + 1)) sender recipient)
    group_id (wrap64 (epoch + 1)) sender commit.

Definition deliver_to ds (group_id sender : string) (epoch : N) (commit : bytes)
    (recipient : string) : DeliveryService :=
  set_commit_inboxes ds
    (push (commit_inboxes ds) recipient
       (delivery_record group_id sender epoch commit recipient)).

Definition log_commit ds (group_id sender : string) (epoch : N) (commit : bytes)
    (recipients : list string) : DeliveryService :=
  set_group_commit_log ds
    (push (group_commit_log ds) group_id
       (MkGroupLogCommit (wrap64 (epoch + 1)) sender recipients commit)).

Definition publish_group_commit ds (group_id sender : string) (epoch : N) (commit : bytes) :
    result string DeliveryService :=
  let? (ds1, recipients) <- accept_commit ds group_id epoch in
  Ok match delivery_mode ds1 with
     | PerRecipient =>
         foldl (λ d r, deliver_to d group_id sender epoch commit r) ds1 recipients
     | GroupLog => log_commit ds1 group_id sender epoch commit recipients
     end.

(** *** Fetching and acknowledging commits *)

Definition log_entries := list (string * list GroupLogCommit).

Definition cursor ds (recipient group_id : string) : N :=
  default 0 (commit_cursors ds !! (recipient, group_id)).

Definition is_recipient (recipient : string) (c : GroupLogCommit) : bool :=
  existsb (String.eqb recipient) (glc_recipients c).

(** The inner loop over one group's log: skip what is acknowledged or not
    addressed to [recipient], stop at the first other commit. *)
Fixpoint first_pending (recipient : string) (after_epoch : N) (commits : list GroupLogCommit) :
    option GroupLogCommit :=
  match commits with
  | [] => None
  | c :: rest =>
      if (glc_epoch c <=? after_epoch) || negb (is_recipient recipient c)
      then first_pending recipient after_epoch rest
      else Some c
  end.

Fixpoint select_pending ds (recipient : string) (entries : log_entries)
    (selected : option (string * GroupLogCommit)) : option (string * GroupLogCommit) :=
  match entries with
  | [] => selected
  | (group_id, commits) :: rest =>
      let selected' :=
        match first_pending recipient (cursor ds recipient group_id) commits with
        | None => selected
        | Some c =>
            match selected with
            | Some (_, s) => if glc_epoch c <? glc_epoch s then Some (group_id, c) else selected
            | None => Some (group_id, c)
            end
        end in
      select_pending ds recipient rest selected'
  end.

Definition fetch_group_log_commit_compat ds (entries : log_entries) (recipient : string) :
    option CommitDeliveryRecord :=
  let! (group_id, c) <- select_pending ds recipient entries None in
  Some (MkCommitDeliveryRecord
          (commit_delivery_id group_id (glc_epoch c) (glc_sender c) recipient)
          group_id (glc_epoch c) (glc_sender c) (glc_commit_bytes c)).

Definition fetch_next_pending_commit ds (entries : log_entries) (recipient : string) :
    option CommitDeliveryRecord :=
  match delivery_mode ds with
  | PerRecipient => peek (commit_inboxes ds) recipient
  | GroupLog => fetch_group_log_commit_compat ds entries recipient
  end.

Definition fetch_commit ds (entries : log_entries) (recipient : string) : option bytes :=
  cdr_commit_bytes <$> fetch_next_pending_commit ds entries recipient.

Definition ack_matches (recipient delivery_id group_id : string) (c : GroupLogCommit) : bool :=
  is_recipient recipient c
  && String.eqb (commit_delivery_id group_id (glc_epoch c) (glc_sender c) recipient) delivery_id.

Fixpoint ack_group_log_commit_compat ds (entries : log_entries)
    (recipient delivery_id : string) : DeliveryService * bool :=
  match entries with
  | [] => (ds, false)
  | (group_id, commits) :: rest =>
      match List.find (ack_matches recipient delivery_id group_id) commits with
      | Some c =>
          (set_commit_cursors ds
             (<[(recipient, group_id) := N.max (cursor ds recipient group_id) (glc_epoch c)]>
                (commit_cursors ds)), true)
      | None => ack_group_log_commit_compat ds rest recipient delivery_id
      end
  end.

Definition ack_commit ds (entries : log_entries) (recipient delivery_id : string) :
    DeliveryService * bool :=
  match delivery_mode ds with
  | PerRecipient =>
      let '(inboxes, acked) := ack cdr_id (commit_inboxes ds) recipient delivery_id in
      (set_commit_inboxes ds inboxes, acked)
  | GroupLog => ack_group_log_commit_compat ds entries recipient delivery_id
  end.

Section rendering.
Context (hex_encode : bytes → string).

Definition fetch_pending_commit_delivery ds (entries : log_entries) (recipient : string) :
    option PendingCommitDelivery :=
  (λ d, MkPendingCommitDelivery (cdr_id d) (cdr_group_id d) (cdr_epoch d) (cdr_sender d)
          (hex_encode (cdr_commit_bytes d)))
  <$> fetch_next_pending_commit ds entries recipient.

Definition pending_commit (group_id : string) (c : GroupLogCommit) : PendingCommit :=
  MkPendingCommit group_id (glc_epoch c) (glc_sender c) (hex_encode (glc_commit_bytes c)).

Definition wanted (client : string) (after_epoch : N) (c : GroupLogCommit) : bool :=
  negb ((glc_epoch c <=? after_epoch) || negb (is_recipient client c)).

(** [left.epoch.cmp(&right.epoch).then_with(|| left.group_id.cmp(&right.group_id))] *)
Definition pending_key (p : PendingCommit) : N * string := (pc_epoch p, pc_group_id p).
Definition key_le (x y : N * string) : Prop := x.1 < y.1 ∨ x.1 = y.1 ∧ str_leb x.2 y.2.
Definition pending_le (x y : PendingCommit) : Prop := key_le (pending_key x) (pending_key y).

#[export] Instance key_le_dec : RelDecision key_le.
Proof. unfold key_le. intros x y. apply _. Defined.
#[export] Instance pending_le_dec : RelDecision pending_le.
Proof. unfold pending_le. intros x y. apply _. Defined.

Definition fetch_pending_commits (entries : log_entries) (client : string)
    (after_epoch : N) : list PendingCommit :=
  merge_sort pending_le
    (entries ≫= λ '(group_id, commits),
       pending_commit group_id <$> filter (wanted client after_epoch) commits).
End rendering.

(** *** Welcomes and ratchet trees *)

Definition publish_welcome ds (recipient : string) (b : bytes) : DeliveryService :=
  set_welcome_inboxes ds (push (welcome_inboxes ds) recipient b).

Definition fetch_welcome ds (recipient : string) : DeliveryService * option bytes :=
  let '(inboxes, b) := pop (welcome_inboxes ds) recipient in
  (set_welcome_inboxes ds inboxes, b).

Definition publish_ratchet_tree ds (recipient : string) (b : bytes) : DeliveryService :=
  set_ratchet_tree_inboxes ds (push (ratchet_tree_inboxes ds) recipient b).

Definition fetch_ratchet_tree ds (recipient : string) : DeliveryService * option bytes :=
  let '(inboxes, b) := pop (ratchet_tree_inboxes ds) recipient in
  (set_ratchet_tree_inboxes ds inboxes, b).

(** * The delivery service: identifiers and polling

    Unambiguity of delivery identifiers, and the polling endpoint of the group
    log: independent of the hash map's iteration order, sorted and exact. *)

Local Open Scope N_scope.

(** ** Delivery identifiers *)

Lemma commit_delivery_id_fields g e s r g' e' s' r' :
  char_free ":" g → char_free ":" g' → char_free ":" s → char_free ":" s' →
  commit_delivery_id g e s r = commit_delivery_id g' e' s' r' →
  g = g' ∧ e = e' ∧ s = s' ∧ r = r'.
Proof.
  intros Hg Hg' Hs Hs' H. unfold commit_delivery_id in H.
  apply split_at_char in H as [-> H]; [|done..].
  apply split_at_char in H as [He H]; [|by apply pretty_char_free..].
  apply split_at_char in H as [-> ->]; [|done..].
  split_and!; try done. by apply (inj pretty).
Qed.

(** Within one group and for one recipient, the identifier determines the epoch
    whatever the names contain. *)
Lemma commit_delivery_id_epoch g e s r e' s' :
  commit_delivery_id g e s r = commit_delivery_id g e' s' r → e = e'.
Proof.
  intros H. unfold commit_delivery_id in H.
  apply string_app_inj_l in H. simpl in H. injection H as H.
  apply split_at_char in H as [He _]; [|by apply pretty_char_free..].
  by apply (inj pretty).
Qed.

(** ** [fetch_pending_commits] *)

#[export] Instance str_leb_trans' : Transitive (λ s t, Is_true (str_leb s t)).
Proof. intros s t u. apply str_leb_trans. Qed.

#[export] Instance key_le_trans : Transitive key_le.
Proof.
  intros [a s] [b t] [c u]. unfold key_le. simpl.
  intros [?|[-> ?]] [?|[-> ?]]; [left; lia|left; lia|left; lia|].
  right. split; [done|]. by eapply str_leb_trans.
Qed.
#[export] Instance key_le_antisymm : AntiSymm (=) key_le.
Proof.
  intros [a s] [b t]. unfold key_le. simpl.
  intros [?|[-> ?]] [?|[? ?]]; try lia. f_equal. by apply str_leb_antisym.
Qed.
#[export] Instance key_le_total : Total key_le.
Proof.
  intros [a s] [b t]. unfold key_le. simpl.
  destruct (N.lt_trichotomy a b) as [?|[->|?]]; [auto| |auto].
  destruct (str_leb_total s t); auto.
Qed.
#[export] Instance pending_le_total : Total pending_le.
Proof. intros x y. unfold pending_le. apply (total key_le). Qed.

Definition pending_of (hex : bytes → string) (client : string) (after : N)
    (gc : string * list GroupLogCommit) : list PendingCommit :=
  pending_commit hex gc.1 <$> filter (wanted client after) gc.2.

Lemma fetch_pending_commits_unfold hex entries client after :
  fetch_pending_commits hex entries client after
  = merge_sort pending_le (entries ≫= pending_of hex client after).
Proof.
  unfold fetch_pending_commits, pending_of. f_equal.
  induction entries as [|[g cs] l IH]; [done|]. csimpl. by rewrite IH.
Qed.

Lemma existsb_eqb x l : existsb (String.eqb x) l = true ↔ x ∈ l.
Proof.
  rewrite existsb_exists. setoid_rewrite String.eqb_eq.
  rewrite list_elem_of_In. split; [intros (? & ? & ->); done|eauto].
Qed.

Lemma wanted_spec client after c :
  wanted client after c = true ↔ after < glc_epoch c ∧ client ∈ glc_recipients c.
Proof.
  unfold wanted, is_recipient. rewrite negb_true_iff, orb_false_iff, negb_false_iff.
  rewrite existsb_eqb, N.leb_gt. done.
Qed.

Lemma elem_of_pending_of hex client after gc p :
  p ∈ pending_of hex client after gc ↔
  ∃ c, c ∈ gc.2 ∧ after < glc_epoch c ∧ client ∈ glc_recipients c
       ∧ p = pending_commit hex gc.1 c.
Proof.
  unfold pending_of. rewrite list_elem_of_fmap.
  setoid_rewrite list_elem_of_filter. setoid_rewrite Is_true_true.
  setoid_rewrite wanted_spec. naive_solver.
Qed.

(** A group's log has one commit per epoch. *)
Definition log_wf (log : gmap string (list GroupLogCommit)) : Prop :=
  ∀ g cs, log !! g = Some cs → NoDup (glc_epoch <$> cs).

Lemma nodup_pending_keys hex client after (entries : log_entries) :
  NoDup entries.*1 →
  (∀ g cs, (g, cs) ∈ entries → NoDup (glc_epoch <$> cs)) →
  NoDup (pending_key <$> (entries ≫= pending_of hex client after)).
Proof.
  induction entries as [|[g cs] l IH]; intros Hnd Hcs; [constructor|].
  csimpl. rewrite fmap_app. apply NoDup_app. split_and!.
  - assert (NoDup (glc_epoch <$> cs)) as Hn by (apply (Hcs g); left).
    clear - Hn. unfold pending_of. simpl. rewrite <-list_fmap_compose.
    eapply (NoDup_fmap_1 fst). rewrite <-list_fmap_compose.
    eapply sublist_NoDup; [exact Hn|]. apply fmap_sublist. apply sublist_filter.
  - intros k Hk Hk'. apply list_elem_of_fmap in Hk as (p & -> & Hp).
    apply list_elem_of_fmap in Hk' as (p' & Heq & Hp').
    apply elem_of_pending_of in Hp as (c & _ & _ & _ & ->).
    apply list_elem_of_bind in Hp' as ([g' cs'] & Hp' & Hin).
    apply elem_of_pending_of in Hp' as (c' & _ & _ & _ & ->).
    inversion Hnd as [|?? Hni]; subst. apply Hni. simpl.
    assert (g = g') as -> by (by injection Heq). by apply (list_elem_of_fmap_2 fst) in Hin.
  - apply IH; [by inversion Hnd|]. intros ???. eapply Hcs. by right.
Qed.

Definition example_metrics : ServiceMetrics := ServiceMetrics.new None.

(** ** Properties *)

(** the group-log polling endpoint does not depend on the hash map's
    iteration order: for a log with one commit per epoch and group, any two
    orders of the entries give the same answer; it is sorted by epoch and then
    group, and holds exactly the commits after the given epoch that list the
    client as a recipient. *)
Theorem polling_deterministic hex log e1 e2 client after :
  log_wf log → e1 ≡ₚ map_to_list log → e2 ≡ₚ map_to_list log →
  fetch_pending_commits hex e1 client after = fetch_pending_commits hex e2 client after
  ∧ Sorted pending_le (fetch_pending_commits hex e1 client after)
  ∧ ∀ p, p ∈ fetch_pending_commits hex e1 client after ↔
         ∃ g cs c, log !! g = Some cs ∧ c ∈ cs ∧ after < glc_epoch c
                   ∧ client ∈ glc_recipients c ∧ p = pending_commit hex g c.
Proof.
  intros Hwf H1 H2. rewrite !fetch_pending_commits_unfold. split_and!.
  - apply (sorted_by_key_unique pending_key key_le);
      [apply Sorted_merge_sort; apply _..| |].
    + rewrite merge_sort_Permutation. apply nodup_pending_keys.
      * rewrite H1. apply NoDup_fst_map_to_list.
      * intros g cs Hin. rewrite H1 in Hin. apply elem_of_map_to_list in Hin. by eapply Hwf.
    + by rewrite !merge_sort_Permutation, H1, H2.
  - apply Sorted_merge_sort; apply _.
  - intros p. rewrite merge_sort_Permutation, list_elem_of_bind. split.
    + intros ([g cs] & Hp & Hin). apply elem_of_pending_of in Hp as (c & ? & ? & ? & ->).
      rewrite H1 in Hin. apply elem_of_map_to_list in Hin. exists g, cs, c. done.
    + intros (g & cs & c & Hg & ? & ? & ? & ->). exists (g, cs).
      split; [apply elem_of_pending_of; exists c; done|].
      rewrite H1. by apply elem_of_map_to_list.
Qed.

Definition example_log : gmap string (list GroupLogCommit) :=
  <["g1" := [MkGroupLogCommit 1 "a" ["b"] []; MkGroupLogCommit 2 "a" ["b"; "c"] []]]>
    {["g2" := [MkGroupLogCommit 1 "d" ["b"] []]]}.

Lemma polling_deterministic_witness :
  fetch_pending_commits (λ _, "") (map_to_list example_log) "b" 0
    = fetch_pending_commits (λ _, "") (reverse (map_to_list example_log)) "b" 0
  ∧ Sorted pending_le (fetch_pending_commits (λ _, "") (map_to_list example_log) "b" 0)
  ∧ ∀ p, p ∈ fetch_pending_commits (λ _, "") (map_to_list example_log) "b" 0 ↔
         ∃ g cs c, example_log !! g = Some cs ∧ c ∈ cs ∧ 0 < glc_epoch c
                   ∧ "b" ∈ glc_recipients c ∧ p = pending_commit (λ _, "") g c.
Proof.
  apply (polling_deterministic (λ _, "") example_log); [|done|apply reverse_Permutation].
  assert (Hall : map_Forall (λ _ cs, NoDup (glc_epoch <$> cs)) example_log).
  { apply (bool_decide_unpack _). vm_compute. done. }
  exact Hall.
Defined.
