(* ===== verification/DeliveryConcurrency.v ===== *)
(** * The delivery service under concurrent requests

    An interleaving semantics of the service's critical sections, its invariant,
    and the at-least-once contract of the commit inboxes. *)

From S2P Require Import Prelude Inbox ServiceMetrics DeliveryService.
From stdpp Require Import options.

Local Open Scope N_scope.

(** ** Concurrent publications

    The HTTP server runs handlers concurrently.  [publish_group_commit] is not
    one critical section: it takes the epoch under the [groups] lock, releases
    it, and then pushes to each recipient's inbox under that inbox's lock.  The
    step relation interleaves these critical sections, in the per-recipient mode;
    [srv_accepted] is a ghost history of the commits that were accepted, with the
    epochs they lead to and the members they are for.  A member list is whatever
    [put_group_state] was given: it may repeat a member.  The epochs stay below
    [u64::MAX]. *)

Record publication := MkPublication {
  pub_group : string;
  pub_sender : string;
  pub_epoch : N;
  pub_commit : bytes;
  pub_remaining : list string;
}.

Definition pub_key (p : publication) : string * N := (pub_group p, wrap64 (pub_epoch p + 1)).

Record acceptance := MkAcceptance {
  acc_group : string;
  acc_epoch : N;
  acc_recipients : list string;
}.

Definition acc_key (a : acceptance) : string * N := (acc_group a, acc_epoch a).

Record server := MkServer {
  srv_ds : DeliveryService;
  srv_threads : list publication;
  srv_accepted : list acceptance;
}.

Inductive server_step : server → server → Prop :=
| step_put ds ths acc g e ms ds' :
    put_group_state ds g e ms = Ok ds' →
    server_step (MkServer ds ths acc) (MkServer ds' ths acc)
| step_accept ds ths acc g s e b ds' rs :
    e < u64_max →
    accept_commit ds g e = Ok (ds', rs) →
    server_step (MkServer ds ths acc)
      (MkServer ds' (ths ++ [MkPublication g s e b rs])
         (acc ++ [MkAcceptance g (wrap64 (e + 1)) rs]))
| step_deliver ds ths1 ths2 acc g s e b r rs :
    server_step
      (MkServer ds (ths1 ++ MkPublication g s e b (r :: rs) :: ths2) acc)
      (MkServer (deliver_to ds g s e b r) (ths1 ++ MkPublication g s e b rs :: ths2) acc)
| step_ack ds ths acc r i entries :
    delivery_mode ds = PerRecipient →
    server_step (MkServer ds ths acc) (MkServer (ack_commit ds entries r i).1 ths acc).

Definition server_init (m : ServiceMetrics) : server :=
  MkServer (with_delivery_mode m PerRecipient) [] [].

Definition reachable (m : ServiceMetrics) : server → Prop :=
  rtc server_step (server_init m).

Definition record_key (d : CommitDeliveryRecord) : string * N := (cdr_group_id d, cdr_epoch d).

(** How often [r] occurs in a member list *)
Definition listed (r : string) (ms : list string) : nat := length (filter (r =.) ms).

(** What recipient [r] has in its inbox or is about to be sent. *)
Definition outstanding (sv : server) (r : string) : list (string * N) :=
  (record_key <$> queue (commit_inboxes (srv_ds sv)) r)
  ++ (srv_threads sv ≫= λ p, replicate (listed r (pub_remaining p)) (pub_key p)).

(** What was ever accepted for [r]: a commit once for each time its group lists [r] *)
Definition addressed (sv : server) (r : string) : list (string * N) :=
  srv_accepted sv ≫= λ a, replicate (listed r (acc_recipients a)) (acc_key a).

(** No commit was accepted for a list that repeats [r]. *)
Definition listed_once (sv : server) (r : string) : Prop :=
  Forall (λ a, (listed r (acc_recipients a) <= 1)%nat) (srv_accepted sv).

Definition epochs_of (g : string) (acc : list acceptance) : list N :=
  acc_epoch <$> filter (λ a, acc_group a = g) acc.

(** Consecutive epochs [e0 + 1, ..., e0 + n]. *)
Definition consecutive (e0 : N) (n : nat) : list N := (λ i, e0 + 1 + N.of_nat i) <$> seq 0 n.

Definition group_history (g : string) (st : option GroupState) (acc : list acceptance) : Prop :=
  match st with
  | None => epochs_of g acc = []
  | Some st => ∃ e0 n, epochs_of g acc = consecutive e0 n ∧ current_epoch st = e0 + N.of_nat n
  end.

Record server_inv (sv : server) : Prop := {
  inv_history : ∀ g, group_history g (groups (srv_ds sv) !! g) (srv_accepted sv);
  inv_keys : NoDup (acc_key <$> srv_accepted sv);
  inv_outstanding : ∀ r, outstanding sv r ⊆+ addressed sv r;
}.

Lemma epochs_of_snoc g acc a :
  epochs_of g (acc ++ [a])
  = epochs_of g acc ++ (if decide (acc_group a = g) then [acc_epoch a] else []).
Proof.
  unfold epochs_of. rewrite filter_app, fmap_app. f_equal.
  rewrite filter_cons. by case_decide.
Qed.

Lemma consecutive_S e0 n : consecutive e0 (S n) = consecutive e0 n ++ [e0 + 1 + N.of_nat n].
Proof. unfold consecutive. by rewrite seq_S, fmap_app. Qed.

Lemma elem_of_consecutive e0 n x : x ∈ consecutive e0 n → e0 < x <= e0 + N.of_nat n.
Proof.
  unfold consecutive. intros (i & -> & Hi)%list_elem_of_fmap.
  apply elem_of_seq in Hi. lia.
Qed.

Lemma group_history_fresh g st acc :
  group_history g (Some st) acc → (g, current_epoch st + 1) ∉ acc_key <$> acc.
Proof.
  intros (e0 & n & Hes & Hcur) (a & E & Ha)%list_elem_of_fmap. injection E as Eg Ee.
  assert (Hx : current_epoch st + 1 ∈ epochs_of g acc).
  { unfold epochs_of. rewrite Ee. apply list_elem_of_fmap_2. by apply list_elem_of_filter. }
  rewrite Hes in Hx. apply elem_of_consecutive in Hx. lia.
Qed.

Lemma put_group_state_ok ds g e ms ds' :
  put_group_state ds g e ms = Ok ds' →
  ∃ e', ds' = set_groups ds (<[g := MkGroupState e' ms]> (groups ds))
      ∧ (∀ st, groups ds !! g = Some st → e' = current_epoch st).
Proof.
  unfold put_group_state. destruct (groups ds !! g) as [st|]; [case_decide; [done|]|];
    intros [= <-]; eexists; (split; [reflexivity|]); by intros ? [= ->].
Qed.

Lemma accept_commit_ok ds g e ds' rs :
  accept_commit ds g e = Ok (ds', rs) →
  ∃ st, groups ds !! g = Some st ∧ e = current_epoch st ∧ rs = members st
      ∧ ds' = set_groups ds
                (<[g := MkGroupState (wrap64 (current_epoch st + 1)) (members st)]> (groups ds)).
Proof.
  unfold accept_commit. destruct (groups ds !! g) as [st|]; [|done].
  case_decide; [done|]. intros [= <- <-]. eauto 10.
Qed.

Lemma listed_cons r r' rs :
  listed r (r' :: rs) = if decide (r = r') then S (listed r rs) else listed r rs.
Proof. unfold listed. rewrite filter_cons. by case_decide. Qed.

Lemma outstanding_deliver ds ths1 ths2 acc g s e b r rs r' :
  outstanding (MkServer (deliver_to ds g s e b r)
                 (ths1 ++ MkPublication g s e b rs :: ths2) acc) r'
  ≡ₚ outstanding (MkServer ds (ths1 ++ MkPublication g s e b (r :: rs) :: ths2) acc) r'.
Proof.
  unfold outstanding. simpl. rewrite !bind_app, !bind_cons. simpl. rewrite listed_cons.
  destruct (decide (r' = r)) as [->|Hne].
  - rewrite queue_push, fmap_app. simpl. unfold record_key at 2, pub_key at 2 3. simpl.
    solve_Permutation.
  - by rewrite queue_push_ne by done.
Qed.

(** Every key is accepted once, so what is addressed to a recipient that no list repeats
    has no key twice. *)
Lemma addressed_elem acc r k :
  k ∈ (acc ≫= λ a, replicate (listed r (acc_recipients a)) (acc_key a)) →
  ∃ a, a ∈ acc ∧ acc_key a = k ∧ r ∈ acc_recipients a.
Proof.
  intros (a & Hk & Ha)%list_elem_of_bind. apply elem_of_replicate in Hk as [-> Hn].
  exists a. split; [done|]. split; [done|]. unfold listed in Hn.
  destruct (filter (r =.) (acc_recipients a)) as [|x l] eqn:E; [done|].
  assert (Hx : x ∈ filter (r =.) (acc_recipients a)) by (rewrite E; left).
  by apply list_elem_of_filter in Hx as [<- Hx].
Qed.

Lemma addressed_distinct acc r :
  NoDup (acc_key <$> acc) → Forall (λ a, (listed r (acc_recipients a) <= 1)%nat) acc →
  NoDup (acc ≫= λ a, replicate (listed r (acc_recipients a)) (acc_key a)).
Proof.
  induction acc as [|a acc IH]; cbn [fmap list_fmap]; [constructor|].
  intros [Ha Hd]%NoDup_cons [Hl Hls]%Forall_cons. rewrite bind_cons. apply NoDup_app.
  split; [|split; [|by apply IH]].
  - destruct (listed r (acc_recipients a)) as [|[|n]]; [constructor|apply NoDup_singleton|lia].
  - intros k [-> _]%elem_of_replicate (a' & Ha' & E & _)%addressed_elem.
    apply Ha. rewrite <-E. by apply list_elem_of_fmap_2.
Qed.

Lemma queue_ack_sublist {A} (id_of : A → string) m r i r' :
  queue (ack id_of m r i).1 r' `sublist_of` queue m r'.
Proof.
  destruct (decide (r = r')) as [<-|Hne].
  - rewrite ack_queue. apply sublist_filter.
  - by rewrite ack_queue_ne.
Qed.

Lemma outstanding_ack ds ths acc entries r i r' :
  delivery_mode ds = PerRecipient →
  outstanding (MkServer (ack_commit ds entries r i).1 ths acc) r'
  `sublist_of` outstanding (MkServer ds ths acc) r'.
Proof.
  intros Hm. unfold ack_commit. rewrite Hm.
  destruct (ack cdr_id (commit_inboxes ds) r i) as [m acked] eqn:E. simpl.
  apply sublist_app; [|done]. apply fmap_sublist. simpl.
  replace m with (ack cdr_id (commit_inboxes ds) r i).1 by (by rewrite E).
  apply queue_ack_sublist.
Qed.

Lemma ack_commit_groups ds entries r i :
  delivery_mode ds = PerRecipient → groups (ack_commit ds entries r i).1 = groups ds.
Proof. intros Hm. unfold ack_commit. rewrite Hm. by destruct (ack _ _ _ _). Qed.

Lemma server_inv_init m : server_inv (server_init m).
Proof.
  split; simpl.
  - intros g. rewrite lookup_empty. done.
  - constructor.
  - intros r. unfold outstanding, queue. simpl. by rewrite lookup_empty.
Qed.

Lemma server_inv_put ds ths acc g e ms ds' :
  put_group_state ds g e ms = Ok ds' →
  server_inv (MkServer ds ths acc) → server_inv (MkServer ds' ths acc).
Proof.
  intros Hput [Hh Hk Ho]. apply put_group_state_ok in Hput as (e' & -> & He').
  split; simpl in *; try done.
  intros g'. specialize (Hh g'). destruct (decide (g = g')) as [<-|Hne].
  - rewrite lookup_insert_eq. destruct (groups ds !! g) as [st|] eqn:Eg; simpl in *.
    + by rewrite (He' st).
    + exists e', 0%nat. split; [done|simpl; lia].
  - by rewrite lookup_insert_ne.
Qed.

Lemma server_inv_accept ds ths acc g s e b ds' rs :
  e < u64_max → accept_commit ds g e = Ok (ds', rs) →
  server_inv (MkServer ds ths acc) →
  server_inv (MkServer ds' (ths ++ [MkPublication g s e b rs])
                (acc ++ [MkAcceptance g (wrap64 (e + 1)) rs])).
Proof.
  intros Hlt Hacc [Hh Hk Ho].
  apply accept_commit_ok in Hacc as (st & Hg & -> & -> & ->). simpl in *.
  assert (Hw : wrap64 (current_epoch st + 1) = current_epoch st + 1)
    by (apply wrap64_small; unfold u64_max, pow64 in *; lia).
  assert (Hfresh : (g, current_epoch st + 1) ∉ acc_key <$> acc).
  { apply group_history_fresh. specialize (Hh g). by rewrite Hg in Hh. }
  split; simpl; rewrite ?Hw.
  - intros g'. specialize (Hh g'). unfold group_history in *.
    destruct (decide (g = g')) as [<-|Hne].
    + rewrite lookup_insert_eq. rewrite Hg in Hh. destruct Hh as (e0 & n & Hes & Hcur).
      exists e0, (S n). rewrite epochs_of_snoc, decide_True, consecutive_S, Hes by done.
      simpl. split; [|lia]. do 2 f_equal. lia.
    + rewrite lookup_insert_ne, epochs_of_snoc, decide_False, app_nil_r by done. done.
  - rewrite fmap_app. apply NoDup_app. split; [done|]. split; [|apply NoDup_singleton].
    by intros k Hin ->%list_elem_of_singleton.
  - intros r. specialize (Ho r). unfold outstanding, addressed in *. simpl in *.
    rewrite !bind_app, app_assoc. apply submseteq_app; [done|].
    simpl. unfold pub_key, acc_key. simpl. by rewrite Hw.
Qed.

Lemma server_inv_step sv sv' : server_inv sv → server_step sv sv' → server_inv sv'.
Proof.
  intros HI Hstep. destruct Hstep as
    [ds ths acc g e ms ds' Hput|ds ths acc g s e b ds' rs Hlt Hacc
    |ds ths1 ths2 acc g s e b r rs|ds ths acc r i entries Hm].
  - by eapply server_inv_put.
  - by eapply server_inv_accept.
  - destruct HI as [Hh Hk Ho]; simpl in *. split; simpl; try done.
    intros r'. rewrite outstanding_deliver. apply Ho.
  - destruct HI as [Hh Hk Ho]; simpl in *. split; simpl; [|done|].
    + intros g. by rewrite ack_commit_groups.
    + intros r'. etrans; [|apply (Ho r')]. by apply sublist_submseteq, outstanding_ack.
Qed.

Lemma reachable_inv m sv : reachable m sv → server_inv sv.
Proof.
  apply (rtc_invariant server_step server_inv); [apply server_inv_step|apply server_inv_init].
Qed.

(** ** The delivery service as an at-least-once queue *)

#[export] Instance ds_redelivery : Redelivery DeliveryService CommitDeliveryRecord := {
  fetch ds r := fetch_next_pending_commit ds [] r;
  acknowledge ds r i := ack_commit ds [] r i;
  delivery_id := cdr_id;
  contents ds r := queue (commit_inboxes ds) r;
}.

Definition ds_wf (ds : DeliveryService) : Prop := delivery_mode ds = PerRecipient.

Lemma ack_commit_inboxes ds entries r i :
  delivery_mode ds = PerRecipient →
  commit_inboxes (ack_commit ds entries r i).1 = (ack cdr_id (commit_inboxes ds) r i).1
  ∧ (ack_commit ds entries r i).2 = (ack cdr_id (commit_inboxes ds) r i).2
  ∧ delivery_mode (ack_commit ds entries r i).1 = PerRecipient.
Proof. intros Hm. unfold ack_commit. rewrite Hm. by destruct (ack _ _ _ _). Qed.

#[export] Instance ds_redelivery_laws : RedeliveryLaws DeliveryService CommitDeliveryRecord ds_wf.
Proof.
  split; simpl.
  - intros ds r Hm. unfold fetch_next_pending_commit. rewrite Hm. apply peek_queue.
  - intros ds r d q Hm Hq.
    destruct (ack_commit_inboxes ds [] r (cdr_id d) Hm) as (-> & -> & _).
    by apply ack_front.
  - intros ds r r' i Hm Hne.
    destruct (ack_commit_inboxes ds [] r i Hm) as (-> & _ & _). by apply ack_queue_ne.
  - intros ds r i Hm. by destruct (ack_commit_inboxes ds [] r i Hm) as (_ & _ & H3).
Qed.

(** Every record carries the identifier the code formats for it. *)
Definition ids_formatted (sv : server) : Prop :=
  ∀ r d, d ∈ queue (commit_inboxes (srv_ds sv)) r →
    cdr_id d = commit_delivery_id (cdr_group_id d) (cdr_epoch d) (cdr_sender d) r.

Lemma ids_formatted_step sv sv' :
  ids_formatted sv → server_step sv sv' → ids_formatted sv'.
Proof.
  unfold ids_formatted. intros HI Hstep. destruct Hstep; simpl in *.
  - apply put_group_state_ok in H as (? & -> & _). done.
  - apply accept_commit_ok in H0 as (? & _ & _ & _ & ->). done.
  - intros r' d. destruct (decide (r = r')) as [<-|Hne].
    + rewrite queue_push, elem_of_app, list_elem_of_singleton. intros [?| ->]; auto.
    + rewrite queue_push_ne by done. apply HI.
  - intros r' d Hd. apply HI.
    destruct (ack_commit_inboxes ds entries r i H) as (Heq & _ & _). rewrite Heq in Hd.
    eapply elem_of_sublist; [exact Hd|]. apply queue_ack_sublist.
Qed.

Lemma reachable_ids_formatted m sv : reachable m sv → ids_formatted sv.
Proof.
  apply (rtc_invariant server_step ids_formatted); [apply ids_formatted_step|].
  intros r d. unfold queue. simpl. rewrite lookup_empty. by intros ?%not_elem_of_nil.
Qed.

Lemma reachable_mode m sv : reachable m sv → delivery_mode (srv_ds sv) = PerRecipient.
Proof.
  apply (rtc_invariant server_step (λ sv, delivery_mode (srv_ds sv) = PerRecipient)); [|done].
  intros x y Hm Hstep. destruct Hstep; simpl in *; try done.
  - apply put_group_state_ok in H as (? & -> & _). done.
  - apply accept_commit_ok in H0 as (? & _ & _ & _ & ->). done.
  - by apply ack_commit_inboxes.
Qed.

(** With colon-free group identifiers (the benchmark's are hexadecimal), an identifier
    names one accepted commit. *)
Lemma reachable_ids m sv r d d' :
  reachable m sv →
  (∀ r d, d ∈ queue (commit_inboxes (srv_ds sv)) r → char_free ":" (cdr_group_id d)) →
  d ∈ queue (commit_inboxes (srv_ds sv)) r → d' ∈ queue (commit_inboxes (srv_ds sv)) r →
  cdr_id d = cdr_id d' → record_key d = record_key d'.
Proof.
  intros Hr Hfree Hd Hd' E. pose proof (reachable_ids_formatted _ _ Hr r) as Hid.
  rewrite (Hid d Hd), (Hid d' Hd') in E. unfold commit_delivery_id in E.
  apply split_at_char in E as [Hg E]; [|by eapply Hfree..].
  apply split_at_char in E as [He _]; [|by apply pretty_char_free..].
  apply (inj pretty) in He. unfold record_key. congruence.
Qed.

(** The identifiers in an inbox are distinct when no list repeats the recipient. *)
Lemma reachable_ids_distinct m sv r :
  reachable m sv →
  (∀ r d, d ∈ queue (commit_inboxes (srv_ds sv)) r → char_free ":" (cdr_group_id d)) →
  NoDup (outstanding sv r) → NoDup (cdr_id <$> queue (commit_inboxes (srv_ds sv)) r).
Proof.
  intros Hr Hfree Hnd. unfold outstanding in Hnd. apply NoDup_app in Hnd as (Hnd & _ & _).
  apply NoDup_alt. intros i j x Hi Hj.
  rewrite list_lookup_fmap in Hi, Hj.
  destruct (queue _ r !! i) as [di|] eqn:Ei; simplify_eq/=.
  destruct (queue _ r !! j) as [dj|] eqn:Ej; simplify_eq/=.
  assert (E : record_key dj = record_key di).
  { eapply reachable_ids; [done|done|by eapply list_elem_of_lookup_2..|done]. }
  eapply (NoDup_lookup _ i j (record_key di)); [exact Hnd|..];
    rewrite list_lookup_fmap; [by rewrite Ei|by rewrite Ej, <-E].
Qed.

Lemma outstanding_distinct sv r : server_inv sv → listed_once sv r → NoDup (outstanding sv r).
Proof.
  intros [_ Hk Ho] Hl. pose proof (addressed_distinct _ r Hk Hl) as Hd.
  destruct (submseteq_Permutation _ _ (Ho r)) as [l E]. unfold addressed in E. rewrite E in Hd.
  by apply NoDup_app in Hd as [? _].
Qed.

(** ** Properties *)

(** C6: in the per-recipient mode, under every interleaving of group updates (with any
    member lists), commit publications (their epoch check, then one inbox push per
    recipient) and acknowledgements, the commits accepted for a group carry consecutive
    epochs ending at the group's current epoch (below [u64::MAX]), so no epoch is ever
    given to two commits.  What is queued for a recipient, or still to be sent to it, are
    commits that were accepted for a member list with it, and each of them at most as many
    times as that list names it: at most once when no list repeats it.  (Nothing keeps a
    client from putting a list that does: [repeated_member].) *)
Theorem accepted_epochs_linear m sv :
  reachable m sv →
  (∀ g st, groups (srv_ds sv) !! g = Some st →
     ∃ e0 n, epochs_of g (srv_accepted sv) = consecutive e0 n
             ∧ current_epoch st = e0 + N.of_nat n)
  ∧ NoDup (acc_key <$> srv_accepted sv)
  ∧ (∀ r, outstanding sv r ⊆+ addressed sv r)
  ∧ (∀ r k, k ∈ outstanding sv r →
       ∃ a, a ∈ srv_accepted sv ∧ acc_key a = k ∧ r ∈ acc_recipients a)
  ∧ (∀ r, listed_once sv r → NoDup (outstanding sv r)).
Proof.
  intros Hr%reachable_inv. pose proof Hr as [Hh Hk Ho]. split_and!; [|exact Hk|exact Ho| |].
  - intros g st Hg. specialize (Hh g). by rewrite Hg in Hh.
  - intros r k Hin. apply addressed_elem. by eapply elem_of_submseteq.
  - intros r. by apply outstanding_distinct.
Qed.

(** A run used by the witnesses: one group, two members, two publications whose
    deliveries to "bob" overtake each other. *)
Definition overtaking_run : server :=
  let ds0 := with_delivery_mode example_metrics PerRecipient in
  let ds1 := match put_group_state ds0 "g" 0 ["alice"; "bob"] with Ok d => d | Err _ => ds0 end in
  let ds2 := match accept_commit ds1 "g" 0 with Ok (d, _) => d | Err _ => ds1 end in
  let ds3 := match accept_commit ds2 "g" 1 with Ok (d, _) => d | Err _ => ds2 end in
  let ds4 := deliver_to ds3 "g" "bob" 1 [] "alice" in
  let ds5 := deliver_to ds4 "g" "bob" 1 [] "bob" in
  let ds6 := deliver_to ds5 "g" "alice" 0 [] "alice" in
  let ds7 := deliver_to ds6 "g" "alice" 0 [] "bob" in
  MkServer ds7 [MkPublication "g" "alice" 0 [] []; MkPublication "g" "bob" 1 [] []]
    [MkAcceptance "g" 1 ["alice"; "bob"]; MkAcceptance "g" 2 ["alice"; "bob"]].

Lemma overtaking_reachable : reachable example_metrics overtaking_run.
Proof.
  unfold reachable, server_init.
  eapply rtc_l. { apply (step_put _ _ _ "g" 0 ["alice"; "bob"]). reflexivity. }
  eapply rtc_l. { apply (step_accept _ _ _ "g" "alice" 0 []); [done|reflexivity]. }
  eapply rtc_l. { apply (step_accept _ _ _ "g" "bob" 1 []); [done|reflexivity]. }
  eapply rtc_l. { apply (step_deliver _ [_] []). }
  eapply rtc_l. { apply (step_deliver _ [_] []). }
  eapply rtc_l. { apply (step_deliver _ [] [_]). }
  eapply rtc_l. { apply (step_deliver _ [] [_]). }
  apply rtc_refl.
Qed.

(** A group that lists "bob" twice: its commit is queued for "bob" twice. *)
Definition repeated_run : server :=
  let ds0 := with_delivery_mode example_metrics PerRecipient in
  let ds1 := match put_group_state ds0 "g" 0 ["bob"; "bob"] with Ok d => d | Err _ => ds0 end in
  let ds2 := match accept_commit ds1 "g" 0 with Ok (d, _) => d | Err _ => ds1 end in
  let ds3 := deliver_to ds2 "g" "alice" 0 [] "bob" in
  let ds4 := deliver_to ds3 "g" "alice" 0 [] "bob" in
  MkServer ds4 [MkPublication "g" "alice" 0 [] []] [MkAcceptance "g" 1 ["bob"; "bob"]].

Lemma repeated_member :
  reachable example_metrics repeated_run ∧ outstanding repeated_run "bob" = [("g", 1); ("g", 1)].
Proof.
  split; [|vm_compute; done]. unfold reachable, server_init.
  eapply rtc_l. { apply (step_put _ _ _ "g" 0 ["bob"; "bob"]). reflexivity. }
  eapply rtc_l. { apply (step_accept _ _ _ "g" "alice" 0 []); [done|reflexivity]. }
  eapply rtc_l. { apply (step_deliver _ [] []). }
  eapply rtc_l. { apply (step_deliver _ [] []). }
  apply rtc_refl.
Qed.

Lemma accepted_epochs_linear_witness :
  (∀ g st, groups (srv_ds overtaking_run) !! g = Some st →
     ∃ e0 n, epochs_of g (srv_accepted overtaking_run) = consecutive e0 n
             ∧ current_epoch st = e0 + N.of_nat n)
  ∧ NoDup (outstanding overtaking_run "bob")
  ∧ outstanding repeated_run "bob" ⊆+ addressed repeated_run "bob".
Proof.
  destruct (accepted_epochs_linear example_metrics overtaking_run overtaking_reachable)
    as (H1 & _ & _ & _ & H2).
  destruct (accepted_epochs_linear example_metrics repeated_run (proj1 repeated_member))
    as (_ & _ & H3 & _).
  split; [exact H1|]. split; [|apply H3]. apply H2.
  apply Forall_cons. split; [vm_compute; lia|]. apply Forall_cons. split; [vm_compute; lia|constructor].
Defined.

(** C9: the pushes of two accepted commits are not ordered: a reachable state has
    the commit of epoch 2 queued for "bob" ahead of the commit of epoch 1, while
    the group's epochs were accepted in order.  (The epoch check is atomic; the
    fan-out after it is not.) *)
Theorem fan_out_may_overtake :
  ∃ m sv, reachable m sv
    ∧ epochs_of "g" (srv_accepted sv) = [1; 2]
    ∧ cdr_epoch <$> queue (commit_inboxes (srv_ds sv)) "bob" = [2; 1].
Proof.
  exists example_metrics, overtaking_run.
  split; [apply overtaking_reachable|]. split; vm_compute; done.
Qed.

(** C8: at-least-once delivery: from any reachable state whose group identifiers
    contain no colon, a recipient that fetches, then acknowledges what it fetched, as
    many times as it has entries, receives its queue in queue order, each commit once,
    ends with an empty inbox, and disturbs no other recipient's inbox.  It receives the
    whole queue unless a member list repeated it: then a later copy of a commit it has
    received already goes with the acknowledgement of the first. *)
Theorem drain_commit_inbox m sv r :
  reachable m sv →
  (∀ r d, d ∈ queue (commit_inboxes (srv_ds sv)) r → char_free ":" (cdr_group_id d)) →
  let q := queue (commit_inboxes (srv_ds sv)) r in
  let out := drain (length q) (srv_ds sv) r in
  (listed_once sv r → out.2 = q)
  ∧ out.2 = firsts cdr_id q
  ∧ (∀ k, k ∈ record_key <$> q → k ∈ record_key <$> out.2)
  ∧ queue (commit_inboxes out.1) r = []
  ∧ (∀ r', r ≠ r' → queue (commit_inboxes out.1) r' = queue (commit_inboxes (srv_ds sv)) r').
Proof.
  intros Hr Hfree q out. pose proof (reachable_mode _ _ Hr) as Hwf.
  destruct (drain_spec (length q) (srv_ds sv) r Hwf) as (H1 & H2 & _ & H4 & _); [done|].
  change (out.2 = firsts cdr_id q) in H1. split_and!; [|exact H1| |exact H2|exact H4].
  - intros Hl. rewrite H1. apply firsts_distinct, (reachable_ids_distinct m); [done..|].
    apply outstanding_distinct; [by eapply reachable_inv|done].
  - intros k (d & -> & Hd)%list_elem_of_fmap. rewrite H1.
    assert (Hi : cdr_id d ∈ cdr_id <$> firsts cdr_id q) by (by apply firsts_id, list_elem_of_fmap_2).
    apply list_elem_of_fmap in Hi as (d' & E & Hd'). apply list_elem_of_fmap. exists d'.
    split; [|done]. eapply reachable_ids; [done|done|exact Hd| |done].
    eapply elem_of_sublist; [exact Hd'|]. apply firsts_sublist.
Qed.

Lemma drain_commit_inbox_witness :
  let q := queue (commit_inboxes (srv_ds overtaking_run)) "bob" in
  let out := drain (length q) (srv_ds overtaking_run) "bob" in
  out.2 = q
  ∧ queue (commit_inboxes out.1) "bob" = []
  ∧ (∀ r', "bob" ≠ r' →
       queue (commit_inboxes out.1) r' = queue (commit_inboxes (srv_ds overtaking_run)) r').
Proof.
  destruct (drain_commit_inbox example_metrics overtaking_run "bob" overtaking_reachable)
    as (H1 & _ & _ & H2 & H3).
  - intros r d Hd.
    assert (Hk : record_key d ∈ outstanding overtaking_run r).
    { apply elem_of_app. left. by apply list_elem_of_fmap_2. }
    pose proof (inv_outstanding _ (reachable_inv _ _ overtaking_reachable) r) as Hsub.
    eapply elem_of_submseteq in Hk; [|exact Hsub].
    apply addressed_elem in Hk as (a & Ha & E & _).
    assert (cdr_group_id d = "g") as ->; [|done].
    apply (f_equal fst) in E. simpl in E. rewrite <-E. simpl in Ha. set_solver.
  - split_and!; [apply H1|exact H2|exact H3].
    apply Forall_cons. split; [vm_compute; lia|]. apply Forall_cons. split; [vm_compute; lia|constructor].
Defined.
