(* ===== verification/DeliveryModes.v ===== *)
(** * The delivery service's two commit delivery modes

    A simulation between the per-recipient inboxes and the group log with
    cursors, for the clients of one group. *)

From S2P Require Import Prelude Inbox ServiceMetrics DeliveryService.
From S2P Require Import DeliveryConcurrency.
From stdpp Require Import options.

Local Open Scope N_scope.

(** ** The two delivery modes serve the same stream

    The clients of one group publish commits, replace the member list, and poll
    (fetch, then acknowledge what was fetched).  [hash_iter] is the iteration
    order of the group log's hash map. *)

Inductive client_op :=
| OpPublish (sender : string) (epoch : N) (commit : bytes)
| OpMembers (epoch : N) (ms : list string)
| OpPeek (r : string)
| OpPoll (r : string).

Inductive client_out :=
| OutDone
| OutRejected (message : string)
| OutNothing
| OutPending (d : CommitDeliveryRecord)
| OutDelivered (d : CommitDeliveryRecord) (acked : bool).

Section modes.
Context (hash_iter : gmap string (list GroupLogCommit) → log_entries)
        (hash_iter_perm : ∀ m, hash_iter m ≡ₚ map_to_list m)
        (g : string).

Definition client_step (ds : DeliveryService) (op : client_op) :
    DeliveryService * client_out :=
  match op with
  | OpPublish s e b =>
      match publish_group_commit ds g s e b with
      | Ok ds' => (ds', OutDone) | Err m => (ds, OutRejected m) end
  | OpMembers e ms =>
      match put_group_state ds g e ms with
      | Ok ds' => (ds', OutDone) | Err m => (ds, OutRejected m) end
  | OpPeek r =>
      match fetch_next_pending_commit ds (hash_iter (group_commit_log ds)) r with
      | None => (ds, OutNothing) | Some d => (ds, OutPending d) end
  | OpPoll r =>
      match fetch_next_pending_commit ds (hash_iter (group_commit_log ds)) r with
      | None => (ds, OutNothing)
      | Some d =>
          let '(ds', acked) :=
            ack_commit ds (hash_iter (group_commit_log ds)) r (cdr_id d) in
          (ds', OutDelivered d acked)
      end
  end.

Fixpoint client_run (ds : DeliveryService) (ops : list client_op) : list client_out :=
  match ops with
  | [] => []
  | op :: ops' => let '(ds', out) := client_step ds op in out :: client_run ds' ops'
  end.

Definition to_record (r : string) (c : GroupLogCommit) : CommitDeliveryRecord :=
  MkCommitDeliveryRecord (commit_delivery_id g (glc_epoch c) (glc_sender c) r)
    g (glc_epoch c) (glc_sender c) (glc_commit_bytes c).

Definition log_of (ds : DeliveryService) : list GroupLogCommit :=
  queue (group_commit_log ds) g.

(** The log entries recipient [r] has still to see. *)
Definition todo (ds : DeliveryService) (r : string) : list GroupLogCommit :=
  filter (wanted r (cursor ds r g)) (log_of ds).

Definition epoch_of (ds : DeliveryService) : N :=
  default 0 (current_epoch <$> groups ds !! g).

Record mode_sim (budget : N) (dsP dsL : DeliveryService) : Prop := {
  sim_modes : delivery_mode dsP = PerRecipient ∧ delivery_mode dsL = GroupLog;
  sim_groups : groups dsP = groups dsL;
  sim_members : ∀ st, groups dsL !! g = Some st → NoDup (members st);
  sim_only : ∀ g', g' ≠ g → group_commit_log dsL !! g' = None;
  sim_inbox : ∀ r, queue (commit_inboxes dsP) r = to_record r <$> todo dsL r;
  sim_sorted : StronglySorted N.lt (glc_epoch <$> log_of dsL);
  sim_log_bound : ∀ c, c ∈ log_of dsL → glc_epoch c <= epoch_of dsL;
  sim_cursor_bound : ∀ r, cursor dsL r g <= epoch_of dsL;
  sim_budget : epoch_of dsL + budget <= u64_max;
}.

Lemma hash_iter_single (m : gmap string (list GroupLogCommit)) :
  (∀ g', g' ≠ g → m !! g' = None) →
  hash_iter m = match m !! g with Some cs => [(g, cs)] | None => [] end.
Proof using hash_iter_perm.
  intros Honly. pose proof (hash_iter_perm m) as Hp.
  destruct (m !! g) as [cs|] eqn:E.
  - assert (m = {[g := cs]}) as ->.
    { apply map_eq. intros g'. destruct (decide (g' = g)) as [->|Hne].
      - by rewrite lookup_singleton_eq.
      - rewrite lookup_singleton_ne by done. by apply Honly. }
    rewrite map_to_list_singleton in Hp. by apply Permutation_singleton_r in Hp.
  - assert (m = ∅) as ->.
    { apply map_eq. intros g'. rewrite lookup_empty.
      destruct (decide (g' = g)) as [->|Hne]; [done|by apply Honly]. }
    rewrite map_to_list_empty in Hp. by apply Permutation_nil_r in Hp.
Qed.

Lemma first_pending_head r a cs : first_pending r a cs = head (filter (wanted r a) cs).
Proof.
  induction cs as [|c cs IH]; [done|]. simpl.
  destruct ((glc_epoch c <=? a) || negb (is_recipient r c)) eqn:E.
  - rewrite filter_false; [done|]. unfold wanted. by rewrite E.
  - rewrite filter_true; [done|]. unfold wanted. by rewrite E.
Qed.

Lemma fetch_log_todo ds r :
  delivery_mode ds = GroupLog →
  (∀ g', g' ≠ g → group_commit_log ds !! g' = None) →
  fetch_next_pending_commit ds (hash_iter (group_commit_log ds)) r
  = to_record r <$> head (todo ds r).
Proof using hash_iter_perm.
  intros Hm Honly. unfold fetch_next_pending_commit. rewrite Hm.
  rewrite hash_iter_single by done. unfold todo, log_of, queue, fetch_group_log_commit_compat.
  destruct (group_commit_log ds !! g) as [cs|]; [|done]. simpl.
  rewrite first_pending_head. by destruct (head _).
Qed.

Lemma find_unique_epoch r (cs : list GroupLogCommit) c :
  StronglySorted N.lt (glc_epoch <$> cs) → c ∈ cs → r ∈ glc_recipients c →
  ∃ c', List.find (ack_matches r (cdr_id (to_record r c)) g) cs = Some c'
        ∧ glc_epoch c' = glc_epoch c.
Proof.
  intros Hs Hin Hr.
  destruct (List.find _ cs) as [c'|] eqn:E.
  - exists c'. split; [done|]. apply List.find_some in E as [_ E].
    unfold ack_matches in E. apply andb_true_iff in E as [_ E%String.eqb_eq].
    simpl in E. by apply commit_delivery_id_epoch in E.
  - eapply List.find_none in E; [|by apply list_elem_of_In].
    unfold ack_matches in E. simpl in E.
    rewrite String.eqb_refl, andb_true_r in E. unfold is_recipient in E.
    apply existsb_eqb in Hr. congruence.
Qed.

(** Raising the cursor to the head's epoch leaves exactly the tail. *)
Lemma todo_tail r a cs c rest :
  StronglySorted N.lt (glc_epoch <$> cs) →
  filter (wanted r a) cs = c :: rest →
  filter (wanted r (glc_epoch c)) cs = rest.
Proof.
  intros Hs Hf. revert rest Hf. induction cs as [|c0 cs IH]; intros rest Hf; [done|].
  rewrite fmap_cons in Hs. apply StronglySorted_cons in Hs as [Hlt Hs].
  destruct (wanted r a c0) eqn:E.
  - rewrite filter_true in Hf by done. injection Hf as -> <-.
    rewrite filter_false.
    + apply filter_ext_in. intros x Hx. apply eq_true_iff_eq. rewrite !wanted_spec.
      apply wanted_spec in E as [Ha _]. rewrite Forall_forall in Hlt.
      specialize (Hlt (glc_epoch x)). rewrite list_elem_of_fmap in Hlt.
      specialize (Hlt ltac:(eauto)). split; intros [??]; split; try done; lia.
    + unfold wanted. rewrite N.leb_refl. done.
  - rewrite filter_false in Hf by done.
    rewrite filter_false; [by apply IH|].
    assert (Hc : c ∈ filter (wanted r a) cs) by (rewrite Hf; left).
    apply list_elem_of_filter in Hc as [Hw Hc]. apply Is_true_true, wanted_spec in Hw.
    destruct (wanted r (glc_epoch c) c0) eqn:E'; [|done].
    apply wanted_spec in E' as [Hlt' Hr']. rewrite Forall_forall in Hlt.
    specialize (Hlt (glc_epoch c)). rewrite list_elem_of_fmap in Hlt.
    specialize (Hlt ltac:(eauto)). lia.
Qed.

Lemma sim_init m budget :
  budget <= u64_max →
  mode_sim budget (with_delivery_mode m PerRecipient) (with_delivery_mode m GroupLog).
Proof.
  intros Hb. split; try done; [constructor|].
  intros c Hc. by apply not_elem_of_nil in Hc.
Qed.

Lemma sim_weaken b b' dsP dsL : b' <= b → mode_sim b dsP dsL → mode_sim b' dsP dsL.
Proof. intros Hb []. split; try done. lia. Qed.

Lemma deliver_fold_queue s e b ms ds r :
  NoDup ms →
  queue (commit_inboxes (foldl (λ d r, deliver_to d g s e b r) ds ms)) r
  = queue (commit_inboxes ds) r ++ (if decide (r ∈ ms) then [delivery_record g s e b r] else []).
Proof.
  revert ds. induction ms as [|x ms IH]; intros ds Hnd; simpl.
  - by rewrite app_nil_r.
  - inversion Hnd as [|?? Hni Hnd']; subst. rewrite IH by done. simpl.
    destruct (decide (x = r)) as [->|Hne].
    + rewrite queue_push, decide_False, app_nil_r by done.
      by rewrite decide_True by left.
    + rewrite queue_push_ne by done. f_equal.
      destruct (decide (r ∈ ms)).
      * by rewrite decide_True by (by right).
      * rewrite decide_False; [done|]. intros [|]%elem_of_cons; congruence.
Qed.

Lemma deliver_fold_rest s e b ms ds :
  groups (foldl (λ d r, deliver_to d g s e b r) ds ms) = groups ds
  ∧ delivery_mode (foldl (λ d r, deliver_to d g s e b r) ds ms) = delivery_mode ds.
Proof.
  revert ds. induction ms as [|x ms IH]; intros ds; [done|]. simpl.
  by destruct (IH (deliver_to ds g s e b x)) as [-> ->].
Qed.

Lemma sim_publish budget dsP dsL s e b :
  0 < budget → mode_sim budget dsP dsL →
  (client_step dsP (OpPublish s e b)).2 = (client_step dsL (OpPublish s e b)).2
  ∧ mode_sim (budget - 1) (client_step dsP (OpPublish s e b)).1
      (client_step dsL (OpPublish s e b)).1.
Proof.
  intros Hpos Hsim. destruct (Hsim) as [[HmP HmL] Hg Hmem Honly Hin Hso Hlb Hcb Hbud].
  simpl. unfold publish_group_commit, accept_commit. rewrite Hg.
  destruct (groups dsL !! g) as [st|] eqn:Est; simpl;
    [|split; [done|eapply sim_weaken; [|done]; lia]].
  case_decide as He; simpl; [split; [done|eapply sim_weaken; [|done]; lia]|].
  rewrite HmP, HmL. simpl. split; [done|].
  assert (Hcur : epoch_of dsL = current_epoch st) by (unfold epoch_of; by rewrite Est).
  rewrite Hcur in *. assert (e = current_epoch st) as -> by done.
  assert (Hw : wrap64 (current_epoch st + 1) = current_epoch st + 1)
    by (apply wrap64_small; unfold u64_max, pow64 in *; lia).
  pose proof (Hmem _ eq_refl) as Hnd.
  set (c := MkGroupLogCommit (current_epoch st + 1) s (members st) b).
  destruct (deliver_fold_rest s (current_epoch st) b (members st)
    (set_groups dsP (<[g:=MkGroupState (wrap64 (current_epoch st + 1)) (members st)]> (groups dsL))))
    as [HgP HmP'].
  assert (Hlog : log_of (log_commit
      (set_groups dsL (<[g:=MkGroupState (wrap64 (current_epoch st + 1)) (members st)]> (groups dsL)))
      g s (current_epoch st) b (members st)) = log_of dsL ++ [c]).
  { unfold log_of, log_commit. simpl. by rewrite queue_push, Hw. }
  split.
  - by rewrite HmP'.
  - by rewrite HgP.
  - simpl. intros st'. rewrite lookup_insert_eq. intros [= <-]. done.
  - intros g' Hg'. simpl. unfold push. rewrite lookup_insert_ne by done. by apply Honly.
  - intros r. rewrite deliver_fold_queue by done. simpl. rewrite Hin.
    unfold todo. rewrite Hlog. change (cursor (log_commit _ _ _ _ _ _) r g) with (cursor dsL r g).
    rewrite filter_app, fmap_app. f_equal.
    specialize (Hcb r).
    destruct (decide (r ∈ members st)) as [Hr|Hr].
    + rewrite filter_true; [|apply wanted_spec; simpl; split; [lia|done]].
      simpl. unfold delivery_record, to_record. simpl. by rewrite Hw.
    + rewrite filter_false; [done|].
      destruct (wanted r (cursor dsL r g) c) eqn:E; [|done].
      by apply wanted_spec in E as [_ ?].
  - rewrite Hlog, fmap_app. apply StronglySorted_app_2; [|done|repeat constructor].
    intros x y (c' & -> & Hc')%list_elem_of_fmap ->%list_elem_of_singleton. simpl.
    specialize (Hlb c' Hc'). lia.
  - intros c'. rewrite Hlog. unfold epoch_of. simpl. rewrite lookup_insert_eq. simpl.
    rewrite elem_of_app, list_elem_of_singleton, Hw.
    intros [Hc'| ->]; [specialize (Hlb c' Hc'); lia|simpl; lia].
  - intros r. change (cursor (log_commit _ _ _ _ _ _) r g) with (cursor dsL r g).
    unfold epoch_of. simpl. rewrite lookup_insert_eq. simpl. specialize (Hcb r). lia.
  - unfold epoch_of. simpl. rewrite lookup_insert_eq. simpl. lia.
Qed.

Lemma sim_members_op budget dsP dsL e ms :
  0 < budget → NoDup ms → e + budget <= u64_max → mode_sim budget dsP dsL →
  (client_step dsP (OpMembers e ms)).2 = (client_step dsL (OpMembers e ms)).2
  ∧ mode_sim (budget - 1) (client_step dsP (OpMembers e ms)).1
      (client_step dsL (OpMembers e ms)).1.
Proof.
  intros Hpos Hnd He Hsim. destruct (Hsim) as [[HmP HmL] Hg Hmem Honly Hin Hso Hlb Hcb Hbud].
  simpl. unfold put_group_state. rewrite Hg.
  destruct (groups dsL !! g) as [st|] eqn:Est.
  - assert (Hcur : epoch_of dsL = current_epoch st) by (unfold epoch_of; by rewrite Est).
    case_decide; simpl; [split; [done|eapply sim_weaken; [|done]; lia]|].
    split; [done|]. split; try done; simpl.
    + intros st'. rewrite lookup_insert_eq. by intros [= <-].
    + intros c Hc. unfold epoch_of. simpl. rewrite lookup_insert_eq. simpl.
      rewrite <-Hcur. by apply Hlb.
    + intros r. unfold epoch_of. simpl. rewrite lookup_insert_eq. simpl.
      rewrite <-Hcur. apply Hcb.
    + unfold epoch_of. simpl. rewrite lookup_insert_eq. simpl. lia.
  - assert (Hcur : epoch_of dsL = 0) by (unfold epoch_of; by rewrite Est).
    simpl. split; [done|]. split; try done; simpl.
    + intros st'. rewrite lookup_insert_eq. by intros [= <-].
    + intros c Hc. unfold epoch_of. simpl. rewrite lookup_insert_eq. simpl.
      specialize (Hlb c Hc). lia.
    + intros r. unfold epoch_of. simpl. rewrite lookup_insert_eq. simpl.
      specialize (Hcb r). unfold cursor in *. simpl. lia.
    + unfold epoch_of. simpl. rewrite lookup_insert_eq. simpl. lia.
Qed.

Lemma fetch_both budget dsP dsL r :
  mode_sim budget dsP dsL →
  fetch_next_pending_commit dsP (hash_iter (group_commit_log dsP)) r
    = to_record r <$> head (todo dsL r)
  ∧ fetch_next_pending_commit dsL (hash_iter (group_commit_log dsL)) r
    = to_record r <$> head (todo dsL r).
Proof using hash_iter_perm.
  intros [[HmP HmL] Hg Hmem Honly Hin _ _ _ _]. split.
  - unfold fetch_next_pending_commit. rewrite HmP, peek_queue, Hin. by destruct (todo _ _).
  - by apply fetch_log_todo.
Qed.

Lemma nodup_record_ids r (cs : list GroupLogCommit) :
  StronglySorted N.lt (glc_epoch <$> cs) → NoDup (cdr_id <$> (to_record r <$> cs)).
Proof.
  induction cs as [|c cs IH]; intros Hs; [constructor|].
  rewrite fmap_cons in Hs. apply StronglySorted_cons in Hs as [Hlt Hs].
  csimpl. constructor; [|by apply IH].
  intros (d & Hid & Hd)%list_elem_of_fmap. apply list_elem_of_fmap in Hd as (c' & -> & Hc').
  apply commit_delivery_id_epoch in Hid. rewrite Forall_forall in Hlt.
  specialize (Hlt (glc_epoch c')). rewrite list_elem_of_fmap in Hlt.
  specialize (Hlt ltac:(eauto)). lia.
Qed.

Lemma sorted_todo ds r :
  StronglySorted N.lt (glc_epoch <$> log_of ds) → StronglySorted N.lt (glc_epoch <$> todo ds r).
Proof.
  unfold todo. induction (log_of ds) as [|c cs IH]; intros Hs; [done|].
  rewrite fmap_cons in Hs. apply StronglySorted_cons in Hs as [Hlt Hs].
  destruct (wanted r (cursor ds r g) c) eqn:E.
  - rewrite filter_true by done. rewrite fmap_cons. constructor; [by apply IH|].
    rewrite Forall_forall in *. intros x (c' & -> & Hc')%list_elem_of_fmap.
    apply list_elem_of_filter in Hc' as [_ Hc'].
    apply Hlt, list_elem_of_fmap. eauto.
  - rewrite filter_false by done. by apply IH.
Qed.

(** Acknowledging, in the log mode, the commit at the head of [todo]. *)
Lemma ack_log_head ds r c rest :
  delivery_mode ds = GroupLog →
  (∀ g', g' ≠ g → group_commit_log ds !! g' = None) →
  StronglySorted N.lt (glc_epoch <$> log_of ds) →
  todo ds r = c :: rest →
  ack_commit ds (hash_iter (group_commit_log ds)) r (cdr_id (to_record r c))
  = (set_commit_cursors ds (<[(r, g) := glc_epoch c]> (commit_cursors ds)), true).
Proof using hash_iter_perm.
  intros Hm Honly Hs Ht. unfold ack_commit. rewrite Hm, hash_iter_single by done.
  assert (Hc : c ∈ todo ds r) by (rewrite Ht; left).
  unfold todo in Hc. apply list_elem_of_filter in Hc as [Hw Hc].
  apply Is_true_true, wanted_spec in Hw as [Hcur Hr].
  destruct (find_unique_epoch r (log_of ds) c Hs Hc Hr) as (c' & Hf & He).
  unfold log_of, queue in *.
  destruct (group_commit_log ds !! g) as [cs|]; [|by apply not_elem_of_nil in Hc].
  cbn [ack_group_log_commit_compat]. simpl in Hf. simpl. rewrite Hf, He.
  by rewrite N.max_r by lia.
Qed.

Lemma sim_poll budget dsP dsL r :
  mode_sim budget dsP dsL →
  (client_step dsP (OpPoll r)).2 = (client_step dsL (OpPoll r)).2
  ∧ mode_sim budget (client_step dsP (OpPoll r)).1 (client_step dsL (OpPoll r)).1.
Proof using hash_iter_perm.
  intros Hsim. simpl. destruct (fetch_both _ _ _ r Hsim) as [-> ->].
  destruct (Hsim) as [[HmP HmL] Hg Hmem Honly Hin Hso Hlb Hcb Hbud].
  destruct (todo dsL r) as [|c rest] eqn:Et; [done|]. simpl fmap. cbn [option_fmap option_map].
  rewrite (ack_log_head dsL r c rest) by done.
  destruct (ack_commit_inboxes dsP (hash_iter (group_commit_log dsP)) r
              (cdr_id (to_record r c)) HmP) as (HiP & HaP & HmP').
  pose proof (ack_commit_groups dsP (hash_iter (group_commit_log dsP)) r
              (cdr_id (to_record r c)) HmP) as HgP.
  assert (Hq : queue (commit_inboxes dsP) r = to_record r c :: (to_record r <$> rest))
    by (by rewrite Hin, Et).
  destruct (ack_head cdr_id (commit_inboxes dsP) r (to_record r c) _ Hq) as [Hq' Hok].
  { rewrite Hin. by apply nodup_record_ids, sorted_todo. }
  destruct (ack_commit dsP _ r _) as [dsP' acked]. simpl in *. rewrite HaP, Hok.
  split; [done|].
  assert (Hcur : ∀ r', cursor (set_commit_cursors dsL
              (<[(r, g) := glc_epoch c]> (commit_cursors dsL))) r' g
            = if decide (r = r') then glc_epoch c else cursor dsL r' g).
  { intros r'. unfold cursor. simpl. destruct (decide (r = r')) as [<-|Hne].
    - by rewrite lookup_insert_eq.
    - rewrite lookup_insert_ne; [done|congruence]. }
  split; try done.
  - by rewrite HgP.
  - intros r'. rewrite HiP. unfold todo. rewrite Hcur. simpl.
    destruct (decide (r = r')) as [<-|Hne].
    + rewrite Hq'. f_equal. symmetry. eapply todo_tail; [exact Hso|exact Et].
    + rewrite ack_queue_ne by done. apply Hin.
  - intros r'. rewrite Hcur. unfold epoch_of. simpl. fold (epoch_of dsL).
    case_decide; [|apply Hcb]. apply Hlb.
    assert (Hc : c ∈ todo dsL r) by (rewrite Et; left).
    unfold todo in Hc. by apply list_elem_of_filter in Hc as [_ Hc].
Qed.

Definition op_ok (budget : N) (op : client_op) : Prop :=
  match op with
  | OpMembers e ms => NoDup ms ∧ e + budget <= u64_max
  | _ => True
  end.

Lemma sim_step budget dsP dsL op :
  0 < budget → op_ok budget op → mode_sim budget dsP dsL →
  (client_step dsP op).2 = (client_step dsL op).2
  ∧ mode_sim (budget - 1) (client_step dsP op).1 (client_step dsL op).1.
Proof using hash_iter_perm.
  intros Hpos Hok Hsim. destruct op as [s e b|e ms|r|r].
  - by apply sim_publish.
  - destruct Hok. by apply sim_members_op.
  - simpl. destruct (fetch_both _ _ _ r Hsim) as [-> ->].
    assert (mode_sim (budget - 1) dsP dsL) by (eapply sim_weaken; [|done]; lia).
    by destruct (todo dsL r).
  - destruct (sim_poll budget dsP dsL r Hsim) as [? ?].
    split; [done|]. eapply sim_weaken; [|done]. lia.
Qed.

Lemma sim_run ops : ∀ budget dsP dsL,
  N.of_nat (length ops) <= budget → Forall (op_ok budget) ops →
  mode_sim budget dsP dsL →
  client_run dsP ops = client_run dsL ops.
Proof using hash_iter_perm.
  induction ops as [|op ops IH]; intros budget dsP dsL Hb Hok Hsim; [done|].
  apply Forall_cons in Hok as [Hop Hok]. simpl in Hb.
  destruct (sim_step budget dsP dsL op) as [Hout Hsim']; [lia|done..|].
  cbn [client_run]. destruct (client_step dsP op) as [dsP' out],
    (client_step dsL op) as [dsL' out']. simpl in *. subst out'. f_equal.
  apply (IH (budget - 1)); [lia| |done].
  eapply Forall_impl; [exact Hok|]. intros [] Hx; simpl in *; try done.
  destruct Hx. split; [done|lia].
Qed.
End modes.

(** ** Properties *)

(** C7: the two delivery modes are interchangeable for the clients of one group:
    whatever sequence of publications, member-list updates, fetches and
    fetch-then-acknowledge polls they make, a service in per-recipient mode and
    one in group-log mode give exactly the same answers, provided member lists
    have no duplicates and the epoch stays below 2^64. *)
Theorem delivery_modes_equivalent hash_iter g m ops :
  (∀ log, hash_iter log ≡ₚ map_to_list log) →
  N.of_nat (length ops) <= u64_max →
  Forall (op_ok (N.of_nat (length ops))) ops →
  client_run hash_iter g (with_delivery_mode m PerRecipient) ops
  = client_run hash_iter g (with_delivery_mode m GroupLog) ops.
Proof.
  intros Hperm Hlen Hok. eapply sim_run; [exact Hperm| |exact Hok|].
  - done.
  - by apply sim_init.
Qed.

Definition example_ops : list client_op :=
  [OpMembers 0 ["alice"; "bob"]; OpPublish "alice" 0 []; OpPublish "bob" 0 [];
   OpPeek "bob"; OpMembers 1 ["alice"]; OpPublish "alice" 1 []; OpPoll "bob"; OpPoll "bob";
   OpPoll "alice"; OpPoll "alice"].

Lemma delivery_modes_equivalent_witness :
  client_run map_to_list "g" (with_delivery_mode example_metrics PerRecipient) example_ops
  = client_run map_to_list "g" (with_delivery_mode example_metrics GroupLog) example_ops.
Proof.
  apply (delivery_modes_equivalent map_to_list "g" example_metrics example_ops).
  - done.
  - done.
  - assert (H : NoDup ["alice"; "bob"] ∧ NoDup ["alice"])
      by (split; apply (bool_decide_unpack _); vm_compute; done).
    destruct H as [H1 H2].
    repeat apply Forall_cons_2; try apply Forall_nil_2; simpl; try done; by split.
Defined.
