(* ===== verification/MessageRelay.v ===== *)
(** * The message relays

    [Mls] is [OpenMLS_containerized/src/message_relay.rs] (application messages
    of a group), [Pairwise] is [Signal_containerized/src/message_relay.rs]
    (pairwise and Sender Key messages, fetched optionally by sender).  Both keep
    per-recipient inboxes and an [AtomicU64] message counter shared by all
    conversations.  [hex_encode] is the [hex] crate's encoder. *)

From S2P Require Import Prelude Inbox ServiceMetrics.
From stdpp Require Import options.

Local Open Scope N_scope.

Record RelayEnvelope := MkRelayEnvelope {
  env_id : string;
  env_conversation : string;
  env_sender : string;
  env_message_bytes : bytes;
}.

#[export] Instance envelope_eq_dec : EqDecision RelayEnvelope.
Proof. solve_decision. Defined.

Record PendingMessage := MkPendingMessage {
  pm_id : string;
  pm_conversation : string;
  pm_sender : string;
  pm_message_hex : string;
}.

Record MessageRelay := MkMessageRelay {
  inboxes : gmap string (list RelayEnvelope);
  next_message_id : N;
  relay_metrics : ServiceMetrics;
}.

Definition new (m : ServiceMetrics) : MessageRelay := MkMessageRelay ∅ 1 m.

Definition set_inboxes (rl : MessageRelay) x : MessageRelay :=
  MkMessageRelay x (next_message_id rl) (relay_metrics rl).

(** [format!("{conversation}:{sender}:{seq}:{recipient}")] *)
Definition message_id (conversation sender : string) (seq : N) (recipient : string) : string :=
  conversation +:+ ":" +:+ sender +:+ ":" +:+ pretty seq +:+ ":" +:+ recipient.

Definition envelope (conversation sender : string) (seq : N) (message : bytes)
    (recipient : string) : RelayEnvelope :=
  MkRelayEnvelope (message_id conversation sender seq recipient) conversation sender message.

(** The fan-out loop: the sender is skipped, every other entry of [recipients]
    gets one envelope. *)
Fixpoint fan_out (m : gmap string (list RelayEnvelope)) (conversation sender : string)
    (seq : N) (message : bytes) (recipients : list string) : gmap string (list RelayEnvelope) :=
  match recipients with
  | [] => m
  | r :: rest =>
      let m' := if String.eqb r sender then m
                else push m r (envelope conversation sender seq message r) in
      fan_out m' conversation sender seq message rest
  end.

(** The body both relays share; [fetch_add] wraps. *)
Definition publish (empty_error : string) (rl : MessageRelay) (conversation sender : string)
    (recipients : list string) (message : bytes) : result string MessageRelay :=
  match recipients with
  | [] => Err empty_error
  | _ =>
      let seq := next_message_id rl in
      Ok (MkMessageRelay (fan_out (inboxes rl) conversation sender seq message recipients)
            (wrap64 (seq + 1)) (relay_metrics rl))
  end.

Definition ack_envelope (rl : MessageRelay) (recipient id : string) : MessageRelay * bool :=
  let '(m, acked) := ack env_id (inboxes rl) recipient id in (set_inboxes rl m, acked).

Definition pending (hex_encode : bytes → string) (e : RelayEnvelope) : PendingMessage :=
  MkPendingMessage (env_id e) (env_conversation e) (env_sender e)
    (hex_encode (env_message_bytes e)).

Module Mls.
Definition application_message_id := message_id.

Definition publish_group_application_message :=
  publish "No recipients were provided to the message relay".

Definition fetch_pending_application_message_record (rl : MessageRelay) (recipient : string) :
    option RelayEnvelope := peek (inboxes rl) recipient.

Definition fetch_application_message (rl : MessageRelay) (recipient : string) : option bytes :=
  env_message_bytes <$> fetch_pending_application_message_record rl recipient.

Definition fetch_pending_application_message hex (rl : MessageRelay) (recipient : string) :
    option PendingMessage :=
  pending hex <$> fetch_pending_application_message_record rl recipient.

Definition ack_application_message := ack_envelope.
End Mls.

Module Pairwise.
Definition pairwise_message_id := message_id.

Definition publish_pairwise_message := publish "No recipients provided".

Definition from_sender (sender : option string) (e : RelayEnvelope) : bool :=
  match sender with Some s => String.eqb (env_sender e) s | None => true end.

Definition fetch_pending_message_record (rl : MessageRelay) (recipient : string)
    (sender : option string) : option RelayEnvelope :=
  find_first (from_sender sender) (inboxes rl) recipient.

Definition fetch_message (rl : MessageRelay) (recipient : string) : option bytes :=
  env_message_bytes <$> fetch_pending_message_record rl recipient None.

Definition fetch_pending_message hex (rl : MessageRelay) (recipient : string) :
    option PendingMessage :=
  pending hex <$> fetch_pending_message_record rl recipient None.

Definition fetch_pending_message_from hex (rl : MessageRelay) (recipient sender : string) :
    option PendingMessage :=
  pending hex <$> fetch_pending_message_record rl recipient (Some sender).

Definition ack_message := ack_envelope.
End Pairwise.

(** ** The relay's invariant *)

(** Every queued envelope was formatted for its recipient with a sequence number
    already handed out. *)
Definition relay_wf (rl : MessageRelay) : Prop :=
  ∀ r, ∃ seqs : list N,
    NoDup seqs ∧ Forall (λ s, s < next_message_id rl) seqs
    ∧ Forall2 (λ e s, env_id e = message_id (env_conversation e) (env_sender e) s r
                      ∧ env_sender e ≠ r)
        (queue (inboxes rl) r) seqs.

Lemma new_wf m : relay_wf (new m).
Proof. intros r. exists []. unfold queue. simpl. rewrite lookup_empty. split_and!; constructor. Qed.

Lemma fan_out_queue m conv s seq b rs r :
  NoDup rs →
  queue (fan_out m conv s seq b rs) r
  = queue m r ++ (if decide (r ∈ rs ∧ r ≠ s) then [envelope conv s seq b r] else []).
Proof.
  revert m. induction rs as [|x rs IH]; intros m Hnd; cbn [fan_out].
  - rewrite decide_False; [by rewrite app_nil_r|]. intros [?%not_elem_of_nil _]. done.
  - inversion Hnd as [|?? Hni Hnd']; subst. rewrite IH by done.
    destruct (String.eqb_spec x s) as [->|Hxs].
    + f_equal. apply decide_ext. rewrite elem_of_cons. naive_solver.
    + destruct (decide (x = r)) as [->|Hne].
      * rewrite queue_push, decide_False, app_nil_r by naive_solver.
        rewrite decide_True; [done|]. split; [left|done].
      * rewrite queue_push_ne by done. f_equal. apply decide_ext.
        rewrite elem_of_cons. naive_solver.
Qed.

Lemma publish_ok err rl conv s rs b rl' :
  publish err rl conv s rs b = Ok rl' →
  rs ≠ []
  ∧ inboxes rl' = fan_out (inboxes rl) conv s (next_message_id rl) b rs
  ∧ next_message_id rl' = wrap64 (next_message_id rl + 1).
Proof. unfold publish. destruct rs; [done|]. by intros [= <-]. Qed.

Lemma publish_wf err rl conv s rs b rl' :
  next_message_id rl < u64_max → NoDup rs → relay_wf rl →
  publish err rl conv s rs b = Ok rl' → relay_wf rl'.
Proof.
  intros Hlt Hnd Hwf (_ & Hin & Hid)%publish_ok r.
  destruct (Hwf r) as (seqs & Hns & Hfs & H2).
  rewrite Hin, Hid, fan_out_queue, wrap64_small by (done || unfold u64_max, pow64 in *; lia).
  assert (Hup : Forall (λ s', s' < next_message_id rl + 1) seqs)
    by (eapply Forall_impl; [exact Hfs|]; simpl; lia).
  case_decide as Hr.
  - exists (seqs ++ [next_message_id rl]). split_and!.
    + apply NoDup_app. split_and!; [done| |apply NoDup_singleton].
      intros x Hx ->%list_elem_of_singleton. rewrite Forall_forall in Hfs.
      specialize (Hfs _ Hx). simpl in *. lia.
    + apply Forall_app. split; [done|]. repeat constructor. lia.
    + apply Forall2_app; [done|]. constructor; [|constructor].
      simpl. split; [done|]. naive_solver.
  - exists seqs. by rewrite app_nil_r.
Qed.

Lemma ack_inboxes rl r i :
  inboxes (ack_envelope rl r i).1 = (ack env_id (inboxes rl) r i).1
  ∧ (ack_envelope rl r i).2 = (ack env_id (inboxes rl) r i).2
  ∧ next_message_id (ack_envelope rl r i).1 = next_message_id rl.
Proof. unfold ack_envelope. by destruct (ack _ _ _ _). Qed.

Lemma filter_seqs (P : RelayEnvelope → Prop) `{∀ x, Decision (P x)} (Q : RelayEnvelope → N → Prop) l seqs :
  Forall2 Q l seqs → ∃ seqs', sublist seqs' seqs ∧ Forall2 Q (filter P l) seqs'.
Proof.
  induction 1 as [|e s l seqs Hq Hf (seqs' & Hs & Hf')].
  - exists []. split; [done|]. apply Forall2_nil_2.
  - destruct (decide (P e)).
    + exists (s :: seqs'). rewrite filter_cons_True by done.
      split; [by apply sublist_skip|by constructor].
    + exists seqs'. rewrite filter_cons_False by done.
      split; [by apply sublist_cons|done].
Qed.

Lemma ack_wf_relay rl r i : relay_wf rl → relay_wf (ack_envelope rl r i).1.
Proof.
  intros Hwf r'. destruct (ack_inboxes rl r i) as (-> & _ & ->).
  destruct (Hwf r') as (seqs & Hns & Hfs & H2).
  destruct (decide (r = r')) as [<-|Hne].
  - rewrite ack_queue. destruct (filter_seqs (λ x, env_id x ≠ i) _ _ _ H2) as (seqs' & Hs & H2').
    exists seqs'. split_and!; [by eapply sublist_NoDup| |done].
    apply Forall_forall. intros x Hx. rewrite Forall_forall in Hfs. apply Hfs.
    by eapply elem_of_sublist.
  - rewrite ack_queue_ne by done. exists seqs. done.
Qed.

(** The last two fields of an identifier, read from the right: the sequence
    number is determined when the recipient is. *)
Lemma message_id_seq conv s n conv' s' n' r :
  char_free ":" conv → char_free ":" s → char_free ":" conv' → char_free ":" s' →
  message_id conv s n r = message_id conv' s' n' r → n = n'.
Proof.
  intros Hc Hs Hc' Hs' H. unfold message_id in H.
  apply split_at_char in H as [_ H]; [|done..].
  apply split_at_char in H as [_ H]; [|done..].
  apply split_at_char in H as [H _]; [|by apply pretty_char_free..].
  by apply (inj pretty).
Qed.

Definition colon_free (rl : MessageRelay) : Prop :=
  ∀ r e, e ∈ queue (inboxes rl) r →
    char_free ":" (env_conversation e) ∧ char_free ":" (env_sender e).

Lemma relay_ids_nodup rl r :
  relay_wf rl → colon_free rl → NoDup (env_id <$> queue (inboxes rl) r).
Proof.
  intros Hwf Hcf. destruct (Hwf r) as (seqs & Hns & _ & H2). specialize (Hcf r).
  revert seqs Hns H2. induction (queue (inboxes rl) r) as [|e l IH]; intros seqs Hns H2; [constructor|].
  inversion H2 as [|? s ? seqs' [Hid _] H2']; subst. inversion Hns as [|?? Hni Hns']; subst.
  csimpl. constructor; [|eapply IH; [|exact Hns'|exact H2']; intros ? Hx; apply Hcf; by right].
  intros (e' & Heq & He')%list_elem_of_fmap.
  apply list_elem_of_lookup in He' as [i Hi].
  destruct (Forall2_lookup_l _ _ _ _ _ H2' Hi) as (s' & Hs' & Hid' & _).
  rewrite Hid, Hid' in Heq.
  assert (e' ∈ e :: l) by (right; by eapply list_elem_of_lookup_2).
  assert (e ∈ e :: l) by left.
  apply message_id_seq in Heq; [|by apply Hcf..]. subst s'.
  apply Hni. by eapply list_elem_of_lookup_2.
Qed.

(** ** Executions of a relay

    Publications with distinct recipients and colon-free names, and
    acknowledgements of any identifier by any recipient. *)

Inductive relay_step : MessageRelay → MessageRelay → Prop :=
| relay_publish err rl conv s rs b rl' :
    next_message_id rl < u64_max → NoDup rs → char_free ":" conv → char_free ":" s →
    publish err rl conv s rs b = Ok rl' → relay_step rl rl'
| relay_ack rl r i : relay_step rl (ack_envelope rl r i).1.

Definition relay_reachable (m : ServiceMetrics) : MessageRelay → Prop :=
  rtc relay_step (new m).

Definition relay_inv (rl : MessageRelay) : Prop := relay_wf rl ∧ colon_free rl.

Lemma relay_inv_step rl rl' : relay_inv rl → relay_step rl rl' → relay_inv rl'.
Proof.
  intros [Hwf Hcf] Hstep. destruct Hstep as [err rl conv s rs b rl' Hlt Hnd Hc Hs Hp|rl r i].
  - split; [by eapply publish_wf|]. apply publish_ok in Hp as (_ & Hin & _).
    intros r e. rewrite Hin, fan_out_queue by done. rewrite elem_of_app.
    intros [He|He]; [by eapply Hcf|]. case_decide; [|by apply not_elem_of_nil in He].
    by apply list_elem_of_singleton in He as ->.
  - split; [by apply ack_wf_relay|]. intros r' e. destruct (ack_inboxes rl r i) as (-> & _ & _).
    intros He. apply (Hcf r'). eapply elem_of_sublist; [exact He|].
    destruct (decide (r = r')) as [<-|Hne];
      [rewrite ack_queue; apply sublist_filter|by rewrite ack_queue_ne].
Qed.

Lemma relay_reachable_inv m rl : relay_reachable m rl → relay_inv rl.
Proof.
  apply (rtc_invariant relay_step relay_inv); [apply relay_inv_step|].
  split; [apply new_wf|]. intros r e. unfold queue. simpl. rewrite lookup_empty.
  by intros ?%not_elem_of_nil.
Qed.

#[export] Instance relay_redelivery : Redelivery MessageRelay RelayEnvelope := {
  fetch rl r := Mls.fetch_pending_application_message_record rl r;
  acknowledge := Mls.ack_application_message;
  delivery_id := env_id;
  contents rl r := queue (inboxes rl) r;
}.

#[export] Instance relay_redelivery_laws :
  RedeliveryLaws MessageRelay RelayEnvelope relay_inv.
Proof.
  split; simpl.
  - intros rl r _. apply peek_queue.
  - intros rl r d q _ Hq. unfold Mls.ack_application_message.
    destruct (ack_inboxes rl r (env_id d)) as (-> & -> & _). by apply ack_front.
  - intros rl r r' i _ Hne. unfold Mls.ack_application_message.
    destruct (ack_inboxes rl r i) as (-> & _ & _). by apply ack_queue_ne.
  - intros rl r i Hinv. eapply relay_inv_step; [exact Hinv|]. apply relay_ack.
Qed.

(** ** Polling one sender (the pairwise relay) *)

(** Fetch the oldest envelope of [sender], then acknowledge it, [fuel] times. *)
Fixpoint drain_from (fuel : nat) (rl : MessageRelay) (r sender : string) :
    MessageRelay * list RelayEnvelope :=
  match fuel with
  | O => (rl, [])
  | S fuel' =>
      match Pairwise.fetch_pending_message_record rl r (Some sender) with
      | None => (rl, [])
      | Some e =>
          let '(rl', es) := drain_from fuel' (Pairwise.ack_message rl r (env_id e)).1 r sender in
          (rl', e :: es)
      end
  end.

Lemma find_filter (p : RelayEnvelope → bool) l : List.find p l = head (filter p l).
Proof.
  induction l as [|x l IH]; [done|]. simpl. destruct (p x) eqn:E.
  - by rewrite filter_true.
  - by rewrite filter_false.
Qed.

Lemma fetch_from_filter rl r s :
  Pairwise.fetch_pending_message_record rl r s
  = head (filter (Pairwise.from_sender s) (queue (inboxes rl) r)).
Proof.
  unfold Pairwise.fetch_pending_message_record, find_first, queue.
  destruct (inboxes rl !! r); simpl; [apply find_filter|done].
Qed.

(** Removing by identifier the first element satisfying [p], when identifiers
    are distinct, removes it from the [p]-part and leaves the rest alone. *)
Lemma remove_first_filtered (p : RelayEnvelope → bool) l e q :
  NoDup (env_id <$> l) → filter p l = e :: q →
  filter p (filter (λ x, env_id x ≠ env_id e) l) = q
  ∧ filter (λ x, negb (p x)) (filter (λ x, env_id x ≠ env_id e) l)
    = filter (λ x, negb (p x)) l.
Proof.
  intros Hnd Hf. induction l as [|x l IH]; [done|].
  rewrite fmap_cons in Hnd. apply NoDup_cons in Hnd as [Hni Hnd].
  assert (Hkeep : ∀ y, env_id y = env_id x → filter (λ z, env_id z ≠ env_id y) l = l).
  { intros y Hy. apply filter_all_true, Forall_forall. intros z Hz Heq.
    apply Hni. rewrite <-Hy, <-Heq. by apply list_elem_of_fmap_2. }
  destruct (p x) eqn:E.
  - rewrite filter_true in Hf by done. injection Hf as -> <-.
    rewrite filter_cons_False by (intros Hc; by apply Hc). rewrite Hkeep by done.
    split; [done|]. rewrite (filter_false (λ x, negb (p x)) e) by (by rewrite E). done.
  - rewrite filter_false in Hf by done.
    assert (Hne : env_id x ≠ env_id e).
    { intros Heq. apply Hni. rewrite Heq. apply list_elem_of_fmap_2.
      assert (He : e ∈ filter p l) by (rewrite Hf; left).
      by apply list_elem_of_filter in He as [_ He]. }
    rewrite filter_cons_True by done. rewrite filter_false by done.
    rewrite !(filter_true (λ x, negb (p x)) x) by (by rewrite E).
    destruct (IH Hnd Hf) as [-> ->]. done.
Qed.

Lemma drain_from_spec fuel rl r s :
  relay_inv rl →
  (length (filter (Pairwise.from_sender (Some s)) (queue (inboxes rl) r)) <= fuel)%nat →
  let out := drain_from fuel rl r s in
  out.2 = filter (Pairwise.from_sender (Some s)) (queue (inboxes rl) r)
  ∧ queue (inboxes out.1) r
    = filter (λ e, negb (Pairwise.from_sender (Some s) e)) (queue (inboxes rl) r)
  ∧ (∀ r', r ≠ r' → queue (inboxes out.1) r' = queue (inboxes rl) r').
Proof.
  revert rl. induction fuel as [|fuel IH]; intros rl Hinv Hlen.
  - cbn [drain_from fst snd]. destruct (filter _ (queue _ _)) eqn:E; simpl in Hlen; [|lia].
    split_and!; try done. symmetry. apply filter_all_true.
    apply Forall_forall. intros x Hx. apply negb_prop_intro. intros Hp.
    assert (Hn : x ∈ filter (Pairwise.from_sender (Some s)) (queue (inboxes rl) r))
      by (by apply list_elem_of_filter).
    rewrite E in Hn. by apply not_elem_of_nil in Hn.
  - cbn [drain_from]. rewrite fetch_from_filter.
    destruct (filter _ (queue _ _)) as [|e q] eqn:E; cbn [head fst snd].
    + split_and!; try done. symmetry. apply filter_all_true.
      apply Forall_forall. intros x Hx. apply negb_prop_intro. intros Hp.
      assert (Hn : x ∈ filter (Pairwise.from_sender (Some s)) (queue (inboxes rl) r))
        by (by apply list_elem_of_filter).
      rewrite E in Hn. by apply not_elem_of_nil in Hn.
    + pose proof (ack_inboxes rl r (env_id e)) as (Hi & _ & _).
      destruct (remove_first_filtered (Pairwise.from_sender (Some s))
        (queue (inboxes rl) r) e q) as [H1 H2]; [by apply relay_ids_nodup; apply Hinv|done|].
      assert (Hinv' : relay_inv (ack_envelope rl r (env_id e)).1)
        by (eapply relay_inv_step; [exact Hinv|apply relay_ack]).
      specialize (IH (ack_envelope rl r (env_id e)).1 Hinv').
      rewrite Hi, ack_queue, H1, H2 in IH. simpl in Hlen.
      unfold Pairwise.ack_message.
      destruct (IH ltac:(lia)) as (I1 & I2 & I3).
      destruct (drain_from fuel _ r s) as [rl' es]. simpl in *.
      split_and!; [by f_equal|done|]. intros r' Hne.
      rewrite I3 by done. by apply ack_queue_ne.
Qed.

(** ** Properties *)

(** publishing to an empty recipient list is rejected; otherwise, with distinct
    recipients, every recipient but the sender gets exactly one envelope at the
    end of its inbox, carrying the published bytes, nobody else's inbox changes,
    and the shared sequence number advances by one. *)
Theorem publish_fans_out err rl conv s rs b :
  NoDup rs →
  match publish err rl conv s rs b with
  | Err e => e = err ∧ rs = []
  | Ok rl' =>
      rs ≠ []
      ∧ next_message_id rl' = wrap64 (next_message_id rl + 1)
      ∧ ∀ r, queue (inboxes rl') r
             = queue (inboxes rl) r
               ++ (if decide (r ∈ rs ∧ r ≠ s)
                   then [envelope conv s (next_message_id rl) b r] else [])
  end.
Proof.
  intros Hnd. destruct (publish err rl conv s rs b) as [rl'|e] eqn:E.
  - apply publish_ok in E as (Hne & Hin & Hid). split_and!; [done|done|].
    intros r. by rewrite Hin, fan_out_queue.
  - unfold publish in E. destruct rs; [|done]. by injection E as <-.
Qed.

Definition example_relay : MessageRelay := new (ServiceMetrics.new None).

Lemma publish_fans_out_witness :
  match Mls.publish_group_application_message example_relay "g" "alice" ["alice"; "bob"] [] with
  | Err e => e = "No recipients were provided to the message relay" ∧ ["alice"; "bob"] = []
  | Ok rl' =>
      ["alice"; "bob"] ≠ []
      ∧ next_message_id rl' = wrap64 (next_message_id example_relay + 1)
      ∧ ∀ r, queue (inboxes rl') r
             = queue (inboxes example_relay) r
               ++ (if decide (r ∈ ["alice"; "bob"] ∧ r ≠ "alice")
                   then [envelope "g" "alice" (next_message_id example_relay) [] r] else [])
  end.
Proof.
  apply (publish_fans_out "No recipients were provided to the message relay" example_relay
           "g" "alice" ["alice"; "bob"] []).
  apply (bool_decide_unpack _). vm_compute. done.
Defined.

Lemma from_sender_filters s (q : list RelayEnvelope) :
  filter (Pairwise.from_sender (Some s)) q = filter (λ e, env_sender e = s) q
  ∧ filter (λ e, negb (Pairwise.from_sender (Some s) e)) q = filter (λ e, env_sender e ≠ s) q.
Proof.
  split; apply list_filter_iff; intros e; simpl; destruct (String.eqb_spec (env_sender e) s);
    naive_solver.
Qed.


(** Two messages of "alice" around one of "carol", all for "bob". *)
Definition example_traffic : MessageRelay :=
  let send s rl := match publish "" rl "c" s ["bob"] [] with Ok rl' => rl' | Err _ => rl end in
  send "alice" (send "carol" (send "alice" example_relay)).

Lemma example_traffic_reachable : relay_reachable (ServiceMetrics.new None) example_traffic.
Proof.
  assert (Hb : NoDup ["bob"]) by apply NoDup_singleton.
  unfold relay_reachable. fold example_relay.
  eapply rtc_l; [apply (relay_publish "" _ "c" "alice" ["bob"] []); done|].
  eapply rtc_l; [apply (relay_publish "" _ "c" "carol" ["bob"] []); done|].
  eapply rtc_l; [apply (relay_publish "" _ "c" "alice" ["bob"] []); done|].
  apply rtc_refl.
Qed.

