(* ===== verification/KeyRepository.v ===== *)
(** * The prekey repository ([Signal_containerized/src/key_repository.rs])

    Untrusted directory of PQXDH prekey bundles.  A participant's queue holds
    its one-time bundles, in publication order, ahead of a reusable fallback
    bundle, and behind that what [publish_prekey_bundle] has put there since the
    last batch.  [KeySpec] is the abstract object: the one-time bundles that came
    to be offered, how many of them were taken, the current fallback, and the
    bundles that are hidden behind it. *)

From S2P Require Import Prelude Inbox ServiceMetrics.
From stdpp Require Import options.

Local Open Scope N_scope.

Record PrekeyBundleStorable := MkPrekeyBundle {
  registration_id : N;
  device_id : N;
  bundle_id : string;
  prekey_id : option N;
  prekey_public : option bytes;
  classical_one_time_prekey_present : bool;
  classical_one_time_prekey_id : option N;
  signed_prekey_id : N;
  signed_prekey_public : bytes;
  signed_prekey_signature : bytes;
  identity_key_public : bytes;
  kyber_prekey_id : N;
  kyber_prekey_public : bytes;
  kyber_prekey_signature : bytes;
  pq_prekey_id : N;
  pq_prekey_type : string;
  pq_prekey_signature_present : bool;
}.

Definition is_one_time (b : PrekeyBundleStorable) : bool :=
  classical_one_time_prekey_present b || String.eqb (pq_prekey_type b) "one_time".

Record PrekeyStock := MkPrekeyStock {
  stock_participant : string;
  one_time_available : nat;
  fallback_available : bool;
}.

Record OneTimePrekeyStorable := MkOneTimePrekey {
  ot_prekey_id : N;
  ot_prekey_public : bytes;
  ot_pq_prekey_id : N;
  ot_pq_prekey_public : bytes;
  ot_pq_prekey_signature : bytes;
}.

Record PrekeyBundleBatchStorable := MkBatch {
  batch_registration_id : N;
  batch_device_id : N;
  batch_signed_prekey_id : N;
  batch_signed_prekey_public : bytes;
  batch_signed_prekey_signature : bytes;
  batch_identity_key_public : bytes;
  last_resort_pq_prekey_id : N;
  last_resort_pq_prekey_public : bytes;
  last_resort_pq_prekey_signature : bytes;
  one_time_prekeys : list OneTimePrekeyStorable;
  signed_prekey_fallback : bool;
}.

Definition format_bundle_id (device signed : N) (classical : option N) (pq : N)
    (pq_type : string) : string :=
  "device" +:+ pretty device +:+ "-spk" +:+ pretty signed +:+ "-classical"
  +:+ (match classical with Some id => pretty id | None => "none" end)
  +:+ "-pq" +:+ pretty pq +:+ "-" +:+ pq_type.

Definition nonempty (b : bytes) : bool := match b with [] => false | _ => true end.

Definition one_time_bundle (batch : PrekeyBundleBatchStorable) (k : OneTimePrekeyStorable) :
    PrekeyBundleStorable :=
  MkPrekeyBundle (batch_registration_id batch) (batch_device_id batch)
    (format_bundle_id (batch_device_id batch) (batch_signed_prekey_id batch)
       (Some (ot_prekey_id k)) (ot_pq_prekey_id k) "one_time")
    (Some (ot_prekey_id k)) (Some (ot_prekey_public k)) true (Some (ot_prekey_id k))
    (batch_signed_prekey_id batch) (batch_signed_prekey_public batch)
    (batch_signed_prekey_signature batch) (batch_identity_key_public batch)
    (ot_pq_prekey_id k) (ot_pq_prekey_public k) (ot_pq_prekey_signature k)
    (ot_pq_prekey_id k) "one_time" (nonempty (ot_pq_prekey_signature k)).

Definition fallback_bundle (batch : PrekeyBundleBatchStorable) : PrekeyBundleStorable :=
  MkPrekeyBundle (batch_registration_id batch) (batch_device_id batch)
    (format_bundle_id (batch_device_id batch) (batch_signed_prekey_id batch) None
       (last_resort_pq_prekey_id batch) "last_resort")
    None None false None
    (batch_signed_prekey_id batch) (batch_signed_prekey_public batch)
    (batch_signed_prekey_signature batch) (batch_identity_key_public batch)
    (last_resort_pq_prekey_id batch) (last_resort_pq_prekey_public batch)
    (last_resort_pq_prekey_signature batch) (last_resort_pq_prekey_id batch)
    "last_resort" (nonempty (last_resort_pq_prekey_signature batch)).

Definition expand (batch : PrekeyBundleBatchStorable) : list PrekeyBundleStorable :=
  (one_time_bundle batch <$> one_time_prekeys batch)
  ++ (if signed_prekey_fallback batch then [fallback_bundle batch] else []).

Record KeyRepository := MkKeyRepository {
  prekey_bundles : gmap string (list PrekeyBundleStorable);
  one_time_prekey_consumption : gmap string N;
  kr_metrics : ServiceMetrics;
}.

Definition new (m : ServiceMetrics) : KeyRepository := MkKeyRepository ∅ ∅ m.

Definition set_bundles (kr : KeyRepository) x : KeyRepository :=
  MkKeyRepository x (one_time_prekey_consumption kr) (kr_metrics kr).

Definition publish_prekey_bundle kr (participant : string) (b : PrekeyBundleStorable) :
    KeyRepository := set_bundles kr (push (prekey_bundles kr) participant b).

(** One pass of the sorting loops: one-time bundles to the back of [one_time],
    any other bundle replaces [fallback]. *)
Definition sort_bundle (acc : list PrekeyBundleStorable * option PrekeyBundleStorable)
    (b : PrekeyBundleStorable) : list PrekeyBundleStorable * option PrekeyBundleStorable :=
  if is_one_time b then (acc.1 ++ [b], acc.2) else (acc.1, Some b).

Definition publish_prekey_bundles kr (participant : string)
    (bundles : list PrekeyBundleStorable) : KeyRepository :=
  let acc := foldl sort_bundle ([], None) (queue (prekey_bundles kr) participant) in
  let '(one_time, fallback) := foldl sort_bundle acc bundles in
  let q := match fallback with Some b => one_time ++ [b] | None => one_time end in
  set_bundles kr (<[participant := q]> (prekey_bundles kr)).

Definition publish_prekey_bundle_batch kr (participant : string)
    (batch : PrekeyBundleBatchStorable) : KeyRepository :=
  publish_prekey_bundles kr participant (expand batch).

Definition fetch_prekey_bundle kr (participant : string) : option PrekeyBundleStorable :=
  peek (prekey_bundles kr) participant.

Definition consume_one_time_prekey kr (participant : string) : KeyRepository * bool :=
  match prekey_bundles kr !! participant with
  | None => (kr, false)
  | Some [] => (kr, false)
  | Some (front :: rest) =>
      let consumed := classical_one_time_prekey_present front
                      || String.eqb (pq_prekey_type front) "one_time" in
      if negb consumed then (kr, false)
      else
        let count := default 0 (one_time_prekey_consumption kr !! participant) in
        (MkKeyRepository (<[participant := rest]> (prekey_bundles kr))
           (<[participant := wrap64 (count + 1)]> (one_time_prekey_consumption kr))
           (kr_metrics kr), true)
  end.

Definition one_time_prekeys_consumed kr (participant : string) : N :=
  default 0 (one_time_prekey_consumption kr !! participant).

Definition prekey_stock kr (participant : string) : PrekeyStock :=
  MkPrekeyStock participant
    (match prekey_bundles kr !! participant with
     | Some q => length (filter is_one_time q) | None => 0 end)
    (match prekey_bundles kr !! participant with
     | Some q => existsb (λ b, negb (is_one_time b)) q | None => false end).

Definition remove_participant kr (participant : string) : KeyRepository :=
  MkKeyRepository (delete participant (prekey_bundles kr))
    (delete participant (one_time_prekey_consumption kr)) (kr_metrics kr).

(** ** The abstract object *)

Module KeySpec.
Record t := Mk {
  published : list PrekeyBundleStorable;
  taken : nat;
  fallback : option PrekeyBundleStorable;
  (** Published one by one behind the fallback: kept, but not offered *)
  hidden : list PrekeyBundleStorable;
}.

Definition empty : t := Mk [] 0 None [].

Definition available (s : t) : list PrekeyBundleStorable := drop (taken s) (published s).

Definition one_time (bs : list PrekeyBundleStorable) : list PrekeyBundleStorable :=
  filter is_one_time bs.
Definition reusable (bs : list PrekeyBundleStorable) : list PrekeyBundleStorable :=
  filter (λ b, negb (is_one_time b)) bs.

(** A single bundle is offered, or becomes the fallback, unless there is a fallback
    already: then it is hidden behind that. *)
Definition publish (s : t) (b : PrekeyBundleStorable) : t :=
  match fallback s with
  | Some _ => Mk (published s) (taken s) (fallback s) (hidden s ++ [b])
  | None =>
      if is_one_time b then Mk (published s ++ [b]) (taken s) None (hidden s)
      else Mk (published s) (taken s) (Some b) (hidden s)
  end.

(** Refill: the hidden bundles come forward, one-time bundles queue up, the latest
    reusable one is kept. *)
Definition refill (s : t) (bundles : list PrekeyBundleStorable) : t :=
  Mk (published s ++ one_time (hidden s ++ bundles)) (taken s)
    (match last (reusable (hidden s ++ bundles)) with
     | Some b => Some b | None => fallback s end) [].

Definition offer (s : t) : option PrekeyBundleStorable :=
  match available s with b :: _ => Some b | [] => fallback s end.

Definition take (s : t) : t * bool :=
  match available s with
  | _ :: _ => (Mk (published s) (S (taken s)) (fallback s) (hidden s), true)
  | [] => (s, false)
  end.

(** One-time bundles in stock: those on offer and those hidden *)
Definition stock (s : t) : nat := (length (available s) + length (one_time (hidden s)))%nat.
End KeySpec.

(** Operations of the service, run on the repository and on one abstract object
    per participant. *)

Inductive kr_op :=
| KrPublish (participant : string) (bundle : PrekeyBundleStorable)
| KrBatch (participant : string) (batch : PrekeyBundleBatchStorable)
| KrBundles (participant : string) (bundles : list PrekeyBundleStorable)
| KrFetch (participant : string)
| KrConsume (participant : string)
| KrConsumed (participant : string)
| KrStock (participant : string)
| KrRemove (participant : string).

Inductive kr_out :=
| KrDone
| KrBundle (b : option PrekeyBundleStorable)
| KrBool (b : bool)
| KrCount (n : N)
| KrStocked (s : PrekeyStock).

Definition kr_step (kr : KeyRepository) (op : kr_op) : KeyRepository * kr_out :=
  match op with
  | KrPublish p b => (publish_prekey_bundle kr p b, KrDone)
  | KrBatch p batch => (publish_prekey_bundle_batch kr p batch, KrDone)
  | KrBundles p bs => (publish_prekey_bundles kr p bs, KrDone)
  | KrFetch p => (kr, KrBundle (fetch_prekey_bundle kr p))
  | KrConsume p => let '(kr', b) := consume_one_time_prekey kr p in (kr', KrBool b)
  | KrConsumed p => (kr, KrCount (one_time_prekeys_consumed kr p))
  | KrStock p => (kr, KrStocked (prekey_stock kr p))
  | KrRemove p => (remove_participant kr p, KrDone)
  end.

Definition upd (st : string → KeySpec.t) (p : string) (s : KeySpec.t) : string → KeySpec.t :=
  λ p', if decide (p = p') then s else st p'.

Definition spec_step (st : string → KeySpec.t) (op : kr_op) : (string → KeySpec.t) * kr_out :=
  match op with
  | KrPublish p b => (upd st p (KeySpec.publish (st p) b), KrDone)
  | KrBatch p batch => (upd st p (KeySpec.refill (st p) (expand batch)), KrDone)
  | KrBundles p bs => (upd st p (KeySpec.refill (st p) bs), KrDone)
  | KrFetch p => (st, KrBundle (KeySpec.offer (st p)))
  | KrConsume p => let '(s, b) := KeySpec.take (st p) in (upd st p s, KrBool b)
  | KrConsumed p => (st, KrCount (N.of_nat (KeySpec.taken (st p))))
  | KrStock p =>
      (st, KrStocked (MkPrekeyStock p (KeySpec.stock (st p))
                        (bool_decide (is_Some (KeySpec.fallback (st p))))))
  | KrRemove p => (upd st p KeySpec.empty, KrDone)
  end.

Section run.
Context {S : Type} (step : S → kr_op → S * kr_out).
Fixpoint run (s : S) (ops : list kr_op) : list kr_out :=
  match ops with
  | [] => []
  | op :: ops' => let '(s', o) := step s op in o :: run s' ops'
  end.
End run.

(** ** Refinement *)

(** The representation: available one-time bundles, the fallback, the hidden bundles. *)
Record represents (q : list PrekeyBundleStorable) (consumed : N) (s : KeySpec.t) : Prop := {
  rep_queue : q = KeySpec.available s ++ option_list (KeySpec.fallback s) ++ KeySpec.hidden s;
  rep_one_time : Forall (λ b, is_one_time b = true) (KeySpec.published s);
  rep_fallback : ∀ b, KeySpec.fallback s = Some b → is_one_time b = false;
  rep_taken : (KeySpec.taken s <= length (KeySpec.published s))%nat;
  rep_consumed : consumed = N.of_nat (KeySpec.taken s);
  rep_hidden : KeySpec.fallback s = None → KeySpec.hidden s = [];
}.

Definition kr_sim (kr : KeyRepository) (st : string → KeySpec.t) : Prop :=
  ∀ p, represents (queue (prekey_bundles kr) p) (one_time_prekeys_consumed kr p) (st p).

Lemma available_one_time q n s :
  represents q n s → Forall (λ b, is_one_time b = true) (KeySpec.available s).
Proof.
  intros [_ Ho _ _ _ _]. unfold KeySpec.available. by apply Forall_drop.
Qed.

Lemma foldl_sort acc bs :
  foldl sort_bundle acc bs
  = (acc.1 ++ filter is_one_time bs,
     match last (filter (λ b, negb (is_one_time b)) bs) with
     | Some b => Some b | None => acc.2 end).
Proof.
  revert acc. induction bs as [|b bs IH]; intros [l o].
  - simpl. by rewrite app_nil_r.
  - cbn [foldl]. rewrite IH. unfold sort_bundle. destruct (is_one_time b) eqn:E.
    + rewrite (filter_true is_one_time) by done.
      rewrite (filter_false (λ b, negb (is_one_time b))) by (by rewrite E).
      simpl. by rewrite <-app_assoc.
    + rewrite (filter_false is_one_time) by done.
      rewrite (filter_true (λ b, negb (is_one_time b))) by (by rewrite E).
      rewrite last_cons. simpl. by destruct (last _).
Qed.

Lemma filter_one_time_repr q n s :
  represents q n s →
  filter is_one_time q = KeySpec.available s ++ KeySpec.one_time (KeySpec.hidden s)
  ∧ filter (λ b, negb (is_one_time b)) q
    = option_list (KeySpec.fallback s) ++ KeySpec.reusable (KeySpec.hidden s).
Proof.
  intros Hr. pose proof (available_one_time _ _ _ Hr) as Ha.
  destruct Hr as [-> _ Hf _ _ _]. unfold KeySpec.one_time, KeySpec.reusable. rewrite !filter_app. split.
  - rewrite filter_all_true; [|eapply Forall_impl; [exact Ha|]; simpl; by intros b ->].
    destruct (KeySpec.fallback s) as [b|]; simpl; [|done].
    by rewrite (filter_false is_one_time) by auto.
  - rewrite filter_all_false; [|eapply Forall_impl; [exact Ha|]; simpl; intros b ->; by intros []].
    destruct (KeySpec.fallback s) as [b|]; simpl; [|done].
    rewrite (filter_true (λ b, negb (is_one_time b))); [done|]. by rewrite Hf.
Qed.

Lemma refill_represents q n s bs :
  represents q n s →
  let '(one_time, fallback) := foldl sort_bundle (foldl sort_bundle ([], None) q) bs in
  represents (match fallback with Some b => one_time ++ [b] | None => one_time end) n
    (KeySpec.refill s bs).
Proof.
  intros Hr. rewrite <-foldl_app, foldl_sort. cbn [fst snd app].
  destruct (filter_one_time_repr _ _ _ Hr) as [E1 E2].
  destruct Hr as [_ Ho Hf Ht Hc _]. set (all := KeySpec.hidden s ++ bs).
  assert (F1 : filter is_one_time (q ++ bs) = KeySpec.available s ++ KeySpec.one_time all).
  { unfold all, KeySpec.one_time in *. by rewrite !filter_app, E1, app_assoc. }
  assert (F2 : filter (λ b, negb (is_one_time b)) (q ++ bs)
               = option_list (KeySpec.fallback s) ++ KeySpec.reusable all).
  { unfold all, KeySpec.reusable in *. by rewrite !filter_app, E2, app_assoc. }
  assert (Hl : last (filter (λ b, negb (is_one_time b)) (q ++ bs)) = KeySpec.fallback (KeySpec.refill s bs)).
  { rewrite F2, last_app. simpl. fold all. destruct (last _); [done|]. by destruct (KeySpec.fallback s). }
  rewrite F1, Hl.
  assert (Hav : KeySpec.available (KeySpec.refill s bs)
                = KeySpec.available s ++ KeySpec.one_time all).
  { unfold KeySpec.available. simpl. by rewrite drop_app_le. }
  split.
  - rewrite Hav. cbn [KeySpec.hidden KeySpec.refill].
    destruct (KeySpec.fallback (KeySpec.refill s bs)); simpl; by rewrite ?app_nil_r.
  - simpl. apply Forall_app. split; [done|]. apply Forall_forall. intros b Hb.
    apply list_elem_of_filter in Hb as [Hb _]. by apply Is_true_true.
  - intros b. simpl. fold all. destruct (last (KeySpec.reusable all)) eqn:Eb; [|apply Hf].
    intros [= ->]. apply last_Some_elem_of in Eb. apply list_elem_of_filter in Eb as [Eb _].
    by destruct (is_one_time b).
  - simpl. rewrite length_app. lia.
  - done.
  - done.
Qed.

Lemma publish_represents q n s b :
  represents q n s → represents (q ++ [b]) n (KeySpec.publish s b).
Proof.
  intros [-> Ho Hf Ht Hc Hh]. unfold KeySpec.publish.
  destruct (KeySpec.fallback s) as [fb|] eqn:Efb; [split; simpl; try done|].
  - unfold KeySpec.available. simpl. by rewrite <-app_assoc.
  - rewrite (Hh eq_refl). destruct (is_one_time b) eqn:Eb; split; simpl; try done.
    + unfold KeySpec.available. simpl. by rewrite drop_app_le, !app_nil_r by done.
    + apply Forall_app. split; [done|]. by constructor.
    + rewrite length_app. lia.
    + unfold KeySpec.available. simpl. by rewrite app_nil_r.
    + by intros ? [= <-].
Qed.

Lemma represents_fetch q n s : represents q n s → head q = KeySpec.offer s.
Proof.
  intros [-> _ _ _ _ Hh]. unfold KeySpec.offer.
  destruct (KeySpec.available s); simpl; [|done].
  destruct (KeySpec.fallback s); simpl; [done|]. by rewrite Hh.
Qed.

Lemma available_S s b rest :
  KeySpec.available s = b :: rest →
  drop (S (KeySpec.taken s)) (KeySpec.published s) = rest
  ∧ (S (KeySpec.taken s) <= length (KeySpec.published s))%nat.
Proof.
  unfold KeySpec.available. intros H. split.
  - replace (S (KeySpec.taken s)) with (KeySpec.taken s + 1)%nat by lia.
    by rewrite <-drop_drop, H.
  - apply (f_equal length) in H. rewrite length_drop in H. simpl in H. lia.
Qed.

Lemma take_represents q n s b rest :
  represents q n s → KeySpec.available s = b :: rest → n < u64_max →
  represents (tail q) (wrap64 (n + 1)) (KeySpec.take s).1.
Proof.
  intros Hr Ha Hn. pose proof (available_S _ _ _ Ha) as [Hd Hl].
  destruct Hr as [-> Ho Hf Ht -> Hh]. unfold KeySpec.take. rewrite Ha.
  split; simpl; try done.
  - unfold KeySpec.available. simpl. by rewrite Hd.
  - rewrite wrap64_small; [lia|]. unfold u64_max, pow64 in *. lia.
Qed.

Lemma consume_sim kr st p :
  kr_sim kr st → N.of_nat (KeySpec.taken (st p)) < u64_max →
  (consume_one_time_prekey kr p).2 = (KeySpec.take (st p)).2
  ∧ kr_sim (consume_one_time_prekey kr p).1 (upd st p (KeySpec.take (st p)).1).
Proof.
  intros Hsim Hb. pose proof (Hsim p) as Hr.
  assert (Hid : kr_sim kr (upd st p (st p))).
  { intros p'. unfold upd. case_decide; [by subst|done]. }
  unfold consume_one_time_prekey.
  destruct (KeySpec.available (st p)) as [|b rest] eqn:Ea.
  - assert (Htake : KeySpec.take (st p) = (st p, false))
      by (unfold KeySpec.take; by rewrite Ea).
    rewrite Htake. destruct Hr as [Hq _ Hf _ _ Hh]. rewrite Ea in Hq. unfold queue in Hq.
    destruct (prekey_bundles kr !! p) as [[|front q]|]; simpl in *; [done| |done].
    destruct (KeySpec.fallback (st p)) as [fb|] eqn:Efb; simplify_eq/=;
      [|by rewrite Hh in Hq].
    specialize (Hf fb eq_refl). unfold is_one_time in Hf. rewrite Hf. done.
  - pose proof (available_one_time _ _ _ Hr) as Hot. rewrite Ea in Hot.
    apply Forall_cons in Hot as [Hot _].
    assert (Htake : (KeySpec.take (st p)).2 = true)
      by (unfold KeySpec.take; by rewrite Ea).
    pose proof (take_represents _ _ _ _ _ Hr Ea) as Hr'.
    destruct Hr as [Hq _ _ _ Hc _]. rewrite Ea in Hq. unfold queue in Hq, Hr'.
    destruct (prekey_bundles kr !! p) as [[|front q]|]; simplify_eq/=.
    unfold is_one_time in Hot. rewrite Hot, Htake. simpl. split; [done|].
    intros p'. unfold upd, one_time_prekeys_consumed, queue. simpl.
    destruct (decide (p = p')) as [<-|Hne].
    + rewrite !lookup_insert_eq. simpl. unfold one_time_prekeys_consumed in Hr', Hc.
      apply Hr'. by rewrite Hc.
    + rewrite !lookup_insert_ne by done. apply Hsim.
Qed.

Lemma stock_sim kr st p :
  kr_sim kr st →
  prekey_stock kr p
  = MkPrekeyStock p (KeySpec.stock (st p))
      (bool_decide (is_Some (KeySpec.fallback (st p)))).
Proof.
  intros Hsim. destruct (filter_one_time_repr _ _ _ (Hsim p)) as [H1 H2].
  unfold prekey_stock, queue in *.
  assert (Hex : ∀ l, existsb (λ b, negb (is_one_time b)) l
                = match filter (λ b, negb (is_one_time b)) l with [] => false | _ => true end).
  { induction l as [|x l IH]; [done|]. cbn [existsb]. destruct (is_one_time x) eqn:E; simpl.
    - rewrite filter_false by (by rewrite E). exact IH.
    - by rewrite filter_true by (by rewrite E). }
  destruct (prekey_bundles kr !! p) as [q|]; simpl in *.
  - rewrite Hex, H1, H2, length_app. pose proof (rep_hidden _ _ _ (Hsim p)) as Hh.
    unfold KeySpec.stock. destruct (KeySpec.fallback (st p)); [done|]. by rewrite (Hh eq_refl).
  - unfold KeySpec.stock. rewrite <-length_app, <-H1. by destruct (KeySpec.fallback (st p)).
Qed.

Lemma refill_sim kr st p bs :
  kr_sim kr st →
  kr_sim (publish_prekey_bundles kr p bs) (upd st p (KeySpec.refill (st p) bs)).
Proof.
  intros Hsim p'. pose proof (refill_represents _ _ _ bs (Hsim p)) as Hr.
  unfold publish_prekey_bundles.
  destruct (foldl _ (foldl _ _ _) bs) as [one_time fallback].
  unfold upd, queue, one_time_prekeys_consumed in *. simpl.
  destruct (decide (p = p')) as [<-|Hne].
  - by rewrite lookup_insert_eq.
  - rewrite lookup_insert_ne by done. apply Hsim.
Qed.

Lemma publish_sim kr st p b :
  kr_sim kr st → kr_sim (publish_prekey_bundle kr p b) (upd st p (KeySpec.publish (st p) b)).
Proof.
  intros Hsim p'. pose proof (publish_represents _ _ _ b (Hsim p)) as Hr.
  unfold publish_prekey_bundle, push, upd, queue, one_time_prekeys_consumed in *. simpl.
  destruct (decide (p = p')) as [<-|Hne].
  - by rewrite lookup_insert_eq.
  - rewrite lookup_insert_ne by done. apply Hsim.
Qed.

Definition taken_bound (st : string → KeySpec.t) (budget : N) : Prop :=
  ∀ p, N.of_nat (KeySpec.taken (st p)) + budget <= u64_max.

Lemma kr_step_sim kr st op budget :
  0 < budget → taken_bound st budget → kr_sim kr st →
  (kr_step kr op).2 = (spec_step st op).2
  ∧ kr_sim (kr_step kr op).1 (spec_step st op).1
  ∧ taken_bound (spec_step st op).1 (budget - 1).
Proof.
  intros Hpos Hb Hsim.
  assert (Hb' : taken_bound st (budget - 1)) by (intros p; specialize (Hb p); lia).
  assert (Hupd : ∀ p s, N.of_nat (KeySpec.taken s) + (budget - 1) <= u64_max →
                 taken_bound (upd st p s) (budget - 1)).
  { intros p s Hs p'. unfold upd. case_decide; [done|apply Hb']. }
  destruct op as [p b|p batch|p bs|p|p|p|p|p]; simpl.
  - split_and!; [done|by apply publish_sim|]. apply Hupd. unfold KeySpec.publish.
    destruct (KeySpec.fallback _); [apply Hb'|]. destruct (is_one_time b); apply Hb'.
  - split_and!; [done|by apply refill_sim|]. apply Hupd. apply Hb'.
  - split_and!; [done|by apply refill_sim|]. apply Hupd. apply Hb'.
  - split_and!; [|done|done]. f_equal. unfold fetch_prekey_bundle. rewrite peek_queue.
    eapply represents_fetch, Hsim.
  - specialize (Hb p). destruct (consume_sim kr st p Hsim) as [H1 H2]; [lia|].
    pose proof (Hupd p (KeySpec.take (st p)).1) as Hu.
    destruct (consume_one_time_prekey kr p) as [kr' b].
    assert (Ht : N.of_nat (KeySpec.taken (KeySpec.take (st p)).1)
                 <= N.of_nat (KeySpec.taken (st p)) + 1).
    { unfold KeySpec.take. destruct (KeySpec.available _); simpl; lia. }
    destruct (KeySpec.take (st p)) as [s b']. simpl in *.
    split_and!; [by rewrite H1|done|]. apply Hu. lia.
  - split_and!; [|done|done]. f_equal. apply Hsim.
  - split_and!; [|done|done]. f_equal. by apply stock_sim.
  - split_and!; [done| |apply Hupd; simpl; specialize (Hb p); lia].
    intros p'. unfold upd, queue, one_time_prekeys_consumed. simpl.
    destruct (decide (p = p')) as [<-|Hne].
    + rewrite !lookup_delete_eq. split; simpl; try done.
    + rewrite !lookup_delete_ne by done. apply Hsim.
Qed.

Lemma run_sim ops : ∀ kr st budget,
  N.of_nat (length ops) <= budget → taken_bound st budget → kr_sim kr st →
  run kr_step kr ops = run spec_step st ops.
Proof.
  induction ops as [|op ops IH]; intros kr st budget Hl Hb Hsim; [done|].
  simpl in Hl. destruct (kr_step_sim kr st op budget) as (Ho & Hs & Ht); [lia|done..|].
  cbn [run]. destruct (kr_step kr op) as [kr' o], (spec_step st op) as [st' o'].
  simpl in *. subst o'. f_equal. apply (IH _ _ (budget - 1)); [lia|done|done].
Qed.

(** ** Properties *)

(** C10: the repository implements, for each participant independently, a FIFO of
    one-time bundles backed by a reusable fallback: on any sequence (of fewer than 2^64
    operations, which the consumption counter can count) of publications (of one bundle, of
    several, of a batch), fetches, consumptions, counts, stock queries and removals it answers exactly as the abstract object.  In particular a one-time bundle
    is consumed at most once and in publication order, and a refill never puts a fresh
    one-time bundle behind the fallback.  A single bundle published while there is a
    fallback is hidden behind it: the stock counts it, but it is neither offered nor
    consumed before the next refill brings it forward. *)
Theorem repository_refines_spec m ops :
  N.of_nat (length ops) <= u64_max →
  run kr_step (new m) ops = run spec_step (λ _, KeySpec.empty) ops.
Proof.
  intros Hl. apply (run_sim ops _ _ (N.of_nat (length ops))); [done| |].
  - intros p. simpl. lia.
  - intros p. unfold queue, one_time_prekeys_consumed. simpl. rewrite !lookup_empty.
    split; simpl; try done.
Qed.

Definition example_batch (ids : list N) : PrekeyBundleBatchStorable :=
  MkBatch 1 1 1 [] [] [] u32_max [] []
    ((λ i, MkOneTimePrekey i [] i [] []) <$> ids) true.

Definition example_ops : list kr_op :=
  [KrFetch "bob"; KrConsume "bob"; KrBatch "bob" (example_batch [1; 2]); KrFetch "bob";
   KrConsume "bob"; KrConsume "bob"; KrConsume "bob"; KrFetch "bob";
   KrPublish "bob" (one_time_bundle (example_batch []) (MkOneTimePrekey 7 [] 7 [] []));
   KrStock "bob"; KrConsume "bob"; KrFetch "bob";
   KrBatch "bob" (example_batch [3]); KrFetch "bob"; KrStock "bob"; KrConsumed "bob";
   KrRemove "bob"; KrStock "bob"].

Lemma repository_refines_spec_witness :
  run kr_step (new (ServiceMetrics.new None)) example_ops
  = run spec_step (λ _, KeySpec.empty) example_ops.
Proof. apply (repository_refines_spec (ServiceMetrics.new None) example_ops). done. Defined.

(** a batch expands into its one-time bundles in order, each marked one-time
    and carrying its own prekeys, followed by the fallback when the batch has
    one; publishing it to an empty queue therefore offers the one-time bundles
    first and the fallback last, and two bundles of the batch share an
    identifier only if they come from the same pair of prekey identifiers. *)
Theorem expand_layout batch :
  filter is_one_time (expand batch) = one_time_bundle batch <$> one_time_prekeys batch
  ∧ filter (λ b, negb (is_one_time b)) (expand batch)
    = (if signed_prekey_fallback batch then [fallback_bundle batch] else [])
  ∧ (∀ k1 k2, bundle_id (one_time_bundle batch k1) = bundle_id (one_time_bundle batch k2) →
       ot_prekey_id k1 = ot_prekey_id k2 ∧ ot_pq_prekey_id k1 = ot_pq_prekey_id k2)
  ∧ (∀ k, bundle_id (one_time_bundle batch k) ≠ bundle_id (fallback_bundle batch)).
Proof.
  unfold expand. rewrite !filter_app.
  assert (Hall : ∀ ks, Forall (λ b, is_one_time b = true) (one_time_bundle batch <$> ks)).
  { intros ks. apply Forall_fmap, Forall_true. done. }
  split_and!.
  - rewrite filter_all_true; [|eapply Forall_impl; [apply Hall|]; simpl; by intros b ->].
    destruct (signed_prekey_fallback batch); by rewrite app_nil_r.
  - rewrite filter_all_false;
      [|eapply Forall_impl; [apply Hall|]; simpl; intros b ->; by intros []].
    by destruct (signed_prekey_fallback batch).
  - intros k1 k2 H. unfold bundle_id, one_time_bundle, format_bundle_id in H.
    apply string_app_inj_l, string_app_inj_l, string_app_inj_l, string_app_inj_l,
      string_app_inj_l in H.
    simpl in H. apply split_at_char in H as [Ha H]; [|by apply pretty_char_free..].
    injection H as H. apply split_at_char in H as [Hb _]; [|by apply pretty_char_free..].
    split; by apply (inj pretty).
  - intros k H. unfold bundle_id, one_time_bundle, fallback_bundle, format_bundle_id in H.
    apply string_app_inj_l, string_app_inj_l, string_app_inj_l, string_app_inj_l,
      string_app_inj_l in H.
    simpl in H.
    assert (Hf : char_free "n" (pretty (ot_prekey_id k))) by (by apply pretty_char_free).
    destruct (pretty (ot_prekey_id k)) as [|c s]; simplify_eq/=.
    done.
Qed.
