(* ===== verification/Servers.v ===== *)
(** * The benchmark's HTTP servers

    One module per binary: [Ds] is [OpenMLS_containerized/src/bin/ds.rs],
    [MlsRelay] and [PairwiseRelay] are the two [bin/message_relay.rs], [Keys] is
    [Signal_containerized/src/bin/key_repository.rs].  A request is a route with its
    path parameters, headers and body; routing, body limits and JSON decoding are
    axum's.  [/health] and [/metrics] do not change the state and are left out. *)

From S2P Require Import Prelude Text ServiceMetrics Http Inbox.
From S2P Require DeliveryService MessageRelay KeyRepository.
From stdpp Require Import options.

Local Open Scope N_scope.

(** ** The delivery service *)
Module Ds.
Import DeliveryService.

Inductive Request :=
| PublishKeyPackage (owner : string) (b : bytes)
| FetchKeyPackage (owner : string)
| PutGroupState (group_id : string) (epoch : N) (members : list string)
| GetGroupState (group_id : string)
| PublishGroupCommit (group_id sender : string) (epoch : N) (b : bytes)
| FetchCommit (recipient : string)
| FetchPendingCommit (recipient : string)
| AckCommit (recipient delivery_id : string)
| FetchPendingCommits (query : string)
| PublishWelcome (recipient : string) (b : bytes)
| FetchWelcome (recipient : string)
| PublishRatchetTree (recipient : string) (b : bytes)
| FetchRatchetTree (recipient : string).

Inductive JsonBody :=
| GroupStateResponse (group_id : string) (current_epoch : N) (members : list string)
| Delivery (d : PendingCommitDelivery)
| Commits (l : list PendingCommit).

(** The loop over the query's [key=value] parts. *)
Fixpoint parse_query_parts (parts : list string) (client : option string)
    (after_epoch : option N) : result string (option string * option N) :=
  match parts with
  | [] => Ok (client, after_epoch)
  | part :: rest =>
      match split_once "=" part with
      | None => parse_query_parts rest client after_epoch
      | Some (key, value) =>
          if String.eqb key "client" then parse_query_parts rest (Some value) after_epoch
          else if String.eqb key "after_epoch" then
            let? n <- ok_or (parse_u64 value) ("Invalid after_epoch '" +:+ value +:+ "'") in
            parse_query_parts rest client (Some n)
          else parse_query_parts rest client after_epoch
      end
  end.

Definition parse_pending_commits_query (raw : string) : result string (string * N) :=
  let? (client, after_epoch) <- parse_query_parts (split_char "&" raw) None None in
  let? c <- ok_or client "Missing required client query parameter" in
  Ok (c, default 0 after_epoch).

Section handlers.
Context (hex_encode : bytes → string).
(** The order in which the hash map of commit logs is iterated. *)
Context (iteration : DeliveryService → log_entries).

Abbreviation observed := (observed metrics set_metrics).
Abbreviation observed_ok := (observed_ok metrics set_metrics).
Abbreviation response := (DeliveryService * Response JsonBody)%type.

(** [Ok(()) => OK, Err(message) => (CONFLICT, message)] *)
Definition or_conflict (ds : DeliveryService) (r : result string DeliveryService) : response :=
  match r with
  | Ok ds' => (ds', status_only OK)
  | Err message => (ds, MkResponse CONFLICT (Message message))
  end.

Definition publish_key_package ds latency (owner : string) (b : bytes) : response :=
  observed_ok "publish_key_package" latency
    (λ ds, DeliveryService.publish_key_package ds owner b) ds.

Definition fetch_key_package ds latency (owner : string) : response :=
  observed "fetch_key_package" latency
    (λ ds, let '(ds', kp) := DeliveryService.fetch_key_package ds owner in
           (ds', or_not_found bytes_response kp)) ds.

Definition put_group_state ds latency (group_id : string) (epoch : N) (ms : list string) :
    response :=
  observed "put_group_state" latency
    (λ ds, or_conflict ds (DeliveryService.put_group_state ds group_id epoch ms)) ds.

Definition get_group_state ds latency (group_id : string) : response :=
  observed "get_group_state" latency
    (λ ds, (ds, or_not_found
                  (λ i, MkResponse OK
                          (Json (GroupStateResponse group_id (info_current_epoch i)
                                   (info_members i))))
                  (DeliveryService.get_group_state ds group_id))) ds.

Definition publish_group_commit ds latency (group_id sender : string) (epoch : N) (b : bytes) :
    response :=
  observed "publish_group_commit" latency
    (λ ds, or_conflict ds (DeliveryService.publish_group_commit ds group_id sender epoch b)) ds.

Definition fetch_commit ds latency (recipient : string) : response :=
  observed "fetch_commit" latency
    (λ ds, (ds, or_not_found bytes_response
                  (DeliveryService.fetch_commit ds (iteration ds) recipient))) ds.

Definition fetch_pending_commit ds latency (recipient : string) : response :=
  observed "fetch_pending_commit" latency
    (λ ds, (ds, or_not_found (λ d, MkResponse OK (Json (Delivery d)))
                  (fetch_pending_commit_delivery hex_encode ds (iteration ds) recipient))) ds.

Definition ack_commit ds latency (recipient delivery_id : string) : response :=
  observed "ack_commit" latency
    (λ ds, let '(ds', acked) := DeliveryService.ack_commit ds (iteration ds) recipient delivery_id in
           (ds', if acked then status_only OK
                 else MkResponse OK (Message "commit delivery was already acked or absent"))) ds.

Definition fetch_pending_commits ds latency (query : string) : response :=
  observed "fetch_pending_commits" latency
    (λ ds, match parse_pending_commits_query query with
           | Ok (client, after_epoch) =>
               (ds, MkResponse OK
                      (Json (Commits (DeliveryService.fetch_pending_commits hex_encode
                                        (iteration ds) client after_epoch))))
           | Err message => (ds, MkResponse BAD_REQUEST (Message message))
           end) ds.

Definition publish_welcome ds latency (recipient : string) (b : bytes) : response :=
  observed_ok "publish_welcome" latency
    (λ ds, DeliveryService.publish_welcome ds recipient b) ds.

Definition fetch_welcome ds latency (recipient : string) : response :=
  observed "fetch_welcome" latency
    (λ ds, let '(ds', b) := DeliveryService.fetch_welcome ds recipient in
           (ds', or_not_found bytes_response b)) ds.

Definition publish_ratchet_tree ds latency (recipient : string) (b : bytes) : response :=
  observed_ok "publish_ratchet_tree" latency
    (λ ds, DeliveryService.publish_ratchet_tree ds recipient b) ds.

Definition fetch_ratchet_tree ds latency (recipient : string) : response :=
  observed "fetch_ratchet_tree" latency
    (λ ds, let '(ds', b) := DeliveryService.fetch_ratchet_tree ds recipient in
           (ds', or_not_found bytes_response b)) ds.

Definition ds_handle ds latency (r : Request) : response :=
  match r with
  | PublishKeyPackage o b => publish_key_package ds latency o b
  | FetchKeyPackage o => fetch_key_package ds latency o
  | PutGroupState g e ms => put_group_state ds latency g e ms
  | GetGroupState g => get_group_state ds latency g
  | PublishGroupCommit g s e b => publish_group_commit ds latency g s e b
  | FetchCommit r => fetch_commit ds latency r
  | FetchPendingCommit r => fetch_pending_commit ds latency r
  | AckCommit r i => ack_commit ds latency r i
  | FetchPendingCommits q => fetch_pending_commits ds latency q
  | PublishWelcome r b => publish_welcome ds latency r b
  | FetchWelcome r => fetch_welcome ds latency r
  | PublishRatchetTree r b => publish_ratchet_tree ds latency r b
  | FetchRatchetTree r => fetch_ratchet_tree ds latency r
  end.

Definition ds_endpoint (r : Request) : string :=
  match r with
  | PublishKeyPackage _ _ => "publish_key_package"
  | FetchKeyPackage _ => "fetch_key_package"
  | PutGroupState _ _ _ => "put_group_state"
  | GetGroupState _ => "get_group_state"
  | PublishGroupCommit _ _ _ _ => "publish_group_commit"
  | FetchCommit _ => "fetch_commit"
  | FetchPendingCommit _ => "fetch_pending_commit"
  | AckCommit _ _ => "ack_commit"
  | FetchPendingCommits _ => "fetch_pending_commits"
  | PublishWelcome _ _ => "publish_welcome"
  | FetchWelcome _ => "fetch_welcome"
  | PublishRatchetTree _ _ => "publish_ratchet_tree"
  | FetchRatchetTree _ => "fetch_ratchet_tree"
  end.
End handlers.
End Ds.

(** ** The relays *)

(** [parse_recipients_header]: [text] is [None] when the header is not text. *)
Definition parse_recipients_header (text : option string) : result string (list string) :=
  let? raw <- ok_or text "x-recipients header is not valid UTF-8" in
  let recipients :=
    filter (λ p, p ≠ "") (Text.trim <$> split_char "," raw) in
  match recipients with
  | [] => Err "x-recipients header did not contain any recipients"
  | _ => Ok recipients
  end.

Section relay_handlers.
Import MessageRelay.
Context (hex_encode : bytes → string).

Definition set_relay_metrics (rl : MessageRelay) (m : ServiceMetrics) : MessageRelay :=
  MkMessageRelay (inboxes rl) (next_message_id rl) m.

Abbreviation observed := (observed relay_metrics set_relay_metrics).
Abbreviation response := (MessageRelay * Response PendingMessage)%type.

(** The publishing handler of both relays, before its metrics: [header] is [None]
    when it is absent. *)
Definition publish_operation
    (publish : MessageRelay → string → string → list string → bytes → result string MessageRelay)
    (conversation sender : string) (header : option (option string)) (b : bytes)
    (rl : MessageRelay) : response :=
  match header with
  | None => (rl, MkResponse BAD_REQUEST (Message "Missing required x-recipients header"))
  | Some value =>
      match parse_recipients_header value with
      | Err message => (rl, MkResponse BAD_REQUEST (Message message))
      | Ok recipients =>
          match publish rl conversation sender recipients b with
          | Ok rl' => (rl', status_only OK)
          | Err message => (rl, MkResponse BAD_REQUEST (Message message))
          end
      end
  end.

Definition json_or_not_found (o : option PendingMessage) : Response PendingMessage :=
  or_not_found (λ m, MkResponse OK (Json m)) o.

Definition ack_handler (ep absent : string) (rl : MessageRelay) (latency : N)
    (recipient id : string) : response :=
  observed ep latency
    (λ rl, let '(rl', acked) := ack_envelope rl recipient id in
           (rl', if acked then status_only OK else MkResponse OK (Message absent))) rl.
End relay_handlers.

Module MlsRelay.
Import MessageRelay.

Inductive Request :=
| Publish (group_id sender : string) (header : option (option string)) (b : bytes)
| Fetch (recipient : string)
| FetchPending (recipient : string)
| Ack (recipient id : string).

Section handlers.
Context (hex_encode : bytes → string).
Abbreviation observed := (observed relay_metrics set_relay_metrics).
Abbreviation response := (MessageRelay * Response PendingMessage)%type.

Definition publish_group_application_message rl latency (group_id sender : string)
    (header : option (option string)) (b : bytes) : response :=
  observed "publish_group_application_message" latency
    (publish_operation Mls.publish_group_application_message group_id sender header b) rl.

Definition fetch_application_message rl latency (recipient : string) : response :=
  observed "fetch_application_message" latency
    (λ rl, (rl, or_not_found bytes_response (Mls.fetch_application_message rl recipient))) rl.

Definition fetch_pending_application_message rl latency (recipient : string) : response :=
  observed "fetch_pending_application_message" latency
    (λ rl, (rl, json_or_not_found
                  (Mls.fetch_pending_application_message hex_encode rl recipient))) rl.

Definition ack_application_message rl latency (recipient id : string) : response :=
  ack_handler "ack_application_message" "application message was already acked or absent"
    rl latency recipient id.

Definition relay_handle rl latency (r : Request) : response :=
  match r with
  | Publish g s h b => publish_group_application_message rl latency g s h b
  | Fetch r => fetch_application_message rl latency r
  | FetchPending r => fetch_pending_application_message rl latency r
  | Ack r i => ack_application_message rl latency r i
  end.
End handlers.

Definition relay_endpoint (r : Request) : string :=
  match r with
  | Publish _ _ _ _ => "publish_group_application_message"
  | Fetch _ => "fetch_application_message"
  | FetchPending _ => "fetch_pending_application_message"
  | Ack _ _ => "ack_application_message"
  end.
End MlsRelay.

Module PairwiseRelay.
Import MessageRelay.

Inductive Request :=
| Publish (conversation sender : string) (header : option (option string)) (b : bytes)
| Fetch (recipient : string)
| FetchPending (recipient : string)
| FetchPendingFrom (recipient sender : string)
| Ack (recipient id : string).

Section handlers.
Context (hex_encode : bytes → string).
Abbreviation observed := (observed relay_metrics set_relay_metrics).
Abbreviation response := (MessageRelay * Response PendingMessage)%type.

Definition publish_pairwise_message rl latency (conversation sender : string)
    (header : option (option string)) (b : bytes) : response :=
  observed "publish_pairwise_message" latency
    (publish_operation Pairwise.publish_pairwise_message conversation sender header b) rl.

Definition fetch_message rl latency (recipient : string) : response :=
  observed "fetch_message" latency
    (λ rl, (rl, or_not_found bytes_response (Pairwise.fetch_message rl recipient))) rl.

Definition fetch_pending_message rl latency (recipient : string) : response :=
  observed "fetch_pending_message" latency
    (λ rl, (rl, json_or_not_found (Pairwise.fetch_pending_message hex_encode rl recipient))) rl.

Definition fetch_pending_message_from rl latency (recipient sender : string) : response :=
  observed "fetch_pending_message_from" latency
    (λ rl, (rl, json_or_not_found
                  (Pairwise.fetch_pending_message_from hex_encode rl recipient sender))) rl.

Definition ack_message rl latency (recipient id : string) : response :=
  ack_handler "ack_message" "message was already acked or absent" rl latency recipient id.

Definition relay_handle rl latency (r : Request) : response :=
  match r with
  | Publish c s h b => publish_pairwise_message rl latency c s h b
  | Fetch r => fetch_message rl latency r
  | FetchPending r => fetch_pending_message rl latency r
  | FetchPendingFrom r s => fetch_pending_message_from rl latency r s
  | Ack r i => ack_message rl latency r i
  end.
End handlers.

Definition relay_endpoint (r : Request) : string :=
  match r with
  | Publish _ _ _ _ => "publish_pairwise_message"
  | Fetch _ => "fetch_message"
  | FetchPending _ => "fetch_pending_message"
  | FetchPendingFrom _ _ => "fetch_pending_message_from"
  | Ack _ _ => "ack_message"
  end.
End PairwiseRelay.

(** ** The key repository *)
Module Keys.
Import KeyRepository.

Inductive Request :=
| PublishBundle (participant : string) (b : PrekeyBundleStorable)
| PublishBundles (participant : string) (batch : PrekeyBundleBatchStorable)
| FetchBundle (participant : string)
| ConsumeOneTime (participant : string)
| GetConsumed (participant : string)
| GetStock (participant : string)
| RemoveParticipant (participant : string).

Inductive JsonBody :=
| Bundle (b : PrekeyBundleStorable)
| Consumed (participant : string) (count : N)
| Stock (s : PrekeyStock).

Definition set_kr_metrics (kr : KeyRepository) (m : ServiceMetrics) : KeyRepository :=
  MkKeyRepository (prekey_bundles kr) (one_time_prekey_consumption kr) m.

Abbreviation observed := (observed kr_metrics set_kr_metrics).
Abbreviation observed_ok := (observed_ok kr_metrics set_kr_metrics).
Abbreviation response := (KeyRepository * Response JsonBody)%type.

(** The handlers that answer a value and finish with [finish(false)]. *)
Definition observed_json (ep : string) (latency : N) (value : KeyRepository → JsonBody)
    (kr : KeyRepository) : response :=
  let kr1 := set_kr_metrics kr (start (kr_metrics kr) ep).1 in
  (set_kr_metrics kr1 (guard_finish (kr_metrics kr1) ep latency false),
   MkResponse OK (Json (value kr1))).

Definition publish_prekey_bundle kr latency (participant : string) (b : PrekeyBundleStorable) :
    response :=
  observed_ok "publish_prekey_bundle" latency
    (λ kr, KeyRepository.publish_prekey_bundle kr participant b) kr.

Definition publish_prekey_bundles kr latency (participant : string)
    (batch : PrekeyBundleBatchStorable) : response :=
  observed_ok "publish_prekey_bundles" latency
    (λ kr, publish_prekey_bundle_batch kr participant batch) kr.

Definition fetch_prekey_bundle kr latency (participant : string) : response :=
  observed "fetch_prekey_bundle" latency
    (λ kr, (kr, or_not_found (λ b, MkResponse OK (Json (Bundle b)))
                  (KeyRepository.fetch_prekey_bundle kr participant))) kr.

Definition consume_one_time_prekey kr latency (participant : string) : response :=
  observed_ok "consume_one_time_prekey" latency
    (λ kr, (KeyRepository.consume_one_time_prekey kr participant).1) kr.

Definition get_one_time_prekeys_consumed kr latency (participant : string) : response :=
  observed_json "get_one_time_prekeys_consumed" latency
    (λ kr, Consumed participant (one_time_prekeys_consumed kr participant)) kr.

Definition get_prekey_stock kr latency (participant : string) : response :=
  observed_json "get_prekey_stock" latency (λ kr, Stock (prekey_stock kr participant)) kr.

Definition remove_participant kr latency (participant : string) : response :=
  observed_ok "remove_participant" latency
    (λ kr, KeyRepository.remove_participant kr participant) kr.

Definition kr_handle kr latency (r : Request) : response :=
  match r with
  | PublishBundle p b => publish_prekey_bundle kr latency p b
  | PublishBundles p batch => publish_prekey_bundles kr latency p batch
  | FetchBundle p => fetch_prekey_bundle kr latency p
  | ConsumeOneTime p => consume_one_time_prekey kr latency p
  | GetConsumed p => get_one_time_prekeys_consumed kr latency p
  | GetStock p => get_prekey_stock kr latency p
  | RemoveParticipant p => remove_participant kr latency p
  end.

Definition kr_endpoint (r : Request) : string :=
  match r with
  | PublishBundle _ _ => "publish_prekey_bundle"
  | PublishBundles _ _ => "publish_prekey_bundles"
  | FetchBundle _ => "fetch_prekey_bundle"
  | ConsumeOneTime _ => "consume_one_time_prekey"
  | GetConsumed _ => "get_one_time_prekeys_consumed"
  | GetStock _ => "get_prekey_stock"
  | RemoveParticipant _ => "remove_participant"
  end.
End Keys.

(** ** The servers as instances of the interface *)

Section instances.
Context (hex_encode : bytes → string).
Context (iteration : DeliveryService.DeliveryService → DeliveryService.log_entries).

#[export] Instance ds_service : HttpService DeliveryService.DeliveryService Ds.Request Ds.JsonBody := {
  get_metrics := DeliveryService.metrics;
  put_metrics := DeliveryService.set_metrics;
  handle := Ds.ds_handle hex_encode iteration;
}.

#[export] Instance mls_relay_service :
    HttpService MessageRelay.MessageRelay MlsRelay.Request MessageRelay.PendingMessage := {
  get_metrics := MessageRelay.relay_metrics;
  put_metrics := set_relay_metrics;
  handle := MlsRelay.relay_handle hex_encode;
}.

#[export] Instance pairwise_relay_service :
    HttpService MessageRelay.MessageRelay PairwiseRelay.Request MessageRelay.PendingMessage := {
  get_metrics := MessageRelay.relay_metrics;
  put_metrics := set_relay_metrics;
  handle := PairwiseRelay.relay_handle hex_encode;
}.

#[export] Instance keys_service :
    HttpService KeyRepository.KeyRepository Keys.Request Keys.JsonBody := {
  get_metrics := KeyRepository.kr_metrics;
  put_metrics := Keys.set_kr_metrics;
  handle := Keys.kr_handle;
}.
End instances.

(** ** The servers obey the metrics law *)

Lemma foldl_deliver_metrics g sd e c rs : ∀ ds,
  DeliveryService.metrics (foldl (λ d r, DeliveryService.deliver_to d g sd e c r) ds rs)
  = DeliveryService.metrics ds.
Proof. induction rs as [|r rs IH]; intros ds; [done|]. simpl. by rewrite IH. Qed.

Lemma publish_group_commit_metrics ds g sd e b ds' :
  DeliveryService.publish_group_commit ds g sd e b = Ok ds' →
  DeliveryService.metrics ds' = DeliveryService.metrics ds.
Proof.
  unfold DeliveryService.publish_group_commit, DeliveryService.accept_commit.
  repeat case_match; intros; simplify_eq/=; try done. by rewrite foldl_deliver_metrics.
Qed.

Lemma ack_compat_metrics ds entries r i :
  DeliveryService.metrics (DeliveryService.ack_group_log_commit_compat ds entries r i).1
  = DeliveryService.metrics ds.
Proof. induction entries as [|[g cs] es IH]; simpl; [done|]. by case_match. Qed.

Lemma publish_metrics err rl c s rs b rl' :
  MessageRelay.publish err rl c s rs b = Ok rl' →
  MessageRelay.relay_metrics rl' = MessageRelay.relay_metrics rl.
Proof. unfold MessageRelay.publish. case_match; intros; by simplify_eq/=. Qed.

Lemma ack_envelope_metrics absent rl recipient id :
  MessageRelay.relay_metrics
    (let '(rl', acked) := MessageRelay.ack_envelope rl recipient id in
     (rl', if acked then status_only OK
           else MkResponse OK (Message (J := MessageRelay.PendingMessage) absent))).1
  = MessageRelay.relay_metrics rl.
Proof. unfold MessageRelay.ack_envelope. by destruct (ack _ _ _ _). Qed.

Lemma publish_op_metrics err rl c s (header : option (option string)) b :
  MessageRelay.relay_metrics
    (publish_operation (MessageRelay.publish err) c s header b rl).1
  = MessageRelay.relay_metrics rl.
Proof.
  unfold publish_operation. repeat (case_match; try done). by eapply publish_metrics.
Qed.

Section law_instances.
Context (hex_encode : bytes → string).
Context (iteration : DeliveryService.DeliveryService → DeliveryService.log_entries).

Lemma ds_handle_metrics ds latency r :
  DeliveryService.metrics (Ds.ds_handle hex_encode iteration ds latency r).1
  = finish (start (DeliveryService.metrics ds) (Ds.ds_endpoint r)).1 (Ds.ds_endpoint r) latency
      (Some (status (Ds.ds_handle hex_encode iteration ds latency r).2)).
Proof.
  destruct r; (apply observed_ok_metrics || apply observed_metrics); try done; intros ds'; simpl.
  - unfold Ds.or_conflict, DeliveryService.put_group_state. by repeat case_match; simplify_eq/=.
  - destruct (DeliveryService.publish_group_commit _ _ _ _ _) eqn:E; [|done].
    by apply publish_group_commit_metrics in E.
  - unfold DeliveryService.ack_commit. destruct (DeliveryService.delivery_mode ds').
    + by destruct (ack _ _ _ _).
    + pose proof (ack_compat_metrics ds' (iteration ds') recipient delivery_id).
      by destruct (DeliveryService.ack_group_log_commit_compat _ _ _ _).
  - by destruct (Ds.parse_pending_commits_query query) as [[]|].
  - unfold DeliveryService.fetch_welcome. by destruct (pop _ _).
  - unfold DeliveryService.fetch_ratchet_tree. by destruct (pop _ _).
Qed.

Lemma mls_relay_handle_metrics rl latency r :
  MessageRelay.relay_metrics (MlsRelay.relay_handle hex_encode rl latency r).1
  = finish (start (MessageRelay.relay_metrics rl) (MlsRelay.relay_endpoint r)).1
      (MlsRelay.relay_endpoint r) latency
      (Some (status (MlsRelay.relay_handle hex_encode rl latency r).2)).
Proof.
  destruct r; apply observed_metrics; try done; intros rl'.
  - by apply publish_op_metrics.
  - by apply ack_envelope_metrics.
Qed.

Lemma pairwise_relay_handle_metrics rl latency r :
  MessageRelay.relay_metrics (PairwiseRelay.relay_handle hex_encode rl latency r).1
  = finish (start (MessageRelay.relay_metrics rl) (PairwiseRelay.relay_endpoint r)).1
      (PairwiseRelay.relay_endpoint r) latency
      (Some (status (PairwiseRelay.relay_handle hex_encode rl latency r).2)).
Proof.
  destruct r; apply observed_metrics; try done; intros rl'.
  - by apply publish_op_metrics.
  - by apply ack_envelope_metrics.
Qed.

Lemma kr_handle_metrics kr latency r :
  KeyRepository.kr_metrics (Keys.kr_handle kr latency r).1
  = finish (start (KeyRepository.kr_metrics kr) (Keys.kr_endpoint r)).1
      (Keys.kr_endpoint r) latency (Some (status (Keys.kr_handle kr latency r).2)).
Proof.
  destruct r; try (apply observed_ok_metrics || apply observed_metrics); try done; intros kr'.
  - unfold KeyRepository.publish_prekey_bundle_batch, KeyRepository.publish_prekey_bundles.
    by repeat case_match.
  - unfold KeyRepository.consume_one_time_prekey. by repeat case_match.
Qed.

#[export] Instance ds_laws : @HttpServiceLaws _ _ _ (ds_service hex_encode iteration) :=
  @Build_HttpServiceLaws _ _ _ (ds_service hex_encode iteration) _ ds_handle_metrics.
#[export] Instance mls_relay_laws : @HttpServiceLaws _ _ _ (mls_relay_service hex_encode) :=
  @Build_HttpServiceLaws _ _ _ (mls_relay_service hex_encode) _ mls_relay_handle_metrics.
#[export] Instance pairwise_relay_laws :
  @HttpServiceLaws _ _ _ (pairwise_relay_service hex_encode) :=
  @Build_HttpServiceLaws _ _ _ (pairwise_relay_service hex_encode) _ pairwise_relay_handle_metrics.
#[export] Instance keys_laws : @HttpServiceLaws _ _ _ keys_service :=
  @Build_HttpServiceLaws _ _ _ keys_service _ kr_handle_metrics.
End law_instances.

(** ** Group epochs over HTTP *)

Definition group_epoch (ds : DeliveryService.DeliveryService) (g : string) : option N :=
  DeliveryService.current_epoch <$> DeliveryService.groups ds !! g.

(** The epochs of the commits of [g] that were answered [OK], in order. *)
Definition accepted_epochs (g : string) (reqs : list (Ds.Request * N))
    (resps : list (Response Ds.JsonBody)) : list N :=
  omap (λ '((r, _), resp),
          match r with
          | Ds.PublishGroupCommit g' _ e _ =>
              if bool_decide (g' = g) && (status resp =? OK) then Some e else None
          | _ => None
          end) (zip reqs resps).

Lemma foldl_deliver_groups g sd e c rs : ∀ ds,
  DeliveryService.groups (foldl (λ d r, DeliveryService.deliver_to d g sd e c r) ds rs)
  = DeliveryService.groups ds.
Proof. induction rs as [|r rs IH]; intros ds; [done|]. simpl. by rewrite IH. Qed.

(** The critical section decides: right epoch, accepted; otherwise refused. *)
Lemma publish_group_commit_epoch ds g g' sd e b n :
  group_epoch ds g = Some n → n + 1 < pow64 →
  match DeliveryService.publish_group_commit ds g' sd e b with
  | Ok ds' => group_epoch ds' g = Some (if bool_decide (g' = g) then n + 1 else n)
              ∧ (g' = g → e = n)
  | Err _ => g' = g → e ≠ n
  end.
Proof.
  unfold group_epoch. intros Hn Hb.
  unfold DeliveryService.publish_group_commit, DeliveryService.accept_commit.
  destruct (DeliveryService.groups ds !! g') as [st|] eqn:Eg; simpl.
  2: { intros ->. by rewrite Eg in Hn. }
  case_decide as He; simpl.
  - intros ->. rewrite Eg in Hn. by simplify_eq/=.
  - assert (Hgr : ∀ ds2, DeliveryService.groups ds2
        = <[g' := DeliveryService.MkGroupState (wrap64 (DeliveryService.current_epoch st + 1))
                    (DeliveryService.members st)]> (DeliveryService.groups ds) →
        DeliveryService.current_epoch <$> DeliveryService.groups ds2 !! g
        = Some (if bool_decide (g' = g) then n + 1 else n)).
    { intros ds2 ->. case_bool_decide as Hg.
      - subst g'. rewrite lookup_insert_eq. simpl. rewrite Eg in Hn. simplify_eq/=.
        by rewrite wrap64_small.
      - by rewrite lookup_insert_ne. }
    split.
    + apply Hgr. destruct (DeliveryService.delivery_mode ds); [by rewrite foldl_deliver_groups|done].
    + intros ->. rewrite Eg in Hn. by simplify_eq/=.
Qed.

Section epochs.
Context (hex_encode : bytes → string).
Context (iteration : DeliveryService.DeliveryService → DeliveryService.log_entries).

Lemma ack_compat_groups ds entries r i :
  DeliveryService.groups (DeliveryService.ack_group_log_commit_compat ds entries r i).1
  = DeliveryService.groups ds.
Proof. induction entries as [|[g cs] es IH]; simpl; [done|]. by case_match. Qed.

(** No other route touches the epoch of an existing group. *)
Lemma handle_group_epoch ds l r g n :
  group_epoch ds g = Some n → n + 1 < pow64 →
  let '(ds', resp) := Ds.ds_handle hex_encode iteration ds l r in
  match r with
  | Ds.PublishGroupCommit g' _ e _ =>
      if bool_decide (g' = g) then
        if e =? n then status resp = OK ∧ group_epoch ds' g = Some (n + 1)
        else status resp = CONFLICT ∧ group_epoch ds' g = Some n
      else group_epoch ds' g = Some n
  | _ => group_epoch ds' g = Some n
  end.
Proof.
  intros Hn Hb. destruct r; try done;
    unfold Ds.ds_handle, Ds.put_group_state, Ds.publish_group_commit, Ds.ack_commit,
      Ds.fetch_pending_commits, Ds.fetch_welcome, Ds.fetch_ratchet_tree, observed;
    match goal with
    | |- context [DeliveryService.set_metrics ds ?m] =>
        set (ds1 := DeliveryService.set_metrics ds m);
        assert (Hn1 : group_epoch ds1 g = Some n) by done
    end.
  - unfold DeliveryService.put_group_state. rename group_id into g'.
    destruct (DeliveryService.groups ds1 !! g') as [st|] eqn:E; [case_decide|]; simpl; try done;
      unfold group_epoch; simpl;
      (destruct (decide (g' = g)) as [->|];
       [rewrite lookup_insert_eq|by rewrite lookup_insert_ne]);
      unfold group_epoch in Hn1; rewrite E in Hn1; by simplify_eq/=.
  - pose proof (publish_group_commit_epoch ds1 g group_id sender epoch b n Hn1 Hb) as Hp.
    destruct (DeliveryService.publish_group_commit _ _ _ _ _) as [ds2|m]; simpl.
    + destruct Hp as [H1 H2]. case_bool_decide as Hg; [|done].
      rewrite (proj2 (N.eqb_eq _ _) (H2 Hg)). done.
    + case_bool_decide as Hg; [|done]. by rewrite (proj2 (N.eqb_neq _ _) (Hp Hg)).
  - unfold DeliveryService.ack_commit. destruct (DeliveryService.delivery_mode ds1).
    + by destruct (ack _ _ _ _).
    + pose proof (ack_compat_groups ds1 (iteration ds1) recipient delivery_id) as Ha.
      destruct (DeliveryService.ack_group_log_commit_compat _ _ _ _). simpl in *.
      unfold group_epoch in *. simpl. by rewrite Ha.
  - by destruct (Ds.parse_pending_commits_query query) as [[]|].
  - unfold DeliveryService.fetch_welcome. by destruct (pop _ _).
  - unfold DeliveryService.fetch_ratchet_tree. by destruct (pop _ _).
Qed.
End epochs.

(** [n], [n + 1], .. *)
Fixpoint epochs_from (n : N) (len : nat) : list N :=
  match len with O => [] | S len' => n :: epochs_from (n + 1) len' end.

(** A commit of [g] is answered with [OK] or with a conflict. *)
Definition commit_answered (g : string) (r : Ds.Request * N) (resp : Response Ds.JsonBody) :
    Prop :=
  match r.1 with
  | Ds.PublishGroupCommit g' _ _ _ => g' = g → status resp = OK ∨ status resp = CONFLICT
  | _ => True
  end.

(** One request either accepts the commit of the current epoch or leaves the epoch. *)
Lemma handle_accepts hex iteration ds l r g n :
  group_epoch ds g = Some n → n + 1 < pow64 →
  let '(ds1, resp) := Ds.ds_handle hex iteration ds l r in
  commit_answered g (r, l) resp
  ∧ ((accepted_epochs g [(r, l)] [resp] = [n] ∧ group_epoch ds1 g = Some (n + 1))
     ∨ (accepted_epochs g [(r, l)] [resp] = [] ∧ group_epoch ds1 g = Some n)).
Proof.
  intros Hg Hw. pose proof (handle_group_epoch hex iteration ds l r g n Hg Hw) as Hh.
  destruct (Ds.ds_handle hex iteration ds l r) as [ds1 resp].
  destruct r as [| | | |g' sd e b| | | | | | | |]; try (split; [done|by right]).
  unfold commit_answered, accepted_epochs. simpl.
  case_bool_decide as Hgg; [|split; [done|by right]].
  destruct (N.eqb_spec e n) as [->|Hne]; destruct Hh as [-> H2]; simpl; split; auto.
Qed.

(** ** Properties *)

(** C13: Optimistic concurrency over HTTP: whatever requests a delivery service
    serves, the commits of a group it answers with [OK] carry consecutive epochs
    from the group's epoch on - so for each epoch exactly one commit is accepted -
    the group ends as many epochs later as commits were accepted, and every other
    commit of the group is answered with a conflict. *)
Theorem commits_accepted_once (hex_encode : bytes → string)
    (iteration : DeliveryService.DeliveryService → DeliveryService.log_entries)
    (reqs : list (Ds.Request * N)) (ds : DeliveryService.DeliveryService) (g : string) (n : N)
    (Hgroup : group_epoch ds g = Some n) (Hwrap : n + N.of_nat (length reqs) < pow64) :
  let '(ds', resps) := serve (srv := ds_service hex_encode iteration) ds reqs in
  let accepted := accepted_epochs g reqs resps in
  accepted = epochs_from n (length accepted)
  ∧ group_epoch ds' g = Some (n + N.of_nat (length accepted))
  ∧ Forall2 (commit_answered g) reqs resps.
Proof.
  revert ds n Hgroup Hwrap.
  induction reqs as [|[r l] reqs IH]; intros ds n Hg Hw.
  { simpl. rewrite N.add_0_r. done. }
  cbn [serve length] in *. simpl handle.
  pose proof (handle_accepts hex_encode iteration ds l r g n Hg ltac:(lia)) as Hh.
  destruct (Ds.ds_handle hex_encode iteration ds l r) as [ds1 resp].
  destruct Hh as [Hans Hcase].
  assert (Hcons : ∀ resps, accepted_epochs g ((r, l) :: reqs) (resp :: resps)
    = accepted_epochs g [(r, l)] [resp] ++ accepted_epochs g reqs resps)
    by (intros; unfold accepted_epochs; cbn [zip zip_with omap list_omap]; by repeat case_match).
  destruct Hcase as [[Ha H1]|[Ha H1]]; specialize (IH ds1 _ H1 ltac:(lia));
    destruct (serve ds1 reqs) as [ds' resps]; rewrite Hcons, Ha; cbn zeta in *; simpl;
    destruct IH as (I1 & I2 & I3).
  - split_and!; [by f_equal|rewrite I2; f_equal; lia|by constructor].
  - split_and!; [done|done|by constructor].
Qed.

Lemma commits_accepted_once_witness :
  let hex (_ : bytes) := "" in
  let iteration ds := map_to_list (DeliveryService.group_commit_log ds) in
  let ds := (DeliveryService.set_groups
               (DeliveryService.with_delivery_mode (ServiceMetrics.new None)
                  DeliveryService.PerRecipient)
               {["g" := DeliveryService.MkGroupState 4 ["a"; "b"]]}) in
  let reqs := [(Ds.PublishGroupCommit "g" "a" 4 [], 1); (Ds.FetchPendingCommit "b", 1);
               (Ds.PublishGroupCommit "g" "b" 4 [], 2); (Ds.PublishGroupCommit "g" "b" 5 [], 2)] in
  (group_epoch ds "g" = Some 4 ∧ 4 + N.of_nat (length reqs) < pow64)
  ∧ let '(ds', resps) := serve (srv := ds_service hex iteration) ds reqs in
    let accepted := accepted_epochs "g" reqs resps in
    accepted = epochs_from 4 (length accepted)
    ∧ group_epoch ds' "g" = Some (4 + N.of_nat (length accepted))
    ∧ Forall2 (commit_answered "g") reqs resps.
Proof.
  split; [by vm_compute|]. apply commits_accepted_once; by vm_compute.
Defined.

(** The metrics of every server are truthful: after serving any requests from a
    fresh registry, each endpoint's record counts exactly its requests, its error,
    client-error and not-found responses, has nothing in flight, and keeps the last
    latencies. *)
Theorem server_metrics_truthful {S Req J} `{srv : !HttpService S Req J}
    `{laws : !HttpServiceLaws S Req J} (s : S) (reqs : list (Req * N)) (warn : N) (limit : nat)
    (ep : string)
    (Hfresh : get_metrics s = MkServiceMetrics ∅ warn limit)
    (Hbound : 2 * N.of_nat (length reqs) < pow64) :
  let '(s', resps) := serve s reqs in
  let served := served_at ep reqs resps in
  let e := entry (get_metrics s') ep in
  request_count e = N.of_nat (length served) ∧ in_flight e = 0
  ∧ error_count e = count (λ st, negb (in_range 200 300 st)) (served.*2)
  ∧ client_error_count e = count (in_range 400 500) (served.*2)
  ∧ not_found_count e = count (λ st, st =? 404) (served.*2)
  ∧ latencies_ms e = drop (length served - limit) (served.*1).
Proof. by eapply serve_describes. Qed.

Lemma server_metrics_truthful_witness :
  let kr := KeyRepository.new (MkServiceMetrics ∅ 128 2) in
  let reqs := [(Keys.FetchBundle "a", 5); (Keys.GetStock "a", 6); (Keys.FetchBundle "b", 7);
               (Keys.FetchBundle "c", 8)] in
  (get_metrics kr = MkServiceMetrics ∅ 128 2 ∧ 2 * N.of_nat (length reqs) < pow64)
  ∧ let '(s', resps) := serve kr reqs in
    let served := served_at "fetch_prekey_bundle" reqs resps in
    let e := entry (get_metrics s') "fetch_prekey_bundle" in
    request_count e = N.of_nat (length served) ∧ in_flight e = 0
    ∧ error_count e = count (λ st, negb (in_range 200 300 st)) (served.*2)
    ∧ client_error_count e = count (in_range 400 500) (served.*2)
    ∧ not_found_count e = count (λ st, st =? 404) (served.*2)
    ∧ latencies_ms e = drop (length served - 2) (served.*1).
Proof.
  split; [by vm_compute|].
  apply (server_metrics_truthful (laws := keys_laws) _ _ 128 2); by vm_compute.
Defined.

(** What the workers send: the query of [ds_get_pending_commits] and the header of
    [relay_post_application_message]. *)
Definition pending_commits_query (client : string) (after_epoch : N) : string :=
  "client=" +:+ client +:+ "&after_epoch=" +:+ pretty after_epoch.

Definition recipients_header (recipients : list string) : string := join "," recipients.

(** The servers understand the workers: the polling query of any client name
    without an ampersand parses back to the client and the epoch, and the recipients
    header of any list of names without spaces and commas parses back to the list. *)
Theorem worker_requests_parse (client : string) (after_epoch : N) (recipients : list string)
    (Hclient : char_free "&" client) (Hepoch : after_epoch <= u64_max)
    (Hnonempty : recipients ≠ [])
    (Hnames : Forall (λ r, r ≠ "" ∧ no_space r ∧ char_free "," r) recipients) :
  Ds.parse_pending_commits_query (pending_commits_query client after_epoch)
  = Ok (client, after_epoch)
  ∧ parse_recipients_header (Some (recipients_header recipients)) = Ok recipients.
Proof.
  split.
  - unfold Ds.parse_pending_commits_query, pending_commits_query.
    rewrite <-(string_app_assoc "client=" client).
    change ("&after_epoch=" +:+ pretty after_epoch)
      with (String "&" ("after_epoch=" +:+ pretty after_epoch)).
    rewrite split_char_app by done. rewrite split_char_free.
    + assert (Hp : parse_u64 (pretty after_epoch) = Some after_epoch) by (by apply parse_pretty).
      assert (Hc : split_once "=" ("client=" +:+ client) = Some ("client", client))
        by exact (split_once_app "=" "client" client I).
      assert (Ha : split_once "=" ("after_epoch=" +:+ pretty after_epoch)
                   = Some ("after_epoch", pretty after_epoch))
        by exact (split_once_app "=" "after_epoch" (pretty after_epoch) I).
      cbn [Ds.parse_query_parts]. rewrite Hc, Ha. simpl. by rewrite Hp.
    + simpl. by apply pretty_char_free.
  - unfold parse_recipients_header, recipients_header. cbn [ok_or].
    rewrite split_join; [|done|by eapply Forall_impl; [exact Hnames|]; intros ? (? & ? & ?)].
    assert (Ht : Text.trim <$> recipients = recipients).
    { clear Hnonempty. induction Hnames as [|r rs (? & ? & ?) _ IH]; [done|].
      by rewrite fmap_cons, IH, trim_no_space. }
    rewrite Ht, filter_all_true
      by (eapply Forall_impl; [exact Hnames|]; by intros ? (? & ? & ?)).
    by destruct recipients.
Qed.

Lemma worker_requests_parse_witness :
  (Is_true (char_free "&" "00007") ∧ 12 <= u64_max
   ∧ Forall (λ r, r ≠ "" ∧ no_space r ∧ char_free "," r) ["00001"; "00002"])
  ∧ Ds.parse_pending_commits_query (pending_commits_query "00007" 12) = Ok ("00007", 12)
  ∧ parse_recipients_header (Some (recipients_header ["00001"; "00002"]))
    = Ok ["00001"; "00002"].
Proof.
  split; [split_and!; [done|done|by repeat constructor]|].
  apply (worker_requests_parse "00007" 12 ["00001"; "00002"]); [done|done|done|].
  by repeat constructor.
Defined.
