(* ===== verification/HeapTracker.v ===== *)
(** * The embedded heap-budget tracker

    [Signal_containerized/allocation_counter/src/embedded_heap_budget.rs], and in
    module [Mls] the functions the OpenMLS copy writes differently: the
    process-wide statics the counting allocator updates, with a budget that is
    latched, together with its attribution, at the first violation inside an
    operation.  The statics are the fields of [Tracker]; each function is one
    sequential step over them (atomics are not interleaved inside a function).
    Sizes and counters are [u64]; [fetch_add] wraps. *)

From S2P Require Import Prelude Text.
From stdpp Require Import options.

Local Open Scope N_scope.

Inductive HeapBudgetContext :=
| Unknown | OperationEntry | WorkerCommand | OpenMlsSpanExecution
| ProfilingStart | ProfilingFinish | ProfilingEmit.

#[export] Instance context_eq_dec : EqDecision HeapBudgetContext.
Proof. solve_decision. Defined.

Definition to_raw (c : HeapBudgetContext) : N :=
  match c with
  | Unknown => 0 | OperationEntry => 1 | WorkerCommand => 2 | OpenMlsSpanExecution => 3
  | ProfilingStart => 4 | ProfilingFinish => 5 | ProfilingEmit => 6
  end.

Definition as_str (c : HeapBudgetContext) : string :=
  match c with
  | Unknown => "unknown"
  | OperationEntry => "operation_entry"
  | WorkerCommand => "worker_command_outside_profiled_span"
  | OpenMlsSpanExecution => "openmls_span_execution"
  | ProfilingStart => "profiling_start"
  | ProfilingFinish => "profiling_finish"
  | ProfilingEmit => "profiling_emit"
  end.

Definition from_raw (value : N) : HeapBudgetContext :=
  match value with
  | 1 => OperationEntry | 2 => WorkerCommand | 3 => OpenMlsSpanExecution
  | 4 => ProfilingStart | 5 => ProfilingFinish | 6 => ProfilingEmit
  | _ => Unknown
  end.

(** The [FAILURE_*] statics. *)
Record FailureRecord := MkFailureRecord {
  failed_allocation_size : N;
  failure_current_live : N;
  failure_peak_live : N;
  failure_operation_peak : N;
  failure_total_allocated : N;
  failure_allocation_count : N;
  failure_deallocation_count : N;
  failure_span_id : N;
  failure_context : N;
}.

Definition no_failure : FailureRecord := MkFailureRecord 0 0 0 0 0 0 0 0 0.

Record Tracker := MkTracker {
  budget_bytes : N;
  baseline_live : N;
  current_live : N;
  peak_live : N;
  operation_peak : N;
  total_allocated : N;
  allocation_count : N;
  deallocation_count : N;
  active_operations : N;
  active_span_id : N;
  active_context : N;
  budget_exceeded : bool;
  failure : FailureRecord;
}.

Definition initial : Tracker := MkTracker 0 0 0 0 0 0 0 0 0 0 0 false no_failure.

Definition enabled (t : Tracker) : bool := 0 <? budget_bytes t.

Definition configured_budget_bytes (t : Tracker) : option N :=
  if 0 <? budget_bytes t then Some (budget_bytes t) else None.

Definition accounted_live_bytes (t : Tracker) : N :=
  saturating_sub (current_live t) (baseline_live t).

Definition reset_operation_state (t : Tracker) : Tracker :=
  MkTracker (budget_bytes t) (baseline_live t) (current_live t) (peak_live t)
    (operation_peak t) (total_allocated t) (allocation_count t) (deallocation_count t)
    (active_operations t) (active_span_id t) (active_context t) false no_failure.

Definition set_active (t : Tracker) (span ctx : N) : Tracker :=
  MkTracker (budget_bytes t) (baseline_live t) (current_live t) (peak_live t)
    (operation_peak t) (total_allocated t) (allocation_count t) (deallocation_count t)
    (active_operations t) span ctx (budget_exceeded t) (failure t).

Definition configure_budget (t : Tracker) (budget : option N) : Tracker :=
  reset_operation_state
    (MkTracker (default 0 budget) (current_live t) (current_live t) (peak_live t)
       (operation_peak t) (total_allocated t) (allocation_count t) (deallocation_count t)
       (active_operations t) (active_span_id t) (active_context t) (budget_exceeded t)
       (failure t)).

(** The record latched by [check_budget]. *)
Definition failure_of (t : Tracker) (size : N) : FailureRecord :=
  MkFailureRecord size (accounted_live_bytes t)
    (saturating_sub (peak_live t) (baseline_live t)) (operation_peak t)
    (total_allocated t) (allocation_count t) (deallocation_count t)
    (active_span_id t) (active_context t).

Definition check_budget (t : Tracker) (size : N) : Tracker :=
  if (budget_bytes t =? 0) || (active_operations t =? 0) then t
  else if accounted_live_bytes t <=? budget_bytes t then t
  else if budget_exceeded t then t
  else MkTracker (budget_bytes t) (baseline_live t) (current_live t) (peak_live t)
         (operation_peak t) (total_allocated t) (allocation_count t) (deallocation_count t)
         (active_operations t) (active_span_id t) (active_context t) true
         (failure_of t size).

Definition begin_operation (t : Tracker) : Tracker :=
  let budget_active := enabled t in
  let t1 := if budget_active then reset_operation_state t else t in
  let t2 := MkTracker (budget_bytes t1) (baseline_live t1) (current_live t1) (peak_live t1)
              (accounted_live_bytes t1) (total_allocated t1) (allocation_count t1)
              (deallocation_count t1) (wrap64 (active_operations t1 + 1)) 0
              (to_raw OperationEntry) (budget_exceeded t1) (failure t1) in
  if budget_active then check_budget t2 0 else t2.

(** [Drop for HeapBudgetOperationGuard]: guards are created active. *)
Definition drop_operation_guard (t : Tracker) : Tracker :=
  let before := active_operations t in
  let last := before =? 1 in
  MkTracker (budget_bytes t) (baseline_live t) (current_live t) (peak_live t)
    (operation_peak t) (total_allocated t) (allocation_count t) (deallocation_count t)
    (wrapping_sub64 before 1) (if last then 0 else active_span_id t)
    (if last then 0 else active_context t) (budget_exceeded t) (failure t).

Definition set_active_span_id (t : Tracker) (span : option N) : Tracker :=
  set_active t (default 0 span) (active_context t).

Definition set_active_context (t : Tracker) (c : HeapBudgetContext) : Tracker :=
  set_active t (active_span_id t) (to_raw c).

(** The guard remembers the previous span and context. *)
Definition enter_attribution_context (t : Tracker) (c : HeapBudgetContext) (span : option N) :
    Tracker * (N * N) :=
  (set_active t (default 0 span) (to_raw c), (active_span_id t, active_context t)).

Definition drop_attribution_guard (t : Tracker) (g : N * N) : Tracker := set_active t g.1 g.2.

Definition record_alloc (t : Tracker) (size : N) : Tracker :=
  let current := saturating_add64 (current_live t) size in
  let peak := N.max (peak_live t) current in
  let op_peak :=
    if 0 <? active_operations t
    then N.max (operation_peak t) (saturating_sub current (baseline_live t))
    else operation_peak t in
  let t1 := MkTracker (budget_bytes t) (baseline_live t) (wrap64 (current_live t + size)) peak
              op_peak (wrap64 (total_allocated t + size)) (wrap64 (allocation_count t + 1))
              (deallocation_count t) (active_operations t) (active_span_id t)
              (active_context t) (budget_exceeded t) (failure t) in
  if enabled t && (0 <? active_operations t) then check_budget t1 size else t1.

Definition record_dealloc (t : Tracker) (size : N) : Tracker :=
  MkTracker (budget_bytes t) (baseline_live t) (saturating_sub (current_live t) size)
    (peak_live t) (operation_peak t) (total_allocated t) (allocation_count t)
    (wrap64 (deallocation_count t + 1)) (active_operations t) (active_span_id t)
    (active_context t) (budget_exceeded t) (failure t).

Record HeapBudgetSnapshot := MkHeapBudgetSnapshot {
  configured_heap_budget_bytes : N;
  current_live_heap_bytes : N;
  peak_live_heap_bytes : N;
  operation_peak_live_heap_bytes : N;
  snap_total_allocated_bytes : N;
  snap_allocation_count : N;
  snap_deallocation_count : N;
  snap_budget_exceeded : bool;
  failed_allocation_size_bytes : option N;
  snap_failure : FailureRecord;
  snap_failure_span_id : option N;
  snap_failure_context : HeapBudgetContext;
}.

Definition nonzero (n : N) : option N := if 0 <? n then Some n else None.

Definition snapshot (t : Tracker) : HeapBudgetSnapshot :=
  MkHeapBudgetSnapshot (budget_bytes t) (accounted_live_bytes t)
    (saturating_sub (peak_live t) (baseline_live t)) (operation_peak t)
    (total_allocated t) (allocation_count t) (deallocation_count t) (budget_exceeded t)
    (nonzero (failed_allocation_size (failure t))) (failure t)
    (nonzero (failure_span_id (failure t))) (from_raw (failure_context (failure t))).

(** ** What happens between two operation boundaries *)

Inductive heap_event :=
| EvAlloc (size : N)
| EvDealloc (size : N)
| EvSpan (span : option N)
| EvContext (c : HeapBudgetContext)
| EvSnapshot.

Definition heap_step (t : Tracker) (ev : heap_event) : Tracker :=
  match ev with
  | EvAlloc n => record_alloc t n
  | EvDealloc n => record_dealloc t n
  | EvSpan s => set_active_span_id t s
  | EvContext c => set_active_context t c
  | EvSnapshot => t
  end.

Definition heap_run (t : Tracker) (evs : list heap_event) : Tracker := foldl heap_step t evs.

Definition ev_size (ev : heap_event) : N := match ev with EvAlloc n => n | _ => 0 end.
Definition alloc_sum (evs : list heap_event) : N := foldr (λ ev n, ev_size ev + n) 0 evs.

(** ** The operation invariant *)

(** Inside an operation with a budget: the flag says whether the operation's peak
    went over the budget, and the peak bounds the live bytes seen so far. *)
Record in_operation (t : Tracker) : Prop := {
  op_budget : 0 < budget_bytes t;
  op_active : 0 < active_operations t;
  op_flag : budget_exceeded t = (budget_bytes t <? operation_peak t);
  op_bound : accounted_live_bytes t <= operation_peak t;
  op_clear : budget_exceeded t = false → failure t = no_failure;
  op_failure : budget_exceeded t = true →
    budget_bytes t < failure_current_live (failure t) <= operation_peak t;
}.

Lemma begin_in_operation t :
  enabled t = true → active_operations t < u64_max → in_operation (begin_operation t).
Proof.
  unfold begin_operation, enabled. intros He%N.ltb_lt Ha.
  assert (Hw : wrap64 (active_operations t + 1) = active_operations t + 1)
    by (apply wrap64_small; unfold u64_max, pow64 in *; lia).
  assert (He' : (0 <? budget_bytes t) = true) by (by apply N.ltb_lt).
  rewrite He'. unfold check_budget. simpl. rewrite Hw.
  unfold accounted_live_bytes, saturating_sub. simpl.
  destruct (N.eqb_spec (budget_bytes t) 0); [lia|].
  destruct (N.eqb_spec (active_operations t + 1) 0); [lia|]. simpl.
  destruct (N.leb_spec (current_live t - baseline_live t) (budget_bytes t)); split; simpl;
    unfold accounted_live_bytes, saturating_sub; simpl; try done; try lia.
  - symmetry. apply N.ltb_ge. lia.
  - symmetry. apply N.ltb_lt. lia.
Qed.

(** Allocation, spelled out without wrap-around. *)
Lemma record_alloc_in_operation t size :
  in_operation t → current_live t + size <= u64_max →
  let live := current_live t + size - baseline_live t in
  record_alloc t size
  = MkTracker (budget_bytes t) (baseline_live t) (current_live t + size)
      (N.max (peak_live t) (current_live t + size))
      (N.max (operation_peak t) live)
      (wrap64 (total_allocated t + size)) (wrap64 (allocation_count t + 1))
      (deallocation_count t) (active_operations t) (active_span_id t) (active_context t)
      (budget_exceeded t || (budget_bytes t <? live))
      (if budget_exceeded t then failure t
       else if budget_bytes t <? live then
         MkFailureRecord size live
           (N.max (peak_live t) (current_live t + size) - baseline_live t)
           (N.max (operation_peak t) live) (wrap64 (total_allocated t + size))
           (wrap64 (allocation_count t + 1)) (deallocation_count t)
           (active_span_id t) (active_context t)
       else failure t).
Proof.
  intros [Hb Ha Hf Hbd Hcl Hfl] Hs live. unfold record_alloc, enabled.
  assert (Hb' : (0 <? budget_bytes t) = true) by (by apply N.ltb_lt).
  assert (Ha' : (0 <? active_operations t) = true) by (by apply N.ltb_lt).
  rewrite Hb', Ha'. simpl. unfold saturating_add64.
  rewrite N.min_l by done. rewrite (wrap64_small (current_live t + size))
    by (by apply u64_max_pow64).
  unfold check_budget, accounted_live_bytes, failure_of, saturating_sub. simpl.
  destruct (N.eqb_spec (budget_bytes t) 0); [lia|].
  destruct (N.eqb_spec (active_operations t) 0); [lia|]. simpl. fold live.
  rewrite N.leb_antisym.
  destruct (N.ltb_spec (budget_bytes t) live); simpl;
    destruct (budget_exceeded t) eqn:E; simpl; rewrite ?E; try done.
Qed.

Lemma in_operation_alloc t size :
  in_operation t → current_live t + size <= u64_max → in_operation (record_alloc t size).
Proof.
  intros Hop Hs. rewrite record_alloc_in_operation by done.
  destruct Hop as [Hb Ha Hf Hbd Hcl Hfl].
  unfold accounted_live_bytes, saturating_sub in *.
  set (live := current_live t + size - baseline_live t) in *.
  split; simpl; try done.
  - rewrite Hf. destruct (N.ltb_spec (budget_bytes t) (operation_peak t)),
      (N.ltb_spec (budget_bytes t) live), (N.ltb_spec (budget_bytes t) (N.max (operation_peak t) live));
      simpl; try done; lia.
  - unfold accounted_live_bytes, saturating_sub. simpl. fold live. lia.
  - intros [H1 H2]%orb_false_iff. rewrite H1, H2. auto.
  - destruct (budget_exceeded t) eqn:E; simpl.
    + intros _. specialize (Hfl eq_refl). lia.
    + intros Hx. rewrite Hx. simpl. apply N.ltb_lt in Hx. lia.
Qed.

Lemma in_operation_step t ev :
  in_operation t → current_live t + ev_size ev <= u64_max →
  in_operation (heap_step t ev) ∧ current_live (heap_step t ev) <= current_live t + ev_size ev.
Proof.
  intros Hop Hs. destruct ev as [n|n|s|c|]; simpl in *.
  - split; [by apply in_operation_alloc|]. rewrite record_alloc_in_operation by done. simpl. lia.
  - destruct Hop as [Hb Ha Hf Hbd Hcl Hfl]. unfold record_dealloc.
    split; [split; simpl; try done|simpl; unfold saturating_sub; lia].
    unfold accounted_live_bytes, saturating_sub in *. simpl. lia.
  - destruct Hop. split; [by split|simpl; lia].
  - destruct Hop. split; [by split|simpl; lia].
  - split; [done|lia].
Qed.

Lemma in_operation_run evs : ∀ t,
  in_operation t → current_live t + alloc_sum evs <= u64_max → in_operation (heap_run t evs).
Proof.
  induction evs as [|ev evs IH]; intros t Hop Hs; [done|]. simpl in *.
  destruct (in_operation_step t ev) as [H1 H2]; [done|lia|]. apply IH; [done|lia].
Qed.

(** The first allocation of a run that takes the live bytes over the budget. *)
Fixpoint first_violation (t : Tracker) (evs : list heap_event) : option (Tracker * N) :=
  match evs with
  | [] => None
  | EvAlloc n :: rest =>
      if budget_bytes t <? current_live t + n - baseline_live t
      then Some (t, n) else first_violation (record_alloc t n) rest
  | ev :: rest => first_violation (heap_step t ev) rest
  end.

Lemma latched_run evs : ∀ t,
  in_operation t → current_live t + alloc_sum evs <= u64_max →
  budget_exceeded t = true →
  budget_exceeded (heap_run t evs) = true ∧ failure (heap_run t evs) = failure t.
Proof.
  induction evs as [|ev evs IH]; intros t Hop Hs He; [done|]. simpl in *.
  destruct (in_operation_step t ev) as [H1 H2]; [done|lia|].
  assert (Hk : budget_exceeded (heap_step t ev) = true ∧ failure (heap_step t ev) = failure t).
  { destruct ev as [n|n|s|c|]; simpl in *; try done.
    rewrite record_alloc_in_operation by (done || lia). simpl. by rewrite He. }
  destruct Hk as [Hk1 Hk2]. rewrite <-Hk2. apply IH; [done|lia|done].
Qed.

Lemma first_violation_run evs : ∀ t,
  in_operation t → current_live t + alloc_sum evs <= u64_max →
  budget_exceeded t = false →
  match first_violation t evs with
  | None => budget_exceeded (heap_run t evs) = false
  | Some (t', n) =>
      budget_exceeded (heap_run t evs) = true
      ∧ failure (heap_run t evs) = failure (record_alloc t' n)
      ∧ failed_allocation_size (failure (heap_run t evs)) = n
      ∧ failure_current_live (failure (heap_run t evs)) = current_live t' + n - baseline_live t'
      ∧ failure_span_id (failure (heap_run t evs)) = active_span_id t'
      ∧ failure_context (failure (heap_run t evs)) = active_context t'
  end.
Proof.
  induction evs as [|ev evs IH]; intros t Hop Hs He; [done|]. simpl in Hs.
  destruct (in_operation_step t ev) as [H1 H2]; [done|lia|].
  assert (Hgo : budget_exceeded (heap_step t ev) = false →
    match first_violation (heap_step t ev) evs with
    | None => budget_exceeded (heap_run t (ev :: evs)) = false
    | Some (t', n) =>
        budget_exceeded (heap_run t (ev :: evs)) = true
        ∧ failure (heap_run t (ev :: evs)) = failure (record_alloc t' n)
        ∧ failed_allocation_size (failure (heap_run t (ev :: evs))) = n
        ∧ failure_current_live (failure (heap_run t (ev :: evs)))
          = current_live t' + n - baseline_live t'
        ∧ failure_span_id (failure (heap_run t (ev :: evs))) = active_span_id t'
        ∧ failure_context (failure (heap_run t (ev :: evs))) = active_context t'
    end) by (intros; apply IH; [done|lia|done]).
  destruct ev as [n|n|s|c|]; simpl in *; try (apply Hgo; done).
  pose proof (record_alloc_in_operation t n Hop ltac:(lia)) as Hra.
  destruct (N.ltb_spec (budget_bytes t) (current_live t + n - baseline_live t)) as [Hv|Hv].
  - destruct (latched_run evs (record_alloc t n)) as [L1 L2]; [done|lia| |].
    { rewrite Hra. simpl. rewrite He. simpl. by apply N.ltb_lt. }
    split; [done|]. split; [done|]. rewrite L2, Hra. simpl.
    rewrite He. apply N.ltb_lt in Hv. rewrite Hv. done.
  - apply Hgo. rewrite Hra. simpl. rewrite He. simpl. apply N.ltb_ge. lia.
Qed.

(** ** The OpenMLS copy of the tracker

    [OpenMLS_containerized/allocation_counter/src/embedded_heap_budget.rs] only
    accounts while a budget is configured, and hands out an inactive guard
    otherwise. *)
Module Mls.

Definition begin_operation (t : Tracker) : Tracker * bool :=
  if negb (enabled t) then (t, false)
  else
    let t1 := reset_operation_state t in
    let t2 := MkTracker (budget_bytes t1) (baseline_live t1) (current_live t1) (peak_live t1)
                (accounted_live_bytes t1) (total_allocated t1) (allocation_count t1)
                (deallocation_count t1) (wrap64 (active_operations t1 + 1)) 0
                (to_raw OperationEntry) (budget_exceeded t1) (failure t1) in
    (check_budget t2 0, true).

(** [Drop for HeapBudgetOperationGuard], on the guard's [active] field. *)
Definition drop_operation_guard (t : Tracker) (active : bool) : Tracker :=
  if active then drop_operation_guard t else t.

Definition record_alloc (t : Tracker) (size : N) : Tracker :=
  let current := saturating_add64 (current_live t) size in
  let peak := N.max (peak_live t) current in
  let t0 := MkTracker (budget_bytes t) (baseline_live t) (wrap64 (current_live t + size)) peak
              (operation_peak t) (total_allocated t) (allocation_count t)
              (deallocation_count t) (active_operations t) (active_span_id t)
              (active_context t) (budget_exceeded t) (failure t) in
  if enabled t0 then
    let t1 := MkTracker (budget_bytes t0) (baseline_live t0) (current_live t0) (peak_live t0)
                (operation_peak t0) (wrap64 (total_allocated t0 + size))
                (wrap64 (allocation_count t0 + 1)) (deallocation_count t0)
                (active_operations t0) (active_span_id t0) (active_context t0)
                (budget_exceeded t0) (failure t0) in
    if 0 <? active_operations t1 then
      let accounted := saturating_sub current (baseline_live t1) in
      check_budget
        (MkTracker (budget_bytes t1) (baseline_live t1) (current_live t1) (peak_live t1)
           (N.max (operation_peak t1) accounted) (total_allocated t1) (allocation_count t1)
           (deallocation_count t1) (active_operations t1) (active_span_id t1)
           (active_context t1) (budget_exceeded t1) (failure t1)) size
    else t1
  else t0.

Definition record_dealloc (t : Tracker) (size : N) : Tracker :=
  let t0 := MkTracker (budget_bytes t) (baseline_live t) (saturating_sub (current_live t) size)
              (peak_live t) (operation_peak t) (total_allocated t) (allocation_count t)
              (deallocation_count t) (active_operations t) (active_span_id t)
              (active_context t) (budget_exceeded t) (failure t) in
  if enabled t0 then
    MkTracker (budget_bytes t0) (baseline_live t0) (current_live t0) (peak_live t0)
      (operation_peak t0) (total_allocated t0) (allocation_count t0)
      (wrap64 (deallocation_count t0 + 1)) (active_operations t0) (active_span_id t0)
      (active_context t0) (budget_exceeded t0) (failure t0)
  else t0.

Definition heap_step (t : Tracker) (ev : heap_event) : Tracker :=
  match ev with
  | EvAlloc n => record_alloc t n
  | EvDealloc n => record_dealloc t n
  | EvSpan s => set_active_span_id t s
  | EvContext c => set_active_context t c
  | EvSnapshot => t
  end.

Definition heap_run (t : Tracker) (evs : list heap_event) : Tracker := foldl heap_step t evs.

End Mls.

Lemma heap_step_budget t ev : budget_bytes (heap_step t ev) = budget_bytes t.
Proof.
  destruct ev; simpl; try done. unfold record_alloc, check_budget.
  by repeat (simpl; case_match).
Qed.

Lemma mls_step_enabled t ev : enabled t = true → Mls.heap_step t ev = heap_step t ev.
Proof.
  intros He. destruct ev; simpl; try done;
    unfold Mls.record_alloc, record_alloc, Mls.record_dealloc, record_dealloc.
  - replace (enabled _) with true by (by rewrite <-He). rewrite He. simpl. by case_match.
  - replace (enabled _) with true by (by rewrite <-He). done.
Qed.

Lemma mls_run_enabled evs : ∀ t, enabled t = true → Mls.heap_run t evs = heap_run t evs.
Proof.
  induction evs as [|ev evs IH]; intros t He; [done|].
  unfold Mls.heap_run, heap_run in *. simpl.
  rewrite mls_step_enabled by done. apply IH. unfold enabled. by rewrite heap_step_budget.
Qed.

Lemma first_violation_enabled evs : ∀ t, enabled t = true →
  match first_violation t evs with None => True | Some (t', _) => enabled t' = true end.
Proof.
  induction evs as [|ev evs IH]; intros t He; [done|].
  assert (Hs : enabled (heap_step t ev) = true) by (unfold enabled; by rewrite heap_step_budget).
  destruct ev as [n|n|s|c|]; simpl in *; [|by apply IH..].
  destruct (_ <? _); [done|by apply IH].
Qed.

(** An operation that starts within its budget starts unflagged. *)
Lemma begin_within t :
  enabled t = true → accounted_live_bytes t <= budget_bytes t →
  (Mls.begin_operation t).1 = begin_operation t
  ∧ budget_bytes (begin_operation t) = budget_bytes t
  ∧ current_live (begin_operation t) = current_live t
  ∧ budget_exceeded (begin_operation t) = false.
Proof.
  intros He Hstart. unfold Mls.begin_operation, begin_operation, check_budget.
  rewrite He. simpl. unfold accounted_live_bytes in *. simpl.
  rewrite (proj2 (N.leb_le _ _) Hstart). by case_match.
Qed.

(** ** Properties *)

(** In a profiled operation (a budget is configured, fewer than 2^64 bytes are
    ever live), the flag the worker reads at the end is raised exactly when the
    operation's peak of accounted bytes went over the budget, the peak bounds the
    live bytes at the end, and a raised flag comes with a record whose live bytes
    are over the budget and at most the peak. *)
Theorem operation_verdict (t : Tracker) (evs : list heap_event)
    (Hbudget : enabled t = true) (Hactive : active_operations t < u64_max)
    (Hlive : current_live t + alloc_sum evs <= u64_max) :
  let s := snapshot (heap_run (begin_operation t) evs) in
  snap_budget_exceeded s
  = (configured_heap_budget_bytes s <? operation_peak_live_heap_bytes s)
  ∧ current_live_heap_bytes s <= operation_peak_live_heap_bytes s
  ∧ (if snap_budget_exceeded s
     then configured_heap_budget_bytes s < failure_current_live (snap_failure s)
          <= operation_peak_live_heap_bytes s
     else snap_failure s = no_failure).
Proof.
  simpl. pose proof (begin_in_operation t Hbudget Hactive) as Hb.
  assert (Hc : current_live (begin_operation t) = current_live t).
  { unfold begin_operation, check_budget. by repeat (simpl; case_match). }
  destruct (in_operation_run evs _ Hb ltac:(by rewrite Hc)) as [H1 H2 H3 H4 H5 H6].
  split_and!; [done|done|]. case_match; auto.
Qed.

Lemma operation_verdict_witness :
  let t := configure_budget (record_alloc initial 50) (Some 100) in
  (enabled t = true ∧ active_operations t < u64_max
   ∧ current_live t + alloc_sum [EvAlloc 60; EvDealloc 20; EvAlloc 70] <= u64_max)
  ∧ let s := snapshot (heap_run (begin_operation t) [EvAlloc 60; EvDealloc 20; EvAlloc 70]) in
    snap_budget_exceeded s
    = (configured_heap_budget_bytes s <? operation_peak_live_heap_bytes s)
    ∧ current_live_heap_bytes s <= operation_peak_live_heap_bytes s
    ∧ (if snap_budget_exceeded s
       then configured_heap_budget_bytes s < failure_current_live (snap_failure s)
            <= operation_peak_live_heap_bytes s
       else snap_failure s = no_failure).
Proof.
  split; [vm_compute; by split_and!|].
  apply operation_verdict; by vm_compute.
Defined.

(** The failure that is reported is the first one: when the operation starts
    within its budget, the latched record describes the first allocation that takes
    the accounted bytes over the budget - its size, the bytes live then, and the
    span and context that were active - and nothing later in the operation
    overwrites it; without such an allocation the flag stays down. *)
Theorem first_violation_latched (t : Tracker) (evs : list heap_event)
    (Hbudget : enabled t = true) (Hactive : active_operations t < u64_max)
    (Hstart : accounted_live_bytes t <= budget_bytes t)
    (Hlive : current_live t + alloc_sum evs <= u64_max) :
  let t' := Mls.heap_run (Mls.begin_operation t).1 evs in
  match first_violation (begin_operation t) evs with
  | None => budget_exceeded t' = false
  | Some (at_violation, n) =>
      budget_exceeded t' = true
      ∧ failure t' = failure (Mls.record_alloc at_violation n)
      ∧ failed_allocation_size (failure t') = n
      ∧ failure_current_live (failure t')
        = current_live at_violation + n - baseline_live at_violation
      ∧ failure_span_id (failure t') = active_span_id at_violation
      ∧ failure_context (failure t') = active_context at_violation
  end.
Proof.
  destruct (begin_within t Hbudget Hstart) as (Hbeq & Hbud & Hc & Hf).
  assert (Hen : enabled (begin_operation t) = true) by (unfold enabled; by rewrite Hbud).
  pose proof (begin_in_operation t Hbudget Hactive) as Hb.
  simpl. rewrite Hbeq, (mls_run_enabled _ _ Hen).
  pose proof (first_violation_run evs (begin_operation t) Hb ltac:(by rewrite Hc) Hf) as Hr.
  pose proof (first_violation_enabled evs _ Hen) as Hfe.
  destruct (first_violation (begin_operation t) evs) as [[t' n]|]; [|done].
  pose proof (mls_step_enabled t' (EvAlloc n) Hfe) as Hst. simpl in Hst. by rewrite Hst.
Qed.

Lemma first_violation_latched_witness :
  let t := configure_budget initial (Some 100) in
  let evs := [EvSpan (Some 7); EvAlloc 60; EvContext OpenMlsSpanExecution; EvAlloc 70;
              EvDealloc 70; EvSpan (Some 9); EvAlloc 90] in
  (enabled t = true ∧ active_operations t < u64_max
   ∧ accounted_live_bytes t <= budget_bytes t ∧ current_live t + alloc_sum evs <= u64_max)
  ∧ let t' := Mls.heap_run (Mls.begin_operation t).1 evs in
    match first_violation (begin_operation t) evs with
    | None => budget_exceeded t' = false
    | Some (at_violation, n) =>
        budget_exceeded t' = true
        ∧ failure t' = failure (Mls.record_alloc at_violation n)
        ∧ failed_allocation_size (failure t') = n
        ∧ failure_current_live (failure t')
          = current_live at_violation + n - baseline_live at_violation
        ∧ failure_span_id (failure t') = active_span_id at_violation
        ∧ failure_context (failure t') = active_context at_violation
    end.
Proof.
  split; [vm_compute; by split_and!|].
  apply first_violation_latched; by vm_compute.
Defined.
