(* ===== verification/HeapBudget.v ===== *)
(** * The worker's heap-budget layer, and the runner's reading of its failures

    [OpenMLS_containerized/src/embedded_heap_budget.rs] configures the tracker from
    the environment, attributes each operation, and renders a violation as one line
    of [key=value] tokens; [apply_app_heap_budget_failure_fields] and
    [app_heap_field] of [staircase_runner.rs] read that line back.  The environment
    is an argument. *)

From S2P Require Import Prelude Text HeapTracker.
From stdpp Require Import options.

Local Open Scope N_scope.

Record EmbeddedHeapBudgetConfig := MkConfig {
  cfg_enabled : bool;
  cfg_memory_model : string;
  cfg_app_heap_budget : string;
  cfg_app_heap_budget_bytes : N;
  cfg_docker_memory_limit : string;
  cfg_resource_profile_id : string;
  cfg_resource_profile_index : option N;
}.

Record OperationAttribution := MkAttribution {
  operation_family : string;
  benchmark_operation : string;
  span_or_phase : string;
  member_count : option N;
  epoch : option N;
  worker_id : string;
  resource_profile_id : string;
  resource_profile_index : option N;
  app_heap_budget : string;
  app_heap_budget_bytes : N;
}.

Record HeapBudgetFailure := MkFailure {
  attribution : OperationAttribution;
  snapshot_of : HeapBudgetSnapshot;
}.

(** The unit suffixes of [parse_memory_to_bytes]. *)
Definition unit_multiplier (u : string) : option N :=
  if bool_decide (u ∈ [""; "b"]) then Some 1
  else if bool_decide (u ∈ ["k"; "kb"; "kib"]) then Some 1024
  else if bool_decide (u ∈ ["m"; "mb"; "mib"]) then Some (1024 * 1024)
  else if bool_decide (u ∈ ["g"; "gb"; "gib"]) then Some (1024 * 1024 * 1024)
  else None.

Definition parse_memory_to_bytes (raw : string) : option N :=
  let trimmed := trim raw in
  match trimmed with
  | EmptyString => None
  | _ =>
      let '(digits, u) := span_string is_digit trimmed in
      let! value <- parse_u64 digits in
      let! multiplier <- unit_multiplier (to_ascii_lowercase u) in
      checked_mul64 value multiplier
  end.

(** [configure_from_env]: the configured tracker and the configuration. *)
Definition configure_from_env (env : string → option string) (t : Tracker) :
    Tracker * EmbeddedHeapBudgetConfig :=
  let var k := default "" (env k) in
  let memory_model := var "OPENMLS_MEMORY_MODEL" in
  let budget_label := var "OPENMLS_APP_HEAP_BUDGET" in
  let budget_bytes :=
    match (let! raw <- env "OPENMLS_APP_HEAP_BUDGET_BYTES" in parse_u64 raw) with
    | Some n => Some n
    | None => parse_memory_to_bytes budget_label
    end in
  let on := bool_decide (memory_model = "app-heap-budget") && (0 <? default 0 budget_bytes) in
  (configure_budget t (if on then Some (default 0 budget_bytes) else None),
   MkConfig on memory_model budget_label (default 0 budget_bytes)
     (var "OPENMLS_DOCKER_MEMORY_LIMIT") (var "OPENMLS_RESOURCE_PROFILE_ID")
     (let! raw <- env "OPENMLS_RESOURCE_PROFILE_INDEX" in parse_usize raw)).

Definition begin_operation (t : Tracker) (a : OperationAttribution) :
    Tracker * option (OperationAttribution * bool) :=
  if negb (enabled t) then (t, None)
  else let '(t', guard) := Mls.begin_operation t in (t', Some (a, guard)).

Definition mark_worker_command_execution (t : Tracker) : Tracker :=
  set_active_context t WorkerCommand.

Definition failure_if_exceeded (t : Tracker) (a : OperationAttribution) :
    option HeapBudgetFailure :=
  let s := snapshot t in
  if snap_budget_exceeded s then Some (MkFailure a s) else None.

Definition display_operation (family : string) : string :=
  if bool_decide (family = "key_package_create") then "KeyPackageCreate"
  else if bool_decide (family = "add_commit_create") then "AddCommitCreate"
  else if bool_decide (family = "welcome_receive") then "WelcomeReceive"
  else if bool_decide (family = "application_message_create") then "ApplicationMessageCreate"
  else if bool_decide (family = "application_message_receive") then "ApplicationMessageReceive"
  else if bool_decide (family = "update_commit_create") then "UpdateCommitCreate"
  else if bool_decide (family = "remove_commit_create") then "RemoveCommitCreate"
  else if bool_decide (family = "commit_receive") then "CommitReceive"
  else if bool_decide (family = "create_group") then "CreateGroup"
  else if bool_decide (family = "process_pending") then "ProcessPending"
  else "OpenMLSOperation".

Definition operation_family_for_command (command_name : string)
    (bench_operation : option string) : string :=
  if bool_decide (command_name = "GenerateKeyPackage") then "key_package_create"
  else if bool_decide (command_name = "AddMembers") then "add_commit_create"
  else if bool_decide (command_name = "JoinFromWelcome") then "welcome_receive"
  else if bool_decide (command_name = "SendApplicationMessage") then "application_message_create"
  else if bool_decide (command_name = "ReceiveApplicationMessage")
    then "application_message_receive"
  else if bool_decide (command_name = "SelfUpdate") then "update_commit_create"
  else if bool_decide (command_name = "RemoveMembers") then "remove_commit_create"
  else if bool_decide (command_name = "ReceiveCommit") then "commit_receive"
  else if bool_decide (command_name = "ProcessPending")
    then default "process_pending" bench_operation
  else if bool_decide (command_name = "CreateGroup") then "create_group"
  else command_name.

Definition display_budget (n : N) : string :=
  if (1024 * 1024 <=? n) && (n mod (1024 * 1024) =? 0)
  then pretty (n `div` (1024 * 1024)) +:+ " MiB"
  else if (1024 <=? n) && (n mod 1024 =? 0)
  then pretty (n `div` 1024) +:+ " KiB"
  else pretty n +:+ " bytes".

(** [.map(|v| v.to_string()).unwrap_or_default()] *)
Definition shown (o : option N) : string := from_option pretty "" o.

Definition human_detail (f : HeapBudgetFailure) : string :=
  let operation := display_operation (operation_family (attribution f)) in
  let budget := display_budget (app_heap_budget_bytes (attribution f)) in
  let start := "The profiled singleton exceeded the " +:+ budget
                 +:+ " application heap budget during " +:+ operation in
  match member_count (attribution f), epoch (attribution f) with
  | Some m, Some e => start +:+ " at member_count = " +:+ pretty m +:+ ", epoch = "
                        +:+ pretty e +:+ "."
  | Some m, None => start +:+ " at member_count = " +:+ pretty m +:+ "."
  | None, Some e => start +:+ " at epoch = " +:+ pretty e +:+ "."
  | None, None => start +:+ "."
  end.

Definition quote_char : ascii := "034"%char.
Definition quote : string := String quote_char "".

Definition to_worker_error_message (f : HeapBudgetFailure) : string :=
  let a := attribution f in
  let s := snapshot_of f in
  "APP_HEAP_BUDGET_EXCEEDED failure_class=app_heap_budget_exceeded "
  +:+ "memory_model=app-heap-budget operation_family=" +:+ operation_family a
  +:+ " benchmark_operation=" +:+ benchmark_operation a
  +:+ " span_or_phase=" +:+ span_or_phase a
  +:+ " member_count=" +:+ shown (member_count a)
  +:+ " epoch=" +:+ shown (epoch a)
  +:+ " worker_id=" +:+ worker_id a
  +:+ " resource_profile_id=" +:+ resource_profile_id a
  +:+ " resource_profile_index=" +:+ shown (resource_profile_index a)
  +:+ " app_heap_budget=" +:+ app_heap_budget a
  +:+ " app_heap_budget_bytes=" +:+ pretty (app_heap_budget_bytes a)
  +:+ " configured_heap_budget_bytes=" +:+ pretty (configured_heap_budget_bytes s)
  +:+ " current_live_heap_bytes=" +:+ pretty (failure_current_live (snap_failure s))
  +:+ " peak_live_heap_bytes=" +:+ pretty (failure_peak_live (snap_failure s))
  +:+ " operation_peak_live_heap_bytes=" +:+ pretty (failure_operation_peak (snap_failure s))
  +:+ " total_allocated_bytes=" +:+ pretty (failure_total_allocated (snap_failure s))
  +:+ " allocation_count=" +:+ pretty (failure_allocation_count (snap_failure s))
  +:+ " deallocation_count=" +:+ pretty (failure_deallocation_count (snap_failure s))
  +:+ " failed_allocation_size_bytes=" +:+ shown (failed_allocation_size_bytes s)
  +:+ " failure_span_id=" +:+ shown (snap_failure_span_id s)
  +:+ " heap_failure_context=" +:+ as_str (snap_failure_context s)
  +:+ " detail=" +:+ quote +:+ replace_char quote_char "'" (human_detail f) +:+ quote.

(** ** The runner's side *)

Fixpoint field_of_tokens (prefix : string) (tokens : list string) : option string :=
  match tokens with
  | [] => None
  | token :: rest =>
      match strip_prefix prefix token with
      | Some value => Some (trim_matches quote_char value)
      | None => field_of_tokens prefix rest
      end
  end.

Definition app_heap_field (detail key : string) : option string :=
  field_of_tokens (key +:+ "=") (split_whitespace detail).

Definition field_u64 (detail key : string) : option N :=
  let! value <- app_heap_field detail key in parse_u64 value.

(** The fields of [ProfileEvent] the function reads or writes. *)
Record HeapEventFields := MkHeapEventFields {
  failure_detail : option string;
  ev_memory_model : option string;
  ev_app_heap_budget : option string;
  ev_app_heap_budget_bytes : option N;
  heap_current_live_bytes : option N;
  heap_peak_live_bytes : option N;
  heap_operation_peak_live_bytes : option N;
  heap_total_allocated_bytes : option N;
  heap_allocation_count : option N;
  heap_deallocation_count : option N;
  heap_failed_allocation_size_bytes : option N;
  heap_failure_context : option string;
  ev_span_id : option N;
  ev_operation_family : option string;
  ev_member_count : option N;
  member_count_before : option N;
  group_epoch : option N;
}.

(** [or_else] *)
Definition or_else {A} (a b : option A) : option A := match a with Some _ => a | None => b end.

Definition apply_app_heap_budget_failure_fields (ev : HeapEventFields) : HeapEventFields :=
  match failure_detail ev with
  | None => ev
  | Some detail =>
      if negb (contains "APP_HEAP_BUDGET_EXCEEDED" detail) then ev
      else
        let mc := field_u64 detail "member_count" in
        MkHeapEventFields (failure_detail ev)
          (app_heap_field detail "memory_model")
          (app_heap_field detail "app_heap_budget")
          (field_u64 detail "app_heap_budget_bytes")
          (field_u64 detail "current_live_heap_bytes")
          (field_u64 detail "peak_live_heap_bytes")
          (field_u64 detail "operation_peak_live_heap_bytes")
          (field_u64 detail "total_allocated_bytes")
          (field_u64 detail "allocation_count")
          (field_u64 detail "deallocation_count")
          (field_u64 detail "failed_allocation_size_bytes")
          (app_heap_field detail "heap_failure_context")
          (field_u64 detail "failure_span_id")
          (or_else (ev_operation_family ev) (app_heap_field detail "operation_family"))
          (or_else mc (ev_member_count ev))
          (or_else (member_count_before ev) mc)
          (or_else (group_epoch ev) (field_u64 detail "epoch"))
  end.

(** ** Lines of [key=value] tokens *)

Definition render_fields (fs : list (string * string)) (tail : string) : string :=
  foldr (λ kv s, kv.1 +:+ "=" +:+ kv.2 +:+ " " +:+ s) tail fs.

Fixpoint assoc (key : string) (fs : list (string * string)) : option string :=
  match fs with
  | [] => None
  | (k, v) :: rest => if String.eqb key k then Some v else assoc key rest
  end.

(** Keys and values that survive the tokenisation. *)
Definition good_field (kv : string * string) : bool :=
  no_space kv.1 && char_free "=" kv.1 && no_space kv.2 && char_free quote_char kv.2.

Lemma string_app_eq_empty (s t : string) : s +:+ String "=" t ≠ "".
Proof. by destruct s. Qed.

Lemma split_render fs tail :
  forallb good_field fs →
  split_whitespace (render_fields fs tail)
  = ((λ kv, kv.1 +:+ "=" +:+ kv.2) <$> fs) ++ split_whitespace tail.
Proof.
  induction fs as [|[k v] fs IH]; [done|]. cbn [forallb render_fields foldr fst snd].
  intros [Hg Hfs]%andb_prop_elim. unfold good_field in Hg. simpl in Hg.
  apply andb_prop_elim in Hg as [Hg Hq]. apply andb_prop_elim in Hg as [Hg Hv].
  apply andb_prop_elim in Hg as [Hk Heq].
  rewrite <-!string_app_assoc. rewrite (string_app_assoc _ " ").
  change (" " +:+ ?x) with (String " " x). rewrite split_whitespace_token.
  - cbn [fmap list_fmap app fst snd]. rewrite <-(IH Hfs). by rewrite string_app_assoc.
  - rewrite !no_space_app. by rewrite !Is_true_true in *; rewrite Hk, Hv.
  - rewrite string_app_assoc. apply string_app_eq_empty.
Qed.

Lemma strip_key key k v :
  char_free "=" key → char_free "=" k →
  strip_prefix (key +:+ "=") (k +:+ "=" +:+ v) = if String.eqb key k then Some v else None.
Proof.
  intros Hkey Hk. destruct (String.eqb_spec key k) as [->|Hne].
  - rewrite <-string_app_assoc. apply strip_prefix_app.
  - destruct (strip_prefix _ _) as [t|] eqn:E; [|done].
    apply strip_prefix_Some in E. rewrite string_app_assoc in E.
    destruct (split_at_char "=" k key v t) as [-> _]; [done..|]. done.
Qed.

Lemma field_of_tokens_render key fs rest v :
  char_free "=" key → forallb good_field fs → assoc key fs = Some v →
  field_of_tokens (key +:+ "=") (((λ kv, kv.1 +:+ "=" +:+ kv.2) <$> fs) ++ rest) = Some v.
Proof.
  intros Hkey. induction fs as [|[k u] fs IH]; [done|]. cbn [forallb assoc fmap list_fmap app].
  intros [Hg Hfs]%andb_prop_elim Ha. unfold good_field in Hg. simpl in Hg.
  apply andb_prop_elim in Hg as [Hg Hq]. apply andb_prop_elim in Hg as [Hg _].
  apply andb_prop_elim in Hg as [_ Hk]. cbn [field_of_tokens fst snd].
  rewrite (strip_key key k u Hkey Hk). destruct (String.eqb key k); [|by apply IH].
  simplify_eq. by rewrite trim_matches_free.
Qed.

Lemma field_of_tokens_skip key ws rest :
  Forall (λ w, Is_true (char_free "=" w)) ws →
  field_of_tokens (key +:+ "=") (ws ++ rest) = field_of_tokens (key +:+ "=") rest.
Proof.
  induction 1 as [|w ws Hw Hws IH]; [done|]. simpl.
  destruct (strip_prefix _ _) as [t|] eqn:E; [|done].
  apply strip_prefix_Some in E. subst w.
  rewrite !char_free_app in Hw. destruct (char_free "=" key); destruct Hw.
Qed.

(** Reading a field of a rendered line, after a text without an equals sign. *)
Lemma app_heap_field_render pre key fs tail v :
  char_free "=" pre → char_free "=" key → forallb good_field fs → assoc key fs = Some v →
  app_heap_field (pre +:+ String " " (render_fields fs tail)) key = Some v.
Proof.
  intros Hpre Hkey Hfs Ha. unfold app_heap_field.
  rewrite split_whitespace_app, split_render by done.
  rewrite field_of_tokens_skip by (by apply split_whitespace_char_free).
  by apply field_of_tokens_render.
Qed.

(** The fields of the worker's message. *)
Definition message_fields (f : HeapBudgetFailure) : list (string * string) :=
  let a := attribution f in
  let s := snapshot_of f in
  [("failure_class", "app_heap_budget_exceeded"); ("memory_model", "app-heap-budget");
   ("operation_family", operation_family a);
   ("benchmark_operation", benchmark_operation a); ("span_or_phase", span_or_phase a);
   ("member_count", shown (member_count a)); ("epoch", shown (epoch a));
   ("worker_id", worker_id a); ("resource_profile_id", resource_profile_id a);
   ("resource_profile_index", shown (resource_profile_index a));
   ("app_heap_budget", app_heap_budget a);
   ("app_heap_budget_bytes", pretty (app_heap_budget_bytes a));
   ("configured_heap_budget_bytes", pretty (configured_heap_budget_bytes s));
   ("current_live_heap_bytes", pretty (failure_current_live (snap_failure s)));
   ("peak_live_heap_bytes", pretty (failure_peak_live (snap_failure s)));
   ("operation_peak_live_heap_bytes", pretty (failure_operation_peak (snap_failure s)));
   ("total_allocated_bytes", pretty (failure_total_allocated (snap_failure s)));
   ("allocation_count", pretty (failure_allocation_count (snap_failure s)));
   ("deallocation_count", pretty (failure_deallocation_count (snap_failure s)));
   ("failed_allocation_size_bytes", shown (failed_allocation_size_bytes s));
   ("failure_span_id", shown (snap_failure_span_id s));
   ("heap_failure_context", as_str (snap_failure_context s))].

Lemma message_render f :
  to_worker_error_message f
  = "APP_HEAP_BUDGET_EXCEEDED " +:+ render_fields (message_fields f)
      ("detail=" +:+ quote +:+ replace_char quote_char "'" (human_detail f) +:+ quote).
Proof. reflexivity. Qed.

Lemma message_marked f :
  contains "APP_HEAP_BUDGET_EXCEEDED" (" " +:+ to_worker_error_message f) = true.
Proof. reflexivity. Qed.

(** The attribution's texts have no space and no quote. *)
Definition plain (s : string) : bool := no_space s && char_free quote_char s.

Definition plain_attribution (a : OperationAttribution) : bool :=
  forallb plain [operation_family a; benchmark_operation a; span_or_phase a; worker_id a;
                 resource_profile_id a; app_heap_budget a].

Lemma pretty_plain (n : N) : plain (pretty n).
Proof.
  apply andb_prop_intro. split; [apply no_space_pretty|by apply pretty_char_free].
Qed.

Lemma shown_plain o : plain (shown o).
Proof. destruct o; [apply pretty_plain|done]. Qed.

Lemma good_field_plain k v : no_space k → char_free "=" k → plain v → good_field (k, v).
Proof.
  intros H1 H2 [H3 H4]%andb_prop_elim. unfold good_field. simpl.
  rewrite !Is_true_true in *. by rewrite H1, H2, H3, H4.
Qed.

Lemma message_fields_good f :
  plain_attribution (attribution f) → forallb good_field (message_fields f).
Proof.
  intros Hp. unfold plain_attribution in Hp. cbn [forallb] in Hp.
  repeat (apply andb_prop_elim in Hp as [? Hp]).
  apply forallb_True. unfold message_fields.
  repeat (apply Forall_cons; split); [apply good_field_plain; try done..|apply Forall_nil_2];
    try apply pretty_plain; try apply shown_plain.
  by destruct (snap_failure_context _).
Qed.

Lemma parse_shown o :
  match o with Some n => n <= u64_max | None => True end → parse_u64 (shown o) = o.
Proof. destruct o; [apply parse_pretty|done]. Qed.

(** Every number of the report fits its machine width. *)
Definition fits (f : HeapBudgetFailure) : bool :=
  let s := snapshot_of f in
  let a := attribution f in
  forallb (λ n, n <=? u64_max)
    [app_heap_budget_bytes a; failure_current_live (snap_failure s);
     failure_peak_live (snap_failure s); failure_operation_peak (snap_failure s);
     failure_total_allocated (snap_failure s); failure_allocation_count (snap_failure s);
     failure_deallocation_count (snap_failure s);
     default 0 (failed_allocation_size_bytes s); default 0 (snap_failure_span_id s);
     default 0 (member_count a); default 0 (epoch a)].

Lemma parse_shown_default o : default 0 o <=? u64_max → parse_u64 (shown o) = o.
Proof. intros H. apply parse_shown. destruct o; [|done]. apply Is_true_true in H. by apply N.leb_le. Qed.

Lemma parse_pretty_leb n : n <=? u64_max → parse_u64 (pretty n) = Some n.
Proof. intros H. apply parse_pretty. apply Is_true_true in H. by apply N.leb_le. Qed.

(** ** Memory sizes *)

Lemma parse_memory_digits digits u :
  all_digits digits → digits ≠ "" → no_space u →
  (match u with String c _ => is_digit c = false | EmptyString => True end) →
  parse_memory_to_bytes (digits +:+ u)
  = let! value <- parse_u64 digits in
    let! multiplier <- unit_multiplier (to_ascii_lowercase u) in
    checked_mul64 value multiplier.
Proof.
  intros Hd Hne Hu Hc. unfold parse_memory_to_bytes.
  assert (Ht : trim (digits +:+ u) = digits +:+ u).
  { apply trim_no_space. rewrite no_space_app. apply andb_prop_intro.
    split; [by apply digits_no_space|done]. }
  rewrite Ht, span_string_app by done. by destruct digits.
Qed.

(** ** Properties *)

(** C12: What the worker writes the runner reads: for a failure whose texts contain
    neither spaces nor quotes, reported after any text without an equals sign (the
    error context the transport adds), the runner's event gets back every figure of
    the report - live, peak, totals, the failing allocation, its context and span,
    the member count and the epoch - and keeps the fields it already had where the
    code says so. *)
Theorem failure_report_roundtrip (f : HeapBudgetFailure) (ev : HeapEventFields) (pre : string)
    (Hplain : plain_attribution (attribution f)) (Hfits : fits f) (Hpre : char_free "=" pre)
    (Hdetail : failure_detail ev = Some (pre +:+ " " +:+ to_worker_error_message f)) :
  let a := attribution f in
  let s := snapshot_of f in
  let r := snap_failure s in
  apply_app_heap_budget_failure_fields ev
  = MkHeapEventFields (failure_detail ev) (Some "app-heap-budget") (Some (app_heap_budget a))
      (Some (app_heap_budget_bytes a)) (Some (failure_current_live r))
      (Some (failure_peak_live r)) (Some (failure_operation_peak r))
      (Some (failure_total_allocated r)) (Some (failure_allocation_count r))
      (Some (failure_deallocation_count r)) (failed_allocation_size_bytes s)
      (Some (as_str (snap_failure_context s))) (snap_failure_span_id s)
      (or_else (ev_operation_family ev) (Some (operation_family a)))
      (or_else (member_count a) (ev_member_count ev))
      (or_else (member_count_before ev) (member_count a))
      (or_else (group_epoch ev) (epoch a)).
Proof.
  unfold apply_app_heap_budget_failure_fields. rewrite Hdetail.
  rewrite (contains_app _ pre _ (message_marked f)).
  cbn [negb]. unfold fits in Hfits. cbn [forallb] in Hfits.
  repeat (apply andb_prop_elim in Hfits as [? Hfits]).
  assert (Hread : ∀ key v, char_free "=" key → assoc key (message_fields f) = Some v →
    app_heap_field (pre +:+ " " +:+ to_worker_error_message f) key = Some v).
  { intros key v Hkey Ha. rewrite message_render.
    set (fields := render_fields _ _).
    change (" " +:+ "APP_HEAP_BUDGET_EXCEEDED " +:+ fields)
      with (" APP_HEAP_BUDGET_EXCEEDED" +:+ String " " fields).
    rewrite <-string_app_assoc.
    apply app_heap_field_render; try done.
    - rewrite char_free_app. apply andb_prop_intro. by split.
    - by apply message_fields_good. }
  unfold field_u64. repeat (erewrite Hread; [|exact I|reflexivity]).
  by rewrite !parse_pretty_leb, !parse_shown_default by done.
Qed.

Lemma failure_report_roundtrip_witness :
  let a := MkAttribution "commit_receive" "add" "ReceiveCommit" (Some 12) None "00007" "p1"
             (Some 1) "32k" 32768 in
  let t := heap_run (HeapTracker.begin_operation (configure_budget initial (Some 32768)))
             [EvSpan (Some 3); EvAlloc 40000] in
  let f := MkFailure a (snapshot t) in
  let ev := MkHeapEventFields (Some ("worker error:" +:+ " " +:+ to_worker_error_message f))
              None None None None None None None None None None None None None None None
              (Some 4) in
  (plain_attribution (attribution f) ∧ fits f ∧ char_free "=" "worker error:")
  ∧ apply_app_heap_budget_failure_fields ev
    = MkHeapEventFields (failure_detail ev) (Some "app-heap-budget") (Some "32k")
        (Some 32768) (Some 40000) (Some 40000) (Some 40000) (Some 40000) (Some 1) (Some 0)
        (Some 40000) (Some "operation_entry") (Some 3) (Some "commit_receive") (Some 12)
        (Some 12) (Some 4).
Proof.
  intros a t f ev. split; [by vm_compute|].
  etrans; [apply (failure_report_roundtrip f ev "worker error:"); by vm_compute|].
  by vm_compute.
Defined.

Lemma parse_memory_size (n : N) (u : string) :
  no_space u → match u with String c _ => is_digit c = false | EmptyString => True end →
  parse_memory_to_bytes (pretty n +:+ u)
  = let! multiplier <- unit_multiplier (to_ascii_lowercase u) in
    if (n <=? u64_max) && (n * multiplier <=? u64_max) then Some (n * multiplier) else None.
Proof.
  intros Hspace Hunit. destruct (pretty_digits n) as [Hd Hne].
  rewrite parse_memory_digits by done.
  destruct (N.leb_spec n u64_max) as [Hn|Hn].
  - unfold parse_u64. rewrite parse_pretty by done. done.
  - unfold parse_u64. rewrite parse_pretty_overflow by done. by destruct (unit_multiplier _).
Qed.

(** The documented spellings of a unit, and the power of 1024 each stands for. *)
Definition unit_prefix (letter : string) (k : N) : Prop :=
  letter = "k" ∧ k = 1 ∨ letter = "m" ∧ k = 2 ∨ letter = "g" ∧ k = 3.

Definition unit_spelling (u : string) (k : N) : Prop :=
  (u = "" ∨ u = "b") ∧ k = 0
  ∨ ∃ letter, unit_prefix letter k
      ∧ (u = letter ∨ u = letter +:+ "b" ∨ u = letter +:+ "ib").

Lemma unit_multiplier_spelling u m :
  unit_multiplier u = Some m ↔ ∃ k, unit_spelling u k ∧ m = 1024 ^ k.
Proof.
  unfold unit_multiplier, unit_spelling, unit_prefix. split.
  - case_bool_decide as H0; [|case_bool_decide as H1; [|case_bool_decide as H2;
      [|case_bool_decide as H3; [|done]]]]; intros Hm; apply (inj Some) in Hm; subst m.
    + exists 0. set_unfold in H0. naive_solver.
    + exists 1. set_unfold in H1. split; [right; exists "k"; naive_solver|done].
    + exists 2. set_unfold in H2. split; [right; exists "m"; naive_solver|done].
    + exists 3. set_unfold in H3. split; [right; exists "g"; naive_solver|done].
  - intros (k & Hk & ->).
    destruct Hk as [[[-> | ->] ->]|(l & Hl & Hu)]; [done..|].
    destruct Hl as [[-> ->]|[[-> ->]|[-> ->]]]; destruct Hu as [-> | [-> | ->]]; done.
Qed.

(** A memory size written as decimal digits and a unit, in any letter case, is
    the number times the unit's power of 1024, rejected when the number or the
    product does not fit 64 bits; a unit without a known spelling is rejected. *)
Theorem memory_size_parsing (n : N) (u : string)
    (Hspace : no_space u)
    (Hunit : match u with String c _ => is_digit c = false | EmptyString => True end) :
  (∀ k, unit_spelling (to_ascii_lowercase u) k →
     parse_memory_to_bytes (pretty n +:+ u)
     = if (n <=? u64_max) && (n * 1024 ^ k <=? u64_max) then Some (n * 1024 ^ k) else None)
  ∧ ((∀ k, ¬ unit_spelling (to_ascii_lowercase u) k) →
     parse_memory_to_bytes (pretty n +:+ u) = None).
Proof.
  rewrite parse_memory_size by done. split.
  - intros k Hk. by rewrite (proj2 (unit_multiplier_spelling _ (1024 ^ k))) by eauto.
  - intros Hk. destruct (unit_multiplier _) as [m|] eqn:E; [|done].
    apply unit_multiplier_spelling in E as (k & Hk' & _). by destruct (Hk k).
Qed.

Lemma memory_size_parsing_witness :
  (Is_true (no_space "KiB") ∧ is_digit "K" = false)
  ∧ parse_memory_to_bytes ("64" +:+ "KiB") = Some 65536.
Proof.
  split; [done|].
  etrans; [apply (proj1 (memory_size_parsing 64 "KiB" I eq_refl) 1)|by vm_compute].
  right. exists "k". split; [by left|]. by do 2 right.
Defined.

(** End to end: the worker configured from its environment hands out a budget
    guard exactly when the configuration is enabled, the tracker then runs with the
    configured budget, and the operation is reported as failed exactly when some
    allocation took the bytes allocated since configuration over that budget. *)
Theorem worker_reports_violations (env : string → option string) (t : Tracker)
    (a : OperationAttribution) (evs : list heap_event)
    (Hactive : active_operations t < u64_max)
    (Hlive : current_live t + alloc_sum evs <= u64_max) :
  let '(t0, cfg) := configure_from_env env t in
  let '(t1, guard) := begin_operation t0 a in
  (guard = None ↔ cfg_enabled cfg = false)
  ∧ (cfg_enabled cfg = true →
     budget_bytes t0 = cfg_app_heap_budget_bytes cfg
     ∧ (failure_if_exceeded (Mls.heap_run t1 evs) a = None ↔ first_violation t1 evs = None)).
Proof.
  unfold configure_from_env. set (budget := match _ with Some _ => _ | None => _ end).
  set (on := bool_decide _ && _). cbn [cfg_enabled cfg_app_heap_budget_bytes].
  assert (Hen : enabled (configure_budget t (if on then Some (default 0 budget) else None)) = on).
  { unfold enabled. simpl. destruct on eqn:Eon; [|done]. simpl.
    by apply andb_prop in Eon as [_ ?]. }
  set (t0 := configure_budget _ _) in *.
  unfold begin_operation. rewrite Hen. destruct on; cbn [negb]; [|done].
  assert (Hst : accounted_live_bytes t0 = 0)
    by (unfold accounted_live_bytes, saturating_sub; simpl; lia).
  destruct (begin_within t0 Hen ltac:(lia)) as (Hb & Hbudget & Hc & Hf).
  pose proof (begin_in_operation t0 Hen Hactive) as Hop.
  destruct (Mls.begin_operation t0) as [t1 g]. simpl in Hb. subst t1.
  split; [done|]. intros _. split; [done|].
  unfold failure_if_exceeded. rewrite (mls_run_enabled evs)
    by (unfold enabled; by rewrite Hbudget).
  pose proof (first_violation_run evs _ Hop ltac:(by rewrite Hc) Hf) as Hr.
  simpl. destruct (first_violation _ _) as [[t' n]|].
  - destruct Hr as [-> _]. done.
  - by rewrite Hr.
Qed.

Lemma worker_reports_violations_witness :
  let env k := if String.eqb k "OPENMLS_MEMORY_MODEL" then Some "app-heap-budget"
               else if String.eqb k "OPENMLS_APP_HEAP_BUDGET" then Some "1k" else None in
  let a := MkAttribution "add_commit_create" "add" "" None None "1" "" None "1k" 1024 in
  (active_operations initial < u64_max
   ∧ current_live initial + alloc_sum [EvAlloc 2000] <= u64_max)
  ∧ let '(t0, cfg) := configure_from_env env initial in
    let '(t1, guard) := begin_operation t0 a in
    (guard = None ↔ cfg_enabled cfg = false)
    ∧ (cfg_enabled cfg = true →
       budget_bytes t0 = cfg_app_heap_budget_bytes cfg
       ∧ (failure_if_exceeded (Mls.heap_run t1 [EvAlloc 2000]) a = None
          ↔ first_violation t1 [EvAlloc 2000] = None)).
Proof.
  split; [by vm_compute|].
  apply (worker_reports_violations _ initial _ [EvAlloc 2000]); by vm_compute.
Defined.
