(* ===== verification/AllocCounter.v ===== *)
(** * The counting allocator

    [OpenMLS_containerized/allocation_counter/src/allocator.rs] and [lib.rs]: every
    allocation of a thread is charged to the top frame of a stack of at most 64
    measurement frames, [measure] pushes a frame around a computation and adds it to
    its parent, [opt_out] suspends the charging.  A measured computation is a
    [prog]: the allocations, deallocations and nested measurements it performs.
    Counters are [u64]/[i64] and wrap; a failed assertion is [None]. *)

From S2P Require Import Prelude HeapTracker.
From stdpp Require Import options.

Local Open Scope Z_scope.

Definition pow63 : Z := 9223372036854775808.
Definition wrap_u64 (x : Z) : Z := x mod (2 * pow63).
Definition wrap_i64 (x : Z) : Z := (x + pow63) mod (2 * pow63) - pow63.

Lemma wrap_u64_small x : 0 <= x < pow63 → wrap_u64 x = x.
Proof. intros. apply Z.mod_small. unfold pow63 in *. lia. Qed.

Lemma wrap_i64_small x : - pow63 < x < pow63 → wrap_i64 x = x.
Proof. intros. unfold wrap_i64. rewrite Z.mod_small by (unfold pow63 in *; lia). lia. Qed.

Record AllocationInfo := MkAllocationInfo {
  count_total : Z;
  count_current : Z;
  count_max : Z;
  bytes_total : Z;
  bytes_current : Z;
  bytes_max : Z;
}.

Definition default_info : AllocationInfo := MkAllocationInfo 0 0 0 0 0 0.

Definition add_assign (a b : AllocationInfo) : AllocationInfo :=
  MkAllocationInfo
    (wrap_u64 (count_total a + count_total b)) (wrap_i64 (count_current a + count_current b))
    (wrap_u64 (count_max a + count_max b))
    (wrap_u64 (bytes_total a + bytes_total b)) (wrap_i64 (bytes_current a + bytes_current b))
    (wrap_u64 (bytes_max a + bytes_max b)).

Definition MAX_DEPTH : nat := 64.

(** The process-wide counters, the budget tracker, and the thread's stack. *)
Record Counter := MkCounter {
  tracker : Tracker;
  process_count : N;
  process_bytes : N;
  depth : nat;
  elements : list AllocationInfo;
  do_count : N;
}.

Definition initial_counter : Counter :=
  MkCounter initial 0 0 0 (replicate MAX_DEPTH default_info) 0.

Record ProcessAllocationSnapshot := MkProcessSnapshot {
  snap_count_total : N;
  snap_bytes_total : N;
}.

Definition process_snapshot (c : Counter) : ProcessAllocationSnapshot :=
  MkProcessSnapshot (process_count c) (process_bytes c).

Definition delta_since (s earlier : ProcessAllocationSnapshot) : ProcessAllocationSnapshot :=
  MkProcessSnapshot (saturating_sub (snap_count_total s) (snap_count_total earlier))
    (saturating_sub (snap_bytes_total s) (snap_bytes_total earlier)).

Definition bump_alloc (size : N) (info : AllocationInfo) : AllocationInfo :=
  let count_current' := wrap_i64 (count_current info + 1) in
  let bytes_current' := wrap_i64 (bytes_current info + Z.of_N size) in
  MkAllocationInfo
    (wrap_u64 (count_total info + 1)) count_current'
    (Z.max (count_max info) (Z.max count_current' 0))
    (wrap_u64 (bytes_total info + Z.of_N size)) bytes_current'
    (Z.max (bytes_max info) (Z.max bytes_current' 0)).

Definition bump_dealloc (size : N) (info : AllocationInfo) : AllocationInfo :=
  MkAllocationInfo (count_total info) (wrap_i64 (count_current info - 1)) (count_max info)
    (bytes_total info) (wrap_i64 (bytes_current info - Z.of_N size)) (bytes_max info).

Definition charge (f : AllocationInfo → AllocationInfo) (c : Counter) : list AllocationInfo :=
  if (do_count c =? 0)%N then alter f (depth c) (elements c) else elements c.

(** [GlobalAlloc::alloc]: [ok] says whether the system allocator succeeded. *)
Definition alloc (c : Counter) (size : N) (ok : bool) : Counter :=
  if ok then
    MkCounter (Mls.record_alloc (tracker c) size) (wrap64 (process_count c + 1))
      (wrap64 (process_bytes c + size)) (depth c) (charge (bump_alloc size) c) (do_count c)
  else c.

Definition dealloc (c : Counter) (size : N) : Counter :=
  MkCounter (Mls.record_dealloc (tracker c) size) (process_count c) (process_bytes c)
    (depth c) (charge (bump_dealloc size) c) (do_count c).

(** [measure], before the measured computation. *)
Definition measure_begin (c : Counter) : option Counter :=
  if (S (depth c) <? MAX_DEPTH)%nat then
    Some (MkCounter (tracker c) (process_count c) (process_bytes c) (S (depth c))
            (<[S (depth c) := default_info]> (elements c)) (do_count c))
  else None.

(** [measure], after it. *)
Definition measure_end (c : Counter) : Counter * AllocationInfo :=
  let popped := default default_info (elements c !! depth c) in
  let d := pred (depth c) in
  (MkCounter (tracker c) (process_count c) (process_bytes c) d
     (alter (λ i, add_assign i popped) d (elements c)) (do_count c), popped).

Definition with_do_count (c : Counter) (n : N) : Counter :=
  MkCounter (tracker c) (process_count c) (process_bytes c) (depth c) (elements c) n.

Definition wrap32 (n : N) : N := (n mod 4294967296)%N.

Inductive prog :=
| PSkip
| PAlloc (size : N) (ok : bool)
| PDealloc (size : N)
| PSeq (p q : prog)
| PMeasure (p : prog)
| POptOut (p : prog).

Fixpoint exec (p : prog) (c : Counter) : option Counter :=
  match p with
  | PSkip => Some c
  | PAlloc n ok => Some (alloc c n ok)
  | PDealloc n => Some (dealloc c n)
  | PSeq p q => let! c1 <- exec p c in exec q c1
  | PMeasure p =>
      let! c1 <- measure_begin c in
      let! c2 <- exec p c1 in
      Some (measure_end c2).1
  | POptOut p =>
      let! c1 <- exec p (with_do_count c (wrap32 (do_count c + 1))) in
      Some (with_do_count c1 (wrap32 (do_count c1 + (4294967296 - 1))))
  end.

(** [measure(|| p)] *)
Definition measure (p : prog) (c : Counter) : option (Counter * AllocationInfo) :=
  let! c1 <- measure_begin c in
  let! c2 <- exec p c1 in
  Some (measure_end c2).

(** ** What a frame accumulates *)

Fixpoint frame (counting : bool) (p : prog) (info : AllocationInfo) : AllocationInfo :=
  match p with
  | PSkip => info
  | PAlloc n ok => if ok && counting then bump_alloc n info else info
  | PDealloc n => if counting then bump_dealloc n info else info
  | PSeq p q => frame counting q (frame counting p info)
  | PMeasure p => add_assign info (frame counting p default_info)
  | POptOut p => frame false p info
  end.

Fixpoint measure_nesting (p : prog) : nat :=
  match p with
  | PSeq p q => measure_nesting p `max` measure_nesting q
  | PMeasure p => S (measure_nesting p)
  | POptOut p => measure_nesting p
  | _ => 0
  end.

Fixpoint opt_out_nesting (p : prog) : N :=
  match p with
  | PSeq p q => opt_out_nesting p `max` opt_out_nesting q
  | PMeasure p => opt_out_nesting p
  | POptOut p => opt_out_nesting p + 1
  | _ => 0
  end%N.

(** Every allocation counts for the process, measured or not. *)
Fixpoint process_allocs (p : prog) (acc : N * N) : N * N :=
  match p with
  | PAlloc n ok => if ok then (wrap64 (acc.1 + 1), wrap64 (acc.2 + n)) else acc
  | PSeq p q => process_allocs q (process_allocs p acc)
  | PMeasure p | POptOut p => process_allocs p acc
  | _ => acc
  end.

Record effect_on (p : prog) (c c' : Counter) : Prop := {
  eff_depth : depth c' = depth c;
  eff_length : length (elements c') = length (elements c);
  eff_do_count : do_count c' = do_count c;
  eff_process : (process_count c', process_bytes c')
                = process_allocs p (process_count c, process_bytes c);
  eff_frame : elements c' !! depth c
              = frame (do_count c =? 0)%N p <$> elements c !! depth c;
  eff_below : ∀ i, (i < depth c)%nat → elements c' !! i = elements c !! i;
}.

Lemma charge_effect c f :
  charge f c !! depth c = (if (do_count c =? 0)%N then f <$> elements c !! depth c
                           else elements c !! depth c)
  ∧ (∀ i, (i < depth c)%nat → charge f c !! i = elements c !! i)
  ∧ length (charge f c) = length (elements c).
Proof.
  unfold charge. case_match; [|done]. split_and!.
  - apply list_lookup_alter_eq.
  - intros i Hi. apply list_lookup_alter_ne. lia.
  - apply length_alter.
Qed.

Lemma wrap32_opt n : (n + 1 < 4294967296)%N →
  wrap32 (n + 1) = (n + 1)%N ∧ wrap32 (n + 1 + (4294967296 - 1)) = n.
Proof.
  intros Hn. unfold wrap32. split; [by apply N.mod_small|].
  replace (n + 1 + (4294967296 - 1))%N with (n + 1 * 4294967296)%N by lia.
  rewrite N.Div0.mod_add. apply N.mod_small. lia.
Qed.

Lemma exec_effect p : ∀ c,
  length (elements c) = MAX_DEPTH →
  (depth c + measure_nesting p < MAX_DEPTH)%nat →
  (do_count c + opt_out_nesting p < 4294967296)%N →
  ∃ c', exec p c = Some c' ∧ effect_on p c c'.
Proof.
  induction p as [|n ok|n|p IHp q IHq|p IH|p IH]; intros c Hlen Hd Ho;
    cbn [exec measure_nesting opt_out_nesting] in *.
  - eexists. split; [done|]. split; try done. simpl. by destruct (elements c !! depth c).
  - eexists. split; [done|]. unfold alloc. destruct ok.
    + destruct (charge_effect c (bump_alloc n)) as (H1 & H2 & H3).
      split; simpl; try done. rewrite H1. case_match; [done|].
      by destruct (elements c !! depth c).
    + split; simpl; try done. by destruct (elements c !! depth c).
  - eexists. split; [done|]. unfold dealloc.
    destruct (charge_effect c (bump_dealloc n)) as (H1 & H2 & H3).
    split; simpl; try done. rewrite H1. case_match; [done|]. by destruct (elements c !! depth c).
  - destruct (IHp c) as (c1 & -> & [P1 P2 P3 P4 P5 P6]); [done|lia|lia|].
    destruct (IHq c1) as (c2 & -> & [Q1 Q2 Q3 Q4 Q5 Q6]); [by rewrite P2|lia|lia|].
    eexists. split; [done|]. split; try congruence.
    + rewrite Q4, P4. done.
    + rewrite <-P1, Q5, P1, P5, P3. by destruct (elements c !! depth c).
    + intros i Hi. rewrite Q6 by lia. by apply P6.
  - unfold measure_begin. destruct (Nat.ltb_spec (S (depth c)) MAX_DEPTH) as [Hlt|]; [|lia].
    set (c1 := MkCounter _ _ _ _ _ _).
    destruct (IH c1) as (c2 & Hex & [P1 P2 P3 P4 P5 P6]);
      [by simpl; rewrite length_insert|simpl; lia|done|].
    rewrite Hex. eexists. split; [done|].
    simpl in P1, P2, P3, P4, P5, P6. rewrite length_insert in P2.
    rewrite list_lookup_insert_eq in P5 by lia. simpl in P5.
    unfold measure_end. split; simpl; rewrite ?P1; try done.
    + by rewrite length_alter.
    + simpl. rewrite list_lookup_alter_eq, P5, P6, list_lookup_insert_ne by lia. done.
    + intros i Hi. simpl. rewrite list_lookup_alter_ne, P6, list_lookup_insert_ne by lia. done.
  - destruct (wrap32_opt (do_count c)) as [W1 W2]; [lia|].
    destruct (IH (with_do_count c (wrap32 (do_count c + 1)))) as (c2 & Hex & [P1 P2 P3 P4 P5 P6]);
      [done|done|simpl; rewrite W1; lia|].
    rewrite Hex. eexists. split; [done|]. simpl in P1, P2, P3, P4, P5, P6.
    rewrite P3, W1, W2. split; try done. simpl. rewrite P5, W1.
    by destruct (N.eqb_spec (do_count c + 1) 0); [lia|].
Qed.

(** ** Totals and peaks, one lane (count or bytes) at a time *)

Record Lane := MkLane { total : Z; current : Z; peak : Z }.

Definition count_lane (i : AllocationInfo) : Lane :=
  MkLane (count_total i) (count_current i) (count_max i).
Definition bytes_lane (i : AllocationInfo) : Lane :=
  MkLane (bytes_total i) (bytes_current i) (bytes_max i).

Section lane.
Context (weight : N → Z) (weight_nonneg : ∀ n, 0 <= weight n).
Context (lane : AllocationInfo → Lane).

(** Sums over the counted allocations and deallocations of a computation. *)
Fixpoint allocated (counting : bool) (p : prog) : Z :=
  match p with
  | PAlloc n ok => if ok && counting then weight n else 0
  | PSeq p q => allocated counting p + allocated counting q
  | PMeasure p => allocated counting p
  | POptOut p => allocated false p
  | _ => 0
  end.

Fixpoint balance (counting : bool) (p : prog) : Z :=
  match p with
  | PAlloc n ok => if ok && counting then weight n else 0
  | PDealloc n => if counting then - weight n else 0
  | PSeq p q => balance counting p + balance counting q
  | PMeasure p => balance counting p
  | POptOut p => balance false p
  | _ => 0
  end.

(** The highest balance reached on the way. *)
Fixpoint true_peak (counting : bool) (p : prog) : Z :=
  match p with
  | PAlloc n ok => if ok && counting then weight n else 0
  | PSeq p q => Z.max (true_peak counting p) (balance counting p + true_peak counting q)
  | PMeasure p => true_peak counting p
  | POptOut p => true_peak false p
  | _ => 0
  end.

Fixpoint volume (p : prog) : Z :=
  match p with
  | PAlloc n _ | PDealloc n => weight n
  | PSeq p q => volume p + volume q
  | PMeasure p | POptOut p => volume p
  | PSkip => 0
  end.

(** How the three operations act on the lane. *)
Definition lane_laws : Prop :=
  lane default_info = MkLane 0 0 0
  ∧ (∀ i n, let l := lane i in let c := wrap_i64 (current l + weight n) in
       lane (bump_alloc n i)
       = MkLane (wrap_u64 (total l + weight n)) c (Z.max (peak l) (Z.max c 0)))
  ∧ (∀ i n, let l := lane i in
       lane (bump_dealloc n i) = MkLane (total l) (wrap_i64 (current l - weight n)) (peak l))
  ∧ (∀ i j, lane (add_assign i j)
       = MkLane (wrap_u64 (total (lane i) + total (lane j)))
           (wrap_i64 (current (lane i) + current (lane j)))
           (wrap_u64 (peak (lane i) + peak (lane j)))).

Lemma volume_bounds b p :
  0 <= volume p ∧ 0 <= allocated b p <= volume p
  ∧ - volume p <= balance b p <= allocated b p
  ∧ 0 <= true_peak b p <= allocated b p ∧ balance b p <= true_peak b p.
Proof using weight_nonneg.
  revert b. induction p as [|n ok|n|p IHp q IHq|p IH|p IH]; intros b; simpl; try lia; auto.
  - pose proof (weight_nonneg n). destruct (ok && b); lia.
  - pose proof (weight_nonneg n). destruct b; lia.
  - specialize (IHp b). specialize (IHq b). lia.
Qed.

Definition lane_ok (v : Z) (l : Lane) : Prop :=
  0 <= peak l <= total l ∧ current l <= total l ∧ current l <= peak l
  ∧ total l + v < pow63 ∧ - pow63 < current l - v.

Lemma frame_lane (Hlaws : lane_laws) p : ∀ b i,
  lane_ok (volume p) (lane i) →
  let l := lane i in
  let l' := lane (frame b p i) in
  total l' = total l + allocated b p
  ∧ current l' = current l + balance b p
  ∧ peak l <= peak l' <= peak l + allocated b p
  ∧ current l + true_peak b p <= peak l'.
Proof using weight_nonneg.
  destruct Hlaws as (L0 & LA & LD & LP).
  induction p as [|n ok|n|p IHp q IHq|p IH|p IH]; intros b i Hok; unfold lane_ok in Hok; simpl in *.
  - lia.
  - pose proof (weight_nonneg n). destruct (ok && b); [|lia]. rewrite LA. simpl.
    rewrite wrap_u64_small, wrap_i64_small by lia. lia.
  - pose proof (weight_nonneg n). destruct b; [|lia]. rewrite LD. simpl.
    rewrite wrap_i64_small by lia. lia.
  - pose proof (volume_bounds b p). pose proof (volume_bounds b q).
    destruct (IHp b i) as (P1 & P2 & P3 & P4); [unfold lane_ok; lia|].
    destruct (IHq b (frame b p i)) as (Q1 & Q2 & Q3 & Q4); [unfold lane_ok; lia|]. lia.
  - pose proof (volume_bounds b p).
    destruct (IH b default_info) as (P1 & P2 & P3 & P4); [unfold lane_ok; rewrite L0; simpl; lia|].
    rewrite L0 in P1, P2, P3, P4. simpl in *. rewrite LP. simpl.
    rewrite !wrap_u64_small, wrap_i64_small by lia. lia.
  - destruct (IH false i) as (P1 & P2 & P3 & P4); [done|].
    pose proof (volume_bounds false p). lia.
Qed.
End lane.

Lemma count_laws : lane_laws (λ _, 1) count_lane.
Proof. by split_and!. Qed.
Lemma bytes_laws : lane_laws Z.of_N bytes_lane.
Proof. by split_and!. Qed.

(** ** Properties *)

(** [measure] around any computation, nested measurements and opt-outs
    included: below the nesting limit it returns, restores the stack depth and every
    frame below the parent, adds its result to the parent frame, counts every
    allocation for the process, and (below 2^63 bytes) its totals and currents are
    exactly the allocated and live counts and bytes of the computation's counted
    part, while its maxima lie between the true peaks and the totals; at the limit
    the assertion fails before anything runs. *)
Theorem measure_reports (p : prog) (c : Counter)
    (Hlen : length (elements c) = MAX_DEPTH)
    (Hon : do_count c = 0%N) (Hopt : (opt_out_nesting p < 4294967296)%N)
    (Hbytes : volume Z.of_N p < pow63) (Hcount : volume (λ _, 1) p < pow63) :
  ((MAX_DEPTH <= S (depth c))%nat → measure p c = None)
  ∧ ((S (depth c) + measure_nesting p < MAX_DEPTH)%nat →
     ∃ c' info, measure p c = Some (c', info)
       ∧ depth c' = depth c ∧ do_count c' = 0%N
       ∧ (∀ i, (i < depth c)%nat → elements c' !! i = elements c !! i)
       ∧ elements c' !! depth c = (λ i, add_assign i info) <$> elements c !! depth c
       ∧ (process_count c', process_bytes c')
         = process_allocs p (process_count c, process_bytes c)
       ∧ count_total info = allocated (λ _, 1) true p
       ∧ count_current info = balance (λ _, 1) true p
       ∧ true_peak (λ _, 1) true p <= count_max info <= count_total info
       ∧ bytes_total info = allocated Z.of_N true p
       ∧ bytes_current info = balance Z.of_N true p
       ∧ true_peak Z.of_N true p <= bytes_max info <= bytes_total info).
Proof.
  unfold measure, measure_begin. destruct (Nat.ltb_spec (S (depth c)) MAX_DEPTH) as [Hlt|Hge];
    (split; [intros Hd|intros Hd]); try (simpl in *; lia); [|done].
  set (c1 := MkCounter _ _ _ _ _ _).
  destruct (exec_effect p c1) as (c2 & Hex & [P1 P2 P3 P4 P5 P6]);
    [by simpl; rewrite length_insert|done|simpl; rewrite Hon; lia|].
  rewrite Hex. unfold measure_end. do 2 eexists. split; [done|].
  simpl in P1, P2, P3, P4, P5, P6.
  rewrite list_lookup_insert_eq, Hon in P5 by lia. simpl in P5. rewrite P1. simpl. rewrite P5.
  destruct (frame_lane (λ _, 1) ltac:(lia) count_lane count_laws p true default_info)
    as (C1 & C2 & C3 & C4); [unfold lane_ok; simpl; lia|].
  destruct (frame_lane Z.of_N ltac:(lia) bytes_lane bytes_laws p true default_info)
    as (B1 & B2 & B3 & B4); [unfold lane_ok; simpl; lia|].
  simpl in *. split_and!; try done; try lia; try congruence.
  - intros i Hi. rewrite list_lookup_alter_ne, P6, list_lookup_insert_ne by lia. done.
  - rewrite list_lookup_alter_eq, P6, list_lookup_insert_ne by lia. done.
Qed.

Lemma measure_reports_witness :
  let p := PSeq (PAlloc 100 true)
             (PSeq (PMeasure (PSeq (PAlloc 40 true) (PDealloc 40)))
                (PSeq (POptOut (PAlloc 7 true)) (PDealloc 100))) in
  (length (elements initial_counter) = MAX_DEPTH ∧ (opt_out_nesting p < 4294967296)%N
   ∧ volume Z.of_N p < pow63 ∧ volume (λ _, 1) p < pow63
   ∧ (S (depth initial_counter) + measure_nesting p < MAX_DEPTH)%nat)
  ∧ ∃ c' info, measure p initial_counter = Some (c', info)
      ∧ bytes_total info = 140 ∧ bytes_current info = 0
      ∧ 140 <= bytes_max info <= 140 ∧ process_bytes c' = 147%N.
Proof.
  intros p. split; [split_and!; [reflexivity|reflexivity|reflexivity|reflexivity|simpl; unfold MAX_DEPTH; lia]|].
  destruct (measure_reports p initial_counter) as [_ H]; [done|done|done|done|done|].
  destruct H as (c' & info & H1 & H2 & H3 & H4 & H5 & H6 & H7 & H8 & H9 & H10 & H11 & H12);
    [simpl; unfold MAX_DEPTH; lia|].
  exists c', info. change (allocated Z.of_N true p) with 140 in *.
  change (true_peak Z.of_N true p) with 140 in *. change (balance Z.of_N true p) with 0 in *.
  split_and!; [done|done|done|lia|lia|]. by injection H6.
Defined.

(** The maxima of consecutive nested measurements are added, so [bytes_max] can
    exceed every number of bytes that was ever live. *)
Lemma nested_peaks_are_summed :
  let p := PMeasure (PSeq (PAlloc 10 true) (PDealloc 10)) in
  ∃ c info, measure (PSeq p p) initial_counter = Some (c, info)
    ∧ bytes_max info = 20 ∧ true_peak Z.of_N true (PSeq p p) = 10.
Proof. do 2 eexists. by vm_compute. Qed.
