(* ===== verification/RunnerConfig.v ===== *)
(** * The staircase runner's configuration

    The textual values of [OpenMLS_containerized/src/staircase_runner.rs]: step and
    payload sizes (an integer, a list, or a range [[min,max]]), plateau orders,
    failure policies, worker specifications, run identifiers, and
    [validate_config].  A parser returns the source's error message. *)

From S2P Require Import Prelude Text.
From stdpp Require Import options.

Local Open Scope N_scope.

(** ** Worker specifications *)

Inductive ContainerMode := Singleton | Packed.

#[export] Instance container_mode_eq_dec : EqDecision ContainerMode.
Proof. solve_decision. Defined.

Record WorkerSpec := MkWorkerSpec {
  id : string;
  url : string;
  command_url : string;
  health_url : string;
  physical_worker_id : string;
  container_mode : ContainerMode;
  profile_enabled : bool;
  device_kind : string;
}.

#[export] Instance worker_spec_eq_dec : EqDecision WorkerSpec.
Proof. solve_decision. Defined.

(** [trim_end_matches(c)] *)
Definition trim_end_matches (c : ascii) (s : string) : string :=
  rev_string (trim_start_char c (rev_string s)).

Definition legacy (id url : string) : WorkerSpec :=
  MkWorkerSpec id url (trim_end_matches "/" url +:+ "/command")
    (trim_end_matches "/" url +:+ "/health") id Singleton true "".

Definition parse_worker_spec (raw : string) : result string WorkerSpec :=
  let? (id, url) <- ok_or (split_once "=" raw)
                      ("Invalid worker '" +:+ raw +:+ "', expected ID=URL") in
  let id := trim id in
  let url := trim_end_matches "/" (trim url) in
  if String.eqb id "" then Err ("Worker id cannot be empty in '" +:+ raw +:+ "'")
  else if String.eqb url "" then Err ("Worker url cannot be empty in '" +:+ raw +:+ "'")
  else Ok (legacy id url).

Fixpoint parse_worker_specs_loop (workers : list WorkerSpec) (raw_specs : list string) :
    result string (list WorkerSpec) :=
  match raw_specs with
  | [] => Ok workers
  | raw :: rest =>
      let? spec <- parse_worker_spec raw in
      if existsb (λ w, String.eqb (id w) (id spec)) workers
      then Err ("Duplicate worker id '" +:+ id spec +:+ "'")
      else parse_worker_specs_loop (workers ++ [spec]) rest
  end.

Definition parse_worker_specs (raw_specs : list string) : result string (list WorkerSpec) :=
  let? workers <- parse_worker_specs_loop [] raw_specs in
  match workers with
  | [] => Err "At least one worker must be provided"
  | _ => Ok workers
  end.

Definition is_external_device (w : WorkerSpec) : bool :=
  negb (String.eqb (device_kind w) "") && negb (String.eqb (device_kind w) "scratch_container").

(** ** Failure policies and plateau orders *)

Inductive ProfiledFailurePolicy := StopOnProfiledFailure | RemoveAndContinue.

Definition policy_from_str (value : string) : result string ProfiledFailurePolicy :=
  if String.eqb value "stop-on-profiled-failure" then Ok StopOnProfiledFailure
  else if String.eqb value "remove-and-continue" then Ok RemoveAndContinue
  else Err ("invalid profiled failure policy '" +:+ value
            +:+ "'; expected stop-on-profiled-failure or remove-and-continue").

Definition policy_as_u8 (p : ProfiledFailurePolicy) : N :=
  match p with StopOnProfiledFailure => 0 | RemoveAndContinue => 1 end.

(** The process-wide [AtomicU8]. *)
Definition store_profiled_failure_policy (p : ProfiledFailurePolicy) : N := policy_as_u8 p.
Definition profiled_failure_policy (stored : N) : ProfiledFailurePolicy :=
  if stored =? policy_as_u8 RemoveAndContinue then RemoveAndContinue else StopOnProfiledFailure.

Definition should_continue_after_profiled_failure (failure_experiment_mode : bool) (stored : N) :
    bool :=
  failure_experiment_mode
  || match profiled_failure_policy stored with RemoveAndContinue => true | _ => false end.

Inductive PlateauOrder := Staircase | Ascending | Randomized.

#[export] Instance plateau_order_eq_dec : EqDecision PlateauOrder.
Proof. solve_decision. Defined.

Definition order_from_str (value : string) : result string PlateauOrder :=
  let v := to_ascii_lowercase (trim value) in
  if String.eqb v "staircase" then Ok Staircase
  else if String.eqb v "ascending" || String.eqb v "asc" then Ok Ascending
  else if String.eqb v "randomized" || String.eqb v "random" then Ok Randomized
  else Err ("--plateau-order expected 'staircase', 'ascending', or 'randomized', got '"
            +:+ v +:+ "'").

Definition order_to_string (o : PlateauOrder) : string :=
  match o with
  | Staircase => "staircase" | Ascending => "ascending" | Randomized => "randomized"
  end.

(** ** Integers and ranges *)

Definition parse_usize (value flag : string) : result string N :=
  let value := trim value in
  if String.eqb value "" then Err (flag +:+ " contains an empty integer")
  else ok_or (parse_unsigned u64_max value)
         (flag +:+ " expected an integer, got '" +:+ value +:+ "'").

(** [value[1..value.len() - 1]] *)
Definition inner (value : string) : string :=
  match value with
  | EmptyString => ""
  | String _ s => match rev_string s with EmptyString => "" | String _ r => rev_string r end
  end.

Definition starts_with (c : ascii) (s : string) : bool :=
  match s with String d _ => Ascii.eqb c d | EmptyString => false end.
Definition ends_with (c : ascii) (s : string) : bool := starts_with c (rev_string s).

Definition parse_uniform_range (value flag : string) : result string (option (N * N)) :=
  let value := trim value in
  if char_free "[" value && char_free "]" value then Ok None
  else if negb (starts_with "[" value && ends_with "]" value) then
    Err (flag +:+ " range must use [min,max], got '" +:+ value +:+ "'")
  else
    match split_char "," (inner value) with
    | [b0; b1] =>
        let? min <- parse_usize b0 flag in
        let? max <- parse_usize b1 flag in
        if max <? min then
          Err (flag +:+ " range minimum " +:+ pretty min +:+ " exceeds maximum " +:+ pretty max)
        else Ok (Some (min, max))
    | _ => Err (flag +:+ " range must contain exactly two integers, got '" +:+ value +:+ "'")
    end.

Definition print_range (min max : N) : string :=
  "[" +:+ pretty min +:+ "," +:+ pretty max +:+ "]".

(** ** Step sizes *)

Inductive StepSize :=
| FixedStep (step_size : N)
| StepRange (min max : N).

#[export] Instance step_size_eq_dec : EqDecision StepSize.
Proof. solve_decision. Defined.

Definition step_is_valid (s : StepSize) : bool :=
  match s with FixedStep n => 0 <? n | StepRange min _ => 0 <? min end.

Definition step_from_str (value : string) : result string StepSize :=
  let? range <- parse_uniform_range value "--step-size" in
  match range with
  | Some (min, max) =>
      if min =? 0 then Err "--step-size range minimum must be at least 1"
      else Ok (StepRange min max)
  | None =>
      let? step_size <- parse_usize value "--step-size" in
      if step_size =? 0 then Err "--step-size must be at least 1" else Ok (FixedStep step_size)
  end.

Definition step_to_string (s : StepSize) : string :=
  match s with FixedStep n => pretty n | StepRange min max => print_range min max end.

(** ** Payload sizes *)

Inductive PayloadSizes :=
| FixedSizes (sizes : list N)
| SizeRange (min max : N).

Definition payloads_is_empty (p : PayloadSizes) : bool :=
  match p with FixedSizes [] => true | _ => false end.

Definition source_count (p : PayloadSizes) : nat :=
  match p with FixedSizes sizes => length sizes | SizeRange _ _ => 1 end.

(** [collect::<Result<Vec<_>, _>>()] *)
Fixpoint collect {A E B} (f : A → result E B) (l : list A) : result E (list B) :=
  match l with
  | [] => Ok []
  | x :: l' => let? y <- f x in let? ys <- collect f l' in Ok (y :: ys)
  end.

Definition payloads_from_str (value : string) : result string PayloadSizes :=
  let? range <- parse_uniform_range value "--payload-sizes" in
  match range with
  | Some (min, max) => Ok (SizeRange min max)
  | None =>
      let? sizes <- collect (λ size, parse_usize size "--payload-sizes") (split_char "," value) in
      match sizes with
      | [] => Err "--payload-sizes requires at least one size"
      | _ => Ok (FixedSizes sizes)
      end
  end.

Definition payloads_to_string (p : PayloadSizes) : string :=
  match p with
  | FixedSizes sizes => join "," (pretty <$> sizes)
  | SizeRange min max => print_range min max
  end.

Inductive PayloadSizeSource :=
| FixedSource (size : N)
| RangeSource (min max : N).

Definition phase_label (s : PayloadSizeSource) : string :=
  match s with
  | FixedSource size => "payload " +:+ pretty size +:+ " B"
  | RangeSource min max => "payload range " +:+ print_range min max +:+ " B"
  end.

(** ** Run identifiers *)

Definition run_id_char (c : ascii) : bool :=
  let n := N_of_ascii c in
  is_digit c || ((65 <=? n) && (n <=? 90)) || ((97 <=? n) && (n <=? 122))
  || Ascii.eqb c "." || Ascii.eqb c "_" || Ascii.eqb c "-".

Fixpoint all_chars (p : ascii → bool) (s : string) : bool :=
  match s with EmptyString => true | String c s' => p c && all_chars p s' end.

Definition validate_run_id (run_id : string) : result string unit :=
  if String.eqb run_id "" then Err "Run ID must not be empty"
  else if String.eqb run_id "/" || String.eqb run_id "." || String.eqb run_id ".."
  then Err ("Run ID must not be '" +:+ run_id +:+ "'")
  else if negb (char_free "/" run_id) then Err "Run ID must not contain '/'"
  else if negb (all_chars run_id_char run_id)
  then Err ("Run ID must only contain [A-Za-z0-9._-], got '" +:+ run_id +:+ "'")
  else Ok tt.

(** ** The configuration *)

(** The fields of [StaircaseConfig] that [validate_config] and the planner read. *)
Record StaircaseConfig := MkStaircaseConfig {
  workers : list WorkerSpec;
  min_size : N;
  max_size : option N;
  step_size : StepSize;
  plateau_sizes : list N;
  plateau_order : PlateauOrder;
  roundtrips : N;
  payload_sizes : PayloadSizes;
  min_profiled_samples_per_operation : N;
  external_coverage_lane : bool;
  fill_tree_before_measure : bool;
  remove_rejoin : bool;
}.

(** [{:?}] of a [Vec<usize>] *)
Definition debug_list (l : list N) : string :=
  let fix go l :=
    match l with
    | [] => "" | [x] => pretty x | x :: l' => pretty x +:+ ", " +:+ go l'
    end in
  "[" +:+ go l +:+ "]".

(** [windows(2).any(|pair| pair[0] >= pair[1])] *)
Fixpoint not_increasing (l : list N) : bool :=
  match l with
  | x :: ((y :: _) as l') => (y <=? x) || not_increasing l'
  | _ => false
  end.

Definition validate_plateau_sizes (config : StaircaseConfig) (max_size : N) : result string unit :=
  match plateau_sizes config with
  | [] => Ok tt
  | (first :: _) as sizes =>
      if negb (bool_decide (plateau_order config = Ascending))
      then Err "--plateau-sizes requires --plateau-order ascending"
      else if existsb (λ size, size =? 0) sizes
      then Err "--plateau-sizes values must be at least 1"
      else if not_increasing sizes
      then Err ("--plateau-sizes must be strictly increasing; got " +:+ debug_list sizes)
      else if (first <? min_size config) || (max_size <? List.last sizes 0)
      then Err ("--plateau-sizes " +:+ debug_list sizes +:+ " must stay within --min-size "
                +:+ pretty (min_size config) +:+ " and --max-size " +:+ pretty max_size)
      else Ok tt
  end.

Definition validate_config (config : StaircaseConfig) (worker_count : N) : result string N :=
  if min_size config =? 0 then Err "--min-size must be at least 1"
  else if negb (step_is_valid (step_size config)) then Err "--step-size must be at least 1"
  else if roundtrips config =? 0 then Err "--roundtrips must be at least 1"
  else if payloads_is_empty (payload_sizes config)
  then Err "At least one payload size is required"
  else if (0 <? min_profiled_samples_per_operation config)
          && (negb (external_coverage_lane config)
              || negb (existsb (λ w, profile_enabled w && is_external_device w) (workers config)))
  then Err ("--min-external-samples-per-operation requires --external-coverage-lane and at "
            +:+ "least one profile-enabled external device")
  else if fill_tree_before_measure config && remove_rejoin config
  then Err ("--fill-tree-before-measure cannot be combined with --remove-rejoin "
            +:+ "(no update phase)")
  else if fill_tree_before_measure config && existsb is_external_device (workers config)
  then Err "--fill-tree-before-measure is not supported with external devices"
  else
    let max := default worker_count (max_size config) in
    if max =? 0 then Err "--max-size must be at least 1"
    else if worker_count <? max
    then Err ("--max-size " +:+ pretty max +:+ " exceeds number of supplied workers "
              +:+ pretty worker_count)
    else if max <? min_size config
    then Err ("--min-size " +:+ pretty (min_size config) +:+ " cannot exceed --max-size "
              +:+ pretty max)
    else let? _ <- validate_plateau_sizes config max in Ok max.

(** ** Lemmas *)

Lemma parse_usize_pretty n flag : n <= u64_max → parse_usize (pretty n) flag = Ok n.
Proof.
  intros Hn. unfold parse_usize. rewrite trim_no_space by apply no_space_pretty.
  destruct (pretty_digits n) as [_ Hne]. rewrite (proj2 (String.eqb_neq _ _) Hne).
  by rewrite parse_pretty.
Qed.

Lemma parse_usize_bound v flag n : parse_usize v flag = Ok n → n <= u64_max.
Proof.
  unfold parse_usize. case_match; [done|]. destruct (parse_unsigned _ _) eqn:E; [|done].
  intros [= <-]. by apply parse_unsigned_bound in E.
Qed.

Lemma inner_brackets s : inner ("[" +:+ s +:+ "]") = s.
Proof.
  change (inner ("[" +:+ s +:+ "]"))
    with (match rev_string (s +:+ "]") with EmptyString => "" | String _ r => rev_string r end).
  rewrite rev_string_app. simpl. apply rev_string_involutive.
Qed.

Lemma print_range_no_space min max : no_space (print_range min max).
Proof.
  unfold print_range. rewrite !no_space_app. repeat (apply andb_prop_intro; split);
    done || apply no_space_pretty.
Qed.

Lemma parse_range_print min max flag :
  min <= max → max <= u64_max →
  parse_uniform_range (print_range min max) flag = Ok (Some (min, max)).
Proof.
  intros Hm Hx. unfold parse_uniform_range.
  rewrite trim_no_space by apply print_range_no_space.
  assert (Hb : ends_with "]" (print_range min max) = true).
  { unfold ends_with, print_range. rewrite <-!string_app_assoc, rev_string_app. done. }
  change (char_free "[" (print_range min max)) with false. cbn [andb].
  change (starts_with "[" (print_range min max)) with true. rewrite Hb. cbn [andb negb].
  assert (Hi : inner (print_range min max) = pretty min +:+ String "," (pretty max)).
  { etrans; [|apply inner_brackets]. unfold print_range. by rewrite (string_app_assoc (pretty min)). }
  rewrite Hi.
  rewrite split_char_app, split_char_free by (by apply pretty_char_free).
  rewrite !parse_usize_pretty by lia. by rewrite (proj2 (N.ltb_ge _ _) Hm).
Qed.

Lemma parse_range_none v flag :
  no_space v → char_free "[" v → char_free "]" v → parse_uniform_range v flag = Ok None.
Proof.
  intros Hv H1 H2. unfold parse_uniform_range. rewrite trim_no_space by done.
  by rewrite (proj1 (Is_true_true _) H1), (proj1 (Is_true_true _) H2).
Qed.

Lemma parse_range_bounds v flag min max :
  parse_uniform_range v flag = Ok (Some (min, max)) → min <= max <= u64_max.
Proof.
  unfold parse_uniform_range. destruct (_ && _); [done|]. destruct (negb _); [done|].
  destruct (split_char _ _) as [|b0 [|b1 [|]]]; try done.
  destruct (parse_usize b0 flag) as [mn|] eqn:E0; [|done].
  destruct (parse_usize b1 flag) as [mx|] eqn:E1; [|done].
  destruct (N.ltb_spec mx mn); [done|]. intros [= <- <-].
  apply parse_usize_bound in E1. lia.
Qed.

(** ** Well-formed values *)

Definition step_wf (s : StepSize) : Prop :=
  match s with
  | FixedStep n => 1 <= n <= u64_max
  | StepRange min max => 1 <= min <= max ∧ max <= u64_max
  end.

Definition payloads_wf (p : PayloadSizes) : Prop :=
  match p with
  | FixedSizes sizes => sizes ≠ [] ∧ Forall (λ n, n <= u64_max) sizes
  | SizeRange min max => min <= max <= u64_max
  end.

Lemma collect_pretty flag sizes :
  Forall (λ n, n <= u64_max) sizes →
  collect (λ size, parse_usize size flag) (pretty <$> sizes) = Ok sizes.
Proof.
  induction 1 as [|n sizes Hn _ IH]; [done|]. rewrite fmap_cons. cbn [collect].
  by rewrite parse_usize_pretty, IH.
Qed.

Lemma collect_bound flag vs sizes :
  collect (λ size, parse_usize size flag) vs = Ok sizes → Forall (λ n, n <= u64_max) sizes.
Proof.
  revert sizes. induction vs as [|v vs IH]; intros sizes; simpl; [by intros [= <-]|].
  destruct (parse_usize v flag) eqn:E; [|done]. destruct (collect _ vs) eqn:E2; [|done].
  intros [= <-]. constructor; [by apply parse_usize_bound in E|by apply IH].
Qed.

Lemma Forall_pretty (P : string → Prop) (l : list N) :
  (∀ n : N, P (pretty n)) → Forall P (pretty <$> l).
Proof. intros H. apply Forall_fmap, Forall_true. exact H. Qed.

Lemma parse_order_print o : order_from_str (order_to_string o) = Ok o.
Proof. by destruct o. Qed.

Lemma collect_snoc {A E B} (f : A → result E B) l x :
  collect f (l ++ [x])
  = let? ys <- collect f l in let? y <- f x in Ok (ys ++ [y]).
Proof.
  induction l as [|a l IH]; simpl; [by destruct (f x)|].
  destruct (f a); [|done]. rewrite IH. destruct (collect f l); [|done]. by destruct (f x).
Qed.

Lemma existsb_id_elem spec ws :
  existsb (λ w, String.eqb (id w) (id spec)) ws = true ↔ id spec ∈ id <$> ws.
Proof.
  split.
  - intros (w & Hw & He%String.eqb_eq)%existsb_exists. apply list_elem_of_fmap.
    exists w. split; [done|by apply list_elem_of_In].
  - intros (w & He & Hw)%list_elem_of_fmap. apply existsb_exists.
    exists w. split; [by apply list_elem_of_In|by apply String.eqb_eq].
Qed.

Lemma worker_specs_loop raws : ∀ ws out,
  NoDup (id <$> ws) →
  parse_worker_specs_loop ws raws = Ok out
  ↔ ∃ new, out = ws ++ new ∧ collect parse_worker_spec raws = Ok new ∧ NoDup (id <$> out).
Proof.
  induction raws as [|raw raws IH]; intros ws out Hnd; cbn [parse_worker_specs_loop collect].
  - split; [intros [= <-]; exists []; by rewrite app_nil_r|].
    intros (new & -> & [= <-] & _). by rewrite app_nil_r.
  - destruct (parse_worker_spec raw) as [spec|m] eqn:E; [|split; [done|naive_solver]].
    destruct (existsb _ ws) eqn:Ex.
    + split; [done|]. intros (new & -> & Hc & Hn).
      destruct (collect _ raws) as [ys|]; [|done]. simplify_eq.
      apply existsb_id_elem in Ex. rewrite fmap_app in Hn. apply NoDup_app in Hn as (_ & Hd & _).
      exfalso. eapply Hd; [exact Ex|]. left.
    + assert (Hnd' : NoDup (id <$> ws ++ [spec])).
      { rewrite fmap_app. apply NoDup_app. split_and!; [done| |by apply NoDup_singleton].
        intros x Hx. simpl. rewrite list_elem_of_singleton. intros ->.
        apply existsb_id_elem in Hx. congruence. }
      rewrite (IH _ _ Hnd'). split.
      * intros (new & -> & Hc & Hn). exists (spec :: new).
        rewrite Hc, <-app_assoc in *. done.
      * intros (new & -> & Hc & Hn). destruct (collect _ raws) as [ys|]; [|done].
        simplify_eq. exists ys. by rewrite <-app_assoc.
Qed.

Lemma not_increasing_spec l : not_increasing l = false ↔ Sorted N.lt l.
Proof.
  induction l as [|x l IH]; [split; [constructor|done]|].
  destruct l as [|y l]; [split; [repeat constructor|done]|].
  change (not_increasing (x :: y :: l)) with ((y <=? x) || not_increasing (y :: l)).
  rewrite orb_false_iff, IH, N.leb_gt. split.
  - intros [H1 H2]. constructor; [done|by constructor].
  - intros H. inversion H as [|?? H1 H2]; subst. inversion H2; subst. done.
Qed.

(** What the runner requires of a configuration. *)
Record config_valid (config : StaircaseConfig) (worker_count max : N) : Prop := {
  cv_min : 1 <= min_size config <= max;
  cv_max : max = default worker_count (max_size config) ∧ max <= worker_count;
  cv_step : step_is_valid (step_size config) = true;
  cv_roundtrips : 1 <= roundtrips config;
  cv_payload : payloads_is_empty (payload_sizes config) = false;
  cv_external : 1 <= min_profiled_samples_per_operation config →
    external_coverage_lane config = true
    ∧ ∃ w, w ∈ workers config ∧ profile_enabled w = true ∧ is_external_device w = true;
  cv_fill : fill_tree_before_measure config = true →
    remove_rejoin config = false ∧ ∀ w, w ∈ workers config → is_external_device w = false;
  cv_plateaus : plateau_sizes config ≠ [] →
    plateau_order config = Ascending ∧ Sorted N.lt (plateau_sizes config)
    ∧ Forall (λ n, min_size config <= n <= max) (plateau_sizes config);
}.

(** A strictly increasing list lies between its first and last elements. *)
Lemma sorted_range lo hi x l :
  Sorted N.lt (x :: l) →
  Forall (λ n, lo <= n <= hi) (x :: l) ↔ lo <= x ∧ List.last (x :: l) 0 <= hi.
Proof.
  revert x lo hi. induction l as [|y l IH]; intros x lo hi Hs.
  - simpl. rewrite Forall_singleton. done.
  - inversion Hs as [|?? Hs' Hxy]; subst. inversion Hxy; subst.
    change (List.last (x :: y :: l) 0) with (List.last (y :: l) 0).
    rewrite Forall_cons, (IH y lo hi Hs').
    assert (Hle : y <= List.last (y :: l) 0).
    { assert (Hf : Forall (λ n, y <= n <= List.last (y :: l) 0) (y :: l))
        by (apply IH; [done|lia]). inversion Hf. lia. }
    lia.
Qed.

Lemma validate_plateau_sizes_ok config max :
  1 <= min_size config →
  validate_plateau_sizes config max = Ok tt
  ↔ (plateau_sizes config ≠ [] →
     plateau_order config = Ascending ∧ Sorted N.lt (plateau_sizes config)
     ∧ Forall (λ n, min_size config <= n <= max) (plateau_sizes config)).
Proof.
  intros Hmin. unfold validate_plateau_sizes.
  destruct (plateau_sizes config) as [|first sizes] eqn:E; [naive_solver|].
  destruct (bool_decide_reflect (plateau_order config = Ascending)) as [Ho|Ho]; simpl negb; cbv iota.
  2: { split; [done|]. intros H. by destruct (H ltac:(done)). }
  assert (Hlast : Sorted N.lt (first :: sizes) →
    (Forall (λ n, min_size config <= n <= max) (first :: sizes)
     ↔ (first <? min_size config) || (max <? List.last (first :: sizes) 0) = false)).
  { intros Hs. rewrite orb_false_iff, !N.ltb_ge. by apply sorted_range. }
  destruct (existsb (λ size, size =? 0) (first :: sizes)) eqn:E0.
  { split; [done|]. intros H. destruct (H ltac:(done)) as (_ & _ & Hf).
    apply existsb_exists in E0 as (x & Hx%list_elem_of_In & Hz%N.eqb_eq).
    rewrite Forall_forall in Hf. specialize (Hf x Hx). lia. }
  destruct (not_increasing (first :: sizes)) eqn:En.
  { split; [done|]. intros H. destruct (H ltac:(done)) as (_ & Hs & _).
    apply not_increasing_spec in Hs. congruence. }
  apply not_increasing_spec in En. specialize (Hlast En).
  destruct (_ || _); split; naive_solver.
Qed.

(** ** Properties *)

(** The configuration accepted by the runner is exactly the valid one: the
    returned size is the requested or the available one, every size lies between the
    bounds, explicit plateaus are strictly increasing, and the lanes that need
    external devices have them. *)
Theorem validate_config_exact (config : StaircaseConfig) (worker_count max : N) :
  validate_config config worker_count = Ok max ↔ config_valid config worker_count max.
Proof.
  unfold validate_config. set (m := default worker_count (max_size config)). split.
  - intros H. repeat (let E := fresh "E" in match type of H with
      (if ?b then Err _ else _) = _ => destruct b eqn:E; [discriminate H|] end).
    destruct (validate_plateau_sizes config m) as [[]|] eqn:Ep; [|done]. simplify_eq.
    apply N.eqb_neq in E. apply N.ltb_ge in E7, E8.
    rewrite validate_plateau_sizes_ok in Ep by lia. apply negb_false_iff in E0.
    apply N.eqb_neq in E1. split; try done; try lia.
    + intros Hs. rewrite (proj2 (N.ltb_lt 0 _)) in E3 by lia. simpl in E3.
      apply orb_false_iff in E3 as [E3 E9]. apply negb_false_iff in E3, E9.
      split; [done|]. apply existsb_exists in E9 as (w & Hw%list_elem_of_In & Hp%andb_true_iff).
      naive_solver.
    + intros Hf. rewrite Hf in E4, E5. simpl in *. split; [done|].
      intros w Hw%list_elem_of_In. destruct (is_external_device w) eqn:Ex; [|done].
      rewrite <-E5. symmetry. apply existsb_exists. eauto.
  - intros [[H1 H1'] [H2 H2'] H3 H4 H5 H6 H7 H8]. fold m in H2. subst max.
    rewrite (proj2 (N.eqb_neq _ 0)) by lia. rewrite H3. simpl.
    rewrite (proj2 (N.eqb_neq _ 0)) by lia. rewrite H5.
    replace (_ && (_ || _)) with false.
    2: { symmetry. apply andb_false_iff. destruct (N.ltb_spec 0 (min_profiled_samples_per_operation config)); [right|by left].
      destruct H6 as [-> (w & Hw & Hp & Hx)]; [lia|]. simpl. apply negb_false_iff, existsb_exists.
      exists w. rewrite Hp, Hx. split; [by apply list_elem_of_In|done]. }
    replace (_ && remove_rejoin config) with false.
    2: { destruct (fill_tree_before_measure config); [|done]. by destruct H7 as [-> _]. }
    replace (_ && existsb is_external_device _) with false.
    2: { destruct (fill_tree_before_measure config); [|done]. destruct H7 as [_ H7]; [done|].
      symmetry. simpl. apply not_true_is_false. intros (w & Hw%list_elem_of_In & Hx)%existsb_exists.
      by rewrite H7 in Hx. }
    rewrite (proj2 (N.eqb_neq _ 0)), !(proj2 (N.ltb_ge _ _)) by lia.
    by rewrite (proj2 (validate_plateau_sizes_ok config m H1) H8).
Qed.

(** Step sizes survive the command line: a well-formed step size is printed and
    parsed back, and whatever text is accepted is a well-formed step size, so the
    planner never sees a step of zero or an empty range. *)
Theorem step_size_codec (s : StepSize) :
  (step_wf s → step_from_str (step_to_string s) = Ok s)
  ∧ (∀ value, step_from_str value = Ok s → step_wf s ∧ step_is_valid s = true).
Proof.
  split.
  - intros Hs. unfold step_from_str. destruct s as [n|min max]; simpl in *.
    + rewrite parse_range_none by (apply no_space_pretty || by apply pretty_char_free).
      rewrite parse_usize_pretty by lia. by rewrite (proj2 (N.eqb_neq n 0)) by lia.
    + rewrite parse_range_print by lia. by rewrite (proj2 (N.eqb_neq min 0)) by lia.
  - intros value. unfold step_from_str.
    destruct (parse_uniform_range _ _) as [[[min max]|]|] eqn:E; [| |done].
    + destruct (N.eqb_spec min 0); [done|]. intros [= <-]. apply parse_range_bounds in E.
      simpl. split; [lia|apply N.ltb_lt; lia].
    + destruct (parse_usize _ _) as [n|] eqn:E2; [|done].
      destruct (N.eqb_spec n 0); [done|]. intros [= <-]. apply parse_usize_bound in E2.
      simpl. split; [lia|apply N.ltb_lt; lia].
Qed.

(** Payload sizes survive the command line: a well-formed list or range is
    printed and parsed back, and whatever is accepted is well formed (a non-empty
    list, or a range in order). *)
Theorem payload_sizes_codec (p : PayloadSizes) :
  (payloads_wf p → payloads_from_str (payloads_to_string p) = Ok p)
  ∧ (∀ value, payloads_from_str value = Ok p →
     payloads_wf p ∧ payloads_is_empty p = false ∧ (0 < source_count p)%nat).
Proof.
  split.
  - intros Hp. unfold payloads_from_str. destruct p as [sizes|min max]; simpl in *.
    + destruct Hp as [Hne Hb].
      rewrite parse_range_none by
        (apply no_space_join || apply char_free_join; try done; apply Forall_pretty; intros n;
         apply no_space_pretty || by apply pretty_char_free).
      rewrite split_join; [|by destruct sizes|by apply Forall_pretty; intros; apply pretty_char_free].
      rewrite collect_pretty by done. by destruct sizes.
    + by rewrite parse_range_print by lia.
  - intros value. unfold payloads_from_str.
    destruct (parse_uniform_range _ _) as [[[min max]|]|] eqn:E; [| |done].
    + intros [= <-]. apply parse_range_bounds in E. split; [simpl; lia|]. simpl. split; [done|lia].
    + destruct (collect _ _) as [sizes|] eqn:E2; [|done]. apply collect_bound in E2.
      destruct sizes; [done|]. intros [= <-]. split; [done|]. simpl. split; [done|lia].
Qed.

(** The worker list of the command line is accepted exactly when every entry
    parses, there is at least one, and no identifier occurs twice; the workers then
    keep the order of the arguments. *)
Theorem parse_worker_specs_exact (raw_specs : list string) (ws : list WorkerSpec) :
  parse_worker_specs raw_specs = Ok ws
  ↔ collect parse_worker_spec raw_specs = Ok ws ∧ ws ≠ [] ∧ NoDup (id <$> ws).
Proof.
  unfold parse_worker_specs. split.
  - destruct (parse_worker_specs_loop [] raw_specs) as [out|] eqn:E; [|done].
    apply worker_specs_loop in E as (new & -> & Hc & Hn); [|constructor].
    simpl. destruct new; [done|]. intros [= <-]. done.
  - intros (Hc & Hne & Hn).
    rewrite (proj2 (worker_specs_loop raw_specs [] ws (NoDup_nil_2))) by eauto.
    by destruct ws.
Qed.
