(* ===== verification/Plateau.v ===== *)
(** * The plateau sequence

    The group sizes the staircase runner visits
    ([stepped_sizes] .. [build_plateau_sequence_for_order] of
    [OpenMLS_containerized/src/staircase_runner.rs]).  The [while] loops carry fuel
    and return [None] when it runs out; the theorems give the fuel that suffices.
    The random generator is the [rand] crate's: an interface with the two laws the
    code relies on, ranges are respected and a shuffle permutes. *)

From S2P Require Import Prelude Text RunnerConfig.
From stdpp Require Import options.

Local Open Scope N_scope.

(** [rand::Rng]: [gen_range(lo..=hi)] and [SliceRandom::shuffle]. *)
Class Rng (G : Type) := {
  gen_range : G → N → N → N * G;
  shuffle : ∀ {A : Type}, G → list A → list A * G;
}.

Class RngLaws (G : Type) `{!Rng G} := {
  gen_range_bounds g lo hi : lo <= hi → lo <= (gen_range g lo hi).1 <= hi;
  shuffle_permutes {A} g (l : list A) : (shuffle g l).1 ≡ₚ l;
}.

(** [if sequence.last().copied() != Some(x) { sequence.push(x) }] *)
Definition push_distinct (sequence : list N) (x : N) : list N :=
  if decide (last sequence = Some x) then sequence else sequence ++ [x].

(** ** Fixed steps *)

Fixpoint stepped_loop (fuel : nat) (max_size step_size current : N) (sizes : list N) :
    option (list N) :=
  if current <? max_size then
    match fuel with
    | O => None
    | S fuel =>
        let current := N.min (saturating_add64 current step_size) max_size in
        stepped_loop fuel max_size step_size current (push_distinct sizes current)
    end
  else Some sizes.

(** [stepped_sizes]; [max_size - min_size] iterations are enough. *)
Definition stepped_sizes (fuel : nat) (min_size max_size step_size : N) : option (list N) :=
  stepped_loop fuel max_size step_size min_size [min_size].

Fixpoint repeat_trips {A} (n : nat) (f : A → option A) (x : A) : option A :=
  match n with O => Some x | S n => let! y <- f x in repeat_trips n f y end.

Definition build_plateau_sequence (fuel : nat) (min_size max_size step_size : N)
    (roundtrips : nat) : option (list N) :=
  let! ascent <- stepped_sizes fuel min_size max_size step_size in
  repeat_trips roundtrips
    (λ sequence,
       let up := foldl push_distinct sequence ascent in
       Some (foldl push_distinct up (tail (reverse ascent)))) [].

Section random.
Context {G : Type} `{!Rng G}.

(** [StepSize::sample] *)
Definition sample (s : StepSize) (rng : G) : N * G :=
  match s with
  | FixedStep step_size => (step_size, rng)
  | StepRange min max => gen_range rng min max
  end.

(** [PayloadSizeSource::sample] and [PayloadSizes::shuffled_sources] *)
Definition sample_source (s : PayloadSizeSource) (rng : G) : N * G :=
  match s with
  | FixedSource size => (size, rng)
  | RangeSource min max => gen_range rng min max
  end.

Definition shuffled_sources (p : PayloadSizes) (rng : G) : list PayloadSizeSource * G :=
  match p with
  | FixedSizes sizes => let '(sizes, rng) := shuffle rng sizes in (FixedSource <$> sizes, rng)
  | SizeRange min max => ([RangeSource min max], rng)
  end.

(** [while current < max_size { .. }] *)
Fixpoint climb (fuel : nat) (max_size : N) (s : StepSize) (current : N) (sequence : list N)
    (rng : G) : option (N * list N * G) :=
  if current <? max_size then
    match fuel with
    | O => None
    | S fuel =>
        let '(step, rng) := sample s rng in
        let current := N.min (saturating_add64 current step) max_size in
        climb fuel max_size s current (push_distinct sequence current) rng
    end
  else Some (current, sequence, rng).

(** [while current > min_size { .. }] *)
Fixpoint descend (fuel : nat) (min_size : N) (s : StepSize) (current : N) (sequence : list N)
    (rng : G) : option (N * list N * G) :=
  if min_size <? current then
    match fuel with
    | O => None
    | S fuel =>
        let '(step, rng) := sample s rng in
        let current := N.max (saturating_sub current step) min_size in
        descend fuel min_size s current (push_distinct sequence current) rng
    end
  else Some (current, sequence, rng).

Definition random_trip (fuel : nat) (min_size max_size : N) (s : StepSize)
    (st : N * list N * G) : option (N * list N * G) :=
  let '(current, sequence, rng) := st in
  let! (current, sequence, rng) <- climb fuel max_size s current (push_distinct sequence current) rng in
  descend fuel min_size s current sequence rng.

Definition build_plateau_sequence_for_step_size (fuel : nat) (min_size max_size : N)
    (s : StepSize) (roundtrips : nat) (rng : G) : option (list N * G) :=
  match s with
  | FixedStep step_size =>
      let! l <- build_plateau_sequence fuel min_size max_size step_size roundtrips in
      Some (l, rng)
  | StepRange _ _ =>
      let! (_, sequence, rng) <-
        repeat_trips roundtrips (random_trip fuel min_size max_size s) (min_size, [], rng) in
      Some (sequence, rng)
  end.

Definition build_ascending_plateau_sequence_for_step_size (fuel : nat) (min_size max_size : N)
    (s : StepSize) (rng : G) : option (list N * G) :=
  match s with
  | FixedStep step_size =>
      let! l <- stepped_sizes fuel min_size max_size step_size in Some (l, rng)
  | StepRange _ _ =>
      let! (_, sequence, rng) <- climb fuel max_size s min_size [min_size] rng in
      Some (sequence, rng)
  end.

(** [rotate_left(1)] *)
Definition rotate_left1 {A} (l : list A) : list A :=
  match l with [] => [] | x :: l' => l' ++ [x] end.

Definition shuffle_round (candidates : list N) (st : list N * G) : option (list N * G) :=
  let '(sequence, rng) := st in
  let '(randomized, rng) := shuffle rng candidates in
  let randomized :=
    if (1 <? length randomized)%nat && bool_decide (last sequence = head randomized)
    then rotate_left1 randomized else randomized in
  Some (foldl push_distinct sequence randomized, rng).

Definition build_plateau_sequence_for_order (fuel : nat) (min_size max_size : N) (s : StepSize)
    (roundtrips : nat) (order : PlateauOrder) (rng : G) : option (list N * G) :=
  match order with
  | Staircase =>
      build_plateau_sequence_for_step_size fuel min_size max_size s roundtrips rng
  | Ascending => build_ascending_plateau_sequence_for_step_size fuel min_size max_size s rng
  | Randomized =>
      let! (_, candidates, rng) <- climb fuel max_size s min_size [min_size] rng in
      repeat_trips roundtrips (shuffle_round candidates) ([], rng)
  end.
End random.

(** ** Ladders *)

(** [ladder R x l y]: from [x] through [l], each step related by [R], ending at [y]. *)
Definition ladder (R : N → N → Prop) (x : N) (l : list N) (y : N) : Prop :=
  Sorted R (x :: l) ∧ last (x :: l) = Some y.

Definition up_by (s : N) (x y : N) : Prop := x < y <= x + s.
Definition down_by (s : N) (x y : N) : Prop := y < x <= y + s.

Lemma ladder_cons R x y l z : R x y → ladder R y l z → ladder R x (y :: l) z.
Proof. intros Hr [Hs Hl]. split; [|done]. constructor; [done|by constructor]. Qed.

Lemma ladder_nil R x : ladder R x [] x.
Proof. split; [repeat constructor|done]. Qed.

Lemma push_distinct_new sequence x y :
  last sequence = Some y → y ≠ x → push_distinct sequence x = sequence ++ [x].
Proof. intros H Hne. unfold push_distinct. case_decide; [congruence|done]. Qed.

Lemma push_distinct_same sequence x : last sequence = Some x → push_distinct sequence x = sequence.
Proof. intros H. unfold push_distinct. by case_decide. Qed.

(** Pushing along a ladder appends all of it. *)
Lemma push_ladder R x l y sequence :
  (∀ a b, R a b → a ≠ b) → ladder R x l y → last sequence = Some x →
  foldl push_distinct sequence l = sequence ++ l ∧ last (sequence ++ l) = Some y.
Proof.
  intros Hne. revert x sequence. induction l as [|z l IH]; intros x sequence [Hs Hl] Hx.
  - simpl in *. rewrite app_nil_r. split; [done|congruence].
  - inversion Hs as [|?? Hs' Hd]; subst. inversion Hd; subst. cbn [foldl].
    rewrite (push_distinct_new _ _ x) by (done || by apply Hne).
    destruct (IH z (sequence ++ [z])) as [H1 H2]; [by split|by rewrite last_snoc|].
    rewrite H1, <-app_assoc in *. done.
Qed.

Lemma min_sat c s m : m <= u64_max → N.min (saturating_add64 c s) m = N.min (c + s) m.
Proof. intros. unfold saturating_add64. lia. Qed.

Lemma stepped_loop_spec fuel max s : ∀ cur sizes,
  1 <= s → cur <= max <= u64_max → (N.to_nat (max - cur) <= fuel)%nat → last sizes = Some cur →
  ∃ up, stepped_loop fuel max s cur sizes = Some (sizes ++ up) ∧ ladder (up_by s) cur up max.
Proof.
  induction fuel as [|fuel IH]; intros cur sizes Hs Hc Hf Hl; cbn [stepped_loop];
    destruct (N.ltb_spec cur max); try lia.
  1,3: assert (cur = max) as -> by lia; exists []; rewrite app_nil_r; split; [done|apply ladder_nil].
  rewrite min_sat by lia. set (c' := N.min (cur + s) max).
  assert (Hc' : up_by s cur c') by (unfold up_by; lia).
  rewrite (push_distinct_new _ _ cur) by (done || unfold up_by in Hc'; lia).
  destruct (IH c' (sizes ++ [c'])) as (up & -> & Hup);
    [done|lia|unfold up_by in Hc'; lia|by rewrite last_snoc|].
  exists (c' :: up). rewrite <-app_assoc. split; [done|by apply ladder_cons].
Qed.

(** A step of zero never gets there. *)
Lemma stepped_loop_stuck fuel max cur sizes :
  cur < max <= u64_max → stepped_loop fuel max 0 cur sizes = None.
Proof.
  intros Hc. revert sizes. induction fuel as [|fuel IH]; intros sizes; cbn [stepped_loop];
    rewrite (proj2 (N.ltb_lt _ _)) by lia; [done|].
  rewrite min_sat by lia. replace (N.min (cur + 0) max) with cur by lia. apply IH.
Qed.

Definition max_step (s : StepSize) : N :=
  match s with FixedStep n => n | StepRange _ max => max end.

Section random_lemmas.
Context {G : Type} `{!Rng G} `{laws : !RngLaws G}.

Lemma sample_bounds s (rng : G) : step_wf s → 1 <= (sample s rng).1 <= max_step s.
Proof using laws.
  destruct s as [n|min max]; simpl; [lia|]. intros H.
  pose proof (gen_range_bounds rng min max). lia.
Qed.

Lemma climb_spec s fuel max : ∀ cur sequence (rng : G),
  step_wf s → cur <= max <= u64_max → (N.to_nat (max - cur) <= fuel)%nat →
  last sequence = Some cur →
  ∃ up rng', climb fuel max s cur sequence rng = Some (max, sequence ++ up, rng')
    ∧ ladder (up_by (max_step s)) cur up max.
Proof using laws.
  induction fuel as [|fuel IH]; intros cur sequence rng Hs Hc Hf Hl; cbn [climb];
    destruct (N.ltb_spec cur max); try lia.
  1,3: assert (cur = max) as -> by lia; exists [], rng; rewrite app_nil_r;
    split; [done|apply ladder_nil].
  pose proof (sample_bounds s rng Hs) as Hb. destruct (sample s rng) as [st rng1]. simpl in Hb.
  rewrite min_sat by lia. set (c' := N.min (cur + st) max).
  assert (Hc' : up_by (max_step s) cur c') by (unfold up_by; lia).
  rewrite (push_distinct_new _ _ cur) by (done || unfold up_by in Hc'; lia).
  destruct (IH c' (sequence ++ [c']) rng1) as (up & rng' & -> & Hup);
    [done|lia|unfold up_by in Hc'; lia|by rewrite last_snoc|].
  exists (c' :: up), rng'. rewrite <-app_assoc. split; [done|by apply ladder_cons].
Qed.

Lemma descend_spec s fuel min : ∀ cur sequence (rng : G),
  step_wf s → min <= cur → (N.to_nat (cur - min) <= fuel)%nat → last sequence = Some cur →
  ∃ down rng', descend fuel min s cur sequence rng = Some (min, sequence ++ down, rng')
    ∧ ladder (down_by (max_step s)) cur down min.
Proof using laws.
  induction fuel as [|fuel IH]; intros cur sequence rng Hs Hc Hf Hl; cbn [descend];
    destruct (N.ltb_spec min cur); try lia.
  1,3: assert (cur = min) as -> by lia; exists [], rng; rewrite app_nil_r;
    split; [done|apply ladder_nil].
  pose proof (sample_bounds s rng Hs) as Hb. destruct (sample s rng) as [st rng1]. simpl in Hb.
  unfold saturating_sub. set (c' := N.max (cur - st) min).
  assert (Hc' : down_by (max_step s) cur c') by (unfold down_by; lia).
  rewrite (push_distinct_new _ _ cur) by (done || unfold down_by in Hc'; lia).
  destruct (IH c' (sequence ++ [c']) rng1) as (down & rng' & -> & Hdown);
    [done|lia|unfold down_by in Hc'; lia|by rewrite last_snoc|].
  exists (c' :: down), rng'. rewrite <-app_assoc. split; [done|by apply ladder_cons].
Qed.
End random_lemmas.

(** ** Ladders: composition, bounds, counting *)

Lemma ladder_impl (R R' : N → N → Prop) x l y :
  (∀ a b, R a b → R' a b) → ladder R x l y → ladder R' x l y.
Proof.
  intros HR [Hs Hl]. split; [|done]. clear Hl. revert x Hs.
  induction l as [|z l IH]; intros x Hs; [repeat constructor|].
  inversion Hs as [|?? Hs' Hd]; subst. inversion Hd; subst.
  constructor; [by apply IH|constructor; auto].
Qed.

Lemma ladder_inv R x z l y : ladder R x (z :: l) y → R x z ∧ ladder R z l y.
Proof.
  intros [Hs Hl]. inversion Hs as [|?? Hs' Hd]; subst. inversion Hd; subst. by repeat split.
Qed.

Lemma ladder_nil_inv R x y : ladder R x [] y → x = y.
Proof. intros [_ Hl]. by simplify_eq/=. Qed.

Lemma ladder_app R x l y l' z : ladder R x l y → ladder R y l' z → ladder R x (l ++ l') z.
Proof.
  revert x. induction l as [|a l IH]; intros x H1 H2.
  - by apply ladder_nil_inv in H1 as ->.
  - apply ladder_inv in H1 as [Hr H1]. apply ladder_cons; [done|by apply IH].
Qed.

Lemma ladder_last R x l y : ladder R x l y → last (x :: l) = Some y.
Proof. by intros [_ H]. Qed.

Definition occurrences (x : N) (l : list N) : nat := length (filter (λ y, y = x) l).

Lemma occurrences_app x l l' : occurrences x (l ++ l') = (occurrences x l + occurrences x l')%nat.
Proof. unfold occurrences. by rewrite filter_app, length_app. Qed.

Lemma occurrences_cons x y l :
  occurrences x (y :: l) = ((if decide (y = x) then 1 else 0) + occurrences x l)%nat.
Proof. unfold occurrences. rewrite filter_cons. by case_decide. Qed.

Lemma occurrences_0 x l : Forall (λ y, y ≠ x) l → occurrences x l = 0%nat.
Proof. intros H. unfold occurrences. by rewrite filter_all_false. Qed.

Section strict.
Context (R lt' : N → N → Prop).
Context (HR : ∀ a b, R a b → lt' a b) (Hirr : ∀ a, ¬ lt' a a)
  (Htr : ∀ a b c, lt' a b → lt' b c → lt' a c).

(** A strictly ordered ladder stays between its ends and meets each end once. *)
Lemma ladder_strict x l y : ladder R x l y →
  Forall (λ z, lt' x z ∧ (z = y ∨ lt' z y)) l ∧ (x = y ∧ l = [] ∨ lt' x y ∧ occurrences y l = 1%nat).
Proof using HR Hirr Htr.
  revert x. induction l as [|a l IH]; intros x H.
  - apply ladder_nil_inv in H as ->. split; [done|by left].
  - apply ladder_inv in H as [Hr%HR H]. destruct (IH a H) as [Hf [[-> ->]|[Hy Ho]]].
    + split; [by repeat constructor; auto|right]. split; [done|].
      rewrite occurrences_cons, decide_True; done.
    + split; [|right; split; [eauto|]].
      * constructor; [by auto|]. eapply Forall_impl; [exact Hf|]. simpl. intros z [? ?]. eauto.
      * rewrite occurrences_cons, decide_False; [done|]. intros ->. by eapply Hirr.
Qed.
End strict.

Lemma up_facts s x l y : ladder (up_by s) x l y →
  x <= y ∧ Forall (λ z, x < z <= y) l ∧ occurrences x l = 0%nat
  ∧ occurrences y l = (if decide (x = y) then 0 else 1)%nat.
Proof.
  intros H. destruct (ladder_strict (up_by s) N.lt) with (4 := H) as [Hf Hc];
    [unfold up_by; intros; lia|intros; lia|intros; lia|].
  assert (Hf' : Forall (λ z, x < z <= y) l)
    by (eapply Forall_impl; [exact Hf|]; simpl; intros; lia).
  split_and!; [destruct Hc as [[-> _]|[? _]]; lia|done| |].
  - apply occurrences_0. eapply Forall_impl; [exact Hf'|]. simpl. intros; lia.
  - destruct Hc as [[-> ->]|[? ->]]; [by rewrite decide_True|rewrite decide_False; [done|lia]].
Qed.

Lemma down_facts s x l y : ladder (down_by s) x l y →
  y <= x ∧ Forall (λ z, y <= z < x) l ∧ occurrences x l = 0%nat
  ∧ occurrences y l = (if decide (x = y) then 0 else 1)%nat.
Proof.
  intros H. destruct (ladder_strict (down_by s) (λ a b, b < a)) with (4 := H) as [Hf Hc];
    [unfold down_by; intros; lia|intros; lia|intros; lia|].
  assert (Hf' : Forall (λ z, y <= z < x) l)
    by (eapply Forall_impl; [exact Hf|]; simpl; intros; lia).
  split_and!; [destruct Hc as [[-> _]|[? _]]; lia|done| |].
  - apply occurrences_0. eapply Forall_impl; [exact Hf'|]. simpl. intros; lia.
  - destruct Hc as [[-> ->]|[? ->]]; [by rewrite decide_True|rewrite decide_False; [done|lia]].
Qed.

(** ** Round trips *)

Inductive trips (s min max : N) : nat → list N → Prop :=
| trips_O : trips s min max 0 []
| trips_S n l up down :
    trips s min max n l → ladder (up_by s) min up max → ladder (down_by s) max down min →
    trips s min max (S n) (l ++ up ++ down).

(** Two consecutive sizes differ, by at most the step. *)
Definition adjacent (s x y : N) : Prop := x ≠ y ∧ x <= y + s ∧ y <= x + s.

Lemma up_adjacent s x y : up_by s x y → adjacent s x y.
Proof. unfold up_by, adjacent. lia. Qed.
Lemma down_adjacent s x y : down_by s x y → adjacent s x y.
Proof. unfold down_by, adjacent. lia. Qed.

Lemma trips_facts s min max n l : min <= max → trips s min max n l →
  ladder (adjacent s) min l min ∧ Forall (λ z, min <= z <= max) l
  ∧ (min < max → occurrences max l = n ∧ occurrences min l = n).
Proof.
  intros Hm. induction 1 as [|n l up down _ (IHl & IHf & IHc) Hup Hdown].
  - split_and!; [apply ladder_nil|done|done].
  - destruct (up_facts _ _ _ _ Hup) as (_ & U1 & U2 & U3).
    destruct (down_facts _ _ _ _ Hdown) as (_ & D1 & D2 & D3).
    split_and!.
    + eapply ladder_app; [done|]. eapply ladder_app.
      * eapply ladder_impl; [apply up_adjacent|done].
      * eapply ladder_impl; [apply down_adjacent|done].
    + rewrite !Forall_app. split_and!; [done| |];
        (eapply Forall_impl; [done|]); simpl; intros; lia.
    + intros Hlt. destruct (IHc Hlt) as [I1 I2].
      rewrite !occurrences_app, I1, I2, U2, U3, D2, D3, !decide_False by lia. lia.
Qed.

Lemma trips_last s min max n l : trips s min max n l → last (min :: l) = Some min.
Proof.
  induction 1 as [|n l up down _ IH Hup Hdown]; [done|].
  apply ladder_last in Hup, Hdown.
  assert (H : ∀ a b x y, last (min :: a) = Some x → last (x :: b) = Some y →
             last (min :: a ++ b) = Some y).
  { intros a b x y Ha Hb. destruct b as [|z b]; [rewrite app_nil_r; by simplify_eq/=|].
    change (last (z :: b) = Some y) in Hb.
    change (min :: a ++ z :: b) with ((min :: a) ++ z :: b). by rewrite last_app, Hb. }
  eapply H; [done|]. by eapply H.
Qed.

(** Reversing an ascent gives a descent. *)
Lemma ladder_reverse s x l y :
  ladder (up_by s) x l y →
  ∃ down, reverse (x :: l) = y :: down ∧ ladder (down_by s) y down x.
Proof.
  revert x. induction l as [|a l IH]; intros x H.
  - apply ladder_nil_inv in H as ->. exists []. split; [done|apply ladder_nil].
  - apply ladder_inv in H as [Hr H]. destruct (IH a H) as (down & Hd & Hl).
    exists (down ++ [x]). rewrite reverse_cons, Hd. split; [done|].
    eapply ladder_app; [exact Hl|]. apply ladder_cons; [|apply ladder_nil].
    unfold up_by, down_by in *. lia.
Qed.

(** ** The loops over the round trips *)

Lemma stepped_sizes_spec fuel min max s :
  1 <= s → min <= max <= u64_max → (N.to_nat (max - min) <= fuel)%nat →
  ∃ up, stepped_sizes fuel min max s = Some (min :: up) ∧ ladder (up_by s) min up max.
Proof.
  intros Hs Hm Hf. destruct (stepped_loop_spec fuel max s min [min]) as (up & H & Hl);
    [done|lia|done|done|]. by exists up.
Qed.

Lemma build_plateau_sequence_trips fuel min max s n :
  1 <= s → min <= max <= u64_max → (N.to_nat (max - min) <= fuel)%nat →
  ∃ l, build_plateau_sequence fuel min max s (S n) = Some (min :: l) ∧ trips s min max (S n) l.
Proof.
  intros Hs Hm Hf. unfold build_plateau_sequence.
  destruct (stepped_sizes_spec fuel min max s) as (up & -> & Hup); [done..|].
  destruct (ladder_reverse _ _ _ _ Hup) as (down & Hrev & Hdown). rewrite Hrev.
  match goal with |- context [repeat_trips _ ?f _] => set (trip := f) end.
  assert (Hne : ∀ a b, up_by s a b → a ≠ b) by (unfold up_by; intros; lia).
  assert (Hne' : ∀ a b, down_by s a b → a ≠ b) by (unfold down_by; intros; lia).
  assert (Htrip : ∀ k l, trips s min max k l →
    trip (min :: l) = Some (min :: l ++ up ++ down)).
  { intros k l Hl. unfold trip. cbn [foldl tail].
    pose proof (trips_last _ _ _ _ _ Hl) as Hlast. rewrite push_distinct_same by done.
    destruct (push_ladder _ _ _ _ _ Hne Hup Hlast) as [-> H1].
    destruct (push_ladder _ _ _ _ _ Hne' Hdown H1) as [-> _]. by rewrite <-app_assoc. }
  assert (Hrep : ∀ m k l, trips s min max k l →
    ∃ l', repeat_trips m trip (min :: l) = Some (min :: l') ∧ trips s min max (m + k) l').
  { induction m as [|m IH]; intros k l Hl; [by exists l|]. cbn [repeat_trips].
    rewrite (Htrip k l Hl). destruct (IH (S k) (l ++ up ++ down)) as (l' & H1 & H2).
    { by constructor. }
    exists l'. split; [done|]. by rewrite Nat.add_succ_r in H2. }
  assert (Hfirst : trip [] = trip [min]).
  { unfold trip. cbn [foldl]. by rewrite (push_distinct_same [min] min). }
  cbn [repeat_trips]. rewrite Hfirst, (Htrip 0%nat []) by constructor.
  destruct (Hrep n 1%nat (up ++ down)) as (l' & H1 & H2).
  { apply (trips_S s min max 0 []); [constructor|done..]. }
  exists l'. split; [done|]. by rewrite Nat.add_1_r in H2.
Qed.

Section random_trips.
Context {G : Type} `{!Rng G} `{laws : !RngLaws G}.

Lemma random_trip_spec fuel min max s sequence (rng : G) :
  step_wf s → min <= max <= u64_max → (N.to_nat (max - min) <= fuel)%nat →
  last (push_distinct sequence min) = Some min →
  ∃ up down rng', random_trip fuel min max s (min, sequence, rng)
      = Some (min, push_distinct sequence min ++ up ++ down, rng')
    ∧ ladder (up_by (max_step s)) min up max ∧ ladder (down_by (max_step s)) max down min.
Proof using laws.
  intros Hs Hm Hf Hl. unfold random_trip.
  destruct (climb_spec s fuel max min (push_distinct sequence min) rng)
    as (up & rng1 & -> & Hup); [done|lia|done|done|].
  assert (Hlast : last (push_distinct sequence min ++ up) = Some max).
  { apply ladder_last in Hup. rewrite last_app. destruct up as [|a up].
    - simpl in *. congruence.
    - change (last (a :: up) = Some max) in Hup. by rewrite Hup. }
  destruct (descend_spec s fuel min max (push_distinct sequence min ++ up) rng1)
    as (down & rng2 & -> & Hdown); [done|lia|done|done|].
  exists up, down, rng2. by rewrite <-app_assoc.
Qed.

Lemma random_trips_spec fuel min max s n (rng : G) :
  step_wf s → min <= max <= u64_max → (N.to_nat (max - min) <= fuel)%nat →
  ∃ l rng', repeat_trips (S n) (random_trip fuel min max s) (min, [], rng)
      = Some (min, min :: l, rng') ∧ trips (max_step s) min max (S n) l.
Proof using laws.
  intros Hs Hm Hf.
  assert (Hrep : ∀ m k l rng, trips (max_step s) min max k l →
    ∃ l' rng', repeat_trips m (random_trip fuel min max s) (min, min :: l, rng)
      = Some (min, min :: l', rng') ∧ trips (max_step s) min max (m + k) l').
  { induction m as [|m IH]; intros k l rng1 Hl; [by exists l, rng1|]. cbn [repeat_trips].
    pose proof (trips_last _ _ _ _ _ Hl) as Hlast.
    destruct (random_trip_spec fuel min max s (min :: l) rng1) as (up & down & rng2 & -> & Hu & Hd);
      [done|done|done|by rewrite push_distinct_same|].
    rewrite push_distinct_same by done.
    destruct (IH (S k) (l ++ up ++ down) rng2) as (l' & rng3 & H1 & H2); [by constructor|].
    exists l', rng3. split; [done|]. by rewrite Nat.add_succ_r in H2. }
  cbn [repeat_trips].
  destruct (random_trip_spec fuel min max s [] rng) as (up & down & rng2 & -> & Hu & Hd);
    [done..|].
  destruct (Hrep n 1%nat (up ++ down) rng2) as (l' & rng3 & H1 & H2).
  { apply (trips_S _ min max 0 []); [constructor|done..]. }
  exists l', rng3. split; [done|]. by rewrite Nat.add_1_r in H2.
Qed.

Lemma staircase_trips fuel min max s n (rng : G) :
  step_wf s → min <= max <= u64_max → (N.to_nat (max - min) <= fuel)%nat →
  ∃ l rng', build_plateau_sequence_for_step_size fuel min max s (S n) rng = Some (min :: l, rng')
    ∧ trips (max_step s) min max (S n) l.
Proof using laws.
  intros Hs Hm Hf. unfold build_plateau_sequence_for_step_size.
  destruct s as [step|smin smax].
  - destruct (build_plateau_sequence_trips fuel min max step n) as (l & -> & Hl);
      [simpl in Hs; lia|done|done|]. by exists l, rng.
  - destruct (random_trips_spec fuel min max (StepRange smin smax) n rng) as (l & rng' & H & Hl);
      [done..|]. rewrite H. by exists l, rng'.
Qed.

(** A shuffled round pushes every candidate. *)
Lemma push_nodup l sequence :
  NoDup l → last sequence ≠ head l ∨ sequence = [] ∨ l = [] →
  foldl push_distinct sequence l = sequence ++ l.
Proof.
  revert sequence. induction l as [|x l IH]; intros sequence Hn Hh; [by rewrite app_nil_r|].
  apply NoDup_cons in Hn as [Hx Hn]. cbn [foldl].
  assert (Hp : push_distinct sequence x = sequence ++ [x]).
  { unfold push_distinct. case_decide as E; [|done]. destruct Hh as [Hh|[->|]]; [|done|done].
    by rewrite E in Hh. }
  rewrite Hp, IH, <-app_assoc; [done|done|]. rewrite last_snoc.
  destruct l as [|y l]; [auto|]. left. simpl. intros [= ->]. apply Hx. left.
Qed.

Lemma rotate_left1_perm (l : list N) : rotate_left1 l ≡ₚ l.
Proof. destruct l as [|x l]; [done|]. simpl. by rewrite Permutation_app_comm. Qed.

Lemma shuffle_round_spec candidates sequence (rng : G) :
  NoDup candidates → (1 < length candidates)%nat →
  ∃ perm rng', shuffle_round candidates (sequence, rng) = Some (sequence ++ perm, rng')
    ∧ perm ≡ₚ candidates ∧ (sequence ≠ [] → last sequence ≠ head perm).
Proof using laws.
  intros Hn Hlen. unfold shuffle_round.
  pose proof (shuffle_permutes rng candidates) as Hp. destruct (shuffle rng candidates) as [r rng'].
  simpl in Hp. assert (Hnr : NoDup r) by (by rewrite Hp).
  assert (Hlr : (1 < length r)%nat) by (by rewrite (Permutation_length Hp)).
  rewrite (proj2 (Nat.ltb_lt _ _) Hlr). cbn [andb].
  destruct (bool_decide_reflect (last sequence = head r)) as [E|E].
  - destruct r as [|x [|y r]]; [simpl in Hlr; lia|simpl in Hlr; lia|].
    assert (Hxy : x ≠ y) by (intros ->; apply NoDup_cons in Hnr as [Hx _]; apply Hx; left).
    exists (rotate_left1 (x :: y :: r)), rng'.
    assert (Hh : last sequence ≠ head (rotate_left1 (x :: y :: r))) by (rewrite E; simpl; congruence).
    split_and!; [|by rewrite rotate_left1_perm|done].
    f_equal. f_equal. apply push_nodup; [by rewrite rotate_left1_perm|by left].
  - exists r, rng'. split_and!; [|done|done].
    f_equal. f_equal. apply push_nodup; [done|by left].
Qed.
End random_trips.

Lemma Sorted_snoc (R : N → N → Prop) l x :
  Sorted R l → (∀ y, last l = Some y → R y x) → Sorted R (l ++ [x]).
Proof.
  induction l as [|a l IH]; intros Hs Hl; [by repeat constructor|].
  inversion Hs as [|?? Hs' Hd]; subst. simpl. constructor.
  - apply IH; [done|]. intros y Hy. apply Hl. by destruct l.
  - destruct l as [|b l]; simpl; constructor; [by apply Hl|by inversion Hd].
Qed.

(** Consecutive sizes always differ. *)
Lemma push_distinct_sorted sequence x :
  Sorted (λ a b, a ≠ b) sequence → Sorted (λ a b, a ≠ b) (push_distinct sequence x).
Proof.
  intros Hs. unfold push_distinct. case_decide as E; [done|].
  apply Sorted_snoc; [done|]. congruence.
Qed.

Lemma push_all_sorted l : ∀ sequence,
  Sorted (λ a b, a ≠ b) sequence → Sorted (λ a b, a ≠ b) (foldl push_distinct sequence l).
Proof. induction l as [|x l IH]; intros sequence Hs; [done|]. by apply IH, push_distinct_sorted. Qed.

Lemma ladder_nodup s x l y : ladder (up_by s) x l y → NoDup (x :: l).
Proof.
  revert x. induction l as [|a l IH]; intros x H; [apply NoDup_singleton|].
  apply NoDup_cons. split; [|apply ladder_inv in H as [_ H]; by apply IH].
  destruct (up_facts _ _ _ _ H) as (_ & Hf & _). intros Hx. rewrite Forall_forall in Hf.
  specialize (Hf x Hx). simpl in Hf. lia.
Qed.

Section shuffled.
Context {G : Type} `{!Rng G} `{laws : !RngLaws G}.

Lemma shuffle_rounds_spec candidates n : ∀ sequence (rng : G),
  NoDup candidates → (1 < length candidates)%nat → Sorted (λ a b, a ≠ b) sequence →
  ∃ rounds rng', repeat_trips n (shuffle_round candidates) (sequence, rng)
      = Some (sequence ++ concat rounds, rng')
    ∧ length rounds = n ∧ Forall (λ r, r ≡ₚ candidates) rounds
    ∧ Sorted (λ a b, a ≠ b) (sequence ++ concat rounds).
Proof using laws.
  induction n as [|n IH]; intros sequence rng Hn Hlen Hs.
  - exists [], rng. simpl. by rewrite app_nil_r.
  - cbn [repeat_trips].
    destruct (shuffle_round_spec candidates sequence rng Hn Hlen) as (perm & rng1 & Hr & Hp & _).
    assert (Hs1 : Sorted (λ a b, a ≠ b) (sequence ++ perm)).
    { unfold shuffle_round in Hr. destruct (shuffle rng candidates) as [r g].
      injection Hr as Hr _. rewrite <-Hr. by apply push_all_sorted. }
    rewrite Hr. destruct (IH (sequence ++ perm) rng1 Hn Hlen Hs1) as (rounds & rng' & H1 & H2 & H3 & H4).
    exists (perm :: rounds), rng'. simpl. rewrite <-app_assoc in H1, H4.
    split_and!; [done|by f_equal|by constructor|done].
Qed.
End shuffled.

(** A generator for examples: a counter, with shuffles that reverse on odd states. *)
Definition counter_range (g lo hi : N) : N * N := (lo + (g * 7 + 3) mod (hi - lo + 1), g + 1).

#[export] Instance counter_rng : Rng N := {
  gen_range := counter_range;
  shuffle A g l := (if N.odd g then reverse l else l, g + 1);
}.

#[export] Instance counter_rng_laws : RngLaws N.
Proof.
  split.
  - intros g lo hi Hle. simpl. pose proof (N.mod_lt (g * 7 + 3) (hi - lo + 1) ltac:(lia)).
    set (m := _ `mod` _) in *. lia.
  - intros A g l. simpl. case_match; [apply reverse_Permutation|done].
Qed.

(** ** Properties *)

(** The staircase: for any well-formed step, fixed or drawn at random, the loops
    end and the sequence starts and ends at the minimum, stays within the bounds,
    never repeats a size twice in a row, moves by at most the step, and reaches the
    maximum exactly once per round trip. *)
Theorem staircase_sequence {G : Type} `{!Rng G} `{!RngLaws G} (fuel : nat) (min_size max_size : N)
    (s : StepSize) (roundtrips : nat) (rng : G)
    (Hstep : step_wf s) (Hsize : min_size <= max_size <= u64_max) (Htrips : (0 < roundtrips)%nat)
    (Hfuel : (N.to_nat (max_size - min_size) <= fuel)%nat) :
  ∃ sequence rng',
    build_plateau_sequence_for_order fuel min_size max_size s roundtrips Staircase rng
      = Some (sequence, rng')
    ∧ head sequence = Some min_size ∧ last sequence = Some min_size
    ∧ Forall (λ n, min_size <= n <= max_size) sequence
    ∧ Sorted (adjacent (max_step s)) sequence
    ∧ (min_size < max_size →
       occurrences max_size sequence = roundtrips
       ∧ occurrences min_size sequence = S roundtrips).
Proof.
  destruct roundtrips as [|n]; [lia|].
  destruct (staircase_trips fuel min_size max_size s n rng) as (l & rng' & H & Hl); [done..|].
  destruct (trips_facts _ _ _ _ _ (proj1 Hsize) Hl) as ([Hs Hlast] & Hf & Hc).
  exists (min_size :: l), rng'. split_and!; try done.
  - constructor; [lia|done].
  - intros Hlt. rewrite !occurrences_cons. rewrite decide_False by lia.
    rewrite decide_True by done. destruct (Hc Hlt). lia.
Qed.

Lemma staircase_sequence_witness :
  (step_wf (StepRange 1 3) ∧ 2 <= 7 <= u64_max ∧ (N.to_nat (7 - 2) <= 5)%nat)
  ∧ ∃ sequence rng',
    build_plateau_sequence_for_order 5 2 7 (StepRange 1 3) 2 Staircase (4 : N)
      = Some (sequence, rng')
    ∧ head sequence = Some 2 ∧ last sequence = Some 2
    ∧ Forall (λ n, 2 <= n <= 7) sequence
    ∧ Sorted (adjacent (max_step (StepRange 1 3))) sequence
    ∧ (2 < 7 → occurrences 7 sequence = 2%nat ∧ occurrences 2 sequence = 3%nat).
Proof.
  split; [by vm_compute|]. apply staircase_sequence; [by vm_compute|by vm_compute|lia|simpl; lia].
Defined.

(** Ascending plateaus: a strictly increasing sequence from the minimum to the
    maximum, with gaps of at most the step. *)
Theorem ascending_sequence {G : Type} `{!Rng G} `{!RngLaws G} (fuel : nat) (min_size max_size : N)
    (s : StepSize) (roundtrips : nat) (rng : G)
    (Hstep : step_wf s) (Hsize : min_size <= max_size <= u64_max)
    (Hfuel : (N.to_nat (max_size - min_size) <= fuel)%nat) :
  ∃ sequence rng',
    build_plateau_sequence_for_order fuel min_size max_size s roundtrips Ascending rng
      = Some (sequence, rng')
    ∧ head sequence = Some min_size ∧ last sequence = Some max_size
    ∧ Sorted (up_by (max_step s)) sequence.
Proof.
  simpl. unfold build_ascending_plateau_sequence_for_step_size. destruct s as [step|smin smax].
  - destruct (stepped_sizes_spec fuel min_size max_size step) as (up & -> & Hs & Hl);
      [simpl in Hstep; lia|done|done|]. by exists (min_size :: up), rng.
  - destruct (climb_spec (StepRange smin smax) fuel max_size min_size [min_size] rng)
      as (up & rng' & -> & Hs & Hl); [done|lia|done|done|]. by exists (min_size :: up), rng'.
Qed.

Lemma ascending_sequence_witness :
  (step_wf (FixedStep 2) ∧ 1 <= 6 <= u64_max ∧ (N.to_nat (6 - 1) <= 5)%nat)
  ∧ ∃ sequence rng',
    build_plateau_sequence_for_order 5 1 6 (FixedStep 2) 1 Ascending (0 : N)
      = Some (sequence, rng')
    ∧ head sequence = Some 1 ∧ last sequence = Some 6
    ∧ Sorted (up_by (max_step (FixedStep 2))) sequence.
Proof.
  split; [by vm_compute|]. apply ascending_sequence; [by vm_compute|by vm_compute|simpl; lia].
Defined.

(** Randomized plateaus: one ladder of candidates from the minimum to the maximum
    is drawn, and every round trip visits all of it in some order, each candidate
    exactly once, without ever staying at the same size across two plateaus. *)
Theorem randomized_sequence {G : Type} `{!Rng G} `{!RngLaws G} (fuel : nat) (min_size max_size : N)
    (s : StepSize) (roundtrips : nat) (rng : G)
    (Hstep : step_wf s) (Hsize : min_size < max_size <= u64_max)
    (Hfuel : (N.to_nat (max_size - min_size) <= fuel)%nat) :
  ∃ candidates rounds rng',
    build_plateau_sequence_for_order fuel min_size max_size s roundtrips Randomized rng
      = Some (concat rounds, rng')
    ∧ ladder (up_by (max_step s)) min_size candidates max_size
    ∧ length rounds = roundtrips
    ∧ Forall (λ r, r ≡ₚ min_size :: candidates) rounds
    ∧ Sorted (λ a b, a ≠ b) (concat rounds).
Proof.
  simpl. destruct (climb_spec s fuel max_size min_size [min_size] rng)
    as (up & rng1 & -> & Hup); [done|lia|done|done|].
  destruct (shuffle_rounds_spec (min_size :: up) roundtrips [] rng1)
    as (rounds & rng' & H1 & H2 & H3 & H4).
  - by eapply ladder_nodup.
  - destruct up; [apply ladder_nil_inv in Hup; lia|simpl; lia].
  - constructor.
  - exists up, rounds, rng'. done.
Qed.

Lemma randomized_sequence_witness :
  (step_wf (FixedStep 2) ∧ 1 < 6 <= u64_max ∧ (N.to_nat (6 - 1) <= 5)%nat)
  ∧ ∃ candidates rounds rng',
    build_plateau_sequence_for_order 5 1 6 (FixedStep 2) 3 Randomized (0 : N)
      = Some (concat rounds, rng')
    ∧ ladder (up_by (max_step (FixedStep 2))) 1 candidates 6
    ∧ length rounds = 3%nat
    ∧ Forall (λ r, r ≡ₚ 1 :: candidates) rounds
    ∧ Sorted (λ a b, a ≠ b) (concat rounds).
Proof.
  split; [by vm_compute|]. apply randomized_sequence; [by vm_compute|by vm_compute|simpl; lia].
Defined.

(** With a step of zero, which [validate_config] refuses, the loop never ends. *)
Lemma zero_step_never_ends fuel min_size max_size :
  min_size < max_size <= u64_max → stepped_sizes fuel min_size max_size 0 = None.
Proof. apply stepped_loop_stuck. Qed.
