(* ===== verification/Sampling.v ===== *)
(** * Choosing samples

    [sampled_member_index], [deterministic_commit_receive_sample_indices],
    [build_commit_receive_sampling_map] and the per-plateau counts of
    [OpenMLS_containerized/src/staircase_runner.rs].  The sampler draws indices from
    a 64-bit linear congruential generator until it has enough; that it always gets
    there is the full period of the generator, proved below. *)

From S2P Require Import Prelude RunnerConfig.
From stdpp Require Import options.

Local Open Scope N_scope.

(** ** Evenly spaced members *)

(** The assertions are [None]; the product is a [u128]. *)
Definition sampled_member_index (member_count sample_count seq_no : N) : option N :=
  if (member_count =? 0) || (sample_count =? 0) then None
  else if member_count <=? sample_count then Some (seq_no mod member_count)
  else
    let sample_no := seq_no mod sample_count in
    let one_based_index := ((sample_no + 1) * member_count) `div` sample_count in
    Some (saturating_sub one_based_index 1).

(** ** Random indices *)

Definition LCG_MUL : N := 6364136223846793005.
Definition LCG_ADD : N := 1442695040888963407.

Definition lcg (state : N) : N := wrapping_add64 (wrapping_mul64 state LCG_MUL) LCG_ADD.

Definition sample_seed (seed plateau_size epoch seq_no : N) : N :=
  N.lxor (N.lxor (N.lxor seed (wrap64 (N.shiftl plateau_size 32))) epoch)
    (wrapping_mul64 seq_no 11400714819323198485).

(** [while chosen.len() < max_samples { .. }] *)
Fixpoint sample_loop (fuel : nat) (recipient_count : N) (max_samples : nat) (state : N)
    (chosen : list N) : option (list N) :=
  if (length chosen <? max_samples)%nat then
    match fuel with
    | O => None
    | S fuel =>
        let state := lcg state in
        let idx := state mod recipient_count in
        sample_loop fuel recipient_count max_samples state
          (if decide (idx ∈ chosen) then chosen else chosen ++ [idx])
    end
  else Some chosen.

(** [0..n] *)
Definition range (n : N) : list N := N.of_nat <$> seq 0 (N.to_nat n).

Definition first_choices (recipient_count : N) : list N :=
  [0] ++ (if 1 <? recipient_count then [recipient_count - 1] else [])
  ++ (if 2 <? recipient_count then [recipient_count `div` 2] else []).

Definition deterministic_commit_receive_sample_indices (fuel : nat)
    (recipient_count max_samples seed plateau_size epoch seq_no : N) : option (list N) :=
  if (recipient_count =? 0) || (max_samples =? 0) then Some []
  else if recipient_count <=? max_samples then Some (range recipient_count)
  else
    let! chosen <- sample_loop fuel recipient_count (N.to_nat max_samples)
                     (sample_seed seed plateau_size epoch seq_no)
                     (first_choices recipient_count) in
    Some (merge_sort N.le chosen).

(** ** The sampling map *)

Fixpoint add_external (sample_indices : list N) (idx : N) (recipients : list WorkerSpec) : list N :=
  match recipients with
  | [] => sample_indices
  | w :: rest =>
      add_external
        (if profile_enabled w && is_external_device w && negb (bool_decide (idx ∈ sample_indices))
         then sample_indices ++ [idx] else sample_indices) (idx + 1) rest
  end.

Definition build_commit_receive_sampling_map (fuel : nat) (recipients : list WorkerSpec)
    (max_samples seed plateau_size epoch seq_no : N) :
    option (gset string * gmap string nat * nat) :=
  let! sample_indices <-
    deterministic_commit_receive_sample_indices fuel (N.of_nat (length recipients)) max_samples
      seed plateau_size epoch seq_no in
  let sample_indices := merge_sort N.le (add_external sample_indices 0 recipients) in
  let ids := omap (λ idx, id <$> recipients !! N.to_nat idx) sample_indices in
  let sampled_ids : gset string := list_to_set ids in
  let index_map : gmap string nat :=
    foldl (λ m p, <[p.2 := p.1]> m) ∅
      (omap (λ p : nat * N, (λ w, (p.1, id w)) <$> recipients !! N.to_nat p.2)
         (zip (seq 0 (length sample_indices)) sample_indices)) in
  Some (sampled_ids, index_map, size sampled_ids).

(** ** Operation counts per plateau *)

Definition saturating_mul (x y : N) : N := N.min (x * y) u64_max.

Definition cap_count (raw cap : N) : N := if cap =? 0 then 0 else N.min raw cap.

Definition update_ops_for_plateau (size update_rounds max_update_samples_per_plateau : N) : N :=
  cap_count (saturating_mul update_rounds size) max_update_samples_per_plateau.

Definition app_sends_per_payload_for_plateau (size app_rounds max_app_samples_per_payload : N) : N :=
  if size <? 2 then 0
  else cap_count (saturating_mul app_rounds size) max_app_samples_per_payload.

Definition app_ops_for_plateau (size app_rounds max_app_samples_per_payload payload_count : N) : N :=
  saturating_mul (app_sends_per_payload_for_plateau size app_rounds max_app_samples_per_payload)
    payload_count.

(** ** The generator has full period *)

Section full_period.
Local Open Scope Z_scope.

Definition a : Z := Z.of_N LCG_MUL.
Definition c : Z := Z.of_N LCG_ADD.

(** [n] steps of the generator, without reduction. *)
Fixpoint geometric (n : nat) : Z := match n with O => 0 | S n => a * geometric n + 1 end.
Definition steps (n : nat) (x : Z) : Z := a ^ Z.of_nat n * x + c * geometric n.

Lemma steps_S n x : steps (S n) x = a * steps n x + c.
Proof. unfold steps. rewrite Nat2Z.inj_succ, Z.pow_succ_r by lia. cbn [geometric]. ring. Qed.

Lemma geometric_add n m : geometric (n + m) = a ^ Z.of_nat m * geometric n + geometric m.
Proof.
  induction m as [|m IH].
  - rewrite Nat.add_0_r. cbn [geometric]. change (Z.of_nat 0) with 0. rewrite Z.pow_0_r. ring.
  - rewrite Nat.add_succ_r, Nat2Z.inj_succ, Z.pow_succ_r by lia. cbn [geometric]. rewrite IH. ring.
Qed.

Lemma steps_add n m x : steps (n + m) x = steps m (steps n x).
Proof.
  unfold steps. rewrite geometric_add, Nat2Z.inj_add, Z.pow_add_r by lia. ring.
Qed.

Lemma double_pow k : (2 ^ S k = 2 ^ k + 2 ^ k)%nat.
Proof. simpl. lia. Qed.

(** [a^(2^k) = 1 mod 2^(k+1)], and [geometric (2^k)] is [2^k] times an odd number. *)
Lemma period_arith k :
  (∃ w, a ^ Z.of_nat (2 ^ k) = 1 + 4 * 2 ^ Z.of_nat k * w)
  ∧ (∃ v, geometric (2 ^ k) = 2 ^ Z.of_nat k * (2 * v + 1)).
Proof.
  induction k as [|k [[w Hw] [v Hv]]].
  - split; [exists 1591034055961698251; reflexivity|exists 0; reflexivity].
  - rewrite double_pow, Nat2Z.inj_add, Z.pow_add_r, geometric_add, Hw, Hv by lia.
    rewrite Nat2Z.inj_succ, Z.pow_succ_r by lia. set (p := 2 ^ Z.of_nat k). split.
    + exists (w + 2 * p * w * w). ring.
    + exists (p * w * (2 * v + 1) + v). ring.
Qed.

(** Every residue modulo [2^k] is reached within [2^k] steps. *)
Lemma steps_reach k x y :
  ∃ n, (n < 2 ^ k)%nat ∧ ∃ q, steps n x = y + 2 ^ Z.of_nat k * q.
Proof.
  revert x y. induction k as [|k IH]; intros x y.
  - exists 0%nat. split; [simpl; lia|]. exists (steps 0 x - y). change (2 ^ Z.of_nat 0) with 1. ring.
  - destruct (IH x y) as (n & Hn & q & Hq).
    rewrite double_pow, Nat2Z.inj_succ, Z.pow_succ_r by lia.
    destruct (Z.Even_or_Odd q) as [[r Hr]|[r Hr]].
    + exists n. split; [lia|]. exists r. rewrite Hq, Hr. ring.
    + destruct (period_arith k) as [[w Hw] [v Hv]].
      exists (n + 2 ^ k)%nat. split; [lia|].
      rewrite steps_add, Hq, Hr. unfold steps at 1. rewrite Hv, Hw.
      assert (Hc : c = 2 * 721347520444481703 + 1) by reflexivity. rewrite Hc.
      set (p := 2 ^ Z.of_nat k). set (h := 721347520444481703).
      exists (r + 2 * w * (y + p * (2 * r + 1)) + (2 * h + 1) * v + h + 1). ring.
Qed.
End full_period.

Fixpoint lcg_iter (n : nat) (s : N) : N :=
  match n with O => s | S n => lcg_iter n (lcg s) end.

Lemma lcg_bound s : lcg s < pow64.
Proof. apply wrap64_bound. Qed.

Lemma lcg_iter_steps n s :
  s < pow64 → Z.of_N (lcg_iter n s) = (steps n (Z.of_N s) mod Z.of_N pow64)%Z.
Proof.
  revert s. induction n as [|n IH]; intros s Hs.
  - unfold steps. cbn [lcg_iter geometric]. change (Z.of_nat 0) with 0%Z.
    rewrite Z.pow_0_r, Z.mod_small; lia.
  - cbn [lcg_iter]. rewrite IH by apply lcg_bound.
    change (S n) with (1 + n)%nat. rewrite steps_add.
    assert (H1 : Z.of_N (lcg s) = (steps 1 (Z.of_N s) mod Z.of_N pow64)%Z).
    { unfold lcg, wrapping_add64, wrapping_mul64, wrap64.
      rewrite N2Z.inj_mod, N2Z.inj_add, N2Z.inj_mod, N2Z.inj_mul, Z.add_mod_idemp_l by done.
      f_equal. unfold steps. cbn [geometric]. change (Z.of_nat 1) with 1%Z.
      rewrite Z.pow_1_r. unfold a, c. lia. }
    rewrite H1. unfold steps at 1 3.
    rewrite <-Z.add_mod_idemp_l, Z.mul_mod_idemp_r, Z.add_mod_idemp_l by done. done.
Qed.

(** Every 64-bit state is reached within a period. *)
Definition period : nat := N.to_nat pow64.

Lemma lcg_reach s y : s < pow64 → y < pow64 → ∃ n, (n < period)%nat ∧ lcg_iter n s = y.
Proof.
  intros Hs Hy. destruct (steps_reach 64 (Z.of_N s) (Z.of_N y)) as (n & Hn & q & Hq).
  assert (Hp : (2 ^ 64 = period)%nat).
  { unfold period. change pow64 with (2 ^ 64)%N. by rewrite N2Nat.inj_pow. }
  exists n. split; [by rewrite <-Hp|]. apply N2Z.inj. rewrite lcg_iter_steps, Hq by done.
  change (2 ^ Z.of_nat 64)%Z with (Z.of_N pow64).
  rewrite Z.mul_comm, Z.mod_add, Z.mod_small by lia. done.
Qed.

Section loop.
Context (rc : N) (max : nat).

Lemma loop_progress n : ∀ state chosen,
  (lcg_iter n (lcg state)) mod rc ∉ chosen → rc ≠ 0 → (length chosen < max)%nat →
  ∃ m state' idx, (m <= S n)%nat ∧ (idx ∉ chosen) ∧ idx < rc
    ∧ ∀ fuel, sample_loop (m + fuel) rc max state chosen
              = sample_loop fuel rc max state' (chosen ++ [idx]).
Proof.
  induction n as [|n IH]; intros state chosen Hn Hrc Hlen;
    (destruct (decide (lcg state mod rc ∈ chosen)) as [Hin|Hin];
     [|exists 1%nat, (lcg state), (lcg state mod rc);
       split_and!; [lia|done|by apply N.mod_lt|];
       intros fuel; cbn [Nat.add sample_loop];
       rewrite (proj2 (Nat.ltb_lt _ _) Hlen); by rewrite decide_False]).
  - done.
  - destruct (IH (lcg state) chosen Hn Hrc Hlen) as (m & st & idx & H0 & H1 & H2 & H4).
    exists (S m), st, idx. split_and!; [lia|done..|]. intros fuel. rewrite <-H4.
    cbn [Nat.add sample_loop]. rewrite (proj2 (Nat.ltb_lt _ _) Hlen). by rewrite decide_True.
Qed.

Lemma range_spec n x : x ∈ range n ↔ x < n.
Proof.
  unfold range. rewrite list_elem_of_fmap. setoid_rewrite elem_of_seq. split.
  - intros (y & -> & Hy). lia.
  - intros Hx. exists (N.to_nat x). lia.
Qed.

Lemma range_sorted n : Sorted N.lt (range n).
Proof.
  unfold range. generalize 0%nat. induction (N.to_nat n) as [|k IH]; intros s; [constructor|].
  cbn [seq fmap list_fmap]. constructor; [apply IH|]. destruct k; constructor. lia.
Qed.

Lemma length_range n : length (range n) = N.to_nat n.
Proof. unfold range. by rewrite length_fmap, length_seq. Qed.

Lemma range_nodup n : NoDup (range n).
Proof. unfold range. apply NoDup_fmap_2; [intros x y; apply Nat2N.inj|apply NoDup_seq]. Qed.

(** Fewer indices than recipients: some index is still missing. *)
Lemma missing_index chosen :
  (length chosen < N.to_nat rc)%nat → ∃ idx, idx < rc ∧ idx ∉ chosen.
Proof.
  intros Hlen. destruct (filter (λ x, x ∉ chosen) (range rc)) as [|x l] eqn:E.
  - exfalso. assert (Hs : range rc ⊆+ chosen).
    { apply NoDup_submseteq; [apply range_nodup|]. intros x Hx.
      destruct (decide (x ∈ chosen)) as [|Hn]; [done|].
      assert (x ∈ filter (λ x, x ∉ chosen) (range rc)) by (by apply list_elem_of_filter).
      rewrite E in *. by apply not_elem_of_nil in H. }
    apply submseteq_length in Hs. rewrite length_range in Hs. lia.
  - exists x. assert (Hx : x ∈ filter (λ x, x ∉ chosen) (range rc)) by (rewrite E; left).
    apply list_elem_of_filter in Hx as [H1 H2]. by apply range_spec in H2.
Qed.

Lemma sample_loop_spec : ∀ k state chosen,
  k = (max - length chosen)%nat → rc <= u64_max → (max < N.to_nat rc)%nat →
  NoDup chosen → Forall (λ i, i < rc) chosen →
  ∃ fuel0 new, (fuel0 <= k * period)%nat
    ∧ (∀ extra, sample_loop (fuel0 + extra) rc max state chosen = Some (chosen ++ new))
    ∧ NoDup (chosen ++ new) ∧ Forall (λ i, i < rc) (chosen ++ new) ∧ length new = k.
Proof.
  induction k as [|k IH]; intros state chosen Hk Hrc Hmax Hnd Hf.
  - exists 0%nat, []. rewrite app_nil_r. split_and!; try done. intros extra.
    destruct extra; cbn [Nat.add sample_loop]; by rewrite (proj2 (Nat.ltb_ge _ _)) by lia.
  - destruct (missing_index chosen) as (idx & Hidx & Hin); [lia|].
    destruct (lcg_reach (lcg state) idx) as (n & Hlt & Hn);
      [apply lcg_bound|apply u64_max_pow64; lia|].
    destruct (loop_progress n state chosen) as (m & st & i & Hm & Hi & Hir & Hloop);
      [by rewrite Hn, N.mod_small|lia|lia|].
    destruct (IH st (chosen ++ [i])) as (fuel0 & new & Hb & Hl & Hn' & Hf' & Hlen);
      [rewrite length_app; simpl; lia|done|done| | |].
    + apply NoDup_app. split_and!; [done| |apply NoDup_singleton].
      intros x Hx. rewrite list_elem_of_singleton. by intros ->.
    + apply Forall_app. by repeat constructor.
    + exists (m + fuel0)%nat, (i :: new).
      rewrite <-app_assoc in *. cbn [app] in *.
      split_and!; [cbn [Nat.mul]; lia| |done|done|cbn; by f_equal].
      intros extra. rewrite <-Nat.add_assoc, Hloop. apply Hl.
Qed.
End loop.

Lemma half_bounds n : 2 < n → 0 < n `div` 2 < n - 1.
Proof.
  intros Hn. pose proof (N.div_mod n 2 ltac:(done)). pose proof (N.mod_lt n 2 ltac:(done)).
  set (q := n `div` 2) in *. set (r := n `mod` 2) in *. lia.
Qed.

Lemma first_choices_spec rc :
  0 < rc → NoDup (first_choices rc) ∧ Forall (λ i, i < rc) (first_choices rc)
  ∧ length (first_choices rc) = N.to_nat (N.min rc 3).
Proof.
  intros Hrc. unfold first_choices.
  destruct (N.ltb_spec 1 rc) as [H1|H1]; destruct (N.ltb_spec 2 rc) as [H2|H2]; try lia; simpl.
  - pose proof (half_bounds rc H2). set (h := rc `div` 2) in *. split_and!; [|repeat constructor; lia|lia].
    repeat apply NoDup_cons_2; try apply NoDup_nil_2; rewrite ?elem_of_cons, ?elem_of_nil; lia.
  - split_and!; [|repeat constructor; lia|lia].
    repeat apply NoDup_cons_2; try apply NoDup_nil_2; rewrite ?elem_of_cons, ?elem_of_nil; lia.
  - split_and!; [apply NoDup_singleton|repeat constructor; lia|lia].
Qed.

Lemma strictly_sorted l : Sorted N.le l → NoDup l → Sorted N.lt l.
Proof.
  induction l as [|x l IH]; intros Hs Hn; [constructor|].
  inversion Hs as [|?? Hs' Hd]; subst. apply NoDup_cons in Hn as [Hx Hn].
  constructor; [by apply IH|]. destruct l as [|y l]; constructor.
  inversion Hd; subst. assert (x ≠ y) by (intros ->; apply Hx; left). lia.
Qed.

#[export] Instance N_le_trans : Transitive N.le := N.le_trans.
#[export] Instance N_le_total : Total N.le := N.le_ge_cases.

(** The indices the sampler returns. *)
Definition good_sample (recipient_count max_samples : N) (l : list N) : Prop :=
  Sorted N.lt l ∧ Forall (λ i, i < recipient_count) l
  ∧ N.of_nat (length l)
    = (if (recipient_count =? 0) || (max_samples =? 0) then 0
       else if recipient_count <=? max_samples then recipient_count
       else N.max max_samples (N.min recipient_count 3))
  ∧ (0 < max_samples → 0 < recipient_count →
     0 ∈ l ∧ recipient_count - 1 ∈ l ∧ recipient_count `div` 2 ∈ l).

Lemma sample_indices_good rc max seed plateau epoch seq_no :
  rc <= u64_max →
  ∃ fuel0 l, (fuel0 <= N.to_nat max * period)%nat
    ∧ (∀ extra, deterministic_commit_receive_sample_indices (fuel0 + extra) rc max seed
                  plateau epoch seq_no = Some l) ∧ good_sample rc max l.
Proof.
  intros Hrc. unfold deterministic_commit_receive_sample_indices, good_sample.
  destruct ((rc =? 0) || (max =? 0)) eqn:E0.
  { exists 0%nat, []. split; [lia|]. split; [done|]. split_and!; [constructor|constructor|done|].
    intros. apply orb_true_iff in E0 as [E%N.eqb_eq|E%N.eqb_eq]; lia. }
  apply orb_false_iff in E0 as [E0%N.eqb_neq E1%N.eqb_neq].
  assert (Hdiv : rc `div` 2 < rc) by (apply N.div_lt; lia).
  destruct (N.leb_spec rc max) as [Hle|Hlt].
  { exists 0%nat, (range rc). split; [lia|]. split; [done|]. split_and!; [apply range_sorted| | |].
    - apply Forall_forall. intros x. by rewrite range_spec.
    - rewrite length_range. lia.
    - intros. rewrite !range_spec. lia. }
  destruct (first_choices_spec rc ltac:(lia)) as (F1 & F2 & F3).
  destruct (sample_loop_spec rc (N.to_nat max) _ (sample_seed seed plateau epoch seq_no)
              (first_choices rc) eq_refl) as (fuel0 & new & Hb & Hl & Hn & Hf & Hlen);
    [done|lia|done|done|].
  exists fuel0, (merge_sort N.le (first_choices rc ++ new)).
  pose proof (merge_sort_Permutation N.le (first_choices rc ++ new)) as Hp.
  split; [etrans; [exact Hb|apply Nat.mul_le_mono_r; lia]|].
  split; [intros extra; by rewrite Hl|]. split_and!.
  - apply strictly_sorted; [apply Sorted_merge_sort; apply _|by rewrite Hp].
  - by rewrite Hp.
  - rewrite (Permutation_length Hp), length_app, F3, Hlen. lia.
  - intros _ _. rewrite !Hp, !elem_of_app. unfold first_choices.
    destruct (N.ltb_spec 1 rc); destruct (N.ltb_spec 2 rc); try lia; cbn [app].
    + rewrite !elem_of_cons. auto 10.
    + assert (rc = 2) as -> by lia. change (2 - 1) with 1. change (2 `div` 2) with 1.
      rewrite !elem_of_cons. auto 10.
Qed.

(** ** The sampling map *)

Lemma add_external_spec recipients : ∀ sample_indices start,
  ∃ new, add_external sample_indices start recipients = sample_indices ++ new
  ∧ Forall (λ i, start <= i < start + N.of_nat (length recipients)) new
  ∧ (NoDup sample_indices → NoDup (sample_indices ++ new))
  ∧ ∀ k w, recipients !! k = Some w → profile_enabled w && is_external_device w = true →
      start + N.of_nat k ∈ sample_indices ++ new.
Proof.
  induction recipients as [|w ws IH]; intros si start; cbn [add_external].
  { exists []. rewrite app_nil_r. by split_and!. }
  match goal with |- context [add_external ?x _ ws] => set (si' := x) end.
  assert (Hsi : ∃ pre, si' = si ++ pre ∧ Forall (λ i, i = start) pre ∧ (NoDup si → NoDup si')
    ∧ (profile_enabled w && is_external_device w = true → start ∈ si')).
  { unfold si'. destruct (profile_enabled w && is_external_device w); simpl;
      [|exists []; by rewrite app_nil_r].
    case_bool_decide as Hin; simpl; [exists []; by rewrite app_nil_r|].
    exists [start]. split_and!; [done|by repeat constructor| |].
    - intros Hn. apply NoDup_app. split_and!; [done| |apply NoDup_singleton].
      intros x Hx. rewrite list_elem_of_singleton. by intros ->.
    - intros _. apply elem_of_app. right. left. }
  destruct Hsi as (pre & Hpre & Hf & Hn & Hx).
  destruct (IH si' (start + 1)) as (new & -> & Hf' & Hn' & Hx').
  exists (pre ++ new). rewrite Hpre, <-app_assoc in *. split_and!; [done| |auto|].
  - apply Forall_app. split; (eapply Forall_impl; [done|]); simpl; intros; lia.
  - intros [|k] w' Hk Hw; simpl in Hk.
    + simplify_eq. rewrite N.add_0_r. rewrite app_assoc. apply elem_of_app. left. auto.
    + specialize (Hx' k w' Hk Hw). by replace (start + N.of_nat (S k)) with (start + 1 + N.of_nat k) by lia.
Qed.

(** Inserting pairs with distinct keys. *)
Lemma foldl_insert_lookup (l : list (nat * string)) : ∀ (m : gmap string nat),
  NoDup l.*2 →
  (∀ k v, (v, k) ∈ l → foldl (λ m p, <[p.2 := p.1]> m) m l !! k = Some v)
  ∧ (∀ k, k ∉ l.*2 → foldl (λ m p, <[p.2 := p.1]> m) m l !! k = m !! k).
Proof.
  induction l as [|[v k] l IH]; intros m Hn; [by split; [intros ? ? ?%not_elem_of_nil|]|].
  apply NoDup_cons in Hn as [Hk Hn]. destruct (IH (<[k := v]> m) Hn) as [H1 H2].
  cbn [foldl fst snd]. split.
  - intros k' v' [[= -> ->]|Hin]%elem_of_cons; [|by apply H1].
    rewrite H2 by done. apply lookup_insert_eq.
  - intros k' Hk'. cbn [fmap list_fmap snd] in Hk'. apply not_elem_of_cons in Hk' as [Hne Hk'].
    rewrite H2 by done. by rewrite lookup_insert_ne.
Qed.

Section positions.
Context (recipients : list WorkerSpec) (Hids : NoDup (id <$> recipients)).

Definition id_at (idx : N) : string := default "" (id <$> recipients !! N.to_nat idx).

Lemma id_at_lookup idx : idx < N.of_nat (length recipients) →
  id <$> recipients !! N.to_nat idx = Some (id_at idx).
Proof.
  intros H. unfold id_at. destruct (lookup_lt_is_Some_2 recipients (N.to_nat idx)) as [w ->]; [lia|done].
Qed.

Lemma id_at_inj i j :
  i < N.of_nat (length recipients) → j < N.of_nat (length recipients) → id_at i = id_at j → i = j.
Proof using Hids.
  intros Hi Hj He. apply id_at_lookup in Hi, Hj. rewrite He in Hi.
  apply N2Nat.inj. rewrite <-list_lookup_fmap in Hi, Hj. by eapply NoDup_lookup.
Qed.

Lemma omap_ids l : Forall (λ i, i < N.of_nat (length recipients)) l →
  omap (λ idx, id <$> recipients !! N.to_nat idx) l = id_at <$> l.
Proof.
  induction 1 as [|i l Hi _ IH]; [done|]. cbn [omap list_omap]. by rewrite id_at_lookup, fmap_cons, <-IH.
Qed.

Lemma omap_ranks l : ∀ start, Forall (λ i, i < N.of_nat (length recipients)) l →
  omap (λ p : nat * N, (λ w, (p.1, id w)) <$> recipients !! N.to_nat p.2)
    (zip (seq start (length l)) l)
  = zip (seq start (length l)) (id_at <$> l).
Proof.
  induction l as [|i l IH]; intros start Hf; [done|]. inversion Hf as [|?? Hi Hf']; subst.
  cbn [length seq zip zip_with omap list_omap fst snd]. specialize (IH (S start) Hf').
  apply id_at_lookup in Hi. rewrite fmap_cons. cbn [zip zip_with].
  destruct (recipients !! N.to_nat i) as [w|]; [|done]. simpl in *. simplify_eq.
  f_equal; [by f_equal|]. exact IH.
Qed.

Lemma ids_nodup l :
  NoDup l → Forall (λ i, i < N.of_nat (length recipients)) l → NoDup (id_at <$> l).
Proof using Hids.
  induction 1 as [|i l Hi Hn IH]; intros Hf; [constructor|]. inversion Hf; subst.
  rewrite fmap_cons. apply NoDup_cons. split; [|by apply IH].
  intros (j & He & Hj)%list_elem_of_fmap. rewrite Forall_forall in H2.
  apply id_at_inj in He; [|done|by apply H2]. by subst.
Qed.
End positions.

Lemma zip_lookup {A} (l : list A) k x : ∀ start,
  l !! k = Some x → ((start + k)%nat, x) ∈ zip (seq start (length l)) l.
Proof.
  revert k. induction l as [|y l IH]; intros [|k] start Hk; simplify_eq/=.
  - rewrite Nat.add_0_r. left.
  - right. rewrite Nat.add_succ_r. by apply (IH k (S start)).
Qed.

(** ** Properties *)

(** C14: The commit-receive sampler always terminates - its generator has full period
    - and returns, in increasing order, distinct recipients: all of them when they
    fit, otherwise the first, the last and the middle one and as many more as were
    asked for. *)
Theorem sampler_terminates (recipient_count max_samples seed plateau_size epoch seq_no : N)
    (Hcount : recipient_count <= u64_max) :
  ∃ fuel0 l,
    (∀ extra, deterministic_commit_receive_sample_indices (fuel0 + extra) recipient_count
                max_samples seed plateau_size epoch seq_no = Some l)
    ∧ good_sample recipient_count max_samples l.
Proof.
  destruct (sample_indices_good recipient_count max_samples seed plateau_size epoch seq_no Hcount)
    as (fuel0 & l & _ & H). by exists fuel0, l.
Qed.

(** How many draws are always enough *)
Definition enough_draws (max_samples : N) : nat := (N.to_nat max_samples * period)%nat.

Lemma sampling_map_total fuel recipients max_samples seed plateau_size epoch seq_no :
  (enough_draws max_samples <= fuel)%nat → N.of_nat (length recipients) <= u64_max →
  is_Some (build_commit_receive_sampling_map fuel recipients max_samples seed plateau_size epoch seq_no).
Proof.
  intros Hf Hc.
  destruct (sample_indices_good _ max_samples seed plateau_size epoch seq_no Hc)
    as (fuel0 & l & Hb & Hl & _).
  unfold build_commit_receive_sampling_map. unfold enough_draws in Hf.
  replace fuel with (fuel0 + (fuel - fuel0))%nat by lia. rewrite Hl. by eexists.
Qed.

Lemma sampler_terminates_witness :
  10 <= u64_max ∧ ∃ fuel0 l,
    (∀ extra, deterministic_commit_receive_sample_indices (fuel0 + extra) 10 4 7 10 3 1 = Some l)
    ∧ good_sample 10 4 l.
Proof. split; [done|]. by apply sampler_terminates. Defined.

(** The sampling map ranks the sampled recipients: positions are increasing, every
    profile-enabled external device is among them, each sampled identifier is mapped
    to its rank, and the reported count is the number of ranks. *)
Theorem sampling_map_ranks (recipients : list WorkerSpec)
    (max_samples seed plateau_size epoch seq_no : N)
    (Hids : NoDup (id <$> recipients)) (Hcount : N.of_nat (length recipients) <= u64_max) :
  ∃ fuel0 positions sampled_ids index_map count,
    (∀ extra, build_commit_receive_sampling_map (fuel0 + extra) recipients max_samples seed
                plateau_size epoch seq_no = Some (sampled_ids, index_map, count))
    ∧ Sorted N.lt positions ∧ count = length positions
    ∧ (∀ k w, recipients !! k = Some w → profile_enabled w && is_external_device w = true →
         N.of_nat k ∈ positions)
    ∧ (∀ rank idx, positions !! rank = Some idx →
         ∃ w, recipients !! N.to_nat idx = Some w ∧ id w ∈ sampled_ids
              ∧ index_map !! id w = Some rank).
Proof.
  destruct (sample_indices_good _ max_samples seed plateau_size epoch seq_no Hcount)
    as (fuel0 & l & _ & Hl & Hs & Hb & _).
  destruct (add_external_spec recipients l 0) as (new & Hadd & Hnew & Hnd & Hext).
  set (positions := merge_sort N.le (l ++ new)).
  pose proof (merge_sort_Permutation N.le (l ++ new)) as Hp. fold positions in Hp.
  assert (Hndl : NoDup positions).
  { rewrite Hp. apply Hnd. apply (Sorted_StronglySorted N.lt) in Hs.
    clear -Hs. induction Hs as [|x l Hs IH Hf]; constructor; [|done].
    intros Hx. rewrite Forall_forall in Hf. specialize (Hf x Hx). lia. }
  assert (Hlt : Forall (λ i, i < N.of_nat (length recipients)) positions).
  { rewrite Hp. apply Forall_app. split; [done|]. eapply Forall_impl; [exact Hnew|]. simpl. intros; lia. }
  pose proof (ids_nodup recipients Hids positions Hndl Hlt) as Hidn.
  exists fuel0, positions. do 3 eexists. split_and!.
  - intros extra. unfold build_commit_receive_sampling_map. rewrite Hl, Hadd. fold positions. done.
  - apply strictly_sorted; [apply Sorted_merge_sort; apply _|done].
  - rewrite omap_ids, size_list_to_set, length_fmap by done. done.
  - intros k w Hk Hw. rewrite Hp. apply (Hext k w Hk Hw).
  - intros rank idx Hr. rewrite Forall_forall in Hlt.
    assert (Hi : idx < N.of_nat (length recipients)) by (apply Hlt; by eapply list_elem_of_lookup_2).
    pose proof (id_at_lookup recipients idx Hi) as Hw.
    destruct (recipients !! N.to_nat idx) as [w|] eqn:E; [|done]. simpl in Hw. injection Hw as Hw.
    exists w. rewrite Hw. split; [done|].
    rewrite omap_ids, omap_ranks by (by apply Forall_forall). split.
    + apply elem_of_list_to_set, list_elem_of_fmap. exists idx. split; [done|].
      by eapply list_elem_of_lookup_2.
    + apply foldl_insert_lookup.
      * rewrite snd_zip; [done|]. rewrite length_seq, length_fmap. lia.
      * rewrite <-(length_fmap (id_at recipients) positions).
        apply (zip_lookup (id_at recipients <$> positions) rank _ 0).
        by rewrite list_lookup_fmap, Hr.
Qed.

Lemma sampling_map_ranks_witness :
  let recipients := [MkWorkerSpec "a" "" "" "" "" Singleton true "pi";
                     MkWorkerSpec "b" "" "" "" "" Singleton true ""] in
  (NoDup (id <$> recipients) ∧ N.of_nat (length recipients) <= u64_max)
  ∧ ∃ fuel0 positions sampled_ids index_map count,
    (∀ extra, build_commit_receive_sampling_map (fuel0 + extra) recipients 1 2 3 4 5
              = Some (sampled_ids, index_map, count))
    ∧ Sorted N.lt positions ∧ count = length positions
    ∧ (∀ k w, recipients !! k = Some w → profile_enabled w && is_external_device w = true →
         N.of_nat k ∈ positions)
    ∧ (∀ rank idx, positions !! rank = Some idx →
         ∃ w, recipients !! N.to_nat idx = Some w ∧ id w ∈ sampled_ids
              ∧ index_map !! id w = Some rank).
Proof.
  split; [split; [apply (bool_decide_unpack _); by vm_compute|by vm_compute]|].
  apply sampling_map_ranks; [apply (bool_decide_unpack _); by vm_compute|by vm_compute].
Defined.

(** Sampling one of three recipients picks all three: the fixed choices are made
    before the limit is looked at. *)
Lemma sampler_exceeds_small_limits :
  deterministic_commit_receive_sample_indices 0 3 1 0 0 0 0 = Some [0; 1; 2].
Proof. by vm_compute. Qed.

Lemma evenly_spaced member_count sample_count k :
  0 < sample_count < member_count → k < sample_count →
  ∃ i, sampled_member_index member_count sample_count k = Some i
    ∧ (k * member_count < (i + 1) * sample_count <= (k + 1) * member_count).
Proof.
  intros Hs Hk. unfold sampled_member_index.
  rewrite (proj2 (N.eqb_neq member_count 0)), (proj2 (N.eqb_neq sample_count 0)) by lia. simpl.
  rewrite (proj2 (N.leb_gt _ _)), (N.mod_small k) by lia. eexists. split; [done|].
  set (p := (k + 1) * member_count).
  pose proof (N.div_mod p sample_count ltac:(lia)) as Hd.
  pose proof (N.mod_lt p sample_count ltac:(lia)) as Hm.
  set (q := p `div` sample_count) in *. set (r := p `mod` sample_count) in *.
  assert (Hp : p = k * member_count + member_count) by (unfold p; lia).
  assert (Hq : q ≠ 0) by (intros Hz; rewrite Hz, N.mul_0_r in Hd; lia). unfold saturating_sub.
  replace (q - 1 + 1) with q by lia. rewrite (N.mul_comm q). lia.
Qed.

Lemma sampled_member_range member_count sample_count seq_no :
  0 < member_count → 0 < sample_count →
  ∃ i, sampled_member_index member_count sample_count seq_no = Some i ∧ i < member_count.
Proof.
  intros Hm Hs. destruct (N.le_gt_cases member_count sample_count) as [Hle|Hlt].
  - exists (seq_no mod member_count). split; [|apply N.mod_lt; lia]. unfold sampled_member_index.
    rewrite (proj2 (N.eqb_neq member_count 0)), (proj2 (N.eqb_neq sample_count 0)) by lia. simpl.
    by rewrite (proj2 (N.leb_le _ _)).
  - assert (Hmod : sampled_member_index member_count sample_count seq_no
      = sampled_member_index member_count sample_count (seq_no mod sample_count)).
    { unfold sampled_member_index. by rewrite N.Div0.mod_mod, (proj2 (N.leb_gt _ _)). }
    assert (Hr : seq_no mod sample_count < sample_count) by (apply N.mod_lt; lia).
    destruct (evenly_spaced member_count sample_count _ ltac:(lia) Hr) as (i & Hi & Hb).
    exists i. rewrite Hmod. split; [done|].
    set (r := seq_no mod sample_count) in *. nia.
Qed.

(** The members used as samples are evenly spread: with fewer samples than
    members, one round of sample numbers gives strictly increasing members, all in
    range and ending with the last one; with at least as many samples as members,
    the members take turns. *)
Theorem sampled_members_spread (member_count sample_count : N)
    (Hmembers : 0 < member_count) (Hsamples : 0 < sample_count) :
  (∀ seq_no, ∃ i, sampled_member_index member_count sample_count seq_no = Some i
     ∧ i < member_count)
  ∧ (member_count <= sample_count → ∀ seq_no,
       sampled_member_index member_count sample_count seq_no = Some (seq_no mod member_count))
  ∧ (sample_count < member_count →
     sampled_member_index member_count sample_count (sample_count - 1) = Some (member_count - 1)
     ∧ ∀ j k, j < k < sample_count → ∃ i i',
         sampled_member_index member_count sample_count j = Some i
         ∧ sampled_member_index member_count sample_count k = Some i' ∧ i < i').
Proof.
  assert (Hbig : member_count <= sample_count → ∀ seq_no,
    sampled_member_index member_count sample_count seq_no = Some (seq_no mod member_count)).
  { intros Hle seq_no. unfold sampled_member_index.
    rewrite (proj2 (N.eqb_neq member_count 0)), (proj2 (N.eqb_neq sample_count 0)) by lia. simpl.
    by rewrite (proj2 (N.leb_le _ _)). }
  split_and!; [|done|].
  - intros seq_no. by apply sampled_member_range.
  - intros Hlt. split.
    + unfold sampled_member_index.
      rewrite (proj2 (N.eqb_neq member_count 0)), (proj2 (N.eqb_neq sample_count 0)) by lia.
      cbn [orb]. rewrite (proj2 (N.leb_gt _ _)), N.mod_small by lia.
      replace (sample_count - 1 + 1) with sample_count by lia.
      by rewrite N.mul_comm, N.div_mul by lia.
    + intros j k Hjk.
      destruct (evenly_spaced member_count sample_count j) as (i & Hi & Hb); [lia|lia|].
      destruct (evenly_spaced member_count sample_count k) as (i' & Hi' & Hb'); [lia|lia|].
      exists i, i'. split_and!; [done|done|].
      assert ((j + 1) * member_count <= k * member_count) by (apply N.mul_le_mono_r; lia).
      assert (i + 1 < i' + 1) by (apply (N.mul_lt_mono_pos_r sample_count); lia). lia.
Qed.

Lemma sampled_members_spread_witness :
  (0 < 10 ∧ 0 < 4)
  ∧ ((∀ seq_no, ∃ i, sampled_member_index 10 4 seq_no = Some i ∧ i < 10)
     ∧ (10 <= 4 → ∀ seq_no, sampled_member_index 10 4 seq_no = Some (seq_no mod 10))
     ∧ (4 < 10 → sampled_member_index 10 4 (4 - 1) = Some (10 - 1)
        ∧ ∀ j k, j < k < 4 → ∃ i i', sampled_member_index 10 4 j = Some i
            ∧ sampled_member_index 10 4 k = Some i' ∧ i < i')).
Proof. split; [done|]. by apply sampled_members_spread. Defined.
