(* ===== verification/Batches.v ===== *)
(** * Membership batches and the adaptive fan-out

    [FanoutController], [MembershipBatchPlanner], [MembershipBatchPlans] and
    [stable_string_seed] of [OpenMLS_containerized/src/staircase_runner.rs].
    [usize] is 64 bits; [f64] is the IEEE binary64 arithmetic of the standard
    library's [SpecFloat]. *)

From Stdlib Require Import SpecFloat.
From S2P Require Import Prelude Plateau.
From stdpp Require Import options.

Local Open Scope N_scope.

(** ** The fan-out controller *)

Definition f64 : Type := spec_float.
Definition f64_of_usize (n : N) : f64 := binary_normalize 53 1024 (Z.of_N n) 0 false.
Definition f64_div : f64 → f64 → f64 := SFdiv 53 1024.
Definition f64_ge (x y : f64) : bool := SFleb y x.

Definition ADAPTIVE_FANOUT_START : N := 16.
Definition FANOUT_STABLE_INCREASE_AFTER : N := 20.

Record FanoutController := MkFanoutController {
  max_parallelism : N;
  min_parallelism : N;
  current_parallelism : N;
  adaptive : bool;
  stable_successes : N;
  error_rate_threshold : f64;
  p95_threshold_ms : N;
}.

(** The fields of [FanoutSummary] the controller reads. *)
Record FanoutSummary := MkFanoutSummary {
  request_count : N;
  failure_count : N;
  latency_p95_ms : option N;
}.

Definition clamp (x lo hi : N) : N := N.max lo (N.min x hi).

Definition new_controller (max_p min_p : N) (adaptive : bool) (threshold : f64) (p95 : N) :
    FanoutController :=
  let max_p := N.max max_p 1 in
  let min_p := clamp min_p 1 max_p in
  let current :=
    if adaptive then N.max (N.min ADAPTIVE_FANOUT_START max_p) min_p else max_p in
  MkFanoutController max_p min_p current adaptive 0 threshold p95.

Definition parallelism (c : FanoutController) : N := N.max (current_parallelism c) 1.

Definition with_parallelism (c : FanoutController) (current stable : N) : FanoutController :=
  MkFanoutController (max_parallelism c) (min_parallelism c) current (adaptive c) stable
    (error_rate_threshold c) (p95_threshold_ms c).

Definition should_reduce (c : FanoutController) (s : FanoutSummary) : bool :=
  let p95 := default 0 (latency_p95_ms s) in
  let error_rate :=
    if request_count s =? 0 then f64_of_usize 0
    else f64_div (f64_of_usize (failure_count s)) (f64_of_usize (request_count s)) in
  let latency_spike := p95_threshold_ms c <=? p95 in
  let error_spike := f64_ge error_rate (error_rate_threshold c) && (0 <? failure_count s) in
  latency_spike || error_spike.

Definition record (c : FanoutController) (s : FanoutSummary) : FanoutController :=
  if negb (adaptive c) then c
  else if should_reduce c s then
    with_parallelism c (N.max (N.div (current_parallelism c) 2) (min_parallelism c)) 0
  else
    let stable := wrap64 (stable_successes c + 1) in
    if (FANOUT_STABLE_INCREASE_AFTER <=? stable) && (current_parallelism c <? max_parallelism c)
    then with_parallelism c
           (N.min (wrap64 (current_parallelism c + 4)) (max_parallelism c)) 0
    else with_parallelism c (current_parallelism c) stable.

Definition record_all (c : FanoutController) (l : list FanoutSummary) : FanoutController :=
  foldl record c l.

(** *** Invariant *)

Record controller_wf (c : FanoutController) : Prop := {
  wf_min : 1 <= min_parallelism c;
  wf_current : min_parallelism c <= current_parallelism c <= max_parallelism c;
  wf_max : max_parallelism c + 4 <= u64_max;
  wf_stable : stable_successes c < pow64;
}.

Lemma new_controller_wf max_p min_p ad th p95 :
  max_p + 4 <= u64_max → controller_wf (new_controller max_p min_p ad th p95).
Proof.
  intros H. unfold new_controller, clamp, ADAPTIVE_FANOUT_START, u64_max in *.
  split; simpl; [lia|destruct ad; lia|unfold u64_max; lia|done].
Qed.

Lemma record_wf c s :
  controller_wf c → controller_wf (record c s)
  ∧ max_parallelism (record c s) = max_parallelism c
  ∧ min_parallelism (record c s) = min_parallelism c
  ∧ adaptive (record c s) = adaptive c.
Proof.
  intros [H1 H2 H3 H4]. unfold record.
  destruct (negb (adaptive c)); [split; [by split|done]|].
  destruct (should_reduce c s); [|destruct ((_ <=? _) && _)]; (split; [split; simpl|done]);
    try done; unfold u64_max in *; try lia.
  - pose proof (N.Div0.div_le_upper_bound (current_parallelism c) 2 (current_parallelism c)). lia.
  - rewrite wrap64_small by (unfold pow64; lia). lia.
  - apply wrap64_bound.
Qed.

Lemma record_all_wf l : ∀ c,
  controller_wf c → controller_wf (record_all c l)
  ∧ max_parallelism (record_all c l) = max_parallelism c
  ∧ min_parallelism (record_all c l) = min_parallelism c
  ∧ adaptive (record_all c l) = adaptive c.
Proof.
  induction l as [|s l IH]; intros c Hc; [done|].
  destruct (record_wf c s Hc) as (H1 & H2 & H3 & H4).
  destruct (IH _ H1) as (I1 & I2 & I3 & I4). unfold record_all in *. simpl.
  by rewrite I2, I3, I4.
Qed.

(** *** Recovery *)

(** Below the maximum, calm summaries only count until the twentieth. *)
Lemma record_calm l : ∀ c,
  adaptive c = true → controller_wf c → Forall (λ s, should_reduce c s = false) l →
  stable_successes c + N.of_nat (length l) < FANOUT_STABLE_INCREASE_AFTER →
  record_all c l
  = with_parallelism c (current_parallelism c) (stable_successes c + N.of_nat (length l)).
Proof.
  induction l as [|s l IH]; intros c Ha Hc Hf Hlen.
  - cbn [length] in *. rewrite N.add_0_r. by destruct c.
  - inversion Hf as [|?? Hs Hf']; subst. unfold FANOUT_STABLE_INCREASE_AFTER in *.
    cbn [length] in Hlen.
    assert (Hr : record c s = with_parallelism c (current_parallelism c) (stable_successes c + 1)).
    { unfold record. rewrite Ha, Hs. simpl.
      rewrite wrap64_small by (unfold pow64; lia).
      unfold FANOUT_STABLE_INCREASE_AFTER.
      by rewrite (proj2 (N.leb_gt 20 (stable_successes c + 1))) by lia. }
    unfold record_all in *. cbn [foldl]. rewrite Hr.
    assert (Hwf : controller_wf (with_parallelism c (current_parallelism c) (stable_successes c + 1))).
    { destruct Hc. split; simpl; try done. unfold pow64. lia. }
    rewrite IH; [|done|done|done|simpl; lia].
    unfold with_parallelism. simpl. f_equal. lia.
Qed.

(** At the maximum, calm summaries change nothing that matters. *)
Lemma record_at_max l : ∀ c,
  controller_wf c → current_parallelism c = max_parallelism c →
  Forall (λ s, should_reduce c s = false) l →
  current_parallelism (record_all c l) = max_parallelism c.
Proof.
  induction l as [|s l IH]; intros c Hc Hm Hf; [done|].
  inversion Hf as [|?? Hs Hf']; subst. unfold record_all in *. cbn [foldl].
  destruct (record_wf c s Hc) as (H1 & H2 & _ & _).
  assert (Hcur : current_parallelism (record c s) = max_parallelism c).
  { unfold record. rewrite Hs, Hm, N.ltb_irrefl, andb_false_r. by destruct (negb (adaptive c)). }
  rewrite IH; [done|done|congruence|].
  eapply Forall_impl; [exact Hf'|]. intros s' Hs'. simpl in *. rewrite <-Hs'.
  unfold record, should_reduce, with_parallelism. by repeat (case_match; simpl).
Qed.

Lemma record_twenty c l :
  adaptive c = true → controller_wf c → stable_successes c = 0 →
  current_parallelism c < max_parallelism c →
  Forall (λ s, should_reduce c s = false) l → length l = 20%nat →
  record_all c l
  = with_parallelism c (N.min (current_parallelism c + 4) (max_parallelism c)) 0.
Proof.
  intros Ha Hc Hz Hlt Hf Hlen. destruct l as [|s l' _] using rev_ind; [done|].
  rewrite length_app in Hlen. simpl in Hlen. apply Forall_app in Hf as [Hf Hs].
  inversion Hs as [|?? Hs' _]; subst. unfold record_all. rewrite foldl_snoc.
  fold (record_all c l'). rewrite record_calm; [|done|done|done|].
  2: { rewrite Hz. unfold FANOUT_STABLE_INCREASE_AFTER. lia. }
  assert (Hs'' : should_reduce (with_parallelism c (current_parallelism c)
                                 (stable_successes c + N.of_nat (length l'))) s = false) by done.
  unfold record. rewrite Hs''. simpl. rewrite Ha, Hz. simpl.
  rewrite (wrap64_small (_ + 1)) by (unfold pow64; lia).
  rewrite (proj2 (N.leb_le _ _)) by (unfold FANOUT_STABLE_INCREASE_AFTER; lia).
  rewrite (proj2 (N.ltb_lt _ _)) by done. simpl.
  rewrite wrap64_small by (destruct Hc; apply u64_max_pow64; lia). done.
Qed.

(** ** Membership batches *)

Definition MAX_RANDOM_MEMBERSHIP_BATCH_SIZE : N := 8.

Definition membership_batch_group_cap (_current_group_size : N) : N :=
  MAX_RANDOM_MEMBERSHIP_BATCH_SIZE.

Record MembershipBatchDecision := MkDecision {
  requested : N;
  effective : N;
  group_cap : N;
  transition_cap : N;
  source : string;
}.

Record MembershipBatchPlanner (G : Type) := MkPlanner {
  rng : G;
  cycle : list N;
  cycle_cap : N;
  extremes_only : bool;
}.
Arguments MkPlanner {_} _ _ _ _.
Arguments rng {_} _.
Arguments cycle {_} _.
Arguments cycle_cap {_} _.
Arguments extremes_only {_} _.

(** [values.swap(0, p)] *)
Definition swap0 (l : list N) (p : nat) : list N :=
  match l !! 0%nat, l !! p with
  | Some x, Some y => <[0%nat := y]> (<[p := x]> l)
  | _, _ => l
  end.

(** [values.iter().position(|v| *v == x).unwrap_or(0)] *)
Fixpoint position (x : N) (l : list N) : option nat :=
  match l with
  | [] => None
  | y :: l' => if y =? x then Some 0%nat else S <$> position x l'
  end.

(** [1..=n] *)
Definition one_to (n : N) : list N := N.of_nat <$> seq 1 (N.to_nat n).

(** FNV-1a over the bytes. *)
Fixpoint stable_string_seed_from (hash : N) (value : string) : N :=
  match value with
  | EmptyString => hash
  | String c rest =>
      stable_string_seed_from (wrapping_mul64 (N.lxor hash (N_of_ascii c)) 1099511628211) rest
  end.

Definition stable_string_seed (value : string) : N :=
  stable_string_seed_from 14695981039346656037 value.

Definition EXTERNAL_BATCH_SEED_DOMAIN : N := 4996836430108181320.

Section planner.
Context {G : Type} `{!Rng G} (seed_from_u64 : N → G).

Definition new_planner (seed : N) (extremes_only : bool) : MembershipBatchPlanner G :=
  MkPlanner (seed_from_u64 seed) [] 0 extremes_only.

(** The refill of the cycle. *)
Definition refill (p : MembershipBatchPlanner G) (feasible_cap : N) : list N * G :=
  if extremes_only p then
    (if 1 <? feasible_cap then [feasible_cap; 1] else one_to feasible_cap, rng p)
  else
    let '(values, g) := shuffle (rng p) (one_to feasible_cap) in
    (if 1 <? feasible_cap then swap0 values (default 0%nat (position feasible_cap values))
     else values, g).

Definition next_batch (p : MembershipBatchPlanner G) (current_group_size max_allowed : N)
    (source : string) : MembershipBatchPlanner G * MembershipBatchDecision :=
  if max_allowed =? 0 then (p, MkDecision 0 0 0 0 source)
  else
    let group_cap := membership_batch_group_cap current_group_size in
    let feasible_cap := N.min group_cap max_allowed in
    let p1 :=
      if match cycle p with [] => true | _ => negb (cycle_cap p =? feasible_cap) end
      then let '(values, g) := refill p feasible_cap in
           MkPlanner g values feasible_cap (extremes_only p)
      else p in
    let requested := default 1 (head (cycle p1)) in
    (MkPlanner (rng p1) (tail (cycle p1)) (cycle_cap p1) (extremes_only p1),
     MkDecision requested requested group_cap max_allowed source).

Record MembershipBatchPlans := MkPlans {
  regular : MembershipBatchPlanner G;
  external : gmap string (MembershipBatchPlanner G);
  external_seed : N;
  plans_extremes_only : bool;
}.

Definition new_plans (seed : N) (extremes_only : bool) : MembershipBatchPlans :=
  MkPlans (new_planner seed extremes_only) ∅ (N.lxor seed EXTERNAL_BATCH_SEED_DOMAIN)
    extremes_only.

(** [entry(actor).or_insert_with(..)] *)
Definition external_planner (p : MembershipBatchPlans) (actor : string) :
    MembershipBatchPlanner G :=
  default (new_planner (N.lxor (external_seed p) (stable_string_seed actor))
             (plans_extremes_only p))
    (external p !! actor).

Definition plans_next_batch (p : MembershipBatchPlans) (current_group_size max_allowed : N)
    (external_actor_id : option string) : MembershipBatchPlans * MembershipBatchDecision :=
  match external_actor_id with
  | Some actor =>
      let '(pl, d) := next_batch (external_planner p actor) current_group_size max_allowed
                        (if plans_extremes_only p then "extremes_external"
                         else "balanced_seeded_external") in
      (MkPlans (regular p) (<[actor := pl]> (external p)) (external_seed p)
         (plans_extremes_only p), d)
  | None =>
      let '(pl, d) := next_batch (regular p) current_group_size max_allowed
                        (if plans_extremes_only p then "extremes_regular"
                         else "balanced_seeded_regular") in
      (MkPlans pl (external p) (external_seed p) (plans_extremes_only p), d)
  end.

(** Successive requests with the same limit. *)
Fixpoint requests (n : nat) (p : MembershipBatchPlanner G) (size max_allowed : N) (source : string) :
    list N * MembershipBatchPlanner G :=
  match n with
  | O => ([], p)
  | S n =>
      let '(p1, d) := next_batch p size max_allowed source in
      let '(l, p2) := requests n p1 size max_allowed source in (requested d :: l, p2)
  end.

(** A run over all actors: group size, limit and actor of each request. *)
Fixpoint run_plans (p : MembershipBatchPlans) (calls : list (N * N * option string)) :
    list MembershipBatchDecision :=
  match calls with
  | [] => []
  | (size, max_allowed, actor) :: rest =>
      let '(p1, d) := plans_next_batch p size max_allowed actor in d :: run_plans p1 rest
  end.

Fixpoint run_planner (p : MembershipBatchPlanner G) (source : string) (calls : list (N * N)) :
    list MembershipBatchDecision :=
  match calls with
  | [] => []
  | (size, max_allowed) :: rest =>
      let '(p1, d) := next_batch p size max_allowed source in d :: run_planner p1 source rest
  end.

(** What one actor (or the regular members) asks for and is answered. *)
Definition calls_of (who : option string) (calls : list (N * N * option string)) :
    list (N * N) :=
  omap (λ c, if decide (c.2 = who) then Some c.1 else None) calls.

Definition decisions_of (who : option string) (calls : list (N * N * option string))
    (ds : list MembershipBatchDecision) : list MembershipBatchDecision :=
  omap (λ cd, if decide (cd.1.2 = who) then Some cd.2 else None) (zip calls ds).

(** *** Lemmas *)

Lemma one_to_spec n x : x ∈ one_to n ↔ 1 <= x <= n.
Proof.
  unfold one_to. rewrite list_elem_of_fmap. setoid_rewrite elem_of_seq. split.
  - intros (y & -> & Hy). lia.
  - intros Hx. exists (N.to_nat x). lia.
Qed.

Lemma length_one_to n : length (one_to n) = N.to_nat n.
Proof. unfold one_to. by rewrite length_fmap, length_seq. Qed.

Lemma position_spec x l : x ∈ l → ∃ p, position x l = Some p ∧ l !! p = Some x.
Proof.
  induction l as [|y l IH]; [by intros ?%not_elem_of_nil|]. simpl.
  destruct (N.eqb_spec y x) as [->|Hne]; [by exists 0%nat|].
  intros [->|Hx]%elem_of_cons; [done|]. destruct (IH Hx) as (p & -> & Hp). by exists (S p).
Qed.

Lemma swap0_perm l p : swap0 l p ≡ₚ l.
Proof.
  unfold swap0. destruct l as [|x l]; [done|]. simpl. destruct p as [|p]; [done|]. simpl.
  destruct (l !! p) as [y|] eqn:Hp; [|done]. simpl.
  rewrite insert_take_drop by (by eapply lookup_lt_Some).
  rewrite <-(take_drop_middle l p y Hp) at 3.
  rewrite <-!Permutation_middle. apply perm_swap.
Qed.

Lemma swap0_head l p x : l !! p = Some x → head (swap0 l p) = Some x.
Proof.
  intros Hp. unfold swap0. destruct l as [|y l]; [done|]. simpl lookup at 1. cbv iota beta.
  rewrite Hp. by destruct p.
Qed.

Context `{laws : !RngLaws G}.

Definition cycle_of (extremes : bool) (cap : N) (l : list N) : Prop :=
  head l = Some cap
  ∧ (if extremes && (1 <? cap) then l = [cap; 1] else l ≡ₚ one_to cap).

Lemma refill_cycle p cap : 1 <= cap → cycle_of (extremes_only p) cap (refill p cap).1.
Proof using laws.
  intros Hcap. unfold refill, cycle_of.
  destruct (extremes_only p); cbn [andb].
  - destruct (N.ltb_spec 1 cap); [done|]. assert (cap = 1) as -> by lia. done.
  - pose proof (shuffle_permutes (rng p) (one_to cap)) as Hp.
    destruct (shuffle (rng p) (one_to cap)) as [values g]. simpl in *.
    assert (Hin : cap ∈ values) by (rewrite Hp; apply one_to_spec; lia).
    destruct (N.ltb_spec 1 cap); simpl.
    + destruct (position_spec cap values Hin) as (q & -> & Hq). simpl.
      split; [by apply swap0_head|]. by rewrite swap0_perm.
    + assert (cap = 1) as -> by lia. change (one_to 1) with [1] in *.
      apply Permutation_singleton_r in Hp as ->. done.
Qed.

Lemma requests_drain source size max_allowed l : ∀ g cap ext,
  max_allowed ≠ 0 → cap = N.min 8 max_allowed →
  requests (length l) (MkPlanner g l cap ext) size max_allowed source
  = (l, MkPlanner g [] cap ext).
Proof.
  induction l as [|x l IH]; intros g cap ext Hm Hcap; [done|]. cbn [length requests].
  unfold next_batch. rewrite (proj2 (N.eqb_neq _ 0)) by done. simpl cycle. simpl cycle_cap.
  unfold membership_batch_group_cap, MAX_RANDOM_MEMBERSHIP_BATCH_SIZE.
  rewrite <-Hcap, N.eqb_refl. simpl. by rewrite IH.
Qed.

(** One cycle from an empty planner. *)
Lemma requests_cycle source size max_allowed p :
  max_allowed ≠ 0 → cycle p = [] →
  ∃ l g, cycle_of (extremes_only p) (N.min 8 max_allowed) l
    ∧ requests (length l) p size max_allowed source
      = (l, MkPlanner g [] (N.min 8 max_allowed) (extremes_only p)).
Proof using laws.
  intros Hm Hc. pose proof (refill_cycle p (N.min 8 max_allowed) ltac:(lia)) as Hr.
  destruct (refill p (N.min 8 max_allowed)) as [values g] eqn:E. simpl in Hr.
  exists values, g. split; [done|].
  rewrite <-(requests_drain source size max_allowed values g _ (extremes_only p)) by done.
  destruct values as [|x values]; [by destruct Hr|]. cbn [length requests].
  unfold next_batch. rewrite (proj2 (N.eqb_neq _ 0)), Hc by done.
  unfold membership_batch_group_cap, MAX_RANDOM_MEMBERSHIP_BATCH_SIZE.
  rewrite E. simpl. by rewrite N.eqb_refl.
Qed.

Lemma run_plans_of who calls : ∀ p,
  decisions_of who calls (run_plans p calls)
  = match who with
    | Some actor =>
        run_planner (external_planner p actor)
          (if plans_extremes_only p then "extremes_external" else "balanced_seeded_external")
          (calls_of who calls)
    | None =>
        run_planner (regular p)
          (if plans_extremes_only p then "extremes_regular" else "balanced_seeded_regular")
          (calls_of who calls)
    end.
Proof.
  induction calls as [|[[size max_allowed] actor] calls IH]; intros p; [by destruct who|].
  unfold decisions_of, calls_of in *. cbn [run_plans].
  destruct (plans_next_batch p size max_allowed actor) as [p1 d] eqn:E.
  cbn [zip zip_with omap list_omap fst snd]. rewrite (IH p1).
  unfold plans_next_batch in E.
  destruct actor as [actor|]; destruct who as [who|]; simpl;
    destruct (next_batch _ size max_allowed _) as [pl d'] eqn:En; simplify_eq;
    repeat case_decide; simplify_eq; simpl; rewrite ?En; try done;
    unfold external_planner; simpl.
  - by rewrite lookup_insert_eq.
  - by rewrite lookup_insert_ne by congruence.
Qed.
End planner.

(** ** Properties *)

(** C15: The adaptive fan-out never leaves its bounds: whatever fan-outs are recorded,
    the parallelism stays between the (positive) minimum and the maximum, a bad
    fan-out halves it down to the minimum, and a non-adaptive controller never
    changes it. *)
Theorem fanout_bounded (max_p min_p : N) (is_adaptive : bool) (threshold : f64) (p95 : N)
    (summaries : list FanoutSummary) (last_summary : FanoutSummary)
    (Hmax : max_p + 4 <= u64_max) :
  let c := record_all (new_controller max_p min_p is_adaptive threshold p95) summaries in
  let c' := record c last_summary in
  1 <= clamp min_p 1 (N.max max_p 1) <= parallelism c
  ∧ parallelism c <= N.max max_p 1
  ∧ (is_adaptive = false → parallelism c = N.max max_p 1)
  ∧ (is_adaptive = true → should_reduce c last_summary = true →
     parallelism c' = N.max (N.div (parallelism c) 2) (clamp min_p 1 (N.max max_p 1))).
Proof.
  set (c0 := new_controller max_p min_p is_adaptive threshold p95).
  destruct (record_all_wf summaries c0 (new_controller_wf _ _ _ _ _ Hmax)) as (Hwf & H1 & H2 & H3).
  set (c := record_all c0 summaries) in *. cbn zeta.
  assert (Hmin : min_parallelism c = clamp min_p 1 (N.max max_p 1)) by done.
  assert (Hmx : max_parallelism c = N.max max_p 1) by done.
  destruct Hwf as [W1 W2 W3 W4]. unfold parallelism. rewrite <-Hmin, <-Hmx.
  split_and!; try lia.
  - intros ->. assert (Hc : c = c0).
    { unfold c, record_all. assert (Ha : adaptive c0 = false) by done. clear -Ha.
      induction summaries as [|s l IH]; [done|]. cbn [foldl]. unfold record at 2. by rewrite Ha. }
    rewrite Hc. simpl. lia.
  - intros Ha Hr. unfold record. assert (Hac : adaptive c = true) by (rewrite H3; exact Ha).
    rewrite Hac, Hr. simpl. rewrite (N.max_l (current_parallelism c)) by lia. lia.
Qed.

Lemma fanout_bounded_witness :
  let threshold := f64_div (f64_of_usize 2) (f64_of_usize 100) in
  let summaries := [MkFanoutSummary 50 0 (Some 10)] in
  let bad := MkFanoutSummary 50 1 (Some 10) in
  32 + 4 <= u64_max
  ∧ let c := record_all (new_controller 32 1 true threshold 5000) summaries in
    let c' := record c bad in
    1 <= clamp 1 1 (N.max 32 1) <= parallelism c
    ∧ parallelism c <= N.max 32 1
    ∧ (true = false → parallelism c = N.max 32 1)
    ∧ (true = true → should_reduce c bad = true →
       parallelism c' = N.max (N.div (parallelism c) 2) (clamp 1 1 (N.max 32 1))).
Proof. split; [done|]. by apply fanout_bounded. Defined.

(** The adaptive fan-out recovers: after a reduction, every twenty calm fan-outs
    in a row raise the parallelism by four, up to the maximum, where it stays. *)
Theorem fanout_recovers (c : FanoutController) (k : nat) (l : list FanoutSummary)
    (Hwf : controller_wf c) (Hadaptive : adaptive c = true) (Hreduced : stable_successes c = 0)
    (Hcalm : Forall (λ s, should_reduce c s = false) l) (Hlen : length l = (20 * k)%nat) :
  current_parallelism (record_all c l)
  = N.min (current_parallelism c + 4 * N.of_nat k) (max_parallelism c).
Proof.
  revert c l Hwf Hadaptive Hreduced Hcalm Hlen.
  induction k as [|k IH]; intros c l Hwf Ha Hz Hcalm Hlen.
  - destruct l; [|simpl in Hlen; lia]. simpl. destruct Hwf. lia.
  - destruct (N.lt_ge_cases (current_parallelism c) (max_parallelism c)) as [Hlt|Hge].
    + rewrite <-(take_drop 20 l) in Hcalm |- *. apply Forall_app in Hcalm as [H1 H2].
      unfold record_all. rewrite foldl_app. fold (record_all c (take 20 l)).
      assert (Ht : length (take 20 l) = 20%nat) by (rewrite length_take; lia).
      rewrite (record_twenty c (take 20 l)) by done.
      fold (record_all (with_parallelism c
              (N.min (current_parallelism c + 4) (max_parallelism c)) 0) (drop 20 l)).
      rewrite IH; [simpl; lia| |done|done| |rewrite length_drop; lia].
      * destruct Hwf. split; simpl; try done; lia.
      * eapply Forall_impl; [exact H2|]. intros s Hs. simpl in *. by rewrite <-Hs.
    + destruct Hwf as [W1 W2 W3 W4].
      rewrite record_at_max; [lia|by split|lia|done].
Qed.

Lemma fanout_recovers_witness :
  let c := with_parallelism (new_controller 32 1 true (f64_of_usize 1) 5000) 8 0 in
  let l := replicate 40 (MkFanoutSummary 50 0 (Some 10)) in
  (adaptive c = true ∧ stable_successes c = 0 ∧ length l = (20 * 2)%nat)
  ∧ current_parallelism (record_all c l) = 16.
Proof.
  split; [by vm_compute|].
  etrans; [apply (fanout_recovers _ 2)|done]; [by split; vm_compute|done|done| |done].
  apply Forall_replicate. by vm_compute.
Defined.

(** Batch sizes are balanced: with a constant limit, a planner whose cycle is
    exhausted asks, in its next requests, for the largest feasible size first and
    then for every feasible size exactly once (or, in the extremes mode, for the
    largest and one), and is exhausted again. *)
Theorem batches_balanced {G : Type} `{!Rng G} `{!RngLaws G} (p : MembershipBatchPlanner G)
    (size max_allowed : N) (source : string)
    (Hallowed : max_allowed ≠ 0) (Hexhausted : cycle p = []) :
  ∃ l p', requests (length l) p size max_allowed source = (l, p')
    ∧ head l = Some (N.min 8 max_allowed)
    ∧ (if extremes_only p && (1 <? N.min 8 max_allowed) then l = [N.min 8 max_allowed; 1]
       else l ≡ₚ one_to (N.min 8 max_allowed))
    ∧ cycle p' = [] ∧ extremes_only p' = extremes_only p.
Proof.
  destruct (requests_cycle source size max_allowed p Hallowed Hexhausted) as (l & g & [H1 H2] & H3).
  exists l, (MkPlanner g [] (N.min 8 max_allowed) (extremes_only p)). done.
Qed.

Lemma batches_balanced_witness :
  let p := new_planner (λ s, s) 11 false in
  (5 ≠ 0 ∧ cycle p = [])
  ∧ ∃ l p', requests (length l) p 20 5 "balanced_seeded_regular" = (l, p')
    ∧ head l = Some 5 ∧ l ≡ₚ one_to 5 ∧ cycle p' = [].
Proof.
  intros p. split; [done|].
  destruct (batches_balanced p 20 5 "balanced_seeded_regular") as (l & p' & H1 & H2 & H3 & H4 & _);
    [done|done|]. by exists l, p'.
Defined.

(** Batch decisions of different actors do not interfere: in any interleaving of
    requests, the decisions for an external actor, and those for the regular members,
    are the ones a planner of their own would make on their requests alone, seeded
    from the scenario and the actor's identifier. *)
Theorem batch_actors_independent {G : Type} `{!Rng G} (seed_from_u64 : N → G) (seed : N)
    (extremes : bool) (calls : list (N * N * option string)) (who : option string) :
  decisions_of who calls (run_plans seed_from_u64 (new_plans seed_from_u64 seed extremes) calls)
  = run_planner
      (new_planner seed_from_u64
         (match who with
          | Some actor => N.lxor (N.lxor seed EXTERNAL_BATCH_SEED_DOMAIN) (stable_string_seed actor)
          | None => seed
          end) extremes)
      (match who with
       | Some _ => if extremes then "extremes_external" else "balanced_seeded_external"
       | None => if extremes then "extremes_regular" else "balanced_seeded_regular"
       end) (calls_of who calls).
Proof. rewrite run_plans_of. by destruct who. Qed.
