(* ===== verification/Interaction.v ===== *)
(** * Interactive programs

    Asynchronous code as a tree of effects: a program returns or performs an effect
    and continues with the answer.  [run] executes a program alone against a handler;
    [both] and [try_join_all] poll several tasks together in any order; [threads]
    interleaves the programs of many workers, effect by effect.  [wp] is the logic the
    invariants are proved with: between two effects of a program, other programs may
    extend the shared history [H].  [always] is the logic for a program alone in a world
    of which only a contract is known. *)

From S2P Require Import Prelude.
From stdpp Require Import options.

Inductive prog (E : Type → Type) (A : Type) : Type :=
| Ret (a : A)
| Vis {X : Type} (e : E X) (k : X → prog E A).
Arguments Ret {_ _} _.
Arguments Vis {_ _ _} _ _.

Section prog.
Context {E : Type → Type}.

#[export] Instance prog_ret : MRet (prog E) := λ A a, Ret a.
#[export] Instance prog_bind : MBind (prog E) := λ A B f,
  fix go p := match p with Ret a => f a | Vis e k => Vis e (λ x, go (k x)) end.

Definition trigger {X} (e : E X) : prog E X := Vis e Ret.

(** Running alone: the handler answers every effect. *)
Fixpoint run {W A} (h : ∀ X, W → E X → W * X) (w : W) (p : prog E A) : W * A :=
  match p with
  | Ret a => (w, a)
  | Vis e k => let '(w', x) := h _ w e in run h w' (k x)
  end.

Lemma run_bind {W A B} (h : ∀ X, W → E X → W * X) (p : prog E A) (f : A → prog E B) : ∀ w,
  run h w (p ≫= f) = let '(w', a) := run h w p in run h w' (f a).
Proof.
  induction p as [a|X e k IH]; intros w; [done|]. cbn.
  destruct (h X w e) as [w' x]. apply IH.
Qed.
End prog.

(** ** Concurrent tasks of one program

    [try_join_all] polls its futures in any order, fails with the first error and
    drops the others; [choose] is the scheduler. *)

Class HasChoice (E : Type → Type) := choose : E bool.

Section join.
Context {E : Type → Type} `{!HasChoice E} {Er : Type}.

Fixpoint join_cons {A} (p : prog E (result Er A)) :
    prog E (result Er (list A)) → prog E (result Er (list A)) :=
  fix go q :=
    match p with
    | Ret (Err e) => Ret (Err e)
    | Ret (Ok a) =>
        q ≫= λ r, Ret (match r with Ok l => Ok (a :: l) | Err e => Err e end)
    | Vis e k =>
        match q with
        | Ret (Err e') => Ret (Err e')
        | Ret (Ok l) =>
            Vis e k ≫= λ r, Ret (match r with Ok a => Ok (a :: l) | Err e => Err e end)
        | Vis e' k' =>
            Vis choose (λ first : bool,
              if first then Vis e (λ x, join_cons (k x) q) else Vis e' (λ y, go (k' y)))
        end
    end.

Definition try_join_all {A} (tasks : list (prog E (result Er A))) :
    prog E (result Er (list A)) :=
  foldr join_cons (Ret (Ok [])) tasks.
End join.

(** ** Safety of a program among others *)

Section wp.
Context {E : Type → Type} {H : Type} (ext : relation H) `{!PreOrder ext}.
(** What a program must know to perform an effect, and what it learns. *)
Context (legal : H → ∀ X, E X → Prop) (answers : ∀ X, H → E X → X → H → Prop).

Fixpoint wp {A} (p : prog E A) (h : H) (Q : A → H → Prop) : Prop :=
  match p with
  | Ret a => ∀ h', ext h h' → Q a h'
  | Vis e k =>
      ∀ h1, ext h h1 →
        legal h1 _ e ∧ ∀ x h2, ext h1 h2 → answers _ h1 e x h2 → wp (k x) h2 Q
  end.

Lemma wp_ext {A} (p : prog E A) h h' Q : ext h h' → wp p h Q → wp p h' Q.
Proof using Type*.
  intros Hext. destruct p; cbn; intros Hp h1 H1; apply Hp; by etrans.
Qed.

Lemma wp_mono {A} (p : prog E A) Q Q' : ∀ h,
  (∀ a h', ext h h' → Q a h' → Q' a h') → wp p h Q → wp p h Q'.
Proof using Type*.
  induction p as [a|X e k IH]; intros h HQ Hp; cbn in *.
  - intros h' Hh'. apply HQ; [done|]. by apply Hp.
  - intros h1 H1. destruct (Hp h1 H1) as [Hl Hk]. split; [done|].
    intros x h2 H2 Hx. apply (IH x h2); [|by apply Hk].
    intros a h' Hh'. apply HQ. etrans; [exact H1|]. by etrans.
Qed.

Lemma wp_bind {A B} (p : prog E A) (f : A → prog E B) Q : ∀ h,
  wp p h (λ a h', wp (f a) h' Q) → wp (p ≫= f) h Q.
Proof using Type*.
  induction p as [a|X e k IH]; intros h Hp; cbn in *.
  - apply Hp. reflexivity.
  - intros h1 H1. destruct (Hp h1 H1) as [Hl Hk]. split; [done|].
    intros x h2 H2 Hx. apply IH. by apply Hk.
Qed.

Definition stable {A} (Q : A → H → Prop) : Prop := ∀ a h h', ext h h' → Q a h → Q a h'.

Lemma wp_ret {A} (a : A) h (Q : A → H → Prop) : stable Q → Q a h → wp (Ret a) h Q.
Proof. intros HQ Ha h' Hh'. by apply (HQ a h). Qed.

Lemma wp_trigger {X} (e : E X) h Q :
  (∀ h1, ext h h1 → legal h1 X e ∧
     ∀ x h2, ext h1 h2 → answers X h1 e x h2 → ∀ h3, ext h2 h3 → Q x h3) →
  wp (trigger e) h Q.
Proof. done. Qed.

Section join.
Context `{!HasChoice E} {Er : Type}.
Context (free_choice : ∀ h, legal h bool choose).

(** Tasks that are safe alone are safe together. *)
Lemma wp_join_cons {A} (p : prog E (result Er A)) : ∀ (q : prog E (result Er (list A))) h,
  wp p h (λ _ _, True) → wp q h (λ _ _, True) → wp (join_cons p q) h (λ _ _, True).
Proof using Type*.
  induction p as [[a|e]|X e k IHp]; intros q; [| |].
  - intros h _ Hq. destruct q as [[l|e']|Y e' k']; cbn [join_cons];
      (apply wp_bind; eapply wp_mono; [|exact Hq]; done).
  - intros h _ _. by destruct q.
  - induction q as [[l|e']|Y e' k' IHq]; intros h Hp Hq.
    + cbn [join_cons]. apply wp_bind. eapply wp_mono; [|exact Hp]. done.
    + done.
    + cbn [join_cons wp]. intros h1 H1. split; [apply free_choice|].
      assert (Hp1 : wp (Vis e k) h1 (λ _ _, True)) by (by eapply wp_ext).
      assert (Hq1 : wp (Vis e' k') h1 (λ _ _, True)) by (by eapply wp_ext).
      intros [] h2 H2 _; cbn [wp]; intros h3 H3.
      * destruct (Hp1 h3 ltac:(by etrans)) as [Hl Hk]. split; [done|].
        intros x h4 H4 Hx. apply IHp; [by apply Hk|].
        eapply wp_ext; [|exact Hq1]. etrans; [exact H2|]. by etrans.
      * destruct (Hq1 h3 ltac:(by etrans)) as [Hl Hk]. split; [done|].
        intros y h4 H4 Hy. apply IHq; [|by apply Hk].
        eapply wp_ext; [|exact Hp1]. etrans; [exact H2|]. by etrans.
Qed.

Lemma wp_try_join_all {A} (tasks : list (prog E (result Er A))) h :
  Forall (λ p, wp p h (λ _ _, True)) tasks → wp (try_join_all tasks) h (λ _ _, True).
Proof using Type*.
  induction 1 as [|p tasks Hp _ IH]; [done|]. by apply wp_join_cons.
Qed.
End join.
End wp.

(** ** Whatever the world answers

    [always answers g p Q]: in every run of [p] whose answers the contract [answers]
    allows, from the ghost state [g] it keeps, the result satisfies [Q]. *)

Section always.
Context {E : Type → Type} {G : Type} (answers : G → ∀ X, E X → X → G → Prop).

Fixpoint always {A} (g : G) (p : prog E A) (Q : G → A → Prop) : Prop :=
  match p with
  | Ret a => Q g a
  | Vis e k => ∀ x g', answers g _ e x g' → always g' (k x) Q
  end.

Lemma always_bind {A B} (p : prog E A) (f : A → prog E B) Q : ∀ g,
  always g p (λ g' a, always g' (f a) Q) → always g (p ≫= f) Q.
Proof. induction p as [a|X e k IH]; intros g Hp; [done|]. intros x g' Hx. by apply IH, Hp. Qed.

Lemma always_mono {A} (p : prog E A) (Q Q' : G → A → Prop) : ∀ g,
  (∀ g' a, Q g' a → Q' g' a) → always g p Q → always g p Q'.
Proof.
  induction p as [a|X e k IH]; intros g HQ Hp; [by apply HQ|]. intros x g' Hx. by apply IH, Hp.
Qed.

Lemma always_trigger {X} g (e : E X) (Q : G → X → Prop) :
  (∀ x g', answers g X e x g' → Q g' x) → always g (trigger e) Q.
Proof. done. Qed.

Lemma always_true {A} (p : prog E A) : ∀ g, always g p (λ _ _, True).
Proof. induction p as [a|X e k IH]; intros g; [done|]. intros x g' _. apply IH. Qed.

Lemma always_and {A} (p : prog E A) (Q Q' : G → A → Prop) : ∀ g,
  always g p Q → always g p Q' → always g p (λ g' a, Q g' a ∧ Q' g' a).
Proof.
  induction p as [a|X e k IH]; intros g H1 H2; [done|].
  intros x g' Hx. apply IH; [by apply H1|by apply H2].
Qed.

(** A handler that keeps the contract gives one of the runs. *)
Lemma always_run {W A} (h : ∀ X, W → E X → W * X) (view : W → G) (p : prog E A) Q :
  (∀ X w e, answers (view w) X e (h X w e).2 (view (h X w e).1)) → ∀ w,
  always (view w) p Q → Q (view (run h w p).1) (run h w p).2.
Proof.
  intros Hh. induction p as [a|X e k IH]; intros w Hp; [done|]. cbn in *.
  pose proof (Hh X w e) as Hx. destruct (h X w e) as [w' x]. by apply IH, Hp.
Qed.
End always.

(** ** Many workers *)

(** A worker waits for a command or is in the middle of one. *)
Inductive thread (E : Type → Type) (T : Type) : Type :=
| Idle (t : T)
| Busy (p : prog E T).
Arguments Idle {_ _} _.
Arguments Busy {_ _} _.

Section threads.
Context {E : Type → Type} {W T K : Type} `{Countable K}.
(** The effects on the shared world, and the commands a worker can be given. *)
Context (serve : ∀ X, W → E X → X → W → Prop) (starts : K → T → prog E T → Prop).

Definition world : Type := W * gmap K (thread E T).

Inductive world_step : world → world → Prop :=
| step_start w ts i t p :
    ts !! i = Some (Idle t) → starts i t p → world_step (w, ts) (w, <[i := Busy p]> ts)
| step_effect w w' ts i X (e : E X) k x :
    ts !! i = Some (Busy (Vis e k)) → serve X w e x w' →
    world_step (w, ts) (w', <[i := Busy (k x)]> ts)
| step_done w ts i t :
    ts !! i = Some (Busy (Ret t)) → world_step (w, ts) (w, <[i := Idle t]> ts).

(** One command run from start to end with no one else moving. *)
Section alone.
Context (h : ∀ X, W → E X → W * X) (h_serves : ∀ X w e, serve X w e (h X w e).2 (h X w e).1).

Lemma run_busy (p : prog E T) : ∀ w ts i,
  ts !! i = Some (Busy p) →
  rtc world_step (w, ts) ((run h w p).1, <[i := Idle (run h w p).2]> ts).
Proof using h_serves.
  induction p as [t|X e k IH]; intros w ts i Hi; cbn.
  - apply rtc_once. by apply step_done.
  - pose proof (h_serves X w e) as Hs. destruct (h X w e) as [w' x]. cbn in Hs.
    eapply rtc_l; [by apply (step_effect _ _ _ _ _ _ _ _ Hi Hs)|].
    pose proof (IH x w' (<[i := Busy (k x)]> ts) i) as Hx. rewrite insert_insert_eq in Hx.
    apply Hx. by rewrite lookup_insert_eq.
Qed.

Lemma run_alone w ts i t p :
  ts !! i = Some (Idle t) → starts i t p →
  rtc world_step (w, ts) ((run h w p).1, <[i := Idle (run h w p).2]> ts).
Proof using h_serves.
  intros Hi Hs. eapply rtc_l; [by apply (step_start _ _ _ _ _ Hi Hs)|].
  pose proof (run_busy p w (<[i := Busy p]> ts) i) as Hp. rewrite insert_insert_eq in Hp.
  apply Hp. by rewrite lookup_insert_eq.
Qed.
End alone.

Section invariant.
Context {G : Type} (ext : relation G) `{!PreOrder ext}.
Context (legal : G → ∀ X, E X → Prop) (answers : ∀ X, G → E X → X → G → Prop).
Context (inv : G → W → Prop) (local : K → T → G → Prop).
Context (local_stable : ∀ i, stable ext (local i)).
Context (serve_sound : ∀ X g w (e : E X) x w',
  inv g w → legal g X e → serve X w e x w' → ∃ g', ext g g' ∧ answers X g e x g' ∧ inv g' w').
Context (start_sound : ∀ i t p g,
  starts i t p → local i t g → wp ext legal answers p g (local i)).

Definition thread_ok (g : G) (i : K) (th : thread E T) : Prop :=
  match th with
  | Idle t => local i t g
  | Busy p => wp ext legal answers p g (local i)
  end.

Definition world_ok (wd : world) : Prop :=
  ∃ g, inv g wd.1 ∧ ∀ i th, wd.2 !! i = Some th → thread_ok g i th.

Lemma thread_ok_ext g g' i th : ext g g' → thread_ok g i th → thread_ok g' i th.
Proof using Type*.
  destruct th; cbn; intros Hext Hth; [by eapply local_stable|by eapply wp_ext].
Qed.

Lemma world_step_ok wd wd' : world_ok wd → world_step wd wd' → world_ok wd'.
Proof using Type*.
  intros (g & Hinv & Hts) Hstep.
  destruct Hstep as [w ts i t p Hi Hs|w w' ts i X e k x Hi Hs|w ts i t Hi]; cbn in *.
  - exists g. split; [done|]. intros j th. cbn.
    destruct (decide (i = j)) as [->|]; [rewrite lookup_insert_eq|by rewrite lookup_insert_ne; auto].
    intros [= <-]. cbn. eapply start_sound; [done|]. by apply (Hts _ _ Hi).
  - destruct (Hts _ _ Hi g ltac:(reflexivity)) as [Hl Hk].
    destruct (serve_sound _ _ _ _ _ _ Hinv Hl Hs) as (g' & Hg' & Ha & Hinv').
    exists g'. split; [done|]. intros j th. cbn.
    destruct (decide (i = j)) as [->|]; [rewrite lookup_insert_eq|rewrite lookup_insert_ne by done].
    + intros [= <-]. cbn. by apply Hk.
    + intros Hj. eapply thread_ok_ext; [done|]. by apply Hts.
  - exists g. split; [done|]. intros j th. cbn.
    destruct (decide (i = j)) as [->|]; [rewrite lookup_insert_eq|by rewrite lookup_insert_ne; auto].
    intros [= <-]. cbn. apply (Hts _ _ Hi g). reflexivity.
Qed.

Lemma reachable_ok wd wd' : world_ok wd → rtc world_step wd wd' → world_ok wd'.
Proof using Type*.
  intros Hok. induction 1; [done|]. eauto using world_step_ok.
Qed.
End invariant.
End threads.
