(* ===== verification/Program.v ===== *)
(** * Programs that keep a state and may fail

    The shape of both benchmark runners: a computation reads and changes a state [S], has
    effects [E] on the world, and returns, fails with an error, panics, or is cut off
    because its loops had too little fuel.  [ensures] is the logic for what holds whatever
    the world answers, within a contract. *)

From S2P Require Import Prelude Interaction.
From stdpp Require Import options.

Inductive outcome (Er A : Type) : Type :=
| Returned (a : A)
| Failed (e : Er)
| Panicked
| Exhausted.
Arguments Returned {_ _} _.
Arguments Failed {_ _} _.
Arguments Panicked {_ _}.
Arguments Exhausted {_ _}.

(** ** Programs *)

(** [let^] is the [?] operator of a call without a state of its own, [let~] that of a
    program; [or] is what is done with the error. *)
Definition call_bind {E : Type → Type} {Er A B : Type} (m : prog E (result Er A))
    (f : A → prog E (result Er B)) : prog E (result Er B) :=
  m ≫= λ r, match r with Ok a => f a | Err e => mret (Err e) end.

Section programs.
Context {S : Type} {E : Type → Type} {Er : Type}.
Implicit Types s : S.

(** A call that returns a [Result], and one with a state besides *)
Abbreviation Call A := (prog E (result Er A)).

Definition M (A : Type) : Type := S → prog E (S * outcome Er A).

Definition ret {A} (a : A) : M A := λ s, Ret (s, Returned a).
Definition fail {A} (e : Er) : M A := λ s, Ret (s, Failed e).
Definition out_of_fuel {A} : M A := λ s, Ret (s, Exhausted).
(** [expect], and an index that must be in range *)
Definition expect {A} (o : option A) : M A := λ s,
  Ret (s, match o with Some a => Returned a | None => Panicked end).
(** A loop that was cut off *)
Definition enough {A} (o : option A) : M A := λ s,
  Ret (s, match o with Some a => Returned a | None => Exhausted end).
Definition bind {A B} (m : M A) (f : A → M B) : M B := λ s,
  m s ≫= λ '(s, o), match o with
                    | Returned a => f a s
                    | Failed e => Ret (s, Failed e)
                    | Panicked => Ret (s, Panicked)
                    | Exhausted => Ret (s, Exhausted)
                    end.
(** [match m.await { Ok(..) => .., Err(..) => .. }] *)
Definition attempt {A} (m : M A) : M (result Er A) := λ s,
  m s ≫= λ '(s, o), Ret (s, match o with
                            | Returned a => Returned (Ok a)
                            | Failed e => Returned (Err e)
                            | Panicked => Panicked
                            | Exhausted => Exhausted
                            end).
Definition perform {A} (p : prog E A) : M A := λ s, p ≫= λ a, Ret (s, Returned a).
Definition of_result {A} (r : result Er A) : M A :=
  match r with Ok a => ret a | Err e => fail e end.
Definition call {A} (p : Call A) : M A := bind (perform p) of_result.
Definition gets {A} (f : S → A) : M A := λ s, Ret (s, Returned (f s)).
Definition modify (f : S → S) : M unit := λ s, Ret (f s, Returned tt).

(** [if let Err(error) = m.await { handler }], then the rest *)
Definition rescue {A B} (m : M A) (handler : Er → M B) (k : A → M B) : M B :=
  bind (attempt m) (λ r, match r with Ok a => k a | Err e => handler e end).

(** A [for] loop that stops at the first error *)
Fixpoint for_each {A} (l : list A) (body : A → M unit) : M unit :=
  match l with
  | [] => ret tt
  | a :: rest => bind (body a) (λ _, for_each rest body)
  end.

(** [loop { .. }] with the variables [b] of its own: [inl] goes round again. *)
Fixpoint iterate {B A} (fuel : nat) (body : B → M (B + A)) (b : B) : M A :=
  match fuel with
  | O => out_of_fuel
  | Datatypes.S fuel => bind (body b) (λ r, match r with inl b => iterate fuel body b | inr a => ret a end)
  end.

(** ** What holds whatever the workers answer *)

Definition settled {A} (o : outcome Er A) : Prop :=
  match o with Returned _ | Failed _ => True | _ => False end.

Section ensures.
Context {H : Type} (answers : H → ∀ X, E X → X → H → Prop).

Definition ensures {A} (g : H) (s : S) (m : M A) (Q : H → S → outcome Er A → Prop) : Prop :=
  always answers g (m s) (λ g' r, Q g' r.1 r.2).

Lemma ensures_mono {A} g s (m : M A) (Q Q' : H → S → outcome Er A → Prop) :
  (∀ g' s' o, Q g' s' o → Q' g' s' o) → ensures g s m Q → ensures g s m Q'.
Proof. intros HQ. apply always_mono. intros g' r. apply HQ. Qed.

Lemma ensures_ret {A} g s (a : A) (Q : H → S → outcome Er A → Prop) :
  Q g s (Returned a) → ensures g s (ret a) Q.
Proof. done. Qed.

Lemma ensures_fail {A} g s e (Q : H → S → outcome Er A → Prop) :
  Q g s (Failed e) → ensures g s (fail e) Q.
Proof. done. Qed.

Lemma ensures_bind {A B} g s (m : M A) (f : A → M B) (Q : H → S → outcome Er B → Prop) :
  ensures g s m (λ g' s' o, match o with
                            | Returned a => ensures g' s' (f a) Q
                            | Failed e => Q g' s' (Failed e)
                            | Panicked => Q g' s' Panicked
                            | Exhausted => Q g' s' Exhausted
                            end) →
  ensures g s (bind m f) Q.
Proof.
  intros Hm. apply always_bind. eapply always_mono; [|exact Hm].
  by intros g' [s' [a|e| |]].
Qed.

Lemma ensures_attempt {A} g s (m : M A) (Q : H → S → outcome Er (result Er A) → Prop) :
  ensures g s m (λ g' s' o, match o with
                            | Returned a => Q g' s' (Returned (Ok a))
                            | Failed e => Q g' s' (Returned (Err e))
                            | Panicked => Q g' s' Panicked
                            | Exhausted => Q g' s' Exhausted
                            end) →
  ensures g s (attempt m) Q.
Proof.
  intros Hm. apply always_bind. eapply always_mono; [|exact Hm].
  by intros g' [s' [a|e| |]].
Qed.

Lemma ensures_rescue {A B} g s (m : M A) (handler : Er → M B) (k : A → M B)
    (Q : H → S → outcome Er B → Prop) :
  ensures g s m (λ g' s' o, match o with
                            | Returned a => ensures g' s' (k a) Q
                            | Failed e => ensures g' s' (handler e) Q
                            | Panicked => Q g' s' Panicked
                            | Exhausted => Q g' s' Exhausted
                            end) →
  ensures g s (rescue m handler k) Q.
Proof.
  intros Hm. apply ensures_bind, ensures_attempt. eapply ensures_mono; [|exact Hm].
  by intros g' s' [a|e| |].
Qed.

Lemma ensures_perform {A} g s (p : prog E A) (Q : H → S → outcome Er A → Prop) :
  always answers g p (λ g' a, Q g' s (Returned a)) → ensures g s (perform p) Q.
Proof. intros Hp. by apply always_bind. Qed.

Lemma ensures_call {A} g s (p : Call A) (Q : H → S → outcome Er A → Prop) :
  always answers g p (λ g' r, match r with
                              | Ok a => Q g' s (Returned a)
                              | Err e => Q g' s (Failed e)
                              end) →
  ensures g s (call p) Q.
Proof.
  intros Hp. apply ensures_bind, ensures_perform. eapply always_mono; [|exact Hp].
  by intros g' [a|e].
Qed.

(** A loop whose every turn lowers [measure] ends, and its turns keep [inv]. *)
Lemma ensures_iterate {B A} (body : B → M (B + A)) (inv : H → B → S → Prop)
    (measure : B → S → nat) (Q : H → S → outcome Er A → Prop) fuel : ∀ g b s,
  (∀ g b s, inv g b s → ensures g s (body b) (λ g' s' o,
     match o with
     | Returned (inl b') => inv g' b' s' ∧ (measure b' s' < measure b s)%nat
     | Returned (inr a) => Q g' s' (Returned a)
     | Failed e => Q g' s' (Failed e)
     | Panicked => Q g' s' Panicked
     | Exhausted => Q g' s' Exhausted
     end)) →
  inv g b s → (measure b s < fuel)%nat → ensures g s (iterate fuel body b) Q.
Proof.
  induction fuel as [|fuel IH]; intros g b s Hbody Hinv Hf; [lia|]. cbn [iterate].
  apply ensures_bind. eapply ensures_mono; [|by apply Hbody].
  intros g' s' [[b'|a]|e| |]; [|done..]. intros [Hinv' Hm]. apply IH; [done|done|lia].
Qed.

(** A loop that every turn sends round again never ends. *)
Lemma ensures_never {B A} (body : B → M (B + A)) (inv : H → B → S → Prop) fuel : ∀ g b s,
  (∀ g b s, inv g b s → ensures g s (body b) (λ g' s' o,
     match o with Returned (inl b') => inv g' b' s' | Exhausted => True | _ => False end)) →
  inv g b s → ensures g s (iterate (A := A) fuel body b) (λ _ _ o, o = Exhausted).
Proof.
  induction fuel as [|fuel IH]; intros g b s Hbody Hinv; [done|]. cbn [iterate].
  apply ensures_bind. eapply ensures_mono; [|by apply Hbody].
  intros g' s' [[b'|a]|e| |]; [|done..]. intros Hinv'. by apply IH.
Qed.

Lemma ensures_gets {A B} t s (f : S → A) (k : A → M B) (P : H → S → outcome Er B → Prop) :
  ensures t s (k (f s)) P → ensures t s (bind (gets f) k) P.
Proof. done. Qed.

Lemma ensures_modify {B} t s f (k : unit → M B) (P : H → S → outcome Er B → Prop) :
  ensures t (f s) (k tt) P → ensures t s (bind (modify f) k) P.
Proof. done. Qed.

Lemma ensures_expect {A B} t s (o : option A) (k : A → M B) (P : H → S → outcome Er B → Prop) a :
  o = Some a → ensures t s (k a) P → ensures t s (bind (expect o) k) P.
Proof. by intros ->. Qed.

(** *** Programs that leave something the same *)

Section quiet.
Context (same : relation S) `{!PreOrder same}.

(** The program settles, in a state that is the [same] for what matters. *)
Definition quiet {A} (m : M A) (Q : A → Prop) (F : Er → Prop) : Prop :=
  ∀ t s, ensures t s m (λ _ s' o, same s s' ∧
    match o with Returned a => Q a | Failed e => F e | _ => False end).

Lemma quiet_mono {A} (m : M A) (Q Q' : A → Prop) (F F' : Er → Prop) :
  (∀ a, Q a → Q' a) → (∀ e, F e → F' e) → quiet m Q F → quiet m Q' F'.
Proof using Type*.
  intros HQ HE Hm t s. eapply ensures_mono; [|apply Hm]. intros t' s' [a|e| |] [Hu Ho]; eauto.
Qed.

Lemma quiet_bind {A B} (m : M A) (f : A → M B) (P : A → Prop) Q F :
  quiet m P F → (∀ a, P a → quiet (f a) Q F) → quiet (bind m f) Q F.
Proof using Type*.
  intros Hm Hf t s. apply ensures_bind. eapply ensures_mono; [|apply Hm].
  intros t' s' [a|e| |] [Hu Ha]; [|done..].
  eapply ensures_mono; [|by apply Hf]. intros t'' s'' o [Hu' Ho]. split; [by etrans|done].
Qed.

Lemma quiet_ret {A} (a : A) (Q : A → Prop) F : Q a → quiet (ret a) Q F.
Proof using Type*. intros Ha t s. by apply ensures_ret. Qed.

Lemma quiet_fail {A} e (Q : A → Prop) (F : Er → Prop) : F e → quiet (fail e) Q F.
Proof using Type*. intros He t s. by apply ensures_fail. Qed.

Lemma quiet_perform {A} (p : prog E A) (Q : A → Prop) F :
  (∀ t, always answers t p (λ _, Q)) → quiet (perform p) Q F.
Proof using Type*. intros Hp t s. apply ensures_perform. eapply always_mono; [|apply Hp]. done. Qed.

Lemma quiet_gets {A} (f : S → A) (Q : A → Prop) F : (∀ s, Q (f s)) → quiet (gets f) Q F.
Proof using Type*. intros Hf t s. split; [done|apply Hf]. Qed.

Lemma quiet_expect {A B} (o : option A) (k : A → M B) (Q : B → Prop) F a :
  o = Some a → quiet (k a) Q F → quiet (bind (expect o) k) Q F.
Proof using Type*. by intros ->. Qed.

Lemma quiet_modify f F : (∀ s, same s (f s)) → quiet (modify f) (λ _, True) F.
Proof using Type*. intros Hf t s. split; [apply Hf|done]. Qed.

Lemma quiet_call {A} (p : Call A) : quiet (call p) (λ _, True) (λ _, True).
Proof using Type*.
  eapply quiet_bind; [by apply quiet_perform; intros; apply always_true|].
  intros [a|e] _; [by apply quiet_ret|by apply quiet_fail].
Qed.

Lemma quiet_rescue {A B} (m : M A) (handler : Er → M B) (k : A → M B)
    (P : A → Prop) (Q : B → Prop) (E' F : Er → Prop) :
  quiet m P E' → (∀ a, P a → quiet (k a) Q F) → (∀ e, E' e → quiet (handler e) Q F) →
  quiet (rescue m handler k) Q F.
Proof using Type*.
  intros Hm Hk Hh t s. apply ensures_rescue. eapply ensures_mono; [|apply Hm].
  intros t' s' [a|e| |] [Hu Ho]; [|..|done|done].
  - eapply ensures_mono; [|by apply Hk]. intros t2 s2 o [H2 H2o]. split; [by etrans|done].
  - eapply ensures_mono; [|by apply Hh]. intros t2 s2 o [H2 H2o]. split; [by etrans|done].
Qed.

Lemma quiet_for_each {A} (l : list A) (body : A → M unit) (F : Er → Prop) :
  (∀ a, a ∈ l → quiet (body a) (λ _, True) F) → quiet (for_each l body) (λ _, True) F.
Proof using Type*.
  induction l as [|a l IH]; intros Hb; cbn [for_each]; [by apply quiet_ret|].
  eapply quiet_bind; [apply Hb; left|]. intros _ _. apply IH. intros; apply Hb; by right.
Qed.

(** What a quiet program is to the program around it *)
Lemma ensures_quiet {A B} t s (m : M A) (f : A → M B) (Q : A → Prop) (F : Er → Prop)
    (P : H → S → outcome Er B → Prop) :
  quiet m Q F →
  (∀ t' s' a, same s s' → Q a → ensures t' s' (f a) P) →
  (∀ t' s' e, same s s' → F e → P t' s' (Failed e)) →
  ensures t s (bind m f) P.
Proof using Type*.
  intros Hm Hf He. apply ensures_bind. eapply ensures_mono; [|apply Hm].
  intros t' s' [a|e| |] [Hu Ho]; [by apply Hf|by apply He|done..].
Qed.

Lemma ensures_quiet_rescue {A B} t s (m : M A) (handler : Er → M B) (k : A → M B)
    (Q : A → Prop) (F : Er → Prop) (P : H → S → outcome Er B → Prop) :
  quiet m Q F →
  (∀ t' s' a, same s s' → Q a → ensures t' s' (k a) P) →
  (∀ t' s' e, same s s' → F e → ensures t' s' (handler e) P) →
  ensures t s (rescue m handler k) P.
Proof using Type*.
  intros Hm Hk Hh. apply ensures_rescue. eapply ensures_mono; [|apply Hm].
  intros t' s' [a|e| |] [Hu Ho]; [by apply Hk|by apply Hh|done..].
Qed.
End quiet.

Lemma quiet_weaken {A} (same same' : relation S) (m : M A) Q F :
  (∀ s s', same s s' → same' s s') → quiet same m Q F → quiet same' m Q F.
Proof.
  intros Hs Hm t s. eapply ensures_mono; [|apply Hm]. intros t' s' o [Hu Ho]. auto.
Qed.
End ensures.

End programs.
Arguments M _ _ _ _ : clear implicits.

Declare Scope program_scope.
Open Scope program_scope.

Notation "'let^' x '<-' m 'in' k" := (call_bind m (λ x, k))
  (at level 10, x pattern at level 99, m at level 200, k at level 200) : program_scope.
Notation "'let~' x '<-' m 'or' h 'in' k" := (rescue m h (λ x, k))
  (at level 10, x pattern at level 99, m at level 200, h at level 200, k at level 200) : program_scope.
Notation "'let~' x '<-' m 'in' k" := (bind m (λ x, k))
  (at level 10, x pattern at level 99, m at level 200, k at level 200) : program_scope.
