(* ===== verification/HttpRetry.v ===== *)
(** * Retried HTTP calls

    [OpenMLS_containerized/src/http_retry.rs] (and its copy in the Signal benchmark):
    a call is attempted up to ten times while its failures look transient, with an
    exponential, jittered delay in between.  Errors are anyhow's: a chain of
    messages, outermost first.  With it programs that borrow a state for their whole run, and
    the logic [runs] of their results. *)

From S2P Require Import Prelude Text Interaction.
From stdpp Require Import options.

Local Open Scope N_scope.

(** ** Errors *)

Definition Error := list string.
Definition anyhow (message : string) : Error := [message].
(** [err.context(..)] *)
Definition context (message : string) (e : Error) : Error := message :: e.
(** [{}] and [{:#}] *)
Definition display (e : Error) : string := default "" (head e).
Definition alternate (e : Error) : string := String.concat ": " e.

(** [reqwest::Error], as far as the code inspects it. *)
Record ReqwestError := MkReqwestError {
  re_display : string;
  re_is_timeout : bool;
  re_is_connect : bool;
  re_is_request : bool;
  re_is_body : bool;
  re_sources : list string;
}.

Definition contains_any (parts : list string) (s : string) : bool :=
  existsb (λ p, contains p s) parts.

Definition is_transient_reqwest_error (err : ReqwestError) : bool :=
  re_is_timeout err || re_is_connect err || re_is_body err
  || contains_any
       ["connection refused"; "connection reset"; "connection reset by peer";
        "connection closed"; "broken pipe"; "error sending request";
        "error trying to connect"; "operation timed out"; "request timed out";
        "unexpected eof"; "incomplete message"; "channel closed"; "dns error";
        "failed to lookup address information"; "failed to resolve";
        "temporary failure in name resolution"; "name or service not known";
        "nodename nor servname provided"] (to_ascii_lowercase (re_display err)).

Definition is_connect_stage_reqwest_error (err : ReqwestError) : bool :=
  re_is_connect err
  || contains_any
       ["host is unreachable"; "no route to host"; "network is unreachable";
        "connection refused"; "tcp connect error"; "connect timed out";
        "connection timed out"; "dns error"; "failed to lookup address information";
        "failed to resolve"; "temporary failure in name resolution";
        "name or service not known"; "nodename nor servname provided"]
       (to_ascii_lowercase (re_display err)).

Definition is_transient_status (status : N) : bool :=
  bool_decide (status ∈ [502; 503; 504]).

(** ** Delays, in milliseconds *)

Definition MAX_ATTEMPTS : N := 10.
Definition INITIAL_DELAY : N := 100.
Definition MAX_DELAY : N := 3000.

Definition next_delay (delay : N) : N := N.min (2 * delay) MAX_DELAY.

Definition jitter_cap (base_ms : N) : N := N.max 1 (N.min (base_ms `div` 10) 100).

(** What a call does besides its attempts: sleep, draw a number, read the clock. *)
Class RetryEffects (E : Type → Type) := {
  sleep : N → E unit;
  gen_range : N → N → E N;
  now_ms : E N;
}.

Inductive RetryDecision (T : Type) :=
| Success (v : T)
| Transient (cause : string)
| Fatal (err : Error).
Arguments Success {_} _.
Arguments Transient {_} _.
Arguments Fatal {_} _.

Section retry.
Context {E : Type → Type} `{!RetryEffects E}.

Definition with_jitter (delay : N) : prog E N :=
  jitter_ms ← trigger (gen_range 0 (jitter_cap delay));
  mret (delay + jitter_ms).

Definition failed (op : string) (client_id : option string) (url : string) (attempts elapsed : N)
    (cause : string) : Error :=
  anyhow (op +:+ " failed: client=" +:+ default "-" client_id +:+ " url=" +:+ url
          +:+ " attempts=" +:+ pretty attempts +:+ " elapsed_ms=" +:+ pretty elapsed
          +:+ " cause=" +:+ cause).

Definition retry_error op client_id url (attempts started now : N) (err : Error) : Error :=
  failed op client_id url attempts (now - started) (alternate err).

(** The loop [for attempt in 1..=MAX_ATTEMPTS], [later] attempts before the last. *)
Fixpoint retry_loop {T} (op : string) (client_id : option string) (url : string)
    (attempt_fn : prog E (RetryDecision T)) (started : N) (later : nat) (attempt delay : N) :
    prog E (result Error T) :=
  decision ← attempt_fn;
  match decision, later with
  | Success value, _ => mret (Ok value)
  | Fatal err, _ =>
      now ← trigger now_ms;
      mret (Err (retry_error op client_id url attempt started now err))
  | Transient _, S later =>
      sleep_for ← with_jitter delay;
      _ ← trigger (sleep sleep_for);
      retry_loop op client_id url attempt_fn started later (attempt + 1) (next_delay delay)
  | Transient cause, O =>
      now ← trigger now_ms;
      mret (Err (failed op client_id url attempt (now - started) cause))
  end.

Definition retry_transient_http_async {T} (op : string) (client_id : option string)
    (url : string) (attempt_fn : prog E (RetryDecision T)) : prog E (result Error T) :=
  started ← trigger now_ms;
  retry_loop op client_id url attempt_fn started (pred (N.to_nat MAX_ATTEMPTS)) 1 INITIAL_DELAY.
End retry.

(** ** A call against scripted answers *)

(** The calls of one attempt are one effect, answered from a script; the state
    records the attempts made and the time slept. *)
Inductive ScriptedEffect (T : Type) : Type → Type :=
| Attempt : ScriptedEffect T (RetryDecision T)
| SSleep (ms : N) : ScriptedEffect T unit
| SGen (lo hi : N) : ScriptedEffect T N
| SNow : ScriptedEffect T N.
Arguments Attempt {_}.
Arguments SSleep {_} _.
Arguments SGen {_} _ _.
Arguments SNow {_}.

#[export] Instance scripted_retry T : RetryEffects (ScriptedEffect T) :=
  {| sleep := SSleep; gen_range := SGen; now_ms := SNow |}.

Section scripted.
Context {T : Type} (decisions : nat → RetryDecision T) (jitter : nat → N).

Record Call := MkCall { made : nat; slept : list N; clock : N }.

(** The generator's contract: a number of the range. *)
Definition draw (i : nat) (lo hi : N) : N := lo + jitter i `mod` (hi - lo + 1).

Definition scripted (X : Type) (c : Call) (e : ScriptedEffect T X) : Call * X :=
  match e with
  | Attempt => (MkCall (S (made c)) (slept c) (clock c), decisions (made c))
  | SSleep ms => (MkCall (made c) (slept c ++ [ms]) (clock c + ms), ())
  | SGen lo hi => (c, draw (made c) lo hi)
  | SNow => (c, clock c)
  end.

Definition is_transient (d : RetryDecision T) : bool :=
  match d with Transient _ => true | _ => false end.

(** The delay before attempt [i + 2], without jitter. *)
Fixpoint delay_after (i : nat) : N :=
  match i with O => INITIAL_DELAY | S i => next_delay (delay_after i) end.

Definition jittered (d s : N) : Prop := d <= s <= d + jitter_cap d.

Lemma draw_bounds i hi : draw i 0 hi <= hi.
Proof. unfold draw. pose proof (N.mod_lt (jitter i) (hi - 0 + 1)). lia. Qed.

Definition call_delays (n : nat) : list N := delay_after <$> seq 0 n.

(** The result of a decision that ends a call on attempt [i + 1]. *)
Definition outcome op client_id url (started now : N) (i : nat) : result Error T :=
  let attempts := N.of_nat (S i) in
  match decisions i with
  | Success v => Ok v
  | Fatal err => Err (retry_error op client_id url attempts started now err)
  | Transient cause => Err (failed op client_id url attempts (now - started) cause)
  end.

Lemma retry_loop_spec op client_id url started later : ∀ c,
  let '(c', r) := run scripted c
                    (retry_loop op client_id url (trigger Attempt) started later
                       (N.of_nat (S (made c))) (delay_after (made c))) in
  ∃ n s, (n <= later)%nat ∧ made c' = (made c + S n)%nat
    ∧ (∀ j, (j < n)%nat → is_transient (decisions (made c + j)) = true)
    ∧ (n < later → is_transient (decisions (made c + n)) = false)%nat
    ∧ slept c' = slept c ++ s ∧ clock c' = clock c + foldr N.add 0 s
    ∧ Forall2 jittered (delay_after <$> seq (made c) n) s
    ∧ r = outcome op client_id url started (clock c') (made c + n).
Proof.
  induction later as [|later IH]; intros c.
  - cbn. destruct (decisions (made c)) eqn:E; cbn;
      exists 0%nat, []; rewrite ?Nat.add_0_r, ?app_nil_r, ?N.add_0_r; unfold outcome;
      rewrite ?E; split_and!; try done; lia.
  - cbn [retry_loop]. rewrite run_bind. cbn [run trigger scripted].
    destruct (decisions (made c)) as [v|cause|err] eqn:E.
    1,3: cbn; exists 0%nat, []; rewrite ?Nat.add_0_r, ?app_nil_r, ?N.add_0_r; unfold outcome;
      rewrite ?E; split_and!; try done; lia.
    rewrite run_bind. cbn [run with_jitter trigger mbind prog_bind mret prog_ret scripted gen_range sleep scripted_retry
         made slept clock].
    set (s0 := delay_after (made c) + draw (S (made c)) 0 (jitter_cap (delay_after (made c)))).
    specialize (IH (MkCall (S (made c)) (slept c ++ [s0]) (clock c + s0))). cbn [made slept clock] in IH. cbn [delay_after] in IH.
    replace (N.of_nat (S (made c)) + 1) with (N.of_nat (S (S (made c)))) by lia.
    destruct (run scripted _ _) as [c' r].
    destruct IH as (n & s & H1 & H2 & H3 & H4 & H5 & H6 & H7 & H8).
    exists (S n), (s0 :: s). split_and!.
    + lia.
    + lia.
    + intros [|j] Hj; [by rewrite Nat.add_0_r, E|].
      replace (made c + S j)%nat with (S (made c) + j)%nat by lia. apply H3. lia.
    + intros Hn. replace (made c + S n)%nat with (S (made c) + n)%nat by lia. apply H4. lia.
    + rewrite H5, <-app_assoc. done.
    + rewrite H6. cbn. lia.
    + cbn [seq fmap list_fmap]. constructor; [|done].
      subst s0. unfold jittered. pose proof (draw_bounds (S (made c)) (jitter_cap (delay_after (made c)))).
      lia.
    + rewrite H8. f_equal. lia.
Qed.
End scripted.

(** ** Properties *)

Definition backoff : list N := [100; 200; 400; 800; 1600; 3000; 3000; 3000; 3000].

Lemma backoff_delays : call_delays 9 = backoff.
Proof. reflexivity. Qed.

Lemma call_delays_prefix n : (n <= 9)%nat → call_delays n = take n backoff.
Proof.
  intros Hn. rewrite <-backoff_delays. unfold call_delays. rewrite <-fmap_take.
  by rewrite take_seq, Nat.min_l by lia.
Qed.

Lemma jittered_sum l s :
  Forall2 jittered l s →
  foldr N.add 0 l <= foldr N.add 0 s <= foldr N.add 0 l + foldr N.add 0 (jitter_cap <$> l).
Proof. unfold jittered. induction 1; cbn; lia. Qed.

Lemma take_sum_le (n : nat) (l : list N) : foldr N.add 0 (take n l) <= foldr N.add 0 l.
Proof. revert l. induction n as [|n IH]; intros [|x l]; cbn; try lia. specialize (IH l). lia. Qed.

(** C16: A retried call, for every script of attempt outcomes, jitter and clock: it
    makes at least one and at most ten attempts, stops at the first one that is not
    transient and returns its value or its error, gives up with the tenth cause
    otherwise; between attempts it sleeps 100, 200, 400, 800, 1600, 3000, .. ms, each
    with a jitter of at most a tenth (at least 1, at most 100 ms), so never more than
    15.75 seconds in all. *)
Theorem retry_first_decision {T} (decisions : nat → RetryDecision T) (jitter : nat → N)
    op client_id url (started : N) :
  let '(c, r) := run (scripted decisions jitter) (MkCall 0 [] started)
                   (retry_transient_http_async op client_id url (trigger Attempt)) in
  ∃ n, (n < 10)%nat ∧ made c = S n
    ∧ (∀ j, (j < n)%nat → is_transient (decisions j) = true)
    ∧ (is_transient (decisions n) = true → n = 9%nat)
    ∧ r = outcome decisions op client_id url started (clock c) n
    ∧ Forall2 jittered (take n backoff) (slept c)
    ∧ clock c = started + foldr N.add 0 (slept c) ∧ clock c <= started + 15750.
Proof.
  unfold retry_transient_http_async. rewrite run_bind.
  cbn [run trigger scripted clock now_ms scripted_retry].
  pose proof (retry_loop_spec decisions jitter op client_id url started 9 (MkCall 0 [] started)) as H.
  cbn [made delay_after] in H. change (pred (N.to_nat MAX_ATTEMPTS)) with 9%nat.
  change (N.of_nat 1) with 1 in H.
  destruct (run _ _ (retry_loop _ _ _ _ _ _ _ _)) as [c r].
  destruct H as (n & s & Hn & Hm & Ht & Hf & Hs & Hc & Hd & Hr). cbn in Hm, Hs, Hc.
  fold (call_delays n) in Hd. rewrite call_delays_prefix in Hd by lia. subst s.
  exists n. split_and!; try done; [lia| |].
  - intros Htr. destruct (decide (n = 9%nat)) as [|Hne]; [done|].
    cbn in Hf. rewrite Hf in Htr by lia. done.
  - destruct (jittered_sum _ _ Hd) as [_ Hle].
    pose proof (take_sum_le n backoff). pose proof (take_sum_le n (jitter_cap <$> backoff)).
    rewrite fmap_take in Hle.
    change (foldr N.add 0 backoff) with 15100 in *.
    change (foldr N.add 0 (jitter_cap <$> backoff)) with 650 in *. lia.
Qed.

(** * Programs with a state they borrow

    An [async fn] with a [&mut S] parameter that returns [anyhow::Result<A>]: a failed
    call leaves the state the code leaves. *)

Declare Scope stateful_scope.

Section stateful.
Context {S : Type} {E : Type → Type}.

Definition M (A : Type) : Type := S → prog E (S * result Error A).

Definition ok {A} (a : A) : M A := λ s, Ret (s, Ok a).
Definition fail {A} (e : Error) : M A := λ s, Ret (s, Err e).
Definition bind {A B} (m : M A) (f : A → M B) : M B := λ s,
  m s ≫= λ '(s', r), match r with Ok a => f a s' | Err e => Ret (s', Err e) end.
(** [match m.await { Ok(..) => .., Err(..) => .. }] *)
Definition catch {A} (m : M A) : M (result Error A) := λ s,
  m s ≫= λ '(s', r), Ret (s', Ok r).
(** A call that does not touch the state *)
Definition call {A} (p : prog E (result Error A)) : M A := λ s, p ≫= λ r, Ret (s, r).
(** An effect *)
Definition perform {A} (e : E A) : M A := call (a ← trigger e; Ret (Ok a)).
(** A method of [&S], and one of [&mut S] *)
Definition inspect {A} (f : S → result Error A) : M A := λ s, Ret (s, f s).
Definition modify {A} (f : S → S * result Error A) : M A := λ s, Ret (f s).
(** [anyhow::ensure!(b, e)] *)
Definition ensure (b : bool) (e : string) : M unit := if b then ok tt else fail (anyhow e).
End stateful.
Arguments M _ _ _ : clear implicits.

Notation "'let*' x '<-' m 'in' k" := (bind m (λ x, k))
  (at level 10, x pattern at level 99, m at level 200, k at level 200) : stateful_scope.
Open Scope stateful_scope.

(** ** Running *)

Section running.
Context {S : Type} {E : Type → Type} {W : Type} (h : ∀ X, W → E X → W * X).

Lemma run_M {A B} w (s : S) (m : M S E A) (f : A → M S E B) :
  run h w (bind m f s)
  = let '(w1, (s1, r)) := run h w (m s) in
    match r with Ok a => run h w1 (f a s1) | Err e => (w1, (s1, Err e)) end.
Proof. unfold bind. rewrite run_bind. by destruct (run h w (m s)) as [w1 [s1 [a|e]]]. Qed.

Lemma run_call {A} w (s : S) (p : prog E (result Error A)) :
  run h w (call p s) = let '(w1, r) := run h w p in (w1, (s, r)).
Proof. unfold call. rewrite run_bind. by destruct (run h w p). Qed.

Lemma run_catch {A} w (s : S) (m : M S E A) :
  run h w (catch m s) = let '(w1, (s1, r)) := run h w (m s) in (w1, (s1, Ok r)).
Proof. unfold catch. rewrite run_bind. by destruct (run h w (m s)) as [w1 [s1 r]]. Qed.

Lemma run_perform {A} w (s : S) (e : E A) :
  run h w (perform e s) = let '(w1, a) := h A w e in (w1, (s, Ok a)).
Proof. unfold perform. rewrite run_call, run_bind. cbn. by destruct (h A w e). Qed.

(** What a call leaves and returns *)
Definition runs {A} (w : W) (s : S) (m : M S E A) (Q : W → S → result Error A → Prop) : Prop :=
  let '(w', (s', r)) := run h w (m s) in Q w' s' r.

Lemma runs_ok {A} w s (a : A) (Q : W → S → result Error A → Prop) :
  Q w s (Ok a) → runs w s (ok a) Q.
Proof. done. Qed.

Lemma runs_bind {A B} w s (m : M S E A) (f : A → M S E B) (Q : W → S → result Error B → Prop) :
  runs w s m (λ w' s' r, match r with Ok a => runs w' s' (f a) Q | Err e => Q w' s' (Err e) end) →
  runs w s (bind m f) Q.
Proof.
  unfold runs. rewrite run_M. by destruct (run h w (m s)) as [w1 [s1 [a|e]]].
Qed.

Lemma runs_mono {A} w s (m : M S E A) (Q Q' : W → S → result Error A → Prop) :
  (∀ w' s' r, Q w' s' r → Q' w' s' r) → runs w s m Q → runs w s m Q'.
Proof. unfold runs. intros HQ. destruct (run h w (m s)) as [w1 [s1 r]]. apply HQ. Qed.

Lemma runs_call {A} w s (p : prog E (result Error A)) w' r (Q : W → S → result Error A → Prop) :
  run h w p = (w', r) → Q w' s r → runs w s (call p) Q.
Proof. unfold runs. intros Hp. by rewrite run_call, Hp. Qed.

Lemma runs_perform {A} w s (e : E A) w' a (Q : W → S → result Error A → Prop) :
  h A w e = (w', a) → Q w' s (Ok a) → runs w s (perform e) Q.
Proof. unfold runs. intros He. by rewrite run_perform, He. Qed.

Lemma runs_inspect {A} w s (f : S → result Error A) (Q : W → S → result Error A → Prop) :
  Q w s (f s) → runs w s (inspect f) Q.
Proof. done. Qed.

Lemma runs_modify {A} w s (f : S → S * result Error A) s' r (Q : W → S → result Error A → Prop) :
  f s = (s', r) → Q w s' r → runs w s (modify f) Q.
Proof. intros Hf. unfold runs, modify. cbn. by rewrite Hf. Qed.

Lemma runs_ensure w s (b : bool) e (Q : W → S → result Error unit → Prop) :
  b = true → Q w s (Ok tt) → runs w s (ensure b e) Q.
Proof. by intros ->. Qed.

Lemma runs_catch {A} w s (m : M S E A) (Q : W → S → result Error (result Error A) → Prop) :
  runs w s m (λ w' s' r, Q w' s' (Ok r)) → runs w s (catch m) Q.
Proof.
  unfold runs. rewrite run_catch. by destruct (run h w (m s)) as [w1 [s1 r]].
Qed.
End running.
