(* ===== verification/Client.v ===== *)
(** * The MLS client of a worker

    [OpenMLS_containerized/src/client.rs] and [crypto_profile.rs].  The MLS library is
    an interface: [MlsLibrary] lists the calls the client makes, [MlsLaws] what they
    are documented to do to the public state of a group (its "view": group id, epoch,
    members, ..).  Profiling contexts and debug output are left out.  The provider's
    storage and random generator are explicit state; [Client::fresh] takes the
    randomness it draws as a seed. *)

From S2P Require Import Prelude Text Interaction HttpRetry.
From stdpp Require Import options.

Local Open Scope N_scope.

(** ** [crypto_profile.rs] *)

Inductive CryptoProfile := Classical | HybridPq.

#[export] Instance crypto_profile_eq_dec : EqDecision CryptoProfile.
Proof. solve_decision. Defined.

Definition profile_name (p : CryptoProfile) : string :=
  match p with Classical => "classical" | HybridPq => "hybrid-pq" end.

Definition ciphersuite (p : CryptoProfile) : string :=
  match p with
  | Classical => "MLS_128_DHKEMX25519_AES128GCM_SHA256_Ed25519"
  | HybridPq => "MLS_128_MLKEM768X25519_AES128GCM_SHA256_Ed25519"
  end.

Definition profile_from_str (value : string) : result string CryptoProfile :=
  if String.eqb value "classical" then Ok Classical
  else if String.eqb value "hybrid-pq" then Ok HybridPq
  else Err ("Invalid crypto profile '" +:+ value +:+ "'; expected classical or hybrid-pq").

Lemma profile_roundtrip value p : profile_from_str value = Ok p ↔ value = profile_name p.
Proof.
  unfold profile_from_str. destruct (String.eqb_spec value "classical") as [->|Hc];
    [destruct p; naive_solver|].
  destruct (String.eqb_spec value "hybrid-pq") as [->|Hh]; destruct p; naive_solver.
Qed.

(** ** The MLS library *)

(** What [process_message] makes of a message. *)
Inductive ProcessedContent (S : Type) :=
| ApplicationMessage (plaintext : bytes)
| StagedCommitMessage (staged : S)
| OtherContent.
Arguments ApplicationMessage {_} _.
Arguments StagedCommitMessage {_} _.
Arguments OtherContent {_}.

(** [add_members] also returns a [GroupInfo], whose ratchet tree extension has a size. *)
Definition GroupInfoTree : Type := option (option N).

Class MlsLibrary := {
  Provider : Type;
  Credentials : Type;
  MlsGroup : Type;
  StagedCommit : Type;
  KeyPackageIn : Type;
  KeyPackage : Type;
  MlsMessageOut : Type;
  ProtocolMessage : Type;
  default_provider : N → Provider;
  supports : Provider → CryptoProfile → result Error unit;
  new_credentials : N → CryptoProfile → string → result Error Credentials;
  group_id : MlsGroup → bytes;
  epoch : MlsGroup → N;
  (** leaf indices and the contents of the credentials *)
  members : MlsGroup → list (N * string);
  new_group : Provider → Credentials → CryptoProfile → Provider * result Error MlsGroup;
  build_key_package : Provider → Credentials → CryptoProfile → Provider * result Error KeyPackage;
  serialize_key_package : KeyPackage → option bytes;
  deserialize_key_package : bytes → option KeyPackageIn;
  validate_key_package : Provider → KeyPackageIn → option KeyPackage;
  serialize_message : MlsMessageOut → option bytes;
  deserialize_message : bytes → option (option ProtocolMessage);
  add_members : Provider → Credentials → MlsGroup → list KeyPackage →
    Provider * MlsGroup * result Error (MlsMessageOut * MlsMessageOut * GroupInfoTree);
  remove_members : Provider → Credentials → MlsGroup → list N →
    Provider * MlsGroup * result Error MlsMessageOut;
  self_update : Provider → Credentials → MlsGroup →
    Provider * MlsGroup * result Error MlsMessageOut;
  clear_pending_commit : Provider → MlsGroup → Provider * MlsGroup * result Error unit;
  merge_pending_commit : Provider → MlsGroup → Provider * MlsGroup * result Error unit;
  merge_staged_commit : Provider → MlsGroup → StagedCommit →
    Provider * MlsGroup * result Error unit;
  delete_group : Provider → MlsGroup → Provider * result Error unit;
  join_from_welcome : Provider → bytes → Provider * result Error MlsGroup;
  create_message : Provider → Credentials → MlsGroup → bytes →
    Provider * MlsGroup * result Error MlsMessageOut;
  process_message : Provider → MlsGroup → ProtocolMessage →
    Provider * MlsGroup * result Error (ProcessedContent StagedCommit);
  (** deserialisation included *)
  process_message_from_bytes_profiled : Provider → MlsGroup → bytes →
    Provider * MlsGroup * result Error (ProcessedContent StagedCommit);
  process_commit_message_from_bytes_profiled : Provider → MlsGroup → bytes →
    Provider * MlsGroup * result Error (ProcessedContent StagedCommit);
}.

Section client.
Context {lib : MlsLibrary}.
(** [String::from_utf8_lossy] *)
Context (utf8_lossy : string → string).

Record Client := MkClient {
  name : string;
  crypto : Provider;
  crypto_profile : CryptoProfile;
  credentials : Credentials;
  group : option MlsGroup;
  pending_commit_bytes : option bytes;
  pending_welcome_bytes : option bytes;
  pending_welcome_recipients : list string;
}.

Definition fresh (seed : N) (n : string) (profile : CryptoProfile) : result Error Client :=
  let crypto := default_provider seed in
  let? _ <- supports crypto profile in
  let? credentials <- new_credentials seed profile n in
  Ok (MkClient n crypto profile credentials None None None []).

Definition set_crypto (c : Client) (p : Provider) : Client :=
  MkClient (name c) p (crypto_profile c) (credentials c) (group c) (pending_commit_bytes c)
    (pending_welcome_bytes c) (pending_welcome_recipients c).
Definition set_group (c : Client) (p : Provider) (g : option MlsGroup) : Client :=
  MkClient (name c) p (crypto_profile c) (credentials c) g (pending_commit_bytes c)
    (pending_welcome_bytes c) (pending_welcome_recipients c).
Definition set_pending (c : Client) (commit welcome : option bytes) (recipients : list string) :
    Client :=
  MkClient (name c) (crypto c) (crypto_profile c) (credentials c) (group c) commit welcome
    recipients.

(** Methods that take [&mut self]: the client after the call, also when it fails. *)
Definition outcome_of (A : Type) : Type := Client * result Error A.

Definition reset_local_state_fully (seed : N) (c : Client) : outcome_of unit :=
  match fresh seed (name c) (crypto_profile c) with
  | Ok c' => (c', Ok tt)
  | Err e => (c, Err e)
  end.

(** [format!("{:02x}", b)] for every byte *)
Fixpoint hex_encode (b : bytes) : string :=
  match b with
  | [] => ""
  | x :: rest =>
      let n := Byte.to_N x in
      String (hex_digit (n `div` 16)) (String (hex_digit (n mod 16)) (hex_encode rest))
  end.

Definition the_group (c : Client) : result Error MlsGroup :=
  match group c with Some g => Ok g | None => Err (anyhow "Client is not in a group") end.

Definition group_id_hex (c : Client) : result Error string :=
  let? g <- the_group c in Ok (hex_encode (group_id g)).

Definition current_epoch_u64 (c : Client) : result Error N :=
  let? g <- the_group c in Ok (epoch g).

Definition member_names (c : Client) : result Error (list string) :=
  let? g <- the_group c in Ok (utf8_lossy <$> (members g).*2).

Definition create_group (c : Client) : outcome_of unit :=
  let '(p, r) := new_group (crypto c) (credentials c) (crypto_profile c) in
  match r with
  | Ok g => (set_group c p (Some g), Ok tt)
  | Err e => (set_crypto c p, Err e)
  end.

Definition generate_key_package (c : Client) : outcome_of bytes :=
  let '(p, r) := build_key_package (crypto c) (credentials c) (crypto_profile c) in
  (set_crypto c p,
   let? kp <- r in ok_or (serialize_key_package kp) (anyhow "Could not serialize KeyPackage")).

Definition clear_pending_local_state (c : Client) : Client := set_pending c None None [].

(** The commit and the optional welcome are serialised before anything is stored. *)
Definition store_pending_epoch_change (c : Client) (commit : MlsMessageOut)
    (welcome : option MlsMessageOut) (recipients : list string) : outcome_of bytes :=
  let stored :=
    let? commit_bytes <-
      ok_or (serialize_message commit) (anyhow "Could not serialize commit message") in
    let? welcome_bytes <-
      match welcome with
      | Some w =>
          let? b <- ok_or (serialize_message w) (anyhow "Could not serialize welcome message") in
          Ok (Some b)
      | None => Ok None
      end in
    Ok (commit_bytes, welcome_bytes) in
  match stored with
  | Ok (commit_bytes, welcome_bytes) =>
      (set_pending c (Some commit_bytes) welcome_bytes recipients, Ok commit_bytes)
  | Err e => (c, Err e)
  end.

Definition is_member (g : MlsGroup) (n : string) : bool :=
  existsb (λ m, String.eqb m.2 n) (members g).

Definition cleanup_if_removed (seed : N) (c : Client) : outcome_of bool :=
  match the_group c with
  | Err e => (c, Err e)
  | Ok g =>
      if is_member g (name c) then (c, Ok false)
      else
        let '(c', r) := reset_local_state_fully seed c in
        (c', let? _ <- r in Ok true)
  end.

Fixpoint decode_key_packages (p : Provider) (l : list bytes) : result Error (list KeyPackage) :=
  match l with
  | [] => Ok []
  | b :: rest =>
      let? kpi <- ok_or (deserialize_key_package b) (anyhow "Could not deserialize KeyPackage") in
      let? kp <- ok_or (validate_key_package p kpi) (anyhow "Invalid KeyPackage") in
      let? kps <- decode_key_packages p rest in
      Ok (kp :: kps)
  end.

(** [usize::checked_add] *)
Definition check_member_count (before added : nat) : result Error N :=
  ok_or (checked_add64 (N.of_nat before) (N.of_nat added))
    (anyhow "AddCommit member count overflow").

Definition check_group_info (gi : GroupInfoTree) : result Error unit :=
  let? tree <- ok_or gi (anyhow "AddCommit did not produce GroupInfo") in
  let? len <- ok_or tree
    (anyhow "AddCommit GroupInfo is missing the ratchet tree extension") in
  if len =? 0
  then Err (anyhow "AddCommit GroupInfo contains an empty ratchet tree extension")
  else Ok tt.

Definition add_members_op (c : Client) (key_packages : list bytes) (names : list string) :
    outcome_of bytes :=
  let prepared :=
    if negb (length key_packages =? length names)%nat
    then Err (anyhow "Number of key packages does not match number of member names")
    else
      let? g <- the_group c in
      let? _ <- check_member_count (length (members g)) (length key_packages) in
      let? kps <- decode_key_packages (crypto c) key_packages in
      Ok (g, kps) in
  match prepared with
  | Err e => (c, Err e)
  | Ok (g, kps) =>
      let '(p, g', r) := add_members (crypto c) (credentials c) g kps in
      let c' := set_group c p (Some g') in
      match (let? (commit, welcome, gi) <- r in
             let? _ <- check_group_info gi in Ok (commit, welcome)) with
      | Ok (commit, welcome) => store_pending_epoch_change c' commit (Some welcome) names
      | Err e => (c', Err e)
      end
  end.

Definition find_member_index_by_name (g : MlsGroup) (target : string) : result Error N :=
  match List.find (λ m, String.eqb m.2 target) (members g) with
  | Some m => Ok m.1
  | None => Err (anyhow ("Member '" +:+ target +:+ "' not found in group"))
  end.

Fixpoint find_member_indices_by_name (g : MlsGroup) (targets : list string) :
    result Error (list N) :=
  match targets with
  | [] => Ok []
  | t :: rest =>
      let? i <- find_member_index_by_name g t in
      let? ixs <- find_member_indices_by_name g rest in
      Ok (i :: ixs)
  end.

(** Store the commit of a library call that has no welcome to send. *)
Definition commit_only (c : Client) (call : Provider * MlsGroup * result Error MlsMessageOut) :
    outcome_of bytes :=
  let '(p, g', r) := call in
  let c' := set_group c p (Some g') in
  match r with
  | Ok commit => store_pending_epoch_change c' commit None []
  | Err e => (c', Err e)
  end.

Definition remove_members_op (c : Client) (targets : list string) : outcome_of bytes :=
  match (let? g <- the_group c in
         let? ixs <- find_member_indices_by_name g targets in Ok (g, ixs)) with
  | Err e => (c, Err e)
  | Ok (g, ixs) => commit_only c (remove_members (crypto c) (credentials c) g ixs)
  end.

Definition self_update_op (c : Client) : outcome_of bytes :=
  match the_group c with
  | Err e => (c, Err e)
  | Ok g => commit_only c (self_update (crypto c) (credentials c) g)
  end.

Definition rollback_pending_commit (c : Client) : outcome_of unit :=
  match the_group c with
  | Err e => (c, Err e)
  | Ok g =>
      let '(p, g', r) := clear_pending_commit (crypto c) g in
      let c' := set_group c p (Some g') in
      match r with
      | Ok _ => (clear_pending_local_state c', Ok tt)
      | Err _ => (c', Err (anyhow "Could not clear pending commit"))
      end
  end.

(** The group is taken out of the client before it is deleted. *)
Definition join_from_welcome_op (c : Client) (welcome : bytes) : outcome_of unit :=
  let '(c1, deleted) :=
    match group c with
    | Some stale =>
        let '(p, r) := delete_group (crypto c) stale in
        (set_group c p None,
         match r with
         | Ok _ => Ok tt
         | Err e => Err (anyhow ("Could not delete stale group before rejoin: " +:+ display e))
         end)
    | None => (c, Ok tt)
    end in
  match deleted with
  | Err e => (c1, Err e)
  | Ok _ =>
      let c2 := clear_pending_local_state c1 in
      let '(p, r) := join_from_welcome (crypto c2) welcome in
      match r with
      | Ok g => (set_group c2 p (Some g), Ok tt)
      | Err e => (set_crypto c2 p, Err e)
      end
  end.

Definition send_application_message (c : Client) (plaintext : bytes) : outcome_of bytes :=
  match the_group c with
  | Err e => (c, Err e)
  | Ok g =>
      let '(p, g', r) := create_message (crypto c) (credentials c) g plaintext in
      (set_group c p (Some g'),
       let? m <- r in
       ok_or (serialize_message m) (anyhow "Could not serialize application message"))
  end.

Definition receive_application_message (c : Client) (message : bytes) : outcome_of bytes :=
  match the_group c with
  | Err e => (c, Err e)
  | Ok g =>
      let '(p, g', r) := process_message_from_bytes_profiled (crypto c) g message in
      (set_group c p (Some g'),
       let? content <- r in
       match content with
       | ApplicationMessage plaintext => Ok plaintext
       | _ => Err (anyhow "Expected an application message")
       end)
  end.

Inductive CommitReceiveOutcome :=
| OwnCommitAccepted (self_removed : bool) (welcome_recipients : list string)
    (welcome_bytes : option bytes)
| ExternalCommitApplied (self_removed : bool).

(** [profile.enabled] chooses between the two ways to process a commit. *)
Definition process_commit (p : Provider) (g : MlsGroup) (enabled : bool) (commit : bytes) :
    Provider * MlsGroup * result Error (ProcessedContent StagedCommit) :=
  if enabled then process_commit_message_from_bytes_profiled p g commit
  else
    match deserialize_message commit with
    | None => (p, g, Err (anyhow "Could not deserialize incoming commit"))
    | Some None => (p, g, Err (anyhow "Expected a protocol message"))
    | Some (Some m) => process_message p g m
    end.

Definition merge_processed (p : Provider) (g : MlsGroup)
    (r : result Error (ProcessedContent StagedCommit)) : Provider * MlsGroup * result Error unit :=
  match r with
  | Err e => (p, g, Err e)
  | Ok (StagedCommitMessage staged) =>
      let '(p', g', r') := merge_staged_commit p g staged in
      (p', g', match r' with Ok _ => Ok tt | Err _ => Err (anyhow "Could not merge staged commit") end)
  | Ok _ => (p, g, Err (anyhow "Expected a staged commit message"))
  end.

Definition is_own_pending_commit (c : Client) (commit : bytes) : bool :=
  match pending_commit_bytes c with
  | Some pending => bool_decide (pending = commit)
  | None => false
  end.

Definition receive_own_commit (seed : N) (c : Client) : outcome_of CommitReceiveOutcome :=
  match the_group c with
  | Err e => (c, Err e)
  | Ok g =>
      let '(p, g', r) := merge_pending_commit (crypto c) g in
      let c1 := set_group c p (Some g') in
      match r with
      | Err _ => (c1, Err (anyhow "Could not merge local pending commit"))
      | Ok _ =>
          let '(c2, removed) := cleanup_if_removed seed (set_pending c1 None None []) in
          (c2, let? self_removed <- removed in
               Ok (OwnCommitAccepted self_removed (pending_welcome_recipients c)
                     (pending_welcome_bytes c)))
      end
  end.

Definition receive_external_commit (seed : N) (c : Client) (commit : bytes) (enabled : bool) :
    outcome_of CommitReceiveOutcome :=
  match the_group c with
  | Err e => (c, Err e)
  | Ok g =>
      let '(p, g', processed) := process_commit (crypto c) g enabled commit in
      let '(p', g'', r) := merge_processed p g' processed in
      let c1 := set_group c p' (Some g'') in
      match r with
      | Err e => (c1, Err e)
      | Ok _ =>
          let '(c2, removed) := cleanup_if_removed seed c1 in
          (c2, let? self_removed <- removed in Ok (ExternalCommitApplied self_removed))
      end
  end.

Definition receive_commit (seed : N) (c : Client) (commit : bytes) (enabled : bool) :
    outcome_of CommitReceiveOutcome :=
  if is_own_pending_commit c commit then receive_own_commit seed c
  else receive_external_commit seed c commit enabled.
End client.

(** ** What the library promises

    The public state of a group, its view, is a function of the state its creator
    gave it and of the commits applied since.  A commit fits the group and epoch it
    was made for; a welcome leads to the view its commit leads to; a pending commit is
    one the library has serialised.  Group ids are random: the id of a group stands
    for its first view. Failing calls leave the view alone, except that merging may
    fail after the new view is in place. *)

Class MlsLaws `{!MlsLibrary} := {
  View : Type;
  view : MlsGroup → View;
  pending : MlsGroup → option View;
  staged_view : StagedCommit → View;
  genesis : string → View;
  apply : View → bytes → option View;
  welcome_view : bytes → option View;
  view_id : View → bytes;
  view_epoch : View → N;
  view_members : View → list string;
  group_id_view G : group_id G = view_id (view G);
  epoch_view G : epoch G = view_epoch (view G);
  members_view G : (members G).*2 = view_members (view G);
  apply_next v b v' :
    apply v b = Some v' →
    view_id v' = view_id v ∧ view_epoch v' = view_epoch v + 1 ∧ view_epoch v' <= u64_max;
  apply_target v w b v' w' :
    apply v b = Some v' → apply w b = Some w' →
    view_id v = view_id w ∧ view_epoch v = view_epoch w;
  new_group_law p cr prof p' G :
    new_group p cr prof = (p', Ok G) →
    view G = genesis (hex_encode (group_id G)) ∧ pending G = None;
  add_members_law p cr G kps p' G' r :
    add_members p cr G kps = (p', G', r) →
    view G' = view G ∧
    match r with
    | Ok (commit, welcome, gi) =>
        ∃ b w v n, serialize_message commit = Some b ∧ serialize_message welcome = Some w
          ∧ apply (view G) b = Some v ∧ welcome_view w = Some v ∧ pending G' = Some v
          ∧ gi = Some (Some n) ∧ n ≠ 0
    | Err _ => pending G' = pending G
    end;
  commit_law p cr G ixs p' G' r :
    (remove_members p cr G ixs = (p', G', r) ∨ self_update p cr G = (p', G', r)) →
    view G' = view G ∧
    match r with
    | Ok commit =>
        ∃ b v, serialize_message commit = Some b ∧ apply (view G) b = Some v
          ∧ pending G' = Some v
    | Err _ => pending G' = pending G
    end;
  clear_pending_law p G p' G' r :
    clear_pending_commit p G = (p', G', r) →
    view G' = view G ∧
    match r with Ok _ => pending G' = None | Err _ => pending G' = pending G end;
  merge_pending_law p G p' G' r :
    merge_pending_commit p G = (p', G', r) →
    (view G' = view G ∨ pending G = Some (view G'))
    ∧ (pending G' = pending G ∨ pending G' = None)
    ∧ (r = Ok tt → pending G' = None ∧ match pending G with
                                       | Some v => view G' = v
                                       | None => view G' = view G
                                       end);
  merge_staged_law p G s p' G' r :
    merge_staged_commit p G s = (p', G', r) →
    (view G' = view G ∨ view G' = staged_view s)
    ∧ (pending G' = pending G ∨ pending G' = None)
    ∧ (r = Ok tt → view G' = staged_view s ∧ pending G' = None);
  join_law p w p' G :
    join_from_welcome p w = (p', Ok G) → welcome_view w = Some (view G) ∧ pending G = None;
  create_message_law p cr G m p' G' r :
    create_message p cr G m = (p', G', r) → view G' = view G ∧ pending G' = pending G;
  process_law p G b p' G' r :
    (process_message_from_bytes_profiled p G b = (p', G', r)
     ∨ process_commit_message_from_bytes_profiled p G b = (p', G', r)
     ∨ ∃ m, deserialize_message b = Some (Some m) ∧ process_message p G m = (p', G', r)) →
    view G' = view G ∧ pending G' = pending G
    ∧ ∀ s, r = Ok (StagedCommitMessage s) → apply (view G) b = Some (staged_view s);
}.
