(* ===== verification/HttpEffects.v ===== *)
(** * HTTP calls as effects

    What the workers of both systems share: the effects of a program that makes HTTP
    requests (the request, a delay, a random number, the clock, a scheduling choice,
    entropy), the answers, and how the client code turns an answer into the decision of a
    retried call.  [Req] and [J] are the requests of a system and the JSON bodies of its
    answers.  Connection pools, timeouts and the semaphore of outbound permits decide
    when a request is sent, not what it is. *)

From S2P Require Import Prelude Text Http Interaction HttpRetry.
From stdpp Require Import options.

Local Open Scope N_scope.

(** The request fails before there is a response, or there is one, whose body may
    fail to arrive. *)
Inductive Reply (J : Type) :=
| SendFailed (err : ReqwestError)
| Replied (status : N) (body : result ReqwestError (Body J)).
Arguments SendFailed {_} _.
Arguments Replied {_} _ _.

Inductive Effect (Req J : Type) : Type → Type :=
| Http (r : Req) : Effect Req J (Reply J)
| Sleep (ms : N) : Effect Req J unit
| Draw (lo hi : N) : Effect Req J N
| Now : Effect Req J N
| Choose : Effect Req J bool
| Entropy : Effect Req J N.
Arguments Http {_ _} _.
Arguments Sleep {_ _} _.
Arguments Draw {_ _} _ _.
Arguments Now {_ _}.
Arguments Choose {_ _}.
Arguments Entropy {_ _}.

#[export] Instance worker_retry {Req J} : RetryEffects (Effect Req J) :=
  {| sleep := Sleep; gen_range := Draw; now_ms := Now |}.
#[export] Instance worker_choice {Req J} : HasChoice (Effect Req J) := Choose.

(** Third-party code: the lossy UTF-8 decoder, reqwest's and serde's renderings, and
    the [hex] crate's decoder. *)
Class Externals (J : Type) := {
  utf8_lossy : string → string;
  status_text : N → string;
  json_text : J → string;
  decode_error : Body J → ReqwestError;
  hex_decode : string → result Error bytes;
}.

Section calls.
Context {Req J : Type} {extern : Externals J}.

Definition bool_text (b : bool) : string := if b then "true" else "false".

(** [source[idx]=..] for every error of the chain *)
Fixpoint source_parts (idx : N) (sources : list string) : list string :=
  match sources with
  | [] => []
  | s :: rest => ("source[" +:+ pretty idx +:+ "]=" +:+ s) :: source_parts (idx + 1) rest
  end.

Definition reqwest_error_diagnostic (err : ReqwestError) : string :=
  String.concat "; "
    (["top_level=" +:+ re_display err;
      "is_connect=" +:+ bool_text (re_is_connect err);
      "is_timeout=" +:+ bool_text (re_is_timeout err);
      "is_request=" +:+ bool_text (re_is_request err);
      "is_body=" +:+ bool_text (re_is_body err);
      "connect_stage=" +:+ bool_text (is_connect_stage_reqwest_error err)]
     ++ source_parts 0 (re_sources err)).

Definition transient_or_fatal {T} (err : ReqwestError) : RetryDecision T :=
  if is_transient_reqwest_error err then Transient (reqwest_error_diagnostic err)
  else Fatal (re_display err :: re_sources err).

Definition is_success (status : N) : bool := (200 <=? status) && (status <? 300).

Definition octets_of (b : Body J) : bytes :=
  match b with
  | NoBody => []
  | Octets b => b
  | Message s => String.list_byte_of_string s
  | Json j => String.list_byte_of_string (json_text j)
  end.

(** [response.text().await.unwrap_or_default()] *)
Definition read_response_text (body : result ReqwestError (Body J)) : string :=
  match body with
  | Ok (Message s) => s
  | Ok b => utf8_lossy (String.string_of_list_byte (octets_of b))
  | Err _ => ""
  end.

(** What every call makes of an unsuccessful status. *)
Definition unsuccessful {T} (failure : string) (status : N)
    (body : result ReqwestError (Body J)) : RetryDecision T :=
  let text := read_response_text body in
  if is_transient_status status
  then Transient ("HTTP " +:+ status_text status +:+ ": " +:+ text)
  else Fatal (anyhow (failure +:+ " failed with status " +:+ status_text status +:+ ": " +:+ text)).

Definition decide_reply {T} (failure : string)
    (on_success : result ReqwestError (Body J) → RetryDecision T) (reply : Reply J) :
    RetryDecision T :=
  match reply with
  | SendFailed err => transient_or_fatal err
  | Replied status body =>
      if is_success status then on_success body else unsuccessful failure status body
  end.

Definition attempt {T} (r : Req) (decision : Reply J → RetryDecision T) :
    prog (Effect Req J) (RetryDecision T) :=
  reply ← trigger (Http r); mret (decision reply).

(** [match response.bytes().await { Ok(v) => Success(v), Err(e) => transient_or_fatal(e) }] *)
Definition read_body {T} (f : Body J → result ReqwestError T)
    (body : result ReqwestError (Body J)) : RetryDecision T :=
  match (let? b <- body in f b) with
  | Ok v => Success v
  | Err err => transient_or_fatal err
  end.

(** [response.json::<T>()] *)
Definition json_as {T} (pick : J → option T) (b : Body J) : result ReqwestError T :=
  match b with
  | Json j => ok_or (pick j) (decode_error b)
  | _ => Err (decode_error b)
  end.

(** [url.trim_end_matches('/')] *)
Definition trim_end_matches (c : ascii) (s : string) : string :=
  rev_string (trim_start_char c (rev_string s)).

End calls.

(** ** A call whose first answer decides *)

Lemma run_retry_first {Req J T W} (h : ∀ X, W → Effect Req J X → W * X) w w' now op client_id url
    (r : Req) (decision : Reply J → RetryDecision T) reply :
  (∀ w, h _ w Now = (w, now)) → h _ w (Http r) = (w', reply) →
  is_transient (decision reply) = false →
  run h w (retry_transient_http_async op client_id url (attempt r decision))
  = (w', match decision reply with
         | Success v => Ok v
         | Transient cause => Err (failed op client_id url 1 (now - now) cause)
         | Fatal err => Err (retry_error op client_id url 1 now now err)
         end).
Proof.
  intros Hn Hh Ht. unfold retry_transient_http_async. rewrite run_bind.
  cbn [run trigger now_ms worker_retry]. rewrite Hn.
  change (pred (N.to_nat MAX_ATTEMPTS)) with 9%nat. cbn [retry_loop].
  rewrite run_bind. unfold attempt. rewrite run_bind. cbn [run trigger].
  rewrite Hh. cbn [run mret prog_ret].
  destruct (decision reply); cbn; rewrite ?Hn; done.
Qed.
