(* ===== verification/WorkerHttp.v ===== *)
(** * The worker's HTTP calls

    The first half of [OpenMLS_containerized/src/worker_api.rs]: the functions that
    talk to the delivery service and to the relay, each a retried request whose
    answer is turned into a decision.  A request carries its route and body; the URL
    only appears in error messages. *)

From S2P Require Import Prelude Text Http Interaction HttpRetry Servers.
From S2P Require Export HttpEffects.
From S2P Require DeliveryService MessageRelay.
From stdpp Require Import options.

Local Open Scope N_scope.

(** ** What a worker sends and receives *)

Inductive AnyJson :=
| DsJson (j : Ds.JsonBody)
| RelayJson (m : MessageRelay.PendingMessage).

Inductive HttpRequest :=
| ToDs (r : Ds.Request)
| ToRelay (r : MlsRelay.Request).

Abbreviation Reply := (HttpEffects.Reply AnyJson).
Abbreviation Effect := (HttpEffects.Effect HttpRequest AnyJson).
Abbreviation Externals := (HttpEffects.Externals AnyJson).

Inductive DsPostResult :=
| PostOk
| PostConflict (message : string).

Section calls.
Context {extern : Externals}.

Definition pick_delivery (j : AnyJson) : option DeliveryService.PendingCommitDelivery :=
  match j with DsJson (Ds.Delivery d) => Some d | _ => None end.
Definition pick_commits (j : AnyJson) : option (list DeliveryService.PendingCommit) :=
  match j with DsJson (Ds.Commits l) => Some l | _ => None end.
Definition pick_message (j : AnyJson) : option MessageRelay.PendingMessage :=
  match j with RelayJson m => Some m | _ => None end.

Definition conflict_decision (reply : Reply) : RetryDecision DsPostResult :=
  match reply with
  | SendFailed err => transient_or_fatal err
  | Replied status body =>
      if is_success status then Success PostOk
      else if status =? CONFLICT then Success (PostConflict (read_response_text body))
      else unsuccessful "DS POST" status body
  end.

Definition ds_post_bytes_allow_conflict (ds_url path : string) (r : Ds.Request)
    (op client_id : string) : prog Effect (result Error DsPostResult) :=
  retry_transient_http_async op (Some client_id) (ds_url +:+ path)
    (attempt (ToDs r) conflict_decision).

Definition ds_post_bytes (ds_url path : string) (r : Ds.Request) (op client_id : string) :
    prog Effect (result Error unit) :=
  res ← ds_post_bytes_allow_conflict ds_url path r op client_id;
  mret (let? posted <- res in
        match posted with
        | PostOk => Ok tt
        | PostConflict message => Err (anyhow ("Unexpected DS conflict: " +:+ message))
        end).

Definition ds_put_json (ds_url path : string) (r : Ds.Request) (op client_id : string) :
    prog Effect (result Error unit) :=
  retry_transient_http_async op (Some client_id) (ds_url +:+ path)
    (attempt (ToDs r) (decide_reply "DS PUT" (λ _, Success tt))).

Definition ds_get_bytes (ds_url path : string) (r : Ds.Request) (op client_id : string) :
    prog Effect (result Error bytes) :=
  retry_transient_http_async op (Some client_id) (ds_url +:+ path)
    (attempt (ToDs r) (decide_reply "DS GET" (read_body (λ b, Ok (octets_of b))))).

Definition ds_get_pending_commit_delivery (ds_url client_id : string) :
    prog Effect (result Error DeliveryService.PendingCommitDelivery) :=
  retry_transient_http_async "fetch_pending_commit" (Some client_id)
    (ds_url +:+ "/commit/" +:+ client_id +:+ "/pending")
    (attempt (ToDs (Ds.FetchPendingCommit client_id))
       (decide_reply "DS pending commit GET" (read_body (json_as pick_delivery)))).

Definition ds_ack_commit_delivery (ds_url client_id delivery_id : string) :
    prog Effect (result Error unit) :=
  retry_transient_http_async "ack_commit" (Some client_id)
    (ds_url +:+ "/commit/" +:+ client_id +:+ "/ack/" +:+ delivery_id)
    (attempt (ToDs (Ds.AckCommit client_id delivery_id))
       (decide_reply "DS ack commit" (λ _, Success tt))).

Definition ds_get_pending_commits (ds_url client_id : string) (after_epoch : N) :
    prog Effect (result Error (list DeliveryService.PendingCommit)) :=
  retry_transient_http_async "fetch_pending_commits" (Some client_id)
    (ds_url +:+ "/commits/pending?client=" +:+ client_id +:+ "&after_epoch=" +:+ pretty after_epoch)
    (attempt (ToDs (Ds.FetchPendingCommits (pending_commits_query client_id after_epoch)))
       (decide_reply "DS pending commits GET" (read_body (json_as pick_commits)))).

Definition relay_post_application_message (relay_url group_id sender : string)
    (recipients : list string) (b : bytes) : prog Effect (result Error unit) :=
  retry_transient_http_async "relay.publish_application_message" (Some sender)
    (trim_end_matches "/" relay_url +:+ "/group/" +:+ group_id +:+ "/application-message/"
     +:+ sender)
    (attempt (ToRelay (MlsRelay.Publish group_id sender
                         (Some (Some (recipients_header recipients))) b))
       (decide_reply "Relay POST" (λ _, Success tt))).

Definition relay_get_application_message (relay_url recipient : string) :
    prog Effect (result Error bytes) :=
  retry_transient_http_async "relay.fetch_application_message" (Some recipient)
    (trim_end_matches "/" relay_url +:+ "/application-message/" +:+ recipient)
    (attempt (ToRelay (MlsRelay.Fetch recipient))
       (decide_reply "Relay GET" (read_body (λ b, Ok (octets_of b))))).

Definition relay_get_pending_application_message (relay_url recipient : string) :
    prog Effect (result Error MessageRelay.PendingMessage) :=
  retry_transient_http_async "relay.fetch_pending_application_message" (Some recipient)
    (trim_end_matches "/" relay_url +:+ "/application-message/" +:+ recipient +:+ "/pending")
    (attempt (ToRelay (MlsRelay.FetchPending recipient))
       (decide_reply "Relay pending message GET" (read_body (json_as pick_message)))).

Definition relay_ack_application_message (relay_url recipient message_id : string) :
    prog Effect (result Error unit) :=
  retry_transient_http_async "relay.ack_application_message" (Some recipient)
    (trim_end_matches "/" relay_url +:+ "/application-message/" +:+ recipient +:+ "/ack/"
     +:+ message_id)
    (attempt (ToRelay (MlsRelay.Ack recipient message_id))
       (decide_reply "Relay ack application message" (λ _, Success tt))).
End calls.
