(* ===== verification/Worker.v ===== *)
(** * The worker's commands

    The second half of [OpenMLS_containerized/src/worker_api.rs]: what a worker does
    for each command, over its client, its queued intent and the servers.  A worker
    program threads the [WorkerState] it borrows mutably, so that a failed command
    leaves the state the code leaves.  Benchmark contexts, which only label profiling
    output, are left out. *)

From S2P Require Import Prelude Text Http Interaction HttpRetry Servers Client WorkerHttp.
From S2P Require DeliveryService MessageRelay.
From stdpp Require Import options.

Local Open Scope N_scope.

Inductive PendingKind := Commits | Welcomes | ApplicationMessages.

#[export] Instance pending_kind_eq_dec : EqDecision PendingKind.
Proof. solve_decision. Defined.

Inductive Command :=
| CreateGroup
| GenerateKeyPackage
| AddMembers (members : list string)
| JoinFromWelcome
| SendApplicationMessage (message : string)
| ReceiveApplicationMessage (profile : bool)
| SelfUpdate
| RemoveMembers (members : list string)
| ReceiveCommit (profile : bool)
| ProcessPending (kinds : option (list PendingKind)) (max_messages expected_epoch : option N)
    (profile : bool)
| ShowGroupState.

Definition kind (c : Command) : string :=
  match c with
  | CreateGroup => "CreateGroup"
  | GenerateKeyPackage => "GenerateKeyPackage"
  | AddMembers _ => "AddMembers"
  | JoinFromWelcome => "JoinFromWelcome"
  | SendApplicationMessage _ => "SendApplicationMessage"
  | ReceiveApplicationMessage _ => "ReceiveApplicationMessage"
  | SelfUpdate => "SelfUpdate"
  | RemoveMembers _ => "RemoveMembers"
  | ReceiveCommit _ => "ReceiveCommit"
  | ProcessPending _ _ _ _ => "ProcessPending"
  | ShowGroupState => "ShowGroupState"
  end.

Inductive PendingIntent :=
| IntentAddMembers (members : list string) (key_package_bytes_list : list bytes)
| IntentRemoveMembers (members : list string)
| IntentSelfUpdate.

(** ** [{:?}] *)

Definition hex_text (n : N) : string :=
  if n <? 16 then String (hex_digit n) ""
  else String (hex_digit (n `div` 16)) (String (hex_digit (n mod 16)) "").

Definition double_quote : ascii := "034"%char.

(** [char::escape_debug] inside a string literal, bytes from 128 on printed as they
    are. *)
Definition escape_debug (c : ascii) : string :=
  let n := N_of_ascii c in
  if Ascii.eqb c double_quote || Ascii.eqb c "\" then String "\" (String c "")
  else if n =? 0 then "\0"
  else if n =? 9 then "\t"
  else if n =? 10 then "\n"
  else if n =? 13 then "\r"
  else if (n <? 32) || (n =? 127) then "\u{" +:+ hex_text n +:+ "}"
  else String c "".

Fixpoint escape_all (s : string) : string :=
  match s with EmptyString => "" | String c rest => escape_debug c +:+ escape_all rest end.

Definition debug_string (s : string) : string :=
  String double_quote "" +:+ escape_all s +:+ String double_quote "".

Definition debug_list (l : list string) : string :=
  "[" +:+ String.concat ", " (debug_string <$> l) +:+ "]".

Definition debug_option (o : option N) : string :=
  match o with Some n => "Some(" +:+ pretty n +:+ ")" | None => "None" end.

(** ** Recognising a stale group state update *)

(** What follows the first occurrence of [marker]: [message.find(marker)]. *)
Fixpoint find_after (marker s : string) : option string :=
  match strip_prefix marker s with
  | Some rest => Some rest
  | None => match s with EmptyString => None | String _ s' => find_after marker s' end
  end.

Definition parse_group_state_update_mismatch (message : string) : option (N * N) :=
  let! expected_rest <- find_after "expected epoch " message in
  let! expected <- parse_u64 (span_string is_digit expected_rest).1 in
  let! got_rest <- find_after ", got " expected_rest in
  let! got <- parse_u64 (span_string is_digit got_rest).1 in
  Some (expected, got).

Definition is_stale_group_state_update_error (error : Error) (epoch : N) : bool :=
  match parse_group_state_update_mismatch (alternate error) with
  | Some (expected, got) => (got =? epoch) && (got <? expected)
  | None => false
  end.

(** ** Worker programs *)

Section worker.
Context {lib : MlsLibrary} {extern : Externals}.

Record WorkerState := MkWorkerState {
  client : Client;
  queued_intent : option PendingIntent;
}.

Definition M (A : Type) : Type := HttpRetry.M WorkerState Effect A.

(** A method of [&Client] *)
Definition asks {A} (f : Client → result Error A) : M A := λ w, Ret (w, f (client w)).
(** A method of [&mut Client] *)
Definition update {A} (f : Client → Client * result Error A) : M A := λ w,
  let '(c, r) := f (client w) in Ret (MkWorkerState c (queued_intent w), r).
Definition set_intent (i : option PendingIntent) : M unit := λ w,
  Ret (MkWorkerState (client w) i, Ok tt).
Definition get_intent : M (option PendingIntent) := λ w, Ret (w, Ok (queued_intent w)).
Definition draw_seed : M N := λ w, seed ← trigger Entropy; Ret (w, Ok seed).

Definition client_name : M string := asks (λ c, Ok (name c)).

Definition update_ds_group_state (ds_url : string) : M unit :=
  let* group_id <- asks group_id_hex in
  let* epoch <- asks current_epoch_u64 in
  let* members <- asks (member_names utf8_lossy) in
  let* n <- client_name in
  let path := "/group/" +:+ group_id +:+ "/state/" +:+ pretty epoch in
  let* res <- catch (call (ds_put_json ds_url path (Ds.PutGroupState group_id epoch members)
                             "update_group_state" n)) in
  match res with
  | Ok _ => ok tt
  | Err error =>
      if is_stale_group_state_update_error error epoch then ok tt else fail error
  end.

Definition publish_epoch_change (ds_url : string) (commit_bytes : bytes) : M DsPostResult :=
  let* group_id <- asks group_id_hex in
  let* epoch <- asks current_epoch_u64 in
  let* n <- client_name in
  let path := "/group/" +:+ group_id +:+ "/commit/" +:+ n +:+ "/" +:+ pretty epoch in
  call (ds_post_bytes_allow_conflict ds_url path
          (Ds.PublishGroupCommit group_id n epoch commit_bytes) "submit_commit" n).

Definition start_commit (intent : PendingIntent) : M bytes :=
  match intent with
  | IntentAddMembers members key_packages =>
      update (λ c, add_members_op c key_packages members)
  | IntentRemoveMembers members => update (λ c, remove_members_op c members)
  | IntentSelfUpdate => update self_update_op
  end.

Definition try_start_intent (ds_url : string) (intent : PendingIntent) : M DsPostResult :=
  let* commit_bytes <- start_commit intent in
  let* posted <- publish_epoch_change ds_url commit_bytes in
  match posted with
  | PostOk => ok PostOk
  | PostConflict message =>
      let* _ <- update rollback_pending_commit in
      ok (PostConflict message)
  end.

Definition retried_text (intent : PendingIntent) : string :=
  match intent with
  | IntentAddMembers members _ =>
      "queued add_members for " +:+ debug_list members +:+ " was retried and published"
  | IntentRemoveMembers members =>
      "queued remove_members for " +:+ debug_list members +:+ " was retried and published"
  | IntentSelfUpdate => "queued self_update was retried and published"
  end.

Definition maybe_retry_pending_intent (ds_url : string) : M (option string) :=
  let* queued <- get_intent in
  match queued with
  | None => ok None
  | Some intent =>
      let* posted <- try_start_intent ds_url intent in
      match posted with
      | PostOk =>
          let* _ <- set_intent None in
          ok (Some (retried_text intent))
      | PostConflict message =>
          let* _ <- set_intent (Some intent) in
          ok (Some ("queued intent retry still conflicted and remains queued: " +:+ message))
      end
  end.

Definition publish_welcomes (ds_url client_id : string) (recipients : list string)
    (welcome : bytes) : prog Effect (result Error (list unit)) :=
  try_join_all
    ((λ recipient, ds_post_bytes ds_url ("/welcome/" +:+ recipient)
                     (Ds.PublishWelcome recipient welcome) "store_welcome" client_id)
     <$> recipients).

Definition apply_commit_bytes (ds_url : string) (commit_bytes : bytes) (profile : bool) :
    M string :=
  let* seed <- draw_seed in
  let* received <- update (λ c, receive_commit seed c commit_bytes profile) in
  match received with
  | ExternalCommitApplied true =>
      let* _ <- set_intent None in
      ok "external commit received and processed; this client was removed and local group state was cleared"
  | ExternalCommitApplied false =>
      let* _ <- update_ds_group_state ds_url in
      let* retry_message <- maybe_retry_pending_intent ds_url in
      ok match retry_message with
         | Some text =>
             "external commit received and processed; DS group state updated; " +:+ text
         | None => "external commit received and processed; DS group state updated"
         end
  | OwnCommitAccepted true _ _ =>
      let* _ <- set_intent None in
      ok "own commit accepted from DS; this client was removed and local group state was cleared"
  | OwnCommitAccepted false recipients welcome_bytes =>
      let* n <- client_name in
      let* _ <- match welcome_bytes with
                | Some welcome =>
                    let* _ <- call (publish_welcomes ds_url n recipients welcome) in ok tt
                | None => ok tt
                end in
      let* _ <- update_ds_group_state ds_url in
      ok "own commit accepted from DS; local state updated and welcome published"
  end.

Definition current_epoch_reached (c : Client) (epoch : N) : bool :=
  match current_epoch_u64 c with Ok current => epoch <=? current | Err _ => false end.

Definition epoch_reached (epoch : N) : M bool := asks (λ c, Ok (current_epoch_reached c epoch)).

(** [if let Some(expected) = expected_epoch { current_epoch_reached(client, expected) }] *)
Definition expected_reached (expected_epoch : option N) : M (option N) :=
  match expected_epoch with
  | Some expected =>
      let* reached <- epoch_reached expected in ok (if reached then Some expected else None)
  | None => ok None
  end.

Definition ack_commit_delivery_best_effort (ds_url delivery_id : string) : M bool :=
  let* n <- client_name in
  let* res <- catch (call (ds_ack_commit_delivery ds_url n delivery_id)) in
  ok match res with Ok _ => true | Err _ => false end.

Definition describe_delivery (d : DeliveryService.PendingCommitDelivery) : string :=
  " group=" +:+ DeliveryService.pcd_group_id d +:+ " epoch=" +:+ pretty (DeliveryService.pcd_epoch d)
  +:+ " sender=" +:+ DeliveryService.pcd_sender d.

(** [hex::decode(..).with_context(..)] *)
Definition decode_hex (ctx hex : string) : result Error bytes :=
  match hex_decode hex with Ok b => Ok b | Err e => Err (context ctx e) end.

(** One turn of the loop of [receive_commit_delivery]: [Some] returns, [None]
    continues with the new counters. *)
Definition receive_turn (ds_url : string) (expected_epoch : option N) (profile : bool)
    (stale_acked processed : N) : M (string + (N * N)) :=
  let* n <- client_name in
  let* fetched <- catch (call (ds_get_pending_commit_delivery ds_url n)) in
  match fetched with
  | Err err =>
      let* reached <- expected_reached expected_epoch in
      match reached with
      | Some expected =>
          ok (inl ("commit already applied; no pending delivery and current epoch has reached expected_epoch="
                   +:+ pretty expected +:+ " stale_acked=" +:+ pretty stale_acked))
      | None => fail err
      end
  | Ok delivery =>
      let id := DeliveryService.pcd_id delivery in
      let* stale <- epoch_reached (DeliveryService.pcd_epoch delivery) in
      if stale then
        let* acked <- ack_commit_delivery_best_effort ds_url id in
        let* reached <- expected_reached expected_epoch in
        if negb acked then
          match reached with
          | Some expected =>
              ok (inl ("commit already applied; stale delivery ack failed but current epoch has reached expected_epoch="
                       +:+ pretty expected +:+ " delivery_id=" +:+ id +:+ describe_delivery delivery))
          | None =>
              fail (anyhow ("stale commit delivery could not be acked before next receive: delivery_id="
                            +:+ id +:+ describe_delivery delivery))
          end
        else
          match reached with
          | Some expected =>
              ok (inl ("commit delivery already applied; delivery_id=" +:+ id
                       +:+ describe_delivery delivery +:+ " stale_acked=" +:+ pretty (stale_acked + 1)))
          | None => ok (inr (stale_acked + 1, processed))
          end
      else
        let* commit_bytes <-
          asks (λ _, decode_hex ("decode pending commit delivery id=" +:+ id
                                 +:+ describe_delivery delivery)
                       (DeliveryService.pcd_commit_hex delivery)) in
        let* result <- apply_commit_bytes ds_url commit_bytes profile in
        let* _ <- ack_commit_delivery_best_effort ds_url id in
        let* reached <- expected_reached expected_epoch in
        match expected_epoch, reached with
        | Some _, None => ok (inr (stale_acked, processed + 1))
        | _, _ =>
            ok (inl (result +:+ "; commit_delivery_id=" +:+ id +:+ describe_delivery delivery
                     +:+ " stale_acked=" +:+ pretty stale_acked
                     +:+ " commits_processed=" +:+ pretty (processed + 1)))
        end
  end.

(** The loop, [fuel] turns of it; [None] when they are not enough. *)
Fixpoint receive_commit_delivery (fuel : nat) (ds_url : string) (expected_epoch : option N)
    (profile : bool) (stale_acked processed : N) : M (option string) :=
  match fuel with
  | O => ok None
  | S fuel =>
      let* turn <- receive_turn ds_url expected_epoch profile stale_acked processed in
      match turn with
      | inl message => ok (Some message)
      | inr (stale_acked, processed) =>
          receive_commit_delivery fuel ds_url expected_epoch profile stale_acked processed
      end
  end.

Definition ack_application_message_best_effort (relay_url message_id : string) : M unit :=
  let* n <- client_name in
  let* _ <- catch (call (relay_ack_application_message relay_url n message_id)) in
  ok tt.

Definition looks_like_duplicate_application_receive (error : string) : bool :=
  contains_any ["replay"; "duplicate"; "already"; "generation"; "out of order"; "stale"]
    (to_ascii_lowercase error).

Definition receive_application_delivery (relay_url : string) : M string :=
  let* n <- client_name in
  let* delivery <- call (relay_get_pending_application_message relay_url n) in
  let id := MessageRelay.pm_id delivery in
  let labels := " group=" +:+ MessageRelay.pm_conversation delivery
                +:+ " sender=" +:+ MessageRelay.pm_sender delivery in
  let* message_bytes <-
    asks (λ _, decode_hex ("decode pending application message id=" +:+ id +:+ labels)
                 (MessageRelay.pm_message_hex delivery)) in
  let* received <- catch (update (λ c, receive_application_message c message_bytes)) in
  match received with
  | Ok plaintext =>
      let* _ <- ack_application_message_best_effort relay_url id in
      ok ("application message received: " +:+ utf8_lossy (String.string_of_list_byte plaintext)
          +:+ "; message_id=" +:+ id +:+ labels)
  | Err err =>
      let text := alternate err in
      if looks_like_duplicate_application_receive text then
        let* _ <- ack_application_message_best_effort relay_url id in
        ok ("application message already processed: message_id=" +:+ id +:+ labels)
      else fail (anyhow text)
  end.

(** [commits_processed], [remaining], [commit_results], [errors] *)
Record Progress := MkProgress {
  commits_processed : N;
  remaining : N;
  commit_results : list string;
  errors : list string;
}.

Definition not_found_text : string := "404 Not Found".

Fixpoint process_commits (ds_url : string) (profile : bool)
    (pending : list DeliveryService.PendingCommit) (p : Progress) : M Progress :=
  match pending with
  | [] => ok p
  | c :: rest =>
      let labels := " group=" +:+ DeliveryService.pc_group_id c
                    +:+ " epoch=" +:+ pretty (DeliveryService.pc_epoch c)
                    +:+ " sender=" +:+ DeliveryService.pc_sender c in
      let* commit_bytes <-
        asks (λ _, decode_hex ("decode pending commit" +:+ labels)
                     (DeliveryService.pc_commit_hex c)) in
      let* res <- catch (apply_commit_bytes ds_url commit_bytes profile) in
      match res with
      | Ok message =>
          process_commits ds_url profile rest
            (MkProgress (commits_processed p + 1) (remaining p - 1)
               (if contains "queued " message then commit_results p ++ [message]
                else commit_results p) (errors p))
      | Err err =>
          ok (MkProgress (commits_processed p) (remaining p) (commit_results p)
                (errors p ++ ["commit" +:+ labels +:+ " error=" +:+ alternate err]))
      end
  end.

Definition wants (kinds : option (list PendingKind)) (k : PendingKind) : bool :=
  bool_decide (k ∈ default [Commits; Welcomes; ApplicationMessages] kinds).

Definition summary (p : Progress) (welcomes apps : N) (final_epoch member_count : option N) :
    string :=
  "; commits_processed=" +:+ pretty (commits_processed p)
  +:+ " welcomes_processed=" +:+ pretty welcomes
  +:+ " application_messages_processed=" +:+ pretty apps
  +:+ " final_epoch=" +:+ debug_option final_epoch
  +:+ " current_member_count=" +:+ debug_option member_count
  +:+ " commit_results=" +:+ debug_list (commit_results p)
  +:+ " errors=".

Definition option_of {A} (r : result Error A) : option A :=
  match r with Ok a => Some a | Err _ => None end.

(** The commits a poll returned, at most [remaining] of them. *)
Definition process_pending_commits (ds_url : string) (profile : bool) (p : Progress) :
    M Progress :=
  let* n <- client_name in
  let* after_epoch <- asks (λ c, Ok (default 0 (option_of (current_epoch_u64 c)))) in
  let* pending <- call (ds_get_pending_commits ds_url n after_epoch) in
  process_commits ds_url profile (firstn (N.to_nat (remaining p)) pending) p.

Definition process_pending_welcome (ds_url : string) (p : Progress) : M (Progress * N) :=
  let* n <- client_name in
  let* res <- catch (call (ds_get_bytes ds_url ("/welcome/" +:+ n) (Ds.FetchWelcome n)
                             "fetch_welcome" n)) in
  match res with
  | Ok welcome =>
      let* _ <- update (λ c, join_from_welcome_op c welcome) in
      ok (MkProgress (commits_processed p) (remaining p - 1) (commit_results p) (errors p), 1)
  | Err err =>
      let text := alternate err in
      ok (if contains not_found_text text then p
          else MkProgress (commits_processed p) (remaining p) (commit_results p)
                 (errors p ++ ["welcome error=" +:+ text]), 0)
  end.

Definition process_pending_application (relay_url : string) (p : Progress) : M (Progress * N) :=
  let* res <- catch (receive_application_delivery relay_url) in
  match res with
  | Ok _ => ok (p, 1)
  | Err err =>
      let text := alternate err in
      ok (if contains not_found_text text then p
          else MkProgress (commits_processed p) (remaining p) (commit_results p)
                 (errors p ++ ["application_message error=" +:+ text]), 0)
  end.

Definition process_pending (ds_url relay_url : string) (kinds : option (list PendingKind))
    (max_messages expected_epoch : option N) (profile : bool) : M string :=
  let p0 := MkProgress 0 (default u64_max max_messages) [] [] in
  let* p1 <- if (0 <? remaining p0) && wants kinds Commits
             then process_pending_commits ds_url profile p0 else ok p0 in
  let* (p2, welcomes) <- if (0 <? remaining p1) && wants kinds Welcomes
                         then process_pending_welcome ds_url p1 else ok (p1, 0) in
  let* (p3, apps) <- if (0 <? remaining p2) && wants kinds ApplicationMessages
                     then process_pending_application relay_url p2 else ok (p2, 0) in
  let* final_epoch <- asks (λ c, Ok (option_of (current_epoch_u64 c))) in
  let* count <- asks (λ c, Ok (N.of_nat ∘ length <$> option_of (member_names utf8_lossy c))) in
  let errors :=
    errors p3 ++
    match expected_epoch, final_epoch with
    | Some expected, Some actual =>
        if actual <? expected
        then ["expected_epoch_not_reached expected=" +:+ pretty expected +:+ " actual="
              +:+ pretty actual]
        else []
    | _, _ => []
    end in
  match errors with
  | [] => ok ("process_pending processed" +:+ summary p3 welcomes apps final_epoch count +:+ "[]")
  | _ => fail (anyhow ("process_pending errors" +:+ summary p3 welcomes apps final_epoch count
                       +:+ debug_list errors))
  end.

Definition fetch_key_packages (ds_url client_id : string) (members : list string) :
    prog Effect (result Error (list bytes)) :=
  try_join_all
    ((λ member,
        res ← ds_get_bytes ds_url ("/keypackage/" +:+ member) (Ds.FetchKeyPackage member)
                "fetch_keypackage" client_id;
        mret match res with
             | Ok b => Ok b
             | Err e => Err (context ("fetch key package for " +:+ member) e)
             end) <$> members).

(** Start an intent and queue it when it loses the race for the epoch. *)
Definition start_or_queue (ds_url : string) (intent : PendingIntent)
    (published lost : string) : M string :=
  let* posted <- try_start_intent ds_url intent in
  match posted with
  | PostOk => ok published
  | PostConflict message =>
      let* _ <- set_intent (Some intent) in
      ok (lost +:+ " lost the epoch race and was queued for retry: " +:+ message)
  end.

Definition handle_command (fuel : nat) (ds_url relay_url : string) (command : Command)
    (expected_epoch : option N) : M (option string) :=
  let returns (m : M string) : M (option string) := let* message <- m in ok (Some message) in
  match command with
  | CreateGroup =>
      returns (let* _ <- update create_group in
               let* _ <- update_ds_group_state ds_url in
               ok "group created and DS group state registered")
  | GenerateKeyPackage =>
      returns (let* key_package_bytes <- update generate_key_package in
               let* n <- client_name in
               let* _ <- call (ds_post_bytes ds_url ("/keypackage/" +:+ n)
                                 (Ds.PublishKeyPackage n key_package_bytes) "store_keypackage" n) in
               ok ("key package uploaded for " +:+ n))
  | AddMembers members =>
      returns (let* n <- client_name in
               let* key_packages <- call (fetch_key_packages ds_url n members) in
               start_or_queue ds_url (IntentAddMembers members key_packages)
                 ("members " +:+ debug_list members
                  +:+ " added locally in one commit; commit published, waiting for DS echo")
                 ("add_members for " +:+ debug_list members))
  | JoinFromWelcome =>
      returns (let* n <- client_name in
               let* welcome <- call (ds_get_bytes ds_url ("/welcome/" +:+ n) (Ds.FetchWelcome n)
                                       "fetch_welcome" n) in
               let* _ <- update (λ c, join_from_welcome_op c welcome) in
               ok (n +:+ " joined from welcome"))
  | SendApplicationMessage message =>
      returns (let* message_bytes <-
                 update (λ c, send_application_message c (String.list_byte_of_string message)) in
               let* group_id <- asks group_id_hex in
               let* sender <- client_name in
               let* recipients <- asks (member_names utf8_lossy) in
               let* _ <- call (relay_post_application_message relay_url group_id sender
                                 (filter (λ r, r ≠ sender) recipients) message_bytes) in
               ok "application message broadcast to group")
  | ReceiveApplicationMessage _ => returns (receive_application_delivery relay_url)
  | SelfUpdate =>
      returns (start_or_queue ds_url IntentSelfUpdate "self_update commit published to group"
                 "self_update")
  | RemoveMembers members =>
      returns (start_or_queue ds_url (IntentRemoveMembers members)
                 ("members " +:+ debug_list members +:+ " removed locally; group commit published")
                 ("remove_members for " +:+ debug_list members))
  | ReceiveCommit profile =>
      receive_commit_delivery fuel ds_url expected_epoch profile 0 0
  | ProcessPending kinds max_messages expected_epoch profile =>
      returns (process_pending ds_url relay_url kinds max_messages expected_epoch profile)
  | ShowGroupState =>
      returns (let* group_id <- asks group_id_hex in
               let* epoch <- asks current_epoch_u64 in
               let* members <- asks (member_names utf8_lossy) in
               ok ("group_id=" +:+ group_id +:+ ", epoch=" +:+ pretty epoch +:+ ", members="
                   +:+ debug_list members))
  end.
End worker.
