(* ===== verification/GroupHistory.v ===== *)
(** * Group histories

    The commits the delivery service has accepted for each group, in order; the views
    they lead to; and what every client keeps true of its group, its pending commit
    and its pending welcome while the histories grow. *)

From S2P Require Import Prelude Text HttpRetry Client.
From stdpp Require Import options.

Local Open Scope N_scope.

Abbreviation History := (gmap string (list bytes)).

Section history.
Context {lib : MlsLibrary} {laws : MlsLaws}.

Definition log (h : History) (g : string) : list bytes := default [] (h !! g).

Definition ext (h h' : History) : Prop := ∀ g, log h g `prefix_of` log h' g.

#[export] Instance ext_preorder : PreOrder ext.
Proof. split; [intros h g; reflexivity|]. intros h1 h2 h3 H12 H23 g. transitivity (log h2 g); [apply H12|apply H23]. Qed.

Definition record_commit (h : History) (g : string) (b : bytes) : History :=
  <[g := log h g ++ [b]]> h.

Lemma log_record h g b : log (record_commit h g b) g = log h g ++ [b].
Proof. unfold record_commit, log.
  by rewrite lookup_insert_eq. Qed.

Lemma log_record_ne h g g' b : g ≠ g' → log (record_commit h g b) g' = log h g'.
Proof. intros. unfold record_commit, log. by rewrite lookup_insert_ne. Qed.

Lemma record_ext h g b : ext h (record_commit h g b).
Proof.
  intros g'. destruct (decide (g = g')) as [<-|Hne].
  - rewrite log_record. by apply prefix_app_r.
  - by rewrite log_record_ne.
Qed.

Fixpoint replay (v : View) (l : list bytes) : option View :=
  match l with [] => Some v | b :: l' => let! v' <- apply v b in replay v' l' end.

Lemma replay_app l1 : ∀ l2 v,
  replay v (l1 ++ l2) = let! v' <- replay v l1 in replay v' l2.
Proof. induction l1 as [|b l1 IH]; intros l2 v; [done|]. cbn. by destruct (apply v b). Qed.

Lemma replay_snoc v l b v1 :
  replay v l = Some v1 → replay v (l ++ [b]) = apply v1 b.
Proof. intros H. rewrite replay_app, H. cbn. by destruct (apply v1 b). Qed.

Definition hexid (v : View) : string := hex_encode (view_id v).

Lemma apply_hexid v b v' : apply v b = Some v' → hexid v' = hexid v.
Proof. unfold hexid. intros (-> & _ & _)%apply_next. done. Qed.

Lemma replay_epoch l : ∀ v v',
  replay v l = Some v' →
  view_epoch v' = view_epoch v + N.of_nat (length l) ∧ view_id v' = view_id v.
Proof.
  induction l as [|b l IH]; intros v v' H; cbn in H.
  - injection H as <-. cbn. by rewrite N.add_0_r.
  - destruct (apply v b) as [v1|] eqn:E; [|done].
    apply apply_next in E as (Hi & He & _). apply IH in H as [-> ->]. cbn. split; [lia|done].
Qed.

(** A view the accepted commits lead to. *)
Definition known (h : History) (v : View) : Prop :=
  ∃ l, l `prefix_of` log h (hexid v) ∧ replay (genesis (hexid v)) l = Some v.

(** [b] is the accepted commit that led group [g] into epoch [e]. *)
Definition accepted (h : History) (g : string) (e : N) (b : bytes) : Prop :=
  ∃ l v v', (l ++ [b]) `prefix_of` log h g ∧ replay (genesis g) l = Some v
    ∧ apply v b = Some v' ∧ hexid v = g ∧ e = view_epoch v'.

Lemma known_ext h h' v : ext h h' → known h v → known h' v.
Proof. intros He (l & Hl & Hr). exists l. split; [|done]. etrans; [exact Hl|apply He]. Qed.

Lemma accepted_ext h h' g e b : ext h h' → accepted h g e b → accepted h' g e b.
Proof.
  intros He (l & v & v' & Hl & Hr). exists l, v, v'. split; [|done]. etrans; [exact Hl|apply He].
Qed.

Lemma prefix_same_length {A} (l1 l2 l : list A) :
  l1 `prefix_of` l → l2 `prefix_of` l → length l1 = length l2 → l1 = l2.
Proof.
  intros [k1 ->] [k2 H] Hlen. by apply app_inj_1 in H as [H _].
Qed.

(** Two views of a group in the same epoch are the same. *)
Lemma replay_unique h g l1 l2 v1 v2 :
  l1 `prefix_of` log h g → l2 `prefix_of` log h g →
  replay (genesis g) l1 = Some v1 → replay (genesis g) l2 = Some v2 →
  view_epoch v1 = view_epoch v2 → l1 = l2 ∧ v1 = v2.
Proof.
  intros H1 H2 R1 R2 He.
  pose proof (replay_epoch _ _ _ R1) as [E1 _]. pose proof (replay_epoch _ _ _ R2) as [E2 _].
  assert (l1 = l2) as <- by (eapply prefix_same_length; [done..|lia]).
  split; [done|congruence].
Qed.

Lemma known_unique h v1 v2 :
  known h v1 → known h v2 → hexid v1 = hexid v2 → view_epoch v1 = view_epoch v2 → v1 = v2.
Proof.
  intros (l1 & P1 & R1) (l2 & P2 & R2) Hid He. rewrite <-Hid in P2, R2.
  by destruct (replay_unique _ _ _ _ _ _ P1 P2 R1 R2 He).
Qed.

(** Applying an accepted commit to a known view it fits leads to a known view. *)
Lemma accepted_known h g e b v v' :
  accepted h g e b → known h v → apply v b = Some v' →
  known h v' ∧ hexid v = g ∧ e = view_epoch v'.
Proof.
  intros (l & w & w' & Hp & Hr & Ha & Hid & He) (l2 & P2 & R2) Hv.
  destruct (apply_target _ _ _ _ _ Hv Ha) as [Hi Hep].
  assert (Hg : hexid v = g) by (unfold hexid in *; congruence).
  rewrite Hg in P2, R2.
  destruct (replay_unique h g l2 l v w) as [<- <-]; [done| |done..|].
  { etrans; [|exact Hp]. by apply prefix_app_r. }
  simplify_eq. split; [|done]. exists (l2 ++ [b]).
  rewrite (apply_hexid _ _ _ Ha). split; [done|].
  by erewrite replay_snoc.
Qed.

Lemma apply_known_twice h v v0 b v' v1 :
  known h v → known h v0 → apply v b = Some v' → apply v0 b = Some v1 → v = v0 ∧ v' = v1.
Proof.
  intros Hk Hk0 Ha Ha0. destruct (apply_target _ _ _ _ _ Ha Ha0) as [Hi He].
  assert (v = v0) as <- by (eapply known_unique; [done..|unfold hexid; congruence|done]).
  split; [done|congruence].
Qed.

(** ** Clients *)

(** [b] was made for a known view and leads to [v]. *)
Definition leads_to (h : History) (b : bytes) (v : View) : Prop :=
  ∃ v0, known h v0 ∧ apply v0 b = Some v.

Definition welcome_ok (h : History) (w : bytes) : Prop :=
  ∀ v, welcome_view w = Some v → known h v.

Record client_ok (h : History) (c : Client) : Prop := {
  ok_group : ∀ G, group c = Some G → known h (view G);
  ok_pending : ∀ G v, group c = Some G → pending G = Some v →
    ∃ b, pending_commit_bytes c = Some b ∧ leads_to h b v;
  ok_welcome : ∀ b w, pending_commit_bytes c = Some b → pending_welcome_bytes c = Some w →
    ∃ v, leads_to h b v ∧ welcome_view w = Some v;
  ok_no_commit : pending_commit_bytes c = None → pending_welcome_bytes c = None;
}.

Lemma leads_to_ext h h' b v : ext h h' → leads_to h b v → leads_to h' b v.
Proof. intros He (v0 & Hk & Ha). exists v0. eauto using known_ext. Qed.

Lemma client_ok_ext h h' c : ext h h' → client_ok h c → client_ok h' c.
Proof.
  intros He [H1 H2 H3 H4]. split; [by eauto using known_ext| | |done].
  - intros G v HG Hv. destruct (H2 G v HG Hv) as (b & Hb & Hl). eauto using leads_to_ext.
  - intros b w Hb Hw. destruct (H3 b w Hb Hw) as (v & Hl & Hv). eauto using leads_to_ext.
Qed.

Lemma leads_to_accepted h g e b v :
  accepted h g e b → leads_to h b v → known h v ∧ hexid v = g ∧ e = view_epoch v.
Proof.
  intros Hacc (v0 & Hk & Ha). destruct (accepted_known _ _ _ _ _ _ Hacc Hk Ha) as (H1 & H2 & H3).
  split; [done|]. split; [|done]. by rewrite (apply_hexid _ _ _ Ha).
Qed.

(** *** What the client's methods do *)

Lemma fresh_ok h seed n profile c : fresh seed n profile = Ok c → client_ok h c.
Proof.
  unfold fresh. intros H. destruct (supports _ _); [|done].
  destruct (new_credentials _ _ _); [|done]. injection H as <-. by split.
Qed.

Lemma reset_ok h seed c c' r :
  client_ok h c → reset_local_state_fully seed c = (c', r) → client_ok h c'.
Proof.
  unfold reset_local_state_fully. intros Hc. destruct (fresh _ _ _) eqn:E; intros [= <- _];
    [by eapply fresh_ok|done].
Qed.

Lemma cleanup_ok h seed c c' r :
  client_ok h c → cleanup_if_removed seed c = (c', r) → client_ok h c'.
Proof.
  unfold cleanup_if_removed. intros Hc. destruct (the_group c) as [G|]; [|by intros [= <- _]].
  destruct (is_member _ _); [by intros [= <- _]|].
  destruct (reset_local_state_fully _ _) eqn:E. intros [= <- _]. by eapply reset_ok.
Qed.

(** Replacing the group by one with a known view, and a pending commit that was there. *)
Lemma set_group_ok h c p G G' :
  client_ok h c → group c = Some G → known h (view G') →
  (pending G' = pending G ∨ pending G' = None) → client_ok h (set_group c p (Some G')).
Proof.
  intros [H1 H2 H3 H4] HG Hk Hp. split; cbn; [naive_solver| |done|done].
  intros ? v [= <-] Hv. destruct Hp as [Hp|Hp]; [|congruence].
  apply (H2 G v HG). congruence.
Qed.

(** The same without its pending commit. *)
Lemma set_group_clear_ok h c p g :
  (∀ G, g = Some G → known h (view G) ∧ pending G = None) →
  client_ok h (set_pending (set_group c p g) None None []).
Proof. intros Hg. split; cbn; [naive_solver| |done|done]. intros G v HG. naive_solver. Qed.

Lemma set_crypto_ok h c p : client_ok h c → client_ok h (set_crypto c p).
Proof. intros []. by split. Qed.

Lemma genesis_known h v : v = genesis (hexid v) → known h v.
Proof. intros Hv. exists []. split; [apply prefix_nil|]. cbn. congruence. Qed.

Lemma create_group_ok h c c' r :
  client_ok h c → create_group c = (c', r) → client_ok h c'.
Proof.
  unfold create_group. intros Hc.
  destruct (new_group _ _ _) as [p [G|e]] eqn:E; intros [= <- _]; [|by apply set_crypto_ok].
  apply new_group_law in E as [Hv Hp]. destruct Hc as [H1 H2 H3 H4].
  split; cbn; [|by intros ?? [= <-]; rewrite Hp|done|done].
  intros ? [= <-]. apply genesis_known. unfold hexid. by rewrite <-group_id_view.
Qed.

Lemma generate_key_package_ok h c c' r :
  client_ok h c → generate_key_package c = (c', r) → client_ok h c'.
Proof.
  unfold generate_key_package. intros Hc. destruct (build_key_package _ _ _).
  intros [= <- _]. by apply set_crypto_ok.
Qed.

(** A client that may post commit [b]. *)
Definition may_commit (c : Client) (b : bytes) : Prop :=
  ∃ G v, group c = Some G ∧ apply (view G) b = Some v.

(** Storing a commit of the group as it is now. *)
Lemma store_ok h c p G G' cm welcome recipients c' r :
  client_ok h c → group c = Some G → view G' = view G →
  (∃ b v, serialize_message cm = Some b ∧ apply (view G) b = Some v ∧ pending G' = Some v
    ∧ match welcome with
      | Some m => ∃ w, serialize_message m = Some w ∧ welcome_view w = Some v
      | None => True
      end) →
  store_pending_epoch_change (set_group c p (Some G')) cm welcome recipients = (c', r) →
  client_ok h c' ∧ ∀ b, r = Ok b → may_commit c' b.
Proof.
  intros [H1 H2 H3 H4] HG Hv (b & v & Hb & Ha & Hp & Hw). unfold store_pending_epoch_change.
  rewrite Hb. cbn. specialize (H1 G HG).
  assert (Hlead : leads_to h b v) by (exists (view G); done).
  assert (Hm : ∀ w rs, may_commit (set_pending (set_group c p (Some G')) (Some b) w rs) b).
  { intros w rs. exists G', v. cbn. by rewrite Hv. }
  destruct welcome as [m|]; cbn.
  - destruct Hw as (w & Hw & Hwv). rewrite Hw. cbn. intros [= <- <-].
    split; [|intros ? [= <-]; apply Hm]. split; cbn; [|naive_solver|naive_solver|done].
    intros ? [= <-]. by rewrite Hv.
  - intros [= <- <-]. split; [|intros ? [= <-]; apply Hm].
    split; cbn; [|naive_solver|naive_solver|done]. intros ? [= <-]. by rewrite Hv.
Qed.

Lemma same_view_ok h c p G G' :
  client_ok h c → group c = Some G → view G' = view G → pending G' = pending G →
  client_ok h (set_group c p (Some G')).
Proof.
  intros Hc HG Hv Hp. eapply set_group_ok; [done..| |by left].
  rewrite Hv. by apply (ok_group _ _ Hc).
Qed.

Lemma the_group_Some c G : the_group c = Ok G ↔ group c = Some G.
Proof. unfold the_group. destruct (group c); naive_solver. Qed.

Lemma add_members_ok h c kps names c' r :
  client_ok h c → add_members_op c kps names = (c', r) →
  client_ok h c' ∧ ∀ b, r = Ok b → may_commit c' b.
Proof.
  unfold add_members_op. intros Hc. destruct (negb _); [by intros [= <- <-]|].
  destruct (the_group c) as [G|] eqn:EG; [|by intros [= <- <-]]. apply the_group_Some in EG.
  destruct (check_member_count _ _); [|by intros [= <- <-]].
  destruct (decode_key_packages _ _) as [ks|]; [|by intros [= <- <-]].
  destruct (add_members _ _ _ _) as [[p G'] ra] eqn:E.
  apply add_members_law in E as [Hv Hr]. destruct ra as [[[cm wm] gi]|e].
  - destruct Hr as (b & w & v & n & Hb & Hw & Ha & Hwv & Hp & -> & Hn).
    unfold check_group_info. cbn. destruct (N.eqb_spec n 0); [done|].
    intros Hs. eapply store_ok; [exact Hc|exact EG|exact Hv| |exact Hs].
    exists b, v. split_and!; [done..|]. by exists w.
  - intros [= <- <-]. split; [|done]. by eapply same_view_ok.
Qed.

Lemma commit_only_ok h c G call c' r :
  client_ok h c → group c = Some G →
  (∀ p G' rc, call = (p, G', rc) →
     view G' = view G ∧
     match rc with
     | Ok cm => ∃ b v, serialize_message cm = Some b ∧ apply (view G) b = Some v
                  ∧ pending G' = Some v
     | Err _ => pending G' = pending G
     end) →
  commit_only c call = (c', r) →
  client_ok h c' ∧ ∀ b, r = Ok b → may_commit c' b.
Proof.
  intros Hc EG Hcall. unfold commit_only. destruct call as [[p G'] rc].
  destruct (Hcall p G' rc eq_refl) as [Hv Hr]. destruct rc as [cm|e].
  - destruct Hr as (b & v & Hb & Ha & Hp). intros Hs.
    eapply store_ok; [exact Hc|exact EG|exact Hv| |exact Hs]. by exists b, v.
  - intros [= <- <-]. split; [|done]. by eapply same_view_ok.
Qed.

Lemma remove_members_ok h c names c' r :
  client_ok h c → remove_members_op c names = (c', r) →
  client_ok h c' ∧ ∀ b, r = Ok b → may_commit c' b.
Proof.
  unfold remove_members_op. intros Hc.
  destruct (the_group c) as [G|] eqn:EG; [|by intros [= <- <-]]. apply the_group_Some in EG.
  destruct (find_member_indices_by_name _ _); [|by intros [= <- <-]].
  apply (commit_only_ok h c G); [done..|]. intros p G' rc Hrc.
  eapply commit_law. by left.
Qed.

Lemma self_update_ok h c c' r :
  client_ok h c → self_update_op c = (c', r) →
  client_ok h c' ∧ ∀ b, r = Ok b → may_commit c' b.
Proof.
  unfold self_update_op. intros Hc.
  destruct (the_group c) as [G|] eqn:EG; [|by intros [= <- <-]]. apply the_group_Some in EG.
  apply (commit_only_ok h c G); [done..|]. intros p G' rc Hrc.
  eapply (commit_law _ _ _ []). by right.
Qed.

Lemma rollback_ok h c c' r :
  client_ok h c → rollback_pending_commit c = (c', r) → client_ok h c'.
Proof.
  unfold rollback_pending_commit. intros Hc.
  destruct (the_group c) as [G|] eqn:EG; [|by intros [= <- _]]. apply the_group_Some in EG.
  destruct (clear_pending_commit _ _) as [[p G'] rc] eqn:E.
  apply clear_pending_law in E as [Hv Hr].
  destruct rc as [|]; intros [= <- _]; [|by eapply same_view_ok].
  apply set_group_clear_ok. intros ? [= <-]. split; [|done]. rewrite Hv.
  by apply (ok_group _ _ Hc).
Qed.

Lemma join_ok h c w c' r :
  client_ok h c → welcome_ok h w → join_from_welcome_op c w = (c', r) → client_ok h c'.
Proof.
  intros Hc Hw. unfold join_from_welcome_op.
  assert (Hnone : ∀ p, client_ok h (set_group c p None)).
  { intros p. destruct Hc. by split. }
  assert (Hjoin : ∀ c1, client_ok h c1 → group c1 = None →
    ∀ c' r, (let c2 := clear_pending_local_state c1 in
             let '(p, r) := join_from_welcome (crypto c2) w in
             match r with
             | Ok g => (set_group c2 p (Some g), Ok tt)
             | Err e => (set_crypto c2 p, Err e)
             end) = (c', r) → client_ok h c').
  { clear c' r. intros c1 Hc1 Hg c' r. cbn.
    destruct (join_from_welcome _ _) as [p [G|e]] eqn:E; intros [= <- _].
    - apply join_law in E as [Hwv Hp]. split; cbn; [|naive_solver|done|done].
      intros ? [= <-]. by apply Hw.
    - split; cbn; rewrite ?Hg; done. }
  destruct (group c) as [G|] eqn:EG.
  - destruct (delete_group _ _) as [p [|e]]; [|by intros [= <- _]].
    by apply (Hjoin (set_group c p None)).
  - by apply Hjoin.
Qed.

Lemma send_application_ok h c m c' r :
  client_ok h c → send_application_message c m = (c', r) → client_ok h c'.
Proof.
  unfold send_application_message. intros Hc.
  destruct (the_group c) as [G|] eqn:EG; [|by intros [= <- _]]. apply the_group_Some in EG.
  destruct (create_message _ _ _ _) as [[p G'] rc] eqn:E.
  apply create_message_law in E as [Hv Hp]. intros [= <- _]. by eapply same_view_ok.
Qed.

Lemma receive_application_ok h c m c' r :
  client_ok h c → receive_application_message c m = (c', r) → client_ok h c'.
Proof.
  unfold receive_application_message. intros Hc.
  destruct (the_group c) as [G|] eqn:EG; [|by intros [= <- _]]. apply the_group_Some in EG.
  destruct (process_message_from_bytes_profiled _ _ _) as [[p G'] rc] eqn:E.
  destruct (process_law _ _ _ _ _ _ (or_introl E)) as (Hv & Hp & _).
  intros [= <- _]. by eapply same_view_ok.
Qed.

(** Merging what an accepted commit was staged as. *)
Lemma merge_processed_ok h c p G b r p' G' r' g e :
  client_ok h c → group c = Some G → accepted h g e b →
  (∀ s, r = Ok (StagedCommitMessage s) → apply (view G) b = Some (staged_view s)) →
  merge_processed p G r = (p', G', r') →
  ∀ q, client_ok h (set_group c q (Some G')).
Proof.
  intros Hc EG Hacc Hs Hm q. pose proof (ok_group _ _ Hc G EG) as Hk. unfold merge_processed in Hm.
  assert (Hsame : client_ok h (set_group c q (Some G))) by (by eapply same_view_ok).
  destruct r as [[?|s|]|?]; [by simplify_eq| |by simplify_eq..].
  destruct (merge_staged_commit _ _ _) as [[p1 G1] r1] eqn:E.
  apply merge_staged_law in E as (Hv & Hp & _). simplify_eq.
  eapply set_group_ok; [done..| |done]. destruct Hv as [->| ->]; [done|].
  by eapply accepted_known; [exact Hacc|exact Hk|apply Hs].
Qed.

Lemma receive_commit_ok h seed c b enabled g e c' r :
  client_ok h c → accepted h g e b → receive_commit seed c b enabled = (c', r) →
  client_ok h c' ∧ ∀ rm rs w, r = Ok (OwnCommitAccepted rm rs (Some w)) → welcome_ok h w.
Proof.
  intros Hc Hacc. unfold receive_commit.
  destruct (is_own_pending_commit c b) eqn:Eown; unfold is_own_pending_commit in Eown.
  - destruct (pending_commit_bytes c) as [b'|] eqn:Eb; [|done].
    apply bool_decide_eq_true in Eown as ->. unfold receive_own_commit.
    destruct (the_group c) as [G|] eqn:EG; [|by intros [= <- <-]]. apply the_group_Some in EG.
    destruct (merge_pending_commit _ _) as [[p G'] rm] eqn:E.
    apply merge_pending_law in E as (Hv & Hp & Hok).
    assert (Hk : known h (view G')).
    { destruct Hv as [->|Hv]; [by apply (ok_group _ _ Hc)|].
      destruct (ok_pending _ _ Hc G _ EG Hv) as (b2 & Hb2 & Hl). simplify_eq.
      by eapply leads_to_accepted. }
    destruct rm as [[]|e']; [|intros [= <- <-]; split; [by eapply set_group_ok|done]].
    destruct (cleanup_if_removed _ _) as [c2 removed] eqn:Ecl. intros [= <- <-]. split.
    + eapply cleanup_ok; [|exact Ecl]. apply set_group_clear_ok. intros ? [= <-].
      split; [done|]. by apply Hok.
    + intros rm rs w Hr v Hw. destruct removed as [?|?]; [|done]. simplify_eq/=.
      destruct (ok_welcome _ _ Hc b w Eb) as (v' & Hl & Hwv); [done|]. simplify_eq.
      by eapply leads_to_accepted.
  - unfold receive_external_commit.
    destruct (the_group c) as [G|] eqn:EG; [|by intros [= <- <-]]. apply the_group_Some in EG.
    destruct (process_commit _ _ _ _) as [[p1 G1] processed] eqn:Ep.
    assert (Hproc : view G1 = view G ∧ pending G1 = pending G
      ∧ ∀ s, processed = Ok (StagedCommitMessage s) → apply (view G) b = Some (staged_view s)).
    { unfold process_commit in Ep. destruct enabled; [eapply process_law; eauto|].
      destruct (deserialize_message b) as [[m|]|] eqn:Em; [|by simplify_eq..].
      eapply process_law; eauto. }
    destruct Hproc as (Hv1 & Hp1 & Hs1).
    destruct (merge_processed _ _ _) as [[p2 G2] rm] eqn:Em.
    assert (Hc2 : ∀ q, client_ok h (set_group c q (Some G2))).
    { intros q. change (set_group c q (Some G2))
        with (set_group (set_group c q (Some G1)) q (Some G2)).
      eapply (merge_processed_ok h (set_group c q (Some G1)) p1 G1 b);
        [by eapply same_view_ok|done|exact Hacc| |exact Em].
      intros s Hs. rewrite Hv1. by apply Hs1. }
    destruct rm as [[]|e']; [|intros [= <- <-]; split; [done|done]].
    destruct (cleanup_if_removed _ _) as [c2 removed] eqn:Ecl. intros [= <- <-]. split.
    + eapply cleanup_ok; [apply Hc2|exact Ecl].
    + intros rm rs w Hr. by destruct removed.
Qed.
End history.
