(* ===== verification/ToyMls.v ===== *)
(** * A toy MLS library

    The smallest library that keeps the promises of [MlsLaws], without cryptography: a
    group is its id, epoch and members, a commit names the state it was made for and
    the members it leads to, a welcome is the new state.  The theorems about clients
    are applied to it on concrete runs. *)

From S2P Require Import Prelude Text Http HttpRetry Client WorkerHttp.
From stdpp Require Import options.

Local Open Scope N_scope.

(** ** Values as bytes *)

Fixpoint bits (p : positive) : bytes :=
  match p with
  | xH => []
  | xO p => Byte.x00 :: bits p
  | xI p => Byte.x01 :: bits p
  end.

Fixpoint unbits (b : bytes) : positive :=
  match b with
  | [] => xH
  | Byte.x00 :: b => xO (unbits b)
  | _ :: b => xI (unbits b)
  end.

Lemma unbits_bits p : unbits (bits p) = p.
Proof. induction p; cbn; by f_equal. Qed.

Definition to_bytes {A} `{Countable A} (x : A) : bytes := bits (encode x).
Definition of_bytes {A} `{Countable A} (b : bytes) : option A := decode (unbits b).

Lemma of_to_bytes {A} `{Countable A} (x : A) : of_bytes (to_bytes x) = Some x.
Proof. unfold of_bytes, to_bytes. by rewrite unbits_bits, decode_encode. Qed.

(** ** Hexadecimal digits *)

Definition hex_value (c : ascii) : N :=
  let n := N_of_ascii c in if n <? 58 then n - 48 else n - 87.

Fixpoint unhex (s : string) : bytes :=
  match s with
  | String c (String d rest) =>
      default Byte.x00 (Byte.of_N (16 * hex_value c + hex_value d)) :: unhex rest
  | _ => []
  end.

Lemma unhex_encode b : unhex (hex_encode b) = b.
Proof.
  induction b as [|x b IH]; [done|]. cbn [hex_encode unhex]. rewrite IH. f_equal. by destruct x.
Qed.

(** ** The library *)

Definition ToyView : Type := string * N * list (N * string).

Record ToyGroup := MkToyGroup { tg_view : ToyView; tg_pending : option ToyView }.

Definition toy_id (v : ToyView) : bytes := String.list_byte_of_string v.1.1.
Definition toy_epoch (v : ToyView) : N := v.1.2.
Definition toy_members (v : ToyView) : list (N * string) := v.2.

Definition toy_first (creator : string) : ToyView := (creator, 0, [(0, creator)]).

Definition toy_genesis (g : string) : ToyView := toy_first (String.string_of_list_byte (unhex g)).

Definition toy_apply (v : ToyView) (b : bytes) : option ToyView :=
  match of_bytes (A := ToyView) b with
  | Some (i, e, ms) =>
      if decide (i = v.1.1 ∧ e = toy_epoch v ∧ e + 1 <= u64_max) then Some (i, e + 1, ms) else None
  | None => None
  end.

(** A commit from the group's state to members [ms], and the state it leads to. *)
Definition toy_commit (G : ToyGroup) (ms : list (N * string)) :
    unit * ToyGroup * result Error (bytes * ToyView) :=
  let v := tg_view G in
  match tg_pending G with
  | Some _ => (tt, G, Err (anyhow "PendingCommit"))
  | None =>
      if decide (toy_epoch v + 1 <= u64_max) then
        let v' := (v.1.1, toy_epoch v + 1, ms) in
        (tt, MkToyGroup v (Some v'), Ok (to_bytes (v.1.1, toy_epoch v, ms), v'))
      else (tt, G, Err (anyhow "epoch overflow"))
  end.

Definition toy_add (G : ToyGroup) (kps : list string) :=
  let ms := toy_members (tg_view G) in
  let '(p, G', r) :=
    toy_commit G (ms ++ zip (N.of_nat <$> seq (length ms) (length kps)) kps) in
  (p, G', match r with Ok (b, v) => Ok (b, to_bytes v, Some (Some 1)) | Err e => Err e end).

Definition toy_commit_only (G : ToyGroup) (ms : list (N * string)) :=
  let '(p, G', r) := toy_commit G ms in
  (p, G', match r with Ok (b, _) => Ok b | Err e => Err e end).

Definition toy_process (G : ToyGroup) (b : bytes) :
    unit * ToyGroup * result Error (ProcessedContent ToyView) :=
  (tt, G,
   match toy_apply (tg_view G) b with
   | Some v => Ok (StagedCommitMessage v)
   | None =>
       match of_bytes (A := ToyView) b with
       | Some _ => Err (anyhow "WrongEpoch")
       | None => Ok (ApplicationMessage b)
       end
   end).

#[export] Instance toy_mls : MlsLibrary := {|
  Provider := unit;
  Credentials := string;
  MlsGroup := ToyGroup;
  StagedCommit := ToyView;
  KeyPackageIn := string;
  KeyPackage := string;
  MlsMessageOut := bytes;
  ProtocolMessage := bytes;
  default_provider _ := tt;
  supports _ _ := Ok tt;
  new_credentials _ _ n := Ok n;
  group_id G := toy_id (tg_view G);
  epoch G := toy_epoch (tg_view G);
  members G := toy_members (tg_view G);
  new_group _ n _ := (tt, Ok (MkToyGroup (toy_first n) None));
  build_key_package _ n _ := (tt, Ok n);
  serialize_key_package kp := Some (String.list_byte_of_string kp);
  deserialize_key_package b := Some (String.string_of_list_byte b);
  validate_key_package _ kp := Some kp;
  serialize_message m := Some m;
  deserialize_message b := Some (Some b);
  add_members _ _ G kps := toy_add G kps;
  remove_members _ _ G ixs :=
    toy_commit_only G (filter (λ m, m.1 ∉ ixs) (toy_members (tg_view G)));
  self_update _ _ G := toy_commit_only G (toy_members (tg_view G));
  clear_pending_commit _ G := (tt, MkToyGroup (tg_view G) None, Ok tt);
  merge_pending_commit _ G :=
    (tt, MkToyGroup (default (tg_view G) (tg_pending G)) None, Ok tt);
  merge_staged_commit _ _ v := (tt, MkToyGroup v None, Ok tt);
  delete_group _ _ := (tt, Ok tt);
  join_from_welcome _ w :=
    (tt, match of_bytes w with
         | Some v => Ok (MkToyGroup v None)
         | None => Err (anyhow "InvalidWelcome")
         end);
  create_message _ _ G m := (tt, G, Ok m);
  process_message _ G m := toy_process G m;
  process_message_from_bytes_profiled _ G b := toy_process G b;
  process_commit_message_from_bytes_profiled _ G b := toy_process G b;
|}.

(** ** Its laws *)

Lemma toy_apply_next v b v' :
  toy_apply v b = Some v' →
  toy_id v' = toy_id v ∧ toy_epoch v' = toy_epoch v + 1 ∧ toy_epoch v' <= u64_max.
Proof.
  unfold toy_apply. destruct (of_bytes b) as [[[i e] ms]|]; [|done].
  case_decide as H; [|done]. intros [= <-]. destruct H as (-> & -> & H). done.
Qed.

Lemma toy_apply_target v w b v' w' :
  toy_apply v b = Some v' → toy_apply w b = Some w' →
  toy_id v = toy_id w ∧ toy_epoch v = toy_epoch w.
Proof.
  unfold toy_apply, toy_id. destruct (of_bytes b) as [[[i e] ms]|]; [|done].
  case_decide as Hv; [|done]. case_decide as Hw; [|done]. intros _ _.
  destruct Hv as (Hv1 & Hv2 & _), Hw as (Hw1 & Hw2 & _). by rewrite <-Hv1, <-Hw1, <-Hv2, <-Hw2.
Qed.

Lemma toy_commit_spec G ms p G' r :
  toy_commit G ms = (p, G', r) →
  tg_view G' = tg_view G ∧
  match r with
  | Ok (b, v) => toy_apply (tg_view G) b = Some v ∧ tg_pending G' = Some v
  | Err _ => tg_pending G' = tg_pending G
  end.
Proof.
  unfold toy_commit. destruct (tg_pending G) eqn:E; [by intros [= <- <- <-]|].
  case_decide as H; intros [= <- <- <-]; [|done]. cbn. split; [done|]. split; [|done].
  unfold toy_apply. by rewrite of_to_bytes, decide_True.
Qed.

#[export] Program Instance toy_laws : MlsLaws := {|
  View := ToyView;
  view := tg_view;
  pending := tg_pending;
  staged_view v := v;
  genesis := toy_genesis;
  apply := toy_apply;
  welcome_view := of_bytes;
  view_id := toy_id;
  view_epoch := toy_epoch;
  view_members v := (toy_members v).*2;
|}.
Next Obligation. done. Qed.
Next Obligation. done. Qed.
Next Obligation. done. Qed.
Next Obligation. exact toy_apply_next. Qed.
Next Obligation. exact toy_apply_target. Qed.
Next Obligation.
  intros p cr prof p' G H. injection H as _ <-. cbn. split; [|done].
  unfold toy_genesis, toy_id. rewrite unhex_encode.
  f_equal. symmetry. apply String.string_of_list_byte_of_string.
Qed.
Next Obligation.
  intros p cr G kps p' G' r. cbn. unfold toy_add. destruct (toy_commit _ _) as [[q H] rc] eqn:E.
  apply toy_commit_spec in E as [Hv Hr]. intros [= <- <- <-]. split; [done|].
  destruct rc as [[b v]|e]; [|done]. destruct Hr as [Ha Hp].
  exists b, (to_bytes v), v, 1. rewrite of_to_bytes. done.
Qed.
Next Obligation.
  intros p cr G ixs p' G' r.
  assert (Hc : ∀ ms, toy_commit_only G ms = (p', G', r) →
    tg_view G' = tg_view G ∧ match r with
      | Ok b => ∃ b' v, Some b = Some b' ∧ toy_apply (tg_view G) b' = Some v ∧ tg_pending G' = Some v
      | Err _ => tg_pending G' = tg_pending G end).
  { intros ms. unfold toy_commit_only. destruct (toy_commit _ _) as [[q H] rc] eqn:E.
    apply toy_commit_spec in E as [Hv Hr]. intros [= <- <- <-]. split; [done|].
    destruct rc as [[b v]|e]; [|done]. by exists b, v. }
  intros [H|H]; by apply Hc in H.
Qed.
Next Obligation. intros p G p' G' r H. by injection H as _ <- <-. Qed.
Next Obligation.
  intros p G p' G' r H. injection H as _ <- <-. cbn. split_and!; [|by right|].
  - destruct (tg_pending G); [by right|by left].
  - intros _. split; [done|]. by destruct (tg_pending G).
Qed.
Next Obligation. intros p G s p' G' r H. injection H as _ <- <-. split_and!; [by right|by right|done]. Qed.
Next Obligation.
  intros p w p' G. cbn. destruct (of_bytes w) as [v|]; [|done]. by intros [= _ <-].
Qed.
Next Obligation. intros p cr G m p' G' r H. by injection H as _ <- <-. Qed.
Next Obligation.
  intros p G b p' G' r H.
  assert (Hp : toy_process G b = (p', G', r)) by (destruct H as [H|[H|(m & [= ->] & H)]]; done).
  clear H. unfold toy_process in Hp. injection Hp as _ <- <-. split_and!; [done..|].
  intros s Hs. cbn. destruct (toy_apply _ _) as [v|]; [by injection Hs as <-|].
  exfalso. revert Hs. by case_match.
Qed.

(** ** Third-party code for the examples *)

#[export] Instance toy_externals : Externals := {|
  utf8_lossy s := s;
  status_text n := if n =? 404 then "404 Not Found" else if n =? 409 then "409 Conflict" else pretty n;
  json_text _ := "";
  decode_error _ := MkReqwestError "error decoding response body" false false false false [];
  hex_decode s := Ok (unhex s);
|}.

Lemma toy_hex_roundtrip b : hex_decode (Externals := toy_externals) (hex_encode b) = Ok b.
Proof. cbn. by rewrite unhex_encode. Qed.
