(* ===== verification/Network.v ===== *)
(** * Workers and servers over a faulty network

    The delivery service and the relay, the answers a request can get, and the
    invariant that ties the delivery service to the group histories: what it accepts,
    what it delivers and what it tells the workers.  A request is handled at once or
    never; it, its response or the response's body may be lost, and a gateway may
    answer in the server's stead. *)

From S2P Require Import Prelude Text ServiceMetrics Http Inbox Interaction HttpRetry Servers.
From S2P Require Import Client.
From S2P Require Import WorkerHttp GroupHistory.
From S2P Require DeliveryService MessageRelay.
From stdpp Require Import options.

Local Open Scope N_scope.

Record Servers := MkServers {
  delivery : DeliveryService.DeliveryService;
  relay : MessageRelay.MessageRelay;
}.

Section network.
Context (hex_encode : bytes → string).
(** The iteration order of the hash map of commit logs. *)
Context (iteration : DeliveryService.DeliveryService → DeliveryService.log_entries).

Definition body_map {J} (f : J → AnyJson) (b : Body J) : Body AnyJson :=
  match b with
  | NoBody => NoBody
  | Octets b => Octets b
  | Message s => Message s
  | Json j => Json (f j)
  end.

Definition handle_request (w : Servers) (latency : N) (r : HttpRequest) :
    Servers * N * Body AnyJson :=
  match r with
  | ToDs r =>
      let '(ds, resp) := Ds.ds_handle hex_encode iteration (delivery w) latency r in
      (MkServers ds (relay w), status resp, body_map DsJson (body resp))
  | ToRelay r =>
      let '(rl, resp) := MlsRelay.relay_handle hex_encode (relay w) latency r in
      (MkServers (delivery w) rl, status resp, body_map RelayJson (body resp))
  end.

Inductive answered (w : Servers) (r : HttpRequest) : Reply → Servers → Prop :=
| answered_in_full latency w' s b :
    handle_request w latency r = (w', s, b) → answered w r (Replied s (Ok b)) w'
| body_lost latency w' s b err :
    handle_request w latency r = (w', s, b) → answered w r (Replied s (Err err)) w'
| response_lost latency w' s b err :
    handle_request w latency r = (w', s, b) → answered w r (SendFailed err) w'
| request_lost err : answered w r (SendFailed err) w
| gateway_before s b : is_transient_status s = true → answered w r (Replied s b) w
| gateway_after latency w' s s' b b' :
    is_transient_status s = true → handle_request w latency r = (w', s', b') →
    answered w r (Replied s b) w'.

Definition serve (X : Type) (w : Servers) (e : Effect X) : X → Servers → Prop :=
  match e in HttpEffects.Effect _ _ X return X → Servers → Prop with
  | Http r => answered w r
  | Sleep _ => λ _ w', w' = w
  | Draw lo hi => λ n w', (lo <= hi → lo <= n <= hi) ∧ w' = w
  | Now => λ _ w', w' = w
  | Choose => λ _ w', w' = w
  | Entropy => λ _ w', w' = w
  end.

(** The network on a good day: every request is answered in full. *)
Definition reliable (X : Type) (w : Servers) (e : Effect X) : Servers * X :=
  match e in HttpEffects.Effect _ _ X return Servers * X with
  | Http r => let '(w', s, b) := handle_request w 1 r in (w', Replied s (Ok b))
  | Sleep _ => (w, tt)
  | Draw lo _ => (w, lo)
  | Now => (w, 0)
  | Choose => (w, true)
  | Entropy => (w, 0)
  end.

Lemma reliable_serves X w (e : Effect X) : serve X w e (reliable X w e).2 (reliable X w e).1.
Proof.
  destruct e; cbn; try done.
  destruct (handle_request w 1 r) as [[w' s] b] eqn:E. by eapply answered_in_full.
Qed.
End network.

(** ** The invariant of the delivery service *)

Section invariant.
Context {lib : MlsLibrary} {laws : MlsLaws} {extern : Externals}.
Context (hex_encode : bytes → string).
Context (iteration : DeliveryService.DeliveryService → DeliveryService.log_entries).
Context (iteration_perm :
  ∀ ds, iteration ds ≡ₚ map_to_list (DeliveryService.group_commit_log ds)).

Import DeliveryService.

(** The members a worker reports for a view. *)
Definition reported_members (v : View) : list string := utf8_lossy <$> view_members v.

(** What a worker must know to send a request. *)
Definition legal_request (h : History) (r : HttpRequest) : Prop :=
  match r with
  | ToDs (Ds.PutGroupState g e ms) =>
      ∃ v, known h v ∧ hexid v = g ∧ e = view_epoch v ∧ ms = reported_members v
  | ToDs (Ds.PublishGroupCommit g _ e b) =>
      ∃ v v', known h v ∧ hexid v = g ∧ e = view_epoch v ∧ apply v b = Some v'
  | ToDs (Ds.PublishWelcome _ w) => welcome_ok h w
  | _ => True
  end.

(** A delivery carries an accepted commit of its group and epoch. *)
Definition delivers (h : History) (g : string) (e : N) (hex : string) : Prop :=
  ∃ b, hex = hex_encode b ∧ accepted h g e b.

(** What a successful answer tells the worker. *)
Definition truthful (h : History) (r : HttpRequest) (b : Body AnyJson) : Prop :=
  match r with
  | ToDs (Ds.FetchPendingCommit _) =>
      ∀ d, b = Json (DsJson (Ds.Delivery d)) →
        delivers h (pcd_group_id d) (pcd_epoch d) (pcd_commit_hex d)
  | ToDs (Ds.FetchPendingCommits _) =>
      ∀ l, b = Json (DsJson (Ds.Commits l)) →
        Forall (λ c, delivers h (pc_group_id c) (pc_epoch c) (pc_commit_hex c)) l
  | ToDs (Ds.FetchWelcome _) => welcome_ok h (octets_of b)
  | _ => True
  end.

Record ds_ok (h : History) (ds : DeliveryService) : Prop := {
  ds_groups : ∀ g st, groups ds !! g = Some st →
    ∃ v, replay (genesis g) (log h g) = Some v ∧ hexid v = g
      ∧ current_epoch st = view_epoch v;
  ds_members : ∀ g st, groups ds !! g = Some st →
    ∃ v, known h v ∧ hexid v = g ∧ members st = reported_members v;
  ds_unknown : ∀ g, groups ds !! g = None → log h g = [];
  ds_inboxes : ∀ r d, d ∈ queue (commit_inboxes ds) r →
    accepted h (cdr_group_id d) (cdr_epoch d) (cdr_commit_bytes d);
  ds_log : ∀ g c, c ∈ queue (group_commit_log ds) g →
    accepted h g (glc_epoch c) (glc_commit_bytes c);
  ds_welcomes : ∀ r w, w ∈ queue (welcome_inboxes ds) r → welcome_ok h w;
}.

Lemma welcome_ok_ext h h' w : ext h h' → welcome_ok h w → welcome_ok h' w.
Proof. intros He Hw v Hv. eauto using known_ext. Qed.

Lemma legal_request_ext h h' r : ext h h' → legal_request h r → legal_request h' r.
Proof.
  intros He. destruct r as [[]|]; try done; cbn.
  - intros (v & ? & ?). eauto using known_ext.
  - intros (v & v' & ? & ?). eauto 6 using known_ext.
  - by apply welcome_ok_ext.
Qed.

(** A queue after [push] holds what it held and the new element. *)
Lemma elem_queue_push {A} (m : gmap string (list A)) r x r' y :
  y ∈ queue (push m r x) r' → y ∈ queue m r' ∨ (r' = r ∧ y = x).
Proof.
  destruct (decide (r = r')) as [<-|Hne]; [|rewrite queue_push_ne by done; auto].
  rewrite queue_push, elem_of_app, list_elem_of_singleton. naive_solver.
Qed.

Lemma elem_queue_ack {A} (id : A → string) (m : gmap string (list A)) r i r' y :
  y ∈ queue (ack id m r i).1 r' → y ∈ queue m r'.
Proof.
  destruct (decide (r = r')) as [<-|Hne]; [|by rewrite ack_queue_ne].
  rewrite ack_queue. by intros [_ ?]%list_elem_of_filter.
Qed.

Lemma elem_queue_pop {A} (m : gmap string (list A)) r r' y :
  y ∈ queue (pop m r).1 r' → y ∈ queue m r'.
Proof.
  destruct (decide (r = r')) as [<-|Hne]; [|by rewrite pop_queue_ne].
  destruct (pop_queue m r) as [_ ->]. destruct (queue m r); [done|]. by right.
Qed.

Lemma foldl_deliver_inboxes g sd e b rs : ∀ ds r d,
  d ∈ queue (commit_inboxes (foldl (λ d r, deliver_to d g sd e b r) ds rs)) r →
  d ∈ queue (commit_inboxes ds) r ∨ d = delivery_record g sd e b r.
Proof.
  induction rs as [|r0 rs IH]; intros ds r d H; [by left|]. cbn in H.
  destruct (IH _ _ _ H) as [H'|?]; [|by right]. cbn in H'.
  apply elem_queue_push in H' as [?|[-> ->]]; [by left|by right].
Qed.

Lemma foldl_deliver_fields g sd e b rs : ∀ ds,
  let ds' := foldl (λ d r, deliver_to d g sd e b r) ds rs in
  groups ds' = groups ds ∧ group_commit_log ds' = group_commit_log ds
  ∧ welcome_inboxes ds' = welcome_inboxes ds.
Proof.
  induction rs as [|r rs IH]; intros ds; [done|]. cbn. destruct (IH (deliver_to ds g sd e b r)) as
    (-> & -> & ->). done.
Qed.

(** The last view of a registered group. *)
Lemma known_last h g v st ds :
  ds_ok h ds → groups ds !! g = Some st → known h v → hexid v = g →
  view_epoch v = current_epoch st → replay (genesis g) (log h g) = Some v.
Proof.
  intros Hds Hg (l & Hp & Hr) Hid He. destruct (ds_groups _ _ Hds _ _ Hg) as (vl & Hl & _ & Hel).
  rewrite Hid in Hp, Hr.
  destruct (replay_unique h g l (log h g) v vl) as [<- <-];
    [done|reflexivity|done|done|congruence|done].
Qed.

Lemma accept_accepted h g b v v' :
  replay (genesis g) (log h g) = Some v → apply v b = Some v' → hexid v = g →
  accepted (record_commit h g b) g (view_epoch v') b.
Proof.
  intros Hr Ha Hid. exists (log h g), v, v'. by rewrite log_record.
Qed.

(** Publishing a legal commit records it, or changes nothing. *)
Lemma publish_group_commit_ok h ds g sd e b :
  ds_ok h ds → legal_request h (ToDs (Ds.PublishGroupCommit g sd e b)) →
  match publish_group_commit ds g sd e b with
  | Ok ds' => ds_ok (record_commit h g b) ds'
  | Err _ => True
  end.
Proof.
  intros Hds (v & v' & Hk & Hid & -> & Ha).
  unfold publish_group_commit, accept_commit.
  destruct (groups ds !! g) as [st|] eqn:Eg; [|done]. case_decide as He; [done|].
  cbn.
  pose proof (known_last _ _ _ _ _ Hds Eg Hk Hid He) as Hlast.
  pose proof (accept_accepted _ _ _ _ _ Hlast Ha Hid) as Hacc.
  destruct (apply_next _ _ _ Ha) as (Hi & Hn & Hb).
  assert (Hwrap : wrap64 (view_epoch v + 1) = view_epoch v').
  { rewrite wrap64_small; [done|]. rewrite <-Hn. by apply u64_max_pow64. }
  rewrite <-He. destruct Hds as [H1 H2 H3 H4 H5 H6].
  set (h' := record_commit h g b) in *. pose proof (record_ext h g b) as Hext. fold h' in Hext.
  assert (Hgr : ∀ ds',
    groups ds' = <[g := MkGroupState (wrap64 (view_epoch v + 1)) (members st)]> (groups ds) →
    (∀ r d, d ∈ queue (commit_inboxes ds') r →
       d ∈ queue (commit_inboxes ds) r ∨ d = delivery_record g sd (view_epoch v) b r) →
    (∀ g' c, c ∈ queue (group_commit_log ds') g' →
       c ∈ queue (group_commit_log ds) g'
       ∨ (g' = g ∧ glc_epoch c = view_epoch v' ∧ glc_commit_bytes c = b)) →
    welcome_inboxes ds' = welcome_inboxes ds → ds_ok h' ds').
  { intros ds' Eg' Ei El Ew. split.
    - intros g' st'. rewrite Eg'. destruct (decide (g = g')) as [<-|Hne].
      + rewrite lookup_insert_eq. intros [= <-]. exists v'. cbn.
        unfold h'. rewrite log_record, (replay_snoc _ _ _ _ Hlast), Hwrap.
        split_and!; [done| |done]. by rewrite (apply_hexid _ _ _ Ha).
      + rewrite lookup_insert_ne by done. intros Hst. destruct (H1 _ _ Hst) as (w & Hw).
        exists w. unfold h'. by rewrite log_record_ne.
    - intros g' st'. rewrite Eg'. destruct (decide (g = g')) as [<-|Hne].
      + rewrite lookup_insert_eq. intros [= <-]. cbn.
        destruct (H2 _ _ Eg) as (w & ? & ? & ?). exists w. eauto using known_ext.
      + rewrite lookup_insert_ne by done. intros Hst. destruct (H2 _ _ Hst) as (w & ? & ? & ?).
        exists w. eauto using known_ext.
    - intros g'. rewrite Eg'. destruct (decide (g = g')) as [<-|Hne];
        [by rewrite lookup_insert_eq|]. rewrite lookup_insert_ne by done. intros Hst.
      unfold h'. rewrite log_record_ne by done. by apply H3.
    - intros r d [Hd| ->]%Ei; [by eapply accepted_ext; [|apply (H4 r)]|].
      cbn. by rewrite Hwrap.
    - intros g' c [Hc|(-> & -> & ->)]%El; [by eapply accepted_ext; [|apply H5]|done].
    - intros r w. rewrite Ew. intros Hw. eapply welcome_ok_ext; [done|by apply (H6 r)]. }
  destruct (delivery_mode ds).
  - set (ds1 := set_groups ds _).
    destruct (foldl_deliver_fields g sd (view_epoch v) b (members st) ds1) as (F1 & F2 & F3).
    apply Hgr; [by rewrite F1| |rewrite F2; auto|by rewrite F3].
    intros r d Hd. by apply foldl_deliver_inboxes in Hd.
  - apply Hgr; [done|auto| |done]. cbn. intros g' c Hc.
    apply elem_queue_push in Hc as [Hc|[-> ->]]; [by left|]. right. cbn. by rewrite Hwrap.
Qed.

Lemma put_group_state_sound h ds g e ms :
  ds_ok h ds → legal_request h (ToDs (Ds.PutGroupState g e ms)) →
  match put_group_state ds g e ms with Ok ds' => ds_ok h ds' | Err _ => True end.
Proof.
  intros Hds (v & Hk & Hid & -> & ->). unfold put_group_state.
  assert (Hgr : ∀ e', e' = view_epoch v → replay (genesis g) (log h g) = Some v →
    ds_ok h (set_groups ds (<[g := MkGroupState e' (reported_members v)]> (groups ds)))).
  { intros e' -> Hlast. destruct Hds as [H1 H2 H3 H4 H5 H6]. split; cbn; try done.
    - intros g' st'. destruct (decide (g = g')) as [<-|Hne];
        [rewrite lookup_insert_eq|by rewrite lookup_insert_ne; auto].
      intros [= <-]. by exists v.
    - intros g' st'. destruct (decide (g = g')) as [<-|Hne];
        [rewrite lookup_insert_eq|by rewrite lookup_insert_ne; auto].
      intros [= <-]. by exists v.
    - intros g'. destruct (decide (g = g')) as [<-|Hne];
        [by rewrite lookup_insert_eq|rewrite lookup_insert_ne by done; auto]. }
  destruct (groups ds !! g) as [st|] eqn:Eg.
  - case_decide as He; [done|].
    apply Hgr; [done|]. by eapply known_last.
  - apply Hgr; [done|]. pose proof (ds_unknown _ _ Hds _ Eg) as Hl.
    destruct Hk as (l & Hp & Hr). rewrite Hid in Hp, Hr. rewrite Hl in *.
    by apply prefix_nil_inv in Hp as ->.
Qed.

(** The fields the invariant reads. *)
Lemma ds_ok_fields h ds ds' :
  groups ds' = groups ds → group_commit_log ds' = group_commit_log ds →
  (∀ r d, d ∈ queue (commit_inboxes ds') r → d ∈ queue (commit_inboxes ds) r) →
  (∀ r w, w ∈ queue (welcome_inboxes ds') r →
     w ∈ queue (welcome_inboxes ds) r ∨ welcome_ok h w) →
  ds_ok h ds → ds_ok h ds'.
Proof.
  intros E1 E2 E3 E4 [H1 H2 H3 H4 H5 H6]. split; rewrite ?E1, ?E2; try done.
  - intros r d Hd%E3. by apply (H4 r).
  - intros r w [Hw|Hw]%E4; [by apply (H6 r)|done].
Qed.

Lemma iteration_log ds g cs : (g, cs) ∈ iteration ds → queue (group_commit_log ds) g = cs.
Proof using iteration_perm.
  rewrite (iteration_perm ds), elem_of_map_to_list. unfold queue. by intros ->.
Qed.

Lemma first_pending_elem r after cs c : first_pending r after cs = Some c → c ∈ cs.
Proof.
  induction cs as [|c' cs IH]; [done|]. cbn. destruct (_ || _).
  - intros H. right. by apply IH.
  - intros [= ->]. left.
Qed.

Lemma select_pending_elem ds r entries : ∀ sel g c,
  select_pending ds r entries sel = Some (g, c) →
  sel = Some (g, c) ∨ ∃ cs, (g, cs) ∈ entries ∧ c ∈ cs.
Proof.
  induction entries as [|[g' cs'] entries IH]; intros sel g c H; [by left|]. cbn in H.
  apply IH in H as [H|(cs & Hcs & Hc)]; [|right; exists cs; split; [by right|done]].
  destruct (first_pending _ _ _) as [c'|] eqn:E; [|by left].
  apply first_pending_elem in E.
  destruct sel as [[g0 s]|]; [case_match|]; simplify_eq; try (by left);
    right; exists cs'; split; [left|done|left|done].
Qed.

Lemma fetch_next_ok h ds r d :
  ds_ok h ds → fetch_next_pending_commit ds (iteration ds) r = Some d →
  accepted h (cdr_group_id d) (cdr_epoch d) (cdr_commit_bytes d).
Proof using iteration_perm.
  intros Hds. unfold fetch_next_pending_commit, fetch_group_log_commit_compat.
  destruct (delivery_mode ds).
  - rewrite peek_queue. intros Hd. apply (ds_inboxes _ _ Hds r).
    destruct (queue (commit_inboxes ds) r); [done|]. injection Hd as <-. left.
  - destruct (select_pending _ _ _ _) as [[g c]|] eqn:E; [|done]. intros [= <-]. cbn.
    apply select_pending_elem in E as [?|(cs & Hcs & Hc)]; [done|].
    apply (ds_log _ _ Hds). by rewrite (iteration_log _ _ _ Hcs).
Qed.

Lemma fetch_pending_commits_ok h ds client after :
  ds_ok h ds →
  Forall (λ c, delivers h (pc_group_id c) (pc_epoch c) (pc_commit_hex c))
    (DeliveryService.fetch_pending_commits hex_encode (iteration ds) client after).
Proof using iteration_perm.
  intros Hds. unfold DeliveryService.fetch_pending_commits.
  rewrite merge_sort_Permutation. apply Forall_forall. intros p Hp.
  apply list_elem_of_bind in Hp as ([g cs] & Hp & Hin).
  apply list_elem_of_fmap in Hp as (c & -> & Hc). apply list_elem_of_filter in Hc as [_ Hc].
  exists (glc_commit_bytes c). split; [done|]. cbn.
  apply (ds_log _ _ Hds). by rewrite (iteration_log _ _ _ Hin).
Qed.

Lemma ack_compat_fields ds entries r i :
  let ds' := (ack_group_log_commit_compat ds entries r i).1 in
  groups ds' = groups ds ∧ group_commit_log ds' = group_commit_log ds
  ∧ commit_inboxes ds' = commit_inboxes ds ∧ welcome_inboxes ds' = welcome_inboxes ds.
Proof. induction entries as [|[g cs] es IH]; cbn; [done|]. by case_match. Qed.

(** *** Every handler keeps the invariant and answers truthfully *)

Definition sound (h : History) (r : Ds.Request) (res : DeliveryService * Response Ds.JsonBody) :
    Prop :=
  ∃ h', ext h h' ∧ ds_ok h' res.1
    ∧ (is_success (status res.2) = true → truthful h' (ToDs r) (body_map DsJson (body res.2))).

Lemma ds_ok_metrics h ds m : ds_ok h ds → ds_ok h (set_metrics ds m).
Proof. apply ds_ok_fields; auto. Qed.

Lemma observed_sound h r ep latency op ds :
  ds_ok h ds → (∀ ds, ds_ok h ds → sound h r (op ds)) →
  sound h r (observed metrics set_metrics ep latency op ds).
Proof.
  intros Hds Hop. unfold observed. cbn.
  specialize (Hop _ (ds_ok_metrics _ _ (ServiceMetrics.start (metrics ds) ep).1 Hds)).
  destruct (op _) as [ds2 resp]. destruct Hop as (h' & He & Hd & Ht).
  exists h'. split_and!; [done|by apply ds_ok_metrics|done].
Qed.

Lemma sound_same h r ds resp :
  ds_ok h ds → truthful h (ToDs r) (body_map DsJson (body resp)) → sound h r (ds, resp).
Proof. intros. exists h. split_and!; [reflexivity|done|done]. Qed.

Lemma sound_failure h r ds s b :
  ds_ok h ds → is_success s = false → sound h r (ds, MkResponse s b).
Proof. intros ? Hs. exists h. split_and!; [reflexivity|done|]. cbn. by rewrite Hs. Qed.

Lemma observed_ok_sound h r ep latency op ds :
  ds_ok h ds → (∀ ds, ds_ok h ds → ds_ok h (op ds)) → truthful h (ToDs r) NoBody →
  sound h r (observed_ok metrics set_metrics ep latency op ds).
Proof.
  intros Hds Hop Ht. unfold observed_ok. cbn. apply sound_same; [|done].
  by apply ds_ok_metrics, Hop, ds_ok_metrics.
Qed.

Lemma ack_commit_ok h ds r i :
  ds_ok h ds → ds_ok h (DeliveryService.ack_commit ds (iteration ds) r i).1.
Proof.
  intros Hds. unfold DeliveryService.ack_commit. destruct (delivery_mode ds).
  - destruct (ack _ _ _ _) as [inboxes acked] eqn:E. cbn.
    revert Hds. apply ds_ok_fields; cbn; try done; [|auto].
    intros r' d. change inboxes with ((inboxes, acked).1). rewrite <-E. apply elem_queue_ack.
  - destruct (ack_compat_fields ds (iteration ds) r i) as (E1 & E2 & E3 & E4).
    revert Hds. apply ds_ok_fields; rewrite ?E1, ?E2, ?E3, ?E4; auto.
Qed.

Lemma fetch_welcome_ok h ds r :
  ds_ok h ds →
  ds_ok h (DeliveryService.fetch_welcome ds r).1
  ∧ ∀ w, (DeliveryService.fetch_welcome ds r).2 = Some w → welcome_ok h w.
Proof.
  intros Hds. unfold DeliveryService.fetch_welcome.
  destruct (pop_queue (welcome_inboxes ds) r) as [E1 _].
  destruct (pop (welcome_inboxes ds) r) as [inboxes b] eqn:E. cbn in *. split.
  - revert Hds. apply ds_ok_fields; cbn; auto. intros r' w Hw. left.
    apply (elem_queue_pop _ r). by rewrite E.
  - intros w ->. apply (ds_welcomes _ _ Hds r).
    destruct (queue (welcome_inboxes ds) r); [done|]. injection E1 as ->. left.
Qed.

Lemma ds_handle_sound h ds latency r :
  ds_ok h ds → legal_request h (ToDs r) →
  sound h r (Ds.ds_handle hex_encode iteration ds latency r).
Proof using iteration_perm.
  intros Hds Hl. destruct r; cbn [Ds.ds_handle].
  - apply observed_ok_sound; [done| |done]. clear. intros ds. by apply ds_ok_fields; auto.
  - apply observed_sound; [done|]. clear. intros ds Hds. apply sound_same; [|done].
    revert Hds. by apply ds_ok_fields; auto.
  - apply observed_sound; [done|]. clear Hds ds. intros ds Hds.
    pose proof (put_group_state_sound h ds group_id epoch members Hds Hl) as Hp.
    unfold Ds.or_conflict. destruct (DeliveryService.put_group_state _ _ _ _);
      [by apply sound_same|by apply sound_failure].
  - apply observed_sound; [done|]. clear. intros ds Hds. by apply sound_same.
  - apply observed_sound; [done|]. clear Hds ds. intros ds Hds.
    pose proof (publish_group_commit_ok h ds group_id sender epoch b Hds Hl) as Hp.
    unfold Ds.or_conflict. destruct (DeliveryService.publish_group_commit _ _ _ _ _);
      [|by apply sound_failure].
    exists (record_commit h group_id b). split_and!; [apply record_ext|done|done].
  - apply observed_sound; [done|]. clear. intros ds Hds. by apply sound_same.
  - apply observed_sound; [done|]. clear Hds ds. intros ds Hds.
    apply sound_same; [done|]. intros d. unfold fetch_pending_commit_delivery.
    destruct (fetch_next_pending_commit _ _ _) as [d'|] eqn:E; [|done].
    intros [= <-]. cbn. exists (cdr_commit_bytes d'). split; [done|]. by eapply fetch_next_ok.
  - apply observed_sound; [done|]. clear Hds ds. intros ds Hds.
    pose proof (ack_commit_ok h ds recipient delivery_id Hds) as Ha.
    destruct (DeliveryService.ack_commit _ _ _ _). by apply sound_same.
  - apply observed_sound; [done|]. clear Hds ds. intros ds Hds.
    destruct (Ds.parse_pending_commits_query query) as [[client after]|];
      [|by apply sound_failure].
    apply sound_same; [done|]. intros l [= <-]. by apply fetch_pending_commits_ok.
  - apply observed_ok_sound; [done| |done]. clear Hds ds. intros ds. apply ds_ok_fields; auto.
    cbn. intros r w Hw. apply elem_queue_push in Hw as [?|[_ ->]]; [by left|by right].
  - apply observed_sound; [done|]. clear Hds ds. intros ds Hds.
    destruct (fetch_welcome_ok h ds recipient Hds) as [H1 H2].
    destruct (DeliveryService.fetch_welcome ds recipient) as [ds' [w|]];
      [|by apply sound_failure].
    apply sound_same; [done|]. by apply H2.
  - apply observed_ok_sound; [done| |done]. clear. intros ds. by apply ds_ok_fields; auto.
  - apply observed_sound; [done|]. clear. intros ds Hds.
    unfold DeliveryService.fetch_ratchet_tree. destruct (pop _ _). apply sound_same; [|done].
    revert Hds. by apply ds_ok_fields; auto.
Qed.

Lemma handle_request_sound h w latency r w' s b :
  ds_ok h (delivery w) → legal_request h r →
  handle_request hex_encode iteration w latency r = (w', s, b) →
  ∃ h', ext h h' ∧ ds_ok h' (delivery w') ∧ (is_success s = true → truthful h' r b).
Proof using iteration_perm.
  intros Hds Hl. unfold handle_request. destruct r as [r|r].
  - pose proof (ds_handle_sound h (delivery w) latency r Hds Hl) as (h' & He & Hd & Ht).
    destruct (Ds.ds_handle _ _ _ _ _) as [ds resp]. intros [= <- <- <-]. by exists h'.
  - destruct (MlsRelay.relay_handle _ _ _ _). intros [= <- <- <-]. cbn.
    exists h. split_and!; [reflexivity|done..].
Qed.

(** *** The worker's view of the network *)

Definition legal (h : History) (X : Type) (e : Effect X) : Prop :=
  match e with Http r => legal_request h r | _ => True end.

Definition truthful_reply (h : History) (r : HttpRequest) (reply : Reply) : Prop :=
  match reply with
  | Replied s (Ok b) => is_success s = true → truthful h r b
  | _ => True
  end.

Definition answers (X : Type) (_ : History) (e : Effect X) : X → History → Prop :=
  match e in HttpEffects.Effect _ _ X return X → History → Prop with
  | Http r => λ reply h', truthful_reply h' r reply
  | _ => λ _ _, True
  end.

Lemma transient_not_success s : is_transient_status s = true → is_success s = false.
Proof.
  unfold is_transient_status, is_success. intros Hs%bool_decide_eq_true. set_unfold in Hs.
  destruct Hs as [->|[->|[->|[]]]]; done.
Qed.

Lemma answered_sound h w r reply w' :
  ds_ok h (delivery w) → legal_request h r → answered hex_encode iteration w r reply w' →
  ∃ h', ext h h' ∧ truthful_reply h' r reply ∧ ds_ok h' (delivery w').
Proof using iteration_perm.
  intros Hds Hl. destruct 1 as [l w' s b Hh|l w' s b err Hh|l w' s b err Hh|err|s b Hs
    |l w' s s' b b' Hs Hh].
  - destruct (handle_request_sound _ _ _ _ _ _ _ Hds Hl Hh) as (h' & ? & ? & ?). by exists h'.
  - destruct (handle_request_sound _ _ _ _ _ _ _ Hds Hl Hh) as (h' & ? & ? & ?). by exists h'.
  - destruct (handle_request_sound _ _ _ _ _ _ _ Hds Hl Hh) as (h' & ? & ? & ?). by exists h'.
  - exists h. split; [reflexivity|done].
  - exists h. split_and!; [reflexivity| |done]. destruct b; [|done]. cbn.
    by rewrite (transient_not_success _ Hs).
  - destruct (handle_request_sound _ _ _ _ _ _ _ Hds Hl Hh) as (h' & ? & ? & ?).
    exists h'. split_and!; [done| |done]. destruct b; [|done]. cbn.
    by rewrite (transient_not_success _ Hs).
Qed.

Lemma serve_sound X h w (e : Effect X) x w' :
  ds_ok h (delivery w) → legal h X e → serve hex_encode iteration X w e x w' →
  ∃ h', ext h h' ∧ answers X h e x h' ∧ ds_ok h' (delivery w').
Proof using iteration_perm.
  intros Hds Hl. destruct e; cbn; try (intros ->; exists h; split; [reflexivity|done]).
  - by apply answered_sound.
  - intros [_ ->]. exists h. split; [reflexivity|done].
Qed.
End invariant.
