(* ===== verification/GroupAgreement.v ===== *)
(** * All workers agree on their groups

    The system: any number of workers running commands, interleaved request by
    request, against the delivery service and the relay over a faulty network. In
    every reachable state two idle workers in the same group and epoch have the same
    view of it, and no worker is ahead of the delivery service. *)

From S2P Require Import Prelude Text Http Inbox Interaction HttpRetry Servers Client.
From S2P Require Import WorkerHttp Worker GroupHistory Network ToyMls.
From S2P Require DeliveryService MessageRelay.
From stdpp Require Import options.

Local Open Scope N_scope.

Section agreement.
Context {lib : MlsLibrary} {laws : MlsLaws} {extern : Externals}.
Context (hex_encode : bytes → string).
Context (iteration : DeliveryService.DeliveryService → DeliveryService.log_entries).
Context (iteration_perm :
  ∀ ds, iteration ds ≡ₚ map_to_list (DeliveryService.group_commit_log ds)).
Context (hex_roundtrip : ∀ b, hex_decode (hex_encode b) = Ok b).

Abbreviation legal := Network.legal.
Abbreviation answers := (answers hex_encode).
Abbreviation wpw := (wp ext legal answers).
Abbreviation assertion := (WorkerState → History → Prop).

(** ** Triples of worker programs

    The client stays consistent, whatever the result; a successful result also gives
    [Q]. *)

Definition monotone (P : assertion) : Prop := ∀ w h h', ext h h' → P w h → P w h'.

Definition triple {A} (P : assertion) (m : M A) (Q : A → assertion) : Prop :=
  ∀ w h, client_ok h (client w) → P w h →
    wpw (m w) h (λ wr h', client_ok h' (client wr.1)
                   ∧ match wr.2 with Ok a => Q a wr.1 h' | Err _ => True end).

Definition true_ : assertion := λ _ _, True.
Definition safe {A} (m : M A) : Prop := triple true_ m (λ _, true_).

Lemma monotone_true : monotone true_.
Proof. done. Qed.

Lemma monotone_state (P : WorkerState → Prop) : monotone (λ w _, P w).
Proof. by intros w h h' _ HP. Qed.

Lemma monotone_and (P Q : assertion) : monotone P → monotone Q → monotone (λ w h, P w h ∧ Q w h).
Proof. intros HP HQ w h h' He [? ?]. split; [by eapply HP|by eapply HQ]. Qed.

Lemma triple_conseq {A} (P P' : assertion) (m : M A) (Q Q' : A → assertion) :
  (∀ w h, client_ok h (client w) → P w h → P' w h) →
  (∀ a w h, client_ok h (client w) → Q' a w h → Q a w h) →
  triple P' m Q' → triple P m Q.
Proof using Type.
  intros HP HQ Hm w h Hc Hw. eapply wp_mono; [apply _| |apply Hm; [done|by apply HP]].
  intros [w' r] h' _ [Hc' Hr]. split; [done|]. destruct r; [by apply HQ|done].
Qed.

Lemma triple_ok {A} (P : assertion) (a : A) (Q : A → assertion) :
  monotone (Q a) → (∀ w h, client_ok h (client w) → P w h → Q a w h) → triple P (ok a) Q.
Proof using Type.
  intros HQ HP w h Hc Hw h' He. cbn. split; [by eapply client_ok_ext|].
  eapply HQ; [done|]. by apply HP.
Qed.

Lemma triple_fail {A} (P : assertion) e (Q : A → assertion) : triple P (fail e) Q.
Proof using Type. intros w h Hc _ h' He. split; [by eapply client_ok_ext|done]. Qed.

Lemma triple_bind {A B} (P : assertion) (m : M A) Q (f : A → M B) R :
  triple P m Q → (∀ a, triple (Q a) (f a) R) → triple P (bind m f) R.
Proof using Type.
  intros Hm Hf w h Hc Hw. unfold bind. apply wp_bind; [apply _|].
  eapply wp_mono; [apply _| |by apply Hm].
  intros [w' [a|e]] h' _ [Hc' HQ]; cbn in *; [by apply Hf|].
  intros h'' He. split; [by eapply client_ok_ext|done].
Qed.

Lemma triple_catch {A} (P : assertion) (m : M A) (Q : A → assertion) :
  (∀ a, monotone (Q a)) → triple P m Q →
  triple P (catch m) (λ r w h, match r with Ok a => Q a w h | Err _ => True end).
Proof using Type.
  intros HQ Hm w h Hc Hw. unfold catch. apply wp_bind; [apply _|].
  eapply wp_mono; [apply _| |by apply Hm].
  intros [w' r] h' _ [Hc' Hr] h'' He. cbn in *. split; [by eapply client_ok_ext|].
  destruct r; [|done]. by eapply HQ.
Qed.

Lemma triple_asks {A} (P : assertion) (f : Client → result Error A) :
  monotone P → triple P (asks f) (λ a w h, f (client w) = Ok a ∧ P w h).
Proof using Type.
  intros HP w h Hc Hw h' He. cbn. split; [by eapply client_ok_ext|].
  destruct (f (client w)) eqn:E; [|done]. split; [done|by eapply HP].
Qed.

Lemma triple_update {A} (P : assertion) (f : Client → Client * result Error A) Q :
  (∀ a, monotone (Q a)) →
  (∀ w h c r, client_ok h (client w) → P w h → f (client w) = (c, r) →
     client_ok h c ∧ ∀ a, r = Ok a → Q a (MkWorkerState c (queued_intent w)) h) →
  triple P (update f) Q.
Proof using Type.
  intros HQ Hf w h Hc Hw. unfold update. destruct (f (client w)) as [c r] eqn:E.
  destruct (Hf w h c r Hc Hw E) as [Hc' Hr]. intros h' He. cbn.
  split; [by eapply client_ok_ext|]. destruct r as [a|]; [|done]. eapply HQ; [done|by apply Hr].
Qed.

Lemma triple_call {A} (P : assertion) (p : prog Effect (result Error A)) Q :
  (∀ a, monotone (Q a)) →
  (∀ w h, client_ok h (client w) → P w h →
     wpw p h (λ r h', match r with Ok a => Q a w h' | Err _ => True end)) →
  triple P (call p) Q.
Proof using Type.
  intros HQ Hp w h Hc Hw. unfold call. apply wp_bind; [apply _|].
  eapply wp_mono; [apply _| |by apply Hp].
  intros r h' He Hr h'' He'. cbn. split.
  - eapply client_ok_ext; [|done]. etrans; [exact He|done].
  - destruct r; [|done]. by eapply HQ.
Qed.

Lemma triple_draw (P : assertion) : monotone P → triple P draw_seed (λ _, P).
Proof using Type.
  intros HP w h Hc Hw h1 H1. split; [done|]. intros seed h2 H2 _ h3 H3. cbn.
  assert (ext h h3) by (etrans; [exact H1|]; by etrans).
  split; [by eapply client_ok_ext|by eapply HP].
Qed.

Lemma triple_set_intent (P : assertion) i : triple P (set_intent i) (λ _, true_).
Proof using Type. intros w h Hc Hw h' He. cbn. split; [by eapply client_ok_ext|done]. Qed.

Lemma triple_get_intent (P : assertion) : triple P get_intent (λ _, true_).
Proof using Type. intros w h Hc Hw h' He. cbn. split; [by eapply client_ok_ext|done]. Qed.

(** *** Programs that need nothing *)

Lemma safe_weaken {A} (P : assertion) (m : M A) : safe m → triple P m (λ _, true_).
Proof using Type. apply triple_conseq; done. Qed.

Lemma safe_of {A} (m : M A) (Q : A → assertion) : triple true_ m Q → safe m.
Proof using Type. apply triple_conseq; done. Qed.

Lemma safe_bind {A B} (m : M A) (f : A → M B) :
  safe m → (∀ a, safe (f a)) → safe (bind m f).
Proof using Type. apply triple_bind. Qed.
Lemma safe_ok {A} (a : A) : safe (ok a).
Proof using Type. by apply triple_ok. Qed.
Lemma safe_fail {A} e : safe (fail (A := A) e).
Proof using Type. apply triple_fail. Qed.
Lemma safe_catch {A} (m : M A) : safe m → safe (catch m).
Proof using Type.
  intros Hm. eapply safe_of. apply (triple_catch true_ m (λ _, true_)); done.
Qed.
Lemma safe_asks {A} (f : Client → result Error A) : safe (asks f).
Proof using Type. eapply safe_of, triple_asks. done. Qed.
Lemma safe_update {A} (f : Client → Client * result Error A) :
  (∀ h c c' r, client_ok h c → f c = (c', r) → client_ok h c') → safe (update f).
Proof using Type. intros Hf. apply triple_update; [done|]. intros w h c r Hc _ E. split; eauto. done. Qed.
Lemma safe_call {A} (p : prog Effect (result Error A)) :
  (∀ h, wpw p h (λ _ _, True)) → safe (call p).
Proof using Type.
  intros Hp. apply triple_call; [done|]. intros w h _ _. eapply wp_mono; [apply _| |apply Hp].
  by intros [] h'.
Qed.
Lemma safe_set_intent i : safe (set_intent i).
Proof using Type. apply triple_set_intent. Qed.
Lemma safe_get_intent : safe get_intent.
Proof using Type. apply triple_get_intent. Qed.

(** ** The HTTP calls *)

Lemma wp_retry {T} op client_id url r (decision : Reply → RetryDecision T) h
    (Q : T → History → Prop) :
  (∀ v h1 h2, ext h1 h2 → Q v h1 → Q v h2) → legal_request h r →
  (∀ reply h' v, ext h h' → truthful_reply hex_encode h' r reply →
     decision reply = Success v → Q v h') →
  wpw (retry_transient_http_async op client_id url (attempt r decision)) h
    (λ res h', match res with Ok v => Q v h' | Err _ => True end).
Proof using Type.
  intros HQ Hl Hd. unfold retry_transient_http_async.
  apply wp_bind; [apply _|]. cbn. intros h1 H1. split; [done|].
  intros started h2 H2 _ h3 H3.
  assert (H03 : ext h h3) by (etrans; [exact H1|]; by etrans). clear H1 H2 H3 h1 h2.
  generalize 1, INITIAL_DELAY. revert h3 H03.
  induction (pred (N.to_nat MAX_ATTEMPTS)) as [|later IH]; intros h3 H03 n delay.
  all: cbn [retry_loop]; apply wp_bind; [apply _|]; cbn;
    intros h4 H4; (split; [eapply legal_request_ext; [|done]; by etrans|]);
    intros reply h5 H5 Hreply h6 H6;
    assert (H06 : ext h h6) by (etrans; [exact H03|]; etrans; [exact H4|]; by etrans);
    assert (H05 : ext h h5) by (etrans; [exact H03|]; by etrans);
    destruct (decision reply) as [v|cause|err] eqn:E; cbn.
  1,4: intros h7 H7; eapply HQ; [|by eapply Hd]; by etrans.
  1,2,4: intros h7 H7; split; [done|]; intros now h8 H8 _; done.
  intros h7 H7. split; [done|]. intros j h8 H8 _ h9 H9. split; [done|].
  intros [] h10 H10 _. apply IH.
  etrans; [exact H06|]. etrans; [exact H7|]. etrans; [exact H8|]. by etrans.
Qed.

#[local] Opaque retry_transient_http_async.

(** A call whose answer teaches nothing. *)
Lemma wp_plain {T} op client_id url r (decision : Reply → RetryDecision T) h :
  legal_request h r →
  wpw (retry_transient_http_async op client_id url (attempt r decision)) h (λ _ _, True).
Proof using Type.
  intros Hl. eapply wp_mono; [apply _| |by apply (wp_retry op client_id url r decision h (λ _ _, True))].
  done.
Qed.

Lemma decide_reply_success {T} failure (f : result ReqwestError (Body AnyJson) → RetryDecision T)
    reply v :
  decide_reply failure f reply = Success v →
  ∃ s body, reply = Replied s body ∧ is_success s = true ∧ f body = Success v.
Proof.
  destruct reply as [err|s body]; cbn.
  - unfold transient_or_fatal. by destruct (is_transient_reqwest_error _).
  - destruct (is_success s) eqn:E; [eauto|]. unfold unsuccessful.
    by destruct (is_transient_status _).
Qed.

Lemma read_body_success {T} (f : Body AnyJson → result ReqwestError T) body v :
  read_body f body = Success v → ∃ b, body = Ok b ∧ f b = Ok v.
Proof.
  unfold read_body. destruct body as [b|err]; [destruct (f b) eqn:E|]; unfold transient_or_fatal.
  - intros [= <-]. by exists b.
  - by destruct (is_transient_reqwest_error _).
  - by destruct (is_transient_reqwest_error _).
Qed.

Lemma json_as_ok {T} (pick : AnyJson → option T) b v :
  json_as pick b = Ok v → ∃ j, b = Json j ∧ pick j = Some v.
Proof.
  destruct b; try done. cbn. destruct (pick j) eqn:E; [|done]. intros [= <-]. by exists j.
Qed.

Lemma wp_ds_post_bytes ds_url path r op n h :
  legal_request h (ToDs r) → wpw (ds_post_bytes ds_url path r op n) h (λ _ _, True).
Proof using Type.
  intros Hl. apply wp_bind; [apply _|]. eapply wp_mono; [apply _| |by apply wp_plain]. done.
Qed.

Lemma wp_ds_get_bytes ds_url path r op n h :
  legal_request h (ToDs r) → wpw (ds_get_bytes ds_url path r op n) h (λ _ _, True).
Proof using Type. apply wp_plain. Qed.

Lemma wp_get_welcome ds_url path n op h :
  wpw (ds_get_bytes ds_url path (Ds.FetchWelcome n) op n) h
    (λ res h', match res with Ok w => welcome_ok h' w | Err _ => True end).
Proof using Type.
  unfold ds_get_bytes. apply (wp_retry op (Some n) (ds_url +:+ path) _ _ h (λ w h, welcome_ok h w)).
  { intros v h1 h2 He. by apply welcome_ok_ext. }
  { exact I. }
  intros reply h' v _ Ht (s & body & -> & Hs & Hb)%decide_reply_success.
  apply read_body_success in Hb as (b & -> & [= <-]). by apply Ht.
Qed.

Definition delivered (h : History) (d : DeliveryService.PendingCommitDelivery) : Prop :=
  delivers hex_encode h (DeliveryService.pcd_group_id d) (DeliveryService.pcd_epoch d)
    (DeliveryService.pcd_commit_hex d).
Definition listed (h : History) (c : DeliveryService.PendingCommit) : Prop :=
  delivers hex_encode h (DeliveryService.pc_group_id c) (DeliveryService.pc_epoch c)
    (DeliveryService.pc_commit_hex c).

Lemma delivers_ext h h' g e hex :
  ext h h' → delivers hex_encode h g e hex → delivers hex_encode h' g e hex.
Proof using Type. intros He (b & -> & Hb). exists b. eauto using accepted_ext. Qed.

Lemma listed_ext h h' l : ext h h' → Forall (listed h) l → Forall (listed h') l.
Proof using Type.
  intros He Hl. eapply Forall_impl; [exact Hl|]. intros c. by apply delivers_ext.
Qed.

Lemma wp_get_delivery ds_url n h :
  wpw (ds_get_pending_commit_delivery ds_url n) h
    (λ res h', match res with Ok d => delivered h' d | Err _ => True end).
Proof using Type.
  unfold ds_get_pending_commit_delivery. apply (wp_retry _ _ _ _ _ h (λ d h, delivered h d)).
  { intros v h1 h2 He. by apply delivers_ext. }
  { exact I. }
  intros reply h' v _ Ht (s & body & -> & Hs & Hb)%decide_reply_success.
  apply read_body_success in Hb as (b & -> & (j & -> & Hj)%json_as_ok).
  destruct j as [[]|]; try done. injection Hj as ->. by apply Ht.
Qed.

Lemma wp_get_commits ds_url n after h :
  wpw (ds_get_pending_commits ds_url n after) h
    (λ res h', match res with Ok l => Forall (listed h') l | Err _ => True end).
Proof using Type.
  unfold ds_get_pending_commits. apply (wp_retry _ _ _ _ _ h (λ l h, Forall (listed h) l)).
  { intros v h1 h2 He. by apply listed_ext. }
  { exact I. }
  intros reply h' v _ Ht (s & body & -> & Hs & Hb)%decide_reply_success.
  apply read_body_success in Hb as (b & -> & (j & -> & Hj)%json_as_ok).
  destruct j as [[]|]; try done. injection Hj as ->. by apply Ht.
Qed.

(** ** The worker's programs *)

Create HintDb safe discriminated.

Ltac safe_step :=
  first
    [ done
    | solve [auto with safe nocore]
    | apply safe_ok | apply safe_fail | apply safe_asks | apply safe_set_intent
    | apply safe_get_intent
    | apply safe_catch | apply safe_bind; [|intros ?]
    | apply safe_call; intros ?; apply wp_plain; done
    | match goal with |- safe (if ?b then _ else _) => destruct b end
    | match goal with |- safe (match ?x with _ => _ end) => destruct x end ].
Ltac safe_tac := repeat safe_step.

Ltac mono :=
  repeat first [apply monotone_true | apply monotone_state | apply monotone_and].

Lemma client_name_safe : safe client_name.
Proof using Type. apply safe_asks. Qed.

Lemma hexid_group G : Client.hex_encode (group_id G) = hexid (view G).
Proof using Type. unfold hexid. by rewrite group_id_view. Qed.

(** The group a client reports about. *)
Lemma in_group c g : group_id_hex c = Ok g → ∃ G, group c = Some G ∧ hexid (view G) = g.
Proof using Type.
  unfold group_id_hex. destruct (the_group c) as [G|] eqn:E; [|done]. apply the_group_Some in E.
  intros [= <-]. exists G. by rewrite hexid_group.
Qed.

Lemma reported_epoch c G e : group c = Some G → current_epoch_u64 c = Ok e → e = view_epoch (view G).
Proof using Type.
  unfold current_epoch_u64, the_group. intros ->. intros [= <-]. apply epoch_view.
Qed.

Lemma reported_names c G ms :
  group c = Some G → member_names utf8_lossy c = Ok ms → ms = reported_members (view G).
Proof using Type.
  unfold member_names, the_group, reported_members. intros ->. intros [= <-].
  by rewrite members_view.
Qed.

Lemma update_ds_group_state_safe ds_url : safe (update_ds_group_state ds_url).
Proof using Type.
  unfold update_ds_group_state.
  eapply triple_bind; [apply triple_asks; mono|intros g].
  eapply triple_bind; [apply triple_asks; mono|intros e].
  eapply triple_bind; [apply triple_asks; mono|intros ms].
  eapply triple_bind; [apply triple_asks; mono|intros n]. cbn.
  eapply triple_bind.
  { apply (triple_catch _ _ (λ _, true_)); [done|]. apply triple_call; [done|].
    intros w h Hc (_ & Hms & He & Hg & _).
    eapply wp_mono; [apply _| |apply wp_plain]; [by intros []|].
    destruct (in_group _ _ Hg) as (G & HG & Hid). exists (view G). split_and!.
    - by apply (ok_group _ _ Hc).
    - done.
    - by eapply reported_epoch.
    - by eapply reported_names. }
  intros r. apply safe_weaken. safe_tac.
Qed.
#[local] Hint Resolve update_ds_group_state_safe : safe.
#[local] Opaque update_ds_group_state.

Lemma start_commit_triple intent :
  triple true_ (start_commit intent) (λ b w _, may_commit (client w) b).
Proof using Type.
  destruct intent; (apply triple_update; [intros b; apply monotone_state|]);
    intros w h c r Hc _ E.
  - eapply add_members_ok; [exact Hc|exact E].
  - eapply remove_members_ok; [exact Hc|exact E].
  - eapply self_update_ok; [exact Hc|exact E].
Qed.

Lemma publish_epoch_change_triple ds_url b :
  triple (λ w _, may_commit (client w) b) (publish_epoch_change ds_url b) (λ _, true_).
Proof using Type.
  unfold publish_epoch_change.
  eapply triple_bind; [apply triple_asks; mono|intros g].
  eapply triple_bind; [apply triple_asks; mono|intros e].
  eapply triple_bind; [apply triple_asks; mono|intros n]. cbn.
  apply triple_call; [done|]. intros w h Hc (_ & He & Hg & G & v & HG & Ha).
  eapply wp_mono; [apply _| |apply wp_plain]; [by intros []|].
  destruct (in_group _ _ Hg) as (G' & HG' & Hid). simplify_eq. exists (view G), v. split_and!.
  - by apply (ok_group _ _ Hc).
  - done.
  - by eapply reported_epoch.
  - done.
Qed.

Lemma try_start_intent_safe ds_url intent : safe (try_start_intent ds_url intent).
Proof using Type.
  eapply triple_bind; [apply start_commit_triple|intros b].
  eapply triple_bind; [apply publish_epoch_change_triple|intros posted].
  change (safe (match posted with
                | PostOk => ok PostOk
                | PostConflict message =>
                    bind (update rollback_pending_commit) (λ _, ok (PostConflict message))
                end)).
  destruct posted; safe_tac. apply safe_update. intros. by eapply rollback_ok.
Qed.
#[local] Hint Resolve try_start_intent_safe : safe.
#[local] Opaque try_start_intent.

Lemma maybe_retry_safe ds_url : safe (maybe_retry_pending_intent ds_url).
Proof using Type.
  unfold maybe_retry_pending_intent. apply safe_bind; [safe_tac|]. intros [intent|]; [|safe_tac].
  apply safe_bind; [safe_tac|]. intros []; safe_tac.
Qed.
#[local] Hint Resolve maybe_retry_safe : safe.
#[local] Opaque maybe_retry_pending_intent.

Lemma publish_welcomes_wp ds_url n rs w h :
  welcome_ok h w → wpw (publish_welcomes ds_url n rs w) h (λ _ _, True).
Proof using Type.
  intros Hw. apply wp_try_join_all; [apply _|done|].
  apply Forall_fmap, Forall_forall. intros r _. cbn. apply wp_ds_post_bytes. exact Hw.
Qed.

Definition holds_accepted (b : bytes) : assertion := λ _ h, ∃ g e, accepted h g e b.

Lemma holds_accepted_monotone b : monotone (holds_accepted b).
Proof using Type. intros w h h' He (g & e & Hb). exists g, e. by eapply accepted_ext. Qed.

Lemma welcome_monotone w : monotone (λ _ h, welcome_ok h w).
Proof using Type. intros _ h h' He. by apply welcome_ok_ext. Qed.

Lemma apply_commit_bytes_triple ds_url b profile :
  triple (holds_accepted b) (apply_commit_bytes ds_url b profile) (λ _, true_).
Proof using Type.
  unfold apply_commit_bytes.
  eapply triple_bind; [apply triple_draw, holds_accepted_monotone|intros seed].
  eapply (triple_bind _ _ (λ received _ h, match received with
            | OwnCommitAccepted _ _ (Some w) => welcome_ok h w | _ => True end)).
  { apply triple_update.
    - intros [? ? [w|]|]; try done. apply welcome_monotone.
    - intros w h c r Hc (g & e & Hb) E.
      destruct (receive_commit_ok _ _ _ _ _ _ _ _ _ Hc Hb E) as [Hc' Hw]. split; [done|].
      intros [rm rs [wb|]|] Hr; try done. by eapply Hw. }
  intros [[] rs [wb|]|[]]; try (apply safe_weaken; safe_tac; fail).
  eapply triple_bind; [apply triple_asks, welcome_monotone|intros n]. cbn.
  eapply triple_bind; [|intros ?; apply safe_weaken; safe_tac].
  eapply (triple_bind _ _ (λ _, true_)); [|intros ?; apply safe_ok].
  apply triple_call; [done|]. intros w h _ [_ Hw].
  eapply wp_mono; [apply _| |by apply publish_welcomes_wp]. by intros [].
Qed.
#[local] Opaque apply_commit_bytes.

Lemma decode_delivered ctx hex b h g e :
  decode_hex ctx hex = Ok b → delivers hex_encode h g e hex → accepted h g e b.
Proof using hex_roundtrip.
  intros Hd (b' & -> & Hb). unfold decode_hex in Hd. rewrite hex_roundtrip in Hd. by simplify_eq.
Qed.

Lemma ack_best_effort_safe ds_url i : safe (ack_commit_delivery_best_effort ds_url i).
Proof using Type. unfold ack_commit_delivery_best_effort. safe_tac. Qed.
#[local] Hint Resolve ack_best_effort_safe : safe.
#[local] Opaque ack_commit_delivery_best_effort.

Lemma epoch_reached_safe e : safe (epoch_reached e).
Proof using Type. apply safe_asks. Qed.
#[local] Hint Resolve epoch_reached_safe : safe.

Lemma expected_reached_safe o : safe (expected_reached o).
Proof using Type. unfold expected_reached. safe_tac. Qed.
#[local] Hint Resolve expected_reached_safe : safe.
#[local] Opaque expected_reached.

Lemma delivered_monotone d : monotone (λ _ h, delivered h d).
Proof using Type. intros _ h h' He. by apply delivers_ext. Qed.

Lemma receive_turn_safe ds_url expected profile stale processed :
  safe (receive_turn ds_url expected profile stale processed).
Proof using hex_roundtrip.
  unfold receive_turn. apply safe_bind; [safe_tac|intros n].
  eapply triple_bind.
  { apply (triple_catch _ _ (λ d _ h, delivered h d)); [apply delivered_monotone|].
    apply triple_call; [apply delivered_monotone|]. intros w h _ _. apply wp_get_delivery. }
  intros [d|e]; [|apply safe_weaken; safe_tac].
  eapply triple_bind; [apply triple_asks, delivered_monotone|intros stale_now].
  destruct stale_now; [apply safe_weaken; safe_tac|].
  eapply triple_bind.
  { eapply (triple_conseq _ (λ _ h, delivered h d)); [by intros ??? []|by intros ???? H; exact H|].
    apply triple_asks, delivered_monotone. }
  intros b. eapply triple_bind; [|intros ?; apply safe_weaken; safe_tac].
  eapply triple_conseq; [|done|apply (apply_commit_bytes_triple ds_url b profile)].
  intros w h _ [Hb Hd]. do 2 eexists. by eapply decode_delivered.
Qed.
#[local] Hint Resolve receive_turn_safe : safe.
#[local] Opaque receive_turn.

Lemma receive_commit_delivery_safe fuel ds_url expected profile : ∀ stale processed,
  safe (receive_commit_delivery fuel ds_url expected profile stale processed).
Proof using hex_roundtrip.
  induction fuel as [|fuel IH]; intros stale processed; cbn; safe_tac.
Qed.
#[local] Hint Resolve receive_commit_delivery_safe : safe.

Lemma ack_application_safe url i : safe (ack_application_message_best_effort url i).
Proof using Type. unfold ack_application_message_best_effort. safe_tac. Qed.
#[local] Hint Resolve ack_application_safe : safe.
#[local] Opaque ack_application_message_best_effort.

Lemma receive_application_safe url : safe (receive_application_delivery url).
Proof using Type.
  unfold receive_application_delivery. safe_tac.
  apply safe_update. intros. by eapply receive_application_ok.
Qed.
#[local] Hint Resolve receive_application_safe : safe.
#[local] Opaque receive_application_delivery.

Lemma listed_monotone l : monotone (λ _ h, Forall (listed h) l).
Proof using Type. intros _ h h' He. by apply listed_ext. Qed.

Lemma process_commits_triple ds_url profile l : ∀ p,
  triple (λ _ h, Forall (listed h) l) (process_commits ds_url profile l p) (λ _, true_).
Proof using hex_roundtrip.
  induction l as [|c l IH]; intros p; cbn [process_commits]; [apply safe_weaken; safe_tac|].
  eapply triple_bind; [apply triple_asks, listed_monotone|intros b].
  assert (Hmono : ∀ w1 : WorkerState, monotone (λ _ h, Forall (listed h) l))
    by (intros; apply listed_monotone).
  eapply (triple_bind _ _ (λ _ _ h, Forall (listed h) l)).
  - intros w h Hc [Hb Hl]. apply Forall_cons in Hl as [Hcl Hl].
    eapply wp_mono; [apply _| |apply (triple_catch (holds_accepted b) _ (λ _, true_));
      [done|apply apply_commit_bytes_triple|done|]].
    + intros [w' r] h' He [Hc' _]. split; [done|]. destruct r; [|done]. by eapply listed_ext.
    + do 2 eexists. by eapply decode_delivered.
  - intros [message|err]; [apply IH|apply safe_weaken; safe_tac].
Qed.

Lemma process_pending_commits_safe ds_url profile p :
  safe (process_pending_commits ds_url profile p).
Proof using hex_roundtrip.
  unfold process_pending_commits. apply safe_bind; [safe_tac|intros n].
  apply safe_bind; [safe_tac|intros after].
  eapply (triple_bind _ _ (λ l _ h, Forall (listed h) l)).
  - apply triple_call; [apply listed_monotone|]. intros w h _ _. apply wp_get_commits.
  - intros l. eapply triple_conseq; [|done|apply process_commits_triple].
    intros w h _ Hl. by apply Forall_take.
Qed.
#[local] Hint Resolve process_pending_commits_safe : safe.
#[local] Opaque process_pending_commits.

Lemma fetch_and_join_triple ds_url path op n :
  triple true_ (call (ds_get_bytes ds_url path (Ds.FetchWelcome n) op n))
    (λ w _ h, welcome_ok h w).
Proof using Type.
  apply triple_call; [apply welcome_monotone|]. intros w h _ _. apply wp_get_welcome.
Qed.

Lemma join_triple b :
  triple (λ _ h, welcome_ok h b) (update (λ c, join_from_welcome_op c b)) (λ _, true_).
Proof using Type.
  apply triple_update; [done|]. intros w h c r Hc Hw E. split; [by eapply join_ok|done].
Qed.

Lemma process_pending_welcome_safe ds_url p : safe (process_pending_welcome ds_url p).
Proof using Type.
  unfold process_pending_welcome. apply safe_bind; [safe_tac|intros n].
  eapply triple_bind.
  { apply (triple_catch _ _ (λ w _ h, welcome_ok h w)); [apply welcome_monotone|].
    apply fetch_and_join_triple. }
  intros [b|e]; [|apply safe_weaken; safe_tac].
  eapply triple_bind; [apply join_triple|intros ?; safe_tac].
Qed.
#[local] Hint Resolve process_pending_welcome_safe : safe.
#[local] Opaque process_pending_welcome.

Lemma process_pending_application_safe url p : safe (process_pending_application url p).
Proof using Type. unfold process_pending_application. safe_tac. Qed.
#[local] Hint Resolve process_pending_application_safe : safe.
#[local] Opaque process_pending_application.

Lemma process_pending_safe ds_url url kinds max expected profile :
  safe (process_pending ds_url url kinds max expected profile).
Proof using hex_roundtrip. unfold process_pending. safe_tac. Qed.
#[local] Hint Resolve process_pending_safe : safe.
#[local] Opaque process_pending.

Lemma start_or_queue_safe ds_url intent a b : safe (start_or_queue ds_url intent a b).
Proof using Type. unfold start_or_queue. safe_tac. Qed.
#[local] Hint Resolve start_or_queue_safe : safe.
#[local] Opaque start_or_queue.

Lemma fetch_key_packages_wp ds_url n ms h : wpw (fetch_key_packages ds_url n ms) h (λ _ _, True).
Proof using Type.
  apply wp_try_join_all; [apply _|done|]. apply Forall_fmap, Forall_forall. intros m _. cbn.
  apply wp_bind; [apply _|]. eapply wp_mono; [apply _| |by apply wp_ds_get_bytes]. done.
Qed.

Lemma handle_command_safe fuel ds_url relay_url command expected :
  safe (handle_command fuel ds_url relay_url command expected).
Proof using hex_roundtrip.
  assert (Hjoin : safe (handle_command fuel ds_url relay_url JoinFromWelcome expected)).
  { cbn [handle_command]. apply safe_bind; [|intros ?; safe_tac].
    apply safe_bind; [safe_tac|intros n].
    eapply triple_bind; [apply fetch_and_join_triple|intros b].
    eapply triple_bind; [apply join_triple|intros ?; safe_tac]. }
  destruct command; try exact Hjoin; cbn [handle_command]; safe_tac.
  - apply safe_update. intros. by eapply create_group_ok.
  - apply safe_update. intros. by eapply generate_key_package_ok.
  - apply safe_call. intros h. by apply wp_ds_post_bytes.
  - apply safe_call. intros h. apply fetch_key_packages_wp.
  - apply safe_update. intros. by eapply send_application_ok.
Qed.

(** ** The system *)

(** A worker takes a command and runs it; its result goes back to the caller. *)
Definition command_starts (i : string) (w : WorkerState) (p : prog Effect WorkerState) : Prop :=
  ∃ fuel ds_url relay_url command expected,
    p = handle_command fuel ds_url relay_url command expected w ≫= λ wr, Ret wr.1.

Abbreviation system_step := (world_step (serve hex_encode iteration) command_starts).

Definition fresh_worker (w : WorkerState) : Prop :=
  queued_intent w = None ∧ ∃ seed n profile, fresh seed n profile = Ok (client w).

Definition fresh_servers (s : Servers) : Prop :=
  ∃ m mode m', s = MkServers (DeliveryService.with_delivery_mode m mode) (MessageRelay.new m').

Lemma fresh_ds_ok m mode : ds_ok ∅ (DeliveryService.with_delivery_mode m mode).
Proof using Type.
  assert (Hq : ∀ A r, queue (∅ : gmap string (list A)) r = [])
    by (intros; unfold queue; by rewrite lookup_empty).
  split; cbn; unfold log; try (intros ??; rewrite ?Hq, lookup_empty; done).
  - intros r d. rewrite Hq. by intros ?%not_elem_of_nil.
  - intros r d. rewrite Hq. by intros ?%not_elem_of_nil.
  - intros r d. rewrite Hq. by intros ?%not_elem_of_nil.
Qed.

Lemma command_starts_safe i w p h :
  command_starts i w p → client_ok h (client w) → wpw p h (λ w h', client_ok h' (client w)).
Proof using hex_roundtrip.
  intros (fuel & ds_url & relay_url & command & expected & ->) Hc. apply wp_bind; [apply _|].
  eapply wp_mono; [apply _| |by apply handle_command_safe].
  intros [w' r] h' _ [Hc' _] h'' He. by eapply client_ok_ext.
Qed.

Lemma system_invariant s ts wd :
  fresh_servers s → (∀ i th, ts !! i = Some th → ∃ w, th = Idle w ∧ fresh_worker w) →
  rtc system_step (s, ts) wd →
  ∃ h, ds_ok h (delivery wd.1) ∧ ∀ i w, wd.2 !! i = Some (Idle w) → client_ok h (client w).
Proof using iteration_perm hex_roundtrip.
  intros (m & mode & m' & ->) Hts Hr.
  destruct (reachable_ok (serve hex_encode iteration) command_starts ext legal answers
              (λ h s, ds_ok h (delivery s)) (λ _ w h, client_ok h (client w))) with (5 := Hr)
    as (h & Hds & Hok).
  - intros i w h h'. apply client_ok_ext.
  - intros X h w e x w'. by apply serve_sound.
  - intros i w p h. apply command_starts_safe.
  - exists ∅. split; [apply fresh_ds_ok|]. intros i th Hi.
    destruct (Hts i th Hi) as (w & -> & _ & seed & n & profile & Hf). cbn. by eapply fresh_ok.
  - exists h. split; [done|]. intros i w Hi. by apply (Hok _ _ Hi).
Qed.
End agreement.

(** C3: All workers agree on their groups. Any number of workers run any commands,
    interleaved request by request, over a network that may lose, cut short or
    replace answers, with either delivery mode: in every reachable state, two idle
    workers in the same group and the same epoch have the same view of the group and
    the same members, and no worker is in a later epoch than the delivery service. *)
Theorem workers_agree {lib : MlsLibrary} {laws : MlsLaws} {extern : Externals}
    (hex_encode : bytes → string)
    (iteration : DeliveryService.DeliveryService → DeliveryService.log_entries)
    (Hiteration : ∀ ds, iteration ds ≡ₚ map_to_list (DeliveryService.group_commit_log ds))
    (Hhex : ∀ b, hex_decode (hex_encode b) = Ok b)
    (s : Servers) (ts : gmap string (thread Effect WorkerState))
    (Hservers : fresh_servers s)
    (Hworkers : ∀ i th, ts !! i = Some th → ∃ w, th = Idle w ∧ fresh_worker w)
    (wd : Servers * gmap string (thread Effect WorkerState))
    (Hreach : rtc (world_step (serve hex_encode iteration) command_starts) (s, ts) wd) :
  (∀ i j wi wj Gi Gj,
     wd.2 !! i = Some (Idle wi) → wd.2 !! j = Some (Idle wj) →
     group (client wi) = Some Gi → group (client wj) = Some Gj →
     group_id Gi = group_id Gj → epoch Gi = epoch Gj →
     view Gi = view Gj ∧ (members Gi).*2 = (members Gj).*2)
  ∧ (∀ i w G st,
       wd.2 !! i = Some (Idle w) → group (client w) = Some G →
       DeliveryService.groups (delivery wd.1) !! Client.hex_encode (group_id G) = Some st →
       epoch G <= DeliveryService.current_epoch st).
Proof.
  destruct (system_invariant hex_encode iteration Hiteration Hhex s ts wd Hservers Hworkers Hreach)
    as (h & Hds & Hok). split.
  - intros i j wi wj Gi Gj Hi Hj HGi HGj Hid He.
    assert (Hv : view Gi = view Gj).
    { eapply (known_unique h).
      - by apply (ok_group _ _ (Hok _ _ Hi)).
      - by apply (ok_group _ _ (Hok _ _ Hj)).
      - unfold hexid. by rewrite <-!group_id_view, Hid.
      - by rewrite <-!epoch_view. }
    split; [done|]. by rewrite !members_view, Hv.
  - intros i w G st Hi HG Hst. rewrite hexid_group in Hst.
    destruct (ok_group _ _ (Hok _ _ Hi) G HG) as (l & Hp & Hr).
    destruct (ds_groups _ _ Hds _ _ Hst) as (v & Hv & _ & ->).
    rewrite epoch_view. pose proof (replay_epoch _ _ _ Hr) as [-> _].
    pose proof (replay_epoch _ _ _ Hv) as [-> _]. apply prefix_length in Hp. lia.
Qed.

(** ** Two workers on a good network *)

Definition log_order (ds : DeliveryService.DeliveryService) : DeliveryService.log_entries :=
  map_to_list (DeliveryService.group_commit_log ds).

Definition toy_worker (n : string) : WorkerState :=
  MkWorkerState (MkClient n tt Classical n None None None []) None.

Definition toy_servers (mode : DeliveryService.CommitDeliveryMode) : Servers :=
  MkServers (DeliveryService.with_delivery_mode (ServiceMetrics.new None) mode)
    (MessageRelay.new (ServiceMetrics.new None)).

Abbreviation toy_thread := (thread Effect (WorkerState (lib := toy_mls))).
Abbreviation toy_world := (Servers * gmap string toy_thread)%type.

Definition do_command (wd : toy_world) (c : string * Command * option N) : toy_world :=
  let '(i, command, expected) := c in
  match (wd.2 !! i : option toy_thread) with
  | Some (Idle w) =>
      let p : prog Effect WorkerState :=
        handle_command 10 "http://ds" "http://relay" command expected w ≫= λ wr, Ret wr.1 in
      let '(s, w') := run (reliable Client.hex_encode log_order) wd.1 p in
      (s, <[i := Idle w']> wd.2)
  | _ => wd
  end.

Definition toy_step := world_step (serve Client.hex_encode log_order) command_starts.

Lemma do_command_reaches wd c : rtc toy_step wd (do_command wd c).
Proof.
  destruct wd as [s ts], c as [[i command] expected]. unfold do_command. cbn.
  destruct (ts !! i) as [[w|]|] eqn:Hi; try done.
  set (p := _ ≫= _).
  pose proof (run_alone _ command_starts _ (reliable_serves Client.hex_encode log_order) s ts i w p Hi)
    as H. destruct (run _ s p) as [s' w']. apply H. by do 5 eexists.
Qed.

Lemma do_commands_reach cs : ∀ wd, rtc toy_step wd (foldl do_command wd cs).
Proof.
  induction cs as [|c cs IH]; intros wd; [done|]. cbn.
  etrans; [apply do_command_reaches|apply IH].
Qed.

Definition toy_start : toy_world :=
  (toy_servers DeliveryService.PerRecipient,
   <["alice" := Idle (toy_worker "alice")]> {["bob" := Idle (toy_worker "bob")]}).

(** Alice adds Bob, then updates; both receive her commits. *)
Definition toy_session : list (string * Command * option N) :=
  [("alice", CreateGroup, None); ("bob", GenerateKeyPackage, None);
   ("alice", AddMembers ["bob"], None); ("alice", ReceiveCommit true, Some 1);
   ("bob", JoinFromWelcome, None); ("alice", SelfUpdate, None);
   ("bob", ReceiveCommit false, Some 2); ("alice", ReceiveCommit false, Some 2)].

Definition toy_end : toy_world := foldl do_command toy_start toy_session.

Definition idle_group (wd : toy_world) (i : string) : option ToyGroup :=
  match (wd.2 !! i : option toy_thread) with Some (Idle w) => group (client w) | _ => None end.

Lemma toy_fresh i (th : toy_thread) :
  toy_start.2 !! i = Some th → ∃ w, th = Idle w ∧ fresh_worker w.
Proof.
  unfold toy_start. cbn. intros H. apply lookup_insert_Some in H as [[_ <-]|[_ H]].
  - eexists. split; [done|]. split; [done|]. by exists 0, "alice", Classical.
  - apply lookup_singleton_Some in H as [_ <-].
    eexists. split; [done|]. split; [done|]. by exists 0, "bob", Classical.
Qed.

Lemma idle_group_inv wd i G :
  idle_group wd i = Some G → ∃ w, wd.2 !! i = Some (Idle w) ∧ group (client w) = Some G.
Proof.
  unfold idle_group. destruct (wd.2 !! i) as [[w|]|] eqn:E; [|done..]. intros HG. by exists w.
Qed.

Definition toy_view : ToyView := ("alice", 2, [(0, "alice"); (1, "bob")]).

Lemma workers_agree_witness :
  (fresh_servers toy_start.1
   ∧ (∀ i th, toy_start.2 !! i = Some th → ∃ w, th = Idle w ∧ fresh_worker w)
   ∧ rtc toy_step toy_start toy_end)
  ∧ ∃ Ga Gb : ToyGroup,
      idle_group toy_end "alice" = Some Ga ∧ idle_group toy_end "bob" = Some Gb
      ∧ epoch Ga = 2 ∧ epoch Gb = 2 ∧ tg_view Ga = tg_view Gb.
Proof.
  assert (Hs : fresh_servers toy_start.1) by (by do 3 eexists).
  assert (Hr : rtc toy_step toy_start toy_end) by apply do_commands_reach.
  split; [split_and!; [exact Hs|exact toy_fresh|exact Hr]|].
  assert (Ha : idle_group toy_end "alice" = Some (MkToyGroup toy_view None)) by (by vm_compute).
  assert (Hb : idle_group toy_end "bob" = Some (MkToyGroup toy_view None)) by (by vm_compute).
  exists (MkToyGroup toy_view None), (MkToyGroup toy_view None).
  destruct (idle_group_inv _ _ _ Ha) as (wa & Ea & Ga), (idle_group_inv _ _ _ Hb) as (wb & Eb & Gb).
  split; [exact Ha|]. split; [exact Hb|]. split; [done|]. split; [done|].
  destruct (workers_agree Client.hex_encode log_order (λ ds, reflexivity _) toy_hex_roundtrip
              toy_start.1 toy_start.2 Hs toy_fresh toy_end Hr) as [Hview _].
  exact (proj1 (Hview _ _ _ _ _ _ Ea Eb Ga Gb eq_refl eq_refl)).
Defined.
