(* ===== verification/WorkerRuns.v ===== *)
(** * Worker programs on a good network

    What a worker's calls do when every request is answered in full: through the
    retry loop, the HTTP handlers and the delivery service and back through the error
    messages.  [update_outcome] is the contract of [update_ds_group_state]. *)

From S2P Require Import Prelude Text ServiceMetrics Http Inbox Interaction HttpRetry Servers.
From S2P Require Import Client.
From S2P Require Import WorkerHttp Worker Network ToyMls GroupAgreement.
From S2P Require DeliveryService MessageRelay.
From stdpp Require Import options.

Local Open Scope N_scope.

(** ** The marker of a stale update in an error message *)

Definition marker : string := "expected epoch ".

Lemma find_after_unfold m s :
  find_after m s
  = match strip_prefix m s with
    | Some rest => Some rest
    | None => match s with EmptyString => None | String _ s' => find_after m s' end
    end.
Proof. by destruct s. Qed.

(** A word that is not followed by "epoch" can be skipped. *)
Lemma skip_word t s :
  char_free " " t → strip_prefix "epoch " s = None →
  find_after marker (t +:+ " " +:+ s) = find_after marker s.
Proof.
  intros Ht Hs.
  assert (Hno : ∀ t, char_free " " t → strip_prefix marker (t +:+ " " +:+ s) = None).
  { clear t Ht. intros t Ht. destruct (strip_prefix marker _) as [r|] eqn:E; [|done].
    apply strip_prefix_Some in E.
    change (marker +:+ r) with ("expected" +:+ String " " ("epoch " +:+ r)) in E.
    change (" " +:+ s) with (String " " s) in E.
    apply split_at_char in E as [-> ->]; [|done|done]. by rewrite strip_prefix_app in Hs. }
  induction t as [|c t IH].
  - rewrite find_after_unfold, (Hno "") by done. done.
  - rewrite find_after_unfold, (Hno (String c t)) by done.
    apply IH. by apply andb_prop_elim in Ht as [_ Ht].
Qed.

Definition spaced (words : list string) (rest : string) : string :=
  foldr (λ w s, w +:+ " " +:+ s) rest words.

Lemma find_marker words rest :
  Forall (λ w, Is_true (char_free " " w) ∧ w ≠ "epoch") words →
  find_after marker (spaced words (marker +:+ rest)) = Some rest.
Proof.
  induction 1 as [|w words [Hw Hne] Hws IH].
  - cbn [spaced foldr]. destruct rest; apply (f_equal (λ o, o)); cbn; done.
  - cbn [spaced foldr]. rewrite skip_word; [exact IH|done|].
    destruct Hws as [|w' words [Hw' Hne'] _]; [done|]. cbn [spaced foldr].
    destruct (strip_prefix "epoch " _) as [r|] eqn:E; [|done]. apply strip_prefix_Some in E.
    change ("epoch " +:+ r) with ("epoch" +:+ String " " r) in E.
    apply split_at_char in E as [? _]; [done|done|done].
Qed.

Lemma span_digits (n : N) s :
  match s with String c _ => is_digit c = false | EmptyString => True end →
  span_string is_digit (pretty n +:+ s) = (pretty n, s).
Proof. intros Hs. destruct (pretty_digits n) as [Hd _]. by apply span_string_app. Qed.

Lemma find_got (n : N) s : find_after ", got " (pretty n +:+ ", got " +:+ s) = Some s.
Proof.
  pose proof (pretty_char_free "," n eq_refl) as Hf. revert Hf. generalize (pretty n). intros t.
  induction t as [|c t IH]; intros Ht.
  - cbn. by destruct s.
  - rewrite find_after_unfold. apply andb_prop_elim in Ht as [Hc Ht].
    replace (strip_prefix ", got " (String c t +:+ ", got " +:+ s)) with (@None string);
      [by apply IH|].
    change (String c t +:+ ", got " +:+ s) with (String c (t +:+ ", got " +:+ s)).
    destruct (strip_prefix _ _) as [r|] eqn:E; [|done]. apply strip_prefix_Some in E.
    injection E as -> _. done.
Qed.

(** The worker reads back the two epochs of the delivery service's refusal. *)
Lemma parse_mismatch words (expected got : N) :
  Forall (λ w, Is_true (char_free " " w) ∧ w ≠ "epoch") words →
  expected <= u64_max → got <= u64_max →
  parse_group_state_update_mismatch
    (spaced words (marker +:+ pretty expected +:+ ", got " +:+ pretty got)) = Some (expected, got).
Proof.
  intros Hw He Hg. unfold parse_group_state_update_mismatch. change "expected epoch " with marker.
  rewrite find_marker by done. rewrite span_digits by done. cbn [fst].
  unfold parse_u64. rewrite parse_pretty by done. rewrite find_got.
  rewrite <-(string_app_nil_r (pretty got)), span_digits by done. cbn [fst].
  by rewrite parse_pretty.
Qed.

(** ** Running calls *)

Section handler.
Context {lib : MlsLibrary} {extern : Externals}.
Context {W : Type} (h : ∀ X, W → Effect X → W * X).

Lemma run_asks {A} s w (f : Client → result Error A) :
  run h s (asks f w) = (s, (w, f (client w))).
Proof. done. Qed.
End handler.

Section runs.
Context {lib : MlsLibrary} {extern : Externals}.
Context (hex_encode : bytes → string).
Context (iteration : DeliveryService.DeliveryService → DeliveryService.log_entries).

Abbreviation runr := (run (reliable hex_encode iteration)).

(** A call whose first answer decides. *)
Lemma run_retry {T} s op client_id url r (decision : Reply → RetryDecision T) s' status b :
  handle_request hex_encode iteration s 1 r = (s', status, b) →
  is_transient (decision (Replied status (Ok b))) = false →
  runr s (retry_transient_http_async op client_id url (attempt r decision))
  = (s', match decision (Replied status (Ok b)) with
         | Success v => Ok v
         | Transient cause => Err (failed op client_id url 1 0 cause)
         | Fatal err => Err (retry_error op client_id url 1 0 0 err)
         end).
Proof.
  intros Hh Ht. eapply run_retry_first with (now := 0) (reply := Replied status (Ok b)) in Ht;
    [exact Ht|done|]. cbn [reliable]. by rewrite Hh.
Qed.

(** *** Putting a group state *)

Definition put_state (s : Servers) (g : string) (e : N) (ms : list string) : Servers * N * Body AnyJson :=
  handle_request hex_encode iteration s 1 (ToDs (Ds.PutGroupState g e ms)).

Lemma put_state_spec s g e ms :
  let '(s', status, b) := put_state s g e ms in
  let gs := DeliveryService.groups (delivery s) in
  relay s' = relay s ∧
  match gs !! g with
  | None => status = OK
      ∧ DeliveryService.groups (delivery s') = <[g := DeliveryService.MkGroupState e ms]> gs
  | Some st =>
      if decide (e = DeliveryService.current_epoch st) then
        status = OK
        ∧ DeliveryService.groups (delivery s') = <[g := DeliveryService.MkGroupState e ms]> gs
      else
        status = CONFLICT ∧ DeliveryService.groups (delivery s') = gs
        ∧ b = Message ("Group state update mismatch for group '" +:+ g +:+ "': expected epoch "
                       +:+ pretty (DeliveryService.current_epoch st) +:+ ", got " +:+ pretty e)
  end.
Proof.
  unfold put_state, handle_request. cbn [Ds.ds_handle]. unfold Ds.put_group_state, observed, Ds.or_conflict.
  unfold DeliveryService.put_group_state. cbn.
  destruct (DeliveryService.groups (delivery s) !! g) as [st|]; [|done].
  destruct (decide (e = DeliveryService.current_epoch st)) as [->|Hne].
  - rewrite decide_False by (intros H; by apply H). done.
  - by rewrite decide_True by done.
Qed.

Lemma hex_char_free c b :
  (∀ n, n < 16 → hex_digit n ≠ c) → char_free c (Client.hex_encode b).
Proof.
  intros Hc. induction b as [|x b IH]; [done|]. cbn [Client.hex_encode char_free].
  pose proof (Byte.to_N_bounded x) as Hx.
  assert (Hd : ∀ n, n < 16 → Is_true (negb (Ascii.eqb c (hex_digit n)))).
  { intros n Hn. destruct (Ascii.eqb_spec c (hex_digit n)) as [E|]; [|done].
    by destruct (Hc n Hn). }
  apply andb_prop_intro. split; [apply Hd, N.Div0.div_lt_upper_bound; lia|].
  apply andb_prop_intro. split; [apply Hd, N.mod_lt; lia|done].
Qed.

Lemma hex_no_blank b : char_free " " (Client.hex_encode b).
Proof.
  apply hex_char_free. intros n Hn. unfold hex_digit.
  destruct (N.ltb_spec n 10); intros E; apply (f_equal N_of_ascii) in E;
    rewrite N_ascii_embedding in E by lia; change (N_of_ascii " ") with 32 in E; lia.
Qed.

(** The words of the error before the marker. *)
Definition refusal_words (client_id url g : string) : list string :=
  ["update_group_state"; "failed:"; "client=" +:+ client_id; "url=" +:+ url;
   "attempts=" +:+ pretty 1; "elapsed_ms=" +:+ pretty 0; "cause=DS"; "PUT"; "failed"; "with";
   "status"; "409"; "Conflict:"; "Group"; "state"; "update"; "mismatch"; "for"; "group";
   "'" +:+ g +:+ "':"].

Lemma no_blank_app c s t : char_free c s → char_free c t → char_free c (s +:+ t).
Proof. intros Hs Ht. rewrite char_free_app. by apply andb_prop_intro. Qed.

Lemma refusal_words_ok client_id url g :
  char_free " " client_id → char_free " " url → char_free " " g →
  Forall (λ w, Is_true (char_free " " w) ∧ w ≠ "epoch") (refusal_words client_id url g).
Proof.
  intros Hc Hu Hg. unfold refusal_words.
  repeat apply Forall_cons_2; try apply Forall_nil_2; try (split; [vm_compute; exact I|discriminate]).
  - split; [by apply no_blank_app|discriminate].
  - split; [by apply no_blank_app|discriminate].
  - split; [|discriminate]. apply no_blank_app; [done|]. by apply no_blank_app.
Qed.

Lemma refusal_parse client_id url g (cur e : N) :
  status_text CONFLICT = "409 Conflict" →
  char_free " " client_id → char_free " " url → char_free " " g →
  cur <= u64_max → e <= u64_max →
  is_stale_group_state_update_error
    (retry_error "update_group_state" (Some client_id) url 1 0 0
       (anyhow ("DS PUT" +:+ " failed with status " +:+ status_text CONFLICT +:+ ": "
                +:+ ("Group state update mismatch for group '" +:+ g +:+ "': expected epoch "
                     +:+ pretty cur +:+ ", got " +:+ pretty e)))) e
  = (e <? cur).
Proof.
  intros -> Hc Hu Hg Hcur He. unfold is_stale_group_state_update_error.
  match goal with |- context [parse_group_state_update_mismatch ?m] =>
    replace m with (spaced (refusal_words client_id url g)
                      (marker +:+ pretty cur +:+ ", got " +:+ pretty e)) end.
  - rewrite parse_mismatch by (done || by apply refusal_words_ok). by rewrite N.eqb_refl.
  - unfold retry_error, failed, alternate, anyhow, spaced, refusal_words, marker. cbn [foldr String.concat default].
    rewrite !string_app_assoc. reflexivity.
Qed.

(** The outcome of an update for a group the service knows in epoch [cur]. *)
Lemma update_run s w G ds_url :
  group (client w) = Some G →
  status_text CONFLICT = "409 Conflict" →
  char_free " " (name (client w)) → char_free " " ds_url →
  epoch G <= u64_max →
  let g := Client.hex_encode (group_id G) in
  let ms := utf8_lossy <$> (members G).*2 in
  let '(s', (w', r)) := runr s (update_ds_group_state ds_url w) in
  w' = w ∧ relay s' = relay s ∧
  let gs := DeliveryService.groups (delivery s) in
  match gs !! g with
  | None => r = Ok tt
      ∧ DeliveryService.groups (delivery s') = <[g := DeliveryService.MkGroupState (epoch G) ms]> gs
  | Some st =>
      let cur := DeliveryService.current_epoch st in
      DeliveryService.groups (delivery s')
      = (if decide (epoch G = cur) then <[g := DeliveryService.MkGroupState cur ms]> gs else gs)
      ∧ (cur <= u64_max → (r = Ok tt ↔ epoch G <= cur))
  end.
Proof.
  intros HG Hst Hname Hurl He g ms. unfold update_ds_group_state.
  rewrite !run_M, !run_asks. unfold group_id_hex, current_epoch_u64, member_names, the_group.
  rewrite HG, !run_M, !run_asks. rewrite HG, run_M, run_asks, HG, run_M.
  unfold client_name. rewrite run_asks, run_M, run_catch, run_call.
  fold g. fold ms. set (path := "/group/" +:+ g +:+ "/state/" +:+ pretty (epoch G)).
  pose proof (put_state_spec s g (epoch G) ms) as Hp.
  destruct (put_state s g (epoch G) ms) as [[s' status] b] eqn:Eh. destruct Hp as [Hrelay Hp].
  unfold ds_put_json.
  assert (Hdec : is_transient (T := unit) (decide_reply "DS PUT" (λ _, Success tt)
                   (Replied status (Ok b))) = false).
  { destruct (DeliveryService.groups (delivery s) !! g); [case_decide|];
      destruct Hp as [-> Hp]; done. }
  erewrite run_retry by done.
  destruct (DeliveryService.groups (delivery s) !! g) as [st|] eqn:Eg; [case_decide as Hcur|];
    destruct Hp as [-> Hp].
  - cbn. rewrite Hp, Hcur. split_and!; try done.
  - destruct Hp as [Hgs ->]. cbn [decide_reply is_success]. unfold unsuccessful, read_response_text.
    change (is_transient_status CONFLICT) with false. change (is_success CONFLICT) with false.
    cbn match. clear Hdec.
    match goal with |- context [is_stale_group_state_update_error ?err _] => set (error := err) end.
    assert (Hstale : DeliveryService.current_epoch st <= u64_max →
      is_stale_group_state_update_error error (epoch G)
      = (epoch G <? DeliveryService.current_epoch st)).
    { intros Hb. apply refusal_parse; try done; [|apply hex_no_blank].
      unfold path. repeat (apply no_blank_app; [done || apply hex_no_blank|]).
      by apply pretty_char_free. }
    destruct (is_stale_group_state_update_error error (epoch G)); cbn;
      (split_and!; [done|done|done|]); intros Hb; specialize (Hstale Hb); symmetry in Hstale.
    + apply N.ltb_lt in Hstale. split; [lia|done].
    + apply N.ltb_ge in Hstale. split; [done|lia].
  - cbn. done.
Qed.

(** ** A response that gets lost *)

Definition timeout_error : ReqwestError :=
  MkReqwestError "operation timed out" true false true false [].

(** Requests are handled, but a response is lost where the script says so. *)
Definition flaky (X : Type) (w : Servers * list bool) (e : Effect X) :
    (Servers * list bool) * X :=
  match e in HttpEffects.Effect _ _ X return (Servers * list bool) * X with
  | Http r =>
      let '(s, status, b) := handle_request hex_encode iteration w.1 1 r in
      ((s, tail w.2), match w.2 with true :: _ => SendFailed timeout_error
                                   | _ => Replied status (Ok b) end)
  | Sleep _ => (w, tt)
  | Draw lo _ => (w, lo)
  | Now => (w, 0)
  | Choose => (w, true)
  | Entropy => (w, 0)
  end.

Lemma flaky_serves X w (e : Effect X) :
  serve hex_encode iteration X w.1 e (flaky X w e).2 (flaky X w e).1.1.
Proof.
  destruct e; cbn; try done.
  destruct (handle_request _ _ _ _ _) as [[s' st] b] eqn:E. cbn.
  destruct w.2 as [|[] l]; cbn; [by eapply answered_in_full|by eapply response_lost|
    by eapply answered_in_full].
Qed.

Lemma retry_loop_step {T} op client_id url (attempt_fn : prog Effect (RetryDecision T))
    started later a delay :
  retry_loop op client_id url attempt_fn started (S later) a delay
  = attempt_fn ≫= λ decision,
      match decision with
      | Success value => mret (Ok value)
      | Fatal err =>
          trigger now_ms ≫= λ now, mret (Err (retry_error op client_id url a started now err))
      | Transient _ =>
          with_jitter delay ≫= λ sleep_for, trigger (sleep sleep_for) ≫= λ _,
          retry_loop op client_id url attempt_fn started later (a + 1) (next_delay delay)
      end.
Proof. done. Qed.

(** The call is sent again, and the second answer decides. *)
Lemma run_retry_lost {T} s op client_id url r (decision : Reply → RetryDecision T)
    s1 status1 b1 s2 status2 b2 v :
  handle_request hex_encode iteration s 1 r = (s1, status1, b1) →
  is_transient (decision (SendFailed timeout_error)) = true →
  handle_request hex_encode iteration s1 1 r = (s2, status2, b2) →
  decision (Replied status2 (Ok b2)) = Success v →
  run flaky (s, [true]) (retry_transient_http_async op client_id url (attempt r decision))
  = ((s2, []), Ok v).
Proof.
  intros H1 Ht H2 Hd. unfold retry_transient_http_async. rewrite run_bind.
  cbn [run trigger now_ms worker_retry flaky].
  change (pred (N.to_nat MAX_ATTEMPTS)) with 9%nat.
  rewrite retry_loop_step, run_bind. unfold attempt at 1. rewrite run_bind.
  cbn [run trigger flaky fst snd].
  rewrite H1. cbn [run mret prog_ret tail].
  destruct (decision (SendFailed timeout_error)) eqn:E; [done| |done].
  unfold with_jitter. rewrite !run_bind.
  cbn [run trigger mret prog_ret gen_range sleep worker_retry flaky].
  rewrite run_bind. cbn [run trigger flaky].
  rewrite retry_loop_step, run_bind. unfold attempt at 1. rewrite run_bind.
  cbn [run trigger flaky fst snd].
  rewrite H2. cbn [run mret prog_ret tail]. by rewrite Hd.
Qed.

(** *** Publishing a commit twice *)

Definition post_commit (s : Servers) (g sender : string) (e : N) (b : bytes) :
    Servers * N * Body AnyJson :=
  handle_request hex_encode iteration s 1 (ToDs (Ds.PublishGroupCommit g sender e b)).

Lemma foldl_deliver_keeps g sd e b rs r d : ∀ ds,
  d ∈ queue (DeliveryService.commit_inboxes ds) r →
  d ∈ queue (DeliveryService.commit_inboxes
               (foldl (λ d r, DeliveryService.deliver_to d g sd e b r) ds rs)) r.
Proof.
  induction rs as [|r' rs IH]; intros ds Hd; [done|]. cbn. apply IH. cbn.
  destruct (decide (r' = r)) as [->|Hne]; [|by rewrite queue_push_ne].
  rewrite queue_push. apply elem_of_app. by left.
Qed.

Lemma foldl_deliver_reaches g sd e b rs r : ∀ ds,
  r ∈ rs →
  DeliveryService.delivery_record g sd e b r
  ∈ queue (DeliveryService.commit_inboxes
             (foldl (λ d r, DeliveryService.deliver_to d g sd e b r) ds rs)) r.
Proof.
  induction rs as [|r' rs IH]; intros ds Hr; [by apply not_elem_of_nil in Hr|].
  cbn. apply elem_of_cons in Hr as [->|Hr]; [|by apply IH].
  apply foldl_deliver_keeps. cbn. rewrite queue_push. apply elem_of_app. right. by left.
Qed.

Lemma post_commit_accepted s g sender b st :
  DeliveryService.groups (delivery s) !! g = Some st →
  DeliveryService.delivery_mode (delivery s) = DeliveryService.PerRecipient →
  DeliveryService.current_epoch st + 1 <= u64_max →
  let e := DeliveryService.current_epoch st in
  let '(s', status, _) := post_commit s g sender e b in
  status = OK
  ∧ DeliveryService.groups (delivery s') !! g
    = Some (DeliveryService.MkGroupState (e + 1) (DeliveryService.members st))
  ∧ ∀ r, r ∈ DeliveryService.members st →
      DeliveryService.delivery_record g sender e b r
      ∈ queue (DeliveryService.commit_inboxes (delivery s')) r.
Proof.
  intros Hg Hmode He e. unfold post_commit, handle_request. cbn [Ds.ds_handle].
  unfold Ds.publish_group_commit, observed, Ds.or_conflict.
  unfold DeliveryService.publish_group_commit, DeliveryService.accept_commit. cbn.
  rewrite Hg, decide_False by (intros H; by apply H). cbn. rewrite Hmode. cbn.
  rewrite (wrap64_small (DeliveryService.current_epoch st + 1)) by (by apply u64_max_pow64).
  split_and!; [done| |].
  - rewrite Servers.foldl_deliver_groups. cbn. by rewrite lookup_insert_eq.
  - intros r Hr. by apply foldl_deliver_reaches.
Qed.

Lemma post_commit_refused s g sender e b st :
  DeliveryService.groups (delivery s) !! g = Some st →
  e ≠ DeliveryService.current_epoch st →
  let '(s', status, body) := post_commit s g sender e b in
  status = CONFLICT ∧ (∃ m, body = Message m)
  ∧ DeliveryService.groups (delivery s') = DeliveryService.groups (delivery s)
  ∧ DeliveryService.commit_inboxes (delivery s') = DeliveryService.commit_inboxes (delivery s).
Proof.
  intros Hg He. unfold post_commit, handle_request. cbn [Ds.ds_handle].
  unfold Ds.publish_group_commit, observed, Ds.or_conflict.
  unfold DeliveryService.publish_group_commit, DeliveryService.accept_commit. cbn.
  rewrite Hg, decide_True by done. cbn. eauto.
Qed.

(** Both answers of a commit sent twice, the first of them lost. *)
Lemma post_commit_twice s G n b st ds_url w :
  group (client w) = Some G → name (client w) = n →
  let g := Client.hex_encode (group_id G) in
  DeliveryService.groups (delivery s) !! g = Some st →
  DeliveryService.current_epoch st = epoch G →
  DeliveryService.delivery_mode (delivery s) = DeliveryService.PerRecipient →
  epoch G + 1 <= u64_max →
  ∃ s' message,
    run flaky (s, [true]) (publish_epoch_change ds_url b w)
    = ((s', []), (w, Ok (PostConflict message)))
    ∧ DeliveryService.groups (delivery s') !! g
      = Some (DeliveryService.MkGroupState (epoch G + 1) (DeliveryService.members st))
    ∧ ∀ r, r ∈ DeliveryService.members st →
        DeliveryService.delivery_record g n (epoch G) b r
        ∈ queue (DeliveryService.commit_inboxes (delivery s')) r.
Proof.
  intros HG <- g Hg Hst Hmode He.
  pose proof (post_commit_accepted s g (name (client w)) b st Hg Hmode) as H1.
  rewrite Hst in H1. specialize (H1 He). cbv zeta in H1.
  destruct (post_commit s g (name (client w)) (epoch G) b) as [[s1 st1] b1] eqn:E1.
  destruct H1 as (-> & Hg1 & Hd1).
  pose proof (post_commit_refused s1 g (name (client w)) (epoch G) b _ Hg1) as H2.
  cbn [DeliveryService.current_epoch] in H2. specialize (H2 ltac:(lia)).
  destruct (post_commit s1 g (name (client w)) (epoch G) b) as [[s2 st2] b2] eqn:E2.
  destruct H2 as (-> & [m ->] & Hg2 & Hd2).
  exists s2, m. rewrite Hg2, Hd2. split; [|done].
  unfold publish_epoch_change, group_id_hex, current_epoch_u64, the_group.
  rewrite run_M, run_asks, HG, run_M, run_asks, HG, run_M.
  unfold client_name. rewrite run_asks, run_call. fold g. unfold ds_post_bytes_allow_conflict.
  by erewrite run_retry_lost.
Qed.
End runs.

(** ** The contract of a state update *)

(** on a network that loses nothing, [update_ds_group_state] of a worker in a group
    leaves the worker and the relay alone and meets its contract at the service: a
    group the service does not know is registered with the worker's epoch and members;
    a group in the worker's epoch gets the worker's member list; a group in another
    epoch is left as it is.  The call succeeds exactly when the service is not behind
    the worker: a refusal because the service has moved on is recognised from the text
    of the refusal, through the retry layer's error message, and forgiven; a refusal
    because the worker is ahead is reported. *)
Theorem update_outcome {lib : MlsLibrary} {extern : Externals} hex_encode iteration s w G ds_url :
  group (client w) = Some G →
  status_text CONFLICT = "409 Conflict" →
  char_free " " (name (client w)) → char_free " " ds_url →
  epoch G <= u64_max →
  let g := Client.hex_encode (group_id G) in
  let ms := utf8_lossy <$> (members G).*2 in
  let '(s', (w', r)) := run (reliable hex_encode iteration) s (update_ds_group_state ds_url w) in
  w' = w ∧ relay s' = relay s ∧
  let gs := DeliveryService.groups (delivery s) in
  match gs !! g with
  | None => r = Ok tt
      ∧ DeliveryService.groups (delivery s') = <[g := DeliveryService.MkGroupState (epoch G) ms]> gs
  | Some st =>
      let cur := DeliveryService.current_epoch st in
      DeliveryService.groups (delivery s')
      = (if decide (epoch G = cur) then <[g := DeliveryService.MkGroupState cur ms]> gs else gs)
      ∧ (cur <= u64_max → (r = Ok tt ↔ epoch G <= cur))
  end.
Proof. apply update_run. Qed.

(** ** A commit accepted and rolled back *)

(** C18: an accepted commit whose answer is lost is taken for a refused one.  When the
    response to the first publication does not arrive, the retry layer sends the commit
    again, the service, one epoch further by then, refuses it, and [try_start_intent]
    reports a conflict and discards the pending commit: the worker stays in its epoch
    without the commit's bytes, while the service has advanced the group to the next
    epoch and delivers this very commit to all members, its author among them. *)
Theorem lost_response_rolls_back {lib : MlsLibrary} {extern : Externals} hex_encode iteration
    s w w1 intent b G p' G' st ds_url :
  start_commit intent w = Ret (w1, Ok b) →
  group (client w1) = Some G →
  clear_pending_commit (crypto (client w1)) G = (p', G', Ok tt) →
  let g := Client.hex_encode (group_id G) in
  let n := name (client w1) in
  DeliveryService.groups (delivery s) !! g = Some st →
  DeliveryService.current_epoch st = epoch G →
  DeliveryService.delivery_mode (delivery s) = DeliveryService.PerRecipient →
  epoch G + 1 <= u64_max →
  ∃ s' w' message,
    run (flaky hex_encode iteration) (s, [true]) (try_start_intent ds_url intent w)
    = ((s', []), (w', Ok (PostConflict message)))
    ∧ group (client w') = Some G' ∧ pending_commit_bytes (client w') = None
    ∧ DeliveryService.groups (delivery s') !! g
      = Some (DeliveryService.MkGroupState (epoch G + 1) (DeliveryService.members st))
    ∧ ∀ r, r ∈ DeliveryService.members st →
        DeliveryService.delivery_record g n (epoch G) b r
        ∈ queue (DeliveryService.commit_inboxes (delivery s')) r.
Proof.
  intros Hstart HG Hclear g n Hg Hst Hmode He.
  destruct (post_commit_twice hex_encode iteration s G n b st ds_url w1 HG eq_refl Hg Hst Hmode He)
    as (s' & m & Hrun & Hpost).
  exists s'. unfold try_start_intent. rewrite run_M, Hstart. cbn [run].
  rewrite run_M, Hrun, run_M. unfold update at 1, rollback_pending_commit, the_group.
  rewrite HG, Hclear. cbn. by do 2 eexists.
Qed.

(** *** Examples *)

(** Alice alone in her group, registered at the service. *)
Definition alice_alone : toy_world := do_command toy_start ("alice", CreateGroup, None).

Definition alice : WorkerState :=
  match (alice_alone.2 !! "alice" : option toy_thread) with
  | Some (Idle w) => w
  | _ => toy_worker "alice"
  end.

Lemma update_outcome_witness :
  group (client alice) = Some (MkToyGroup ("alice", 0, [(0, "alice")]) None)
  ∧ (run (reliable Client.hex_encode log_order) alice_alone.1
       (update_ds_group_state "http://ds" alice)).2 = (alice, Ok tt).
Proof.
  assert (HG : group (client alice) = Some (MkToyGroup ("alice", 0, [(0, "alice")]) None))
    by (by vm_compute).
  split; [exact HG|].
  pose proof (update_outcome Client.hex_encode log_order alice_alone.1 alice _ "http://ds" HG
                eq_refl I I) as H.
  specialize (H ltac:(by vm_compute)). cbv zeta in H.
  destruct (run _ _ _) as [s' [w' r]]. destruct H as (-> & _ & H). cbn [snd].
  f_equal. revert H. vm_compute (_ !! _). intros [_ H]. by apply H.
Defined.

(** Alice's update, prepared. *)
Definition alice_prepared : WorkerState * result Error bytes :=
  match start_commit IntentSelfUpdate alice with Ret wr => wr | _ => (alice, Err []) end.

Definition alice_commit : bytes := to_bytes (A := ToyView) ("alice", 0, [(0, "alice")]).

(** Her update is accepted, and lost. *)
Lemma lost_response_rolls_back_witness :
  (start_commit IntentSelfUpdate alice = Ret (alice_prepared.1, Ok alice_commit)
   ∧ DeliveryService.groups (delivery alice_alone.1) !! Client.hex_encode [Byte.x61; Byte.x6c; Byte.x69; Byte.x63; Byte.x65]
     = Some (DeliveryService.MkGroupState 0 ["alice"]))
  ∧ ∃ (s' : Servers) (w' : WorkerState),
      group (client w') = Some (MkToyGroup ("alice", 0, [(0, "alice")]) None)
      ∧ DeliveryService.groups (delivery s') !! Client.hex_encode [Byte.x61; Byte.x6c; Byte.x69; Byte.x63; Byte.x65]
        = Some (DeliveryService.MkGroupState 1 ["alice"])
      ∧ queue (DeliveryService.commit_inboxes (delivery s')) "alice" ≠ [].
Proof.
  assert (Hs : start_commit IntentSelfUpdate alice = Ret (alice_prepared.1, Ok alice_commit))
    by vm_cast_no_check (eq_refl (start_commit IntentSelfUpdate alice)).
  assert (HG : group (client alice_prepared.1)
    = Some (MkToyGroup ("alice", 0, [(0, "alice")]) (Some ("alice", 1, [(0, "alice")]))))
    by (by vm_compute).
  set (g := Client.hex_encode [Byte.x61; Byte.x6c; Byte.x69; Byte.x63; Byte.x65]).
  assert (Hg : DeliveryService.groups (delivery alice_alone.1) !! g
    = Some (DeliveryService.MkGroupState 0 ["alice"])) by (by vm_compute).
  split; [split; [exact Hs|exact Hg]|].
  pose proof (lost_response_rolls_back Client.hex_encode log_order alice_alone.1 alice
    alice_prepared.1 IntentSelfUpdate alice_commit _ tt
    (MkToyGroup ("alice", 0, [(0, "alice")]) None)
    (DeliveryService.MkGroupState 0 ["alice"]) "http://ds" Hs HG) as H.
  replace (name (client alice_prepared.1)) with "alice" in H by (by vm_compute).
  destruct (H ltac:(by vm_compute) ltac:(exact Hg) eq_refl ltac:(by vm_compute) ltac:(by vm_compute))
    as (s' & w' & m & _ & HG' & _ & Hg' & Hq).
  exists s', w'. split; [exact HG'|]. split; [exact Hg'|].
  intros E. specialize (Hq "alice" (proj2 (list_elem_of_singleton _ _) eq_refl)).
  rewrite E in Hq. by apply not_elem_of_nil in Hq.
Defined.
