(* ===== verification/CommandCache.v ===== *)
(** * The cache of completed commands

    [CompletedCommandCache] of [worker_api.rs]: the responses of commands that carried a
    request id, at most [max_entries] of them and each for at most [ttl], so that a
    request sent again is answered without being executed again.  The readings of the
    clock are arguments.  [cache_contract] describes the cache by the log of all
    completions. *)

From S2P Require Import Prelude.
From stdpp Require Import options.

Local Open Scope N_scope.

Record CommandResponse := MkCommandResponse { status : string; message : string }.

Definition ok_response (m : string) : CommandResponse := MkCommandResponse "ok" m.
Definition error_response (m : string) : CommandResponse := MkCommandResponse "error" m.

Record CachedCommandResponse := MkCached { response : CommandResponse; completed_at : N }.

Record CompletedCommandCache := MkCache {
  entries : gmap string CachedCommandResponse;
  order : list string;
  max_entries : nat;
  ttl : N;
}.

Definition new (max_entries : nat) (ttl : N) : CompletedCommandCache := MkCache ∅ [] max_entries ttl.

Definition with_entries (c : CompletedCommandCache)
    (eo : gmap string CachedCommandResponse * list string) : CompletedCommandCache :=
  MkCache eo.1 eo.2 (max_entries c) (ttl c).

Definition expired (ttl now : N) (e : option CachedCommandResponse) : bool :=
  match e with Some cached => ttl <? now - completed_at cached | None => true end.

(** The loop of [prune_expired] *)
Fixpoint drop_expired (ttl now : N) (es : gmap string CachedCommandResponse) (ids : list string) :
    gmap string CachedCommandResponse * list string :=
  match ids with
  | id :: rest =>
      if expired ttl now (es !! id) then drop_expired ttl now (delete id es) rest else (es, ids)
  | [] => (es, [])
  end.

Definition prune_expired (now : N) (c : CompletedCommandCache) : CompletedCommandCache :=
  if ttl c =? 0 then with_entries c (∅, [])
  else with_entries c (drop_expired (ttl c) now (entries c) (order c)).

Definition get (now : N) (c : CompletedCommandCache) (request_id : string) :
    CompletedCommandCache * option CommandResponse :=
  let c := prune_expired now c in
  (c, response <$> entries c !! request_id).

(** The loop of [insert] *)
Fixpoint evict (max : nat) (es : gmap string CachedCommandResponse) (ids : list string) :
    gmap string CachedCommandResponse * list string :=
  if (max <? size es)%nat then
    match ids with
    | oldest :: rest => evict max (delete oldest es) rest
    | [] => (es, [])
    end
  else (es, ids).

(** [pruned_at] and [completed] are the two readings of the clock. *)
Definition insert (pruned_at completed : N) (c : CompletedCommandCache) (request_id : string)
    (r : CommandResponse) : CompletedCommandCache :=
  if (max_entries c =? 0)%nat then c
  else
    let c := prune_expired pruned_at c in
    let ids := if decide (is_Some (entries c !! request_id)) then order c
               else order c ++ [request_id] in
    with_entries c (evict (max_entries c) (<[request_id := MkCached r completed]> (entries c)) ids).

(** ** The cache as a list *)

(** A completion: the request id, its response and when it completed. *)
Abbreviation completion := (string * CachedCommandResponse)%type.

(** The cache holds exactly these completions, oldest first. *)
Definition holds (c : CompletedCommandCache) (l : list completion) : Prop :=
  NoDup l.*1 ∧ order c = l.*1 ∧ entries c = list_to_map l.

Definition fresh_at (ttl now : N) (p : completion) : bool := negb (expired ttl now (Some p.2)).

Fixpoint drop_old (ttl now : N) (l : list completion) : list completion :=
  match l with
  | p :: rest => if fresh_at ttl now p then l else drop_old ttl now rest
  | [] => []
  end.

Lemma drop_expired_list ttl now l :
  NoDup l.*1 →
  drop_expired ttl now (list_to_map l) l.*1
  = (list_to_map (drop_old ttl now l), (drop_old ttl now l).*1).
Proof.
  induction l as [|[id e] l IH]; cbn; [done|]. intros [Hid Hl]%NoDup_cons.
  rewrite lookup_insert_eq. unfold fresh_at. cbn. destruct (ttl <? now - completed_at e); [|done].
  cbn. rewrite delete_insert_id; [by apply IH|]. by apply not_elem_of_list_to_map_1.
Qed.

Lemma evict_list max l :
  NoDup l.*1 →
  evict max (list_to_map l) l.*1
  = (list_to_map (drop (length l - max) l), (drop (length l - max) l).*1).
Proof.
  induction l as [|[id e] l IH]; intros Hl.
  - cbn [fmap list_fmap evict]. by destruct (_ <? _)%nat.
  - cbn [evict fmap list_fmap fst]. rewrite map_size_list_to_map by done. cbn [length].
    destruct (Nat.ltb_spec max (S (length l))) as [Hlt|Hge].
    + replace (S (length l) - max)%nat with (S (length l - max)) by lia. cbn [drop].
      apply NoDup_cons in Hl as [Hid Hl]. cbn [list_to_map foldr fst snd uncurry].
      rewrite delete_insert_id; [by apply IH|]. by apply not_elem_of_list_to_map_1.
    + by replace (S (length l) - max)%nat with 0%nat by lia.
Qed.

Lemma holds_new max ttl : holds (new max ttl) [].
Proof. split_and!; [apply NoDup_nil_2|done..]. Qed.

Lemma NoDup_fst_suffix (l k : list completion) : l `suffix_of` k → NoDup k.*1 → NoDup l.*1.
Proof. intros [j ->]. rewrite fmap_app, NoDup_app. by intros (_ & _ & ?). Qed.

Lemma elem_of_fst_suffix (l k : list completion) id : l `suffix_of` k → id ∈ l.*1 → id ∈ k.*1.
Proof. intros [j ->]. rewrite fmap_app, elem_of_app. by right. Qed.

Lemma drop_old_suffix ttl now l : drop_old ttl now l `suffix_of` l.
Proof. induction l as [|p l IH]; cbn; [done|]. case_match; [done|]. by apply suffix_cons_r. Qed.

Lemma holds_prune now c l :
  holds c l → ttl c ≠ 0 → holds (prune_expired now c) (drop_old (ttl c) now l).
Proof.
  intros (Hl & Ho & He) Ht. unfold prune_expired.
  rewrite (proj2 (N.eqb_neq _ _)) by done. rewrite Ho, He, drop_expired_list by done.
  split_and!; [|done..]. by eapply NoDup_fst_suffix, Hl; apply drop_old_suffix.
Qed.

Lemma prune_settings now c :
  ttl (prune_expired now c) = ttl c ∧ max_entries (prune_expired now c) = max_entries c.
Proof. unfold prune_expired. by case_match. Qed.

Lemma insert_settings t1 t2 c id r :
  ttl (insert t1 t2 c id r) = ttl c ∧ max_entries (insert t1 t2 c id r) = max_entries c.
Proof. unfold insert. case_match; [done|]. cbn. by destruct (prune_settings t1 c) as [-> ->]. Qed.

(** A completion of a request that is not in the cache *)
Lemma holds_insert t1 t2 c l id r :
  holds c l → ttl c ≠ 0 → max_entries c ≠ 0%nat → id ∉ l.*1 →
  let l' := drop_old (ttl c) t1 l ++ [(id, MkCached r t2)] in
  holds (insert t1 t2 c id r) (drop (length l' - max_entries c) l').
Proof.
  intros Hh Ht Hmax Hid l'. unfold insert. rewrite (proj2 (Nat.eqb_neq _ _)) by done.
  destruct (prune_settings t1 c) as [Htt Hmm].
  pose proof (holds_prune t1 _ _ Hh Ht) as (Hl1 & Ho1 & He1).
  assert (Hid1 : id ∉ (drop_old (ttl c) t1 l).*1).
  { intros Hin. apply Hid. by eapply elem_of_fst_suffix, Hin; apply drop_old_suffix. }
  rewrite decide_False by
    (rewrite He1; intros [? Hs]; by rewrite not_elem_of_list_to_map_1 in Hs).
  rewrite Hmm, Ho1, He1, <-list_to_map_snoc by done.
  assert (Hl' : NoDup l'.*1).
  { unfold l'. rewrite fmap_app. apply NoDup_app. split_and!; [done| |apply NoDup_singleton].
    intros x Hx Hin%list_elem_of_singleton. cbn in Hin. by subst. }
  replace ((drop_old (ttl c) t1 l).*1 ++ [id]) with l'.*1 by (unfold l'; by rewrite fmap_app).
  fold l'. rewrite evict_list by done. split_and!; [|done..].
  eapply NoDup_fst_suffix, Hl'. apply suffix_drop.
Qed.

(** What the cache answers *)
Definition about (id : string) (l : list completion) : list completion :=
  filter (λ p : completion, p.1 = id) l.

Lemma about_absent id l : id ∉ l.*1 → about id l = [].
Proof.
  unfold about. induction l as [|p l IH]; cbn [fmap list_fmap]; [done|].
  intros [Hp Hl]%not_elem_of_cons. rewrite filter_cons, decide_False by done. by apply IH.
Qed.

Lemma holds_lookup c l id : holds c l → entries c !! id = snd <$> last (about id l).
Proof.
  intros (Hl & _ & ->). clear c. induction l as [|[id' e] l IH]; [done|].
  apply NoDup_cons in Hl as [Hid Hl]. unfold about. rewrite filter_cons.
  cbn [fst list_to_map foldr uncurry snd]. fold (about id l). case_decide as E.
  - subst id'. rewrite lookup_insert_eq, about_absent by done. done.
  - rewrite lookup_insert_ne by done. by apply IH.
Qed.

(** ** The log of completions *)

(** The completion of [id] still remembered at [now]: the last one among the last
    [max] of all completions, unless it is too old. *)
Definition remembered (max : nat) (ttl now : N) (log : list completion) (id : string) :
    option CommandResponse :=
  if ttl =? 0 then None
  else
    response ∘ snd <$>
      last (about id (filter (λ p, fresh_at ttl now p) (drop (length log - max) log))).

(** A request the actor serves: asked of the cache, executed if it has to be, and
    stored, with the readings of the clock. *)
Record Served := MkServed {
  request_id : string;
  result_if_run : CommandResponse;
  asked : N;
  pruned_at : N;
  completed : N;
}.

Definition cached_step (c : CompletedCommandCache) (q : Served) :
    CompletedCommandCache * CommandResponse :=
  let '(c, known) := get (asked q) c (request_id q) in
  match known with
  | Some r => (c, r)
  | None => (insert (pruned_at q) (completed q) c (request_id q) (result_if_run q), result_if_run q)
  end.

Definition logged_step (max : nat) (ttl : N) (log : list completion) (q : Served) :
    list completion * CommandResponse :=
  match remembered max ttl (asked q) log (request_id q) with
  | Some r => (log, r)
  | None => (log ++ [(request_id q, MkCached (result_if_run q) (completed q))], result_if_run q)
  end.

(** The answers to a sequence of requests *)
Fixpoint answers {S} (step : S → Served → S * CommandResponse) (st : S) (qs : list Served) :
    list CommandResponse :=
  match qs with
  | [] => []
  | q :: qs => let '(st, r) := step st q in r :: answers step st qs
  end.

(** The clock does not go back. *)
Fixpoint in_order (now : N) (qs : list Served) : Prop :=
  match qs with
  | [] => True
  | q :: qs => now <= asked q <= pruned_at q ∧ pruned_at q <= completed q ∧ in_order (completed q) qs
  end.

(** *** The log and the cache *)

Definition by_time : relation completion := λ p q, completed_at p.2 <= completed_at q.2.

Lemma fresh_spec ttl now p : Is_true (fresh_at ttl now p) ↔ now - completed_at p.2 <= ttl.
Proof. unfold fresh_at, expired. destruct (N.ltb_spec ttl (now - completed_at p.2)); cbn; split; (done || lia). Qed.

Lemma fresh_later ttl now p q :
  by_time p q → Is_true (fresh_at ttl now p) → Is_true (fresh_at ttl now q).
Proof. rewrite !fresh_spec. unfold by_time. lia. Qed.

Lemma sorted_fresh ttl now p l :
  StronglySorted by_time (p :: l) → Is_true (fresh_at ttl now p) →
  filter (λ p, fresh_at ttl now p) l = l.
Proof.
  intros [_ Hl]%StronglySorted_inv Hp. apply filter_all_true.
  eapply Forall_impl; [exact Hl|]. intros q Hq. by eapply fresh_later.
Qed.

Lemma drop_old_filter ttl now l :
  StronglySorted by_time l → drop_old ttl now l = filter (λ p, fresh_at ttl now p) l.
Proof.
  induction l as [|p l IH]; intros Hl; [done|]. cbn [drop_old]. rewrite filter_cons.
  destruct (fresh_at ttl now p) eqn:E.
  - rewrite decide_True by done. f_equal. symmetry. eapply sorted_fresh; [exact Hl|by rewrite E].
  - rewrite decide_False by (by intros []). apply IH. by apply StronglySorted_inv in Hl as [].
Qed.

(** The last [max] completions *)
Definition latest (max : nat) (log : list completion) : list completion :=
  drop (length log - max) log.

(** Adding a completion and dropping what is too much keeps the fresh ones of the
    latest completions. *)
Lemma latest_snoc max ttl now log p :
  StronglySorted by_time (latest max log) → max ≠ 0%nat → Is_true (fresh_at ttl now p) →
  let l' := filter (λ p, fresh_at ttl now p) (latest max log) ++ [p] in
  drop (length l' - max) l' = filter (λ p, fresh_at ttl now p) (latest max (log ++ [p])).
Proof.
  intros Hsort Hmax Hp l'. unfold latest in *. rewrite length_app. cbn [length].
  assert (Hp' : filter (λ p, fresh_at ttl now p) [p] = [p]).
  { by rewrite filter_cons, decide_True. }
  destruct (decide (length log < max)%nat) as [Hlt|Hge].
  - unfold l'. replace (length log - max)%nat with 0%nat by lia.
    replace (length log + 1 - max)%nat with 0%nat by lia. rewrite !drop_0, filter_app, Hp'.
    pose proof (length_filter (λ p, Is_true (fresh_at ttl now p)) log).
    rewrite length_app. cbn [length]. by replace (_ - max)%nat with 0%nat by lia.
  - destruct (drop (length log - max) log) as [|x X] eqn:EX.
    { apply (f_equal length) in EX. rewrite length_drop in EX. cbn in EX. lia. }
    assert (HX : S (length X) = max).
    { apply (f_equal length) in EX. rewrite length_drop in EX. cbn in EX. lia. }
    replace (length log + 1 - max)%nat with (S (length log - max)) by lia.
    rewrite drop_app_le by lia. replace (drop (S (length log - max)) log) with X.
    2:{ rewrite <-Nat.add_1_r, <-drop_drop, EX. done. }
    rewrite filter_app, Hp'. unfold l'. rewrite filter_cons.
    case_decide as Hx.
    + rewrite (sorted_fresh ttl now x X) by done. rewrite length_app. cbn [length app].
      by replace (S (length X) + 1 - max)%nat with 1%nat by lia.
    + pose proof (length_filter (λ p, Is_true (fresh_at ttl now p)) X).
      rewrite length_app. cbn [length]. by replace (_ - max)%nat with 0%nat by lia.
Qed.

(** [c] is what the cache remembers of [log], pruned at [t]. *)
Record represents (now : N) (c : CompletedCommandCache) (log : list completion) : Prop := {
  rep_sorted : StronglySorted by_time log;
  rep_past : Forall (λ p : completion, completed_at p.2 <= now) log;
  rep_holds : ∃ t, t <= now
    ∧ holds c (filter (λ p, fresh_at (ttl c) t p) (latest (max_entries c) log));
}.

Lemma latest_sorted max log : StronglySorted by_time log → StronglySorted by_time (latest max log).
Proof.
  unfold latest. intros H. rewrite <-(take_drop (length log - max) log) in H.
  by apply StronglySorted_app_1_r in H.
Qed.

Lemma fresh_earlier ttl t now p :
  t <= now → Is_true (fresh_at ttl now p) → Is_true (fresh_at ttl t p).
Proof. rewrite !fresh_spec. lia. Qed.

(** Pruning again later keeps what is fresh then. *)
Lemma drop_old_again ttl t now X :
  StronglySorted by_time X → t <= now →
  drop_old ttl now (filter (λ p, fresh_at ttl t p) X) = filter (λ p, fresh_at ttl now p) X.
Proof.
  intros HX Ht. rewrite drop_old_filter.
  - apply list_filter_filter_l. intros p. by apply fresh_earlier.
  - rewrite <-drop_old_filter by done. destruct (drop_old_suffix ttl t X) as [k E].
    rewrite E in HX. by apply StronglySorted_app_1_r in HX.
Qed.

Lemma represents_prune now now' c log :
  represents now c log → now <= now' → ttl c ≠ 0 →
  holds (prune_expired now' c) (filter (λ p, fresh_at (ttl c) now' p) (latest (max_entries c) log)).
Proof.
  intros [Hs _ (t & Ht & Hh)] Hnow Httl.
  rewrite <-(drop_old_again _ t) by (by apply latest_sorted || lia). by apply holds_prune.
Qed.

Lemma represents_later now now' c log : represents now c log → now <= now' → represents now' c log.
Proof.
  intros [Hs Hp (t & Ht & Hh)] Hle. split; [done| |].
  - eapply Forall_impl; [exact Hp|]. cbn. lia.
  - exists t. split; [lia|done].
Qed.

Lemma represents_snoc t1 t2 c log id r :
  represents t1 c log → t1 <= t2 → ttl c ≠ 0 → entries c !! id = None →
  represents t2 (insert t1 t2 c id r) (log ++ [(id, MkCached r t2)]).
Proof.
  intros Hrep Ht Httl Hid. destruct (Hrep) as [Hs Hp (t & Hle & Hh)].
  split.
  - apply StronglySorted_app_2; [|done|by repeat constructor].
    intros p q Hpl ->%list_elem_of_singleton. unfold by_time. cbn.
    rewrite Forall_forall in Hp. specialize (Hp p Hpl). cbn in Hp. lia.
  - apply Forall_app. split; [eapply Forall_impl; [exact Hp|]; cbn; lia|].
    apply Forall_singleton. cbn. lia.
  - exists t1. split; [done|]. destruct (insert_settings t1 t2 c id r) as [-> ->].
    destruct (decide (max_entries c = 0%nat)) as [E|Hmax].
    + unfold insert. rewrite E in *. cbn [Nat.eqb]. unfold latest in *.
      rewrite Nat.sub_0_r, drop_all in *. exact Hh.
    + rewrite <-latest_snoc; [|by apply latest_sorted|done|apply fresh_spec; cbn; lia].
      rewrite <-(drop_old_again _ t) by (by apply latest_sorted || done).
      apply holds_insert; [done..|].
      intros Hin. destruct Hh as (Hnd & _ & He). rewrite He in Hid.
      by apply not_elem_of_list_to_map_2 in Hid.
Qed.

Lemma cached_step_logged now c log q :
  represents now c log → ttl c ≠ 0 →
  now <= asked q <= pruned_at q → pruned_at q <= completed q →
  let '(c', r) := cached_step c q in
  let '(log', r') := logged_step (max_entries c) (ttl c) log q in
  r = r' ∧ represents (completed q) c' log' ∧ ttl c' = ttl c ∧ max_entries c' = max_entries c.
Proof.
  intros Hrep Httl Ha Hc. unfold cached_step, logged_step, get, remembered.
  rewrite (proj2 (N.eqb_neq _ _)) by done.
  pose proof (represents_prune _ (asked q) _ _ Hrep ltac:(lia) Httl) as Hh.
  destruct (prune_settings (asked q) c) as [Htt Hmm].
  assert (Hrep' : represents (asked q) (prune_expired (asked q) c) log).
  { destruct (represents_later _ (asked q) _ _ Hrep ltac:(lia)) as [? ? _]. split; [done..|].
    exists (asked q). split; [done|]. by rewrite Htt, Hmm. }
  pose proof (holds_lookup _ _ (request_id q) Hh) as Hl. unfold latest in Hl.
  revert Hl. set (o := last _). intros Hl. rewrite Hl.
  destruct o as [[i e]|]; cbn.
  - split_and!; [done| |done..]. eapply represents_later; [exact Hrep'|lia].
  - pose proof (insert_settings (pruned_at q) (completed q) (prune_expired (asked q) c)
      (request_id q) (result_if_run q)) as [Hs1 Hs2].
    split_and!; [done| |congruence..].
    apply represents_snoc; [|lia|by rewrite Htt|by rewrite Hl].
    eapply represents_later; [exact Hrep'|lia].
Qed.

(** A cache that remembers nothing *)
Lemma cached_step_forgets c q : ttl c = 0 →
  (cached_step c q).2 = result_if_run q ∧ ttl (cached_step c q).1 = 0.
Proof.
  intros H. unfold cached_step, get.
  replace (prune_expired (asked q) c) with (with_entries c (∅, []))
    by (unfold prune_expired; by rewrite H).
  cbn [entries with_entries fst]. rewrite lookup_empty. split; [done|].
  exact (eq_trans (proj1 (insert_settings (pruned_at q) (completed q) (with_entries c (∅, [])) _ _)) H).
Qed.

Lemma answers_logged qs : ∀ now c log,
  represents now c log → ttl c ≠ 0 → in_order now qs →
  answers cached_step c qs = answers (logged_step (max_entries c) (ttl c)) log qs.
Proof.
  induction qs as [|q qs IH]; intros now c log Hrep Httl; [done|]. intros (Ha & Hc & Hqs).
  pose proof (cached_step_logged _ _ _ q Hrep Httl Ha Hc) as H. cbn [answers].
  destruct (cached_step c q) as [c' r], (logged_step _ _ log q) as [log' r'].
  destruct H as (-> & Hrep' & Ht & Hm). f_equal. rewrite <-Ht, <-Hm.
  apply (IH (completed q)); [done|by rewrite Ht|done].
Qed.

Lemma answers_forget qs max : ∀ c log,
  ttl c = 0 → answers cached_step c qs = answers (logged_step max 0) log qs.
Proof.
  induction qs as [|q qs IH]; intros c log Ht; [done|]. cbn [answers].
  pose proof (cached_step_forgets c q Ht) as [Hr Ht'].
  destruct (cached_step c q) as [c' r]. unfold logged_step at 1, remembered. cbn in *.
  subst r. f_equal. by apply IH.
Qed.

(** the cache of completed commands implements its specification over the log of all
    completions.  For requests served in the order of the clock, it answers exactly as
    if every completion were logged and a request were answered from the log when the
    last completion with its id is among the last [max_entries] completions and at most
    [ttl] old: the order queue, the pruning of expired prefixes and the eviction of the
    oldest entry neither lose nor keep anything else. *)
Theorem cache_contract max ttl now qs :
  in_order now qs →
  answers cached_step (new max ttl) qs = answers (logged_step max ttl) [] qs.
Proof.
  intros Hqs. destruct (decide (ttl = 0)) as [->|Ht]; [by apply answers_forget|].
  change (logged_step max ttl) with
    (logged_step (max_entries (new max ttl)) (CommandCache.ttl (new max ttl))).
  eapply answers_logged; [|done|exact Hqs]. split; [constructor|done|].
  exists now. split; [done|]. apply holds_new.
Qed.

(** Two entries, kept for 10: "a" is remembered at 9, then evicted by "c". *)
Definition toy_requests : list Served :=
  [MkServed "a" (ok_response "1") 1 1 2; MkServed "b" (ok_response "2") 3 3 4;
   MkServed "a" (ok_response "3") 9 9 9; MkServed "c" (ok_response "4") 10 10 10;
   MkServed "a" (ok_response "5") 11 11 11; MkServed "c" (ok_response "6") 25 25 25].

Lemma cache_contract_witness :
  in_order 0 toy_requests
  ∧ answers cached_step (new 2 10) toy_requests
    = ok_response <$> ["1"; "2"; "1"; "4"; "5"; "6"].
Proof.
  assert (H : in_order 0 toy_requests) by (cbn; lia).
  split; [exact H|]. rewrite (cache_contract 2 10 0 toy_requests H). vm_compute. reflexivity.
Defined.
