(* ===== verification/WorkerActor.v ===== *)
(** * The command actor of a worker

    [client_command_actor] of [bin/worker.rs]: the one task that owns a client's slot and
    executes the commands sent to it one after the other, answering a request whose id
    is in the cache of completed commands without executing it again.  [resent_once]
    states that sending requests again is harmless while the cache remembers them. *)

From S2P Require Import Prelude Text Interaction HttpRetry Client WorkerHttp Worker Network.
From S2P Require Import ToyMls GroupAgreement.
From S2P Require CommandCache.
From stdpp Require Import options.

Local Open Scope N_scope.

Abbreviation CommandResponse := CommandCache.CommandResponse.

Section actor.
Context {lib : MlsLibrary} {extern : Externals}.

(** The command with what its execution is measured to do: the message of the heap
    budget tracker when the operation exceeded its budget, and the canonical profile
    total that was expected and not persisted. *)
Record Envelope := MkEnvelope {
  request_id : option string;
  command : Command;
  expected_epoch : option N;
  budget_failure : option string;
  unpersisted_total : option string;
}.

Record ClientSlot := MkSlot {
  worker : WorkerState;
  response_cache : CommandCache.CompletedCommandCache;
}.

(** [response_cache.get(..)], reading the clock when something can expire *)
Definition cache_get (c : CommandCache.CompletedCommandCache) (id : string) :
    prog Effect (CommandCache.CompletedCommandCache * option CommandResponse) :=
  if CommandCache.ttl c =? 0 then Ret (CommandCache.get 0 c id)
  else now ← trigger Now; Ret (CommandCache.get now c id).

Definition cache_insert (c : CommandCache.CompletedCommandCache) (id : string)
    (r : CommandResponse) : prog Effect CommandCache.CompletedCommandCache :=
  if (CommandCache.max_entries c =? 0)%nat then Ret c
  else if CommandCache.ttl c =? 0 then
    completed ← trigger Now; Ret (CommandCache.insert 0 completed c id r)
  else
    now ← trigger Now; completed ← trigger Now; Ret (CommandCache.insert now completed c id r).

(** What the measurements make of a result. *)
Definition checked_result (e : Envelope) (r : result Error string) : result Error string :=
  let r := match budget_failure e with Some text => Err (anyhow text) | None => r end in
  match r, unpersisted_total e with
  | Ok message, Some op =>
      if contains "queued for retry" message then Ok message
      else Err (anyhow ("PROFILE_MEASUREMENT_NOT_PERSISTED: canonical_op=" +:+ op
                        +:+ " requires positive cpu_process_ns and alloc_bytes"))
  | r, _ => r
  end.

Definition to_response (r : result Error string) : CommandResponse :=
  match r with
  | Ok message => CommandCache.ok_response message
  | Err err => CommandCache.error_response (display err)
  end.

(** Execute the command; [None] when [fuel] turns of its receive loop are not enough. *)
Definition execute (fuel : nat) (ds_url relay_url : string) (w : WorkerState) (e : Envelope) :
    prog Effect (WorkerState * option CommandResponse) :=
  '(w, r) ← handle_command fuel ds_url relay_url (command e) (expected_epoch e) w;
  mret (w, match r with
           | Ok None => None
           | Ok (Some message) => Some (to_response (checked_result e (Ok message)))
           | Err err => Some (to_response (checked_result e (Err err)))
           end).

(** One turn of the actor's loop *)
Definition serve_envelope (fuel : nat) (ds_url relay_url : string) (slot : ClientSlot)
    (e : Envelope) : prog Effect (ClientSlot * option CommandResponse) :=
  '(c, known) ← match request_id e with
                | Some id => cache_get (response_cache slot) id
                | None => Ret (response_cache slot, None)
                end;
  match known with
  | Some r => mret (MkSlot (worker slot) c, Some r)
  | None =>
      '(w, answer) ← execute fuel ds_url relay_url (worker slot) e;
      match answer, request_id e with
      | Some r, Some id => c ← cache_insert c id r; mret (MkSlot w c, Some r)
      | answer, _ => mret (MkSlot w c, answer)
      end
  end.

(** The loop over the envelopes received, with the responses sent; it stops at a
    command that does not end. *)
Fixpoint client_command_actor (fuel : nat) (ds_url relay_url : string) (slot : ClientSlot)
    (es : list Envelope) : prog Effect (ClientSlot * list CommandResponse) :=
  match es with
  | [] => mret (slot, [])
  | e :: es =>
      '(slot, answer) ← serve_envelope fuel ds_url relay_url slot e;
      match answer with
      | Some r =>
          '(slot, rs) ← client_command_actor fuel ds_url relay_url slot es;
          mret (slot, r :: rs)
      | None => mret (slot, [])
      end
  end.

(** ** Executing each request once *)

(** The same loop with a perfect memory: [answered] has the response of every request id
    executed so far. *)
Fixpoint execute_once (fuel : nat) (ds_url relay_url : string)
    (answered : gmap string CommandResponse) (w : WorkerState) (es : list Envelope) :
    prog Effect (WorkerState * list CommandResponse) :=
  match es with
  | [] => mret (w, [])
  | e :: es =>
      match request_id e ≫= λ id, answered !! id with
      | Some r =>
          '(w, rs) ← execute_once fuel ds_url relay_url answered w es; mret (w, r :: rs)
      | None =>
          '(w, answer) ← execute fuel ds_url relay_url w e;
          match answer with
          | Some r =>
              let answered := match request_id e with
                              | Some id => <[id := r]> answered
                              | None => answered
                              end in
              '(w, rs) ← execute_once fuel ds_url relay_url answered w es; mret (w, r :: rs)
          | None => mret (w, [])
          end
      end
  end.

(** The ids that are or will be in the cache *)
Definition known_ids (answered : gmap string CommandResponse) (es : list Envelope) : gset string :=
  dom answered ∪ list_to_set (omap request_id es).

Lemma known_ids_skip answered e es :
  known_ids answered es ⊆ known_ids answered (e :: es).
Proof. unfold known_ids. cbn. destruct (request_id e); set_solver. Qed.

Lemma known_ids_insert answered e es id r :
  request_id e = Some id → known_ids (<[id := r]> answered) es = known_ids answered (e :: es).
Proof. unfold known_ids. cbn. intros ->. cbn. set_solver. Qed.

Lemma known_ids_room answered e es id :
  request_id e = Some id → answered !! id = None →
  (size answered < size (known_ids answered (e :: es)))%nat.
Proof.
  intros He Hid. rewrite <-(size_dom answered).
  apply subset_size. unfold known_ids. cbn. rewrite He. cbn.
  split; [set_solver|]. intros H. apply not_elem_of_dom in Hid. apply Hid, H. set_solver.
Qed.

(** *** A handler whose clock stays within the cache's time to live *)
Section run.
Context {W : Type} (h : ∀ X, W → Effect X → W * X) (t0 ttl : N) (max : nat).
Context (clock : ∀ w, (h N w Now).1 = w ∧ t0 <= (h N w Now).2 <= t0 + ttl).
Context (remembers : ttl ≠ 0) (room : max ≠ 0%nat).

(** The cache holds exactly the answers. *)
Record caches (c : CommandCache.CompletedCommandCache) (answered : gmap string CommandResponse) :
    Prop := {
  caches_ttl : CommandCache.ttl c = ttl;
  caches_max : CommandCache.max_entries c = max;
  caches_list : ∃ l, CommandCache.holds c l
    ∧ Forall (λ p, t0 <= CommandCache.completed_at p.2) l
    ∧ answered = CommandCache.response <$> list_to_map l;
}.

Lemma fresh_always now l :
  now <= t0 + ttl → Forall (λ p : CommandCache.completion, t0 <= CommandCache.completed_at p.2) l →
  CommandCache.drop_old ttl now l = l.
Proof using remembers room.
  intros Hnow Hl. destruct Hl as [|p l Hp Hl]; [done|]. cbn.
  assert (Hf : Is_true (CommandCache.fresh_at ttl now p)) by (apply CommandCache.fresh_spec; lia).
  by destruct (CommandCache.fresh_at ttl now p).
Qed.

Lemma caches_prune now c answered :
  now <= t0 + ttl → caches c answered →
  caches (CommandCache.prune_expired now c) answered.
Proof using remembers room.
  intros Hnow [Ht Hm (l & Hh & Hl & ->)].
  destruct (CommandCache.prune_settings now c) as [E1 E2].
  split; [congruence..|]. exists l. split; [|done].
  pose proof (CommandCache.holds_prune now c l Hh ltac:(congruence)) as H.
  rewrite Ht, fresh_always in H by done. done.
Qed.

Lemma caches_lookup c answered id :
  caches c answered → CommandCache.response <$> CommandCache.entries c !! id = answered !! id.
Proof. intros [_ _ (l & (_ & _ & ->) & _ & ->)]. by rewrite lookup_fmap. Qed.

Lemma run_cache_get s c answered id :
  caches c answered →
  ∃ c', run h s (cache_get c id) = (s, (c', answered !! id)) ∧ caches c' answered.
Proof using clock remembers room.
  intros Hc. unfold cache_get. rewrite (caches_ttl _ _ Hc), (proj2 (N.eqb_neq _ _)) by done.
  rewrite run_bind. cbn. destruct (clock s) as [Hs Hn]. destruct (h N s Now) as [s' now].
  cbn in Hs, Hn. subst s'. pose proof (caches_prune now c answered ltac:(lia) Hc) as Hp.
  eexists. split; [|exact Hp]. by rewrite <-(caches_lookup _ _ id Hp).
Qed.

Lemma run_cache_insert s c answered id r :
  caches c answered → answered !! id = None → (size answered < max)%nat →
  ∃ c', run h s (cache_insert c id r) = (s, c') ∧ caches c' (<[id := r]> answered).
Proof using clock remembers room.
  intros Hc Hid Hsize. unfold cache_insert.
  rewrite (caches_ttl _ _ Hc), (caches_max _ _ Hc), (proj2 (N.eqb_neq _ _)), (proj2 (Nat.eqb_neq _ _))
    by done.
  rewrite run_bind. cbn. destruct (clock s) as [Hs Hn]. destruct (h N s Now) as [s' now] eqn:E.
  cbn in Hs, Hn. subst s'. rewrite E. eexists. split; [done|].
  destruct Hc as [Ht Hm (l & Hh & Hl & ->)].
  destruct (CommandCache.insert_settings now now c id r) as [E1 E2].
  assert (Hid' : id ∉ l.*1).
  { rewrite lookup_fmap in Hid. apply fmap_None, not_elem_of_list_to_map_2 in Hid. done. }
  pose proof (CommandCache.holds_insert now now c l id r Hh ltac:(congruence) ltac:(congruence) Hid')
    as H.
  cbv zeta in H. rewrite Ht, Hm, fresh_always in H by (done || lia).
  rewrite map_size_fmap, map_size_list_to_map in Hsize by apply Hh.
  rewrite length_app in H. cbn [length] in H.
  replace (length l + 1 - max)%nat with 0%nat in H by lia. rewrite drop_0 in H.
  split; [congruence..|]. eexists. split; [exact H|]. split.
  - apply Forall_app. split; [done|]. apply Forall_singleton. cbn. lia.
  - by rewrite list_to_map_snoc, fmap_insert.
Qed.

(** The rest of the two loops, by the induction hypothesis [IH]. *)
Ltac both_run IH :=
  destruct (run h _ (client_command_actor _ _ _ _ _)) as [? [? ?]];
  destruct (run h _ (execute_once _ _ _ _ _ _)) as [? [? ?]];
  cbn; destruct IH as (-> & -> & ->).

Lemma run_actor fuel ds_url relay_url es : ∀ s c answered w,
  caches c answered → (size (known_ids answered es) <= max)%nat →
  let '(s1, (slot, rs)) := run h s (client_command_actor fuel ds_url relay_url (MkSlot w c) es) in
  let '(s2, (w', rs')) := run h s (execute_once fuel ds_url relay_url answered w es) in
  s1 = s2 ∧ worker slot = w' ∧ rs = rs'.
Proof using clock remembers room.
  induction es as [|e es IH]; intros s c answered w Hc Hsize; [done|].
  cbn [client_command_actor execute_once]. unfold serve_envelope. cbn [worker response_cache].
  rewrite !run_bind.
  assert (Hlook : ∃ c', run h s match request_id e with Some id => cache_get c id
                                | None => Ret (c, None) end
                        = (s, (c', request_id e ≫= λ id, answered !! id)) ∧ caches c' answered).
  { destruct (request_id e) as [id|]; [by apply run_cache_get|by exists c]. }
  destruct Hlook as (c' & -> & Hc').
  destruct (request_id e ≫= _) as [r|] eqn:Hans.
  - cbn [run mret prog_ret]. rewrite !run_bind.
    assert (Hs : (size (known_ids answered es) <= max)%nat).
    { etrans; [|exact Hsize]. apply subseteq_size, known_ids_skip. }
    specialize (IH s c' answered w Hc' Hs).
    by both_run IH.
  - rewrite !run_bind.
    destruct (run h s (execute fuel ds_url relay_url w e)) as [s' [w' [r|]]]; [|by destruct (request_id e)].
    destruct (request_id e) as [id|] eqn:Hid; cbn in Hans.
    + rewrite run_bind. pose proof (known_ids_room answered e es id Hid Hans) as Hroom.
      destruct (run_cache_insert s' c' answered id r Hc' Hans ltac:(lia)) as (c2 & -> & Hc2).
      cbn [run mret prog_ret]. rewrite !run_bind.
      rewrite <-(known_ids_insert _ _ _ _ r Hid) in Hsize.
      specialize (IH s' c2 _ w' Hc2 Hsize).
      by both_run IH.
    + cbn [run mret prog_ret]. rewrite !run_bind.
      assert (Hs : (size (known_ids answered es) <= max)%nat).
      { etrans; [|exact Hsize]. apply subseteq_size, known_ids_skip. }
      specialize (IH s' c' answered w' Hc' Hs).
      by both_run IH.
Qed.
End run.
End actor.

(** C17: sending requests again is harmless.  While the cache remembers every request -
    the clock stays within its time to live and the requests' distinct ids fit in it -
    the actor's run is exactly the run that executes each request id once, at its first
    envelope, and answers every later envelope with the response of that execution: the
    worker, the servers and everything else the effects reach end in the same state,
    and the responses are the same.  Envelopes without an id are always executed. *)
Theorem resent_once {lib : MlsLibrary} {extern : Externals} {W} (h : ∀ X, W → Effect X → W * X)
    t0 ttl max fuel ds_url relay_url s w es :
  (∀ v, (h N v Now).1 = v ∧ t0 <= (h N v Now).2 <= t0 + ttl) →
  ttl ≠ 0 → max ≠ 0%nat →
  (size (list_to_set (omap request_id es) : gset string) <= max)%nat →
  let '(s1, (slot, rs)) :=
    run h s (client_command_actor fuel ds_url relay_url (MkSlot w (CommandCache.new max ttl)) es) in
  let '(s2, (w', rs')) := run h s (execute_once fuel ds_url relay_url ∅ w es) in
  s1 = s2 ∧ worker slot = w' ∧ rs = rs'.
Proof.
  intros Hclock Httl Hmax Hsize. eapply run_actor; [exact Hclock|done|done| |].
  - split; [done..|]. exists []. split; [apply CommandCache.holds_new|]. split; [done|].
    cbn. by rewrite fmap_empty.
  - unfold known_ids. by rewrite dom_empty_L, union_empty_l_L.
Qed.

(** Alice creates her group; the request is sent twice, then again after an update. *)
Definition resent : list Envelope :=
  let create := MkEnvelope (Some "1") CreateGroup None None None in
  [create; create; MkEnvelope (Some "2") SelfUpdate None None None; create].

Definition toy_actor : Servers * (ClientSlot * list CommandResponse) :=
  run (reliable Client.hex_encode log_order) toy_start.1
    (client_command_actor 5 "http://ds" "http://relay"
       (MkSlot (toy_worker "alice") (CommandCache.new 4 1000)) resent).

Lemma resent_once_witness :
  let created := CommandCache.ok_response "group created and DS group state registered" in
  toy_actor.2.2
  = [created; created; CommandCache.ok_response "self_update commit published to group"; created].
Proof.
  intros created. unfold toy_actor.
  pose proof (resent_once (reliable Client.hex_encode log_order) 0 1000 4 5 "http://ds"
                "http://relay" toy_start.1 (toy_worker "alice") resent) as H.
  specialize (H ltac:(cbn; split; [done|lia]) ltac:(done) ltac:(done)).
  specialize (H ltac:(vm_compute; lia)). cbv zeta in H.
  destruct (run _ _ (client_command_actor _ _ _ _ _)) as [s1 [slot rs]].
  destruct (run _ _ (execute_once _ _ _ _ _ _)) as [s2 [w rs']] eqn:E.
  destruct H as (_ & _ & ->). cbn [snd].
  transitivity (run (reliable Client.hex_encode log_order) toy_start.1
                  (execute_once 5 "http://ds" "http://relay" ∅ (toy_worker "alice") resent)).2.2;
    [by rewrite E|vm_compute; reflexivity].
Defined.
