(* ===== verification/RunnerCommands.v ===== *)
(** * The OpenMLS runner and one worker

    The lowest layer of [OpenMLS_containerized/src/staircase_runner.rs]: what the runner
    does to the world ([RunnerEffect]), its errors, one command sent to one worker until
    an answer comes ([send_command_with_context]), and the commands whose lost answers are
    reconciled with the state the worker shows ([receive_commit_expect],
    [process_pending_commit_expect]).  The journal of profiled operations and the printed
    diagnostics are left out; nothing reads them back. *)

From S2P Require Import Prelude Text Interaction Program HttpRetry RunnerConfig Worker.
From S2P Require CommandCache Batches.
From stdpp Require Import options.

Local Open Scope N_scope.

Abbreviation CommandResponse := CommandCache.CommandResponse.
Abbreviation response_status := CommandCache.status.
Abbreviation response_message := CommandCache.message.

(** ** Cursors and requests *)

(** What the runner is doing, for the records *)
Record BenchmarkCursor := MkCursor {
  plateau_index : N;
  target_size : N;
  active_size : N;
  phase : string;
  operation : string;
  operation_seq : option N;
  payload_size : option N;
  membership_batch : option Batches.MembershipBatchDecision;
}.

Definition new_cursor (plateau_index target_size active_size : N) (phase operation : string) :
    BenchmarkCursor :=
  MkCursor plateau_index target_size active_size phase operation None None None.

Definition at_operation (c : BenchmarkCursor) (seq : N) (payload : option N) : BenchmarkCursor :=
  MkCursor (plateau_index c) (target_size c) (active_size c) (phase c) (operation c)
    (Some seq) payload (membership_batch c).

Definition with_membership_batch (c : BenchmarkCursor) (d : Batches.MembershipBatchDecision) :
    BenchmarkCursor :=
  MkCursor (plateau_index c) (target_size c) (active_size c) (phase c) (operation c)
    (operation_seq c) (payload_size c) (Some d).

(** [WorkerCommandContext]; the cursor stands for the fields copied from it. *)
Record WorkerCommandContext := MkContext {
  ctx_request_id : string;
  ctx_expected_epoch : option N;
  ctx_phase : option string;
  ctx_cursor : option BenchmarkCursor;
  ctx_device_kind : option string;
}.

Record CommandRequestEnvelope := MkRequest {
  req_request_id : string;
  req_command : Command;
  req_context : WorkerCommandContext;
}.

(** One command of a batch.  [cmd_sample] stands for the [commit_create_op] and
    [commit_receive_sample_*] fields of the Rust command: the created operation, the
    sample's index, the number of samples and the number of recipients. *)
Record CommitSample := MkSample {
  create_op : string;
  sample_index : option nat;
  sample_count : nat;
  population_size : nat;
}.

Record BatchFanoutCommand := MkBatchCommand {
  client_id : string;
  cmd_request_id : option string;
  cmd_command : Command;
  cmd_sample : option CommitSample;
  cmd_expected_epoch : option N;
  cmd_phase : option string;
  cmd_profile : option bool;
  cmd_cursor : option BenchmarkCursor;
}.

(** [BatchCommandItem] has the same fields, [BatchCommandResult] the client and its
    response. *)
Record BatchCommandResult := MkBatchResult {
  res_client_id : string;
  res_response : CommandResponse;
}.

(** ** Errors *)

Inductive WorkerCommandErrorClass := TransportRetryable | FatalHttpStatus | FatalDecode.

#[export] Instance error_class_eq_dec : EqDecision WorkerCommandErrorClass.
Proof. solve_decision. Defined.

Definition class_as_str (c : WorkerCommandErrorClass) : string :=
  match c with
  | TransportRetryable => "transport-retryable"
  | FatalHttpStatus => "fatal-http-status"
  | FatalDecode => "fatal-decode"
  end.

Record WorkerCommandError := MkCommandError {
  ce_worker_id : string;
  ce_command : string;
  ce_url : string;
  ce_request_id : string;
  ce_attempts : N;
  ce_classification : WorkerCommandErrorClass;
  ce_last_error : string;
  ce_diagnostic : option string;
}.

Definition is_ambiguous_transport (e : WorkerCommandError) : bool :=
  bool_decide (ce_classification e = TransportRetryable).

(** [anyhow::Error] with the types the runner downcasts to. *)
Inductive RunnerError :=
| Plain (e : Error)
| CommandFailed (e : WorkerCommandError)
| BatchFanoutError (phase operation : string) (failures : list FanoutFailure)
| ExpectedProfiledFailureStop (count limit : N)
with FanoutFailure := MkFailure (worker : WorkerSpec) (error : RunnerError).

Definition failed_worker (f : FanoutFailure) : WorkerSpec := let '(MkFailure w _) := f in w.
Definition failure_error (f : FanoutFailure) : RunnerError := let '(MkFailure _ e) := f in e.

Definition bail (message : string) : RunnerError := Plain (anyhow message).

Definition display_command_error (e : WorkerCommandError) : string :=
  "runner.worker_command failed: worker=" +:+ ce_worker_id e +:+ " command=" +:+ ce_command e
  +:+ " url=" +:+ ce_url e +:+ " request_id=" +:+ ce_request_id e +:+ " attempts="
  +:+ pretty (ce_attempts e) +:+ " classification=" +:+ class_as_str (ce_classification e)
  +:+ " last_error=" +:+ ce_last_error e
  +:+ match ce_diagnostic e with Some d => " diagnostics=" +:+ d | None => "" end.

(** [{:#}]; [format_fanout_failures] is the text of the failures. *)
Fixpoint error_text (e : RunnerError) : string :=
  match e with
  | Plain e => alternate e
  | CommandFailed e => display_command_error e
  | BatchFanoutError phase operation failures =>
      "batch_fanout phase=" +:+ phase +:+ " operation=" +:+ operation +:+ " failed_workers="
      +:+ pretty (N.of_nat (length failures)) +:+ " failures=["
      +:+ String.concat "; " (map failure_text failures) +:+ "]"
  | ExpectedProfiledFailureStop count limit =>
      "expected profiled resource-failure stop after " +:+ pretty count +:+ "/" +:+ pretty limit
      +:+ " workers"
  end
with failure_text (f : FanoutFailure) : string :=
  match f with MkFailure w e => id w +:+ ": " +:+ error_text e end.

(** No error of the runner is a bare [reqwest::Error], whose kinds the first part of
    [classify_worker_error] looks at; what is left is the text. *)
Definition classify_worker_error (error : RunnerError) : string :=
  let error_str := to_ascii_lowercase (error_text error) in
  if contains "app_heap_budget_exceeded" error_str then "app_heap_budget_exceeded"
  else if contains "app_heap_budget_allocator_abort" error_str
  then "app_heap_budget_allocator_abort"
  else if contains "embedded_budget_timeout" error_str then "embedded_budget_timeout"
  else if contains "connection refused" error_str then "container_exit"
  else if contains_any ["timeout"; "deadline"; "timed out"] error_str
  then "cpu_starvation_timeout"
  else if contains "connect" error_str then "worker_unreachable"
  else "infrastructure_failure".

Definition is_resource_budget_failure (error : RunnerError) : bool :=
  bool_decide (classify_worker_error error ∈
    ["app_heap_budget_exceeded"; "app_heap_budget_allocator_abort"; "embedded_budget_timeout";
     "cpu_starvation_timeout"]).

Definition profiled_singleton (worker : WorkerSpec) : bool :=
  profile_enabled worker && bool_decide (container_mode worker = Singleton).

Definition is_profiled_resource_budget_failure (worker : WorkerSpec) (error : RunnerError) : bool :=
  profiled_singleton worker && is_resource_budget_failure error.

Definition is_not_in_group_error (error : RunnerError) : bool :=
  contains "Client is not in a group" (error_text error).

Definition is_queued_epoch_race_message (message : string) : bool :=
  contains "lost the epoch race" message && contains "queued for retry" message.

(** ** The world *)

Record OomEvidence := MkEvidence {
  evidence_source : string;
  evidence_worker_id : option string;
  evidence_physical_worker_id : option string;
  evidence_detail : option string;
}.

Definition evidence_matches (e : OomEvidence) (worker : WorkerSpec) : bool :=
  bool_decide (evidence_worker_id e = Some (id worker))
  || bool_decide (evidence_physical_worker_id e = Some (physical_worker_id worker)).

(** The fields of [RunnerEvent] that are not the clock and the crypto profile *)
Record RunnerEvent := MkEvent {
  failed_worker_id : string;
  failed_physical_worker_id : string;
  failure_class : string;
  failure_detail : string;
  failure_evidence_source : option string;
  failure_evidence_detail : option string;
  failure_action : string;
  reassigned_to_worker_id : option string;
  event_cursor : BenchmarkCursor;
}.

(** How an HTTP call ends: no response, a response that is not a success, a body of the
    expected type, a body that cannot be read or decoded *)
Inductive HttpOutcome (T : Type) :=
| SendError (err : ReqwestError)
| BadStatus (status : N) (body : string)
| Decoded (v : T)
| DecodeError (err : ReqwestError).
Arguments SendError {_} _.
Arguments BadStatus {_} _ _.
Arguments Decoded {_} _.
Arguments DecodeError {_} _.

(** [NextRequestSeq] is the counter of request ids; [ReadOomEvidence] the readable lines of
    the evidence file; [AppendEvent] a line of the runner's journal; [HashOrder n] and
    [CompletionOrder n] the order in which the [n] entries of a hash map are visited, and
    in which [n] concurrent requests end. *)
Inductive RunnerEffect : Type → Type :=
| NextRequestSeq : RunnerEffect N
| PostCommand (url : string) (r : CommandRequestEnvelope) : RunnerEffect (HttpOutcome CommandResponse)
| PostBatch (url : string) (items : list BatchFanoutCommand) :
    RunnerEffect (HttpOutcome (list BatchCommandResult))
| ReadOomEvidence : RunnerEffect (list OomEvidence)
| AppendEvent (e : RunnerEvent) : RunnerEffect (result Error unit)
| HashOrder (n : nat) : RunnerEffect (list nat)
| CompletionOrder (n : nat) : RunnerEffect (list nat)
| SleepMs (ms : N) : RunnerEffect unit
| ThreadRange (lo hi : N) : RunnerEffect N
| NowMs : RunnerEffect N.

#[export] Instance runner_retry_effects : RetryEffects RunnerEffect :=
  {| sleep := SleepMs; gen_range := ThreadRange; now_ms := NowMs |}.

(** What [serde_json] and [str::parse] make of a text, or their complaint; the text of a
    status code; the process id *)
Class RunnerExternals := {
  parse_json_strings : string → result string (list string);
  parse_int_complaint : string → string;
  http_status_text : N → string;
  process_id : N;
}.

(** A call that returns [anyhow::Result] *)
Abbreviation Call A := (prog RunnerEffect (result RunnerError A)).

Section commands.
Context {ext : RunnerExternals}.

(** ** One command *)

Definition WORKER_COMMAND_MAX_ATTEMPTS : N := 10.
Definition WORKER_COMMAND_INITIAL_DELAY : N := 100.
Definition WORKER_COMMAND_MAX_DELAY : N := 3000.

Definition with_metadata (worker : WorkerSpec) (command : Command) (expected_epoch : option N)
    (phase : option string) (cursor : option BenchmarkCursor) :
    prog RunnerEffect WorkerCommandContext :=
  seq ← trigger NextRequestSeq;
  mret (MkContext
          ("runner-" +:+ pretty process_id +:+ "-" +:+ id worker +:+ "-" +:+ kind command +:+ "-"
           +:+ pretty seq)
          expected_epoch phase cursor
          (if String.eqb (device_kind worker) "" then None else Some (device_kind worker))).

Definition show_bool (b : bool) : string := if b then "true" else "false".

(** The errors of [send] and [json] carry no status. *)
Definition reqwest_error_diagnostic (err : ReqwestError) : string :=
  String.concat "; "
    (["top_level=" +:+ re_display err;
      "is_connect=" +:+ show_bool (re_is_connect err);
      "is_timeout=" +:+ show_bool (re_is_timeout err);
      "is_request=" +:+ show_bool (re_is_request err);
      "is_body=" +:+ show_bool (re_is_body err);
      "status=-";
      "inferred_stage="
      +:+ (if re_is_connect err then "connect"
           else if re_is_timeout err
           then "timeout while connecting, writing request, or waiting for response"
           else if re_is_body err then "reading response body"
           else if re_is_request err then "writing request or waiting for response headers"
           else "unknown")]
     ++ imap (λ i s, "source[" +:+ pretty (N.of_nat i) +:+ "]=" +:+ s) (re_sources err)).

Definition worker_command_next_delay (delay : N) : N := N.min (delay * 2) WORKER_COMMAND_MAX_DELAY.

Definition worker_command_with_jitter (delay : N) : prog RunnerEffect N :=
  jitter_ms ← trigger (ThreadRange 0 (N.max 1 (N.min (delay `div` 10) 100)));
  mret (delay + jitter_ms).

Definition command_url (worker : WorkerSpec) : string := url worker +:+ "/command".

Definition command_failed (worker : WorkerSpec) (command : Command) (context : WorkerCommandContext)
    (attempts : N) (class : WorkerCommandErrorClass) (last_error : string)
    (diagnostic : option string) : RunnerError :=
  CommandFailed (MkCommandError (id worker) (kind command) (command_url worker)
                   (ctx_request_id context) attempts class last_error diagnostic).

(** The loop [for attempt in 1..=WORKER_COMMAND_MAX_ATTEMPTS], [later] attempts before the
    last one. *)
Fixpoint send_attempts (later : nat) (attempt delay : N) (worker : WorkerSpec)
    (command : Command) (context : WorkerCommandContext) : Call CommandResponse :=
  let stop class last_error diagnostic :=
    mret (Err (command_failed worker command context attempt class last_error diagnostic)) in
  let again class last_error diagnostic :=
    match later with
    | O => stop class last_error diagnostic
    | S later =>
        sleep_for ← worker_command_with_jitter delay;
        _ ← trigger (SleepMs sleep_for);
        send_attempts later (attempt + 1) (worker_command_next_delay delay) worker command context
    end in
  outcome ← trigger (PostCommand (command_url worker)
                       (MkRequest (ctx_request_id context) command context));
  match outcome with
  | SendError err =>
      let diagnostic := Some (reqwest_error_diagnostic err) in
      if is_transient_reqwest_error err || is_connect_stage_reqwest_error err
      then again TransportRetryable (re_display err) diagnostic
      else stop FatalDecode (re_display err) diagnostic
  | BadStatus status body =>
      let last_error := "HTTP " +:+ http_status_text status +:+ ": " +:+ body in
      if is_transient_status status then again FatalHttpStatus last_error None
      else stop FatalHttpStatus last_error None
  | Decoded response => mret (Ok response)
  | DecodeError err =>
      let diagnostic := Some (reqwest_error_diagnostic err) in
      if is_transient_reqwest_error err then again TransportRetryable (re_display err) diagnostic
      else stop FatalDecode (re_display err) diagnostic
  end.

Definition send_command_with_context (worker : WorkerSpec) (command : Command)
    (context : WorkerCommandContext) : Call CommandResponse :=
  send_attempts (pred (N.to_nat WORKER_COMMAND_MAX_ATTEMPTS)) 1 WORKER_COMMAND_INITIAL_DELAY
    worker command context.

Definition send_command (worker : WorkerSpec) (command : Command) : Call CommandResponse :=
  context ← with_metadata worker command None None None;
  send_command_with_context worker command context.

Definition unexpected_ok (worker : WorkerSpec) (message : string) : RunnerError :=
  bail ("Worker " +:+ id worker +:+ " returned unexpected ok message: " +:+ message).
Definition worker_error (worker : WorkerSpec) (message : string) : RunnerError :=
  bail ("Worker " +:+ id worker +:+ " error: " +:+ message).
Definition unknown_status (worker : WorkerSpec) (response : CommandResponse) : RunnerError :=
  bail ("Worker " +:+ id worker +:+ " returned unknown status '" +:+ response_status response
        +:+ "': " +:+ response_message response).

(** The match on the response of [send_cmd_expect_ok_fragment_with_context] *)
Definition expect_ok_fragment (worker : WorkerSpec) (ok_fragment : string)
    (response : CommandResponse) : result RunnerError string :=
  let message := response_message response in
  if String.eqb (response_status response) "ok" then
    if contains ok_fragment message then Ok message else Err (unexpected_ok worker message)
  else if String.eqb (response_status response) "error" then Err (worker_error worker message)
  else Err (unknown_status worker response).

Definition send_cmd_expect_ok_fragment_with_context (worker : WorkerSpec) (command : Command)
    (ok_fragment : string) (context : WorkerCommandContext) : Call string :=
  let^ response <- send_command_with_context worker command context in
  mret (expect_ok_fragment worker ok_fragment response).

Definition send_cmd_expect_ok_fragment (worker : WorkerSpec) (command : Command)
    (ok_fragment : string) : Call string :=
  context ← with_metadata worker command None None None;
  send_cmd_expect_ok_fragment_with_context worker command ok_fragment context.

(** The loop of [send_cmd_until_ok], [fuel] turns of it; [None] when they are not enough *)
Fixpoint until_ok (fuel : nat) (worker : WorkerSpec) (command : Command)
    (ok_fragment retryable_error_fragment : string) (timeout start : N) :
    prog RunnerEffect (option (result RunnerError string)) :=
  now ← trigger NowMs;
  if now - start <? timeout then
    match fuel with
    | O => mret None
    | S fuel =>
        sent ← send_command worker command;
        match sent with
        | Err e => mret (Some (Err e))
        | Ok response =>
            if String.eqb (response_status response) "error"
               && contains retryable_error_fragment (response_message response)
            then
              _ ← trigger (SleepMs 500);
              until_ok fuel worker command ok_fragment retryable_error_fragment timeout start
            else mret (Some (expect_ok_fragment worker ok_fragment response))
        end
    end
  else
    mret (Some (Err (bail ("Timeout waiting for ok fragment '" +:+ ok_fragment
                           +:+ "' from worker " +:+ id worker)))).

Definition send_cmd_until_ok (fuel : nat) (worker : WorkerSpec) (command : Command)
    (ok_fragment retryable_error_fragment : string) (timeout : N) :
    prog RunnerEffect (option (result RunnerError string)) :=
  start ← trigger NowMs;
  until_ok fuel worker command ok_fragment retryable_error_fragment timeout start.
End commands.

(** ** The state a worker shows *)

(** [GroupStateSnapshot], and [ExpectedGroupState] with the same fields *)
Record GroupStateSnapshot := MkSnapshot {
  group_id : string;
  epoch : N;
  members : list string;
}.

#[export] Instance snapshot_eq_dec : EqDecision GroupStateSnapshot.
Proof. solve_decision. Defined.

Abbreviation ExpectedGroupState := GroupStateSnapshot.

(** [sort] on strings *)
Definition sort_strings (l : list string) : list string :=
  merge_sort (λ s t, Is_true (str_leb s t)) l.

(** [split_once] with a string *)
Fixpoint split_once_str (sep s : string) : option (string * string) :=
  match strip_prefix sep s with
  | Some rest => Some ("", rest)
  | None =>
      match s with
      | EmptyString => None
      | String c s' => let! (before, after) <- split_once_str sep s' in Some (String c before, after)
      end
  end.

Inductive ExpectedReceiveCommitState :=
| ExpectGroup (state : ExpectedGroupState)
| ExpectRemoved (epoch : N).

Definition expected_group_state (reference : GroupStateSnapshot) (epoch : N)
    (members : list string) : ExpectedGroupState :=
  MkSnapshot (group_id reference) epoch (sort_strings members).

Definition matches (expected : ExpectedGroupState) (snapshot : GroupStateSnapshot) : bool :=
  String.eqb (group_id snapshot) (group_id expected) && (epoch snapshot =? epoch expected)
  && bool_decide (members snapshot = members expected).

Definition expected_epoch (expected : ExpectedReceiveCommitState) : option N :=
  match expected with
  | ExpectGroup state => Some (epoch state)
  | ExpectRemoved epoch => Some epoch
  end.

Definition describe_state (sep : string) (s : GroupStateSnapshot) : string :=
  "group_id=" +:+ group_id s +:+ sep +:+ "epoch=" +:+ pretty (epoch s) +:+ sep +:+ "members="
  +:+ debug_list (members s).

Section states.
Context {ext : RunnerExternals}.

Definition parse_group_state_message (message : string) : result RunnerError GroupStateSnapshot :=
  let? msg <- ok_or (strip_prefix "group_id=" message)
                (bail ("Unexpected show_group_state message: " +:+ message)) in
  let? (group_id, rest) <- ok_or (split_once_str ", epoch=" msg)
                (bail ("Missing epoch in show_group_state message: " +:+ message)) in
  let? (epoch_str, members_str) <- ok_or (split_once_str ", members=" rest)
                (bail ("Missing members in show_group_state message: " +:+ message)) in
  let? epoch <- ok_or (parse_u64 epoch_str)
                (Plain ["Invalid epoch '" +:+ epoch_str +:+ "' in '" +:+ message +:+ "'";
                        parse_int_complaint epoch_str]) in
  let? members <- match parse_json_strings members_str with
                  | Ok l => Ok l
                  | Err e => Err (Plain ["Invalid members list '" +:+ members_str +:+ "' in '"
                                         +:+ message +:+ "'"; e])
                  end in
  Ok (MkSnapshot group_id epoch (sort_strings members)).

Definition show_group_state (worker : WorkerSpec) : Call GroupStateSnapshot :=
  let^ message <- send_cmd_expect_ok_fragment worker ShowGroupState "group_id=" in
  mret (parse_group_state_message message).

Definition says_not_in_group (expected : ExpectedReceiveCommitState) (error : RunnerError) : bool :=
  match expected with ExpectRemoved _ => true | ExpectGroup _ => false end
  && contains "Client is not in a group" (error_text error).

(** Whether the worker is where the lost answer would have put it *)
Definition receive_commit_reconciled_by_state (worker : WorkerSpec)
    (expected : ExpectedReceiveCommitState) (original_error : string) : Call bool :=
  shown ← show_group_state worker;
  mret
    match shown, expected with
    | Ok snapshot, ExpectGroup expected_state =>
        if matches expected_state snapshot then Ok true
        else if epoch snapshot <? epoch expected_state then Ok false
        else Err (bail ("receive_commit ambiguous transport error could not be reconciled for worker "
                        +:+ id worker +:+ ": expected " +:+ describe_state " " expected_state
                        +:+ "; got " +:+ describe_state " " snapshot +:+ "; original_error="
                        +:+ original_error))
    | Ok snapshot, ExpectRemoved epoch =>
        Err (bail ("receive_commit ambiguous transport error could not be reconciled for removed worker "
                   +:+ id worker +:+ ": expected removed after epoch " +:+ pretty epoch
                   +:+ ", but ShowGroupState still returned " +:+ describe_state " " snapshot
                   +:+ "; original_error=" +:+ original_error))
    | Err err, _ =>
        if says_not_in_group expected err then Ok true
        else Err (bail ("receive_commit ambiguous transport error reconciliation could not query worker "
                        +:+ id worker +:+ " state: " +:+ error_text err +:+ "; original_error="
                        +:+ original_error))
    end.

Definition expected_receive_commit_state_reached (worker : WorkerSpec)
    (expected : ExpectedReceiveCommitState) : Call bool :=
  shown ← show_group_state worker;
  mret
    match shown, expected with
    | Ok snapshot, ExpectGroup expected_state => Ok (matches expected_state snapshot)
    | Ok snapshot, ExpectRemoved epoch =>
        Err (bail ("worker " +:+ id worker +:+ " was expected to be removed after epoch "
                   +:+ pretty epoch +:+ ", but ShowGroupState returned " +:+ describe_state " " snapshot))
    | Err err, _ =>
        if says_not_in_group expected err then Ok true
        else Err (bail ("could not query worker " +:+ id worker +:+ " state after ProcessPending: "
                        +:+ error_text err))
    end.

Definition is_ambiguous (e : RunnerError) : bool :=
  match e with CommandFailed e => is_ambiguous_transport e | _ => false end.

(** [receive_commit_expect] *)
Definition receive_commit_expect (worker : WorkerSpec) (ok_fragment : string)
    (expected : ExpectedReceiveCommitState) (phase : string) (cursor : option BenchmarkCursor) :
    Call unit :=
  let command := ReceiveCommit false in
  context ← with_metadata worker command (expected_epoch expected) (Some phase) cursor;
  sent ← send_cmd_expect_ok_fragment_with_context worker command ok_fragment context;
  match sent with
  | Ok _ => mret (Ok tt)
  | Err err =>
      if is_resource_budget_failure err || negb (is_ambiguous err) then mret (Err err)
      else
        let^ reconciled <- receive_commit_reconciled_by_state worker expected (error_text err) in
        if reconciled : bool then mret (Ok tt)
        else
          sent ← send_cmd_expect_ok_fragment_with_context worker command ok_fragment context;
          match sent with
          | Ok _ => mret (Ok tt)
          | Err retry_err =>
              if is_resource_budget_failure retry_err then mret (Err retry_err)
              else
                let^ reconciled <-
                  receive_commit_reconciled_by_state worker expected (error_text retry_err) in
                if reconciled : bool then mret (Ok tt)
                else mret (Err (bail
                  ("receive_commit failed after ambiguous transport reconciliation retry: worker="
                   +:+ id worker +:+ " request_id=" +:+ ctx_request_id context +:+ " phase="
                   +:+ phase +:+ " initial_error=" +:+ error_text err +:+ " retry_error="
                   +:+ error_text retry_err)))
          end
  end.

Definition must_have_reached (worker : WorkerSpec) (expected : ExpectedReceiveCommitState)
    (what : string) : Call unit :=
  let^ reached <- expected_receive_commit_state_reached worker expected in
  mret (if reached : bool then Ok tt
        else Err (bail (what +:+ " completed but worker " +:+ id worker
                        +:+ " did not reach expected state"))).

(** [process_pending_commit_expect] *)
Definition process_pending_commit_expect (worker : WorkerSpec)
    (expected : ExpectedReceiveCommitState) (phase : string) (cursor : option BenchmarkCursor) :
    Call unit :=
  let command := ProcessPending (Some [Commits]) (Some 8) (expected_epoch expected) false in
  let fragment := "process_pending processed;" in
  context ← with_metadata worker command (expected_epoch expected) (Some phase) cursor;
  sent ← send_cmd_expect_ok_fragment_with_context worker command fragment context;
  match sent with
  | Ok _ => must_have_reached worker expected "process_pending"
  | Err err =>
      if is_resource_budget_failure err then mret (Err err)
      else
        let^ reconciled <- receive_commit_reconciled_by_state worker expected (error_text err) in
        if reconciled : bool then mret (Ok tt)
        else
          sent ← send_cmd_expect_ok_fragment_with_context worker command fragment context;
          match sent with
          | Ok _ => must_have_reached worker expected "process_pending retry"
          | Err retry_err =>
              if is_resource_budget_failure retry_err then mret (Err retry_err)
              else
                let^ reconciled <-
                  receive_commit_reconciled_by_state worker expected (error_text retry_err) in
                if reconciled : bool then mret (Ok tt)
                else mret (Err (bail
                  ("process_pending failed after reconciliation retry: worker=" +:+ id worker
                   +:+ " request_id=" +:+ ctx_request_id context +:+ " phase=" +:+ phase
                   +:+ " initial_error=" +:+ error_text err +:+ " retry_error="
                   +:+ error_text retry_err)))
          end
  end.

(** The actor of a commit catches up with it, one way or the other. *)
Definition actor_receives (process_pending_fanout : bool) (actor : WorkerSpec)
    (expected : ExpectedGroupState) (pending_phase receive_phase : string)
    (cursor : BenchmarkCursor) : Call unit :=
  if process_pending_fanout
  then process_pending_commit_expect actor (ExpectGroup expected) pending_phase (Some cursor)
  else receive_commit_expect actor "own commit accepted from DS" (ExpectGroup expected)
         receive_phase (Some cursor).

(** ** Evidence of a killed worker *)

Definition latest_oom_evidence_for (lines : list OomEvidence) (worker : WorkerSpec) :
    option OomEvidence :=
  last (filter (λ e, evidence_matches e worker = true) lines).

(** The loop [for attempt in 0..6] *)
Fixpoint find_evidence (later : nat) (worker : WorkerSpec) : prog RunnerEffect (option OomEvidence) :=
  lines ← trigger ReadOomEvidence;
  match latest_oom_evidence_for lines worker, later with
  | Some evidence, _ => mret (Some evidence)
  | None, O => mret None
  | None, S later => _ ← trigger (SleepMs 200); find_evidence later worker
  end.

Definition find_oom_evidence (worker : WorkerSpec) : prog RunnerEffect (option OomEvidence) :=
  find_evidence 5 worker.
End states.
