(* ===== verification/RunnerState.v ===== *)
(** * What the OpenMLS runner keeps, and programs over it

    The variables [run_staircase_benchmark_async] threads through its phases as one
    record, the settings it reads, and the programs over both: a call returns, fails,
    panics, or is cut off because its loops had too little fuel.  [ensures]
    is the logic for what holds whatever the workers answer.  With it the records of
    failed workers ([record_profiled_worker_failure]) and the fan-out of a command over many
    workers. *)

From S2P Require Import Prelude Text Interaction HttpRetry RunnerConfig Worker RunnerCommands Program.
From S2P Require Batches Plateau.
From S2P Require Batches.
From stdpp Require Import options.

Local Open Scope N_scope.

(** The programs of this runner *)
Abbreviation outcome := (Program.outcome RunnerError).

(** [active] and [idle] are the workers of the group and those waiting; [budget_failures]
    the profiled workers whose resource failures were counted ([RunnerEventLog]). *)
Record Runner (G : Type) := MkRunner {
  active : list WorkerSpec;
  idle : list WorkerSpec;
  fanout : Batches.FanoutController;
  add_membership_batches : Batches.MembershipBatchPlans (G := G);
  remove_membership_batches : Batches.MembershipBatchPlans (G := G);
  scenario_rng : G;
  profiled_add_actor_seen : gset string;
  budget_failures : gset string;
}.
Arguments MkRunner {_} _ _ _ _ _ _ _ _.
Arguments active {_} _.
Arguments idle {_} _.
Arguments fanout {_} _.
Arguments add_membership_batches {_} _.
Arguments remove_membership_batches {_} _.
Arguments scenario_rng {_} _.
Arguments profiled_add_actor_seen {_} _.
Arguments budget_failures {_} _.

(** The settings the phases read; [loop_fuel] and [sampler_fuel] bound the loops of the
    model and are no part of the program. *)
Class Settings := {
  continue_profiled_failure : bool;
  profiled_failure_stop_after : N;
  resource_sweep : bool;
  process_pending_fanout : bool;
  external_coverage_lane : bool;
  profile_only_singletons : bool;
  min_profiled_samples_per_operation : N;
  max_commit_receive_samples_per_plateau : N;
  commit_receive_sampling_seed : N;
  update_rounds : N;
  app_rounds : N;
  max_update_samples_per_plateau : N;
  max_app_samples_per_payload : N;
  payload_sizes : PayloadSizes;
  remove_rejoin : bool;
  fill_tree_before_measure : bool;
  loop_fuel : nat;
  sampler_fuel : nat;
}.

Abbreviation M G := (Program.M (Runner G) RunnerEffect RunnerError).

Section runner.
Context {G : Type}.
Implicit Types s : Runner G.

Abbreviation M := (RunnerState.M G).

Definition set_active (l : list WorkerSpec) (s : Runner G) : Runner G :=
  MkRunner l (idle s) (fanout s) (add_membership_batches s) (remove_membership_batches s)
    (scenario_rng s) (profiled_add_actor_seen s) (budget_failures s).
Definition set_idle (l : list WorkerSpec) (s : Runner G) : Runner G :=
  MkRunner (active s) l (fanout s) (add_membership_batches s) (remove_membership_batches s)
    (scenario_rng s) (profiled_add_actor_seen s) (budget_failures s).
Definition set_fanout (f : Batches.FanoutController) (s : Runner G) : Runner G :=
  MkRunner (active s) (idle s) f (add_membership_batches s) (remove_membership_batches s)
    (scenario_rng s) (profiled_add_actor_seen s) (budget_failures s).
Definition set_add_batches (p : Batches.MembershipBatchPlans) (s : Runner G) : Runner G :=
  MkRunner (active s) (idle s) (fanout s) p (remove_membership_batches s)
    (scenario_rng s) (profiled_add_actor_seen s) (budget_failures s).
Definition set_remove_batches (p : Batches.MembershipBatchPlans) (s : Runner G) : Runner G :=
  MkRunner (active s) (idle s) (fanout s) (add_membership_batches s) p
    (scenario_rng s) (profiled_add_actor_seen s) (budget_failures s).
Definition set_rng (g : G) (s : Runner G) : Runner G :=
  MkRunner (active s) (idle s) (fanout s) (add_membership_batches s) (remove_membership_batches s)
    g (profiled_add_actor_seen s) (budget_failures s).
Definition set_seen (x : gset string) (s : Runner G) : Runner G :=
  MkRunner (active s) (idle s) (fanout s) (add_membership_batches s) (remove_membership_batches s)
    (scenario_rng s) x (budget_failures s).
Definition set_failures (x : gset string) (s : Runner G) : Runner G :=
  MkRunner (active s) (idle s) (fanout s) (add_membership_batches s) (remove_membership_batches s)
    (scenario_rng s) (profiled_add_actor_seen s) x.

(** [rng.gen_range(0..n)] *)
Definition random_index `{!Plateau.Rng G} (n : nat) : M nat := λ s,
  let '(i, g) := Plateau.gen_range (scenario_rng s) 0 (N.of_nat n - 1) in
  Ret (set_rng g s, Returned (N.to_nat i)).

(** [l.shuffle(rng)] *)
Definition shuffled `{!Plateau.Rng G} {A} (l : list A) : M (list A) := λ s,
  let '(l, g) := Plateau.shuffle (scenario_rng s) l in Ret (set_rng g s, Returned l).

End runner.

(** ** Recording a failed worker *)

Section failures.
Context {G : Type} {ext : RunnerExternals} {cfg : Settings}.

Definition COUNTED_CLASSES : list string :=
  ["app_heap_budget_exceeded"; "app_heap_budget_allocator_abort"; "embedded_budget_timeout";
   "cpu_starvation_timeout"; "oom_kill"].

(** [RunnerEventLog::count_profiled_budget_failure] *)
Definition count_profiled_budget_failure (worker : WorkerSpec) (failure_class : string) :
    M G unit :=
  if (profiled_failure_stop_after =? 0) || negb (profiled_singleton worker)
     || negb (bool_decide (failure_class ∈ COUNTED_CLASSES))
  then ret tt
  else
    let~ _ <- modify (λ s, set_failures ({[id worker]} ∪ budget_failures s) s) in
    let~ count <- gets (λ s, N.of_nat (size (budget_failures s))) in
    if profiled_failure_stop_after <=? count
    then fail (ExpectedProfiledFailureStop count profiled_failure_stop_after)
    else ret tt.

(** What [record_oom_failure] and [record_failure] share: the line of the journal, then
    the count. *)
Definition record_event (cursor : BenchmarkCursor) (worker : WorkerSpec) (error : RunnerError)
    (class : string) (evidence_source evidence_detail : option string) (action : string)
    (reassigned_to : option WorkerSpec) : M G unit :=
  let~ written <- perform (trigger (AppendEvent
    (MkEvent (id worker) (physical_worker_id worker) class (error_text error) evidence_source
       evidence_detail action (id <$> reassigned_to) cursor))) in
  match written with
  | Err e => fail (Plain e)
  | Ok _ => count_profiled_budget_failure worker class
  end.

Definition record_oom_failure (cursor : BenchmarkCursor) (worker : WorkerSpec)
    (error : RunnerError) (evidence : OomEvidence) (action : string)
    (reassigned_to : option WorkerSpec) : M G unit :=
  record_event cursor worker error "oom_kill"
    (if String.eqb (evidence_source evidence) "" then None else Some (evidence_source evidence))
    (evidence_detail evidence) action reassigned_to.

Definition record_failure (cursor : BenchmarkCursor) (worker : WorkerSpec) (error : RunnerError)
    (class : string) (evidence_source evidence_detail : option string) (action : string)
    (reassigned_to : option WorkerSpec) : M G unit :=
  record_event cursor worker error class evidence_source evidence_detail action reassigned_to.

(** Whether the runner goes on without the worker *)
Definition record_profiled_worker_failure (cursor : BenchmarkCursor) (worker : WorkerSpec)
    (error : RunnerError) (action : string) (reassigned_to : option WorkerSpec) : M G bool :=
  let~ evidence <- perform (find_oom_evidence worker) in
  match evidence with
  | Some evidence =>
      let~ _ <- record_oom_failure cursor worker error evidence action reassigned_to in
      ret (continue_profiled_failure || negb (profiled_singleton worker))
  | None =>
      if profiled_singleton worker then
        let~ _ <- record_failure cursor worker error (classify_worker_error error)
                    (Some "runner_observed_request_failure") (Some (error_text error)) action
                    reassigned_to in
        ret continue_profiled_failure
      else ret false
  end.

(** The loop over the failures; it stops at the first that is not recorded. *)
Fixpoint record_failures (cursor : BenchmarkCursor) (failures : list FanoutFailure)
    (action : string) (reassigned_to : option WorkerSpec) (dead_workers : list WorkerSpec) :
    M G (option (list WorkerSpec)) :=
  match failures with
  | [] => ret (Some dead_workers)
  | failure :: rest =>
      let~ recorded <- record_profiled_worker_failure cursor (failed_worker failure)
                         (failure_error failure) action reassigned_to in
      if recorded : bool
      then record_failures cursor rest action reassigned_to (dead_workers ++ [failed_worker failure])
      else ret None
  end.

Definition record_batch_oom_failures (cursor : BenchmarkCursor) (error : RunnerError)
    (action : string) (reassigned_to : option WorkerSpec) : M G (option (list WorkerSpec)) :=
  match error with
  | BatchFanoutError _ _ failures => record_failures cursor failures action reassigned_to []
  | _ => ret None
  end.
End failures.

(** * Commands to many workers

    The batch fan-out of [OpenMLS_containerized/src/staircase_runner.rs]: one request per
    physical worker with the commands of its clients, one more pass for the clients that
    failed, receives whose answer was lost reconciled with the state the client shows;
    and the check that all members show the same group ([ensure_converged]).  Concurrent
    requests are performed in the order in which they end, which the world chooses. *)

Local Open Scope N_scope.

(** The entries of [l] in an order of its positions *)
Definition pick {A} (order : list nat) (l : list A) : list A := omap (λ i, l !! i) order.

Definition in_hash_order {A} (l : list A) : prog RunnerEffect (list A) :=
  order ← trigger (HashOrder (length l)); mret (pick order l).

(** [HashMap::from_iter]: a later entry replaces an earlier one. *)
Definition collect_map {A} (l : list (string * A)) : gmap string A :=
  foldl (λ m p, <[p.1 := p.2]> m) ∅ l.

Definition physical_groups (workers : list WorkerSpec) : gmap string (list WorkerSpec) :=
  foldl (λ groups w,
           <[physical_worker_id w := default [] (groups !! physical_worker_id w) ++ [w]]> groups)
    ∅ workers.

Definition PhysicalCommands : Type := list (string * list BatchFanoutCommand).

Definition with_request_id (c : BatchFanoutCommand) (request_id : string) : BatchFanoutCommand :=
  MkBatchCommand (client_id c) (Some request_id) (cmd_command c) (cmd_sample c)
    (cmd_expected_epoch c) (cmd_phase c) (cmd_profile c) (cmd_cursor c).

Definition with_benchmark_cursor (c : BatchFanoutCommand) (cursor : BenchmarkCursor) :
    BatchFanoutCommand :=
  MkBatchCommand (client_id c) (cmd_request_id c) (cmd_command c) (cmd_sample c)
    (cmd_expected_epoch c) (cmd_phase c) (cmd_profile c) (Some cursor).

Section fanout.
Context {ext : RunnerExternals}.

(** ** Building the batches *)

Definition batch_command_request_id (worker : WorkerSpec) (command : BatchFanoutCommand) :
    prog RunnerEffect string :=
  context ← with_metadata worker (cmd_command command) (cmd_expected_epoch command)
              (cmd_phase command) None;
  mret (ctx_request_id context).

Fixpoint build_group (command_for : WorkerSpec → BatchFanoutCommand) (group : list WorkerSpec) :
    prog RunnerEffect (list BatchFanoutCommand) :=
  match group with
  | [] => mret []
  | w :: rest =>
      let command := command_for w in
      command ← match cmd_request_id command with
                | Some _ => mret command
                | None =>
                    request_id ← batch_command_request_id w command;
                    mret (with_request_id command request_id)
                end;
      commands ← build_group command_for rest;
      mret (command :: commands)
  end.

Fixpoint build_groups (command_for : WorkerSpec → BatchFanoutCommand)
    (groups : list (string * list WorkerSpec)) : prog RunnerEffect PhysicalCommands :=
  match groups with
  | [] => mret []
  | (physical_id, group) :: rest =>
      cmds ← build_group command_for group;
      commands ← build_groups command_for rest;
      mret ((physical_id, cmds) :: commands)
  end.

Definition build_batch_commands (workers : list WorkerSpec)
    (command_for : WorkerSpec → BatchFanoutCommand) : prog RunnerEffect PhysicalCommands :=
  groups ← in_hash_order (map_to_list (physical_groups workers));
  build_groups command_for groups.

(** ** One physical worker *)

Definition workers_by_id (workers : list WorkerSpec) : gmap string WorkerSpec :=
  collect_map ((λ w, (id w, w)) <$> workers).

Definition batch_physical_base_url (physical_id : string) (cmds : list BatchFanoutCommand)
    (by_id : gmap string WorkerSpec) : string :=
  match head (omap (λ c, by_id !! client_id c) cmds) with
  | Some worker =>
      match split_once_str "/client/" (url worker) with
      | Some (base, _) => trim_end_matches "/" base
      | None => trim_end_matches "/" (url worker)
      end
  | None => "http://" +:+ physical_id +:+ ":8080"
  end.

(** Counts of timeouts and connect errors only feed the printed metrics. *)
Record BatchPhysicalAttempt := MkAttempt {
  attempt_physical_id : string;
  attempt_successes : list WorkerSpec;
  attempt_failures : list FanoutFailure;
  attempt_latency_ms : N;
}.

(** Every client of the batch failed for the same reason. *)
Definition all_failed (by_id : gmap string WorkerSpec) (cmds : list BatchFanoutCommand)
    (error : RunnerError) : list FanoutFailure :=
  omap (λ c, (λ w, MkFailure w error) <$> by_id !! client_id c) cmds.

Definition item_success (by_id : gmap string WorkerSpec) (r : BatchCommandResult) :
    option WorkerSpec :=
  if String.eqb (response_status (res_response r)) "ok" then by_id !! res_client_id r else None.

Definition item_failure (by_id : gmap string WorkerSpec) (r : BatchCommandResult) :
    option FanoutFailure :=
  if String.eqb (response_status (res_response r)) "ok" then None
  else (λ w, MkFailure w (bail ("client " +:+ res_client_id r +:+ " batch error: "
                                +:+ response_message (res_response r))))
       <$> by_id !! res_client_id r.

(** The match on the response *)
Definition sort_results (by_id : gmap string WorkerSpec) (cmds : list BatchFanoutCommand)
    (outcome : HttpOutcome (list BatchCommandResult)) : list WorkerSpec * list FanoutFailure :=
  match outcome with
  | Decoded items => (omap (item_success by_id) items, omap (item_failure by_id) items)
  | DecodeError err =>
      ([], all_failed by_id cmds (bail ("batch response parse error: " +:+ re_display err)))
  | BadStatus status body =>
      ([], all_failed by_id cmds
             (bail ("batch HTTP error: " +:+ http_status_text status +:+ " " +:+ body)))
  | SendError err =>
      ([], all_failed by_id cmds (bail ("batch request error: " +:+ re_display err)))
  end.

Definition batch_fanout_collect_physical (by_id : gmap string WorkerSpec) (physical_id : string)
    (cmds : list BatchFanoutCommand) : prog RunnerEffect BatchPhysicalAttempt :=
  let batch_url := trim_end_matches "/" (batch_physical_base_url physical_id cmds by_id)
                   +:+ "/batch-command" in
  started ← trigger NowMs;
  outcome ← trigger (PostBatch batch_url cmds);
  now ← trigger NowMs;
  let '(successes, failures) := sort_results by_id cmds outcome in
  mret (MkAttempt physical_id successes failures (now - started)).

(** ** One pass *)

Record BatchFanoutCollectPass := MkPass {
  pass_successes : list WorkerSpec;
  pass_failures : list FanoutFailure;
  pass_latencies : list (string * N);
  pass_request_count : N;
}.

Definition add_attempt (p : BatchFanoutCollectPass) (a : BatchPhysicalAttempt) :
    BatchFanoutCollectPass :=
  MkPass (pass_successes p ++ attempt_successes a) (pass_failures p ++ attempt_failures a)
    (pass_latencies p ++ [(attempt_physical_id a, attempt_latency_ms a)])
    (pass_request_count p + 1).

Fixpoint collect_attempts (by_id : gmap string WorkerSpec) (commands : PhysicalCommands)
    (p : BatchFanoutCollectPass) : prog RunnerEffect BatchFanoutCollectPass :=
  match commands with
  | [] => mret p
  | (physical_id, cmds) :: rest =>
      attempt ← batch_fanout_collect_physical by_id physical_id cmds;
      collect_attempts by_id rest (add_attempt p attempt)
  end.

Definition batch_fanout_collect_pass (workers : list WorkerSpec) (commands : PhysicalCommands) :
    prog RunnerEffect BatchFanoutCollectPass :=
  order ← trigger (CompletionOrder (length commands));
  collect_attempts (workers_by_id workers) (pick order commands) (MkPass [] [] [] 0).

(** ** Reconciling lost receives *)

Definition set_error (f : FanoutFailure) (e : RunnerError) : FanoutFailure :=
  MkFailure (failed_worker f) e.

(** The loop over the failures: the reconciled ids and what remains. *)
Fixpoint reconcile_failures (failures : list FanoutFailure)
    (expected_by_client : gmap string ExpectedReceiveCommitState) (reconciled_ids : gset string)
    (remaining : list FanoutFailure) : prog RunnerEffect (gset string * list FanoutFailure) :=
  match failures with
  | [] => mret (reconciled_ids, remaining)
  | failure :: rest =>
      match expected_by_client !! id (failed_worker failure) with
      | None => reconcile_failures rest expected_by_client reconciled_ids (remaining ++ [failure])
      | Some expected =>
          if is_profiled_resource_budget_failure (failed_worker failure) (failure_error failure)
          then reconcile_failures rest expected_by_client reconciled_ids (remaining ++ [failure])
          else
            let original_error := error_text (failure_error failure) in
            reconciled ← receive_commit_reconciled_by_state (failed_worker failure) expected
                           original_error;
            match reconciled with
            | Ok true =>
                reconcile_failures rest expected_by_client
                  ({[id (failed_worker failure)]} ∪ reconciled_ids) (remaining ++ [failure])
            | Ok false =>
                reconcile_failures rest expected_by_client reconciled_ids (remaining ++ [failure])
            | Err err =>
                let text := error_text err in
                let error := if contains "could not query worker" text then failure_error failure
                             else bail ("batch receive reconciliation failed: " +:+ text
                                        +:+ "; original_error=" +:+ original_error) in
                reconcile_failures rest expected_by_client reconciled_ids
                  (remaining ++ [set_error failure error])
            end
      end
  end.

Definition partition_batch_failures_by_reconciled_state (failures : list FanoutFailure)
    (reconciled_ids : gset string) : list WorkerSpec * list FanoutFailure :=
  (failed_worker <$> filter (λ f, id (failed_worker f) ∈ reconciled_ids) failures,
   filter (λ f, id (failed_worker f) ∉ reconciled_ids) failures).

Definition reconcile_batch_receive_failures (failures : list FanoutFailure)
    (expected_by_client : gmap string ExpectedReceiveCommitState) :
    prog RunnerEffect (list WorkerSpec * list FanoutFailure) :=
  '(reconciled_ids, remaining) ← reconcile_failures failures expected_by_client ∅ [];
  mret (partition_batch_failures_by_reconciled_state remaining reconciled_ids).

Definition retry_batch_commands_for_failures (commands : PhysicalCommands)
    (failures : list FanoutFailure) : PhysicalCommands :=
  let failed_ids : gset string := list_to_set ((λ f, id (failed_worker f)) <$> failures) in
  omap (λ '(physical_id, cmds),
          match filter (λ c, client_id c ∈ failed_ids) cmds with
          | [] => None
          | retry_cmds => Some (physical_id, retry_cmds)
          end) commands.
End fanout.

(** [latency_percentiles]: the median, the 95th, the 99th and the maximum *)
Definition latency_percentiles (latencies : list N) :
    option N * option N * option N * option N :=
  match latencies with
  | [] => (None, None, None, None)
  | _ =>
      let sorted := merge_sort N.le latencies in
      let percentile pct :=
        let len := N.of_nat (length sorted) in
        sorted !! N.to_nat ((saturating_sub len 1 * pct + 99) `div` 100) in
      (percentile 50, percentile 95, percentile 99, last sorted)
  end.

(** [DEFAULT_FANOUT_RETRY_PASSES] *)
Definition FANOUT_RETRY_PASSES : nat := 1.

Section workers.
Context {G : Type} {ext : RunnerExternals} {cfg : Settings}.

(** ** The fan-out *)

(** Requests made, latencies and successes so far, and the failures of the last pass *)
Record FanoutTotals := MkTotals {
  total_requests : N;
  total_latencies : list (string * N);
  total_successes : list WorkerSpec;
  last_failures : list FanoutFailure;
}.

(** The loop [for retry_pass in 0..=FANOUT_RETRY_PASSES], [passes] of them left *)
Fixpoint fanout_passes (passes : nat) (workers : list WorkerSpec) (retry_commands : PhysicalCommands)
    (expected_by_client : option (gmap string ExpectedReceiveCommitState)) (t : FanoutTotals) :
    prog RunnerEffect FanoutTotals :=
  match passes, retry_commands with
  | O, _ | _, [] => mret t
  | S passes, _ =>
      pass ← batch_fanout_collect_pass workers retry_commands;
      '(reconciled_successes, failures) ←
        match expected_by_client with
        | Some expected => reconcile_batch_receive_failures (pass_failures pass) expected
        | None => mret ([], pass_failures pass)
        end;
      fanout_passes passes workers (retry_batch_commands_for_failures retry_commands failures)
        expected_by_client
        (MkTotals (total_requests t + pass_request_count pass)
           (total_latencies t ++ pass_latencies pass)
           (total_successes t ++ pass_successes pass ++ reconciled_successes) failures)
  end.

Definition batch_fanout_workers (phase operation : string) (workers : list WorkerSpec)
    (commands_by_physical : PhysicalCommands)
    (expected_by_client : option (gmap string ExpectedReceiveCommitState)) : M G unit :=
  let~ t <- perform (fanout_passes (S FANOUT_RETRY_PASSES) workers commands_by_physical
                       expected_by_client (MkTotals 0 [] [] [])) in
  let '(_, p95, _, _) := latency_percentiles (snd <$> total_latencies t) in
  let~ _ <- modify (λ s, set_fanout
    (Batches.record (fanout s)
       (Batches.MkFanoutSummary (total_requests t) (N.of_nat (length (last_failures t))) p95)) s) in
  match last_failures t with
  | [] => ret tt
  | failures => fail (BatchFanoutError phase operation failures)
  end.

(** ** One command for every worker *)

(** A pass of [fanout_collect_workers], in completion order: what succeeded, what failed *)
Fixpoint run_fanout_pass {T} (op : WorkerSpec → Call T) (workers : list WorkerSpec) :
    prog RunnerEffect (list (WorkerSpec * T) * list FanoutFailure) :=
  match workers with
  | [] => mret ([], [])
  | w :: rest =>
      done ← op w;
      '(successes, failures) ← run_fanout_pass op rest;
      mret match done with
           | Ok value => ((w, value) :: successes, failures)
           | Err error => (successes, MkFailure w error :: failures)
           end
  end.

Definition fanout_pass {T} (op : WorkerSpec → Call T) (workers : list WorkerSpec) :
    prog RunnerEffect (list (WorkerSpec * T) * list FanoutFailure) :=
  order ← trigger (CompletionOrder (length workers));
  run_fanout_pass op (pick order workers).

(** [fanout_collect_workers] without its summary: one more pass for the workers that
    failed *)
Fixpoint fanout_collect_workers {T} (retries : nat) (op : WorkerSpec → Call T)
    (workers : list WorkerSpec) : prog RunnerEffect (list (WorkerSpec * T) * list FanoutFailure) :=
  '(successes, failures) ← fanout_pass op workers;
  match retries, failures with
  | O, _ | _, [] => mret (successes, failures)
  | S retries, _ =>
      '(later, failures) ← fanout_collect_workers retries op (failed_worker <$> failures);
      mret (successes ++ later, failures)
  end.

(** ** Convergence *)

(** The results in the order of the workers; each is taken out of the map. *)
Fixpoint order_states {T} (workers : list WorkerSpec) (by_id : gmap string (WorkerSpec * T)) :
    result RunnerError (list (WorkerSpec * T)) :=
  match workers with
  | [] => Ok []
  | w :: rest =>
      let? state <- ok_or (by_id !! id w)
                      (bail ("Missing ShowGroupState result for worker " +:+ id w)) in
      let? ordered <- order_states rest (delete (id w) by_id) in
      Ok (state :: ordered)
  end.

Definition collect_worker_group_states (workers : list WorkerSpec) :
    Call (list (WorkerSpec * GroupStateSnapshot)) :=
  '(successes, failures) ← fanout_collect_workers FANOUT_RETRY_PASSES show_group_state workers;
  mret match failures with
       | [] => order_states workers (collect_map ((λ p, (id p.1, p)) <$> successes))
       | _ => Err (BatchFanoutError "convergence" "show_group_state" failures)
       end.

(** The comparisons of [ensure_converged] *)
Definition check_converged (expected_members : list string)
    (states : list (WorkerSpec * GroupStateSnapshot)) : result RunnerError GroupStateSnapshot :=
  match states with
  | [] => Err (bail "No active workers to verify")
  | (reference_worker, reference) :: rest =>
      if bool_decide (members reference = expected_members) then
        match find (λ p, negb (matches reference p.2)) rest with
        | None => Ok reference
        | Some (worker, state) =>
            Err (bail ("Convergence mismatch on worker " +:+ id worker +:+ ". Expected "
                       +:+ describe_state ", " reference +:+ "; got " +:+ describe_state ", " state))
        end
      else Err (bail ("Reference worker " +:+ id reference_worker
                      +:+ " member list mismatch. Expected " +:+ debug_list expected_members
                      +:+ ", got " +:+ debug_list (members reference)))
  end.

Definition ensure_converged (active_workers : list WorkerSpec) (expected_active_ids : list string) :
    Call GroupStateSnapshot :=
  match active_workers with
  | [] => mret (Err (bail "No active workers to verify"))
  | _ =>
      let^ states <- collect_worker_group_states active_workers in
      mret (check_converged (sort_strings expected_active_ids) states)
  end.
End workers.

(** ** Failures name the workers that were asked *)

Lemma collect_map_snoc {A} (l : list (string * A)) p :
  collect_map (l ++ [p]) = <[p.1 := p.2]> (collect_map l).
Proof. unfold collect_map. by rewrite foldl_app. Qed.

Lemma collect_map_elem {A} (l : list (string * A)) k a : collect_map l !! k = Some a → (k, a) ∈ l.
Proof.
  induction l as [|[k' a'] l IH] using rev_ind; [done|]. rewrite collect_map_snoc, elem_of_app. cbn.
  destruct (decide (k' = k)) as [->|Hne].
  - rewrite lookup_insert_eq. intros [= ->]. right. by apply list_elem_of_singleton.
  - rewrite lookup_insert_ne by done. auto.
Qed.

Lemma collect_map_lookup {A} (l : list (string * A)) k a :
  NoDup l.*1 → (k, a) ∈ l → collect_map l !! k = Some a.
Proof.
  induction l as [|[k' a'] l IH] using rev_ind; [by intros _ ?%not_elem_of_nil|].
  rewrite fmap_app, collect_map_snoc, elem_of_app, list_elem_of_singleton. cbn.
  intros (Hnd & Hd & _)%NoDup_app [Hin|[= -> ->]]; [|by rewrite lookup_insert_eq].
  rewrite lookup_insert_ne; [by apply IH|]. intros ->. apply (Hd k).
  - apply list_elem_of_fmap. by exists (k, a).
  - by apply list_elem_of_singleton.
Qed.

Definition blames (workers : list WorkerSpec) (failures : list FanoutFailure) : Prop :=
  Forall (λ f, failed_worker f ∈ workers) failures.

Lemma workers_by_id_elem workers k w : workers_by_id workers !! k = Some w → w ∈ workers ∧ id w = k.
Proof.
  intros H%collect_map_elem. apply list_elem_of_fmap in H as (w' & [= -> ->] & Hw). done.
Qed.

Lemma all_failed_blames workers cmds error : blames workers (all_failed (workers_by_id workers) cmds error).
Proof.
  apply Forall_forall. intros f Hf. unfold all_failed in Hf.
  apply list_elem_of_omap in Hf as (c & _ & Hc).
  destruct (workers_by_id workers !! client_id c) as [w|] eqn:E; [|done]. injection Hc as <-.
  cbn. by eapply workers_by_id_elem.
Qed.

Lemma sort_results_blames {ext : RunnerExternals} workers cmds o :
  blames workers (sort_results (workers_by_id workers) cmds o).2.
Proof.
  destruct o as [err|status body|items|err]; cbn [sort_results snd];
    try apply all_failed_blames. apply Forall_forall. intros f Hf.
  apply list_elem_of_omap in Hf as (r & _ & Hr). unfold item_failure in Hr.
  destruct (String.eqb _ "ok"); [done|].
  destruct (workers_by_id workers !! res_client_id r) as [w|] eqn:E; [|done]. injection Hr as <-.
  cbn. by eapply workers_by_id_elem.
Qed.

Section blames.
Context {ext : RunnerExternals} {H : Type} (answers : H → ∀ X, RunnerEffect X → X → H → Prop).

Lemma collect_attempts_blames workers commands : ∀ p g,
  blames workers (pass_failures p) →
  always answers g (collect_attempts (workers_by_id workers) commands p)
    (λ _ p', blames workers (pass_failures p')).
Proof.
  induction commands as [|[physical_id cmds] commands IH]; intros p g Hp; [done|].
  cbn [collect_attempts]. apply always_bind. unfold batch_fanout_collect_physical.
  apply always_bind, always_trigger. intros started g1 _.
  apply always_bind, always_trigger. intros o g2 _. apply always_bind, always_trigger.
  intros now g3 _. pose proof (sort_results_blames workers cmds o) as Hb.
  destruct (sort_results _ _ _) as [successes failures]. cbn [snd] in Hb.
  apply IH. cbn. by apply Forall_app.
Qed.

Lemma reconcile_failures_blames workers expected failures : ∀ ids remaining g,
  blames workers failures → blames workers remaining →
  always answers g (reconcile_failures failures expected ids remaining)
    (λ _ r, blames workers r.2).
Proof.
  induction failures as [|f failures IH]; intros ids remaining g Hf Hr; [done|].
  apply Forall_cons in Hf as [Hf Hfs].
  assert (Hone : ∀ f', failed_worker f' = failed_worker f → blames workers (remaining ++ [f'])).
  { intros f' E. apply Forall_app. split; [done|]. apply Forall_singleton. by rewrite E. }
  cbn [reconcile_failures]. destruct (expected !! _) as [e|]; [|by apply IH; auto].
  destruct (is_profiled_resource_budget_failure _ _); [by apply IH; auto|].
  apply always_bind. eapply always_mono; [|apply always_true].
  intros g' [[]|err] _; [by apply IH; auto..|]. cbv zeta.
  destruct (contains _ _); apply IH; auto.
Qed.

Lemma reconcile_blames workers expected failures g :
  blames workers failures →
  always answers g (reconcile_batch_receive_failures failures expected)
    (λ _ r, blames workers r.2).
Proof.
  intros Hf. unfold reconcile_batch_receive_failures. apply always_bind.
  eapply always_mono; [|apply (reconcile_failures_blames workers); [done|constructor]].
  intros g' [ids remaining] Hr. cbn in *.
  apply Forall_forall. intros f [_ Hin]%list_elem_of_filter.
  exact (proj1 (Forall_forall _ _) Hr f Hin).
Qed.

Lemma fanout_passes_blames workers expected passes : ∀ commands tot g,
  blames workers (last_failures tot) →
  always answers g (fanout_passes passes workers commands expected tot)
    (λ _ tot', blames workers (last_failures tot')).
Proof.
  induction passes as [|passes IH]; intros commands tot g Ht; [done|].
  cbn [fanout_passes]. destruct commands as [|c commands]; [done|].
  apply always_bind. unfold batch_fanout_collect_pass. apply always_bind, always_trigger.
  intros order g1 _. eapply always_mono; [|apply collect_attempts_blames; constructor].
  intros g2 p Hp. apply always_bind. destruct expected as [expected|].
  - eapply always_mono; [|apply reconcile_blames; exact Hp].
    intros g3 [successes failures] Hf. by apply IH.
  - by apply IH.
Qed.

Lemma run_fanout_pass_blames {T} (op : WorkerSpec → Call T) workers all : ∀ g,
  workers ⊆ all →
  always answers g (run_fanout_pass op workers) (λ _ r, blames all r.2).
Proof.
  induction workers as [|w workers IH]; intros g Hsub; [constructor|]. cbn [run_fanout_pass].
  apply always_bind. eapply always_mono; [|apply always_true]. intros g1 done _.
  apply always_bind. eapply always_mono; [|apply IH; set_solver].
  intros g2 [successes failures] Hf. destruct done; cbn in *; [done|].
  constructor; [cbn; set_solver|done].
Qed.

Lemma pick_subseteq {A} order (l : list A) : pick order l ⊆ l.
Proof.
  intros x Hx. apply list_elem_of_omap in Hx as (i & _ & Hi). by eapply list_elem_of_lookup_2.
Qed.

Lemma fanout_collect_blames {T} (op : WorkerSpec → Call T) all retries : ∀ workers g,
  workers ⊆ all →
  always answers g (fanout_collect_workers retries op workers) (λ _ r, blames all r.2).
Proof.
  induction retries as [|retries IH]; intros workers g Hsub; cbn [fanout_collect_workers];
    apply always_bind; unfold fanout_pass; apply always_bind, always_trigger; intros order g1 _;
    (eapply always_mono; [|apply (run_fanout_pass_blames _ _ all); etrans;
                           [apply pick_subseteq|exact Hsub]]);
    intros g2 [successes failures] Hf; [done|].
  destruct failures as [|f failures]; [done|]. apply always_bind.
  eapply always_mono; [|apply IH].
  - by intros g3 [later failures'].
  - intros w Hw. apply list_elem_of_fmap in Hw as (f' & -> & Hf').
    exact (proj1 (Forall_forall _ _) Hf f' Hf').
Qed.
End blames.
