(* ===== verification/Membership.v ===== *)
(** * Moving the members of the MLS group

    How the OpenMLS runner changes the group
    ([OpenMLS_containerized/src/staircase_runner.rs]): choosing actors and victims, the
    fan-out of a commit to its recipients, adding a batch of members, removing one,
    evicting members that died, and moving to a size with both. *)

From S2P Require Import Prelude Text Interaction HttpRetry RunnerConfig Worker RunnerCommands.
From S2P Require Import Program RunnerState.
From S2P Require Batches Plateau Sampling.
From stdpp Require Import options.

Local Open Scope N_scope.

(** ** Choosing workers *)

Definition len {A} (l : list A) : N := N.of_nat (length l).

(** The first element with the least key *)
Fixpoint min_by {A} (before : A → A → bool) (l : list A) : option A :=
  match l with
  | [] => None
  | x :: rest =>
      match min_by before rest with
      | Some y => Some (if before y x then y else x)
      | None => Some x
      end
  end.

(** Keys [(count, id)] *)
Definition key_before (k k' : N * string) : bool :=
  (k.1 <? k'.1) || ((k.1 =? k'.1) && negb (bool_decide (k.2 = k'.2)) && str_leb k.2 k'.2).

Definition count_of (counts : gmap string N) (wid : string) : N := default 0 (counts !! wid).
Definition bump (counts : gmap string N) (wid : string) : gmap string N :=
  <[wid := count_of counts wid + 1]> counts.

Definition find_worker (wid : string) (l : list WorkerSpec) : option WorkerSpec :=
  find (λ w, String.eqb (id w) wid) l.
Definition worker_position (wid : string) (l : list WorkerSpec) : option nat :=
  fst <$> list_find (λ w, id w = wid) l.

Definition is_external (w : WorkerSpec) : bool := profile_enabled w && is_external_device w.

Definition indices_where (p : WorkerSpec → bool) (l : list WorkerSpec) : list nat :=
  filter (λ i, from_option p false (l !! i) = true) (seq 0 (length l)).

Definition active_external_indices : list WorkerSpec → list nat := indices_where is_external.
Definition active_profiled_indices : list WorkerSpec → list nat := indices_where profile_enabled.
Definition active_profiled_non_external_indices : list WorkerSpec → list nat :=
  indices_where (λ w, profile_enabled w && negb (is_external_device w)).

Definition external_ids (l : list WorkerSpec) : list string :=
  sort_strings (id <$> filter (λ w, is_external w = true) l).

(** Every external device as a victim, with the next one as the actor *)
Definition external_remove_rejoin_pairs (l : list WorkerSpec) : list (string * string) :=
  let ids := external_ids l in
  if (length ids <? 2)%nat then []
  else imap (λ idx victim, (victim, default "" (ids !! (S idx `mod` length ids)%nat))) ids.

Definition least_sampled_active_external_id (l : list WorkerSpec) (success_counts : gmap string N)
    (required : N) : option string :=
  id <$> min_by (λ w w', key_before (count_of success_counts (id w), id w)
                                    (count_of success_counts (id w'), id w'))
           (filter (λ w, is_external w && (count_of success_counts (id w) <? required) = true) l).

Definition removable_member_indices (l : list WorkerSpec) (actor_idx : nat)
    (protect_external_members protect_profile_enabled_members : bool) : list nat :=
  filter (λ i, i ≠ actor_idx)
    (indices_where (λ w, (negb protect_external_members || negb (is_external_device w))
                         && (negb protect_profile_enabled_members || negb (profile_enabled w))) l).

Definition protected_member_floor (workers : list WorkerSpec)
    (protect_profile_enabled_members protect_external_members : bool) : nat :=
  let chosen (b : bool) (p : WorkerSpec → bool) : gset string :=
    if b then list_to_set (id <$> filter (λ w, p w = true) workers) else ∅ in
  size (chosen protect_profile_enabled_members profile_enabled
        ∪ chosen protect_external_members is_external_device).

Definition any_profile_enabled_remaining (active idle : list WorkerSpec) : bool :=
  existsb profile_enabled (active ++ idle).

Definition frontload_profile_enabled_singletons_in_idle (l : list WorkerSpec) : list WorkerSpec :=
  filter (λ w, is_external_device w = true) l
  ++ filter (λ w, negb (is_external_device w) && profiled_singleton w = true) l
  ++ filter (λ w, negb (is_external_device w) && negb (profiled_singleton w) = true) l.

Section membership.
Context {G : Type} `{!Plateau.Rng G} {ext : RunnerExternals} {cfg : Settings}.

Abbreviation M := (RunnerState.M G).

Definition least_used_external_actor_id (actor_use_counts : gmap string N) : M (option string) :=
  let~ l <- gets active in
  match min_by N.ltb ((λ w, count_of actor_use_counts (id w)) <$> filter (λ w, is_external_device w = true) l) with
  | None => ret None
  | Some minimum =>
      let~ candidates <- shuffled
        (id <$> filter (λ w, is_external_device w
                             && (count_of actor_use_counts (id w) =? minimum) = true) l) in
      ret (last candidates)
  end.

Definition choose_remove_actor_and_removable_indices (forced_actor_id : option string)
    (protect_external_members protect_profile_enabled_members : bool)
    (requested_batch_size : nat) : M (nat * list nat) :=
  let~ l <- gets active in
  let removable i :=
    removable_member_indices l i protect_external_members protect_profile_enabled_members in
  match forced_actor_id ≫= λ wid, worker_position wid l with
  | Some actor_idx => ret (actor_idx, removable actor_idx)
  | None =>
      let candidates := (λ i, (i, removable i)) <$> seq 0 (length l) in
      let capable := filter (λ c : nat * list nat, (requested_batch_size <= length c.2)%nat) candidates in
      match capable with
      | _ :: _ => let~ k <- random_index (length capable) in expect (capable !! k)
      | [] =>
          let max_removable := max_list (length ∘ snd <$> candidates) in
          let best := filter (λ c : nat * list nat, length c.2 = max_removable) candidates in
          match best with
          | [] => fail (bail "No active removal actor candidates")
          | _ => let~ k <- random_index (length best) in expect (best !! k)
          end
      end
  end.

(** ** A commit and its recipients *)

(** The fan-out every commit ends with: the sampled recipients, one batch per physical
    worker, and the state each recipient is expected to reach. *)
Definition fan_out_commit (pending : bool) (phase operation fanout_phase commit_create_op : string)
    (recipients : list WorkerSpec) (plateau_size commit_epoch seq_no : N)
    (cursor : BenchmarkCursor) (expected_of : WorkerSpec → ExpectedReceiveCommitState) : M unit :=
  let~ (sampled_ids, sample_index_map, sample_count) <- enough
    (Sampling.build_commit_receive_sampling_map sampler_fuel recipients
       max_commit_receive_samples_per_plateau commit_receive_sampling_seed plateau_size
       commit_epoch seq_no) in
  let command_for worker :=
    let sampled := bool_decide (id worker ∈ (sampled_ids : gset string)) in
    let expected_ep := expected_epoch (expected_of worker) in
    with_benchmark_cursor
      (MkBatchCommand (id worker) None
         (if pending then ProcessPending (Some [Commits]) None expected_ep sampled
          else ReceiveCommit sampled)
         (Some (MkSample commit_create_op (sample_index_map !! id worker) sample_count
                  (length recipients)))
         expected_ep (Some fanout_phase) (if sampled then Some true else None) None)
      cursor in
  let~ commands_by_physical <- perform (build_batch_commands recipients command_for) in
  batch_fanout_workers phase operation recipients commands_by_physical
    (Some (collect_map ((λ w, (id w, expected_of w)) <$> recipients))).

Definition fanout_phase_of (pending : bool) (prefix : string) : string :=
  prefix +:+ (if pending then ".fanout_process_pending" else ".fanout_receive_commit").

Definition not_in (ids : gset string) (l : list WorkerSpec) : list WorkerSpec :=
  filter (λ w, id w ∉ ids) l.

(** The clients that say they are not in the group, when all failing ones say so *)
Definition all_not_in_group (failures : list FanoutFailure) : option (gset string) :=
  let ids : gset string :=
    list_to_set ((λ f, id (failed_worker f))
                 <$> filter (λ f, is_not_in_group_error (failure_error f) = true) failures) in
  if bool_decide (ids ≠ ∅) && (size ids =? length failures)%nat then Some ids else None.

(** ** Evicting dead members *)

Definition pending_commits (max_messages expected_epoch : option N) : Command :=
  ProcessPending (Some [Commits]) max_messages expected_epoch false.

Definition best_effort_process_pending_commits_after_epoch_race (actor : WorkerSpec)
    (cursor : BenchmarkCursor) (attempt : N) : prog RunnerEffect (option string) :=
  let command := pending_commits (Some 8) None in
  context ← with_metadata actor command None
              (Some ("oom_eviction.actor_process_pending_after_epoch_race_" +:+ pretty attempt))
              (Some cursor);
  sent ← send_cmd_expect_ok_fragment_with_context actor command "process_pending processed;" context;
  mret match sent with Ok message => Some message | Err _ => None end.

Definition queued_remove_members_republished (message : string) : bool :=
  contains "queued remove_members" message && contains "was retried and published" message.

Definition member_of (ids : gset string) (s : GroupStateSnapshot) : list string :=
  filter (λ m, m ∈ ids) (members s).
Definition member_not_of (ids : gset string) (s : GroupStateSnapshot) : list string :=
  filter (λ m, m ∉ ids) (members s).

Definition next_epoch (s : GroupStateSnapshot) : N := wrapping_add64 (epoch s) 1.

(** The loop [for attempt in 1..=3], [attempts] of them left *)
Fixpoint publish_remove_attempts (attempts : nat) (attempt : N) (actor : WorkerSpec)
    (dead_ids : gset string) (cursor : BenchmarkCursor) : Call ExpectedGroupState :=
  match attempts with
  | O => mret (Err (bail
           "remove_members for OOM eviction kept losing the epoch race after 3 attempts"))
  | S attempts =>
      let again := publish_remove_attempts attempts (attempt + 1) actor dead_ids cursor in
      let process_pending := best_effort_process_pending_commits_after_epoch_race actor cursor attempt in
      let^ actor_before <- show_group_state actor in
      let removed_ids := member_of dead_ids actor_before in
      let visible := bool_decide (dead_ids ⊆ list_to_set (members actor_before)) in
      caught_up ← (if visible then mret None else process_pending);
      match caught_up with
      | Some _ => again
      | None =>
          let expected_members := member_not_of dead_ids actor_before in
          match removed_ids with
          | [] => mret (Ok (expected_group_state actor_before (epoch actor_before) expected_members))
          | _ =>
              let expected_after_commit :=
                expected_group_state actor_before (next_epoch actor_before) expected_members in
              let command := RemoveMembers removed_ids in
              context ← with_metadata actor command None (Some "oom_eviction.remove_members")
                          (Some cursor);
              let^ response <- send_command_with_context actor command context in
              let message := response_message response in
              if String.eqb (response_status response) "ok" then
                if contains "removed locally; group commit published" message
                then mret (Ok expected_after_commit)
                else if is_queued_epoch_race_message message then
                  caught_up ← process_pending;
                  match caught_up with
                  | Some message =>
                      if queued_remove_members_republished message then
                        let^ actor_after <- show_group_state actor in
                        let expected_members := member_not_of dead_ids actor_after in
                        let expected_epoch :=
                          if (length expected_members =? length (members actor_after))%nat
                          then epoch actor_after else next_epoch actor_after in
                        mret (Ok (expected_group_state actor_after expected_epoch expected_members))
                      else again
                  | None => again
                  end
                else mret (Err (unexpected_ok actor message))
              else if String.eqb (response_status response) "error" then
                if contains "pending commit exists" message
                then _ ← process_pending; again
                else mret (Err (worker_error actor message))
              else mret (Err (unknown_status actor response))
          end
      end
  end.

Definition publish_remove_members_with_epoch_race_recovery (actor : WorkerSpec)
    (dead_ids : gset string) (cursor : BenchmarkCursor) : Call ExpectedGroupState :=
  publish_remove_attempts 3 1 actor dead_ids cursor.

(** The actor fails too: it is one more to evict, and another one is the actor. *)
Definition evict_actor_failed (cursor : BenchmarkCursor) (actor : WorkerSpec)
    (recipients : list WorkerSpec) (dead_ids : gset string) (error : RunnerError) :
    M (gset string + unit) :=
  let~ recorded <- record_profiled_worker_failure cursor actor error
                     "evict_oom_eviction_actor_and_retry" (head recipients) in
  if recorded : bool then ret (inl ({[id actor]} ∪ dead_ids)) else fail error.

Definition evict_finish (gone : gset string) : M (gset string + unit) :=
  let~ _ <- modify (λ s, set_active (not_in gone (active s)) s) in ret (inr tt).

(** One turn of the loop of [evict_oom_group_members] *)
Definition evict_turn (pending : bool) (plateau_size : N) (dead_ids : gset string) :
    M (gset string + unit) :=
  let~ l <- gets active in
  match not_in dead_ids l with
  | [] => fail (bail "No live OpenMLS member remains to evict OOM workers")
  | actor :: _ =>
      let cursor := new_cursor plateau_size plateau_size (len l) "oom_eviction" "evict_commit" in
      let recipients := filter (λ w, id w ≠ id actor) (not_in dead_ids l) in
      let actor_failed := evict_actor_failed cursor actor recipients dead_ids in
      let~ actor_before <- call (show_group_state actor) or actor_failed in
      match member_of dead_ids actor_before with
      | [] => evict_finish dead_ids
      | _ =>
          let~ expected_after_commit <-
            call (publish_remove_members_with_epoch_race_recovery actor dead_ids cursor)
            or actor_failed in
          let~ _ <- call (actor_receives pending actor expected_after_commit
                            "oom_eviction.actor_process_pending" "oom_eviction.actor_receive_commit"
                            cursor)
            or actor_failed in
          let~ _ <- fan_out_commit pending "oom_eviction"
                      (if pending then "process_pending" else "receive_commit")
                      (fanout_phase_of pending "oom_eviction") "remove" recipients plateau_size
                      (epoch expected_after_commit) 0 cursor
                      (λ _, ExpectGroup expected_after_commit)
            or (λ error,
              let~ new_dead <- record_batch_oom_failures cursor error
                                 "evict_oom_eviction_recipient_and_retry" (Some actor) in
              match new_dead, error with
              | Some workers, _ => ret (inl (list_to_set (id <$> workers) ∪ dead_ids))
              | None, BatchFanoutError _ _ failures =>
                  match all_not_in_group failures with
                  | Some ids => if resource_sweep then evict_finish (ids ∪ dead_ids) else fail error
                  | None => fail error
                  end
              | None, _ => fail error
              end) in
          evict_finish dead_ids
      end
  end.

Definition evict_oom_group_members (dead_workers : list WorkerSpec) (pending : bool)
    (plateau_size : N) : M unit :=
  match dead_workers with
  | [] => ret tt
  | _ => iterate loop_fuel (evict_turn pending plateau_size) (list_to_set (id <$> dead_workers))
  end.

(** ** Adding a batch *)

Definition JOIN_TIMEOUT_MS : N := 30000.

Fixpoint prepare_joiners (plateau_index target_size : N) (actor : WorkerSpec)
    (joiners prepared : list WorkerSpec) : M (list WorkerSpec) :=
  match joiners with
  | [] => ret prepared
  | joiner :: rest =>
      let~ size <- gets (λ s, len (active s)) in
      let cursor := new_cursor plateau_index target_size size "membership_add" "generate_key_package" in
      let~ _ <- call (send_cmd_expect_ok_fragment joiner GenerateKeyPackage
                        ("key package uploaded for " +:+ id joiner))
        or (λ error,
          let~ recorded <- record_profiled_worker_failure cursor joiner error "drop_idle_joiner"
                             (Some actor) in
          if recorded : bool then prepare_joiners plateau_index target_size actor rest prepared
          else fail error) in
      prepare_joiners plateau_index target_size actor rest (prepared ++ [joiner])
  end.

(** The joiners that joined, and those that failed to *)
Fixpoint join_all (plateau_index target_size : N) (actor : WorkerSpec)
    (joiners joined failed_joiners : list WorkerSpec) : M (list WorkerSpec * list WorkerSpec) :=
  match joiners with
  | [] => ret (joined, failed_joiners)
  | joiner :: rest =>
      let~ size <- gets (λ s, len (active s)) in
      let cursor := new_cursor plateau_index target_size size "membership_add" "join_from_welcome" in
      let~ _ <- (let~ r <- perform (send_cmd_until_ok loop_fuel joiner JoinFromWelcome
                                      (id joiner +:+ " joined from welcome") "404 Not Found"
                                      JOIN_TIMEOUT_MS) in
                 let~ r <- enough r in of_result r)
        or (λ error,
          let~ recorded <- record_profiled_worker_failure cursor joiner error
                             "evict_joiner_after_add_commit" (Some actor) in
          if recorded : bool
          then join_all plateau_index target_size actor rest joined (failed_joiners ++ [joiner])
          else fail error) in
      join_all plateau_index target_size actor rest (joined ++ [joiner]) failed_joiners
  end.

(** The actor of an add commit failed: its joiners are idle again, it is evicted, and they
    are counted among the dead. *)
Definition abandon_add (cursor : BenchmarkCursor) (actor : WorkerSpec) (joiners : list WorkerSpec)
    (target_size : N) (action : string) (error : RunnerError) : M unit :=
  let~ l <- gets active in
  let~ recorded <- record_profiled_worker_failure cursor actor error action
                     (head (filter (λ w, id w ≠ id actor) l)) in
  if recorded : bool then
    let~ _ <- modify (λ s, set_idle (joiners ++ idle s) s) in
    evict_oom_group_members (actor :: joiners) process_pending_fanout target_size
  else fail error.

(** The last part of [add_n_members], from the recipients' fan-out on *)
Definition finish_add (cursor : BenchmarkCursor) (actor_idx : nat) (actor : WorkerSpec)
    (expected_after_commit : ExpectedGroupState) (joined failed_joiners : list WorkerSpec)
    (target_size : N) : M unit :=
  let~ l <- gets active in
  let recipients := delete actor_idx l in
  let extend failed_recipients : M unit :=
    let~ _ <- modify (λ s, set_active (active s ++ joined) s) in
    evict_oom_group_members (failed_joiners ++ failed_recipients) process_pending_fanout target_size in
  let~ _ <- fan_out_commit process_pending_fanout "add_member" "receive_commit"
              (fanout_phase_of process_pending_fanout "add_member") "add" recipients target_size
              (epoch expected_after_commit) 0 cursor (λ _, ExpectGroup expected_after_commit)
    or (λ error,
      let~ dead <- record_batch_oom_failures cursor error "evict_add_recipient_and_retry"
                     (Some actor) in
      match dead, error with
      | Some dead_workers, _ => extend dead_workers
      | None, BatchFanoutError _ _ failures =>
          match all_not_in_group failures with
          | Some ids =>
              if resource_sweep then modify (λ s, set_active (not_in ids (active s)) s)
              else fail error
          | None => fail error
          end
      | None, _ => fail error
      end) in
  extend [].

Definition add_n_members (d : Batches.MembershipBatchDecision) (forced_actor_id : option string)
    (plateau_index target_size : N) : M unit :=
  let~ l <- gets active in
  let~ waiting <- gets idle in
  let batch_size := N.to_nat (Batches.effective d) in
  match l with
  | [] => fail (bail "No active group member available to add new member")
  | _ =>
  if (batch_size =? 0)%nat then fail (bail "Cannot add zero members") else
  if (length waiting <? batch_size)%nat
  then fail (bail ("Requested add batch of " +:+ pretty (N.of_nat batch_size)
                   +:+ " members, but only " +:+ pretty (len waiting)
                   +:+ " idle workers are available")) else
  let~ actor_idx <- match forced_actor_id ≫= λ wid, worker_position wid l with
                    | Some i => ret i
                    | None => random_index (length l)
                    end in
  let~ actor <- expect (l !! actor_idx) in
  let~ _ <- modify (set_idle (drop batch_size waiting)) in
  let~ joiners <- prepare_joiners plateau_index target_size actor (take batch_size waiting) [] in
  match joiners with
  | [] => ret tt
  | _ =>
      let joiner_ids := id <$> joiners in
      let~ actor_before <- call (show_group_state actor) in
      let expected_after_commit :=
        expected_group_state actor_before (next_epoch actor_before)
          (members actor_before ++ joiner_ids) in
      let cursor :=
        with_membership_batch
          (new_cursor plateau_index target_size (len l) "membership_add" "add_commit")
          (Batches.MkDecision (Batches.requested d) (len joiners) (Batches.group_cap d)
             (Batches.transition_cap d) (Batches.source d)) in
      let abandon := abandon_add cursor actor joiners target_size in
      let command := AddMembers joiner_ids in
      let~ context <- perform (with_metadata actor command None (Some "add_member.create")
                                 (Some cursor)) in
      let~ _ <- call (send_cmd_expect_ok_fragment_with_context actor command
                        "added locally in one commit" context)
        or abandon "evict_add_actor_and_retry" in
      let~ _ <- call (actor_receives process_pending_fanout actor expected_after_commit
                        "add_member.actor_process_pending" "add_member.actor_receive_commit" cursor)
        or abandon "evict_add_actor_receive_and_retry" in
      let~ (joined, failed_joiners) <- join_all plateau_index target_size actor joiners [] [] in
      finish_add cursor actor_idx actor expected_after_commit joined failed_joiners target_size
  end
  end.

(** ** Removing a batch *)

(** [swap_remove]: the last element takes the place of the one removed. *)
Definition swap_remove {A} (l : list A) (pos : nat) : option (A * list A) :=
  let! x <- l !! pos in
  let! y <- last l in
  Some (x, take (pred (length l)) (<[pos := y]> l)).

Fixpoint draw_removed (n : nat) (l : list WorkerSpec) (removable_indices : list nat)
    (removed : list WorkerSpec) : M (list WorkerSpec) :=
  match n with
  | O => ret removed
  | S n =>
      let~ pos <- random_index (length removable_indices) in
      let~ (removed_idx, rest) <- expect (swap_remove removable_indices pos) in
      let~ w <- expect (l !! removed_idx) in
      draw_removed n l rest (removed ++ [w])
  end.

(** The batch is cut to what can be removed; the check that follows in the code cannot
    fail then. *)
Definition remove_n_members (d : Batches.MembershipBatchDecision) (forced_actor_id : option string)
    (protect_external_members protect_profile_enabled_members : bool) (plateau_size : N) :
    M unit :=
  let~ l <- gets active in
  let batch_size := N.to_nat (Batches.effective d) in
  if (length l <=? 1)%nat then fail (bail "Cannot remove the last remaining member") else
  if (batch_size =? 0)%nat then fail (bail "Cannot remove zero members") else
  if (length l <=? batch_size)%nat
  then fail (bail ("Requested remove batch of " +:+ pretty (N.of_nat batch_size)
                   +:+ " members from " +:+ pretty (len l)
                   +:+ " active members; actor self-removal is not supported")) else
  let~ (actor_idx, removable_indices) <-
    choose_remove_actor_and_removable_indices forced_actor_id protect_external_members
      protect_profile_enabled_members batch_size in
  let~ actor <- expect (l !! actor_idx) in
  match removable_indices with
  | [] => fail (bail ("Cannot remove any member from " +:+ pretty (len l)
                      +:+ " active members without removing protected clients; actor=" +:+ id actor))
  | _ =>
      let batch_size := (batch_size `min` length removable_indices)%nat in
      let~ removed <- draw_removed batch_size l removable_indices [] in
      let removed_ids := id <$> removed in
      let removed_id_set : gset string := list_to_set removed_ids in
      let~ actor_before <- call (show_group_state actor) in
      let expected_after_commit :=
        expected_group_state actor_before (next_epoch actor_before)
          (member_not_of removed_id_set actor_before) in
      let cursor :=
        with_membership_batch
          (new_cursor plateau_size plateau_size (len l) "membership_remove" "remove_commit")
          (Batches.MkDecision (Batches.requested d) (N.of_nat batch_size) (Batches.group_cap d)
             (Batches.transition_cap d) (Batches.source d)) in
      let command := RemoveMembers removed_ids in
      let~ context <- perform (with_metadata actor command None (Some "remove_member.create")
                                 (Some cursor)) in
      let~ _ <- call (send_cmd_expect_ok_fragment_with_context actor command
                        "removed locally; group commit published" context)
        or (λ error,
          let~ recorded <- record_profiled_worker_failure cursor actor error
                             "evict_remove_actor_and_retry"
                             (head (filter (λ w, id w ≠ id actor) l)) in
          if recorded : bool then evict_oom_group_members [actor] process_pending_fanout plateau_size
          else fail error) in
      let~ _ <- call (actor_receives process_pending_fanout actor expected_after_commit
                        "remove_member.actor_process_pending" "remove_member.actor_receive_commit"
                        cursor) in
      let recipients := filter (λ w, id w ≠ id actor) l in
      let~ _ <- fan_out_commit process_pending_fanout "remove_member" "receive_commit"
                  (fanout_phase_of process_pending_fanout "remove_member") "remove" recipients
                  plateau_size (epoch expected_after_commit) 0 cursor
                  (λ w, if bool_decide (id w ∈ removed_id_set)
                        then ExpectRemoved (epoch expected_after_commit)
                        else ExpectGroup expected_after_commit) in
      modify (λ s, set_idle (reverse removed ++ idle s)
                     (set_active (not_in removed_id_set (active s)) s))
  end.

(** ** Moving to a size *)

(** How many of [max_allowed] are left to the other external devices that did not act yet *)
Definition reserved_for_external (l : list WorkerSpec) (actor : option string)
    (use_counts : gmap string N) (max_allowed : nat) : nat :=
  if external_coverage_lane then
    length (filter (λ w, is_external_device w && negb (bool_decide (actor = Some (id w)))
                         && (count_of use_counts (id w) =? 0) = true) l) `min` (max_allowed - 1)
  else 0.

Definition forced_external (use_counts : gmap string N) : M (option string) :=
  if external_coverage_lane then least_used_external_actor_id use_counts else ret None.

Definition forced_profiled : M (option string) :=
  if profile_only_singletons then
    let~ l <- gets active in
    let~ seen <- gets profiled_add_actor_seen in
    let~ unseen <- shuffled
      (id <$> filter (λ w, profile_enabled w && negb (bool_decide (id w ∈ seen)) = true) l) in
    ret (match last unseen with
         | Some wid => Some wid
         | None => id <$> find profile_enabled l
         end)
  else ret None.

Definition note_add_actor (forced_actor_id : option string) : M unit :=
  modify (λ s,
    match forced_actor_id with
    | Some wid =>
        if existsb (λ w, String.eqb (id w) wid && profile_enabled w) (active s)
        then set_seen ({[wid]} ∪ profiled_add_actor_seen s) s else s
    | None => s
    end).

Definition next_add_batch (seed_from_u64 : N → G) (cap : nat) (actor : option string) :
    M Batches.MembershipBatchDecision := λ s,
  let '(p, d) := Batches.plans_next_batch seed_from_u64 (add_membership_batches s) (len (active s))
                   (N.of_nat cap) actor in
  Ret (set_add_batches p s, Returned d).

Definition next_remove_batch (seed_from_u64 : N → G) (cap : nat) (actor : option string) :
    M Batches.MembershipBatchDecision := λ s,
  let '(p, d) := Batches.plans_next_batch seed_from_u64 (remove_membership_batches s) (len (active s))
                   (N.of_nat cap) actor in
  Ret (set_remove_batches p s, Returned d).

(** One turn of the first loop of [transition_to_size] *)
Definition grow_turn (seed_from_u64 : N → G) (plateau_index target_size : N)
    (use_counts : gmap string N) : M (gmap string N + unit) :=
  let~ l <- gets active in
  let~ waiting <- gets idle in
  if (length l <? N.to_nat target_size)%nat then
    let max_allowed := ((N.to_nat target_size - length l) `min` length waiting)%nat in
    if (max_allowed =? 0)%nat then ret (inr tt)
    else
      let~ external_actor_id <- forced_external use_counts in
      let~ profiled_actor_id <- forced_profiled in
      let forced_actor_id := match external_actor_id with Some w => Some w | None => profiled_actor_id end in
      let use_counts := match external_actor_id with Some w => bump use_counts w | None => use_counts end in
      let~ _ <- note_add_actor forced_actor_id in
      let reserved := reserved_for_external l external_actor_id use_counts max_allowed in
      let~ d <- next_add_batch seed_from_u64 ((max_allowed - reserved) `max` 1)%nat external_actor_id in
      let~ _ <- add_n_members d forced_actor_id plateau_index target_size in
      let~ l <- gets active in
      let~ waiting <- gets idle in
      if profile_only_singletons && resource_sweep && negb (any_profile_enabled_remaining l waiting)
      then ret (inr tt) else ret (inl use_counts)
  else ret (inr tt).

(** One turn of the second *)
Definition shrink_turn (seed_from_u64 : N → G) (target_size : N) (use_counts : gmap string N) :
    M (gmap string N + unit) :=
  let~ l <- gets active in
  if (N.to_nat target_size <? length l)%nat then
    let max_allowed := ((length l - N.to_nat target_size) `min` (length l - 1))%nat in
    if (max_allowed =? 0)%nat then fail (bail "Cannot remove the last remaining member")
    else
      let~ forced_actor_id <- forced_external use_counts in
      let use_counts := match forced_actor_id with Some w => bump use_counts w | None => use_counts end in
      let reserved := reserved_for_external l forced_actor_id use_counts max_allowed in
      let~ d <- next_remove_batch seed_from_u64 ((max_allowed - reserved) `max` 1)%nat forced_actor_id in
      let~ _ <- remove_n_members d forced_actor_id external_coverage_lane profile_only_singletons
                  target_size in
      ret (inl use_counts)
  else ret (inr tt).

Definition transition_to_size (seed_from_u64 : N → G) (plateau_index target_size : N) : M unit :=
  let~ _ <- iterate loop_fuel (grow_turn seed_from_u64 plateau_index target_size) ∅ in
  iterate loop_fuel (shrink_turn seed_from_u64 target_size) ∅.
End membership.
