(* ===== verification/RunnerPhases.v ===== *)
(** * The phases of a plateau

    What the OpenMLS runner does at one group size and from one to the next
    ([OpenMLS_containerized/src/staircase_runner.rs]): members are removed and joined
    again, added and removed for samples, all update their keys, all send messages; and
    [run_staircase_benchmark_async] from the creation of the group on. *)

From S2P Require Import Prelude Text Interaction HttpRetry RunnerConfig Worker RunnerCommands.
From S2P Require Import Program RunnerState Membership.
From S2P Require Batches Plateau Sampling.
From stdpp Require Import options.

Local Open Scope N_scope.

Section phases.
Context {G : Type} `{!Plateau.Rng G} {ext : RunnerExternals} {cfg : Settings}.

Abbreviation M := (RunnerState.M G).

(** ** Convergence, with members that die *)

Definition ensure_converged_turn (plateau_index plateau_size : N) (_ : unit) :
    M (unit + GroupStateSnapshot) :=
  let~ l <- gets active in
  let~ state <- call (ensure_converged l (id <$> l))
    or (λ error,
      let cursor := new_cursor plateau_index plateau_size (len l) "convergence" "show_group_state" in
      let~ dead <- record_batch_oom_failures cursor error "evict_convergence_member_and_retry" (head l) in
      match dead with
      | None => fail error
      | Some dead_workers =>
          let~ _ <- evict_oom_group_members dead_workers process_pending_fanout plateau_size in
          ret (inl tt)
      end) in
  ret (inr state).

Definition ensure_converged_with_attrition (plateau_index plateau_size : N) : M GroupStateSnapshot :=
  iterate loop_fuel (ensure_converged_turn plateau_index plateau_size) tt.

(** ** Restoring a plateau *)

Definition membership_decision (batch_size : nat) (source : string) : Batches.MembershipBatchDecision :=
  let n := N.of_nat batch_size in
  Batches.MkDecision n n (Batches.membership_batch_group_cap 0) n source.

(** The idle external devices come to the front, in the order of their ids. *)
Definition requeue_external (waiting : list WorkerSpec) : list WorkerSpec :=
  foldl (λ l wid, match list_find (λ w, id w = wid) l with
                  | Some (position, w) => w :: delete position l
                  | None => l
                  end) waiting (reverse (external_ids waiting)).

Definition MAX_BATCH : nat := N.to_nat Batches.MAX_RANDOM_MEMBERSHIP_BATCH_SIZE.

Definition restore_turn (plateau_index plateau_size : N) (_ : unit) : M (unit + unit) :=
  let~ l <- gets active in
  let~ waiting <- gets idle in
  if (length l <? N.to_nat plateau_size)%nat then
    let batch_size := (((N.to_nat plateau_size - length l) `min` length waiting) `min` MAX_BATCH)%nat in
    if (batch_size =? 0)%nat then ret (inr tt)
    else
      let~ _ <- add_n_members (membership_decision batch_size "external_density_recovery")
                  (id <$> find is_external l) plateau_index plateau_size in
      let~ now <- gets (λ s, length (active s)) in
      if (now <=? length l)%nat
      then fail (bail ("external density recovery made no progress at plateau "
                       +:+ pretty plateau_size))
      else ret (inl tt)
  else ret (inr tt).

Definition restore_density_plateau (plateau_index plateau_size : N) : M unit :=
  let~ _ <- modify (λ s, set_idle (requeue_external (idle s)) s) in
  let~ _ <- iterate loop_fuel (restore_turn plateau_index plateau_size) tt in
  let~ l <- gets active in
  if (length l =? N.to_nat plateau_size)%nat then ret tt
  else fail (bail ("external density recovery could not restore plateau " +:+ pretty plateau_size)).

(** ** Samples of additions by every external device *)

Definition external_density_source (batch_size : nat) (reset : bool) : string :=
  match batch_size, reset with
  | 1%nat, false => "external_density_k1"
  | 8%nat, false => "external_density_k8"
  | 1%nat, true => "external_density_reset_k1"
  | 8%nat, true => "external_density_reset_k8"
  | _, _ => "external_density_other"
  end.

Abbreviation DensityCounts := (gmap (nat * string) N).

Definition density_count (counts : DensityCounts) (key : nat * string) : N := default 0 (counts !! key).

(** Keys [(count, (batch_size, id))] *)
Definition density_before (counts : DensityCounts) (k k' : nat * string) : bool :=
  let c := density_count counts k in
  let c' := density_count counts k' in
  (c <? c')
  || ((c =? c') && ((k.1 <? k'.1)%nat
                    || ((k.1 =? k'.1)%nat && negb (bool_decide (k.2 = k'.2)) && str_leb k.2 k'.2))).

Definition next_density_sample (batch_sizes : list nat) (ids : list string) (counts : DensityCounts) :
    option (nat * string) :=
  min_by (density_before counts)
    (filter (λ k, density_count counts k < min_profiled_samples_per_operation)
       (batch_sizes ≫= λ b, (b,.) <$> ids)).

Definition still_active (wid : string) (l : list WorkerSpec) : bool :=
  existsb (λ w, String.eqb (id w) wid) l.

(** One turn of the loop of [run_external_add_density_phase] *)
Definition density_turn (plateau_index plateau_size : N) (batch_sizes : list nat)
    (counts : DensityCounts) : M (DensityCounts + unit) :=
  let size := N.to_nat plateau_size in
  let~ l <- gets active in
  match external_ids l with
  | [] => ret (inr tt)
  | ids =>
      match next_density_sample batch_sizes ids counts with
      | None => ret (inr tt)
      | Some (batch_size, actor_id) =>
          let~ _ <- (if (length l =? size)%nat then ret tt
                     else restore_density_plateau plateau_index plateau_size) in
          let~ _ <- remove_n_members
                      (membership_decision batch_size (external_density_source batch_size true))
                      (Some actor_id) true true plateau_size in
          let~ l <- gets active in
          if negb (still_active actor_id l) || negb (length l =? size - batch_size)%nat then
            let~ _ <- restore_density_plateau plateau_index plateau_size in ret (inl counts)
          else
            let~ _ <- add_n_members
                        (membership_decision batch_size (external_density_source batch_size false))
                        (Some actor_id) plateau_index plateau_size in
            let~ l <- gets active in
            if still_active actor_id l && (length l =? size)%nat
            then ret (inl (<[(batch_size, actor_id) :=
                            density_count counts (batch_size, actor_id) + 1]> counts))
            else
              let~ _ <- restore_density_plateau plateau_index plateau_size in ret (inl counts)
      end
  end.

Definition density_batch_sizes (l : list WorkerSpec) : list nat :=
  let protected_count :=
    length (filter (λ w, profile_enabled w || is_external_device w = true) l) in
  if (MAX_BATCH <=? length l - protected_count)%nat then [1; MAX_BATCH]%nat else [1]%nat.

Definition run_external_add_density_phase (plateau_index plateau_size : N) : M unit :=
  if negb external_coverage_lane || (min_profiled_samples_per_operation =? 0) then ret tt
  else
    let~ l <- gets active in
    iterate loop_fuel (density_turn plateau_index plateau_size (density_batch_sizes l)) ∅.

(** ** Removing a member and letting it join again *)

(** The victim is removed from the group and from the active members. *)
Definition remove_victim (plateau_index plateau_size : N)
    (victim actor : WorkerSpec) : M unit :=
  let~ l <- gets active in
  let cursor := new_cursor plateau_index plateau_size (len l) "remove_rejoin" in
  let~ context <- perform (with_metadata victim GenerateKeyPackage None
    (Some "remove_rejoin.generate_key_package") (Some (cursor "generate_key_package"))) in
  let~ _ <- call (send_command_with_context victim GenerateKeyPackage context) in
  let remove_cmd := RemoveMembers [id victim] in
  let~ remove_ctx <- perform (with_metadata actor remove_cmd None (Some "remove_rejoin.remove")
                                (Some (cursor "remove_commit"))) in
  let~ actor_before <- call (show_group_state actor) in
  let expected_after_remove :=
    expected_group_state actor_before (next_epoch actor_before)
      (member_not_of {[id victim]} actor_before) in
  let~ _ <- call (send_cmd_expect_ok_fragment_with_context actor remove_cmd
                    "removed locally; group commit published" remove_ctx) in
  let~ _ <- call (actor_receives process_pending_fanout actor expected_after_remove
                    "remove_rejoin.actor_process_pending" "remove_rejoin.actor_receive_commit"
                    (cursor "remove_commit")) in
  let remove_phase := fanout_phase_of process_pending_fanout "remove_rejoin" +:+ "_remove" in
  let~ _ <- fan_out_commit process_pending_fanout remove_phase "receive_commit" remove_phase "remove"
              (filter (λ w, id w ≠ id victim ∧ id w ≠ id actor) l) plateau_size
              (epoch expected_after_remove) 0 (cursor "remove_commit")
              (λ _, ExpectGroup expected_after_remove) in
  modify (λ s, set_idle (idle s ++ [victim]) (set_active (not_in {[id victim]} (active s)) s)).

(** The same actor adds it again, and it joins from the welcome. *)
Definition rejoin_victim (plateau_index plateau_size : N) (victim actor : WorkerSpec) : M unit :=
  let~ l <- gets active in
  let re_add_active := len l + 1 in
  let add_cursor :=
    with_membership_batch
      (new_cursor plateau_index plateau_size re_add_active "remove_rejoin" "add_commit")
      (membership_decision 1 "remove_rejoin") in
  let add_cmd := AddMembers [id victim] in
  let~ add_ctx <- perform (with_metadata actor add_cmd None (Some "remove_rejoin.add")
                             (Some add_cursor)) in
  let~ actor_before <- call (show_group_state actor) in
  let expected_after_add :=
    expected_group_state actor_before (next_epoch actor_before)
      (members actor_before ++ [id victim]) in
  let~ _ <- call (send_cmd_expect_ok_fragment_with_context actor add_cmd
                    "added locally in one commit" add_ctx) in
  let~ _ <- call (actor_receives process_pending_fanout actor expected_after_add
                    "remove_rejoin.actor_process_pending_add"
                    "remove_rejoin.actor_receive_commit_add" add_cursor) in
  let add_phase := fanout_phase_of process_pending_fanout "remove_rejoin" +:+ "_add" in
  let~ _ <- fan_out_commit process_pending_fanout add_phase "receive_commit" add_phase "add"
              (filter (λ w, id w ≠ id actor) l) plateau_size (epoch expected_after_add) 0 add_cursor
              (λ _, ExpectGroup expected_after_add) in
  let welcome_cursor :=
    new_cursor plateau_index plateau_size re_add_active "remove_rejoin" "welcome_receive" in
  let~ welcome_ctx <- perform (with_metadata victim JoinFromWelcome None
                                 (Some "remove_rejoin.process_welcome") (Some welcome_cursor)) in
  let~ _ <- call (send_cmd_expect_ok_fragment_with_context victim JoinFromWelcome
                    "joined from welcome" welcome_ctx) in
  modify (λ s, set_active (active s ++ [victim]) (set_idle (not_in {[id victim]} (idle s)) s)).

Definition run_single_remove_rejoin_cycle (plateau_index plateau_size : N)
    (victim actor : WorkerSpec) : M unit :=
  let~ _ <- remove_victim plateau_index plateau_size victim actor in
  rejoin_victim plateau_index plateau_size victim actor.

Definition remove_rejoin_failure_operation (error : RunnerError) : string :=
  match error with
  | BatchFanoutError phase operation _ =>
      if contains "remove" phase then "remove_commit"
      else if contains "add" phase then "add_commit" else operation
  | CommandFailed e =>
      let c := ce_command e in
      if String.eqb c "GenerateKeyPackage" then "generate_key_package"
      else if String.eqb c "RemoveMembers" then "remove_commit"
      else if String.eqb c "AddMembers" then "add_commit"
      else if String.eqb c "JoinFromWelcome" then "welcome_receive"
      else if String.eqb c "ReceiveCommit" || String.eqb c "ProcessPending" then "receive_commit"
      else if String.eqb c "ShowGroupState" then "show_group_state" else c
  | _ => "remove_rejoin_cycle"
  end.

(** The failed workers, when the failure is one the runner goes on after *)
Definition cycle_failures (cursor : BenchmarkCursor) (victim actor : WorkerSpec)
    (error : RunnerError) : M (option (list WorkerSpec)) :=
  let~ l <- gets active in
  let~ waiting <- gets idle in
  let action := "quarantine_remove_rejoin_cycle_and_continue" in
  match error with
  | BatchFanoutError _ _ _ =>
      record_batch_oom_failures cursor error action
        (find (λ w, negb (String.eqb (id w) (id actor)) && negb (String.eqb (id w) (id victim))) l)
  | CommandFailed e =>
      match find_worker (ce_worker_id e) (l ++ waiting ++ [victim; actor]) with
      | None => ret None
      | Some failed =>
          let~ recorded <- record_profiled_worker_failure cursor failed error action
            (find (λ w, negb (String.eqb (id w) (id failed)) && negb (String.eqb (id w) (id victim))) l) in
          ret (if recorded : bool then Some [failed] else None)
      end
  | _ => ret None
  end.

Definition recover_remove_rejoin_cycle_failure (plateau_index plateau_size : N)
    (victim actor : WorkerSpec) (error : RunnerError) : M bool :=
  let~ l <- gets active in
  let cursor := new_cursor plateau_index plateau_size (len l) "remove_rejoin"
                  (remove_rejoin_failure_operation error) in
  let~ failed <- cycle_failures cursor victim actor error in
  match failed with
  | None => ret false
  | Some failed_workers =>
      let failed_ids : gset string := list_to_set (id <$> failed_workers) in
      let quarantined :=
        foldl (λ q p, if existsb (λ w, String.eqb (id w) (id p)) q then q else q ++ [p])
          failed_workers [victim; actor] in
      let~ _ <- evict_oom_group_members quarantined process_pending_fanout plateau_size in
      let~ _ <- modify (λ s,
        set_idle (not_in (list_to_set (id <$> quarantined)) (idle s)
                  ++ filter (λ w, id w ∉ failed_ids) [victim; actor]) s) in
      ret true
  end.

(** *** Every external device in every role *)

Record RejoinCounts := MkRejoinCounts {
  welcome_counts : gmap string N;
  actor_counts : gmap string N;
  receiver_counts : gmap string N;
}.

(** The id with the least count, and the least such id *)
Definition least_counted (counts : gmap string N) (ids : list string) : option string :=
  min_by (λ i j, key_before (count_of counts i, i) (count_of counts j, j)) ids.

Definition lacking (counts : gmap string N) (required : N) (ids : list string) : list string :=
  filter (λ i, count_of counts i < required) ids.

Definition select_supplemental_remove_receiver_roles (l : list WorkerSpec) (ids : list string)
    (c : RejoinCounts) (required plateau_size : N) : M (option (string * string * string)) :=
  match least_counted (receiver_counts c) (lacking (receiver_counts c) required ids) with
  | None => ret None
  | Some receiver_id =>
      let~ actor_id <- expect (least_counted (actor_counts c) (filter (λ i, i ≠ receiver_id) ids)) in
      let candidates :=
        filter (λ w, is_external_device w = false ∧ id w ≠ actor_id ∧ id w ≠ receiver_id) l in
      match min_by (λ w w', key_before ((if profile_enabled w then 1 else 0), id w)
                                       ((if profile_enabled w' then 1 else 0), id w')) candidates with
      | Some victim => ret (Some (actor_id, id victim, receiver_id))
      | None => fail (bail ("remove/rejoin receiver density at plateau " +:+ pretty plateau_size
                            +:+ " needs a non-external victim after external attrition"))
      end
  end.

(** The actor and the victim of the next cycle; [None] when every sample is taken. *)
Definition next_cycle (l : list WorkerSpec) (ids : list string) (c : RejoinCounts)
    (required plateau_size : N) : M (option (string * string)) :=
  match least_counted (actor_counts c) (lacking (actor_counts c) required ids) with
  | Some actor_id =>
      let others := filter (λ i, i ≠ actor_id) ids in
      let victim := match least_counted (welcome_counts c) (lacking (welcome_counts c) required others) with
                    | Some v => Some v
                    | None => least_counted (welcome_counts c) others
                    end in
      let~ victim_id <- expect victim in
      ret (Some (actor_id, victim_id))
  | None =>
      match least_counted (welcome_counts c) (lacking (welcome_counts c) required ids) with
      | Some victim_id =>
          let~ actor_id <- expect (least_counted (actor_counts c) (filter (λ i, i ≠ victim_id) ids)) in
          ret (Some (actor_id, victim_id))
      | None =>
          let~ roles <- select_supplemental_remove_receiver_roles l ids c required plateau_size in
          ret (match roles with
               | Some (actor_id, victim_id, _) => Some (actor_id, victim_id)
               | None => None
               end)
      end
  end.

(** One turn of the loop of [run_remove_rejoin_phase] *)
Definition rejoin_turn (plateau_index plateau_size required : N) (c : RejoinCounts) :
    M (RejoinCounts + unit) :=
  let~ l <- gets active in
  let ids := external_ids l in
  if (length ids <? 2)%nat then ret (inr tt)
  else
    let~ cycle <- next_cycle l ids c required plateau_size in
    match cycle with
    | None => ret (inr tt)
    | Some (actor_id, victim_id) =>
        let~ victim <- expect (find_worker victim_id l) in
        let~ actor <- expect (find_worker actor_id l) in
        let receiver_ids := filter (λ i, i ≠ actor_id ∧ i ≠ victim_id) ids in
        let~ _ <- run_single_remove_rejoin_cycle plateau_index plateau_size victim actor
          or (λ error,
            let~ recovered <- recover_remove_rejoin_cycle_failure plateau_index plateau_size
                                victim actor error in
            if recovered : bool then
              let~ _ <- restore_density_plateau plateau_index plateau_size in ret (inl c)
            else fail error) in
        ret (inl (MkRejoinCounts
                    (if is_external_device victim then bump (welcome_counts c) (id victim)
                     else welcome_counts c)
                    (bump (actor_counts c) (id actor))
                    (foldl bump (receiver_counts c) receiver_ids)))
    end.

(** A cycle of two random profiled members *)
Definition random_rejoin (plateau_index plateau_size : N) (profiled : list nat) : M unit :=
  let~ l <- gets active in
  let~ k <- random_index (length profiled) in
  let~ victim_idx <- expect (profiled !! k) in
  let others := filter (λ i, i ≠ victim_idx) profiled in
  let~ k <- random_index (length others) in
  let~ actor_idx <- expect (others !! k) in
  let~ victim <- expect (l !! victim_idx) in
  let~ actor <- expect (l !! actor_idx) in
  let~ _ <- run_single_remove_rejoin_cycle plateau_index plateau_size victim actor
    or (λ error,
      if negb external_coverage_lane && negb resource_sweep then
        match error with
        | CommandFailed e => if String.eqb (ce_command e) "JoinFromWelcome" then ret tt else fail error
        | _ => fail error
        end
      else
        let~ recovered <- recover_remove_rejoin_cycle_failure plateau_index plateau_size
                            victim actor error in
        if recovered : bool then ret tt else fail error) in
  ret tt.

Definition run_remove_rejoin_phase (plateau_index plateau_size : N) : M unit :=
  let~ l <- gets active in
  let profiled := active_profiled_indices l in
  if (length profiled <? 2)%nat then ret tt
  else if external_coverage_lane && negb (bool_decide (external_remove_rejoin_pairs l = [])) then
    iterate loop_fuel
      (rejoin_turn plateau_index plateau_size (N.max min_profiled_samples_per_operation 1))
      (MkRejoinCounts ∅ ∅ ∅)
  else random_rejoin plateau_index plateau_size profiled.

(** ** Filling the tree *)

Fixpoint tree_fill_from (plateau_index plateau_size : N) (l : list WorkerSpec) (actor_idx : nat)
    (actors : list WorkerSpec) : M unit :=
  match actors with
  | [] => ret tt
  | actor :: rest =>
      let cursor := at_operation
        (new_cursor plateau_index plateau_size (len l) "tree_fill" "self_update")
        (N.of_nat actor_idx + 1) None in
      let~ actor_before <- call (show_group_state actor) in
      let expected := expected_group_state actor_before (next_epoch actor_before) (members actor_before) in
      let~ context <- perform (with_metadata actor SelfUpdate None (Some "tree_fill.create")
                                 (Some cursor)) in
      let~ _ <- call (send_cmd_expect_ok_fragment_with_context actor SelfUpdate
                        "self_update commit published to group" context) in
      let~ _ <- call (actor_receives process_pending_fanout actor expected
                        "tree_fill.actor_process_pending" "tree_fill.actor_receive_commit" cursor) in
      let recipients := delete actor_idx l in
      let command_for worker :=
        with_benchmark_cursor
          (MkBatchCommand (id worker) None
             (if process_pending_fanout then pending_commits None (Some (epoch expected))
              else ReceiveCommit false)
             None (Some (epoch expected)) (Some (fanout_phase_of process_pending_fanout "tree_fill"))
             None None) cursor in
      let~ commands_by_physical <- perform (build_batch_commands recipients command_for) in
      let~ _ <- batch_fanout_workers "tree_fill" "receive_commit" recipients commands_by_physical
                  (Some (collect_map ((λ w, (id w, ExpectGroup expected)) <$> recipients))) in
      tree_fill_from plateau_index plateau_size l (S actor_idx) rest
  end.

(** It has a controller of its own: the fill leaves the measured fan-out as it was. *)
Definition run_tree_fill_phase (fill_fanout : Batches.FanoutController)
    (plateau_index plateau_size : N) : M unit :=
  let~ measured <- gets fanout in
  let~ l <- gets active in
  let~ _ <- modify (set_fanout fill_fanout) in
  let~ _ <- tree_fill_from plateau_index plateau_size l 0 l in
  modify (set_fanout measured).

(** ** Updates *)

Definition density_enabled : bool :=
  external_coverage_lane && (0 <? min_profiled_samples_per_operation).

(** The members that must act at least once *)
Definition required_actors : M (list string) :=
  let~ l <- gets active in
  let ids indices := omap (λ i, id <$> l !! i) indices in
  if external_coverage_lane then
    let non_external := active_profiled_non_external_indices l in
    if (min_profiled_samples_per_operation =? 0) && negb (bool_decide (non_external = [])) then
      let~ k <- random_index (length non_external) in
      let~ i <- expect (non_external !! k) in
      ret (ids (active_external_indices l ++ [i]))
    else ret (ids (active_external_indices l))
  else ret [].

(** What the phase plans: the operations in all, the members that must act, the external
    member that acts once and when, the operation that is left to another member. *)
Record Plan := MkPlan {
  planned : N;
  required_actor_ids : list string;
  external_actor_id : option string;
  external_actor_seq : option N;
  forced_non_external_actor_seq : option N;
}.

(** The member that performs operation [seq_no] *)
Definition choose_actor (plan : Plan) (l : list WorkerSpec) (density_actor_id : option string)
    (seq_no : N) : M nat :=
  let profiled := active_profiled_indices l in
  let non_external := active_profiled_non_external_indices l in
  let wanted := match density_actor_id with
                | Some wid => Some wid
                | None => required_actor_ids plan !! N.to_nat seq_no
                end in
  let sampled (indices : list nat) : M nat :=
    let~ k <- expect (Sampling.sampled_member_index (len indices) (planned plan) seq_no) in
    expect (indices !! N.to_nat k) in
  match wanted ≫= λ wid, worker_position wid l with
  | Some i => ret i
  | None =>
      match (if bool_decide (external_actor_seq plan = Some seq_no) then external_actor_id plan else None)
              ≫= λ wid, worker_position wid l with
      | Some i => ret i
      | None =>
          if bool_decide (forced_non_external_actor_seq plan = Some seq_no)
             && negb (bool_decide (non_external = []))
          then sampled non_external else sampled profiled
      end
  end.

(** After a failure the runner can go on from: evict the dead, then again; [None] when it
    cannot. *)
Definition go_on_without {B A} (again : B) (pending : bool) (plateau_size : N) (error : RunnerError)
    (dead : option (list WorkerSpec)) : M (B + A) :=
  match dead with
  | Some dead_workers =>
      let~ _ <- evict_oom_group_members dead_workers pending plateau_size in ret (inl again)
  | None => fail error
  end.

Definition actor_failure {B A} (again : B) (pending : bool) (cursor : BenchmarkCursor)
    (l : list WorkerSpec) (actor : WorkerSpec) (action : string) (error : RunnerError) : M (B + A) :=
  let~ recorded <- record_profiled_worker_failure cursor actor error action
                     (head (filter (λ w, id w ≠ id actor) l)) in
  go_on_without again pending (target_size cursor) error (if recorded : bool then Some [actor] else None).

Definition recipients_failure {B A} (again : B) (pending : bool) (cursor : BenchmarkCursor)
    (actor : WorkerSpec) (action : string) (error : RunnerError) : M (B + A) :=
  let~ dead <- record_batch_oom_failures cursor error action (Some actor) in
  go_on_without again pending (target_size cursor) error dead.

(** Successes per external member, and the number of operations done *)
Abbreviation PhaseProgress := (gmap string N * N)%type.

Definition phase_ended (plan : Plan) (l : list WorkerSpec) (p : PhaseProgress) : bool * option string :=
  let density_actor_id :=
    if density_enabled
    then least_sampled_active_external_id l p.1 min_profiled_samples_per_operation else None in
  (if density_enabled then bool_decide (density_actor_id = None) else planned plan <=? p.2,
   density_actor_id).

Definition one_more (p : PhaseProgress) (actor : WorkerSpec) : PhaseProgress :=
  (if density_enabled then bump p.1 (id actor) else p.1, p.2 + 1).

(** One turn of the loop of [run_update_phase] *)
Definition update_turn (plateau_index plateau_size : N) (plan : Plan) (p : PhaseProgress) :
    M (PhaseProgress + unit) :=
  let~ l <- gets active in
  let '(ended, density_actor_id) := phase_ended plan l p in
  if (ended : bool) || bool_decide (active_profiled_indices l = []) then ret (inr tt)
  else
    let~ actor_idx <- choose_actor plan l density_actor_id p.2 in
    let~ actor <- expect (l !! actor_idx) in
    let cursor := at_operation (new_cursor plateau_index plateau_size (len l) "update" "self_update")
                    (p.2 + 1) None in
    let failed := actor_failure p process_pending_fanout cursor l actor "evict_update_actor_and_retry" in
    let~ actor_before <- call (show_group_state actor) or failed in
    let expected := expected_group_state actor_before (next_epoch actor_before) (members actor_before) in
    let~ context <- perform (with_metadata actor SelfUpdate None (Some "update.create") (Some cursor)) in
    let~ _ <- call (send_cmd_expect_ok_fragment_with_context actor SelfUpdate
                      "self_update commit published to group" context) or failed in
    let~ _ <- call (actor_receives process_pending_fanout actor expected
                      "update.actor_process_pending" "update.actor_receive_commit" cursor) or failed in
    let~ _ <- fan_out_commit process_pending_fanout "update" "receive_commit"
                (fanout_phase_of process_pending_fanout "update") "self_update" (delete actor_idx l)
                plateau_size (epoch expected) p.2 cursor (λ _, ExpectGroup expected)
      or recipients_failure p process_pending_fanout cursor actor "evict_update_recipient_and_retry" in
    ret (inl (one_more p actor)).

Definition run_update_phase (plateau_index plateau_size : N) : M unit :=
  let~ l <- gets active in
  let base_updates := Sampling.update_ops_for_plateau plateau_size update_rounds
                        max_update_samples_per_plateau in
  if bool_decide (active_profiled_indices l = []) then ret tt
  else
    let~ required <- required_actors in
    let total := N.max base_updates
                   (Sampling.saturating_mul (len required) (N.max min_profiled_samples_per_operation 1)) in
    if total =? 0 then ret tt
    else
      let external_id :=
        if external_coverage_lane then None
        else id <$> head (filter (λ w, is_external w = true) l) in
      let~ seq <- match external_id with
                  | Some _ => let~ k <- random_index (N.to_nat total) in ret (Some (N.of_nat k))
                  | None => ret None
                  end in
      iterate loop_fuel
        (update_turn plateau_index plateau_size (MkPlan total required external_id seq None)) (∅, 0).

(** ** Application messages *)

(** [while out.len() < len { out.push_str(&seed) }], then [truncate] *)
Fixpoint pad (fuel : nat) (n : nat) (seed out : string) : string :=
  match fuel with
  | O => out
  | S fuel => if (String.length out <? n)%nat then pad fuel n seed (out +:+ seed) else out
  end.

(** The seed, repeated and cut.  [truncate] cuts bytes and panics inside a character; the
    cut here is that of an ASCII [actor_id]. *)
Definition deterministic_payload (n : nat) (plateau_size payload_size seq_no : N)
    (actor_id : string) : string :=
  match n with
  | O => ""
  | _ =>
      let seed := "plateau=" +:+ pretty plateau_size +:+ ";payload=" +:+ pretty payload_size
                  +:+ ";seq=" +:+ pretty seq_no +:+ ";actor=" +:+ actor_id +:+ ";" in
      String.substring 0 n (pad n n seed "")
  end.

Definition sample_payload (source : PayloadSizeSource) : M N := λ s,
  let '(size, g) := Plateau.sample_source source (scenario_rng s) in Ret (set_rng g s, Returned size).

(** One turn of the inner loop of [run_application_phase] *)
Definition application_turn (plateau_index plateau_size : N) (source : PayloadSizeSource)
    (plan : Plan) (p : PhaseProgress) : M (PhaseProgress + bool) :=
  let~ l <- gets active in
  let '(ended, density_actor_id) := phase_ended plan l p in
  if ended : bool then ret (inr true)
  else if (length l <? 2)%nat || bool_decide (active_profiled_indices l = []) then ret (inr false)
  else
    let~ actor_idx <- choose_actor plan l density_actor_id p.2 in
    let~ actor <- expect (l !! actor_idx) in
    let~ payload_size <- sample_payload source in
    let payload :=
      deterministic_payload (N.to_nat payload_size) plateau_size payload_size p.2 (id actor) in
    let cursor := at_operation
      (new_cursor plateau_index plateau_size (len l) "application" "send_application_message")
      (p.2 + 1) (Some payload_size) in
    let command := SendApplicationMessage payload in
    let~ context <- perform (with_metadata actor command None (Some "application.create") (Some cursor)) in
    let~ _ <- call (send_cmd_expect_ok_fragment_with_context actor command
                      "application message broadcast to group" context)
      or actor_failure p false cursor l actor "evict_application_actor_and_retry" in
    let profiled_recipients := filter (λ i, i ≠ actor_idx) (active_profiled_indices l) in
    let~ sampled <-
      (if bool_decide (profiled_recipients = []) then ret ""
       else
         let~ k <- expect (Sampling.sampled_member_index (len profiled_recipients) (planned plan) p.2) in
         let~ i <- expect (profiled_recipients !! N.to_nat k) in
         let~ w <- expect (l !! i) in ret (id w)) in
    let recipients := delete actor_idx l in
    let command_for worker :=
      let should_profile := String.eqb (id worker) sampled || is_external_device worker in
      with_benchmark_cursor
        (MkBatchCommand (id worker) None (ReceiveApplicationMessage should_profile) None None
           (Some "application.fanout_receive_application_message")
           (if should_profile then Some true else None) None) cursor in
    let~ commands_by_physical <- perform (build_batch_commands recipients command_for) in
    let~ _ <- batch_fanout_workers "application" "receive_application_message" recipients
                commands_by_physical None
      or recipients_failure p false cursor actor "evict_application_recipient_and_retry" in
    ret (inl (one_more p actor)).

(** The plan for one payload source *)
Definition plan_payload (per_payload_count : N) : M Plan :=
  let~ l <- gets active in
  let~ required <- required_actors in
  let external_id := id <$> head (filter (λ w, is_external w = true) l) in
  let force := negb external_coverage_lane && negb (bool_decide (external_id = None))
               && negb (bool_decide (active_profiled_non_external_indices l = [])) in
  let count :=
    if external_coverage_lane
    then N.max per_payload_count
           (Sampling.saturating_mul (len required) (N.max min_profiled_samples_per_operation 1))
    else per_payload_count + (if force && (per_payload_count =? 1) then 1 else 0) in
  let~ seq <- match external_id with
              | Some _ =>
                  if external_coverage_lane then ret None
                  else let~ k <- random_index (N.to_nat count) in ret (Some (N.of_nat k))
              | None => ret None
              end in
  ret (MkPlan count required external_id seq
         (if force && (1 <? count) then (λ k, (k + 1) mod count) <$> seq else None)).

(** The loop over the payload sources; it stops early when too few members are left. *)
Fixpoint each_payload (plateau_index plateau_size per_payload_count : N)
    (sources : list PayloadSizeSource) : M unit :=
  match sources with
  | [] => ret tt
  | source :: rest =>
      let~ plan <- plan_payload per_payload_count in
      let~ done <- iterate loop_fuel (application_turn plateau_index plateau_size source plan) (∅, 0) in
      if done : bool then each_payload plateau_index plateau_size per_payload_count rest else ret tt
  end.

Definition run_application_phase (plateau_index plateau_size : N) : M unit :=
  let~ l <- gets active in
  if (length l <? 2)%nat then ret tt
  else
    let per_payload_count :=
      Sampling.app_sends_per_payload_for_plateau plateau_size app_rounds max_app_samples_per_payload in
    if (per_payload_count =? 0) || bool_decide (active_profiled_indices l = []) then ret tt
    else
      let~ sources <- (λ s, let '(sources, g) := Plateau.shuffled_sources payload_sizes (scenario_rng s) in
                            Ret (set_rng g s, Returned sources)) in
      each_payload plateau_index plateau_size per_payload_count sources.

(** ** The benchmark *)

Definition create_group (leader : WorkerSpec) : M unit :=
  let~ _ <- call (send_cmd_expect_ok_fragment leader CreateGroup
                    "group created and DS group state registered") in ret tt.

Definition no_profiled_left : M bool :=
  let~ l <- gets active in
  let~ waiting <- gets idle in
  ret (profile_only_singletons && resource_sweep && negb (any_profile_enabled_remaining l waiting)).

(** One plateau; whether the run stops after it *)
Definition run_plateau (seed_from_u64 : N → G) (new_fanout : Batches.FanoutController)
    (plateau_index target_size : N) : M bool :=
  let~ _ <- transition_to_size seed_from_u64 plateau_index target_size in
  let~ _ <- ensure_converged_with_attrition plateau_index target_size in
  let~ stop <- no_profiled_left in
  if stop : bool then ret true
  else
    let~ _ <-
      (if remove_rejoin then run_remove_rejoin_phase plateau_index target_size
       else
         let~ _ <- run_external_add_density_phase plateau_index target_size in
         let~ _ <- (if fill_tree_before_measure
                    then run_tree_fill_phase new_fanout plateau_index target_size else ret tt) in
         let~ _ <- run_update_phase plateau_index target_size in
         let~ _ <- ensure_converged_with_attrition plateau_index target_size in
         run_application_phase plateau_index target_size) in
    no_profiled_left.

Fixpoint run_plateaus (seed_from_u64 : N → G) (new_fanout : Batches.FanoutController)
    (plateau_index : N) (sequence : list N) : M unit :=
  match sequence with
  | [] => ret tt
  | target_size :: rest =>
      let~ stop <- run_plateau seed_from_u64 new_fanout plateau_index target_size in
      if stop : bool then ret tt else run_plateaus seed_from_u64 new_fanout (plateau_index + 1) rest
  end.

(** [run_staircase_benchmark_async] from [create_group] to the end of its loop *)
Definition run_benchmark (seed_from_u64 : N → G) (new_fanout : Batches.FanoutController)
    (sequence : list N) : M unit :=
  let~ l <- gets active in
  let~ leader <- expect (head l) in
  let~ _ <- create_group leader in
  let~ _ <- call (ensure_converged l (id <$> l)) in
  run_plateaus seed_from_u64 new_fanout 1 sequence.
End phases.

Definition ADD_BATCH_SEED_DOMAIN : N := 0x4144444241544348.
Definition REMOVE_BATCH_SEED_DOMAIN : N := 0x524d564241544348.

(** The runner as it starts: the first worker is the group, the others wait. *)
Definition initial_runner {G} (seed_from_u64 : N → G) (cfg : StaircaseConfig) (scenario_seed : N)
    (profile_only_singletons add_batch_extremes_only : bool) (new_fanout : Batches.FanoutController) :
    option (Runner G) :=
  match workers cfg with
  | [] => None
  | leader :: others =>
      Some (MkRunner [leader]
              (if profile_only_singletons then frontload_profile_enabled_singletons_in_idle others
               else others)
              new_fanout
              (Batches.new_plans seed_from_u64 (N.lxor scenario_seed ADD_BATCH_SEED_DOMAIN)
                 add_batch_extremes_only)
              (Batches.new_plans seed_from_u64 (N.lxor scenario_seed REMOVE_BATCH_SEED_DOMAIN) false)
              (seed_from_u64 scenario_seed) ∅ ∅)
  end.
