(* ===== verification/RunnerTermination.v ===== *)
(** * The OpenMLS runner always comes to an end

    Whatever the workers answer, and whichever of them die: the loops of
    [staircase_runner.rs] end, no index is out of range, and the workers in the group and
    waiting are always workers the runner was given, each at most once.  The world keeps
    the contract [contract]: clocks do not go back, a sleep takes its time, and the orders
    of hash maps and of completions are permutations. *)

From S2P Require Import Prelude Text Interaction HttpRetry RunnerConfig Worker RunnerCommands.
From S2P Require Import Program RunnerState Membership RunnerPhases.
From S2P Require Batches Plateau Sampling.
From stdpp Require Import options.

Local Open Scope N_scope.

(** The ghost state is the time. *)
Definition contract (now : N) (X : Type) (e : RunnerEffect X) : X → N → Prop :=
  match e in RunnerEffect X return X → N → Prop with
  | HashOrder n | CompletionOrder n => λ order now', order ≡ₚ seq 0 n ∧ now <= now'
  | SleepMs ms => λ _ now', now + ms <= now'
  | NowMs => λ t now', t = now' ∧ now <= now'
  | _ => λ _ now', now <= now'
  end.

(** ** Programs that do not touch the workers *)

Section basics.
Context {G : Type}.
Implicit Types s : Runner G.

Abbreviation M := (RunnerState.M G).
Abbreviation ends := (ensures (S := Runner G) contract).

Definition untouched s s' : Prop := active s' = active s ∧ idle s' = idle s.

#[export] Instance untouched_preorder : PreOrder untouched.
Proof. split; [done|]. intros s1 s2 s3 [H1 H2] [H3 H4]. split; congruence. Qed.

End basics.

(** The lemmas of [quiet] for these programs *)
Abbreviation harmless_mono := (quiet_mono contract untouched).
Abbreviation harmless_bind := (quiet_bind contract untouched).
Abbreviation harmless_ret := (quiet_ret contract untouched).
Abbreviation harmless_fail := (quiet_fail contract untouched).
Abbreviation harmless_perform := (quiet_perform contract untouched).
Abbreviation harmless_gets := (quiet_gets contract untouched).
Abbreviation harmless_expect := (quiet_expect contract untouched).
Abbreviation harmless_modify := (quiet_modify contract untouched).
Abbreviation harmless_rescue := (quiet_rescue contract untouched).
Abbreviation harmless_call := (quiet_call contract untouched).
Abbreviation ends_harmless := (ensures_quiet contract untouched).
Abbreviation ends_rescue := (ensures_quiet_rescue contract untouched).

(** ** Recording failures, fanning out *)

Section fanning.
Context {G : Type} {ext : RunnerExternals} {cfg : Settings}.
Implicit Types s : Runner G.

Abbreviation M := (RunnerState.M G).
(** The program settles and leaves the workers alone. *)
Abbreviation harmless := (quiet (S := Runner G) (Er := RunnerError) contract untouched).

Lemma harmless_count worker class :
  harmless (count_profiled_budget_failure worker class) (λ _, True) (λ _, True).
Proof.
  unfold count_profiled_budget_failure. destruct (_ || _); [by apply harmless_ret|].
  eapply harmless_bind; [by apply harmless_modify|]. intros _ _.
  eapply harmless_bind; [by apply (harmless_gets _ (λ _, True))|]. intros n _.
  destruct (_ <=? _); [by apply harmless_fail|by apply harmless_ret].
Qed.

Lemma harmless_event cursor worker error class source detail action reassigned :
  harmless (record_event cursor worker error class source detail action reassigned)
    (λ _, True) (λ _, True).
Proof.
  eapply harmless_bind; [by apply harmless_perform; intros; apply always_true|].
  intros [[]|e] _; [apply harmless_count|by apply harmless_fail].
Qed.

Lemma harmless_record cursor worker error action reassigned :
  harmless (record_profiled_worker_failure cursor worker error action reassigned)
    (λ _, True) (λ _, True).
Proof.
  eapply harmless_bind; [by apply harmless_perform; intros; apply always_true|].
  intros [evidence|] _.
  - eapply harmless_bind; [apply harmless_event|]. intros _ _. by apply harmless_ret.
  - destruct (profiled_singleton worker); [|by apply harmless_ret].
    eapply harmless_bind; [apply harmless_event|]. intros _ _. by apply harmless_ret.
Qed.

Lemma harmless_record_failures cursor action reassigned failures : ∀ dead,
  harmless (record_failures cursor failures action reassigned dead)
    (λ r, ∀ ws, r = Some ws → ws = dead ++ (failed_worker <$> failures)) (λ _, True).
Proof.
  induction failures as [|f failures IH]; intros dead; cbn [record_failures].
  - apply harmless_ret. intros ws [= <-]. by rewrite app_nil_r.
  - eapply harmless_bind; [apply harmless_record|]. intros [] _; [|by apply harmless_ret].
    eapply harmless_mono; [| |apply IH]; [|done]. intros r Hr ws Hws.
    rewrite (Hr ws Hws), <-app_assoc. done.
Qed.

(** The failures of a fan-out to [workers] *)
Definition fanout_error (workers : list WorkerSpec) (e : RunnerError) : Prop :=
  ∃ phase operation failures, e = BatchFanoutError phase operation failures
    ∧ failures ≠ [] ∧ blames workers failures.

(** An error that, when it is one of a fan-out, blames some of [workers] *)
Definition batch_error (workers : list WorkerSpec) (e : RunnerError) : Prop :=
  ∀ phase operation failures, e = BatchFanoutError phase operation failures →
    failures ≠ [] ∧ blames workers failures.

Lemma fanout_batch_error workers e : fanout_error workers e → batch_error workers e.
Proof. intros (? & ? & ? & -> & ? & ?) ? ? ? [= -> -> ->]. done. Qed.

Lemma batch_error_sub workers all e : workers ⊆ all → batch_error workers e → batch_error all e.
Proof.
  intros Hsub He ph op fs E. destruct (He ph op fs E) as [Hne Hb]. split; [done|].
  eapply Forall_impl; [exact Hb|]. auto.
Qed.

Lemma harmless_record_batch cursor error action reassigned workers :
  batch_error workers error →
  harmless (record_batch_oom_failures cursor error action reassigned)
    (λ r, ∀ ws, r = Some ws → ws ≠ [] ∧ ws ⊆ workers) (λ _, True).
Proof.
  intros He. destruct error as [| |ph op failures|]; try (by apply harmless_ret).
  destruct (He ph op failures eq_refl) as [Hne Hb]. cbn [record_batch_oom_failures].
  eapply harmless_mono; [| |apply harmless_record_failures]; [|done].
  intros r Hr ws Hws. rewrite (Hr ws Hws). cbn [app]. split; [by destruct failures|].
  intros w (f & -> & Hf)%list_elem_of_fmap. exact (proj1 (Forall_forall _ _) Hb f Hf).
Qed.

Lemma harmless_batch phase operation workers commands expected :
  harmless (batch_fanout_workers phase operation workers commands expected)
    (λ _, True) (fanout_error workers).
Proof.
  eapply harmless_bind.
  { apply harmless_perform. intros t.
    apply (fanout_passes_blames contract workers). constructor. }
  intros tot Hb. destruct (latency_percentiles _) as [[[p50 p95] p99] top].
  eapply harmless_bind; [by apply harmless_modify|]. intros _ _. cbn in Hb.
  destruct (last_failures tot) as [|f failures] eqn:E; [by apply harmless_ret|].
  apply harmless_fail. exists phase, operation, (f :: failures). done.
Qed.

End fanning.

(** ** Losing members *)

Lemma sublist_missing {A} (x : A) l k : sublist l k → x ∈ k → x ∉ l → (length l < length k)%nat.
Proof.
  intros Hs Hk Hl. destruct (Nat.lt_ge_cases (length l) (length k)) as [|Hle]; [done|].
  destruct Hl. by rewrite (submseteq_length_Permutation l k (sublist_submseteq _ _ Hs) Hle).
Qed.

Section losing.
Context {G : Type}.
Implicit Types s : Runner G.

(** Some workers of the group may be gone; the waiting ones are the same. *)
Definition lost s s' : Prop := idle s' = idle s ∧ sublist (active s') (active s).

#[export] Instance lost_preorder : PreOrder lost.
Proof. split; [done|]. intros s1 s2 s3 [H1 H2] [H3 H4]. split; [congruence|by etrans]. Qed.

Lemma untouched_lost s s' : untouched s s' → lost s s'.
Proof. intros [H1 H2]. split; [done|by rewrite H1]. Qed.

Lemma not_in_sublist ids l : sublist (not_in ids l) l.
Proof. apply sublist_filter. Qed.

Lemma not_in_lt (ids : gset string) (more : gset string) w l :
  w ∈ not_in ids l → id w ∈ more →
  (length (not_in (more ∪ ids) l) < length (not_in ids l))%nat.
Proof.
  intros Hw Hm. unfold not_in in *.
  assert (Hs : filter (λ w, id w ∉ more ∪ ids) l = filter (λ w, id w ∉ more) (filter (λ w, id w ∉ ids) l)).
  { rewrite list_filter_filter. apply list_filter_iff. intros x. set_solver. }
  rewrite Hs. remember (filter (λ w, id w ∉ ids) l) as k eqn:E. clear E Hs l.
  induction k as [|x k IH]; [by apply not_elem_of_nil in Hw|]. apply elem_of_cons in Hw as [->|Hw].
  - rewrite filter_cons_False by (intros H; by apply H). cbn.
    pose proof (length_filter (λ w, id w ∉ more) k). lia.
  - destruct (decide (id x ∉ more)) as [Hx|Hx];
      [rewrite filter_cons_True by done|rewrite filter_cons_False by done];
      cbn; specialize (IH Hw); lia.
Qed.

(** *** The population

    The workers in the group and waiting: none is made up, none is there twice. *)

Definition population s : list WorkerSpec := active s ++ idle s.

Definition kept s s' : Prop :=
  population s' ⊆ population s
  ∧ (NoDup (id <$> population s) → NoDup (id <$> population s')).

#[export] Instance kept_preorder : PreOrder kept.
Proof.
  split; [by split|]. intros s1 s2 s3 [H1 H2] [H3 H4]. split; [by etrans|]. auto.
Qed.

Lemma kept_submseteq s s' : population s' ⊆+ population s → kept s s'.
Proof.
  intros Hs. split; [intros w Hw; by eapply elem_of_submseteq|].
  apply submseteq_Permutation in Hs as [k Hp]. rewrite Hp, fmap_app. by intros [? _]%NoDup_app.
Qed.

Lemma lost_kept s s' : lost s s' → kept s s'.
Proof.
  intros [Hi Ha]. apply kept_submseteq. unfold population. rewrite Hi.
  apply submseteq_app; [|done]. by apply sublist_submseteq.
Qed.

Lemma untouched_kept s s' : untouched s s' → kept s s'.
Proof. intros. by apply lost_kept, untouched_lost. Qed.

Lemma kept_length s s' : NoDup (id <$> population s) → kept s s' →
  (length (population s') <= length (population s))%nat.
Proof.
  intros Hnd [Hsub Hn]. apply submseteq_length, NoDup_submseteq; [|done].
  apply (NoDup_fmap_1 id). by apply Hn.
Qed.

(** A batch of [n] waiting workers is in the hands of the runner. *)
Definition taken (n : nat) s s' : Prop := active s' = active s ∧ idle s' = drop n (idle s).

Lemma taken_untouched n s s1 s2 : taken n s s1 → untouched s1 s2 → taken n s s2.
Proof. intros [H1 H2] [H3 H4]. split; congruence. Qed.

Lemma taken_kept n s s' mine :
  sublist mine (take n (idle s)) → population s' ⊆+ (active s ++ mine) ++ drop n (idle s) →
  kept s s'.
Proof.
  intros Hs Hp. apply kept_submseteq. etrans; [exact Hp|]. unfold population.
  rewrite <-(take_drop n (idle s)) at 2. rewrite app_assoc. apply submseteq_app; [|done].
  apply submseteq_app; [done|]. by apply sublist_submseteq.
Qed.

(** What a turn of the growing loop uses up *)
Definition weight s : nat := (2 * length (idle s) + length (active s))%nat.
End losing.

(** ** Joining *)

Section joining.
Context {G : Type} {ext : RunnerExternals} {cfg : Settings}.

Abbreviation M := (RunnerState.M G).
Abbreviation harmless := (quiet (S := Runner G) (Er := RunnerError) contract untouched).

Lemma contract_time {A} (p : prog RunnerEffect A) : ∀ t, always contract t p (λ t' _, t <= t').
Proof.
  induction p as [a|X e k IH]; intros t; [apply N.le_refl|]. cbn. intros x t' Hx.
  assert (Ht : t <= t') by (destruct e; cbn in Hx; lia).
  eapply always_mono; [|apply IH]. intros t2 a. cbn. lia.
Qed.

(** Two tries a second *)
Lemma until_ok_ends worker command ok retryable timeout start fuel : ∀ t,
  start <= t → timeout <= (t - start) + 500 * N.of_nat fuel →
  always contract t (until_ok fuel worker command ok retryable timeout start) (λ _ r, r ≠ None).
Proof.
  induction fuel as [|fuel IH]; intros t Hs Ht; cbn [until_ok];
    apply always_bind, always_trigger; intros now t1 [-> H1];
    destruct (N.ltb_spec (t1 - start) timeout) as [Hlt|Hge]; try done; [lia|].
  apply always_bind. eapply always_mono; [|apply contract_time].
  intros t2 [response|e] H2; cbn beta in H2; [|done].
  destruct (_ && _); [|done]. apply always_bind, always_trigger. intros [] t3 H3. cbn in H3.
  apply IH; lia.
Qed.

Lemma send_until_ok_ends worker command ok retryable timeout t :
  timeout <= 500 * N.of_nat loop_fuel →
  always contract t (send_cmd_until_ok loop_fuel worker command ok retryable timeout)
    (λ _ r, r ≠ None).
Proof.
  intros Hf. apply always_bind, always_trigger. intros start t1 [-> Ht]. apply until_ok_ends; lia.
Qed.

Lemma harmless_prepare plateau target actor joiners : ∀ prepared,
  harmless (prepare_joiners plateau target actor joiners prepared)
    (λ r, ∃ k, r = prepared ++ k ∧ sublist k joiners) (λ _, True).
Proof.
  induction joiners as [|j joiners IH]; intros prepared; cbn [prepare_joiners].
  - apply harmless_ret. exists []. by rewrite app_nil_r.
  - eapply harmless_bind; [by apply (harmless_gets _ (λ _, True))|]. intros size _.
    eapply harmless_rescue; [apply harmless_call|..].
    + intros m _. eapply harmless_mono; [| |apply IH]; [|done].
      intros r (k & -> & Hk). exists (j :: k). rewrite <-app_assoc. split; [done|by constructor].
    + intros e _. eapply harmless_bind; [apply harmless_record|]. intros [] _; [|by apply harmless_fail].
      eapply harmless_mono; [| |apply IH]; [|done].
      intros r (k & -> & Hk). exists k. split; [done|by constructor].
Qed.

Lemma harmless_join plateau target actor joiners :
  JOIN_TIMEOUT_MS <= 500 * N.of_nat loop_fuel → ∀ joined failed,
  harmless (join_all plateau target actor joiners joined failed)
    (λ r, ∃ k, r.1 = joined ++ k ∧ sublist k joiners) (λ _, True).
Proof.
  intros Hf. induction joiners as [|j joiners IH]; intros joined failed; cbn [join_all].
  - apply harmless_ret. exists []. by rewrite app_nil_r.
  - eapply harmless_bind; [by apply (harmless_gets _ (λ _, True))|]. intros size _.
    eapply harmless_rescue with (P := λ _, True) (E' := λ _, True).
    + eapply harmless_bind; [apply harmless_perform; intros t; by apply send_until_ok_ends|].
      intros [r|] Hr; [|done]. eapply (harmless_bind _ _ (λ r', r' = r)); [by intros t s|].
      intros r' ->. destruct r; [by apply harmless_ret|by apply harmless_fail].
    + intros m _. eapply harmless_mono; [| |apply IH]; [|done].
      intros r (k & -> & Hk). exists (j :: k). rewrite <-app_assoc. split; [done|by constructor].
    + intros e _. eapply harmless_bind; [apply harmless_record|]. intros [] _; [|by apply harmless_fail].
      eapply harmless_mono; [| |apply IH]; [|done].
      intros r (k & -> & Hk). exists k. split; [done|by constructor].
Qed.
(** ** Enough fuel *)

Implicit Types s : Runner G.

(** The loops have the fuel they need for a population that is never larger than this. *)
Definition fuelled s : Prop :=
  N.of_nat (length (population s)) <= u64_max ∧ (2 * length (population s) < loop_fuel)%nat
  ∧ JOIN_TIMEOUT_MS <= 500 * N.of_nat loop_fuel.

Lemma fuelled_active s s1 : fuelled s → (length (active s1) <= length (population s))%nat →
  N.of_nat (length (active s1)) <= u64_max ∧ (length (active s1) < loop_fuel)%nat.
Proof. intros (H1 & H2 & _) H3. split; lia. Qed.

Lemma length_population s : length (population s) = (length (active s) + length (idle s))%nat.
Proof. apply length_app. Qed.

Definition added n s s' (o : outcome unit) : Prop :=
  settled o ∧ kept s s'
  ∧ (o = Returned tt → (0 < n <= length (idle s) → weight s' < weight s)%nat).
End joining.

Lemma worker_position_lookup wid l i : worker_position wid l = Some i →
  ∃ w, l !! i = Some w ∧ id w = wid.
Proof.
  unfold worker_position. destruct (list_find _ l) as [[j w]|] eqn:E; [|done]. intros [= <-].
  apply list_find_Some in E as (H1 & H2 & _). by exists w.
Qed.

(** ** Choosing the victims *)

Section choosing.
Context {G : Type} `{rng_ops : !Plateau.Rng G} {rng_laws : Plateau.RngLaws G}.
Implicit Types s : Runner G.

Abbreviation harmless := (quiet (S := Runner G) (Er := RunnerError) contract untouched).

Abbreviation ends := (ensures (S := Runner G) contract).

Lemma harmless_random n E : (0 < n)%nat → harmless (random_index n) (λ i, (i < n)%nat) E.
Proof using rng_laws.
  intros Hn t s. unfold random_index, ensures.
  pose proof (Plateau.gen_range_bounds (scenario_rng s) 0 (N.of_nat n - 1) ltac:(lia)) as Hb.
  destruct (Plateau.gen_range _ _ _) as [i g]. cbn in *. split; [done|lia].
Qed.

Lemma harmless_shuffled {A} (l : list A) E : harmless (shuffled l) (λ _, True) E.
Proof. intros t s. unfold shuffled, ensures. by destruct (Plateau.shuffle _ _). Qed.

(** One element of a list that is not empty *)
Lemma harmless_pick {A} (l : list A) (Q : A → Prop) E : l ≠ [] → (∀ x, x ∈ l → Q x) →
  harmless (bind (random_index (length l)) (λ k, expect (l !! k))) Q E.
Proof using rng_laws.
  intros Hl HQ. eapply harmless_bind; [apply harmless_random; destruct l; [done|cbn; lia]|].
  intros k Hk. destruct (lookup_lt_is_Some_2 l k Hk) as [x Hx]. rewrite Hx.
  intros t s. cbn. split; [done|]. by apply HQ, (list_elem_of_lookup_2 _ k).
Qed.

Lemma removable_sublist l i protect_external protect_profiled :
  sublist (removable_member_indices l i protect_external protect_profiled) (seq 0 (length l)).
Proof. etrans; apply sublist_filter. Qed.

Lemma choose_ends forced protect_external protect_profiled n t s :
  active s ≠ [] →
  ends t s (choose_remove_actor_and_removable_indices forced protect_external protect_profiled n)
    (λ _ s' o, untouched s s' ∧
       match o with
       | Returned (i, removable) => is_Some (active s !! i)
           ∧ removable = removable_member_indices (active s) i protect_external protect_profiled
       | Failed _ => True
       | _ => False
       end).
Proof using rng_laws.
  intros Hl. apply ensures_gets. set (l := active s) in *. cbv zeta.
  set (Q := λ c : nat * list nat, is_Some (l !! c.1)
              ∧ c.2 = removable_member_indices l c.1 protect_external protect_profiled).
  eapply ensures_mono with (Q := λ _ s' o, untouched s s' ∧
    match o with Returned c => Q c | Failed _ => True | _ => False end).
  { intros t' s' [[i r]|e| |] Ho; exact Ho. }
  set (candidates := _ <$> seq 0 (length l)).
  assert (Hc : ∀ c, c ∈ candidates → Q c).
  { intros c (i & -> & Hi%elem_of_seq)%list_elem_of_fmap.
    split; [|done]. apply lookup_lt_is_Some. cbn. lia. }
  set (capable := filter _ candidates). set (best := filter _ candidates).
  assert (Hcap : ∀ c, c ∈ capable → Q c) by (intros c [_ H]%list_elem_of_filter; by apply Hc).
  assert (Hbest : ∀ c, c ∈ best → Q c) by (intros c [_ H]%list_elem_of_filter; by apply Hc).
  clearbody capable best.
  destruct (forced ≫= _) as [i|] eqn:Ef.
  - apply ensures_ret. split; [done|]. split; [|done]. destruct forced as [wid|]; [|done].
    destruct (worker_position_lookup wid l i Ef) as (w & Hw & _). cbn. by rewrite Hw.
  - destruct capable as [|c cs]; [destruct best as [|b bs]; [by apply ensures_fail|]|];
      by apply (harmless_pick _ Q (λ _, True)).
Qed.

(** *** Drawing from the indices that may go *)

Lemma swap_remove_some {A} (l : list A) pos : (pos < length l)%nat →
  ∃ x l', swap_remove l pos = Some (x, l') ∧ x :: l' ≡ₚ l.
Proof.
  intros Hp. destruct (lookup_lt_is_Some_2 l pos Hp) as [x Hx].
  destruct (exists_last (l := l)) as (k & y & ->); [by destruct l|].
  exists x. eexists. unfold swap_remove. rewrite Hx, last_snoc. cbn [mbind option_bind].
  split; [reflexivity|]. rewrite length_app in *. cbn in *.
  replace (pred (length k + 1)) with (length k) by lia.
  destruct (decide (pos < length k)%nat) as [Hk|Hk].
  - rewrite lookup_app_l in Hx by done. rewrite insert_app_l by done.
    rewrite take_app_length' by (by rewrite length_insert).
    rewrite insert_take_drop by done. rewrite <-(take_drop_middle k pos x Hx) at 3.
    rewrite <-!app_assoc. cbn. rewrite Permutation_middle, <-Permutation_cons_append.
    rewrite <-!Permutation_middle. reflexivity.
  - replace pos with (length k) in * by lia. rewrite insert_app_r_alt, Nat.sub_diag by done.
    rewrite take_app_length. rewrite list_lookup_middle in Hx by done. injection Hx as ->.
    by rewrite Permutation_cons_append.
Qed.

Lemma harmless_draw l : ∀ n rest removed,
  (∀ j, j ∈ rest → is_Some (l !! j)) → (n <= length rest)%nat →
  harmless (draw_removed n l rest removed)
    (λ r, ∃ k, r = removed ++ omap (λ j, l !! j) k ∧ k ⊆+ rest
            ∧ length (omap (λ j, l !! j) k) = n) (λ _, False).
Proof using rng_laws.
  induction n as [|n IH]; intros rest removed Hin Hn; cbn [draw_removed].
  { apply harmless_ret. exists []. split_and!; [by rewrite app_nil_r|apply submseteq_nil_l|done]. }
  eapply harmless_bind; [apply harmless_random; lia|]. intros pos Hpos.
  destruct (swap_remove_some rest pos Hpos) as (x & rest' & -> & Hp).
  destruct (Hin x) as [w Hw]; [rewrite <-Hp; left|].
  eapply harmless_expect; [reflexivity|]. cbv beta iota. eapply harmless_expect; [exact Hw|].
  eapply harmless_mono; [|intros e He; exact He|apply IH].
  - intros r (k & -> & Hk & Hlen). exists (x :: k). cbn. rewrite Hw. split_and!.
    + by rewrite <-app_assoc.
    + rewrite <-Hp. by constructor.
    + cbn. by rewrite Hlen.
  - intros j Hj. apply Hin. rewrite <-Hp. by right.
  - apply Permutation_length in Hp. cbn in Hp. lia.
Qed.
End choosing.

Lemma omap_lookup_all {A} (l : list A) : omap (λ j, l !! j) (seq 0 (length l)) = l.
Proof.
  induction l as [|x l IH] using rev_ind; [done|].
  rewrite length_app, seq_app, omap_app. cbn. rewrite list_lookup_middle by done. f_equal.
  rewrite <-IH at 2. apply list_omap_ext, Forall2_same_length_lookup_2; [done|].
  intros i j k Hj Hk. rewrite Hk in Hj. injection Hj as ->.
  apply lookup_seq in Hk as [-> Hk]. by rewrite lookup_app_l.
Qed.

Lemma omap_lookup_submseteq {A} (l : list A) k :
  k ⊆+ seq 0 (length l) → omap (λ j, l !! j) k ⊆+ l.
Proof.
  intros [k' Hp]%submseteq_Permutation.
  transitivity (omap (λ j, l !! j) (seq 0 (length l))); [|by rewrite omap_lookup_all].
  rewrite Hp, omap_app. by apply submseteq_inserts_r.
Qed.

Lemma submseteq_filtered {A} (P : A → Prop) `{∀ x, Decision (P x)} k l :
  k ⊆+ l → Forall P k → k ⊆+ filter P l.
Proof.
  intros [k' Hp]%submseteq_Permutation Hk. rewrite Hp, filter_app, filter_all_true by done.
  by apply submseteq_inserts_r.
Qed.

Section commit.
Context {G : Type} `{rng_ops : !Plateau.Rng G} {ext : RunnerExternals} {cfg : Settings}.

Abbreviation harmless := (quiet (S := Runner G) (Er := RunnerError) contract untouched).

(** The sampler draws as often as it may have to. *)
Context (draws : (Sampling.enough_draws max_commit_receive_samples_per_plateau <= sampler_fuel)%nat).

Lemma harmless_fan_out pending phase operation fanout_phase op recipients plateau epoch seq_no cursor
    expected_of :
  N.of_nat (length recipients) <= u64_max →
  harmless (fan_out_commit pending phase operation fanout_phase op recipients plateau epoch
                       seq_no cursor expected_of) (λ _, True) (fanout_error recipients).
Proof using draws.
  intros Hlen t s. unfold fan_out_commit.
  destruct (Sampling.sampling_map_total sampler_fuel recipients _ commit_receive_sampling_seed
              plateau epoch seq_no draws Hlen) as [[[ids ranks] count] Hs].
  eapply harmless_bind with (P := λ _, True).
  - intros t1 s1. rewrite Hs. done.
  - intros [[ids' ranks'] count'] _.
    eapply harmless_bind; [by apply harmless_perform; intros; apply always_true|].
    intros commands _. apply harmless_batch.
Qed.

Abbreviation M := (RunnerState.M G).
Abbreviation ends := (ensures (S := Runner G) contract).
Implicit Types s : Runner G.

(** ** Evicting *)

Definition evicted (dead : gset string) (s0 : Runner G) (o : outcome (gset string + unit))
    (dead_ids : gset string) s' : Prop :=
  match o with
  | Returned (inl more) => untouched s0 s' ∧ dead_ids ⊆ more
      ∧ (length (not_in more (active s')) < length (not_in dead_ids (active s')))%nat
  | Returned (inr _) => lost s0 s' ∧ ∀ w, w ∈ active s' → id w ∉ dead_ids
  | Failed _ => untouched s0 s'
  | _ => False
  end.

Lemma evict_turn_ends pending plateau (s0 : Runner G) (dead_ids : gset string) t s :
  N.of_nat (length (active s)) <= u64_max → untouched s0 s →
  ends t s (evict_turn pending plateau dead_ids)
    (λ _ s' o, evicted dead_ids s0 o dead_ids s').
Proof using draws.
  intros Hlen Hu. apply ensures_gets.
  destruct (not_in dead_ids (active s)) as [|actor rest] eqn:El; [by apply ensures_fail|].
  assert (Hactor : actor ∈ not_in dead_ids (active s)) by (rewrite El; left).
  assert (Hfailed : ∀ cursor recipients e t1 s1, untouched s s1 →
    ends t1 s1 (evict_actor_failed cursor actor recipients dead_ids e)
      (λ _ s' o, evicted dead_ids s0 o dead_ids s')).
  { intros cursor recipients e t1 s1 H1. eapply ends_harmless; [apply harmless_record| |].
    - intros t2 s2 [] H2 _; [|apply ensures_fail; cbn; by rewrite Hu, H1].
      apply ensures_ret. cbn. split; [by rewrite Hu, H1|]. split; [set_solver|].
      destruct H1 as [H1 _], H2 as [H2 _]. rewrite H2, H1. eapply not_in_lt; [exact Hactor|set_solver].
    - intros t2 s2 e2 H2 _. cbn. by rewrite Hu, H1. }
  assert (Hfinish : ∀ gone t1 s1, dead_ids ⊆ gone → untouched s s1 →
    ends t1 s1 (evict_finish gone) (λ _ s' o, evicted dead_ids s0 o dead_ids s')).
  { intros gone t1 s1 Hg H1. apply ensures_modify, ensures_ret. cbn. split.
    - transitivity s1; [apply untouched_lost; by rewrite Hu|]. split; [done|apply not_in_sublist].
    - intros w Hw. apply list_elem_of_filter in Hw as [Hw _]. set_solver. }
  set (recipients := filter (λ w, id w ≠ id actor) (actor :: rest)).
  assert (Hrec : N.of_nat (length recipients) <= u64_max).
  { etrans; [|exact Hlen]. unfold recipients. rewrite <-El.
    pose proof (length_filter (λ w, id w ≠ id actor) (not_in dead_ids (active s))).
    pose proof (length_filter (λ w, id w ∉ dead_ids) (active s)). unfold not_in in *. lia. }
  eapply ends_rescue; [apply harmless_call| |by eauto].
  intros t1 s1 before H1 _. destruct (member_of dead_ids before) as [|m ms]; [by apply Hfinish|].
  eapply ends_rescue; [apply harmless_call| |intros t2 s2 e H2 _; apply Hfailed; by rewrite H1].
  intros t2 s2 expected H2 _.
  eapply ends_rescue; [apply harmless_call| |intros t3 s3 e H3 _; apply Hfailed; by rewrite H1, H2].
  intros t3 s3 [] H3 _.
  eapply ends_rescue; [by apply harmless_fan_out| |].
  - intros t4 s4 [] H4 _. apply Hfinish; [done|]. by rewrite H1, H2, H3.
  - intros t4 s4 e H4 He. eapply ends_harmless; [by apply (harmless_record_batch _ _ _ _ recipients), fanout_batch_error| |].
    + intros t5 s5 [ws|] H5 Hws.
      * destruct (Hws ws eq_refl) as [Hne Hsub]. apply ensures_ret. cbn.
        split; [by rewrite Hu, H1, H2, H3, H4|]. split; [set_solver|].
        destruct H1 as [H1 _], H2 as [H2 _], H3 as [H3 _], H4 as [H4 _], H5 as [H5 _].
        rewrite H5, H4, H3, H2, H1. destruct ws as [|w ws]; [done|].
        assert (Hw : w ∈ recipients) by (apply Hsub; left).
        apply list_elem_of_filter in Hw as [_ Hw]. rewrite <-El in Hw.
        eapply not_in_lt; [exact Hw|]. set_solver.
      * assert (Hfail : ends t5 s5 (fail e) (λ _ s' o, evicted dead_ids s0 o dead_ids s')).
        { apply ensures_fail. cbn. by rewrite Hu, H1, H2, H3, H4. }
        destruct He as (ph & op & fs & -> & _). destruct (all_not_in_group fs) as [ids|]; [|done].
        destruct resource_sweep; [|done]. apply Hfinish; [set_solver|]. by rewrite H1, H2, H3, H4.
    + intros t5 s5 e' H5 _. cbn. by rewrite Hu, H1, H2, H3, H4.
Qed.

Lemma evict_ends dead pending plateau t s :
  N.of_nat (length (active s)) <= u64_max → (length (active s) < loop_fuel)%nat →
  ends t s (evict_oom_group_members dead pending plateau)
    (λ _ s' o, settled o ∧ lost s s'
       ∧ (o = Returned tt → ∀ w, w ∈ active s' → id w ∉ id <$> dead)).
Proof using draws.
  intros Hlen Hf. unfold evict_oom_group_members. destruct dead as [|w0 dead].
  { apply ensures_ret. split_and!; [done|done|]. intros _ w _. apply not_elem_of_nil. }
  set (dead_ids := list_to_set (id <$> w0 :: dead) : gset string).
  eapply (ensures_iterate contract _ (λ _ ids s', untouched s s' ∧ dead_ids ⊆ ids)
            (λ ids s', length (not_in ids (active s')))); [|by split|].
  - intros t1 ids s1 [Hu Hd]. eapply ensures_mono; [|apply (evict_turn_ends _ _ s)]; [| |done].
    + intros t2 s2 o Ho. destruct o as [[more|[]]|e| |]; cbn in Ho; [|..|done|done].
      * destruct Ho as (H1 & H2 & H3). split; [split; [done|set_solver]|].
        by rewrite (proj1 Hu), <-(proj1 H1).
      * destruct Ho as [H1 H2]. split_and!; [done|done|]. intros _ w Hw Hin.
        apply (H2 w Hw), Hd. by apply elem_of_list_to_set.
      * split_and!; [done|by apply untouched_lost|done].
    + destruct Hu as [-> _]. done.
  - pose proof (length_filter (λ w, id w ∉ dead_ids) (active s)). unfold not_in. lia.
Qed.

(** ** Adding *)

Lemma abandon_ends n cursor actor joiners target action error s t s1 :
  fuelled s → taken n s s1 → actor ∈ active s → sublist joiners (take n (idle s)) →
  ends t s1 (abandon_add cursor actor joiners target action error) (λ _ s' o, added n s s' o).
Proof using draws.
  intros Hf Ht Ha Hj. pose proof (sublist_length _ _ Hj) as Hl. rewrite length_take in Hl.
  assert (Hk : ∀ s2, taken n s s2 → kept s s2).
  { intros s2 [H1 H2]. apply (taken_kept n s s2 []); [apply sublist_nil_l|].
    unfold population. by rewrite H1, H2, app_nil_r. }
  apply ensures_gets. eapply ends_harmless; [apply harmless_record| |].
  - intros t2 s2 [] H2 _.
    2: { apply ensures_fail. split_and!; [done|apply Hk; by eapply taken_untouched|done]. }
    apply ensures_modify. pose proof (taken_untouched _ _ _ _ Ht H2) as [E1 E2].
    set (s3 := set_idle (joiners ++ idle s2) s2).
    assert (Hlen : (length (active s3) <= length (population s))%nat).
    { rewrite length_population. cbn. rewrite E1. lia. }
    destruct (fuelled_active s s3 Hf Hlen) as [H3 H4].
    eapply ensures_mono; [|by apply evict_ends].
    intros t4 s4 o (Ho & [Hi Hs] & Hdead). cbn in Hi, Hs. rewrite E1 in Hs. rewrite E2 in Hi.
    split_and!; [done| |].
    + apply (taken_kept n s s4 joiners); [done|]. unfold population. rewrite Hi, app_assoc.
      apply submseteq_app; [|done]. apply submseteq_app; [|done]. by apply sublist_submseteq.
    + intros -> _. specialize (Hdead eq_refl).
      assert (Hlt : (length (active s4) < length (active s))%nat).
      { apply (sublist_missing actor); [done..|]. intros Hin. apply (Hdead actor Hin). left. }
      unfold weight. rewrite Hi, length_app, length_drop. lia.
  - intros t2 s2 e H2 _. split_and!; [done|apply Hk; by eapply taken_untouched|done].
Qed.

Lemma finish_add_ends n cursor actor_idx actor expected joined failed target s t s1 :
  fuelled s → taken n s s1 → sublist joined (take n (idle s)) →
  ends t s1 (finish_add cursor actor_idx actor expected joined failed target)
    (λ _ s' o, added n s s' o).
Proof using draws.
  intros Hf Ht Hj. pose proof (sublist_length _ _ Hj) as Hl. rewrite length_take in Hl.
  assert (Hfew : ∀ s2 o, settled o → idle s2 = drop n (idle s) → sublist (active s2) (active s ++ joined) →
    added n s s2 o).
  { intros s2 o Ho Hi Ha. split_and!; [done| |].
    - apply (taken_kept n s s2 joined); [done|]. unfold population. rewrite Hi.
      apply submseteq_app; [|done]. by apply sublist_submseteq.
    - intros _ Hn. apply sublist_length in Ha. rewrite length_app in Ha.
      unfold weight. rewrite Hi, length_drop. lia. }
  assert (Hsame : ∀ s2 o, settled o → taken n s s2 → added n s s2 o).
  { intros s2 o Ho [E1 E2]. apply Hfew; [done..|]. rewrite E1. by apply sublist_inserts_r. }
  assert (Hextend : ∀ dead t2 s2, taken n s s2 →
    ends t2 s2 (bind (modify (λ s, set_active (active s ++ joined) s))
                  (λ _, evict_oom_group_members dead process_pending_fanout target))
      (λ _ s' o, added n s s' o)).
  { intros dead t2 s2 [E1 E2]. apply ensures_modify.
    set (s3 := set_active (active s2 ++ joined) s2).
    destruct (fuelled_active s s3 Hf) as [H3 H4].
    { rewrite length_population. cbn. rewrite length_app, E1. lia. }
    eapply ensures_mono; [|by apply evict_ends]. intros t4 s4 o (Ho & [Hi Hs] & _).
    apply Hfew; [done| |]; cbn in *; congruence. }
  apply ensures_gets. set (recipients := delete actor_idx (active s1)).
  assert (Hrec : N.of_nat (length recipients) <= u64_max).
  { destruct (fuelled_active s s1 Hf) as [H3 _].
    - rewrite length_population, (proj1 Ht). lia.
    - pose proof (sublist_length _ _ (sublist_delete (active s1) actor_idx)). unfold recipients. lia. }
  eapply ends_rescue; [by apply harmless_fan_out| |].
  { intros t2 s2 [] H2 _. rewrite app_nil_r. apply Hextend. by eapply taken_untouched. }
  intros t2 s2 e H2 He. eapply ends_harmless; [by apply (harmless_record_batch _ _ _ _ recipients), fanout_batch_error| |].
  - intros t3 s3 [ws|] H3 _; [apply Hextend; by eapply taken_untouched, H3; eapply taken_untouched|].
    assert (Ht3 : taken n s s3) by (by eapply taken_untouched, H3; eapply taken_untouched).
    assert (Hfail : ends t3 s3 (fail e) (λ _ s' o, added n s s' o)) by (by apply Hsame).
    destruct He as (ph & op & fs & -> & _). destruct (all_not_in_group fs) as [ids|]; [|done].
    destruct resource_sweep; [|done]. apply Hfew; [done|apply Ht3|]. cbn.
    apply sublist_inserts_r. rewrite <-(proj1 Ht3). apply not_in_sublist.
  - intros t3 s3 e3 H3 _. apply Hsame; [done|]. by eapply taken_untouched, H3; eapply taken_untouched.
Qed.

Context {rng_laws : Plateau.RngLaws G}.

(** An actor that is wanted, or a random one *)
Lemma harmless_actor wanted l E : l ≠ [] →
  harmless (match wanted ≫= λ wid, worker_position wid l with
                     | Some i => ret i
                     | None => random_index (length l)
                     end) (λ i, is_Some (l !! i)) E.
Proof using rng_laws.
  intros Hl. destruct (wanted ≫= _) as [i|] eqn:Ew.
  - apply harmless_ret. destruct wanted as [wid|]; [|done].
    destruct (worker_position_lookup wid l i Ew) as (w & -> & _). done.
  - eapply harmless_mono; [|done|apply harmless_random].
    + intros i Hi. by apply lookup_lt_is_Some.
    + destruct l; [done|cbn; clear; lia].
Qed.

Lemma add_ends d forced plateau target t s :
  fuelled s →
  ends t s (add_n_members d forced plateau target)
    (λ _ s' o, settled o ∧ kept s s' ∧ (o = Returned tt → (weight s' < weight s)%nat)).
Proof using draws rng_laws.
  intros Hf. apply ensures_gets, ensures_gets. set (n := N.to_nat (Batches.effective d)).
  destruct (active s) as [|w0 l0] eqn:El; [by apply ensures_fail|]. rewrite <-El.
  cbv zeta. fold n.
  destruct (Nat.eqb_spec n 0) as [|Hn]; [by apply ensures_fail|].
  destruct (Nat.ltb_spec (length (idle s)) n) as [|Hle]; [by apply ensures_fail|].
  assert (Hadded : ∀ s' (o : outcome unit), added n s s' o →
    settled o ∧ kept s s' ∧ (o = Returned tt → (weight s' < weight s)%nat)).
  { clear draws. intros s' o (H1 & H2 & H3). split_and!; [done|done|]. intros Ho. apply H3; [done|lia]. }
  eapply ends_harmless; [apply (harmless_actor _ _ (λ _, False)); by rewrite El| |done].
  intros t1 s1 idx H1 [actor Hactor]. eapply ensures_expect; [exact Hactor|]. apply ensures_modify.
  assert (Ht : taken n s (set_idle (drop n (idle s)) s1)) by (by split; [apply H1|]).
  assert (Ha : actor ∈ active s) by (by eapply list_elem_of_lookup_2).
  assert (Hsame : ∀ s2 (o : outcome unit), taken n s s2 → settled o →
    settled o ∧ kept s s2 ∧ (o = Returned tt → (weight s2 < weight s)%nat)).
  { clear draws. intros s2 o [E1 E2] Ho. split_and!; [done| |].
    - apply (taken_kept n s s2 []); [apply sublist_nil_l|]. unfold population. by rewrite E1, E2, app_nil_r.
    - intros _. unfold weight. rewrite E1, E2, length_drop. lia. }
  eapply ends_harmless; [apply harmless_prepare| |].
  2: { intros t2 s2 e H2 _. apply Hsame; [|done]. by eapply taken_untouched. }
  intros t2 s2 joiners H2 (k & -> & Hk). cbn [app].
  assert (Ht2 : taken n s s2) by (by eapply taken_untouched). clear Ht H1 H2 s1.
  destruct k as [|j joiners]; [by apply Hsame|]. set (all := j :: joiners) in *. clearbody all.
  eapply ends_harmless; [apply harmless_call| |].
  2: { intros t3 s3 e H3 _. apply Hsame; [|done]. by eapply taken_untouched. }
  intros t3 s3 before H3 _. cbv zeta.
  eapply ends_harmless; [apply (harmless_perform _ (λ _, True) (λ _, False)); intros; apply always_true| |done].
  intros t4 s4 context H4 _.
  assert (Ht4 : taken n s s4) by (by eapply taken_untouched, H4; eapply taken_untouched).
  clear Ht2 H3 H4 s2 s3.
  assert (Hgive : ∀ cursor action e t' s', untouched s4 s' →
    ends t' s' (abandon_add cursor actor all target action e)
      (λ _ s' o, settled o ∧ kept s s' ∧ (o = Returned tt → (weight s' < weight s)%nat))).
  { intros cursor action e t' s' H'. eapply ensures_mono; [|eapply (abandon_ends n); try done].
    - intros; by apply Hadded.
    - by eapply taken_untouched. }
  eapply ends_rescue; [apply harmless_call| |by intros; apply Hgive].
  intros t5 s5 _ H5 _. eapply ends_rescue; [apply harmless_call| |].
  2: { intros t6 s6 e H6 _. apply Hgive. by rewrite H5. }
  intros t6 s6 [] H6 _.
  eapply ends_harmless; [apply harmless_join; apply Hf| |].
  2: { intros t7 s7 e H7 _. apply Hsame; [|done]. eapply taken_untouched; [exact Ht4|]. by rewrite H5, H6. }
  intros t7 s7 [joined failed] H7 (k & Hjk & Hks). cbn in Hjk. subst k.
  eapply ensures_mono; [|eapply (finish_add_ends n); try done].
  - intros; by apply Hadded.
  - eapply taken_untouched; [exact Ht4|]. by rewrite H5, H6.
  - by etrans.
Qed.

(** ** Removing *)

Lemma remove_ends d forced protect_external protect_profiled plateau t s :
  fuelled s →
  ends t s (remove_n_members d forced protect_external protect_profiled plateau)
    (λ _ s' o, settled o ∧ kept s s'
       ∧ (o = Returned tt → (length (active s') < length (active s))%nat)).
Proof using draws rng_laws.
  intros Hf. apply ensures_gets. cbv zeta. set (l := active s).
  destruct (Nat.leb_spec (length l) 1) as [|Hl]; [by apply ensures_fail|].
  destruct (Nat.eqb_spec (N.to_nat (Batches.effective d)) 0) as [|Hn]; [by apply ensures_fail|].
  destruct (Nat.leb_spec (length l) (N.to_nat (Batches.effective d))); [by apply ensures_fail|].
  assert (Hkeep : ∀ s2 (o : outcome unit), untouched s s2 → settled o → o ≠ Returned tt →
    settled o ∧ kept s s2 ∧ (o = Returned tt → (length (active s2) < length l)%nat)).
  { clear draws. intros s2 o Hu Ho Hr. split_and!; [done|by apply untouched_kept|done]. }
  apply ensures_bind. eapply ensures_mono; [|apply choose_ends; fold l; destruct l; [cbn in Hl; lia|done]].
  intros t1 s1 [[i removable]|e| |] [H1 Hr]; [|by apply Hkeep|done..]. cbn in Hr.
  destruct Hr as [[actor Hactor] ->]. eapply ensures_expect; [exact Hactor|].
  set (removable := removable_member_indices _ _ _ _).
  assert (Hsub : sublist removable (seq 0 (length l))) by apply removable_sublist.
  clearbody removable.
  destruct removable as [|r0 rs]; [by apply ensures_fail, Hkeep|]. set (all := r0 :: rs) in *.
  set (n := (_ `min` length all)%nat).
  assert (Hpos : (0 < n <= length all)%nat) by (clear draws; subst n all; cbn; lia). clearbody n all.
  eapply ends_harmless; [apply (harmless_draw l n all []); [|apply Hpos]| |].
  { intros j Hj. apply lookup_lt_is_Some. eapply elem_of_sublist, elem_of_seq in Hsub; [|exact Hj]. lia. }
  2: { intros t2 s2 e H2 []. }
  intros t2 s2 removed H2 (k & -> & Hk & Hlen). cbn [app].
  set (removed := omap (λ j, l !! j) k) in *.
  assert (Hrl : removed ⊆+ l).
  { apply omap_lookup_submseteq. by etrans; [|apply sublist_submseteq]. }
  assert (Hne : removed ≠ []) by (destruct removed; [cbn in Hlen; lia|done]).
  eapply ends_harmless; [apply harmless_call| |].
  2: { intros t3 s3 e H3 _. apply Hkeep; [by rewrite H1, H2|done..]. }
  intros t3 s3 before H3 _. cbv zeta.
  eapply ends_harmless; [apply (harmless_perform _ (λ _, True) (λ _, False)); intros; apply always_true| |done].
  intros t4 s4 context H4 _.
  assert (Hu4 : untouched s s4) by (by rewrite H1, H2, H3). clear H1 H2 H3 H4 s1 s2 s3.
  eapply ends_rescue; [apply harmless_call| |].
  2: { intros t5 s5 e H5 _. eapply ends_harmless; [apply harmless_record| |].
       - intros t6 s6 [] H6 _; [|apply ensures_fail, Hkeep; [by rewrite Hu4, H5|done..]].
         assert (Hu6 : untouched s s6) by (by rewrite Hu4, H5). destruct Hu6 as [E1 E2].
         destruct (fuelled_active s s6 Hf) as [Hb1 Hb2].
         { rewrite length_population, E1. lia. }
         eapply ensures_mono; [|by apply evict_ends].
         intros t7 s7 o (Ho & [Hi Hs] & Hdead). rewrite E1 in Hs. rewrite E2 in Hi.
         split_and!; [done|by apply lost_kept|]. intros ->. specialize (Hdead eq_refl).
         apply (sublist_missing actor); [done|by eapply list_elem_of_lookup_2|].
         intros Hin. apply (Hdead actor Hin). left.
       - intros t6 s6 e6 H6 _. apply Hkeep; [by rewrite Hu4, H5|done..]. }
  intros t5 s5 _ H5 _. eapply ends_harmless; [apply harmless_call| |].
  2: { intros t6 s6 e H6 _. apply Hkeep; [by rewrite Hu4, H5|done..]. }
  intros t6 s6 [] H6 _.
  eapply ends_harmless; [apply harmless_fan_out| |].
  { destruct (fuelled_active s s Hf) as [Hb _]; [rewrite length_population; lia|].
    pose proof (length_filter (λ w, id w ≠ id actor) l). subst l. lia. }
  2: { intros t7 s7 e H7 _. apply Hkeep; [by rewrite Hu4, H5, H6|done..]. }
  intros t7 s7 [] H7 _.
  assert (Hu : untouched s s7) by (by rewrite Hu4, H5, H6). destruct Hu as [E1 E2].
  assert (Hgone : removed ⊆+ filter (λ w, id w ∈ (list_to_set (id <$> removed) : gset string)) l).
  { apply submseteq_filtered; [done|]. apply Forall_forall. intros w Hw. set_solver. }
  split_and!; [done| |].
  - apply kept_submseteq. unfold population. cbn. rewrite E1, E2. fold l.
    rewrite app_assoc. apply submseteq_app; [|done]. rewrite reverse_Permutation.
    unfold not_in. rewrite Permutation_app_comm. etrans; [by apply submseteq_app; [exact Hgone|]|].
    by rewrite filter_app_complement.
  - intros _. cbn. rewrite E1. fold l. destruct removed as [|w removed]; [done|].
    apply (sublist_missing w); [apply not_in_sublist| |].
    + eapply elem_of_submseteq; [left|exact Hrl].
    + intros [Hin _]%list_elem_of_filter. apply Hin. set_solver.
Qed.
End commit.

(** ** Moving to a size *)

Section transitions.
Context {G : Type} `{rng_ops : !Plateau.Rng G} {rng_laws : Plateau.RngLaws G}.
Context {ext : RunnerExternals} {cfg : Settings} (seed_from_u64 : N → G).
Implicit Types s : Runner G.

Abbreviation harmless := (quiet (S := Runner G) (Er := RunnerError) contract untouched).

Abbreviation ends := (ensures (S := Runner G) contract).

Lemma harmless_forced_external use_counts E :
  harmless (forced_external use_counts) (λ _, True) E.
Proof.
  unfold forced_external. destruct external_coverage_lane; [|by apply harmless_ret].
  eapply harmless_bind; [by apply (harmless_gets _ (λ _, True))|]. intros l _.
  destruct (min_by _ _); [|by apply harmless_ret].
  eapply harmless_bind; [apply harmless_shuffled|]. intros ids _. by apply harmless_ret.
Qed.

Lemma harmless_forced_profiled E : harmless forced_profiled (λ _, True) E.
Proof.
  unfold forced_profiled. destruct profile_only_singletons; [|by apply harmless_ret].
  eapply harmless_bind; [by apply (harmless_gets _ (λ _, True))|]. intros l _.
  eapply harmless_bind; [by apply (harmless_gets _ (λ _, True))|]. intros seen _.
  eapply harmless_bind; [apply harmless_shuffled|]. intros ids _. by apply harmless_ret.
Qed.

Lemma harmless_note forced E : harmless (note_add_actor forced) (λ _, True) E.
Proof.
  apply harmless_modify. intros s. destruct forced as [wid|]; [|done]. by destruct (existsb _ _).
Qed.

Lemma harmless_next_add cap actor E :
  harmless (next_add_batch seed_from_u64 cap actor) (λ _, True) E.
Proof. intros t s. unfold next_add_batch, ensures. by destruct (Batches.plans_next_batch _ _ _ _ _). Qed.

Lemma harmless_next_remove cap actor E :
  harmless (next_remove_batch seed_from_u64 cap actor) (λ _, True) E.
Proof. intros t s. unfold next_remove_batch, ensures. by destruct (Batches.plans_next_batch _ _ _ _ _). Qed.

(** The fuel is enough for what is left of a population. *)
Lemma fuelled_kept s s' : NoDup (id <$> population s) → kept s s' → fuelled s → fuelled s'.
Proof. intros Hnd Hk (H1 & H2 & H3). pose proof (kept_length s s' Hnd Hk). split_and!; [lia..|done]. Qed.

Lemma kept_NoDup s s' : NoDup (id <$> population s) → kept s s' → NoDup (id <$> population s').
Proof. intros Hnd [_ Hk]. auto. Qed.

Lemma weight_bound s : fuelled s → (weight s < loop_fuel)%nat.
Proof. intros (_ & H & _). rewrite length_population in H. unfold weight. lia. Qed.

Lemma active_bound s : fuelled s → (length (active s) < loop_fuel)%nat.
Proof. intros (_ & H & _). rewrite length_population in H. lia. Qed.

(** The workers of a settled operation are among those it was given. *)
Definition safe {A} s s' (o : outcome A) : Prop := settled o ∧ kept s s'.

Lemma weight_untouched s s' : untouched s s' → weight s' = weight s.
Proof. intros [H1 H2]. unfold weight. by rewrite H1, H2. Qed.

Context (draws : (Sampling.enough_draws max_commit_receive_samples_per_plateau <= sampler_fuel)%nat).

Lemma grow_turn_ends plateau target use_counts t s :
  fuelled s →
  ends t s (grow_turn seed_from_u64 plateau target use_counts)
    (λ _ s' o, safe s s' o ∧ match o with
                             | Returned (inl _) => (weight s' < weight s)%nat
                             | _ => True
                             end).
Proof using draws rng_laws.
  intros Hf. apply ensures_gets, ensures_gets.
  destruct (_ <? _)%nat; [|by apply ensures_ret]. cbv zeta.
  destruct (_ =? 0)%nat; [by apply ensures_ret|].
  eapply ends_harmless; [apply (harmless_forced_external _ (λ _, False))| |done].
  intros t1 s1 external H1 _. cbv zeta.
  eapply ends_harmless; [apply (harmless_forced_profiled (λ _, False))| |done].
  intros t2 s2 profiled H2 _.
  eapply ends_harmless; [apply (harmless_note _ (λ _, False))| |done].
  intros t3 s3 _ H3 _.
  eapply ends_harmless; [apply (harmless_next_add _ _ (λ _, False))| |done].
  intros t4 s4 d H4 _. assert (Hu : untouched s s4) by (by rewrite H1, H2, H3).
  clear H1 H2 H3 H4 s1 s2 s3.
  assert (Hf4 : fuelled s4) by (destruct Hu as [E1 E2]; unfold fuelled, population; by rewrite E1, E2).
  apply ensures_bind. eapply ensures_mono; [|by apply add_ends].
  intros t5 s5 o (Ho & Hk & Hw). assert (Hk' : kept s s5) by (by rewrite (untouched_kept s s4)).
  destruct o as [[]|e| |]; [|by split|done..]. specialize (Hw eq_refl).
  rewrite (weight_untouched s s4) in Hw by done.
  apply ensures_gets, ensures_gets. by destruct (_ && _).
Qed.

Lemma shrink_turn_ends target use_counts t s :
  fuelled s →
  ends t s (shrink_turn seed_from_u64 target use_counts)
    (λ _ s' o, safe s s' o ∧ match o with
                             | Returned (inl _) => (length (active s') < length (active s))%nat
                             | Returned (inr _) => (length (active s') <= N.to_nat target)%nat
                             | _ => True
                             end).
Proof using draws rng_laws.
  intros Hf. apply ensures_gets.
  destruct (Nat.ltb_spec (N.to_nat target) (length (active s))) as [_|Hle]; [|by apply ensures_ret].
  cbv zeta. destruct (_ =? 0)%nat; [by apply ensures_fail|].
  eapply ends_harmless; [apply (harmless_forced_external _ (λ _, False))| |done].
  intros t1 s1 external H1 _. cbv zeta.
  eapply ends_harmless; [apply (harmless_next_remove _ _ (λ _, False))| |done].
  intros t2 s2 d H2 _. assert (Hu : untouched s s2) by (by rewrite H1).
  clear H1 H2 s1.
  assert (Hf2 : fuelled s2) by (destruct Hu as [E1 E2]; unfold fuelled, population; by rewrite E1, E2).
  apply ensures_bind. eapply ensures_mono; [|by apply remove_ends].
  intros t3 s3 o (Ho & Hk & Hw). assert (Hk' : kept s s3) by (by rewrite (untouched_kept s s2)).
  destruct o as [[]|e| |]; [|by split|done..]. specialize (Hw eq_refl).
  destruct Hu as [E _]. rewrite E in Hw. by apply ensures_ret.
Qed.

Lemma transition_ends plateau target t s :
  fuelled s → NoDup (id <$> population s) →
  ends t s (transition_to_size seed_from_u64 plateau target)
    (λ _ s' o, safe s s' o ∧ (o = Returned tt → (length (active s') <= N.to_nat target)%nat)).
Proof using draws rng_laws.
  intros Hf Hnd. apply ensures_bind.
  eapply ensures_mono; [|apply (ensures_iterate contract _ (λ _ _ s', kept s s') (λ _ s', weight s')
    (λ _ s' o, safe s s' o)); [|done|by apply weight_bound]].
  - intros t1 s1 o [Ho Hk1]. destruct o as [[]|e| |]; [|by split|done..].
    assert (Hf1 : fuelled s1) by (by eapply fuelled_kept).
    apply (ensures_iterate contract _ (λ _ _ s', kept s s') (λ _ s', length (active s')));
      [|done|by apply active_bound].
    intros t2 uses s2 Hk2. assert (Hf2 : fuelled s2) by (by eapply fuelled_kept).
    eapply ensures_mono; [|by apply shrink_turn_ends].
    intros t3 s3 o [[Ho3 Hk3] Hm]. assert (Hk : kept s s3) by (by etrans).
    by destruct o as [[uses'|[]]|e| |].
  - intros t2 uses s2 Hk2. assert (Hf2 : fuelled s2) by (by eapply fuelled_kept).
    eapply ensures_mono; [|by apply grow_turn_ends].
    intros t3 s3 o [[Ho3 Hk3] Hm]. assert (Hk : kept s s3) by (by etrans).
    by destruct o as [[uses'|[]]|e| |].
Qed.
End transitions.
