(* ===== verification/PhaseTermination.v ===== *)
(** * Every phase of the OpenMLS runner comes to an end

    [RunnerTermination], for the loops of the phases: the measure of each is the members
    left to lose and the samples left to take.  The one phase without a measure is that of
    the density of additions, whose loop may go round for ever. *)

From S2P Require Import Prelude Text Interaction HttpRetry RunnerConfig Worker RunnerCommands.
From S2P Require Import Program RunnerState Membership RunnerPhases RunnerTermination.
From S2P Require Batches Plateau Sampling.
From stdpp Require Import options.

Local Open Scope N_scope.

(** ** Samples that are missing *)

Definition missing (counts : gmap string N) (required : N) (ids : list string) : nat :=
  sum_list_with (λ i, (N.to_nat required - N.to_nat (count_of counts i))%nat) ids.

Lemma missing_bound counts required ids :
  (missing counts required ids <= length ids * N.to_nat required)%nat.
Proof. unfold missing. induction ids as [|i ids IH]; [done|]. cbn. lia. Qed.

Lemma missing_cons counts required i ids :
  missing counts required (i :: ids)
  = (N.to_nat required - N.to_nat (count_of counts i) + missing counts required ids)%nat.
Proof. done. Qed.

Lemma missing_app counts required l k :
  missing counts required (l ++ k) = (missing counts required l + missing counts required k)%nat.
Proof. apply sum_list_with_app. Qed.

#[export] Instance missing_Permutation counts required :
  Proper ((≡ₚ) ==> eq) (missing counts required).
Proof. intros l k H. unfold missing. by rewrite H. Qed.

Lemma missing_submseteq counts required l k :
  l ⊆+ k → (missing counts required l <= missing counts required k)%nat.
Proof. intros [k' ->]%submseteq_Permutation. rewrite missing_app. lia. Qed.

Lemma count_bump counts wid i :
  count_of (bump counts wid) i = if decide (i = wid) then count_of counts i + 1 else count_of counts i.
Proof.
  unfold bump. destruct (decide (i = wid)) as [->|Hne]; unfold count_of.
  - by rewrite lookup_insert_eq.
  - by rewrite lookup_insert_ne.
Qed.

Lemma missing_bump_le counts required wid ids :
  (missing (bump counts wid) required ids <= missing counts required ids)%nat.
Proof.
  unfold missing. induction ids as [|i ids IH]; [done|]. cbn [sum_list_with]. rewrite count_bump.
  destruct (decide (i = wid)); lia.
Qed.

Lemma missing_bump counts required wid ids :
  wid ∈ ids → count_of counts wid < required →
  (missing (bump counts wid) required ids < missing counts required ids)%nat.
Proof.
  intros Hin Hc. apply list_elem_of_split in Hin as (l & k & ->).
  rewrite !missing_app, !missing_cons, count_bump, decide_True by done.
  pose proof (missing_bump_le counts required wid l).
  pose proof (missing_bump_le counts required wid k). lia.
Qed.

Lemma missing_bumps_le counts required wids ids :
  (missing (foldl bump counts wids) required ids <= missing counts required ids)%nat.
Proof.
  revert counts. induction wids as [|w wids IH]; intros counts; [done|]. cbn [foldl].
  etrans; [apply IH|apply missing_bump_le].
Qed.

Lemma missing_bumps counts required wid wids ids :
  wid ∈ ids → wid ∈ wids → count_of counts wid < required →
  (missing (foldl bump counts wids) required ids < missing counts required ids)%nat.
Proof.
  intros Hi Hw. revert counts. induction wids as [|w wids IH]; intros counts Hc;
    [by apply not_elem_of_nil in Hw|]. cbn [foldl].
  destruct (decide (wid = w)) as [->|Hne].
  - eapply Nat.le_lt_trans; [apply missing_bumps_le|]. by apply missing_bump.
  - apply elem_of_cons in Hw as [Hw|Hw]; [done|].
    eapply Nat.lt_le_trans; [apply IH; [done|]|apply missing_bump_le].
    rewrite count_bump, decide_False; done.
Qed.

(** ** The least *)

Lemma min_by_elem {A} (before : A → A → bool) l x : min_by before l = Some x → x ∈ l.
Proof.
  revert x. induction l as [|y l IH]; intros x; [done|]. cbn [min_by].
  destruct (min_by before l) as [z|]; [|intros [= ->]; left].
  destruct (before z y); intros [= <-]; [right; by apply IH|left].
Qed.

Lemma min_by_some {A} (before : A → A → bool) l : l ≠ [] → is_Some (min_by before l).
Proof. destruct l as [|x l]; [done|]. intros _. cbn [min_by]. by destruct (min_by before l). Qed.

Lemma min_by_none {A} (before : A → A → bool) l : min_by before l = None → l = [].
Proof. destruct l as [|x l]; [done|]. cbn [min_by]. by destruct (min_by before l). Qed.

Lemma worker_position_complete w l : w ∈ l → ∃ i, worker_position (id w) l = Some i.
Proof.
  intros Hw. destruct (list_find_elem_of (λ w', id w' = id w) l w Hw eq_refl) as [[i w'] Hi].
  exists i. unfold worker_position. by rewrite Hi.
Qed.

Lemma indices_where_lookup p l i : i ∈ indices_where p l →
  ∃ w, l !! i = Some w ∧ p w = true.
Proof.
  intros [Hp _]%list_elem_of_filter. destruct (l !! i) as [w|]; [|done]. by exists w.
Qed.

(** ** Operations that keep the population *)

Section phases.
Context {G : Type} `{rng_ops : !Plateau.Rng G} {ext : RunnerExternals} {cfg : Settings}.
Implicit Types s : Runner G.

Abbreviation M := (RunnerState.M G).
Abbreviation harmless := (quiet (S := Runner G) (Er := RunnerError) contract untouched).
Abbreviation ends := (ensures (S := Runner G) contract).

(** The samples every member is to take of an operation *)
Definition required_samples : N := N.max min_profiled_samples_per_operation 1.

(** The loops have the fuel for the members to lose, the samples to take and the
    operations the settings allow. *)
Definition roomy s : Prop :=
  fuelled s
  ∧ (N.of_nat (length (population s)) + 1) * (3 * required_samples + 1)
    + max_update_samples_per_plateau + max_app_samples_per_payload + 1 < N.of_nat loop_fuel.

(** No two workers of the population have the same id, and its loops have enough fuel. *)
Definition ready s : Prop := roomy s ∧ NoDup (id <$> population s).

Lemma ready_kept s s' : kept s s' → ready s → ready s'.
Proof.
  intros Hk [[Hf Hb] Hnd]. pose proof (kept_length s s' Hnd Hk).
  split; [split|by eapply kept_NoDup]; [by eapply fuelled_kept|nia].
Qed.

(** It settles, or [endless] holds and it goes round for ever; the population is kept. *)
Definition fits (endless : Prop) {A} s s' (o : outcome A) : Prop :=
  kept s s' ∧ match o with Panicked => False | Exhausted => endless | _ => True end.

Definition sound (endless : Prop) {A} (m : M A) : Prop :=
  ∀ t s, ready s → ends t s m (λ _ s' o, fits endless s s' o).

Lemma safe_fits endless {A} s s' (o : outcome A) : safe s s' o → fits endless s s' o.
Proof. intros [Ho Hk]. split; [done|]. by destruct o. Qed.

Lemma sound_safe endless {A} (m : M A) :
  (∀ t s, ready s → ends t s m (λ _ s' o, safe s s' o)) → sound endless m.
Proof.
  intros Hm t s Hr. eapply ensures_mono; [|by apply Hm]. intros; by apply safe_fits.
Qed.

Lemma sound_weaken endless {A} (m : M A) : sound False m → sound endless m.
Proof.
  intros Hm t s Hr. eapply ensures_mono; [|by apply Hm]. intros t' s' o [Hk Ho]. split; [done|].
  by destruct o.
Qed.

Lemma sound_bind endless {A B} (m : M A) (f : A → M B) :
  sound endless m → (∀ a, sound endless (f a)) → sound endless (bind m f).
Proof.
  intros Hm Hf t s Hr. apply ensures_bind. eapply ensures_mono; [|by apply Hm].
  intros t1 s1 [a|e| |] [Hk Ho]; [|done..].
  eapply ensures_mono; [|apply Hf; by eapply ready_kept].
  intros t2 s2 o [Hk2 Ho2]. split; [by etrans|done].
Qed.

Lemma sound_harmless endless {A} (m : M A) Q E : harmless m Q E → sound endless m.
Proof.
  intros Hm t s Hr. eapply ensures_mono; [|apply Hm]. intros t1 s1 o [Hu Ho].
  split; [by apply untouched_kept|by destruct o].
Qed.

Lemma sound_ret endless {A} (a : A) : sound endless (ret a).
Proof. by apply (sound_harmless _ _ (λ _, True) (λ _, True)), harmless_ret. Qed.

Lemma sound_fail endless {A} e : sound endless (fail (A := A) e).
Proof. by apply (sound_harmless _ _ (λ _, True) (λ _, True)), harmless_fail. Qed.

Lemma sound_gets endless {A} (f : Runner G → A) : sound endless (gets f).
Proof. by apply (sound_harmless _ _ (λ _, True) (λ _, True)), harmless_gets. Qed.

Lemma sound_call endless {A} (p : Call A) : sound endless (call p).
Proof. eapply sound_harmless, harmless_call. Qed.

Lemma safe_untouched {A} s s' (o : outcome A) : untouched s s' → settled o → safe s s' o.
Proof. intros Hu Ho. split; [done|by apply untouched_kept]. Qed.

Lemma safe_lost {A} s s' (o : outcome A) : lost s s' → settled o → safe s s' o.
Proof. intros Hl Ho. split; [done|by apply lost_kept]. Qed.

(** A loop whose turns lower a measure, and whose turns are sound *)
Lemma sound_iterate {A B} (body : B → M (B + A)) (measure : B → Runner G → nat) b0 t s :
  (∀ t b s, ready s → ends t s (body b) (λ _ s' o, safe s s' o ∧
     match o with Returned (inl b') => (measure b' s' < measure b s)%nat | _ => True end)) →
  ready s → (measure b0 s < loop_fuel)%nat →
  ends t s (iterate loop_fuel body b0) (λ _ s' o, safe s s' o).
Proof.
  intros Hbody Hr Hm.
  apply (ensures_iterate contract _ (λ _ _ s', kept s s') measure); [|done|exact Hm].
  intros t1 b s1 Hk. eapply ensures_mono; [|apply Hbody; by eapply ready_kept].
  intros t2 s2 o [[Ho Hk2] Hd]. assert (Hk' : kept s s2) by (by etrans).
  by destruct o as [[b'|a]|e| |].
Qed.

(** A loop that may go round for ever *)
Lemma sound_rounds {A B} (body : B → M (B + A)) fuel : ∀ b,
  (∀ b, sound True (body b)) → sound True (iterate fuel body b).
Proof.
  induction fuel as [|fuel IH]; intros b Hbody; cbn [iterate].
  - intros t s Hr. split; [done|done].
  - apply sound_bind; [done|]. intros [b'|a]; [by apply IH|by apply sound_ret].
Qed.

(** ** Convergence *)

Lemma ensure_converged_blames l ids t :
  always contract t (ensure_converged l ids) (λ _ r,
    match r with Err e => batch_error l e | Ok _ => True end).
Proof.
  destruct l as [|w l]; [by intros ? ? ? [=]|]. unfold ensure_converged.
  apply always_bind. unfold collect_worker_group_states.
  apply always_bind. eapply always_mono; [|by apply (fanout_collect_blames _ _ (w :: l))].
  intros t1 [successes failures] Hb. cbn [snd] in Hb.
  destruct failures as [|f fs].
  - assert (Hplain : ∀ ws m, match order_states (T := GroupStateSnapshot) ws m with
                             | Err e => ∃ x, e = Plain x | Ok _ => True end).
    { clear. induction ws as [|w ws IH]; intros m; cbn [order_states]; [done|].
      destruct (m !! id w) as [st|]; cbn; [|by eexists]. specialize (IH (delete (id w) m)).
      destruct (order_states ws _); cbn; [done|]. by destruct IH as [x ->]; eexists. }
    pose proof (Hplain (w :: l) (collect_map ((λ p, (id p.1, p)) <$> successes))) as Hp.
    change (mret (order_states (w :: l) (collect_map ((λ p, (id p.1, p)) <$> successes))))
      with (Ret (E := RunnerEffect) (order_states (w :: l) (collect_map ((λ p, (id p.1, p)) <$> successes)))).
    cbn [always].
    destruct (order_states (w :: l) _) as [states|e]; [|by destruct Hp as [x ->]; intros ? ? ? [=]].
    unfold check_converged. destruct states as [|[w0 r0] rest]; [by intros ? ? ? [=]|].
    destruct (bool_decide _); [|by intros ? ? ? [=]].
    destruct (find _ _) as [[? ?]|]; [by intros ? ? ? [=]|done].
  - cbn. by intros ? ? ? [= <- <- <-].
Qed.

Lemma harmless_ensure_converged l ids :
  harmless (call (ensure_converged l ids)) (λ _, True) (batch_error l).
Proof.
  eapply harmless_bind; [apply harmless_perform; intros t; apply ensure_converged_blames|].
  intros [a|e] He; [by apply harmless_ret|by apply harmless_fail].
Qed.

Context (draws : (Sampling.enough_draws max_commit_receive_samples_per_plateau <= sampler_fuel)%nat).

(** Evicting some of the group *)
Lemma evict_some dead all pending plateau t s :
  ready s → dead ≠ [] → dead ⊆ all → all ⊆ active s →
  ends t s (evict_oom_group_members dead pending plateau)
    (λ _ s' o, settled o ∧ lost s s'
       ∧ (o = Returned tt → (length (active s') < length (active s))%nat)).
Proof using draws.
  intros [[Hf _] Hnd] Hne Hd Ha. destruct (fuelled_active s s Hf) as [H1 H2].
  { rewrite length_population. lia. }
  eapply ensures_mono; [|by apply evict_ends].
  intros t1 s1 o (Ho & Hl & Hdead). split_and!; [done|done|]. intros E. specialize (Hdead E).
  destruct dead as [|w dead]; [done|]. apply (sublist_missing w); [apply Hl|set_solver|].
  intros Hin. apply (Hdead w Hin). left.
Qed.

Lemma ready_untouched s s' : untouched s s' → ready s → ready s'.
Proof. intros Hu. by apply ready_kept, untouched_kept. Qed.

Lemma lost_untouched s s1 s' : untouched s s1 → lost s1 s' → lost s s'.
Proof. intros Hu Hl. etrans; [by apply untouched_lost|done]. Qed.

Lemma converge_ends plateau size t s :
  ready s → ends t s (ensure_converged_with_attrition plateau size) (λ _ s' o, safe s s' o).
Proof using draws.
  intros Hr. apply (sound_iterate _ (λ _ s', length (active s'))); [|done|by apply active_bound, Hr].
  clear Hr s t. intros t [] s Hr. apply ensures_gets.
  eapply ends_rescue; [apply harmless_ensure_converged| |].
  { intros t1 s1 st H1 _. apply ensures_ret. split; [by apply safe_untouched|done]. }
  intros t1 s1 e H1 He. eapply ends_harmless; [by apply (harmless_record_batch _ _ _ _ (active s))| |].
  2: { intros t2 s2 e2 H2 _. split; [apply safe_untouched; [by rewrite H1|done]|done]. }
  intros t2 s2 [dead|] H2 Hdead.
  2: { apply ensures_fail. split; [apply safe_untouched; [by rewrite H1|done]|done]. }
  destruct (Hdead dead eq_refl) as [Hne Hsub]. assert (Hu : untouched s s2) by (by rewrite H1).
  apply ensures_bind. eapply ensures_mono; [|apply (evict_some _ (active s)); [by eapply ready_untouched|done..|]].
  - intros t3 s3 o (Ho & Hl & Hlt). assert (Hk : kept s s3) by (by eapply lost_kept, lost_untouched).
    destruct o as [[]|e'| |]; [|by split|done..]. apply ensures_ret. split; [done|].
    destruct Hu as [E _]. rewrite <-E. by apply Hlt.
  - by destruct Hu as [-> _].
Qed.

(** ** Updates *)

(** The operations that may still fail, and those left to do *)
Definition left_to_do (plan : Plan) (p : gmap string N * N) s : nat :=
  ((if density_enabled
    then missing p.1 min_profiled_samples_per_operation (id <$> active s)
    else N.to_nat (planned plan) - N.to_nat p.2) + length (active s))%nat.

(** After a failure: the group is smaller, and nothing is done. *)
Definition without {A} (s : Runner G) (p : gmap string N * N) s' (o : outcome (gmap string N * N + A)) : Prop :=
  settled o ∧ lost s s'
  ∧ match o with
    | Returned (inl p') => p' = p ∧ (length (active s') < length (active s))%nat
    | Returned (inr _) => False
    | _ => True
    end.

Lemma without_untouched {A} s s1 p s' (o : outcome (gmap string N * N + A)) :
  untouched s s1 → without s1 p s' o → without s p s' o.
Proof.
  intros Hu (Ho & Hl & Hm). split_and!; [done|by eapply lost_untouched|].
  destruct o as [[p'|a]|e| |]; [|done..]. by destruct Hu as [<- _].
Qed.

Lemma without_left plan s p s' A (o : outcome (gmap string N * N + A)) :
  without s p s' o →
  safe s s' o ∧ match o with
                | Returned (inl p') => (left_to_do plan p' s' < left_to_do plan p s)%nat
                | _ => True
                end.
Proof.
  clear draws. intros (Ho & Hl & Hm). split; [by apply safe_lost|].
  destruct o as [[p'|a]|e| |]; [|done..]. destruct Hm as [-> Hlt]. unfold left_to_do.
  destruct density_enabled; [|lia].
  pose proof (missing_submseteq p.1 min_profiled_samples_per_operation (id <$> active s')
    (id <$> active s) (fmap_submseteq id _ _ (sublist_submseteq _ _ (proj2 Hl)))). lia.
Qed.

Lemma go_on_ends {A} p pending plateau error dead all t s :
  ready s → all ⊆ active s → (∀ ws, dead = Some ws → ws ≠ [] ∧ ws ⊆ all) →
  ends t s (go_on_without (A := A) p pending plateau error dead) (λ _ s' o, without s p s' o).
Proof using draws.
  intros Hr Ha Hd. destruct dead as [dead|]; [|by apply ensures_fail].
  destruct (Hd dead eq_refl) as [Hne Hsub]. apply ensures_bind.
  eapply ensures_mono; [|by apply (evict_some _ all)].
  intros t1 s1 o (Ho & Hl & Hlt). destruct o as [[]|e| |]; [|by split_and!|done..].
  apply ensures_ret. split_and!; [done|done|done|by apply Hlt].
Qed.

Lemma actor_failure_ends {A} p pending cursor l actor action error t s :
  ready s → actor ∈ active s →
  ends t s (actor_failure (A := A) p pending cursor l actor action error)
    (λ _ s' o, without s p s' o).
Proof using draws.
  intros Hr Ha. eapply ends_harmless; [apply harmless_record| |].
  - intros t1 s1 recorded H1 _. eapply ensures_mono.
    { intros t2 s2 o Ho. eapply without_untouched; [exact H1|exact Ho]. }
    apply (go_on_ends _ _ _ _ _ [actor]); [by eapply ready_untouched|destruct H1 as [-> _]; set_solver|].
    by destruct recorded; intros ws [= <-].
  - intros t1 s1 e H1 _. split_and!; [done|by apply untouched_lost|done].
Qed.

Lemma recipients_failure_ends {A} p pending cursor actor action error recipients t s :
  ready s → recipients ⊆ active s → batch_error recipients error →
  ends t s (recipients_failure (A := A) p pending cursor actor action error)
    (λ _ s' o, without s p s' o).
Proof using draws.
  intros Hr Ha He. eapply ends_harmless; [by apply (harmless_record_batch _ _ _ _ recipients)| |].
  - intros t1 s1 recorded H1 Hd. eapply ensures_mono.
    { intros t2 s2 o Ho. eapply without_untouched; [exact H1|exact Ho]. }
    apply (go_on_ends _ _ _ _ _ recipients); [by eapply ready_untouched|by destruct H1 as [-> _]|done].
  - intros t1 s1 e H1 _. split_and!; [done|by apply untouched_lost|done].
Qed.

Context {rng_laws : Plateau.RngLaws G}.

Lemma harmless_sampled indices count seq_no (l : list WorkerSpec) E :
  indices ≠ [] → 0 < count → (∀ i, i ∈ indices → is_Some (l !! i)) →
  harmless (bind (expect (Sampling.sampled_member_index (len indices) count seq_no))
                       (λ k, expect (indices !! N.to_nat k))) (λ i, is_Some (l !! i)) E.
Proof.
  clear draws. intros Hne Hc Hi.
  destruct (Sampling.sampled_member_range (len indices) count seq_no) as (k & Hk & Hlt); [|done|].
  { unfold len. destruct indices; [done|cbn; lia]. }
  eapply harmless_expect; [exact Hk|]. cbv beta.
  destruct (lookup_lt_is_Some_2 indices (N.to_nat k)) as [i Hi']; [unfold len in Hlt; lia|].
  rewrite Hi'. intros t s. cbn. split; [done|]. by eapply Hi, list_elem_of_lookup_2.
Qed.

Lemma harmless_choose plan l density_actor_id seq_no E :
  0 < planned plan → active_profiled_indices l ≠ [] →
  harmless (choose_actor plan l density_actor_id seq_no)
    (λ i, ∃ w, l !! i = Some w
            ∧ ∀ wid w', density_actor_id = Some wid → w' ∈ l → id w' = wid → id w = wid) E.
Proof.
  clear draws. intros Hp Hl. unfold choose_actor. cbv zeta.
  set (wanted := match density_actor_id with Some wid => Some wid | None => _ end).
  destruct (wanted ≫= _) as [i|] eqn:Ew.
  { apply harmless_ret. destruct wanted as [wid|] eqn:Ed; [|done].
    destruct (worker_position_lookup wid l i Ew) as (w & Hw & Hid). exists w. split; [done|].
    intros wid' w' Hd _ _. subst wanted. rewrite Hd in Ed. congruence. }
  assert (Hnone : ∀ wid w', density_actor_id = Some wid → w' ∈ l → id w' = wid → False).
  { intros wid w' Hd Hw' Hid. subst wanted. rewrite Hd in Ew. cbn in Ew.
    destruct (worker_position_complete w' l Hw') as [i Hi]. congruence. }
  assert (Hweak : ∀ m : M nat, harmless m (λ i, is_Some (l !! i)) E →
    harmless m (λ i, ∃ w, l !! i = Some w
      ∧ ∀ wid w', density_actor_id = Some wid → w' ∈ l → id w' = wid → id w = wid) E).
  { intros m Hm. eapply harmless_mono; [|intros e He; exact He|exact Hm].
    intros i [w Hw]. exists w. split; [done|]. intros. exfalso. by eapply Hnone. }
  apply Hweak. clear Hweak. destruct ((if bool_decide _ then _ else _) ≫= _) as [i|] eqn:Ex.
  { apply harmless_ret. destruct (if bool_decide _ then _ else _) as [wid|]; [|done].
    destruct (worker_position_lookup wid l i Ex) as (w & -> & _). done. }
  assert (Hin : ∀ p i, i ∈ indices_where p l → is_Some (l !! i)).
  { intros p i Hi. destruct (indices_where_lookup p l i Hi) as (w & -> & _). done. }
  destruct (_ && negb _) eqn:Eb; apply harmless_sampled; eauto.
  apply andb_prop in Eb as [_ Eb]. by case_bool_decide.
Qed.

(** An operation that is done *)
Definition done_by (plan : Plan) (p : gmap string N * N) s s' A (o : outcome (gmap string N * N + A)) : Prop :=
  safe s s' o ∧ match o with
                | Returned (inl p') => (left_to_do plan p' s' < left_to_do plan p s)%nat
                | _ => True
                end.

Lemma one_more_left plan l p actor ended density_actor_id s :
  l = active s → phase_ended plan l p = (ended, density_actor_id) → ended = false →
  actor ∈ l → (∀ wid w', density_actor_id = Some wid → w' ∈ l → id w' = wid → id actor = wid) →
  (left_to_do plan (one_more p actor) s < left_to_do plan p s)%nat.
Proof.
  clear draws. intros -> Hp He Ha Hd. unfold phase_ended in Hp. unfold left_to_do, one_more.
  destruct density_enabled; injection Hp as Hp <-; rewrite He in Hp; cbn [fst snd].
  - apply bool_decide_eq_false in Hp.
    destruct (least_sampled_active_external_id _ _ _) as [wid|] eqn:El; [|done].
    unfold least_sampled_active_external_id in El. apply fmap_Some in El as (w & Hw & ->).
    apply min_by_elem, list_elem_of_filter in Hw as [Hw Hin].
    apply andb_prop in Hw as [_ Hw%N.ltb_lt].
    rewrite (Hd (id w) w eq_refl Hin eq_refl).
    pose proof (missing_bump p.1 min_profiled_samples_per_operation (id w) (id <$> active s)
      (list_elem_of_fmap_2 _ _ _ Hin) Hw). lia.
  - apply N.leb_gt in Hp. lia.
Qed.

Lemma recipients_bound s l : ready s → sublist l (active s) → N.of_nat (length l) <= u64_max.
Proof.
  clear. intros [[(H & _) _] _] Hl%sublist_length. rewrite length_population in H. lia.
Qed.

Lemma update_turn_ends plateau size plan p t s :
  ready s → 0 < planned plan →
  ends t s (update_turn plateau size plan p) (λ _ s' o, done_by plan p s s' _ o).
Proof using draws rng_laws.
  intros Hr Hp. apply ensures_gets. set (l := active s).
  destruct (phase_ended plan l p) as [ended density] eqn:Epe.
  destruct (ended || _) eqn:Eend; [by apply ensures_ret|].
  apply orb_false_iff in Eend as [He Hprof%bool_decide_eq_false].
  eapply ends_harmless; [by apply (harmless_choose _ _ _ _ (λ _, False))| |done].
  intros t1 s1 i H1 (actor & Hi & Hd). eapply ensures_expect; [exact Hi|].
  assert (Ha : actor ∈ active s) by (by eapply list_elem_of_lookup_2).
  assert (Hfailed : ∀ cursor e t' s', untouched s s' →
    ends t' s' (actor_failure (A := unit) p process_pending_fanout cursor l actor
                  "evict_update_actor_and_retry" e) (λ _ s' o, done_by plan p s s' _ o)).
  { intros cursor e t' s' Hu. eapply ensures_mono; [|apply actor_failure_ends].
    - intros t2 s2 o Ho. by eapply without_left, without_untouched.
    - by eapply ready_untouched.
    - by destruct Hu as [-> _]. }
  eapply ends_rescue; [apply harmless_call| |intros; apply Hfailed; by rewrite H1].
  intros t2 s2 before H2 _. cbv zeta. assert (Hu2 : untouched s s2) by (by rewrite H1).
  eapply ends_harmless; [apply (harmless_perform _ (λ _, True) (λ _, False)); intros; apply always_true| |done].
  intros t3 s3 context H3 _. assert (Hu3 : untouched s s3) by (by rewrite Hu2). clear H1 H2 H3.
  eapply ends_rescue; [apply harmless_call| |intros; apply Hfailed; by rewrite Hu3].
  intros t4 s4 _ H4 _. assert (Hu4 : untouched s s4) by (by rewrite Hu3). clear H4.
  eapply ends_rescue; [apply harmless_call| |intros; apply Hfailed; by rewrite Hu4].
  intros t5 s5 _ H5 _. assert (Hu5 : untouched s s5) by (by rewrite Hu4). clear H5.
  eapply ends_rescue; [apply harmless_fan_out; [done|]| |].
  - apply (recipients_bound s); [done|apply sublist_delete].
  - intros t6 s6 _ H6 _. assert (Hu6 : untouched s s6) by (by rewrite Hu5).
    apply ensures_ret. split; [by apply safe_untouched|].
    assert (El : left_to_do plan (one_more p actor) s6 = left_to_do plan (one_more p actor) s).
    { unfold left_to_do. by destruct Hu6 as [-> _]. }
    rewrite El. eapply one_more_left; done.
  - intros t6 s6 e H6 He'. assert (Hu6 : untouched s s6) by (by rewrite Hu5).
    eapply ensures_mono; [|apply (recipients_failure_ends _ _ _ _ _ _ (delete i l))].
    + intros t7 s7 o Ho. by eapply without_left, without_untouched.
    + by eapply ready_untouched.
    + destruct Hu6 as [-> _]. intros w Hw. by eapply elem_of_sublist, sublist_delete.
    + by apply fanout_batch_error.
Qed.

Lemma left_to_do_fuel plan s : ready s →
  planned plan <= max_update_samples_per_plateau + max_app_samples_per_payload + 1
                  + (N.of_nat (length (population s)) + 1) * required_samples →
  (left_to_do plan (∅, 0%N) s < loop_fuel)%nat.
Proof.
  clear. intros [[_ Hf] _] Hp. rewrite length_population in *. unfold left_to_do. cbn [fst snd].
  unfold required_samples in *. destruct density_enabled.
  - pose proof (missing_bound ∅ min_profiled_samples_per_operation (id <$> active s)) as Hb.
    rewrite length_fmap in Hb. set (m := missing _ _ _) in *. clearbody m. nia.
  - nia.
Qed.

Lemma required_actors_ends t s :
  ends t s required_actors (λ _ s' o, untouched s s' ∧
    match o with
    | Returned ids => (length ids <= length (active s) + 1)%nat
    | _ => False
    end).
Proof using rng_laws.
  clear draws. apply ensures_gets. cbv zeta. set (l := active s).
  assert (Hids : ∀ indices, (length (omap (λ i, id <$> l !! i) indices) <= length indices)%nat).
  { induction indices as [|i indices IH]; [done|]. cbn. destruct (l !! i); cbn; lia. }
  assert (Hidx : ∀ p, (length (indices_where p l) <= length l)%nat).
  { intros p. unfold indices_where. etrans; [apply length_filter|]. by rewrite length_seq. }
  destruct external_coverage_lane; [|by apply ensures_ret; split; [|cbn; lia]].
  destruct (_ && _) eqn:Eb.
  - apply andb_prop in Eb as [_ Eb]. case_bool_decide as Hne; [done|]. clear Eb.
    eapply ends_harmless with (F := λ _, False); [apply harmless_random; by destruct (active_profiled_non_external_indices l); [|cbn; lia]| |done].
    intros t1 s1 k H1 Hk. destruct (lookup_lt_is_Some_2 _ _ Hk) as [i Hi].
    eapply ensures_expect; [exact Hi|]. apply ensures_ret. split; [done|].
    etrans; [apply Hids|]. rewrite length_app. cbn.
    pose proof (Hidx is_external). unfold active_external_indices. lia.
  - apply ensures_ret. split; [done|]. etrans; [apply Hids|]. unfold active_external_indices.
    pose proof (Hidx is_external). lia.
Qed.

Lemma update_ends plateau size t s :
  ready s → ends t s (run_update_phase plateau size) (λ _ s' o, safe s s' o).
Proof using draws rng_laws.
  intros Hr. apply ensures_gets. cbv zeta. case_bool_decide; [by apply ensures_ret|].
  apply ensures_bind. eapply ensures_mono; [|apply required_actors_ends].
  intros t1 s1 [required|e| |] [H1 Hlen]; [|done..].
  cbv zeta. set (total := N.max (Sampling.update_ops_for_plateau _ _ _) _).
  destruct (N.eqb_spec total 0) as [|Hpos]; [by apply ensures_ret, safe_untouched|].
  assert (Hseq : harmless (match (if external_coverage_lane then None
      else id <$> head (filter (λ w, is_external w = true) (active s))) with
    | Some _ => let~ k <- random_index (N.to_nat total) in ret (Some (N.of_nat k))
    | None => ret None end) (λ _, True) (λ _, False)).
  { clear draws. destruct (if external_coverage_lane then _ else _); [|by apply harmless_ret].
    eapply harmless_bind; [apply harmless_random; lia|]. intros k _. by apply harmless_ret. }
  eapply ends_harmless; [exact Hseq| |done].
  intros t2 s2 seq H2 _. assert (Hu : untouched s s2) by (by rewrite H1). clear Hseq.
  set (plan := MkPlan _ _ _ _ _).
  assert (Hr2 : ready s2) by (by eapply ready_untouched).
  eapply ensures_mono; [|apply (sound_iterate _ (λ p s, left_to_do plan p s)); [|exact Hr2|]].
  - intros t3 s3 o [Ho Hk]. split; [done|]. by rewrite (untouched_kept s s2).
  - intros t3 p s3 Hr3. eapply ensures_mono; [|apply update_turn_ends; [done|cbn; lia]].
    intros t4 s4 o Ho. exact Ho.
  - apply left_to_do_fuel; [done|]. clear draws. rewrite length_population, (proj1 Hu). cbn.
    unfold total, Sampling.update_ops_for_plateau, Sampling.cap_count, Sampling.saturating_mul,
      required_samples, len. clear -Hlen.
    destruct (max_update_samples_per_plateau =? 0); nia.
Qed.

(** ** Application messages *)

Lemma harmless_sample_payload source E :
  harmless (sample_payload source) (λ _, True) E.
Proof. intros t s. unfold sample_payload, ensures. by destruct (Plateau.sample_source _ _). Qed.

(** The one other profiled member whose message is a sample *)
Lemma harmless_sampled_recipient profiled count seq_no (l : list WorkerSpec) E :
  0 < count → (∀ i, i ∈ profiled → is_Some (l !! i)) →
  harmless
    (if bool_decide (profiled = []) then ret ""
     else
       let~ k <- expect (Sampling.sampled_member_index (len profiled) count seq_no) in
       let~ i <- expect (profiled !! N.to_nat k) in
       let~ w <- expect (l !! i) in ret (id w)) (λ _, True) E.
Proof.
  clear draws. intros Hc Hi. case_bool_decide as Hne; [by apply harmless_ret|].
  destruct (Sampling.sampled_member_range (len profiled) count seq_no) as (k & Hk & Hlt); [|done|].
  { unfold len. destruct profiled; [done|cbn; lia]. }
  eapply harmless_expect; [exact Hk|]. cbv beta.
  destruct (lookup_lt_is_Some_2 profiled (N.to_nat k)) as [i Hi']; [unfold len in Hlt; lia|].
  eapply harmless_expect; [exact Hi'|]. cbv beta.
  destruct (Hi i) as [w Hw]; [by eapply list_elem_of_lookup_2|].
  eapply harmless_expect; [exact Hw|]. by apply harmless_ret.
Qed.

Lemma application_turn_ends plateau size source plan p t s :
  ready s → 0 < planned plan →
  ends t s (application_turn plateau size source plan p) (λ _ s' o, done_by plan p s s' _ o).
Proof using draws rng_laws.
  intros Hr Hp. apply ensures_gets. set (l := active s).
  destruct (phase_ended plan l p) as [ended density] eqn:Epe.
  destruct ended; [by apply ensures_ret|].
  destruct ((length l <? 2)%nat || _) eqn:Eend; [by apply ensures_ret|].
  apply orb_false_iff in Eend as [_ Hprof%bool_decide_eq_false].
  eapply ends_harmless; [by apply (harmless_choose _ _ _ _ (λ _, False))| |done].
  intros t1 s1 i H1 (actor & Hi & Hd). eapply ensures_expect; [exact Hi|].
  assert (Ha : actor ∈ active s) by (by eapply list_elem_of_lookup_2).
  eapply ends_harmless; [apply (harmless_sample_payload _ (λ _, False))| |done].
  intros t2 s2 payload_size H2 _. cbv zeta.
  eapply ends_harmless; [apply (harmless_perform _ (λ _, True) (λ _, False)); intros; apply always_true| |done].
  intros t3 s3 context H3 _. assert (Hu3 : untouched s s3) by (by rewrite H1, H2). clear H1 H2 H3.
  eapply ends_rescue; [apply harmless_call| |].
  2: { intros t' s' e Hu _. assert (Hu' : untouched s s') by (by rewrite Hu3).
       eapply ensures_mono; [|apply actor_failure_ends].
       - intros t4 s4 o Ho. by eapply without_left, without_untouched.
       - by eapply ready_untouched.
       - by destruct Hu' as [-> _]. }
  intros t4 s4 _ H4 _. assert (Hu4 : untouched s s4) by (by rewrite Hu3). clear H4.
  eapply ends_harmless; [apply (harmless_sampled_recipient _ _ _ l (λ _, False)); [done|]| |done].
  { intros j [_ Hj]%list_elem_of_filter.
    destruct (indices_where_lookup _ _ _ Hj) as (w & -> & _). done. }
  intros t5 s5 sampled H5 _. assert (Hu5 : untouched s s5) by (by rewrite Hu4). clear H5.
  eapply ends_harmless; [apply (harmless_perform _ (λ _, True) (λ _, False)); intros; apply always_true| |done].
  intros t6 s6 commands H6 _. assert (Hu6 : untouched s s6) by (by rewrite Hu5). clear H6.
  eapply ends_rescue; [apply harmless_batch| |].
  - intros t7 s7 _ H7 _. assert (Hu7 : untouched s s7) by (by rewrite Hu6).
    apply ensures_ret. split; [by apply safe_untouched|].
    assert (El : left_to_do plan (one_more p actor) s7 = left_to_do plan (one_more p actor) s).
    { unfold left_to_do. by destruct Hu7 as [-> _]. }
    rewrite El. eapply one_more_left; done.
  - intros t7 s7 e H7 He'. assert (Hu7 : untouched s s7) by (by rewrite Hu6).
    eapply ensures_mono; [|apply (recipients_failure_ends _ _ _ _ _ _ (delete i l))].
    + intros t8 s8 o Ho. by eapply without_left, without_untouched.
    + by eapply ready_untouched.
    + destruct Hu7 as [-> _]. intros w Hw. by eapply elem_of_sublist, sublist_delete.
    + by apply fanout_batch_error.
Qed.

Lemma plan_payload_ends count t s :
  0 < count →
  ends t s (plan_payload count) (λ _ s' o, untouched s s' ∧
    match o with
    | Returned plan => 0 < planned plan
        ∧ planned plan <= count + 1 + (N.of_nat (length (active s)) + 1) * required_samples
    | _ => False
    end).
Proof using rng_laws.
  clear draws. intros Hc. apply ensures_gets. apply ensures_bind.
  eapply ensures_mono; [|apply required_actors_ends].
  intros t1 s1 [required|e| |] [H1 Hlen]; [|done..]. cbv zeta.
  set (total := if external_coverage_lane then N.max count _ else _).
  assert (Ht : 0 < total ∧ total <= count + 1 + (N.of_nat (length (active s)) + 1) * required_samples).
  { subst total. unfold Sampling.saturating_mul, required_samples, len.
    destruct external_coverage_lane; [split; nia|]. destruct (_ && _); split; nia. }
  clearbody total.
  assert (Hseq : harmless (match id <$> head (filter (λ w, is_external w = true) (active s)) with
    | Some _ => if external_coverage_lane then ret None
                else let~ k <- random_index (N.to_nat total) in ret (Some (N.of_nat k))
    | None => ret None end) (λ _, True) (λ _, False)).
  { destruct (id <$> _); [|by apply harmless_ret]. destruct external_coverage_lane; [by apply harmless_ret|].
    eapply harmless_bind; [apply harmless_random; lia|]. intros k _. by apply harmless_ret. }
  eapply ends_harmless; [exact Hseq| |done].
  intros t2 s2 seq H2 _. apply ensures_ret. split; [by rewrite H1|exact Ht].
Qed.

Lemma each_payload_ends plateau size count sources : ∀ t s,
  ready s → 0 < count → count <= max_app_samples_per_payload →
  ends t s (each_payload plateau size count sources) (λ _ s' o, safe s s' o).
Proof using draws rng_laws.
  induction sources as [|source sources IH]; intros t s Hr Hc Hle; cbn [each_payload];
    [by apply ensures_ret|].
  apply ensures_bind. eapply ensures_mono; [|by apply plan_payload_ends].
  intros t1 s1 [plan|e| |] [H1 Hp]; [|done..]. destruct Hp as [Hpos Hp].
  assert (Hr1 : ready s1) by (by eapply ready_untouched).
  apply ensures_bind.
  eapply ensures_mono; [|apply (sound_iterate _ (λ p s, left_to_do plan p s)); [|exact Hr1|]].
  - intros t2 s2 o [Ho Hk]. assert (Hk' : kept s s2) by (by rewrite (untouched_kept s s1)).
    destruct o as [[]|e| |]; [| |by split|done..]; [|by apply ensures_ret].
    eapply ensures_mono; [|apply IH; [by eapply ready_kept|done..]].
    intros t3 s3 o [Ho3 Hk3]. split; [done|by etrans].
  - intros t2 p s2 Hr2. by apply application_turn_ends.
  - apply left_to_do_fuel; [done|]. clear draws. rewrite length_population, (proj1 H1). nia.
Qed.

Lemma application_ends plateau size t s :
  ready s → ends t s (run_application_phase plateau size) (λ _ s' o, safe s s' o).
Proof using draws rng_laws.
  intros Hr. apply ensures_gets. destruct (length (active s) <? 2)%nat; [by apply ensures_ret|]. cbv zeta.
  destruct (N.eqb_spec (Sampling.app_sends_per_payload_for_plateau size app_rounds
                          max_app_samples_per_payload) 0) as [|Hc]; [by apply ensures_ret|].
  cbn [orb]. case_bool_decide; [by apply ensures_ret|].
  apply ensures_bind. unfold ensures at 1.
  destruct (Plateau.shuffled_sources payload_sizes (scenario_rng s)) as [sources g]. cbn [always].
  eapply ensures_mono; [|apply each_payload_ends].
  - by intros.
  - by apply (ready_untouched s).
  - clear -Hc. lia.
  - clear. unfold Sampling.app_sends_per_payload_for_plateau, Sampling.cap_count.
    destruct (size <? 2); [lia|]. destruct (_ =? 0); lia.
Qed.
End phases.
