(* ===== verification/BenchmarkRun.v ===== *)
(** * A whole run of the OpenMLS runner

    The phases that change the group and change it back - restoring a plateau, removing a
    member and letting it join again, adding for samples, filling the tree - and the run
    from the creation of the group to the last plateau: it settles, it never panics, and
    the workers in the group and waiting are always some of those it was given. *)

From S2P Require Import Prelude Text Interaction HttpRetry RunnerConfig Worker RunnerCommands.
From S2P Require Import Program RunnerState Membership RunnerPhases RunnerTermination.
From S2P Require Import PhaseTermination.
From S2P Require Batches Plateau Sampling.
From stdpp Require Import options.

Local Open Scope N_scope.

(** ** The errors of single commands

    They are none of a fan-out. *)

Section alone.
Context {ext : RunnerExternals}.

Definition single (e : RunnerError) : Prop :=
  match e with BatchFanoutError _ _ _ => False | _ => True end.

Definition fails_alone {A} (p : Call A) : Prop :=
  ∀ t, always contract t p (λ _ r, match r with Err e => single e | Ok _ => True end).

Lemma alone_bind {A B} (m : Call A) (f : A → Call B) :
  fails_alone m → (∀ a, fails_alone (f a)) → fails_alone (let^ a <- m in f a).
Proof.
  intros Hm Hf t. apply always_bind. eapply always_mono; [|apply Hm].
  intros t1 [a|e] He; [by apply Hf|done].
Qed.

Lemma alone_after {A B} (m : prog RunnerEffect A) (f : A → Call B) :
  (∀ a, fails_alone (f a)) → fails_alone (m ≫= f).
Proof. intros Hf t. apply always_bind. eapply always_mono; [|apply always_true]. intros; apply Hf. Qed.

(** A command sent, and what is made of its answer *)
Lemma alone_then {A B} (m : Call A) (f : result RunnerError A → Call B) :
  fails_alone m → (∀ a, fails_alone (f (Ok a))) → (∀ e, single e → fails_alone (f (Err e))) →
  fails_alone (m ≫= f).
Proof.
  intros Hm Hok Herr t. apply always_bind. eapply always_mono; [|apply Hm].
  intros t1 [a|e] He; [by apply Hok|by apply Herr].
Qed.

Lemma alone_ret {A} (r : result RunnerError A) :
  match r with Err e => single e | Ok _ => True end → fails_alone (mret r).
Proof. intros Hr t. exact Hr. Qed.

Lemma send_attempts_alone later : ∀ attempt delay worker command context,
  fails_alone (send_attempts later attempt delay worker command context).
Proof.
  induction later as [|later IH]; intros attempt delay worker command context; cbn [send_attempts];
    apply alone_after; intros [err|status body|response|err]; cbv zeta;
    repeat (case_match || (apply alone_after; intros ?) || apply IH); done.
Qed.

Lemma ok_fragment_alone worker command fragment context :
  fails_alone (send_cmd_expect_ok_fragment_with_context worker command fragment context).
Proof.
  apply alone_bind; [apply send_attempts_alone|]. intros response. apply alone_ret. unfold expect_ok_fragment.
  repeat case_match; simplify_eq; done.
Qed.

Lemma parse_alone message : match parse_group_state_message message with Err e => single e | _ => True end.
Proof.
  unfold parse_group_state_message.
  destruct (strip_prefix _ _) as [msg|]; [|done]. cbn [ok_or].
  destruct (split_once_str _ msg) as [[gid rest]|]; [|done]. cbn [ok_or].
  destruct (split_once_str _ rest) as [[ep mem]|]; [|done]. cbn [ok_or].
  destruct (parse_u64 ep); [|done]. cbn [ok_or].
  by destruct (parse_json_strings mem).
Qed.

Lemma show_alone worker : fails_alone (show_group_state worker).
Proof.
  apply alone_bind; [apply alone_after; intros context; apply ok_fragment_alone|]. intros message.
  apply alone_ret, parse_alone.
Qed.

Lemma reconciled_alone worker expected original :
  fails_alone (receive_commit_reconciled_by_state worker expected original).
Proof. apply alone_after. intros shown. apply alone_ret. repeat case_match; simplify_eq; done. Qed.

Lemma reached_alone worker expected what : fails_alone (must_have_reached worker expected what).
Proof.
  apply alone_bind; [apply alone_after; intros shown; apply alone_ret; repeat case_match; simplify_eq; done|].
  by intros []; apply alone_ret.
Qed.

Lemma receive_commit_alone worker fragment expected phase cursor :
  fails_alone (receive_commit_expect worker fragment expected phase cursor).
Proof.
  apply alone_after. intros context. apply alone_then; [apply ok_fragment_alone|done|].
  intros err He. destruct (_ || _); [by apply alone_ret|].
  apply alone_bind; [apply reconciled_alone|]. intros []; [done|].
  apply alone_then; [apply ok_fragment_alone|done|]. intros err' He'.
  destruct (is_resource_budget_failure err'); [by apply alone_ret|].
  apply alone_bind; [apply reconciled_alone|]. by intros [].
Qed.

Lemma process_pending_alone worker expected phase cursor :
  fails_alone (process_pending_commit_expect worker expected phase cursor).
Proof.
  apply alone_after. intros context. apply alone_then; [apply ok_fragment_alone|intros; apply reached_alone|].
  intros err He. destruct (is_resource_budget_failure err); [by apply alone_ret|].
  apply alone_bind; [apply reconciled_alone|]. intros []; [done|].
  apply alone_then; [apply ok_fragment_alone|intros; apply reached_alone|]. intros err' He'.
  destruct (is_resource_budget_failure err'); [by apply alone_ret|].
  apply alone_bind; [apply reconciled_alone|]. by intros [].
Qed.

Lemma actor_receives_alone pending actor expected pending_phase receive_phase cursor :
  fails_alone (actor_receives pending actor expected pending_phase receive_phase cursor).
Proof. destruct pending; [apply process_pending_alone|apply receive_commit_alone]. Qed.
End alone.

(** ** Leaving workers out *)

Lemma fmap_sublist {A B} (f : A → B) l k : sublist l k → sublist (f <$> l) (f <$> k).
Proof. induction 1; cbn; by constructor. Qed.

Lemma not_in_none (v : WorkerSpec) l : id v ∉ id <$> l → not_in {[id v]} l = l.
Proof.
  intros Hv. apply filter_all_true, Forall_forall. intros w Hw Hin%elem_of_singleton.
  apply Hv. rewrite <-Hin. by apply list_elem_of_fmap_2.
Qed.

Lemma not_in_one (v : WorkerSpec) l :
  v ∈ l → NoDup (id <$> l) → not_in {[id v]} l ++ [v] ≡ₚ l.
Proof.
  intros (k & k' & ->)%list_elem_of_split Hnd.
  rewrite fmap_app, fmap_cons in Hnd. apply NoDup_app in Hnd as (_ & Hd & [Hk' _]%NoDup_cons).
  assert (Hk : id v ∉ id <$> k) by (intros Hin; apply (Hd _ Hin); left).
  unfold not_in. rewrite filter_app, filter_cons_False by set_solver.
  fold (not_in {[id v]} k) (not_in {[id v]} k').
  rewrite !not_in_none by done. rewrite <-app_assoc, <-Permutation_cons_append. done.
Qed.

(** The quarantine holds the failed workers, the victim and the actor. *)
Definition quarantine (failed_workers extra : list WorkerSpec) : list WorkerSpec :=
  foldl (λ q p, if existsb (λ w, String.eqb (id w) (id p)) q then q else q ++ [p]) failed_workers extra.

Lemma quarantine_ids extra : ∀ q,
  (∀ w, w ∈ q → id w ∈ id <$> quarantine q extra)
  ∧ (∀ w, w ∈ extra → id w ∈ id <$> quarantine q extra)
  ∧ (∀ w, w ∈ quarantine q extra → w ∈ q ++ extra).
Proof.
  induction extra as [|p extra IH]; intros q; cbn.
  { split_and!; [by intros w Hw; apply list_elem_of_fmap_2|set_solver|by rewrite app_nil_r]. }
  unfold quarantine in *. cbn [foldl]. destruct (existsb _ q) eqn:E.
  - destruct (IH q) as (H1 & H2 & H3). split_and!; [done| |set_solver].
    intros w [->|Hw]%elem_of_cons; [|by apply H2]. apply existsb_exists in E as (w' & Hw' & E).
    apply String.eqb_eq in E. rewrite <-E. by apply H1, list_elem_of_In.
  - destruct (IH (q ++ [p])) as (H1 & H2 & H3). split_and!.
    + intros w Hw. apply H1. set_solver.
    + intros w [->|Hw]%elem_of_cons; [apply H1; set_solver|by apply H2].
    + intros w Hw. apply H3 in Hw. set_solver.
Qed.

(** ** The external members of a group *)

Lemma external_ids_spec l i :
  i ∈ external_ids l ↔ ∃ w, w ∈ l ∧ is_external w = true ∧ id w = i.
Proof.
  unfold external_ids, sort_strings. rewrite merge_sort_Permutation, list_elem_of_fmap. split.
  - intros (w & -> & [He Hw]%list_elem_of_filter). by exists w.
  - intros (w & Hw & He & <-). exists w. split; [done|]. by apply list_elem_of_filter.
Qed.

Lemma external_ids_NoDup l : NoDup (id <$> l) → NoDup (external_ids l).
Proof.
  intros Hnd. unfold external_ids, sort_strings. rewrite merge_sort_Permutation.
  eapply sublist_NoDup; [exact Hnd|]. apply fmap_sublist, sublist_filter.
Qed.

Lemma others_left (ids : list string) i : NoDup ids → (2 <= length ids)%nat → filter (λ j, j ≠ i) ids ≠ [].
Proof.
  intros Hnd Hl He. destruct ids as [|x [|y ids]]; [cbn in Hl; lia..|].
  apply NoDup_cons in Hnd as [Hx _].
  assert (Hall : ∀ j, j ∈ x :: y :: ids → j = i).
  { intros j Hj. destruct (decide (j = i)) as [|Hne]; [done|].
    assert (Hin : j ∈ filter (λ j, j ≠ i) (x :: y :: ids)) by (by apply list_elem_of_filter).
    rewrite He in Hin. by apply not_elem_of_nil in Hin. }
  apply Hx. rewrite (Hall x), (Hall y) by set_solver. left.
Qed.

Lemma find_worker_elem wid l w : find_worker wid l = Some w → w ∈ l ∧ id w = wid.
Proof.
  intros [Hin He]%find_some. split; [by apply list_elem_of_In|by apply String.eqb_eq].
Qed.

Lemma find_worker_complete wid l : wid ∈ id <$> l → ∃ w, find_worker wid l = Some w ∧ w ∈ l ∧ id w = wid.
Proof.
  intros (w & -> & Hw)%list_elem_of_fmap. destruct (find_worker (id w) l) as [w'|] eqn:E.
  - exists w'. split; [done|by apply find_worker_elem].
  - eapply find_none in E; [|by apply list_elem_of_In]. by rewrite String.eqb_refl in E.
Qed.

Lemma same_worker l w w' : NoDup (id <$> l) → w ∈ l → w' ∈ l → id w = id w' → w = w'.
Proof.
  intros Hnd [i Hi]%list_elem_of_lookup [j Hj]%list_elem_of_lookup E.
  assert (i = j) as ->; [|congruence].
  eapply NoDup_lookup; [exact Hnd|by rewrite list_lookup_fmap, Hi|].
  by rewrite list_lookup_fmap, Hj, E.
Qed.

Lemma least_counted_elem counts ids i : least_counted counts ids = Some i → i ∈ ids.
Proof. apply min_by_elem. Qed.

Lemma least_counted_some counts ids : ids ≠ [] → ∃ i, least_counted counts ids = Some i ∧ i ∈ ids.
Proof.
  intros Hne. unfold least_counted. destruct (min_by_some (λ i j, key_before (count_of counts i, i) (count_of counts j, j)) ids Hne) as [i Hi].
  exists i. split; [done|by eapply min_by_elem].
Qed.

Lemma lacking_elem counts required ids i : i ∈ lacking counts required ids →
  i ∈ ids ∧ count_of counts i < required.
Proof. intros [H1 H2]%list_elem_of_filter. done. Qed.

(** A cycle with the actor [a] and the victim [v] takes a sample that is missing. *)
Definition takes_sample (ids : list string) (c : RejoinCounts) (required : N) (a v : string) : Prop :=
  count_of (actor_counts c) a < required
  ∨ (v ∈ ids ∧ count_of (welcome_counts c) v < required)
  ∨ ∃ r, r ∈ ids ∧ r ≠ a ∧ r ≠ v ∧ count_of (receiver_counts c) r < required.

Section run.
Context {G : Type} `{rng_ops : !Plateau.Rng G} {rng_laws : Plateau.RngLaws G}.
Context {ext : RunnerExternals} {cfg : Settings}.
Context (draws : (Sampling.enough_draws max_commit_receive_samples_per_plateau <= sampler_fuel)%nat).
Implicit Types s : Runner G.

Abbreviation M := (RunnerState.M G).
Abbreviation harmless := (quiet (S := Runner G) (Er := RunnerError) contract untouched).
Abbreviation ends := (ensures (S := Runner G) contract).

Lemma safe_trans {A} s s1 s' (o : outcome A) : kept s s1 → safe s1 s' o → safe s s' o.
Proof. intros Hk [Ho Hk']. split; [done|by etrans]. Qed.

(** ** Restoring a plateau *)

Lemma restore_turn_ends plateau size t s :
  ready s →
  ends t s (restore_turn plateau size tt) (λ _ s' o, safe s s' o ∧
    match o with Returned (inl _) => (length (active s) < length (active s'))%nat | _ => True end).
Proof using draws rng_laws.
  intros Hr. apply ensures_gets, ensures_gets. destruct (_ <? _)%nat; [|by apply ensures_ret]. cbv zeta.
  destruct (_ =? 0)%nat; [by apply ensures_ret|].
  apply ensures_bind. eapply ensures_mono; [|apply add_ends; [done..|apply Hr]].
  intros t1 s1 o (Ho & Hk & _). destruct o as [[]|e| |]; [|by split|done..].
  apply ensures_gets. destruct (Nat.leb_spec (length (active s1)) (length (active s))).
  - by apply ensures_fail.
  - by apply ensures_ret.
Qed.

Lemma requeue_external_Permutation l : requeue_external l ≡ₚ l.
Proof.
  unfold requeue_external. generalize (reverse (external_ids l)). intros ids.
  revert l. induction ids as [|i ids IH]; intros l; [done|]. cbn [foldl]. rewrite IH.
  destruct (list_find _ l) as [[position w]|] eqn:E; [|done].
  apply list_find_Some in E as (Hw & _). symmetry. by apply delete_Permutation.
Qed.

Lemma restore_ends plateau size t s :
  ready s → ends t s (restore_density_plateau plateau size) (λ _ s' o, safe s s' o).
Proof using draws rng_laws.
  intros Hr. apply ensures_modify. set (s1 := set_idle _ s).
  assert (Hk1 : kept s s1).
  { apply kept_submseteq. unfold population. cbn. by rewrite requeue_external_Permutation. }
  assert (Hr1 : ready s1) by (by eapply ready_kept).
  eapply ensures_mono; [intros t' s' o Ho; exact (safe_trans s s1 s' o Hk1 Ho)|].
  clearbody s1. clear Hk1 Hr s. rename s1 into s, Hr1 into Hr.
  apply ensures_bind.
  eapply ensures_mono; [|apply (ensures_iterate contract _ (λ _ _ s', kept s s')
    (λ _ s', length (population s) - length (active s'))%nat (λ _ s' o, safe s s' o)); [|done|]].
  - intros t1 s1 [[]|e| |] [Ho Hk]; [|done..]. apply ensures_gets.
    by destruct (_ =? _)%nat; [apply ensures_ret|apply ensures_fail].
  - intros t1 [] s1 Hk. assert (Hr1 : ready s1) by (by eapply ready_kept).
    eapply ensures_mono; [|by apply restore_turn_ends].
    intros t2 s2 o [[Ho Hk2] Hlt]. assert (Hk' : kept s s2) by (by etrans).
    destruct o as [[[]|[]]|e| |]; [|done..]. split; [done|].
    pose proof (kept_length s s2 (proj2 Hr) Hk') as Hle. rewrite (length_population s2) in Hle. lia.
  - destruct Hr as [[(_ & H & _) _] _]. clear -H. lia.
Qed.

(** ** Filling the tree *)

Lemma tree_fill_harmless plateau size l : ∀ actors i,
  harmless (tree_fill_from plateau size l i actors) (λ _, True) (λ _, True).
Proof.
  induction actors as [|actor actors IH]; intros i; cbn [tree_fill_from]; [by apply harmless_ret|].
  eapply harmless_bind; [apply harmless_call|]. intros before _. cbv zeta.
  eapply harmless_bind; [apply (harmless_perform _ (λ _, True)); intros; apply always_true|].
  intros context _.
  eapply harmless_bind; [apply harmless_call|]. intros _ _.
  eapply harmless_bind; [apply harmless_call|]. intros _ _.
  eapply harmless_bind; [apply (harmless_perform _ (λ _, True)); intros; apply always_true|].
  intros commands _.
  eapply harmless_bind; [|intros _ _; apply IH].
  eapply harmless_mono; [| |apply harmless_batch]; done.
Qed.

Lemma tree_fill_ends new_fanout plateau size t s :
  ends t s (run_tree_fill_phase new_fanout plateau size) (λ _ s' o, safe s s' o).
Proof.
  apply ensures_gets, ensures_gets, ensures_modify. eapply ends_harmless; [apply tree_fill_harmless| |].
  - intros t1 s1 _ H1 _. split; [done|]. apply untouched_kept. transitivity s1; [|done]. exact H1.
  - intros t1 s1 e H1 _. by apply safe_untouched.
Qed.

(** ** The density of additions *)

Lemma density_turn_sound plateau size batch_sizes counts :
  sound True (density_turn (G := G) plateau size batch_sizes counts).
Proof using draws rng_laws.
  assert (Hrestore : sound True (restore_density_plateau (G := G) plateau size)).
  { apply sound_safe. intros t s Hr. by apply restore_ends. }
  unfold density_turn. cbv zeta. apply sound_bind; [apply sound_gets|]. intros l.
  destruct (external_ids l) as [|i ids]; [apply sound_ret|].
  destruct (next_density_sample _ _ _) as [[batch_size actor_id]|]; [|apply sound_ret].
  apply sound_bind; [destruct (_ =? _)%nat; [apply sound_ret|done]|]. intros _.
  apply sound_bind.
  { apply sound_safe. intros t s Hr. eapply ensures_mono; [|apply remove_ends; [done..|apply Hr]].
    intros t1 s1 o (Ho & Hk & _). done. }
  intros _. apply sound_bind; [apply sound_gets|]. intros l1.
  destruct (_ || _).
  { apply sound_bind; [done|]. intros _. apply sound_ret. }
  apply sound_bind.
  { apply sound_safe. intros t s Hr. eapply ensures_mono; [|apply add_ends; [done..|apply Hr]].
    intros t1 s1 o (Ho & Hk & _). done. }
  intros _. apply sound_bind; [apply sound_gets|]. intros l2.
  destruct (_ && _); [apply sound_ret|].
  apply sound_bind; [done|]. intros _. apply sound_ret.
Qed.

(** The phase is one of the run. *)
Definition density_phase_runs : Prop :=
  external_coverage_lane = true ∧ min_profiled_samples_per_operation ≠ 0 ∧ remove_rejoin = false.

Lemma density_phase_sound plateau size :
  remove_rejoin = false →
  sound density_phase_runs (run_external_add_density_phase (G := G) plateau size).
Proof using draws rng_laws.
  intros Hrr. unfold run_external_add_density_phase.
  destruct (negb _ || _) eqn:E; [apply sound_ret|].
  apply orb_false_iff in E as [E1%negb_false_iff E2%N.eqb_neq].
  assert (Hd : density_phase_runs) by done.
  intros t s Hr. eapply ensures_mono with (Q := λ _ s' o, fits True s s' o).
  - intros t' s' o [Hk Ho]. split; [exact Hk|]. by destruct o.
  - revert t s Hr. change (sound True (bind (gets active) (λ l,
      iterate loop_fuel (density_turn (G := G) plateau size (density_batch_sizes l)) ∅))).
    apply sound_bind; [apply sound_gets|]. intros l. apply sound_rounds.
    intros counts. apply density_turn_sound.
Qed.

(** ** Removing a member and letting it join again *)

Lemma single_batch_error l e : single e → batch_error l e.
Proof. intros He ph op fs ->. done. Qed.

Lemma harmless_alone {A} (p : Call A) :
  fails_alone p → harmless (call p) (λ _, True) (batch_error []).
Proof.
  intros Hp. eapply harmless_bind; [apply harmless_perform; intros t; apply Hp|].
  intros [a|e] He; [by apply harmless_ret|by apply harmless_fail, single_batch_error].
Qed.

(** After a cycle, done or not: the same workers; a fan-out that failed blames some of them. *)
Definition cycled s s' (o : outcome unit) : Prop :=
  settled o ∧ population s' ≡ₚ population s
  ∧ match o with Failed e => batch_error (population s) e | _ => True end.

Lemma cycled_kept s s' : population s' ≡ₚ population s → kept s s'.
Proof. intros H. apply kept_submseteq. by rewrite H. Qed.

Lemma untouched_population s s' : untouched s s' → population s' = population s.
Proof. intros [H1 H2]. unfold population. by rewrite H1, H2. Qed.

Lemma cycled_failed s s' all e :
  population s' ≡ₚ population s → batch_error all e → all ⊆ population s → cycled s s' (Failed e).
Proof. intros Hp He Hs. split_and!; [done|done|by eapply batch_error_sub]. Qed.

Lemma active_NoDup s : ready s → NoDup (id <$> active s).
Proof. clear. intros [_ Hnd]. unfold population in Hnd. rewrite fmap_app in Hnd. by apply NoDup_app in Hnd as [? _]. Qed.

Lemma active_population s w : w ∈ active s → w ∈ population s.
Proof. clear. intros. apply elem_of_app. by left. Qed.

(** A cycle that reaches [P] when it is done *)
Definition cycled_to (P : Runner G → Prop) s s' (o : outcome unit) : Prop :=
  cycled s s' o ∧ (o = Returned tt → P s').

(** A step of the cycle of [s0]; the workers are those of [base]. *)
Lemma cycle_step {A P} s0 base t s (m : M A) all (k : A → M unit) :
  population base ≡ₚ population s0 → untouched base s →
  harmless m (λ _, True) (batch_error all) → all ⊆ population s0 →
  (∀ t' s' a, untouched base s' → ends t' s' (k a) (λ _ s' o, cycled_to P s0 s' o)) →
  ends t s (bind m k) (λ _ s' o, cycled_to P s0 s' o).
Proof.
  intros Hp Hu Hm Hall Hk. eapply ends_harmless; [exact Hm| |].
  - intros t' s' a Hu' _. apply Hk. by rewrite Hu.
  - intros t' s' e Hu' Hb. split; [|done]. eapply cycled_failed; [|exact Hb|exact Hall].
    by rewrite (untouched_population s s'), (untouched_population base s).
Qed.

Lemma cycle_perform {A P} s0 base t s (p : prog RunnerEffect A) (k : A → M unit) :
  population base ≡ₚ population s0 → untouched base s →
  (∀ t' s' a, untouched base s' → ends t' s' (k a) (λ _ s' o, cycled_to P s0 s' o)) →
  ends t s (bind (perform p) k) (λ _ s' o, cycled_to P s0 s' o).
Proof.
  intros. eapply (cycle_step _ _ _ _ _ []); eauto using list_subseteq_nil.
  apply harmless_perform. intros. apply always_true.
Qed.

Lemma cycle_call {A P} s0 base t s (p : Call A) (k : A → M unit) :
  fails_alone p → population base ≡ₚ population s0 → untouched base s →
  (∀ t' s' a, untouched base s' → ends t' s' (k a) (λ _ s' o, cycled_to P s0 s' o)) →
  ends t s (bind (call p) k) (λ _ s' o, cycled_to P s0 s' o).
Proof.
  intros. eapply (cycle_step _ _ _ _ _ []); eauto using list_subseteq_nil, harmless_alone.
Qed.

Lemma cycle_fan_out {P} s0 base t s recipients pending phase operation fanout_phase op plateau ep seq_no
    cursor expected_of (k : unit → M unit) :
  population base ≡ₚ population s0 → untouched base s → ready base →
  sublist recipients (active base) →
  (∀ t' s' a, untouched base s' → ends t' s' (k a) (λ _ s' o, cycled_to P s0 s' o)) →
  ends t s (bind (fan_out_commit pending phase operation fanout_phase op recipients plateau ep seq_no
                    cursor expected_of) k) (λ _ s' o, cycled_to P s0 s' o).
Proof using draws.
  intros Hp Hu Hr Hs Hk. eapply (cycle_step _ _ _ _ _ recipients); [done|done| | |done].
  - eapply harmless_mono; [done|apply fanout_batch_error|apply harmless_fan_out; [done|]].
    by apply (recipients_bound base).
  - intros w Hw. rewrite <-Hp. apply elem_of_app. left. by eapply elem_of_sublist.
Qed.

(** The first half takes the victim out of the members; the workers stay the same. *)
Lemma remove_victim_ends plateau size victim actor t s :
  ready s → victim ∈ active s →
  ends t s (remove_victim plateau size victim actor)
    (λ _ s' o, cycled_to (λ s', active s' = not_in {[id victim]} (active s)
                               ∧ idle s' = idle s ++ [victim]) s s' o).
Proof using draws.
  intros Hr Hv. apply ensures_gets. cbv zeta.
  apply (cycle_perform s s); [done..|]. intros t1 s1 gctx H1.
  apply (cycle_call s s); [apply send_attempts_alone|done..|]. intros t2 s2 _ H2.
  apply (cycle_perform s s); [done..|]. intros t3 s3 rctx H3.
  apply (cycle_call s s); [apply show_alone|done..|]. intros t4 s4 before H4. cbv zeta.
  apply (cycle_call s s); [apply ok_fragment_alone|done..|]. intros t5 s5 _ H5.
  apply (cycle_call s s); [apply actor_receives_alone|done..|]. intros t6 s6 _ H6.
  apply (cycle_fan_out s s); [done..|apply sublist_filter|]. intros t7 s7 _ [E1 E2].
  split; [|intros _; cbn; by rewrite E1, E2]. split_and!; [done| |done].
  unfold population. cbn. rewrite E1, E2.
  rewrite app_assoc, (Permutation_app_comm _ [victim]), app_assoc.
  apply Permutation_app_tail. rewrite Permutation_app_comm.
  apply not_in_one; [done|by apply active_NoDup].
Qed.

(** The second half takes it back; the actor's part of the group is told. *)
Lemma rejoin_victim_ends plateau size victim actor t s rest :
  ready s → idle s = rest ++ [victim] → id victim ∉ id <$> rest →
  ends t s (rejoin_victim plateau size victim actor) (λ _ s' o, cycled s s' o).
Proof using draws rng_laws.
  intros Hr Hi Hn. eapply ensures_mono with (Q := λ _ s' o, cycled_to (λ _, True) s s' o);
    [by intros ? ? ? [? _]|].
  apply ensures_gets. cbv zeta.
  apply (cycle_perform s s); [done..|]. intros t1 s1 actx H1.
  apply (cycle_call s s); [apply show_alone|done..|]. intros t2 s2 before H2. cbv zeta.
  apply (cycle_call s s); [apply ok_fragment_alone|done..|]. intros t3 s3 _ H3.
  apply (cycle_call s s); [apply actor_receives_alone|done..|]. intros t4 s4 _ H4.
  apply (cycle_fan_out s s); [done..|apply sublist_filter|]. intros t5 s5 _ H5.
  apply (cycle_perform s s); [done..|]. intros t6 s6 wctx H6.
  apply (cycle_call s s); [apply ok_fragment_alone|done..|]. intros t7 s7 _ [E1 E2].
  split; [|done]. split_and!; [done| |done]. unfold population. cbn. rewrite E1, E2, Hi.
  unfold not_in. rewrite filter_app, filter_cons_False, filter_nil, app_nil_r by set_solver.
  fold (not_in {[id victim]} rest). rewrite (not_in_none victim rest) by done.
  rewrite <-app_assoc. apply Permutation_app_head. apply Permutation_app_comm.
Qed.

Lemma cycle_ends plateau size victim actor t s :
  ready s → victim ∈ active s →
  ends t s (run_single_remove_rejoin_cycle plateau size victim actor) (λ _ s' o, cycled s s' o).
Proof using draws rng_laws.
  intros Hr Hv. apply ensures_bind.
  eapply ensures_mono; [|by apply remove_victim_ends].
  intros t1 s1 o [(Ho & Hp & Hf) HP]. destruct o as [[]|e| |]; [|by split_and!|done..].
  destruct (HP eq_refl) as [Ha Hi].
  eapply ensures_mono; [|eapply rejoin_victim_ends; [|exact Hi|]].
  - intros t2 s2 o' (Ho' & Hp' & Hf'). split_and!; [done|by etrans|].
    destruct o'; [done| |done..]. eapply batch_error_sub; [|exact Hf'].
    intros w Hw. by rewrite <-Hp.
  - eapply ready_kept; [by apply cycled_kept|done].
  - destruct Hr as [_ Hnd]. unfold population in Hnd. rewrite fmap_app in Hnd.
    apply NoDup_app in Hnd as (_ & H2 & _). by apply H2, list_elem_of_fmap_2.
Qed.

(** *** A cycle that failed *)

Lemma cycle_failures_ends cursor victim actor error t s :
  batch_error (population s) error → victim ∈ population s → actor ∈ population s →
  ends t s (cycle_failures cursor victim actor error)
    (λ _ s' o, untouched s s' ∧
       match o with
       | Returned r => ∀ ws, r = Some ws → ws ≠ [] ∧ ws ⊆ population s
       | Failed _ => True
       | _ => False
       end).
Proof.
  clear draws rng_laws. intros He Hv Ha. apply ensures_gets, ensures_gets.
  destruct error as [msgs|e|ph op failures|n m]; try (by apply ensures_ret).
  - destruct (find_worker _ _) as [failed|] eqn:Ef; [|by apply ensures_ret].
    apply find_worker_elem in Ef as [Hin _].
    assert (Hf : failed ∈ population s).
    { rewrite app_assoc in Hin. apply elem_of_app in Hin as [Hin|Hin]; [done|set_solver]. }
    eapply ends_harmless; [apply harmless_record| |by intros].
    intros t1 s1 recorded H1 _. apply ensures_ret. split; [done|].
    destruct recorded; intros ws [= <-]. split; [done|]. set_solver.
  - eapply ensures_mono; [|by apply (harmless_record_batch _ _ _ _ (population s))].
    intros t1 s1 [r|e| |] [H1 Hr]; done.
Qed.

Lemma evict_ready dead pending plateau t s :
  ready s →
  ends t s (evict_oom_group_members dead pending plateau)
    (λ _ s' o, settled o ∧ lost s s' ∧ (o = Returned tt → ∀ w, w ∈ active s' → id w ∉ id <$> dead)).
Proof using draws.
  intros [[Hf _] _]. destruct (fuelled_active s s Hf) as [H1 H2].
  { rewrite length_population. clear. lia. }
  by apply evict_ends.
Qed.

Lemma recover_ends plateau size victim actor error t s :
  ready s → batch_error (population s) error → victim ∈ population s → actor ∈ population s →
  id victim ≠ id actor →
  ends t s (recover_remove_rejoin_cycle_failure plateau size victim actor error)
    (λ _ s' o, safe s s' o
       ∧ (o = Returned true → (length (population s') < length (population s))%nat)).
Proof using draws rng_laws.
  intros Hr He Hv Ha Hne. apply ensures_gets. cbv zeta. apply ensures_bind.
  eapply ensures_mono; [|by apply cycle_failures_ends].
  intros t1 s1 [failed|e| |] [H1 Hfailed]; [|by split; [apply safe_untouched|]|done..].
  destruct failed as [failed|]; [|by apply ensures_ret; split; [apply safe_untouched|]].
  destruct (Hfailed failed eq_refl) as [Hnil Hsub]. clear Hfailed.
  fold (quarantine failed [victim; actor]). set (q := quarantine failed [victim; actor]).
  destruct (quarantine_ids [victim; actor] failed) as (Hq1 & Hq2 & _). fold q in Hq1, Hq2.
  apply ensures_bind. eapply ensures_mono; [|apply evict_ready; by eapply ready_untouched].
  intros t2 s2 o (Ho & Hl & Hdead). assert (Hl' : lost s s2) by (by eapply lost_untouched).
  destruct o as [[]|e| |]; [|by split; [apply safe_lost|]|done..]. specialize (Hdead eq_refl).
  apply ensures_modify, ensures_ret.
  set (failed_ids := list_to_set (id <$> failed) : gset string).
  set (back := filter (λ w, id w ∉ failed_ids) [victim; actor]).
  set (waiting := not_in (list_to_set (id <$> q)) (idle s2)).
  assert (Hback : ∀ w, w ∈ back → (w = victim ∨ w = actor) ∧ id w ∉ failed_ids).
  { intros w [H2 H3]%list_elem_of_filter. split; [set_solver|done]. }
  assert (Hold : ∀ w, w ∈ active s2 ++ waiting → w ∈ population s ∧ id w ∉ id <$> q).
  { intros w [Hw|Hw]%elem_of_app.
    - split; [|by apply Hdead]. apply elem_of_app. left. by eapply elem_of_sublist, Hl'.
    - apply list_elem_of_filter in Hw as [Hq Hw]. rewrite (proj1 Hl') in Hw.
      split; [by apply elem_of_app; right|set_solver]. }
  assert (Hnd2 : NoDup (id <$> active s2 ++ waiting)).
  { destruct Hr as [_ Hnd]. eapply sublist_NoDup; [exact Hnd|]. apply fmap_sublist.
    unfold population. apply sublist_app; [apply Hl'|]. rewrite <-(proj1 Hl'). apply not_in_sublist. }
  assert (Hndb : NoDup (id <$> back)).
  { eapply (sublist_NoDup _ (id <$> [victim; actor])); [|apply fmap_sublist, sublist_filter].
    apply NoDup_cons. split; [set_solver|apply NoDup_singleton]. }
  set (s3 := set_idle _ s2).
  assert (Hp3 : population s3 = (active s2 ++ waiting) ++ back) by (by rewrite <-app_assoc).
  assert (Hsub3 : ∀ w, w ∈ population s3 → w ∈ population s ∧ id w ∉ failed_ids).
  { rewrite Hp3. intros w [Hw|Hw]%elem_of_app.
    - destruct (Hold w Hw) as [H2 H3]. split; [done|]. intros Hin. apply H3.
      apply elem_of_list_to_set, list_elem_of_fmap in Hin as (f & -> & Hf). by apply Hq1.
    - destruct (Hback w Hw) as [[-> | ->] H3]; done. }
  assert (Hnd3 : NoDup (id <$> population s3)).
  { rewrite Hp3, fmap_app. apply NoDup_app. split_and!; [done| |done].
    intros i (w & -> & Hw)%list_elem_of_fmap (w' & Ei & Hw')%list_elem_of_fmap.
    destruct (Hold w Hw) as [_ Hnq]. apply Hnq. rewrite Ei.
    destruct (Hback w' Hw') as [[-> | ->] _]; apply Hq2; set_solver. }
  split; [split; [done|split]|].
  - intros w Hw. by apply Hsub3.
  - done.
  - intros _. destruct failed as [|f fs]; [done|].
    assert (Hle : f :: population s3 ⊆+ population s).
    { apply NoDup_submseteq.
      - apply NoDup_cons. split; [|by apply (NoDup_fmap_1 id)].
        intros Hin. apply Hsub3 in Hin as [_ Hin]. set_solver.
      - intros w [->|Hw]%elem_of_cons; [set_solver|by apply Hsub3]. }
    by apply submseteq_length in Hle.
Qed.

(** *** The next cycle *)

Lemma harmless_next_cycle l ids c required size :
  NoDup ids → (2 <= length ids)%nat → ids ⊆ id <$> l →
  harmless (next_cycle l ids c required size)
    (λ r, ∀ a v, r = Some (a, v) →
       a ∈ ids ∧ v ∈ id <$> l ∧ a ≠ v ∧ takes_sample ids c required a v) (λ _, True).
Proof.
  clear draws rng_laws. intros Hnd Hlen Hsub. unfold next_cycle. cbv zeta.
  destruct (least_counted (actor_counts c) _) as [a|] eqn:Ea.
  { apply least_counted_elem, lacking_elem in Ea as [Ha Hca].
    set (others := filter (λ i, i ≠ a) ids).
    assert (Hv : ∃ v, match least_counted (welcome_counts c) (lacking (welcome_counts c) required others) with
                      | Some v => Some v
                      | None => least_counted (welcome_counts c) others
                      end = Some v ∧ v ∈ others).
    { destruct (least_counted _ (lacking _ _ _)) as [v|] eqn:Ev.
      - exists v. split; [done|]. by apply least_counted_elem, lacking_elem in Ev as [Hv _].
      - apply least_counted_some. by apply others_left. }
    destruct Hv as (v & -> & [Hva Hv]%list_elem_of_filter).
    eapply harmless_expect; [reflexivity|]. apply harmless_ret. intros a' v' [= <- <-].
    split_and!; [done|by apply Hsub|done|by left]. }
  destruct (least_counted (welcome_counts c) _) as [v|] eqn:Ev.
  { apply least_counted_elem, lacking_elem in Ev as [Hv Hcv].
    destruct (least_counted_some (actor_counts c) (filter (λ i, i ≠ v) ids)) as (a & -> & Ha);
      [by apply others_left|]. apply list_elem_of_filter in Ha as [Hav Ha].
    eapply harmless_expect; [reflexivity|]. apply harmless_ret. intros a' v' [= <- <-].
    split_and!; [done|by apply Hsub|done|right; by left]. }
  eapply (harmless_bind _ _ (λ roles, ∀ a v r, roles = Some (a, v, r) →
            a ∈ ids ∧ v ∈ id <$> l ∧ a ≠ v ∧ takes_sample ids c required a v)).
  2: { intros [[[a v] r]|] H; apply harmless_ret; [|done]. intros a' v' [= <- <-]. by eapply H. }
  unfold select_supplemental_remove_receiver_roles.
  destruct (least_counted (receiver_counts c) _) as [r|] eqn:Er; [|by apply harmless_ret].
  apply least_counted_elem, lacking_elem in Er as [Hr Hcr].
  destruct (least_counted_some (actor_counts c) (filter (λ i, i ≠ r) ids)) as (a & -> & Ha);
    [by apply others_left|]. apply list_elem_of_filter in Ha as [Har Ha].
  eapply harmless_expect; [reflexivity|]. cbv zeta. destruct (min_by _ _) as [w|] eqn:Ew; [|by apply harmless_fail].
  apply min_by_elem, list_elem_of_filter in Ew as [(_ & Hwa & Hwr) Hw].
  apply harmless_ret. intros a' v' r' [= <- <- <-].
  split_and!; [done|by apply list_elem_of_fmap_2|done|]. right. right. by exists r.
Qed.

(** The samples that are missing, and the workers *)
Definition rejoin_left (required : N) (c : RejoinCounts) s : nat :=
  let ids := id <$> population s in
  (missing (actor_counts c) required ids + missing (welcome_counts c) required ids
   + missing (receiver_counts c) required ids + length (population s))%nat.

Lemma rejoin_left_kept required c s s' :
  NoDup (id <$> population s) → kept s s' →
  (length (population s') < length (population s))%nat →
  (rejoin_left required c s' < rejoin_left required c s)%nat.
Proof.
  clear. intros Hnd [Hsub Hnd'] Hlt. unfold rejoin_left.
  assert (Hs : id <$> population s' ⊆+ id <$> population s).
  { apply fmap_submseteq, NoDup_submseteq; [|done]. apply (NoDup_fmap_1 id). auto. }
  pose proof (missing_submseteq (actor_counts c) required _ _ Hs).
  pose proof (missing_submseteq (welcome_counts c) required _ _ Hs).
  pose proof (missing_submseteq (receiver_counts c) required _ _ Hs). lia.
Qed.

Definition after_cycle (c : RejoinCounts) (victim actor : WorkerSpec) (receiver_ids : list string) : RejoinCounts :=
  MkRejoinCounts
    (if is_external_device victim then bump (welcome_counts c) (id victim) else welcome_counts c)
    (bump (actor_counts c) (id actor)) (foldl bump (receiver_counts c) receiver_ids).

Lemma rejoin_left_sample required c s s' victim actor :
  ready s → victim ∈ active s → actor ∈ active s → population s' ≡ₚ population s →
  takes_sample (external_ids (active s)) c required (id actor) (id victim) →
  (rejoin_left required
     (after_cycle c victim actor
        (filter (λ i, i ≠ id actor ∧ i ≠ id victim) (external_ids (active s)))) s'
   < rejoin_left required c s)%nat.
Proof.
  clear. intros [_ Hnd] Hv Ha Hp Ht. unfold rejoin_left, after_cycle. cbn [actor_counts welcome_counts receiver_counts].
  rewrite Hp. set (ids := id <$> population s).
  set (receivers := filter _ (external_ids (active s))).
  assert (Hin : ∀ w, w ∈ active s → id w ∈ ids).
  { intros w Hw. apply list_elem_of_fmap_2. by apply elem_of_app; left. }
  pose proof (missing_bump_le (actor_counts c) required (id actor) ids) as H1.
  pose proof (missing_bumps_le (receiver_counts c) required receivers ids) as H2.
  assert (H3 : (missing (if is_external_device victim then bump (welcome_counts c) (id victim)
      else welcome_counts c) required ids <= missing (welcome_counts c) required ids)%nat).
  { destruct (is_external_device victim); [apply missing_bump_le|done]. }
  destruct Ht as [Hc|[[Hvi Hc]|(r & Hr & Hra & Hrv & Hc)]].
  - pose proof (missing_bump (actor_counts c) required (id actor) ids (Hin _ Ha) Hc). lia.
  - apply external_ids_spec in Hvi as (w & Hw & He & E).
    assert (w = victim) as ->.
    { eapply same_worker; [|exact Hw|exact Hv|exact E]. unfold population in Hnd.
      rewrite fmap_app in Hnd. by apply NoDup_app in Hnd as [? _]. }
    apply andb_prop in He as [_ He]. rewrite He in *.
    pose proof (missing_bump (welcome_counts c) required (id victim) ids (Hin _ Hv) Hc). lia.
  - assert (Hri : r ∈ ids).
    { apply external_ids_spec in Hr as (w & Hw & _ & <-). by apply Hin. }
    pose proof (missing_bumps (receiver_counts c) required r receivers ids Hri) as H4.
    assert (Hrr : r ∈ receivers) by (by apply list_elem_of_filter).
    specialize (H4 Hrr Hc). lia.
Qed.

(** *** The loop of cycles *)

(** After a failure the runner can go on from, the plateau is restored. *)
Lemma recovered_ends {A} plateau size victim actor error (a : A) t s s1 :
  ready s → victim ∈ active s → actor ∈ active s → id victim ≠ id actor →
  population s1 ≡ₚ population s → batch_error (population s) error →
  ends t s1
    (let~ recovered <- recover_remove_rejoin_cycle_failure plateau size victim actor error in
     if recovered : bool then
       let~ _ <- restore_density_plateau plateau size in ret a
     else fail error)
    (λ _ s' o, safe s s' o
       ∧ (∀ b, o = Returned b → b = a ∧ (length (population s') < length (population s))%nat)).
Proof using draws rng_laws.
  intros Hr Hv Ha Hne Hp He.
  assert (Hk1 : kept s s1) by (by apply cycled_kept).
  assert (Hr1 : ready s1) by (by eapply ready_kept).
  assert (Hpop : ∀ w, w ∈ active s → w ∈ population s1).
  { intros w Hw. rewrite Hp. by apply active_population. }
  apply ensures_bind. eapply ensures_mono; [|apply recover_ends; try done; [|by auto..]].
  2: { eapply batch_error_sub; [|exact He]. intros w Hw. by rewrite Hp. }
  intros t2 s2 o ([Ho Hk2] & Hlt). assert (Hk : kept s s2) by (by etrans).
  destruct o as [[]|e| |]; [| |by split|done..]; [|by apply ensures_fail].
  specialize (Hlt eq_refl). rewrite Hp in Hlt.
  assert (Hr2 : ready s2) by (by eapply ready_kept).
  apply ensures_bind. eapply ensures_mono; [|by apply restore_ends].
  intros t3 s3 o [Ho3 Hk3]. assert (Hk' : kept s s3) by (by etrans).
  destruct o as [[]|e| |]; [|by split|done..]. apply ensures_ret. split; [done|].
  intros b [= <-]. split; [done|]. pose proof (kept_length s2 s3 (proj2 Hr2) Hk3). lia.
Qed.

Lemma rejoin_turn_ends plateau size required c t s :
  ready s →
  ends t s (rejoin_turn plateau size required c)
    (λ _ s' o, safe s s' o ∧ match o with
       | Returned (inl c') => (rejoin_left required c' s' < rejoin_left required c s)%nat
       | _ => True
       end).
Proof using draws rng_laws.
  intros Hr. apply ensures_gets. cbv zeta.
  destruct (Nat.ltb_spec (length (external_ids (active s))) 2) as [|Hlen]; [by apply ensures_ret|].
  pose proof (active_NoDup s Hr) as Hnd.
  eapply ends_harmless.
  { apply harmless_next_cycle; [by apply external_ids_NoDup|done|].
    intros i (w & Hw & _ & <-)%external_ids_spec. by apply list_elem_of_fmap_2. }
  2: { intros t1 s1 e H1 _. split; [by apply safe_untouched|done]. }
  intros t1 s1 [[actor_id victim_id]|] H1 Hcycle.
  2: { apply ensures_ret. split; [by apply safe_untouched|done]. }
  destruct (Hcycle _ _ eq_refl) as (Ha & Hv & Hne & Ht). clear Hcycle.
  assert (Ha' : actor_id ∈ id <$> active s).
  { apply external_ids_spec in Ha as (w & Hw & _ & <-). by apply list_elem_of_fmap_2. }
  destruct (find_worker_complete _ _ Hv) as (victim & Hfv & Hv' & Eid).
  destruct (find_worker_complete _ _ Ha') as (actor & Hfa & Hact & Eid').
  eapply ensures_expect; [exact Hfv|]. eapply ensures_expect; [exact Hfa|]. subst actor_id victim_id.
  assert (Hu : untouched s s1) by done. destruct H1 as [E1 E2].
  apply ensures_rescue. eapply ensures_mono; [|apply cycle_ends; [by eapply ready_untouched|by rewrite E1]].
  assert (Hpe : population s1 = population s) by (by apply untouched_population).
  intros t2 s2 o (Ho & Hp & Hf). rewrite Hpe in Hp, Hf. destruct o as [[]|e| |]; [| |done..].
  - apply ensures_ret. split; [split; [done|by apply cycled_kept]|].
    by apply rejoin_left_sample.
  - eapply ensures_mono; [|apply (recovered_ends _ _ _ _ _ _ _ s s2); [done..|by auto|done|done]].
    intros t3 s3 o (Hs & Hret). split; [done|]. destruct o as [[c'|[]]|e'| |]; [|done..].
    destruct (Hret _ eq_refl) as [[= ->] Hlt]. apply rejoin_left_kept; [apply Hr|apply Hs|done].
Qed.

Lemma random_rejoin_ends plateau size t s :
  ready s → (2 <= length (active_profiled_indices (active s)))%nat →
  ends t s (random_rejoin plateau size (active_profiled_indices (active s))) (λ _ s' o, safe s s' o).
Proof using draws rng_laws.
  intros Hr Hlen. apply ensures_gets. set (profiled := active_profiled_indices (active s)) in *.
  assert (Hnd : NoDup profiled) by (apply NoDup_filter, NoDup_seq).
  eapply ends_harmless with (F := λ _, False); [apply harmless_random; clear -Hlen; lia| |done].
  intros t1 s1 k H1 Hk. destruct (lookup_lt_is_Some_2 _ _ Hk) as [victim_idx Hvi].
  eapply ensures_expect; [exact Hvi|]. cbv zeta. set (others := filter _ profiled).
  assert (Hoth : others ≠ []).
  { intros He. assert (Hall : ∀ j, j ∈ profiled → j = victim_idx).
    { intros j Hj. destruct (decide (j = victim_idx)) as [|Hne]; [done|].
      assert (Hin : j ∈ others) by (by apply list_elem_of_filter). rewrite He in Hin.
      by apply not_elem_of_nil in Hin. }
    destruct profiled as [|x [|y rest]]; [cbn in Hlen; clear -Hlen; lia..|].
    apply NoDup_cons in Hnd as [Hx _]. apply Hx.
    rewrite (Hall x), (Hall y) by (repeat constructor). left. }
  eapply ends_harmless with (F := λ _, False); [apply harmless_random; destruct others; [done|cbn; clear; lia]| |done].
  intros t2 s2 k' H2 Hk'. destruct (lookup_lt_is_Some_2 _ _ Hk') as [actor_idx Hai].
  eapply ensures_expect; [exact Hai|].
  apply list_elem_of_lookup_2 in Hvi, Hai. apply list_elem_of_filter in Hai as [Hne Hai].
  destruct (indices_where_lookup _ _ _ Hvi) as (victim & Hv & _).
  destruct (indices_where_lookup _ _ _ Hai) as (actor & Ha & _).
  eapply ensures_expect; [exact Hv|]. eapply ensures_expect; [exact Ha|].
  assert (Hu : untouched s s2) by (by rewrite H1). clear H1 H2.
  assert (Hpe : population s2 = population s) by (by apply untouched_population).
  assert (Hid : id victim ≠ id actor).
  { intros E. apply Hne. eapply NoDup_lookup; [by apply (active_NoDup s)| |].
    - by rewrite list_lookup_fmap, Ha.
    - by rewrite list_lookup_fmap, Hv, <-E. }
  apply list_elem_of_lookup_2 in Hv, Ha.
  apply ensures_rescue. eapply ensures_mono; [|apply cycle_ends; [by eapply ready_untouched|by destruct Hu as [-> _]]].
  intros t3 s3 o (Ho & Hp & Hf). rewrite Hpe in Hp, Hf.
  assert (Hk3 : kept s s3) by (by apply cycled_kept). destruct o as [[]|e| |]; [by apply ensures_ret| |done..].
  destruct (_ && _).
  { destruct e; try (by apply ensures_fail). destruct (String.eqb _ _); [by apply ensures_ret|by apply ensures_fail]. }
  apply ensures_bind. eapply ensures_mono; [|apply recover_ends; try done].
  - intros t4 s4 o ([Ho4 Hk4] & _). assert (Hk4' : kept s s4) by (by etrans).
    destruct o as [[]|e'| |]; [by apply ensures_ret|by apply ensures_fail|by split|done..].
  - by eapply ready_kept.
  - eapply batch_error_sub; [|exact Hf]. intros w Hw. by rewrite Hp.
  - rewrite Hp. by apply active_population.
  - rewrite Hp. by apply active_population.
Qed.

Lemma rejoin_ends plateau size t s :
  ready s → ends t s (run_remove_rejoin_phase plateau size) (λ _ s' o, safe s s' o).
Proof using draws rng_laws.
  intros Hr. apply ensures_gets. cbv zeta.
  destruct (Nat.ltb_spec (length (active_profiled_indices (active s))) 2) as [|Hlen]; [by apply ensures_ret|].
  destruct (_ && _); [|by apply random_rejoin_ends].
  apply (sound_iterate _ (rejoin_left required_samples)); [|done|].
  - intros t1 c s1 Hr1. by apply rejoin_turn_ends.
  - destruct Hr as [[_ Hf] _]. clear draws. unfold rejoin_left. cbn [actor_counts welcome_counts receiver_counts].
    pose proof (missing_bound ∅ required_samples (id <$> population s)) as Hb.
    rewrite length_fmap in Hb. set (m := missing _ _ _) in *. clearbody m. nia.
Qed.

(** ** The run *)

Lemma plateau_sound (seed_from_u64 : N → G) new_fanout plateau size :
  sound density_phase_runs (run_plateau seed_from_u64 new_fanout plateau size).
Proof using draws rng_laws.
  assert (Hconv : sound density_phase_runs (ensure_converged_with_attrition (G := G) plateau size)).
  { apply sound_safe. intros t s Hr. by apply converge_ends. }
  apply sound_bind.
  { apply sound_safe. intros t s [[Hf _] Hnd]. eapply ensures_mono; [|by apply transition_ends].
    by intros t1 s1 o [Hs _]. }
  intros _. apply sound_bind; [done|]. intros _.
  assert (Hstop : sound (G := G) density_phase_runs no_profiled_left).
  { apply sound_bind; [apply sound_gets|]. intros l. apply sound_bind; [apply sound_gets|]. intros w.
    apply sound_ret. }
  apply sound_bind; [done|]. intros []; [apply sound_ret|].
  apply sound_bind; [|done]. destruct remove_rejoin eqn:E.
  { apply sound_safe. intros t s Hr. by apply rejoin_ends. }
  apply sound_bind; [by apply density_phase_sound|]. intros _. apply sound_bind.
  { destruct fill_tree_before_measure; [|apply sound_ret]. apply sound_safe. intros. apply tree_fill_ends. }
  intros _. apply sound_bind.
  { apply sound_safe. intros t s Hr. by apply update_ends. }
  intros _. apply sound_bind; [done|]. intros _.
  apply sound_safe. intros t s Hr. by apply application_ends.
Qed.

Lemma benchmark_sound (seed_from_u64 : N → G) new_fanout sequence t s :
  ready s → active s ≠ [] →
  ends t s (run_benchmark seed_from_u64 new_fanout sequence)
    (λ _ s' o, fits density_phase_runs s s' o).
Proof using draws rng_laws.
  intros Hr Hne. apply ensures_gets. destruct (active s) as [|leader l] eqn:El; [done|]. rewrite <-El.
  eapply ensures_expect; [by rewrite El|]. revert t s Hr Hne El.
  enough (H : ∀ l, sound (G := G) density_phase_runs
    (let~ _ <- create_group leader in
     let~ _ <- call (ensure_converged l (id <$> l)) in
     run_plateaus seed_from_u64 new_fanout 1 sequence)) by (intros; by apply H).
  intros l'. apply sound_bind; [apply sound_bind; [apply sound_call|intros; apply sound_ret]|].
  intros _. apply sound_bind; [apply sound_call|]. intros _.
  generalize 1. induction sequence as [|size sequence IH]; intros plateau; [apply sound_ret|].
  cbn [run_plateaus]. apply sound_bind; [apply plateau_sound|]. intros []; [apply sound_ret|apply IH].
Qed.
End run.

(** ** What the run comes to *)

(** The settings of the examples: two plateaus, hardly any samples *)
Definition example_externals : RunnerExternals :=
  {| parse_json_strings _ := Err "no JSON"; parse_int_complaint _ := ""; http_status_text _ := "";
     process_id := 1 |}.

Definition example_settings : Settings :=
  {| continue_profiled_failure := true; profiled_failure_stop_after := 0; resource_sweep := false;
     process_pending_fanout := true; RunnerState.external_coverage_lane := false;
     profile_only_singletons := false; RunnerState.min_profiled_samples_per_operation := 0;
     max_commit_receive_samples_per_plateau := 0; commit_receive_sampling_seed := 0;
     update_rounds := 1; app_rounds := 1; max_update_samples_per_plateau := 3;
     max_app_samples_per_payload := 3; RunnerState.payload_sizes := FixedSizes [16];
     RunnerState.remove_rejoin := false; RunnerState.fill_tree_before_measure := true;
     loop_fuel := 100; sampler_fuel := 0 |}.

Definition example_workers : list WorkerSpec :=
  [legacy "alice" "http://alice:8080"; legacy "bob" "http://bob:8080"; legacy "carol" "http://carol:8080"].

Definition example_config : StaircaseConfig :=
  MkStaircaseConfig example_workers 1 (Some 3) (FixedStep 1) [] Ascending 1 (FixedSizes [16]) 0 false true false.

Lemma frontload_Permutation l : frontload_profile_enabled_singletons_in_idle l ≡ₚ l.
Proof.
  unfold frontload_profile_enabled_singletons_in_idle.
  induction l as [|w l IH]; [done|]. rewrite !filter_cons.
  destruct (is_external_device w) eqn:E1; cbn [negb andb decide].
  - repeat (case_decide; try done). cbn. by constructor.
  - destruct (profiled_singleton w) eqn:E2; cbn [negb andb]; repeat (case_decide; try done).
    + cbn. by rewrite <-Permutation_middle, IH.
    + by rewrite app_assoc, <-Permutation_middle, <-app_assoc, IH.
Qed.

Definition example_fanout : Batches.FanoutController := Batches.new_controller 4 1 false (Batches.f64_of_usize 1) 5000.

(** The generator and the runner of the examples *)
#[local] Existing Instances Plateau.counter_rng Plateau.counter_rng_laws.

Definition example_runner : Runner N :=
  default (MkRunner [] [] example_fanout (Batches.new_plans (λ n, n) 0 false) (Batches.new_plans (λ n, n) 0 false) 0 ∅ ∅)
    (initial_runner (λ n, n) example_config 7 false false example_fanout).

(** C22: Whatever the workers answer and whichever of them die, a run of the benchmark does
    not panic, and the workers in the group and waiting are always workers the runner was
    given, no two with the same id.  It also comes to an end, unless it is to take samples
    of additions at a fixed size ([density_phase_runs]), the one phase whose loop has
    nothing that runs out.  Identifiers are ASCII, as everywhere ([Text]): in a payload
    that [deterministic_payload] cuts inside a wider character [String::truncate] panics. *)
Theorem run_settles {G : Type} `{rng_ops : !Plateau.Rng G} `{!Plateau.RngLaws G}
    {ext : RunnerExternals} {cfg : Settings} (seed_from_u64 : N → G) (config : StaircaseConfig)
    (scenario_seed : N) (profile_only add_extremes : bool) (new_fanout fill_fanout : Batches.FanoutController)
    (sequence : list N) (now : N) (s : Runner G)
    (Hdistinct : NoDup (id <$> RunnerConfig.workers config))
    (Hstart : initial_runner seed_from_u64 config scenario_seed profile_only add_extremes new_fanout = Some s)
    (Hfuel : roomy s)
    (Hdraws : (Sampling.enough_draws max_commit_receive_samples_per_plateau <= sampler_fuel)%nat) :
  ensures contract now s (run_benchmark seed_from_u64 fill_fanout sequence) (λ _ s' o,
    o ≠ Panicked ∧ (o = Exhausted → density_phase_runs)
    ∧ population s' ⊆ RunnerConfig.workers config ∧ NoDup (id <$> population s')).
Proof.
  assert (Hp : population s ≡ₚ RunnerConfig.workers config ∧ active s ≠ []).
  { unfold initial_runner in Hstart. destruct (RunnerConfig.workers config) as [|leader others]; [done|].
    injection Hstart as <-. unfold population. cbn. split; [|done]. constructor.
    destruct profile_only; [|done]. apply frontload_Permutation. }
  destruct Hp as [Hp Hne].
  assert (Hr : ready s) by (split; [done|by rewrite Hp]).
  eapply ensures_mono; [|by apply benchmark_sound].
  intros t s' o [Hk Ho]. split_and!.
  - by intros ->.
  - by intros ->.
  - rewrite <-Hp. apply Hk.
  - by eapply kept_NoDup; [apply Hr|].
Qed.

Lemma run_settles_witness :
  let settings := example_settings in let externals := example_externals in
  NoDup (id <$> RunnerConfig.workers example_config)
  ∧ ensures contract 0 example_runner (run_benchmark (λ n, n) example_fanout [2; 3]) (λ _ s' o,
      o ≠ Panicked ∧ (o = Exhausted → density_phase_runs)
      ∧ population s' ⊆ RunnerConfig.workers example_config ∧ NoDup (id <$> population s')).
Proof.
  intros settings externals. split; [by apply (bool_decide_unpack _)|].
  apply (run_settles (λ n, n) example_config 7 false false example_fanout example_fanout [2; 3] 0).
  - by apply (bool_decide_unpack _).
  - reflexivity.
  - by apply (bool_decide_unpack _).
  - exact (le_n 0).
Defined.

(** C23: Moving the group to a size comes to an end, whatever the workers answer: it returns
    or reports an error, without a panic; when it returns, the group is no larger than that
    size; and however it ends, the workers then in the group or waiting are some of those
    before it, none of them twice.  (It says nothing of which are missing: besides the dead
    there are the joiners that [add_n_members] forgets when a sweep finds recipients that
    never joined.) *)
Theorem transition_settles {G : Type} `{rng_ops : !Plateau.Rng G} `{!Plateau.RngLaws G}
    {ext : RunnerExternals} {cfg : Settings} (seed_from_u64 : N → G) (plateau_index target_size now : N)
    (s : Runner G)
    (Hfuel : fuelled s) (Hdistinct : NoDup (id <$> population s))
    (Hdraws : (Sampling.enough_draws max_commit_receive_samples_per_plateau <= sampler_fuel)%nat) :
  ensures contract now s (transition_to_size seed_from_u64 plateau_index target_size) (λ _ s' o,
    (o = Returned tt ∨ ∃ e, o = Failed e)
    ∧ (o = Returned tt → N.of_nat (length (active s')) <= target_size)
    ∧ population s' ⊆ population s ∧ NoDup (id <$> population s')).
Proof.
  eapply ensures_mono; [|by apply transition_ends].
  intros t s' o [[Ho Hk] Hsize]. split_and!.
  - destruct o as [[]|e| |]; [by left|right; by exists e|done..].
  - intros E. specialize (Hsize E). lia.
  - apply Hk.
  - by eapply kept_NoDup.
Qed.

Lemma transition_settles_witness :
  let settings := example_settings in let externals := example_externals in
  NoDup (id <$> population example_runner)
  ∧ ensures contract 0 example_runner (transition_to_size (λ n, n) 1 2) (λ _ s' o,
    (o = Returned tt ∨ ∃ e, o = Failed e)
    ∧ (o = Returned tt → N.of_nat (length (active s')) <= 2)
    ∧ population s' ⊆ population example_runner ∧ NoDup (id <$> population s')).
Proof.
  intros settings externals. split; [by apply (bool_decide_unpack _)|].
  apply (transition_settles (λ n, n) 1 2 0 example_runner).
  - by apply (bool_decide_unpack _).
  - by apply (bool_decide_unpack _).
  - exact (le_n 0).
Defined.
