(* ===== verification/RunnerEvidence.v ===== *)
(** * What the OpenMLS runner takes as done was shown to it

    The world as the list of the requests the runner made, with their outcomes.  When a
    call of [staircase_runner.rs] reports success, the workers' answers in that list say
    so: convergence ([ensure_converged]), a commit the actor caught up with
    ([receive_commit_expect], [process_pending_commit_expect]), a fan-out
    ([batch_fanout_workers]). *)

From S2P Require Import Prelude Text Interaction HttpRetry RunnerConfig Worker RunnerCommands.
From S2P Require Import Program RunnerState.
From S2P Require CommandCache Batches.
From stdpp Require Import options.

Local Open Scope N_scope.

(** ** Exchanges *)

Inductive exchange :=
| Commanded (url : string) (r : CommandRequestEnvelope) (o : HttpOutcome CommandResponse)
| Batched (url : string) (items : list BatchFanoutCommand) (o : HttpOutcome (list BatchCommandResult)).

Abbreviation log := (list exchange).

(** A worker answers a batch with a result for every command of it. *)
Definition complete (items : list BatchFanoutCommand) (o : HttpOutcome (list BatchCommandResult)) : Prop :=
  match o with
  | Decoded results => ∀ c, c ∈ items → client_id c ∈ res_client_id <$> results
  | _ => True
  end.

Definition recorded (k : log) (X : Type) (e : RunnerEffect X) : X → log → Prop :=
  match e in RunnerEffect X return X → log → Prop with
  | PostCommand url r => λ o k', k' = k ++ [Commanded url r o]
  | PostBatch url items => λ o k', k' = k ++ [Batched url items o] ∧ complete items o
  | HashOrder n | CompletionOrder n => λ order k', order ≡ₚ seq 0 n ∧ k' = k
  | _ => λ _ k', k' = k
  end.

Lemma recorded_grows {A} (p : prog RunnerEffect A) : ∀ k, always recorded k p (λ k' _, k ⊆ k').
Proof.
  induction p as [a|X e f IH]; intros k; cbn; [by intros y Hy|]. intros x k' Hx.
  assert (Hk : k ⊆ k').
  { destruct e; cbn in Hx; destruct_and?; subst k'; intros y Hy; try done; apply elem_of_app; by left. }
  eapply always_mono; [|apply IH]. intros k2 a Hk2. by etrans.
Qed.

(** What is said of the record stays true. *)
Lemma always_grows {A} (p : prog RunnerEffect A) k (Q : log → A → Prop) :
  always recorded k p Q → always recorded k p (λ k' a, k ⊆ k' ∧ Q k' a).
Proof. intros Hp. apply always_and; [apply recorded_grows|done]. Qed.

Lemma collect_map_is_Some {A} (l : list (string * A)) i : i ∈ l.*1 → is_Some (collect_map l !! i).
Proof.
  induction l as [|[j a] l IH] using rev_ind; [by intros ?%not_elem_of_nil|].
  rewrite fmap_app, elem_of_app, collect_map_snoc. cbn [fst snd].
  destruct (decide (j = i)) as [->|Hne]; [by rewrite lookup_insert_eq|].
  rewrite lookup_insert_ne by done. intros [Hi|Hi]; [by apply IH|].
  apply list_elem_of_singleton in Hi. by destruct Hne.
Qed.

Section evidence.
Context {ext : RunnerExternals}.

(** The group state in an answer, if it is one *)
Definition shown_state (o : HttpOutcome CommandResponse) : option GroupStateSnapshot :=
  match o with
  | Decoded r =>
      if String.eqb (response_status r) "ok" && contains "group_id=" (response_message r) then
        match parse_group_state_message (response_message r) with Ok s => Some s | Err _ => None end
      else None
  | _ => None
  end.

(** The worker was asked for its group, and its answer was this state, or none. *)
Definition asked (k : log) (w : WorkerSpec) (shown : option GroupStateSnapshot) : Prop :=
  ∃ r o, Commanded (command_url w) r o ∈ k ∧ req_command r = ShowGroupState ∧ shown_state o = shown.

Definition reached (k : log) (w : WorkerSpec) (expected : ExpectedReceiveCommitState) : Prop :=
  match expected with
  | ExpectGroup st => asked k w (Some st)
  | ExpectRemoved _ => asked k w None
  end.

Lemma asked_grows k k' w shown : k ⊆ k' → asked k w shown → asked k' w shown.
Proof. intros Hk (r & o & Hin & H). exists r, o. split; [by apply Hk|done]. Qed.

Lemma reached_grows k k' w expected : k ⊆ k' → reached k w expected → reached k' w expected.
Proof. destruct expected; apply asked_grows. Qed.

(** *** One command *)

Lemma send_recorded later : ∀ attempt delay w command context k,
  always recorded k (send_attempts later attempt delay w command context) (λ k' r,
    ∃ o, Commanded (command_url w) (MkRequest (ctx_request_id context) command context) o ∈ k'
      ∧ match r with Ok response => o = Decoded response | Err _ => ∀ response, o ≠ Decoded response end).
Proof.
  induction later as [|later IH]; intros attempt delay w command context k;
    cbn [send_attempts]; apply always_bind, always_trigger; intros o k1 Hk1; cbn in Hk1;
    assert (Hin : Commanded (command_url w) (MkRequest (ctx_request_id context) command context) o ∈ k1)
      by (rewrite Hk1; apply elem_of_app; right; left); clear Hk1.
  all: destruct o as [err|status body|response|err]; cbv zeta;
    repeat case_match; try (by eexists).
  all: apply always_bind; (eapply always_mono; [|apply always_true]); intros d k2 _;
    apply always_bind, always_trigger; intros _ k3 _; apply IH.
Qed.

Lemma show_asked w k :
  always recorded k (show_group_state w) (λ k' r,
    k ⊆ k' ∧ asked k' w (match r with Ok st => Some st | Err _ => None end)).
Proof.
  apply always_grows. unfold show_group_state, send_cmd_expect_ok_fragment.
  apply always_bind, always_bind. unfold with_metadata. apply always_bind, always_trigger.
  intros seq k1 _. cbn [always mret prog_ret].
  apply always_bind. eapply always_mono; [|apply send_recorded].
  intros k2 r (o & Hin & Ho). destruct r as [response|e]; cbn.
  - subst o. unfold expect_ok_fragment.
    assert (H : ∀ shown, shown_state (Decoded response) = shown → asked k2 w shown).
    { intros shown Hs. eexists _, _. split; [exact Hin|]. by split. }
    destruct (String.eqb (response_status response) "ok") eqn:E1.
    + destruct (contains "group_id=" (response_message response)) eqn:E2; cbn;
        apply H; cbn; rewrite E1, E2; cbn; [|done].
      by destruct (parse_group_state_message _).
    + destruct (String.eqb _ "error"); cbn; apply H; cbn; by rewrite E1.
  - eexists _, o. split; [exact Hin|]. split; [done|]. destruct o; try done. by destruct (Ho v).
Qed.

Lemma matches_eq expected st : matches expected st = true → st = expected.
Proof.
  unfold matches. intros [[E1%String.eqb_eq E2%N.eqb_eq]%andb_prop E3%bool_decide_eq_true]%andb_prop.
  destruct expected, st; cbn in *. by subst.
Qed.

Lemma reconciled_reached w expected original k :
  always recorded k (receive_commit_reconciled_by_state w expected original) (λ k' r,
    k ⊆ k' ∧ (r = Ok true → reached k' w expected)).
Proof.
  unfold receive_commit_reconciled_by_state. apply always_bind.
  eapply always_mono; [|apply show_asked]. intros k1 shown [Hk Ha]. cbn. split; [done|].
  destruct shown as [st|e], expected as [est|ep]; cbn in *.
  - destruct (matches est st) eqn:E; [|by destruct (_ <? _)]. by rewrite <-(matches_eq _ _ E).
  - done.
  - done.
  - done.
Qed.

Lemma expected_reached w expected k :
  always recorded k (expected_receive_commit_state_reached w expected) (λ k' r,
    k ⊆ k' ∧ (r = Ok true → reached k' w expected)).
Proof.
  unfold expected_receive_commit_state_reached. apply always_bind.
  eapply always_mono; [|apply show_asked]. intros k1 shown [Hk Ha]. cbn. split; [done|].
  destruct shown as [st|e], expected as [est|ep]; cbn in *; try done.
  intros [= E]. by rewrite <-(matches_eq _ _ E).
Qed.

Lemma must_have_reached_reached w expected what k :
  always recorded k (must_have_reached w expected what) (λ k' r,
    k ⊆ k' ∧ (r = Ok tt → reached k' w expected)).
Proof.
  apply always_bind. eapply always_mono; [|apply expected_reached].
  intros k1 [[]|e] [Hk Hr]; cbn; (split; [done|]); [auto|done..].
Qed.

(** *** The commit an actor catches up with *)

(** The worker took the commit in. *)
Definition received (k : log) (w : WorkerSpec) (fragment : string) : Prop :=
  ∃ r response, Commanded (command_url w) r (Decoded response) ∈ k
    ∧ (∃ profile, req_command r = ReceiveCommit profile)
    ∧ response_status response = "ok" ∧ contains fragment (response_message response) = true.

Lemma received_grows k k' w fragment : k ⊆ k' → received k w fragment → received k' w fragment.
Proof. intros Hk (r & resp & Hin & H). exists r, resp. split; [by apply Hk|done]. Qed.

Lemma fragment_received w fragment profile context k :
  always recorded k
    (send_cmd_expect_ok_fragment_with_context w (ReceiveCommit profile) fragment context)
    (λ k' r, k ⊆ k' ∧ (is_ok r = true → received k' w fragment)).
Proof.
  apply always_grows, always_bind. eapply always_mono; [|apply send_recorded].
  intros k1 [response|e] (o & Hin & Ho); cbn; [|done]. subst o. unfold expect_ok_fragment.
  destruct (String.eqb_spec (response_status response) "ok") as [E|]; [|by destruct (String.eqb _ _)].
  destruct (contains fragment _) eqn:Ef; [|done]. intros _. eexists _, response.
  split; [exact Hin|]. split; [by eexists|done].
Qed.

Definition confirmed (k : log) (w : WorkerSpec) (fragment : string)
    (expected : ExpectedReceiveCommitState) : Prop := received k w fragment ∨ reached k w expected.

Lemma receive_commit_confirmed w fragment expected phase cursor k :
  always recorded k (receive_commit_expect w fragment expected phase cursor) (λ k' r,
    r = Ok tt → confirmed k' w fragment expected).
Proof.
  unfold receive_commit_expect. apply always_bind. eapply always_mono; [|apply always_true].
  intros k1 context _. apply always_bind. eapply always_mono; [|apply fragment_received].
  intros k2 sent [_ Hs]. destruct sent as [m|err]; [cbn; left; by apply Hs|]. clear Hs.
  destruct (_ || _); [done|]. apply always_bind. eapply always_mono; [|apply reconciled_reached].
  intros k3 [[]|e] [_ Hr]; [cbn; right; by apply Hr| |done].
  apply always_bind. eapply always_mono; [|apply fragment_received].
  intros k4 sent [_ Hs]. destruct sent as [m|err']; [cbn; left; by apply Hs|]. clear Hs.
  destruct (is_resource_budget_failure err'); [done|].
  apply always_bind. eapply always_mono; [|apply reconciled_reached].
  intros k5 [[]|e] [_ Hr']; [cbn; right; by apply Hr'|done..].
Qed.

Lemma process_pending_reached w expected phase cursor k :
  always recorded k (process_pending_commit_expect w expected phase cursor) (λ k' r,
    r = Ok tt → reached k' w expected).
Proof.
  assert (Hmust : ∀ what k, always recorded k (must_have_reached w expected what) (λ k' r,
    r = Ok tt → reached k' w expected)).
  { intros what k1. eapply always_mono; [|apply must_have_reached_reached]. by intros k2 r [_ H]. }
  unfold process_pending_commit_expect. apply always_bind. eapply always_mono; [|apply always_true].
  intros k1 context _. apply always_bind. eapply always_mono; [|apply always_true].
  intros k2 sent _. destruct sent as [m|err]; [apply Hmust|].
  destruct (is_resource_budget_failure err); [done|].
  apply always_bind. eapply always_mono; [|apply reconciled_reached].
  intros k3 [[]|e] [_ Hr]; [cbn; by intros; apply Hr| |done].
  apply always_bind. eapply always_mono; [|apply always_true].
  intros k4 sent _. destruct sent as [m|err']; [apply Hmust|].
  destruct (is_resource_budget_failure err'); [done|].
  apply always_bind. eapply always_mono; [|apply reconciled_reached].
  intros k5 [[]|e] [_ Hr']; [cbn; by intros; apply Hr'|done..].
Qed.

(** *** Convergence *)

Lemma run_pass_asked workers : ∀ k,
  always recorded k (run_fanout_pass show_group_state workers) (λ k' r,
    k ⊆ k' ∧ Forall (λ p, p.1 ∈ workers ∧ asked k' p.1 (Some p.2)) r.1).
Proof.
  induction workers as [|w workers IH]; intros k; cbn [run_fanout_pass]; [by split|].
  apply always_bind. eapply always_mono; [|apply show_asked]. intros k1 shown [Hk Ha].
  apply always_bind. eapply always_mono; [|apply IH]. intros k2 [successes failures] [Hk2 Hf].
  cbn in Hf. split; [by etrans|].
  assert (Hf' : Forall (λ p, p.1 ∈ w :: workers ∧ asked k2 p.1 (Some p.2)) successes).
  { eapply Forall_impl; [exact Hf|]. intros [w' st] [Hw Hs]. split; [by right|done]. }
  destruct shown as [st|e]; cbn; [|done]. constructor; [|done]. split; [left|].
  by eapply asked_grows.
Qed.

Lemma collect_asked retries : ∀ workers all k, workers ⊆ all →
  always recorded k (fanout_collect_workers retries show_group_state workers) (λ k' r,
    k ⊆ k' ∧ Forall (λ p, p.1 ∈ all ∧ asked k' p.1 (Some p.2)) r.1).
Proof.
  set (P := λ (all : list WorkerSpec) (k : log) (p : WorkerSpec * GroupStateSnapshot), p.1 ∈ all ∧ asked k p.1 (Some p.2)).
  induction retries as [|retries IH]; intros workers all k Hsub; cbn [fanout_collect_workers];
    apply always_bind; unfold fanout_pass; apply always_bind, always_trigger; intros order k1 [_ ->];
    (eapply always_mono; [|apply always_and; [apply run_pass_asked|apply (run_fanout_pass_blames _ _ _ workers), pick_subseteq]]);
    intros k2 [successes failures] [[Hk Hs] Hb]; cbn in Hs, Hb;
    (assert (Hs' : Forall (P all k2) successes);
      [eapply Forall_impl; [exact Hs|]; intros p [Hp Ha]; split; [by apply Hsub, (pick_subseteq order)|done]|]).
  - by split.
  - destruct failures as [|f fs]; [by split|]. apply always_bind.
    eapply always_mono; [|apply (IH _ all)].
    + intros k3 [later failures'] [Hk3 Hl]. cbn in Hl. split; [by etrans|].
      apply Forall_app. split; [|exact Hl]. eapply Forall_impl; [exact Hs'|].
      intros p [Hp Ha]. split; [done|by eapply asked_grows].
    + intros w (f' & -> & Hf')%list_elem_of_fmap. apply Hsub.
      exact (proj1 (Forall_forall _ _) Hb f' Hf').
Qed.

Lemma order_states_spec {T} (P : WorkerSpec * T → Prop) workers : ∀ by_id states,
  order_states workers by_id = Ok states →
  (∀ i p, by_id !! i = Some p → P p ∧ id p.1 = i) →
  Forall2 (λ w p, P p ∧ id p.1 = id w) workers states.
Proof.
  induction workers as [|w workers IH]; intros by_id states; cbn [order_states].
  { intros [= <-] _. constructor. }
  destruct (by_id !! id w) as [p|] eqn:E; cbn [ok_or]; [|done].
  destruct (order_states workers (delete (id w) by_id)) as [rest|] eqn:Er; [|done].
  intros [= <-] HP. constructor; [by apply HP|]. apply (IH _ _ Er).
  intros i q [_ Hq]%lookup_delete_Some. by apply HP.
Qed.

Lemma check_converged_spec expected_members states st :
  check_converged expected_members states = Ok st →
  members st = expected_members ∧ Forall (λ p, p.2 = st) states.
Proof.
  unfold check_converged. destruct states as [|[w0 r0] rest]; [done|].
  case_bool_decide as Hm; [|done]. destruct (find _ rest) as [[w1 s1]|] eqn:E; [done|].
  intros [= <-]. split; [done|]. constructor; [done|]. apply Forall_forall. intros p Hp.
  eapply find_none in E; [|by apply list_elem_of_In]. apply negb_false_iff in E. by apply matches_eq.
Qed.

Lemma ensure_converged_asked l k :
  NoDup (id <$> l) →
  always recorded k (ensure_converged l (id <$> l)) (λ k' r,
    ∀ st, r = Ok st → members st = sort_strings (id <$> l) ∧ Forall (λ w, asked k' w (Some st)) l).
Proof.
  intros Hnd. destruct l as [|w0 l0] eqn:El; [by intros st|]. rewrite <-El in *. clear El.
  assert (Hall : always recorded k (let^ states <- collect_worker_group_states l in
      mret (check_converged (sort_strings (id <$> l)) states)) (λ k' r,
    ∀ st, r = Ok st → members st = sort_strings (id <$> l) ∧ Forall (λ w, asked k' w (Some st)) l)).
  2: { unfold ensure_converged. destruct l; [by intros st|exact Hall]. }
  apply always_bind. unfold collect_worker_group_states. apply always_bind.
  eapply always_mono; [|by apply (collect_asked _ l l)].
  intros k1 [successes failures] [_ Hs]. cbn in Hs.
  destruct failures as [|f fs]; [|by intros st].
  change (always recorded k1 (Ret (order_states l (collect_map ((λ p, (id p.1, p)) <$> successes)))) (λ k' a,
    always recorded k' (match a with Ok a => mret (check_converged (sort_strings (id <$> l)) a) | Err e => mret (Err e) end)
      (λ k' r, ∀ st, r = Ok st → members st = sort_strings (id <$> l) ∧ Forall (λ w, asked k' w (Some st)) l))).
  cbn [always]. destruct (order_states l _) as [states|e] eqn:Eo; [|by intros st].
  cbn. intros st Hst. apply check_converged_spec in Hst as [Hm Heq]. split; [done|].
  apply (order_states_spec (λ p, p.1 ∈ l ∧ asked k1 p.1 (Some p.2))) in Eo.
  - apply Forall_forall. intros w [i Hi]%list_elem_of_lookup.
    destruct (Forall2_lookup_l _ _ _ _ _ Eo Hi) as ([w' st'] & Hp & [Hin Ha] & Eid). cbn in *.
    assert (w' = w) as ->.
    { apply list_elem_of_lookup in Hin as [j Hj].
      assert (i = j) as <-; [|congruence]. eapply NoDup_lookup; [exact Hnd|by rewrite list_lookup_fmap, Hi|].
      by rewrite list_lookup_fmap, Hj, <-Eid. }
    rewrite <-(proj1 (Forall_forall _ _) Heq (w, st') (list_elem_of_lookup_2 _ _ _ Hp)). done.
  - intros i p Hp. apply collect_map_elem, list_elem_of_fmap in Hp as (p' & [= -> ->] & Hp').
    split; [|done]. exact (proj1 (Forall_forall _ _) Hs p' Hp').
Qed.

(** *** Fan-outs *)

(** The client's worker answered the command in a batch with [ok]. *)
Definition acknowledged (k : log) (c : BatchFanoutCommand) : Prop :=
  ∃ url items results r, Batched url items (Decoded results) ∈ k ∧ c ∈ items ∧ r ∈ results
    ∧ res_client_id r = client_id c ∧ response_status (res_response r) = "ok".

Lemma acknowledged_grows k k' c : k ⊆ k' → acknowledged k c → acknowledged k' c.
Proof. intros Hk (u & i & rs & r & Hin & H). exists u, i, rs, r. split; [by apply Hk|done]. Qed.

Definition failing (failures : list FanoutFailure) (c : BatchFanoutCommand) : Prop :=
  client_id c ∈ (λ f, id (failed_worker f)) <$> failures.

Lemma failing_app l l' c : failing (l ++ l') c ↔ failing l c ∨ failing l' c.
Proof. unfold failing. by rewrite fmap_app, elem_of_app. Qed.

Lemma workers_by_id_some workers i : i ∈ id <$> workers →
  ∃ w, workers_by_id workers !! i = Some w ∧ id w = i.
Proof.
  intros (w & -> & Hw)%list_elem_of_fmap.
  assert (Hin : is_Some (workers_by_id workers !! id w)).
  { unfold workers_by_id. apply collect_map_is_Some. rewrite <-list_fmap_compose.
    by apply (list_elem_of_fmap_2 id). }
  destruct Hin as [w' Hw']. exists w'. split; [done|]. by apply workers_by_id_elem in Hw' as [_ ?].
Qed.

Lemma all_failed_failing workers cmds error c :
  c ∈ cmds → client_id c ∈ id <$> workers → failing (all_failed (workers_by_id workers) cmds error) c.
Proof.
  intros Hc (w & Hw & Hid)%workers_by_id_some. apply list_elem_of_fmap.
  exists (MkFailure w error). split; [done|]. unfold all_failed. apply list_elem_of_omap.
  exists c. split; [done|]. by rewrite Hw.
Qed.

(** A batch acknowledges every command or blames its client. *)
Lemma batch_settled workers url cmds o k c :
  Batched url cmds o ∈ k → complete cmds o → c ∈ cmds → client_id c ∈ id <$> workers →
  acknowledged k c ∨ failing (sort_results (workers_by_id workers) cmds o).2 c.
Proof.
  intros Hin Hcomp Hc Hw. destruct o as [err|status body|results|err]; cbn [sort_results snd];
    try (right; by apply all_failed_failing).
  specialize (Hcomp c Hc). apply list_elem_of_fmap in Hcomp as (r & Er & Hr).
  destruct (String.eqb (response_status (res_response r)) "ok") eqn:E.
  - left. exists url, cmds, results, r. apply String.eqb_eq in E. done.
  - right. destruct (workers_by_id_some workers (client_id c) Hw) as (w & Hww & Hid).
    apply list_elem_of_fmap. eexists (MkFailure w _). split; [done|]. apply list_elem_of_omap.
    exists r. split; [done|]. unfold item_failure. rewrite E, <-Er, Hww. done.
Qed.

Definition in_commands (commands : PhysicalCommands) (c : BatchFanoutCommand) : Prop :=
  ∃ physical_id cmds, (physical_id, cmds) ∈ commands ∧ c ∈ cmds.

Lemma attempts_settled workers commands : ∀ p k,
  always recorded k (collect_attempts (workers_by_id workers) commands p) (λ k' p',
    k ⊆ k' ∧ (∀ c, failing (pass_failures p) c → failing (pass_failures p') c)
    ∧ ∀ c, in_commands commands c → client_id c ∈ id <$> workers →
        acknowledged k' c ∨ failing (pass_failures p') c).
Proof.
  induction commands as [|[physical_id cmds] commands IH]; intros p k; cbn [collect_attempts].
  { split_and!; [done|done|]. intros c (? & ? & []%not_elem_of_nil & _). }
  apply always_bind. unfold batch_fanout_collect_physical.
  apply always_bind, always_trigger. intros started k1 Hk1. cbn in Hk1. subst k1.
  apply always_bind, always_trigger. intros o k2 [Hk2 Hcomp].
  apply always_bind, always_trigger. intros now k3 Hk3. cbn in Hk3. subst k3.
  pose proof (λ c, batch_settled workers _ cmds o k2 c ltac:(rewrite Hk2; apply elem_of_app; right; left) Hcomp) as Hb.
  destruct (sort_results _ _ _) as [successes failures]. cbn [snd] in Hb.
  unfold mret, prog_ret; cbn [always]. eapply always_mono; [|apply IH]. intros k4 p' (Hk & Hmono & Hall). cbn [add_attempt pass_failures] in Hmono.
  assert (Hgrow : k ⊆ k2) by (rewrite Hk2; intros y Hy; apply elem_of_app; by left).
  split_and!.
  - by etrans.
  - intros c Hc. apply Hmono, failing_app. by left.
  - intros c (pid & cs & [[= -> ->]|Hin]%elem_of_cons & Hc) Hw.
    + destruct (Hb c Hc Hw) as [Ha|Hf]; [left; by eapply acknowledged_grows|].
      right. apply Hmono, failing_app. by right.
    + apply Hall; [by exists pid, cs|done].
Qed.

(** What stands for a command that was not acknowledged: its client shows the state
    expected of it. *)
Definition shows_expected (k : log) (expected : option (gmap string ExpectedReceiveCommitState))
    (workers : list WorkerSpec) (c : BatchFanoutCommand) : Prop :=
  ∃ m e w, expected = Some m ∧ m !! client_id c = Some e ∧ w ∈ workers ∧ id w = client_id c
    ∧ reached k w e.

Lemma shows_expected_grows k k' expected workers c :
  k ⊆ k' → shows_expected k expected workers c → shows_expected k' expected workers c.
Proof.
  intros Hk (m & e & w & H1 & H2 & H3 & H4 & H5). exists m, e, w. split_and!; try done.
  by eapply reached_grows.
Qed.

Lemma reconcile_failures_settled workers expected failures : ∀ ids remaining k,
  blames workers failures →
  always recorded k (reconcile_failures failures expected ids remaining) (λ k' r,
    k ⊆ k' ∧ (∀ c, failing remaining c ∨ failing failures c → failing r.2 c)
    ∧ ∀ c, client_id c ∈ r.1 → client_id c ∈ ids ∨ shows_expected k' (Some expected) workers c).
Proof.
  induction failures as [|f failures IH]; intros ids remaining k Hb; cbn [reconcile_failures].
  { cbn. split_and!; [done| |by left]. intros c [H|H]; [done|]. by apply not_elem_of_nil in H. }
  apply Forall_cons in Hb as [Hf Hfs].
  assert (Hrest : ∀ ids' f' k1, k ⊆ k1 → failed_worker f' = failed_worker f →
    (∀ c, client_id c ∈ ids' → client_id c ∈ ids ∨ shows_expected k1 (Some expected) workers c) →
    always recorded k1 (reconcile_failures failures expected ids' (remaining ++ [f'])) (λ k' r,
      k ⊆ k' ∧ (∀ c, failing remaining c ∨ failing (f :: failures) c → failing r.2 c)
      ∧ ∀ c, client_id c ∈ r.1 → client_id c ∈ ids ∨ shows_expected k' (Some expected) workers c)).
  { intros ids' f' k1 Hk1 Ef Hids. eapply always_mono; [|by apply IH].
    intros k2 r (Hk2 & Hfail & Hrec). split_and!; [by etrans| |].
    - intros c Hc. apply Hfail. rewrite failing_app. destruct Hc as [Hc|Hc]; [by left; left|].
      apply elem_of_cons in Hc as [Hc|Hc]; [|by right].
      left. right. unfold failing. cbn. rewrite Ef, Hc. left.
    - intros c Hc. destruct (Hrec c Hc) as [Hc'|Hc']; [|by right].
      destruct (Hids c Hc') as [|Hs]; [by left|]. right. by eapply shows_expected_grows. }
  destruct (expected !! _) as [e|] eqn:Ee; [|by apply Hrest; [done|done|left]].
  destruct (is_profiled_resource_budget_failure _ _); [by apply Hrest; [done|done|left]|].
  apply always_bind. eapply always_mono; [|apply reconciled_reached].
  intros k1 [[]|err] [Hk1 Hr].
  - apply Hrest; [done|done|]. intros c [Hc|Hc]%elem_of_union; [|by left].
    apply elem_of_singleton in Hc. right. exists expected, e, (failed_worker f).
    rewrite Hc. split_and!; [done|done|done|done|by apply Hr].
  - by apply Hrest; [|done|left].
  - cbv zeta. by apply Hrest; [done|destruct (contains _ _)|left].
Qed.

Lemma reconcile_settled workers expected failures k :
  blames workers failures →
  always recorded k (reconcile_batch_receive_failures failures expected) (λ k' r,
    k ⊆ k' ∧ ∀ c, failing failures c → failing r.2 c ∨ shows_expected k' (Some expected) workers c).
Proof.
  intros Hb. unfold reconcile_batch_receive_failures. apply always_bind.
  eapply always_mono; [|by apply (reconcile_failures_settled workers)].
  intros k1 [ids remaining] (Hk & Hfail & Hrec). cbn in *. split; [done|]. intros c Hc.
  destruct (decide (client_id c ∈ ids)) as [Hin|Hout].
  - right. by destruct (Hrec c Hin) as [?%not_elem_of_empty|].
  - left. specialize (Hfail c (or_intror Hc)). unfold failing in *.
    apply list_elem_of_fmap in Hfail as (f & Ef & Hf). apply list_elem_of_fmap. exists f.
    split; [done|]. apply list_elem_of_filter. by rewrite <-Ef.
Qed.

Lemma in_commands_pick order commands c :
  order ≡ₚ seq 0 (length commands) → in_commands commands c → in_commands (pick order commands) c.
Proof.
  intros Ho (pid & cmds & Hin & Hc). exists pid, cmds. split; [|done].
  apply list_elem_of_lookup in Hin as [i Hi]. apply list_elem_of_omap. exists i. split; [|done].
  rewrite Ho. apply elem_of_seq. apply lookup_lt_Some in Hi. lia.
Qed.

Lemma in_retry commands failures c :
  in_commands commands c → failing failures c →
  in_commands (retry_batch_commands_for_failures commands failures) c.
Proof.
  intros (pid & cmds & Hin & Hc) Hf.
  set (ids := list_to_set ((λ f, id (failed_worker f)) <$> failures) : gset string).
  assert (Hcf : c ∈ filter (λ c, client_id c ∈ ids) cmds).
  { apply list_elem_of_filter. split; [|done]. by apply elem_of_list_to_set. }
  exists pid, (filter (λ c, client_id c ∈ ids) cmds). split; [|done].
  unfold retry_batch_commands_for_failures. apply list_elem_of_omap. exists (pid, cmds).
  split; [done|]. fold ids. by destruct (filter _ cmds); [apply not_elem_of_nil in Hcf|].
Qed.

Lemma in_retry_inv commands failures c :
  in_commands (retry_batch_commands_for_failures commands failures) c →
  in_commands commands c ∧ failing failures c.
Proof.
  intros (pid & cmds & Hin & Hc). unfold retry_batch_commands_for_failures in Hin.
  apply list_elem_of_omap in Hin as ([pid' cmds'] & Hin & He).
  set (ids := list_to_set ((λ f, id (failed_worker f)) <$> failures) : gset string) in He.
  destruct (filter _ cmds') as [|c0 cs] eqn:E; [done|]. injection He as <- <-.
  rewrite <-E in Hc. apply list_elem_of_filter in Hc as [Hf Hc]. split; [by exists pid', cmds'|].
  by apply elem_of_list_to_set in Hf.
Qed.

Definition settled_command k expected workers c : Prop :=
  acknowledged k c ∨ shows_expected k expected workers c.

Lemma settled_command_grows k k' expected workers c :
  k ⊆ k' → settled_command k expected workers c → settled_command k' expected workers c.
Proof.
  intros Hk [H|H]; [left; by eapply acknowledged_grows|right; by eapply shows_expected_grows].
Qed.

Lemma passes_settled workers expected passes : ∀ commands tot k,
  (∀ c, in_commands commands c → client_id c ∈ id <$> workers) →
  (∀ c, passes = 0%nat → in_commands commands c → last_failures tot ≠ []) →
  always recorded k (fanout_passes passes workers commands expected tot) (λ k' tot',
    last_failures tot' = [] → ∀ c, in_commands commands c → settled_command k' expected workers c).
Proof.
  induction passes as [|passes IH]; intros commands tot k Hw Hzero.
  { cbn. intros Hl c Hc. by destruct (Hzero c eq_refl Hc). }
  cbn [fanout_passes]. destruct commands as [|c0 commands0] eqn:Ec.
  { cbn. intros _ c (? & ? & []%not_elem_of_nil & _). }
  rewrite <-Ec in *. clear Ec. apply always_bind. unfold batch_fanout_collect_pass.
  apply always_bind, always_trigger. intros order k1 [Horder ->].
  eapply always_mono; [|apply always_and; [apply (attempts_settled workers)|
    apply (collect_attempts_blames _ workers); constructor]].
  intros k2 p [(Hk2 & _ & Hsettled) Hb].
  assert (Hall : ∀ c, in_commands commands c → acknowledged k2 c ∨ failing (pass_failures p) c).
  { intros c Hc. apply Hsettled; [by apply in_commands_pick|by apply Hw]. }
  assert (Hnext : ∀ k3 successes failures, k2 ⊆ k3 →
    (∀ c, failing (pass_failures p) c → failing failures c ∨ shows_expected k3 expected workers c) →
    always recorded k3 (fanout_passes passes workers (retry_batch_commands_for_failures commands failures)
        expected (MkTotals (total_requests tot + pass_request_count p)
           (total_latencies tot ++ pass_latencies p)
           (total_successes tot ++ pass_successes p ++ successes) failures)) (λ k' tot',
      last_failures tot' = [] → ∀ c, in_commands commands c → settled_command k' expected workers c)).
  { intros k3 successes failures Hk3 Hfail. eapply always_mono; [|apply always_grows, IH].
    - intros k4 tot' [Hk4 Hdone] Hl c Hc. destruct (Hall c Hc) as [Ha|Hf].
      + eapply settled_command_grows; [exact Hk4|]. left. by eapply acknowledged_grows.
      + destruct (Hfail c Hf) as [Hf'|Hs].
        * apply Hdone; [done|]. by apply in_retry.
        * eapply settled_command_grows; [exact Hk4|]. by right.
    - intros c Hc. apply Hw. by apply in_retry_inv in Hc as [Hc _].
    - intros c _ Hc. apply in_retry_inv in Hc as [_ Hc]. cbn. intros ->.
      by apply not_elem_of_nil in Hc. }
  apply always_bind. destruct expected as [expected|].
  - eapply always_mono; [|by apply (reconcile_settled workers)].
    intros k3 [successes failures] [Hk3 Hr]. by apply Hnext.
  - unfold mret, prog_ret. cbn [always]. apply Hnext; [done|]. intros c Hc. by left.
Qed.
End evidence.

(** ** Properties *)

(** C26: A commit counts as taken in by its actor only on evidence: when the actor is to
    receive it, the actor answered a receive with the text of success or showed the state
    expected after the commit; when it is to process what is pending, it showed that
    state, whatever it answered. *)
Theorem actor_commit_confirmed {ext : RunnerExternals} (process_pending_fanout : bool)
    (actor : WorkerSpec) (expected : ExpectedGroupState) (pending_phase receive_phase : string)
    (cursor : BenchmarkCursor) (k : list exchange) :
  always recorded k (actor_receives process_pending_fanout actor expected pending_phase receive_phase cursor)
    (λ k' r, r = Ok tt →
       asked k' actor (Some expected)
       ∨ process_pending_fanout = false ∧ received k' actor "own commit accepted from DS").
Proof.
  destruct process_pending_fanout; cbn [actor_receives].
  - eapply always_mono; [|apply process_pending_reached]. intros k' r H Hr. left. by apply H.
  - eapply always_mono; [|apply receive_commit_confirmed]. intros k' r H Hr.
    destruct (H Hr) as [Hc|Hc]; [by right|by left].
Qed.

(** A fan-out is not over before every recipient settled it: when it returns, the
    worker of every command answered it with [ok] in a batch that held the command, or,
    after an answer that failed or was lost, showed the state expected of it.  A fan-out
    does not end otherwise but with the failures of its last pass. *)
Theorem fanout_settles_commands {G : Type} {ext : RunnerExternals} (s : Runner G)
    (phase operation : string) (workers : list WorkerSpec) (commands : PhysicalCommands)
    (expected : option (gmap string ExpectedReceiveCommitState)) (k : list exchange)
    (Hclients : ∀ c, in_commands commands c → client_id c ∈ id <$> workers) :
  ensures recorded k s (batch_fanout_workers phase operation workers commands expected) (λ k' s' o,
    match o with
    | Returned _ => ∀ c, in_commands commands c →
        acknowledged k' c ∨ shows_expected k' expected workers c
    | Failed (BatchFanoutError phase' operation' failures) =>
        phase' = phase ∧ operation' = operation ∧ failures ≠ []
    | _ => False
    end).
Proof.
  unfold batch_fanout_workers. apply ensures_bind, ensures_perform.
  eapply always_mono; [|apply (passes_settled workers); [exact Hclients|done]].
  intros k' tot H. cbn beta in H. destruct (latency_percentiles _) as [[[p50 p95] p99] top].
  apply ensures_bind. cbn. destruct (last_failures tot) as [|f fs]; cbn; [|done].
  intros c Hc. by apply H.
Qed.

(** Alice and Bob on one machine: the batch reports Bob's receive as failed, and Bob shows the
    state after the commit. *)
Definition example_recipients : list WorkerSpec :=
  [legacy "alice" "http://machine/client/alice"; legacy "bob" "http://machine/client/bob"].

Definition example_receive (w : WorkerSpec) : BatchFanoutCommand :=
  MkBatchCommand (id w) (Some ("receive-" +:+ id w)) (ReceiveCommit false) None (Some 2) None None None.

Definition example_batches : PhysicalCommands := [("machine", example_receive <$> example_recipients)].

Definition example_expected : gmap string ExpectedReceiveCommitState :=
  collect_map ((λ w, (id w, ExpectGroup (MkSnapshot "g" 2 ["alice"; "bob"]))) <$> example_recipients).

Definition example_reader : RunnerExternals :=
  {| parse_json_strings _ := Ok ["alice"; "bob"]; parse_int_complaint _ := ""; http_status_text _ := "";
     process_id := 1 |}.

Definition example_world (X : Type) (posts : N) (e : RunnerEffect X) : N * X :=
  match e in RunnerEffect X return N * X with
  | PostCommand _ _ =>
      (posts, Decoded (CommandCache.ok_response "group_id=g, epoch=2, members=[...]"))
  | PostBatch _ items =>
      (posts + 1, Decoded ((λ c, MkBatchResult (client_id c)
         (if String.eqb (client_id c) "bob" then CommandCache.error_response "connection closed"
          else CommandCache.ok_response "commit received")) <$> items))
  | NextRequestSeq | NowMs => (posts, 0)
  | ReadOomEvidence => (posts, [])
  | AppendEvent _ => (posts, Ok tt)
  | HashOrder n | CompletionOrder n => (posts, seq 0 n)
  | SleepMs _ => (posts, tt)
  | ThreadRange lo _ => (posts, lo)
  end.

Definition example_group : Runner N :=
  MkRunner example_recipients [] (Batches.new_controller 4 1 false (Batches.f64_of_usize 1) 5000)
    (Batches.new_plans (λ n, n) 0 false) (Batches.new_plans (λ n, n) 0 false) 0 ∅ ∅.

Lemma fanout_settles_commands_witness :
  let reader := example_reader in
  let fan_out := batch_fanout_workers (G := N) "update" "receive_commit" example_recipients
                   example_batches (Some example_expected) in
  ((∀ c, in_commands example_batches c → client_id c ∈ id <$> example_recipients)
   ∧ let '(posts, (_, o)) := run example_world 0 (fan_out example_group) in posts = 1 ∧ o = Returned tt)
  ∧ ensures recorded [] example_group fan_out (λ k' s' o,
    match o with
    | Returned _ => ∀ c, in_commands example_batches c →
        acknowledged k' c ∨ shows_expected k' (Some example_expected) example_recipients c
    | Failed (BatchFanoutError phase' operation' failures) =>
        phase' = "update" ∧ operation' = "receive_commit" ∧ failures ≠ []
    | _ => False
    end).
Proof.
  intros reader fan_out.
  assert (Hc : ∀ c, in_commands example_batches c → client_id c ∈ id <$> example_recipients).
  { intros c (pid & cmds & Hin & Hc). apply list_elem_of_singleton in Hin.
    assert (cmds = example_receive <$> example_recipients) as -> by congruence. clear Hin.
    apply list_elem_of_fmap in Hc as (w & -> & Hw). by apply (list_elem_of_fmap_2 id). }
  split; [split; [exact Hc|vm_compute; by split]|].
  apply (fanout_settles_commands example_group "update" "receive_commit" example_recipients
           example_batches (Some example_expected) []). exact Hc.
Defined.
