(* ===== verification/RunnerToWorker.v ===== *)
(** * The runner and the workers together

    The programs of [RunnerCommands] answered by the command actor of [WorkerActor]: a
    command that the runner sends up to ten times is executed at most once, and the group
    state it reads is the one the worker's client holds. *)

From S2P Require Import Prelude Text Interaction HttpRetry RunnerConfig Client WorkerHttp Worker.
From S2P Require Import Network.
From S2P Require Import RunnerCommands RunnerState RunnerEvidence.
From S2P Require CommandCache WorkerRuns WorkerActor ToyMls GroupAgreement.
From stdpp Require Import options.

Local Open Scope N_scope.

(** ** One command, sent until an answer comes *)

Section delivery.
Context {lib : MlsLibrary} {extern : Externals} {ext : RunnerExternals}.
Context {W : Type} (h : ∀ X, W → Effect X → W * X) (fuel : nat) (ds_url relay_url : string).

(** What the execution of the command is measured to do *)
Context (budget_failure unpersisted_total : option string).

Definition envelope (r : CommandRequestEnvelope) : WorkerActor.Envelope :=
  WorkerActor.MkEnvelope (Some (req_request_id r)) (req_command r) (ctx_expected_epoch (req_context r))
    budget_failure unpersisted_total.

(** A request may get lost on its way; one that arrives is served by the actor, and its
    response may get lost.  The ghost state is what the effects of the worker reach, and
    the worker's slot. *)
Definition served (g : W * WorkerActor.ClientSlot) (X : Type) (e : RunnerEffect X) :
    X → W * WorkerActor.ClientSlot → Prop :=
  match e in RunnerEffect X return X → W * WorkerActor.ClientSlot → Prop with
  | PostCommand url r => λ o g',
      (g' = g ∧ ∀ response, o ≠ Decoded response)
      ∨ ∃ response,
          run h g.1 (WorkerActor.serve_envelope fuel ds_url relay_url g.2 (envelope r))
          = (g'.1, (g'.2, Some response))
          ∧ (o = Decoded response ∨ ∀ x, o ≠ Decoded x)
  | _ => λ _ g', g' = g
  end.

Context (t0 ttl : N) (max : nat).
Context (clock : ∀ w, (h N w Now).1 = w ∧ t0 <= (h N w Now).2 <= t0 + ttl).
Context (remembers : ttl ≠ 0) (room : max ≠ 0%nat).

Abbreviation caches := (WorkerActor.caches t0 ttl max).

(** Serving a request that was answered before changes nothing but the cache. *)
Lemma serve_known s w c answered r response :
  caches c answered → answered !! req_request_id r = Some response →
  ∃ c', run h s (WorkerActor.serve_envelope fuel ds_url relay_url (WorkerActor.MkSlot w c) (envelope r))
        = (s, (WorkerActor.MkSlot w c', Some response)) ∧ caches c' answered.
Proof using clock remembers room.
  intros Hc Hr. unfold WorkerActor.serve_envelope. cbn. rewrite run_bind.
  destruct (WorkerActor.run_cache_get h t0 ttl max clock remembers room s c answered
              (req_request_id r) Hc) as (c' & -> & Hc').
  rewrite Hr. cbn. by exists c'.
Qed.

(** A new request is executed, and its response remembered. *)
Lemma serve_new s w c answered r s' slot' response :
  caches c answered → answered !! req_request_id r = None → (size answered < max)%nat →
  run h s (WorkerActor.serve_envelope fuel ds_url relay_url (WorkerActor.MkSlot w c) (envelope r))
  = (s', (slot', Some response)) →
  run h s (WorkerActor.execute fuel ds_url relay_url w (envelope r))
  = (s', (WorkerActor.worker slot', Some response))
  ∧ caches (WorkerActor.response_cache slot') (<[req_request_id r := response]> answered).
Proof using clock remembers room.
  intros Hc Hr Hsize. unfold WorkerActor.serve_envelope. cbn. rewrite run_bind.
  destruct (WorkerActor.run_cache_get h t0 ttl max clock remembers room s c answered
              (req_request_id r) Hc) as (c' & -> & Hc').
  rewrite Hr, run_bind. cbn [WorkerActor.worker].
  destruct (run h s (WorkerActor.execute _ _ _ _ _)) as [s1 [w1 [answer|]]] eqn:E; [|by intros [= <- <-]].
  rewrite run_bind.
  destruct (WorkerActor.run_cache_insert h t0 ttl max clock remembers room s1 c' answered
              (req_request_id r) answer Hc' Hr Hsize) as (c2 & -> & Hc2).
  cbn. intros [= <- <- <-]. done.
Qed.

(** *** The attempts of one command *)

Section command.
Context (s : W) (w : WorkerState) (answered : gmap string CommandResponse) (r : CommandRequestEnvelope).
Context (unanswered : answered !! req_request_id r = None) (one_more : (size answered < max)%nat).

(** Nothing was executed yet. *)
Definition untouched_by (g : W * WorkerActor.ClientSlot) : Prop :=
  g.1 = s ∧ WorkerActor.worker g.2 = w ∧ caches (WorkerActor.response_cache g.2) answered.

(** The command was executed, with this response. *)
Definition executed (response : CommandResponse) (g : W * WorkerActor.ClientSlot) : Prop :=
  run h s (WorkerActor.execute fuel ds_url relay_url w (envelope r))
  = (g.1, (WorkerActor.worker g.2, Some response))
  ∧ caches (WorkerActor.response_cache g.2) (<[req_request_id r := response]> answered).

Lemma served_once g url o g' :
  (untouched_by g ∨ ∃ response, executed response g) → served g _ (PostCommand url r) o g' →
  (untouched_by g' ∧ ∀ x, o ≠ Decoded x)
  ∨ ∃ response, executed response g' ∧ ∀ x, o = Decoded x → x = response.
Proof using clock remembers room unanswered one_more.
  intros Hg Hs. cbn [served] in Hs. destruct g as [s1 [w1 c1]], g' as [s2 slot2].
  destruct Hs as [[[= -> ->] Ho]|(answer & Hrun & Ho)].
  { destruct Hg as [Hg|[response Hg]]; [by left|]. right. exists response. split; [done|].
    intros x ->. by destruct (Ho x). }
  cbn [fst snd] in Hrun.
  assert (Hans : ∀ x, o = Decoded x → x = answer).
  { intros x ->. destruct Ho as [[= ->]|Ho]; [done|]. by destruct (Ho x). }
  right. destruct Hg as [(E1 & E2 & Hc)|(response & He & Hc)]; cbn [fst snd WorkerActor.worker WorkerActor.response_cache] in *.
  - subst s1 w1. exists answer. split; [|done].
    exact (serve_new s w c1 answered r s2 slot2 answer Hc unanswered one_more Hrun).
  - destruct (serve_known s1 w1 c1 _ r response Hc (lookup_insert_eq _ _ _)) as (c' & Hk & Hc').
    rewrite Hk in Hrun. injection Hrun as <- <- <-. exists response. split; [|done]. by split.
Qed.

Lemma jitter_idle delay g : always served g (worker_command_with_jitter delay) (λ g' _, g' = g).
Proof. by apply always_bind, always_trigger. Qed.

Lemma sent_once context later : ∀ attempt delay target g,
  r = MkRequest (ctx_request_id context) (req_command r) context →
  (untouched_by g ∨ ∃ response, executed response g) →
  always served g (send_attempts later attempt delay target (req_command r) context) (λ g' result,
    (untouched_by g' ∧ ∀ x, result ≠ Ok x)
    ∨ ∃ response, executed response g' ∧ ∀ x, result = Ok x → x = response).
Proof using clock remembers room unanswered one_more.
  induction later as [|later IH]; intros attempt delay target g Er Hg; cbn [send_attempts];
    apply always_bind, always_trigger; intros o g1 Ho; rewrite <-Er in Ho;
    destruct (served_once g _ o g1 Hg Ho) as [[Hg1 Hno]|(response & Hg1 & Hyes)].
  all: assert (Hnext : untouched_by g1 ∨ ∃ response, executed response g1) by eauto.
  all: assert (Hstop : ∀ e, (untouched_by g1 ∧ ∀ x, Err (E := RunnerError) (A := CommandResponse) e ≠ Ok x)
    ∨ ∃ response, executed response g1 ∧ ∀ x, Err (E := RunnerError) (A := CommandResponse) e = Ok x → x = response)
    by (intros e; destruct Hnext as [H|[x H]]; [by left|right; by exists x]).
  all: destruct o as [err|status body|answer|err]; cbv zeta;
    try (by destruct (Hno answer));
    try (right; exists response; split; [exact Hg1|]; intros x [= ->]; by apply Hyes);
    repeat case_match; try (apply Hstop).
  all: apply always_bind; (eapply always_mono; [|apply jitter_idle]); intros g2 d ->;
    apply always_bind, always_trigger; intros x g3 Hg3; cbn in Hg3; subst g3; by apply IH.
Qed.
End command.
End delivery.

(** ** The state a worker shows *)

Lemma split_once_str_here sep s b : strip_prefix sep s = Some b → split_once_str sep s = Some ("", b).
Proof. intros H. destruct s as [|d s]; cbn [split_once_str]; by rewrite H. Qed.

Lemma split_once_str_free c sep a b :
  char_free c a → split_once_str (String c sep) (a +:+ String c sep +:+ b) = Some (a, b).
Proof.
  induction a as [|d a IH]; intros Hf.
  - apply split_once_str_here. apply (strip_prefix_app (String c sep) b).
  - cbn in Hf. apply andb_prop_elim in Hf as [Hd Hf].
    change (String d a +:+ String c sep +:+ b) with (String d (a +:+ String c sep +:+ b)).
    cbn [split_once_str strip_prefix]. destruct (Ascii.eqb c d); [done|]. by rewrite IH.
Qed.

Lemma hex_no_comma b : char_free "," (hex_encode b).
Proof.
  apply WorkerRuns.hex_char_free. intros n Hn. unfold hex_digit.
  destruct (N.ltb_spec n 10); intros E; apply (f_equal N_of_ascii) in E;
    rewrite N_ascii_embedding in E by lia; change (N_of_ascii ",") with 44 in E; lia.
Qed.

Section reading.
Context {lib : MlsLibrary} {extern : Externals} {ext : RunnerExternals}.

(** The group of a client, as the runner writes it *)
Definition own_state (c : Client) : option GroupStateSnapshot :=
  match the_group c with
  | Ok g => Some (MkSnapshot (hex_encode (Client.group_id g)) (Client.epoch g)
                    (sort_strings (utf8_lossy <$> (Client.members g).*2)))
  | Err _ => None
  end.

(** The epoch is a [u64], and the names are those [serde_json] reads back from their
    debug text: printable ones do, except for escapes such as [\u{7f}]. *)
Definition readable (c : Client) : Prop :=
  match the_group c with
  | Ok g => Client.epoch g <= u64_max
      ∧ let names := utf8_lossy <$> (Client.members g).*2 in
        parse_json_strings (debug_list names) = Ok names
  | Err _ => True
  end.

(** The answer to [ShowGroupState]; it changes nothing. *)
Definition show_answer (c : Client) : CommandResponse :=
  WorkerActor.to_response
    (match the_group c with
     | Ok g => Ok ("group_id=" +:+ hex_encode (Client.group_id g) +:+ ", epoch="
                   +:+ pretty (Client.epoch g) +:+ ", members="
                   +:+ debug_list (utf8_lossy <$> (Client.members g).*2))
     | Err e => Err e
     end).

Lemma show_executes {W} (h : ∀ X, W → Effect X → W * X) fuel ds_url relay_url s w r :
  req_command r = ShowGroupState →
  run h s (WorkerActor.execute fuel ds_url relay_url w (envelope None None r))
  = (s, (w, Some (show_answer (client w)))).
Proof.
  intros Hr. unfold WorkerActor.execute, envelope. cbn [WorkerActor.command WorkerActor.expected_epoch].
  rewrite Hr. unfold show_answer. cbn. unfold group_id_hex, current_epoch_u64, member_names.
  destruct (the_group (client w)) as [g|e]; reflexivity.
Qed.

Lemma show_answer_read c : readable c → shown_state (Decoded (show_answer c)) = own_state c.
Proof.
  unfold readable, show_answer, own_state. destruct (the_group c) as [g|e]; [|done].
  intros [He Hj]. unfold shown_state. cbn [WorkerActor.to_response CommandCache.ok_response CommandCache.status CommandCache.message].
  rewrite contains_prefix. change (String.eqb "ok" "ok") with true. cbn [andb].
  unfold parse_group_state_message. rewrite strip_prefix_app. cbn [ok_or].
  change ", epoch=" with (String "," " epoch="). rewrite split_once_str_free.
  2: { apply hex_no_comma. }
  cbn [ok_or]. change ", members=" with (String "," " members="). rewrite split_once_str_free.
  2: { by apply pretty_char_free. }
  cbn [ok_or]. unfold parse_u64. rewrite parse_pretty by done. cbn [ok_or]. by rewrite Hj.
Qed.
End reading.

(** ** Properties *)

(** C25: A command sent to a worker is executed at most once, however many of its up to ten
    attempts arrive and however many responses are lost: when the call of the runner ends,
    either the command was never executed, nothing changed, and the call reports an error;
    or what the worker's effects reach and the worker are as its one execution left them,
    and a response the runner got is the response of that execution.  The worker's cache
    is to remember its commands while this lasts, and the request id is to be new. *)
Theorem command_executed_once {lib : MlsLibrary} {extern : Externals} {ext : RunnerExternals}
    {W : Type} (h : ∀ X, W → Effect X → W * X) (fuel : nat) (ds_url relay_url : string)
    (budget_failure unpersisted_total : option string) (t0 ttl : N) (max : nat)
    (answered : gmap string CommandResponse) (target : WorkerSpec) (command : Command)
    (context : WorkerCommandContext) (s : W) (slot : WorkerActor.ClientSlot)
    (Hclock : ∀ w, (h N w Now).1 = w ∧ t0 <= (h N w Now).2 <= t0 + ttl)
    (Httl : ttl ≠ 0) (Hcache : WorkerActor.caches t0 ttl max (WorkerActor.response_cache slot) answered)
    (Hnew : answered !! ctx_request_id context = None) (Hroom : (size answered < max)%nat) :
  let request := MkRequest (ctx_request_id context) command context in
  always (served h fuel ds_url relay_url budget_failure unpersisted_total) (s, slot)
    (send_command_with_context target command context)
    (λ '(s', slot') result,
      (s' = s ∧ WorkerActor.worker slot' = WorkerActor.worker slot ∧ ∀ response, result ≠ Ok response)
      ∨ ∃ response,
          run h s (WorkerActor.execute fuel ds_url relay_url (WorkerActor.worker slot)
                     (envelope budget_failure unpersisted_total request))
          = (s', (WorkerActor.worker slot', Some response))
          ∧ ∀ answer, result = Ok answer → answer = response).
Proof.
  intros request. assert (Hmax : max ≠ 0%nat) by lia.
  eapply always_mono.
  2: { apply (sent_once h fuel ds_url relay_url budget_failure unpersisted_total t0 ttl max Hclock Httl
                Hmax s (WorkerActor.worker slot) answered request Hnew Hroom context _ 1
                WORKER_COMMAND_INITIAL_DELAY target (s, slot)); [done|]. by left. }
  intros [s' slot'] result [[(E1 & E2 & _) Hno]|(response & [Hrun _] & Hyes)].
  - by left.
  - right. by exists response.
Qed.

(** C24: Convergence is real: when the check that all members show the same group succeeds,
    and the answers to [ShowGroupState] in the record are those of the workers'
    clients, every member's MLS group has the id and the epoch the runner took, and its
    members are exactly the active workers. *)
Theorem converged_groups_agree {lib : MlsLibrary} {extern : Externals} {ext : RunnerExternals}
    (l : list WorkerSpec) (clients : gmap string Client) (k : list exchange)
    (Hdistinct : NoDup (id <$> l)) (Hreadable : map_Forall (λ _ c, readable c) clients)
    (Hclients : ∀ w, w ∈ l → is_Some (clients !! command_url w)) :
  always recorded k (ensure_converged l (id <$> l)) (λ k' result, ∀ st,
    (∀ url r response c, Commanded url r (Decoded response) ∈ k' → req_command r = ShowGroupState →
       clients !! url = Some c → response = show_answer c) →
    result = Ok st →
    members st = sort_strings (id <$> l)
    ∧ ∀ w c, w ∈ l → clients !! command_url w = Some c → own_state c = Some st).
Proof.
  eapply always_mono; [|by apply ensure_converged_asked].
  intros k' result H st Htrue Hr. destruct (H st Hr) as [Hm Ha]. split; [done|].
  intros w c Hw Hc. pose proof (proj1 (Forall_forall _ _) Ha w Hw) as (r & o & Hin & Hcmd & Hs).
  destruct o as [| |response|]; try done.
  rewrite (Htrue _ _ _ c Hin Hcmd Hc) in Hs. rewrite show_answer_read in Hs; [done|].
  by apply (Hreadable (command_url w)).
Qed.

(** ** Examples *)

Section examples.
#[local] Existing Instances ToyMls.toy_mls ToyMls.toy_externals.

Definition toy_reader (names : list string) : RunnerExternals :=
  {| parse_json_strings _ := Ok names; parse_int_complaint _ := ""; http_status_text _ := "";
     process_id := 1 |}.

Definition alice : WorkerSpec := legacy "alice" "http://alice:8080".
Definition bob : WorkerSpec := legacy "bob" "http://bob:8080".

Definition create_context : WorkerCommandContext := MkContext "runner-1-alice" None None None None.

Lemma command_executed_once_witness :
  let reader := toy_reader [] in
  let cache := CommandCache.new 4 1000 in
  let slot := WorkerActor.MkSlot (GroupAgreement.toy_worker "alice") cache in
  let h := reliable hex_encode GroupAgreement.log_order in
  let start := GroupAgreement.toy_start.1 in
  let request := MkRequest "runner-1-alice" CreateGroup create_context in
  WorkerActor.caches 0 1000 4 cache ∅
  ∧ always (served h 5 "http://ds" "http://relay" None None) (start, slot)
      (send_command_with_context alice CreateGroup create_context)
      (λ '(s', slot') result,
        (s' = start ∧ WorkerActor.worker slot' = WorkerActor.worker slot ∧ ∀ response, result ≠ Ok response)
        ∨ ∃ response,
            run h start (WorkerActor.execute 5 "http://ds" "http://relay" (WorkerActor.worker slot)
                       (envelope None None request))
            = (s', (WorkerActor.worker slot', Some response))
            ∧ ∀ answer, result = Ok answer → answer = response).
Proof.
  intros reader cache slot h start request.
  assert (Hc : WorkerActor.caches 0 1000 4 cache ∅).
  { split; [done..|]. exists []. split; [apply CommandCache.holds_new|]. split; [done|].
    cbn. by rewrite fmap_empty. }
  split; [exact Hc|].
  apply (command_executed_once h 5 "http://ds" "http://relay" None None 0 1000 4 ∅ alice CreateGroup
           create_context start slot).
  - intros w. cbn. split; [done|lia].
  - done.
  - exact Hc.
  - done.
  - rewrite map_size_empty. lia.
Defined.

(** Both members of the group of [GroupAgreement.toy_view] *)
Definition member (n : string) : Client :=
  MkClient n tt Classical n (Some (ToyMls.MkToyGroup GroupAgreement.toy_view None)) None None [].

Definition both_clients : gmap string Client :=
  <[command_url alice := member "alice"]> {[command_url bob := member "bob"]}.

Definition both_state : GroupStateSnapshot :=
  MkSnapshot (hex_encode (ToyMls.toy_id GroupAgreement.toy_view)) 2 ["alice"; "bob"].

(** A world in which every member answers *)
Definition answering (X : Type) (_ : unit) (e : RunnerEffect X) : unit * X :=
  match e in RunnerEffect X return unit * X with
  | NextRequestSeq | NowMs => (tt, 0)
  | PostCommand url _ =>
      (tt, match both_clients !! url with
           | Some c => Decoded (show_answer c)
           | None => BadStatus 404 ""
           end)
  | PostBatch _ _ => (tt, Decoded [])
  | ReadOomEvidence => (tt, [])
  | AppendEvent _ => (tt, Ok tt)
  | HashOrder n | CompletionOrder n => (tt, seq 0 n)
  | SleepMs _ => (tt, tt)
  | ThreadRange lo _ => (tt, lo)
  end.

Lemma converged_groups_agree_witness :
  let reader := toy_reader ["alice"; "bob"] in
  let l := [alice; bob] in
  (NoDup (id <$> l) ∧ map_Forall (λ _ c, readable c) both_clients
   ∧ (run answering tt (ensure_converged l (id <$> l))).2 = Ok both_state)
  ∧ always recorded [] (ensure_converged l (id <$> l)) (λ k' result, ∀ st,
    (∀ url r response c, Commanded url r (Decoded response) ∈ k' → req_command r = ShowGroupState →
       both_clients !! url = Some c → response = show_answer c) →
    result = Ok st →
    members st = sort_strings (id <$> l)
    ∧ ∀ w c, w ∈ l → both_clients !! command_url w = Some c → own_state c = Some st).
Proof.
  intros reader l.
  assert (Hnd : NoDup (id <$> l)) by (by apply (bool_decide_unpack _)).
  assert (Hr : map_Forall (λ _ c, readable c) both_clients).
  { intros u c. unfold both_clients. intros [[_ <-]|[_ [_ <-]%lookup_singleton_Some]]%lookup_insert_Some;
      split; [cbn; unfold u64_max; lia|reflexivity..|cbn; unfold u64_max; lia|reflexivity]. }
  split; [split; [exact Hnd|split; [exact Hr|vm_compute; reflexivity]]|].
  apply (converged_groups_agree l both_clients []); [exact Hnd|exact Hr|].
  intros w Hw. apply elem_of_cons in Hw as [->|Hw]; [eexists; reflexivity|].
  apply list_elem_of_singleton in Hw as ->. eexists; reflexivity.
Defined.
End examples.
