(* ===== verification/WorkerServer.v ===== *)
(** * The worker process

    The HTTP endpoints of [OpenMLS_containerized/src/bin/worker.rs] and the tasks behind
    them: [run_command], [run_command_for_client] and [run_batch_command] hand commands
    to the actors of the clients ([send_to_client_actor]), which run side by side, effect
    by effect.  A run is a sequence of steps ([label]), in any order the scheduler likes.
    [clients_take_turns] states that each client executes its commands one after the
    other, and that every request is answered in full; [some_step_left] that no run
    stops before that. *)

From S2P Require Import Prelude Text Interaction HttpRetry Client WorkerHttp Worker Network.
From S2P Require Import RunnerCommands RunnerEvidence ToyMls WorkerActor.
From S2P Require CommandCache GroupAgreement.
From stdpp Require Import options.

Local Open Scope N_scope.

(** ** Requests and their tasks *)

Inductive IncomingCommandRequest :=
| EnvelopeRequest (r : CommandRequestEnvelope)
| RawCommand (c : Command).

(** The benchmark context, which only profiling reads, is left out. *)
Definition into_parts (r : IncomingCommandRequest) : option string * Command * option N :=
  match r with
  | EnvelopeRequest r =>
      (Some (req_request_id r), req_command r, ctx_expected_epoch (req_context r))
  | RawCommand c => (None, c, None)
  end.

(** [POST /command], [/client/{client_id}/command] and [/batch-command] *)
Inductive HttpRequest :=
| PostToOnly (r : IncomingCommandRequest)
| PostToClient (client_id : string) (r : IncomingCommandRequest)
| PostItems (items : list BatchFanoutCommand).

(** A command on its way to a client's actor, or the answer it gets at once; [permit] is
    the batch whose semaphore it waits for. *)
Record Task := MkTask {
  permit : option nat;
  addressee : result CommandResponse string;
  task_request_id : option string;
  task_command : Command;
  task_expected_epoch : option N;
}.

(** In a batch the profile flag of the item counts, not that of the command. *)
Definition with_profile (c : Command) (profile : option bool) : Command :=
  match c with
  | ReceiveCommit _ => ReceiveCommit (default false profile)
  | ProcessPending kinds max_messages expected_epoch _ =>
      ProcessPending kinds max_messages expected_epoch (default false profile)
  | ReceiveApplicationMessage _ => ReceiveApplicationMessage (default false profile)
  | other => other
  end.

Definition not_found (client_id : string) : CommandResponse :=
  CommandCache.error_response ("client " +:+ client_id +:+ " not found").

Definition find_client (clients : gset string) (client_id : string) : result CommandResponse string :=
  if bool_decide (client_id ∈ clients) then Ok client_id else Err (not_found client_id).

Definition run_command (clients : gset string) (r : IncomingCommandRequest) : Task :=
  let '(request_id, command, expected_epoch) := into_parts r in
  MkTask None
    (match elements clients with
     | [client_id] => Ok client_id
     | _ => Err (CommandCache.error_response
                   "Multi-client worker requires /client/:id/command or /batch-command")
     end) request_id command expected_epoch.

Definition run_command_for_client (clients : gset string) (client_id : string)
    (r : IncomingCommandRequest) : Task :=
  let '(request_id, command, expected_epoch) := into_parts r in
  MkTask None (find_client clients client_id) request_id command expected_epoch.

Definition batch_item (clients : gset string) (batch : nat) (item : BatchFanoutCommand) : Task :=
  MkTask (Some batch) (find_client clients (client_id item)) (cmd_request_id item)
    (with_profile (cmd_command item) (cmd_profile item)) (cmd_expected_epoch item).

(** The tasks of the [number]th request *)
Definition tasks_of (clients : gset string) (number : nat) (r : HttpRequest) : list Task :=
  match r with
  | PostToOnly r => [run_command clients r]
  | PostToClient client_id r => [run_command_for_client clients client_id r]
  | PostItems items => batch_item clients number <$> items
  end.

(** The results of a batch, item by item *)
Definition batch_results (items : list BatchFanoutCommand) (answers : list CommandResponse) :
    list BatchCommandResult :=
  zip_with (λ item answer, MkBatchResult (client_id item) answer) items answers.

(** ** The process *)

(** A task has not started; holds its permit, or needs none; is in the channel of an actor or
    executed by it; is done. *)
Inductive Progress := Waiting | Accepted | Queued | Answered (r : CommandResponse).

#[export] Instance response_eq_dec : EqDecision CommandResponse.
Proof. solve_decision. Defined.

#[export] Instance progress_eq_dec : EqDecision Progress.
Proof. solve_decision. Defined.

Section process.
Context {lib : MlsLibrary} {extern : Externals}.

(** An actor waits for commands, or is in the middle of one. *)
Inductive Activity :=
| Resting (slot : ClientSlot)
| Serving (task : nat) (p : prog Effect (ClientSlot * option CommandResponse)).

Record Actor := MkActor { channel : list nat; activity : Activity }.

Record Process (W : Type) := MkProcess {
  world : W;
  actors : gmap string Actor;
  progress : list Progress;
}.
Arguments MkProcess {_} _ _ _.
Arguments world {_} _.
Arguments actors {_} _.
Arguments progress {_} _.

Inductive label :=
| Admit (task : nat)
| Refuse (task : nat)
| Enqueue (task : nat)
| Take (client : string)
| Perform (client : string)
| Finish (client : string).

Context {W : Type} (h : ∀ X, W → Effect X → W * X) (fuel : nat) (ds_url relay_url : string).
Context (internal_parallelism queue_capacity : nat).
(** The tasks of all requests, and what each execution is measured to do *)
Context (tasks : list Task) (measured : nat → option string * option string).

Definition task_envelope (i : nat) (t : Task) : Envelope :=
  MkEnvelope (task_request_id t) (task_command t) (task_expected_epoch t)
    (measured i).1 (measured i).2.

(** The permits of a batch that are taken *)
Definition in_flight (batch : nat) (done : list Progress) : nat :=
  length (filter (λ p : Task * Progress,
            permit p.1 = Some batch ∧ (p.2 = Accepted ∨ p.2 = Queued)) (zip tasks done)).

Definition may_enter (t : Task) (done : list Progress) : bool :=
  match permit t with
  | Some batch => (in_flight batch done <? internal_parallelism)%nat
  | None => true
  end.

Definition moved (s : Process W) (i : nat) (p : Progress) : Process W :=
  MkProcess (world s) (actors s) (<[i := p]> (progress s)).
Definition acted (s : Process W) (c : string) (a : Actor) : Process W :=
  MkProcess (world s) (<[c := a]> (actors s)) (progress s).

(** One step, if it is possible *)
Definition act (s : Process W) (l : label) : option (Process W) :=
  match l with
  | Admit i =>
      let! t <- tasks !! i in
      if bool_decide (progress s !! i = Some Waiting) && may_enter t (progress s)
      then Some (moved s i Accepted) else None
  | Refuse i =>
      let! t <- tasks !! i in
      match addressee t with
      | Err r => if bool_decide (progress s !! i = Some Accepted)
                 then Some (moved s i (Answered r)) else None
      | Ok _ => None
      end
  | Enqueue i =>
      let! t <- tasks !! i in
      match addressee t with
      | Ok c =>
          let! a <- actors s !! c in
          if bool_decide (progress s !! i = Some Accepted) && (length (channel a) <? queue_capacity)%nat
          then Some (acted (moved s i Queued) c (MkActor (channel a ++ [i]) (activity a))) else None
      | Err _ => None
      end
  | Take c =>
      let! a <- actors s !! c in
      match activity a, channel a with
      | Resting slot, i :: rest =>
          let! t <- tasks !! i in
          Some (acted s c (MkActor rest
                  (Serving i (serve_envelope fuel ds_url relay_url slot (task_envelope i t)))))
      | _, _ => None
      end
  | Perform c =>
      let! a <- actors s !! c in
      match activity a with
      | Serving i (Vis e k) =>
          let '(w, x) := h _ (world s) e in
          Some (MkProcess w (<[c := MkActor (channel a) (Serving i (k x))]> (actors s)) (progress s))
      | _ => None
      end
  | Finish c =>
      let! a <- actors s !! c in
      match activity a with
      | Serving i (Ret (slot, Some r)) =>
          Some (acted (moved s i (Answered r)) c (MkActor (channel a) (Resting slot)))
      | _ => None
      end
  end.

Fixpoint acts (s : Process W) (ls : list label) : option (Process W) :=
  match ls with
  | [] => Some s
  | l :: ls => let! s <- act s l in acts s ls
  end.

Definition started (w : W) (slots : gmap string ClientSlot) : Process W :=
  MkProcess w ((λ slot, MkActor [] (Resting slot)) <$> slots) (replicate (length tasks) Waiting).

Definition answer (s : Process W) (i : nat) : option CommandResponse :=
  match progress s !! i with Some (Answered r) => Some r | _ => None end.

Definition finished (s : Process W) : Prop := ∀ i, (i < length tasks)%nat → is_Some (answer s i).
End process.
Arguments MkProcess {_ _} _ _ _.
Arguments world {_ _} _.
Arguments actors {_ _} _.
Arguments progress {_ _} _.

(** ** Each client's turns *)

Section turns.
Context {lib : MlsLibrary} {extern : Externals}.
Context {W : Type} (h : ∀ X, W → Effect X → W * X) (fuel : nat) (ds_url relay_url : string).
Context (internal_parallelism queue_capacity : nat).
Context (tasks : list Task) (measured : nat → option string * option string).
Context (clients : gset string) (slots : gmap string ClientSlot) (start : W).

Abbreviation step := (act h fuel ds_url relay_url internal_parallelism queue_capacity tasks measured).
Abbreviation steps := (acts h fuel ds_url relay_url internal_parallelism queue_capacity tasks measured).
Abbreviation serving slot i t := (serve_envelope fuel ds_url relay_url slot (task_envelope measured i t)).

(** What is left of a program after some of its effects *)
Inductive residual {A} (p : prog Effect A) : prog Effect A → Prop :=
| residual_here : residual p p
| residual_next {X} (e : Effect X) (k : X → prog Effect A) (w : W) :
    residual p (Vis e k) → residual p (k (h X w e).2).

(** The commands a client executed, one after the other, with their responses; what else
    the world did meanwhile shows in the answers to their effects. *)
Inductive turns (slot0 : ClientSlot) : list (nat * CommandResponse) → ClientSlot → Prop :=
| turns_none : turns slot0 [] slot0
| turns_more turn i t slot slot' r :
    turns slot0 turn slot → tasks !! i = Some t →
    residual (serving slot i t) (Ret (slot', Some r)) →
    turns slot0 (turn ++ [(i, r)]) slot'.

Definition in_service (a : Actor) : list nat :=
  match activity a with Resting _ => [] | Serving i _ => [i] end ++ channel a.

Definition working (turn_slot : ClientSlot) (a : Activity) : Prop :=
  match a with
  | Resting slot => slot = turn_slot
  | Serving i p => ∃ t, tasks !! i = Some t ∧ residual (serving turn_slot i t) p
  end.

(** The task has been handed to its client. *)
Definition handed (done : list Progress) (i : nat) : Prop :=
  done !! i = Some Queued ∨ ∃ r, done !! i = Some (Answered r).

Record client_ok (done : list Progress) (c : string) (slot0 : ClientSlot) (a : Actor)
    (turn : list (nat * CommandResponse)) (slot : ClientSlot) : Prop := {
  ok_turns : turns slot0 turn slot;
  ok_working : working slot (activity a);
  ok_distinct : NoDup (turn.*1 ++ in_service a);
  ok_tasks : ∀ i, i ∈ turn.*1 ++ in_service a ↔
    (∃ t, tasks !! i = Some t ∧ addressee t = Ok c) ∧ handed done i;
  ok_answered : ∀ i r, (i, r) ∈ turn → done !! i = Some (Answered r);
  ok_queued : ∀ i, i ∈ in_service a → done !! i = Some Queued;
}.

Record process_ok (s : Process W) : Prop := {
  ok_length : length (progress s) = length tasks;
  ok_actors : dom (actors s) = clients;
  ok_clients : ∀ c slot0 a, slots !! c = Some slot0 → actors s !! c = Some a →
    ∃ turn slot, client_ok (progress s) c slot0 a turn slot;
  ok_refused : ∀ i t r, tasks !! i = Some t → addressee t = Err r →
    progress s !! i = Some Waiting ∨ progress s !! i = Some Accepted
    ∨ progress s !! i = Some (Answered r);
}.

Arguments ok_tasks {_ _ _ _ _ _} _.
Arguments ok_queued {_ _ _ _ _ _} _.
Arguments ok_working {_ _ _ _ _ _} _.
Arguments ok_answered {_ _ _ _ _ _} _.
Arguments ok_distinct {_ _ _ _ _ _} _.

(** *** A task moves *)

(** Another client's task *)
Lemma client_ok_moved done c slot0 a turn slot i p :
  client_ok done c slot0 a turn slot →
  (∀ t, tasks !! i = Some t → addressee t ≠ Ok c ∨ (¬ handed done i ∧ ¬ handed (<[i:=p]> done) i)) →
  is_Some (tasks !! i) →
  client_ok (<[i:=p]> done) c slot0 a turn slot.
Proof.
  intros [Ht Hw Hd Hin Ha Hq] Hi [t Hti].
  assert (Hother : i ∉ turn.*1 ++ in_service a).
  { intros [(t' & Ht' & Hc) Hh]%Hin. destruct (Hi _ Ht') as [|[Hn _]]; done. }
  split; [done..| | |].
  - intros j. rewrite Hin. destruct (decide (i = j)) as [<-|Hne].
    + destruct (Hi t Hti) as [Hc|[Hn Hn']]; [|by split; intros [_ H]].
      split; intros [(t' & Ht' & Hc') _]; congruence.
    + unfold handed. by rewrite list_lookup_insert_ne.
  - intros j r Hj. rewrite list_lookup_insert_ne; [by apply Ha|]. intros ->. apply Hother.
    apply elem_of_app. left. by apply (list_elem_of_fmap_2 fst _ (j, r)).
  - intros j Hj. rewrite list_lookup_insert_ne; [by apply Hq|]. intros ->. apply Hother.
    apply elem_of_app. by right.
Qed.

(** The client's own task is handed to it. *)
Lemma client_ok_enqueued done c slot0 channel act turn slot i t :
  client_ok done c slot0 (MkActor channel act) turn slot →
  tasks !! i = Some t → addressee t = Ok c → done !! i = Some Accepted →
  client_ok (<[i:=Queued]> done) c slot0 (MkActor (channel ++ [i]) act) turn slot.
Proof.
  intros [Ht Hw Hd Hin Ha Hq] Hti Hc Hdone.
  assert (Hnew : in_service (MkActor (channel ++ [i]) act) = in_service (MkActor channel act) ++ [i]).
  { unfold in_service. cbn. by rewrite app_assoc. }
  assert (Hother : i ∉ turn.*1 ++ in_service (MkActor channel act)).
  { intros [_ [Hh|[r Hh]]]%Hin; by rewrite Hdone in Hh. }
  assert (Hlt : (i < length done)%nat) by (by eapply lookup_lt_Some).
  split; rewrite ?Hnew, ?app_assoc; [done..| | | |].
  - apply NoDup_app. split_and!; [done| |apply NoDup_singleton].
    intros j Hj ->%list_elem_of_singleton. done.
  - intros j. rewrite elem_of_app, Hin, list_elem_of_singleton. unfold handed.
    destruct (decide (i = j)) as [<-|Hne].
    + rewrite list_lookup_insert_eq by done. naive_solver.
    + rewrite list_lookup_insert_ne by done. naive_solver.
  - intros j r Hj. rewrite list_lookup_insert_ne; [by apply Ha|]. intros ->. apply Hother.
    apply elem_of_app. left. by apply (list_elem_of_fmap_2 fst _ (j, r)).
  - intros j [Hj| ->%list_elem_of_singleton]%elem_of_app; [|by apply list_lookup_insert_eq].
    rewrite list_lookup_insert_ne; [by apply Hq|]. intros ->. apply Hother.
    apply elem_of_app. by right.
Qed.

(** The client's actor goes on, with the same tasks in service. *)
Lemma client_ok_acted done c slot0 a a' turn slot :
  client_ok done c slot0 a turn slot → in_service a' = in_service a → working slot (activity a') →
  client_ok done c slot0 a' turn slot.
Proof. intros [Ht Hw Hd Hin Ha Hq] Hs Hw'. split; rewrite ?Hs; done. Qed.

Lemma client_ok_finished done c slot0 channel turn slot i slot' r :
  client_ok done c slot0 (MkActor channel (Serving i (Ret (slot', Some r)))) turn slot →
  client_ok (<[i:=Answered r]> done) c slot0 (MkActor channel (Resting slot')) (turn ++ [(i, r)]) slot'.
Proof.
  intros [Ht (t & Hti & Hres) Hd Hin Ha Hq]. cbn in *.
  assert (Hi : done !! i = Some Queued) by (apply Hq; left).
  assert (Hlt : (i < length done)%nat) by (by eapply lookup_lt_Some).
  apply NoDup_app in Hd as (Hd1 & Hd2 & Hd3). unfold in_service in *. cbn in *.
  split; cbn.
  - by eapply turns_more.
  - done.
  - rewrite fmap_app, <-app_assoc. apply NoDup_app. split_and!; done.
  - intros j. rewrite fmap_app, <-app_assoc. cbn. rewrite Hin. unfold handed.
    destruct (decide (i = j)) as [<-|Hne].
    + rewrite list_lookup_insert_eq by done. naive_solver.
    + by rewrite list_lookup_insert_ne.
  - intros j r' [Hj|[= -> ->]%list_elem_of_singleton]%elem_of_app; [|by apply list_lookup_insert_eq].
    rewrite list_lookup_insert_ne; [by apply Ha|]. intros ->.
    apply (Hd2 j); [by apply (list_elem_of_fmap_2 fst _ (j, r'))|left].
  - intros j Hj. rewrite list_lookup_insert_ne; [apply Hq; by right|]. intros ->.
    by apply NoDup_cons in Hd3 as [].
Qed.
(** *** The process *)

Context (served_clients : dom slots = clients).
Context (known : ∀ t c, t ∈ tasks → addressee t = Ok c → c ∈ clients).

Lemma started_ok : process_ok (started tasks start slots).
Proof using served_clients.
  split; cbn.
  - apply length_replicate.
  - by rewrite dom_fmap_L.
  - intros c slot0 a Hs Ha. rewrite lookup_fmap, Hs in Ha. injection Ha as <-.
    exists [], slot0. split; cbn; try done; try constructor.
    + by intros []%not_elem_of_nil.
    + intros [_ [Hi|[r Hi]]]; apply lookup_replicate in Hi as [[=] _].
    + by intros ? ? []%not_elem_of_nil.
    + by intros ? []%not_elem_of_nil.
  - intros i t r Ht _. left. apply lookup_replicate. split; [done|]. by eapply lookup_lt_Some.
Qed.

Lemma actor_slots s c a :
  process_ok s → actors s !! c = Some a → is_Some (slots !! c).
Proof using served_clients.
  intros Hs Ha. apply elem_of_dom. rewrite served_clients, <-(ok_actors _ Hs). by apply elem_of_dom.
Qed.

(** A task that is not handed to a client moves on. *)
Lemma process_ok_moved s i t p :
  process_ok s → tasks !! i = Some t →
  (∀ c, addressee t = Ok c → ¬ handed (progress s) i ∧ ¬ handed (<[i:=p]> (progress s)) i) →
  (∀ r, addressee t = Err r → p = Waiting ∨ p = Accepted ∨ p = Answered r) →
  process_ok (moved s i p).
Proof.
  intros [Hl Hd Hc Hr] Hti Hok Herr. split; cbn.
  - by rewrite length_insert.
  - done.
  - intros c slot0 a Hs Ha. destruct (Hc c slot0 a Hs Ha) as (turn & slot & Hcl). exists turn, slot.
    eapply client_ok_moved; [done| |done]. intros t' Ht'. assert (t' = t) as -> by congruence.
    destruct (addressee t) as [c'|r] eqn:E; [|by left].
    destruct (decide (c' = c)) as [->|Hne]; [right; by apply (Hok c)|left; congruence].
  - intros j t' r Ht' Hr'. destruct (decide (i = j)) as [<-|Hne].
    + assert (t' = t) as -> by congruence. rewrite list_lookup_insert_eq.
      * destruct (Herr r Hr') as [->|[->| ->]]; auto.
      * rewrite Hl. by eapply lookup_lt_Some.
    + rewrite list_lookup_insert_ne by done. by eapply Hr.
Qed.

(** One client's actor changes, and the progress of its tasks. *)
Lemma process_ok_acted s s' c a' :
  process_ok s → actors s' = <[c := a']> (actors s) → is_Some (actors s !! c) →
  length (progress s') = length (progress s) →
  (∀ slot0, slots !! c = Some slot0 → ∃ turn slot, client_ok (progress s') c slot0 a' turn slot) →
  (∀ c' slot0 a turn slot, c' ≠ c → client_ok (progress s) c' slot0 a turn slot →
     client_ok (progress s') c' slot0 a turn slot) →
  (∀ i t r, tasks !! i = Some t → addressee t = Err r → progress s' !! i = progress s !! i) →
  process_ok s'.
Proof.
  intros [Hl Hd Hc Hr] Hact Hsome Hlen Hown Hothers Hsame. split.
  - congruence.
  - rewrite Hact, dom_insert_lookup_L; done.
  - intros c' slot0 a Hs Ha. rewrite Hact in Ha. destruct (decide (c' = c)) as [->|Hne].
    + rewrite lookup_insert_eq in Ha. injection Ha as <-. by apply Hown.
    + rewrite lookup_insert_ne in Ha by done. destruct (Hc c' slot0 a Hs Ha) as (turn & slot & Hcl).
      exists turn, slot. by apply Hothers.
  - intros i t r Hi Ht. rewrite (Hsame i t r Hi Ht). by eapply Hr.
Qed.
(** An actor that only goes on changes nothing else. *)
Lemma process_ok_same s w c a a' :
  process_ok s → actors s !! c = Some a → in_service a' = in_service a →
  (∀ slot, working slot (activity a) → working slot (activity a')) →
  process_ok (MkProcess w (<[c := a']> (actors s)) (progress s)).
Proof using served_clients.
  intros Hs Ha Hin Hw. destruct (actor_slots s c a Hs Ha) as [slot0 Hslot].
  eapply (process_ok_acted s _ c a'); [done..| |done|done].
  intros slot0' Hslot'. destruct (ok_clients _ Hs _ _ _ Hslot' Ha) as (turn & slot & Hcl).
  exists turn, slot. eapply client_ok_acted; [done..|]. apply Hw. by apply (ok_working Hcl).
Qed.

Lemma admit_ok s i s' : process_ok s → step s (Admit i) = Some s' → process_ok s'.
Proof.
  intros Hs Hstep. cbn in Hstep. destruct (tasks !! i) as [t|] eqn:Hti; [|done]. cbn in Hstep.
  destruct (bool_decide _) eqn:Hw; [|done]. apply bool_decide_eq_true in Hw.
  destruct (may_enter _ _ _ _); [|done]. injection Hstep as <-.
  eapply process_ok_moved; [done..| |by auto].
  intros c _. unfold handed. rewrite Hw, list_lookup_insert_eq by (by eapply lookup_lt_Some).
  naive_solver.
Qed.

Lemma refuse_ok s i s' : process_ok s → step s (Refuse i) = Some s' → process_ok s'.
Proof.
  intros Hs Hstep. cbn in Hstep. destruct (tasks !! i) as [t|] eqn:Hti; [|done]. cbn in Hstep.
  destruct (addressee t) as [c|r] eqn:Hc; [done|].
  destruct (bool_decide _); [|done]. injection Hstep as <-.
  eapply process_ok_moved; [done..| |]; rewrite Hc; [done|]. intros r' [= <-]. auto.
Qed.

Lemma enqueue_ok s i s' : process_ok s → step s (Enqueue i) = Some s' → process_ok s'.
Proof using served_clients.
  intros Hs Hstep. cbn in Hstep. destruct (tasks !! i) as [t|] eqn:Hti; [|done]. cbn in Hstep.
  destruct (addressee t) as [c|r] eqn:Hc; [|done].
  destruct (actors s !! c) as [[ch ac]|] eqn:Ha; [|done]. cbn in Hstep.
  destruct (bool_decide _ && _) eqn:Hw; [|done].
  apply andb_true_iff in Hw as [Hw%bool_decide_eq_true _]. injection Hstep as <-.
  eapply (process_ok_acted s _ c); [done|done|by eexists|cbn; apply length_insert|..]; cbn.
  - intros slot0 Hslot. destruct (ok_clients _ Hs _ _ _ Hslot Ha) as (turn & slot & Hcl).
    exists turn, slot. by eapply client_ok_enqueued.
  - intros c' slot0 a turn slot Hne Hcl. eapply client_ok_moved; [done| |by eexists].
    intros t' Ht'. left. congruence.
  - intros j t' r Hj Hr. rewrite list_lookup_insert_ne; [done|]. intros ->. congruence.
Qed.

Lemma finish_ok s c s' : process_ok s → step s (Finish c) = Some s' → process_ok s'.
Proof using served_clients.
  intros Hs Hstep. cbn in Hstep. destruct (actors s !! c) as [[ch ac]|] eqn:Ha; [|done].
  destruct ac as [slot|i [[slot [r|]]|X e k]]; [done| |done..]. cbn in Hstep. injection Hstep as <-.
  destruct (actor_slots s c _ Hs Ha) as [slot0 Hslot].
  destruct (ok_clients _ Hs _ _ _ Hslot Ha) as (turn & slot1 & Hcl).
  assert (Hi : ∃ t, tasks !! i = Some t ∧ addressee t = Ok c).
  { apply (ok_tasks Hcl). apply elem_of_app. right. left. }
  destruct Hi as (t & Hti & Hc).
  eapply (process_ok_acted s _ c); [done|done|by eexists|cbn; apply length_insert|..]; cbn.
  - intros slot0' Hslot'. assert (slot0' = slot0) as -> by congruence.
    eexists _, _. by eapply client_ok_finished.
  - intros c' slot0' a turn' slot' Hne Hcl'. eapply client_ok_moved; [done| |by eexists].
    intros t' Ht'. left. congruence.
  - intros j t' r' Hj Hr. rewrite list_lookup_insert_ne; [done|]. intros ->. congruence.
Qed.

Lemma step_ok s l s' : process_ok s → step s l = Some s' → process_ok s'.
Proof using served_clients.
  intros Hs Hstep. destruct l as [i|i|i|c|c|c];
    [by eapply admit_ok|by eapply refuse_ok|by eapply enqueue_ok| | |by eapply finish_ok]; cbn in Hstep;
    destruct (actors s !! c) as [[ch ac]|] eqn:Ha; try done; cbn in Hstep.
  - destruct ac as [slot|]; [|done]. destruct ch as [|i rest]; [done|].
    destruct (tasks !! i) as [t|] eqn:Hti; [|done]. injection Hstep as <-.
    eapply process_ok_same; [done..|]. cbn. intros slot' ->. exists t. split; [done|constructor].
  - destruct ac as [|i [|X e k]]; [done..|]. destruct (h X (world s) e) as [w x] eqn:E. injection Hstep as <-.
    eapply process_ok_same; [done..|]. cbn. intros slot' (t & Hti & Hres). exists t. split; [done|].
    replace x with (h X (world s) e).2 by (by rewrite E). by apply residual_next.
Qed.

Lemma steps_ok ls : ∀ s s', process_ok s → steps s ls = Some s' → process_ok s'.
Proof using served_clients.
  induction ls as [|l ls IH]; intros s s' Hs Hsteps; [by injection Hsteps as <-|]. cbn in Hsteps.
  destruct (step s l) as [s1|] eqn:E; [|done]. eapply IH; [|done]. by eapply step_ok.
Qed.
(** *** Something can always move *)

(** A command that did not end within the fuel of its receive loop *)
Definition ran_out (s : Process W) : Prop :=
  ∃ c a i slot, actors s !! c = Some a ∧ activity a = Serving i (Ret (slot, None)).

Lemma serving_moves s c ch i p :
  process_ok s → actors s !! c = Some (MkActor ch (Serving i p)) →
  (∃ l, is_Some (step s l)) ∨ ran_out s.
Proof.
  intros Hs Ha. destruct p as [[slot [r|]]|X e k].
  - left. exists (Finish c). cbn. by rewrite Ha.
  - right. by exists c, (MkActor ch (Serving i (Ret (slot, None)))), i, slot.
  - left. exists (Perform c). cbn. rewrite Ha. cbn. by destruct (h X (world s) e).
Qed.

Lemma channel_moves s c i rest slot :
  process_ok s → actors s !! c = Some (MkActor (i :: rest) (Resting slot)) →
  ∃ l, is_Some (step s l).
Proof using served_clients.
  intros Hs Ha. exists (Take c). cbn. rewrite Ha. cbn.
  destruct (actor_slots s c _ Hs Ha) as [slot0 Hslot].
  destruct (ok_clients _ Hs _ _ _ Hslot Ha) as (turn & slot1 & Hcl).
  assert (Hi : (∃ t, tasks !! i = Some t ∧ addressee t = Ok c) ∧ handed (progress s) i).
  { apply (ok_tasks Hcl). apply elem_of_app. right. left. }
  destruct Hi as [(t & -> & _) _]. done.
Qed.

(** A queued task is in the service of its client. *)
Lemma queued_in_service s i t :
  process_ok s → tasks !! i = Some t → progress s !! i = Some Queued →
  ∃ c a, actors s !! c = Some a ∧ in_service a ≠ [].
Proof using served_clients known.
  intros Hs Hti Hi. destruct (addressee t) as [c|r] eqn:Hc.
  2:{ destruct (ok_refused _ Hs _ _ _ Hti Hc) as [H|[H|H]]; congruence. }
  assert (Hin : c ∈ clients) by (eapply known; [by eapply list_elem_of_lookup_2|done]).
  assert (Hslots : is_Some (slots !! c)) by (apply elem_of_dom; by rewrite served_clients).
  rewrite <-(ok_actors _ Hs) in Hin. apply elem_of_dom in Hin as [a Ha]. destruct Hslots as [slot0 Hslot].
  destruct (ok_clients _ Hs _ _ _ Hslot Ha) as (turn & slot & Hcl). exists c, a. split; [done|].
  assert (Hi' : i ∈ turn.*1 ++ in_service a) by (apply (ok_tasks Hcl); split; [by exists t|by left]).
  apply elem_of_app in Hi' as [Hi'|Hi']; [|by destruct (in_service a); [apply not_elem_of_nil in Hi'|]].
  apply list_elem_of_fmap in Hi' as ([j r] & -> & Hj). apply (ok_answered Hcl) in Hj.
  cbn in Hi. congruence.
Qed.

(** Nobody is in service: no task is queued, and no permit taken by one that is. *)
Lemma admitted_moves s i :
  process_ok s → queue_capacity ≠ 0%nat → (∀ c a, actors s !! c = Some a → in_service a = []) →
  progress s !! i = Some Accepted → ∃ l, is_Some (step s l).
Proof using served_clients known.
  intros Hs Hcap Hidle Hi.
  assert (Ht : is_Some (tasks !! i)).
  { apply lookup_lt_is_Some. rewrite <-(ok_length _ Hs). by eapply lookup_lt_Some. }
  destruct Ht as [t Ht]. destruct (addressee t) as [c|r] eqn:Hc.
  - exists (Enqueue i). cbn. rewrite Ht. cbn. rewrite Hc.
    assert (Hin : c ∈ clients) by (eapply known; [by eapply list_elem_of_lookup_2|done]).
    rewrite <-(ok_actors _ Hs) in Hin. apply elem_of_dom in Hin as [a Ha]. rewrite Ha. cbn [mbind option_bind].
    specialize (Hidle c a Ha). unfold in_service in Hidle. apply app_nil in Hidle as [_ Hch].
    rewrite bool_decide_true by done. rewrite Hch. cbn. by destruct queue_capacity.
  - exists (Refuse i). cbn. rewrite Ht. cbn. rewrite Hc, bool_decide_true by done. done.
Qed.

Lemma waiting_moves s i :
  process_ok s → internal_parallelism ≠ 0%nat →
  (∀ j, progress s !! j ≠ Some Accepted ∧ progress s !! j ≠ Some Queued) →
  progress s !! i = Some Waiting → ∃ l, is_Some (step s l).
Proof.
  intros Hs Hpar Hnone Hi.
  assert (Ht : is_Some (tasks !! i)).
  { apply lookup_lt_is_Some. rewrite <-(ok_length _ Hs). by eapply lookup_lt_Some. }
  destruct Ht as [t Ht]. exists (Admit i). cbn. rewrite Ht. cbn [mbind option_bind].
  rewrite bool_decide_true by done. unfold may_enter. destruct (permit t) as [batch|]; [|done].
  assert (Hflight : in_flight tasks batch (progress s) = 0%nat).
  { unfold in_flight. rewrite filter_all_false; [done|]. apply Forall_forall.
    intros [t' p] Hp [_ Hq]. cbn in Hq.
    apply list_elem_of_lookup_1 in Hp as [j Hj]. apply lookup_zip_Some in Hj as [_ Hj].
    destruct (Hnone j). by destruct Hq as [-> | ->]. }
  rewrite Hflight. cbn. by destruct internal_parallelism.
Qed.

Lemma some_step_left s :
  process_ok s → internal_parallelism ≠ 0%nat → queue_capacity ≠ 0%nat →
  finished tasks s ∨ (∃ l, is_Some (step s l)) ∨ ran_out s.
Proof using served_clients known.
  intros Hs Hpar Hcap.
  destruct (decide (Exists (λ p : string * Actor, in_service p.2 ≠ []) (map_to_list (actors s)))) as [Hbusy|Hidle].
  { right. apply Exists_exists in Hbusy as ([c a] & Ha%elem_of_map_to_list & Hin). cbn in Hin.
    destruct a as [ch [slot|i p]]; [|by eapply serving_moves].
    destruct ch as [|i rest]; [done|]. left. by eapply channel_moves. }
  assert (Hno : ∀ c a, actors s !! c = Some a → in_service a = []).
  { intros c a Ha. destruct (decide (in_service a = [])) as [|Hne]; [done|]. destruct Hidle.
    apply Exists_exists. exists (c, a). split; [by apply elem_of_map_to_list|done]. }
  destruct (decide (Accepted ∈ progress s)) as [[i Hi]%list_elem_of_lookup_1|Hnoadm].
  { right; left. by eapply admitted_moves. }
  assert (Hnone : ∀ j, progress s !! j ≠ Some Accepted ∧ progress s !! j ≠ Some Queued).
  { intros j. split; intros Hj; [by apply Hnoadm; eapply list_elem_of_lookup_2|].
    assert (Ht : is_Some (tasks !! j)).
    { apply lookup_lt_is_Some. rewrite <-(ok_length _ Hs). by eapply lookup_lt_Some. }
    destruct Ht as [t Ht]. destruct (queued_in_service s j t Hs Ht Hj) as (c & a & Ha & Hin).
    by apply Hin, (Hno c). }
  destruct (decide (Waiting ∈ progress s)) as [[i Hi]%list_elem_of_lookup_1|Hnowait].
  { right; left. by eapply waiting_moves. }
  left. intros i Hi. rewrite <-(ok_length _ Hs) in Hi. apply lookup_lt_is_Some in Hi as [p Hp].
  unfold answer. rewrite Hp. destruct p; [|by destruct (Hnone i)..|done].
  destruct Hnowait. by eapply list_elem_of_lookup_2.
Qed.
(** Without permits a batch waits forever. *)
Lemma step_waiting s l s' i t batch :
  internal_parallelism = 0%nat → tasks !! i = Some t → permit t = Some batch →
  process_ok s → progress s !! i = Some Waiting → step s l = Some s' → progress s' !! i = Some Waiting.
Proof using served_clients.
  intros Hpar Ht Hb Hs Hi Hstep. destruct l as [j|j|j|c|c|c]; cbn in Hstep.
  - destruct (decide (j = i)) as [->|Hne].
    + rewrite Ht in Hstep. cbn [mbind option_bind] in Hstep. unfold may_enter in Hstep.
      rewrite Hb, Hpar, andb_comm in Hstep. done.
    + destruct (tasks !! j); [|done]. cbn in Hstep. destruct (_ && _); [|done].
      injection Hstep as <-. cbn. by rewrite list_lookup_insert_ne.
  - destruct (tasks !! j) as [tj|]; [|done]. cbn in Hstep. destruct (addressee tj); [done|].
    destruct (bool_decide _) eqn:E; [|done]. apply bool_decide_eq_true in E. injection Hstep as <-.
    cbn. rewrite list_lookup_insert_ne; [done|]. intros ->. congruence.
  - destruct (tasks !! j) as [tj|]; [|done]. cbn in Hstep. destruct (addressee tj) as [c|]; [|done].
    destruct (actors s !! c) as [a|]; [|done]. cbn in Hstep. destruct (bool_decide _ && _) eqn:E; [|done].
    apply andb_true_iff in E as [E%bool_decide_eq_true _]. injection Hstep as <-.
    cbn. rewrite list_lookup_insert_ne; [done|]. intros ->. congruence.
  - destruct (actors s !! c) as [[ch [slot|]]|]; [|done..]. cbn in Hstep. destruct ch as [|j ch]; [done|].
    destruct (tasks !! j); [|done]. by injection Hstep as <-.
  - destruct (actors s !! c) as [[ch [slot|j [|X e k]]]|]; [done..| |done]. cbn in Hstep.
    destruct (h X (world s) e). by injection Hstep as <-.
  - destruct (actors s !! c) as [[ch [slot|j [[slot [r|]]|]]]|] eqn:Ha; [done| |done..]. cbn in Hstep.
    injection Hstep as <-. destruct (actor_slots s c _ Hs Ha) as [slot0 Hslot].
    destruct (ok_clients _ Hs _ _ _ Hslot Ha) as (turn & slot1 & Hcl).
    assert (Hj : progress s !! j = Some Queued) by (apply (ok_queued Hcl); left).
    cbn. rewrite list_lookup_insert_ne; [done|]. intros ->. congruence.
Qed.

Lemma no_permits i t batch ls : ∀ s s',
  internal_parallelism = 0%nat → tasks !! i = Some t → permit t = Some batch →
  process_ok s → progress s !! i = Some Waiting → steps s ls = Some s' → progress s' !! i = Some Waiting.
Proof using served_clients.
  induction ls as [|l ls IH]; intros s s' Hpar Ht Hb Hs Hi Hsteps; [by injection Hsteps as <-|].
  cbn in Hsteps. destruct (step s l) as [s1|] eqn:E; [|done].
  eapply (IH s1); [done..| | |done]; [by eapply step_ok|by eapply step_waiting].
Qed.
End turns.
Arguments ok_tasks {_ _ _ _ _ _ _ _ _ _ _ _ _ _ _} _.
Arguments ok_queued {_ _ _ _ _ _ _ _ _ _ _ _ _ _ _} _.
Arguments ok_working {_ _ _ _ _ _ _ _ _ _ _ _ _ _ _} _.
Arguments ok_answered {_ _ _ _ _ _ _ _ _ _ _ _ _ _ _} _.
Arguments ok_distinct {_ _ _ _ _ _ _ _ _ _ _ _ _ _ _} _.
Arguments ok_actors {_ _ _ _ _ _ _ _ _ _ _ _} _.
Arguments ok_clients {_ _ _ _ _ _ _ _ _ _ _ _} _.
Arguments ok_refused {_ _ _ _ _ _ _ _ _ _ _ _} _.

(** ** The requests of a process *)

Definition all_tasks (clients : gset string) (requests : list HttpRequest) : list Task :=
  concat (imap (tasks_of clients) requests).

Lemma tasks_known clients requests t c :
  t ∈ all_tasks clients requests → addressee t = Ok c → c ∈ clients.
Proof.
  intros Ht Hc.
  assert (Hfind : ∀ i, find_client clients i = Ok c → c ∈ clients).
  { unfold find_client. intros i. by case_bool_decide; intros [= <-]. }
  apply list_elem_of_In, in_concat in Ht as (l & Hl & Ht). apply list_elem_of_In in Hl, Ht.
  apply elem_of_lookup_imap_1 in Hl as (n & r & -> & _).
  destruct r as [r|client_id r|items]; cbn in Ht.
  - apply list_elem_of_singleton in Ht as ->. unfold run_command in Hc.
    destruct (into_parts r) as [[? ?] ?]. cbn in Hc.
    destruct (elements clients) as [|c1 [|c2 rest]] eqn:E; [done| |done]. injection Hc as <-.
    apply elem_of_elements. rewrite E. left.
  - apply list_elem_of_singleton in Ht as ->. unfold run_command_for_client in Hc.
    destruct (into_parts r) as [[? ?] ?]. exact (Hfind _ Hc).
  - apply list_elem_of_fmap in Ht as (item & -> & _). exact (Hfind _ Hc).
Qed.

(** A batch is answered with a result for every item. *)
Lemma batch_complete items answers :
  length answers = length items → complete items (Decoded (batch_results items answers)).
Proof.
  intros Hlen c Hc.
  assert (E : res_client_id <$> batch_results items answers = client_id <$> items).
  { clear c Hc. unfold batch_results. revert answers Hlen.
    induction items as [|i items IH]; intros [|a answers] [=]; [done|]. cbn. f_equal. by apply IH. }
  rewrite E. by apply list_elem_of_fmap_2.
Qed.

(** The client's actor when all is done *)
Lemma client_finished {lib : MlsLibrary} {extern : Externals} {W} (h : ∀ X, W → Effect X → W * X)
    fuel ds_url relay_url tasks measured (s : Process W) c slot0 a turn slot :
  finished tasks s →
  client_ok h fuel ds_url relay_url tasks measured (progress s) c slot0 a turn slot →
  a = MkActor [] (Resting slot)
  ∧ ∀ i r, (i, r) ∈ turn ↔ (∃ t, tasks !! i = Some t ∧ addressee t = Ok c) ∧ answer s i = Some r.
Proof.
  intros Hfin Hcl. assert (Hidle : in_service a = []).
  { destruct (in_service a) as [|i rest] eqn:E; [done|].
    assert (Hin : i ∈ in_service a) by (rewrite E; left).
    assert (Hi : i ∈ turn.*1 ++ in_service a) by (apply elem_of_app; by right).
    apply (ok_tasks Hcl) in Hi as [(t & Ht & _) _].
    apply (ok_queued Hcl) in Hin.
    destruct (Hfin i) as [r Hr]; [by eapply lookup_lt_Some|]. unfold answer in Hr. by rewrite Hin in Hr. }
  split.
  - destruct a as [ch [slot'|i p]]; [|done]. cbn in Hidle. subst ch.
    by rewrite (ok_working Hcl : slot' = slot).
  - intros i r. split.
    + intros Hi. assert (Hin : i ∈ turn.*1 ++ in_service a).
      { apply elem_of_app. left. by apply (list_elem_of_fmap_2 fst _ (i, r)). }
      apply (ok_tasks Hcl) in Hin as [Ht _]. split; [done|].
      unfold answer. by rewrite (ok_answered Hcl i r Hi).
    + intros [Ht Hr]. unfold answer in Hr. destruct (progress s !! i) as [[]|] eqn:Hp; try done.
      injection Hr as ->. assert (Hin : i ∈ turn.*1 ++ in_service a).
      { apply (ok_tasks Hcl). split; [done|]. right. by exists r. }
      rewrite Hidle, app_nil_r in Hin. apply list_elem_of_fmap in Hin as ([j r'] & -> & Hj). cbn in *.
      apply (ok_answered Hcl) in Hj as Hp'. rewrite Hp in Hp'.
      by injection Hp' as ->.
Qed.

(** C28: A worker process serves its clients side by side, and each client in turn.  In any
    order of steps, when all requests are answered, every client executed the commands
    addressed to it one after the other, each once, from the slot it had to the slot it
    has, and their answers are the responses of these executions; a command for a client
    the process does not have is answered with an error.  And a run does not get stuck
    before: some step is possible unless a command ran out of the fuel of its receive
    loop, given that a batch has a permit and a channel has room for a command. *)
Theorem clients_take_turns {lib : MlsLibrary} {extern : Externals} {W} (h : ∀ X, W → Effect X → W * X)
    (fuel : nat) (ds_url relay_url : string) (internal_parallelism queue_capacity : nat)
    (requests : list HttpRequest) (measured : nat → option string * option string)
    (slots : gmap string ClientSlot) (w : W) (ls : list label) (s : Process W) :
  let tasks := all_tasks (dom slots) requests in
  acts h fuel ds_url relay_url internal_parallelism queue_capacity tasks measured
    (started tasks w slots) ls = Some s →
  (finished tasks s →
   (∀ c slot0, slots !! c = Some slot0 → ∃ turn slot,
      turns h fuel ds_url relay_url tasks measured slot0 turn slot
      ∧ actors s !! c = Some (MkActor [] (Resting slot)) ∧ NoDup turn.*1
      ∧ ∀ i r, (i, r) ∈ turn ↔
          (∃ t, tasks !! i = Some t ∧ addressee t = Ok c) ∧ answer s i = Some r)
   ∧ ∀ i t r, tasks !! i = Some t → addressee t = Err r → answer s i = Some r)
  ∧ (internal_parallelism ≠ 0%nat → queue_capacity ≠ 0%nat →
     finished tasks s ∨ ran_out s
     ∨ ∃ l, is_Some (act h fuel ds_url relay_url internal_parallelism queue_capacity tasks measured s l)).
Proof.
  intros tasks Hrun.
  assert (Hs : process_ok h fuel ds_url relay_url tasks measured (dom slots) slots s).
  { by eapply steps_ok, Hrun; [|apply started_ok]. }
  split.
  - intros Hfin. split.
    + intros c slot0 Hslot. assert (Ha : is_Some (actors s !! c)).
      { apply elem_of_dom. rewrite (ok_actors Hs). by apply elem_of_dom. }
      destruct Ha as [a Ha].
      destruct (ok_clients Hs c slot0 a Hslot Ha) as (turn & slot & Hcl).
      destruct (client_finished _ _ _ _ _ _ _ _ _ _ _ _ Hfin Hcl) as [-> Hturn].
      exists turn, slot. split_and!; [by apply Hcl|done| |done].
      exact (proj1 (proj1 (NoDup_app _ _) (ok_distinct Hcl))).
    + intros i t r Ht Hr. destruct (Hfin i) as [r' Hr']; [by eapply lookup_lt_Some|].
      destruct (ok_refused Hs i t r Ht Hr) as [E|[E|E]]; unfold answer in *;
        rewrite E in Hr' |- *; done.
  - intros Hpar Hcap. destruct (some_step_left h fuel ds_url relay_url internal_parallelism queue_capacity
      tasks measured (dom slots) slots eq_refl (tasks_known _ _) s Hs Hpar Hcap) as [H|[H|H]]; auto.
Qed.

(** Alice and Bob share a process: a batch for both and for Carol, who is not there, and an
    update of Alice; the steps are tried in turn, the tasks first. *)
Definition toy_process_requests : list HttpRequest :=
  let item who rid c := MkBatchCommand who (Some rid) c None None None None None in
  [PostItems [item "alice" "1" CreateGroup; item "bob" "2" GenerateKeyPackage;
              item "carol" "3" ShowGroupState];
   PostToClient "alice" (RawCommand SelfUpdate);
   PostToOnly (RawCommand ShowGroupState)].

Definition toy_slots : gmap string ClientSlot :=
  let slot who := MkSlot (GroupAgreement.toy_worker who) (CommandCache.new 4 1000) in
  <["alice" := slot "alice"]> {["bob" := slot "bob"]}.

Definition toy_process_tasks : list Task := all_tasks (dom toy_slots) toy_process_requests.

Definition toy_act : Process Servers → label → option (Process Servers) :=
  act (reliable Client.hex_encode GroupAgreement.log_order) 5 "http://ds" "http://relay" 2 8 toy_process_tasks
    (λ _, (None, None)).

Definition toy_labels : list label :=
  (seq 0 5 ≫= λ i, [Refuse i; Enqueue i; Admit i])
  ++ (["bob"; "alice"] ≫= λ c, [Finish c; Perform c; Take c]).

Fixpoint toy_schedule (n : nat) (s : Process Servers) : list label :=
  match n with
  | O => []
  | S n =>
      match head (omap (λ l, (l,.) <$> toy_act s l) toy_labels) with
      | Some (l, s') => l :: toy_schedule n s'
      | None => []
      end
  end.

Definition toy_process_start : Process Servers :=
  started toy_process_tasks GroupAgreement.toy_start.1 toy_slots.

Definition toy_process_run : list label := toy_schedule 100 toy_process_start.

Definition toy_process_end : option (Process Servers) :=
  acts (reliable Client.hex_encode GroupAgreement.log_order) 5 "http://ds" "http://relay" 2 8 toy_process_tasks
    (λ _, (None, None)) toy_process_start toy_process_run.

(** The answers of the run *)
Definition toy_answers : list CommandResponse :=
  [CommandCache.ok_response "group created and DS group state registered";
   CommandCache.ok_response "key package uploaded for bob"; not_found "carol";
   CommandCache.ok_response "self_update commit published to group";
   CommandCache.error_response "Multi-client worker requires /client/:id/command or /batch-command"].

Lemma toy_progress : progress <$> toy_process_end = Some (Answered <$> toy_answers).
Proof. vm_compute. reflexivity. Qed.

Lemma toy_addressees : addressee <$> toy_process_tasks
  = [Ok "alice"; Ok "bob"; Err (not_found "carol"); Ok "alice";
     Err (CommandCache.error_response
            "Multi-client worker requires /client/:id/command or /batch-command")].
Proof. vm_compute. reflexivity. Qed.

Lemma clients_take_turns_witness :
  ∃ s, toy_process_end = Some s ∧ finished toy_process_tasks s
    ∧ (∃ (turn : list (nat * CommandResponse)) slot, actors s !! "alice" = Some (MkActor [] (Resting slot))
        ∧ (∀ i r, (i, r) ∈ turn → i = 0%nat ∨ i = 3%nat)
        ∧ (3%nat, CommandCache.ok_response "self_update commit published to group") ∈ turn)
    ∧ answer s 2 = Some (not_found "carol").
Proof.
  pose proof toy_progress as Hp. apply fmap_Some in Hp as (s & E & Hp). symmetry in Hp.
  assert (Hfin : finished toy_process_tasks s).
  { intros i Hi. unfold answer. rewrite Hp. rewrite <-(length_fmap addressee), toy_addressees in Hi.
    destruct i as [|[|[|[|[|i]]]]]; [by eexists..|cbn in Hi; lia]. }
  unfold toy_process_end, toy_process_start, toy_process_tasks in E.
  pose proof (clients_take_turns (reliable Client.hex_encode GroupAgreement.log_order) 5 "http://ds"
    "http://relay" 2 8 toy_process_requests (λ _, (None, None)) toy_slots GroupAgreement.toy_start.1
    toy_process_run s E) as [Hdone _].
  destruct (Hdone Hfin) as [Hclients Herrors]. clear Hdone.
  exists s. split_and!; [exact E|exact Hfin| |].
  - destruct (Hclients "alice" (MkSlot (GroupAgreement.toy_worker "alice") (CommandCache.new 4 1000)) eq_refl)
      as (turn & slot & _ & Hact & _ & Hturn).
    exists turn, slot. clear E Hclients Herrors. split_and!; [exact Hact| |].
    + intros i r [(t & Ht & Hc) _]%Hturn.
      assert (Hi : (addressee <$> toy_process_tasks) !! i = Some (Ok "alice")).
      { rewrite list_lookup_fmap, <-Hc. unfold toy_process_tasks. by rewrite Ht. }
      rewrite toy_addressees in Hi. 
      destruct i as [|[|[|[|[|i]]]]]; [by left|discriminate Hi..|by right|discriminate Hi|].
      by destruct i.
    + apply Hturn. split; [|unfold answer; by rewrite Hp].
      assert (Hi : (addressee <$> toy_process_tasks) !! 3%nat = Some (Ok "alice")) by (by rewrite toy_addressees).
      by apply list_lookup_fmap_Some_1 in Hi as (t & -> & Ht); exists t.
  - clear E Hclients. assert (Hi : (addressee <$> toy_process_tasks) !! 2%nat = Some (Err (not_found "carol")))
      by (by rewrite toy_addressees).
    apply list_lookup_fmap_Some_1 in Hi as (t & Ht & Hi). by eapply (Herrors 2%nat).
Defined.
