(* ===== verification/EvictionRaces.v ===== *)
(** * Evicting clients that never joined

    When the actor of an addition dies, the OpenMLS runner evicts the actor and the
    joiners together ([abandon_add]).  If the addition was never published the joiners
    are not in the group, and [publish_remove_members_with_epoch_race_recovery] waits for
    them to become visible: each of its attempts catches up and starts again. *)

From S2P Require Import Prelude Text Interaction HttpRetry RunnerConfig Worker RunnerCommands.
From S2P Require Import Program RunnerState Membership RunnerEvidence BenchmarkRun.
From S2P Require CommandCache Batches Plateau.
From stdpp Require Import options.

Local Open Scope N_scope.

Section strangers.
Context {ext : RunnerExternals} (dead_ids : gset string).

(** Every worker answers at once: it shows a group with some of [dead_ids] and without
    some, and it processes what is pending.  No worker was killed. *)
Definition answers_steadily (_ : unit) (X : Type) (e : RunnerEffect X) : X → unit → Prop :=
  match e in RunnerEffect X return X → unit → Prop with
  | PostCommand url r => λ o _,
      match req_command r with
      | ShowGroupState => ∃ st, shown_state o = Some st
          ∧ member_of dead_ids st ≠ [] ∧ ¬ dead_ids ⊆ list_to_set (members st)
      | ProcessPending _ _ _ _ => ∃ response, o = Decoded response ∧ response_status response = "ok"
          ∧ contains "process_pending processed;" (response_message response) = true
      | _ => True
      end
  | ReadOomEvidence => λ lines _, lines = []
  | _ => λ _ _, True
  end.

Definition lost_race : RunnerError :=
  bail "remove_members for OOM eviction kept losing the epoch race after 3 attempts".

Lemma decoded_at_once later attempt delay w command context
    (Q : result RunnerError CommandResponse → Prop) :
  (∀ o, answers_steadily tt _ (PostCommand (command_url w) (MkRequest (ctx_request_id context) command context)) o tt →
     ∃ response, o = Decoded response ∧ Q (Ok response)) →
  always answers_steadily tt (send_attempts later attempt delay w command context) (λ _, Q).
Proof.
  intros H. destruct later; cbn [send_attempts]; apply always_bind, always_trigger; intros o [] Ho;
    destruct (H o Ho) as (response & -> & HQ); exact HQ.
Qed.

Lemma shown_at_once w :
  always answers_steadily tt (show_group_state w) (λ _ r, ∃ st, r = Ok st
    ∧ member_of dead_ids st ≠ [] ∧ ¬ dead_ids ⊆ list_to_set (members st)).
Proof.
  unfold show_group_state, send_cmd_expect_ok_fragment. apply always_bind, always_bind.
  unfold with_metadata. apply always_bind, always_trigger. intros seq [] _. cbn [always mret prog_ret].
  apply always_bind. eapply always_mono; [|apply decoded_at_once].
  - intros [] r H. exact H.
  - intros o (st & Hs & Hst). destruct o as [| |response|]; try done. exists response. split; [done|].
    unfold shown_state in Hs. cbn. unfold expect_ok_fragment.
    destruct (String.eqb (response_status response) "ok"); [|done].
    destruct (contains "group_id=" (response_message response)); [|done]. cbn in *.
    destruct (parse_group_state_message _) as [st'|]; [|done]. injection Hs as ->. by exists st.
Qed.

Lemma caught_up_at_once actor cursor attempt :
  always answers_steadily tt (best_effort_process_pending_commits_after_epoch_race actor cursor attempt)
    (λ _ r, is_Some r).
Proof.
  unfold best_effort_process_pending_commits_after_epoch_race. apply always_bind.
  unfold with_metadata. apply always_bind, always_trigger. intros seq [] _. cbn [always mret prog_ret].
  apply always_bind, always_bind. eapply always_mono; [|apply decoded_at_once].
  - intros [] r H. exact H.
  - intros o (response & -> & Hok & Hc). exists response. split; [done|]. cbn. unfold expect_ok_fragment.
    rewrite Hok, Hc. by eexists.
Qed.

Lemma publish_loses actor cursor attempts : ∀ attempt,
  always answers_steadily tt (publish_remove_attempts attempts attempt actor dead_ids cursor)
    (λ _ r, r = Err lost_race).
Proof.
  induction attempts as [|attempts IH]; intros attempt; [done|]. cbn [publish_remove_attempts].
  apply always_bind. eapply always_mono; [|apply shown_at_once].
  intros [] r (st & -> & _ & Hst). cbv zeta. rewrite bool_decide_false by done.
  apply always_bind. eapply always_mono; [|apply caught_up_at_once].
  intros [] caught_up [m ->]. apply IH.
Qed.

Lemma no_evidence worker later :
  always answers_steadily tt (find_evidence later worker) (λ _ r, r = None).
Proof.
  induction later as [|later IH]; cbn [find_evidence]; apply always_bind, always_trigger;
    intros lines [] ->; cbn; [done|]. intros _ []. intros _. exact IH.
Qed.
End strangers.


(** Alice died while she was adding Dave; Bob and Carol are well. *)
#[local] Existing Instance Plateau.counter_rng.

Definition plain (n : string) : WorkerSpec :=
  MkWorkerSpec n ("http://" +:+ n) ("http://" +:+ n +:+ "/command") ("http://" +:+ n +:+ "/health") n
    Singleton false "".

Definition abandoned : Runner N :=
  set_active [plain "alice"; plain "bob"; plain "carol"] (set_idle [] example_runner).

Definition three_members : RunnerExternals :=
  {| parse_json_strings _ := Ok ["alice"; "bob"; "carol"]; parse_int_complaint _ := "";
     http_status_text _ := ""; process_id := 1 |}.

Definition well_world (X : Type) (_ : unit) (e : RunnerEffect X) : unit * X :=
  match e in RunnerEffect X return unit * X with
  | PostCommand _ r =>
      (tt, Decoded (CommandCache.ok_response
         (match req_command r with
          | ShowGroupState => "group_id=g, epoch=4, members=[...]"
          | _ => "process_pending processed;"
          end)))
  | PostBatch _ _ => (tt, Decoded [])
  | NextRequestSeq | NowMs => (tt, 0)
  | ReadOomEvidence => (tt, [])
  | AppendEvent _ => (tt, Ok tt)
  | HashOrder n | CompletionOrder n => (tt, seq 0 n)
  | SleepMs _ => (tt, tt)
  | ThreadRange lo _ => (tt, lo)
  end.

