(* ===== verification/MlsTree.v ===== *)
(** * The index arithmetic of MLS trees

    [openmls/src/binary_tree/array_representation/treemath.rs] of the in-tree OpenMLS: a full
    binary tree as an array, leaves at even and parents at odd positions.  The loops on [u32]
    have 32 turns, one for each bit ([u32::MAX], for which [level] does not end, is no index of a
    tree); [debug_assert!] is not compiled.

    A position is also a pair of a level and the number of the node on it ([node]), in which
    the functions have their textbook definitions; [below] says which leaves are in the
    subtree of a node. *)

From S2P Require Import Prelude.
From stdpp Require Import options.

Local Open Scope N_scope.

Module treemath.

Definition MAX_TREE_SIZE : N := N.shiftl 1 30.
Definition MIN_TREE_SIZE : N := 1.

(** Shifts of the release profile: the amount is taken modulo the width. *)
Definition shl32 (x k : N) : N := wrap32 (N.shiftl x (k mod 32)).
Definition shr32 (x k : N) : N := N.shiftr x (k mod 32).

(** ** Indices *)

Abbreviation LeafNodeIndex := N (only parsing).
Abbreviation ParentNodeIndex := N (only parsing).

Definition leaf_to_tree_index (i : LeafNodeIndex) : N := wrap32 (i * 2).
Definition leaf_from_tree_index (node_index : N) : LeafNodeIndex := node_index `div` 2.
Definition parent_to_tree_index (i : ParentNodeIndex) : N := wrap32 (i * 2 + 1).
Definition parent_from_tree_index (node_index : N) : ParentNodeIndex :=
  wrap32 (node_index + u32_max) `div` 2.

Inductive TreeNodeIndex :=
| Leaf (i : LeafNodeIndex)
| Parent (i : ParentNodeIndex).

#[export] Instance tree_node_index_eq_dec : EqDecision TreeNodeIndex.
Proof. solve_decision. Defined.

Definition new (index : N) : TreeNodeIndex :=
  if index mod 2 =? 0 then Leaf (leaf_from_tree_index index)
  else Parent (parent_from_tree_index index).

Definition u32 (i : TreeNodeIndex) : N :=
  match i with
  | Leaf i => leaf_to_tree_index i
  | Parent i => parent_to_tree_index i
  end.

(** ** Sizes *)

Definition log2 (x : N) : N := if x =? 0 then 0 else N.log2 x.

Abbreviation TreeSize := N (only parsing).

Definition size_new (nodes : N) : TreeSize := wrap32 (shl32 1 (log2 nodes + 1) + u32_max).
Definition leaf_count (s : TreeSize) : N := wrap32 (s `div` 2 + 1).
Definition parent_count (s : TreeSize) : N := s `div` 2.
Definition leaf_is_left (s : TreeSize) (leaf_index : LeafNodeIndex) : bool :=
  leaf_index <? leaf_count s `div` 2.
Definition inc (s : TreeSize) : TreeSize := wrap32 (s * 2 + 1).
Definition dec (s : TreeSize) : TreeSize := if 2 <=? s then (s + 1) `div` 2 - 1 else 0.

(** ** Relatives *)

(** The loop [while ((x >> k) & 1) == 1] *)
Fixpoint level_from (fuel : nat) (x k : N) : N :=
  match fuel with
  | O => k
  | S fuel => if N.land (shr32 x k) 1 =? 1 then level_from fuel x (k + 1) else k
  end.

Definition level (index : N) : N := if N.land index 1 =? 0 then 0 else level_from 32 index 0.

Definition root (s : TreeSize) : TreeNodeIndex := new (wrap32 (shl32 1 (log2 s) + u32_max)).

Definition left (i : ParentNodeIndex) : TreeNodeIndex :=
  let x := parent_to_tree_index i in
  let k := level x in
  new (N.lxor x (shl32 1 (k - 1))).

Definition right (i : ParentNodeIndex) : TreeNodeIndex :=
  let x := parent_to_tree_index i in
  let k := level x in
  new (N.lxor x (shl32 3 (k - 1))).

Definition parent (i : TreeNodeIndex) : ParentNodeIndex :=
  let x := u32 i in
  let k := level x in
  let b := N.land (shr32 x (k + 1)) 1 in
  parent_from_tree_index (N.lxor (N.lor x (shl32 1 k)) (shl32 b (k + 1))).

Definition sibling (i : TreeNodeIndex) : TreeNodeIndex :=
  let p := parent i in
  match u32 i ?= parent_to_tree_index p with
  | Lt => right p
  | Gt => left p
  | Eq => left p
  end.

(** ** Paths *)

(** The loop [while x != r]; [None] when it has not ended after [fuel] turns. *)
Fixpoint path_from (fuel : nat) (r x : N) : option (list ParentNodeIndex) :=
  if x =? r then Some []
  else
    match fuel with
    | O => None
    | S fuel =>
        let p := parent (new x) in
        let! d <- path_from fuel r (parent_to_tree_index p) in
        Some (p :: d)
    end.

Definition direct_path (node_index : LeafNodeIndex) (s : TreeSize) : option (list ParentNodeIndex) :=
  path_from 32 (u32 (root s)) (leaf_to_tree_index node_index).

Definition copath (leaf_index : LeafNodeIndex) (s : TreeSize) : option (list TreeNodeIndex) :=
  let! d <- direct_path leaf_index s in
  Some (sibling <$> (Leaf leaf_index :: (Parent <$> removelast d))).

(** The loop [while xn != yn]: what is left of both, and the number of turns *)
Fixpoint meet (fuel : nat) (xn yn k : N) : N * N :=
  match fuel with
  | O => (xn, k)
  | S fuel => if xn =? yn then (xn, k) else meet fuel (N.shiftr xn 1) (N.shiftr yn 1) (k + 1)
  end.

Definition lowest_common_ancestor (x y : LeafNodeIndex) : ParentNodeIndex :=
  let x := leaf_to_tree_index x in
  let y := leaf_to_tree_index y in
  let lx := level x + 1 in
  let ly := level y + 1 in
  if (lx <=? ly) && (shr32 x ly =? shr32 y ly) then parent_from_tree_index y
  else if (ly <=? lx) && (shr32 x lx =? shr32 y lx) then parent_from_tree_index x
  else
    let '(xn, k) := meet 32 x y 0 in
    parent_from_tree_index (wrap32 (wrap32 (shl32 xn k + shl32 1 (k - 1)) + u32_max)).

(** The loop over both paths from the root *)
Fixpoint common_prefix (x_path y_path : list ParentNodeIndex) : list ParentNodeIndex :=
  match x_path, y_path with
  | x :: x_path, y :: y_path => if x =? y then x :: common_prefix x_path y_path else []
  | _, _ => []
  end.

Definition common_direct_path (x y : LeafNodeIndex) (s : TreeSize) : option (list ParentNodeIndex) :=
  let! x_path <- direct_path x s in
  let! y_path <- direct_path y s in
  Some (reverse (common_prefix (reverse x_path) (reverse y_path))).

Definition is_node_in_tree (node_index : TreeNodeIndex) (s : TreeSize) : bool := u32 node_index <? s.
End treemath.

(** ** Levels and numbers *)

(** The [j]-th node of level [k], from the left; its index has [k] ones below the bits of [j]. *)
Definition node (k j : N) : N := N.lor (N.shiftl j (k + 1)) (N.ones k).

(** It, and its parent's index in the array of parents *)
Definition tree_node (k j : N) : treemath.TreeNodeIndex :=
  if k =? 0 then treemath.Leaf j else treemath.Parent (node (k - 1) j).

(** The leaves in the subtree of a node *)
Definition below (leaf k j : N) : Prop := leaf `div` 2 ^ k = j.

Lemma node_bits k j m :
  N.testbit (node k j) m = if m <? k then true else if m =? k then false else N.testbit j (m - k - 1).
Proof.
  unfold node. rewrite N.lor_spec.
  destruct (N.ltb_spec m k) as [Hlt|Hge].
  - rewrite N.ones_spec_low by lia. apply orb_true_r.
  - rewrite N.ones_spec_high by lia. rewrite orb_false_r.
    destruct (N.eqb_spec m k) as [->|Hne].
    + by rewrite N.shiftl_spec_low by lia.
    + rewrite N.shiftl_spec_high by lia. f_equal. lia.
Qed.

Lemma node_value k j : node k j + 1 = 2 ^ k * (2 * j + 1).
Proof.
  unfold node. assert (Hd : N.land (N.shiftl j (k + 1)) (N.ones k) = 0).
  { apply N.bits_inj. intros m. rewrite N.land_spec, N.bits_0.
    destruct (N.lt_ge_cases m k).
    - by rewrite N.shiftl_spec_low by lia.
    - rewrite N.ones_spec_high by lia. apply andb_false_r. }
  rewrite <-N.lxor_lor, <-N.add_nocarry_lxor by done.
  rewrite N.shiftl_mul_pow2, N.ones_equiv, N.pow_add_r. pose proof (N.pow_nonzero 2 k). nia.
Qed.

Lemma node_0 j : node 0 j = 2 * j.
Proof. pose proof (node_value 0 j) as H. rewrite N.pow_0_r in H. lia. Qed.

Lemma node_bound k j n : (2 * j + 1) * 2 ^ k <= n → node k j < n.
Proof. pose proof (node_value k j). lia. Qed.

(** The index is one more bit: half of it is the node's index among the parents. *)
Lemma node_S k j : node (k + 1) j = 2 * node k j + 1.
Proof.
  pose proof (node_value (k + 1) j) as H1. pose proof (node_value k j) as H2.
  rewrite N.pow_add_r in H1. nia.
Qed.

Lemma node_inj k j k' j' : node k j = node k' j' → k = k' ∧ j = j'.
Proof.
  intros H.
  assert (Hk : ∀ a b a' b', node a b = node a' b' → a < a' → False).
  { intros a b a' b' E Hlt. pose proof (node_bits a b a) as Ha. pose proof (node_bits a' b' a) as Ha'.
    rewrite E in Ha. rewrite Ha' in Ha. rewrite N.ltb_irrefl, N.eqb_refl in Ha.
    rewrite (proj2 (N.ltb_lt _ _)) in Ha by done. done. }
  assert (k = k') as <-.
  { destruct (N.lt_trichotomy k k') as [Hlt|[Heq|Hlt]]; [exfalso; by eapply Hk|done|].
    exfalso. by eapply Hk; [symmetry|]. }
  split; [done|]. pose proof (node_value k j) as H1. pose proof (node_value k j') as H2.
  rewrite H in H1. pose proof (N.pow_nonzero 2 k). nia.
Qed.

(** ** The functions on levels and numbers *)

Lemma shl32_small x k : k < 32 → x * 2 ^ k <= u32_max → treemath.shl32 x k = x * 2 ^ k.
Proof.
  intros Hk Hx. unfold treemath.shl32. rewrite N.mod_small by done.
  rewrite N.shiftl_mul_pow2. by apply wrap32_small.
Qed.

Lemma shl32_one k : k < 32 → treemath.shl32 1 k = 2 ^ k.
Proof.
  intros Hk. rewrite shl32_small; [lia|done|]. pose proof (N.pow_le_mono_r 2 k 31).
  change (2 ^ 31) with 2147483648 in *. unfold u32_max. lia.
Qed.

Lemma shr32_small x k : k < 32 → treemath.shr32 x k = N.shiftr x k.
Proof. intros Hk. unfold treemath.shr32. by rewrite N.mod_small. Qed.

Lemma land_1 x k : N.land (N.shiftr x k) 1 = N.b2n (N.testbit x k).
Proof. change 1 with (N.ones 1) at 1. by rewrite N.land_ones, N.testbit_odd, <-N.bit0_odd, N.bit0_mod. Qed.

Lemma b2n_bits (b : bool) k m : N.testbit (N.shiftl (N.b2n b) k) m = (m =? k) && b.
Proof.
  destruct (N.eqb_spec m k) as [->|Hne].
  - rewrite N.shiftl_spec_high by lia. rewrite N.sub_diag. by destruct b.
  - destruct (N.lt_ge_cases m k); [by rewrite N.shiftl_spec_low by lia|].
    rewrite N.shiftl_spec_high by lia. destruct b; [|apply N.bits_0].
    apply N.bits_above_log2. cbn. lia.
Qed.

Lemma shl32_bit (b : bool) k : k < 32 → treemath.shl32 (N.b2n b) k = N.shiftl (N.b2n b) k.
Proof.
  intros Hk. destruct b; [|by cbn; unfold treemath.shl32; rewrite !N.shiftl_0_l].
  change (N.b2n true) with 1. by rewrite shl32_one, N.shiftl_1_l.
Qed.

(** The loop stops at the first zero bit. *)
Lemma level_from_node fuel k j m :
  k < 32 → m <= k → k < m + N.of_nat fuel → treemath.level_from fuel (node k j) m = k.
Proof.
  intros Hk. revert m. induction fuel as [|fuel IH]; intros m Hm Hf; [lia|]. cbn [treemath.level_from].
  rewrite shr32_small, land_1, node_bits by lia.
  destruct (N.ltb_spec m k) as [Hlt|Hge]; cbn.
  - apply IH; lia.
  - assert (m = k) as -> by lia. by rewrite N.eqb_refl.
Qed.

Lemma level_node k j : k < 32 → treemath.level (node k j) = k.
Proof.
  intros Hk. unfold treemath.level.
  assert (E : N.land (node k j) 1 = N.b2n (0 <? k)).
  { rewrite <-(N.shiftr_0_r (node k j)), land_1, node_bits.
    destruct (N.ltb_spec 0 k); [done|]. by replace k with 0 by lia. }
  rewrite E. destruct (N.ltb_spec 0 k); cbv beta iota delta [N.b2n]; [|simpl; lia].
  apply level_from_node; lia.
Qed.

(** ** Positions and indices *)

Lemma tree_node_S k j : tree_node (k + 1) j = treemath.Parent (node k j).
Proof. unfold tree_node. rewrite (proj2 (N.eqb_neq _ _)) by lia. by rewrite N.add_sub. Qed.

Lemma node_cases (P : N → Prop) : P 0 → (∀ k, P (k + 1)) → ∀ k, P k.
Proof.
  intros H0 HS k. destruct (N.eq_dec k 0) as [->|Hk]; [done|].
  replace k with (k - 1 + 1) by lia. apply HS.
Qed.

(** Subtracting one from an index does not wrap. *)
Lemma pred32 x : 0 < x <= u32_max → wrap32 (x + u32_max) = x - 1.
Proof.
  intros Hx. unfold wrap32. replace (x + u32_max) with (x - 1 + 1 * 2 ^ 32) by (unfold u32_max in *; lia).
  rewrite N.Div0.mod_add. apply N.mod_small. unfold u32_max in *. lia.
Qed.

Lemma parent_from_index k j :
  node (k + 1) j <= u32_max → treemath.parent_from_tree_index (node (k + 1) j) = node k j.
Proof.
  rewrite node_S. intros Hj. unfold treemath.parent_from_tree_index. rewrite pred32 by lia.
  replace (2 * node k j + 1 - 1) with (node k j * 2) by lia. by apply N.div_mul.
Qed.

Lemma new_node k j : node k j <= u32_max → treemath.new (node k j) = tree_node k j.
Proof.
  unfold treemath.new. destruct k as [|k] using node_cases; intros Hj.
  - rewrite node_0. replace (2 * j) with (j * 2) by lia. rewrite N.Div0.mod_mul. cbn.
    unfold treemath.leaf_from_tree_index. by rewrite N.div_mul.
  - rewrite tree_node_S, node_S. replace (2 * node k j + 1) with (1 + node k j * 2) by lia.
    rewrite N.Div0.mod_add. change (1 mod 2 =? 0) with false. cbv iota.
    f_equal. replace (1 + node k j * 2) with (node (k + 1) j) by (rewrite node_S; lia).
    by apply parent_from_index.
Qed.

Lemma u32_node k j : node k j <= u32_max → treemath.u32 (tree_node k j) = node k j.
Proof.
  destruct k as [|k] using node_cases.
  - rewrite node_0. cbn. unfold treemath.leaf_to_tree_index. intros. rewrite wrap32_small; lia.
  - rewrite tree_node_S, node_S. cbn. unfold treemath.parent_to_tree_index.
    intros. rewrite wrap32_small; lia.
Qed.

(** [leaf_to_tree_index] and [parent_to_tree_index] on positions *)
Lemma leaf_index i : 2 * i <= u32_max → treemath.leaf_to_tree_index i = node 0 i.
Proof. intros. rewrite node_0. unfold treemath.leaf_to_tree_index. rewrite wrap32_small; lia. Qed.

Lemma parent_index k j :
  node (k + 1) j <= u32_max → treemath.parent_to_tree_index (node k j) = node (k + 1) j.
Proof. intros. rewrite node_S in *. unfold treemath.parent_to_tree_index. rewrite wrap32_small; lia. Qed.

(** ** Relatives *)

(** Reduce an equation of indices to their bits. *)
Ltac by_bits m :=
  apply N.bits_inj; intros m;
  rewrite ?N.lxor_spec, ?N.lor_spec, ?node_bits, ?b2n_bits.

Lemma bit_shift_cases (b : bool) j m :
  N.testbit (2 * j + N.b2n b) m = if m =? 0 then b else N.testbit j (m - 1).
Proof.
  destruct (N.eqb_spec m 0) as [->|Hm]; [apply N.testbit_0_r|].
  replace m with (N.succ (m - 1)) at 1 by lia. apply N.testbit_succ_r.
Qed.

Lemma halve j (b : bool) : (2 * j + N.b2n b) `div` 2 = j.
Proof. symmetry. apply (N.div_unique _ _ _ (N.b2n b)); [destruct b; cbn; lia|done]. Qed.

Lemma halves j : ∃ b : bool, j = 2 * (j `div` 2) + N.b2n b.
Proof. exists (N.testbit j 0). rewrite N.bit0_mod. apply N.div_mod. lia. Qed.

(** Every index below the largest power of two has a level below it. *)
Lemma node_level k j : node k j < 2 ^ 31 → k < 32.
Proof.
  intros Hj. pose proof (node_value k j). destruct (N.lt_ge_cases k 32); [done|].
  assert (2 ^ 32 <= 2 ^ k) by (apply N.pow_le_mono_r; lia).
  change (2 ^ 32) with 4294967296 in *. change (2 ^ 31) with 2147483648 in *. nia.
Qed.

Lemma parent_node k j :
  k < 31 → node k j <= u32_max → node (k + 1) (j `div` 2) <= u32_max →
  treemath.parent (tree_node k j) = node k (j `div` 2).
Proof.
  intros Hk Hj Hp. unfold treemath.parent. rewrite u32_node, level_node by lia.
  rewrite shr32_small, land_1, node_bits by lia.
  rewrite (proj2 (N.ltb_ge _ _)), (proj2 (N.eqb_neq _ _)) by lia.
  replace (k + 1 - k - 1) with 0 by lia.
  change 1 with (N.b2n true) at 1. rewrite !shl32_bit by lia.
  rewrite <-(parent_from_index k (j `div` 2)) by done. f_equal.
  destruct (halves j) as [b Hb]. set (q := j `div` 2) in *. clearbody q. subst j.
  by_bits m. rewrite !bit_shift_cases, N.eqb_refl, andb_true_r.
  destruct (N.ltb_spec m k), (N.eqb_spec m k), (N.ltb_spec m (k + 1)), (N.eqb_spec m (k + 1));
    try lia; cbn; try done.
  - subst m. replace (k + 1 - k - 1) with 0 by lia. cbn. by destruct b.
  - rewrite (proj2 (N.eqb_neq _ _)) by lia. rewrite orb_false_r, xorb_false_r. f_equal. lia.
Qed.

Lemma child_bits k j (b : bool) m :
  xorb (N.testbit (node (k + 1) j) m) (xorb (m =? k) (b && (m =? k + 1)))
  = N.testbit (node k (2 * j + N.b2n b)) m.
Proof.
  rewrite !node_bits, bit_shift_cases.
  destruct (N.ltb_spec m k), (N.eqb_spec m k), (N.ltb_spec m (k + 1)), (N.eqb_spec m (k + 1));
    try lia; cbn; rewrite ?andb_false_r, ?andb_true_r; try done.
  - subst m. replace (k + 1 - k - 1) with 0 by lia. by destruct b.
  - rewrite (proj2 (N.eqb_neq _ _)) by lia. rewrite xorb_false_r. f_equal. lia.
Qed.

(** The indices of a whole subtree fit. *)
Definition fits (k j : N) : Prop := (j + 1) * 2 ^ (k + 1) <= 2 ^ 32.

Lemma fits_index k j : fits k j → node k j <= u32_max.
Proof.
  unfold fits, u32_max. change (2 ^ 32) with 4294967296. rewrite N.pow_add_r.
  pose proof (node_value k j). lia.
Qed.

Lemma fits_child k j (b : bool) : fits (k + 1) j → fits k (2 * j + N.b2n b).
Proof.
  unfold fits. rewrite (N.pow_add_r 2 (k + 1)). assert (N.b2n b <= 1) by (destruct b; cbn; lia). nia.
Qed.

Lemma left_node k j :
  k < 31 → fits (k + 1) j → treemath.left (node k j) = tree_node k (2 * j).
Proof.
  intros Hk Hj. unfold treemath.left. rewrite parent_index, level_node by (apply fits_index in Hj; lia).
  rewrite N.add_sub. change 1 with (N.b2n true) at 2. rewrite shl32_bit by lia.
  replace (2 * j) with (2 * j + N.b2n false) by apply N.add_0_r.
  rewrite <-new_node by by apply fits_index, fits_child. f_equal.
  apply N.bits_inj. intros m. rewrite N.lxor_spec, b2n_bits, <-child_bits.
  by rewrite andb_true_r, andb_false_l, xorb_false_r.
Qed.

Lemma shl32_three k : k < 31 →
  treemath.shl32 3 k = N.lxor (N.shiftl (N.b2n true) k) (N.shiftl (N.b2n true) (k + 1)).
Proof.
  intros Hk. assert (2 ^ k <= 2 ^ 30) by (apply N.pow_le_mono_r; lia).
  rewrite shl32_small; [|lia|unfold u32_max; change (2 ^ 30) with 1073741824 in *; lia].
  replace (k + 1) with (1 + k) by lia. rewrite <-N.shiftl_shiftl, <-N.shiftl_lxor.
  by rewrite N.shiftl_mul_pow2.
Qed.

Lemma right_node k j :
  k < 31 → fits (k + 1) j → treemath.right (node k j) = tree_node k (2 * j + 1).
Proof.
  intros Hk Hj. unfold treemath.right. rewrite parent_index, level_node by (apply fits_index in Hj; lia).
  rewrite N.add_sub, shl32_three by lia. change (2 * j + 1) with (2 * j + N.b2n true).
  rewrite <-new_node by by apply fits_index, fits_child. f_equal.
  apply N.bits_inj. intros m. rewrite !N.lxor_spec, !b2n_bits, <-child_bits.
  by rewrite !andb_true_r.
Qed.

Lemma sibling_node k j (b : bool) :
  k < 31 → fits (k + 1) j →
  treemath.sibling (tree_node k (2 * j + N.b2n b)) = tree_node k (2 * j + N.b2n (negb b)).
Proof.
  intros Hk Hj. pose proof (fits_index _ _ (fits_child _ _ b Hj)) as Hc.
  pose proof (fits_index _ _ Hj) as Hp. unfold treemath.sibling.
  rewrite parent_node, halve, u32_node, parent_index by (rewrite ?halve; lia).
  pose proof (node_value k (2 * j + N.b2n b)) as H1. pose proof (node_value (k + 1) j) as H2.
  assert (2 ^ k ≠ 0) by (apply N.pow_nonzero; lia). rewrite N.pow_add_r, N.pow_1_r in H2.
  destruct b; cbn [N.b2n negb] in *.
  - rewrite (proj2 (N.compare_gt_iff _ _)) by nia. rewrite left_node by done. by rewrite N.add_0_r.
  - rewrite (proj2 (N.compare_lt_iff _ _)) by nia. by apply right_node.
Qed.

(** ** Full trees *)

(** The size of the full tree with [2 ^ n] leaves, and its root *)
Definition full (n : N) : treemath.TreeSize := node (n + 1) 0.

Lemma node_ones k : node k 0 + 1 = 2 ^ k.
Proof. rewrite node_value. lia. Qed.

Lemma pow_bound n k : n <= k → 2 ^ n <= 2 ^ k.
Proof. intros. apply N.pow_le_mono_r; lia. Qed.

(** Positions inside the tree *)
Lemma fits_in_tree n k j : n <= 30 → k <= n → j < 2 ^ (n - k) → fits k j.
Proof.
  intros Hn Hk Hj. unfold fits. transitivity (2 ^ (n - k) * 2 ^ (k + 1)).
  - apply N.mul_le_mono_r. lia.
  - rewrite <-N.pow_add_r. apply pow_bound. lia.
Qed.

Lemma root_full n : n <= 30 → treemath.root (full n) = tree_node n 0.
Proof.
  intros Hn. unfold treemath.root, full, treemath.log2.
  pose proof (node_ones (n + 1)) as H1. pose proof (node_ones n). rewrite N.pow_add_r in H1.
  pose proof (N.pow_nonzero 2 n). pose proof (pow_bound n 30 Hn). change (2 ^ 30) with 1073741824 in *.
  rewrite (proj2 (N.eqb_neq _ _)) by lia.
  assert (N.log2 (node (n + 1) 0) = n) as ->.
  { apply N.log2_unique; [lia|]. rewrite N.pow_succ_r by lia. lia. }
  rewrite shl32_one by lia. rewrite pred32 by (unfold u32_max; lia).
  rewrite <-new_node by (unfold u32_max; lia). f_equal. lia.
Qed.

(** ** Paths *)

(** The parents above a position, from the bottom up *)
Fixpoint ancestors (d : nat) (k j : N) : list treemath.ParentNodeIndex :=
  match d with
  | O => []
  | S d => node k (j `div` 2) :: ancestors d (k + 1) (j `div` 2)
  end.

Lemma ancestors_length d k j : length (ancestors d k j) = d.
Proof. revert k j. induction d as [|d IH]; intros k j; [done|]. cbn [ancestors length]. by rewrite IH. Qed.

Lemma div2_pow j i : (j `div` 2) `div` 2 ^ i = j `div` 2 ^ (i + 1).
Proof. rewrite N.Div0.div_div, N.pow_add_r, N.pow_1_r. f_equal. lia. Qed.

Lemma ancestors_lookup d k j i : (i < d)%nat →
  ancestors d k j !! i = Some (node (k + N.of_nat i) (j `div` 2 ^ (N.of_nat i + 1))).
Proof.
  revert k j i. induction d as [|d IH]; intros k j i Hi; [lia|]. cbn [ancestors].
  destruct i as [|i]; cbn [lookup list_lookup].
  - by rewrite N.add_0_r.
  - rewrite IH by lia. rewrite div2_pow. do 2 f_equal; [lia|]. do 2 f_equal. lia.
Qed.

Lemma ancestors_app d d' k j :
  ancestors (d + d') k j = ancestors d k j ++ ancestors d' (k + N.of_nat d) (j `div` 2 ^ N.of_nat d).
Proof.
  revert k j. induction d as [|d IH]; intros k j.
  - cbn. by rewrite N.add_0_r, N.div_1_r.
  - cbn [ancestors app Nat.add]. rewrite IH, div2_pow. do 3 f_equal; [lia|]. do 2 f_equal. lia.
Qed.

Lemma ancestors_half d k j j' : j `div` 2 = j' `div` 2 → ancestors d k j = ancestors d k j'.
Proof. intros H. destruct d; cbn [ancestors]; [done|by rewrite H]. Qed.

Lemma path_from_node fuel d n k j :
  n <= 30 → n = k + N.of_nat d → j < 2 ^ N.of_nat d → (d <= fuel)%nat →
  treemath.path_from fuel (node n 0) (node k j) = Some (ancestors d k j).
Proof.
  intros Hn. revert k j fuel. induction d as [|d IH]; intros k j fuel Hk Hj Hf.
  - assert (j = 0) as -> by (change (2 ^ N.of_nat 0) with 1 in Hj; lia).
    replace k with n by lia. destruct fuel; cbn [treemath.path_from]; by rewrite N.eqb_refl.
  - destruct fuel as [|fuel]; [lia|]. cbn [treemath.path_from].
    destruct (N.eqb_spec (node k j) (node n 0)) as [E|_]; [apply node_inj in E; lia|].
    assert (Hp : j `div` 2 < 2 ^ N.of_nat d).
    { apply N.Div0.div_lt_upper_bound. rewrite <-N.pow_succ_r by lia. by rewrite <-Nat2N.inj_succ. }
    assert (Hf1 : fits k j) by (apply (fits_in_tree n); [lia..|];
      by replace (n - k) with (N.of_nat (S d)) by lia).
    assert (Hf2 : fits (k + 1) (j `div` 2)).
    { apply (fits_in_tree n); [lia..|]. by replace (n - (k + 1)) with (N.of_nat d) by lia. }
    apply fits_index in Hf1, Hf2.
    rewrite new_node, parent_node, parent_index by lia.
    by rewrite IH by lia.
Qed.

Lemma direct_path_full n i : n <= 30 → i < 2 ^ n →
  treemath.direct_path i (full n) = Some (ancestors (N.to_nat n) 0 i).
Proof.
  intros Hn Hi. unfold treemath.direct_path. rewrite root_full by done.
  rewrite u32_node by (apply fits_index, (fits_in_tree n); [lia..|]; by rewrite N.sub_diag).
  pose proof (pow_bound n 30 Hn). change (2 ^ 30) with 1073741824 in *.
  rewrite leaf_index by (unfold u32_max; lia).
  apply path_from_node; [done|lia| |lia]. by rewrite N2Nat.id.
Qed.

(** ** Where two leaves part *)

(** The level under which the paths of two leaves are apart, and from which they are one *)
Definition parts_at (x y k : N) : Prop :=
  x `div` 2 ^ k ≠ y `div` 2 ^ k ∧ x `div` 2 ^ (k + 1) = y `div` 2 ^ (k + 1).

Lemma same_above x y k k' : k <= k' → x `div` 2 ^ k = y `div` 2 ^ k → x `div` 2 ^ k' = y `div` 2 ^ k'.
Proof.
  intros Hk E. replace k' with (k + (k' - k)) by lia.
  by rewrite N.pow_add_r, <-!N.Div0.div_div, E.
Qed.

Lemma parts_at_exists n x y : x < 2 ^ n → y < 2 ^ n → x ≠ y → ∃ k, k < n ∧ parts_at x y k.
Proof.
  intros Hx Hy Hne. assert (Hn : x `div` 2 ^ n = y `div` 2 ^ n) by by rewrite !N.div_small.
  clear Hx Hy. induction n as [|n IH] using N.peano_ind; [by rewrite !N.div_1_r in Hn|].
  destruct (N.eq_dec (x `div` 2 ^ n) (y `div` 2 ^ n)) as [E|E].
  - destruct (IH E) as (k & Hk & H). exists k. split; [lia|done].
  - exists n. split; [lia|]. split; [done|]. by rewrite N.add_1_r.
Qed.

Lemma parts_at_unique x y k k' : parts_at x y k → parts_at x y k' → k = k'.
Proof.
  intros [H1 H2] [H1' H2']. destruct (N.lt_trichotomy k k') as [H|[H|H]]; [|done|].
  - destruct H1'. apply (same_above _ _ (k + 1)); [lia|done].
  - destruct H1. apply (same_above _ _ (k' + 1)); [lia|done].
Qed.

(** The other child of one's parent *)
Definition sib (j : N) : N := N.lxor j 1.

Lemma sib_halves j (b : bool) : sib (2 * j + N.b2n b) = 2 * j + N.b2n (negb b).
Proof.
  apply N.bits_inj. intros m. unfold sib. change 1 with (N.shiftl (N.b2n true) 0).
  rewrite N.lxor_spec, b2n_bits, !bit_shift_cases. by destruct (m =? 0), b; rewrite ?xorb_false_r.
Qed.

Lemma sib_spec a b : (a ≠ b ∧ a `div` 2 = b `div` 2) ↔ a = sib b.
Proof.
  destruct (halves a) as [u Hu], (halves b) as [v Hv].
  set (p := a `div` 2) in *. set (q := b `div` 2) in *. clearbody p q. subst a b. rewrite sib_halves.
  assert (N.b2n u <= 1 ∧ N.b2n (negb v) <= 1) by (destruct u, v; cbn; lia).
  split.
  - intros [Hne ->]. destruct u, v; done.
  - intros E. assert (p = q) as -> by lia. split; [|done].
    assert (N.b2n u = N.b2n (negb v)) as -> by lia. destruct v; cbn; lia.
Qed.

Lemma parts_at_sib x y k : parts_at x y k ↔ x `div` 2 ^ k = sib (y `div` 2 ^ k).
Proof. unfold parts_at. by rewrite <-sib_spec, !N.Div0.div_div, N.pow_add_r. Qed.

Lemma sibling_spec n k j : n <= 30 → k < n → j < 2 ^ (n - k) →
  treemath.sibling (tree_node k j) = tree_node k (sib j).
Proof.
  intros Hn Hk Hj. destruct (halves j) as [b Hb]. rewrite Hb at 1 2. rewrite sib_halves.
  apply sibling_node; [lia|]. apply (fits_in_tree n); [done|lia|].
  apply N.Div0.div_lt_upper_bound. rewrite <-N.pow_succ_r by lia.
  by replace (N.succ (n - (k + 1))) with (n - k) by lia.
Qed.

Lemma tree_node_inj k j k' j' : tree_node k j = tree_node k' j' → k = k' ∧ j = j'.
Proof.
  destruct k as [|k] using node_cases; destruct k' as [|k'] using node_cases; rewrite ?tree_node_S; intros E.
  - by injection E.
  - done.
  - done.
  - injection E as E. apply node_inj in E. intuition lia.
Qed.

Lemma copath_nodes n i : 1 <= n <= 30 → i < 2 ^ n →
  ∃ path, treemath.copath i (full n) = Some path ∧ length path = N.to_nat n ∧
    ∀ k, k < n → path !! N.to_nat k = Some (tree_node k (sib (i `div` 2 ^ k))).
Proof.
  intros Hn Hi. unfold treemath.copath. rewrite direct_path_full by lia. eexists. split; [done|].
  replace (N.to_nat n) with (N.to_nat (n - 1) + 1)%nat by lia.
  rewrite ancestors_app. cbn [ancestors]. rewrite removelast_last.
  split; [cbn; rewrite !length_fmap, ancestors_length; lia|]. intros k Hk.
  assert (Hs : treemath.sibling (tree_node k (i `div` 2 ^ k)) = tree_node k (sib (i `div` 2 ^ k))).
  { apply (sibling_spec n); [lia|done|]. apply N.Div0.div_lt_upper_bound.
    rewrite <-N.pow_add_r. by replace (k + (n - k)) with n by lia. }
  rewrite list_lookup_fmap, <-Hs. enough (E : (treemath.Leaf i ::
    (treemath.Parent <$> ancestors (N.to_nat (n - 1)) 0 i)) !! N.to_nat k = Some (tree_node k (i `div` 2 ^ k)))
    by by rewrite E.
  clear Hs. destruct k as [|k] using node_cases; [by rewrite N.div_1_r|].
  replace (N.to_nat (k + 1)) with (S (N.to_nat k)) by lia. change ((?x :: ?l) !! S ?m) with (l !! m).
  rewrite list_lookup_fmap, ancestors_lookup by lia. rewrite N2Nat.id, tree_node_S. done.
Qed.

(** A node of the tree covers the leaves of its subtree. *)
Definition covers (x : treemath.TreeNodeIndex) (leaf : N) : Prop :=
  ∃ k j, x = tree_node k j ∧ below leaf k j.

Lemma covers_node k j leaf : covers (tree_node k j) leaf ↔ below leaf k j.
Proof.
  split; [|by exists k, j]. intros (k' & j' & E & H). by apply tree_node_inj in E as [<- <-].
Qed.

(** in the tree of [2 ^ n] leaves, the copath of a leaf splits the others: every other leaf is
    in the subtree of exactly one of its nodes, and the leaf itself in none. *)
Theorem copath_splits_others n i : 1 <= n <= 30 → i < 2 ^ n →
  ∃ path, treemath.copath i (full n) = Some path ∧ length path = N.to_nat n ∧
    ∀ leaf, leaf < 2 ^ n →
      (leaf ≠ i ↔ ∃ x, x ∈ path ∧ covers x leaf) ∧
      (∀ x y, x ∈ path → y ∈ path → covers x leaf → covers y leaf → x = y).
Proof.
  intros Hn Hi. destruct (copath_nodes n i Hn Hi) as (path & Hp & Hlen & Hk). exists path.
  split; [done|]. split; [done|]. intros leaf Hl.
  assert (Hin : ∀ x, x ∈ path → covers x leaf →
    ∃ k, k < n ∧ x = tree_node k (sib (i `div` 2 ^ k)) ∧ parts_at leaf i k).
  { intros x [m Hm]%list_elem_of_lookup Hc.
    assert (Hlt : (m < N.to_nat n)%nat) by (rewrite <-Hlen; by eapply lookup_lt_Some).
    specialize (Hk (N.of_nat m) ltac:(lia)). rewrite Nat2N.id, Hm in Hk. injection Hk as ->.
    exists (N.of_nat m). split; [lia|]. split; [done|]. apply parts_at_sib.
    by apply covers_node in Hc. }
  split; [split|].
  - intros Hne. destruct (parts_at_exists n leaf i Hl Hi Hne) as (k & Hkn & Ha).
    exists (tree_node k (sib (i `div` 2 ^ k))). split.
    + eapply list_elem_of_lookup_2, Hk. done.
    + apply covers_node. by apply parts_at_sib.
  - intros (x & Hx & Hc) ->. destruct (Hin x Hx Hc) as (k & _ & _ & Hne & _). done.
  - intros x y Hx Hy Hcx Hcy. destruct (Hin x Hx Hcx) as (k & _ & -> & Ha).
    destruct (Hin y Hy Hcy) as (k' & _ & -> & Hb). by rewrite (parts_at_unique _ _ _ _ Ha Hb).
Qed.

Lemma copath_splits_others_witness :
  5 < 2 ^ 3 ∧ treemath.copath 5 (full 3) = Some [treemath.Leaf 4; treemath.Parent 6; treemath.Parent 1].
Proof.
  split; [done|]. destruct (copath_splits_others 3 5) as (path & Hp & _); [lia|done|].
  rewrite Hp. vm_compute in Hp. by rewrite <-Hp.
Defined.

(** ** Common ancestors *)

(** The loop of [lowest_common_ancestor] ends when the shifted indices are the same. *)
Lemma meet_spec fuel a b t k : (N.to_nat t <= fuel)%nat →
  a `div` 2 ^ t = b `div` 2 ^ t → (∀ t', t' < t → a `div` 2 ^ t' ≠ b `div` 2 ^ t') →
  treemath.meet fuel a b k = (a `div` 2 ^ t, k + t).
Proof.
  revert a b t k. induction fuel as [|fuel IH]; intros a b t k Hf E Hne.
  - assert (t = 0) as -> by lia. cbn. by rewrite N.div_1_r, N.add_0_r.
  - cbn [treemath.meet]. destruct (N.eq_dec t 0) as [->|Ht].
    + rewrite !N.div_1_r in E. by rewrite E, N.eqb_refl, N.div_1_r, N.add_0_r.
    + specialize (Hne 0 ltac:(lia)) as H0. rewrite !N.div_1_r in H0.
      rewrite (proj2 (N.eqb_neq _ _)) by done.
      rewrite !N.shiftr_div_pow2. change (2 ^ 1) with 2. rewrite (IH _ _ (t - 1)).
      * rewrite div2_pow. f_equal; [do 2 f_equal; lia|lia].
      * lia.
      * rewrite !div2_pow. by replace (t - 1 + 1) with t by lia.
      * intros t' Ht'. rewrite !div2_pow. apply Hne. lia.
Qed.

Lemma double_div_pow x k : (2 * x) `div` 2 ^ (k + 1) = x `div` 2 ^ k.
Proof. rewrite <-div2_pow. f_equal. rewrite N.mul_comm. by apply N.div_mul. Qed.

(** Nothing is common to two paths below the point where they part. *)
Lemma apart_below x y k t : parts_at x y k → t <= k → x `div` 2 ^ t ≠ y `div` 2 ^ t.
Proof. intros [H _] Ht E. apply H. by eapply same_above. Qed.

Lemma quotient_bound x k : k <= 30 → x < 2 ^ 30 → x `div` 2 ^ k < 2 ^ (30 - k).
Proof.
  intros Hk Hx. apply N.Div0.div_lt_upper_bound. rewrite <-N.pow_add_r.
  by replace (k + (30 - k)) with 30 by lia.
Qed.

Lemma lca_index k x : k < 30 → x < 2 ^ 30 →
  let q := x `div` 2 ^ (k + 1) in
  wrap32 (wrap32 (treemath.shl32 q (k + 1 + 1) + treemath.shl32 1 (k + 1)) + u32_max) = node (k + 1) q.
Proof.
  intros Hk Hx q. pose proof (N.Div0.mul_div_le x (2 ^ (k + 1))) as Hq. fold q in Hq.
  pose proof (pow_bound (k + 1) 30 ltac:(lia)) as H1. pose proof (node_value (k + 1) q) as Hv.
  assert (E : 2 ^ (k + 1 + 1) = 2 * 2 ^ (k + 1)) by (rewrite (N.pow_add_r 2 (k + 1)); lia).
  change (2 ^ 30) with 1073741824 in *.
  rewrite shl32_one, shl32_small by (rewrite ?E; unfold u32_max; lia). rewrite E.
  assert (2 ^ (k + 1) ≠ 0) by (apply N.pow_nonzero; lia).
  rewrite (wrap32_small (_ + 2 ^ _)) by (unfold u32_max; lia).
  rewrite pred32 by (unfold u32_max; lia). lia.
Qed.

Lemma lca_node x y k : x < 2 ^ 30 → y < 2 ^ 30 → parts_at x y k →
  treemath.lowest_common_ancestor x y = node k (x `div` 2 ^ (k + 1)).
Proof.
  intros Hx Hy Hp. assert (Hk : k < 30).
  { destruct (parts_at_exists 30 x y) as (k' & Hk & Hp'); [done..| |].
    - intros ->. by destruct Hp.
    - by rewrite (parts_at_unique _ _ _ _ Hp Hp'). }
  unfold treemath.lowest_common_ancestor. change (2 ^ 30) with 1073741824 in *.
  rewrite !leaf_index by (unfold u32_max; lia). rewrite !level_node, !shr32_small by lia.
  rewrite !N.shiftr_div_pow2, !node_0, !double_div_pow, !N.div_1_r.
  assert (x ≠ y) as Hne by (intros ->; by destruct Hp).
  rewrite (proj2 (N.eqb_neq x y)), andb_false_r by done. cbn [andb].
  rewrite (meet_spec 32 _ _ (k + 1 + 1) 0); [|lia| |].
  - rewrite double_div_pow, N.add_0_l, N.add_sub. rewrite <-(parent_from_index k (x `div` 2 ^ (k + 1))).
    + f_equal. by apply lca_index.
    + apply fits_index, (fits_in_tree 30); [lia..|]. apply quotient_bound; [lia|done].
  - rewrite !double_div_pow. apply Hp.
  - intros t Ht. destruct t as [|t] using node_cases.
    + rewrite !N.div_1_r. lia.
    + rewrite !double_div_pow. apply (apart_below _ _ k); [done|lia].
Qed.

Lemma common_prefix_app c a b :
  treemath.common_prefix (c ++ a) (c ++ b) = c ++ treemath.common_prefix a b.
Proof. induction c as [|x c IH]; [done|]. cbn. by rewrite N.eqb_refl, IH. Qed.

(** Below the point where they part the two paths share nothing, not even their last nodes. *)
Lemma common_prefix_apart x y d : parts_at x y (N.of_nat d) →
  treemath.common_prefix (reverse (ancestors d 0 x)) (reverse (ancestors d 0 y)) = [].
Proof.
  intros [Hne _]. destruct d as [|d]; [done|].
  replace (S d) with (d + 1)%nat by lia. rewrite !ancestors_app, !reverse_app. cbn [ancestors reverse rev_append].
  cbn [app treemath.common_prefix].
  destruct (N.eqb_spec (node (0 + N.of_nat d) ((x `div` 2 ^ N.of_nat d) `div` 2))
    (node (0 + N.of_nat d) ((y `div` 2 ^ N.of_nat d) `div` 2))) as [E|E]; [|done].
  apply node_inj in E as [_ E]. destruct Hne.
  replace (N.of_nat (S d)) with (N.of_nat d + 1) by lia. by rewrite N.pow_add_r, N.pow_1_r, <-!N.Div0.div_div.
Qed.

Lemma ancestors_cover d k j p leaf :
  j = leaf `div` 2 ^ k → p ∈ ancestors d k j → covers (treemath.Parent p) leaf.
Proof.
  intros -> [i Hi]%list_elem_of_lookup.
  assert (Hd : (i < d)%nat) by (apply lookup_lt_Some in Hi; by rewrite ancestors_length in Hi).
  rewrite ancestors_lookup in Hi by done. injection Hi as <-. rewrite <-tree_node_S. apply covers_node.
  unfold below. rewrite N.Div0.div_div, <-N.pow_add_r. do 2 f_equal. lia.
Qed.

Lemma ancestors_apart x y d p :
  parts_at x y (N.of_nat d) → p ∈ ancestors d 0 x → ¬ covers (treemath.Parent p) y.
Proof.
  intros Hp [i Hi]%list_elem_of_lookup.
  assert (Hd : (i < d)%nat) by (apply lookup_lt_Some in Hi; by rewrite ancestors_length in Hi).
  rewrite ancestors_lookup in Hi by done. injection Hi as <-. rewrite <-tree_node_S, covers_node.
  unfold below. intros E. apply (apart_below x y (N.of_nat d) (0 + N.of_nat i + 1) Hp); [lia|].
  rewrite N.add_0_l in *. by rewrite E.
Qed.

(** The direct paths of two leaves run apart, over nodes that do not cover the other leaf, and then
    together: [common_direct_path] is what they share, its nodes cover both leaves, and
    [lowest_common_ancestor] is the first of them. *)
Theorem common_path_shared n x y : n <= 30 → x < 2 ^ n → y < 2 ^ n → x ≠ y →
  ∃ x_low y_low common,
    treemath.direct_path x (full n) = Some (x_low ++ common) ∧
    treemath.direct_path y (full n) = Some (y_low ++ common) ∧
    treemath.common_direct_path x y (full n) = Some common ∧
    head common = Some (treemath.lowest_common_ancestor x y) ∧
    (∀ p, p ∈ x_low → ¬ covers (treemath.Parent p) y) ∧
    (∀ p, p ∈ y_low → ¬ covers (treemath.Parent p) x) ∧
    (∀ p, p ∈ common → covers (treemath.Parent p) x ∧ covers (treemath.Parent p) y).
Proof.
  intros Hn Hx Hy Hne. destruct (parts_at_exists n x y Hx Hy Hne) as (k & Hk & Hp).
  set (d := N.to_nat k). assert (Hd : k = N.of_nat d) by lia. clearbody d. subst k.
  assert (Hsplit : ∀ z, z = x ∨ z = y → ancestors (N.to_nat n) 0 z =
    ancestors d 0 z ++ ancestors (N.to_nat n - d) (N.of_nat d) (x `div` 2 ^ N.of_nat d)).
  { intros z Hz. replace (N.to_nat n) with (d + (N.to_nat n - d))%nat at 1 by lia.
    rewrite ancestors_app. f_equal. apply ancestors_half.
    destruct Hp as [_ Hp]. rewrite N.pow_add_r, N.pow_1_r, <-!N.Div0.div_div in Hp.
    by destruct Hz as [->| ->]. }
  pose proof (pow_bound n 30 Hn).
  exists (ancestors d 0 x), (ancestors d 0 y),
    (ancestors (N.to_nat n - d) (N.of_nat d) (x `div` 2 ^ N.of_nat d)).
  unfold treemath.common_direct_path. rewrite !direct_path_full, <-!Hsplit by auto.
  split; [done|]. split; [done|]. split.
  { cbn [mbind option_bind from_option option_map]. rewrite !Hsplit, !reverse_app, common_prefix_app by auto.
    rewrite common_prefix_apart, app_nil_r by done. by rewrite reverse_involutive. }
  split.
  { rewrite (lca_node x y (N.of_nat d)) by (done || lia).
    replace (N.to_nat n - d)%nat with (S (N.to_nat n - d - 1)) by lia. cbn [ancestors head].
    do 2 f_equal. by rewrite N.pow_add_r, N.pow_1_r, <-N.Div0.div_div. }
  assert (Hp' : parts_at y x (N.of_nat d)) by (destruct Hp; by split).
  split; [by intros; eapply ancestors_apart|]. split; [by intros; eapply ancestors_apart|].
  intros p Hc. split; [by eapply ancestors_cover|].
  rewrite (ancestors_half _ _ _ (y `div` 2 ^ N.of_nat d)) in Hc; [by eapply ancestors_cover|].
  destruct Hp as [_ Hp]. by rewrite N.pow_add_r, N.pow_1_r, <-!N.Div0.div_div in Hp.
Qed.

Lemma common_path_shared_witness :
  treemath.common_direct_path 4 7 (full 3) = Some [5; 3] ∧ treemath.lowest_common_ancestor 4 7 = 5.
Proof.
  destruct (common_path_shared 3 4 7) as (a & b & c & _ & _ & Hc & Hh & _); [done..|].
  rewrite Hc. vm_compute in Hc. injection Hc as <-. split; [done|].
  apply (inj Some). by rewrite <-Hh.
Defined.
