(* ===== verification/MlsBinaryTree.v ===== *)
(** * The binary tree of OpenMLS and its diff

    [openmls/src/binary_tree/array_representation/]: [tree.rs] (leaves and parents as two
    vectors, which may be shorter than the full tree they stand for), [diff.rs] (changes beside a
    tree that stays as it is) and [sorted_iter.rs] (the iterator that lays one over the other).

    A [BTreeMap] is a finite map that is iterated in the order of its keys ([entries]);
    [L::default()] is the class [Default].  [debug_assert!] is not compiled.  [merge_reads_diff]
    says that merging a diff gives the tree that could be read through it, and
    [sorted_iter_spec] that the iterator lists the union of both, without what it hides.  *)

From S2P Require Import Prelude MlsTree.
From stdpp Require Import options.

Local Open Scope N_scope.

Class Default (A : Type) := default_value : A.

(** ** Ordered maps *)

Definition key_le {A} (x y : N * A) : Prop := x.1 <= y.1.

#[export] Instance key_le_dec {A} : RelDecision (@key_le A).
Proof. intros x y. unfold key_le. apply _. Defined.

Definition entries {A} (m : gmap N A) : list (N * A) := merge_sort key_le (map_to_list m).

(** ** [sorted_iter.rs]

    Up to [size] calls of [next]; an entry of [a] hides that of [b] with its key. *)
Fixpoint sorted_iter {A} (a b : list (N * A)) (size : nat) : list (N * A) :=
  match size with
  | O => []
  | S size =>
      match a, b with
      | x :: a', y :: b' =>
          match x.1 ?= y.1 with
          | Lt => x :: sorted_iter a' b size
          | Eq => x :: sorted_iter a' b' size
          | Gt => y :: sorted_iter a b' size
          end
      | x :: a', [] => x :: sorted_iter a' b size
      | [], y :: b' => y :: sorted_iter a b' size
      | [], [] => []
      end
  end.

(** ** [tree.rs] *)

Module tree.
Inductive TreeNode (L P : Type) :=
| Leaf (l : L)
| Parent (p : P).
Arguments Leaf {_ _}. Arguments Parent {_ _}.

Inductive ABinaryTreeError := OutOfRange | InvalidNumberOfNodes | WrongNodeType.

Record ABinaryTree (L P : Type) := MkABinaryTree {
  leaf_nodes : list L;
  parent_nodes : list P;
  default_leaf : L;
  default_parent : P;
}.
Arguments MkABinaryTree {_ _}. Arguments leaf_nodes {_ _}. Arguments parent_nodes {_ _}.
Arguments default_leaf {_ _}. Arguments default_parent {_ _}.

Section tree.
Context {L P : Type} `{Default L, Default P}.
Implicit Types t : ABinaryTree L P.

(** The loop over the nodes; [i] is the position of the next one. *)
Fixpoint split_nodes (i : nat) (nodes : list (TreeNode L P)) (leaves : list L) (parents : list P) :
    result ABinaryTreeError (list L * list P) :=
  match nodes with
  | [] => Ok (leaves, parents)
  | Leaf l :: nodes => if (i mod 2 =? 0)%nat then split_nodes (S i) nodes (leaves ++ [l]) parents else Err WrongNodeType
  | Parent p :: nodes => if (i mod 2 =? 1)%nat then split_nodes (S i) nodes leaves (parents ++ [p]) else Err WrongNodeType
  end.

Definition new (nodes : list (TreeNode L P)) : result ABinaryTreeError (ABinaryTree L P) :=
  if treemath.MAX_TREE_SIZE <? N.of_nat (length nodes) then Err OutOfRange
  else if negb (N.of_nat (length nodes) mod 2 =? 1) then Err InvalidNumberOfNodes
  else
    let? (leaves, parents) <- split_nodes 0 nodes [] [] in
    Ok (MkABinaryTree leaves parents default_value default_value).

Definition from_components (leaves : list L) (parents : list P) : result ABinaryTreeError (ABinaryTree L P) :=
  if treemath.MAX_TREE_SIZE <? N.of_nat (length leaves + length parents) then Err OutOfRange
  else if negb (length leaves =? length parents + 1)%nat then Err InvalidNumberOfNodes
  else Ok (MkABinaryTree leaves parents default_value default_value).

Definition leaf_by_index t (leaf_index : treemath.LeafNodeIndex) : L :=
  default (default_leaf t) (leaf_nodes t !! N.to_nat leaf_index).

Definition parent_by_index t (parent_index : treemath.ParentNodeIndex) : P :=
  default (default_parent t) (parent_nodes t !! N.to_nat parent_index).

Definition leaf t (leaf_index : treemath.LeafNodeIndex) : L :=
  default (default_leaf t) (leaf_nodes t !! N.to_nat leaf_index).

Definition parent t (parent_index : treemath.ParentNodeIndex) : P :=
  default (default_parent t) (parent_nodes t !! N.to_nat parent_index).

Definition tree_size t : treemath.TreeSize :=
  treemath.size_new (wrap32 (N.of_nat (length (leaf_nodes t) + length (parent_nodes t)))).

Definition leaf_count t : N := wrap32 (N.of_nat (length (leaf_nodes t))).
Definition parent_count t : N := wrap32 (N.of_nat (length (parent_nodes t))).

Definition leaves t : list (treemath.LeafNodeIndex * L) :=
  imap (λ index leaf, (wrap32 (N.of_nat index), leaf)) (leaf_nodes t).
Definition parents t : list (treemath.ParentNodeIndex * P) :=
  imap (λ index parent, (wrap32 (N.of_nat index), parent)) (parent_nodes t).

Definition subtree_path t (x y : treemath.LeafNodeIndex) : option (list treemath.ParentNodeIndex) :=
  treemath.common_direct_path x y (tree_size t).
End tree.
End tree.

(** ** [diff.rs] *)

Module diff.
Inductive ABinaryTreeDiffError := TreeTooLarge | TreeTooSmall.

Record StagedAbDiff (L P : Type) := MkStagedAbDiff {
  staged_leaf_diff : gmap N L;
  staged_parent_diff : gmap N P;
  staged_size : treemath.TreeSize;
}.
Arguments MkStagedAbDiff {_ _}. Arguments staged_leaf_diff {_ _}. Arguments staged_parent_diff {_ _}.
Arguments staged_size {_ _}.

Record AbDiff (L P : Type) := MkAbDiff {
  original_tree : tree.ABinaryTree L P;
  leaf_diff : gmap N L;
  parent_diff : gmap N P;
  size : treemath.TreeSize;
  default_leaf : L;
  default_parent : P;
}.
Arguments MkAbDiff {_ _}. Arguments original_tree {_ _}. Arguments leaf_diff {_ _}.
Arguments parent_diff {_ _}. Arguments size {_ _}. Arguments default_leaf {_ _}.
Arguments default_parent {_ _}.

Section diff.
Context {L P : Type} `{Default L, Default P}.
Implicit Types d : AbDiff L P.

(** [AbDiff::from] and [StagedAbDiff::from] *)
Definition from_tree (t : tree.ABinaryTree L P) : AbDiff L P :=
  MkAbDiff t ∅ ∅ (tree.tree_size t) default_value default_value.

Definition stage d : StagedAbDiff L P := MkStagedAbDiff (leaf_diff d) (parent_diff d) (size d).

Definition leaf_count d : N := treemath.leaf_count (size d).
Definition parent_count d : N := treemath.parent_count (size d).

Definition with_size d (s : treemath.TreeSize) : AbDiff L P :=
  MkAbDiff (original_tree d) (leaf_diff d) (parent_diff d) s (default_leaf d) (default_parent d).

Definition grow_tree d : result ABinaryTreeDiffError (AbDiff L P) :=
  if treemath.MAX_TREE_SIZE `div` 2 <? size d then Err TreeTooLarge
  else Ok (with_size d (treemath.inc (size d))).

Definition shrink_tree d : result ABinaryTreeDiffError (AbDiff L P) :=
  if size d <=? treemath.MIN_TREE_SIZE then Err TreeTooSmall
  else
    let s := treemath.dec (size d) in
    Ok (MkAbDiff (original_tree d)
          (filter (λ kv, kv.1 < treemath.leaf_count s) (leaf_diff d))
          (filter (λ kv, kv.1 < treemath.parent_count s) (parent_diff d))
          s (default_leaf d) (default_parent d)).

Definition replace_leaf d (leaf_index : treemath.LeafNodeIndex) (new_leaf : L) : AbDiff L P :=
  MkAbDiff (original_tree d) (<[leaf_index := new_leaf]> (leaf_diff d)) (parent_diff d) (size d)
    (default_leaf d) (default_parent d).

Definition replace_parent d (parent_index : treemath.ParentNodeIndex) (node : P) : AbDiff L P :=
  MkAbDiff (original_tree d) (leaf_diff d) (<[parent_index := node]> (parent_diff d)) (size d)
    (default_leaf d) (default_parent d).

Definition raw_parents (original : tree.ABinaryTree L P) (parent_diff : gmap N P) (parent_count : nat) :=
  sorted_iter (entries parent_diff) (tree.parents original) parent_count.

Definition raw_leaves (original : tree.ABinaryTree L P) (leaf_diff : gmap N L) (leaf_count : nat) :=
  sorted_iter (entries leaf_diff) (tree.leaves original) leaf_count.

Definition leaves d : list (treemath.LeafNodeIndex * L) :=
  raw_leaves (original_tree d) (leaf_diff d) (N.to_nat (leaf_count d)).
Definition parents d : list (treemath.ParentNodeIndex * P) :=
  raw_parents (original_tree d) (parent_diff d) (N.to_nat (parent_count d)).

(** [StagedAbDiff::leaves] and [StagedAbDiff::parents] *)
Definition staged_leaves (s : StagedAbDiff L P) (original : tree.ABinaryTree L P) :=
  raw_leaves original (staged_leaf_diff s) (N.to_nat (treemath.leaf_count (staged_size s))).
Definition staged_parents (s : StagedAbDiff L P) (original : tree.ABinaryTree L P) :=
  raw_parents original (staged_parent_diff s) (N.to_nat (treemath.parent_count (staged_size s))).

Definition direct_path d (leaf_index : treemath.LeafNodeIndex) : option (list treemath.ParentNodeIndex) :=
  treemath.direct_path leaf_index (size d).

Definition set_direct_path_to_node d (leaf_index : treemath.LeafNodeIndex) (node : P) : option (AbDiff L P) :=
  let! path <- direct_path d leaf_index in
  Some (foldl (λ d node_index, replace_parent d node_index node) d path).

Definition copath d (leaf_index : treemath.LeafNodeIndex) : option (list treemath.TreeNodeIndex) :=
  treemath.copath leaf_index (size d).

Definition lowest_common_ancestor d (x y : treemath.LeafNodeIndex) : treemath.ParentNodeIndex :=
  treemath.lowest_common_ancestor x y.

Definition subtree_root_copath_node d (x y : treemath.LeafNodeIndex) : treemath.TreeNodeIndex :=
  let subtree_root := treemath.lowest_common_ancestor x y in
  if y <? x then treemath.left subtree_root else treemath.right subtree_root.

Definition root d : treemath.TreeNodeIndex := treemath.root (size d).
Definition left_child d (i : treemath.ParentNodeIndex) : treemath.TreeNodeIndex := treemath.left i.
Definition right_child d (i : treemath.ParentNodeIndex) : treemath.TreeNodeIndex := treemath.right i.

Definition leaf d (leaf_index : treemath.LeafNodeIndex) : L :=
  match leaf_diff d !! leaf_index with
  | Some node => node
  | None =>
      if leaf_count d <=? leaf_index then default_leaf d
      else tree.leaf_by_index (original_tree d) leaf_index
  end.

Definition parent d (parent_index : treemath.ParentNodeIndex) : P :=
  match parent_diff d !! parent_index with
  | Some node => node
  | None => tree.parent_by_index (original_tree d) parent_index
  end.

(** A write through the mutable reference that [parent_mut] returns *)
Definition parent_mut d (parent_index : treemath.ParentNodeIndex) (f : P → P) : AbDiff L P :=
  match parent_diff d !! parent_index with
  | Some node => replace_parent d parent_index (f node)
  | None => replace_parent d parent_index (f (tree.parent_by_index (original_tree d) parent_index))
  end.
End diff.
End diff.

(** [ABinaryTree::empty_diff] *)
Definition empty_diff {L P} `{Default L, Default P} (t : tree.ABinaryTree L P) : diff.AbDiff L P := diff.from_tree t.

(** [ABinaryTree::merge_diff]: the new sizes first, then the entries *)
Definition write_entries {A} (nodes : list A) (es : list (N * A)) : list A :=
  foldl (λ nodes e, <[N.to_nat e.1 := e.2]> nodes) nodes es.

Definition merge_diff {L P} `{Default L, Default P} (t : tree.ABinaryTree L P) (d : diff.StagedAbDiff L P) :
    tree.ABinaryTree L P :=
  let tree_size := diff.staged_size d in
  let leaf_nodes := resize (N.to_nat (treemath.leaf_count tree_size)) default_value (tree.leaf_nodes t) in
  let parent_nodes := resize (N.to_nat (treemath.parent_count tree_size)) default_value (tree.parent_nodes t) in
  tree.MkABinaryTree (write_entries leaf_nodes (entries (diff.staged_leaf_diff d)))
    (write_entries parent_nodes (entries (diff.staged_parent_diff d)))
    (tree.default_leaf t) (tree.default_parent t).

(** ** Strictly sorted entries *)

Definition ordered {A} (l : list (N * A)) : Prop := StronglySorted (λ x y, x.1 < y.1) l.

Definition before {A} (x : N * A) (l : list (N * A)) : Prop := ∀ z, z ∈ l → x.1 < z.1.

Lemma ordered_cons {A} x (l : list (N * A)) : ordered (x :: l) ↔ ordered l ∧ before x l.
Proof.
  unfold ordered, before. rewrite <-Forall_forall. split; [|intros []; by constructor].
  intros H. by inversion H.
Qed.

Lemma ordered_nodup {A} (l : list (N * A)) : ordered l → NoDup l.*1.
Proof.
  induction l as [|x l IH]; [by constructor|]. rewrite ordered_cons. intros [H1 H2]. cbn.
  constructor; [|by apply IH]. intros (y & E & Hy)%list_elem_of_fmap. specialize (H2 y Hy). lia.
Qed.

Lemma ordered_sorted {A} (l : list (N * A)) : ordered l → Sorted key_le l.
Proof.
  intros H. apply StronglySorted_Sorted. induction l as [|x l IH]; [constructor|].
  apply ordered_cons in H as [H Hx]. constructor; [by apply IH|]. apply Forall_forall.
  intros y Hy. specialize (Hx y Hy). unfold key_le. lia.
Qed.

Lemma ordered_perm {A} (l l' : list (N * A)) : ordered l → ordered l' → l ≡ₚ l' → l = l'.
Proof. intros. apply (sorted_by_key_unique fst N.le); auto using ordered_sorted, ordered_nodup. Qed.

Lemma entries_perm {A} (m : gmap N A) : entries m ≡ₚ map_to_list m.
Proof. apply merge_sort_Permutation. Qed.

Lemma sorted_strict {A} (l : list (N * A)) : Sorted key_le l → NoDup l.*1 → ordered l.
Proof.
  intros Hs%Sorted_StronglySorted Hn; [|intros x y z; unfold key_le; lia].
  induction Hs as [|x l Hs IH Hf]; [constructor|]. apply NoDup_cons in Hn as [Hx Hn].
  apply ordered_cons. split; [by apply IH|]. intros y Hy. rewrite Forall_forall in Hf.
  specialize (Hf y Hy). unfold key_le in Hf. assert (x.1 ≠ y.1); [|lia].
  intros E. apply Hx. rewrite E. by apply list_elem_of_fmap_2.
Qed.

Lemma entries_ordered {A} (m : gmap N A) : ordered (entries m).
Proof.
  apply sorted_strict.
  - apply Sorted_merge_sort. intros x y. unfold key_le. lia.
  - rewrite entries_perm. apply NoDup_fst_map_to_list.
Qed.

Lemma elem_of_entries {A} (m : gmap N A) i x : (i, x) ∈ entries m ↔ m !! i = Some x.
Proof. rewrite entries_perm. apply elem_of_map_to_list. Qed.

Lemma entries_list_to_map {A} (l : list (N * A)) : ordered l → entries (list_to_map l) = l.
Proof.
  intros H. apply ordered_perm; [apply entries_ordered|done|].
  rewrite entries_perm. apply map_to_list_to_map. by apply ordered_nodup.
Qed.

Lemma map_of_entries {A} (m : gmap N A) : list_to_map (entries m) = m.
Proof.
  apply map_eq. intros i. apply option_eq. intros x.
  rewrite <-elem_of_list_to_map by apply ordered_nodup, entries_ordered. apply elem_of_entries.
Qed.

(** Any ordered list with the entries of a map lists them. *)
Lemma entries_unique {A} (m : gmap N A) l :
  ordered l → (∀ i x, (i, x) ∈ l ↔ m !! i = Some x) → entries m = l.
Proof.
  intros Hl Hm. rewrite <-(entries_list_to_map l Hl). f_equal. apply map_eq. intros i.
  apply option_eq. intros x. rewrite <-Hm. by rewrite <-elem_of_list_to_map by by apply ordered_nodup.
Qed.

(** ** The iterator *)

Lemma sorted_iter_take {A} (a b : list (N * A)) n k :
  (n <= k)%nat → sorted_iter a b n = take n (sorted_iter a b k).
Proof.
  revert a b k. induction n as [|n IH]; intros a b [|k] Hk; [done..|lia|].
  destruct a as [|x a], b as [|y b]; cbn [sorted_iter take]; try done.
  - f_equal. apply IH. lia.
  - f_equal. apply IH. lia.
  - destruct (x.1 ?= y.1); cbn [take]; f_equal; apply IH; lia.
Qed.

(** What lies over [b] when [a] does *)
Definition laid {A} (a b r : list (N * A)) : Prop :=
  ordered r ∧ ∀ z, z ∈ r ↔ z ∈ a ∨ (z ∈ b ∧ z.1 ∉ a.*1).

Lemma before_cons {A} (x y : N * A) l : x.1 < y.1 → before y l → before x (y :: l).
Proof. intros Hxy Hy z [->|Hz]%elem_of_cons; [done|]. specialize (Hy z Hz). lia. Qed.

Lemma before_fresh {A} (x : N * A) l : before x l → x.1 ∉ l.*1.
Proof. intros Hx (z & E & Hz)%list_elem_of_fmap. specialize (Hx z Hz). lia. Qed.

Lemma laid_before {A} (x : N * A) a b r : before x a → before x b → laid a b r → before x r.
Proof. intros Ha Hb [_ Hr] z Hz. apply Hr in Hz as [Hz|[Hz _]]; auto. Qed.

Lemma laid_left {A} (x : N * A) a b r :
  before x a → before x b → laid a b r → laid (x :: a) b (x :: r).
Proof.
  intros Ha Hb Hr. split; [apply ordered_cons; split; [by apply Hr|by apply (laid_before _ a b)]|].
  intros z. rewrite !elem_of_cons, (proj2 Hr), fmap_cons, not_elem_of_cons. split.
  - intros [->|[Hz|[Hz Hn]]]; [auto..|]. right. split; [done|]. split; [|done]. specialize (Hb z Hz). lia.
  - intros [[->|Hz]|(Hz & _ & Hn)]; auto.
Qed.

Lemma laid_both {A} (x y : N * A) a b r : x.1 = y.1 →
  before x a → before y b → laid a b r → laid (x :: a) (y :: b) (x :: r).
Proof.
  intros E Ha Hb Hr. destruct (laid_left x a b r) as [H1 H2]; [done|intros z; rewrite E; apply Hb|done|].
  split; [done|]. intros z. rewrite H2, (elem_of_cons b), fmap_cons, not_elem_of_cons. split; [naive_solver|].
  intros [Hz|[[->|Hz] [Hn Hn']]]; [auto|congruence|auto].
Qed.

Lemma laid_right {A} (y : N * A) a b r :
  before y a → before y b → laid a b r → laid a (y :: b) (y :: r).
Proof.
  intros Ha Hb Hr. split; [apply ordered_cons; split; [by apply Hr|by apply (laid_before _ a b)]|].
  intros z. rewrite elem_of_cons, (proj2 Hr), elem_of_cons. apply before_fresh in Ha. naive_solver.
Qed.

Lemma sorted_iter_laid {A} (a b : list (N * A)) k : (length a + length b <= k)%nat →
  ordered a → ordered b → laid a b (sorted_iter a b k).
Proof.
  revert a b. induction k as [|k IH]; intros [|x a] [|y b] Hk Ha Hb; cbn [length] in Hk; try lia;
    cbn [sorted_iter]; try (split; [constructor|set_solver]).
  all: try apply ordered_cons in Ha as Ha'; try destruct Ha' as [Ha1 Ha2].
  all: try apply ordered_cons in Hb as Hb'; try destruct Hb' as [Hb1 Hb2].
  - apply laid_right; [set_solver|done|]. apply IH; [cbn; lia|constructor|done].
  - apply laid_left; [done|set_solver|]. apply IH; [cbn; lia|done|constructor].
  - destruct (N.compare_spec x.1 y.1) as [E|E|E].
    + apply laid_both; [done..|]. apply IH; [lia|done..].
    + apply laid_left; [done|by apply before_cons|]. apply IH; [cbn; lia|done..].
    + apply laid_right; [by apply before_cons|done|]. apply IH; [cbn; lia|done..].
Qed.

(** The iterator lists the first [n] entries of the union. *)
Lemma sorted_iter_spec {A} (a b : list (N * A)) n : ordered a → ordered b →
  sorted_iter a b n = take n (entries (list_to_map a ∪ list_to_map b)).
Proof.
  intros Ha Hb. set (k := (n + (length a + length b))%nat).
  rewrite (sorted_iter_take a b n k) by lia. f_equal. symmetry.
  destruct (sorted_iter_laid a b k) as [H1 H2]; [lia|done..|].
  apply entries_unique; [done|]. intros i x. rewrite H2, lookup_union_Some_raw.
  rewrite <-not_elem_of_list_to_map, <-!elem_of_list_to_map by (by apply ordered_nodup). naive_solver.
Qed.

(** ** Sizes *)

Lemma full_value n : full n + 1 = 2 * 2 ^ n.
Proof. unfold full. rewrite node_ones, N.pow_add_r. lia. Qed.

Lemma pow_positive n : 0 < 2 ^ n.
Proof. pose proof (N.pow_nonzero 2 n). lia. Qed.

Lemma pow_tree n : n <= 30 → 2 ^ n <= 1073741824.
Proof. apply (pow_bound n 30). Qed.

Lemma half_full n : full n `div` 2 = 2 ^ n - 1.
Proof.
  pose proof (full_value n). pose proof (pow_positive n).
  symmetry. apply (N.div_unique _ _ _ 1); lia.
Qed.

Lemma full_leaf_count n : n <= 30 → treemath.leaf_count (full n) = 2 ^ n.
Proof.
  intros Hn. unfold treemath.leaf_count. rewrite half_full. pose proof (pow_tree n Hn).
  pose proof (pow_positive n). rewrite wrap32_small by (unfold u32_max; lia). lia.
Qed.

Lemma full_parent_count n : treemath.parent_count (full n) = 2 ^ n - 1.
Proof. apply half_full. Qed.

Lemma inc_full n : n < 30 → treemath.inc (full n) = full (n + 1).
Proof.
  intros Hn. pose proof (full_value n). pose proof (full_value (n + 1)) as H1.
  rewrite N.pow_add_r in H1. pose proof (pow_tree n ltac:(lia)).
  unfold treemath.inc. rewrite wrap32_small by (unfold u32_max; lia). lia.
Qed.

Lemma dec_full n : treemath.dec (full (n + 1)) = full n.
Proof.
  pose proof (full_value n). pose proof (full_value (n + 1)) as H1. rewrite N.pow_add_r in H1.
  pose proof (pow_positive n). unfold treemath.dec. rewrite (proj2 (N.leb_le _ _)) by lia.
  replace (full (n + 1) + 1) with ((full n + 1) * 2) by lia. rewrite N.div_mul by done. lia.
Qed.

Lemma full_le n m : full n <= full m ↔ n <= m.
Proof.
  pose proof (full_value n). pose proof (full_value m). split; intros Hl.
  - destruct (N.le_gt_cases n m) as [|Hlt]; [done|].
    assert (2 ^ m < 2 ^ n) by (apply N.pow_lt_mono_r; lia). lia.
  - pose proof (pow_bound n m Hl). lia.
Qed.

(** The size that is rounded up from [2 * k - 1] nodes *)
Lemma size_new_full k : 1 <= k → 2 * k - 1 <= treemath.MAX_TREE_SIZE →
  ∃ n, n <= 29 ∧ treemath.size_new (wrap32 (2 * k - 1)) = full n ∧ k <= 2 ^ n ∧ 2 ^ n < 2 * k.
Proof.
  change treemath.MAX_TREE_SIZE with 1073741824. intros Hk Hmax.
  rewrite wrap32_small by (unfold u32_max; lia). exists (N.log2 (2 * k - 1)).
  destruct (N.log2_spec (2 * k - 1)) as [H1 H2]; [lia|].
  assert (Hn : N.log2 (2 * k - 1) <= 29).
  { apply N.lt_succ_r, N.log2_lt_pow2; [lia|]. change (2 ^ N.succ 29) with 1073741824. lia. }
  split; [done|]. unfold treemath.size_new, treemath.log2. rewrite (proj2 (N.eqb_neq _ _)) by lia.
  set (n := N.log2 (2 * k - 1)) in *. rewrite N.pow_succ_r' in H2.
  pose proof (full_value n). pose proof (pow_tree n ltac:(lia)).
  rewrite shl32_one by lia. rewrite pred32; rewrite N.pow_add_r; [|unfold u32_max; lia].
  split; [lia|]. destruct (N.eq_dec n 0) as [->|Hne]; [lia|].
  replace n with (n - 1 + 1) in * by lia. rewrite N.pow_add_r in *. lia.
Qed.

(** ** Well-formed trees and diffs *)

Section views.
Context {L P : Type} `{Default L, Default P}.
Implicit Types (t : tree.ABinaryTree L P) (d : diff.AbDiff L P).

(** What [new], [from_components] and [merge_diff] build *)
Record well_formed t : Prop := {
  wf_nodes : length (tree.leaf_nodes t) = S (length (tree.parent_nodes t));
  wf_size : N.of_nat (length (tree.leaf_nodes t) + length (tree.parent_nodes t)) <= treemath.MAX_TREE_SIZE;
  wf_leaf : tree.default_leaf t = default_value;
  wf_parent : tree.default_parent t = default_value;
}.

(** A diff that stands for a tree of [2 ^ n] leaves *)
Record stands d (n : N) : Prop := {
  stands_tree : well_formed (diff.original_tree d);
  stands_size : diff.size d = full n;
  stands_max : n <= 29;
  stands_leaf : diff.default_leaf d = default_value;
  stands_parent : diff.default_parent d = default_value;
}.

Lemma stands_leaf_count d n : stands d n → diff.leaf_count d = 2 ^ n.
Proof. intros Hd. unfold diff.leaf_count. rewrite (stands_size d n Hd). apply full_leaf_count. pose proof (stands_max d n Hd). lia. Qed.

Lemma stands_parent_count d n : stands d n → diff.parent_count d = 2 ^ n - 1.
Proof. intros Hd. unfold diff.parent_count. rewrite (stands_size d n Hd). apply full_parent_count. Qed.

Lemma well_formed_size t : well_formed t → ∃ n, n <= 29 ∧ tree.tree_size t = full n ∧
  N.of_nat (length (tree.leaf_nodes t)) <= 2 ^ n ∧ 2 ^ n < 2 * N.of_nat (length (tree.leaf_nodes t)).
Proof.
  intros [Hn Hs _ _]. unfold tree.tree_size. set (k := N.of_nat (length (tree.leaf_nodes t))).
  replace (N.of_nat (length (tree.leaf_nodes t) + length (tree.parent_nodes t))) with (2 * k - 1) in * by lia.
  apply size_new_full; [lia|done].
Qed.

Lemma empty_stands t : well_formed t → ∃ n, stands (empty_diff t) n ∧
  N.of_nat (length (tree.leaf_nodes t)) <= 2 ^ n.
Proof.
  intros Ht. destruct (well_formed_size t Ht) as (n & Hn & E & Hl & _). exists n. by split.
Qed.

(** What [TreeNode]s [new] accepts *)
Lemma from_components_spec leaves parents t :
  tree.from_components leaves parents = Ok t → well_formed t.
Proof.
  unfold tree.from_components. destruct (N.ltb_spec treemath.MAX_TREE_SIZE
    (N.of_nat (length leaves + length parents))) as [|Hs]; [done|].
  destruct (Nat.eqb_spec (length leaves) (length parents + 1)) as [El|]; [|done].
  intros [= <-]. split; cbn; [lia|done..].
Qed.

Lemma stands_grow d n : stands d n → n < 29 →
  ∃ d', diff.grow_tree d = Ok d' ∧ d' = diff.with_size d (full (n + 1)) ∧ stands d' (n + 1).
Proof.
  intros [Ht Hs Hm Hl Hp] Hn. unfold diff.grow_tree. rewrite Hs.
  change (treemath.MAX_TREE_SIZE `div` 2) with 536870912.
  pose proof (full_value n). assert (2 ^ n <= 268435456) by (apply (pow_bound n 28); lia).
  rewrite (proj2 (N.ltb_ge _ _)), inc_full by lia. eexists. split; [done|]. split; [done|].
  split; cbn; (done || lia).
Qed.

Lemma stands_full d n : stands d n → diff.grow_tree d = Err diff.TreeTooLarge ↔ n = 29.
Proof.
  intros Hd. split; [|intros ->; unfold diff.grow_tree; by rewrite (stands_size _ _ Hd)].
  intros E. pose proof (stands_max _ _ Hd). destruct (N.eq_dec n 29) as [|Hne]; [done|].
  destruct (stands_grow d n Hd) as (d' & E' & _); [lia|]. by rewrite E' in E.
Qed.

Lemma stands_shrink d n : stands d (n + 1) →
  ∃ d', diff.shrink_tree d = Ok d' ∧ stands d' n ∧ diff.original_tree d' = diff.original_tree d ∧
    diff.leaf_diff d' = filter (λ kv, kv.1 < 2 ^ n) (diff.leaf_diff d) ∧
    diff.parent_diff d' = filter (λ kv, kv.1 < 2 ^ n - 1) (diff.parent_diff d).
Proof.
  intros [Ht Hs Hm Hl Hp]. unfold diff.shrink_tree. rewrite Hs, dec_full, full_leaf_count, full_parent_count by lia.
  change treemath.MIN_TREE_SIZE with (full 0). rewrite (proj2 (N.leb_gt _ _)).
  - eexists. split; [done|]. split; [|done]. split; cbn; (done || lia).
  - apply N.lt_nge. rewrite full_le. lia.
Qed.

(** ** Reading *)

Lemma tree_leaf_beyond t i : well_formed t → N.of_nat (length (tree.leaf_nodes t)) <= i →
  tree.leaf_by_index t i = default_value.
Proof.
  intros Ht Hi. unfold tree.leaf_by_index. rewrite lookup_ge_None_2 by lia. apply (wf_leaf t Ht).
Qed.

Lemma tree_parent_beyond t i : well_formed t → N.of_nat (length (tree.parent_nodes t)) <= i →
  tree.parent_by_index t i = default_value.
Proof.
  intros Ht Hi. unfold tree.parent_by_index. rewrite lookup_ge_None_2 by lia. apply (wf_parent t Ht).
Qed.

Lemma leaf_replace_leaf d i x j :
  diff.leaf (diff.replace_leaf d i x) j = if decide (i = j) then x else diff.leaf d j.
Proof.
  unfold diff.leaf, diff.leaf_count, diff.replace_leaf. cbn. case_decide as E.
  - subst j. by rewrite lookup_insert_eq.
  - by rewrite lookup_insert_ne.
Qed.

Lemma parent_replace_parent d i x j :
  diff.parent (diff.replace_parent d i x) j = if decide (i = j) then x else diff.parent d j.
Proof.
  unfold diff.parent, diff.replace_parent. cbn. case_decide as E.
  - subst j. by rewrite lookup_insert_eq.
  - by rewrite lookup_insert_ne.
Qed.

Lemma parent_mut_replace d i f : diff.parent_mut d i f = diff.replace_parent d i (f (diff.parent d i)).
Proof. unfold diff.parent_mut, diff.parent. by destruct (diff.parent_diff d !! i). Qed.
End views.

(** ** Merging *)

Lemma write_entries_lookup {A} (es : list (N * A)) (nodes : list A) i : NoDup es.*1 →
  write_entries nodes es !! i =
    match (list_to_map es : gmap N A) !! N.of_nat i with
    | Some x => if decide (i < length nodes)%nat then Some x else None
    | None => nodes !! i
    end.
Proof.
  unfold write_entries. revert nodes. induction es as [|[k x] es IH]; intros nodes Hn; [done|].
  apply NoDup_cons in Hn as [Hk Hn]. cbn [foldl]. rewrite IH by done. cbn [fst snd list_to_map foldr].
  rewrite length_insert. destruct (decide (k = N.of_nat i)) as [->|Hne].
  - rewrite (proj1 (not_elem_of_list_to_map _ _)) by done. cbn. rewrite lookup_insert_eq, Nat2N.id.
    case_decide as Hi; [by rewrite list_lookup_insert_eq|]. apply lookup_ge_None_2. rewrite length_insert. lia.
  - cbn. rewrite lookup_insert_ne by done. destruct (_ !! N.of_nat i); [done|].
    apply list_lookup_insert_ne. lia.
Qed.

Lemma write_entries_length {A} (es : list (N * A)) (nodes : list A) :
  length (write_entries nodes es) = length nodes.
Proof.
  unfold write_entries. revert nodes. induction es as [|[k x] es IH]; intros nodes; [done|].
  cbn [foldl]. by rewrite IH, length_insert.
Qed.

(** A vector that was resized and overwritten, read at an index inside *)
Lemma write_resized {A} (m : gmap N A) (nodes : list A) n x i : i < n →
  write_entries (resize (N.to_nat n) x nodes) (entries m) !! N.to_nat i =
    Some (default (default x (nodes !! N.to_nat i)) (m !! i)).
Proof.
  intros Hi. rewrite write_entries_lookup by apply ordered_nodup, entries_ordered.
  rewrite map_of_entries, N2Nat.id. destruct (m !! i) as [y|]; cbn.
  - by rewrite decide_True by (rewrite length_resize; lia).
  - destruct (decide (N.to_nat i < length nodes)%nat) as [Hl|Hl].
    + rewrite lookup_resize by (done || lia). destruct (lookup_lt_is_Some_2 nodes (N.to_nat i) Hl) as [y ->]. done.
    + rewrite lookup_resize_new, lookup_ge_None_2 by lia. done.
Qed.

Section merging.
Context {L P : Type} `{Default L, Default P}.
Implicit Types (t : tree.ABinaryTree L P) (d : diff.AbDiff L P).

Lemma merge_lengths d n : stands d n →
  let t' := merge_diff (diff.original_tree d) (diff.stage d) in
  length (tree.leaf_nodes t') = N.to_nat (2 ^ n) ∧ length (tree.parent_nodes t') = N.to_nat (2 ^ n - 1).
Proof.
  intros Hd. cbn. rewrite !write_entries_length, !length_resize, (stands_size _ _ Hd).
  pose proof (stands_max _ _ Hd). by rewrite full_leaf_count, full_parent_count by lia.
Qed.

Lemma merge_well_formed d n : stands d n →
  let t' := merge_diff (diff.original_tree d) (diff.stage d) in well_formed t' ∧ tree.tree_size t' = full n.
Proof.
  intros Hd. destruct (merge_lengths d n Hd) as [H1 H2]. pose proof (stands_max _ _ Hd) as Hn.
  assert (Hp : 2 ^ n <= 536870912) by by apply (pow_bound n 29).
  pose proof (pow_positive n). pose proof (stands_tree _ _ Hd) as Ht. cbn zeta in *.
  assert (Hw : well_formed (merge_diff (diff.original_tree d) (diff.stage d))).
  { split; [lia|rewrite H1, H2; change treemath.MAX_TREE_SIZE with 1073741824; lia|apply Ht|apply Ht]. }
  split; [done|]. destruct (well_formed_size _ Hw) as (m & _ & -> & Hl & Hm). f_equal.
  rewrite H1, N2Nat.id in *. destruct (N.lt_trichotomy m n) as [Hlt|[->|Hlt]]; [|done|].
  - assert (2 ^ m < 2 ^ n) by (apply N.pow_lt_mono_r; lia). lia.
  - assert (2 ^ (n + 1) <= 2 ^ m) by (apply pow_bound; lia). rewrite N.pow_add_r in *. lia.
Qed.

Lemma merge_reads d n : stands d n →
  let t' := merge_diff (diff.original_tree d) (diff.stage d) in
  (∀ i, tree.leaf t' i = if i <? diff.leaf_count d then diff.leaf d i else default_value) ∧
  (∀ i, tree.parent t' i = if i <? diff.parent_count d then diff.parent d i else default_value).
Proof.
  intros Hd t'. destruct (merge_well_formed d n Hd) as [Hw _]. fold t' in Hw.
  destruct (merge_lengths d n Hd) as [H1 H2]. fold t' in H1, H2.
  rewrite (stands_leaf_count d n), (stands_parent_count d n) by done.
  pose proof (stands_tree _ _ Hd) as Ht. pose proof (stands_max _ _ Hd).
  split; intros i; [destruct (N.ltb_spec i (2 ^ n)) as [Hi|Hi]|destruct (N.ltb_spec i (2 ^ n - 1)) as [Hi|Hi]].
  - unfold t', tree.leaf, merge_diff. cbn. rewrite (stands_size d n), full_leaf_count by (done || lia).
    rewrite write_resized by done. unfold diff.leaf. rewrite (stands_leaf_count d n) by done. cbn.
    rewrite (proj2 (N.leb_gt _ _)) by done. destruct (diff.leaf_diff d !! i); [done|].
    cbn. unfold tree.leaf_by_index. by rewrite (wf_leaf _ Ht).
  - apply tree_leaf_beyond; [done|lia].
  - unfold t', tree.parent, merge_diff. cbn. rewrite (stands_size d n), full_parent_count by (done || lia).
    rewrite write_resized by done. unfold diff.parent. destruct (diff.parent_diff d !! i); [done|].
    cbn. unfold tree.parent_by_index. by rewrite (wf_parent _ Ht).
  - apply tree_parent_beyond; [done|lia].
Qed.

(** C37: a diff of any tree reads like the tree its merge gives: leaves and parents inside the new
    size are those read through the diff, everything beyond is the default, and the merged tree
    is well-formed and has the size of the diff. *)
Theorem merge_reads_diff d n : stands d n →
  let t' := merge_diff (diff.original_tree d) (diff.stage d) in
  well_formed t' ∧ tree.tree_size t' = diff.size d ∧
  (∀ i, tree.leaf t' i = if i <? diff.leaf_count d then diff.leaf d i else default_value) ∧
  (∀ i, tree.parent t' i = if i <? diff.parent_count d then diff.parent d i else default_value).
Proof.
  intros Hd t'. destruct (merge_well_formed d n Hd) as [Hw Hs].
  rewrite (stands_size d n) by done. split; [done|]. split; [done|]. by apply (merge_reads d n).
Qed.
End merging.

(** Three leaves of a tree of four: leaf 1 is blanked, and the tree shrinks. *)
#[export] Instance default_N : Default N := 0.

Definition toy_diff : diff.AbDiff N N :=
  let d := diff.replace_leaf (empty_diff (tree.MkABinaryTree [11; 12; 0] [21; 22] 0 0)) 1 0 in
  match diff.shrink_tree d with Ok d => d | Err _ => d end.

Lemma merge_reads_diff_witness :
  stands toy_diff 1 ∧
  tree.leaf_nodes (merge_diff (diff.original_tree toy_diff) (diff.stage toy_diff)) = [11; 0] ∧
  tree.leaf (merge_diff (diff.original_tree toy_diff) (diff.stage toy_diff)) 0 = 11 ∧
  tree.leaf (merge_diff (diff.original_tree toy_diff) (diff.stage toy_diff)) 2 = 0.
Proof.
  assert (Hs : stands toy_diff 1) by (split; [split; vm_compute; done|done..]).
  split; [done|]. split; [done|].
  destruct (merge_reads_diff toy_diff 1 Hs) as (_ & _ & Hl & _). rewrite !Hl. by vm_compute.
Defined.

(** ** Enumerating *)

(** The pairs of the first [n] indices with what they are mapped to *)
Definition table {A} (f : N → A) (n : nat) : list (N * A) := (λ i, (N.of_nat i, f (N.of_nat i))) <$> seq 0 n.

Lemma elem_of_table {A} (f : N → A) n i x : (i, x) ∈ table f n ↔ i < N.of_nat n ∧ x = f i.
Proof.
  unfold table. rewrite list_elem_of_fmap. setoid_rewrite elem_of_seq. split.
  - intros (j & [= -> ->] & Hj). split; [lia|done].
  - intros [Hi ->]. exists (N.to_nat i). rewrite N2Nat.id. split; [done|lia].
Qed.

Lemma table_S {A} (f : N → A) n : table f (S n) = table f n ++ [(N.of_nat n, f (N.of_nat n))].
Proof. unfold table. by rewrite seq_S, fmap_app. Qed.

Lemma table_length {A} (f : N → A) n : length (table f n) = n.
Proof. unfold table. by rewrite length_fmap, length_seq. Qed.

Lemma table_ext {A} (f g : N → A) n : (∀ i, i < N.of_nat n → f i = g i) → table f n = table g n.
Proof.
  intros Hfg. unfold table. apply list_fmap_ext. intros i j Hj. apply lookup_seq in Hj as [-> Hi].
  by rewrite Hfg by lia.
Qed.

Lemma ordered_app {A} (l k : list (N * A)) :
  ordered l → ordered k → (∀ x y, x ∈ l → y ∈ k → x.1 < y.1) → ordered (l ++ k).
Proof.
  intros Hl Hk Hlk. induction l as [|x l IH]; [done|]. apply ordered_cons in Hl as [Hl Hx]. cbn.
  apply ordered_cons. split.
  - apply IH; [done|]. intros. apply Hlk; [by right|done].
  - intros y [Hy|Hy]%elem_of_app; [by apply Hx|]. apply Hlk; [by left|done].
Qed.

Lemma table_ordered {A} (f : N → A) n : ordered (table f n).
Proof.
  induction n as [|n IH]; [constructor|]. rewrite table_S. apply ordered_app; [done|by repeat constructor|].
  intros [i x] y Hx Hy. apply elem_of_table in Hx as [Hx _]. apply list_elem_of_singleton in Hy as ->. cbn. lia.
Qed.

(** Entries without a gap from zero on come first. *)
Lemma entries_prefix {A} (m : gmap N A) (f : N → A) n :
  (∀ i, i < N.of_nat n → m !! i = Some (f i)) → take n (entries m) = table f n.
Proof.
  intros Hm. set (rest := filter (λ kv, N.of_nat n <= kv.1) m).
  assert (E : entries m = table f n ++ entries rest).
  { apply entries_unique.
    - apply ordered_app; [apply table_ordered|apply entries_ordered|].
      intros [i x] [j y] Hx Hy. apply elem_of_table in Hx as [Hx _].
      apply elem_of_entries, map_lookup_filter_Some in Hy as [_ Hy]. cbn in *. lia.
    - intros i x. rewrite elem_of_app, elem_of_table, elem_of_entries. unfold rest.
      rewrite map_lookup_filter_Some. cbn. split.
      + intros [[Hi ->]|[Hi _]]; [by apply Hm|done].
      + intros Hi. destruct (N.lt_ge_cases i (N.of_nat n)) as [Hlt|Hge]; [left|by right].
        split; [done|]. specialize (Hm i Hlt). congruence. }
  by rewrite E, take_app_length' by by rewrite table_length.
Qed.

(** Entries without a gap are all. *)
Lemma entries_dense {A} (m : gmap N A) (f : N → A) n :
  (∀ i, i < N.of_nat n → m !! i = Some (f i)) → (∀ i, N.of_nat n <= i → m !! i = None) →
  entries m = table f n.
Proof.
  intros Hm Hn. apply entries_unique; [apply table_ordered|]. intros i x. rewrite elem_of_table. split.
  - intros [Hi ->]. by apply Hm.
  - intros Hi. destruct (N.lt_ge_cases i (N.of_nat n)) as [Hlt|Hge].
    + split; [done|]. specialize (Hm i Hlt). congruence.
    + by rewrite Hn in Hi.
Qed.

(** The list of a vector's elements with their indices *)
Lemma indexed_table {A} (l : list A) x : N.of_nat (length l) <= treemath.MAX_TREE_SIZE →
  imap (λ index y, (wrap32 (N.of_nat index), y)) l = table (λ i, default x (l !! N.to_nat i)) (length l).
Proof.
  change treemath.MAX_TREE_SIZE with 1073741824. intros Hl. apply list_eq. intros i.
  unfold table. rewrite list_lookup_imap, list_lookup_fmap. destruct (l !! i) as [y|] eqn:E; cbn.
  - pose proof (lookup_lt_Some _ _ _ E). rewrite lookup_seq_lt by done. cbn.
    rewrite wrap32_small, Nat2N.id, E by (unfold u32_max; lia). done.
  - apply lookup_ge_None_1 in E. by rewrite lookup_seq_ge.
Qed.

Lemma table_map_lookup {A} (f : N → A) n i :
  (list_to_map (table f n) : gmap N A) !! i = if decide (i < N.of_nat n) then Some (f i) else None.
Proof.
  apply option_eq. intros x. rewrite <-elem_of_list_to_map by apply ordered_nodup, table_ordered.
  rewrite elem_of_table. case_decide; naive_solver.
Qed.
