(* ===== verification/MlsCrypto.v ===== *)
(** * Ciphersuites, secrets and keys of OpenMLS

    [traits/src/types.rs] (the sizes of a ciphersuite) and [openmls/src/ciphersuite/]
    ([secret.rs], [kdf_label.rs], [aead.rs], [reuse_guard.rs]) of the in-tree OpenMLS.

    [OpenMlsCrypto] is the provider's trait, as far as secrets and messages use it, and the
    [tls_codec] serialisation of a label; [CryptoLaws] is what HKDF, an AEAD and the codec
    promise.  The toy instance at the end keeps the laws without any secrecy. *)

From S2P Require Import Prelude.
From stdpp Require Import options.

Local Open Scope N_scope.

(** ** Ciphersuites *)

Inductive HashType := Sha2_256 | Sha2_384 | Sha2_512.
Inductive AeadType := Aes128Gcm | Aes256Gcm | ChaCha20Poly1305.

Inductive Ciphersuite :=
| MLS_128_DHKEMX25519_AES128GCM_SHA256_Ed25519
| MLS_128_DHKEMP256_AES128GCM_SHA256_P256
| MLS_128_DHKEMX25519_CHACHA20POLY1305_SHA256_Ed25519
| MLS_256_DHKEMX448_AES256GCM_SHA512_Ed448
| MLS_256_DHKEMP521_AES256GCM_SHA512_P521
| MLS_256_DHKEMX448_CHACHA20POLY1305_SHA512_Ed448
| MLS_256_DHKEMP384_AES256GCM_SHA384_P384
| MLS_256_XWING_CHACHA20POLY1305_SHA256_Ed25519
| MLS_128_MLKEM768X25519_AES128GCM_SHA256_Ed25519.

Definition hash_size (h : HashType) : N :=
  match h with Sha2_256 => 32 | Sha2_384 => 48 | Sha2_512 => 64 end.

Definition tag_size (a : AeadType) : N :=
  match a with Aes128Gcm => 16 | Aes256Gcm => 16 | ChaCha20Poly1305 => 16 end.
Definition key_size (a : AeadType) : N :=
  match a with Aes128Gcm => 16 | Aes256Gcm => 32 | ChaCha20Poly1305 => 32 end.
Definition nonce_size (a : AeadType) : N :=
  match a with Aes128Gcm | Aes256Gcm | ChaCha20Poly1305 => 12 end.

Definition hash_algorithm (c : Ciphersuite) : HashType :=
  match c with
  | MLS_128_MLKEM768X25519_AES128GCM_SHA256_Ed25519 => Sha2_256
  | MLS_128_DHKEMX25519_AES128GCM_SHA256_Ed25519
  | MLS_128_DHKEMP256_AES128GCM_SHA256_P256
  | MLS_128_DHKEMX25519_CHACHA20POLY1305_SHA256_Ed25519
  | MLS_256_XWING_CHACHA20POLY1305_SHA256_Ed25519 => Sha2_256
  | MLS_256_DHKEMP384_AES256GCM_SHA384_P384 => Sha2_384
  | MLS_256_DHKEMX448_AES256GCM_SHA512_Ed448
  | MLS_256_DHKEMP521_AES256GCM_SHA512_P521
  | MLS_256_DHKEMX448_CHACHA20POLY1305_SHA512_Ed448 => Sha2_512
  end.

Definition aead_algorithm (c : Ciphersuite) : AeadType :=
  match c with
  | MLS_128_MLKEM768X25519_AES128GCM_SHA256_Ed25519 => Aes128Gcm
  | MLS_128_DHKEMX25519_AES128GCM_SHA256_Ed25519
  | MLS_128_DHKEMP256_AES128GCM_SHA256_P256 => Aes128Gcm
  | MLS_128_DHKEMX25519_CHACHA20POLY1305_SHA256_Ed25519
  | MLS_256_DHKEMX448_CHACHA20POLY1305_SHA512_Ed448
  | MLS_256_XWING_CHACHA20POLY1305_SHA256_Ed25519 => ChaCha20Poly1305
  | MLS_256_DHKEMX448_AES256GCM_SHA512_Ed448
  | MLS_256_DHKEMP521_AES256GCM_SHA512_P521
  | MLS_256_DHKEMP384_AES256GCM_SHA384_P384 => Aes256Gcm
  end.

Definition hash_length (c : Ciphersuite) : N := hash_size (hash_algorithm c).
Definition mac_length (c : Ciphersuite) : N := tag_size (aead_algorithm c).
Definition aead_key_length (c : Ciphersuite) : N := key_size (aead_algorithm c).
Definition aead_nonce_length (c : Ciphersuite) : N := nonce_size (aead_algorithm c).

(** ** Errors *)

Inductive CryptoError :=
| CryptoLibraryError
| AeadDecryptionError
| HpkeDecryptionError
| HpkeEncryptionError
| UnsupportedSignatureScheme
| KdfLabelTooLarge
| KdfSerializationError
| HkdfOutputLengthInvalid
| InsufficientRandomness
| InvalidSignature
| UnsupportedAeadAlgorithm
| UnsupportedKdf
| InvalidLength
| UnsupportedHashAlgorithm
| SignatureEncodingError
| SignatureDecodingError
| SenderSetupError
| ReceiverSetupError
| ExporterError
| UnsupportedCiphersuite
| TlsSerializationError
| TooMuchData
| SigningError
| InvalidPublicKey.

#[export] Instance crypto_error_eq_dec : EqDecision CryptoError.
Proof. solve_decision. Defined.

(** ** The provider *)

Record KdfLabel := MkKdfLabel {
  kdf_length : N;
  kdf_label : bytes;
  kdf_context : bytes;
}.

Class OpenMlsCrypto := {
  (** algorithm, pseudorandom key, info, length *)
  crypto_hkdf_expand : HashType → bytes → bytes → N → option bytes;
  (** algorithm, key, message, nonce, associated data *)
  crypto_aead_encrypt : AeadType → bytes → bytes → bytes → bytes → option bytes;
  crypto_aead_decrypt : AeadType → bytes → bytes → bytes → bytes → option bytes;
  tls_serialize_label : KdfLabel → option bytes;
}.

(** HKDF takes a key no shorter than the hash, and answers what it was asked for up to 255
    blocks (RFC 5869); an AEAD opens what it sealed; short vectors can be encoded. *)
Class CryptoLaws {crypto : OpenMlsCrypto} := {
  hkdf_expand_some h prk info n :
    hash_size h <= N.of_nat (length prk) → 0 < n <= 255 * hash_size h →
    ∃ okm, crypto_hkdf_expand h prk info n = Some okm ∧ N.of_nat (length okm) = n;
  aead_encrypt_some a key msg nonce aad :
    N.of_nat (length key) = key_size a → N.of_nat (length nonce) = nonce_size a →
    ∃ c, crypto_aead_encrypt a key msg nonce aad = Some c;
  aead_decrypt_encrypt a key msg nonce aad c :
    crypto_aead_encrypt a key msg nonce aad = Some c → crypto_aead_decrypt a key c nonce aad = Some msg;
  tls_serialize_label_some l :
    (length (kdf_label l) < 64)%nat → (length (kdf_context l) < 1024)%nat → is_Some (tls_serialize_label l);
}.

(** ** Secrets *)

Record Secret := MkSecret { secret_value : bytes }.

#[export] Instance secret_eq_dec : EqDecision Secret.
Proof. solve_decision. Defined.

Section secrets.
Context {crypto : OpenMlsCrypto}.

Definition hkdf_expand (s : Secret) (c : Ciphersuite) (info : bytes) (okm_len : N) : result CryptoError Secret :=
  let? key <- ok_or (crypto_hkdf_expand (hash_algorithm c) (secret_value s) info okm_len) CryptoLibraryError in
  if bool_decide (key = []) then Err InvalidLength else Ok (MkSecret key).

Definition serialized_label (context : bytes) (label : string) (length : N) : result CryptoError bytes :=
  if 65535 <? length then Err KdfLabelTooLarge
  else ok_or (tls_serialize_label (MkKdfLabel length (String.list_byte_of_string label) context)) KdfSerializationError.

Definition kdf_expand_label (s : Secret) (c : Ciphersuite) (label : string) (context : bytes) (length : N) :
    result CryptoError Secret :=
  let full_label := "MLS 1.0 " +:+ label in
  let? info <- serialized_label context full_label length in
  hkdf_expand s c info length.

Definition derive_secret (s : Secret) (c : Ciphersuite) (label : string) : result CryptoError Secret :=
  kdf_expand_label s c label [] (hash_length c).
End secrets.

(** [u32::to_be_bytes] *)
Definition octet (n : N) : Byte.byte := default Byte.x00 (Byte.of_N (n `mod` 256)).
Definition to_be_bytes (n : N) : bytes :=
  [octet (N.shiftr n 24); octet (N.shiftr n 16); octet (N.shiftr n 8); octet n].

(** ** Keys and nonces of messages *)

Definition NONCE_BYTES : nat := 12.
Definition REUSE_GUARD_BYTES : nat := 4.

Record AeadKey := MkAeadKey { aead_mode : AeadType; key_value : bytes }.
Record AeadNonce := MkAeadNonce { nonce_bytes : bytes }.
Record ReuseGuard := MkReuseGuard { guard_bytes : bytes }.

#[export] Instance aead_type_eq_dec : EqDecision AeadType.
Proof. solve_decision. Defined.
#[export] Instance aead_key_eq_dec : EqDecision AeadKey.
Proof. solve_decision. Defined.
#[export] Instance aead_nonce_eq_dec : EqDecision AeadNonce.
Proof. solve_decision. Defined.

Definition key_from_secret (s : Secret) (c : Ciphersuite) : AeadKey :=
  MkAeadKey (aead_algorithm c) (secret_value s).

(** [clone_from_slice] panics ([None]) on a slice of another length. *)
Definition nonce_from_secret (s : Secret) : option AeadNonce :=
  if bool_decide (length (secret_value s) = NONCE_BYTES) then Some (MkAeadNonce (secret_value s)) else None.

Definition byte_xor (a b : Byte.byte) : Byte.byte :=
  default Byte.x00 (Byte.of_N (N.lxor (Byte.to_N a) (Byte.to_N b))).

(** The loop over the first [n] bytes *)
Fixpoint xor_prefix (n : nat) (b guard : bytes) : bytes :=
  match n, b, guard with
  | S n, x :: b, g :: guard => byte_xor x g :: xor_prefix n b guard
  | _, _, _ => b
  end.

Definition xor_with_reuse_guard (n : AeadNonce) (g : ReuseGuard) : AeadNonce :=
  MkAeadNonce (xor_prefix REUSE_GUARD_BYTES (nonce_bytes n) (guard_bytes g)).

Section aead.
Context {crypto : OpenMlsCrypto}.

Definition aead_seal (k : AeadKey) (msg aad : bytes) (n : AeadNonce) : result CryptoError bytes :=
  ok_or (crypto_aead_encrypt (aead_mode k) (key_value k) msg (nonce_bytes n) aad) CryptoLibraryError.

Definition aead_open (k : AeadKey) (ciphertext aad : bytes) (n : AeadNonce) : result CryptoError bytes :=
  ok_or (crypto_aead_decrypt (aead_mode k) (key_value k) ciphertext (nonce_bytes n) aad) AeadDecryptionError.
End aead.

(** ** Deriving never fails *)

Lemma hash_length_bounds c : 32 <= hash_length c <= 64.
Proof. by destruct c. Qed.

Lemma list_byte_length s : length (String.list_byte_of_string s) = String.length s.
Proof.
  unfold String.list_byte_of_string. rewrite List.length_map.
  induction s as [|a s IH]; [done|]. cbn. by rewrite IH.
Qed.

Section derivations.
Context {crypto : OpenMlsCrypto} {laws : CryptoLaws}.

(** A secret of the ciphersuite *)
Definition whole (c : Ciphersuite) (s : Secret) : Prop := N.of_nat (length (secret_value s)) = hash_length c.

(** What [kdf_expand_label] returns *)
Definition expand (c : Ciphersuite) (s : Secret) (label : string) (context : bytes) (n : N) : Secret :=
  match kdf_expand_label s c label context n with Ok s' => s' | Err _ => s end.

(** Labels and contexts of the library are short, and its lengths those of a ciphersuite. *)
Definition short (label : string) (context : bytes) (n : N) : Prop :=
  (String.length label < 32)%nat ∧ (length context < 1024)%nat ∧ 0 < n <= 64.

Lemma expand_spec c s label context n : whole c s → short label context n →
  kdf_expand_label s c label context n = Ok (expand c s label context n) ∧
  N.of_nat (length (secret_value (expand c s label context n))) = n.
Proof using laws.
  intros Hs (Hl & Hc & Hn). unfold expand, kdf_expand_label, serialized_label.
  rewrite (proj2 (N.ltb_ge _ _)) by lia.
  destruct (tls_serialize_label_some
    (MkKdfLabel n (String.list_byte_of_string ("MLS 1.0 " +:+ label)) context)) as [info ->].
  { cbn [kdf_label]. rewrite list_byte_length. change (8 + String.length label < 64)%nat. lia. }
  { cbn [kdf_context]. lia. }
  cbn [ok_or]. unfold hkdf_expand. destruct (hash_length_bounds c).
  destruct (hkdf_expand_some (hash_algorithm c) (secret_value s) info n) as (okm & -> & Hlen).
  { unfold whole in Hs. by rewrite Hs. }
  { unfold hash_length in *. lia. }
  cbn [ok_or]. rewrite bool_decide_eq_false_2 by (intros ->; cbn in Hlen; lia). done.
Qed.

Lemma expand_ok c s label context n : whole c s → short label context n →
  kdf_expand_label s c label context n = Ok (expand c s label context n).
Proof using laws. intros. by apply expand_spec. Qed.

Lemma expand_whole c s label context : whole c s → short label context (hash_length c) →
  whole c (expand c s label context (hash_length c)).
Proof using laws. intros. by apply expand_spec. Qed.
End derivations.

(** The reuse guard is taken off the way it is put on. *)
Lemma byte_xor_twice a b : byte_xor (byte_xor a b) b = a.
Proof.
  unfold byte_xor. pose proof (Byte.to_N_bounded a). pose proof (Byte.to_N_bounded b).
  assert (Hlt : N.lxor (Byte.to_N a) (Byte.to_N b) < 256).
  { change 256 with (2 ^ 8). destruct (N.eq_dec (N.lxor (Byte.to_N a) (Byte.to_N b)) 0) as [->|Hne]; [done|].
    apply N.log2_lt_pow2; [lia|]. eapply N.le_lt_trans; [apply N.log2_lxor|].
    assert (∀ x, x <= 255 → N.log2 x < 8).
    { intros x Hx. eapply N.le_lt_trans; [by apply N.log2_le_mono|]. done. }
    apply N.max_lub_lt; auto. }
  destruct (Byte.of_N (N.lxor (Byte.to_N a) (Byte.to_N b))) as [x|] eqn:E.
  - cbn [default from_option id]. apply Byte.to_of_N in E. rewrite E, N.lxor_assoc, N.lxor_nilpotent, N.lxor_0_r.
    by rewrite Byte.of_to_N.
  - apply Byte.of_N_None_iff in E. lia.
Qed.

Lemma xor_prefix_twice n b g : xor_prefix n (xor_prefix n b g) g = b.
Proof.
  revert b g. induction n as [|n IH]; intros b g; [done|].
  destruct b as [|x b], g as [|y g]; cbn; try done. by rewrite byte_xor_twice, IH.
Qed.

Lemma xor_prefix_length n b g : length (xor_prefix n b g) = length b.
Proof.
  revert b g. induction n as [|n IH]; intros b g; [done|].
  destruct b as [|x b], g as [|y g]; cbn; try done. by rewrite IH.
Qed.

(** ** A toy provider

    The output follows from a sum of the key and the info; a sealed message carries key, nonce
    and associated data in front. *)

Definition toy_sum (b : bytes) : N := foldr (λ x n, (Byte.to_N x + 3 * n) `mod` 65521) 7 b.

#[export] Instance toy_mls_crypto : OpenMlsCrypto := {|
  crypto_hkdf_expand h prk info n :=
    if (hash_size h <=? N.of_nat (length prk)) && (n <=? 255 * hash_size h)
    then Some ((λ i, octet (toy_sum (info ++ prk) + N.of_nat i * toy_sum (prk ++ info))) <$> seq 0 (N.to_nat n))
    else None;
  crypto_aead_encrypt a key msg nonce aad := Some (key ++ nonce ++ aad ++ msg);
  crypto_aead_decrypt a key c nonce aad :=
    let front := key ++ nonce ++ aad in
    if bool_decide (take (length front) c = front) then Some (drop (length front) c) else None;
  tls_serialize_label l := Some (to_be_bytes (kdf_length l) ++ kdf_label l ++ kdf_context l);
|}.

#[export] Program Instance toy_crypto_laws : CryptoLaws.
Next Obligation.
  intros h prk info n Hprk Hn. cbn. rewrite (proj2 (N.leb_le _ _)), (proj2 (N.leb_le _ _)) by lia.
  eexists. split; [done|]. rewrite length_fmap, length_seq. lia.
Qed.
Next Obligation. intros. by eexists. Qed.
Next Obligation.
  intros a key msg nonce aad c [= <-]. cbn. rewrite !app_assoc.
  rewrite bool_decide_eq_true_2 by by rewrite take_app_length. by rewrite drop_app_length.
Qed.
Next Obligation. intros. by eexists. Qed.
