(* ===== verification/MlsTreeSync.v ===== *)
(** * The synchronised tree of an OpenMLS group

    [openmls/src/treesync/]: the nodes ([node/leaf_node.rs], [node/parent_node.rs],
    [treesync_node.rs]), their hashes ([hashes.rs]) and the operations of [diff.rs] that do not
    encrypt.  [TreeCrypto] is the provider's trait as far as trees use it, and the [tls_codec]
    serialisations of what is hashed, sealed or signed.

    Recursion and loops over the tree have 32 turns, as [MlsTree.v] has; a function answers
    [None] where they are not enough, which [MlsTreeViews.v] excludes for trees.  Randomness is an
    argument: what [random_vec] answers.  Where the code gives up on an error, it drops the diff
    it was changing, so errors carry no diff. *)

From S2P Require Import Prelude MlsTree MlsBinaryTree MlsCrypto.
From stdpp Require Import options.

Local Open Scope N_scope.

(** Results of functions that contain loops *)
Notation "'let!?' x '<-' c 'in' k" :=
  (match c with Some (Ok x) => k | Some (Err e) => Some (Err e) | None => None end)
  (at level 10, x pattern at level 99, c at level 200, k at level 200) : outcome_scope.

(** ** Nodes *)

Definition EncryptionKey : Type := bytes.

Record EncryptionKeyPair := MkEncryptionKeyPair {
  public_key : EncryptionKey;
  private_key : bytes;
}.

Record Credential := MkCredential { credential_type : N; credential_content : bytes }.
Record CredentialWithKey := MkCredentialWithKey { with_credential : Credential; with_signature_key : bytes }.
Record Lifetime := MkLifetime { not_before : N; not_after : N }.

(** Code points *)
Record Capabilities := MkCapabilities {
  versions : list N;
  ciphersuites : list N;
  capable_extensions : list N;
  proposals : list N;
  credentials : list N;
}.

(** An extension by its type and its encoding *)
Definition Extension : Type := N * bytes.

Inductive LeafNodeSource :=
| KeyPackageSource (lifetime : Lifetime)
| UpdateSource
| CommitSource (parent_hash : bytes).

Record LeafNodePayload := MkLeafNodePayload {
  encryption_key : EncryptionKey;
  signature_key : bytes;
  credential : Credential;
  capabilities : Capabilities;
  leaf_node_source : LeafNodeSource;
  extensions : list Extension;
}.

Record LeafNode := MkLeafNode { payload : LeafNodePayload; signature : bytes }.

Record TreePosition := MkTreePosition { group_id : bytes; leaf_index : treemath.LeafNodeIndex }.

Inductive TreeInfoTbs :=
| KeyPackageTbs
| UpdateTbs (position : TreePosition)
| CommitTbs (position : TreePosition).

Record LeafNodeTbs := MkLeafNodeTbs { tbs_payload : LeafNodePayload; tree_info_tbs : TreeInfoTbs }.

(** [LeafNode::parent_hash] *)
Definition leaf_parent_hash (l : LeafNode) : option bytes :=
  match leaf_node_source (payload l) with CommitSource ph => Some ph | _ => None end.

Definition leaf_encryption_key (l : LeafNode) : EncryptionKey := encryption_key (payload l).

Record ParentNode := MkParentNode {
  parent_encryption_key : EncryptionKey;
  parent_hash : bytes;
  unmerged_leaves : list treemath.LeafNodeIndex;
}.

Definition parent_from_key (key : EncryptionKey) : ParentNode := MkParentNode key [] [].

Definition set_parent_hash (p : ParentNode) (hash : bytes) : ParentNode :=
  MkParentNode (parent_encryption_key p) hash (unmerged_leaves p).

Definition set_unmerged_leaves (p : ParentNode) (l : list treemath.LeafNodeIndex) : ParentNode :=
  MkParentNode (parent_encryption_key p) (parent_hash p) l.

(** [UnmergedLeaves::add]: the binary search ends behind the smaller indices of a sorted list. *)
Definition add_unmerged (list : list treemath.LeafNodeIndex) (leaf_index : treemath.LeafNodeIndex) :=
  let position := length (filter (λ i, i < leaf_index) list) in
  take position list ++ leaf_index :: drop position list.

Definition add_unmerged_leaf (p : ParentNode) (leaf_index : treemath.LeafNodeIndex) : ParentNode :=
  set_unmerged_leaves p (add_unmerged (unmerged_leaves p) leaf_index).

(** [UnmergedLeaves::try_from] *)
Fixpoint strictly_sorted (list : list treemath.LeafNodeIndex) : bool :=
  match list with
  | x :: (y :: _) as rest => (x <? y) && strictly_sorted rest
  | _ => true
  end.

(** Structs with the single field [node] *)
Definition TreeSyncLeafNode : Type := option LeafNode.
Definition TreeSyncParentNode : Type := option ParentNode.

#[export] Instance default_leaf_node : Default TreeSyncLeafNode := None.
#[export] Instance default_parent_node : Default TreeSyncParentNode := None.

Inductive Node :=
| NodeLeaf (l : LeafNode)
| NodeParent (p : ParentNode).

Inductive NodeReference :=
| LeafReference (l : LeafNode)
| ParentReference (p : ParentNode).

Definition reference_key (r : NodeReference) : EncryptionKey :=
  match r with LeafReference l => leaf_encryption_key l | ParentReference p => parent_encryption_key p end.

(** ** Errors *)

Inductive LibraryError :=
| MissingBoundCheck
| UnexpectedCryptoError
| CustomError (what : string).

Inductive TreeSyncAddLeaf :=
| AddLeafLibraryError (e : LibraryError)
| AddLeafTreeFull.

Inductive ApplyUpdatePathError :=
| PathLibraryError (e : LibraryError)
| PathLengthMismatch
| PathMismatch
| ParentHashMismatch
| MissingParentHash
| UnableToDecrypt
| MissingSender
| PathTreeFull
| InconsistentSenderIndex
| MissingOwnLeaf
| MissingCiphertext.

Inductive TreeSyncParentHashError :=
| ParentHashLibraryError (e : LibraryError)
| InvalidParentHash.

Inductive DerivePathError :=
| DeriveLibraryError (e : LibraryError)
| PublicKeyMismatch.

Definition map_err {E F A} (f : E → F) (r : result E A) : result F A :=
  match r with Ok a => Ok a | Err e => Err (f e) end.

(** ** The provider *)

Inductive TreeHashInput :=
| LeafNodeHashInput (leaf_index : treemath.LeafNodeIndex) (leaf_node : option LeafNode)
| ParentNodeHashInput (parent_node : option ParentNode) (left_hash right_hash : bytes).

Record ParentHashInput := MkParentHashInput {
  hashed_public_key : EncryptionKey;
  hashed_parent_hash : bytes;
  original_sibling_tree_hash : bytes;
}.

Definition HpkeCiphertext : Type := bytes * bytes.

Class TreeCrypto := {
  crypto_hash : HashType → bytes → option bytes;
  (** ciphersuite, input keying material; the public and the private key *)
  crypto_derive_hpke_keypair : Ciphersuite → bytes → option (bytes * bytes);
  (** ciphersuite, the randomness of the encapsulation, public key, info, plaintext *)
  crypto_hpke_seal : Ciphersuite → bytes → bytes → bytes → bytes → option HpkeCiphertext;
  (** ciphersuite, ciphertext, private key, info *)
  crypto_hpke_open : Ciphersuite → HpkeCiphertext → bytes → bytes → option bytes;
  tls_tree_hash_input : TreeHashInput → option bytes;
  tls_parent_hash_input : ParentHashInput → option bytes;
  (** label and context of [EncryptContext] *)
  tls_encrypt_context : bytes → bytes → option bytes;
  (** [Signable::sign] *)
  sign_leaf_node : LeafNodeTbs → option bytes;
}.

Abbreviation MlsTree := (tree.ABinaryTree TreeSyncLeafNode TreeSyncParentNode) (only parsing).
Abbreviation TreeSyncDiff := (diff.AbDiff TreeSyncLeafNode TreeSyncParentNode) (only parsing).

Record TreeSync := MkTreeSync { sync_tree : MlsTree; sync_tree_hash : bytes }.

Record StagedTreeSyncDiff := MkStagedTreeSyncDiff {
  staged_diff : diff.StagedAbDiff TreeSyncLeafNode TreeSyncParentNode;
  new_tree_hash : bytes;
}.

(** ** [diff.rs]: leaves *)

(** The free function [rightmost_full_leaf], and the two methods *)
Definition rightmost_full_leaf (leaves : list (treemath.LeafNodeIndex * TreeSyncLeafNode)) : treemath.LeafNodeIndex :=
  foldl (λ index '(leaf_index, leaf), match leaf with Some _ => leaf_index | None => index end) 0 leaves.

(** The loop [while leaf_is_left]; the result of [shrink_tree] is not looked at. *)
Fixpoint trim_loop (fuel : nat) (rightmost : treemath.LeafNodeIndex) (d : TreeSyncDiff) : option TreeSyncDiff :=
  if treemath.leaf_is_left (diff.size d) rightmost then
    match fuel with
    | O => None
    | S fuel => trim_loop fuel rightmost (match diff.shrink_tree d with Ok d => d | Err _ => d end)
    end
  else Some d.

Definition trim_tree (d : TreeSyncDiff) : option TreeSyncDiff :=
  if diff.leaf_count d =? treemath.MIN_TREE_SIZE then Some d
  else trim_loop 32 (rightmost_full_leaf (diff.leaves d)) d.

Definition update_leaf (d : TreeSyncDiff) (leaf_node : LeafNode) (leaf_index : treemath.LeafNodeIndex) :
    option TreeSyncDiff :=
  diff.set_direct_path_to_node (diff.replace_leaf d leaf_index (Some leaf_node)) leaf_index None.

Definition blank_leaf (d : TreeSyncDiff) (leaf_index : treemath.LeafNodeIndex) : option TreeSyncDiff :=
  diff.set_direct_path_to_node (diff.replace_leaf d leaf_index None) leaf_index None.

Fixpoint first_blank (leaves : list (treemath.LeafNodeIndex * TreeSyncLeafNode)) (leaf_count : N) :
    treemath.LeafNodeIndex :=
  match leaves with
  | [] => leaf_count
  | (leaf_index, None) :: _ => leaf_index
  | (_, Some _) :: leaves => first_blank leaves (leaf_count + 1)
  end.

Definition free_leaf_index (d : TreeSyncDiff) : treemath.LeafNodeIndex := first_blank (diff.leaves d) 0.

(** The loop [while leaf_index.u32() >= self.diff.size().leaf_count()] *)
Fixpoint grow_to (fuel : nat) (leaf_index : treemath.LeafNodeIndex) (d : TreeSyncDiff) :
    option (result TreeSyncAddLeaf TreeSyncDiff) :=
  if treemath.leaf_count (diff.size d) <=? leaf_index then
    match fuel with
    | O => None
    | S fuel =>
        match diff.grow_tree d with
        | Ok d => grow_to fuel leaf_index d
        | Err _ => Some (Err AddLeafTreeFull)
        end
    end
  else Some (Ok d).

Definition add_leaf (d : TreeSyncDiff) (leaf_node : LeafNode) :
    option (result TreeSyncAddLeaf (treemath.LeafNodeIndex * TreeSyncDiff)) :=
  let leaf_index := free_leaf_index d in
  let!? d <- grow_to 32 leaf_index d in
  let d := diff.replace_leaf d leaf_index (Some leaf_node) in
  let! path <- diff.direct_path d leaf_index in
  let add_unmerged tsn :=
    match tsn with Some parent_node => Some (add_unmerged_leaf parent_node leaf_index) | None => None end in
  Some (Ok (leaf_index, foldl (λ d parent_index, diff.parent_mut d parent_index add_unmerged) d path)).

(** ** Resolutions *)

Definition Resolution : Type := list (treemath.TreeNodeIndex * NodeReference).

Fixpoint resolution_from (fuel : nat) (d : TreeSyncDiff) (node_index : treemath.TreeNodeIndex)
    (excluded_indices : gset treemath.LeafNodeIndex) : option Resolution :=
  match fuel with
  | O => None
  | S fuel =>
      match node_index with
      | treemath.Leaf leaf_index =>
          if decide (leaf_index ∈ excluded_indices) then Some []
          else
            match diff.leaf d leaf_index with
            | Some leaf => Some [(treemath.Leaf leaf_index, LeafReference leaf)]
            | None => Some []
            end
      | treemath.Parent parent_index =>
          match diff.parent d parent_index with
          | Some parent =>
              Some ((treemath.Parent parent_index, ParentReference parent) ::
                omap (λ leaf_index,
                  if decide (leaf_index ∈ excluded_indices) then None
                  else
                    match diff.leaf d leaf_index with
                    | Some leaf => Some (treemath.Leaf leaf_index, LeafReference leaf)
                    | None => None
                    end) (unmerged_leaves parent))
          | None =>
              let! left_resolution <- resolution_from fuel d (diff.left_child d parent_index) excluded_indices in
              let! right_resolution <- resolution_from fuel d (diff.right_child d parent_index) excluded_indices in
              Some (left_resolution ++ right_resolution)
          end
      end
  end.

Definition resolution := resolution_from 33.

(** An iterator's [map] whose function contains a loop *)
Fixpoint map_loops {A B} (f : A → option B) (l : list A) : option (list B) :=
  match l with
  | [] => Some []
  | x :: l => let! y <- f x in let! l <- map_loops f l in Some (y :: l)
  end.

Definition copath_resolutions (d : TreeSyncDiff) (leaf_index : treemath.LeafNodeIndex) : option (list Resolution) :=
  if diff.leaf_count d =? treemath.MIN_TREE_SIZE then Some []
  else
    let! copath <- diff.copath d leaf_index in
    map_loops (λ node_index, resolution d node_index ∅) copath.

(** The nodes whose copath resolution is not empty *)
Definition filtered {A} (nodes : list A) (resolutions : list Resolution) : list A :=
  omap (λ e, match e.2 with [] => None | _ => Some e.1 end) (zip nodes resolutions).

Definition filtered_direct_path (d : TreeSyncDiff) (leaf_index : treemath.LeafNodeIndex) :
    option (list treemath.ParentNodeIndex) :=
  let! direct_path <- diff.direct_path d leaf_index in
  let! copath_resolutions <- copath_resolutions d leaf_index in
  Some (filtered direct_path copath_resolutions).

Definition filtered_copath (d : TreeSyncDiff) (leaf_index : treemath.LeafNodeIndex) :
    option (list treemath.TreeNodeIndex) :=
  let! copath <- diff.copath d leaf_index in
  let! copath_resolutions <- copath_resolutions d leaf_index in
  Some (filtered copath copath_resolutions).

Definition excludes (exclusion_list : gset treemath.LeafNodeIndex) (r : Resolution) : Resolution :=
  omap (λ e,
    match e.1 with
    | treemath.Leaf leaf_index => if decide (leaf_index ∈ exclusion_list) then None else Some e
    | treemath.Parent _ => Some e
    end) r.

Definition filtered_copath_resolutions (d : TreeSyncDiff) (leaf_index : treemath.LeafNodeIndex)
    (exclusion_list : gset treemath.LeafNodeIndex) : option (list Resolution) :=
  if diff.leaf_count d =? 1 then Some []
  else
    let! copath <- diff.copath d leaf_index in
    let! resolutions <- map_loops (λ node_index, resolution d node_index ∅) copath in
    Some (omap (λ r, match r with [] => None | _ => Some (excludes exclusion_list r) end) resolutions).

(** [Iterator::position] *)
Fixpoint position (p : treemath.ParentNodeIndex) (path : list treemath.ParentNodeIndex) : option nat :=
  match path with
  | [] => None
  | x :: path => if x =? p then Some 0%nat else option_map S (position p path)
  end.

Definition subtree_root_position (d : TreeSyncDiff) (x y : treemath.LeafNodeIndex) :
    option (result LibraryError nat) :=
  let subtree_root := diff.lowest_common_ancestor d x y in
  let! path <- filtered_direct_path d x in
  Some (ok_or (position subtree_root path) (CustomError "index should be in the direct path")).

Definition filtered_common_direct_path (d : TreeSyncDiff) (x y : treemath.LeafNodeIndex) :
    option (list treemath.ParentNodeIndex) :=
  let! x_path <- filtered_direct_path d x in
  let! y_path <- filtered_direct_path d y in
  Some (reverse (treemath.common_prefix (reverse x_path) (reverse y_path))).

(** [encryption_keys] *)
Definition encryption_keys (d : TreeSyncDiff) (leaf_index : treemath.LeafNodeIndex) : option (list EncryptionKey) :=
  let own := match diff.leaf d leaf_index with Some leaf => [leaf_encryption_key leaf] | None => [] end in
  let! path <- filtered_direct_path d leaf_index in
  Some (own ++ omap (λ parent_index,
    match diff.parent d parent_index with
    | Some node =>
        if decide (leaf_index ∈ unmerged_leaves node) then None else Some (parent_encryption_key node)
    | None => None
    end) path).

(** ** Hashes *)

Section hashes.
Context {crypto : TreeCrypto}.
Implicit Types d : TreeSyncDiff.

Definition hash_payload (c : Ciphersuite) (serialized : option bytes) : result LibraryError bytes :=
  let? payload <- ok_or serialized MissingBoundCheck in
  ok_or (crypto_hash (hash_algorithm c) payload) UnexpectedCryptoError.

(** [TreeHashInput::hash] and [ParentHashInput::hash] *)
Definition tree_hash_input (c : Ciphersuite) (i : TreeHashInput) : result LibraryError bytes :=
  hash_payload c (tls_tree_hash_input i).
Definition parent_hash_input (c : Ciphersuite) (i : ParentHashInput) : result LibraryError bytes :=
  hash_payload c (tls_parent_hash_input i).

(** [TreeSyncLeafNode::compute_tree_hash] and [TreeSyncParentNode::compute_tree_hash] *)
Definition leaf_tree_hash (c : Ciphersuite) (node : TreeSyncLeafNode) (leaf_index : treemath.LeafNodeIndex) :=
  tree_hash_input c (LeafNodeHashInput leaf_index node).

Definition parent_tree_hash (c : Ciphersuite) (node : TreeSyncParentNode) (left_hash right_hash : bytes)
    (exclusion_list : gset treemath.LeafNodeIndex) : result LibraryError bytes :=
  if decide (exclusion_list = ∅) then tree_hash_input c (ParentNodeHashInput node left_hash right_hash)
  else
    match node with
    | Some parent_node =>
        let new_node := set_unmerged_leaves parent_node
          (filter (λ leaf, leaf ∉ exclusion_list) (unmerged_leaves parent_node)) in
        tree_hash_input c (ParentNodeHashInput (Some new_node) left_hash right_hash)
    | None => tree_hash_input c (ParentNodeHashInput None left_hash right_hash)
    end.

(** [TreeSyncDiff::compute_tree_hash] *)
Fixpoint tree_hash_from (fuel : nat) (c : Ciphersuite) d (node_index : treemath.TreeNodeIndex)
    (exclusion_list : gset treemath.LeafNodeIndex) : option (result LibraryError bytes) :=
  match fuel with
  | O => None
  | S fuel =>
      match node_index with
      | treemath.Leaf leaf_index =>
          Some (leaf_tree_hash c
            (if decide (leaf_index ∈ exclusion_list) then None else diff.leaf d leaf_index) leaf_index)
      | treemath.Parent parent_index =>
          let!? left_hash <- tree_hash_from fuel c d (diff.left_child d parent_index) exclusion_list in
          let!? right_hash <- tree_hash_from fuel c d (diff.right_child d parent_index) exclusion_list in
          Some (parent_tree_hash c (diff.parent d parent_index) left_hash right_hash exclusion_list)
      end
  end.

Definition compute_tree_hash := tree_hash_from 33.

Definition compute_tree_hashes (c : Ciphersuite) d : option (result LibraryError bytes) :=
  compute_tree_hash c d (diff.root d) ∅.

(** [ParentNode::compute_parent_hash] *)
Definition compute_parent_hash (c : Ciphersuite) (p : ParentNode) (original_sibling_tree_hash : bytes) :=
  parent_hash_input c (MkParentHashInput (parent_encryption_key p) (parent_hash p) original_sibling_tree_hash).

(** ** Parent hashes of a path *)

Definition Path : Type := list (treemath.ParentNodeIndex * ParentNode).

(** The loop from the root down, over the path and the copath in reverse; the nodes come back in
    the order of the loop, with the last parent hash. *)
Fixpoint hash_down (c : Ciphersuite) d (nodes : list ((treemath.ParentNodeIndex * ParentNode) * treemath.TreeNodeIndex))
    (previous_parent_hash : bytes) : option (result LibraryError (Path * bytes)) :=
  match nodes with
  | [] => Some (Ok ([], previous_parent_hash))
  | ((index, path_node), copath_node) :: nodes =>
      let path_node := set_parent_hash path_node previous_parent_hash in
      let!? original_sibling_tree_hash <- compute_tree_hash c d copath_node ∅ in
      let!? parent_hash <- Some (compute_parent_hash c path_node original_sibling_tree_hash) in
      let!? (path, last) <- hash_down c d nodes parent_hash in
      Some (Ok ((index, path_node) :: path, last))
  end.

Definition set_parent_hashes (c : Ciphersuite) d (path : Path) (leaf_index : treemath.LeafNodeIndex) :
    option (result ApplyUpdatePathError (Path * bytes)) :=
  match path with
  | [] => Some (Ok ([], []))
  | _ =>
      let! filtered_copath <- filtered_copath d leaf_index in
      if negb (length filtered_copath =? length path)%nat then Some (Err PathLengthMismatch)
      else
        let! r <- hash_down c d (zip (reverse path) (reverse filtered_copath)) [] in
        Some (map_err PathLibraryError (let? (path, hash) <- r in Ok (reverse path, hash)))
  end.

Definition process_update_path (c : Ciphersuite) d (leaf_index : treemath.LeafNodeIndex) (path : Path) :
    option (result ApplyUpdatePathError (bytes * TreeSyncDiff)) :=
  let!? (path, parent_hash) <- set_parent_hashes c d path leaf_index in
  let! direct_path_nodes <- diff.direct_path d leaf_index in
  let d := foldl (λ d node, diff.parent_mut d node (λ _, None)) d direct_path_nodes in
  let d := foldl (λ d e, diff.parent_mut d e.1 (λ _, Some e.2)) d path in
  Some (Ok (parent_hash, d)).

(** ** Verification *)

Definition carries (hash : bytes) (e : treemath.TreeNodeIndex * NodeReference) : bool :=
  match e.2 with
  | LeafReference leaf => match leaf_parent_hash leaf with Some h => bool_decide (h = hash) | None => false end
  | ParentReference parent => bool_decide (parent_hash parent = hash)
  end.

(** The loop over the parents *)
Fixpoint verify_parents (c : Ciphersuite) d (parents : list (treemath.ParentNodeIndex * TreeSyncParentNode)) :
    option (result TreeSyncParentHashError ()) :=
  match parents with
  | [] => Some (Ok ())
  | (_, None) :: parents => verify_parents c d parents
  | (parent_index, Some parent_node) :: parents =>
      let left_child := diff.left_child d parent_index in
      let right_child := diff.right_child d parent_index in
      let exclusion_list := list_to_set (unmerged_leaves parent_node) in
      let! oth_left <- compute_tree_hash c d left_child exclusion_list in
      let!? oth_left <- Some (map_err ParentHashLibraryError oth_left) in
      let! oth_right <- compute_tree_hash c d right_child exclusion_list in
      let!? oth_right <- Some (map_err ParentHashLibraryError oth_right) in
      let!? parent_hash_left <- Some (map_err ParentHashLibraryError (compute_parent_hash c parent_node oth_right)) in
      let!? parent_hash_right <- Some (map_err ParentHashLibraryError (compute_parent_hash c parent_node oth_left)) in
      let! left_resolution <- resolution d left_child exclusion_list in
      let! right_resolution <- resolution d right_child exclusion_list in
      let left_descendant := existsb (carries parent_hash_left) left_resolution in
      let right_descendant := existsb (carries parent_hash_right) right_resolution in
      if xorb (negb left_descendant) right_descendant then Some (Err InvalidParentHash)
      else verify_parents c d parents
  end.

Definition verify_parent_hashes (c : Ciphersuite) d : option (result TreeSyncParentHashError ()) :=
  verify_parents c d (diff.parents d).

(** [debug_assert!(self.verify_parent_hashes(..))] is not compiled. *)
Definition into_staged_diff (c : Ciphersuite) d : option (result LibraryError StagedTreeSyncDiff) :=
  let!? new_tree_hash <- compute_tree_hashes c d in
  Some (Ok (MkStagedTreeSyncDiff (diff.stage d) new_tree_hash)).

(** ** [TreeSync] *)

Definition merge_tree_sync (t : TreeSync) (tree_sync_diff : StagedTreeSyncDiff) : TreeSync :=
  MkTreeSync (merge_diff (sync_tree t) (staged_diff tree_sync_diff)) (new_tree_hash tree_sync_diff).

Definition populate_parent_hashes (c : Ciphersuite) (t : TreeSync) : option (result LibraryError TreeSync) :=
  let!? staged_diff <- into_staged_diff c (empty_diff (sync_tree t)) in
  Some (Ok (merge_tree_sync t staged_diff)).
End hashes.

(** ** Ratchet trees *)

Definition RatchetTree : Type := list (option Node).

(** [RatchetTree::trimmed] *)
Fixpoint without_trailing_blanks (nodes : list (option Node)) : list (option Node) :=
  match nodes with
  | [] => []
  | node :: nodes =>
      match without_trailing_blanks nodes, node with
      | [], None => []
      | rest, _ => node :: rest
      end
  end.

Definition trimmed (nodes : list (option Node)) : RatchetTree := without_trailing_blanks nodes.

(** The function [export_ratchet_tree] of [diff.rs]; the methods of [TreeSync] and of the diffs
    call it, or are a copy of it, with their leaves and parents. *)
Definition export_nodes (leaves : list (treemath.LeafNodeIndex * TreeSyncLeafNode))
    (parents : list (treemath.ParentNodeIndex * TreeSyncParentNode)) (max_length : treemath.LeafNodeIndex)
    (leaves_count parents_count : nat) : RatchetTree :=
  match take (S (N.to_nat max_length)) leaves.*2 with
  | [] => trimmed []
  | leaf :: leaves =>
      let parents := take (N.to_nat max_length) parents.*2
                     ++ replicate (leaves_count - 1 - parents_count) (None : TreeSyncParentNode) in
      trimmed ((NodeLeaf <$> leaf) ::
        concat (zip_with (λ leaf parent, [NodeParent <$> parent; NodeLeaf <$> leaf]) leaves parents))
  end.

Definition export_ratchet_tree_of leaves parents : RatchetTree :=
  export_nodes leaves parents (rightmost_full_leaf leaves) (length leaves) (length parents).

Definition export_diff (d : TreeSyncDiff) : RatchetTree := export_ratchet_tree_of (diff.leaves d) (diff.parents d).

Definition export_staged (s : StagedTreeSyncDiff) (original_tree : MlsTree) : RatchetTree :=
  export_ratchet_tree_of (diff.staged_leaves (staged_diff s) original_tree)
    (diff.staged_parents (staged_diff s) original_tree).

Definition export_ratchet_tree (t : TreeSync) : RatchetTree :=
  export_ratchet_tree_of (tree.leaves (sync_tree t)) (tree.parents (sync_tree t)).

Inductive TreeSyncFromNodesError :=
| FromNodesLibraryError (e : LibraryError)
| MalformedTree
| FromNodesInvalidParentHash.

Section from_ratchet_tree.
Context {crypto : TreeCrypto}.

(** The loop over the nodes; [i] is the position of the next one. *)
Fixpoint sort_nodes (i : nat) (nodes : RatchetTree) (leaves : list TreeSyncLeafNode) (parents : list TreeSyncParentNode) :
    result TreeSyncFromNodesError (list TreeSyncLeafNode * list TreeSyncParentNode) :=
  match nodes with
  | [] => Ok (leaves, parents)
  | node :: nodes =>
      if (i mod 2 =? 0)%nat then
        match node with
        | Some (NodeLeaf l) => sort_nodes (S i) nodes (leaves ++ [Some l]) parents
        | Some (NodeParent _) => Err MalformedTree
        | None => sort_nodes (S i) nodes (leaves ++ [None]) parents
        end
      else
        match node with
        | Some (NodeParent p) => sort_nodes (S i) nodes leaves (parents ++ [Some p])
        | Some (NodeLeaf _) => Err MalformedTree
        | None => sort_nodes (S i) nodes leaves (parents ++ [None])
        end
  end.

Definition from_ratchet_tree (c : Ciphersuite) (ratchet_tree : RatchetTree) :
    option (result TreeSyncFromNodesError TreeSync) :=
  let!? (leaf_nodes, parent_nodes) <- Some (sort_nodes 0 ratchet_tree [] []) in
  let!? t <- Some (map_err (λ _, MalformedTree) (tree.from_components leaf_nodes parent_nodes)) in
  let tree_sync := MkTreeSync t [] in
  let! verified <- verify_parent_hashes c (empty_diff t) in
  let!? _ <- Some (map_err (λ e, match e with
    | ParentHashLibraryError e => FromNodesLibraryError e
    | InvalidParentHash => FromNodesInvalidParentHash
    end) verified) in
  let! populated <- populate_parent_hashes c tree_sync in
  Some (map_err FromNodesLibraryError populated).
End from_ratchet_tree.
