(* ===== verification/MlsTreeViews.v ===== *)
(** * Trees and diffs by position

    What the operations of [MlsTreeSync.v] do, told in the positions of [MlsTree.v]: the direct
    path of a leaf goes [up] through the [levels] of the tree, its copath is what lies to the
    [side] of it; [res] is the textbook resolution of a node, and [kept] are the levels that a
    filtered path keeps.  The loops end on every diff that stands for a tree. *)

From S2P Require Import Prelude MlsTree MlsBinaryTree MlsCrypto MlsTreeSync.
From stdpp Require Import options.

Local Open Scope N_scope.

(** ** Paths *)

Definition levels (n : N) : list nat := seq 0 (N.to_nat n).

(** The parent above the leaf at the level *)
Definition up (i : N) (k : nat) : treemath.ParentNodeIndex := node (N.of_nat k) (i `div` 2 ^ (N.of_nat k + 1)).

(** The node at the level that is the sibling of the one above the leaf *)
Definition side (i : N) (k : nat) : N := sib (i `div` 2 ^ N.of_nat k).

Lemma elem_of_levels n k : k ∈ levels n ↔ N.of_nat k < n.
Proof. unfold levels. rewrite elem_of_seq. lia. Qed.

Lemma direct_path_up n i : n <= 30 → i < 2 ^ n →
  treemath.direct_path i (full n) = Some (up i <$> levels n).
Proof.
  intros Hn Hi. rewrite direct_path_full by done. f_equal. apply list_eq. intros m.
  rewrite list_lookup_fmap. unfold levels. destruct (decide (m < N.to_nat n)%nat) as [Hm|Hm].
  - rewrite ancestors_lookup, lookup_seq_lt by done. done.
  - rewrite lookup_seq_ge by lia. apply lookup_ge_None_2. rewrite ancestors_length. lia.
Qed.

Lemma copath_side n i : 1 <= n <= 30 → i < 2 ^ n →
  treemath.copath i (full n) = Some ((λ k, tree_node (N.of_nat k) (side i k)) <$> levels n).
Proof.
  intros Hn Hi. destruct (copath_nodes n i Hn Hi) as (path & -> & Hlen & Hk). f_equal. apply list_eq. intros m.
  rewrite list_lookup_fmap. unfold levels. destruct (decide (m < N.to_nat n)%nat) as [Hm|Hm].
  - rewrite lookup_seq_lt by done. cbn. specialize (Hk (N.of_nat m) ltac:(lia)). by rewrite Nat2N.id in Hk.
  - rewrite lookup_seq_ge by lia. apply lookup_ge_None_2. lia.
Qed.

Lemma quotient_in_tree n i k : k <= n → i < 2 ^ n → i `div` 2 ^ k < 2 ^ (n - k).
Proof.
  intros Hk Hi. apply N.Div0.div_lt_upper_bound. rewrite <-N.pow_add_r. by replace (k + (n - k)) with n by lia.
Qed.

Lemma sib_bound n j : 1 <= n → j < 2 ^ n → sib j < 2 ^ n.
Proof.
  intros Hn Hj. destruct (halves j) as [b Hb]. set (q := j `div` 2) in *. clearbody q. subst j.
  rewrite sib_halves. replace n with (N.succ (n - 1)) in * by lia. rewrite N.pow_succ_r' in *.
  destruct b; cbn in *; lia.
Qed.

Lemma side_in_tree n i k : N.of_nat k < n → i < 2 ^ n → side i k < 2 ^ (n - N.of_nat k).
Proof. intros Hk Hi. apply sib_bound; [lia|]. apply quotient_in_tree; [lia|done]. Qed.

Lemma side_fits n i k : n <= 30 → N.of_nat k < n → i < 2 ^ n → fits (N.of_nat k) (side i k).
Proof. intros Hn Hk Hi. apply (fits_in_tree n); [done|lia|]. by apply side_in_tree. Qed.

(** Two indices on the path of a leaf, or of two leaves *)
Lemma up_inj i j k m : up i k = up j m → k = m ∧ i `div` 2 ^ (N.of_nat k + 1) = j `div` 2 ^ (N.of_nat k + 1).
Proof. unfold up. intros [Hk Hi]%node_inj. assert (k = m) as -> by lia. done. Qed.

Lemma up_bound n i k : N.of_nat k < n → i < 2 ^ n → up i k < 2 ^ n - 1.
Proof.
  intros Hk Hi. unfold up. set (j := i `div` _). pose proof (node_value (N.of_nat k) j) as Hv.
  assert (Hj : j < 2 ^ (n - (N.of_nat k + 1))) by (apply quotient_in_tree; [lia|done]).
  assert (Hp : 2 ^ n = 2 ^ N.of_nat k * (2 * 2 ^ (n - (N.of_nat k + 1)))).
  { rewrite <-N.pow_succ_r', <-N.pow_add_r. f_equal. lia. }
  pose proof (pow_positive (N.of_nat k)). nia.
Qed.

(** A leaf below a node has it on its path. *)
Lemma up_below leaf k j : below leaf (N.of_nat k + 1) j ↔ up leaf k = node (N.of_nat k) j.
Proof.
  unfold below, up. split; [by intros ->|]. by intros [_ ->]%node_inj.
Qed.

Lemma below_halves leaf k j : below leaf (k + 1) j ↔ below leaf k (2 * j) ∨ below leaf k (2 * j + 1).
Proof.
  unfold below. rewrite N.pow_add_r, N.pow_1_r, <-N.Div0.div_div.
  set (q := leaf `div` 2 ^ k). destruct (halves q) as [b Hb]. set (p := q `div` 2) in *. clearbody p. subst q.
  rewrite Hb. destruct b; cbn; lia.
Qed.

Lemma below_side leaf i k : below leaf (N.of_nat k) (side i k) ↔ parts_at leaf i (N.of_nat k).
Proof. unfold below, side. by rewrite parts_at_sib. Qed.

(** ** Loops *)

Lemma map_loops_some {K A B} (f : A → option B) (g : K → A) (h : K → B) l :
  (∀ k, k ∈ l → f (g k) = Some (h k)) → map_loops f (g <$> l) = Some (h <$> l).
Proof.
  induction l as [|k l IH]; intros Hf; [done|]. rewrite !fmap_cons. cbn [map_loops]. rewrite Hf by left.
  by rewrite IH by (intros; apply Hf; by right).
Qed.

(** ** Resolutions *)

Section resolutions.
Implicit Types d : TreeSyncDiff.

Definition leaf_entry d (excluded : gset N) (i : N) : option (treemath.TreeNodeIndex * NodeReference) :=
  if decide (i ∈ excluded) then None
  else match diff.leaf d i with Some l => Some (treemath.Leaf i, LeafReference l) | None => None end.

Fixpoint res d (excluded : gset N) (k : nat) (j : N) : Resolution :=
  match k with
  | O => match leaf_entry d excluded j with Some e => [e] | None => [] end
  | S k =>
      match diff.parent d (node (N.of_nat k) j) with
      | Some p => (treemath.Parent (node (N.of_nat k) j), ParentReference p) ::
                    omap (leaf_entry d excluded) (unmerged_leaves p)
      | None => res d excluded k (2 * j) ++ res d excluded k (2 * j + 1)
      end
  end.

Lemma resolution_res fuel d excluded k j : (k < fuel)%nat → (k <= 30)%nat → fits (N.of_nat k) j →
  resolution_from fuel d (tree_node (N.of_nat k) j) excluded = Some (res d excluded k j).
Proof.
  revert k j. induction fuel as [|fuel IH]; intros k j Hf Hk Hj; [lia|]. cbn [resolution_from].
  destruct k as [|k].
  - change (tree_node (N.of_nat 0) j) with (treemath.Leaf j). cbn. unfold leaf_entry. case_decide; [done|]. by destruct (diff.leaf d j).
  - replace (N.of_nat (S k)) with (N.of_nat k + 1) in * by lia. rewrite tree_node_S. cbn [res].
    destruct (diff.parent d (node (N.of_nat k) j)) as [p|]; [done|].
    unfold diff.left_child, diff.right_child. rewrite left_node, right_node by (done || lia).
    rewrite !IH by (lia || apply (fits_child _ _ false) in Hj as Hl; apply (fits_child _ _ true) in Hj as Hr;
      cbn in Hl, Hr; rewrite ?N.add_0_r in *; done). done.
Qed.

Lemma resolution_node d excluded k j : (k <= 30)%nat → fits (N.of_nat k) j →
  resolution d (tree_node (N.of_nat k) j) excluded = Some (res d excluded k j).
Proof. intros. apply resolution_res; [lia|done..]. Qed.

Lemma excludes_app excluded r r' : excludes excluded (r ++ r') = excludes excluded r ++ excludes excluded r'.
Proof. apply omap_app. Qed.

Lemma excludes_leaf d excluded i :
  excludes excluded (match leaf_entry d ∅ i with Some e => [e] | None => [] end)
  = match leaf_entry d excluded i with Some e => [e] | None => [] end.
Proof.
  unfold leaf_entry, excludes. rewrite decide_False by set_solver.
  destruct (diff.leaf d i); cbn; case_decide; done.
Qed.

(** Leaving leaves out afterwards is leaving them out on the way. *)
Lemma excludes_res d excluded k j : excludes excluded (res d ∅ k j) = res d excluded k j.
Proof.
  revert j. induction k as [|k IH]; intros j; cbn [res]; [apply excludes_leaf|].
  destruct (diff.parent d _) as [p|]; [|by rewrite excludes_app, !IH].
  cbn. f_equal. induction (unmerged_leaves p) as [|i l IHl]; [done|].
  cbn [omap list_omap]. pose proof (excludes_leaf d excluded i) as E.
  destruct (leaf_entry d ∅ i), (leaf_entry d excluded i); cbn in *; rewrite ?IHl; repeat case_match; congruence.
Qed.

(** ** Which nodes have a resolution *)

Definition occupied d (k : nat) (j : N) : bool := match res d ∅ k j with [] => false | _ => true end.

Definition full_leaf d (i : N) : Prop := is_Some (diff.leaf d i).

Lemma occupied_S d k j :
  occupied d (S k) j =
    match diff.parent d (node (N.of_nat k) j) with
    | Some _ => true
    | None => occupied d k (2 * j) || occupied d k (2 * j + 1)
    end.
Proof.
  unfold occupied. cbn [res]. destruct (diff.parent d _); [done|]. by destruct (res d ∅ k (2 * j)).
Qed.

Lemma occupied_leaf d j : occupied d 0 j = true ↔ full_leaf d j.
Proof.
  unfold occupied, full_leaf. cbn [res]. unfold leaf_entry. rewrite decide_False by set_solver.
  destruct (diff.leaf d j); split; (done || intros []; done).
Qed.

Lemma occupied_full d k j i : full_leaf d i → below i (N.of_nat k) j → occupied d k j = true.
Proof.
  intros Hf. revert j. induction k as [|k IH]; intros j Hb.
  - apply occupied_leaf. unfold below in Hb. by rewrite N.div_1_r in Hb; subst.
  - rewrite occupied_S. destruct (diff.parent d _); [done|].
    replace (N.of_nat (S k)) with (N.of_nat k + 1) in Hb by lia. apply below_halves in Hb as [Hb|Hb].
    + by rewrite (IH _ Hb).
    + rewrite (IH _ Hb). apply orb_true_r.
Qed.

(** Only which nodes are blank counts. *)
Lemma occupied_ext d d' k j :
  (∀ i, below i (N.of_nat k) j → full_leaf d i ↔ full_leaf d' i) →
  (∀ i m, below i (N.of_nat k) j → (m < k)%nat → diff.parent d (up i m) = None ↔ diff.parent d' (up i m) = None) →
  occupied d k j = occupied d' k j.
Proof.
  revert j. induction k as [|k IH]; intros j Hl Hp.
  - apply eq_true_iff_eq. rewrite !occupied_leaf. apply Hl. unfold below. by rewrite N.div_1_r.
  - rewrite !occupied_S. replace (N.of_nat (S k)) with (N.of_nat k + 1) in * by lia.
    assert (Hb : below (j * 2 ^ (N.of_nat k + 1)) (N.of_nat k + 1) j).
    { unfold below. apply N.div_mul, N.pow_nonzero. done. }
    specialize (Hp _ k Hb ltac:(lia)) as Hn. rewrite (proj1 (up_below _ _ _) Hb) in Hn.
    rewrite (IH (2 * j)), (IH (2 * j + 1)).
    + destruct (diff.parent d _), (diff.parent d' _); try done; exfalso; naive_solver.
    + intros i Hi. apply Hl. apply below_halves. by right.
    + intros i m Hi Hm. apply Hp; [apply below_halves; by right|lia].
    + intros i Hi. apply Hl. apply below_halves. by left.
    + intros i m Hi Hm. apply Hp; [apply below_halves; by left|lia].
Qed.

(** ** Filtered paths *)

Definition kept d (n i : N) : list nat := filter (λ k, occupied d k (side i k)) (levels n).

Lemma elem_of_kept d n i k : k ∈ kept d n i ↔ N.of_nat k < n ∧ occupied d k (side i k) = true.
Proof. unfold kept. rewrite list_elem_of_filter, elem_of_levels, Is_true_true. naive_solver. Qed.

Lemma filtered_cons {A} (x : A) xs (r : Resolution) rs :
  filtered (x :: xs) (r :: rs) = match r with [] => [] | _ => [x] end ++ filtered xs rs.
Proof. by destruct r. Qed.

Lemma filtered_levels {A} d i (f : nat → A) l :
  filtered (f <$> l) ((λ k, res d ∅ k (side i k)) <$> l) = f <$> filter (λ k, occupied d k (side i k)) l.
Proof.
  induction l as [|k l IH]; [done|]. rewrite !fmap_cons, filtered_cons, IH.
  destruct (occupied d k (side i k)) eqn:E.
  - rewrite filter_true, fmap_cons by done. unfold occupied in E. by destruct (res d ∅ k (side i k)).
  - rewrite filter_false by done. unfold occupied in E. by destruct (res d ∅ k (side i k)).
Qed.

Section standing.
Context (d : TreeSyncDiff) (n : N).
Hypothesis Hd : stands d n.

Lemma stands_30 : n <= 30.
Proof using Hd. pose proof (stands_max _ _ Hd). lia. Qed.

Lemma diff_direct_path i : i < 2 ^ n → diff.direct_path d i = Some (up i <$> levels n).
Proof using Hd.
  intros Hi. unfold diff.direct_path. rewrite (stands_size _ _ Hd). apply direct_path_up; [apply stands_30|done].
Qed.

Lemma diff_copath i : 1 <= n → i < 2 ^ n →
  diff.copath d i = Some ((λ k, tree_node (N.of_nat k) (side i k)) <$> levels n).
Proof using Hd.
  intros Hn Hi. unfold diff.copath. rewrite (stands_size _ _ Hd). pose proof stands_30. apply copath_side; [lia|done].
Qed.

Lemma side_resolution i k excluded : i < 2 ^ n → k ∈ levels n →
  resolution d (tree_node (N.of_nat k) (side i k)) excluded = Some (res d excluded k (side i k)).
Proof using Hd.
  intros Hi Hk%elem_of_levels. pose proof stands_30. apply resolution_node; [lia|]. by apply (side_fits n).
Qed.

Lemma single_leaf : n = 0 ∨ 1 <= n ∧ diff.leaf_count d ≠ 1.
Proof using Hd.
  destruct (N.eq_dec n 0) as [|Hn]; [by left|right]. split; [lia|]. rewrite (stands_leaf_count _ _ Hd).
  assert (2 ^ 1 <= 2 ^ n) by (apply pow_bound; lia). change (2 ^ 1) with 2 in *. lia.
Qed.

Lemma side_resolutions i : 1 <= n → i < 2 ^ n →
  map_loops (λ node_index, resolution d node_index ∅) ((λ k, tree_node (N.of_nat k) (side i k)) <$> levels n)
  = Some ((λ k, res d ∅ k (side i k)) <$> levels n).
Proof using Hd.
  intros Hn Hi. apply map_loops_some. intros k Hk. by apply side_resolution.
Qed.

Lemma copath_resolutions_levels i : i < 2 ^ n →
  copath_resolutions d i = Some ((λ k, res d ∅ k (side i k)) <$> levels n).
Proof using Hd.
  intros Hi. unfold copath_resolutions. destruct single_leaf as [->|[Hn Hne]].
  - by rewrite (stands_leaf_count _ _ Hd).
  - rewrite (proj2 (N.eqb_neq _ _)) by done. rewrite diff_copath by done. by apply side_resolutions.
Qed.

Lemma filtered_direct_path_kept i : i < 2 ^ n → filtered_direct_path d i = Some (up i <$> kept d n i).
Proof using Hd.
  intros Hi. unfold filtered_direct_path. rewrite diff_direct_path, copath_resolutions_levels by done.
  f_equal. apply filtered_levels.
Qed.

Lemma filtered_copath_kept i : i < 2 ^ n →
  filtered_copath d i = Some ((λ k, tree_node (N.of_nat k) (side i k)) <$> kept d n i).
Proof using Hd.
  intros Hi. unfold filtered_copath. rewrite copath_resolutions_levels by done. destruct single_leaf as [->|[Hn Hne]].
  - unfold diff.copath, treemath.copath. rewrite (stands_size _ _ Hd), direct_path_up by done. done.
  - rewrite diff_copath by done. f_equal. apply filtered_levels.
Qed.

Lemma filtered_copath_resolutions_kept i excluded : i < 2 ^ n →
  filtered_copath_resolutions d i excluded = Some ((λ k, res d excluded k (side i k)) <$> kept d n i).
Proof using Hd.
  intros Hi. unfold filtered_copath_resolutions. destruct single_leaf as [E|[Hn Hne]].
  - unfold kept. by rewrite (stands_leaf_count _ _ Hd), E.
  - rewrite (proj2 (N.eqb_neq _ _)), diff_copath, side_resolutions by done. f_equal. unfold kept.
    induction (levels n) as [|k l IH]; [done|]. rewrite fmap_cons. destruct (occupied d k (side i k)) eqn:E.
    + rewrite filter_true, fmap_cons, <-IH, <-(excludes_res d excluded) by done. unfold occupied in E.
      by destruct (res d ∅ k (side i k)).
    + rewrite filter_false, <-IH by done. unfold occupied in E. by destruct (res d ∅ k (side i k)).
Qed.
End standing.
End resolutions.

(** * The members of a tree

    What adding, updating and blanking leaves and trimming the tree do to the nodes that a diff
    shows, and the invariants they keep: [reach] (the diff and the tree behind it have no gap, so
    that the iterators show every leaf under its own index) and [tidy] (a parent that is not
    blank has members on both sides). *)

Local Open Scope N_scope.

Section members.
Implicit Types d : TreeSyncDiff.

(** ** Without gaps *)

(** The first [m] leaves are there, and the parents between them. *)
Record reach d (m : N) : Prop := {
  reach_tree : N.of_nat (length (tree.leaf_nodes (diff.original_tree d))) <= m;
  reach_end i : m <= i → diff.leaf_diff d !! i = None;
  reach_leaf i : N.of_nat (length (tree.leaf_nodes (diff.original_tree d))) <= i → i < m →
    is_Some (diff.leaf_diff d !! i);
  reach_parent p : N.of_nat (length (tree.parent_nodes (diff.original_tree d))) <= p → p + 1 < m →
    is_Some (diff.parent_diff d !! p);
}.

Lemma empty_reach (t : MlsTree) : well_formed t → reach (empty_diff t) (N.of_nat (length (tree.leaf_nodes t))).
Proof.
  intros Ht. pose proof (wf_nodes t Ht). split; cbn.
  - lia.
  - intros. apply lookup_empty.
  - lia.
  - lia.
Qed.

(** The map under the iterator *)
Lemma tree_entry {A} (l : list A) (x : A) i : N.of_nat (length l) <= treemath.MAX_TREE_SIZE →
  (list_to_map (imap (λ index y, (wrap32 (N.of_nat index), y)) l) : gmap N A) !! i = l !! N.to_nat i.
Proof.
  intros Hl. rewrite (indexed_table l x), table_map_lookup by done. case_decide as Hi.
  - destruct (l !! N.to_nat i) eqn:E; [done|]. apply lookup_ge_None_1 in E. lia.
  - symmetry. apply lookup_ge_None_2. lia.
Qed.

Lemma tree_entries_ordered {A} (l : list A) : N.of_nat (length l) <= treemath.MAX_TREE_SIZE →
  ordered (imap (λ index y, (wrap32 (N.of_nat index), y)) l).
Proof.
  intros Hl. destruct l as [|x l']; [constructor|]. rewrite (indexed_table _ x) by done. apply table_ordered.
Qed.

Lemma nodes_bound d n : stands d n →
  N.of_nat (length (tree.leaf_nodes (diff.original_tree d))) <= treemath.MAX_TREE_SIZE ∧
  N.of_nat (length (tree.parent_nodes (diff.original_tree d))) <= treemath.MAX_TREE_SIZE.
Proof. intros Hd. destruct (stands_tree _ _ Hd) as [_ Hs _ _]. lia. Qed.

Lemma raw_lookup {A} (m : gmap N A) (nodes : list A) (x : A) i : N.of_nat (length nodes) <= treemath.MAX_TREE_SIZE →
  (list_to_map (entries m) ∪ list_to_map (imap (λ index y, (wrap32 (N.of_nat index), y)) nodes) : gmap N A) !! i
  = match m !! i with Some y => Some y | None => nodes !! N.to_nat i end.
Proof.
  intros Hl. rewrite lookup_union, (tree_entry _ x) by done. rewrite map_of_entries.
  destruct (m !! i), (nodes !! N.to_nat i); done.
Qed.

Lemma leaves_table d n m : stands d n → reach d m →
  diff.leaves d = table (diff.leaf d) (N.to_nat (N.min m (2 ^ n))).
Proof.
  intros Hd [Ht He Hl _]. destruct (nodes_bound d n Hd) as [Hb _]. unfold diff.leaves, diff.raw_leaves, tree.leaves.
  rewrite sorted_iter_spec by (apply entries_ordered || by apply tree_entries_ordered).
  rewrite (stands_leaf_count _ _ Hd).
  assert (Hin : ∀ i, i < N.min m (2 ^ n) → (list_to_map (entries (diff.leaf_diff d)) ∪ list_to_map
    (imap (λ index y, (wrap32 (N.of_nat index), y)) (tree.leaf_nodes (diff.original_tree d))) : gmap N _) !! i
    = Some (diff.leaf d i)).
  { intros i Hi. rewrite (raw_lookup (A := TreeSyncLeafNode) _ _ None) by done. unfold diff.leaf. rewrite (stands_leaf_count _ _ Hd).
    destruct (diff.leaf_diff d !! i) eqn:E; [done|]. rewrite (proj2 (N.leb_gt _ _)) by lia.
    unfold tree.leaf_by_index. apply lookup_default.
    destruct (N.lt_ge_cases i (N.of_nat (length (tree.leaf_nodes (diff.original_tree d))))); [lia|].
    destruct (Hl i) as [y Ey]; [done|lia|]. congruence. }
  destruct (N.le_gt_cases m (2 ^ n)) as [Hm|Hm].
  - rewrite (entries_dense _ (diff.leaf d) (N.to_nat m)).
    + rewrite take_ge by (rewrite table_length; lia). f_equal. lia.
    + intros i Hi. apply Hin. lia.
    + intros i Hi. rewrite (raw_lookup (A := TreeSyncLeafNode) _ _ None), He by (done || lia). apply lookup_ge_None_2. lia.
  - replace (N.to_nat (N.min m (2 ^ n))) with (N.to_nat (2 ^ n)) by lia. apply entries_prefix.
    intros i Hi. apply Hin. lia.
Qed.

(** The parents between the first [m] leaves *)
Lemma parents_table d n m : stands d n → reach d m → m <= 2 ^ n →
  take (N.to_nat (m - 1)) (diff.parents d) = table (diff.parent d) (N.to_nat (m - 1)).
Proof.
  intros Hd [Ht _ _ Hp] Hm. destruct (nodes_bound d n Hd) as [_ Hb]. unfold diff.parents, diff.raw_parents, tree.parents.
  rewrite sorted_iter_spec by (apply entries_ordered || by apply tree_entries_ordered).
  rewrite (stands_parent_count _ _ Hd), take_take. pose proof (pow_positive n).
  replace (N.to_nat (m - 1) `min` N.to_nat (2 ^ n - 1))%nat with (N.to_nat (m - 1)) by lia.
  apply entries_prefix. intros i Hi. rewrite (raw_lookup (A := TreeSyncParentNode) _ _ None) by done. unfold diff.parent.
  destruct (diff.parent_diff d !! i) eqn:E; [done|]. unfold tree.parent_by_index. apply lookup_default.
  destruct (N.lt_ge_cases i (N.of_nat (length (tree.parent_nodes (diff.original_tree d))))); [lia|].
  destruct (Hp i) as [y Ey]; [done|lia|]. congruence.
Qed.

(** ** Editing parents *)

(** Only entries of parents were written. *)
Record only_parents d d' : Prop := {
  only_tree : diff.original_tree d' = diff.original_tree d;
  only_leaves : diff.leaf_diff d' = diff.leaf_diff d;
  only_size : diff.size d' = diff.size d;
  only_leaf : diff.default_leaf d' = diff.default_leaf d;
  only_parent : diff.default_parent d' = diff.default_parent d;
  only_more p : is_Some (diff.parent_diff d !! p) → is_Some (diff.parent_diff d' !! p);
}.

Lemma only_parents_refl d : only_parents d d.
Proof. by split. Qed.

Lemma only_parents_trans d d' d'' : only_parents d d' → only_parents d' d'' → only_parents d d''.
Proof. intros [] []. split; congruence || eauto. Qed.

Lemma only_parents_mut d p f : only_parents d (diff.parent_mut d p f).
Proof.
  rewrite parent_mut_replace. split; try done. intros q. cbn. rewrite lookup_insert_is_Some'. auto.
Qed.

Lemma only_parents_view d d' i : only_parents d d' → diff.leaf d' i = diff.leaf d i.
Proof.
  intros [H1 H2 H3 H4 _ _]. unfold diff.leaf, diff.leaf_count. by rewrite H1, H2, H3, H4.
Qed.

Lemma only_parents_stands d d' n : only_parents d d' → stands d n → stands d' n.
Proof. intros [H1 H2 H3 H4 H5 _] []. split; congruence. Qed.

Lemma only_parents_reach d d' m : only_parents d d' → reach d m → reach d' m.
Proof. intros [H1 H2 _ _ _ H6] []. split; rewrite ?H1, ?H2; auto. Qed.

(** A write through each of the references in turn *)
Definition edit_parents d (path : list N) (f : TreeSyncParentNode → TreeSyncParentNode) : TreeSyncDiff :=
  foldl (λ d p, diff.parent_mut d p f) d path.

Lemma edit_parents_only d path f : only_parents d (edit_parents d path f).
Proof.
  unfold edit_parents. revert d. induction path as [|p path IH]; intros d; [apply only_parents_refl|].
  cbn [foldl]. eapply only_parents_trans; [apply only_parents_mut|apply IH].
Qed.

Lemma parent_edit_parents d path f p : NoDup path →
  diff.parent (edit_parents d path f) p = if decide (p ∈ path) then f (diff.parent d p) else diff.parent d p.
Proof.
  unfold edit_parents. revert d. induction path as [|q path IH]; intros d Hn; [done|].
  apply NoDup_cons in Hn as [Hq Hn]. cbn [foldl]. rewrite IH by done.
  rewrite parent_mut_replace, parent_replace_parent.
  destruct (decide (p ∈ path)) as [Hp|Hp]; destruct (decide (q = p)) as [->|Hne]; try done.
  - by rewrite decide_True by by right.
  - by rewrite decide_True by by left.
  - rewrite decide_False; [done|]. rewrite elem_of_cons. naive_solver.
Qed.

Lemma edit_parents_entry d path f p : p ∈ path → is_Some (diff.parent_diff (edit_parents d path f) !! p).
Proof.
  unfold edit_parents. revert d. induction path as [|q path IH]; intros d Hp; [by apply elem_of_nil in Hp|].
  apply elem_of_cons in Hp as [->|Hp]; cbn [foldl]; [|by apply IH].
  apply (only_more _ _ (edit_parents_only (diff.parent_mut d q f) path f)).
  rewrite parent_mut_replace. cbn. rewrite lookup_insert_eq. by eexists.
Qed.

Lemma set_path_edit d n i : stands d n → i < 2 ^ n →
  diff.set_direct_path_to_node d i None = Some (edit_parents d (up i <$> levels n) (λ _, None)).
Proof.
  intros Hd Hi. unfold diff.set_direct_path_to_node. rewrite (diff_direct_path d n) by done. f_equal.
  unfold edit_parents. revert d Hd. induction (up i <$> levels n) as [|p l IH]; intros d Hd; [done|].
  cbn [foldl]. rewrite parent_mut_replace. unfold edit_parents in *. by rewrite IH by (by split; destruct Hd).
Qed.

Lemma path_nodup i n : NoDup (up i <$> levels n).
Proof.
  apply NoDup_fmap_2_strong; [|apply NoDup_seq]. intros k m _ _ E. by apply up_inj in E as [-> _].
Qed.

Lemma elem_of_path i n p : p ∈ (up i <$> levels n) ↔ ∃ k, N.of_nat k < n ∧ p = up i k.
Proof. rewrite list_elem_of_fmap. setoid_rewrite elem_of_levels. naive_solver. Qed.

(** ** Leaves *)

Lemma stands_replace_leaf d n i x : stands d n → stands (diff.replace_leaf d i x) n.
Proof. by intros []; split. Qed.

Lemma reach_replace_leaf d m i x : reach d m → i < m → reach (diff.replace_leaf d i x) m.
Proof.
  intros [H1 H2 H3 H4] Hi. split; cbn; [done| |..|done].
  - intros j Hj. rewrite lookup_insert_ne by lia. by apply H2.
  - intros j Hj Hm. apply lookup_insert_is_Some'. right. by apply H3.
Qed.

(** A leaf is written and its direct path blanked. *)
Definition written d d' (n i : N) (x : TreeSyncLeafNode) : Prop :=
  (∀ j, diff.leaf d' j = if decide (i = j) then x else diff.leaf d j) ∧
  (∀ p, diff.parent d' p = if decide (p ∈ (up i <$> levels n)) then None else diff.parent d p) ∧
  diff.original_tree d' = diff.original_tree d.

Lemma write_leaf d n m i x : stands d n → reach d m → i < m → i < 2 ^ n →
  ∃ d', diff.set_direct_path_to_node (diff.replace_leaf d i x) i None = Some d' ∧
    stands d' n ∧ reach d' m ∧ written d d' n i x.
Proof.
  intros Hd Hr Hm Hi. pose proof (stands_replace_leaf d n i x Hd) as Hd1.
  rewrite (set_path_edit _ n) by done. eexists. split; [done|].
  pose proof (edit_parents_only (diff.replace_leaf d i x) (up i <$> levels n) (λ _, None)) as Ho.
  split; [by eapply only_parents_stands|]. split; [by eapply only_parents_reach, reach_replace_leaf|].
  split; [|split; [|exact (only_tree _ _ Ho)]].
  - intros j. rewrite (only_parents_view _ _ _ Ho). apply leaf_replace_leaf.
  - intros p. rewrite parent_edit_parents by apply path_nodup. done.
Qed.

Lemma update_leaf_spec d n m i l : stands d n → reach d m → i < m → i < 2 ^ n →
  ∃ d', update_leaf d l i = Some d' ∧ stands d' n ∧ reach d' m ∧ written d d' n i (Some l).
Proof. apply write_leaf. Qed.

Lemma blank_leaf_spec d n m i : stands d n → reach d m → i < m → i < 2 ^ n →
  ∃ d', blank_leaf d i = Some d' ∧ stands d' n ∧ reach d' m ∧ written d d' n i None.
Proof. apply write_leaf. Qed.

(** ** A new leaf *)

Lemma odd_part m : 0 < m → ∃ k j, m = 2 ^ k * (2 * j + 1).
Proof.
  induction (N.lt_wf_0 m) as [m _ IH]. intros Hm. destruct (halves m) as [b Hb].
  set (q := m `div` 2) in *. clearbody q. destruct b; cbn in Hb.
  - exists 0, q. rewrite N.pow_0_r. lia.
  - destruct (IH q) as (k & j & E); [lia..|]. exists (k + 1), j. rewrite N.pow_add_r. lia.
Qed.

(** The parent between a leaf and the one before it is above it. *)
Lemma up_before m n : 0 < m < 2 ^ n → m - 1 ∈ (up m <$> levels n).
Proof.
  intros Hm. destruct (odd_part m) as (k & j & E); [lia|]. apply elem_of_path. exists (N.to_nat k).
  unfold up. rewrite N2Nat.id. assert (Hj : m `div` 2 ^ (k + 1) = j).
  { symmetry. apply (N.div_unique _ _ _ (2 ^ k)); [apply N.pow_lt_mono_r; lia|]. rewrite N.pow_add_r. lia. }
  rewrite Hj. pose proof (node_value k j). split; [|lia].
  destruct (N.lt_ge_cases k n) as [|Hge]; [done|]. pose proof (pow_bound n k Hge). nia.
Qed.

Lemma first_blank_spec (f : N → TreeSyncLeafNode) c len :
  let i := first_blank ((λ i, (N.of_nat i, f (N.of_nat i))) <$> seq c len) (N.of_nat c) in
  N.of_nat c <= i <= N.of_nat (c + len) ∧ (∀ j, N.of_nat c <= j < i → is_Some (f j)) ∧
  (i < N.of_nat (c + len) → f i = None).
Proof.
  revert c. induction len as [|len IH]; intros c.
  - cbn. split; [lia|]. split; lia.
  - rewrite <-cons_seq, fmap_cons. cbn [first_blank]. destruct (f (N.of_nat c)) eqn:E.
    + replace (N.of_nat c + 1) with (N.of_nat (S c)) by lia. destruct (IH (S c)) as (H1 & H2 & H3).
      cbn zeta. set (i := first_blank _ _) in *. split; [lia|]. split; [|intros; apply H3; lia].
      intros j Hj. destruct (N.eq_dec j (N.of_nat c)) as [->|]; [by eexists|]. apply H2. lia.
    + cbn. split; [lia|]. split; [lia|done].
Qed.

Lemma free_leaf_spec d n m : stands d n → reach d m → m <= 2 ^ n →
  free_leaf_index d <= m ∧ (∀ j, j < free_leaf_index d → full_leaf d j) ∧ diff.leaf d (free_leaf_index d) = None.
Proof.
  intros Hd Hr Hm. unfold free_leaf_index. rewrite (leaves_table d n m) by done.
  replace (N.min m (2 ^ n)) with m by lia. unfold table.
  destruct (first_blank_spec (diff.leaf d) 0 (N.to_nat m)) as (H1 & H2 & H3). cbn zeta in *.
  set (i := first_blank _ _) in *. split; [lia|]. split; [intros j Hj; apply H2; lia|].
  destruct (N.lt_ge_cases i m) as [Hlt|Hge]; [apply H3; lia|].
  unfold diff.leaf. rewrite (reach_end _ _ Hr) by done. rewrite (stands_leaf_count _ _ Hd).
  case_match; [apply Hd|]. apply tree_leaf_beyond; [apply Hd|]. pose proof (reach_tree _ _ Hr). lia.
Qed.

Lemma with_size_leaf d n m s i : stands d n → reach d m → m <= 2 ^ n → 2 ^ n <= treemath.leaf_count s →
  diff.leaf (diff.with_size d s) i = diff.leaf d i.
Proof.
  intros Hd Hr Hm Hs. unfold diff.leaf, diff.leaf_count. rewrite (stands_size _ _ Hd). cbn.
  pose proof (stands_max _ _ Hd). rewrite full_leaf_count by lia.
  destruct (diff.leaf_diff d !! i) eqn:E; [done|]. pose proof (reach_tree _ _ Hr).
  assert (Hb : 2 ^ n <= i → tree.leaf_by_index (diff.original_tree d) i = None).
  { intros Hi. apply tree_leaf_beyond; [apply Hd|lia]. }
  rewrite (stands_leaf _ _ Hd).
  destruct (N.leb_spec (2 ^ n) i), (N.leb_spec (treemath.leaf_count s) i); try done; [by apply Hb|lia].
Qed.

Lemma grow_to_spec d n m i : stands d n → reach d m → m <= 2 ^ n → i <= m →
  (i < 2 ^ n ∧ grow_to 32 i d = Some (Ok d)) ∨
  (i = 2 ^ n ∧ n = 29 ∧ grow_to 32 i d = Some (Err AddLeafTreeFull)) ∨
  (i = 2 ^ n ∧ n < 29 ∧ grow_to 32 i d = Some (Ok (diff.with_size d (full (n + 1))))).
Proof.
  intros Hd Hr Hm Hi. pose proof (stands_max _ _ Hd) as Hn. cbn [grow_to].
  rewrite (stands_size _ _ Hd), full_leaf_count by lia.
  destruct (N.leb_spec (2 ^ n) i) as [Hge|Hlt]; [|by left]. right. assert (i = 2 ^ n) as -> by lia.
  destruct (N.eq_dec n 29) as [->|Hne].
  - left. by rewrite (proj2 (stands_full d 29 Hd)).
  - right. destruct (stands_grow d n Hd) as (d' & -> & -> & _); [lia|]. split; [done|]. split; [lia|].
    cbn [grow_to diff.with_size diff.size]. rewrite full_leaf_count by lia.
    rewrite (proj2 (N.leb_gt _ _)); [done|]. apply N.pow_lt_mono_r; lia.
Qed.

(** A diff that has not been trimmed *)
Record growing d (n m : N) : Prop := {
  growing_stands : stands d n;
  growing_reach : reach d m;
  growing_room : 1 <= m <= 2 ^ n;
  growing_bare p : 2 ^ n - 1 <= p → diff.parent d p = None;
}.

Lemma empty_growing (t : MlsTree) : well_formed t → ∃ n m, growing (empty_diff t) n m.
Proof.
  intros Ht. destruct (empty_stands t Ht) as (n & Hs & Hl). exists n, (N.of_nat (length (tree.leaf_nodes t))).
  pose proof (wf_nodes t Ht). split; [done|by apply empty_reach|lia|].
  intros p Hp. unfold diff.parent. cbn. rewrite lookup_empty. apply tree_parent_beyond; [done|lia].
Qed.

(** No leaf is shown beyond the first [m]. *)
Lemma growing_end d n m i : growing d n m → m <= i → diff.leaf d i = None.
Proof.
  intros [Hd Hr Hm _] Hi. unfold diff.leaf. rewrite (reach_end _ _ Hr), (stands_leaf _ _ Hd) by done.
  case_match; [done|]. apply tree_leaf_beyond; [apply Hd|]. pose proof (reach_tree _ _ Hr). lia.
Qed.

Lemma growing_full d n m i : growing d n m → full_leaf d i → i < m.
Proof.
  intros Hg [l Hl]. destruct (N.lt_ge_cases i m) as [|Hi]; [done|]. by rewrite (growing_end d n m) in Hl.
Qed.

Lemma growing_write d n m i x : growing d n m → i < m →
  ∃ d', diff.set_direct_path_to_node (diff.replace_leaf d i x) i None = Some d' ∧
    growing d' n m ∧ written d d' n i x.
Proof.
  intros [Hd Hr Hm Hb] Hi. destruct (write_leaf d n m i x Hd Hr Hi) as (d' & E & Hd' & Hr' & Hw); [lia|].
  exists d'. split; [done|]. split; [|done]. split; [done..|]. intros p Hp. rewrite (proj1 (proj2 Hw)).
  case_decide; [done|]. by apply Hb.
Qed.

(** What adding shows: the leaf, and its index in the parents above it *)
Definition with_unmerged (i : N) (p : TreeSyncParentNode) : TreeSyncParentNode :=
  match p with Some p => Some (add_unmerged_leaf p i) | None => None end.

Definition added d d' (n i : N) (l : LeafNode) : Prop :=
  (∀ j, diff.leaf d' j = if decide (i = j) then Some l else diff.leaf d j) ∧
  (∀ p, diff.parent d' p = if decide (p ∈ (up i <$> levels n)) then with_unmerged i (diff.parent d p) else diff.parent d p) ∧
  diff.original_tree d' = diff.original_tree d.

Lemma add_leaf_at d n m i l : growing d n m → i <= m → i < 2 ^ n →
  let d' := edit_parents (diff.replace_leaf d i (Some l)) (up i <$> levels n) (with_unmerged i) in
  growing d' n (N.max m (i + 1)) ∧ added d d' n i l.
Proof.
  intros [Hd Hr Hm Hb] Him Hi d'.
  pose proof (edit_parents_only (diff.replace_leaf d i (Some l)) (up i <$> levels n) (with_unmerged i)) as Ho.
  fold d' in Ho. assert (Ha : added d d' n i l).
  { split; [intros j; rewrite (only_parents_view _ _ _ Ho); apply leaf_replace_leaf|].
    split; [|exact (only_tree _ _ Ho)]. intros p. unfold d'. rewrite parent_edit_parents by apply path_nodup. done. }
  split; [|done]. split.
  - by eapply only_parents_stands, stands_replace_leaf.
  - destruct (N.eq_dec i m) as [->|Hne].
    + replace (N.max m (m + 1)) with (m + 1) by lia. destruct Hr as [H1 H2 H3 H4].
      split; rewrite ?(only_tree _ _ Ho), ?(only_leaves _ _ Ho); cbn; [lia|..].
      * intros j Hj. rewrite lookup_insert_ne by lia. apply H2. lia.
      * intros j Hj Hlt. apply lookup_insert_is_Some'. destruct (N.eq_dec m j); [by left|right]. apply H3; lia.
      * intros p Hp Hlt. destruct (N.eq_dec (p + 1) m) as [E|E].
        -- apply edit_parents_entry. replace p with (m - 1) by lia. apply up_before. lia.
        -- apply (only_more _ _ Ho). cbn. apply H4; lia.
    + replace (N.max m (i + 1)) with m by lia. eapply only_parents_reach; [done|]. apply reach_replace_leaf; [done|lia].
  - lia.
  - intros p Hp. rewrite (proj1 (proj2 Ha)), (Hb p Hp). by case_decide.
Qed.

Lemma growing_with_size d n m : growing d n m → n < 29 → growing (diff.with_size d (full (n + 1))) (n + 1) m.
Proof.
  intros [Hd Hr Hm Hb] Hn. destruct (stands_grow d n Hd Hn) as (d' & _ & -> & Hd').
  pose proof (pow_bound n (n + 1) ltac:(lia)). split; [done|by destruct Hr; split|lia|].
  intros p Hp. apply (Hb p). lia.
Qed.

(** [add_leaf] fills the leftmost blank leaf, or grows the tree when there is none; it fails
    only in the largest tree. *)
Lemma add_leaf_spec d n m l : growing d n m →
  let i := free_leaf_index d in
  i <= m ∧ (∀ j, j < i → full_leaf d j) ∧ diff.leaf d i = None ∧
  ((i = 2 ^ 29 ∧ add_leaf d l = Some (Err AddLeafTreeFull)) ∨
   ∃ d' n', add_leaf d l = Some (Ok (i, d')) ∧ n <= n' ∧ growing d' n' (N.max m (i + 1)) ∧ added d d' n' i l).
Proof.
  intros Hg i. pose proof Hg as [Hd Hr Hm _].
  destruct (free_leaf_spec d n m Hd Hr) as (H1 & H2 & H3); [lia|]. fold i in H1, H2, H3.
  split; [done|]. split; [done|]. split; [done|]. unfold add_leaf. fold i.
  destruct (grow_to_spec d n m i Hd Hr) as [[Hi E]|[(Hi & -> & E)|(Hi & Hn & E)]]; [lia|done|..]; rewrite E.
  - right. rewrite (diff_direct_path _ n) by (done || by apply stands_replace_leaf).
    destruct (add_leaf_at d n m i l Hg H1 Hi) as [Hg' Ha]. do 2 eexists. split; [done|]. split; [done|]. by split.
  - by left.
  - right. pose proof (growing_with_size d n m Hg Hn) as Hg1.
    assert (Hi' : i < 2 ^ (n + 1)) by (rewrite Hi; apply N.pow_lt_mono_r; lia).
    rewrite (diff_direct_path _ (n + 1)) by (done || apply stands_replace_leaf, Hg1).
    destruct (add_leaf_at _ (n + 1) m i l Hg1 H1 Hi') as [Hg' [Ha1 Ha2]].
    eexists _, (n + 1). split; [done|]. split; [lia|]. split; [done|]. split; [|exact Ha2].
    intros j. rewrite Ha1. rewrite (with_size_leaf d n m); [done|done|done|lia|].
    rewrite full_leaf_count by lia. apply pow_bound. lia.
Qed.

(** ** Trimming *)

Lemma rightmost_snoc l i (x : TreeSyncLeafNode) :
  rightmost_full_leaf (l ++ [(i, x)]) = match x with Some _ => i | None => rightmost_full_leaf l end.
Proof. unfold rightmost_full_leaf. by rewrite foldl_app. Qed.

Lemma rightmost_spec (f : N → TreeSyncLeafNode) m :
  let r := rightmost_full_leaf (table f m) in
  (r = 0 ∨ is_Some (f r)) ∧ (r = 0 ∨ r < N.of_nat m) ∧ (∀ i, i < N.of_nat m → is_Some (f i) → i <= r).
Proof.
  induction m as [|m IH]; [cbn; split; [by left|]; split; [by left|lia]|]. rewrite table_S, rightmost_snoc.
  cbn zeta in *. set (r := rightmost_full_leaf (table f m)) in *. destruct IH as (H1 & H2 & H3).
  destruct (f (N.of_nat m)) eqn:E.
  - split; [right; rewrite E; by eexists|]. split; [right; lia|]. lia.
  - split; [done|]. split; [lia|]. intros i Hi Hf. destruct (N.eq_dec i (N.of_nat m)) as [->|].
    + rewrite E in Hf. by destruct Hf.
    + apply H3; [lia|done].
Qed.

(** The diff of the smaller tree *)
Record shrunk d d' (n n' : N) : Prop := {
  shrunk_le : n' <= n;
  shrunk_tree : diff.original_tree d' = diff.original_tree d;
  shrunk_leaf i : i < 2 ^ n' → diff.leaf_diff d' !! i = diff.leaf_diff d !! i;
  shrunk_end i : 2 ^ n' <= i → i < 2 ^ n → diff.leaf_diff d' !! i = None;
  shrunk_beyond i : 2 ^ n <= i → diff.leaf_diff d !! i = None → diff.leaf_diff d' !! i = None;
  shrunk_parent p : p < 2 ^ n' - 1 → diff.parent_diff d' !! p = diff.parent_diff d !! p;
}.

Lemma shrunk_trans d d' d'' n n' n'' : shrunk d d' n n' → shrunk d' d'' n' n'' → shrunk d d'' n n''.
Proof.
  intros [H1 H2 H3 H4 H5 H6] [K1 K2 K3 K4 K5 K6]. pose proof (pow_bound _ _ H1). pose proof (pow_bound _ _ K1).
  split; [lia|congruence|..].
  - intros i Hi. rewrite K3, H3 by lia. done.
  - intros i Hi Hn. destruct (N.lt_ge_cases i (2 ^ n')); [by apply K4|]. apply K5; [done|]. by apply H4.
  - intros i Hi He. apply K5; [lia|]. by apply H5.
  - intros p Hp. rewrite K6, H6 by lia. done.
Qed.

Lemma shrink_shrunk d n : stands d (n + 1) →
  ∃ d', diff.shrink_tree d = Ok d' ∧ stands d' n ∧ shrunk d d' (n + 1) n.
Proof.
  intros Hd. destruct (stands_shrink d n Hd) as (d' & E & Hd' & Ht & Hl & Hp). exists d'.
  split; [done|]. split; [done|]. split; [lia|done|..].
  - intros i Hi. rewrite Hl. destruct (diff.leaf_diff d !! i) eqn:El.
    + by apply map_lookup_filter_Some_2.
    + apply map_lookup_filter_None_2. by left.
  - intros i Hi _. rewrite Hl. apply map_lookup_filter_None_2. right. intros l _. cbn. lia.
  - intros i Hi He. rewrite Hl. apply map_lookup_filter_None_2. by left.
  - intros p Hpp. rewrite Hp. destruct (diff.parent_diff d !! p) eqn:Ep.
    + by apply map_lookup_filter_Some_2.
    + apply map_lookup_filter_None_2. by left.
Qed.

Lemma left_half n r : n <= 29 → treemath.leaf_is_left (full n) r = (1 <=? n) && (r <? 2 ^ (n - 1)).
Proof.
  intros Hn. unfold treemath.leaf_is_left. rewrite full_leaf_count by lia.
  destruct (N.leb_spec 1 n) as [H1|H0]; cbn.
  - f_equal. replace n with (N.succ (n - 1)) at 1 by lia. rewrite N.pow_succ_r', N.mul_comm. by apply N.div_mul.
  - replace n with 0 by lia. cbn. by destruct r.
Qed.

Lemma trim_loop_spec fuel d n r : stands d n → r < 2 ^ n → (N.to_nat n <= fuel)%nat →
  ∃ d' n', trim_loop fuel r d = Some d' ∧ stands d' n' ∧ shrunk d d' n n' ∧
    r < 2 ^ n' ∧ (n' = 0 ∨ 2 ^ (n' - 1) <= r).
Proof.
  revert d n. induction fuel as [|fuel IH]; intros d n Hd Hr Hf; pose proof (stands_max _ _ Hd) as Hn;
    cbn [trim_loop]; rewrite (stands_size _ _ Hd), left_half by done.
  - replace n with 0 in * by lia. exists d, 0. split; [done|]. split; [done|]. split; [|split; [done|by left]].
    split; (done || lia).
  - destruct (N.leb_spec 1 n) as [H1|H0]; cbn [andb].
    + destruct (N.ltb_spec r (2 ^ (n - 1))) as [Hlt|Hge].
      * destruct (shrink_shrunk d (n - 1)) as (d1 & -> & Hd1 & Hs1); [by replace (n - 1 + 1) with n by lia|].
        destruct (IH d1 (n - 1) Hd1 Hlt) as (d' & n' & E & Hd' & Hs' & Hr'); [lia|]. exists d', n'.
        split; [done|]. split; [done|]. split; [|done]. replace (n - 1 + 1) with n in Hs1 by lia. by eapply shrunk_trans.
      * exists d, n. split; [done|]. split; [done|]. split; [|split; [done|by right]]. split; (done || lia).
    + replace n with 0 in * by lia. exists d, 0. split; [done|]. split; [done|]. split; [|split; [done|by left]].
      split; (done || lia).
Qed.

Lemma shrunk_leaf_view d d' n n' i : shrunk d d' n n' → stands d n → stands d' n' → i < 2 ^ n' →
  diff.leaf d' i = diff.leaf d i.
Proof.
  intros Hs Hd Hd' Hi. pose proof (pow_bound _ _ (shrunk_le _ _ _ _ Hs)). unfold diff.leaf.
  rewrite (shrunk_leaf _ _ _ _ Hs), (shrunk_tree _ _ _ _ Hs), (stands_leaf_count _ _ Hd), (stands_leaf_count _ _ Hd') by done.
  by rewrite !(proj2 (N.leb_gt _ _)) by lia.
Qed.

Lemma shrunk_leaf_end d d' n n' m i : shrunk d d' n n' → growing d n m → stands d' n' → 2 ^ n' <= i →
  diff.leaf d' i = None.
Proof.
  intros Hs Hg Hd' Hi. unfold diff.leaf. rewrite (stands_leaf_count _ _ Hd'), (proj2 (N.leb_le _ _)) by done.
  rewrite (stands_leaf _ _ Hd'). destruct (N.lt_ge_cases i (2 ^ n)) as [Hlt|Hge].
  - by rewrite (shrunk_end _ _ _ _ Hs).
  - rewrite (shrunk_beyond _ _ _ _ Hs); [done..|]. apply (reach_end _ m); [apply Hg|].
    pose proof (growing_room _ _ _ Hg). lia.
Qed.

Lemma shrunk_parent_view d d' n n' p : shrunk d d' n n' → p < 2 ^ n' - 1 → diff.parent d' p = diff.parent d p.
Proof.
  intros Hs Hp. unfold diff.parent. by rewrite (shrunk_parent _ _ _ _ Hs), (shrunk_tree _ _ _ _ Hs).
Qed.

(** The diff and the tree behind it keep being without gaps, but the tree may now be longer. *)
Lemma shrunk_reach d d' n n' m : shrunk d d' n n' → stands d n → reach d m → m <= 2 ^ n →
  reach d' (N.max (N.of_nat (length (tree.leaf_nodes (diff.original_tree d)))) (N.min m (2 ^ n'))).
Proof.
  intros [H1 H2 H3 H4 H5 H6] Hd [R1 R2 R3 R4] Hm. pose proof (wf_nodes _ (stands_tree _ _ Hd)) as Hw.
  split; rewrite ?H2; [lia|..].
  - intros i Hi. destruct (N.lt_ge_cases i (2 ^ n')); [rewrite H3 by done; apply R2; lia|].
    destruct (N.lt_ge_cases i (2 ^ n)); [by apply H4|]. apply H5; [done|]. apply R2. lia.
  - intros i Hi Hlt. rewrite H3 by lia. apply R3; lia.
  - intros p Hp Hlt. rewrite H6 by lia. apply R4; lia.
Qed.

Lemma trim_tree_spec d n m : growing d n m →
  ∃ d' n', trim_tree d = Some d' ∧ stands d' n' ∧ shrunk d d' n n' ∧
    (∀ i, full_leaf d i → i < 2 ^ n') ∧ (n' = 0 ∨ ∃ i, full_leaf d i ∧ 2 ^ (n' - 1) <= i).
Proof.
  intros Hg. pose proof Hg as [Hd Hr Hm _]. unfold trim_tree.
  change treemath.MIN_TREE_SIZE with 1. destruct (single_leaf d n Hd) as [->|[Hn Hne]].
  - rewrite (stands_leaf_count _ _ Hd). exists d, 0. split; [done|]. split; [done|]. split; [split; (done || lia)|].
    split; [|by left]. intros i Hf. pose proof (growing_full d 0 m i Hg Hf). lia.
  - rewrite (proj2 (N.eqb_neq _ _)) by done. rewrite (leaves_table d n m) by done.
    replace (N.min m (2 ^ n)) with m by lia. destruct (rightmost_spec (diff.leaf d) (N.to_nat m)) as (H1 & H2 & H3).
    cbn zeta in *. set (r := rightmost_full_leaf _) in *. pose proof (stands_max _ _ Hd). pose proof (pow_positive n).
    destruct (trim_loop_spec 32 d n r Hd) as (d' & n' & E & Hd' & Hs & Hr' & Hn'); [lia|lia|].
    exists d', n'. split; [done|]. split; [done|]. split; [done|]. split.
    + intros i Hf. pose proof (growing_full d n m i Hg Hf). specialize (H3 i ltac:(lia) Hf). lia.
    + destruct Hn' as [|Hn']; [by left|]. right. exists r. split; [|done].
      destruct H1 as [E0|]; [|done]. rewrite E0 in Hn'. pose proof (pow_positive (n' - 1)). lia.
Qed.

(** ** Members on both sides *)

Definition peopled d (k : nat) (j : N) : Prop := ∃ l, full_leaf d l ∧ below l (N.of_nat k) j.

Definition tidy d (n : N) : Prop :=
  ∀ i k p, N.of_nat k < n → i < 2 ^ n → diff.parent d (up i k) = Some p →
    peopled d k (i `div` 2 ^ N.of_nat k) ∧ peopled d k (side i k).

(** Under either side of a parent is under it. *)
Lemma side_up l i k :
  below l (N.of_nat k) (i `div` 2 ^ N.of_nat k) ∨ below l (N.of_nat k) (side i k) → up l k = up i k.
Proof.
  intros H. apply up_below. unfold below. rewrite !N.pow_add_r, N.pow_1_r, <-!N.Div0.div_div.
  destruct H as [H|H]; unfold below in H; rewrite H; [done|]. unfold side. by apply sib_spec.
Qed.

(** Two leaves under the same parent are on the same or on the other side. *)
Lemma up_side l i k : up l k = up i k →
  below l (N.of_nat k) (i `div` 2 ^ N.of_nat k) ∨ below l (N.of_nat k) (side i k).
Proof.
  intros [_ E]%up_inj. unfold below, side. set (a := l `div` 2 ^ N.of_nat k). set (b := i `div` 2 ^ N.of_nat k).
  destruct (N.eq_dec a b) as [|Hne]; [by left|right]. apply sib_spec. split; [done|].
  rewrite !N.pow_add_r, N.pow_1_r, <-!N.Div0.div_div in E. done.
Qed.

Lemma up_range i k n : up i k < 2 ^ n - 1 → N.of_nat k < n ∧ i < 2 ^ n.
Proof.
  unfold up. set (j := i `div` _). intros Hu. pose proof (node_value (N.of_nat k) j) as Hv.
  pose proof (pow_positive (N.of_nat k)).
  assert (Hk : N.of_nat k < n).
  { destruct (N.lt_ge_cases (N.of_nat k) n) as [|Hge]; [done|]. pose proof (pow_bound _ _ Hge). nia. }
  split; [done|]. assert (Hp : 2 ^ n = 2 ^ N.of_nat k * (2 * 2 ^ (n - (N.of_nat k + 1)))).
  { rewrite <-N.pow_succ_r', <-N.pow_add_r. f_equal. lia. }
  assert (Hj : j < 2 ^ (n - (N.of_nat k + 1))) by nia.
  pose proof (N.div_mod i (2 ^ (N.of_nat k + 1))) as Hi. fold j in Hi.
  pose proof (N.mod_lt i (2 ^ (N.of_nat k + 1))) as Hm. rewrite N.pow_add_r, N.pow_1_r in *.
  specialize (Hi ltac:(lia)). specialize (Hm ltac:(lia)). nia.
Qed.

Lemma peopled_mono d d' k j : (∀ l, full_leaf d l → below l (N.of_nat k) j → full_leaf d' l) →
  peopled d k j → peopled d' k j.
Proof. intros Hf (l & Hl & Hb). exists l. auto. Qed.

Lemma tidy_written d d' n i x : i < 2 ^ n → written d d' n i x → tidy d n → tidy d' n.
Proof.
  intros Hi (Hl & Hp & _) Ht i0 k p Hk Hi0 E. rewrite Hp in E. case_decide as Hin; [done|].
  destruct (Ht i0 k p Hk Hi0 E) as [H1 H2].
  assert (Hf : ∀ l, up l k = up i0 k → full_leaf d l → full_leaf d' l).
  { intros l Hu Hfl. unfold full_leaf. rewrite Hl. case_decide as El; [|done]. subst l. destruct Hin.
    apply elem_of_path. by exists k. }
  split; eapply peopled_mono; try eassumption; intros l Hfl Hb; apply Hf; try done; apply side_up; auto.
Qed.

Lemma tidy_added d d' n n' m i l : growing d n m → n <= n' → added d d' n' i l → tidy d n → tidy d' n'.
Proof.
  intros Hg Hn (Hl & Hp & _) Ht i0 k p Hk Hi0 E.
  assert (Hs : is_Some (diff.parent d (up i0 k))).
  { rewrite Hp in E. case_decide; destruct (diff.parent d (up i0 k)); done. }
  destruct Hs as [p0 E0]. destruct (up_range i0 k n) as [Hk0 Hi].
  { destruct (N.lt_ge_cases (up i0 k) (2 ^ n - 1)); [done|]. by rewrite (growing_bare _ _ _ Hg) in E0. }
  destruct (Ht i0 k p0 Hk0 Hi E0) as [H1 H2].
  split; eapply peopled_mono; try eassumption; intros x Hx _; unfold full_leaf; rewrite Hl; case_decide; done.
Qed.

Lemma tidy_shrunk d d' n n' : shrunk d d' n n' → stands d n → stands d' n' →
  (∀ i, full_leaf d i → i < 2 ^ n') → tidy d n → tidy d' n'.
Proof.
  intros Hs Hd Hd' Hf Ht i k p Hk Hi E. pose proof (shrunk_le _ _ _ _ Hs) as Hn.
  rewrite (shrunk_parent_view d d' n n') in E by (done || by apply up_bound).
  pose proof (pow_bound _ _ Hn). destruct (Ht i k p) as [H1 H2]; [lia|lia|done|].
  split; eapply peopled_mono; try eassumption; intros l Hl _; unfold full_leaf;
    rewrite (shrunk_leaf_view d d' n n'); auto.
Qed.

(** ** Merged trees *)

Lemma merged_view d n : stands d n →
  let d' := empty_diff (merge_diff (diff.original_tree d) (diff.stage d)) in
  growing d' n (2 ^ n) ∧ (∀ i, i < 2 ^ n → diff.leaf d' i = diff.leaf d i) ∧
  (∀ p, p < 2 ^ n - 1 → diff.parent d' p = diff.parent d p).
Proof.
  intros Hd d'. destruct (merge_well_formed d n Hd) as [Hw Hs]. destruct (merge_lengths d n Hd) as [H1 H2].
  destruct (merge_reads d n Hd) as (Hl & Hp).
  assert (Hd' : stands d' n) by (split; [done..|apply Hd|done|done]).
  pose proof (pow_positive n). split; [|split].
  - split; [done| |lia|].
    + pose proof (empty_reach _ Hw) as Hr. rewrite H1, N2Nat.id in Hr. exact Hr.
    + intros p Hpp. unfold diff.parent. cbn. rewrite lookup_empty. apply tree_parent_beyond; [done|]. rewrite H2. lia.
  - intros i Hi. unfold diff.leaf. rewrite (stands_leaf_count _ _ Hd'), (proj2 (N.leb_gt _ _)) by done. cbn.
    rewrite lookup_empty. specialize (Hl i). rewrite (stands_leaf_count _ _ Hd), (proj2 (N.ltb_lt _ _)) in Hl by done.
    exact Hl.
  - intros p Hpp. unfold diff.parent. cbn. rewrite lookup_empty. specialize (Hp p).
    rewrite (stands_parent_count _ _ Hd), (proj2 (N.ltb_lt _ _)) in Hp by done. exact Hp.
Qed.

Lemma tidy_merged d n : stands d n → (∀ i, full_leaf d i → i < 2 ^ n) → tidy d n →
  tidy (empty_diff (merge_diff (diff.original_tree d) (diff.stage d))) n.
Proof.
  intros Hd Hf Ht i k p Hk Hi E. destruct (merged_view d n Hd) as (_ & Hl & Hp).
  rewrite Hp in E by by apply up_bound. destruct (Ht i k p Hk Hi E) as [H1 H2].
  split; eapply peopled_mono; try eassumption; intros l Hfl _; unfold full_leaf; rewrite Hl; auto.
Qed.
End members.
