(* ===== verification/MlsRatchets.v ===== *)
(** * Sender ratchets of MLS

    [openmls/src/tree/sender_ratchet.rs] of the in-tree OpenMLS: the chain of secrets of one
    member, the ratchet that encrypts with its head, and the ratchet that decrypts, which
    runs ahead of messages that are missing and keeps the keys of the generations it has
    passed.

    [answer] says what a decryption ratchet promises in terms of the generations it has been
    asked for before; [ratchet_refines_log] is that it keeps the promise. *)

From S2P Require Import Prelude MlsCrypto.
From stdpp Require Import options.

Local Open Scope N_scope.

Abbreviation Generation := N (only parsing).

Inductive SecretTreeError :=
| TooDistantInThePast
| TooDistantInTheFuture
| IndexOutOfBounds
| SecretReuseError
| RatchetTypeError
| RatchetTooLong
| LibraryError
| CodecError
| FromCryptoError (e : CryptoError)
(** Not errors of the source: [clone_from_slice] panics, the loop of [direct_path] does not end. *)
| Panicked
| Endless.

#[export] Instance secret_tree_error_eq_dec : EqDecision SecretTreeError.
Proof. solve_decision. Defined.

Record SenderRatchetConfiguration := MkConfiguration {
  out_of_order_tolerance : Generation;
  maximum_forward_distance : Generation;
}.
Definition default_configuration : SenderRatchetConfiguration := MkConfiguration 5 1000.

Definition RatchetKeyMaterial : Type := AeadKey * AeadNonce.

Record RatchetSecret := MkRatchetSecret { secret : Secret; generation : Generation }.

Definition initial_ratchet_secret (s : Secret) : RatchetSecret := MkRatchetSecret s 0.

Record DecryptionRatchet := MkDecryptionRatchet {
  past_secrets : list (option RatchetKeyMaterial);
  ratchet_head : RatchetSecret;
}.

Inductive SenderRatchet :=
| EncryptionRatchet (r : RatchetSecret)
| Decryption (r : DecryptionRatchet).

Definition new (s : Secret) : DecryptionRatchet := MkDecryptionRatchet [] (initial_ratchet_secret s).

Section ratchets.
Context {crypto : OpenMlsCrypto}.

(** [tree/secret_tree.rs] *)
Definition derive_tree_secret (c : Ciphersuite) (s : Secret) (label : string) (generation : N) (length : N) :
    result SecretTreeError Secret :=
  match kdf_expand_label s c label (to_be_bytes generation) length with
  | Ok s => Ok s
  | Err e => Err (FromCryptoError e)
  end.

(** The three secrets of one turn; the head is replaced when all of them are there. *)
Definition ratchet_secrets (r : RatchetSecret) (c : Ciphersuite) :
    result SecretTreeError (Secret * Secret * Secret) :=
  let? nonce <- derive_tree_secret c (secret r) "nonce" (generation r) (aead_nonce_length c) in
  let? key <- derive_tree_secret c (secret r) "key" (generation r) (aead_key_length c) in
  let? next <- derive_tree_secret c (secret r) "secret" (generation r) (hash_length c) in
  Ok (nonce, key, next).

Definition ratchet_forward (r : RatchetSecret) (c : Ciphersuite) :
    RatchetSecret * result SecretTreeError (Generation * RatchetKeyMaterial) :=
  if generation r =? u32_max then (r, Err RatchetTooLong)
  else
    match ratchet_secrets r c with
    | Err e => (r, Err e)
    | Ok (nonce, key, next) =>
        (MkRatchetSecret next (generation r + 1),
         let? n <- ok_or (nonce_from_secret nonce) Panicked in
         Ok (generation r, (key_from_secret key c, n)))
    end.

Definition prune_past_secrets (r : DecryptionRatchet) (conf : SenderRatchetConfiguration) : DecryptionRatchet :=
  MkDecryptionRatchet (take (N.to_nat (out_of_order_tolerance conf)) (past_secrets r)) (ratchet_head r).

(** The loop of [n] turns, each of which puts its key at the front of the queue *)
Fixpoint run_ahead (n : nat) (r : DecryptionRatchet) (c : Ciphersuite) :
    DecryptionRatchet * result SecretTreeError unit :=
  match n with
  | O => (r, Ok tt)
  | S n =>
      let '(head, res) := ratchet_forward (ratchet_head r) c in
      match res with
      | Ok (_, km) => run_ahead n (MkDecryptionRatchet (Some km :: past_secrets r) head) c
      | Err e => (MkDecryptionRatchet (past_secrets r) head, Err e)
      end
  end.

(** [x as i32], and [- 1] on it *)
Definition as_i32 (x : N) : Z := if x <? 2147483648 then Z.of_N x else (Z.of_N x - 4294967296)%Z.
Definition pred_i32 (z : Z) : Z := if (z =? -2147483648)%Z then 2147483647%Z else (z - 1)%Z.

(** The branch of a generation the ratchet has passed: the key is taken out of its slot. *)
Definition take_past (r : DecryptionRatchet) (g : Generation) :
    DecryptionRatchet * result SecretTreeError RatchetKeyMaterial :=
  let window_index := pred_i32 (as_i32 (generation (ratchet_head r) - g)) in
  if (0 <=? window_index)%Z then
    let index := Z.to_nat window_index in
    match past_secrets r !! index with
    | None => (r, Err IndexOutOfBounds)
    | Some slot =>
        (MkDecryptionRatchet (<[index := None]> (past_secrets r)) (ratchet_head r), ok_or slot SecretReuseError)
    end
  else (r, Err TooDistantInThePast).

Definition secret_for_decryption (r : DecryptionRatchet) (c : Ciphersuite) (g : Generation)
    (conf : SenderRatchetConfiguration) : DecryptionRatchet * result SecretTreeError RatchetKeyMaterial :=
  let head := generation (ratchet_head r) in
  if (head <? u32_max - maximum_forward_distance conf) && (head + maximum_forward_distance conf <? g)
  then (r, Err TooDistantInTheFuture)
  else if (g <? head) && (out_of_order_tolerance conf <? head - g) then (r, Err TooDistantInThePast)
  else if head <=? g then
    let '(r, ahead) := run_ahead (N.to_nat (g - head)) r c in
    match ahead with
    | Err e => (r, Err e)
    | Ok _ =>
        let '(head, res) := ratchet_forward (ratchet_head r) c in
        match res with
        | Err e => (MkDecryptionRatchet (past_secrets r) head, Err e)
        | Ok (_, km) => (prune_past_secrets (MkDecryptionRatchet (None :: past_secrets r) head) conf, Ok km)
        end
    end
  else take_past r g.
End ratchets.

(** ** The chain *)

Lemma lengths_bounds c : 0 < aead_key_length c <= 64 ∧ aead_nonce_length c = 12.
Proof. by destruct c. Qed.

Section chain.
Context {crypto : OpenMlsCrypto} {laws : CryptoLaws}.
Context (c : Ciphersuite) (initial : Secret).

(** The secret of a generation, and its key and nonce *)
Fixpoint chain (g : nat) : Secret :=
  match g with
  | O => initial
  | S g => expand c (chain g) "secret" (to_be_bytes (N.of_nat g)) (hash_length c)
  end.

Definition key_material (g : Generation) : RatchetKeyMaterial :=
  let s := chain (N.to_nat g) in
  (key_from_secret (expand c s "key" (to_be_bytes g) (aead_key_length c)) c,
   MkAeadNonce (secret_value (expand c s "nonce" (to_be_bytes g) (aead_nonce_length c)))).

Definition head_at (g : Generation) : RatchetSecret := MkRatchetSecret (chain (N.to_nat g)) g.

(** What a ratchet promises: [opened] are the generations whose keys it has handed out. *)
Definition next_generation (opened : list Generation) : Generation :=
  foldr (λ g h, N.max (g + 1) h) 0 opened.

Definition answer (conf : SenderRatchetConfiguration) (opened : list Generation) (g : Generation) :
    result SecretTreeError RatchetKeyMaterial :=
  let next := next_generation opened in
  if (next <? u32_max - maximum_forward_distance conf) && (next + maximum_forward_distance conf <? g)
  then Err TooDistantInTheFuture
  else if (g <? next) && (out_of_order_tolerance conf <? next - g) then Err TooDistantInThePast
  else if bool_decide (g ∈ opened) then Err SecretReuseError
  else Ok (key_material g).

Fixpoint answers (conf : SenderRatchetConfiguration) (opened gs : list Generation) :
    list (result SecretTreeError RatchetKeyMaterial) :=
  match gs with
  | [] => []
  | g :: gs =>
      let a := answer conf opened g in
      a :: answers conf (if is_ok a then g :: opened else opened) gs
  end.

(** The ratchet asked for one generation after the other *)
Fixpoint ask_all (conf : SenderRatchetConfiguration) (r : DecryptionRatchet) (gs : list Generation) :
    list (result SecretTreeError RatchetKeyMaterial) :=
  match gs with
  | [] => []
  | g :: gs => let '(r, a) := secret_for_decryption r c g conf in a :: ask_all conf r gs
  end.

Context (whole_initial : whole c initial).

Lemma short_tree_secret label g n :
  (String.length label < 32)%nat → 0 < n <= 64 → short label (to_be_bytes g) n.
Proof. intros. split; [done|]. split; [cbn; lia|done]. Qed.

Lemma chain_whole g : whole c (chain g).
Proof using laws whole_initial.
  induction g as [|g IH]; [done|]. cbn [chain]. apply expand_whole; [done|].
  destruct (hash_length_bounds c). apply short_tree_secret; [cbn; lia|lia].
Qed.

Lemma ratchet_forward_head g : g < u32_max →
  ratchet_forward (head_at g) c = (head_at (g + 1), Ok (g, key_material g)).
Proof using laws whole_initial.
  intros Hg. unfold ratchet_forward, ratchet_secrets, derive_tree_secret, head_at.
  cbn [generation secret]. rewrite (proj2 (N.eqb_neq _ _)) by lia.
  pose proof (chain_whole (N.to_nat g)) as Hw. destruct (lengths_bounds c) as [Hk Hn].
  destruct (hash_length_bounds c).
  assert (Hs : short "nonce" (to_be_bytes g) (aead_nonce_length c)) by (apply short_tree_secret; [cbn; lia|lia]).
  rewrite (expand_ok _ _ _ _ _ Hw Hs).
  rewrite (expand_ok c _ "key") by (done || (apply short_tree_secret; [cbn; lia|lia])).
  rewrite (expand_ok c _ "secret") by (done || (apply short_tree_secret; [cbn; lia|lia])).
  unfold nonce_from_secret. rewrite bool_decide_eq_true_2.
  - cbn [ok_or]. f_equal. replace (N.to_nat (g + 1)) with (S (N.to_nat g)) by lia.
    cbn [chain]. by rewrite N2Nat.id.
  - pose proof (proj2 (expand_spec _ _ _ _ _ Hw Hs)). unfold NONCE_BYTES. lia.
Qed.

Lemma key_material_fits g : let (k, x) := key_material g in
  aead_mode k = aead_algorithm c ∧ N.of_nat (length (key_value k)) = aead_key_length c ∧
  N.of_nat (length (nonce_bytes x)) = aead_nonce_length c.
Proof using laws whole_initial.
  pose proof (chain_whole (N.to_nat g)) as Hw. destruct (lengths_bounds c) as [Hk Hn]. split; [done|].
  split; (apply expand_spec; [done|apply short_tree_secret; [cbn; lia|lia]]).
Qed.

(** ** The window of passed generations *)

Definition slot (opened : list Generation) (g : Generation) : option RatchetKeyMaterial :=
  if bool_decide (g ∈ opened) then None else Some (key_material g).

(** The slots of the [n] generations before [h], the newest first *)
Definition window (opened : list Generation) (h : Generation) (n : nat) : list (option RatchetKeyMaterial) :=
  (λ i, slot opened (h - 1 - N.of_nat i)) <$> seq 0 n.

Lemma window_lookup opened h n i : (i < n)%nat → window opened h n !! i = Some (slot opened (h - 1 - N.of_nat i)).
Proof. intros Hi. unfold window. rewrite list_lookup_fmap, lookup_seq_lt by done. done. Qed.

Lemma window_length opened h n : length (window opened h n) = n.
Proof. unfold window. by rewrite length_fmap, length_seq. Qed.

(** Two windows are one when their slots are. *)
Lemma window_ext l opened h n : length l = n →
  (∀ i, (i < n)%nat → l !! i = Some (slot opened (h - 1 - N.of_nat i))) → l = window opened h n.
Proof.
  intros Hl H. apply list_eq_same_length with n; [by rewrite window_length|done|].
  intros i x y Hi Hx Hy. rewrite H in Hx by done. rewrite window_lookup in Hy by done. by simplify_eq.
Qed.

Lemma window_push x opened opened' h n : N.of_nat n <= h →
  x = slot opened' h → (∀ g, g < h → slot opened g = slot opened' g) →
  x :: window opened h n = window opened' (h + 1) (S n).
Proof.
  intros Hn -> Hs. apply window_ext; [cbn; by rewrite window_length|]. intros [|i] Hi; cbn.
  - do 2 f_equal. lia.
  - rewrite window_lookup by lia. f_equal. rewrite Hs by lia. f_equal. lia.
Qed.

Lemma window_take k opened h n : take k (window opened h n) = window opened h (k `min` n).
Proof.
  apply window_ext; [by rewrite length_take, window_length|]. intros i Hi.
  rewrite lookup_take_lt by lia. apply window_lookup. lia.
Qed.

Lemma slot_open opened g g' : g ≠ g' → slot opened g' = slot (g :: opened) g'.
Proof.
  intros Hne. unfold slot. rewrite (bool_decide_ext (g' ∈ g :: opened) (g' ∈ opened)); [done|].
  rewrite elem_of_cons. split; [by intros [->|]|by right].
Qed.

Lemma window_open opened h n i : (i < n)%nat → N.of_nat n <= h →
  <[i := None]> (window opened h n) = window (h - 1 - N.of_nat i :: opened) h n.
Proof.
  intros Hi Hn. apply window_ext; [by rewrite length_insert, window_length|]. intros j Hj.
  destruct (decide (i = j)) as [<-|Hne].
  - rewrite list_lookup_insert_eq by by rewrite window_length.
    unfold slot. by rewrite bool_decide_eq_true_2 by by left.
  - rewrite list_lookup_insert_ne by done. rewrite window_lookup by done. f_equal. apply slot_open. lia.
Qed.

(** ** The decryption ratchet *)

Lemma next_generation_cons g opened : next_generation (g :: opened) = N.max (g + 1) (next_generation opened).
Proof. done. Qed.

Lemma opened_before opened g : g ∈ opened → g < next_generation opened.
Proof using Type.
  clear whole_initial laws. induction opened as [|g' opened IH]; [by intros ?%elem_of_nil|].
  rewrite next_generation_cons. intros [->|Hg]%elem_of_cons; [lia|]. specialize (IH Hg). lia.
Qed.

Lemma run_ahead_window opened n h m : (∀ g, g ∈ opened → g < h) → N.of_nat m <= h → h + N.of_nat n <= u32_max →
  run_ahead n (MkDecryptionRatchet (window opened h m) (head_at h)) c
  = (MkDecryptionRatchet (window opened (h + N.of_nat n) (m + n)) (head_at (h + N.of_nat n)), Ok tt).
Proof using laws whole_initial.
  revert h m. induction n as [|n IH]; intros h m Ho Hm Hn.
  - cbn. by rewrite N.add_0_r, Nat.add_0_r.
  - cbn [run_ahead ratchet_head past_secrets]. rewrite ratchet_forward_head by lia.
    rewrite (window_push (Some (key_material h)) opened opened) by (done || (unfold slot;
      rewrite bool_decide_eq_false_2; [done|]; intros Hh%Ho; lia)).
    rewrite IH; [|intros g Hg%Ho; lia|lia|lia].
    by replace (h + 1 + N.of_nat n) with (h + N.of_nat (S n)) by lia;
      replace (S m + n)%nat with (m + S n)%nat by lia.
Qed.

Context (conf : SenderRatchetConfiguration) (Htol : out_of_order_tolerance conf <= 2147483648).

(** The ratchet has handed out the keys of [opened]: its head is behind them, and the window of the
    last generations is whole. *)
Record keeps (opened : list Generation) (r : DecryptionRatchet) : Prop := {
  keeps_head : ratchet_head r = head_at (next_generation opened);
  keeps_bound : next_generation opened <= u32_max;
  keeps_window : ∃ n, past_secrets r = window opened (next_generation opened) n ∧
    N.of_nat n <= next_generation opened ∧
    N.min (out_of_order_tolerance conf) (next_generation opened) <= N.of_nat n;
}.

Lemma keeps_new : keeps [] (new initial).
Proof using Type.
  clear Htol. split; [done|apply N.le_0_l|]. exists O. split; [done|]. cbn. lia.
Qed.

(** Ahead of the head *)
Lemma forward_answer opened r g : keeps opened r → next_generation opened <= g < u32_max →
  let n := N.to_nat (g - next_generation opened) in
  ∃ past, run_ahead n r c = (MkDecryptionRatchet past (head_at g), Ok tt) ∧
    keeps (g :: opened) (prune_past_secrets (MkDecryptionRatchet (None :: past) (head_at (g + 1))) conf).
Proof using laws whole_initial.
  clear Htol. intros [Hh Hb (m & Hw & Hm & Ht)] Hg n. set (next := next_generation opened) in *.
  destruct r as [past head]. cbn [past_secrets ratchet_head] in *. subst past head.
  exists (window opened g (m + n)). split.
  { rewrite run_ahead_window; [|apply opened_before|lia|lia].
    by replace (next + N.of_nat n) with g by lia. }
  assert (Hnext : next_generation (g :: opened) = g + 1) by (rewrite next_generation_cons; fold next; lia).
  split; rewrite ?Hnext; [done|lia|].
  exists (N.to_nat (out_of_order_tolerance conf) `min` S (m + n))%nat. split; [|lia].
  cbn [prune_past_secrets past_secrets]. rewrite <-window_take. f_equal.
  apply window_push; [lia| |].
  - unfold slot. by rewrite bool_decide_eq_true_2 by by left.
  - intros g' Hg'. apply slot_open. lia.
Qed.

(** Behind it *)
Lemma past_answer opened r g : keeps opened r → g < next_generation opened →
  next_generation opened - g <= out_of_order_tolerance conf →
  ∃ r', take_past r g = (r', ok_or (slot opened g) SecretReuseError) ∧ keeps (g :: opened) r'.
Proof using Htol.
  intros [Hh Hb (m & Hw & Hm & Ht)] Hg Hin. unfold take_past. rewrite Hh. cbn [generation head_at].
  set (next := next_generation opened) in *.
  assert (Hi : pred_i32 (as_i32 (next - g)) = (Z.of_N (next - g) - 1)%Z).
  { unfold pred_i32, as_i32. destruct (N.ltb_spec (next - g) 2147483648).
    - by rewrite (proj2 (Z.eqb_neq _ _)) by lia.
    - replace (next - g) with 2147483648 by lia. done. }
  rewrite Hi, (proj2 (Z.leb_le _ _)) by lia.
  set (i := Z.to_nat (Z.of_N (next - g) - 1)). assert (Hgi : g = next - 1 - N.of_nat i) by lia.
  rewrite Hw, window_lookup, <-Hgi by lia. eexists. split; [done|].
  assert (Hnext : next_generation (g :: opened) = next) by (rewrite next_generation_cons; fold next; lia).
  split; rewrite ?Hnext; [done|done|]. exists m. split; [|done].
  cbn [past_secrets]. rewrite window_open by lia. by rewrite <-Hgi.
Qed.

Lemma keeps_again opened r g : g ∈ opened → keeps (g :: opened) r → keeps opened r.
Proof using Type.
  clear Htol.
  intros Hg [Hh Hb (m & Hw & Hm & Ht)].
  assert (Hnext : next_generation (g :: opened) = next_generation opened).
  { apply opened_before in Hg. rewrite next_generation_cons. lia. }
  rewrite Hnext in *. split; [done|done|]. exists m. split; [|done]. rewrite Hw.
  symmetry. apply window_ext; [apply window_length|]. intros i Hi. rewrite window_lookup by done.
  f_equal. unfold slot. erewrite bool_decide_ext; [done|].
  rewrite elem_of_cons. split; [by right|by intros [->|]].
Qed.

Lemma decryption_step opened r g : keeps opened r → g < u32_max →
  ∃ r', secret_for_decryption r c g conf = (r', answer conf opened g) ∧
    keeps (if is_ok (answer conf opened g) then g :: opened else opened) r'.
Proof using laws whole_initial Htol.
  intros Hr Hg. unfold secret_for_decryption, answer. rewrite (keeps_head _ _ Hr). cbn [generation head_at].
  destruct (_ && _); [by exists r|].
  destruct (N.ltb_spec g (next_generation opened)) as [Hlt|Hge]; cbn [andb].
  - destruct (N.ltb_spec (out_of_order_tolerance conf) (next_generation opened - g)); [by exists r|].
    rewrite (proj2 (N.leb_gt _ _)) by done.
    destruct (past_answer opened r g Hr) as (r' & -> & Hr'); [done|lia|]. exists r'.
    unfold slot. case_bool_decide; cbn [ok_or is_ok]; [|done]. split; [done|]. by eapply keeps_again.
  - rewrite (proj2 (N.leb_le _ _)) by done. rewrite bool_decide_eq_false_2 by (intros ?%opened_before; lia).
    destruct (forward_answer opened r g Hr) as (past & -> & Hr'); [lia|].
    cbn [ratchet_head past_secrets]. rewrite ratchet_forward_head by done. by eexists.
Qed.

Lemma ask_all_answers opened r gs : keeps opened r → Forall (λ g, g < u32_max) gs →
  ask_all conf r gs = answers conf opened gs.
Proof using laws whole_initial Htol.
  intros Hr Hgs. revert opened r Hr. induction Hgs as [|g gs Hg _ IH]; intros opened r Hr; [done|].
  cbn [ask_all answers]. destruct (decryption_step opened r g Hr Hg) as (r' & -> & Hr').
  f_equal. by apply IH.
Qed.
End chain.

(** Whatever order generations are asked for in, with gaps, repetitions and strangers, a decryption
    ratchet answers as the log of the generations it has handed out says: too far ahead, behind
    the window, used before, and otherwise the key of the generation, which depends on the first secret
    alone. *)
Theorem ratchet_refines_log {crypto : OpenMlsCrypto} {laws : CryptoLaws} c initial conf gs :
  whole c initial → out_of_order_tolerance conf <= 2147483648 → Forall (λ g, g < u32_max) gs →
  ask_all c conf (new initial) gs = answers c initial conf [] gs.
Proof. intros Hw Ht Hgs. apply ask_all_answers; [done..| |done]. apply keeps_new. Qed.

Definition toy_suite : Ciphersuite := MLS_128_DHKEMX25519_AES128GCM_SHA256_Ed25519.
Definition toy_secret (b : Byte.byte) : Secret := MkSecret (replicate 32 b).

(** Seven requests: ahead, back, again, and beyond either end of a window of two *)
Lemma ratchet_refines_log_witness :
  let km := key_material toy_suite (toy_secret Byte.x05) in
  ask_all toy_suite (MkConfiguration 2 10) (new (toy_secret Byte.x05)) [2; 1; 2; 0; 20; 4; 3] =
  [Ok (km 2); Ok (km 1); Err SecretReuseError; Err TooDistantInThePast; Err TooDistantInTheFuture;
   Ok (km 4); Ok (km 3)].
Proof.
  rewrite ratchet_refines_log; [by vm_compute|done|done|]. by repeat constructor.
Defined.
