(* ===== verification/MlsSecretTree.v ===== *)
(** * The secret tree of MLS

    [openmls/src/tree/secret_tree.rs] of the in-tree OpenMLS: the secrets of one epoch, kept
    as a tree of which only the nodes still needed are there.  The secret of a leaf is derived when
    its member's first message comes, the secrets it was derived from are deleted on the way,
    and the leaf's own secret once its two ratchets are there. *)

From S2P Require Import Prelude MlsTree MlsCrypto MlsRatchets.
From stdpp Require Import options.
Import treemath.

Local Open Scope N_scope.

Inductive SecretType := HandshakeSecret | ApplicationSecret.

#[export] Instance secret_type_eq_dec : EqDecision SecretType.
Proof. solve_decision. Defined.

Record SecretTreeNode := MkNode { node_secret : Secret }.

Record SecretTree := MkSecretTree {
  own_index : LeafNodeIndex;
  leaf_nodes : list (option SecretTreeNode);
  parent_nodes : list (option SecretTreeNode);
  handshake_sender_ratchets : list (option SenderRatchet);
  application_sender_ratchets : list (option SenderRatchet);
  size : TreeSize;
}.

(** A call of a method of [&mut self] and what follows its [?] *)
Definition and_then {A B} (m : SecretTree * result SecretTreeError A)
    (k : SecretTree → A → SecretTree * result SecretTreeError B) : SecretTree * result SecretTreeError B :=
  let '(t, r) := m in
  match r with Ok a => k t a | Err e => (t, Err e) end.

(** A call of a function that does not touch the tree *)
Definition with_result {A B} (t : SecretTree) (r : result SecretTreeError A)
    (k : A → SecretTree * result SecretTreeError B) : SecretTree * result SecretTreeError B :=
  match r with Ok a => k a | Err e => (t, Err e) end.

(** ** Nodes and ratchets *)

Definition get_node (t : SecretTree) (index : TreeNodeIndex) : result SecretTreeError (option SecretTreeNode) :=
  match index with
  | Leaf i => ok_or (leaf_nodes t !! N.to_nat i) IndexOutOfBounds
  | Parent i => ok_or (parent_nodes t !! N.to_nat i) IndexOutOfBounds
  end.

(** [*vec.get_mut(i).ok_or(IndexOutOfBounds)? = x] *)
Definition put {A} (l : list A) (i : N) (x : A) : result SecretTreeError (list A) :=
  match l !! N.to_nat i with
  | Some _ => Ok (<[N.to_nat i := x]> l)
  | None => Err IndexOutOfBounds
  end.

Definition set_node (t : SecretTree) (index : TreeNodeIndex) (node : option SecretTreeNode) :
    SecretTree * result SecretTreeError unit :=
  match index with
  | Leaf i =>
      with_result t (put (leaf_nodes t) i node) (λ l,
        (MkSecretTree (own_index t) l (parent_nodes t) (handshake_sender_ratchets t)
           (application_sender_ratchets t) (size t), Ok tt))
  | Parent i =>
      with_result t (put (parent_nodes t) i node) (λ l,
        (MkSecretTree (own_index t) (leaf_nodes t) l (handshake_sender_ratchets t)
           (application_sender_ratchets t) (size t), Ok tt))
  end.

Definition ratchets (t : SecretTree) (secret_type : SecretType) : list (option SenderRatchet) :=
  match secret_type with
  | HandshakeSecret => handshake_sender_ratchets t
  | ApplicationSecret => application_sender_ratchets t
  end.

Definition ratchet_opt (t : SecretTree) (index : LeafNodeIndex) (secret_type : SecretType) :
    result SecretTreeError (option SenderRatchet) :=
  ok_or (ratchets t secret_type !! N.to_nat index) IndexOutOfBounds.

Definition ratchet_mut (t : SecretTree) (index : LeafNodeIndex) (secret_type : SecretType) :
    result SecretTreeError SenderRatchet :=
  ok_or (mjoin (ratchets t secret_type !! N.to_nat index)) IndexOutOfBounds.

Definition set_ratchets (t : SecretTree) (secret_type : SecretType) (l : list (option SenderRatchet)) : SecretTree :=
  match secret_type with
  | HandshakeSecret =>
      MkSecretTree (own_index t) (leaf_nodes t) (parent_nodes t) l (application_sender_ratchets t) (size t)
  | ApplicationSecret =>
      MkSecretTree (own_index t) (leaf_nodes t) (parent_nodes t) (handshake_sender_ratchets t) l (size t)
  end.

Definition put_ratchet (t : SecretTree) (index : LeafNodeIndex) (secret_type : SecretType) (r : SenderRatchet) :
    SecretTree * result SecretTreeError unit :=
  with_result t (put (ratchets t secret_type) index (Some r)) (λ l, (set_ratchets t secret_type l, Ok tt)).

(** The vectors are as long as the tree has leaves, the one of the parents too. *)
Definition new (encryption_secret : Secret) (size : TreeSize) (own_index : LeafNodeIndex) : SecretTree :=
  let leaf_count := N.to_nat (leaf_count size) in
  let t := MkSecretTree own_index (replicate leaf_count None) (replicate leaf_count None)
             (replicate leaf_count None) (replicate leaf_count None) size in
  (set_node t (root size) (Some (MkNode encryption_secret))).1.

(** ** Deriving the secrets of a leaf *)

Section derivation.
Context {crypto : OpenMlsCrypto}.

Definition lift_crypto {A} (r : result CryptoError A) : result SecretTreeError A :=
  match r with Ok a => Ok a | Err e => Err (FromCryptoError e) end.

Definition left_label : bytes := String.list_byte_of_string "left".
Definition right_label : bytes := String.list_byte_of_string "right".

Definition derive_child_secrets (parent_secret : Secret) (c : Ciphersuite) : result CryptoError (Secret * Secret) :=
  let? left_child <- kdf_expand_label parent_secret c "tree" left_label (hash_length c) in
  let? right_child <- kdf_expand_label parent_secret c "tree" right_label (hash_length c) in
  Ok (left_child, right_child).

Definition derive_down (t : SecretTree) (c : Ciphersuite) (index_in_tree : ParentNodeIndex) :
    SecretTree * result SecretTreeError unit :=
  with_result t (get_node t (Parent index_in_tree)) (λ node,
  with_result t (ok_or node LibraryError) (λ node,
  with_result t (lift_crypto (derive_child_secrets (node_secret node) c)) (λ '(left_secret, right_secret),
  and_then (set_node t (left index_in_tree) (Some (MkNode left_secret))) (λ t _,
  and_then (set_node t (right index_in_tree) (Some (MkNode right_secret))) (λ t _,
  set_node t (Parent index_in_tree) None))))).

(** The nodes of the path up to the first that is there *)
Fixpoint empty_nodes (t : SecretTree) (path : list ParentNodeIndex) : result SecretTreeError (list ParentNodeIndex) :=
  match path with
  | [] => Ok []
  | parent_node :: path =>
      let? node <- get_node t (Parent parent_node) in
      match node with
      | Some _ => Ok [parent_node]
      | None => let? rest <- empty_nodes t path in Ok (parent_node :: rest)
      end
  end.

Fixpoint derive_all (t : SecretTree) (c : Ciphersuite) (nodes : list ParentNodeIndex) :
    SecretTree * result SecretTreeError unit :=
  match nodes with
  | [] => (t, Ok tt)
  | n :: nodes => and_then (derive_down t c n) (λ t _, derive_all t c nodes)
  end.

(** [if self.get_node(index.into())?.is_none() { .. }] *)
Definition derive_leaf (t : SecretTree) (c : Ciphersuite) (index : LeafNodeIndex) :
    SecretTree * result SecretTreeError unit :=
  with_result t (get_node t (Leaf index)) (λ node,
  match node with
  | Some _ => (t, Ok tt)
  | None =>
      with_result t (ok_or (direct_path index (size t)) Endless) (λ direct_path,
      with_result t (empty_nodes t direct_path) (λ empty_nodes,
      derive_all t c (reverse empty_nodes)))
  end).

(** The check at the top; the second ratchet is looked up when the first is there. *)
Definition is_initialized (t : SecretTree) (index : LeafNodeIndex) : result SecretTreeError bool :=
  let? handshake <- ratchet_opt t index HandshakeSecret in
  match handshake with
  | None => Ok false
  | Some _ =>
      let? application <- ratchet_opt t index ApplicationSecret in
      Ok (bool_decide (is_Some application))
  end.

(** The own ratchets encrypt, the others decrypt. *)
Definition new_ratchet (t : SecretTree) (index : LeafNodeIndex) (s : Secret) : SenderRatchet :=
  if index =? own_index t then EncryptionRatchet (initial_ratchet_secret s)
  else Decryption (MlsRatchets.new s).

Definition initialize_sender_ratchets (t : SecretTree) (c : Ciphersuite) (index : LeafNodeIndex) :
    SecretTree * result SecretTreeError unit :=
  if leaf_count (size t) <=? index then (t, Err IndexOutOfBounds)
  else
    with_result t (is_initialized t index) (λ initialized,
    if (initialized : bool) then (t, Ok tt)
    else
      and_then (derive_leaf t c index) (λ t _,
      with_result t (get_node t (Leaf index)) (λ node,
      with_result t (ok_or node LibraryError) (λ node,
      with_result t (lift_crypto (kdf_expand_label (node_secret node) c "handshake" [] (hash_length c))) (λ handshake,
      with_result t (lift_crypto (kdf_expand_label (node_secret node) c "application" [] (hash_length c))) (λ application,
      and_then (put_ratchet t index HandshakeSecret (new_ratchet t index handshake)) (λ t _,
      and_then (put_ratchet t index ApplicationSecret (new_ratchet t index application)) (λ t _,
      set_node t (Leaf index) None)))))))).

(** ** Keys of messages *)

(** [if self.ratchet_opt(..)?.is_none() { self.initialize_sender_ratchets(..)? }] *)
Definition ensure_ratchet (t : SecretTree) (c : Ciphersuite) (index : LeafNodeIndex) (secret_type : SecretType) :
    SecretTree * result SecretTreeError unit :=
  with_result t (ratchet_opt t index secret_type) (λ ratchet,
  match ratchet with
  | Some _ => (t, Ok tt)
  | None => initialize_sender_ratchets t c index
  end).

Definition secret_for_decryption (t : SecretTree) (c : Ciphersuite) (index : LeafNodeIndex)
    (secret_type : SecretType) (generation : N) (configuration : SenderRatchetConfiguration) :
    SecretTree * result SecretTreeError RatchetKeyMaterial :=
  if leaf_count (size t) <=? index then (t, Err IndexOutOfBounds)
  else
    and_then (ensure_ratchet t c index secret_type) (λ t _,
    with_result t (ratchet_mut t index secret_type) (λ ratchet,
    match ratchet with
    | EncryptionRatchet _ => (t, Err RatchetTypeError)
    | Decryption dec_ratchet =>
        let '(r, res) := MlsRatchets.secret_for_decryption dec_ratchet c generation configuration in
        ((put_ratchet t index secret_type (Decryption r)).1, res)
    end)).

Definition secret_for_encryption (t : SecretTree) (c : Ciphersuite) (index : LeafNodeIndex)
    (secret_type : SecretType) : SecretTree * result SecretTreeError (N * RatchetKeyMaterial) :=
  and_then (ensure_ratchet t c index secret_type) (λ t _,
  with_result t (ratchet_mut t index secret_type) (λ ratchet,
  match ratchet with
  | Decryption _ => (t, Err RatchetTypeError)
  | EncryptionRatchet enc_ratchet =>
      let '(r, res) := ratchet_forward enc_ratchet c in
      ((put_ratchet t index secret_type (EncryptionRatchet r)).1, res)
  end)).
End derivation.

(** ** What is stored *)

(** The secret at a position, and the ratchet of a leaf *)
Definition stored (t : SecretTree) (k j : N) : option Secret :=
  node_secret <$> mjoin (match tree_node k j with
                         | Leaf i => leaf_nodes t !! N.to_nat i
                         | Parent i => parent_nodes t !! N.to_nat i
                         end).

Definition ratchet_of (t : SecretTree) (ty : SecretType) (i : LeafNodeIndex) : option SenderRatchet :=
  mjoin (ratchets t ty !! N.to_nat i).

(** A tree of [2 ^ n] leaves *)
Record sized (n own : N) (t : SecretTree) : Prop := {
  sized_size : size t = full n;
  sized_own : own_index t = own;
  sized_leaves : length (leaf_nodes t) = N.to_nat (2 ^ n);
  sized_parents : length (parent_nodes t) = N.to_nat (2 ^ n);
  sized_ratchets ty : length (ratchets t ty) = N.to_nat (2 ^ n);
}.

(** A position in it *)
Definition inside (n k j : N) : Prop := k <= n ∧ j < 2 ^ (n - k).

Lemma inside_above n k i : k <= n → i < 2 ^ n → inside n k (i `div` 2 ^ k).
Proof.
  intros Hk Hi. split; [done|]. apply N.Div0.div_lt_upper_bound. rewrite <-N.pow_add_r.
  by replace (k + (n - k)) with n by lia.
Qed.

Lemma inside_child n k j (b : bool) : inside n (k + 1) j → inside n k (2 * j + N.b2n b).
Proof.
  intros [Hk Hj]. split; [lia|]. replace (n - k) with (N.succ (n - (k + 1))) by lia.
  rewrite N.pow_succ_r by lia. assert (N.b2n b <= 1) by (destruct b; cbn; lia). lia.
Qed.

(** Every position has its slot. *)
Lemma slot_inside n k j : inside n k j →
  match tree_node k j with Leaf i | Parent i => (N.to_nat i < N.to_nat (2 ^ n))%nat end.
Proof.
  intros [Hk Hj]. destruct k as [|k] using node_cases.
  - rewrite N.sub_0_r in Hj. cbn. lia.
  - rewrite tree_node_S. pose proof (node_value k j) as Hv.
    assert (E : 2 ^ n = 2 ^ k * (2 * 2 ^ (n - (k + 1)))).
    { rewrite <-N.pow_succ_r, <-N.pow_add_r by lia. f_equal. lia. }
    assert (node k j < 2 ^ n) by (rewrite E; nia). lia.
Qed.

Section access.
Context (n own : N) (t : SecretTree) (Ht : sized n own t).

Lemma get_node_stored k j : inside n k j → get_node t (tree_node k j) = Ok (MkNode <$> stored t k j).
Proof using Ht.
  intros Hin%slot_inside. unfold get_node, stored. destruct Ht.
  destruct (tree_node k j) as [i|i];
    [destruct (lookup_lt_is_Some_2 (leaf_nodes t) (N.to_nat i)) as [[[s]|] E]
    |destruct (lookup_lt_is_Some_2 (parent_nodes t) (N.to_nat i)) as [[[s]|] E]];
    try lia; by rewrite E.
Qed.

Lemma ratchet_opt_of i ty : i < 2 ^ n → ratchet_opt t i ty = Ok (ratchet_of t ty i).
Proof using Ht.
  intros Hi. unfold ratchet_opt, ratchet_of. pose proof (sized_ratchets _ _ _ Ht ty).
  destruct (lookup_lt_is_Some_2 (ratchets t ty) (N.to_nat i)) as [x ->]; [lia|]. by destruct x.
Qed.

Lemma ratchet_mut_of i ty : ratchet_mut t i ty = ok_or (ratchet_of t ty i) IndexOutOfBounds.
Proof. done. Qed.

Lemma put_ok {A} (l : list A) i x : length l = N.to_nat (2 ^ n) → i < 2 ^ n →
  put l i x = Ok (<[N.to_nat i := x]> l).
Proof.
  clear Ht. intros Hl Hi. unfold put. by destruct (lookup_lt_is_Some_2 l (N.to_nat i)) as [y ->]; [lia|].
Qed.

(** [set_node] changes the secret at one position, [put_ratchet] the ratchet of one leaf and type. *)
Lemma set_node_stored k j x : inside n k j →
  ∃ t', set_node t (tree_node k j) x = (t', Ok tt) ∧ sized n own t' ∧
    (∀ ty i, ratchet_of t' ty i = ratchet_of t ty i) ∧
    stored t' k j = node_secret <$> x ∧
    (∀ k' j', (k', j') ≠ (k, j) → stored t' k' j' = stored t k' j').
Proof using Ht.
  intros Hin%slot_inside. pose proof Ht as [Hs Ho Hl Hp Hr].
  assert (Hne : ∀ k' j', (k', j') ≠ (k, j) → tree_node k' j' ≠ tree_node k j).
  { intros k' j' Hne E. apply tree_node_inj in E as [-> ->]. done. }
  unfold stored. destruct (tree_node k j) as [i|i]; cbn [set_node]; rewrite put_ok by (done || lia);
    cbn [with_result]; eexists; (split; [done|]); (split; [split; cbn; rewrite ?length_insert; done|]);
    (split; [by intros []|]); cbn [leaf_nodes parent_nodes];
    (split; [rewrite list_lookup_insert_eq by lia; by destruct x|]);
    intros k' j' E; apply Hne in E; destruct (tree_node k' j') as [i'|i']; try done;
    rewrite list_lookup_insert_ne; try done; intros ?%N2Nat.inj; congruence.
Qed.

Lemma put_ratchet_of i ty r : i < 2 ^ n →
  ∃ t', put_ratchet t i ty r = (t', Ok tt) ∧ sized n own t' ∧
    (∀ k j, stored t' k j = stored t k j) ∧
    ratchet_of t' ty i = Some r ∧
    (∀ ty' i', (ty', i') ≠ (ty, i) → ratchet_of t' ty' i' = ratchet_of t ty' i').
Proof using Ht.
  intros Hi. pose proof Ht as [Hs Ho Hl Hp Hr]. pose proof (Hr ty) as Hty.
  unfold put_ratchet. rewrite put_ok by done. cbn [with_result]. eexists. split; [done|].
  assert (Hset : ∀ l ty', ratchets (set_ratchets t ty l) ty' = if decide (ty' = ty) then l else ratchets t ty').
  { by intros l []; destruct ty. }
  split.
  { split; try by destruct ty. intros ty'. rewrite Hset. case_decide; [by rewrite length_insert|done]. }
  split; [by destruct ty|]. unfold ratchet_of. split.
  - rewrite Hset, decide_True by done. by rewrite list_lookup_insert_eq by lia.
  - intros ty' i' Hne. rewrite Hset. case_decide; [|done]. subst ty'.
    rewrite list_lookup_insert_ne; [done|]. intros ?%N2Nat.inj. congruence.
Qed.
End access.

(** ** The secrets of an epoch *)

Section epoch.
Context {crypto : OpenMlsCrypto} {laws : CryptoLaws}.
Context (c : Ciphersuite) (n : N) (encryption_secret : Secret).

(** The secret [d] levels under the root, at number [j] *)
Fixpoint secret_at (d : nat) (j : N) : Secret :=
  match d with
  | O => encryption_secret
  | S d => expand c (secret_at d (j `div` 2)) "tree" (if N.testbit j 0 then right_label else left_label) (hash_length c)
  end.

Definition type_label (ty : SecretType) : string :=
  match ty with HandshakeSecret => "handshake" | ApplicationSecret => "application" end.

(** The first secret of the two chains of a leaf *)
Definition ratchet_seed (ty : SecretType) (i : N) : Secret :=
  expand c (secret_at (N.to_nat n) i) (type_label ty) [] (hash_length c).

Context (n_small : n <= 30) (whole_secret : whole c encryption_secret).

Lemma short_secret label context : (String.length label < 32)%nat → (length context < 1024)%nat →
  short label context (hash_length c).
Proof using Type. clear. intros. split; [done|]. split; [done|]. destruct (hash_length_bounds c). lia. Qed.

Lemma secret_at_whole d j : whole c (secret_at d j).
Proof using laws whole_secret.
  clear n_small. revert j. induction d as [|d IH]; intros j; [done|]. cbn [secret_at].
  apply expand_whole; [apply IH|]. apply short_secret; [cbn; lia|]. destruct (N.testbit _ _); cbn; lia.
Qed.

Lemma secret_at_child d j (b : bool) :
  secret_at (S d) (2 * j + N.b2n b) = expand c (secret_at d j) "tree" (if b then right_label else left_label) (hash_length c).
Proof using Type. clear. cbn [secret_at]. rewrite halve, bit_shift_cases. done. Qed.

(** ** The invariant

    A leaf has its ratchets and no secret from which they follow is there any more; or it has none,
    and of the secrets from which they follow one is there. *)

Definition level_secret (k j : N) : Secret := secret_at (N.to_nat (n - k)) j.

Definition covered_at (t : SecretTree) (i k : N) : Prop :=
  k <= n ∧ ∀ k', k' <= n → is_Some (stored t k' (i `div` 2 ^ k')) ↔ k' = k.

Definition begun (t : SecretTree) (i : N) : Prop :=
  (∀ ty, is_Some (ratchet_of t ty i)) ∧ ∀ k, k <= n → stored t k (i `div` 2 ^ k) = None.

Definition waiting (t : SecretTree) (i : N) : Prop :=
  (∀ ty, ratchet_of t ty i = None) ∧ ∃ k, covered_at t i k.

Record tidy (own : N) (t : SecretTree) : Prop := {
  tidy_sized : sized n own t;
  tidy_known k j s : inside n k j → stored t k j = Some s → s = level_secret k j;
  tidy_leaves i : i < 2 ^ n → begun t i ∨ waiting t i;
}.

(** Setting nodes to [None] or to their secrets *)
Lemma derive_child_secrets_ok k j : k < n →
  derive_child_secrets (level_secret (k + 1) j) c
  = Ok (level_secret k (2 * j), level_secret k (2 * j + 1)).
Proof using laws whole_secret.
  clear n_small. intros Hk. unfold derive_child_secrets, level_secret.
  pose proof (secret_at_whole (N.to_nat (n - (k + 1))) j) as Hw.
  rewrite (expand_ok _ _ _ left_label) by (done || (apply short_secret; cbn; lia)).
  rewrite (expand_ok _ _ _ right_label) by (done || (apply short_secret; cbn; lia)).
  replace (N.to_nat (n - k)) with (S (N.to_nat (n - (k + 1)))) by lia.
  pose proof (secret_at_child (N.to_nat (n - (k + 1))) j true) as Hr.
  pose proof (secret_at_child (N.to_nat (n - (k + 1))) j false) as Hl.
  cbn [N.b2n] in Hl, Hr. rewrite N.add_0_r in Hl. by rewrite Hl, Hr.
Qed.

(** What [derive_down] does: the secret moves to the children. *)
Lemma derive_down_stored own t k j : sized n own t → inside n (k + 1) j →
  stored t (k + 1) j = Some (level_secret (k + 1) j) →
  ∃ t', derive_down t c (node k j) = (t', Ok tt) ∧ sized n own t' ∧
    (∀ ty i, ratchet_of t' ty i = ratchet_of t ty i) ∧
    stored t' k (2 * j) = Some (level_secret k (2 * j)) ∧
    stored t' k (2 * j + 1) = Some (level_secret k (2 * j + 1)) ∧
    stored t' (k + 1) j = None ∧
    (∀ k' j', (k', j') ≠ (k, 2 * j) → (k', j') ≠ (k, 2 * j + 1) → (k', j') ≠ (k + 1, j) →
       stored t' k' j' = stored t k' j').
Proof using laws n_small whole_secret.
  intros Ht Hin Hs. pose proof (inside_child _ _ _ false Hin) as Hl. pose proof (inside_child _ _ _ true Hin) as Hr.
  cbn [N.b2n] in Hl, Hr. rewrite N.add_0_r in Hl.
  assert (Hk : k < 31) by (destruct Hin; lia).
  assert (Hf : fits (k + 1) j) by (destruct Hin; by apply (fits_in_tree n)).
  unfold derive_down. rewrite <-tree_node_S, (get_node_stored n own) by done. rewrite Hs.
  cbn [fmap option_fmap option_map with_result ok_or node_secret].
  rewrite derive_child_secrets_ok by (destruct Hin; lia). cbn [lift_crypto with_result].
  rewrite left_node, right_node by done.
  destruct (set_node_stored n own t Ht k (2 * j) (Some (MkNode (level_secret k (2 * j)))) Hl)
    as (t1 & -> & H1 & Hr1 & Hs1 & Hf1). cbn [and_then].
  destruct (set_node_stored n own t1 H1 k (2 * j + 1) (Some (MkNode (level_secret k (2 * j + 1)))) Hr)
    as (t2 & -> & H2 & Hr2 & Hs2 & Hf2). cbn [and_then].
  destruct (set_node_stored n own t2 H2 (k + 1) j None Hin) as (t3 & -> & H3 & Hr3 & Hs3 & Hf3).
  exists t3. split; [done|]. split; [done|]. split; [intros; by rewrite Hr3, Hr2, Hr1|].
  split; [rewrite Hf3, Hf2, Hs1 by (intros [=]; lia); done|].
  split; [rewrite Hf3, Hs2 by (intros [=]; lia); done|].
  split; [done|]. intros. by rewrite Hf3, Hf2, Hf1.
Qed.

Lemma half_above i k : (i `div` 2 ^ k) `div` 2 = i `div` 2 ^ (k + 1).
Proof using Type. clear. by rewrite N.Div0.div_div, N.pow_add_r, N.pow_1_r. Qed.

Lemma below_child i k j : i `div` 2 ^ (k + 1) = j ↔ i `div` 2 ^ k = 2 * j ∨ i `div` 2 ^ k = 2 * j + 1.
Proof using Type.
  clear. rewrite <-half_above. destruct (halves (i `div` 2 ^ k)) as [b E].
  destruct b; cbn [N.b2n] in E; lia.
Qed.

(** The leaves below a node follow its secret to the child that covers them; the others see nothing. *)
Lemma derive_down_tidy own t k j : tidy own t → inside n (k + 1) j → is_Some (stored t (k + 1) j) →
  ∃ t', derive_down t c (node k j) = (t', Ok tt) ∧ tidy own t' ∧
    (∀ ty i, ratchet_of t' ty i = ratchet_of t ty i) ∧
    (∀ i, i < 2 ^ n → i `div` 2 ^ (k + 1) = j → covered_at t' i k).
Proof using laws n_small whole_secret.
  intros [Ht Hk Hl] Hin [s Hs]. rewrite (Hk _ _ _ Hin Hs) in Hs.
  destruct (derive_down_stored own t k j Ht Hin Hs) as (t' & Hd & Ht' & Hr & Hs1 & Hs2 & Hs3 & Hf).
  exists t'. split; [done|].
  assert (Hcover : ∀ i, i < 2 ^ n → i `div` 2 ^ (k + 1) = j → covered_at t' i k).
  { intros i Hi Hij. assert (Hc : ∃ m, covered_at t i m).
    { destruct (Hl i Hi) as [[_ Hb]|[_ Hw]]; [|done]. specialize (Hb (k + 1)). rewrite Hij, Hs in Hb.
      destruct Hin. by specialize (Hb ltac:(lia)). }
    destruct Hc as (m & Hm & Hc). assert (m = k + 1) as ->.
    { symmetry. apply Hc; [by destruct Hin|]. by rewrite Hij, Hs. }
    split; [lia|]. intros k' Hk'. destruct (N.eq_dec k' k) as [->|Hne].
    - apply below_child in Hij as [->| ->]; [rewrite Hs1|rewrite Hs2]; by split; [|eauto].
    - destruct (N.eq_dec k' (k + 1)) as [->|Hne'].
      + rewrite Hij, Hs3. split; [by intros []|lia].
      + rewrite Hf by (intros [=]; lia). rewrite Hc by done. lia. }
  split; [|by split]. split; [done| |].
  - intros k' j' s' Hin' Hs'.
    destruct (decide ((k', j') = (k, 2 * j))) as [[= -> ->]|H1]; [by simplify_eq|].
    destruct (decide ((k', j') = (k, 2 * j + 1))) as [[= -> ->]|H2]; [by simplify_eq|].
    destruct (decide ((k', j') = (k + 1, j))) as [[= -> ->]|H3]; [by simplify_eq|].
    rewrite Hf in Hs' by done. by apply Hk.
  - intros i Hi. destruct (N.eq_dec (i `div` 2 ^ (k + 1)) j) as [Hij|Hij].
    + right. split; [|exists k; by apply Hcover].
      destruct (Hl i Hi) as [[_ Hb]|[Hw _]]; [|intros ty; by rewrite Hr].
      specialize (Hb (k + 1)). rewrite Hij, Hs in Hb. destruct Hin. by specialize (Hb ltac:(lia)).
    + assert (Hsame : ∀ k', stored t' k' (i `div` 2 ^ k') = stored t k' (i `div` 2 ^ k')).
      { intros k'. apply Hf; intros [= -> E]; apply Hij; [|..]; try done; apply below_child; auto. }
      destruct (Hl i Hi) as [[Hb1 Hb2]|[Hw (m & Hm & Hc)]]; [left|right].
      * split; [intros ty; by rewrite Hr|]. intros k' Hk'. rewrite Hsame. by apply Hb2.
      * split; [intros ty; by rewrite Hr|]. exists m. split; [done|]. intros k' Hk'. rewrite Hsame. by apply Hc.
Qed.

Lemma ancestors_last m i :
  ancestors (S m) 0 i = ancestors m 0 i ++ [node (N.of_nat m) (i `div` 2 ^ (N.of_nat m + 1))].
Proof using Type.
  clear. replace (S m) with (m + 1)%nat by lia. rewrite ancestors_app. cbn [ancestors].
  by rewrite half_above, N.add_0_l.
Qed.

(** Down the path, from the node that is there to the leaf *)
Lemma derive_all_tidy own m t i : tidy own t → i < 2 ^ n → covered_at t i (N.of_nat m) →
  ∃ t', derive_all t c (reverse (ancestors m 0 i)) = (t', Ok tt) ∧ tidy own t' ∧
    (∀ ty i, ratchet_of t' ty i = ratchet_of t ty i) ∧ covered_at t' i 0.
Proof using laws n_small whole_secret.
  intros Ht Hi. revert t Ht. induction m as [|m IH]; intros t Ht Hc; [by exists t|].
  rewrite ancestors_last, reverse_app. cbn [reverse rev_append app derive_all].
  destruct Hc as [Hm Hc]. replace (N.of_nat (S m)) with (N.of_nat m + 1) in * by lia.
  destruct (derive_down_tidy own t (N.of_nat m) (i `div` 2 ^ (N.of_nat m + 1)) Ht) as (t1 & -> & H1 & Hr1 & Hc1).
  { by apply inside_above. }
  { by apply Hc. }
  cbn [and_then]. destruct (IH t1 H1 (Hc1 i Hi eq_refl)) as (t2 & -> & H2 & Hr2 & Hc2).
  exists t2. split; [done|]. split; [done|]. split; [|done]. intros. by rewrite Hr2, Hr1.
Qed.

Lemma empty_nodes_path own t i m d k : tidy own t → i < 2 ^ n → covered_at t i m → k + N.of_nat d = n → k < m →
  empty_nodes t (ancestors d k (i `div` 2 ^ k)) = Ok (ancestors (N.to_nat (m - k)) k (i `div` 2 ^ k)).
Proof using Type.
  clear n_small whole_secret. intros Ht Hi [Hm Hc]. revert k. induction d as [|d IH]; intros k Hd Hk; [lia|].
  cbn [ancestors empty_nodes]. rewrite half_above, <-tree_node_S.
  rewrite (get_node_stored n own) by (apply Ht || (apply inside_above; [lia|done])).
  replace (N.to_nat (m - k)) with (S (N.to_nat (m - (k + 1)))) by lia. cbn [ancestors]. rewrite half_above.
  specialize (Hc (k + 1) ltac:(lia)).
  destruct (stored t (k + 1) (i `div` 2 ^ (k + 1))) as [s|]; cbn [fmap option_fmap option_map].
  - assert (k + 1 = m) as <- by (apply Hc; eauto). by rewrite N.sub_diag.
  - destruct (N.eq_dec (k + 1) m) as [E|E]; [by apply Hc in E as []|]. by rewrite IH by lia.
Qed.

Lemma leaf_count_full : leaf_count (full n) = 2 ^ n.
Proof using n_small.
  unfold leaf_count, full. pose proof (node_ones (n + 1)) as E. rewrite N.pow_add_r, N.pow_1_r in E.
  pose proof (pow_bound n 30 n_small). assert (2 ^ n ≠ 0) by (apply N.pow_nonzero; lia).
  change (2 ^ 30) with 1073741824 in *.
  assert (Hd : node (n + 1) 0 `div` 2 = 2 ^ n - 1).
  { symmetry. apply (N.div_unique _ _ _ 1); lia. }
  rewrite Hd, wrap32_small by (unfold u32_max; lia). lia.
Qed.

Lemma leaf_inside i : i < 2 ^ n → inside n 0 i.
Proof using Type. clear. intros. split; [lia|]. by rewrite N.sub_0_r. Qed.

Lemma covered_leaf own t i : tidy own t → i < 2 ^ n → covered_at t i 0 → stored t 0 i = Some (level_secret 0 i).
Proof using Type.
  clear n_small whole_secret. intros Ht Hi [_ Hc]. specialize (Hc 0 ltac:(lia)). rewrite N.div_1_r in Hc.
  destruct (proj2 Hc eq_refl) as [s Hs]. rewrite Hs. f_equal.
  by eapply tidy_known; [done|apply leaf_inside|].
Qed.

Lemma derive_leaf_tidy own t i : tidy own t → i < 2 ^ n → waiting t i →
  ∃ t', derive_leaf t c i = (t', Ok tt) ∧ tidy own t' ∧
    (∀ ty i, ratchet_of t' ty i = ratchet_of t ty i) ∧ covered_at t' i 0.
Proof using laws n_small whole_secret.
  intros Ht Hi [_ (k & Hc)]. unfold derive_leaf. change (Leaf i) with (tree_node 0 i).
  rewrite (get_node_stored n own) by (apply Ht || by apply leaf_inside). cbn [with_result].
  destruct (stored t 0 i) as [s|] eqn:Hs; cbn [fmap option_fmap option_map].
  - exists t. split; [done|]. split; [done|]. split; [done|].
    destruct Hc as [Hk Hc]. assert (0 = k) as ->; [|done].
    apply Hc; [lia|]. rewrite N.div_1_r, Hs. eauto.
  - rewrite (sized_size _ _ _ (tidy_sized _ _ Ht)), direct_path_full by done. cbn [ok_or with_result].
    assert (Hk : 0 < k).
    { destruct (N.eq_dec k 0) as [->|]; [|lia]. by rewrite (covered_leaf _ _ _ Ht Hi Hc) in Hs. }
    pose proof (empty_nodes_path own t i k (N.to_nat n) 0 Ht Hi Hc ltac:(lia) Hk) as E.
    rewrite N.div_1_r, N.sub_0_r in E. rewrite E. cbn [with_result].
    apply derive_all_tidy; [done..|]. by rewrite N2Nat.id.
Qed.

(** The ratchet of a leaf as it is, or as it will be *)
Definition first_ratchet (own : N) (ty : SecretType) (i : N) : SenderRatchet :=
  if i =? own then EncryptionRatchet (initial_ratchet_secret (ratchet_seed ty i))
  else Decryption (MlsRatchets.new (ratchet_seed ty i)).

Definition current (own : N) (t : SecretTree) (ty : SecretType) (i : N) : SenderRatchet :=
  default (first_ratchet own ty i) (ratchet_of t ty i).

Lemma initialize_tidy own t i : tidy own t → i < 2 ^ n → waiting t i →
  ∃ t', initialize_sender_ratchets t c i = (t', Ok tt) ∧ tidy own t' ∧
    (∀ ty, ratchet_of t' ty i = Some (first_ratchet own ty i)) ∧
    (∀ ty i', i' ≠ i → ratchet_of t' ty i' = ratchet_of t ty i').
Proof using laws n_small whole_secret.
  intros Ht Hi Hw. pose proof (tidy_sized _ _ Ht) as Hsz. unfold initialize_sender_ratchets.
  rewrite (sized_size _ _ _ Hsz), leaf_count_full, (proj2 (N.leb_gt _ _)) by done.
  unfold is_initialized. rewrite (ratchet_opt_of n own) by done. rewrite (proj1 Hw). cbn [with_result].
  destruct (derive_leaf_tidy own t i Ht Hi Hw) as (t1 & -> & H1 & Hr1 & Hc1). cbn [and_then].
  pose proof (tidy_sized _ _ H1) as Hsz1. change (Leaf i) with (tree_node 0 i).
  rewrite (get_node_stored n own), (covered_leaf own t1 i) by (done || by apply leaf_inside).
  cbn [fmap option_fmap option_map with_result ok_or node_secret].
  pose proof (secret_at_whole (N.to_nat (n - 0)) i) as Hwhole.
  rewrite !expand_ok by (done || (apply short_secret; cbn; lia)). cbn [lift_crypto with_result].
  assert (Hseed : ∀ ty, expand c (level_secret 0 i) (type_label ty) [] (hash_length c) = ratchet_seed ty i).
  { intros ty. unfold level_secret, ratchet_seed. by rewrite N.sub_0_r. }
  pose proof (Hseed HandshakeSecret) as Eh. pose proof (Hseed ApplicationSecret) as Ea.
  cbn [type_label] in Eh, Ea. rewrite Eh, Ea. clear Eh Ea.
  assert (Hnew : ∀ t' ty, sized n own t' → new_ratchet t' i (ratchet_seed ty i) = first_ratchet own ty i).
  { intros t' ty Hs'. unfold new_ratchet. by rewrite (sized_own _ _ _ Hs'). }
  rewrite Hnew by done.
  destruct (put_ratchet_of n own t1 Hsz1 i HandshakeSecret (first_ratchet own HandshakeSecret i) Hi)
    as (t2 & -> & Hsz2 & Hs2 & Hp2 & Hf2). cbn [and_then]. rewrite Hnew by done.
  destruct (put_ratchet_of n own t2 Hsz2 i ApplicationSecret (first_ratchet own ApplicationSecret i) Hi)
    as (t3 & -> & Hsz3 & Hs3 & Hp3 & Hf3). cbn [and_then].
  destruct (set_node_stored n own t3 Hsz3 0 i None (leaf_inside i Hi)) as (t4 & -> & Hsz4 & Hr4 & Hs4 & Hf4).
  assert (Hst : ∀ k j, (k, j) ≠ (0, i) → stored t4 k j = stored t1 k j) by (intros; by rewrite Hf4, Hs3, Hs2).
  assert (Hown : ∀ ty, ratchet_of t4 ty i = Some (first_ratchet own ty i)).
  { intros []; rewrite Hr4; [by rewrite Hf3|done]. }
  assert (Hother : ∀ ty i', i' ≠ i → ratchet_of t4 ty i' = ratchet_of t ty i').
  { intros ty i' Hne. rewrite Hr4, Hf3, Hf2 by (intros [=]; done). apply Hr1. }
  exists t4. split; [done|]. split; [|done]. split; [done| |].
  - intros k j s Hin Hs. destruct (decide ((k, j) = (0, i))) as [[= -> ->]|Hne]; [by rewrite Hs4 in Hs|].
    rewrite Hst in Hs by done. by eapply tidy_known.
  - intros i' Hi'. destruct (N.eq_dec i' i) as [->|Hne].
    + left. split; [intros ty; rewrite Hown; eauto|]. intros k Hk. destruct (N.eq_dec k 0) as [->|Hk0].
      * by rewrite N.div_1_r, Hs4.
      * rewrite Hst by (intros [=]; done). destruct Hc1 as [_ Hc1]. apply eq_None_not_Some. by rewrite Hc1.
    + assert (Hsame : ∀ k, stored t4 k (i' `div` 2 ^ k) = stored t1 k (i' `div` 2 ^ k)).
      { intros k. apply Hst. intros [= -> E]. by rewrite N.div_1_r in E. }
      assert (Hrat : ∀ ty, ratchet_of t4 ty i' = ratchet_of t1 ty i') by (intros; by rewrite Hother, Hr1).
      destruct (tidy_leaves _ _ H1 i' Hi') as [[Hb1 Hb2]|[Hw1 (m & Hm & Hcm)]]; [left|right].
      * split; [intros ty; by rewrite Hrat|]. intros k Hk. rewrite Hsame. by apply Hb2.
      * split; [intros ty; by rewrite Hrat|]. exists m. split; [done|]. intros k Hk. rewrite Hsame. by apply Hcm.
Qed.

Lemma new_tidy own : tidy own (new encryption_secret (full n) own) ∧
  ∀ ty i, ratchet_of (new encryption_secret (full n) own) ty i = None.
Proof using n_small.
  clear whole_secret. unfold new. rewrite leaf_count_full, root_full by done.
  set (blank := MkSecretTree _ _ _ _ _ _).
  assert (Hblank : sized n own blank).
  { split; cbn; rewrite ?length_replicate; try done. by intros []; cbn; rewrite length_replicate. }
  assert (Hnone : ∀ k j, stored blank k j = None).
  { intros k j. unfold stored. destruct (tree_node k j); cbn;
      destruct (replicate _ _ !! _) as [x|] eqn:E; try done; by apply lookup_replicate in E as [-> _]. }
  assert (Hrat : ∀ ty i, ratchet_of blank ty i = None).
  { intros ty i. unfold ratchet_of. destruct ty; cbn;
      destruct (replicate _ _ !! _) as [x|] eqn:E; try done; by apply lookup_replicate in E as [-> _]. }
  assert (Hroot : inside n n 0) by (split; [done|by rewrite N.sub_diag]).
  destruct (set_node_stored n own blank Hblank n 0 (Some (MkNode encryption_secret)) Hroot)
    as (t & -> & Ht & Hr & Hs & Hf). cbn [fst]. split; [|intros; by rewrite Hr]. split; [done| |].
  - intros k j s [Hk Hj] Hs'. destruct (decide ((k, j) = (n, 0))) as [[= -> ->]|Hne].
    + rewrite Hs in Hs'. injection Hs' as <-. unfold level_secret. by rewrite N.sub_diag.
    + by rewrite Hf, Hnone in Hs'.
  - intros i Hi. right. split; [intros ty; by rewrite Hr|]. exists n. split; [done|]. intros k Hk.
    destruct (N.eq_dec k n) as [->|Hne].
    + rewrite N.div_small, Hs by done. split; [done|eauto].
    + rewrite Hf, Hnone by (intros [=]; done). split; [by intros []|done].
Qed.

(** The ratchet asked for is there, and none has moved. *)
Lemma ensure_tidy own t ty i : tidy own t → i < 2 ^ n →
  ∃ t', ensure_ratchet t c i ty = (t', Ok tt) ∧ tidy own t' ∧
    ratchet_of t' ty i = Some (current own t ty i) ∧
    (∀ ty' i', current own t' ty' i' = current own t ty' i').
Proof using laws n_small whole_secret.
  intros Ht Hi. unfold ensure_ratchet. rewrite (ratchet_opt_of n own) by (apply Ht || done). cbn [with_result].
  unfold current at 1. destruct (ratchet_of t ty i) as [r|] eqn:Hr; [by exists t|].
  assert (Hw : waiting t i).
  { destruct (tidy_leaves _ _ Ht i Hi) as [[Hb _]|]; [|done]. destruct (Hb ty) as [r E]. by rewrite Hr in E. }
  destruct (initialize_tidy own t i Ht Hi Hw) as (t' & -> & Ht' & Hi' & Ho). exists t'.
  split; [done|]. split; [done|]. split; [by rewrite Hi'|]. intros ty' i'. unfold current.
  destruct (N.eq_dec i' i) as [->|Hne]; [|by rewrite Ho]. by rewrite Hi', (proj1 Hw).
Qed.

(** Replacing the ratchet of a leaf that has one *)
Lemma put_ratchet_tidy own t ty i r : tidy own t → i < 2 ^ n → is_Some (ratchet_of t ty i) →
  let t' := (put_ratchet t i ty r).1 in
  tidy own t' ∧ current own t' ty i = r ∧
  (∀ ty' i', (ty', i') ≠ (ty, i) → current own t' ty' i' = current own t ty' i').
Proof using Type.
  clear n_small whole_secret. intros Ht Hi [r0 Hr0].
  destruct (put_ratchet_of n own t (tidy_sized _ _ Ht) i ty r Hi) as (t' & -> & Hsz & Hs & Hp & Hf). cbn [fst].
  split; [|split; [unfold current; by rewrite Hp|intros; unfold current; by rewrite Hf]].
  assert (Hsome : ∀ ty' i', is_Some (ratchet_of t' ty' i') ↔ is_Some (ratchet_of t ty' i')).
  { intros ty' i'. destruct (decide ((ty', i') = (ty, i))) as [[= -> ->]|Hne]; [|by rewrite Hf].
    rewrite Hp, Hr0. split; eauto. }
  split; [done| |].
  - intros k j s Hin. rewrite Hs. by eapply tidy_known.
  - intros i' Hi'. destruct (tidy_leaves _ _ Ht i' Hi') as [[Hb1 Hb2]|[Hw (m & Hm & Hc)]]; [left|right].
    + split; [intros ty'; by apply Hsome|]. intros k Hk. rewrite Hs. by apply Hb2.
    + split; [intros ty'; apply eq_None_not_Some; rewrite Hsome, Hw; by intros []|].
      exists m. split; [done|]. intros k Hk. rewrite Hs. by apply Hc.
Qed.
End epoch.

(** ** An epoch of messages *)

Inductive Request :=
| Decrypt (index : LeafNodeIndex) (secret_type : SecretType) (generation : N)
| Encrypt (index : LeafNodeIndex) (secret_type : SecretType).

Section requests.
Context {crypto : OpenMlsCrypto}.

Abbreviation Answer := (result SecretTreeError (N * RatchetKeyMaterial)).

(** A request, answered with the generation and its key *)
Definition serve (conf : SenderRatchetConfiguration) (c : Ciphersuite) (t : SecretTree) (q : Request) :
    SecretTree * Answer :=
  match q with
  | Decrypt i ty g =>
      let '(t, r) := secret_for_decryption t c i ty g conf in
      (t, match r with Ok km => Ok (g, km) | Err e => Err e end)
  | Encrypt i ty => secret_for_encryption t c i ty
  end.

Fixpoint serve_all conf c (t : SecretTree) (qs : list Request) : SecretTree * list Answer :=
  match qs with
  | [] => (t, [])
  | q :: qs =>
      let '(t, a) := serve conf c t q in
      let '(t, rest) := serve_all conf c t qs in (t, a :: rest)
  end.

(** What is promised: for each leaf and type a log of the generations handed out, the newest first *)
Definition Log : Type := SecretType → N → list N.

Definition promise (conf : SenderRatchetConfiguration) (c : Ciphersuite) (n : N) (enc : Secret) (own : N) (log : Log)
    (q : Request) : Answer :=
  match q with
  | Decrypt i ty g =>
      if 2 ^ n <=? i then Err IndexOutOfBounds
      else if i =? own then Err RatchetTypeError
      else match answer c (ratchet_seed c n enc ty i) conf (log ty i) g with
           | Ok km => Ok (g, km) | Err e => Err e end
  | Encrypt i ty =>
      if 2 ^ n <=? i then Err IndexOutOfBounds
      else if i =? own then
        let g := N.of_nat (length (log ty i)) in Ok (g, key_material c (ratchet_seed c n enc ty i) g)
      else Err RatchetTypeError
  end.

Definition logged (log : Log) (q : Request) (a : Answer) : Log :=
  match a with
  | Err _ => log
  | Ok (g, _) =>
      let '(i, ty) := match q with Decrypt i ty _ => (i, ty) | Encrypt i ty => (i, ty) end in
      λ ty' i', if decide ((ty', i') = (ty, i)) then g :: log ty i else log ty' i'
  end.

Fixpoint promises conf c n enc own (log : Log) (qs : list Request) : list Answer :=
  match qs with
  | [] => []
  | q :: qs => let a := promise conf c n enc own log q in a :: promises conf c n enc own (logged log q a) qs
  end.

(** The log after requests *)
Fixpoint log_after conf c n enc own (log : Log) (qs : list Request) : Log :=
  match qs with
  | [] => log
  | q :: qs => log_after conf c n enc own (logged log q (promise conf c n enc own log q)) qs
  end.

Context {laws : CryptoLaws}.
Context (conf : SenderRatchetConfiguration) (c : Ciphersuite) (n : N) (enc : Secret) (own : N).
Context (n_small : n <= 30) (whole_secret : whole c enc) (own_leaf : own < 2 ^ n).
Context (tolerance_small : out_of_order_tolerance conf <= 2147483648).

Lemma ratchet_seed_whole ty i : whole c (ratchet_seed c n enc ty i).
Proof using laws whole_secret.
  clear n_small own_leaf tolerance_small. apply expand_whole.
  - by apply secret_at_whole.
  - destruct ty; apply short_secret; cbn; lia.
Qed.

(** A ratchet and the log of its leaf and type *)
Definition follows (ty : SecretType) (i : N) (l : list N) (r : SenderRatchet) : Prop :=
  match r with
  | EncryptionRatchet r => i = own ∧ r = head_at c (ratchet_seed c n enc ty i) (N.of_nat (length l))
  | Decryption r => i ≠ own ∧ keeps c (ratchet_seed c n enc ty i) conf l r
  end.

Record matches (log : Log) (t : SecretTree) : Prop := {
  matches_tidy : tidy c n enc own t;
  matches_log ty i : follows ty i (log ty i) (current c n enc own t ty i);
}.

Lemma new_matches : matches (λ _ _, []) (new enc (full n) own).
Proof using n_small.
  clear tolerance_small own_leaf whole_secret. destruct (new_tidy c n enc n_small own) as [Ht Hnone].
  split; [done|]. intros ty i. unfold current. rewrite Hnone. cbn [default from_option].
  unfold first_ratchet. destruct (N.eqb_spec i own); split; try done. apply keeps_new.
Qed.

(** The log of another leaf or type is left as it is. *)
Lemma matches_put log t t' ty i r l : matches log t → tidy c n enc own t' →
  current c n enc own t' ty i = r → follows ty i l r →
  (∀ ty' i', (ty', i') ≠ (ty, i) → current c n enc own t' ty' i' = current c n enc own t ty' i') →
  matches (λ ty' i', if decide ((ty', i') = (ty, i)) then l else log ty' i') t'.
Proof using Type.
  clear. intros [_ Hl] Ht' <- Hf Ho. split; [done|]. intros ty' i'.
  destruct (decide _) as [[= -> ->]|Hne]; [done|]. rewrite Ho by done. apply Hl.
Qed.

Lemma matches_same log t t' : matches log t → tidy c n enc own t' →
  (∀ ty' i', current c n enc own t' ty' i' = current c n enc own t ty' i') → matches log t'.
Proof using Type. clear. intros [_ Hl] Ht' Ho. split; [done|]. intros ty i. rewrite Ho. apply Hl. Qed.

Lemma matches_ext log log' t : (∀ ty i, log ty i = log' ty i) → matches log t → matches log' t.
Proof using Type. clear. intros E [Ht Hl]. split; [done|]. intros ty i. by rewrite <-E. Qed.

(** Requests for leaves the tree does not have *)
Lemma stranger t i ty : sized n own t → 2 ^ n <= i → ratchet_opt t i ty = Err IndexOutOfBounds.
Proof using Type.
  clear. intros Ht Hi. unfold ratchet_opt. pose proof (sized_ratchets _ _ _ Ht ty).
  by rewrite lookup_ge_None_2 by lia.
Qed.

Lemma encrypt_step log t i ty : matches log t → N.of_nat (length (log ty i)) < u32_max →
  ∃ t', serve conf c t (Encrypt i ty) = (t', promise conf c n enc own log (Encrypt i ty)) ∧
    matches (logged log (Encrypt i ty) (promise conf c n enc own log (Encrypt i ty))) t'.
Proof using laws n_small whole_secret.
  clear tolerance_small own_leaf. intros Hm Hlen. pose proof (matches_tidy _ _ Hm) as Ht.
  cbn [serve promise]. unfold secret_for_encryption. destruct (N.leb_spec (2 ^ n) i) as [Hi|Hi].
  { unfold ensure_ratchet. rewrite stranger by (apply Ht || done). by exists t. }
  destruct (ensure_tidy c n enc n_small whole_secret own t ty i Ht Hi) as (t1 & -> & H1 & Hr & Hc).
  cbn [and_then]. rewrite ratchet_mut_of, Hr. cbn [ok_or with_result].
  pose proof (matches_log _ _ Hm ty i) as Hf. destruct (current c n enc own t ty i) as [r|r] eqn:Ec.
  - destruct Hf as [-> ->]. rewrite N.eqb_refl.
    rewrite ratchet_forward_head by (done || by apply ratchet_seed_whole).
    destruct (put_ratchet_tidy c n enc own t1 ty own (EncryptionRatchet (head_at c (ratchet_seed c n enc ty own)
      (N.of_nat (length (log ty own)) + 1))) H1 Hi) as (Ht2 & Hc2 & Ho2); [eauto|].
    eexists. split; [done|]. cbn [logged]. eapply matches_put; [done..| |].
    + split; [done|]. cbn [length]. do 2 f_equal. lia.
    + intros. rewrite Ho2 by done. apply Hc.
  - destruct Hf as [Hne Hk]. rewrite (proj2 (N.eqb_neq _ _)) by done. exists t1. split; [done|].
    cbn [logged]. by eapply matches_same.
Qed.

Lemma decrypt_step log t i ty g : matches log t → g < u32_max →
  ∃ t', serve conf c t (Decrypt i ty g) = (t', promise conf c n enc own log (Decrypt i ty g)) ∧
    matches (logged log (Decrypt i ty g) (promise conf c n enc own log (Decrypt i ty g))) t'.
Proof using laws n_small whole_secret tolerance_small.
  clear own_leaf. intros Hm Hg. pose proof (matches_tidy _ _ Hm) as Ht.
  cbn [serve promise]. unfold secret_for_decryption.
  rewrite (sized_size _ _ _ (tidy_sized _ _ _ _ _ Ht)), leaf_count_full by done.
  destruct (N.leb_spec (2 ^ n) i) as [Hi|Hi]; [by exists t|].
  destruct (ensure_tidy c n enc n_small whole_secret own t ty i Ht Hi) as (t1 & -> & H1 & Hr & Hc).
  cbn [and_then]. rewrite ratchet_mut_of, Hr. cbn [ok_or with_result].
  pose proof (matches_log _ _ Hm ty i) as Hf. destruct (current c n enc own t ty i) as [r|r] eqn:Ec.
  - destruct Hf as [-> _]. rewrite N.eqb_refl. exists t1. split; [done|]. cbn [logged]. by eapply matches_same.
  - destruct Hf as [Hne Hk]. rewrite (proj2 (N.eqb_neq _ _)) by done.
    destruct (decryption_step c (ratchet_seed c n enc ty i) (ratchet_seed_whole ty i) conf tolerance_small
      (log ty i) r g Hk Hg) as (r' & -> & Hk').
    destruct (put_ratchet_tidy c n enc own t1 ty i (Decryption r') H1 Hi) as (Ht2 & Hc2 & Ho2); [eauto|].
    eexists. split; [done|].
    assert (Hput : ∀ l, keeps c (ratchet_seed c n enc ty i) conf l r' →
      matches (λ ty' i', if decide ((ty', i') = (ty, i)) then l else log ty' i')
        (put_ratchet t1 i ty (Decryption r')).1).
    { intros l Hl. eapply matches_put; [done..| |]; [by split|]. intros. rewrite Ho2 by done. apply Hc. }
    destruct (answer _ _ _ _ _) as [km|e]; cbn [is_ok] in Hk'; cbn [logged]; [by apply Hput|].
    eapply matches_ext; [|by apply (Hput (log ty i))]. intros ty' i'. cbv beta.
    by destruct (decide ((ty', i') = (ty, i))) as [[= -> ->]|].
Qed.

(** Generations below the last one, and fewer requests than there are *)
Definition in_range (q : Request) : Prop :=
  match q with Decrypt _ _ g => g < u32_max | Encrypt _ _ => True end.

Lemma logged_length log q a ty i : (length (logged log q a ty i) <= S (length (log ty i)))%nat.
Proof using Type.
  clear. destruct a as [[g km]|e]; cbn; [|lia]. destruct q; case_decide; simplify_eq; cbn; lia.
Qed.

Lemma log_after_length log qs ty i :
  (length (log_after conf c n enc own log qs ty i) <= length (log ty i) + length qs)%nat.
Proof using Type.
  clear. revert log. induction qs as [|q qs IH]; intros log; cbn [log_after length]; [lia|].
  etrans; [apply IH|]. pose proof (logged_length log q (promise conf c n enc own log q) ty i). lia.
Qed.

Lemma serve_all_promises log t qs : matches log t → Forall in_range qs →
  (∀ ty i, N.of_nat (length (log ty i) + length qs) <= u32_max) →
  ∃ t', serve_all conf c t qs = (t', promises conf c n enc own log qs) ∧
    matches (log_after conf c n enc own log qs) t'.
Proof using laws n_small whole_secret tolerance_small.
  clear own_leaf. intros Hm Hqs. revert log t Hm.
  induction Hqs as [|q qs Hq _ IH]; intros log t Hm Hlen; [by exists t|]. cbn [serve_all promises log_after].
  assert (Hs : ∃ t1, serve conf c t q = (t1, promise conf c n enc own log q) ∧
    matches (logged log q (promise conf c n enc own log q)) t1).
  { destruct q as [i ty g|i ty]; [by apply decrypt_step|]. apply encrypt_step; [done|].
    specialize (Hlen ty i). cbn [length] in Hlen. lia. }
  destruct Hs as (t1 & -> & H1). destruct (IH _ t1 H1) as (t2 & -> & H2).
  { intros ty i. pose proof (logged_length log q (promise conf c n enc own log q) ty i).
    specialize (Hlen ty i). cbn [length] in Hlen. lia. }
  by exists t2.
Qed.
End requests.

Section logs.
Context {crypto : OpenMlsCrypto}.
Context (conf : SenderRatchetConfiguration) (c : Ciphersuite) (n : N) (enc : Secret) (own : N).

Lemma promises_lookup log qs x q a : qs !! x = Some q → promises conf c n enc own log qs !! x = Some a →
  a = promise conf c n enc own (log_after conf c n enc own log (take x qs)) q.
Proof.
  revert log x. induction qs as [|q' qs IH]; intros log x; [done|]. destruct x as [|x]; cbn; [congruence|]. apply IH.
Qed.

Lemma logged_keeps log q a ty i g : g ∈ log ty i → g ∈ logged log q a ty i.
Proof.
  intros Hg. destruct a as [[g' km]|e]; [|done]. cbn.
  destruct q; case_decide; simplify_eq; cbn; by try right.
Qed.

Lemma log_after_keeps log qs ty i g : g ∈ log ty i → g ∈ log_after conf c n enc own log qs ty i.
Proof. revert log. induction qs as [|q qs IH]; intros log Hg; [done|]. cbn. by apply IH, logged_keeps. Qed.

(** What was handed out is in the log from then on. *)
Lemma log_after_handed log qs x y ty i g km : qs !! x = Some (Decrypt i ty g) → (x < y)%nat →
  promise conf c n enc own (log_after conf c n enc own log (take x qs)) (Decrypt i ty g) = Ok (g, km) →
  g ∈ log_after conf c n enc own log (take y qs) ty i.
Proof.
  revert log x y. induction qs as [|q qs IH]; intros log x y; [done|].
  destruct y as [|y]; [lia|]. destruct x as [|x]; cbn [lookup list_lookup take log_after].
  - intros [= ->] _ Hp. cbn [log_after] in *. rewrite Hp. apply log_after_keeps. cbn. rewrite decide_True by done. by left.
  - intros Hq Hlt Hp. apply (IH _ x); [done|lia|done].
Qed.

Lemma promise_decrypt log i ty g g' km : promise conf c n enc own log (Decrypt i ty g) = Ok (g', km) →
  g' = g ∧ km = key_material c (ratchet_seed c n enc ty i) g ∧ g ∉ log ty i.
Proof.
  cbn. destruct (_ <=? _); [done|]. destruct (_ =? _); [done|]. unfold answer.
  destruct (_ && _); [done|]. destruct (_ && _); [done|].
  destruct (bool_decide_reflect (g ∈ log ty i)); [done|]. by intros [= -> ->].
Qed.

Lemma promise_encrypt log i ty g km : promise conf c n enc own log (Encrypt i ty) = Ok (g, km) →
  km = key_material c (ratchet_seed c n enc ty i) g.
Proof. cbn. destruct (_ <=? _); [done|]. destruct (_ =? _); [|done]. by intros [= <- <-]. Qed.
End logs.

Section epoch_properties.
Context {crypto : OpenMlsCrypto} {laws : CryptoLaws}.

(** The tree of a member, after its requests *)
Definition epoch_of (conf : SenderRatchetConfiguration) (c : Ciphersuite) (n : N) (enc : Secret) (own : N)
    (qs : list Request) : SecretTree * list (result SecretTreeError (N * RatchetKeyMaterial)) :=
  serve_all conf c (new enc (full n) own) qs.

(** A group and a configuration the theorems are about, and requests it can be asked *)
Definition usual (conf : SenderRatchetConfiguration) (c : Ciphersuite) (n : N) (enc : Secret) (qs : list Request) : Prop :=
  n <= 30 ∧ whole c enc ∧ out_of_order_tolerance conf <= 2147483648 ∧
  Forall in_range qs ∧ N.of_nat (length qs) <= u32_max.

Lemma epoch_promises conf c n enc own qs : usual conf c n enc qs →
  (epoch_of conf c n enc own qs).2 = promises conf c n enc own (λ _ _, []) qs ∧
  matches conf c n enc own (log_after conf c n enc own (λ _ _, []) qs) (epoch_of conf c n enc own qs).1.
Proof using laws.
  intros (Hn & Hw & Ht & Hqs & Hlen). unfold epoch_of.
  destruct (serve_all_promises conf c n enc own Hn Hw Ht (λ _ _, []) (new enc (full n) own) qs)
    as (t & -> & Hm); [by apply new_matches|done|done|]. by split.
Qed.

(** C32: the secret tree answers any requests as its logs say: each leaf has two chains of keys that follow
    from the secret of the epoch and the place of the leaf alone, in whatever order the members' first
    messages come; the own chains are handed out in order for encryption, the others within the window
    for decryption. *)
Theorem secret_tree_keeps_promises conf c n enc own qs : usual conf c n enc qs →
  (epoch_of conf c n enc own qs).2 = promises conf c n enc own (λ _ _, []) qs.
Proof using laws. intros. by apply epoch_promises. Qed.

(** C33: in an epoch, whatever its members ask their trees for before and in between: the key with which a
    member encrypts a generation is the key with which every other member decrypts it, and no
    member gets the key of a generation twice. *)
Theorem members_share_keys conf c n enc a b qs ps ty g :
  usual conf c n enc qs → usual conf c n enc ps →
  (∀ x y km g' km', qs !! x = Some (Encrypt a ty) → ps !! y = Some (Decrypt a ty g) →
    (epoch_of conf c n enc a qs).2 !! x = Some (Ok (g, km)) →
    (epoch_of conf c n enc b ps).2 !! y = Some (Ok (g', km')) → g' = g ∧ km' = km) ∧
  (∀ y y' r r', (y < y')%nat → ps !! y = Some (Decrypt a ty g) → ps !! y' = Some (Decrypt a ty g) →
    (epoch_of conf c n enc b ps).2 !! y = Some (Ok r) →
    (epoch_of conf c n enc b ps).2 !! y' ≠ Some (Ok r')).
Proof using laws.
  intros Hqs Hps. destruct (epoch_promises conf c n enc a qs Hqs) as [-> _].
  destruct (epoch_promises conf c n enc b ps Hps) as [-> _]. split.
  - intros x y km g' km' Hx Hy Ha Hb.
    apply (promises_lookup _ _ _ _ _ _ _ _ _ _ Hx) in Ha. apply (promises_lookup _ _ _ _ _ _ _ _ _ _ Hy) in Hb.
    symmetry in Ha, Hb. apply promise_encrypt in Ha as ->. by apply promise_decrypt in Hb as (-> & -> & _).
  - intros y y' [g1 km1] [g2 km2] Hlt Hy Hy' H1 H2.
    apply (promises_lookup _ _ _ _ _ _ _ _ _ _ Hy) in H1. apply (promises_lookup _ _ _ _ _ _ _ _ _ _ Hy') in H2.
    symmetry in H1, H2. pose proof (promise_decrypt _ _ _ _ _ _ _ _ _ _ _ H1) as (-> & _).
    apply promise_decrypt in H2 as (_ & _ & Hn). apply Hn.
    eapply log_after_handed; [exact Hy|exact Hlt|exact H1].
Qed.

(** C34: once the ratchets of a leaf are there, none of the secrets from which they follow is: not the
    secret of the leaf, nor one above it; before, exactly one of them is. *)
Theorem used_secrets_deleted conf c n enc own qs i : usual conf c n enc qs → i < 2 ^ n →
  let t := (epoch_of conf c n enc own qs).1 in
  if decide (ratchet_of t HandshakeSecret i = None ∧ ratchet_of t ApplicationSecret i = None)
  then ∃ k, k <= n ∧ stored t k (i `div` 2 ^ k) = Some (level_secret c n enc k (i `div` 2 ^ k)) ∧
         ∀ k', k' <= n → k' ≠ k → stored t k' (i `div` 2 ^ k') = None
  else ∀ k, k <= n → stored t k (i `div` 2 ^ k) = None.
Proof using laws.
  intros Hqs Hi t. destruct (epoch_promises conf c n enc own qs Hqs) as [_ [Ht _]]. fold t in Ht.
  destruct (tidy_leaves _ _ _ _ _ Ht i Hi) as [[Hb1 Hb2]|[Hw (k & Hk & Hc)]].
  - rewrite decide_False; [done|]. intros [E _]. destruct (Hb1 HandshakeSecret) as [r Hr]. by rewrite E in Hr.
  - rewrite decide_True by done. exists k. split; [done|]. split.
    + destruct (proj2 (Hc k Hk) eq_refl) as [s Hs]. rewrite Hs. f_equal.
      eapply tidy_known; [done|by apply inside_above|done].
    + intros k' Hk' Hne. apply eq_None_not_Some. by rewrite Hc.
Qed.
End epoch_properties.

(** ** Runs *)

Definition toy_requests : list Request :=
  [Decrypt 1 ApplicationSecret 1; Encrypt 2 HandshakeSecret; Decrypt 1 ApplicationSecret 0;
   Decrypt 1 ApplicationSecret 1; Encrypt 2 HandshakeSecret; Encrypt 1 ApplicationSecret;
   Decrypt 2 ApplicationSecret 0; Decrypt 4 ApplicationSecret 0].

Lemma toy_usual qs : Forall in_range qs → N.of_nat (length qs) <= u32_max →
  usual default_configuration toy_suite 2 (toy_secret Byte.x07) qs.
Proof. done. Qed.

Lemma secret_tree_keeps_promises_witness :
  (λ a, match a with Ok (g, _) => Ok g | Err e => Err e end) <$>
    (epoch_of default_configuration toy_suite 2 (toy_secret Byte.x07) 2 toy_requests).2
  = [Ok 1; Ok 0; Ok 0; Err SecretReuseError; Ok 1; Err RatchetTypeError; Err RatchetTypeError; Err IndexOutOfBounds].
Proof.
  rewrite secret_tree_keeps_promises; [by vm_compute|]. apply toy_usual; [by repeat constructor|done].
Defined.

(** Member 1 encrypts, member 2 decrypts the second of its messages first. *)
Lemma members_share_keys_witness :
  ∃ km, (epoch_of default_configuration toy_suite 2 (toy_secret Byte.x07) 1
           [Encrypt 1 ApplicationSecret; Encrypt 1 ApplicationSecret]).2 !! 1%nat = Some (Ok (1, km)) ∧
        (epoch_of default_configuration toy_suite 2 (toy_secret Byte.x07) 2 toy_requests).2 !! 0%nat = Some (Ok (1, km)).
Proof.
  destruct (members_share_keys default_configuration toy_suite 2 (toy_secret Byte.x07) 1 2
    [Encrypt 1 ApplicationSecret; Encrypt 1 ApplicationSecret] toy_requests ApplicationSecret 1) as [H _].
  1, 2: apply toy_usual; [by repeat constructor|done].
  destruct ((epoch_of _ _ _ _ 1 _).2 !! 1%nat) as [[[g km]|e]|] eqn:E1; [|by vm_compute in E1..].
  destruct ((epoch_of _ _ _ _ 2 _).2 !! 0%nat) as [[[g' km']|e]|] eqn:E2; [|by vm_compute in E2..].
  assert (g = 1) as -> by by vm_compute in E1; injection E1. 
  exists km. split; [done|]. by destruct (H 1%nat 0%nat km g' km' eq_refl eq_refl E1 E2) as [-> ->].
Defined.

Lemma used_secrets_deleted_witness :
  let t := (epoch_of default_configuration toy_suite 2 (toy_secret Byte.x07) 2 toy_requests).1 in
  stored t 0 1 = None ∧ stored t 1 0 = None ∧ stored t 2 0 = None ∧ is_Some (stored t 0 3).
Proof.
  assert (Hu : usual default_configuration toy_suite 2 (toy_secret Byte.x07) toy_requests)
    by (apply toy_usual; [by repeat constructor|done]).
  pose proof (used_secrets_deleted default_configuration toy_suite 2 (toy_secret Byte.x07) 2 toy_requests 1
    Hu ltac:(done)) as H. cbv zeta in *. rewrite decide_False in H.
  - split; [by apply (H 0)|]. split; [by apply (H 1)|]. split; [by apply (H 2)|].
    apply is_Some_alt. by vm_compute.
  - intros [E _]. vm_compute in E. discriminate E.
Defined.
