(* ===== verification/MlsPastSecrets.v ===== *)
(** * The secrets of past epochs

    [openmls/src/group/mls_group/past_secrets.rs] and the accessors of [group/mls_group/mod.rs] of the
    in-tree OpenMLS: a group keeps the secrets of its last epochs, so that messages that were
    sent before a commit can still be read after it.

    [late_messages] is that a group with a store of [max_epochs] reads messages of the last
    [max_epochs] epochs as if it had kept everything, and none that are older;
    [shrinking_loses_newest] is what [resize] does when it makes the store smaller. *)

From S2P Require Import Prelude MlsTree MlsCrypto MlsRatchets MlsSecretTree.
From stdpp Require Import options.

Local Open Scope N_scope.

(** [schedule/message_secrets.rs]; the three keys are wrapped secrets. *)
Record MessageSecrets := MkMessageSecrets {
  sender_data_secret : Secret;
  membership_key : Secret;
  confirmation_key : Secret;
  serialized_context : bytes;
  secret_tree : SecretTree;
}.

Definition with_secret_tree (m : MessageSecrets) (t : SecretTree) : MessageSecrets :=
  MkMessageSecrets (sender_data_secret m) (membership_key m) (confirmation_key m) (serialized_context m) t.

(** A credential is opaque here. *)
Record Member := MkMember {
  member_index : N;
  member_credential : bytes;
  member_encryption_key : bytes;
  member_signature_key : bytes;
}.

Record EpochTree := MkEpochTree {
  tree_epoch : N;
  tree_secrets : MessageSecrets;
  tree_leaves : list Member;
}.

Record MessageSecretsStore := MkStore {
  max_epochs : N;
  past_epoch_trees : list EpochTree;
  message_secrets : MessageSecrets;
}.

Definition new_with_secret (max_epochs : N) (m : MessageSecrets) : MessageSecretsStore := MkStore max_epochs [] m.

(** [VecDeque::rotate_left] panics ([None]) when it is asked for more than there is. *)
Definition rotate_left {A} (l : list A) (k : nat) : option (list A) :=
  if (length l <? k)%nat then None else Some (drop k l ++ take k l).

Definition resize (s : MessageSecretsStore) (max_past_epochs : N) : option MessageSecretsStore :=
  let old_size := max_epochs s in
  if max_past_epochs <? old_size then
    let num_epochs_out := old_size - max_past_epochs in
    let! trees <- rotate_left (past_epoch_trees s) (N.to_nat num_epochs_out) in
    Some (MkStore max_past_epochs (take (N.to_nat max_past_epochs) trees) (message_secrets s))
  else Some (MkStore max_past_epochs (past_epoch_trees s) (message_secrets s)).

(** [rotate_left(1)] is reached with at least one tree. *)
Definition add (s : MessageSecretsStore) (group_epoch : N) (m : MessageSecrets) (leaves : list Member) :
    option MessageSecretsStore :=
  if max_epochs s =? 0 then Some s
  else
    let! trees <-
      (if max_epochs s <=? N.of_nat (length (past_epoch_trees s)) then
         let! trees <- rotate_left (past_epoch_trees s) 1 in
         Some (take (N.to_nat (max_epochs s - 1)) trees)
       else Some (past_epoch_trees s)) in
    Some (MkStore (max_epochs s) (trees ++ [MkEpochTree group_epoch m leaves]) (message_secrets s)).

(** The first tree of an epoch *)
Definition find_epoch (s : MessageSecretsStore) (epoch : N) : option EpochTree :=
  snd <$> list_find (λ t, tree_epoch t = epoch) (past_epoch_trees s).

Definition secrets_for_epoch (s : MessageSecretsStore) (epoch : N) : option MessageSecrets :=
  tree_secrets <$> find_epoch s epoch.

Definition leaves_for_epoch (s : MessageSecretsStore) (epoch : N) : gmap N Member :=
  match find_epoch s epoch with
  | Some t => foldl (λ leaves m, <[member_index m := m]> leaves) ∅ (tree_leaves t)
  | None => ∅
  end.

(** Any tree of the epoch will do here. *)
Definition epoch_has_leaf (s : MessageSecretsStore) (group_epoch leaf_index : N) : bool :=
  existsb (λ t, (tree_epoch t =? group_epoch) && existsb (λ m, member_index m =? leaf_index) (tree_leaves t))
    (past_epoch_trees s).

(** What is done through the [&mut MessageSecrets] of the first tree of an epoch *)
Fixpoint update_epoch {A} (epoch : N) (f : MessageSecrets → MessageSecrets * A) (l : list EpochTree) :
    option (list EpochTree * A) :=
  match l with
  | [] => None
  | t :: l =>
      if tree_epoch t =? epoch then
        let '(m, a) := f (tree_secrets t) in Some (MkEpochTree (tree_epoch t) m (tree_leaves t) :: l, a)
      else let! (l, a) <- update_epoch epoch f l in Some (t :: l, a)
  end.

Definition secrets_for_epoch_mut {A} (s : MessageSecretsStore) (epoch : N)
    (f : MessageSecrets → MessageSecrets * A) : option (MessageSecretsStore * A) :=
  let! (trees, a) <- update_epoch epoch f (past_epoch_trees s) in
  Some (MkStore (max_epochs s) trees (message_secrets s), a).

(** ** The store of a group *)

(** [context().epoch()] and the store of an [MlsGroup] *)
Record GroupSecrets := MkGroupSecrets {
  group_epoch : N;
  message_secrets_store : MessageSecretsStore;
}.

(** [MlsGroup::message_secrets_mut] and what is done with the secrets *)
Definition message_secrets_mut {A} (g : GroupSecrets) (epoch : N)
    (f : MessageSecrets → MessageSecrets * result SecretTreeError A) : GroupSecrets * result SecretTreeError A :=
  if epoch <? group_epoch g then
    match secrets_for_epoch_mut (message_secrets_store g) epoch f with
    | Some (s, a) => (MkGroupSecrets (group_epoch g) s, a)
    | None => (g, Err TooDistantInThePast)
    end
  else
    let s := message_secrets_store g in
    let '(m, a) := f (message_secrets s) in
    (MkGroupSecrets (group_epoch g) (MkStore (max_epochs s) (past_epoch_trees s) m), a).

(** [merge_commit]: the secrets of the new epoch take the place of the old ones, which are stored; the
    epoch comes with the staged diff. *)
Definition merge_secrets (g : GroupSecrets) (epoch : N) (m : MessageSecrets) (leaves : list Member) :
    option GroupSecrets :=
  let s := message_secrets_store g in
  let past_epoch := group_epoch g in
  let! s <- add (MkStore (max_epochs s) (past_epoch_trees s) m) past_epoch (message_secrets s) leaves in
  Some (MkGroupSecrets epoch s).

Section requests.
Context {crypto : OpenMlsCrypto}.

(** The key of a message of some epoch *)
Definition serve_secrets (conf : SenderRatchetConfiguration) (c : Ciphersuite) (q : Request) (m : MessageSecrets) :
    MessageSecrets * result SecretTreeError (N * RatchetKeyMaterial) :=
  let '(t, a) := serve conf c (secret_tree m) q in (with_secret_tree m t, a).

Definition serve_epoch (conf : SenderRatchetConfiguration) (c : Ciphersuite) (g : GroupSecrets) (epoch : N)
    (q : Request) : GroupSecrets * result SecretTreeError (N * RatchetKeyMaterial) :=
  message_secrets_mut g epoch (serve_secrets conf c q).
End requests.

(** ** What is kept *)

(** The epochs from [from] on, with their secrets and members *)
Fixpoint numbered (from : N) (l : list (MessageSecrets * list Member)) : list EpochTree :=
  match l with
  | [] => []
  | (m, leaves) :: l => MkEpochTree from m leaves :: numbered (from + 1) l
  end.

Lemma numbered_app from l l' : numbered from (l ++ l') = numbered from l ++ numbered (from + N.of_nat (length l)) l'.
Proof.
  revert from. induction l as [|[m ls] l IH]; intros from; cbn [app numbered length].
  - by rewrite N.add_0_r.
  - rewrite IH. cbn [app]. do 3 f_equal. lia.
Qed.

Lemma numbered_length from l : length (numbered from l) = length l.
Proof. revert from. induction l as [|[m ls] l IH]; intros from; [done|]. cbn. by rewrite IH. Qed.

Lemma numbered_drop k from l : drop k (numbered from l) = numbered (from + N.of_nat k) (drop k l).
Proof.
  revert from l. induction k as [|k IH]; intros from l; [by rewrite N.add_0_r|].
  destruct l as [|[m ls] l]; [done|]. cbn [numbered drop]. rewrite IH. f_equal. lia.
Qed.

Lemma update_epoch_below {A} epoch (f : MessageSecrets → MessageSecrets * A) from l :
  epoch < from → update_epoch epoch f (numbered from l) = None.
Proof.
  revert from. induction l as [|[m ls] l IH]; intros from He; [done|]. cbn [numbered update_epoch tree_epoch].
  rewrite (proj2 (N.eqb_neq _ _)) by lia. by rewrite IH by lia.
Qed.

Lemma update_epoch_numbered {A} i (f : MessageSecrets → MessageSecrets * A) from l m leaves :
  l !! i = Some (m, leaves) →
  update_epoch (from + N.of_nat i) f (numbered from l)
  = Some (numbered from (<[i := ((f m).1, leaves)]> l), (f m).2).
Proof.
  revert from i. induction l as [|[m' ls] l IH]; intros from i; [done|]. cbn [numbered update_epoch tree_epoch].
  destruct i as [|i]; cbn [lookup list_lookup].
  - intros [= -> ->]. rewrite N.add_0_r, N.eqb_refl. cbn [tree_secrets tree_leaves]. by destruct (f m).
  - intros Hi. rewrite (proj2 (N.eqb_neq _ _)) by lia.
    replace (from + N.of_nat (S i)) with (from + 1 + N.of_nat i) by lia. by rewrite IH.
Qed.

(** The newest [max] of what a group has gone through since [base] *)
Definition passed (max base : N) (past : list (MessageSecrets * list Member)) : list EpochTree :=
  let k := (length past - N.to_nat max)%nat in numbered (base + N.of_nat k) (drop k past).

Lemma passed_length max base past : length (passed max base past) = (length past `min` N.to_nat max)%nat.
Proof. unfold passed. rewrite numbered_length, length_drop. lia. Qed.

Lemma passed_all max base past : passed max base past = drop (length past - N.to_nat max) (numbered base past).
Proof. unfold passed. by rewrite numbered_drop. Qed.

Lemma passed_app max base past x : passed max base (past ++ [x]) =
  drop (S (length past) - N.to_nat max)
    (numbered base past ++ [MkEpochTree (base + N.of_nat (length past)) x.1 x.2]).
Proof. rewrite passed_all, length_app, numbered_app. destruct x. cbn. do 2 f_equal. lia. Qed.

(** [add] makes room when the store is full. *)
Lemma add_passed max base past cur m leaves :
  add (MkStore max (passed max base past) cur) (base + N.of_nat (length past)) m leaves
  = Some (MkStore max (passed max base (past ++ [(m, leaves)])) cur).
Proof.
  unfold add. cbn [max_epochs past_epoch_trees message_secrets].
  destruct (N.eqb_spec max 0) as [->|Hmax].
  - unfold passed. rewrite !drop_ge by (rewrite ?length_app; cbn; lia). done.
  - rewrite passed_length, passed_app. cbn [fst snd]. destruct (N.leb_spec max (N.of_nat (length past `min` N.to_nat max))).
    + unfold rotate_left. rewrite passed_length, (proj2 (Nat.ltb_ge _ _)) by lia.
      rewrite take_app_le by (rewrite length_drop, passed_length; lia).
      rewrite passed_all, drop_drop, drop_app_le by (rewrite numbered_length; lia).
      rewrite take_ge by (rewrite length_drop, numbered_length; lia).
      do 4 f_equal. lia.
    + unfold passed. replace (length past - N.to_nat max)%nat with O by lia.
      replace (S (length past) - N.to_nat max)%nat with O by lia. by rewrite N.add_0_r.
Qed.

(** ** A group that keeps everything *)

Inductive Event :=
| NextEpoch (m : MessageSecrets) (leaves : list Member)
| MessageKey (epoch : N) (q : Request).

Section archive.
Context {crypto : OpenMlsCrypto} (conf : SenderRatchetConfiguration) (c : Ciphersuite).

Abbreviation Answer := (result SecretTreeError (N * RatchetKeyMaterial)).

(** The answers of a group; [None] when it panics *)
Fixpoint live (g : GroupSecrets) (es : list Event) : option (list Answer) :=
  match es with
  | [] => Some []
  | NextEpoch m leaves :: es => let! g <- merge_secrets g (group_epoch g + 1) m leaves in live g es
  | MessageKey epoch q :: es =>
      let '(g, a) := serve_epoch conf c g epoch q in let! rest <- live g es in Some (a :: rest)
  end.

(** The answers when the secrets of all epochs since [base] are there and those of the last [max] are used *)
Fixpoint archive (max base : N) (past : list (MessageSecrets * list Member)) (cur : MessageSecrets)
    (es : list Event) : list Answer :=
  match es with
  | [] => []
  | NextEpoch m leaves :: es => archive max base (past ++ [(cur, leaves)]) m es
  | MessageKey epoch q :: es =>
      let now := base + N.of_nat (length past) in
      if now <=? epoch then
        let '(m, a) := serve_secrets conf c q cur in a :: archive max base past m es
      else if (epoch <? base) || (max <? now - epoch) then
        Err TooDistantInThePast :: archive max base past cur es
      else
        let i := N.to_nat (epoch - base) in
        match past !! i with
        | Some (m, leaves) =>
            let '(m, a) := serve_secrets conf c q m in a :: archive max base (<[i := (m, leaves)]> past) cur es
        | None => Err TooDistantInThePast :: archive max base past cur es
        end
  end.

Lemma live_archive max base past cur es :
  live (MkGroupSecrets (base + N.of_nat (length past)) (MkStore max (passed max base past) cur)) es
  = Some (archive max base past cur es).
Proof.
  revert past cur. induction es as [|[m leaves|epoch q] es IH]; intros past cur; [done| |]; cbn [live archive].
  - unfold merge_secrets. cbn [message_secrets_store group_epoch max_epochs past_epoch_trees message_secrets].
    rewrite add_passed. rewrite <-IH. do 2 f_equal. rewrite length_app. cbn. lia.
  - unfold serve_epoch, message_secrets_mut. cbn [group_epoch message_secrets_store].
    set (now := base + N.of_nat (length past)). destruct (N.leb_spec now epoch) as [Hge|Hlt].
    { rewrite (proj2 (N.ltb_ge _ _)) by done. cbn [message_secrets max_epochs past_epoch_trees].
      destruct (serve_secrets conf c q cur) as [m a]. subst now. by rewrite IH. }
    rewrite (proj2 (N.ltb_lt _ _)) by done. unfold secrets_for_epoch_mut. cbn [past_epoch_trees].
    set (k := (length past - N.to_nat max)%nat).
    destruct ((epoch <? base) || (max <? now - epoch)) eqn:Hold.
    + unfold passed. fold k. rewrite update_epoch_below.
      * subst now. change (numbered _ _) with (passed max base past). by rewrite IH.
      * apply orb_true_iff in Hold as [E%N.ltb_lt|E%N.ltb_lt]; subst now; lia.
    + apply orb_false_iff in Hold as [E1%N.ltb_ge E2%N.ltb_ge]. set (i := N.to_nat (epoch - base)).
      destruct (lookup_lt_is_Some_2 past i) as [[m leaves] Hi]; [subst now i; lia|]. rewrite Hi.
      unfold passed. fold k. replace epoch with (base + N.of_nat k + N.of_nat (i - k)) by (subst now i k; lia).
      rewrite (update_epoch_numbered _ _ _ _ m leaves).
      2: { rewrite lookup_drop. rewrite <-Hi. f_equal. subst now i k. lia. }
      destruct (serve_secrets conf c q m) as [m' a]. cbn [fst snd max_epochs message_secrets].
      assert (Hp : numbered (base + N.of_nat k) (<[(i - k)%nat := (m', leaves)]> (drop k past))
        = passed max base (<[i := (m', leaves)]> past)).
      { unfold passed. rewrite length_insert. fold k. rewrite drop_insert_ge by (subst now i k; lia). done. }
      rewrite Hp. subst now. rewrite <-(length_insert past i (m', leaves)). by rewrite IH.
Qed.
End archive.

(** C35: a group with a store of [max] epochs, whatever messages of whatever epochs come between its
    commits, answers like one that keeps the secrets of every epoch and uses those of the current and
    the last [max]; the store never panics. *)
Theorem late_messages {crypto : OpenMlsCrypto} conf c max epoch m es :
  live conf c (MkGroupSecrets epoch (new_with_secret max m)) es = Some (archive conf c max epoch [] m es).
Proof.
  rewrite <-live_archive. unfold passed. cbn. by rewrite N.add_0_r.
Qed.

(** making the store smaller by [out] panics when fewer than [out] epochs are stored, keeps the
    newest when it was full, and when exactly [out] are stored it keeps the oldest. *)
Theorem shrinking_store s size : size < max_epochs s →
  let out := N.to_nat (max_epochs s - size) in
  let trees := past_epoch_trees s in
  ((length trees < out)%nat → resize s size = None) ∧
  (N.of_nat (length trees) = max_epochs s → past_epoch_trees <$> resize s size = Some (drop out trees)) ∧
  (length trees = out → past_epoch_trees <$> resize s size = Some (take (N.to_nat size) trees)).
Proof.
  intros Hsize out trees. unfold resize. rewrite (proj2 (N.ltb_lt _ _)) by done.
  fold trees out. unfold rotate_left. split; [|split].
  - intros Hl. by rewrite (proj2 (Nat.ltb_lt _ _)).
  - intros Hl. rewrite (proj2 (Nat.ltb_ge _ _)) by lia. cbn.
    rewrite take_app_le by (rewrite length_drop; lia). rewrite take_ge by (rewrite length_drop; lia). done.
  - intros Hl. rewrite (proj2 (Nat.ltb_ge _ _)) by lia. cbn. by rewrite drop_ge, (take_ge trees) by lia.
Qed.

(** ** Runs *)

Definition toy_secrets (b : Byte.byte) : MessageSecrets :=
  MkMessageSecrets (toy_secret b) (toy_secret b) (toy_secret b) [b]
    (new (toy_secret b) (full 1) 0).

Definition generations {A} : list (result SecretTreeError (N * A)) → list (result SecretTreeError N) :=
  fmap (λ a, match a with Ok (g, _) => Ok g | Err e => Err e end).

Example toy_late : option_map generations (
  live default_configuration toy_suite (MkGroupSecrets 3 (new_with_secret 1 (toy_secrets Byte.x01)))
    [MessageKey 3 (Decrypt 1 ApplicationSecret 1); NextEpoch (toy_secrets Byte.x02) [];
     MessageKey 3 (Decrypt 1 ApplicationSecret 0); MessageKey 3 (Decrypt 1 ApplicationSecret 1);
     MessageKey 4 (Decrypt 1 ApplicationSecret 0); NextEpoch (toy_secrets Byte.x03) [];
     MessageKey 3 (Decrypt 1 ApplicationSecret 2); MessageKey 4 (Decrypt 1 ApplicationSecret 1)])
  = Some [Ok 1; Ok 0; Err SecretReuseError; Ok 0; Err TooDistantInThePast; Ok 1].
Proof. by vm_compute. Qed.

(** Three epochs are stored in a store of five, which becomes one of two: the newest is gone. *)
Lemma shrinking_store_witness :
  let trees := numbered 7 [(toy_secrets Byte.x01, []); (toy_secrets Byte.x02, []); (toy_secrets Byte.x03, [])] in
  (λ s, tree_epoch <$> past_epoch_trees s) <$> resize (MkStore 5 trees (toy_secrets Byte.x04)) 2 = Some [7; 8].
Proof.
  cbv zeta. set (trees := numbered _ _).
  destruct (shrinking_store (MkStore 5 trees (toy_secrets Byte.x04)) 2) as (_ & _ & H); [done|].
  specialize (H eq_refl). cbn [past_epoch_trees] in H. destruct (resize _ 2) as [s|]; [|done].
  cbn [fmap option_fmap option_map] in *. injection H as ->. done.
Defined.
