(* ===== verification/MlsKeySchedule.v ===== *)
(** * The key schedule of an epoch

    [schedule/mod.rs], [schedule/psk.rs] and what they use of [ciphersuite/secret.rs] and
    [ciphersuite/mac.rs]: the joiner secret, the secret of the pre-shared keys, the states of
    [KeySchedule], the secrets of an epoch, and the store of the resumption secrets of earlier
    epochs.

    [ScheduleCrypto] is the provider's trait as far as the schedule uses it, with the [tls_codec]
    serialisation of [PskLabel]. *)

From S2P Require Import Prelude MlsTree MlsCrypto MlsTreeSync MlsSecretTree MlsPastSecrets.
From stdpp Require Import options.

Local Open Scope N_scope.

(** ** Pre-shared keys *)

Inductive ResumptionPskUsage := UsageApplication | UsageReinit | UsageBranch.

Record ResumptionPsk := MkResumptionPsk {
  psk_usage : ResumptionPskUsage;
  psk_group_id : bytes;
  psk_epoch : N;
}.

Inductive Psk :=
| PskExternal (psk_id : bytes)
| PskResumption (resumption : ResumptionPsk).

Record PreSharedKeyId := MkPreSharedKeyId { psk : Psk; psk_nonce : bytes }.

Record PskLabel := MkPskLabel { label_id : PreSharedKeyId; label_index : N; label_count : N }.

Inductive PskError :=
| PskLibraryError (e : LibraryError)
| TooManyKeys
| KeyNotFound
| UsageMismatch (allowed : list ResumptionPskUsage) (got : ResumptionPskUsage)
| UsageConflict (first second : ResumptionPskUsage)
| UsageDuplicate (usage : ResumptionPskUsage)
| NonceLengthMismatch (expected got : N).

#[export] Instance resumption_psk_usage_eq_dec : EqDecision ResumptionPskUsage.
Proof. solve_decision. Defined.
#[export] Instance resumption_psk_eq_dec : EqDecision ResumptionPsk.
Proof. solve_decision. Defined.
#[export] Instance psk_eq_dec : EqDecision Psk.
Proof. solve_decision. Defined.
#[export] Instance pre_shared_key_id_eq_dec : EqDecision PreSharedKeyId.
Proof. solve_decision. Defined.

Class ScheduleCrypto := {
  (** algorithm, salt, input keying material *)
  crypto_hkdf_extract : HashType → bytes → bytes → option bytes;
  (** algorithm, key, message *)
  crypto_hmac : HashType → bytes → bytes → option bytes;
  tls_psk_label : PskLabel → option bytes;
  (** ciphersuite, encapsulated key, private key, info, exporter context, length *)
  crypto_hpke_setup_receiver_and_export : Ciphersuite → bytes → bytes → bytes → bytes → N → option bytes;
}.

(** ** The store of resumption secrets *)

Record ResumptionPskStore := MkResumptionPskStore {
  max_number_of_secrets : nat;
  resumption_psks : list (N * Secret);
  cursor : nat;
}.

Definition new_psk_store (max_number_of_secrets : nat) : ResumptionPskStore :=
  MkResumptionPskStore max_number_of_secrets [] 0.

(** The list is not empty where it is full, so [%=] does not divide by zero. *)
Definition psk_store_add (s : ResumptionPskStore) (epoch : N) (resumption_psk : Secret) : ResumptionPskStore :=
  if (max_number_of_secrets s =? 0)%nat then s
  else if (length (resumption_psks s) <? max_number_of_secrets s)%nat then
    MkResumptionPskStore (max_number_of_secrets s) (resumption_psks s ++ [(epoch, resumption_psk)]) (S (cursor s))
  else
    let cursor := (S (cursor s) `mod` length (resumption_psks s))%nat in
    MkResumptionPskStore (max_number_of_secrets s) (<[cursor := (epoch, resumption_psk)]> (resumption_psks s)) cursor.

Definition psk_store_get (s : ResumptionPskStore) (epoch : N) : option Secret :=
  snd <$> head (filter (λ e, e.1 = epoch) (resumption_psks s)).

(** [load_psks]; [storage] answers with the bundle of an external key, or [None] where it has none
    or fails. *)
Fixpoint load_psks (storage : Psk → option Secret) (resumption_psk_store : ResumptionPskStore)
    (psk_ids : list PreSharedKeyId) : result PskError (list (PreSharedKeyId * Secret)) :=
  match psk_ids with
  | [] => Ok []
  | psk_id :: psk_ids =>
      let? secret <- ok_or
        match psk psk_id with
        | PskResumption resumption => psk_store_get resumption_psk_store (psk_epoch resumption)
        | PskExternal _ => storage (psk psk_id)
        end KeyNotFound in
      let? bundles <- load_psks storage resumption_psk_store psk_ids in
      Ok ((psk_id, secret) :: bundles)
  end.

(** ** Which keys a proposal and a welcome may name *)

Definition check_nonce (c : Ciphersuite) (id : PreSharedKeyId) : result PskError unit :=
  let expected := hash_length c in
  let got := N.of_nat (length (psk_nonce id)) in
  if negb (expected =? got) then Err (NonceLengthMismatch expected got) else Ok tt.

Definition validate_in_proposal (c : Ciphersuite) (id : PreSharedKeyId) : result PskError unit :=
  let? _ <-
    match psk id with
    | PskResumption resumption =>
        if bool_decide (psk_usage resumption ≠ UsageApplication)
        then Err (UsageMismatch [UsageApplication] (psk_usage resumption)) else Ok tt
    | PskExternal _ => Ok tt
    end in
  check_nonce c id.

(** The loop, with its two flags *)
Fixpoint validate_welcome (c : Ciphersuite) (contains_branch_psk contains_reinit_psk : bool) (psk_ids : list PreSharedKeyId) :
    result PskError unit :=
  match psk_ids with
  | [] => Ok tt
  | id :: psk_ids =>
      let? (contains_branch_psk, contains_reinit_psk) <-
        match psk id with
        | PskResumption resumption =>
            match psk_usage resumption with
            | UsageApplication => Err (UsageMismatch [UsageReinit; UsageBranch] UsageApplication)
            | UsageReinit =>
                if contains_reinit_psk then Err (UsageDuplicate UsageReinit)
                else if contains_branch_psk then Err (UsageConflict UsageReinit UsageBranch)
                else Ok (contains_branch_psk, true)
            | UsageBranch =>
                if contains_branch_psk then Err (UsageDuplicate UsageBranch)
                else if contains_reinit_psk then Err (UsageConflict UsageBranch UsageReinit)
                else Ok (true, contains_reinit_psk)
            end
        | PskExternal _ => Ok (contains_branch_psk, contains_reinit_psk)
        end in
      let? _ <- check_nonce c id in
      validate_welcome c contains_branch_psk contains_reinit_psk psk_ids
  end.

Definition validate_in_welcome (psk_ids : list PreSharedKeyId) (c : Ciphersuite) : result PskError unit :=
  validate_welcome c false false psk_ids.

Section schedule.
Context {crypto : OpenMlsCrypto} {schedule : ScheduleCrypto}.
Implicit Types c : Ciphersuite.

(** ** Extracting and authenticating *)

Definition zero_secret c : Secret := MkSecret (replicate (N.to_nat (hash_length c)) Byte.x00).

(** The secret is the salt. *)
Definition hkdf_extract (s : Secret) c (ikm_option : option Secret) : result CryptoError Secret :=
  let ikm := default (zero_secret c) ikm_option in
  let? value <- ok_or (crypto_hkdf_extract (hash_algorithm c) (secret_value s) (secret_value ikm)) CryptoLibraryError in
  Ok (MkSecret value).

(** [Mac::new], a confirmation tag is one *)
Definition mac c (key : Secret) (message : bytes) : result CryptoError bytes :=
  ok_or (crypto_hmac (hash_algorithm c) (secret_value key) message) CryptoLibraryError.

(** ** [PskSecret::new] *)

Definition unexpected {A} (r : result CryptoError A) : result LibraryError A := map_err (λ _, UnexpectedCryptoError) r.

(** The loop; indices are turned into 16 bits. *)
Fixpoint psk_secret_from c (num_psks index : N) (psk_secret : Secret) (psks : list (PreSharedKeyId * Secret)) :
    result LibraryError Secret :=
  match psks with
  | [] => Ok psk_secret
  | (psk_id, psk) :: psks =>
      let? psk_extracted <- unexpected (hkdf_extract (zero_secret c) c (Some psk)) in
      let? psk_label <- ok_or (tls_psk_label (MkPskLabel psk_id (index `mod` 2 ^ 16) num_psks)) MissingBoundCheck in
      let? psk_input <- unexpected (kdf_expand_label psk_extracted c "derived psk" psk_label (hash_length c)) in
      let? psk_secret <- unexpected (hkdf_extract psk_input c (Some psk_secret)) in
      psk_secret_from c num_psks (index + 1) psk_secret psks
  end.

Definition psk_secret c (psks : list (PreSharedKeyId * Secret)) : result PskError Secret :=
  let num_psks := N.of_nat (length psks) in
  if 2 ^ 16 <=? num_psks then Err TooManyKeys
  else map_err PskLibraryError (psk_secret_from c num_psks 0 (zero_secret c) psks).

(** [hpke_info_from_version] of version 1, and [InitSecret::from_kem_output] *)
Definition hpke_info_from_version (version : N) : bytes :=
  String.list_byte_of_string
    (if version =? 1 then "MLS 1.0 external init secret" else "<OpenMLS reserved; Don't use this.>").

Definition from_kem_output c (version : N) (external_priv kem_output : bytes) : result LibraryError Secret :=
  let? raw_init_secret <- ok_or (crypto_hpke_setup_receiver_and_export c kem_output external_priv []
    (hpke_info_from_version version) (hash_length c)) UnexpectedCryptoError in
  Ok (MkSecret raw_init_secret).

(** ** [JoinerSecret::new], [IntermediateSecret::new], [WelcomeSecret::new], [EpochSecret::new] *)

Definition joiner_secret c (commit_secret_option : option Secret) (init_secret : Secret) (serialized_group_context : bytes) :
    result CryptoError Secret :=
  let? intermediate_secret <- hkdf_extract init_secret c commit_secret_option in
  kdf_expand_label intermediate_secret c "joiner" serialized_group_context (hash_length c).

Definition new_intermediate_secret c (joiner_secret psk : Secret) : result CryptoError Secret :=
  hkdf_extract joiner_secret c (Some psk).

Definition welcome_secret c (intermediate_secret : Secret) : result CryptoError Secret :=
  derive_secret intermediate_secret c "welcome".

(** [WelcomeSecret::derive_welcome_key_nonce]; a panic of [AeadNonce::from_secret] is [None]. *)
Definition derive_welcome_key_nonce c (s : Secret) : option (result CryptoError (AeadKey * AeadNonce)) :=
  let!? nonce_secret <- Some (kdf_expand_label s c "nonce" [] (nonce_size (aead_algorithm c))) in
  let! welcome_nonce <- nonce_from_secret nonce_secret in
  let!? aead_secret <- Some (kdf_expand_label s c "key" [] (key_size (aead_algorithm c))) in
  Some (Ok (key_from_secret aead_secret c, welcome_nonce)).

Definition new_epoch_secret c (intermediate_secret : Secret) (serialized_group_context : bytes) : result CryptoError Secret :=
  kdf_expand_label intermediate_secret c "epoch" serialized_group_context (hash_length c).

(** ** The secrets of an epoch *)

Record EpochSecrets := MkEpochSecrets {
  es_init_secret : Secret;
  es_sender_data_secret : Secret;
  es_encryption_secret : Secret;
  es_exporter_secret : Secret;
  es_epoch_authenticator : Secret;
  es_external_secret : Secret;
  es_confirmation_key : Secret;
  es_membership_key : Secret;
  es_resumption_psk : Secret;
}.

Record GroupEpochSecrets := MkGroupEpochSecrets {
  init_secret : Secret;
  exporter_secret : Secret;
  epoch_authenticator : Secret;
  external_secret : Secret;
  resumption_psk : Secret;
}.

Definition new_epoch_secrets c (epoch_secret : Secret) : result CryptoError EpochSecrets :=
  let? sender_data_secret <- derive_secret epoch_secret c "sender data" in
  let? encryption_secret <- derive_secret epoch_secret c "encryption" in
  let? exporter_secret <- derive_secret epoch_secret c "exporter" in
  let? epoch_authenticator <- derive_secret epoch_secret c "authentication" in
  let? external_secret <- derive_secret epoch_secret c "external" in
  let? confirmation_key <- derive_secret epoch_secret c "confirm" in
  let? membership_key <- derive_secret epoch_secret c "membership" in
  let? resumption_psk <- derive_secret epoch_secret c "resumption" in
  let? init_secret <- derive_secret epoch_secret c "init" in
  Ok (MkEpochSecrets init_secret sender_data_secret encryption_secret exporter_secret epoch_authenticator external_secret
    confirmation_key membership_key resumption_psk).

(** [EpochSecrets::with_init_secret] *)
Definition with_init_secret c (init_secret : Secret) : result CryptoError EpochSecrets :=
  let? e <- new_epoch_secrets c (zero_secret c) in
  Ok (MkEpochSecrets init_secret (es_sender_data_secret e) (es_encryption_secret e) (es_exporter_secret e)
    (es_epoch_authenticator e) (es_external_secret e) (es_confirmation_key e) (es_membership_key e) (es_resumption_psk e)).

Definition split_secrets (e : EpochSecrets) (serialized_context : bytes) (treesize : treemath.TreeSize)
    (own_index : treemath.LeafNodeIndex) : GroupEpochSecrets * MessageSecrets :=
  let secret_tree := MlsSecretTree.new (es_encryption_secret e) treesize own_index in
  (MkGroupEpochSecrets (es_init_secret e) (es_exporter_secret e) (es_epoch_authenticator e) (es_external_secret e)
     (es_resumption_psk e),
   MkMessageSecrets (es_sender_data_secret e) (es_membership_key e) (es_confirmation_key e) serialized_context secret_tree).

(** [ConfirmationKey::tag] *)
Definition confirmation_tag_of c (confirmation_key : Secret) (confirmed_transcript_hash : bytes) : result CryptoError bytes :=
  mac c confirmation_key confirmed_transcript_hash.

(** ** The states of [KeySchedule] *)

Inductive ScheduleState := StateInitial | StateContext | StateDone.
Inductive ErrorState := ExpectInit | ExpectContext.

#[export] Instance schedule_state_eq_dec : EqDecision ScheduleState.
Proof. solve_decision. Defined.

Inductive KeyScheduleError :=
| ScheduleLibraryError (e : LibraryError)
| InvalidState (e : ErrorState)
| ScheduleCryptoError (e : CryptoError).

Record KeySchedule := MkKeySchedule {
  schedule_ciphersuite : Ciphersuite;
  intermediate_secret : option Secret;
  epoch_secret : option Secret;
  schedule_state : ScheduleState;
}.

Definition schedule_init c (joiner_secret psk : Secret) : result LibraryError KeySchedule :=
  let? s <- unexpected (new_intermediate_secret c joiner_secret psk) in
  Ok (MkKeySchedule c (Some s) None StateInitial).

Definition schedule_welcome (k : KeySchedule) c : result KeyScheduleError Secret :=
  if bool_decide (schedule_state k ≠ StateInitial) || bool_decide (intermediate_secret k = None)
  then Err (InvalidState ExpectInit)
  else
    let? s <- ok_or (intermediate_secret k) (ScheduleLibraryError (CustomError "state machine error")) in
    map_err ScheduleCryptoError (welcome_secret c s).

Definition add_context (k : KeySchedule) (serialized_group_context : bytes) : KeySchedule * result KeyScheduleError unit :=
  if bool_decide (schedule_state k ≠ StateInitial) || bool_decide (intermediate_secret k = None)
  then (k, Err (InvalidState ExpectInit))
  else
    let k1 := MkKeySchedule (schedule_ciphersuite k) None (epoch_secret k) StateContext in
    match intermediate_secret k with
    | None => (k1, Err (ScheduleLibraryError (CustomError "state machine error")))
    | Some s =>
        match new_epoch_secret (schedule_ciphersuite k) s serialized_group_context with
        | Ok e => (MkKeySchedule (schedule_ciphersuite k) None (Some e) StateContext, Ok tt)
        | Err e => (k1, Err (ScheduleCryptoError e))
        end
    end.

Definition epoch_secrets (k : KeySchedule) c : KeySchedule * result KeyScheduleError EpochSecrets :=
  if bool_decide (schedule_state k ≠ StateContext) || bool_decide (epoch_secret k = None)
  then (k, Err (InvalidState ExpectContext))
  else
    (MkKeySchedule (schedule_ciphersuite k) (intermediate_secret k) None StateDone,
     match epoch_secret k with
     | Some s => map_err ScheduleCryptoError (new_epoch_secrets c s)
     | None => Err (ScheduleLibraryError (CustomError "state machine error"))
     end).
End schedule.

(** ** The order of the schedule's calls *)

Section order.
Context {crypto : OpenMlsCrypto} {schedule : ScheduleCrypto}.
Implicit Types (c : Ciphersuite) (k : KeySchedule).

(** What joiner secret, key and context make of an epoch: its welcome secret and its secrets *)
Definition epoch_of c (joiner psk : Secret) (context : bytes) : result CryptoError (Secret * EpochSecrets) :=
  let? s <- new_intermediate_secret c joiner psk in
  let? w <- welcome_secret c s in
  let? e <- new_epoch_secret c s context in
  let? secrets <- new_epoch_secrets c e in
  Ok (w, secrets).

(** Called in their order, the operations compute it, and never find the wrong state. *)
Lemma schedule_in_order c joiner psk context w secrets :
  epoch_of c joiner psk context = Ok (w, secrets) →
  ∃ k k1 k2, schedule_init c joiner psk = Ok k ∧ schedule_welcome k c = Ok w ∧
    add_context k context = (k1, Ok tt) ∧ epoch_secrets k1 c = (k2, Ok secrets).
Proof.
  unfold epoch_of, schedule_init. destruct (new_intermediate_secret c joiner psk) as [s|]; [|done].
  destruct (welcome_secret c s) as [w'|] eqn:Ew; [|done]. destruct (new_epoch_secret c s context) as [e|] eqn:Ee; [|done].
  destruct (new_epoch_secrets c e) as [es|] eqn:Es; [|done]. intros [= -> ->].
  do 3 eexists. split; [done|]. unfold schedule_welcome, add_context. cbn. rewrite Ew, Ee.
  split; [done|]. split; [done|]. unfold epoch_secrets. cbn. by rewrite Es.
Qed.

(** And what they answer in their order is that. *)
Lemma schedule_answers c joiner psk context k w k1 k2 secrets :
  schedule_init c joiner psk = Ok k → schedule_welcome k c = Ok w → add_context k context = (k1, Ok tt) →
  epoch_secrets k1 c = (k2, Ok secrets) → epoch_of c joiner psk context = Ok (w, secrets).
Proof.
  unfold schedule_init, epoch_of. destruct (new_intermediate_secret c joiner psk) as [s|]; [|done]. intros [= <-].
  unfold schedule_welcome. cbn. destruct (welcome_secret c s) as [w'|]; [|done]. intros [= ->].
  unfold add_context. cbn. destruct (new_epoch_secret c s context) as [e|]; [|done]. intros [= <-].
  unfold epoch_secrets. cbn. destruct (new_epoch_secrets c e) as [es|]; [|done]. by intros [= _ ->].
Qed.

(** Called again or too early, they change nothing. *)
Lemma schedule_out_of_order c k context :
  (schedule_state k ≠ StateInitial → add_context k context = (k, Err (InvalidState ExpectInit)) ∧
     schedule_welcome k c = Err (InvalidState ExpectInit)) ∧
  (schedule_state k ≠ StateContext → epoch_secrets k c = (k, Err (InvalidState ExpectContext))).
Proof.
  unfold add_context, schedule_welcome, epoch_secrets. split.
  - intros H. by rewrite bool_decide_eq_true_2.
  - intros H. by rewrite bool_decide_eq_true_2.
Qed.
End order.

(** ** Which keys a welcome may name *)

Definition resumes (id : PreSharedKeyId) : bool := match psk id with PskResumption _ => true | PskExternal _ => false end.

Definition right_nonce (c : Ciphersuite) (id : PreSharedKeyId) : Prop := N.of_nat (length (psk_nonce id)) = hash_length c.

Definition for_application (id : PreSharedKeyId) : Prop :=
  match psk id with PskResumption r => psk_usage r = UsageApplication | PskExternal _ => False end.

Lemma check_nonce_ok c id : check_nonce c id = Ok tt ↔ right_nonce c id.
Proof.
  unfold check_nonce, right_nonce. destruct (N.eqb_spec (hash_length c) (N.of_nat (length (psk_nonce id)))); cbn; split; congruence.
Qed.

Lemma validate_welcome_ok c b r ids : validate_welcome c b r ids = Ok tt ↔
  Forall (λ id, right_nonce c id ∧ ¬ for_application id) ids ∧
  (length (filter resumes ids) <= if b || r then 0 else 1)%nat.
Proof.
  revert b r. induction ids as [|id ids IH]; intros b r; cbn [validate_welcome].
  { split; [intros _; split; [constructor|cbn; destruct (b || r); lia]|done]. }
  rewrite Forall_cons. unfold for_application at 1. destruct (psk id) as [e|q] eqn:Ep.
  - rewrite filter_cons_False by (unfold resumes; rewrite Ep; by intros []). destruct (check_nonce c id) as [[]|] eqn:E.
    + rewrite IH. apply check_nonce_ok in E. naive_solver.
    + split; [done|]. intros [[[Hn _] _] _]. apply check_nonce_ok in Hn. congruence.
  - rewrite filter_cons_True by (unfold resumes; by rewrite Ep). cbn [length]. destruct (psk_usage q); [split; [done|intros [[[_ []] _] _]; done]| |].
    all: destruct b, r; cbn [orb]; try (split; [done|intros [_ Hl]; lia]).
    all: destruct (check_nonce c id) as [[]|] eqn:E;
      [|split; [done|]; intros [[[Hn _] _] _]; apply check_nonce_ok in Hn; congruence].
    all: rewrite IH; apply check_nonce_ok in E; cbn [orb]; split; [intros [H1 H2]|intros [[_ H1] H2]];
      split; [|lia| |lia]; done.
Qed.

Lemma validate_in_welcome_ok c ids : validate_in_welcome ids c = Ok tt ↔
  Forall (λ id, right_nonce c id ∧ ¬ for_application id) ids ∧ (length (filter resumes ids) <= 1)%nat.
Proof. apply (validate_welcome_ok c false false). Qed.

(** ** What the store of resumption secrets keeps *)

Section rollover.
Local Open Scope nat_scope.

(** A store of [m] secrets after the entries [es] *)
Definition store_of (m : nat) (es : list (N * Secret)) : ResumptionPskStore :=
  foldl (λ s e, psk_store_add s e.1 e.2) (new_psk_store m) es.

(** Where the [j]-th entry is put *)
Definition slot (m j : nat) : nat := if j <? m then j else S j `mod` m.

(** No entry before the [k]-th is put over the [j]-th. *)
Definition untouched (m k j : nat) : Prop := ∀ i, j < i < k → slot m i ≠ slot m j.

Lemma slot_bound m j : 0 < m → slot m j < m.
Proof. intros Hm. unfold slot. destruct (Nat.ltb_spec j m); [done|]. apply Nat.mod_upper_bound. lia. Qed.

Record stored_as (m : nat) (es : list (N * Secret)) (s : ResumptionPskStore) : Prop := {
  stored_max : max_number_of_secrets s = m;
  stored_length : length (resumption_psks s) = min (length es) m;
  stored_cursor : cursor s = if length es <=? m then length es else length es `mod` m;
  stored_entry j e : es !! j = Some e → untouched m (length es) j → resumption_psks s !! slot m j = Some e;
  stored_from i e : resumption_psks s !! i = Some e → ∃ j, es !! j = Some e ∧ slot m j = i ∧ untouched m (length es) j;
}.

Lemma untouched_S m k j : j < k → untouched m (S k) j ↔ untouched m k j ∧ slot m k ≠ slot m j.
Proof.
  intros Hj. unfold untouched. split.
  - intros H. split; [intros i Hi; apply H; lia|apply H; lia].
  - intros [H1 H2] i Hi. destruct (decide (i = k)) as [->|]; [done|apply H1; lia].
Qed.

(** The entry after the [k]-th goes to its slot, at the end or over another. *)
Lemma psk_store_add_slot m es s e : 0 < m → stored_as m es s →
  psk_store_add s e.1 e.2 = MkResumptionPskStore m
    (if length es <? m then resumption_psks s ++ [e] else <[slot m (length es) := e]> (resumption_psks s))
    (if S (length es) <=? m then S (length es) else S (length es) `mod` m).
Proof.
  intros Hm [Hmax Hlen Hcur _ _]. unfold psk_store_add, slot. rewrite Hmax, Hlen, Hcur.
  destruct e as [epoch secret]. cbn [fst snd]. destruct (Nat.eqb_spec m 0); [lia|].
  destruct (Nat.ltb_spec (length es) m) as [Hlt|Hge].
  - rewrite Nat.min_l by lia. rewrite (proj2 (Nat.ltb_lt (length es) m)) by done.
    rewrite (proj2 (Nat.leb_le (length es) m)) by lia. rewrite (proj2 (Nat.leb_le (S (length es)) m)) by lia. done.
  - rewrite Nat.min_r by lia. rewrite Nat.ltb_irrefl. rewrite (proj2 (Nat.leb_gt (S (length es)) m)) by lia.
    replace (S (if length es <=? m then length es else length es `mod` m) `mod` m) with (S (length es) `mod` m); [done|].
    destruct (Nat.leb_spec (length es) m); [done|]. rewrite <-(Nat.add_1_r (length es)), <-(Nat.add_1_r (length es `mod` m)).
    by rewrite Nat.Div0.add_mod_idemp_l.
Qed.

Lemma stored_as_add m es s e : 0 < m → stored_as m es s → stored_as m (es ++ [e]) (psk_store_add s e.1 e.2).
Proof.
  intros Hm Hs. rewrite (psk_store_add_slot m es s e Hm Hs). pose proof (slot_bound m (length es) Hm) as Hb.
  destruct Hs as [_ Hlen _ Hentry Hfrom].
  assert (Hnew : (if length es <? m then resumption_psks s ++ [e] else <[slot m (length es) := e]> (resumption_psks s))
    !! slot m (length es) = Some e ∧ ∀ i, i ≠ slot m (length es) →
    (if length es <? m then resumption_psks s ++ [e] else <[slot m (length es) := e]> (resumption_psks s)) !! i
      = resumption_psks s !! i).
  { unfold slot. destruct (Nat.ltb_spec (length es) m).
    - replace (length es) with (length (resumption_psks s)) by lia. split; [apply list_lookup_middle; done|].
      intros i Hi. destruct (decide (i < length (resumption_psks s))) as [|]; [by apply lookup_app_l|].
      rewrite (lookup_ge_None_2 (resumption_psks s)) by lia. apply lookup_ge_None_2. rewrite length_app. cbn. lia.
    - split; [apply list_lookup_insert_eq; unfold slot in Hb; rewrite (proj2 (Nat.ltb_ge _ _)) in Hb by done; lia|].
      intros i Hi. by apply list_lookup_insert_ne. }
  destruct Hnew as [Hnew Hold].
  assert (Hl : length (es ++ [e]) = S (length es)) by (rewrite length_app; cbn; lia). split; rewrite ?Hl.
  - done.
  - cbn [resumption_psks]. destruct (Nat.ltb_spec (length es) m); rewrite ?length_app, ?length_insert, Hlen; cbn [length]; lia.
  - done.
  - intros j x Hj Hu. cbn [resumption_psks]. apply lookup_app_Some in Hj as [Hj|[Hge Hj]].
    + apply lookup_lt_Some in Hj as Hlt. apply untouched_S in Hu as [Hu Hne]; [|done].
      rewrite Hold by done. by apply Hentry.
    + destruct (decide (j = length es)) as [->|Hne].
      * rewrite Nat.sub_diag in Hj. injection Hj as <-. done.
      * rewrite lookup_ge_None_2 in Hj by (cbn; lia). done.
  - intros i x Hi. cbn [resumption_psks] in Hi. destruct (decide (i = slot m (length es))) as [->|Hne].
    + rewrite Hnew in Hi. injection Hi as <-. exists (length es). split; [by apply list_lookup_middle|].
      split; [done|]. intros k Hk. lia.
    + rewrite Hold in Hi by done. destruct (Hfrom i x Hi) as (j & Hj & <- & Hu). exists j.
      apply lookup_lt_Some in Hj as Hlt. split; [by apply lookup_app_l_Some|]. split; [done|].
      apply untouched_S; [done|]. by split.
Qed.

Lemma store_of_stored m es : 0 < m → stored_as m es (store_of m es).
Proof.
  intros Hm. unfold store_of. induction es as [|e es IH] using rev_ind; [|rewrite foldl_snoc; by apply stored_as_add].
  split; try done; cbn; lia.
Qed.

(** The [j]-th of [k] entries is kept. *)
Definition keeps (m k j : nat) : bool :=
  if (m <? k) && (k <? 2 * m) then (j =? 0) || (k - m <? j) else k - m <=? j.

Lemma mod_apart m a b : 0 < m → a < b → b < a + m → a `mod` m ≠ b `mod` m.
Proof.
  intros Hm Hab Hb E. pose proof (Nat.div_mod_eq a m). pose proof (Nat.div_mod_eq b m). rewrite E in *.
  set (r := b `mod` m) in *. clearbody r. generalize dependent (a / m). generalize dependent (b / m). intros x Hx y Hy.
  destruct (lt_eq_lt_dec x y) as [[H| ->]|H]; nia.
Qed.

Lemma mod_second m x : m <= x < 2 * m → x `mod` m = x - m.
Proof. intros Hx. symmetry. apply (Nat.mod_unique _ _ 1); lia. Qed.

Lemma keeps_untouched m k j : 0 < m → j < k → keeps m k j = true ↔ untouched m k j.
Proof.
  intros Hm Hj. assert (Hk : keeps m k j = true ↔ if decide (m <= j) then k <= j + m else if decide (j = 0) then k < 2 * m else k < m + j).
  { unfold keeps. destruct (Nat.ltb_spec m k), (Nat.ltb_spec k (2 * m)); cbn [andb];
      rewrite ?orb_true_iff, ?Nat.eqb_eq, ?Nat.ltb_lt, ?Nat.leb_le; repeat case_decide; lia. }
  rewrite Hk. clear Hk. unfold untouched. split.
  - intros H i Hi. unfold slot. destruct (Nat.ltb_spec i m), (Nat.ltb_spec j m); try lia.
    + rewrite decide_False in H by lia. destruct (decide (j = 0)) as [->|Hj0].
      * rewrite mod_second by lia. lia.
      * rewrite mod_second by lia. lia.
    + rewrite decide_True in H by lia. intros E. symmetry in E. revert E. apply mod_apart; lia.
  - intros Hu. repeat case_decide; subst.
    + destruct (decide (k <= j + m)) as [|Hgt]; [done|]. destruct (Hu (j + m)); [lia|]. unfold slot.
      rewrite !(proj2 (Nat.ltb_ge _ _)) by lia. replace (S (j + m)) with (S j + 1 * m) by lia. apply Nat.Div0.mod_add.
    + destruct (decide (k < 2 * m)) as [|Hgt]; [done|]. destruct (Hu (2 * m - 1)); [lia|]. unfold slot.
      rewrite (proj2 (Nat.ltb_ge _ _)), (proj2 (Nat.ltb_lt _ _)) by lia. replace (S (2 * m - 1)) with (0 + 2 * m) by lia.
      rewrite Nat.Div0.mod_add. by apply Nat.Div0.mod_0_l.
    + destruct (decide (k < m + j)) as [|Hgt]; [done|]. destruct (Hu (m + j - 1)); [lia|]. unfold slot.
      rewrite (proj2 (Nat.ltb_ge _ _)), (proj2 (Nat.ltb_lt _ _)) by lia. rewrite mod_second by lia. lia.
Qed.

(** C40: a store for [m] resumption secrets ([m] not 0), after the secrets of [k] epochs, holds the
    last [m] of them where [k] is at most [m] or at least [2 m].  In between it keeps the first
    one and has dropped the first of the last [m]. *)
Theorem resumption_rollover m (es : list (N * Secret)) j epoch secret : 0 < m → NoDup es.*1 →
  es !! j = Some (epoch, secret) →
  psk_store_get (store_of m es) epoch = if keeps m (length es) j then Some secret else None.
Proof.
  intros Hm Hn Hj. destruct (store_of_stored m es Hm) as [_ _ _ Hentry Hfrom]. apply lookup_lt_Some in Hj as Hlt.
  assert (Hsame : ∀ i s, es !! i = Some (epoch, s) → i = j).
  { intros i s Hi. eapply (NoDup_lookup es.*1); [done|..]; by rewrite list_lookup_fmap, ?Hi, ?Hj. }
  unfold psk_store_get. destruct (filter (λ e, e.1 = epoch) (resumption_psks (store_of m es))) as [|x l] eqn:E.
  - destruct (keeps m (length es) j) eqn:Ek; [exfalso|done]. apply keeps_untouched in Ek; [|done..].
    pose proof (Hentry j _ Hj Ek) as Hi. apply list_elem_of_lookup_2 in Hi.
    assert (Hf : (epoch, secret) ∈ filter (λ e, e.1 = epoch) (resumption_psks (store_of m es))) by (by apply list_elem_of_filter).
    rewrite E in Hf. by apply elem_of_nil in Hf.
  - assert (Hx : x ∈ filter (λ e, e.1 = epoch) (resumption_psks (store_of m es))) by (rewrite E; by left).
    apply list_elem_of_filter in Hx as [Hx (i & Hi)%list_elem_of_lookup]. destruct x as [epoch' s']. cbn in Hx. subst epoch'.
    destruct (Hfrom i _ Hi) as (j' & Hj' & _ & Hu). pose proof (Hsame j' _ Hj') as ->. rewrite Hj in Hj'. injection Hj' as <-.
    apply keeps_untouched in Hu; [|done..]. rewrite Hu. done.
Qed.

Definition toy_resumptions (k : nat) : list (N * Secret) := (λ i, (N.of_nat i, MkSecret [])) <$> seq 0 k.

(** Of three epochs, a store for two secrets has the first and the last. *)
Lemma resumption_rollover_witness :
  psk_store_get (store_of 2 (toy_resumptions 3)) 0%N = Some (MkSecret []) ∧
  psk_store_get (store_of 2 (toy_resumptions 3)) 1%N = None.
Proof.
  assert (Hn : NoDup (toy_resumptions 3).*1) by (apply NoDup_ListNoDup; repeat constructor; cbn; intuition lia).
  split.
  - apply (resumption_rollover 2 (toy_resumptions 3) 0); [lia|done|reflexivity].
  - apply (resumption_rollover 2 (toy_resumptions 3) 1 1%N (MkSecret [])); [lia|done|reflexivity].
Defined.
End rollover.
