(* ===== verification/MlsMessages.v ===== *)
(** * Private messages of MLS

    [openmls/src/framing/private_message.rs], [private_message_in.rs] and what they use of
    [codec.rs], [sender.rs], [mls_content.rs], [mls_auth_content.rs], [validation.rs] and
    [schedule/mod.rs] of the in-tree OpenMLS: a member's content is padded and sealed under the key of
    the next generation of its ratchet; who sent it and which generation it is, under a key that
    follows from the ciphertext.

    [TlsCodec] is the [tls_codec] crate's serialisation of a type, [tls_serialized_len] the length
    of what it writes.  The types of incoming content have the fields of the outgoing ones, and
    one model.  Measurements of the profiling build are left out, signatures are checked
    elsewhere. *)

From S2P Require Import Prelude MlsTree MlsCrypto MlsRatchets MlsSecretTree MlsPastSecrets.
From stdpp Require Import options.

Local Open Scope N_scope.

Class TlsCodec (A : Type) := {
  tls_serialize : A → option bytes;
  (** what was read, and the bytes after it *)
  tls_deserialize : bytes → option (A * bytes);
}.

Class TlsCodecLaws (A : Type) {codec : TlsCodec A} :=
  tls_deserialize_serialize (a : A) b rest : tls_serialize a = Some b → tls_deserialize (b ++ rest) = Some (a, rest).

(** ** Messages *)

Inductive ContentType := ApplicationType | ProposalType | CommitType.
Inductive WireFormat := PublicMessageFormat | PrivateMessageFormat | WelcomeFormat | GroupInfoFormat | KeyPackageFormat.

#[export] Instance content_type_eq_dec : EqDecision ContentType.
Proof. solve_decision. Defined.
#[export] Instance wire_format_eq_dec : EqDecision WireFormat.
Proof. solve_decision. Defined.

Inductive Sender :=
| Member (i : N)
| External (i : N)
| NewMemberProposal
| NewMemberCommit.

Definition as_member (s : Sender) : option N := match s with Member i => Some i | _ => None end.
Definition is_member (s : Sender) : bool := match s with Member _ => true | _ => false end.

Definition secret_type_of (t : ContentType) : SecretType :=
  match t with
  | ApplicationType => ApplicationSecret
  | CommitType => HandshakeSecret
  | ProposalType => HandshakeSecret
  end.

Record MlsSenderData := MkSenderData {
  sd_leaf_index : N;
  sd_generation : N;
  sd_reuse_guard : ReuseGuard;
}.
Definition from_sender (leaf_index generation : N) (reuse_guard : ReuseGuard) : MlsSenderData :=
  MkSenderData leaf_index generation reuse_guard.
Definition from_sender_data (d : MlsSenderData) : Sender := Member (sd_leaf_index d).

Record MlsSenderDataAad := MkSenderDataAad {
  sda_group_id : bytes;
  sda_epoch : N;
  sda_content_type : ContentType;
}.

Record PrivateContentAad := MkContentAad {
  ca_group_id : bytes;
  ca_epoch : N;
  ca_content_type : ContentType;
  ca_authenticated_data : bytes;
}.

Record PrivateMessage := MkPrivateMessage {
  pm_group_id : bytes;
  pm_epoch : N;
  pm_content_type : ContentType;
  pm_authenticated_data : bytes;
  pm_encrypted_sender_data : bytes;
  pm_ciphertext : bytes;
}.

Inductive MessageEncryptionError :=
| EncLibraryError
| EncWrongWireFormat
| EncSecretTreeError (e : SecretTreeError)
(** Not an error of the source: [clone_from_slice] panics. *)
| EncPanicked.

Inductive MessageDecryptionError :=
| DecLibraryError
| AeadError
| MalformedContent
| DecSecretTreeError (e : SecretTreeError)
(** Not an error of the source *)
| DecPanicked.

(** The variants [DecryptedMessage::from_inbound_ciphertext] returns *)
Inductive ValidationError :=
| ValLibraryError
| CannotDecryptOwnMessage
| MissingConfirmationTag
| UnencryptedApplicationMessage
| UnableToDecrypt (e : MessageDecryptionError).

Section messages.
Context {crypto : OpenMlsCrypto} {Proposal Commit ConfirmationTag : Type}.
Context {vlbytes : TlsCodec bytes} {proposals : TlsCodec Proposal} {commits : TlsCodec Commit}.
Context {tags : TlsCodec ConfirmationTag} {sender_datas : TlsCodec MlsSenderData}.
Context {sender_data_aads : TlsCodec MlsSenderDataAad} {content_aads : TlsCodec PrivateContentAad}.

Inductive FramedContentBody :=
| Application (data : bytes)
| ProposalBody (p : Proposal)
| CommitBody (c : Commit).

Definition content_type (b : FramedContentBody) : ContentType :=
  match b with
  | Application _ => ApplicationType
  | ProposalBody _ => ProposalType
  | CommitBody _ => CommitType
  end.

Record FramedContent := MkFramedContent {
  group_id : bytes;
  epoch : N;
  sender : Sender;
  authenticated_data : bytes;
  body : FramedContentBody;
}.

(** A signature is its bytes. *)
Record FramedContentAuthData := MkAuthData {
  signature : bytes;
  confirmation_tag : option ConfirmationTag;
}.

Record AuthenticatedContent := MkAuthenticated {
  wire_format : WireFormat;
  content : FramedContent;
  auth : FramedContentAuthData;
}.

(** The content of an incoming message before its signature is checked; [tbs] with the group context *)
Record VerifiableAuthenticatedContent := MkVerifiable {
  verifiable : AuthenticatedContent;
  tbs_context : option bytes;
}.

(** ** Content and padding *)

Definition serialize_without_type (b : FramedContentBody) : option bytes :=
  match b with
  | Application a => tls_serialize a
  | ProposalBody p => tls_serialize p
  | CommitBody c => tls_serialize c
  end.

Definition deserialize_without_type (b : bytes) (t : ContentType) : option (FramedContentBody * bytes) :=
  match t with
  | ApplicationType => let! (a, b) <- tls_deserialize b in Some (Application a, b)
  | ProposalType => let! (p, b) <- tls_deserialize b in Some (ProposalBody p, b)
  | CommitType => let! (c, b) <- tls_deserialize b in Some (CommitBody c, b)
  end.

Definition serialize_auth (a : FramedContentAuthData) : option bytes :=
  let! s <- tls_serialize (signature a) in
  match confirmation_tag a with
  | Some t => let! t <- tls_serialize t in Some (s ++ t)
  | None => Some s
  end.

Definition deserialize_auth (b : bytes) (t : ContentType) : option (FramedContentAuthData * bytes) :=
  let! (s, b) <- tls_deserialize b in
  match t with
  | CommitType => let! (tag, b) <- tls_deserialize b in Some (MkAuthData s (Some tag), b)
  | _ => Some (MkAuthData s None, b)
  end.

Definition padding_length (plaintext_length padding_size mac_len : N) : N :=
  if 0 <? padding_size then
    let padding_offset := plaintext_length + mac_len in
    (padding_size - (padding_offset mod padding_size)) mod padding_size
  else 0.

Definition encode_padded_ciphertext_content_detached (m : AuthenticatedContent) (padding_size mac_len : N) :
    option bytes :=
  let! c <- serialize_without_type (body (content m)) in
  let! a <- serialize_auth (auth m) in
  let plaintext_length := N.of_nat (length c) + N.of_nat (length a) in
  Some (c ++ a ++ replicate (N.to_nat (padding_length plaintext_length padding_size mac_len)) Byte.x00).

Definition deserialize_ciphertext_content (b : bytes) (t : ContentType) :
    option (FramedContentBody * FramedContentAuthData) :=
  let! (c, b) <- deserialize_without_type b t in
  let! (a, padding) <- deserialize_auth b t in
  if forallb (λ x, bool_decide (x = Byte.x00)) padding then Some (c, a) else None.

(** ** The key of the sender data *)

Definition ciphertext_sample (c : Ciphersuite) (ciphertext : bytes) : bytes :=
  if N.of_nat (length ciphertext) <=? hash_length c then ciphertext
  else take (N.to_nat (hash_length c)) ciphertext.

Definition derive_aead_key (s : Secret) (c : Ciphersuite) (ciphertext : bytes) : result CryptoError AeadKey :=
  let? secret <- kdf_expand_label s c "key" (ciphertext_sample c ciphertext) (aead_key_length c) in
  Ok (key_from_secret secret c).

(** [None]: the panic of [AeadNonce::from_secret] *)
Definition derive_aead_nonce (s : Secret) (c : Ciphersuite) (ciphertext : bytes) :
    result CryptoError (option AeadNonce) :=
  let? nonce_secret <- kdf_expand_label s c "nonce" (ciphertext_sample c ciphertext) (aead_nonce_length c) in
  Ok (nonce_from_secret nonce_secret).
End messages.
Arguments FramedContentBody : clear implicits.
Arguments FramedContent : clear implicits.
Arguments FramedContentAuthData : clear implicits.
Arguments AuthenticatedContent : clear implicits.
Arguments VerifiableAuthenticatedContent : clear implicits.

Section operations.
Context {crypto : OpenMlsCrypto} {Proposal Commit ConfirmationTag : Type}.
Context {vlbytes : TlsCodec bytes} {proposals : TlsCodec Proposal} {commits : TlsCodec Commit}.
Context {tags : TlsCodec ConfirmationTag} {sender_datas : TlsCodec MlsSenderData}.
Context {sender_data_aads : TlsCodec MlsSenderDataAad} {content_aads : TlsCodec PrivateContentAad}.

Abbreviation Authenticated := (AuthenticatedContent Proposal Commit ConfirmationTag).
Abbreviation Verifiable := (VerifiableAuthenticatedContent Proposal Commit ConfirmationTag).

(** ** Sending *)

Definition library {A} (r : option A) : result MessageEncryptionError A := ok_or r EncLibraryError.
Definition library_crypto {A} (r : result CryptoError A) : result MessageEncryptionError A :=
  match r with Ok a => Ok a | Err _ => Err EncLibraryError end.

Definition encrypt_sender_data (c : Ciphersuite) (sender_data_secret : Secret) (m : Authenticated)
    (sender_index generation : N) (reuse_guard : ReuseGuard) (ciphertext : bytes) :
    result MessageEncryptionError bytes :=
  let? key <- library_crypto (derive_aead_key sender_data_secret c ciphertext) in
  let? nonce <- library_crypto (derive_aead_nonce sender_data_secret c ciphertext) in
  let? nonce <- ok_or nonce EncPanicked in
  let? aad <- library (tls_serialize (MkSenderDataAad (group_id (content m)) (epoch (content m))
                                        (content_type (body (content m))))) in
  let? data <- library (tls_serialize (from_sender sender_index generation reuse_guard)) in
  library_crypto (aead_seal key data aad nonce).

(** Everything after the key was taken out of the secret tree; [reuse_guard] is what the random generator
    answers. *)
Definition seal_content (c : Ciphersuite) (reuse_guard : option ReuseGuard) (m : Authenticated)
    (sender_data_secret : Secret) (padding_size sender_index : N) (content_aad : bytes) (generation : N)
    (ratchet : RatchetKeyMaterial) : result MessageEncryptionError (PrivateMessage * N) :=
  let '(ratchet_key, ratchet_nonce) := ratchet in
  let? reuse_guard <- library reuse_guard in
  let prepared_nonce := xor_with_reuse_guard ratchet_nonce reuse_guard in
  let? padded <- library (encode_padded_ciphertext_content_detached m padding_size (mac_length c)) in
  let? ciphertext <- library_crypto (aead_seal ratchet_key padded content_aad prepared_nonce) in
  let? encrypted_sender_data <-
    encrypt_sender_data c sender_data_secret m sender_index generation reuse_guard ciphertext in
  Ok (MkPrivateMessage (group_id (content m)) (epoch (content m)) (content_type (body (content m)))
        (authenticated_data (content m)) encrypted_sender_data ciphertext, generation).

Definition content_aad_of (group_id : bytes) (epoch : N) (t : ContentType) (authenticated_data : bytes) :
    option bytes := tls_serialize (MkContentAad group_id epoch t authenticated_data).

Definition encrypt_content (c : Ciphersuite) (reuse_guard : option ReuseGuard) (m : Authenticated)
    (secrets : MessageSecrets) (padding_size : N) :
    MessageSecrets * result MessageEncryptionError (PrivateMessage * N) :=
  match as_member (sender (content m)) with
  | None => (secrets, Err EncLibraryError)
  | Some sender_index =>
      match content_aad_of (group_id (content m)) (epoch (content m)) (content_type (body (content m)))
              (authenticated_data (content m)) with
      | None => (secrets, Err EncLibraryError)
      | Some content_aad =>
          let '(t, r) := secret_for_encryption (secret_tree secrets) c sender_index
                           (secret_type_of (content_type (body (content m)))) in
          (with_secret_tree secrets t,
           match r with
           | Err e => Err (EncSecretTreeError e)
           | Ok (generation, ratchet) =>
               seal_content c reuse_guard m (sender_data_secret secrets) padding_size sender_index content_aad
                 generation ratchet
           end)
      end
  end.

Definition try_from_authenticated_content (c : Ciphersuite) (reuse_guard : option ReuseGuard) (m : Authenticated)
    (secrets : MessageSecrets) (padding_size : N) :
    MessageSecrets * result MessageEncryptionError (PrivateMessage * N) :=
  if bool_decide (wire_format m = PrivateMessageFormat) then encrypt_content c reuse_guard m secrets padding_size
  else (secrets, Err EncWrongWireFormat).

(** ** Receiving *)

Definition sender_data (m : PrivateMessage) (secrets : MessageSecrets) (c : Ciphersuite) :
    result MessageDecryptionError MlsSenderData :=
  match derive_aead_key (sender_data_secret secrets) c (pm_ciphertext m) with
  | Err _ => Err DecLibraryError
  | Ok key =>
      match derive_aead_nonce (sender_data_secret secrets) c (pm_ciphertext m) with
      | Err _ => Err DecLibraryError
      | Ok nonce =>
          let? nonce <- ok_or nonce DecPanicked in
          let? aad <- ok_or (tls_serialize (MkSenderDataAad (pm_group_id m) (pm_epoch m) (pm_content_type m)))
                        DecLibraryError in
          match aead_open key (pm_encrypted_sender_data m) aad nonce with
          | Err _ => Err AeadError
          | Ok b => let? (d, _) <- ok_or (tls_deserialize b) MalformedContent in Ok d
          end
      end
  end.

Definition decrypt (m : PrivateMessage) (key : AeadKey) (nonce : AeadNonce) :
    result MessageDecryptionError (FramedContentBody Proposal Commit * FramedContentAuthData ConfirmationTag) :=
  let? aad <- ok_or (content_aad_of (pm_group_id m) (pm_epoch m) (pm_content_type m) (pm_authenticated_data m))
                DecLibraryError in
  match aead_open key (pm_ciphertext m) aad nonce with
  | Err _ => Err AeadError
  | Ok b => ok_or (deserialize_ciphertext_content b (pm_content_type m)) MalformedContent
  end.

Definition to_verifiable_content (m : PrivateMessage) (c : Ciphersuite) (secrets : MessageSecrets)
    (sender_index : N) (conf : SenderRatchetConfiguration) (d : MlsSenderData) :
    MessageSecrets * result MessageDecryptionError Verifiable :=
  let '(t, r) := secret_for_decryption (secret_tree secrets) c sender_index (secret_type_of (pm_content_type m))
                   (sd_generation d) conf in
  (with_secret_tree secrets t,
   match r with
   | Err e => Err (DecSecretTreeError e)
   | Ok (ratchet_key, ratchet_nonce) =>
       let? (b, a) <- decrypt m ratchet_key (xor_with_reuse_guard ratchet_nonce (sd_reuse_guard d)) in
       Ok (MkVerifiable
             (MkAuthenticated PrivateMessageFormat
                (MkFramedContent (pm_group_id m) (pm_epoch m) (from_sender_data d) (pm_authenticated_data m) b) a)
             (Some (serialized_context secrets)))
   end).

Definition from_verifiable_content (v : Verifiable) : result ValidationError Verifiable :=
  let m := verifiable v in
  let t := content_type (body (content m)) in
  if bool_decide (t = CommitType) && bool_decide (confirmation_tag (auth m) = None) then Err MissingConfirmationTag
  else if bool_decide (t = ApplicationType) then
    if negb (bool_decide (wire_format m = PrivateMessageFormat)) then Err UnencryptedApplicationMessage
    else if negb (is_member (sender (content m))) then Err ValLibraryError
    else Ok v
  else Ok v.

(** [DecryptedMessage::from_inbound_ciphertext] once the secrets of the epoch are found *)
Definition open_message (m : PrivateMessage) (c : Ciphersuite) (receiver_leaf : N)
    (conf : SenderRatchetConfiguration) (secrets : MessageSecrets) :
    MessageSecrets * result ValidationError Verifiable :=
  match sender_data m secrets c with
  | Err e => (secrets, Err (UnableToDecrypt e))
  | Ok d =>
      if sd_leaf_index d =? receiver_leaf then (secrets, Err CannotDecryptOwnMessage)
      else
        let '(secrets, r) := to_verifiable_content m c secrets (sd_leaf_index d) conf d in
        (secrets, match r with Err e => Err (UnableToDecrypt e) | Ok v => from_verifiable_content v end)
  end.

(** Both look-ups of the secrets find the same ones. *)
Definition from_inbound_ciphertext (m : PrivateMessage) (c : Ciphersuite) (g : GroupSecrets) (receiver_leaf : N)
    (conf : SenderRatchetConfiguration) : GroupSecrets * result ValidationError Verifiable :=
  let '(g, r) := message_secrets_mut g (pm_epoch m) (λ secrets,
    let '(secrets, r) := open_message m c receiver_leaf conf secrets in (secrets, Ok r)) in
  (g, match r with Err e => Err (UnableToDecrypt (DecSecretTreeError e)) | Ok r => r end).
End operations.

(** ** Padding *)

Lemma padding_length_fills plaintext_length padding_size mac_len : 0 < padding_size →
  (plaintext_length + padding_length plaintext_length padding_size mac_len + mac_len) mod padding_size = 0 ∧
  padding_length plaintext_length padding_size mac_len < padding_size.
Proof.
  intros Hp. unfold padding_length. rewrite (proj2 (N.ltb_lt _ _)) by done. cbv zeta.
  set (o := plaintext_length + mac_len). pose proof (N.mod_lt o padding_size ltac:(lia)) as Hm.
  split; [|apply N.mod_lt; lia].
  replace (plaintext_length + _ + mac_len) with (o + (padding_size - o mod padding_size) mod padding_size) by lia.
  rewrite N.Div0.add_mod_idemp_r. rewrite (N.div_mod o padding_size) at 1 by lia.
  replace (padding_size * (o `div` padding_size) + o mod padding_size + (padding_size - o mod padding_size))
    with ((o `div` padding_size + 1) * padding_size) by lia.
  apply N.Div0.mod_mul.
Qed.

Section theory.
Context {crypto : OpenMlsCrypto} {laws : CryptoLaws} {Proposal Commit ConfirmationTag : Type}.
Context `{!TlsCodec bytes, !TlsCodec Proposal, !TlsCodec Commit, !TlsCodec ConfirmationTag}.
Context `{!TlsCodec MlsSenderData, !TlsCodec MlsSenderDataAad, !TlsCodec PrivateContentAad}.
Context `{!TlsCodecLaws bytes, !TlsCodecLaws Proposal, !TlsCodecLaws Commit, !TlsCodecLaws ConfirmationTag}.
Context `{!TlsCodecLaws MlsSenderData}.

Abbreviation Authenticated := (AuthenticatedContent Proposal Commit ConfirmationTag).

(** Commits, and only they, carry a confirmation tag. *)
Definition tagged (m : Authenticated) : Prop :=
  is_Some (confirmation_tag (auth m)) ↔ content_type (body (content m)) = CommitType.

Lemma zeros_zero k : forallb (λ x, bool_decide (x = Byte.x00)) (replicate k Byte.x00) = true.
Proof. by induction k. Qed.

(** What was encoded is decoded, the padding is taken off. *)
Lemma content_roundtrip m padding_size mac_len b : tagged m →
  encode_padded_ciphertext_content_detached m padding_size mac_len = Some b →
  deserialize_ciphertext_content b (content_type (body (content m))) = Some (body (content m), auth m).
Proof using All.
  clear laws. intros Ht. unfold encode_padded_ciphertext_content_detached, deserialize_ciphertext_content.
  destruct (serialize_without_type _) as [bc|] eqn:Ec; [|done].
  destruct (serialize_auth _) as [ba|] eqn:Ea; [|done]. intros [= <-].
  set (zeros := replicate _ _).
  assert (Hc : deserialize_without_type (bc ++ ba ++ zeros) (content_type (body (content m)))
    = Some (body (content m), ba ++ zeros)).
  { destruct (body (content m)); cbn in Ec |- *; by rewrite (tls_deserialize_serialize _ _ _ Ec). }
  rewrite Hc. assert (Ha : deserialize_auth (ba ++ zeros) (content_type (body (content m))) = Some (auth m, zeros)).
  { unfold tagged in Ht. destruct (auth m) as [s tag]. unfold serialize_auth, deserialize_auth in *.
    cbn [signature confirmation_tag] in *. destruct (tls_serialize s) as [bs|] eqn:Es; [|done].
    destruct tag as [tag|].
    - destruct (tls_serialize tag) as [bt|] eqn:Et; [|done]. injection Ea as <-. rewrite <-app_assoc.
      rewrite (tls_deserialize_serialize _ _ _ Es), (proj1 Ht) by eauto.
      by rewrite (tls_deserialize_serialize _ _ _ Et).
    - injection Ea as <-. rewrite (tls_deserialize_serialize _ _ _ Es).
      destruct (content_type _); try done. by destruct (proj2 Ht eq_refl). }
  rewrite Ha. subst zeros. by rewrite zeros_zero.
Qed.

(** What a member has to be able to write down *)
Record encodable (m : Authenticated) : Prop := {
  encodable_body : is_Some (serialize_without_type (body (content m)));
  encodable_auth : is_Some (serialize_auth (auth m));
  encodable_content_aad : is_Some (content_aad_of (group_id (content m)) (epoch (content m))
    (content_type (body (content m))) (authenticated_data (content m)));
  encodable_sender_aad : is_Some (tls_serialize
    (MkSenderDataAad (group_id (content m)) (epoch (content m)) (content_type (body (content m)))));
  encodable_sender_data (d : MlsSenderData) : is_Some (tls_serialize d);
}.

(** The key of the sender data, derived on both sides *)
Lemma sample_short c ciphertext n : 0 < n <= 64 →
  short "key" (ciphertext_sample c ciphertext) n ∧ short "nonce" (ciphertext_sample c ciphertext) n.
Proof using Type.
  clear. intros Hn. assert (Hl : (length (ciphertext_sample c ciphertext) < 1024)%nat).
  { unfold ciphertext_sample. destruct (hash_length_bounds c).
    destruct (N.leb_spec (N.of_nat (length ciphertext)) (hash_length c)); [lia|]. rewrite length_take. lia. }
  split; (split; [cbn; lia|by split]).
Qed.

Lemma sender_key_ok c s ciphertext : whole c s →
  ∃ key nonce, derive_aead_key s c ciphertext = Ok key ∧ derive_aead_nonce s c ciphertext = Ok (Some nonce) ∧
    aead_mode key = aead_algorithm c ∧ N.of_nat (length (key_value key)) = aead_key_length c ∧
    N.of_nat (length (nonce_bytes nonce)) = aead_nonce_length c.
Proof using laws.
  intros Hs. destruct (lengths_bounds c) as [Hk Hn]. unfold derive_aead_key, derive_aead_nonce.
  destruct (sample_short c ciphertext (aead_key_length c)) as [H1 _]; [lia|].
  destruct (sample_short c ciphertext (aead_nonce_length c)) as [_ H2]; [lia|].
  destruct (expand_spec c s _ _ _ Hs H1) as [-> Hl1]. destruct (expand_spec c s _ _ _ Hs H2) as [-> Hl2].
  unfold nonce_from_secret. rewrite bool_decide_eq_true_2 by (unfold NONCE_BYTES; lia).
  by do 2 eexists.
Qed.

Lemma aead_seal_ok c key msg aad nonce : aead_mode key = aead_algorithm c →
  N.of_nat (length (key_value key)) = aead_key_length c → N.of_nat (length (nonce_bytes nonce)) = aead_nonce_length c →
  ∃ b, aead_seal key msg aad nonce = Ok b ∧ aead_open key b aad nonce = Ok msg.
Proof using laws.
  intros Hm Hk Hn. unfold aead_seal, aead_open.
  destruct (aead_encrypt_some (aead_mode key) (key_value key) msg (nonce_bytes nonce) aad) as [b Hb].
  { by rewrite Hm. }
  { by rewrite Hm. }
  exists b. by rewrite Hb, (aead_decrypt_encrypt _ _ _ _ _ _ Hb).
Qed.

(** Sealing under the key of a generation succeeds, and what was sealed is opened. *)
Lemma seal_content_opened c guard (m : Authenticated) s padding_size sender_index aad g (km : RatchetKeyMaterial) :
  encodable m → tagged m → whole c (sender_data_secret s) → sender (content m) = Member sender_index →
  content_aad_of (group_id (content m)) (epoch (content m)) (content_type (body (content m)))
    (authenticated_data (content m)) = Some aad →
  (let (k, x) := km in aead_mode k = aead_algorithm c ∧ N.of_nat (length (key_value k)) = aead_key_length c ∧
     N.of_nat (length (nonce_bytes x)) = aead_nonce_length c) →
  ∃ pm, seal_content c (Some guard) m (sender_data_secret s) padding_size sender_index aad g km = Ok (pm, g) ∧
    pm_content_type pm = content_type (body (content m)) ∧ pm_epoch pm = epoch (content m) ∧
    (∀ t, sender_data pm (with_secret_tree s t) c = Ok (MkSenderData sender_index g guard)) ∧
    (let (k, x) := km in
     decrypt pm k (xor_with_reuse_guard x guard) = Ok (body (content m), auth m)) ∧
    pm_group_id pm = group_id (content m) ∧ pm_authenticated_data pm = authenticated_data (content m).
Proof using All.
  intros [[bc Hbc] [ba Hba] _ [bsa Hsa] Hsd] Ht Hw Hs Haad Hkm. destruct km as [k x].
  destruct Hkm as (Hk1 & Hk2 & Hk3). unfold seal_content. cbn [library ok_or].
  destruct (encode_padded_ciphertext_content_detached m padding_size (mac_length c)) as [b|] eqn:Hb.
  2: { exfalso. revert Hb. unfold encode_padded_ciphertext_content_detached. by rewrite Hbc, Hba. }
  cbn [library ok_or].
  destruct (aead_seal_ok c k b aad (xor_with_reuse_guard x guard)) as (ct & Hct & Hopen); [done|done| |].
  { unfold xor_with_reuse_guard. cbn [nonce_bytes]. by rewrite xor_prefix_length. }
  rewrite Hct. cbn [library_crypto]. unfold encrypt_sender_data.
  destruct (sender_key_ok c (sender_data_secret s) ct Hw) as (sk & sn & Hsk & Hsn & Hm & Hl1 & Hl2).
  rewrite Hsk, Hsn, Hsa. cbn [library_crypto ok_or library].
  destruct (Hsd (from_sender sender_index g guard)) as [bd Hbd]. rewrite Hbd. cbn [library ok_or].
  destruct (aead_seal_ok c sk bd bsa sn Hm Hl1 Hl2) as (cs & Hcs & Hopens). rewrite Hcs. cbn [library_crypto].
  eexists. split; [done|]. cbn [pm_content_type pm_epoch pm_group_id pm_authenticated_data].
  split; [done|]. split; [done|]. split; [|split; [|done]].
  - intros t. unfold sender_data. cbn. rewrite Hsk, Hsn. cbn [ok_or]. rewrite Hsa. cbn [ok_or]. rewrite Hopens.
    rewrite <-(app_nil_r bd), (tls_deserialize_serialize _ _ _ Hbd). done.
  - unfold decrypt. cbn. rewrite Haad. cbn [ok_or]. rewrite Hopen. by rewrite (content_roundtrip m _ _ _ Ht Hb).
Qed.

Lemma from_verifiable_ok (m : Authenticated) ctx a : wire_format m = PrivateMessageFormat →
  sender (content m) = Member a → tagged m → from_verifiable_content (MkVerifiable m ctx) = Ok (MkVerifiable m ctx).
Proof using Type.
  clear. intros Hw Hs Ht. unfold from_verifiable_content. cbn [verifiable]. rewrite Hw, Hs. unfold tagged in Ht.
  destruct (content_type (body (content m))); cbn; try done.
  destruct (confirmation_tag (auth m)); [done|]. by destruct (proj2 Ht eq_refl).
Qed.

(** C36: in an epoch, whatever two members have asked their trees for before: a member's content is sealed under
    its next generation, and another member that has the message within its window and has not opened
    that generation yet opens it as the same content of the same sender. *)
Theorem private_message_read conf c n enc a b qs ps (m : Authenticated) shared guard padding_size :
  usual conf c n enc qs → usual conf c n enc ps → N.of_nat (length qs) < u32_max →
  a < 2 ^ n → a ≠ b → whole c (sender_data_secret shared) →
  wire_format m = PrivateMessageFormat → sender (content m) = Member a → tagged m → encodable m →
  let ty := secret_type_of (content_type (body (content m))) in
  let secrets own qs := with_secret_tree shared (epoch_of conf c n enc own qs).1 in
  let g := N.of_nat (length (log_after conf c n enc a (λ _ _, []) qs ty a)) in
  ∃ pm, (try_from_authenticated_content c (Some guard) m (secrets a qs) padding_size).2 = Ok (pm, g) ∧
    (is_ok (answer c (ratchet_seed c n enc ty a) conf (log_after conf c n enc b (λ _ _, []) ps ty a) g) = true →
     (open_message pm c b conf (secrets b ps)).2 = Ok (MkVerifiable m (Some (serialized_context shared)))).
Proof using All.
  intros Hqs Hps Hlen Ha Hab Hw Hwf Hs Ht He ty secrets g.
  destruct (epoch_promises conf c n enc a qs Hqs) as [_ HA]. destruct (epoch_promises conf c n enc b ps Hps) as [_ HB].
  destruct Hqs as (Hn & Hwhole & Htol & _ & _).
  pose proof (log_after_length conf c n enc a (λ _ _, []) qs ty a) as Hll. cbn [length] in Hll.
  assert (Hg : g < u32_max) by (subst g; lia).
  destruct (encodable_content_aad m He) as [aad Haad].
  pose proof (key_material_fits c (ratchet_seed c n enc ty a) (ratchet_seed_whole c n enc Hwhole ty a) g) as Hkm.
  destruct (seal_content_opened c guard m shared padding_size a aad g (key_material c (ratchet_seed c n enc ty a) g) He Ht Hw Hs Haad Hkm)
    as (pm & Hpm & Hty & Hep & Hsd & Hdec & Hgid & Had).
  exists pm. split.
  - unfold try_from_authenticated_content. rewrite bool_decide_eq_true_2 by done.
    unfold encrypt_content. rewrite Hs. cbn [as_member]. rewrite Haad.
    destruct (encrypt_step conf c n enc a Hn Hwhole _ _ a ty HA Hg) as (t' & Hserve & _).
    cbn [serve promise] in Hserve. rewrite (proj2 (N.leb_gt _ _)), N.eqb_refl in Hserve by done.
    fold ty. subst secrets. cbn [secret_tree with_secret_tree]. rewrite Hserve. cbn [snd]. exact Hpm.
  - intros Hok. unfold open_message. subst secrets. cbn beta. rewrite Hsd. cbn [sd_leaf_index].
    rewrite (proj2 (N.eqb_neq _ _)) by done. unfold to_verifiable_content. rewrite Hty. fold ty.
    destruct (decrypt_step conf c n enc b Hn Hwhole Htol _ _ a ty g HB Hg) as (t' & Hserve & _).
    cbn [serve promise] in Hserve. rewrite (proj2 (N.leb_gt _ _)), (proj2 (N.eqb_neq _ _)) in Hserve by done.
    cbn [secret_tree with_secret_tree sd_generation].
    destruct (secret_for_decryption _ _ _ _ _ _) as [t r]. injection Hserve as _ Hr.
    unfold answer in Hr, Hok. destruct (_ && _); [done|]. destruct (_ && _); [done|].
    destruct (bool_decide _); [done|]. destruct r as [km|]; [|done]. injection Hr as ->.
    destruct (key_material c (ratchet_seed c n enc ty a) g) as [k x] eqn:Ekm.
    cbn [sd_reuse_guard]. rewrite Hdec. cbn [snd].
    assert (Hm : MkAuthenticated PrivateMessageFormat
      (MkFramedContent (pm_group_id pm) (pm_epoch pm) (from_sender_data (MkSenderData a g guard))
        (pm_authenticated_data pm) (body (content m))) (auth m) = m).
    { rewrite Hgid, Hep, Had. unfold from_sender_data. cbn [sd_leaf_index]. rewrite <-Hs, <-Hwf.
      by destruct m as [? [] ?]. }
    rewrite Hm. by apply (from_verifiable_ok m _ a).
Qed.
End theory.

(** ** A toy codec and a run *)

(** A mark before each byte, and another one at the end *)
Fixpoint toy_write (b : bytes) : bytes :=
  match b with [] => [Byte.x00] | x :: b => Byte.x01 :: x :: toy_write b end.
Fixpoint toy_read (b : bytes) : option (bytes * bytes) :=
  match b with
  | Byte.x00 :: rest => Some ([], rest)
  | Byte.x01 :: x :: rest => let! (b, rest) <- toy_read rest in Some (x :: b, rest)
  | _ => None
  end.

Lemma toy_read_write b rest : toy_read (toy_write b ++ rest) = Some (b, rest).
Proof. induction b as [|x b IH]; [done|]. cbn. by rewrite IH. Qed.

Definition toy_number (n : N) : bytes := toy_write (replicate (N.to_nat n) Byte.x00).

#[export] Instance toy_bytes_codec : TlsCodec bytes :=
  {| tls_serialize b := Some (toy_write b); tls_deserialize := toy_read |}.
#[export] Instance toy_sender_data_codec : TlsCodec MlsSenderData := {|
  tls_serialize d :=
    Some (toy_number (sd_leaf_index d) ++ toy_number (sd_generation d) ++ toy_write (guard_bytes (sd_reuse_guard d)));
  tls_deserialize b :=
    let! (i, b) <- toy_read b in
    let! (g, b) <- toy_read b in
    let! (guard, b) <- toy_read b in
    Some (MkSenderData (N.of_nat (length i)) (N.of_nat (length g)) (MkReuseGuard guard), b);
|}.
Definition toy_type (t : ContentType) : Byte.byte :=
  match t with ApplicationType => Byte.x01 | ProposalType => Byte.x02 | CommitType => Byte.x03 end.
(** Associated data is only written. *)
#[export] Instance toy_sender_aad_codec : TlsCodec MlsSenderDataAad := {|
  tls_serialize d := Some (toy_write (sda_group_id d) ++ toy_number (sda_epoch d) ++ [toy_type (sda_content_type d)]);
  tls_deserialize _ := None;
|}.
#[export] Instance toy_content_aad_codec : TlsCodec PrivateContentAad := {|
  tls_serialize d := Some (toy_write (ca_group_id d) ++ toy_number (ca_epoch d) ++ [toy_type (ca_content_type d)]
                             ++ toy_write (ca_authenticated_data d));
  tls_deserialize _ := None;
|}.

#[export] Instance toy_bytes_laws : TlsCodecLaws bytes.
Proof. intros a b rest [= <-]. apply toy_read_write. Qed.
#[export] Instance toy_sender_data_laws : TlsCodecLaws MlsSenderData.
Proof.
  intros [i g [guard]] b rest [= <-]. cbn. unfold toy_number.
  rewrite <-!app_assoc, !toy_read_write, !length_replicate, !N2Nat.id. done.
Qed.

Definition toy_text : AuthenticatedContent bytes bytes bytes :=
  MkAuthenticated PrivateMessageFormat
    (MkFramedContent [Byte.x47] 3 (Member 1) [] (Application (String.list_byte_of_string "hello")))
    (MkAuthData [Byte.x53] None).

Definition toy_epoch_secrets (own : N) (qs : list Request) : MessageSecrets :=
  with_secret_tree (toy_secrets Byte.x09)
    (epoch_of default_configuration toy_suite 2 (toy_secret Byte.x07) own qs).1.

Lemma private_message_read_witness :
  ∃ pm, (try_from_authenticated_content toy_suite (Some (MkReuseGuard [Byte.x01; Byte.x02; Byte.x03; Byte.x04]))
           toy_text (toy_epoch_secrets 1 [Encrypt 1 ApplicationSecret]) 32).2 = Ok (pm, 1) ∧
    (open_message pm toy_suite 2 default_configuration
       (toy_epoch_secrets 2 [Decrypt 1 ApplicationSecret 2; Decrypt 1 ApplicationSecret 0])).2
    = Ok (MkVerifiable toy_text (Some [Byte.x09])).
Proof.
  destruct (private_message_read default_configuration toy_suite 2 (toy_secret Byte.x07) 1 2
    [Encrypt 1 ApplicationSecret] [Decrypt 1 ApplicationSecret 2; Decrypt 1 ApplicationSecret 0]
    toy_text (toy_secrets Byte.x09) (MkReuseGuard [Byte.x01; Byte.x02; Byte.x03; Byte.x04]) 32)
    as (pm & Hpm & Hopen); [..|by exists pm; split; [apply Hpm|apply Hopen; vm_compute]].
  1, 2: apply toy_usual; [by repeat constructor|done].
  all: try done. split; [by intros []|done].
Defined.
