(* ===== verification/MlsProposals.v ===== *)
(** * The proposals of a commit and the members they leave

    [messages/proposals.rs], the queue of [group/mls_group/proposal_store.rs] and
    [PublicGroupDiff::apply_proposals] ([group/public_group/diff/apply_proposals.rs]): updates,
    removes and self-removes, then adds, then the tree is trimmed.

    [members_after_proposals] says which members a commit leaves and where the new ones sit;
    [removed_member_returns] is about the one place that adds a leaf after the trimming. *)

From S2P Require Import Prelude MlsTree MlsBinaryTree MlsCrypto MlsTreeSync MlsTreeViews MlsKeySchedule MlsMessages.
From stdpp Require Import options.

Local Open Scope N_scope.

(** ** Key packages and proposals *)

Record KeyPackageTbs := MkKeyPackageTbs {
  protocol_version : N;
  package_ciphersuite : Ciphersuite;
  init_key : bytes;
  package_leaf_node : LeafNode;
  package_extensions : list Extension;
}.

Record KeyPackage := MkKeyPackage { package_payload : KeyPackageTbs; package_signature : bytes }.

Record ReInitProposal := MkReInitProposal {
  reinit_group_id : bytes;
  reinit_version : N;
  reinit_ciphersuite : Ciphersuite;
  reinit_extensions : list Extension;
}.

Inductive Proposal :=
| Add (key_package : KeyPackage)
| Update (leaf_node : LeafNode)
| Remove (removed : treemath.LeafNodeIndex)
| PreSharedKey (psk : PreSharedKeyId)
| ReInit (reinit : ReInitProposal)
| ExternalInit (kem_output : bytes)
| GroupContextExtensions (extensions : list Extension)
| SelfRemove
| Custom (proposal_type : N) (payload : bytes).

Inductive ProposalType :=
| TypeAdd
| TypeUpdate
| TypeRemove
| TypePreSharedKey
| TypeReinit
| TypeExternalInit
| TypeGroupContextExtensions
| TypeSelfRemove
| TypeGrease (v : N)
| TypeCustom (v : N).

#[export] Instance proposal_type_eq_dec : EqDecision ProposalType.
Proof. solve_decision. Defined.

Definition proposal_type (p : Proposal) : ProposalType :=
  match p with
  | Add _ => TypeAdd
  | Update _ => TypeUpdate
  | Remove _ => TypeRemove
  | PreSharedKey _ => TypePreSharedKey
  | ReInit _ => TypeReinit
  | ExternalInit _ => TypeExternalInit
  | GroupContextExtensions _ => TypeGroupContextExtensions
  | SelfRemove => TypeSelfRemove
  | Custom proposal_type _ => TypeCustom proposal_type
  end.

Definition is_type (p : Proposal) (t : ProposalType) : bool := bool_decide (proposal_type p = t).

Definition type_requires_path (t : ProposalType) : bool :=
  match t with
  | TypeUpdate | TypeRemove | TypeExternalInit | TypeGroupContextExtensions | TypeSelfRemove => true
  | _ => false
  end.

Definition is_path_required (p : Proposal) : bool := type_requires_path (proposal_type p).

(** ** The queue *)

Inductive ProposalOrRefType := ByProposal | ByReference.

Record QueuedProposal := MkQueuedProposal {
  proposal : Proposal;
  proposal_reference : bytes;
  proposal_sender : Sender;
  proposal_or_ref_type : ProposalOrRefType;
}.

Record ProposalQueue := MkProposalQueue {
  proposal_references : list bytes;
  queued : gmap bytes QueuedProposal;
}.

Definition queue_is_empty (q : ProposalQueue) : bool :=
  match proposal_references q with [] => true | _ => false end.

Definition get (q : ProposalQueue) (reference : bytes) : option QueuedProposal := queued q !! reference.

Definition queue_add (q : ProposalQueue) (p : QueuedProposal) : ProposalQueue :=
  match queued q !! proposal_reference p with
  | Some _ => q
  | None => MkProposalQueue (proposal_references q ++ [proposal_reference p])
              (<[proposal_reference p := p]> (queued q))
  end.

Definition refers_to (q : ProposalQueue) (t : ProposalType) (reference : bytes) : bool :=
  match get q reference with Some p => is_type (proposal p) t | None => false end.

Definition filtered_by_type (q : ProposalQueue) (t : ProposalType) : list QueuedProposal :=
  omap (get q) (filter (λ reference, refers_to q t reference) (proposal_references q)).

Definition queued_proposals (q : ProposalQueue) : list QueuedProposal := omap (get q) (proposal_references q).

(** ** [apply_proposals] *)

Record ApplyProposalsValues := MkApplyProposalsValues {
  path_required : bool;
  self_removed : bool;
  invitation_list : list (treemath.LeafNodeIndex * KeyPackage);
  presharedkeys : list PreSharedKeyId;
  external_init_proposal_option : option bytes;
  updated_extensions : option (list Extension);
}.

Definition exclusion_list (v : ApplyProposalsValues) : gset treemath.LeafNodeIndex :=
  list_to_set (invitation_list v).*1.

Fixpoint apply_updates (d : TreeSyncDiff) (ps : list QueuedProposal) : option (result LibraryError TreeSyncDiff) :=
  match ps with
  | [] => Some (Ok d)
  | p :: ps =>
      match proposal p with
      | Update leaf_node =>
          match proposal_sender p with
          | Member sender_index =>
              let! d <- update_leaf d leaf_node sender_index in
              apply_updates d ps
          | _ => Some (Err (CustomError "Update proposal from non-member"))
          end
      | _ => apply_updates d ps
      end
  end.

Fixpoint apply_removes (own_leaf_index : option treemath.LeafNodeIndex) (d : TreeSyncDiff) (self_removed : bool)
    (ps : list QueuedProposal) : option (TreeSyncDiff * bool) :=
  match ps with
  | [] => Some (d, self_removed)
  | p :: ps =>
      match proposal p with
      | Remove removed =>
          let self_removed := bool_decide (own_leaf_index = Some removed) || self_removed in
          let! d <- blank_leaf d removed in
          apply_removes own_leaf_index d self_removed ps
      | _ => apply_removes own_leaf_index d self_removed ps
      end
  end.

Fixpoint apply_self_removes (own_leaf_index : option treemath.LeafNodeIndex) (d : TreeSyncDiff) (self_removed : bool)
    (ps : list QueuedProposal) : option (result LibraryError (TreeSyncDiff * bool)) :=
  match ps with
  | [] => Some (Ok (d, self_removed))
  | p :: ps =>
      match proposal p with
      | SelfRemove =>
          match proposal_sender p with
          | Member removed =>
              let self_removed := bool_decide (Some removed = own_leaf_index) || self_removed in
              let! d <- blank_leaf d removed in
              apply_self_removes own_leaf_index d self_removed ps
          | _ => Some (Err (CustomError "SelfRemove proposal from non-member"))
          end
      | _ => apply_self_removes own_leaf_index d self_removed ps
      end
  end.

Fixpoint apply_adds (d : TreeSyncDiff) (invitation_list : list (treemath.LeafNodeIndex * KeyPackage))
    (adds : list KeyPackage) :
    option (result LibraryError (TreeSyncDiff * list (treemath.LeafNodeIndex * KeyPackage))) :=
  match adds with
  | [] => Some (Ok (d, invitation_list))
  | key_package :: adds =>
      let!? (leaf_index, d) <- (let! r <- add_leaf d (package_leaf_node (package_payload key_package)) in
        Some (map_err (λ _, CustomError "Tree full: cannot add more members") r)) in
      apply_adds d (invitation_list ++ [(leaf_index, key_package)]) adds
  end.

Definition as_add (p : Proposal) : option KeyPackage := match p with Add k => Some k | _ => None end.
Definition as_psk (p : Proposal) : option PreSharedKeyId := match p with PreSharedKey psk => Some psk | _ => None end.
Definition as_extensions (p : Proposal) : option (list Extension) :=
  match p with GroupContextExtensions extensions => Some extensions | _ => None end.

Definition apply_proposals (d : TreeSyncDiff) (proposal_queue : ProposalQueue)
    (own_leaf_index : option treemath.LeafNodeIndex) :
    option (result LibraryError (ApplyProposalsValues * TreeSyncDiff)) :=
  let external_init_proposal_option :=
    match filtered_by_type proposal_queue TypeExternalInit with
    | p :: _ => match proposal p with ExternalInit kem_output => Some kem_output | _ => None end
    | [] => None
    end in
  let!? d <- apply_updates d (filtered_by_type proposal_queue TypeUpdate) in
  let! (d, self_removed) <- apply_removes own_leaf_index d false (filtered_by_type proposal_queue TypeRemove) in
  let!? (d, self_removed) <-
    apply_self_removes own_leaf_index d self_removed (filtered_by_type proposal_queue TypeSelfRemove) in
  let!? (d, invitation_list) <-
    apply_adds d [] (omap (as_add ∘ proposal) (filtered_by_type proposal_queue TypeAdd)) in
  let! d <- trim_tree d in
  let presharedkeys := omap (as_psk ∘ proposal) (filtered_by_type proposal_queue TypePreSharedKey) in
  let updated_extensions :=
    head (omap (as_extensions ∘ proposal) (filtered_by_type proposal_queue TypeGroupContextExtensions)) in
  let proposals_require_path := existsb (is_path_required ∘ proposal) (queued_proposals proposal_queue) in
  let path_required := proposals_require_path || queue_is_empty proposal_queue in
  Some (Ok (MkApplyProposalsValues path_required self_removed invitation_list presharedkeys
    external_init_proposal_option updated_extensions, d)).

(** ** What the queue asks for *)

Definition as_update (p : QueuedProposal) : option (N * LeafNode) :=
  match proposal p, proposal_sender p with Update l, Member i => Some (i, l) | _, _ => None end.

Definition as_removed (p : QueuedProposal) : option N :=
  match proposal p with
  | Remove i => Some i
  | SelfRemove => as_member (proposal_sender p)
  | _ => None
  end.

Definition updates_of (q : ProposalQueue) : list (N * LeafNode) := omap as_update (queued_proposals q).
Definition removed_of (q : ProposalQueue) : list N := omap as_removed (queued_proposals q).
Definition adds_of (q : ProposalQueue) : list KeyPackage := omap (as_add ∘ proposal) (queued_proposals q).

(** What validation leaves: updates and self-removes are from members, and members are removed. *)
Definition proposed_by_members (M : gmap N LeafNode) (p : QueuedProposal) : Prop :=
  match proposal p with
  | Update _ | SelfRemove => ∃ i, proposal_sender p = Member i ∧ is_Some (M !! i)
  | Remove i => is_Some (M !! i)
  | _ => True
  end.

Lemma filtered_queued q t : filtered_by_type q t = filter (λ p, is_type (proposal p) t) (queued_proposals q).
Proof.
  unfold filtered_by_type, queued_proposals. induction (proposal_references q) as [|r l IH]; [done|].
  destruct (refers_to q t r) eqn:E; unfold refers_to in E.
  - rewrite filter_true by done. cbn [omap list_omap]. destruct (get q r) as [p|]; [|done].
    rewrite filter_true by done. by f_equal.
  - rewrite filter_false by done. cbn [omap list_omap]. destruct (get q r) as [p|]; [|done].
    by rewrite filter_false.
Qed.

Lemma omap_of_type {A} (f : QueuedProposal → option A) t (ps : list QueuedProposal) :
  (∀ p, is_type (proposal p) t = false → f p = None) →
  omap f (filter (λ p, is_type (proposal p) t) ps) = omap f ps.
Proof.
  intros Hf. induction ps as [|p ps IH]; [done|]. destruct (is_type (proposal p) t) eqn:E.
  - rewrite filter_true by done. cbn. by rewrite IH.
  - rewrite filter_false by done. cbn. by rewrite (Hf p E), IH.
Qed.

(** ** Abstract members *)

Definition updated (M : gmap N LeafNode) (us : list (N * LeafNode)) : gmap N LeafNode :=
  foldl (λ M u, <[u.1 := u.2]> M) M us.

Definition without (M : gmap N LeafNode) (removed : list N) : gmap N LeafNode :=
  filter (λ kv, kv.1 ∉ removed) M.

(** New members take the leftmost free places in turn. *)
Inductive adding : gmap N LeafNode → list LeafNode → gmap N LeafNode → list N → Prop :=
| adding_none M : adding M [] M []
| adding_next M l ls M' i rest :
    M !! i = None → (∀ j, j < i → is_Some (M !! j)) →
    adding (<[i := l]> M) ls M' rest → adding M (l :: ls) M' (i :: rest).

Definition shows (d : TreeSyncDiff) (M : gmap N LeafNode) : Prop := ∀ i, diff.leaf d i = M !! i.

Lemma lookup_without M l i : without M l !! i = if decide (i ∈ l) then None else M !! i.
Proof.
  unfold without. apply option_eq. intros x. rewrite map_lookup_filter_Some. cbn. case_decide; naive_solver.
Qed.

Lemma without_app M l k : without (without M l) k = without M (l ++ k).
Proof.
  apply map_eq. intros i. rewrite !lookup_without. repeat case_decide; set_solver.
Qed.

(** ** What happens to the parents

    Those that are left have their keys and their unmerged leaves, and the new members, [news],
    are unmerged in all that are above them. *)
Record evolves (d d' : TreeSyncDiff) (n' : N) (news : list N) : Prop := {
  evolves_old p P' : p < 2 ^ n' - 1 → diff.parent d' p = Some P' →
    ∃ P, diff.parent d p = Some P ∧ parent_encryption_key P' = parent_encryption_key P ∧
      (∀ i, i ∈ unmerged_leaves P → i ∈ unmerged_leaves P') ∧
      (∀ i, i ∈ unmerged_leaves P' → i ∈ unmerged_leaves P ∨ i ∈ news);
  evolves_tree : diff.original_tree d' = diff.original_tree d;
  evolves_new i k P' : i ∈ news → up i k < 2 ^ n' - 1 → diff.parent d' (up i k) = Some P' → i ∈ unmerged_leaves P';
}.

Lemma evolves_refl d n : evolves d d n [].
Proof. split; [intros p P' _ E; exists P'; naive_solver|done|]. intros i k P' Hi. by apply elem_of_nil in Hi. Qed.

Lemma evolves_trans d d' d'' n' n'' news news' :
  (∀ p, 2 ^ n' - 1 <= p → diff.parent d' p = None) →
  evolves d d' n' news → evolves d' d'' n'' news' → evolves d d'' n'' (news ++ news').
Proof.
  intros Hb [H1 Ht H2] [K1 Kt K2].
  assert (Hlt : ∀ p P', diff.parent d' p = Some P' → p < 2 ^ n' - 1).
  { intros p P' E. destruct (N.lt_ge_cases p (2 ^ n' - 1)); [done|]. by rewrite Hb in E. }
  split.
  - intros p P'' Hp E. destruct (K1 p P'' Hp E) as (P' & E' & Hk' & Hu1 & Hu2).
    destruct (H1 p P' (Hlt _ _ E') E') as (P & EP & Hk & Hv1 & Hv2). exists P. split; [done|].
    split; [congruence|]. split; [auto|]. intros i Hi. rewrite elem_of_app. apply Hu2 in Hi as [Hi|]; [|auto].
    apply Hv2 in Hi as [|]; auto.
  - congruence.
  - intros i k P'' [Hi|Hi]%elem_of_app Hp E; [|by eapply K2].
    destruct (K1 _ P'' Hp E) as (P' & E' & _ & Hu1 & _). apply Hu1. apply (H2 i k P'); [done|by eapply Hlt|done].
Qed.

Lemma evolves_written d d' n i x : written d d' n i x → evolves d d' n [].
Proof.
  intros (_ & Hp & Ho). split; [|done|intros j k P' Hj; by apply elem_of_nil in Hj].
  intros p P' _ E. rewrite Hp in E. case_decide; [done|]. exists P'. naive_solver.
Qed.

Lemma elem_of_add_unmerged l i j : j ∈ add_unmerged l i ↔ j = i ∨ j ∈ l.
Proof.
  unfold add_unmerged. set (n := length _). rewrite <-(take_drop n l) at 3.
  rewrite !elem_of_app, elem_of_cons. naive_solver.
Qed.

Lemma evolves_added d d' n i l : i < 2 ^ n → added d d' n i l → evolves d d' n [i].
Proof.
  intros Hi (_ & Hp & Ho). split; [|done|].
  - intros p P' _ E. rewrite Hp in E. case_decide as Hin.
    + destruct (diff.parent d p) as [P|] eqn:EP; [|done]. injection E as <-. exists P. split; [done|]. split; [done|].
      cbn. setoid_rewrite elem_of_add_unmerged. setoid_rewrite list_elem_of_singleton. naive_solver.
    + exists P'. naive_solver.
  - intros j k P' Hj%list_elem_of_singleton Hk E. subst j. rewrite Hp in E. rewrite decide_True in E.
    + destruct (diff.parent d (up i k)); [|done]. injection E as <-. cbn. apply elem_of_add_unmerged. by left.
    + apply elem_of_path. exists k. split; [|done]. by eapply up_range.
Qed.

(** ** The phases *)

Record phase (d : TreeSyncDiff) (n m : N) (M : gmap N LeafNode) : Prop := {
  phase_growing : growing d n m;
  phase_tidy : tidy d n;
  phase_shows : shows d M;
}.

Lemma phase_bound d n m M i : phase d n m M → is_Some (M !! i) → i < m.
Proof. intros [Hg _ Hs] Hi. apply (growing_full d n m); [done|]. unfold full_leaf. by rewrite Hs. Qed.

Lemma phase_written d n m M i x : phase d n m M → i < m →
  ∃ d', diff.set_direct_path_to_node (diff.replace_leaf d i x) i None = Some d' ∧
    phase d' n m (match x with Some l => <[i := l]> M | None => without M [i] end) ∧ evolves d d' n [].
Proof.
  intros [Hg Ht Hs] Hi. destruct (growing_write d n m i x Hg Hi) as (d' & E & Hg' & Hw). exists d'.
  split; [done|]. split; [|by eapply evolves_written]. split; [done| |].
  - eapply tidy_written; [|done..]. pose proof (growing_room _ _ _ Hg). lia.
  - intros j. rewrite (proj1 Hw). destruct x as [l|].
    + case_decide as E'; [subst; by rewrite lookup_insert_eq|by rewrite lookup_insert_ne, Hs].
    + rewrite lookup_without, Hs. repeat case_decide; set_solver.
Qed.

Lemma phase_trans d d' d'' n m M news : phase d' n m M →
  evolves d d' n [] → evolves d' d'' n news → evolves d d'' n news.
Proof. intros [Hg _ _]. apply (evolves_trans d d' d'' n n [] news). apply (growing_bare _ _ _ Hg). Qed.

Lemma updates_phase d n m M ps : phase d n m M →
  (∀ p, p ∈ ps → ∀ l, proposal p = Update l → ∃ i, proposal_sender p = Member i ∧ i < m) →
  ∃ d', apply_updates d ps = Some (Ok d') ∧ phase d' n m (updated M (omap as_update ps)) ∧ evolves d d' n [].
Proof.
  revert d M. induction ps as [|p ps IH]; intros d M Hp Hv; [exists d; split; [done|]; split; [done|apply evolves_refl]|].
  assert (Hv' : ∀ p, p ∈ ps → ∀ l, proposal p = Update l → ∃ i, proposal_sender p = Member i ∧ i < m)
    by (intros; eapply Hv; [by right|done]).
  cbn [apply_updates omap list_omap]. unfold as_update at 1.
  destruct (proposal p) eqn:E; try by apply IH.
  destruct (Hv p ltac:(by left) _ E) as (i & Ei & Hi). rewrite Ei. unfold update_leaf.
  destruct (phase_written d n m M i (Some leaf_node) Hp Hi) as (d1 & -> & Hp1 & Hev1).
  destruct (IH d1 _ Hp1 Hv') as (d' & -> & Hp' & Hev'). exists d'. split; [done|]. split; [done|].
  by apply (phase_trans d d1 d' n m _ [] Hp1).
Qed.

Lemma removes_phase d n m M ps : phase d n m M →
  (∀ p, p ∈ ps → ∀ i, proposal p = Remove i → i < m) →
  let gone := omap (λ p, match proposal p with Remove i => Some i | _ => None end) ps in
  ∃ d', (∀ own b, apply_removes own d b ps = Some (d', existsb (λ i, bool_decide (own = Some i)) gone || b)) ∧
    phase d' n m (without M gone) ∧ evolves d d' n [].
Proof.
  revert d M. induction ps as [|p ps IH]; intros d M Hp Hv.
  { exists d. split; [done|]. split; [|apply evolves_refl]. replace (without M _) with M; [done|].
    apply map_eq. intros i. rewrite lookup_without. case_decide as Hi; [by apply elem_of_nil in Hi|done]. }
  assert (Hv' : ∀ p, p ∈ ps → ∀ i, proposal p = Remove i → i < m) by (intros; eapply Hv; [by right|done]).
  cbn [apply_removes omap list_omap]. destruct (proposal p) eqn:E; try by apply IH.
  specialize (Hv p ltac:(by left) _ E). unfold blank_leaf.
  destruct (phase_written d n m M removed None Hp Hv) as (d1 & -> & Hp1 & Hev1).
  destruct (IH d1 _ Hp1 Hv') as (d' & E' & Hp' & Hev'). exists d'.
  split; [|split; [|by apply (phase_trans d d1 d' n m _ [] Hp1)]].
  - intros own b. rewrite E'. cbn [existsb]. do 2 f_equal. rewrite !orb_assoc. f_equal. apply orb_comm.
  - by rewrite without_app in Hp'.
Qed.

Lemma self_removes_phase d n m M ps : phase d n m M →
  (∀ p, p ∈ ps → proposal p = SelfRemove → ∃ i, proposal_sender p = Member i ∧ i < m) →
  let gone := omap (λ p, match proposal p with SelfRemove => as_member (proposal_sender p) | _ => None end) ps in
  ∃ d', (∀ own b, apply_self_removes own d b ps = Some (Ok (d', existsb (λ i, bool_decide (own = Some i)) gone || b))) ∧
    phase d' n m (without M gone) ∧ evolves d d' n [].
Proof.
  revert d M. induction ps as [|p ps IH]; intros d M Hp Hv.
  { exists d. split; [done|]. split; [|apply evolves_refl]. replace (without M _) with M; [done|].
    apply map_eq. intros i. rewrite lookup_without. case_decide as Hi; [by apply elem_of_nil in Hi|done]. }
  assert (Hv' : ∀ p, p ∈ ps → proposal p = SelfRemove → ∃ i, proposal_sender p = Member i ∧ i < m)
    by (intros; eapply Hv; [by right|done]).
  cbn [apply_self_removes omap list_omap]. destruct (proposal p) eqn:E; try by apply IH.
  destruct (Hv p ltac:(by left) E) as (removed & Es & Hi). rewrite Es. cbn [as_member]. unfold blank_leaf.
  destruct (phase_written d n m M removed None Hp Hi) as (d1 & -> & Hp1 & Hev1).
  destruct (IH d1 _ Hp1 Hv') as (d' & E' & Hp' & Hev'). exists d'.
  split; [|split; [|by apply (phase_trans d d1 d' n m _ [] Hp1)]].
  - intros own b. rewrite E'. cbn [existsb]. do 3 f_equal. rewrite (bool_decide_ext (Some removed = own) (own = Some removed)) by done.
    rewrite !orb_assoc. f_equal. apply orb_comm.
  - by rewrite without_app in Hp'.
Qed.

Definition add_leaf_node (k : KeyPackage) : LeafNode := package_leaf_node (package_payload k).

Definition tree_full : LibraryError := CustomError "Tree full: cannot add more members".

Lemma phase_added d n m M l : phase d n m M →
  let i := free_leaf_index d in
  M !! i = None ∧ (∀ j, j < i → is_Some (M !! j)) ∧
  ((i = 2 ^ 29 ∧ add_leaf d l = Some (Err AddLeafTreeFull)) ∨
   ∃ d' n' m', add_leaf d l = Some (Ok (i, d')) ∧ n <= n' ∧ phase d' n' m' (<[i := l]> M) ∧ evolves d d' n' [i]).
Proof.
  intros [Hg Ht Hs] i. destruct (add_leaf_spec d n m l Hg) as (Hi & Hj & Hn & Ha). fold i in Hi, Hj, Hn, Ha.
  rewrite <-Hs. split; [done|]. split; [intros j Hlt; rewrite <-Hs; by apply Hj|].
  destruct Ha as [|(d' & n' & E & Hle & Hg' & Had)]; [by left|right]. exists d', n', (N.max m (i + 1)).
  split; [done|]. split; [done|]. split.
  - split; [done|by apply (tidy_added d d' n n' m i l)|]. intros j. rewrite (proj1 Had). case_decide as Ej.
    + subst j. by rewrite lookup_insert_eq.
    + by rewrite lookup_insert_ne, Hs.
  - eapply evolves_added; [|done]. pose proof (growing_room _ _ _ Hg'). lia.
Qed.

Lemma adds_phase d n m M inv adds : phase d n m M →
  (∃ d' n' m' M' new, apply_adds d inv adds = Some (Ok (d', inv ++ zip new adds)) ∧ n <= n' ∧ phase d' n' m' M' ∧
     adding M (add_leaf_node <$> adds) M' new ∧ length new = length adds ∧ evolves d d' n' new) ∨
  (∃ k M' new, apply_adds d inv adds = Some (Err tree_full) ∧ (k < length adds)%nat ∧
     adding M (take k (add_leaf_node <$> adds)) M' new ∧ ∀ j, j < 2 ^ 29 → is_Some (M' !! j)).
Proof.
  revert d n m M inv. induction adds as [|a adds IH]; intros d n m M inv Hp.
  { left. exists d, n, m, M, []. cbn. rewrite app_nil_r. split; [done|]. split; [done|]. split; [done|].
    split; [constructor|]. split; [done|apply evolves_refl]. }
  cbn [apply_adds]. fold (add_leaf_node a).
  destruct (phase_added d n m M (add_leaf_node a) Hp) as (Hn & Hj & Ha). set (i := free_leaf_index d) in *.
  destruct Ha as [[Hi E]|(d1 & n1 & m1 & E & Hle & Hp1 & Hev1)]; rewrite E; cbn [map_err].
  { right. exists 0%nat, M, []. split; [done|]. split; [cbn; lia|]. split; [constructor|]. by rewrite <-Hi. }
  destruct (IH d1 n1 m1 _ (inv ++ [(i, a)]) Hp1)
    as [(d' & n' & m' & M' & new & E' & Hle' & Hp' & Had & Hlen & Hev)|(k & M' & new & E' & Hk & Had & Hfull)]; rewrite E'.
  - left. exists d', n', m', M', (i :: new). rewrite <-app_assoc. split; [done|]. split; [lia|]. split; [done|].
    split; [by constructor|]. split; [cbn; lia|]. apply (evolves_trans d d1 d' n1 n' [i] new); [|done..].
    apply (growing_bare _ _ _ (phase_growing _ _ _ _ Hp1)).
  - right. exists (S k), M', (i :: new). split; [done|]. split; [cbn; lia|]. split; [by constructor|done].
Qed.

Lemma evolves_shrunk d d' n n' : shrunk d d' n n' → evolves d d' n' [].
Proof.
  intros Hs. split; [|apply Hs|intros i k P' Hi; by apply elem_of_nil in Hi].
  intros p P' Hp E. rewrite (shrunk_parent_view d d' n n') in E by done. exists P'. naive_solver.
Qed.

(** ** The members after a commit's proposals *)

(** What a diff shows inside its tree, which holds all members and is no larger than they need *)
Record fitting (d : TreeSyncDiff) (n : N) (M : gmap N LeafNode) : Prop := {
  fitting_stands : stands d n;
  fitting_tidy : tidy d n;
  fitting_shows : shows d M;
  fitting_inside i : is_Some (M !! i) → i < 2 ^ n;
  fitting_tight : n = 0 ∨ ∃ i, is_Some (M !! i) ∧ 2 ^ (n - 1) <= i;
}.

Lemma trim_phase d n m M : phase d n m M →
  ∃ d' n', trim_tree d = Some d' ∧ fitting d' n' M ∧ evolves d d' n' [].
Proof.
  intros [Hg Ht Hs]. destruct (trim_tree_spec d n m Hg) as (d' & n' & E & Hd' & Hsh & Hin & Htight).
  assert (Hf : ∀ i, full_leaf d i ↔ is_Some (M !! i)) by (intros i; unfold full_leaf; by rewrite Hs).
  exists d', n'. split; [done|]. split; [|by eapply evolves_shrunk]. split; [done| |..].
  - eapply tidy_shrunk; try done. apply Hg.
  - intros i. destruct (N.lt_ge_cases i (2 ^ n')) as [Hi|Hi].
    + rewrite (shrunk_leaf_view d d' n n'), Hs; [done|done|apply Hg|done..].
    + rewrite (shrunk_leaf_end d d' n n' m) by done. destruct (M !! i) eqn:Ei; [|done].
      specialize (Hin i). rewrite Hf, Ei in Hin. specialize (Hin ltac:(done)). lia.
  - intros i Hi. by apply Hin, Hf.
  - destruct Htight as [|(i & Hi & Hle)]; [by left|right]. exists i. split; [by apply Hf|done].
Qed.

(** The values a successful commit returns *)
Definition values_of (q : ProposalQueue) (own : option N) (new : list N) : ApplyProposalsValues :=
  MkApplyProposalsValues
    (existsb (is_path_required ∘ proposal) (queued_proposals q) || queue_is_empty q)
    (existsb (λ i, bool_decide (own = Some i)) (removed_of q))
    (zip new (adds_of q))
    (omap (as_psk ∘ proposal) (queued_proposals q))
    (head (omap (λ p, match proposal p with ExternalInit kem_output => Some kem_output | _ => None end)
      (queued_proposals q)))
    (head (omap (as_extensions ∘ proposal) (queued_proposals q))).

Definition as_remove (p : QueuedProposal) : option N := match proposal p with Remove i => Some i | _ => None end.
Definition as_self_remove (p : QueuedProposal) : option N :=
  match proposal p with SelfRemove => as_member (proposal_sender p) | _ => None end.

Lemma elem_of_removed ps i : i ∈ omap as_self_remove ps ++ omap as_remove ps ↔ i ∈ omap as_removed ps.
Proof.
  rewrite elem_of_app, !list_elem_of_omap. unfold as_self_remove, as_remove, as_removed. split.
  - intros [(p & Hp & E)|(p & Hp & E)]; exists p; split; try done; by destruct (proposal p).
  - intros (p & Hp & E). destruct (proposal p) eqn:Ep; try done; [right|left]; exists p; rewrite Ep; done.
Qed.

Lemma without_ext M l k : (∀ i, i ∈ l ↔ i ∈ k) → without M l = without M k.
Proof. intros H. apply map_eq. intros i. rewrite !lookup_without. repeat case_decide; naive_solver. Qed.

Lemma existsb_ext (f : N → bool) l k : (∀ i, i ∈ l ↔ i ∈ k) → existsb f l = existsb f k.
Proof.
  intros H. apply eq_true_iff_eq. rewrite !existsb_exists. setoid_rewrite <-list_elem_of_In.
  split; intros (i & Hi & E); exists i; (split; [by apply H|done]).
Qed.

Lemma head_external q :
  match filtered_by_type q TypeExternalInit with
  | p :: _ => match proposal p with ExternalInit kem_output => Some kem_output | _ => None end
  | [] => None
  end = head (omap (λ p, match proposal p with ExternalInit kem_output => Some kem_output | _ => None end)
          (queued_proposals q)).
Proof.
  rewrite filtered_queued. induction (queued_proposals q) as [|p ps IH]; [done|].
  destruct (is_type (proposal p) TypeExternalInit) eqn:E.
  - rewrite filter_true by done. cbn. destruct (proposal p); done.
  - rewrite filter_false by done. cbn. destruct (proposal p); done.
Qed.

Lemma not_type p t : is_type p t = false → proposal_type p ≠ t.
Proof. unfold is_type. by rewrite bool_decide_eq_false. Qed.

(** The lists that the code takes from the queue by type *)
Lemma lists_by_type q :
  omap as_update (filtered_by_type q TypeUpdate) = updates_of q ∧
  omap as_remove (filtered_by_type q TypeRemove) = omap as_remove (queued_proposals q) ∧
  omap as_self_remove (filtered_by_type q TypeSelfRemove) = omap as_self_remove (queued_proposals q) ∧
  omap (as_add ∘ proposal) (filtered_by_type q TypeAdd) = adds_of q ∧
  omap (as_psk ∘ proposal) (filtered_by_type q TypePreSharedKey) = omap (as_psk ∘ proposal) (queued_proposals q) ∧
  omap (as_extensions ∘ proposal) (filtered_by_type q TypeGroupContextExtensions)
    = omap (as_extensions ∘ proposal) (queued_proposals q).
Proof.
  rewrite !filtered_queued. repeat split; apply omap_of_type; intros p Hp%not_type;
    unfold as_update, as_remove, as_self_remove, compose, as_add, as_psk, as_extensions;
    by destruct (proposal p).
Qed.

Lemma filtered_elem q t p : p ∈ filtered_by_type q t → p ∈ queued_proposals q.
Proof. rewrite filtered_queued. by intros [_ Hp]%list_elem_of_filter. Qed.

(** The tree and the new members do not depend on who applies the proposals. *)
Lemma apply_proposals_spec d n m M q :
  phase d n m M → Forall (proposed_by_members M) (queued_proposals q) →
  let M1 := without (updated M (updates_of q)) (removed_of q) in
  (∃ d' n' M' new, (∀ own, apply_proposals d q own = Some (Ok (values_of q own new, d'))) ∧
     adding M1 (add_leaf_node <$> adds_of q) M' new ∧ length new = length (adds_of q) ∧
     fitting d' n' M' ∧ evolves d d' n' new) ∨
  (∃ k M' new, (∀ own, apply_proposals d q own = Some (Err tree_full)) ∧ (k < length (adds_of q))%nat ∧
     adding M1 (take k (add_leaf_node <$> adds_of q)) M' new ∧ ∀ j, j < 2 ^ 29 → is_Some (M' !! j)).
Proof.
  intros Hp Hv M1. destruct (lists_by_type q) as (Eu & Er & Es & Ea & Ek & Ee). rewrite Forall_forall in Hv.
  unfold apply_proposals. rewrite head_external, Ea, Ek, Ee.
  destruct (updates_phase d n m M (filtered_by_type q TypeUpdate) Hp) as (d1 & -> & Hp1 & Hev1).
  { intros p Hin%filtered_elem l E. specialize (Hv p Hin). unfold proposed_by_members in Hv. rewrite E in Hv.
    destruct Hv as (i & Ei & Hi). exists i. split; [done|]. by apply (phase_bound d n m M). }
  destruct (removes_phase d1 n m _ (filtered_by_type q TypeRemove) Hp1) as (d2 & E2 & Hp2 & Hev2).
  { intros p Hin%filtered_elem i E. specialize (Hv p Hin). unfold proposed_by_members in Hv. rewrite E in Hv.
    by apply (phase_bound d n m M). }
  destruct (self_removes_phase d2 n m _ (filtered_by_type q TypeSelfRemove) Hp2) as (d3 & E3 & Hp3 & Hev3).
  { intros p Hin%filtered_elem E. specialize (Hv p Hin). unfold proposed_by_members in Hv. rewrite E in Hv.
    destruct Hv as (i & Ei & Hi). exists i. split; [done|]. by apply (phase_bound d n m M). }
  fold as_remove as_self_remove in *. rewrite Eu, Er, Es, without_app in Hp3. rewrite Er in E2. rewrite Es in E3.
  pose proof (phase_trans _ _ _ _ _ _ _ Hp2 (phase_trans _ _ _ _ _ _ _ Hp1 Hev1 Hev2) Hev3) as Hev.
  assert (Hm : ∀ i, i ∈ omap as_remove (queued_proposals q) ++ omap as_self_remove (queued_proposals q) ↔ i ∈ removed_of q).
  { intros i. unfold removed_of. rewrite <-elem_of_removed. set_solver. }
  rewrite (without_ext _ _ (removed_of q) Hm) in Hp3. fold M1 in Hp3.
  destruct (adds_phase d3 n m M1 [] (adds_of q) Hp3)
    as [(d4 & n4 & m4 & M' & new & E4 & Hle & Hp4 & Had & Hlen & Hev4)|(k & M' & new & E4 & Hk & Had & Hfull)].
  2: { right. exists k, M', new. split; [intros own; by rewrite E2, E3, E4|done]. }
  destruct (trim_phase d4 n4 m4 M' Hp4) as (d' & n' & E5 & Hfit & Hev5). left. exists d', n', M', new.
  split; [|split; [done|]; split; [done|]; split; [done|]].
  - intros own. rewrite E2, E3, E4, E5. unfold values_of. do 4 f_equal. rewrite orb_false_r, <-existsb_app. apply existsb_ext.
    intros i. rewrite <-(elem_of_removed (queued_proposals q)). done.
  - rewrite <-(app_nil_r new). apply (evolves_trans d d4 d' n4); [apply Hp4| |done].
    apply (evolves_trans d d3 d4 n n4 [] new); [apply Hp3|done..].
Qed.

(** A group's tree with its members *)
Record group_tree (t : MlsTree) (n : N) (M : gmap N LeafNode) : Prop := {
  group_well_formed : well_formed t;
  group_size : tree.tree_size t = full n;
  group_tidy : tidy (empty_diff t) n;
  group_members i : tree.leaf t i = M !! i;
}.

Lemma group_phase t n M : group_tree t n M → ∃ m, phase (empty_diff t) n m M.
Proof.
  intros [Hw Hs Ht Hm]. destruct (empty_growing t Hw) as (n' & m & Hg). exists m.
  assert (n' = n) as ->.
  { pose proof (stands_size _ _ (growing_stands _ _ _ Hg)) as E. cbn in E. rewrite Hs in E.
    apply node_inj in E. lia. }
  split; [done..|]. intros i. rewrite <-Hm. unfold diff.leaf. cbn. rewrite lookup_empty.
  case_match eqn:E; [|done]. symmetry. apply tree_leaf_beyond; [done|].
  apply N.leb_le in E. rewrite (stands_leaf_count _ _ (growing_stands _ _ _ Hg)) in E.
  pose proof (reach_tree _ _ (growing_reach _ _ _ Hg)) as Hr. cbn in Hr. pose proof (growing_room _ _ _ Hg). lia.
Qed.

Lemma fitting_merged d n M : fitting d n M → group_tree (merge_diff (diff.original_tree d) (diff.stage d)) n M.
Proof.
  intros [Hd Ht Hs Hi _]. destruct (merge_well_formed d n Hd) as [Hw Hsize]. split; [done|done| |].
  - apply tidy_merged; [done| |done]. intros i Hf. apply Hi. by rewrite <-Hs.
  - intros i. rewrite (proj1 (merge_reads d n Hd)), (stands_leaf_count _ _ Hd).
    destruct (N.ltb_spec i (2 ^ n)) as [Hlt|Hge]; [by apply Hs|]. destruct (M !! i) eqn:E; [|done].
    specialize (Hi i ltac:(by rewrite E)). lia.
Qed.

(** C38: a commit's proposals, proposed by members, change the members of a group as they say, or
    fail because the tree is full.  Updated leaves are replaced, removed ones are gone, new
    members take the leftmost free places in turn, and the values tell which; the tree of the
    merged group holds exactly these members, is no larger than they need, and its parents that
    are not blank have members on both sides.  Adding fails only where all [2 ^ 29] leaves of the
    largest tree are taken. *)
Theorem members_after_proposals t n M q own :
  group_tree t n M → Forall (proposed_by_members M) (queued_proposals q) →
  let M1 := without (updated M (updates_of q)) (removed_of q) in
  (∃ d' n' M' new, apply_proposals (empty_diff t) q own = Some (Ok (values_of q own new, d')) ∧
     adding M1 (add_leaf_node <$> adds_of q) M' new ∧
     group_tree (merge_diff t (diff.stage d')) n' M' ∧
     (∀ i, is_Some (M' !! i) → i < 2 ^ n') ∧ (n' = 0 ∨ ∃ i, is_Some (M' !! i) ∧ 2 ^ (n' - 1) <= i)) ∨
  (∃ k M' new, apply_proposals (empty_diff t) q own = Some (Err tree_full) ∧ (k < length (adds_of q))%nat ∧
     adding M1 (take k (add_leaf_node <$> adds_of q)) M' new ∧ ∀ j, j < 2 ^ 29 → is_Some (M' !! j)).
Proof.
  intros Ht Hv. destruct (group_phase t n M Ht) as [m Hp].
  destruct (apply_proposals_spec _ n m M q Hp Hv)
    as [(d' & n' & M' & new & E & Had & _ & Hf & Hev)|(k & M' & new & E & Hfull)]; [left|right; by exists k, M', new].
  exists d', n', M', new. split; [done|]. split; [done|]. split; [|split; [apply Hf|apply Hf]].
  pose proof (fitting_merged d' n' M' Hf) as Hg. by rewrite (evolves_tree _ _ _ _ Hev) in Hg.
Qed.

(** ** A group of three: member 1 updates, member 0 is removed, two join *)

Definition toy_leaf (k : Byte.byte) : LeafNode :=
  MkLeafNode (MkLeafNodePayload [k] [] (MkCredential 1 []) (MkCapabilities [] [] [] [] []) UpdateSource []) [].

Definition toy_package (k : Byte.byte) : KeyPackage :=
  MkKeyPackage (MkKeyPackageTbs 1 MLS_128_DHKEMX25519_AES128GCM_SHA256_Ed25519 [k] (toy_leaf k) []) [].

Definition toy_group : MlsTree :=
  tree.MkABinaryTree [Some (toy_leaf Byte.x01); Some (toy_leaf Byte.x02); Some (toy_leaf Byte.x03)] [None; None] None None.

Definition toy_members : gmap N LeafNode :=
  list_to_map [(0, toy_leaf Byte.x01); (1, toy_leaf Byte.x02); (2, toy_leaf Byte.x03)].

Definition toy_proposals (ps : list (Proposal * Sender)) : ProposalQueue :=
  foldl (λ q '(i, (p, s)), queue_add q (MkQueuedProposal p [octet (N.of_nat i)] s ByReference))
    (MkProposalQueue [] ∅) (imap pair ps).

Definition toy_queue : ProposalQueue :=
  toy_proposals [(Add (toy_package Byte.x04), Member 2); (Remove 0, Member 2); (Update (toy_leaf Byte.x05), Member 1);
    (Add (toy_package Byte.x06), Member 2)].

Lemma blank_tidy (t : MlsTree) n : (∀ p, diff.parent (empty_diff t) p = None) → tidy (empty_diff t) n.
Proof. intros H i k p _ _ E. by rewrite H in E. Qed.

Lemma toy_group_tree : group_tree toy_group 2 toy_members.
Proof.
  split; [split; vm_compute; done|done| |].
  - apply blank_tidy. intros p. unfold diff.parent. cbn. rewrite lookup_empty. unfold tree.parent_by_index.
    destruct (N.to_nat p) as [|[|[|k]]]; done.
  - intros i. unfold tree.leaf. cbn. destruct (decide (i < 3)) as [Hi|Hi].
    + assert (i = 0 ∨ i = 1 ∨ i = 2) as [->|[->| ->]] by lia; done.
    + rewrite !lookup_insert_ne, lookup_empty, lookup_ge_None_2 by (cbn; lia). done.
Qed.

Lemma members_after_proposals_witness :
  Forall (proposed_by_members toy_members) (queued_proposals toy_queue) ∧
  ∃ d' n' M' new, apply_proposals (empty_diff toy_group) toy_queue (Some 0) = Some (Ok (values_of toy_queue (Some 0) new, d')) ∧
    new = [0; 3] ∧ self_removed (values_of toy_queue (Some 0) new) = true ∧ M' !! 0 = Some (toy_leaf Byte.x04) ∧
    group_tree (merge_diff toy_group (diff.stage d')) n' M'.
Proof.
  assert (Hv : Forall (proposed_by_members toy_members) (queued_proposals toy_queue)).
  { vm_compute. repeat constructor; eexists; try done; split; [done|]; by eexists. }
  split; [done|].
  destruct (members_after_proposals toy_group 2 toy_members toy_queue (Some 0) toy_group_tree Hv)
    as [(d' & n' & M' & new & E & Had & Hg & _ & _)|(k & M' & new & E & _)].
  - exists d', n', M', new. split; [done|].
    assert (Hn : new = [0; 3]).
    { destruct new as [|a [|b [|? ?]]]; [by inversion Had|by inversion Had as [|? ? ? ? ? ? _ _ H]; inversion H| |].
      - vm_compute in E. by injection E as <- <-.
      - inversion Had as [|? ? ? ? ? ? _ _ H]. inversion H as [|? ? ? ? ? ? _ _ H']. by inversion H'. }
    split; [done|]. split; [by subst|]. split; [|done]. subst new. rewrite <-(group_members _ _ _ Hg).
    vm_compute in E. injection E as <-. done.
  - exfalso. vm_compute in E. discriminate E.
Defined.

(** ** Adding after trimming

    An external commit adds its leaf after [apply_proposals] has trimmed the tree
    ([apply_received_update_path], [apply_own_update_path]).  Trimming drops the entries of the
    removed half from the diff, and growing the tree again shows what is in the tree behind it. *)
Lemma regrown_leaf (d : TreeSyncDiff) n : stands d (n + 1) → n < 29 →
  ∃ d1 d2, diff.shrink_tree d = Ok d1 ∧ diff.grow_tree d1 = Ok d2 ∧
    ∀ i, 2 ^ n <= i < 2 ^ (n + 1) → diff.leaf d2 i = tree.leaf_by_index (diff.original_tree d) i.
Proof.
  intros Hd Hn. destruct (shrink_shrunk d n Hd) as (d1 & E1 & Hd1 & Hs).
  destruct (stands_grow d1 n Hd1 Hn) as (d2 & E2 & -> & Hd2). exists d1, (diff.with_size d1 (full (n + 1))).
  split; [done|]. split; [done|]. intros i Hi. unfold diff.leaf. rewrite (stands_leaf_count _ _ Hd2). cbn.
  rewrite (shrunk_end _ _ _ _ Hs), (proj2 (N.leb_gt _ _)), (shrunk_tree _ _ _ _ Hs) by lia. done.
Qed.

(** The self-removes of members 2 and 3, which an external commit may cover *)
Definition two_leave : ProposalQueue :=
  toy_proposals [(ExternalInit [], NewMemberCommit); (SelfRemove, Member 2); (SelfRemove, Member 3)].

(** C39: in a group of four in which members 2 and 3 have left by self-removes, an external commit
    that covers both takes leaf 2, and leaf 3, which was blank after the proposals were applied,
    holds the member that has left again, whatever the nodes of the tree. *)
Theorem removed_member_returns (a b c e x : LeafNode) (p0 p1 p2 : TreeSyncParentNode) :
  let t := tree.MkABinaryTree [Some a; Some b; Some c; Some e] [p0; p1; p2] None None in
  ∃ d1 d2, apply_proposals (empty_diff t) two_leave None = Some (Ok (values_of two_leave None [], d1)) ∧
    (∀ i, 2 <= i → diff.leaf d1 i = None) ∧
    add_leaf d1 x = Some (Ok (2, d2)) ∧ diff.leaf d2 2 = Some x ∧ diff.leaf d2 3 = Some e.
Proof.
  intros t. eexists _, _. split; [vm_compute; reflexivity|]. split; [|vm_compute; repeat split; reflexivity].
  intros i Hi. unfold diff.leaf. cbn [diff.leaf_diff diff.original_tree diff.default_leaf].
  change (_ !! i) with (@None TreeSyncLeafNode). cbv iota.
  rewrite (proj2 (N.leb_le _ _)); [done|]. exact Hi.
Qed.
