(* ===== verification/MlsTreeKem.v ===== *)
(** * TreeKEM: the path of a commit

    [messages/mod.rs] ([PathSecret]), [ciphersuite/hpke.rs], [node/parent_node.rs]
    ([derive_path], [encrypt]), [treesync/treekem.rs], and of [treesync/diff.rs] and
    [treesync/mod.rs] what derives, applies and decrypts paths.

    The randomness of a path secret and of a leaf's key is what [random_vec] answered; [coins]
    gives that of each encapsulation, by the node and the recipient. *)

From S2P Require Import Prelude MlsTree MlsBinaryTree MlsCrypto MlsTreeSync MlsTreeViews MlsMessages MlsProposals.
From stdpp Require Import options.

Local Open Scope N_scope.

Definition PathSecret : Type := Secret.
Definition CommitSecret : Type := Secret.

Record PlainUpdatePathNode := MkPlainUpdatePathNode {
  plain_public_key : EncryptionKey;
  path_secret : PathSecret;
}.

Record UpdatePathNode := MkUpdatePathNode {
  update_public_key : EncryptionKey;
  encrypted_path_secrets : list HpkeCiphertext;
}.

Record UpdatePath := MkUpdatePath { update_leaf_node : LeafNode; update_nodes : list UpdatePathNode }.

(** [CommitType] *)
Inductive CommitType :=
| ExternalCommit (c : CredentialWithKey)
| MemberCommit.

Record UpdateLeafNodeParams := MkUpdateLeafNodeParams {
  params_credential_with_key : CredentialWithKey;
  params_capabilities : Capabilities;
  params_extensions : list Extension;
}.

(** What [CommitType::External] puts in the tree for the time being.  [Capabilities::default] is
    an argument: it lists what this build of the library supports. *)
Definition new_placeholder (default_capabilities : Capabilities) : LeafNode :=
  MkLeafNode (MkLeafNodePayload [] [] (MkCredential 1 []) default_capabilities UpdateSource []) [].

(** Fallible functions over a list *)
Fixpoint try_map {E A B} (f : A → result E B) (l : list A) : result E (list B) :=
  match l with
  | [] => Ok []
  | x :: l => let? y <- f x in let? l <- try_map f l in Ok (y :: l)
  end.

Section treekem.
Context {kdf : OpenMlsCrypto} {crypto : TreeCrypto}.
Implicit Types c : Ciphersuite.

(** ** Secrets and keys *)

Definition derive_hpke_keypair c (ikm : bytes) : result LibraryError EncryptionKeyPair :=
  match crypto_derive_hpke_keypair c ikm with
  | Some (public, private) => Ok (MkEncryptionKeyPair public private)
  | None => Err UnexpectedCryptoError
  end.

(** [PathSecret::derive_key_pair] and [PathSecret::derive_path_secret] *)
Definition derive_key_pair c (s : PathSecret) : result LibraryError EncryptionKeyPair :=
  let? node_secret <- map_err (λ _, UnexpectedCryptoError) (kdf_expand_label s c "node" [] (hash_length c)) in
  derive_hpke_keypair c (secret_value node_secret).

Definition derive_path_secret c (s : PathSecret) : result LibraryError PathSecret :=
  map_err (λ _, UnexpectedCryptoError) (kdf_expand_label s c "path" [] (hash_length c)).

(** [Secret::random] *)
Definition secret_random (random : option bytes) : result LibraryError Secret :=
  match random with Some b => Ok (MkSecret b) | None => Err UnexpectedCryptoError end.

(** [EncryptionKeyPair::random] *)
Definition random_keypair c (random : option bytes) : result LibraryError EncryptionKeyPair :=
  let? ikm <- secret_random random in
  derive_hpke_keypair c (secret_value ikm).

(** ** Labelled encryption *)

Inductive HpkeError := HpkeMissingBoundCheck | HpkeDecryptionFailed.

Definition encrypt_context (label : string) (context : bytes) : option bytes :=
  tls_encrypt_context (String.list_byte_of_string ("MLS 1.0 " +:+ label)) context.

Definition encrypt_with_label c (coins public_key : bytes) (label : string) (context plaintext : bytes) :
    result HpkeError HpkeCiphertext :=
  let? context <- ok_or (encrypt_context label context) HpkeMissingBoundCheck in
  ok_or (crypto_hpke_seal c coins public_key context plaintext) HpkeDecryptionFailed.

Definition decrypt_with_label c (private_key : bytes) (label : string) (context : bytes) (ciphertext : HpkeCiphertext) :
    result HpkeError bytes :=
  let? context <- ok_or (encrypt_context label context) HpkeMissingBoundCheck in
  ok_or (crypto_hpke_open c ciphertext private_key context) HpkeDecryptionFailed.

(** [EncryptionKey::encrypt] under [PathSecret::encrypt], and [EncryptionPrivateKey::decrypt] under
    [PathSecret::decrypt] *)
Definition encrypt_path_secret c (coins : bytes) (s : PathSecret) (public_key : EncryptionKey) (group_context : bytes) :
    result LibraryError HpkeCiphertext :=
  map_err (λ _, CustomError "Encryption failed. A serialization issue really")
    (encrypt_with_label c coins public_key "UpdatePathNode" group_context (secret_value s)).

Definition decrypt_path_secret c (ciphertext : HpkeCiphertext) (private_key group_context : bytes) :
    result HpkeError PathSecret :=
  let? secret <- decrypt_with_label c private_key "UpdatePathNode" group_context ciphertext in
  Ok (MkSecret secret).

(** ** [ParentNode::derive_path] *)

(** The loop over the path secrets: those of the nodes, and the one after them *)
Fixpoint path_secrets c (s : PathSecret) (len : nat) : result LibraryError (list PathSecret * PathSecret) :=
  match len with
  | O => Ok ([], s)
  | S len =>
      let? next_path_secret <- derive_path_secret c s in
      let? (path_secrets, last) <- path_secrets c next_path_secret len in
      Ok (s :: path_secrets, last)
  end.

Definition derive_node c (e : PathSecret * treemath.ParentNodeIndex) :
    result LibraryError (((treemath.ParentNodeIndex * ParentNode) * EncryptionKeyPair) * PlainUpdatePathNode) :=
  let '(path_secret, index) := e in
  let? keypair <- derive_key_pair c path_secret in
  Ok (((index, parent_from_key (public_key keypair)), keypair), MkPlainUpdatePathNode (public_key keypair) path_secret).

Definition derive_path c (path_secret : PathSecret) (path_indices : list treemath.ParentNodeIndex) :
    result LibraryError (Path * list PlainUpdatePathNode * list EncryptionKeyPair * CommitSecret) :=
  let? (secrets, next_path_secret) <- path_secrets c path_secret (length path_indices) in
  let? nodes <- try_map (derive_node c) (zip secrets path_indices) in
  Ok (nodes.*1.*1, nodes.*2, nodes.*1.*2, next_path_secret).

(** [TreeSyncDiff::derive_path] *)
Definition derive_own_path c (d : TreeSyncDiff) (random : option bytes) (leaf_index : treemath.LeafNodeIndex) :
    option (result LibraryError (Path * list PlainUpdatePathNode * list EncryptionKeyPair * CommitSecret)) :=
  let!? path_secret <- Some (secret_random random) in
  let! path_indices <- filtered_direct_path d leaf_index in
  Some (derive_path c path_secret path_indices).

(** ** The committer *)

(** [LeafNode::new_with_parent_hash] *)
Definition new_with_parent_hash c (random : option bytes) (parent_hash : bytes) (params : UpdateLeafNodeParams)
    (group_id : bytes) (leaf_index : treemath.LeafNodeIndex) : result LibraryError (LeafNode * EncryptionKeyPair) :=
  let? encryption_key_pair <- random_keypair c random in
  let payload := MkLeafNodePayload (public_key encryption_key_pair)
    (with_signature_key (params_credential_with_key params)) (with_credential (params_credential_with_key params))
    (params_capabilities params) (CommitSource parent_hash) (params_extensions params) in
  let tbs := MkLeafNodeTbs payload (CommitTbs (MkTreePosition group_id leaf_index)) in
  let? signature <- ok_or (sign_leaf_node tbs) (CustomError "Signing failed") in
  Ok (MkLeafNode payload signature, encryption_key_pair).

Definition own_path_error (e : ApplyUpdatePathError) : TreeSyncAddLeaf :=
  match e with
  | PathLibraryError e => AddLeafLibraryError e
  | _ => AddLeafLibraryError (CustomError "Unexpected error in process_update_path")
  end.

Record OwnPath := MkOwnPath {
  own_plain_path : list PlainUpdatePathNode;
  own_keypairs : list EncryptionKeyPair;
  own_commit_secret : CommitSecret;
}.

Definition apply_own_update_path c (d : TreeSyncDiff) (random leaf_random : option bytes) (default_capabilities : Capabilities)
    (commit_type : CommitType) (group_id : bytes) (leaf_index : treemath.LeafNodeIndex) (params : UpdateLeafNodeParams) :
    option (result TreeSyncAddLeaf (OwnPath * TreeSyncDiff)) :=
  let!? d <-
    match commit_type with
    | ExternalCommit _ => let!? (_, d) <- add_leaf d (new_placeholder default_capabilities) in Some (Ok d)
    | MemberCommit => Some (Ok d)
    end in
  let! derived <- derive_own_path c d random leaf_index in
  let!? (path, update_path_nodes, parent_keypairs, commit_secret) <- Some (map_err AddLeafLibraryError derived) in
  let! processed <- process_update_path c d leaf_index path in
  let!? (parent_hash, d) <- Some (map_err own_path_error processed) in
  let!? (leaf_node, node_keypair) <-
    Some (map_err AddLeafLibraryError (new_with_parent_hash c leaf_random parent_hash params group_id leaf_index)) in
  let d := diff.replace_leaf d leaf_index (Some leaf_node) in
  Some (Ok (MkOwnPath update_path_nodes (node_keypair :: parent_keypairs) commit_secret, d)).

(** [PlainUpdatePathNode::encrypt] *)
Definition encrypt_node c (coins : nat → bytes) (group_context : bytes) (n : PlainUpdatePathNode)
    (public_keys : list EncryptionKey) : result LibraryError UpdatePathNode :=
  let? ciphertexts <- try_map (λ e, encrypt_path_secret c (coins e.1) (path_secret n) e.2 group_context) (imap pair public_keys) in
  Ok (MkUpdatePathNode (plain_public_key n) ciphertexts).

Definition resolution_keys (r : Resolution) : list EncryptionKey := (λ e, reference_key e.2) <$> r.

Definition encrypt_path c (d : TreeSyncDiff) (coins : nat → nat → bytes) (path : list PlainUpdatePathNode) (group_context : bytes)
    (exclusion_list : gset treemath.LeafNodeIndex) (own_leaf_index : treemath.LeafNodeIndex) :
    option (result LibraryError (list UpdatePathNode)) :=
  let! copath_resolutions <- filtered_copath_resolutions d own_leaf_index exclusion_list in
  Some (try_map (λ e, encrypt_node c (coins e.1) group_context e.2.1 e.2.2)
    (imap pair (zip path (resolution_keys <$> copath_resolutions)))).

(** ** The other members *)

Definition add_leaf_error (e : TreeSyncAddLeaf) : ApplyUpdatePathError :=
  match e with AddLeafLibraryError e => PathLibraryError e | AddLeafTreeFull => PathTreeFull end.

Definition apply_received_update_path c (d : TreeSyncDiff) (sender_leaf_index : treemath.LeafNodeIndex) (update_path : UpdatePath) :
    option (result ApplyUpdatePathError TreeSyncDiff) :=
  let!? d <-
    if negb (bool_decide (is_Some (diff.leaf d sender_leaf_index))) || (diff.leaf_count d <=? sender_leaf_index) then
      let! r <- add_leaf d (update_leaf_node update_path) in
      let!? (new_leaf_index, d) <- Some (map_err add_leaf_error r) in
      if negb (sender_leaf_index =? new_leaf_index) then Some (Err InconsistentSenderIndex) else Some (Ok d)
    else Some (Ok d) in
  let! filtered_direct_path <- filtered_direct_path d sender_leaf_index in
  if negb (length filtered_direct_path =? length (update_nodes update_path))%nat then Some (Err PathLengthMismatch)
  else
    let path := zip filtered_direct_path ((λ n, parent_from_key (update_public_key n)) <$> update_nodes update_path) in
    let!? (parent_hash, d) <- process_update_path c d sender_leaf_index path in
    match leaf_parent_hash (update_leaf_node update_path) with
    | None => Some (Err MissingParentHash)
    | Some leaf_node_parent_hash =>
        if bool_decide (leaf_node_parent_hash = parent_hash)
        then Some (Ok (diff.replace_leaf d sender_leaf_index (Some (update_leaf_node update_path))))
        else Some (Err ParentHashMismatch)
    end.

Definition owned (keys : list EncryptionKeyPair) (pk : EncryptionKey) : option EncryptionKeyPair :=
  head (filter (λ kp, public_key kp = pk) keys).

(** [find_map] over the resolution *)
Fixpoint first_owned (keys : list EncryptionKeyPair) (pks : list EncryptionKey) : option (EncryptionKeyPair * nat) :=
  match pks with
  | [] => None
  | pk :: pks =>
      match owned keys pk with
      | Some kp => Some (kp, 0%nat)
      | None => let! (kp, position) <- first_owned keys pks in Some (kp, S position)
      end
  end.

Inductive DecryptionKeyError := NoPrivateKeyFound.

Definition decryption_key (d : TreeSyncDiff) (sender_leaf_index : treemath.LeafNodeIndex) (excluded_indices : gset treemath.LeafNodeIndex)
    (owned_keys : list EncryptionKeyPair) (leaf_index : treemath.LeafNodeIndex) :
    option (result DecryptionKeyError (EncryptionKeyPair * nat)) :=
  let! r <- resolution d (diff.subtree_root_copath_node d sender_leaf_index leaf_index) excluded_indices in
  Some (ok_or (first_owned owned_keys (resolution_keys r)) NoPrivateKeyFound).

Definition decrypt_path c (d : TreeSyncDiff) (update_path : list UpdatePathNode) (sender_leaf_index : treemath.LeafNodeIndex)
    (exclusion_list : gset treemath.LeafNodeIndex) (group_context : bytes) (owned_keys : list EncryptionKeyPair)
    (own_leaf_index : treemath.LeafNodeIndex) :
    option (result ApplyUpdatePathError (list EncryptionKeyPair * CommitSecret)) :=
  let! r <- subtree_root_position d sender_leaf_index own_leaf_index in
  let!? path_position <- Some (map_err (λ _, MissingOwnLeaf) r) in
  let!? update_path_node <- Some (ok_or (update_path !! path_position) PathLengthMismatch) in
  let! r <- decryption_key d sender_leaf_index exclusion_list owned_keys own_leaf_index in
  let!? (keypair, resolution_position) <- Some (map_err (λ _, MissingSender) r) in
  let!? ciphertext <- Some (ok_or (encrypted_path_secrets update_path_node !! resolution_position) MissingCiphertext) in
  let!? path_secret <-
    Some (map_err (λ _, MlsTreeSync.UnableToDecrypt) (decrypt_path_secret c ciphertext (private_key keypair) group_context)) in
  let! common_path <- filtered_common_direct_path d own_leaf_index sender_leaf_index in
  let!? (derived_path, _, keypairs, commit_secret) <- Some (map_err PathLibraryError (derive_path c path_secret common_path)) in
  if forallb (λ e, bool_decide (update_public_key e.1 = parent_encryption_key e.2.2))
       (zip (drop path_position update_path) derived_path)
  then Some (Ok (keypairs, commit_secret))
  else Some (Err PathMismatch).

(** ** New members *)

(** [TreeSync::derive_path_secrets]: the loop over the shared path *)
Fixpoint derive_shared c (t : MlsTree) (leaf_index : treemath.LeafNodeIndex) (path_secret : PathSecret)
    (keypairs : list EncryptionKeyPair) (path : list treemath.ParentNodeIndex) :
    result DerivePathError (list EncryptionKeyPair * CommitSecret) :=
  match path with
  | [] => Ok (keypairs, path_secret)
  | parent_index :: path =>
      match tree.parent_by_index t parent_index with
      | Some parent_node =>
          if decide (leaf_index ∈ unmerged_leaves parent_node)
          then derive_shared c t leaf_index path_secret keypairs path
          else
            let? keypair <- map_err DeriveLibraryError (derive_key_pair c path_secret) in
            if negb (bool_decide (parent_encryption_key parent_node = public_key keypair)) then Err PublicKeyMismatch
            else
              let? path_secret <- map_err DeriveLibraryError (derive_path_secret c path_secret) in
              derive_shared c t leaf_index path_secret (keypairs ++ [keypair]) path
      | None => derive_shared c t leaf_index path_secret keypairs path
      end
  end.

Definition derive_path_secrets c (t : TreeSync) (path_secret : PathSecret) (sender_index leaf_index : treemath.LeafNodeIndex) :
    option (result DerivePathError (list EncryptionKeyPair * CommitSecret)) :=
  let! subtree_path <- tree.subtree_path (sync_tree t) leaf_index sender_index in
  Some (derive_shared c (sync_tree t) leaf_index path_secret [] subtree_path).
End treekem.

(** ** Loops over lists *)

Section lists.
Context {E A B : Type} (f : A → result E B).

Lemma try_map_length l l' : try_map f l = Ok l' → length l' = length l.
Proof.
  revert l'. induction l as [|x l IH]; intros l'; cbn; [by intros [= <-]|].
  destruct (f x); [|done]. destruct (try_map f l) as [ys|]; [|done]. intros [= <-]. cbn. by rewrite (IH ys).
Qed.

Lemma try_map_drop l l' j : try_map f l = Ok l' → try_map f (drop j l) = Ok (drop j l').
Proof.
  revert l' j. induction l as [|x l IH]; intros l' j; cbn; [intros [= <-]; by rewrite !drop_nil|].
  destruct (f x) as [y|] eqn:Ef; [|done]. destruct (try_map f l) as [ys|] eqn:El; [|done]. intros [= <-].
  destruct j as [|j]; cbn; [by rewrite Ef, El|by apply IH].
Qed.

Lemma try_map_lookup l l' i x : try_map f l = Ok l' → l !! i = Some x → ∃ y, f x = Ok y ∧ l' !! i = Some y.
Proof.
  intros Hl Hx. pose proof (try_map_drop l l' i Hl) as Hd. rewrite (drop_S _ _ _ Hx) in Hd. cbn in Hd.
  destruct (f x) as [y|]; [|done]. exists y. split; [done|]. destruct (try_map f (drop (S i) l)); [|done].
  injection Hd as Hd. rewrite <-(Nat.add_0_r i), <-lookup_drop, <-Hd. done.
Qed.

Lemma try_map_ok l : (∀ x, x ∈ l → ∃ y, f x = Ok y) → ∃ l', try_map f l = Ok l'.
Proof.
  induction l as [|x l IH]; intros Hf; [by eexists|]. cbn. destruct (Hf x) as [y ->]; [left|].
  destruct IH as [l' ->]; [intros; apply Hf; by right|]. by eexists.
Qed.
End lists.

Lemma drop_zip {A B} j (l : list A) (k : list B) : drop j (zip l k) = zip (drop j l) (drop j k).
Proof.
  revert l k. induction j as [|j IH]; intros [|x l] [|y k]; try done; cbn; [by rewrite zip_with_nil_r|apply IH].
Qed.

(** ** The laws of the provider

    HPKE opens with the private key of a pair what was sealed to its public key (RFC 9180). *)
Class TreeLaws {crypto : TreeCrypto} := {
  hpke_open_seal c ikm public private coins info plaintext ciphertext :
    crypto_derive_hpke_keypair c ikm = Some (public, private) →
    crypto_hpke_seal c coins public info plaintext = Some ciphertext →
    crypto_hpke_open c ciphertext private info = Some plaintext;
}.

Section path_secrets.
Context {kdf : OpenMlsCrypto} {crypto : TreeCrypto}.
Implicit Types c : Ciphersuite.

(** A key pair that the provider has derived *)
Definition valid c (kp : EncryptionKeyPair) : Prop :=
  ∃ ikm, crypto_derive_hpke_keypair c ikm = Some (public_key kp, private_key kp).

Lemma derive_hpke_valid c ikm kp : derive_hpke_keypair c ikm = Ok kp → valid c kp.
Proof. unfold derive_hpke_keypair. destruct (crypto_derive_hpke_keypair c ikm) as [[]|] eqn:E; [|done]. intros [= <-]. by eexists. Qed.

Lemma derive_key_pair_valid c s kp : derive_key_pair c s = Ok kp → valid c kp.
Proof. unfold derive_key_pair. destruct (map_err _ _); [|done]. apply derive_hpke_valid. Qed.

Lemma path_secrets_drop c s len l last j : path_secrets c s len = Ok (l, last) →
  length l = len ∧ ((j <= len)%nat → path_secrets c (default last (l !! j)) (len - j) = Ok (drop j l, last)).
Proof.
  revert s l j. induction len as [|len IH]; intros s l j; cbn [path_secrets].
  { intros [= <- <-]. split; [done|]. by destruct j. }
  destruct (derive_path_secret c s) as [s'|] eqn:Es; [|done].
  destruct (path_secrets c s' len) as [[l' last']|] eqn:El; [|done]. intros [= <- <-].
  split; [cbn; f_equal; apply (IH s' l' 0%nat El)|]. intros Hj. destruct j as [|j]; cbn.
  - rewrite Es, El. done.
  - apply (IH s' l' j El). lia.
Qed.

(** What [derive_path] returns *)
Record derivation c (s : PathSecret) (idx : list N) (path : Path) (nodes : list PlainUpdatePathNode)
    (keypairs : list EncryptionKeyPair) (last : CommitSecret) : Prop := {
  derived_indices : path.*1 = idx;
  derived_parents : path.*2 = (λ kp, parent_from_key (public_key kp)) <$> keypairs;
  derived_public : plain_public_key <$> nodes = public_key <$> keypairs;
  derived_length : length keypairs = length idx;
  derived_valid : Forall (valid c) keypairs;
}.

Lemma derive_node_spec c l r : try_map (derive_node c) l = Ok r →
  r.*1.*1.*1 = l.*2 ∧ r.*1.*1.*2 = (λ kp, parent_from_key (public_key kp)) <$> r.*1.*2 ∧
  plain_public_key <$> r.*2 = public_key <$> r.*1.*2 ∧ path_secret <$> r.*2 = l.*1 ∧ Forall (valid c) r.*1.*2.
Proof.
  revert r. induction l as [|[s i] l IH]; intros r; [intros [= <-]; repeat split; constructor|].
  cbn [try_map derive_node]. destruct (derive_key_pair c s) as [kp|] eqn:Ek; [|done].
  destruct (try_map (derive_node c) l) as [r'|]; [|done]. intros [= <-]. cbn [fst snd].
  destruct (IH r' eq_refl) as (H1 & H2 & H3 & H4 & H5). rewrite !fmap_cons. cbn [fst snd].
  rewrite H1, H2, H3, H4. repeat split; try done. constructor; [by eapply derive_key_pair_valid|done].
Qed.

Lemma derive_path_spec c s idx path nodes keypairs last :
  derive_path c s idx = Ok (path, nodes, keypairs, last) → derivation c s idx path nodes keypairs last.
Proof.
  unfold derive_path. destruct (path_secrets c s (length idx)) as [[l last']|] eqn:El; [|done].
  destruct (path_secrets_drop c s _ l last' 0 El) as [Hlen _].
  destruct (try_map (derive_node c) (zip l idx)) as [r|] eqn:Er; [|done]. intros [= <- <- <- <-].
  destruct (derive_node_spec c _ _ Er) as (H1 & H2 & H3 & _ & H5). rewrite snd_zip in H1 by lia.
  split; [done..| |done]. rewrite <-H1, !length_fmap. done.
Qed.

(** Any node's secret derives the rest of the path. *)
Lemma derive_path_drop c s idx path nodes keypairs last j node :
  derive_path c s idx = Ok (path, nodes, keypairs, last) → nodes !! j = Some node →
  derive_path c (path_secret node) (drop j idx) = Ok (drop j path, drop j nodes, drop j keypairs, last).
Proof.
  unfold derive_path. destruct (path_secrets c s (length idx)) as [[l last']|] eqn:El; [|done].
  destruct (path_secrets_drop c s _ l last' j El) as [Hlen Hj].
  destruct (try_map (derive_node c) (zip l idx)) as [r|] eqn:Er; [|done]. intros [= <- <- <- <-] Hn.
  destruct (derive_node_spec c _ _ Er) as (_ & _ & _ & H4 & _). rewrite fst_zip in H4 by lia.
  assert (Hs : l !! j = Some (path_secret node)) by (by rewrite <-H4, list_lookup_fmap, Hn).
  pose proof (lookup_lt_Some _ _ _ Hs). rewrite Hs in Hj. cbn in Hj. rewrite length_drop, Hj by lia.
  rewrite <-drop_zip, (try_map_drop _ _ _ j Er), !fmap_drop. done.
Qed.
End path_secrets.

(** ** The tree behind a path *)

Section processing.
Context {crypto : TreeCrypto}.
Implicit Types (c : Ciphersuite) (d : TreeSyncDiff).

(** Only parent hashes are set. *)
Definition hashed (path path' : Path) : Prop :=
  path'.*1 = path.*1 ∧ parent_encryption_key <$> path'.*2 = parent_encryption_key <$> path.*2 ∧
  unmerged_leaves <$> path'.*2 = unmerged_leaves <$> path.*2.

Lemma hash_down_hashed c d nodes h path last :
  hash_down c d nodes h = Some (Ok (path, last)) → hashed nodes.*1 path.
Proof.
  unfold hashed. revert h path. induction nodes as [|[[i p] t] nodes IH]; intros h path; cbn [hash_down]; [by intros [= <- <-]|].
  destruct (compute_tree_hash c d t ∅) as [[sibling|]|]; [|done..].
  destruct (compute_parent_hash c (set_parent_hash p h) sibling) as [h'|]; [|done].
  destruct (hash_down c d nodes h') as [[[path' last']|]|] eqn:E; [|done..]. intros [= <- <-].
  destruct (IH h' path' E) as (H1 & H2 & H3). rewrite !fmap_cons. cbn [fst snd].
  by rewrite H1, H2, H3.
Qed.

Lemma set_parent_hashes_hashed c d path i path' h :
  set_parent_hashes c d path i = Some (Ok (path', h)) → hashed path path'.
Proof.
  unfold set_parent_hashes. destruct path as [|e path]; [by intros [= <- <-]|]. set (l := e :: path).
  destruct (filtered_copath d i) as [copath|]; [|done].
  destruct (Nat.eqb_spec (length copath) (length l)) as [El|]; [|done]. cbn [negb].
  destruct (hash_down c d (zip (reverse l) (reverse copath)) []) as [[[r last]|]|] eqn:E; [|done..].
  intros [= <- <-]. destruct (hash_down_hashed _ _ _ _ _ _ E) as (H1 & H2 & H3).
  rewrite fst_zip in H1, H2, H3 by (rewrite !length_reverse; lia). unfold hashed. rewrite !fmap_reverse, H1, H2, H3.
  by rewrite !fmap_reverse, !reverse_involutive.
Qed.

(** Nodes written over parents *)
Definition write_path d (path : Path) : TreeSyncDiff := foldl (λ d e, diff.parent_mut d e.1 (λ _, Some e.2)) d path.

Lemma write_path_only d path : only_parents d (write_path d path).
Proof.
  unfold write_path. revert d. induction path as [|e path IH]; intros d; [apply only_parents_refl|].
  cbn [foldl]. eapply only_parents_trans; [apply only_parents_mut|apply IH].
Qed.

Lemma write_path_parent d path p : NoDup path.*1 →
  diff.parent (write_path d path) p =
    match (list_to_map path : gmap N ParentNode) !! p with Some x => Some x | None => diff.parent d p end.
Proof.
  unfold write_path. revert d. induction path as [|[q x] path IH]; intros d Hn; [done|].
  rewrite fmap_cons in Hn. apply NoDup_cons in Hn as [Hq Hn]. cbn [foldl fst snd] in *. rewrite IH by done.
  rewrite parent_mut_replace, parent_replace_parent. cbn [list_to_map foldr fst snd].
  destruct (decide (q = p)) as [->|Hne].
  - by rewrite lookup_insert_eq, (proj1 (not_elem_of_list_to_map _ _)) by done.
  - by rewrite lookup_insert_ne.
Qed.

(** The diff [d'] shows [d] with a new path of leaf [s], whose keys are [keys] and whose leaf is
    [x]. *)
Record repathed d d' (n s : N) (keys : list EncryptionKey) (x : TreeSyncLeafNode) : Prop := {
  repathed_stands : stands d' n;
  repathed_tree : diff.original_tree d' = diff.original_tree d;
  repathed_leaf i : diff.leaf d' i = if decide (i = s) then x else diff.leaf d i;
  repathed_length : length keys = length (kept d n s);
  repathed_new j k : kept d n s !! j = Some k →
    ∃ p, diff.parent d' (up s k) = Some p ∧ keys !! j = Some (parent_encryption_key p) ∧ unmerged_leaves p = [];
  repathed_blank k : N.of_nat k < n → k ∉ kept d n s → diff.parent d' (up s k) = None;
  repathed_other p : p ∉ (up s <$> levels n) → diff.parent d' p = diff.parent d p;
}.
#[global] Arguments repathed_stands {_ _ _ _ _ _} _.
#[global] Arguments repathed_tree {_ _ _ _ _ _} _.
#[global] Arguments repathed_leaf {_ _ _ _ _ _} _.
#[global] Arguments repathed_length {_ _ _ _ _ _} _.
#[global] Arguments repathed_new {_ _ _ _ _ _} _.
#[global] Arguments repathed_blank {_ _ _ _ _ _} _.
#[global] Arguments repathed_other {_ _ _ _ _ _} _.

Lemma kept_nodup d n s : NoDup (kept d n s).
Proof. apply NoDup_filter, NoDup_seq. Qed.

Lemma kept_path_nodup d n s : NoDup (up s <$> kept d n s).
Proof.
  apply NoDup_fmap_2_strong; [|apply kept_nodup]. intros k m _ _ E. by apply up_inj in E as [-> _].
Qed.

Lemma process_update_path_spec c d n s path h d' keys :
  stands d n → s < 2 ^ n → path.*1 = up s <$> kept d n s → path.*2 = parent_from_key <$> keys →
  process_update_path c d s path = Some (Ok (h, d')) → repathed d d' n s keys (diff.leaf d s).
Proof.
  intros Hd Hs Hi Hk. unfold process_update_path.
  destruct (set_parent_hashes c d path s) as [[[path' h']|]|] eqn:E; [|done..].
  destruct (set_parent_hashes_hashed _ _ _ _ _ _ E) as (H1 & H2 & H3).
  rewrite (diff_direct_path d n) by done. intros [= _ <-]. fold (write_path (foldl (λ d node, diff.parent_mut d node (λ _, None)) d (up s <$> levels n)) path').
  fold (edit_parents d (up s <$> levels n) (λ _, None)). set (e := edit_parents d (up s <$> levels n) (λ _, None)).
  pose proof (only_parents_trans _ _ _ (edit_parents_only d (up s <$> levels n) (λ _, None)) (write_path_only e path')) as Ho.
  assert (Hn : NoDup path'.*1) by (rewrite H1, Hi; apply kept_path_nodup).
  assert (Hlen : length keys = length (kept d n s)).
  { rewrite <-(length_fmap parent_from_key), <-Hk, <-(length_fmap (up s)), <-Hi, !length_fmap. done. }
  assert (Hold : ∀ p, p ∉ path'.*1 → diff.parent (write_path e path') p = diff.parent e p).
  { intros p Hp. rewrite write_path_parent by done. by rewrite (proj1 (not_elem_of_list_to_map _ _)) by done. }
  split.
  - by apply (only_parents_stands d).
  - apply Ho.
  - intros i. rewrite (only_parents_view _ _ _ Ho). by case_decide; subst.
  - done.
  - intros j k Hj. destruct (lookup_lt_is_Some_2 path' j) as [[q p] Hp].
    { rewrite <-(length_fmap fst), H1, Hi, length_fmap. by eapply lookup_lt_Some. }
    assert (q = up s k) as ->.
    { assert (E1 : path'.*1 !! j = Some q) by (by rewrite list_lookup_fmap, Hp).
      rewrite H1, Hi, list_lookup_fmap, Hj in E1. by injection E1. }
    exists p. split; [|split].
    + rewrite write_path_parent by done. erewrite (proj1 (elem_of_list_to_map _ _ _ Hn)); [done|].
      apply list_elem_of_lookup. by exists j.
    + assert (E2 : (parent_encryption_key <$> path'.*2) !! j = Some (parent_encryption_key p)).
      { by rewrite !list_lookup_fmap, Hp. }
      rewrite H2, Hk, <-list_fmap_compose in E2. rewrite <-E2. f_equal. clear. induction keys; [done|]. cbn. by f_equal.
    + assert (E3 : (unmerged_leaves <$> path'.*2) !! j = Some (unmerged_leaves p)) by (by rewrite !list_lookup_fmap, Hp).
      rewrite H3, Hk, !list_lookup_fmap in E3. destruct (keys !! j); [|done]. by injection E3.
  - intros k Hkn Hnk. rewrite Hold.
    + unfold e. rewrite parent_edit_parents, decide_True; [done| |apply path_nodup]. apply elem_of_path. by exists k.
    + rewrite H1, Hi, list_elem_of_fmap. intros (m & Em & Hm). apply up_inj in Em as [-> _]. done.
  - intros p Hp. rewrite Hold.
    + unfold e. rewrite parent_edit_parents, decide_False; [done|done|apply path_nodup].
    + rewrite H1, Hi, list_elem_of_fmap. intros (m & -> & Hm%elem_of_kept). apply Hp, elem_of_path. exists m. by destruct Hm.
Qed.

Lemma repathed_replace d d' n s keys x y : repathed d d' n s keys x → s < 2 ^ n →
  repathed d (diff.replace_leaf d' s y) n s keys y.
Proof.
  intros [H1 H2 H3 H4 H5 H6 H7] Hs. split; try done.
  - by apply stands_replace_leaf.
  - intros i. rewrite leaf_replace_leaf. destruct (decide (s = i)), (decide (i = s)); try congruence.
    rewrite H3. by rewrite decide_False.
Qed.
End processing.

(** ** Where two paths meet *)

Section meeting.
Implicit Types d : TreeSyncDiff.

(** The paths of leaves [s] and [r] meet at level [K]. *)
Definition meet_at (s r : N) (K : nat) : Prop := parts_at s r (N.of_nat K).

Lemma meet_exists n s r : s < 2 ^ n → r < 2 ^ n → s ≠ r → ∃ K, N.of_nat K < n ∧ meet_at s r K.
Proof.
  intros Hs Hr Hne. destruct (parts_at_exists n s r Hs Hr Hne) as (k & Hk & Hp). exists (N.to_nat k).
  unfold meet_at. by rewrite N2Nat.id.
Qed.

Lemma meet_sym s r K : meet_at s r K → meet_at r s K.
Proof. intros [H1 H2]. by split. Qed.

Lemma meet_up s r K k : meet_at s r K → up r k = up s k ↔ (K <= k)%nat.
Proof.
  intros [H1 H2]. split.
  - intros [_ E]%up_inj. destruct (le_lt_dec K k) as [|Hlt]; [done|]. destruct H1.
    apply (same_above s r (N.of_nat k + 1)); [lia|done].
  - intros Hk. unfold up. f_equal. symmetry. apply (same_above s r (N.of_nat K + 1)); [lia|done].
Qed.

Lemma meet_side s r K k : meet_at s r K → (K < k)%nat → side r k = side s k.
Proof.
  intros [_ H2] Hk. unfold side. f_equal. symmetry. apply (same_above s r (N.of_nat K + 1)); [lia|done].
Qed.

Lemma meet_below s r K : meet_at s r K → below r (N.of_nat K) (side s K).
Proof. intros H%meet_sym. by apply below_side. Qed.

Lemma meet_lca d s r K : s < 2 ^ 30 → r < 2 ^ 30 → meet_at s r K →
  diff.lowest_common_ancestor d s r = up s K.
Proof. intros Hs Hr H. by apply lca_node. Qed.

Lemma meet_copath_node d n s r K : n <= 29 → s < 2 ^ n → r < 2 ^ n → N.of_nat K < n → meet_at s r K →
  diff.subtree_root_copath_node d s r = tree_node (N.of_nat K) (side s K).
Proof.
  intros Hn Hs Hr HK Hm. pose proof (pow_bound n 30 ltac:(lia)) as Hb.
  pose proof (meet_below s r K Hm) as Hr'. unfold below in Hr'. destruct Hm as [H1 H2].
  unfold diff.subtree_root_copath_node. rewrite (lca_node s r (N.of_nat K)) by (done || lia).
  rewrite <-Hr'. set (j := s `div` 2 ^ (N.of_nat K + 1)) in *.
  assert (Hf : fits (N.of_nat K + 1) j).
  { apply (fits_in_tree n); [lia|lia|]. apply quotient_in_tree; [lia|done]. }
  assert (Hq : ∀ x, x `div` 2 ^ (N.of_nat K + 1) = (x `div` 2 ^ N.of_nat K) `div` 2).
  { intros x. by rewrite N.pow_add_r, N.pow_1_r, N.Div0.div_div. }
  unfold j in *. rewrite Hq in *. rewrite (Hq r) in H2.
  destruct (halves (s `div` 2 ^ N.of_nat K)) as [a Ha], (halves (r `div` 2 ^ N.of_nat K)) as [b Hb'].
  rewrite <-H2 in Hb'. set (p := (s `div` 2 ^ N.of_nat K) `div` 2) in *.
  assert (a ≠ b) as Hab by congruence.
  pose proof (N.Div0.div_le_mono s r (2 ^ N.of_nat K)) as Hsr. pose proof (N.Div0.div_le_mono r s (2 ^ N.of_nat K)) as Hrs.
  destruct (N.ltb_spec r s) as [Hlt|Hge]; destruct a, b; try done; cbn [N.b2n] in *; try lia.
  - rewrite left_node by (done || lia). f_equal. lia.
  - rewrite right_node by (done || lia). f_equal. lia.
Qed.

(** *** What two filtered paths share *)

Definition low d (K : nat) (s : N) : list nat := filter (λ k, occupied d k (side s k)) (seq 0 K).
Definition high d (n : N) (K : nat) (s : N) : list nat :=
  filter (λ k, occupied d k (side s k)) (seq K (N.to_nat n - K)).

Lemma kept_split d n K s : N.of_nat K < n → kept d n s = low d K s ++ high d n K s.
Proof.
  intros HK. unfold kept, low, high, levels. replace (N.to_nat n) with (K + (N.to_nat n - K))%nat at 1 by lia.
  by rewrite seq_app, filter_app.
Qed.

Lemma elem_of_low d K s k : k ∈ low d K s → (k < K)%nat.
Proof. unfold low. rewrite list_elem_of_filter, elem_of_seq. lia. Qed.

Lemma high_at d n K s r : N.of_nat K < n → meet_at s r K → full_leaf d r →
  ∃ rest, high d n K s = K :: rest ∧ ∀ k, k ∈ rest → (K < k)%nat.
Proof.
  intros HK Hm Hf. unfold high. replace (N.to_nat n - K)%nat with (S (N.to_nat n - S K)) by lia. cbn [seq].
  rewrite filter_true by (apply (occupied_full d K _ r Hf), meet_below; done).
  eexists. split; [done|]. intros k Hk. apply list_elem_of_filter in Hk as [_ Hk%elem_of_seq]. lia.
Qed.

Lemma high_shared d n K s r : N.of_nat K < n → meet_at s r K → full_leaf d s → full_leaf d r →
  high d n K r = high d n K s.
Proof.
  intros HK Hm Hs Hr. unfold high. apply filter_ext_in. intros k Hk%elem_of_seq.
  destruct (decide (k = K)) as [->|Hne].
  - rewrite (occupied_full d K (side r K) s), (occupied_full d K (side s K) r); try done.
    + by apply meet_below.
    + by apply meet_below, meet_sym.
  - rewrite (meet_side s r K k); [done|done|lia].
Qed.

Lemma position_low s (l : list nat) l' k : k ∉ l →
  position (up s k) ((up s <$> l) ++ (up s k :: l')) = Some (length l).
Proof.
  intros Hk. induction l as [|m l IH]; cbn; [by rewrite N.eqb_refl|].
  rewrite (proj2 (N.eqb_neq _ _)).
  - rewrite IH; [done|]. intros Hin. apply Hk. by right.
  - intros [-> _]%up_inj. apply Hk. by left.
Qed.

Lemma apart_prefix s r K a b : meet_at s r K → (∀ k, k ∈ a → (k < K)%nat) →
  treemath.common_prefix (reverse (up r <$> a)) (reverse (up s <$> b)) = [].
Proof.
  intros Hm Ha. destruct a as [|x a _] using rev_ind; [done|]. destruct b as [|y b _] using rev_ind.
  { rewrite fmap_nil, reverse_nil. by destruct (reverse _). }
  rewrite !fmap_app, !reverse_app. cbn. rewrite (proj2 (N.eqb_neq _ _)); [done|]. intros E.
  pose proof (up_inj _ _ _ _ E) as [-> _]. apply (meet_up s r K y) in E; [|done].
  specialize (Ha y). rewrite elem_of_app in Ha. specialize (Ha ltac:(right; by left)). lia.
Qed.

Section standing.
Context (d : TreeSyncDiff) (n s r : N) (K : nat).
Hypotheses (Hd : stands d n) (Hs : s < 2 ^ n) (Hr : r < 2 ^ n) (HK : N.of_nat K < n) (Hm : meet_at s r K).
Hypotheses (Hfs : full_leaf d s) (Hfr : full_leaf d r).

Lemma in_30 : s < 2 ^ 30 ∧ r < 2 ^ 30.
Proof using Type*. pose proof (stands_max _ _ Hd). pose proof (pow_bound n 30 ltac:(lia)). lia. Qed.

Lemma subtree_root_position_low : subtree_root_position d s r = Some (Ok (length (low d K s))).
Proof using Type*.
  unfold subtree_root_position. destruct in_30. rewrite (meet_lca d s r K), (filtered_direct_path_kept d n) by done.
  rewrite (kept_split d n K s HK). destruct (high_at d n K s r HK Hm Hfr) as (rest & -> & _).
  rewrite fmap_app, fmap_cons, position_low; [done|]. intros Hk%elem_of_low. lia.
Qed.

Lemma filtered_common_path_high : filtered_common_direct_path d r s = Some (up s <$> high d n K s).
Proof using Type*.
  unfold filtered_common_direct_path. rewrite !(filtered_direct_path_kept d n) by done.
  rewrite !(kept_split d n K _ HK), (high_shared d n K s r) by done. rewrite !fmap_app, !reverse_app.
  assert (E : up r <$> high d n K s = up s <$> high d n K s).
  { apply list_fmap_ext. intros i k Hk. apply (meet_up s r K); [done|].
    apply list_elem_of_lookup_2, list_elem_of_filter in Hk as [_ Hk%elem_of_seq]. lia. }
  rewrite E, common_prefix_app, (apart_prefix s r K); [|done|intros k; apply elem_of_low].
  by rewrite app_nil_r, reverse_involutive.
Qed.

Lemma drop_low {A} (f : nat → A) : drop (length (low d K s)) (f <$> kept d n s) = f <$> high d n K s.
Proof using Type*.
  rewrite (kept_split d n K s HK), fmap_app. rewrite <-(length_fmap f (low d K s)). apply drop_app_length.
Qed.

Lemma kept_at_low : kept d n s !! length (low d K s) = Some K.
Proof using Type*.
  rewrite (kept_split d n K s HK). destruct (high_at d n K s r HK Hm Hfr) as (rest & -> & _).
  rewrite lookup_app_r by lia. by rewrite Nat.sub_diag.
Qed.
End standing.
End meeting.
