(* ===== verification/MlsTreeKeys.v ===== *)
(** * The keys of the members of a tree

    Which private keys a member has to hold ([keys_of], what [encryption_keys] lists), that a
    path re-keys the nodes above its leaf and no others, and that every member that holds its
    keys reads a path that was sealed for the tree. *)

From S2P Require Import Prelude MlsTree MlsBinaryTree MlsCrypto MlsTreeSync MlsTreeViews MlsProposals MlsTreeKem.
From stdpp Require Import options.

Local Open Scope N_scope.

Section keys.
Implicit Types d : TreeSyncDiff.

(** The key of the parent above leaf [r] at level [k], if [r] is merged into it *)
Definition key_above d (r : N) (k : nat) : option EncryptionKey :=
  match diff.parent d (up r k) with
  | Some p => if decide (r ∈ unmerged_leaves p) then None else Some (parent_encryption_key p)
  | None => None
  end.

Definition leaf_keys d (r : N) : list EncryptionKey :=
  match diff.leaf d r with Some l => [leaf_encryption_key l] | None => [] end.

Definition keys_of d (n r : N) : list EncryptionKey := leaf_keys d r ++ omap (key_above d r) (levels n).

(** A parent that is not blank is on the filtered path of the leaves under it. *)
Lemma tidy_kept d n r k p : tidy d n → r < 2 ^ n → N.of_nat k < n → diff.parent d (up r k) = Some p → k ∈ kept d n r.
Proof.
  intros Ht Hr Hk E. apply elem_of_kept. split; [done|]. destruct (Ht r k p Hk Hr E) as [_ (l & Hl & Hb)].
  by apply (occupied_full d k _ l).
Qed.

Lemma omap_filter {A B} (p : A → bool) (f : A → option B) (l : list A) :
  (∀ x, x ∈ l → p x = false → f x = None) → omap f (filter p l) = omap f l.
Proof.
  induction l as [|x l IH]; intros Hf; [done|]. destruct (p x) eqn:E.
  - rewrite filter_true by done. cbn. rewrite IH; [done|]. intros; apply Hf; [by right|done].
  - rewrite filter_false by done. cbn. rewrite (Hf x), IH; [done| |by left|done]. intros; apply Hf; [by right|done].
Qed.

Lemma omap_ext_in {A B} (f g : A → option B) (l : list A) : (∀ x, x ∈ l → f x = g x) → omap f l = omap g l.
Proof.
  induction l as [|x l IH]; intros Hf; [done|]. cbn. rewrite (Hf x), IH; [done| |by left]. intros; apply Hf; by right.
Qed.

Lemma omap_none {A B} (f : A → option B) (l : list A) : (∀ x, x ∈ l → f x = None) → omap f l = [].
Proof.
  induction l as [|x l IH]; intros Hf; [done|]. cbn. rewrite (Hf x) by by left. apply IH. intros; apply Hf; by right.
Qed.

Lemma omap_fmap {A B C} (f : B → option C) (g : A → B) (l : list A) : omap f (g <$> l) = omap (λ x, f (g x)) l.
Proof. induction l as [|x l IH]; [done|]. rewrite fmap_cons. cbn. by rewrite IH. Qed.

Lemma encryption_keys_of d n r : stands d n → tidy d n → r < 2 ^ n →
  encryption_keys d r = Some (keys_of d n r).
Proof.
  intros Hd Ht Hr. unfold encryption_keys. rewrite (filtered_direct_path_kept d n) by done.
  unfold keys_of, leaf_keys. do 2 f_equal. rewrite omap_fmap. unfold kept. fold (key_above d r).
  apply (omap_filter (λ k, occupied d k (side r k))). intros k Hk%elem_of_levels Ho. unfold key_above.
  destruct (diff.parent d (up r k)) as [p|] eqn:E; [|done]. apply (tidy_kept d n) in E; [|done..].
  apply elem_of_kept in E as [_ E]. congruence.
Qed.

(** A merged tree shows what the diff shows. *)
Lemma keys_of_ext d d' n r : r < 2 ^ n → diff.leaf d' r = diff.leaf d r →
  (∀ p, p < 2 ^ n - 1 → diff.parent d' p = diff.parent d p) → keys_of d' n r = keys_of d n r.
Proof.
  intros Hr Hl Hp. unfold keys_of, leaf_keys. rewrite Hl. f_equal. apply omap_ext_in.
  intros k Hk%elem_of_levels. unfold key_above. by rewrite Hp by by apply up_bound.
Qed.

(** *** Proposals take keys away, except from leaves *)

Lemma sublist_omap {A B} (f g : A → option B) (l : list A) :
  (∀ x, x ∈ l → f x = None ∨ f x = g x) → omap f l `sublist_of` omap g l.
Proof.
  induction l as [|x l IH]; intros Hf; [constructor|]. cbn.
  assert (Hl : omap f l `sublist_of` omap g l) by (apply IH; intros; apply Hf; by right).
  destruct (Hf x) as [->| ->]; [by left| |]; destruct (g x); try done; by constructor.
Qed.

Lemma sublist_levels {B} (f g : nat → option B) (n m : N) :
  (∀ k, N.of_nat k < n → f k = None ∨ f k = g k) → (∀ k, m <= N.of_nat k → g k = None) →
  omap f (levels n) `sublist_of` omap g (levels m).
Proof.
  intros Hf Hg. trans (omap g (levels n)).
  { apply sublist_omap. intros k Hk%elem_of_levels. by apply Hf. }
  unfold levels. destruct (decide (N.to_nat n <= N.to_nat m)%nat) as [Hle|Hgt].
  - replace (N.to_nat m) with (N.to_nat n + (N.to_nat m - N.to_nat n))%nat by lia. rewrite seq_app, omap_app.
    by apply sublist_inserts_r.
  - replace (N.to_nat n) with (N.to_nat m + (N.to_nat n - N.to_nat m))%nat by lia. rewrite seq_app, omap_app.
    rewrite (omap_none g (seq (0 + N.to_nat m) _)); [by rewrite app_nil_r|]. intros k Hk%elem_of_seq. apply Hg. lia.
Qed.

Lemma above_evolves d d' n m n' M news r : phase d n m M → evolves d d' n' news → r < 2 ^ n → r < 2 ^ n' → r ∉ news →
  omap (key_above d' r) (levels n') `sublist_of` omap (key_above d r) (levels n).
Proof.
  intros Hp [Ho _ _] Hr Hr' Hnew. apply sublist_levels.
  - intros k Hk. unfold key_above. destruct (diff.parent d' (up r k)) as [p'|] eqn:E; [|by left].
    destruct (Ho (up r k) p') as (p & -> & Hkey & Hu1 & Hu2); [by apply up_bound|done|].
    case_decide as Hin'; [by left|right]. rewrite decide_False by auto. by rewrite Hkey.
  - intros k Hk. unfold key_above. rewrite (growing_bare _ _ _ (phase_growing _ _ _ _ Hp)); [done|].
    destruct (N.lt_ge_cases (up r k) (2 ^ n - 1)) as [Hlt|]; [|done]. apply up_range in Hlt. lia.
Qed.

(** New members hold no key but their own. *)
Lemma above_new d d' n' news r : evolves d d' n' news → r ∈ news → r < 2 ^ n' →
  omap (key_above d' r) (levels n') = [].
Proof.
  intros Hev Hin Hr. apply omap_none. intros k Hk%elem_of_levels. unfold key_above.
  destruct (diff.parent d' (up r k)) as [p|] eqn:E; [|done].
  rewrite decide_True; [done|]. eapply (evolves_new _ _ _ _ Hev); [done|by apply up_bound|done].
Qed.

(** A node that has a resolution has members under it. *)
Lemma occupied_peopled d n k j : tidy d n → N.of_nat k < n → j < 2 ^ (n - N.of_nat k) → occupied d k j = true → peopled d k j.
Proof.
  intros Ht. revert j. induction k as [|k IH]; intros j Hk Hj Ho.
  - exists j. split; [by apply occupied_leaf|]. unfold below. by rewrite N.div_1_r.
  - rewrite occupied_S in Ho. destruct (diff.parent d (node (N.of_nat k) j)) as [p|] eqn:E.
    + assert (Hb : below (j * 2 ^ (N.of_nat k + 1)) (N.of_nat k + 1) j) by (unfold below; apply N.div_mul, N.pow_nonzero; done).
      assert (Hi : j * 2 ^ (N.of_nat k + 1) < 2 ^ n).
      { replace (2 ^ n) with (2 ^ (n - N.of_nat (S k)) * 2 ^ (N.of_nat k + 1)) by (rewrite <-N.pow_add_r; f_equal; lia).
        apply N.mul_lt_mono_pos_r; [apply N.neq_0_lt_0, N.pow_nonzero; done|exact Hj]. }
      destruct (Ht (j * 2 ^ (N.of_nat k + 1)) k p) as [(l & Hl & Hbl) _]; [lia|done|by rewrite (proj1 (up_below _ _ _) Hb)|].
      exists l. split; [done|]. replace (N.of_nat (S k)) with (N.of_nat k + 1) by lia.
      apply up_below. rewrite <-(proj1 (up_below _ _ _) Hb). apply side_up. by left.
    + apply orb_true_iff in Ho.
      assert (Hc : ∃ j', (j' = 2 * j ∨ j' = 2 * j + 1) ∧ occupied d k j' = true) by (destruct Ho; eauto).
      destruct Hc as (j' & Hj' & Ho'). destruct (IH j') as (l & Hl & Hb); [lia| |done|].
      { replace (n - N.of_nat k) with (n - N.of_nat (S k) + 1) by lia. rewrite N.pow_add_r, N.pow_1_r. lia. }
      exists l. split; [done|]. replace (N.of_nat (S k)) with (N.of_nat k + 1) by lia. apply below_halves.
      destruct Hj' as [->| ->]; auto.
Qed.

(** *** A path *)

Section path.
Context (d d' : TreeSyncDiff) (n s : N) (keys : list EncryptionKey) (x : TreeSyncLeafNode).
Hypotheses (Hp : repathed d d' n s keys x) (Hs : s < 2 ^ n) (Hfs : full_leaf d s) (Hx : is_Some x).

Lemma off_path i m k : parts_at i s (N.of_nat k) → (m < k)%nat → diff.parent d' (up i m) = diff.parent d (up i m).
Proof using Type*.
  intros Ha Hm. apply (repathed_other Hp). rewrite elem_of_path. intros (m' & _ & E).
  pose proof (up_inj _ _ _ _ E) as [<- _]. apply (meet_up s i k m) in E; [lia|]. by apply meet_sym.
Qed.

Lemma repathed_full i : full_leaf d' i ↔ full_leaf d i.
Proof using Type*. unfold full_leaf in *. rewrite (repathed_leaf Hp). case_decide; [subst|]; naive_solver. Qed.

Lemma repathed_occupied k : occupied d' k (side s k) = occupied d k (side s k).
Proof using Type*.
  apply occupied_ext.
  - intros i _. apply repathed_full.
  - intros i m Hb%below_side Hm. by rewrite (off_path i m k).
Qed.

Lemma repathed_kept : kept d' n s = kept d n s.
Proof using Type*. unfold kept. apply filter_ext_in. intros k _. apply repathed_occupied. Qed.

(** The keys above the leaf of the path *)
Lemma above_own : omap (key_above d' s) (levels n) = keys.
Proof using Type*.
  rewrite <-(omap_filter (λ k, occupied d k (side s k))).
  - fold (kept d n s). pose proof (repathed_length Hp) as Hlen.
    assert (E : key_above d' s <$> kept d n s = Some <$> keys).
    { apply list_eq. intros j. rewrite !list_lookup_fmap. destruct (kept d n s !! j) as [k|] eqn:Ek.
      - destruct (repathed_new Hp j k Ek) as (p & E1 & E2 & E3). cbn. rewrite E2. cbn. unfold key_above.
        by rewrite E1, E3, decide_False by apply not_elem_of_nil.
      - apply lookup_ge_None_1 in Ek. by rewrite (lookup_ge_None_2 keys) by lia. }
    revert E. generalize (kept d n s). clear. intros l. revert keys. induction l as [|k l IH]; intros [|y keys] E; try done.
    rewrite !fmap_cons in E. injection E as E1 E2. cbn. rewrite E1. f_equal. by apply IH.
  - intros k Hk%elem_of_levels Ho. unfold key_above. rewrite (repathed_blank Hp); [done..|].
    rewrite elem_of_kept. intros [_ E]. congruence.
Qed.

Lemma above_low K : N.of_nat K < n → omap (key_above d' s) (seq K (N.to_nat n - K)) = drop (length (low d K s)) keys.
Proof using Type*.
  intros HK. pose proof above_own as E. unfold levels in E.
  replace (N.to_nat n) with (K + (N.to_nat n - K))%nat in E at 1 by lia. rewrite seq_app, omap_app in E. cbn [Nat.add] in E.
  assert (Hlen : length (omap (key_above d' s) (seq 0 K)) = length (low d K s)).
  { rewrite <-(omap_filter (λ k, occupied d k (side s k))).
    - fold (low d K s). assert (Hin : ∀ k, k ∈ low d K s → is_Some (key_above d' s k)).
      { intros k Hk. assert (Hk' : k ∈ kept d n s) by (rewrite (kept_split d n K s HK), elem_of_app; by left).
        apply list_elem_of_lookup in Hk' as [j Hj].
        destruct (repathed_new Hp j k Hj) as (p & E1 & E2 & E3). unfold key_above.
        rewrite E1, E3, decide_False by apply not_elem_of_nil. by eexists. }
      revert Hin. generalize (low d K s). clear. intros l. induction l as [|k l IH]; intros Hin; [done|]. cbn.
      destruct (Hin k) as [y ->]; [by left|]. cbn. f_equal. apply IH. intros; apply Hin; by right.
    - intros k Hk%elem_of_seq Ho. unfold key_above. rewrite (repathed_blank Hp); [done|lia|].
      rewrite elem_of_kept. intros [_ E']. congruence. }
  by rewrite <-E, <-Hlen, drop_app_length.
Qed.

(** The keys above another leaf: its own below where the paths meet, and the new ones *)
Lemma above_other r K : N.of_nat K < n → meet_at s r K →
  omap (key_above d' r) (levels n) = omap (key_above d r) (seq 0 K) ++ drop (length (low d K s)) keys.
Proof using Type*.
  intros HK Hm. rewrite <-above_low by done. unfold levels.
  replace (N.to_nat n) with (K + (N.to_nat n - K))%nat at 1 by lia. rewrite seq_app, omap_app. f_equal.
  - apply omap_ext_in. intros k Hk%elem_of_seq. unfold key_above. rewrite (off_path r k K); [done| |lia]. by apply meet_sym.
  - apply omap_ext_in. intros k Hk%elem_of_seq. unfold key_above. rewrite (proj2 (meet_up s r K k Hm)) by lia.
    destruct (diff.parent d' (up s k)) as [p|] eqn:E; [|done].
    destruct (decide (k ∈ kept d n s)) as [Hin|Hnin].
    + apply list_elem_of_lookup in Hin as [j Hj]. destruct (repathed_new Hp j k Hj) as (p' & E1 & _ & E3).
      rewrite E in E1. injection E1 as <-. by rewrite E3, !decide_False by apply not_elem_of_nil.
    + rewrite (repathed_blank Hp) in E; [done|lia|done].
Qed.

(** Parents keep having members on both sides. *)
Lemma tidy_repathed : tidy d n → tidy d' n.
Proof using Type*.
  intros Ht i k p Hk Hi E. assert (Hm : ∀ j, peopled d k j → peopled d' k j).
  { intros j (l & Hl & Hb). exists l. split; [by apply repathed_full|done]. }
  destruct (decide (up i k ∈ (up s <$> levels n))) as [Hin|Hnin].
  - apply elem_of_path in Hin as (m & Hmn & Eu). pose proof (up_inj _ _ _ _ Eu) as [<- _].
    destruct (decide (k ∈ kept d n s)) as [Hkept|Hnk].
    + apply elem_of_kept in Hkept as [_ Ho]. pose proof (side_in_tree n s k Hk Hs) as Hside.
      destruct (occupied_peopled d n k (side s k) Ht Hk Hside Ho) as (l & Hl & Hb).
      assert (Hsp : peopled d k (s `div` 2 ^ N.of_nat k)) by (exists s; done).
      destruct (up_side i s k Eu) as [Hbi|Hbi]; unfold below in Hbi.
      * rewrite Hbi. unfold side. rewrite Hbi. split; apply Hm; [done|by exists l].
      * rewrite Hbi. split; apply Hm; [by exists l|]. unfold side. rewrite Hbi. unfold side.
        destruct (halves (s `div` 2 ^ N.of_nat k)) as [b Eb]. rewrite Eb, sib_halves, sib_halves, negb_involutive, <-Eb. done.
    + rewrite Eu, (repathed_blank Hp) in E by done. done.
  - rewrite (repathed_other Hp) in E by done. destruct (Ht i k p Hk Hi E). auto.
Qed.
End path.
End keys.

(** ** Reading a path *)

Lemma first_owned_some keys pks :
  (∃ pk, pk ∈ pks ∧ pk ∈ public_key <$> keys) →
  ∃ kp i, first_owned keys pks = Some (kp, i) ∧ kp ∈ keys ∧ pks !! i = Some (public_key kp).
Proof.
  induction pks as [|pk pks IH]; intros (q & Hq & Hk); [by apply elem_of_nil in Hq|]. cbn [first_owned].
  destruct (owned keys pk) as [kp|] eqn:E.
  - exists kp, 0%nat. split; [done|]. unfold owned in E.
    assert (Hin : kp ∈ filter (λ kp, public_key kp = pk) keys).
    { destruct (filter _ keys) as [|y l]; [done|]. injection E as ->. by left. }
    apply list_elem_of_filter in Hin as [<- Hin]. done.
  - destruct IH as (kp & i & -> & Hin & Hi).
    + apply elem_of_cons in Hq as [->|Hq]; [|by exists q]. exfalso.
      apply list_elem_of_fmap in Hk as (kp & -> & Hkp). unfold owned in E.
      assert (Hf : kp ∈ filter (λ kp', public_key kp' = public_key kp) keys) by (by apply list_elem_of_filter).
      destruct (filter _ keys); [by apply elem_of_nil in Hf|done].
    + by exists kp, (S i).
Qed.

(** A member under a node is in its resolution, by itself or by a parent it is merged into. *)
Lemma res_own_entry d excluded k j r : full_leaf d r → r ∉ excluded → below r (N.of_nat k) j →
  ∃ e, e ∈ res d excluded k j ∧ (reference_key e.2 ∈ leaf_keys d r ∨
    ∃ m, (m < k)%nat ∧ key_above d r m = Some (reference_key e.2)).
Proof.
  intros [l Hl] Hex. assert (He : leaf_entry d excluded r = Some (treemath.Leaf r, LeafReference l)).
  { unfold leaf_entry. by rewrite decide_False, Hl by done. }
  assert (Hlk : leaf_encryption_key l ∈ leaf_keys d r) by (unfold leaf_keys; rewrite Hl; by left).
  revert j. induction k as [|k IH]; intros j Hb.
  - unfold below in Hb. rewrite N.div_1_r in Hb. subst j. cbn. rewrite He. eexists. split; [by left|]. by left.
  - replace (N.of_nat (S k)) with (N.of_nat k + 1) in Hb by lia. cbn [res].
    destruct (diff.parent d (node (N.of_nat k) j)) as [p|] eqn:E.
    + destruct (decide (r ∈ unmerged_leaves p)) as [Hu|Hu].
      * eexists. split; [right; apply list_elem_of_omap; by exists r|]. by left.
      * eexists. split; [by left|]. right. exists k. split; [lia|]. unfold key_above.
        rewrite (proj1 (up_below _ _ _) Hb), E, decide_False by done. done.
    + apply below_halves in Hb as [Hb|Hb]; apply IH in Hb as (e & Hin & He'); exists e;
        (split; [apply elem_of_app; auto|]; destruct He' as [|(m & Hm & ?)]; [by left|right; exists m; split; [lia|done]]).
Qed.

Section reading.
Context {kdf : OpenMlsCrypto} {crypto : TreeCrypto} {laws : TreeLaws}.
Implicit Types (c : Ciphersuite) (d : TreeSyncDiff).

Lemma decrypt_encrypted c coins s kp context ct : valid c kp →
  encrypt_path_secret c coins s (public_key kp) context = Ok ct →
  decrypt_path_secret c ct (private_key kp) context = Ok s.
Proof using laws.
  intros [ikm Hkp]. unfold encrypt_path_secret, decrypt_path_secret, encrypt_with_label, decrypt_with_label.
  destruct (encrypt_context "UpdatePathNode" context) as [info|]; cbn [ok_or]; [|done].
  destruct (crypto_hpke_seal c coins (public_key kp) info (secret_value s)) as [ct'|] eqn:E; cbn [ok_or map_err]; [|done].
  intros [= <-]. rewrite (hpke_open_seal _ _ _ _ _ _ _ _ Hkp E). cbn. by destruct s.
Qed.

(** What [encrypt_path] makes of the path *)
Lemma encrypt_path_spec c d n s coins plain context excluded nodes :
  stands d n → s < 2 ^ n → length plain = length (kept d n s) →
  encrypt_path c d coins plain context excluded s = Some (Ok nodes) →
  update_public_key <$> nodes = plain_public_key <$> plain ∧
  ∀ j k, kept d n s !! j = Some k → ∃ p u, plain !! j = Some p ∧ nodes !! j = Some u ∧
    ∀ i pk, resolution_keys (res d excluded k (side s k)) !! i = Some pk →
      ∃ ct, encrypted_path_secrets u !! i = Some ct ∧ encrypt_path_secret c (coins j i) (path_secret p) pk context = Ok ct.
Proof using Type.
  intros Hd Hs Hlen. unfold encrypt_path. rewrite (filtered_copath_resolutions_kept d n) by done.
  set (ress := resolution_keys <$> _). intros [= E].
  assert (Hz : ∀ j, nodes !! j = None ↔ plain !! j = None).
  { intros j. rewrite !lookup_ge_None. pose proof (try_map_length _ _ _ E) as Hl.
    rewrite length_imap, length_zip_with_l_eq in Hl by (unfold ress; rewrite !length_fmap; lia). lia. }
  assert (Hat : ∀ j k, kept d n s !! j = Some k → ∃ p u, plain !! j = Some p ∧ nodes !! j = Some u ∧
    encrypt_node c (coins j) context p (resolution_keys (res d excluded k (side s k))) = Ok u).
  { intros j k Hj. destruct (lookup_lt_is_Some_2 plain j) as [p Hpj]; [rewrite Hlen; by eapply lookup_lt_Some|].
    destruct (try_map_lookup _ _ _ j (j, (p, resolution_keys (res d excluded k (side s k)))) E) as (u & Hu & Hn).
    - rewrite list_lookup_imap, lookup_zip_with, Hpj. unfold ress. cbn. by rewrite !list_lookup_fmap, Hj.
    - exists p, u. done. }
  split.
  - apply list_eq. intros j. rewrite !list_lookup_fmap. destruct (kept d n s !! j) as [k|] eqn:Ek.
    + destruct (Hat j k Ek) as (p & u & -> & -> & Hu). cbn. unfold encrypt_node in Hu.
      destruct (try_map _ (imap pair (resolution_keys (res d excluded k (side s k))))); [|done]. by injection Hu as <-.
    + apply lookup_ge_None_1 in Ek. assert (Hpn : plain !! j = None) by (apply lookup_ge_None_2; lia).
      by rewrite Hpn, (proj2 (Hz j) Hpn).
  - intros j k Hj. destruct (Hat j k Hj) as (p & u & Hpj & Huj & Hu). exists p, u. split; [done|]. split; [done|].
    intros i pk Hi. unfold encrypt_node in Hu.
    destruct (try_map _ (imap pair (resolution_keys (res d excluded k (side s k))))) as [cts|] eqn:Ec; [|done].
    injection Hu as <-. destruct (try_map_lookup _ _ _ i (i, pk) Ec) as (ct & Hct & Hi').
    + rewrite list_lookup_imap, Hi. done.
    + by exists ct.
Qed.

Lemma keys_match (nodes : list UpdatePathNode) (keypairs : list EncryptionKeyPair) (path : Path) :
  update_public_key <$> nodes = public_key <$> keypairs →
  path.*2 = (λ kp, parent_from_key (public_key kp)) <$> keypairs →
  forallb (λ e, bool_decide (update_public_key e.1 = parent_encryption_key e.2.2)) (zip nodes path) = true.
Proof using Type.
  revert keypairs path. induction nodes as [|u nodes IH]; intros [|kp keypairs] [|[i p] path] H1 H2; try done.
  injection H1 as Eu H1. injection H2 as Ep H2. cbn.
  rewrite (IH keypairs path) by done. rewrite bool_decide_eq_true_2; [done|]. by rewrite Eu, Ep.
Qed.

Section receiver.
Context (c : Ciphersuite) (d d' : TreeSyncDiff) (n s r : N) (K : nat) (x : TreeSyncLeafNode).
Context (secret : PathSecret) (path : Path) (plain : list PlainUpdatePathNode) (keypairs : list EncryptionKeyPair).
Context (last : CommitSecret) (coins : nat → nat → bytes) (context : bytes) (excluded : gset N) (nodes : list UpdatePathNode).
Hypotheses (Hd : stands d n) (Hs : s < 2 ^ n) (Hr : r < 2 ^ n) (HK : N.of_nat K < n) (Hm : meet_at s r K).
Hypotheses (Hfs : full_leaf d s) (Hfr : full_leaf d r) (Hx : is_Some x).
Hypotheses (Hderive : derive_path c secret (up s <$> kept d n s) = Ok (path, plain, keypairs, last)).
Hypotheses (Hpath : repathed d d' n s (public_key <$> keypairs) x).

Lemma path_length : length plain = length (kept d n s).
Proof using Type*.
  destruct (derive_path_spec _ _ _ _ _ _ _ Hderive) as [_ _ Hpk Hl _].
  by rewrite <-(length_fmap plain_public_key), Hpk, length_fmap, Hl, length_fmap.
Qed.

(** A member that holds its keys below the meeting point gets the keys from there on and the
    commit secret. *)
Lemma decrypt_path_ok own : r ∉ excluded → Forall (valid c) own →
  (∀ pk, pk ∈ leaf_keys d' r ++ omap (key_above d r) (seq 0 K) → pk ∈ public_key <$> own) →
  encrypt_path c d' coins plain context excluded s = Some (Ok nodes) →
  decrypt_path c d' nodes s excluded context own r = Some (Ok (drop (length (low d K s)) keypairs, last)).
Proof using Type*.
  intros Hex Hv Hown Henc. pose proof (repathed_stands Hpath) as Hd'.
  assert (Hfs' : full_leaf d' s) by (by eapply repathed_full).
  assert (Hfr' : full_leaf d' r) by (by eapply repathed_full).
  assert (Hkept : kept d' n s = kept d n s) by (by eapply repathed_kept).
  assert (Hlow : low d' K s = low d K s).
  { unfold low. apply filter_ext_in. intros k _. by eapply repathed_occupied. }
  assert (Hhigh : high d' n K s = high d n K s).
  { unfold high. apply filter_ext_in. intros k _. by eapply repathed_occupied. }
  pose proof path_length as Hplain.
  destruct (encrypt_path_spec c d' n s coins plain context excluded nodes Hd' Hs) as [Hpk Hnodes]; [by rewrite Hkept|done|].
  assert (HatK : kept d n s !! length (low d K s) = Some K) by (by apply (kept_at_low d n s r)).
  assert (Hdl : drop (length (low d K s)) (up s <$> kept d n s) = up s <$> high d n K s) by (by apply (drop_low d n s r)).
  set (j := length (low d K s)) in *.
  destruct (Hnodes j K) as (p & u & Hp & Hu & Hct); [by rewrite Hkept|].
  unfold decrypt_path. rewrite (subtree_root_position_low d' n s r K) by done. cbn [map_err].
  rewrite Hlow. fold j. rewrite Hu. cbn [ok_or]. unfold decryption_key.
  pose proof (stands_max _ _ Hd) as Hn29.
  rewrite (meet_copath_node d' n s r K) by done.
  rewrite resolution_node by (lia || (apply (side_fits n); (lia || done))).
  destruct (first_owned_some own (resolution_keys (res d' excluded K (side s K)))) as (kp & i & -> & Hkp & Hi).
  { destruct (res_own_entry d' excluded K (side s K) r Hfr' Hex) as (e & He & Hkey); [by apply meet_below|].
    exists (reference_key e.2). split; [unfold resolution_keys; apply list_elem_of_fmap; by exists e|].
    apply Hown. apply elem_of_app. destruct Hkey as [|(m & Hmk & Hkey)]; [by left|right].
    apply list_elem_of_omap. exists m. split; [apply elem_of_seq; lia|]. rewrite <-Hkey. unfold key_above.
    rewrite <-(off_path d d' n s (public_key <$> keypairs) x Hpath Hs Hfs Hx r m K); [done| |done]. by apply meet_sym. }
  cbn [ok_or map_err]. destruct (Hct i _ Hi) as (ct & Hcti & Hseal). rewrite Hcti. cbn [ok_or].
  rewrite Forall_forall in Hv. rewrite (decrypt_encrypted _ _ _ _ _ _ (Hv kp Hkp) Hseal). cbn [map_err].
  rewrite (filtered_common_path_high d' n s r K), Hhigh, <-Hdl by done.
  pose proof (derive_path_drop _ _ _ _ _ _ _ _ _ Hderive Hp) as Hdrop. rewrite Hdrop. cbn [map_err].
  rewrite (keys_match _ (drop j keypairs)); [done| |].
  - destruct (derive_path_spec _ _ _ _ _ _ _ Hderive) as [_ _ Hpk' _ _]. by rewrite !fmap_drop, Hpk, Hpk'.
  - apply (derive_path_spec _ _ _ _ _ _ _ Hdrop).
Qed.
End receiver.
End reading.

(** ** Joining at a path *)

Section joining.
Context {kdf : OpenMlsCrypto} {crypto : TreeCrypto}.
Implicit Types c : Ciphersuite.

Lemma derive_path_cons c s i idx path nodes keypairs last :
  derive_path c s (i :: idx) = Ok (path, nodes, keypairs, last) →
  ∃ kp s' path' nodes' keypairs', derive_key_pair c s = Ok kp ∧ derive_path_secret c s = Ok s' ∧
    keypairs = kp :: keypairs' ∧ derive_path c s' idx = Ok (path', nodes', keypairs', last).
Proof.
  unfold derive_path. cbn [length path_secrets]. destruct (derive_path_secret c s) as [s'|]; [|done].
  destruct (path_secrets c s' (length idx)) as [[l last']|] eqn:El; [|done]. cbn [zip zip_with try_map].
  unfold derive_node at 1. destruct (derive_key_pair c s) as [kp|]; [|done].
  fold (zip l idx). destruct (try_map (derive_node c) (zip l idx)) as [r|] eqn:Er; [|done]. intros [= <- <- <- <-].
  exists kp, s'. do 3 eexists. split; [done|]. split; [done|]. split; [done|]. by rewrite El, Er.
Qed.

Lemma derive_shared_ok c (t : MlsTree) r (f : nat → treemath.ParentNodeIndex) (ls : list nat) :
  ∀ s path nodes keypairs last acc (keep : nat → bool),
  derive_path c s (f <$> filter keep ls) = Ok (path, nodes, keypairs, last) →
  (∀ k, k ∈ ls → keep k = false → tree.parent_by_index t (f k) = None) →
  (∀ i k, filter keep ls !! i = Some k → ∃ p kp, tree.parent_by_index t (f k) = Some p ∧ unmerged_leaves p = [] ∧
    keypairs !! i = Some kp ∧ parent_encryption_key p = public_key kp) →
  derive_shared c t r s acc (f <$> ls) = Ok (acc ++ keypairs, last).
Proof.
  induction ls as [|k ls IH]; intros s path nodes keypairs last acc keep Hd Hblank Hnew.
  { injection Hd as <- <- <- <-. by rewrite app_nil_r. }
  rewrite fmap_cons. cbn [derive_shared]. destruct (keep k) eqn:Ek.
  - assert (Ef : filter keep (k :: ls) = k :: filter keep ls) by (by apply filter_true). rewrite Ef in *.
    rewrite fmap_cons in Hd. apply derive_path_cons in Hd as (kp & s' & path' & nodes' & kps & Hkp & Hs' & -> & Hd).
    destruct (Hnew 0%nat k eq_refl) as (p & kp' & Hp & Hu & [= <-] & Hkey). rewrite Hp.
    rewrite decide_False by (rewrite Hu; apply not_elem_of_nil). rewrite Hkp. cbn [map_err].
    rewrite bool_decide_eq_true_2 by done. cbn [negb]. rewrite Hs'. cbn [map_err].
    rewrite (IH s' path' nodes' kps last (acc ++ [kp]) keep Hd).
    + by rewrite <-app_assoc.
    + intros; apply Hblank; [by right|done].
    + intros i m Hi. by apply (Hnew (S i)).
  - assert (Ef : filter keep (k :: ls) = filter keep ls) by (by apply filter_false). rewrite Ef in *.
    rewrite (Hblank k) by (done || by left). apply (IH s path nodes keypairs last acc keep); [done| |done].
    intros; apply Hblank; [by right|done].
Qed.

Lemma shared_path n s r K : n <= 29 → s < 2 ^ n → r < 2 ^ n → N.of_nat K < n → meet_at s r K →
  treemath.common_direct_path r s (full n) = Some (up s <$> seq K (N.to_nat n - K)).
Proof.
  intros Hn Hs Hr HK Hm. unfold treemath.common_direct_path. rewrite !direct_path_up by (done || lia).
  unfold levels. replace (N.to_nat n) with (K + (N.to_nat n - K))%nat at 1 2 by lia. rewrite !seq_app, !fmap_app, !reverse_app.
  cbn [Nat.add]. assert (E : up r <$> seq K (N.to_nat n - K) = up s <$> seq K (N.to_nat n - K)).
  { apply list_fmap_ext. intros i k Hk%list_elem_of_lookup_2%elem_of_seq. apply (meet_up s r K); [done|lia]. }
  rewrite E, common_prefix_app, (apart_prefix s r K); [|done|intros k Hk%elem_of_seq; lia].
  by rewrite app_nil_r, reverse_involutive.
Qed.

(** A new member with the secret of the node where its path meets the committer's *)
Lemma derive_path_secrets_ok c d d' n s r K x secret path plain keypairs last p (t : TreeSync) :
  stands d n → s < 2 ^ n → r < 2 ^ n → N.of_nat K < n → meet_at s r K → full_leaf d s → full_leaf d r →
  derive_path c secret (up s <$> kept d n s) = Ok (path, plain, keypairs, last) →
  repathed d d' n s (public_key <$> keypairs) x →
  plain !! length (low d K s) = Some p →
  tree.tree_size (sync_tree t) = full n →
  (∀ q, q < 2 ^ n - 1 → tree.parent_by_index (sync_tree t) q = diff.parent d' q) →
  derive_path_secrets c t (path_secret p) s r = Some (Ok (drop (length (low d K s)) keypairs, last)).
Proof.
  intros Hd Hs Hr HK Hm Hfs Hfr Hderive Hpath Hp Hsize Ht. unfold derive_path_secrets, tree.subtree_path.
  pose proof (stands_max _ _ Hd). rewrite Hsize, (shared_path n s r K) by done. f_equal.
  assert (Hdl : drop (length (low d K s)) (up s <$> kept d n s) = up s <$> high d n K s) by (by apply (drop_low d n s r)).
  pose proof (derive_path_drop _ _ _ _ _ _ _ _ _ Hderive Hp) as Hdrop. rewrite Hdl in Hdrop. unfold high in Hdrop.
  rewrite (derive_shared_ok _ _ _ (up s) _ _ _ _ _ _ [] (λ k, occupied d k (side s k)) Hdrop); [done|..].
  - intros k Hk%elem_of_seq Ho. rewrite Ht by (apply up_bound; [lia|done]).
    apply (repathed_blank Hpath); [lia|]. rewrite elem_of_kept. intros [_ E]. congruence.
  - intros i k Hi. fold (high d n K s) in Hi.
    assert (Hi' : kept d n s !! (length (low d K s) + i)%nat = Some k).
    { rewrite (kept_split d n K s HK), lookup_app_r by lia. by replace (length (low d K s) + i - length (low d K s))%nat with i by lia. }
    destruct (repathed_new Hpath _ k Hi') as (q & Hq & Hkey & Hu).
    rewrite list_lookup_fmap, <-lookup_drop in Hkey. destruct (drop _ keypairs !! i) as [kp|]; [|done]. injection Hkey as Hkey.
    exists q, kp. split; [|done]. rewrite Ht, Hq; [done|]. apply up_bound; [|done].
    assert (Hin : k ∈ kept d n s) by (by eapply list_elem_of_lookup_2). by apply elem_of_kept in Hin as [].
Qed.
End joining.

(** ** The committer's path and the others' *)

Section updating.
Context {kdf : OpenMlsCrypto} {crypto : TreeCrypto}.
Implicit Types (c : Ciphersuite) (d : TreeSyncDiff).

(** Hashing ends on every node of the tree. *)
Lemma tree_hash_ends c d fuel k j excluded : (k < fuel)%nat → (k <= 30)%nat → fits (N.of_nat k) j →
  ∃ r, tree_hash_from fuel c d (tree_node (N.of_nat k) j) excluded = Some r.
Proof.
  revert k j. induction fuel as [|fuel IH]; intros k j Hf Hk Hj; [lia|]. cbn [tree_hash_from].
  destruct k as [|k]; [change (tree_node (N.of_nat 0) j) with (treemath.Leaf j); by eexists|].
  replace (N.of_nat (S k)) with (N.of_nat k + 1) in * by lia. rewrite tree_node_S.
  unfold diff.left_child, diff.right_child. rewrite left_node, right_node by (done || lia).
  destruct (IH k (2 * j)) as [r1 ->]; [lia|lia| |].
  { apply (fits_child _ _ false) in Hj. cbn in Hj. by rewrite N.add_0_r in Hj. }
  destruct (IH k (2 * j + 1)) as [r2 ->]; [lia|lia|by apply (fits_child _ _ true) in Hj|].
  destruct r1; [|by eexists]. destruct r2; by eexists.
Qed.

Lemma compute_tree_hashes_ends c d n : stands d n → ∃ r, compute_tree_hashes c d = Some r.
Proof.
  intros Hd. pose proof (stands_max _ _ Hd). unfold compute_tree_hashes, diff.root. rewrite (stands_size _ _ Hd), root_full by lia.
  rewrite <-(N2Nat.id n). apply tree_hash_ends; [lia|lia|]. rewrite N2Nat.id.
  apply (fits_in_tree n); [lia|lia|]. rewrite N.sub_diag. done.
Qed.

Lemma hash_down_ends c d n s ls (nodes : list (N * ParentNode)) h : stands d n → s < 2 ^ n →
  (∀ k, k ∈ ls → N.of_nat k < n) → ∃ r, hash_down c d (zip nodes ((λ k, tree_node (N.of_nat k) (side s k)) <$> ls)) h = Some r.
Proof.
  intros Hd Hs. pose proof (stands_max _ _ Hd). revert nodes h.
  induction ls as [|k ls IH]; intros [|[i p] nodes] h Hin; try (by eexists).
  rewrite fmap_cons. cbn [zip zip_with hash_down]. fold (zip nodes ((λ k, tree_node (N.of_nat k) (side s k)) <$> ls)).
  assert (Hk : N.of_nat k < n) by (apply Hin; by left).
  destruct (tree_hash_ends c d 33 k (side s k) ∅) as [r Hr]; [lia|lia|apply (side_fits n); (lia || done)|].
  unfold compute_tree_hash. rewrite Hr. destruct r as [sibling|]; [|by eexists].
  destruct (compute_parent_hash c (set_parent_hash p h) sibling) as [h'|]; [|by eexists].
  destruct (IH nodes h') as [[[path last]|] ->]; [intros; apply Hin; by right|by eexists..].
Qed.

Lemma process_update_path_ends c d n s path : stands d n → s < 2 ^ n → ∃ r, process_update_path c d s path = Some r.
Proof.
  intros Hd Hs. unfold process_update_path, set_parent_hashes. rewrite (diff_direct_path d n) by done.
  destruct path as [|e path]; [by eexists|]. rewrite (filtered_copath_kept d n) by done.
  destruct (negb _); [by eexists|]. rewrite <-fmap_reverse.
  destruct (hash_down_ends c d n s (reverse (kept d n s)) (reverse (e :: path)) [] Hd Hs) as [[[path' h]|] ->]; [|by eexists..].
  intros k Hk%elem_of_reverse%elem_of_kept. by destruct Hk.
Qed.

(** What the committer's [apply_own_update_path] does to its tree, and what it keeps and sends *)
Record own_update c d n s (random : option bytes) (own : OwnPath) d' (secret : bytes) (path : Path) (leaf : LeafNode)
    (leaf_keypair : EncryptionKeyPair) (keypairs : list EncryptionKeyPair) (h : bytes) (hashed_diff : TreeSyncDiff) : Prop := {
  own_random : random = Some secret;
  own_derive : derive_path c (MkSecret secret) (up s <$> kept d n s)
    = Ok (path, own_plain_path own, keypairs, own_commit_secret own);
  own_processed : process_update_path c d s path = Some (Ok (h, hashed_diff));
  own_diff : d' = diff.replace_leaf hashed_diff s (Some leaf);
  own_pairs : own_keypairs own = leaf_keypair :: keypairs;
  own_leaf_valid : valid c leaf_keypair;
  own_leaf_key : leaf_encryption_key leaf = public_key leaf_keypair;
  own_leaf_hash : leaf_parent_hash leaf = Some h;
  own_repathed : repathed d d' n s (public_key <$> keypairs) (Some leaf);
}.
#[global] Arguments own_random {_ _ _ _ _ _ _ _ _ _ _ _ _ _} _.
#[global] Arguments own_derive {_ _ _ _ _ _ _ _ _ _ _ _ _ _} _.
#[global] Arguments own_processed {_ _ _ _ _ _ _ _ _ _ _ _ _ _} _.
#[global] Arguments own_diff {_ _ _ _ _ _ _ _ _ _ _ _ _ _} _.
#[global] Arguments own_pairs {_ _ _ _ _ _ _ _ _ _ _ _ _ _} _.
#[global] Arguments own_leaf_valid {_ _ _ _ _ _ _ _ _ _ _ _ _ _} _.
#[global] Arguments own_leaf_key {_ _ _ _ _ _ _ _ _ _ _ _ _ _} _.
#[global] Arguments own_leaf_hash {_ _ _ _ _ _ _ _ _ _ _ _ _ _} _.
#[global] Arguments own_repathed {_ _ _ _ _ _ _ _ _ _ _ _ _ _} _.

Lemma derived_path c secret d n s path nodes keypairs last :
  derive_path c secret (up s <$> kept d n s) = Ok (path, nodes, keypairs, last) →
  path = zip (up s <$> kept d n s) (parent_from_key <$> (public_key <$> keypairs)).
Proof.
  intros H. destruct (derive_path_spec _ _ _ _ _ _ _ H) as [H1 H2 _ _ _].
  rewrite <-H1, <-list_fmap_compose. change (parent_from_key ∘ public_key) with (λ kp, parent_from_key (public_key kp)).
  rewrite <-H2. symmetry. apply zip_fst_snd.
Qed.

Lemma apply_own_update_path_spec c d n s random leaf_random caps gid params own d' :
  stands d n → s < 2 ^ n →
  apply_own_update_path c d random leaf_random caps MemberCommit gid s params = Some (Ok (own, d')) →
  ∃ secret path leaf leaf_keypair keypairs h e, own_update c d n s random own d' secret path leaf leaf_keypair keypairs h e.
Proof.
  intros Hd Hs. unfold apply_own_update_path, derive_own_path. rewrite (filtered_direct_path_kept d n) by done.
  destruct random as [secret|]; cbn [secret_random map_err]; [|done].
  destruct (derive_path c (MkSecret secret) (up s <$> kept d n s)) as [[[[path nodes] kps] last]|] eqn:Ed; cbn [map_err]; [|done].
  destruct (process_update_path c d s path) as [[[h d1]|]|] eqn:Ep; cbn [map_err]; [|done..].
  unfold new_with_parent_hash, random_keypair. destruct leaf_random as [b|]; cbn [secret_random map_err]; [|done].
  destruct (derive_hpke_keypair c (secret_value (MkSecret b))) as [kp|] eqn:Ekp; cbn [map_err]; [|done].
  set (payload := MkLeafNodePayload _ _ _ _ _ _). set (tbs := MkLeafNodeTbs _ _).
  destruct (sign_leaf_node tbs) as [signature|]; cbn [ok_or map_err]; [|done]. intros [= <- <-].
  exists secret, path, (MkLeafNode payload signature), kp, kps, h, d1. split; try done.
  - by apply derive_hpke_valid in Ekp.
  - eapply repathed_replace; [|done]. eapply process_update_path_spec; [done..| | |done].
    + by destruct (derive_path_spec _ _ _ _ _ _ _ Ed).
    + destruct (derive_path_spec _ _ _ _ _ _ _ Ed) as [_ -> _ _ _]. by rewrite <-list_fmap_compose.
Qed.

Lemma apply_own_update_path_ends c d n s random leaf_random caps gid params : stands d n → s < 2 ^ n →
  ∃ r, apply_own_update_path c d random leaf_random caps MemberCommit gid s params = Some r.
Proof.
  intros Hd Hs. unfold apply_own_update_path, derive_own_path. rewrite (filtered_direct_path_kept d n) by done.
  destruct random as [secret|]; cbn [secret_random map_err]; [|by eexists].
  destruct (derive_path c (MkSecret secret) (up s <$> kept d n s)) as [[[[path nodes] kps] last]|]; cbn [map_err]; [|by eexists].
  destruct (process_update_path_ends c d n s path Hd Hs) as [[[h d1]|] ->]; cbn [map_err]; [|by eexists].
  destruct (new_with_parent_hash _ _ _ _ _ _) as [[leaf kp]|]; by eexists.
Qed.

(** The others make the same tree of what was sent. *)
Lemma apply_received_update_path_ok c d n s random own d' secret path leaf leaf_keypair keypairs h e nodes :
  stands d n → s < 2 ^ n → full_leaf d s →
  own_update c d n s random own d' secret path leaf leaf_keypair keypairs h e →
  update_public_key <$> nodes = plain_public_key <$> own_plain_path own →
  apply_received_update_path c d s (MkUpdatePath leaf nodes) = Some (Ok d').
Proof.
  intros Hd Hs Hfs [_ Hderive Hp Hd' _ _ _ Hh Hre] Hn. unfold apply_received_update_path. cbn [update_leaf_node update_nodes].
  rewrite bool_decide_eq_true_2 by done. rewrite (stands_leaf_count d n) by done.
  rewrite (proj2 (N.leb_gt _ _)) by done. cbn [negb orb]. rewrite (filtered_direct_path_kept d n) by done.
  pose proof (derived_path _ _ _ _ _ _ _ _ _ Hderive) as Hpath.
  destruct (derive_path_spec _ _ _ _ _ _ _ Hderive) as [_ _ Hpk _ _]. rewrite Hpk in Hn.
  rewrite length_fmap, <-(repathed_length Hre), <-Hn, length_fmap, Nat.eqb_refl. cbn [negb].
  change (λ n, parent_from_key (update_public_key n)) with (parent_from_key ∘ update_public_key).
  rewrite (list_fmap_compose update_public_key parent_from_key), Hn, <-Hpath, Hp.
  rewrite Hh, bool_decide_eq_true_2 by done. by rewrite Hd'.
Qed.
End updating.
