(* ===== verification/MlsCommits.v ===== *)
(** * Commits of an OpenMLS group

    [group/group_context.rs], [group/public_group/diff.rs], [diff/compute_path.rs], the transcript
    hashes of [framing/public_message.rs], and of the commit itself: the middle of
    [CommitBuilder::build_internal] ([mls_group/commit_builder.rs]), from the validated queue to
    the epoch's secrets; [encrypt_group_secrets] ([treesync/treekem.rs]); the staging of another
    member's commit and [merge_commit] ([mls_group/staged_commit.rs]); and what a new member
    makes of its group secrets ([mls_group/creation.rs]).

    [CommitCodec] has the [tls_codec] serialisations and the signatures that are used here.
    Randomness is an argument.  Storage is what it answers: the pre-shared keys, and the key
    pairs of the epoch. *)

From S2P Require Import Prelude MlsTree MlsBinaryTree MlsCrypto MlsTreeSync MlsTreeViews MlsSecretTree MlsPastSecrets.
From S2P Require Import MlsKeySchedule MlsMessages MlsProposals MlsTreeKem MlsTreeKeys.
From stdpp Require Import options.

Local Open Scope N_scope.

(** ** The group context *)

Record GroupContext := MkGroupContext {
  context_version : N;
  context_ciphersuite : Ciphersuite;
  context_group_id : bytes;
  context_epoch : N;
  context_tree_hash : bytes;
  confirmed_transcript_hash : bytes;
  context_extensions : list Extension;
}.

Definition update_tree_hash (g : GroupContext) (new_tree_hash : bytes) : GroupContext :=
  MkGroupContext (context_version g) (context_ciphersuite g) (context_group_id g) (context_epoch g) new_tree_hash
    (confirmed_transcript_hash g) (context_extensions g).

(** [GroupEpoch::increment], on 64 bits *)
Definition increment_epoch (g : GroupContext) : GroupContext :=
  MkGroupContext (context_version g) (context_ciphersuite g) (context_group_id g) ((context_epoch g + 1) `mod` 2 ^ 64)
    (context_tree_hash g) (confirmed_transcript_hash g) (context_extensions g).

Definition set_extensions (g : GroupContext) (extensions : list Extension) : GroupContext :=
  MkGroupContext (context_version g) (context_ciphersuite g) (context_group_id g) (context_epoch g) (context_tree_hash g)
    (confirmed_transcript_hash g) extensions.

Definition with_confirmed (g : GroupContext) (h : bytes) : GroupContext :=
  MkGroupContext (context_version g) (context_ciphersuite g) (context_group_id g) (context_epoch g) (context_tree_hash g)
    h (context_extensions g).

(** ** The commit *)

Inductive ProposalOrRef :=
| ProposalByValue (p : Proposal)
| ProposalByReference (reference : bytes).

Record Commit := MkCommit {
  commit_proposals : list ProposalOrRef;
  commit_path : option UpdatePath;
}.

(** A confirmation tag is its bytes. *)
Abbreviation CommitContent := (FramedContent Proposal Commit) (only parsing).
Abbreviation CommitMessage := (AuthenticatedContent Proposal Commit bytes) (only parsing).

Definition commit_list (q : ProposalQueue) : list ProposalOrRef :=
  (λ p, match proposal_or_ref_type p with
        | ByProposal => ProposalByValue (proposal p)
        | ByReference => ProposalByReference (proposal_reference p)
        end) <$> queued_proposals q.

Definition set_confirmation_tag (m : CommitMessage) (tag : bytes) : CommitMessage :=
  MkAuthenticated (wire_format m) (content m) (MkAuthData (signature (auth m)) (Some tag)).

(** What a welcome says to one new member: [GroupSecrets] and [EncodedGroupSecrets] *)
Record WelcomeSecrets := MkWelcomeSecrets {
  welcome_joiner_secret : Secret;
  welcome_path_secret : option PathSecret;
  welcome_psks : list PreSharedKeyId;
}.

Record EncryptedGroupSecrets := MkEncryptedGroupSecrets { new_member : bytes; encrypted_group_secrets : HpkeCiphertext }.

Record RequiredCapabilities := MkRequiredCapabilities {
  required_extensions : list N;
  required_proposals : list N;
  required_credentials : list N;
}.

Class CommitCodec := {
  tls_group_context : GroupContext → option bytes;
  (** wire format, content and signature of a commit *)
  tls_confirmed_transcript_hash_input : WireFormat → CommitContent → bytes → option bytes;
  tls_interim_transcript_hash_input : bytes → option bytes;
  tls_group_secrets : TlsCodec WelcomeSecrets;
  tls_key_package : KeyPackage → option bytes;
  (** label and value *)
  tls_hash_reference_input : bytes → bytes → option bytes;
  (** the content of the required capabilities extension *)
  decode_required_capabilities : bytes → RequiredCapabilities;
  (** [FramedContentTbs] with the context of the group, signed *)
  sign_content : WireFormat → CommitContent → bytes → option bytes;
}.

(** ** Errors *)

Inductive LeafNodeValidationError := UnsupportedExtensions | UnsupportedProposals | UnsupportedCredentials.

Inductive CreateCommitError :=
| CreateLibraryError (e : LibraryError)
| CannotRemoveSelf
| CreatePskError (e : PskError)
| CreateAddLeaf (e : TreeSyncAddLeaf)
| InvalidLeafNodeParameters
| LeafNodeValidation (e : LeafNodeValidationError).

Inductive StageCommitError :=
| StageLibraryError (e : LibraryError)
| RequiredPathNotFound
| ConfirmationTagMissing
| ConfirmationTagMismatch
| StagePskError (e : PskError)
| UpdatePathError (e : ApplyUpdatePathError).

Inductive WelcomeError :=
| WelcomeLibraryError (e : LibraryError)
| WelcomePskError (e : PskError)
| WelcomeConfirmationTagMismatch
| WelcomePublicKeyMismatch.

(** ** [LeafNodeParameters] *)

Record LeafNodeParameters := MkLeafNodeParameters {
  parameters_credential_with_key : option CredentialWithKey;
  parameters_capabilities : option Capabilities;
  parameters_extensions : option (list Extension);
}.

Definition parameters_is_empty (p : LeafNodeParameters) : bool :=
  bool_decide (parameters_credential_with_key p = None) && bool_decide (parameters_capabilities p = None)
  && bool_decide (parameters_extensions p = None).

Definition set_credential_with_key (p : LeafNodeParameters) (c : CredentialWithKey) : LeafNodeParameters :=
  MkLeafNodeParameters (Some c) (parameters_capabilities p) (parameters_extensions p).

#[export] Instance credential_with_key_eq_dec : EqDecision CredentialWithKey.
Proof.
  assert (EqDecision Credential) by solve_decision. solve_decision.
Defined.

(** ** What a leaf supports *)

Definition extension_is_default (extension_type : N) : bool := existsb (N.eqb extension_type) [1; 2; 3; 4; 5].
Definition proposal_is_default (proposal_type : N) : bool := existsb (N.eqb proposal_type) [1; 2; 3; 4; 5; 6; 7].

Definition contains_extension (c : Capabilities) (extension_type : N) : bool :=
  extension_is_default extension_type || existsb (N.eqb extension_type) (capable_extensions c).
Definition contains_proposal (c : Capabilities) (proposal_type : N) : bool :=
  proposal_is_default proposal_type || existsb (N.eqb proposal_type) (proposals c).
Definition contains_credential (c : Capabilities) (credential_type : N) : bool :=
  existsb (N.eqb credential_type) (credentials c).

Definition supports_required_capabilities (c : Capabilities) (required : RequiredCapabilities) :
    result LeafNodeValidationError () :=
  if existsb (λ e, negb (contains_extension c e)) (required_extensions required) then Err UnsupportedExtensions
  else if existsb (λ p, negb (contains_proposal c p)) (required_proposals required) then Err UnsupportedProposals
  else if existsb (λ t, negb (contains_credential c t)) (required_credentials required) then Err UnsupportedCredentials
  else Ok ().

Definition supports_extension (l : LeafNode) (extension_type : N) : bool :=
  contains_extension (capabilities (payload l)) extension_type.

(** ** The group's public state *)

Record PublicGroup := MkPublicGroup {
  treesync : TreeSync;
  group_context : GroupContext;
  interim_transcript_hash : bytes;
  group_confirmation_tag : bytes;
}.

Record PublicGroupDiff := MkPublicGroupDiff {
  tree_diff : TreeSyncDiff;
  diff_context : GroupContext;
  diff_interim_transcript_hash : bytes;
  diff_confirmation_tag : bytes;
}.

Record StagedPublicGroupDiff := MkStagedPublicGroupDiff {
  staged_tree : StagedTreeSyncDiff;
  staged_context : GroupContext;
  staged_interim_transcript_hash : bytes;
  staged_confirmation_tag : bytes;
}.

Definition with_tree (g : PublicGroupDiff) (d : TreeSyncDiff) : PublicGroupDiff :=
  MkPublicGroupDiff d (diff_context g) (diff_interim_transcript_hash g) (diff_confirmation_tag g).
Definition with_context (g : PublicGroupDiff) (c : GroupContext) : PublicGroupDiff :=
  MkPublicGroupDiff (tree_diff g) c (diff_interim_transcript_hash g) (diff_confirmation_tag g).

(** [PublicGroup::empty_diff] *)
Definition public_empty_diff (g : PublicGroup) : PublicGroupDiff :=
  MkPublicGroupDiff (empty_diff (sync_tree (treesync g))) (group_context g) (interim_transcript_hash g) (group_confirmation_tag g).

(** [PublicGroup::merge_diff] *)
Definition merge_public_group (g : PublicGroup) (s : StagedPublicGroupDiff) : PublicGroup :=
  MkPublicGroup (merge_tree_sync (treesync g) (staged_tree s)) (staged_context s) (staged_interim_transcript_hash s)
    (staged_confirmation_tag s).

(** The values of an [Update], a commit's path or none *)
Record PathComputationResult := MkPathComputationResult {
  commit_secret : option CommitSecret;
  encrypted_path : option UpdatePath;
  plain_path : option (list PlainUpdatePathNode);
  new_keypairs : list EncryptionKeyPair;
}.

Definition no_path : PathComputationResult := MkPathComputationResult None None None [].

(** What [random_vec] answers, and the randomness of the encapsulations *)
Record CommitRandomness := MkCommitRandomness {
  path_random : option bytes;
  leaf_random : option bytes;
  seal_coins : nat → nat → bytes;
}.

(** The stage of a [CommitBuilder] as far as it bears on the epoch; [filter_proposals] says
    whether the queue contained own updates. *)
Record CommitParameters := MkCommitParameters {
  contains_own_updates : bool;
  force_self_update : bool;
  leaf_node_parameters : LeafNodeParameters;
  new_signer : option CredentialWithKey;
  loaded_psks : list (PreSharedKeyId * Secret);
  external_credential : option CredentialWithKey;
  framing_aad : bytes;
  framing_wire_format : WireFormat;
}.

Record MemberStagedCommitState := MkMemberStagedCommitState {
  staged_epoch_secrets : GroupEpochSecrets;
  staged_message_secrets : MessageSecrets;
  staged_public : StagedPublicGroupDiff;
  staged_new_keypairs : list EncryptionKeyPair;
  new_leaf_keypair_option : option EncryptionKeyPair;
  update_path_leaf_node : option LeafNode;
}.

Inductive StagedCommitState :=
| PublicState (staged_diff : StagedPublicGroupDiff) (update_path_leaf_node : option LeafNode)
| GroupMember (s : MemberStagedCommitState).

Record CommitResult := MkCommitResult {
  result_commit : CommitMessage;
  result_values : ApplyProposalsValues;
  result_path : PathComputationResult;
  result_joiner_secret : Secret;
  result_welcome_secret : Secret;
  result_diff : PublicGroupDiff;
  result_staged : MemberStagedCommitState;
}.

(** An [MlsGroup] and what its storage holds for it *)
Record MlsGroup := MkMlsGroup {
  public_group : PublicGroup;
  own_leaf_index : treemath.LeafNodeIndex;
  group_epoch_secrets : GroupEpochSecrets;
  secrets_store : MessageSecretsStore;
  resumption_psk_store : ResumptionPskStore;
  psk_storage : Psk → option Secret;
  epoch_keypairs : list EncryptionKeyPair;
}.

(** [TreeSync::owned_encryption_keys] *)
Definition owned_encryption_keys (t : TreeSync) (leaf_index : treemath.LeafNodeIndex) : option (list EncryptionKey) :=
  encryption_keys (empty_diff (sync_tree t)) leaf_index.

(** [full_leaf_members]; a credential by its content, as [MlsPastSecrets.v] has it *)
Definition full_leaf_members (t : MlsTree) : list MlsPastSecrets.Member :=
  omap (λ e, match e.2 with
    | Some l => Some (MkMember e.1 (credential_content (credential (payload l))) (leaf_encryption_key l)
                        (signature_key (payload l)))
    | None => None
    end) (tree.leaves t).

(** Fallible steps of functions with loops *)
Definition lift_err {E F A} (f : E → F) (r : option (result E A)) : option (result F A) := map_err f <$> r.

Section commits.
Context {kdf : OpenMlsCrypto} {schedule : ScheduleCrypto} {crypto : TreeCrypto} {codec : CommitCodec}.
Implicit Types c : Ciphersuite.

(** ** Transcript hashes *)

Definition update_confirmed_transcript_hash (g : PublicGroupDiff) (m : CommitMessage) : result LibraryError PublicGroupDiff :=
  if bool_decide (content_type (body (content m)) ≠ MlsMessages.CommitType)
  then Err (CustomError "PublicMessage did not contain a commit")
  else
    let? serialized <- ok_or (tls_confirmed_transcript_hash_input (wire_format m) (content m) (signature (auth m)))
      MissingBoundCheck in
    let? h <- ok_or (crypto_hash (hash_algorithm (context_ciphersuite (diff_context g)))
      (diff_interim_transcript_hash g ++ serialized)) UnexpectedCryptoError in
    Ok (with_context g (with_confirmed (diff_context g) h)).

Definition update_interim_transcript_hash (g : PublicGroupDiff) c (confirmation_tag : bytes) : result LibraryError PublicGroupDiff :=
  let? serialized <- ok_or (tls_interim_transcript_hash_input confirmation_tag) MissingBoundCheck in
  let? h <- ok_or (crypto_hash (hash_algorithm c) (confirmed_transcript_hash (diff_context g) ++ serialized))
    UnexpectedCryptoError in
  Ok (MkPublicGroupDiff (tree_diff g) (diff_context g) h confirmation_tag).

Definition update_group_context (g : PublicGroupDiff) (extensions : option (list Extension)) : option (result LibraryError PublicGroupDiff) :=
  let!? new_tree_hash <- compute_tree_hashes (context_ciphersuite (diff_context g)) (tree_diff g) in
  let context := increment_epoch (update_tree_hash (diff_context g) new_tree_hash) in
  let context := match extensions with Some extensions => set_extensions context extensions | None => context end in
  Some (Ok (with_context g context)).

Definition public_into_staged_diff (g : PublicGroupDiff) c : option (result LibraryError StagedPublicGroupDiff) :=
  let!? staged <- into_staged_diff c (tree_diff g) in
  Some (Ok (MkStagedPublicGroupDiff staged (diff_context g) (diff_interim_transcript_hash g) (diff_confirmation_tag g))).

Definition serialized_context (g : PublicGroupDiff) : result LibraryError bytes := ok_or (tls_group_context (diff_context g)) MissingBoundCheck.

(** ** [compute_path] *)

Definition own_leaf_params (g : PublicGroupDiff) (leaf_index : treemath.LeafNodeIndex) (commit_type : CommitType) (default_capabilities : Capabilities)
    (p : LeafNodeParameters) : result CreateCommitError UpdateLeafNodeParams :=
  match commit_type with
  | ExternalCommit credential_with_key =>
      Ok (MkUpdateLeafNodeParams credential_with_key (default default_capabilities (parameters_capabilities p))
        (default [] (parameters_extensions p)))
  | MemberCommit =>
      let? leaf <- ok_or (diff.leaf (tree_diff g) leaf_index) (CreateLibraryError (CustomError "Couldn't find own leaf")) in
      Ok (MkUpdateLeafNodeParams
        (default (MkCredentialWithKey (credential (payload leaf)) (signature_key (payload leaf))) (parameters_credential_with_key p))
        (default (capabilities (payload leaf)) (parameters_capabilities p))
        (default (extensions (payload leaf)) (parameters_extensions p)))
  end.

Definition compute_path (g : PublicGroupDiff) (random : CommitRandomness) (leaf_index : treemath.LeafNodeIndex)
    (exclusion_list : gset treemath.LeafNodeIndex) (commit_type : CommitType) (default_capabilities : Capabilities)
    (leaf_node_params : LeafNodeParameters) (gc_extensions : option (list Extension)) :
    option (result CreateCommitError (PathComputationResult * PublicGroupDiff)) :=
  let c := context_ciphersuite (diff_context g) in
  let!? leaf_node_params <- Some (own_leaf_params g leaf_index commit_type default_capabilities leaf_node_params) in
  let!? (own, d) <- lift_err CreateAddLeaf (apply_own_update_path c (tree_diff g) (path_random random) (leaf_random random)
    default_capabilities commit_type (context_group_id (diff_context g)) leaf_index leaf_node_params) in
  let!? g <- lift_err CreateLibraryError (update_group_context (with_tree g d) gc_extensions) in
  let!? serialized_group_context <- Some (map_err CreateLibraryError (serialized_context g)) in
  let!? encrypted_path <- lift_err CreateLibraryError (encrypt_path c (tree_diff g) (seal_coins random) (own_plain_path own)
    serialized_group_context exclusion_list leaf_index) in
  let!? leaf_node <- Some (ok_or (diff.leaf (tree_diff g) leaf_index)
    (CreateLibraryError (CustomError "Couldn't find own leaf"))) in
  Some (Ok (MkPathComputationResult (Some (own_commit_secret own)) (Some (MkUpdatePath leaf_node encrypted_path))
    (Some (own_plain_path own)) (own_keypairs own), g)).

(** ** The committer *)

(** The leaf of the path supports what the new context asks for. *)
Definition check_path_leaf (g : PublicGroupDiff) (leaf_node : LeafNode) : result LeafNodeValidationError () :=
  let extensions := context_extensions (diff_context g) in
  if negb (forallb (λ e, supports_extension leaf_node e.1) extensions) then Err UnsupportedExtensions
  else
    match head (filter (λ e, e.1 = 3) extensions) with
    | Some e => supports_required_capabilities (capabilities (payload leaf_node)) (decode_required_capabilities e.2)
    | None => Ok ()
    end.

(** [AuthenticatedContent::commit], by a member or a new member, signed with the context of the
    old epoch *)
Definition commit_content (p : CommitParameters) (sender : Sender) (commit : Commit) (context : GroupContext) :
    result LibraryError CommitMessage :=
  let content := MkFramedContent (context_group_id context) (context_epoch context) sender (framing_aad p) (CommitBody commit) in
  let wire_format :=
    match external_credential p with Some _ => PublicMessageFormat | None => framing_wire_format p end in
  let? serialized_context <- ok_or (tls_group_context context) MissingBoundCheck in
  let? signature <- ok_or (sign_content wire_format content serialized_context) (CustomError "Signing failed") in
  Ok (MkAuthenticated wire_format content (MkAuthData signature None)).

Definition wrong_state {A} (r : result KeyScheduleError A) : result LibraryError A :=
  map_err (λ _, CustomError "Using the key schedule in the wrong state") r.

(** The epoch after a commit: the commit with its tag, the joiner secret, the welcome secret and
    the secrets *)
Definition schedule_epoch (group : MlsGroup) (g : PublicGroupDiff) (psks : list (PreSharedKeyId * Secret)) (commit_secret : option CommitSecret)
    (m : CommitMessage) :
    result CreateCommitError (CommitMessage * Secret * Secret * EpochSecrets * bytes * PublicGroupDiff) :=
  let c := context_ciphersuite (group_context (public_group group)) in
  let? g <- map_err CreateLibraryError (update_confirmed_transcript_hash g m) in
  let? serialized_provisional_group_context <- map_err CreateLibraryError (serialized_context g) in
  let? joiner <- map_err CreateLibraryError (unexpected (joiner_secret c commit_secret
    (init_secret (group_epoch_secrets group)) serialized_provisional_group_context)) in
  let? psk_secret <- map_err CreatePskError (psk_secret c psks) in
  let? key_schedule <- map_err CreateLibraryError (schedule_init c joiner psk_secret) in
  let? welcome <- map_err CreateLibraryError (wrong_state (schedule_welcome key_schedule c)) in
  let (key_schedule, added) := add_context key_schedule serialized_provisional_group_context in
  let? _ <- map_err CreateLibraryError (wrong_state added) in
  let? secrets <- map_err CreateLibraryError (wrong_state (epoch_secrets key_schedule c).2) in
  let? tag <- map_err CreateLibraryError (unexpected (confirmation_tag_of c (es_confirmation_key secrets)
    (confirmed_transcript_hash (diff_context g)))) in
  let m := set_confirmation_tag m tag in
  let? g <- map_err CreateLibraryError (update_interim_transcript_hash g c tag) in
  Ok (m, joiner, welcome, secrets, serialized_provisional_group_context, g).

(** The path of the commit, or only the new context *)
Definition commit_path_result (group : MlsGroup) (g : PublicGroupDiff) (p : CommitParameters) (random : CommitRandomness)
    (default_capabilities : Capabilities) (values : ApplyProposalsValues) :
    option (result CreateCommitError (PathComputationResult * PublicGroupDiff)) :=
  let own := own_leaf_index group in
  if path_required values || contains_own_updates p || force_self_update p || negb (parameters_is_empty (leaf_node_parameters p))
  then
    let commit_type := match external_credential p with Some credential => ExternalCommit credential | None => MemberCommit end in
    let!? params <- Some
      match new_signer p with
      | Some signer =>
          if match parameters_credential_with_key (leaf_node_parameters p) with
             | Some credential_with_key => negb (bool_decide (credential_with_key = signer))
             | None => false
             end
          then Err InvalidLeafNodeParameters
          else Ok (set_credential_with_key (leaf_node_parameters p) signer)
      | None => Ok (leaf_node_parameters p)
      end in
    compute_path g random own (exclusion_list values) commit_type default_capabilities params (updated_extensions values)
  else
    let!? g <- lift_err CreateLibraryError (update_group_context g (updated_extensions values)) in
    Some (Ok (no_path, g)).

(** [CommitBuilder::build_internal] from the queue that was validated on, without the welcome *)
Definition build_commit (group : MlsGroup) (q : ProposalQueue) (p : CommitParameters) (random : CommitRandomness)
    (default_capabilities : Capabilities) : option (result CreateCommitError CommitResult) :=
  let public := public_group group in
  let own := own_leaf_index group in
  let sender := match external_credential p with Some _ => NewMemberCommit | None => Member own end in
  let g := public_empty_diff public in
  let!? (values, d) <- lift_err CreateLibraryError (apply_proposals (tree_diff g) q (Some own)) in
  let g := with_tree g d in
  if self_removed values && bool_decide (external_credential p = None) then Some (Err CannotRemoveSelf)
  else
    let!? (path, g) <- commit_path_result group g p random default_capabilities values in
    let!? _ <- Some (map_err LeafNodeValidation
      match encrypted_path path with Some path => check_path_leaf g (update_leaf_node path) | None => Ok () end) in
    let commit := MkCommit (commit_list q) (encrypted_path path) in
    let!? m <- Some (map_err CreateLibraryError (commit_content p sender commit (group_context public))) in
    let!? (m, joiner, welcome, secrets, serialized, g) <-
      Some (schedule_epoch group g (loaded_psks p) (commit_secret path) m) in
    let (epoch_secrets, message_secrets) := split_secrets secrets serialized (diff.size (tree_diff g)) own in
    let!? staged <- lift_err CreateLibraryError (public_into_staged_diff g (context_ciphersuite (group_context public))) in
    Some (Ok (MkCommitResult m values path joiner welcome g
      (MkMemberStagedCommitState epoch_secrets message_secrets staged (new_keypairs path) None
        (update_leaf_node <$> encrypted_path path)))).

(** *** Which keys [CommitBuilder::load_psks] loads: those of the builder's own proposals and of the
    whole store *)
Definition builder_psk_ids (own_proposals : list Proposal) (proposal_store : list QueuedProposal) : list PreSharedKeyId :=
  omap as_psk (own_proposals ++ (proposal <$> proposal_store)).

(** *** The welcome *)

(** [KeyPackage::hash_ref] *)
Definition hash_ref (k : KeyPackage) : result LibraryError bytes :=
  let? value <- ok_or (tls_key_package k) MissingBoundCheck in
  let? input <- ok_or (tls_hash_reference_input (String.list_byte_of_string "MLS 1.0 KeyPackage Reference") value)
    UnexpectedCryptoError in
  ok_or (crypto_hash (hash_algorithm (package_ciphersuite (package_payload k))) input) UnexpectedCryptoError.

(** What one new member is told: the secret of the node where its path and the committer's meet *)
Definition welcome_secrets_of (d : TreeSyncDiff) (joiner : Secret) (plain_path_option : option (list PlainUpdatePathNode))
    (presharedkeys : list PreSharedKeyId) (encryptor_leaf_index leaf_index : treemath.LeafNodeIndex) :
    option (result LibraryError WelcomeSecrets) :=
  let!? direct_path_position <- lift_err (λ _, CustomError "Unexpected error in subtree_root_position")
    (subtree_root_position d encryptor_leaf_index leaf_index) in
  let!? path_secret_option <- Some
    match plain_path_option with
    | Some plain_path =>
        let? node <- ok_or (plain_path !! direct_path_position) (CustomError "Invalid plain path") in
        Ok (Some (path_secret node))
    | None => Ok None
    end in
  Some (Ok (MkWelcomeSecrets joiner path_secret_option presharedkeys)).

Definition encrypt_error : LibraryError :=
  CustomError ("Error while encrypting group secrets. This could have really only been a missing bounds check in "
    +:+ "the serialization").

(** [encrypt_group_secrets]; [coins] by the position of the invitation *)
Fixpoint encrypt_group_secrets (d : TreeSyncDiff) (coins : nat → bytes) (joiner : Secret)
    (plain_path_option : option (list PlainUpdatePathNode)) (presharedkeys : list PreSharedKeyId) (encrypted_group_info : bytes)
    (leaf_index : treemath.LeafNodeIndex) (invited_members : list (treemath.LeafNodeIndex * KeyPackage)) :
    option (result LibraryError (list EncryptedGroupSecrets)) :=
  match invited_members with
  | [] => Some (Ok [])
  | (invited, key_package) :: invited_members =>
      let c := package_ciphersuite (package_payload key_package) in
      let!? secrets <- welcome_secrets_of d joiner plain_path_option presharedkeys leaf_index invited in
      let!? group_secrets_bytes <- Some (ok_or (@tls_serialize _ tls_group_secrets secrets) MissingBoundCheck) in
      let!? ciphertext <- Some (map_err (λ _, encrypt_error) (encrypt_with_label c (coins 0%nat)
        (init_key (package_payload key_package)) "Welcome" encrypted_group_info group_secrets_bytes)) in
      let!? reference <- Some (hash_ref key_package) in
      let!? rest <- encrypt_group_secrets d (λ i, coins (S i)) joiner plain_path_option presharedkeys encrypted_group_info
        leaf_index invited_members in
      Some (Ok (MkEncryptedGroupSecrets reference ciphertext :: rest))
  end.

Inductive GroupSecretsError := GroupSecretsDecryptionFailed | GroupSecretsMalformed.

(** [GroupSecrets::try_from_ciphertext] *)
Definition group_secrets_from_ciphertext c (private_key : bytes) (ciphertext : HpkeCiphertext) (context : bytes) :
    result GroupSecretsError WelcomeSecrets :=
  let? plaintext <- map_err (λ _, GroupSecretsDecryptionFailed) (decrypt_with_label c private_key "Welcome" context ciphertext) in
  match @tls_deserialize _ tls_group_secrets plaintext with
  | Some (secrets, []) => Ok secrets
  | _ => Err GroupSecretsMalformed
  end.

(** ** The other members *)

(** [derive_epoch_secrets] *)
Definition derive_epoch_secrets (group : MlsGroup) (values : ApplyProposalsValues) (commit_secret : CommitSecret)
    (serialized_provisional_group_context : bytes) : result StageCommitError EpochSecrets :=
  let c := context_ciphersuite (group_context (public_group group)) in
  let? init <-
    match external_init_proposal_option values with
    | Some kem_output =>
        let? external <- ok_or (crypto_derive_hpke_keypair c (secret_value (external_secret (group_epoch_secrets group))))
          (StageLibraryError UnexpectedCryptoError) in
        map_err StageLibraryError (from_kem_output c (context_version (group_context (public_group group))) external.2 kem_output)
    | None => Ok (init_secret (group_epoch_secrets group))
    end in
  let? joiner <- map_err StageLibraryError (unexpected (joiner_secret c (Some commit_secret) init
    serialized_provisional_group_context)) in
  let? psks <- map_err StagePskError (load_psks (psk_storage group) (resumption_psk_store group) (presharedkeys values)) in
  let? psk_secret <- map_err StagePskError (psk_secret c psks) in
  let? key_schedule <- map_err StageLibraryError (schedule_init c joiner psk_secret) in
  let (key_schedule, added) := add_context key_schedule serialized_provisional_group_context in
  let? _ <- map_err StageLibraryError (wrong_state added) in
  map_err StageLibraryError (wrong_state (epoch_secrets key_schedule c).2).

(** What a member has of a path: the commit secret, the new key pairs and the pair of its own
    update; nothing if it is removed *)
Inductive PathOutcome :=
| PathRemoved
| PathRead (commit_secret : CommitSecret) (new_keypairs : list EncryptionKeyPair)
    (new_leaf_keypair_option : option EncryptionKeyPair).

Definition receive_path (group : MlsGroup) (values : ApplyProposalsValues) (g : PublicGroupDiff) (commit : Commit)
    (sender_index : treemath.LeafNodeIndex) (old_epoch_keypairs leaf_node_keypairs : list EncryptionKeyPair) :
    option (result StageCommitError (PathOutcome * PublicGroupDiff)) :=
  let c := context_ciphersuite (group_context (public_group group)) in
  let own := own_leaf_index group in
  match commit_path commit with
  | Some path =>
      let!? d <- lift_err UpdatePathError (apply_received_update_path c (tree_diff g) sender_index path) in
      let!? g <- lift_err StageLibraryError (update_group_context (with_tree g d) (updated_extensions values)) in
      if self_removed values then Some (Ok (PathRemoved, g))
      else
        let!? serialized <- Some (map_err (λ e, UpdatePathError (PathLibraryError e)) (serialized_context g)) in
        let!? (new_keypairs, commit_secret) <- lift_err UpdatePathError (decrypt_path (context_ciphersuite (diff_context g))
          (tree_diff g) (update_nodes path) sender_index (exclusion_list values) serialized
          (old_epoch_keypairs ++ leaf_node_keypairs) own) in
        let new_leaf_keypair_option :=
          match diff.leaf (tree_diff g) own with
          | Some leaf => head (filter (λ kp, leaf_encryption_key leaf = public_key kp) leaf_node_keypairs)
          | None => None
          end in
        Some (Ok (PathRead commit_secret new_keypairs new_leaf_keypair_option, g))
  | None =>
      if path_required values then Some (Err RequiredPathNotFound)
      else
        let!? g <- lift_err StageLibraryError (update_group_context g (updated_extensions values)) in
        Some (Ok (PathRead (zero_secret c) [] None, g))
  end.

(** [stage_applied_proposal_values]; the check of the tag is not disabled. *)
Definition stage_applied_proposal_values (group : MlsGroup) (values : ApplyProposalsValues) (g : PublicGroupDiff)
    (commit : Commit) (sender_index : treemath.LeafNodeIndex) (m : CommitMessage)
    (old_epoch_keypairs leaf_node_keypairs : list EncryptionKeyPair) : option (result StageCommitError StagedCommitState) :=
  let c := context_ciphersuite (group_context (public_group group)) in
  let leaf := update_leaf_node <$> commit_path commit in
  let!? (outcome, g) <- receive_path group values g commit sender_index old_epoch_keypairs leaf_node_keypairs in
  match outcome with
  | PathRemoved =>
      let!? staged <- lift_err StageLibraryError (public_into_staged_diff g c) in
      Some (Ok (PublicState staged leaf))
  | PathRead commit_secret new_keypairs new_leaf_keypair_option =>
      let!? g <- Some (map_err StageLibraryError (update_confirmed_transcript_hash g m)) in
      let!? received_confirmation_tag <- Some (ok_or (confirmation_tag (auth m)) ConfirmationTagMissing) in
      let!? serialized <- Some (map_err StageLibraryError (serialized_context g)) in
      let!? secrets <- Some (derive_epoch_secrets group values commit_secret serialized) in
      let (epoch_secrets, message_secrets) :=
        split_secrets secrets serialized (diff.size (tree_diff g)) (own_leaf_index group) in
      let!? own_confirmation_tag <- Some (map_err StageLibraryError (unexpected (confirmation_tag_of c
        (confirmation_key message_secrets) (confirmed_transcript_hash (diff_context g))))) in
      if negb (bool_decide (own_confirmation_tag = received_confirmation_tag)) then Some (Err ConfirmationTagMismatch)
      else
        let!? g <- Some (map_err StageLibraryError (update_interim_transcript_hash g c own_confirmation_tag)) in
        let!? staged <- lift_err StageLibraryError (public_into_staged_diff g c) in
        Some (Ok (GroupMember (MkMemberStagedCommitState epoch_secrets message_secrets staged new_keypairs
          new_leaf_keypair_option leaf)))
  end.

(** [MlsGroup::stage_commit] after [validate_commit] *)
Definition stage_commit (group : MlsGroup) (commit : Commit) (q : ProposalQueue) (sender_index : treemath.LeafNodeIndex)
    (m : CommitMessage) (old_epoch_keypairs leaf_node_keypairs : list EncryptionKeyPair) :
    option (result StageCommitError StagedCommitState) :=
  let g := public_empty_diff (public_group group) in
  let!? (values, d) <- lift_err StageLibraryError (apply_proposals (tree_diff g) q (Some (own_leaf_index group))) in
  stage_applied_proposal_values group values (with_tree g d) commit sender_index m old_epoch_keypairs leaf_node_keypairs.

(** ** [merge_commit] *)

(** The secrets are replaced and the tree is merged before the keys are looked at, and stay so
    where they do not suffice.  Storage does not fail; [epoch_keypairs] is what it has under the
    group's epoch. *)
Definition merge_commit (group : MlsGroup) (state : StagedCommitState) : option (MlsGroup * result LibraryError ()) :=
  match state with
  | PublicState staged _ =>
      Some (MkMlsGroup (merge_public_group (public_group group) staged) (own_leaf_index group) (group_epoch_secrets group)
        (secrets_store group) (resumption_psk_store group) (psk_storage group) [], Ok ())
  | GroupMember s =>
      let past_epoch := context_epoch (group_context (public_group group)) in
      let leaves := full_leaf_members (sync_tree (treesync (public_group group))) in
      let! store <- merge_secrets (MkGroupSecrets past_epoch (secrets_store group))
        (context_epoch (staged_context (staged_public s))) (staged_message_secrets s) leaves in
      let public := merge_public_group (public_group group) (staged_public s) in
      let leaf_keypair := match new_leaf_keypair_option s with Some keypair => [keypair] | None => [] end in
      let! new_owned_encryption_keys <- owned_encryption_keys (treesync public) (own_leaf_index group) in
      let keypairs := filter (λ keypair, public_key keypair ∈ new_owned_encryption_keys)
        (epoch_keypairs group ++ staged_new_keypairs s ++ leaf_keypair) in
      let merged keypairs := MkMlsGroup public (own_leaf_index group) (staged_epoch_secrets s)
        (message_secrets_store store) (resumption_psk_store group) (psk_storage group) keypairs in
      if (length new_owned_encryption_keys =? length keypairs)%nat
      then Some (merged keypairs, Ok ())
      else Some (merged [], Err (CustomError "We should have all the private key material we need."))
  end.

(** ** New members *)

(** [ProcessedWelcome::new_from_welcome], from the group secrets to the welcome key *)
Definition process_welcome c (storage : Psk → option Secret) (store : ResumptionPskStore) (secrets : WelcomeSecrets) :
    result WelcomeError (KeySchedule * Secret) :=
  let? _ <- map_err WelcomePskError (validate_in_welcome (welcome_psks secrets) c) in
  let? psks <- map_err WelcomePskError (load_psks storage store (welcome_psks secrets)) in
  let? psk_secret <- map_err WelcomePskError (psk_secret c psks) in
  let? key_schedule <- map_err WelcomeLibraryError (schedule_init c (welcome_joiner_secret secrets) psk_secret) in
  let? welcome <- map_err WelcomeLibraryError (wrong_state (schedule_welcome key_schedule c)) in
  Ok (key_schedule, welcome).

Record StagedWelcome := MkStagedWelcome {
  welcome_public_group : PublicGroup;
  welcome_epoch_secrets : GroupEpochSecrets;
  welcome_message_secrets : MessageSecrets;
  welcome_path_keypairs : option (list EncryptionKeyPair);
}.

(** [into_staged_welcome_inner], from the public group that was made of the group info on *)
Definition stage_welcome c (key_schedule : KeySchedule) (secrets : WelcomeSecrets) (public : PublicGroup)
    (own_leaf_index welcome_sender_index : treemath.LeafNodeIndex) : option (result WelcomeError StagedWelcome) :=
  let!? serialized <- Some (ok_or (tls_group_context (group_context public)) (WelcomeLibraryError MissingBoundCheck)) in
  let (key_schedule, added) := add_context key_schedule serialized in
  let!? _ <- Some (map_err WelcomeLibraryError (wrong_state added)) in
  let!? epoch <- Some (map_err WelcomeLibraryError (wrong_state (epoch_secrets key_schedule c).2)) in
  let (epoch_secrets, message_secrets) :=
    split_secrets epoch serialized (tree.tree_size (sync_tree (treesync public))) own_leaf_index in
  let!? tag <- Some (map_err WelcomeLibraryError (unexpected (confirmation_tag_of c (confirmation_key message_secrets)
    (confirmed_transcript_hash (group_context public))))) in
  if negb (bool_decide (tag = group_confirmation_tag public)) then Some (Err WelcomeConfirmationTagMismatch)
  else
    let!? path_keypairs <-
      match welcome_path_secret secrets with
      | Some path_secret =>
          let!? (path_keypairs, _) <- lift_err (λ e, match e with
              | DeriveLibraryError e => WelcomeLibraryError e
              | PublicKeyMismatch => WelcomePublicKeyMismatch
              end) (derive_path_secrets c (treesync public) path_secret welcome_sender_index own_leaf_index) in
          Some (Ok (Some path_keypairs))
      | None => Some (Ok None)
      end in
    Some (Ok (MkStagedWelcome public epoch_secrets message_secrets path_keypairs)).
End commits.
