(* ===== verification/MlsEpochs.v ===== *)
(** * The members of a group agree on the next epoch

    What the others make of a commit ([stage_commit], [merge_commit], the welcome) against what
    its author made: the same public group, the same secrets, and every member again with the
    private keys that its place in the tree calls for. *)

From S2P Require Import Prelude MlsTree MlsBinaryTree MlsCrypto MlsTreeSync MlsTreeViews MlsRatchets MlsSecretTree MlsPastSecrets.
From S2P Require Import MlsKeySchedule MlsMessages MlsProposals MlsTreeKem MlsTreeKeys MlsCommits.
From stdpp Require Import options.

Local Open Scope N_scope.

(** ** Members and their keys *)

Lemma adding_keeps M ls M' new i l : adding M ls M' new → M !! i = Some l → M' !! i = Some l.
Proof.
  induction 1 as [|M l' ls M' j rest Hn _ _ IH]; [done|]. intros Hi. apply IH.
  rewrite lookup_insert_ne; [done|]. intros ->. congruence.
Qed.

Lemma adding_fresh M ls M' new i : adding M ls M' new → i ∈ new → M !! i = None.
Proof.
  induction 1 as [|M l ls M' j rest Hn _ _ IH]; [by intros ?%elem_of_nil|]. intros [->|Hi]%elem_of_cons; [done|].
  specialize (IH Hi). by apply lookup_insert_None in IH as [].
Qed.

Lemma adding_old M ls M' new i : adding M ls M' new → i ∉ new → M' !! i = M !! i.
Proof.
  induction 1 as [|M l ls M' j rest _ _ _ IH]; [done|]. intros [Hne Hi]%not_elem_of_cons.
  by rewrite IH, lookup_insert_ne.
Qed.

Lemma adding_new M ls M' new j i l : adding M ls M' new → new !! j = Some i → ls !! j = Some l → M' !! i = Some l.
Proof.
  intros H. revert j. induction H as [|M l' ls M' i' rest _ _ Had IH]; intros [|j] Hi Hl; try done.
  - injection Hi as ->. injection Hl as ->. eapply adding_keeps; [done|]. by rewrite lookup_insert_eq.
  - by apply (IH j).
Qed.

Lemma updated_is_some M us i : is_Some (M !! i) → is_Some (updated M us !! i).
Proof.
  unfold updated. revert M. induction us as [|u us IH]; intros M Hi; [done|]. cbn. apply IH.
  destruct (decide (u.1 = i)) as [->|Hne]; [rewrite lookup_insert_eq; by eexists|by rewrite lookup_insert_ne].
Qed.

(** [ring] has the private keys of leaf [i] of [t]. *)
Section keyed.
Context {crypto : TreeCrypto}.

Record keyed (c : Ciphersuite) (t : MlsTree) (n i : N) (ring : list EncryptionKeyPair) : Prop := {
  keyed_valid : Forall (valid c) ring;
  keyed_keys pk : pk ∈ keys_of (empty_diff t) n i → pk ∈ public_key <$> ring;
}.
End keyed.

(** The keys that [merge_commit] keeps are as many as the leaf has, if no two of either coincide. *)
Lemma filter_owned_length (owned : list EncryptionKey) (pairs : list EncryptionKeyPair) :
  NoDup owned → NoDup (public_key <$> pairs) → (∀ pk, pk ∈ owned → pk ∈ public_key <$> pairs) →
  length owned = length (filter (λ kp, public_key kp ∈ owned) pairs).
Proof.
  intros Ho Hp Hin. rewrite <-(length_fmap public_key (filter _ pairs)). apply Permutation_length, NoDup_Permutation; [done| |].
  - revert Hp. clear. induction pairs as [|kp pairs IH]; [done|]. rewrite fmap_cons, NoDup_cons. intros [Hk Hn].
    rewrite filter_cons. case_decide; [|by apply IH]. rewrite fmap_cons. apply NoDup_cons. split; [|by apply IH].
    intros Hin. apply Hk. apply list_elem_of_fmap in Hin as (x & -> & Hx). apply list_elem_of_filter in Hx as [_ Hx].
    apply list_elem_of_fmap. by exists x.
  - intros pk. rewrite list_elem_of_fmap. split.
    + intros Hpk. pose proof (Hin pk Hpk) as (kp & -> & Hkp)%list_elem_of_fmap. exists kp. split; [done|].
      by apply list_elem_of_filter.
    + intros (kp & -> & Hkp). by apply list_elem_of_filter in Hkp as [].
Qed.

(** *** The tree of a commit's path *)

Section tree.
Implicit Types d : TreeSyncDiff.

(** The keys of a leaf in the merged tree are those it has in the diff. *)
Lemma keys_of_merged d n M i : fitting d n M → i < 2 ^ n →
  keys_of (empty_diff (merge_diff (diff.original_tree d) (diff.stage d))) n i = keys_of d n i.
Proof.
  intros Hf Hi. destruct (merged_view d n (fitting_stands _ _ _ Hf)) as (_ & Hl & Hp). apply keys_of_ext; [done| |done].
  apply Hl. done.
Qed.

Lemma fitting_repathed d d' n M s keys l : fitting d n M → s < 2 ^ n → is_Some (M !! s) →
  repathed d d' n s keys (Some l) → fitting d' n (<[s := l]> M).
Proof.
  intros [Hd Ht Hsh Hin Htight] Hs Hm Hp. assert (Hfs : full_leaf d s) by (unfold full_leaf; by rewrite Hsh).
  split.
  - apply (repathed_stands Hp).
  - eapply tidy_repathed; by eauto.
  - intros i. rewrite (repathed_leaf Hp). destruct (decide (i = s)) as [->|Hne].
    + by rewrite lookup_insert_eq.
    + by rewrite lookup_insert_ne.
  - intros i. destruct (decide (i = s)) as [->|Hne]; [done|]. rewrite lookup_insert_ne by done. apply Hin.
  - destruct Htight as [|(i & Hi & Hle)]; [by left|right]. exists i. split; [|done].
    destruct (decide (s = i)) as [->|Hne]; [rewrite lookup_insert_eq; by eexists|by rewrite lookup_insert_ne].
Qed.

(** The author of a path has all its keys. *)
Lemma keys_of_author d d' n s keys l : repathed d d' n s keys (Some l) → s < 2 ^ n → full_leaf d s →
  keys_of d' n s = leaf_encryption_key l :: keys.
Proof.
  intros Hp Hs Hf. unfold keys_of, leaf_keys. rewrite (repathed_leaf Hp), decide_True by done.
  rewrite (above_own d d' n s keys (Some l)); by eauto.
Qed.

(** The others keep theirs below the node where they meet the path. *)
Lemma keys_of_other d d' n s i K keys l : repathed d d' n s keys (Some l) → s < 2 ^ n → full_leaf d s →
  N.of_nat K < n → meet_at s i K → i ≠ s →
  keys_of d' n i = leaf_keys d i ++ omap (key_above d i) (seq 0 K) ++ drop (length (low d K s)) keys.
Proof.
  intros Hp Hs Hf HK Hm Hne. unfold keys_of, leaf_keys. rewrite (repathed_leaf Hp), decide_False by done.
  by rewrite (above_other d d' n s keys (Some l) Hp Hs Hf (ltac:(by eexists)) i K HK Hm).
Qed.

(** After the proposals a member that was there has no more keys above its leaf than before. *)
Lemma keys_after_proposals d d' n m M n' M' new i pk : phase d n m M → fitting d' n' M' → evolves d d' n' new →
  i < 2 ^ n → i < 2 ^ n' → i ∉ new → pk ∈ omap (key_above d' i) (levels n') → pk ∈ keys_of d n i.
Proof.
  intros Hp Hf Hev Hi Hi' Hnew Hpk. unfold keys_of. apply elem_of_app. right.
  eapply sublist_subseteq; [|done]. eapply above_evolves; by eauto.
Qed.
End tree.

(** ** The path, made and read *)

Section paths.
Context {kdf : OpenMlsCrypto} {schedule : ScheduleCrypto} {crypto : TreeCrypto} {codec : CommitCodec}.

Lemma update_group_context_spec g extensions g' : update_group_context g extensions = Some (Ok g') →
  tree_diff g' = tree_diff g ∧ context_ciphersuite (diff_context g') = context_ciphersuite (diff_context g).
Proof.
  unfold update_group_context. destruct (compute_tree_hashes _ _) as [[h|]|]; [|done..]. intros [= <-]. cbn.
  by destruct extensions.
Qed.

(** What [compute_path] of a member did on the way *)
Record computed (g : PublicGroupDiff) (n s : N) (random : CommitRandomness) (excluded : gset N)
    (extensions : option (list Extension)) (res : PathComputationResult) (g' : PublicGroupDiff) (own : OwnPath)
    (leaf : LeafNode) (leaf_keypair : EncryptionKeyPair) (keypairs : list EncryptionKeyPair) (nodes : list UpdatePathNode)
    (serialized : bytes) : Prop := {
  computed_update : ∃ secret path h e, own_update (context_ciphersuite (diff_context g)) (tree_diff g) n s (path_random random)
    own (tree_diff g') secret path leaf leaf_keypair keypairs h e;
  computed_context : update_group_context (with_tree g (tree_diff g')) extensions = Some (Ok g');
  computed_serialized : serialized_context g' = Ok serialized;
  computed_nodes : encrypt_path (context_ciphersuite (diff_context g)) (tree_diff g') (seal_coins random)
    (own_plain_path own) serialized excluded s = Some (Ok nodes);
  computed_result : res = MkPathComputationResult (Some (own_commit_secret own)) (Some (MkUpdatePath leaf nodes))
    (Some (own_plain_path own)) (own_keypairs own);
}.
#[global] Arguments computed_update {_ _ _ _ _ _ _ _ _ _ _ _ _ _} _.
#[global] Arguments computed_context {_ _ _ _ _ _ _ _ _ _ _ _ _ _} _.
#[global] Arguments computed_serialized {_ _ _ _ _ _ _ _ _ _ _ _ _ _} _.
#[global] Arguments computed_nodes {_ _ _ _ _ _ _ _ _ _ _ _ _ _} _.
#[global] Arguments computed_result {_ _ _ _ _ _ _ _ _ _ _ _ _ _} _.

Lemma compute_path_spec g random s excluded dc params extensions n res g' : stands (tree_diff g) n → s < 2 ^ n →
  compute_path g random s excluded MemberCommit dc params extensions = Some (Ok (res, g')) →
  ∃ own leaf leaf_keypair keypairs nodes serialized,
    computed g n s random excluded extensions res g' own leaf leaf_keypair keypairs nodes serialized.
Proof.
  intros Hd Hs. unfold compute_path, lift_err.
  destruct (own_leaf_params g s MemberCommit dc params) as [update|]; [|done].
  destruct (apply_own_update_path _ _ _ _ _ _ _ _ _) as [[[own d']|]|] eqn:Ea; cbn [fmap option_fmap option_map map_err]; [|done..].
  destruct (apply_own_update_path_spec _ _ n _ _ _ _ _ _ _ _ Hd Hs Ea)
    as (secret & path & leaf & leaf_keypair & keypairs & h & e & Hown).
  destruct (update_group_context (with_tree g d') extensions) as [[g1|]|] eqn:Eu; cbn [fmap option_fmap option_map map_err]; [|done..].
  destruct (update_group_context_spec _ _ _ Eu) as [Ht _]. cbn in Ht.
  destruct (serialized_context g1) as [serialized|] eqn:Es; cbn [map_err]; [|done].
  destruct (encrypt_path _ _ _ _ _ _ _) as [[nodes|]|] eqn:En; cbn [fmap option_fmap option_map map_err]; [|done..].
  pose proof (repathed_leaf (own_repathed Hown) s) as Hl.
  rewrite decide_True in Hl by done. rewrite Ht, Hl. cbn [ok_or]. intros [= <- <-].
  exists own, leaf, leaf_keypair, keypairs, nodes, serialized. split; rewrite ?Ht; try done; [by exists secret, path, h, e|by rewrite <-Ht].
Qed.

Context {laws : TreeLaws}.

(** The key pair of an own update that was applied *)
Definition own_leaf_keypair (d : TreeSyncDiff) (i : N) (leafs : list EncryptionKeyPair) : option EncryptionKeyPair :=
  match diff.leaf d i with
  | Some leaf => head (filter (λ kp, leaf_encryption_key leaf = public_key kp) leafs)
  | None => None
  end.

Definition option_list {A} (o : option A) : list A := match o with Some x => [x] | None => [] end.

(** The leaf's key is among the pairs of the old epoch, or its own update's is taken over. *)
Lemma own_leaf_keypair_key (d : TreeSyncDiff) i old leafs pk : pk ∈ leaf_keys d i → pk ∈ public_key <$> (old ++ leafs) →
  pk ∈ public_key <$> (old ++ option_list (own_leaf_keypair d i leafs)).
Proof using Type.
  unfold leaf_keys, own_leaf_keypair. destruct (diff.leaf d i) as [leaf|]; [|by intros ?%elem_of_nil].
  intros ->%list_elem_of_singleton. rewrite !fmap_app, !elem_of_app. intros [|Hin]; [by left|right].
  apply list_elem_of_fmap in Hin as (kp & Ek & Hkp). destruct (filter _ leafs) as [|x l] eqn:Ef.
  - assert (Hf : kp ∈ filter (λ kp, leaf_encryption_key leaf = public_key kp) leafs) by (by apply list_elem_of_filter).
    rewrite Ef in Hf. by apply elem_of_nil in Hf.
  - assert (Hx : x ∈ filter (λ kp, leaf_encryption_key leaf = public_key kp) leafs) by (rewrite Ef; by left).
    apply list_elem_of_filter in Hx as [-> _]. cbn. by left.
Qed.

Section reader.
Context (b : MlsGroup) (values : ApplyProposalsValues) (g g' : PublicGroupDiff) (n s : N) (M : gmap N LeafNode).
Context (random : CommitRandomness) (res : PathComputationResult) (own : OwnPath) (leaf : LeafNode).
Context (leaf_keypair : EncryptionKeyPair) (keypairs : list EncryptionKeyPair) (nodes : list UpdatePathNode) (serialized : bytes).
Context (old leafs : list EncryptionKeyPair).
Hypotheses (Hf : fitting (tree_diff g) n M) (Hs : is_Some (M !! s)).
Hypotheses (Hcomputed : computed g n s random (exclusion_list values) (updated_extensions values) res g' own leaf leaf_keypair
  keypairs nodes serialized).
Hypotheses (Hc : context_ciphersuite (group_context (public_group b)) = context_ciphersuite (diff_context g)).

Lemma sender_in : s < 2 ^ n.
Proof using Hf Hs. by apply (fitting_inside _ _ _ Hf). Qed.

Lemma sender_full : full_leaf (tree_diff g) s.
Proof using Hf Hs. unfold full_leaf. by rewrite (fitting_shows _ _ _ Hf). Qed.

(** Everybody applies the path alike. *)
Lemma received_alike : lift_err UpdatePathError (apply_received_update_path (context_ciphersuite (group_context (public_group b)))
  (tree_diff g) s (MkUpdatePath leaf nodes)) = Some (Ok (tree_diff g')).
Proof using Hf Hs Hcomputed Hc.
  destruct Hcomputed as [(secret & path & h & e & Hown) _ _ Hn _]. unfold lift_err. rewrite Hc.
  erewrite (apply_received_update_path_ok _ _ n); try done; [apply Hf|apply sender_in|apply sender_full|].
  pose proof (own_repathed Hown) as Hre.
  destruct (derive_path_spec _ _ _ _ _ _ _ (own_derive Hown)) as [_ _ Hpk Hl _].
  apply (encrypt_path_spec _ (tree_diff g') n s) in Hn as [Hn _]; [done|apply (repathed_stands Hre)|apply sender_in|].
  erewrite repathed_kept; [|done|apply sender_in|apply sender_full|by eexists].
  by rewrite <-(length_fmap plain_public_key), Hpk, length_fmap, Hl, length_fmap.
Qed.

Lemma removed_reads ps : self_removed values = true →
  receive_path b values g (MkCommit ps (encrypted_path res)) s old leafs
    = Some (Ok (PathRemoved, g')).
Proof using Hf Hs Hcomputed Hc.
  intros Hr. unfold receive_path. rewrite (computed_result Hcomputed). cbn [commit_path encrypted_path].
  rewrite received_alike. rewrite (computed_context Hcomputed).
  cbn [lift_err fmap option_fmap option_map map_err]. by rewrite Hr.
Qed.
(** A member that has its keys reads the commit secret, and then has those of the new tree. *)
Lemma member_reads ps i : own_leaf_index b = i → i ≠ s → is_Some (M !! i) → i ∉ exclusion_list values →
  self_removed values = false → Forall (valid (context_ciphersuite (diff_context g))) (old ++ leafs) →
  (∀ pk, pk ∈ leaf_keys (tree_diff g) i → pk ∈ public_key <$> (old ++ leafs)) →
  (∀ pk, pk ∈ omap (key_above (tree_diff g) i) (levels n) → pk ∈ public_key <$> old) →
  ∃ new, receive_path b values g (MkCommit ps (encrypted_path res)) s old leafs
      = Some (Ok (PathRead (own_commit_secret own) new (own_leaf_keypair (tree_diff g') i leafs), g')) ∧
    Forall (valid (context_ciphersuite (diff_context g))) new ∧
    ∀ pk, pk ∈ keys_of (tree_diff g') n i →
      pk ∈ public_key <$> (old ++ new ++ option_list (own_leaf_keypair (tree_diff g') i leafs)).
Proof using Type*.
  intros Hown Hne Hi Hex Hr Hv Hleaf Habove. pose proof received_alike as Halike. pose proof sender_in as Hs'.
  pose proof sender_full as Hsf. destruct Hcomputed as [(secret & path & h & e & Hupdate) Hcontext Hser Hnodes Hres].
  pose proof (own_repathed Hupdate) as Hre.
  pose proof (own_derive Hupdate) as Hderive.
  pose proof (fitting_inside _ _ _ Hf i Hi) as Hi'.
  assert (Hif : full_leaf (tree_diff g) i) by (unfold full_leaf; by rewrite (fitting_shows _ _ _ Hf)).
  destruct (meet_exists n s i Hs' Hi' ltac:(congruence)) as (K & HK & Hm).
  destruct (update_group_context_spec _ _ _ Hcontext) as [_ Hc'].
  assert (Hlk : leaf_keys (tree_diff g') i = leaf_keys (tree_diff g) i).
  { unfold leaf_keys. by rewrite (repathed_leaf Hre), decide_False. }
  assert (Hlow : ∀ pk, pk ∈ omap (key_above (tree_diff g) i) (seq 0 K) → pk ∈ public_key <$> old).
  { intros pk Hpk. apply Habove. apply list_elem_of_omap in Hpk as (k & Hk%elem_of_seq & E). apply list_elem_of_omap.
    exists k. split; [apply elem_of_levels; lia|done]. }
  exists (drop (length (low (tree_diff g) K s)) keypairs). split; [|split].
  - unfold receive_path. rewrite Hres. cbn [commit_path encrypted_path update_nodes]. rewrite Halike, Hcontext.
    cbn [lift_err fmap option_fmap option_map map_err]. rewrite Hr, Hser. cbn [map_err]. rewrite Hc', Hown.
    erewrite (decrypt_path_ok _ (tree_diff g) (tree_diff g') n s i K (Some leaf)); try done; [apply Hf|].
    intros pk. rewrite Hlk, !elem_of_app. intros [Hpk|Hpk]; [by apply Hleaf|].
    rewrite fmap_app. apply elem_of_app. left. by apply Hlow.
  - apply Forall_drop. by destruct (derive_path_spec _ _ _ _ _ _ _ Hderive).
  - intros pk. rewrite (keys_of_other (tree_diff g) (tree_diff g') n s i K _ leaf) by done. rewrite !elem_of_app. intros [Hpk|[Hpk|Hpk]].
    + pose proof (own_leaf_keypair_key (tree_diff g') i old leafs pk) as Hkp. rewrite Hlk in Hkp.
      specialize (Hkp Hpk (Hleaf pk Hpk)). rewrite fmap_app, elem_of_app in Hkp. rewrite !fmap_app, !elem_of_app. tauto.
    + rewrite fmap_app, elem_of_app. left. by apply Hlow.
    + rewrite !fmap_app, !elem_of_app. right. left. by rewrite fmap_drop.
Qed.
End reader.
End paths.

(** ** The commit and the epoch after it *)

Section epochs.
Context {kdf : OpenMlsCrypto} {schedule : ScheduleCrypto} {crypto : TreeCrypto} {codec : CommitCodec} {laws : TreeLaws}.

Definition group_tree_of (g : MlsGroup) : MlsTree := sync_tree (treesync (public_group g)).
Definition ciphersuite_of (g : MlsGroup) : Ciphersuite := context_ciphersuite (group_context (public_group g)).

Definition external_init_of (q : ProposalQueue) : option bytes :=
  head (omap (λ p, match proposal p with ExternalInit kem_output => Some kem_output | _ => None end) (queued_proposals q)).
Definition psks_of (q : ProposalQueue) : list PreSharedKeyId := omap (as_psk ∘ proposal) (queued_proposals q).

(** What the author derives, another member with the same secrets and keys derives. *)
Lemma schedule_epoch_spec a g psks cs m m' joiner welcome secrets serialized g' :
  schedule_epoch a g psks cs m = Ok (m', joiner, welcome, secrets, serialized, g') →
  ∃ g1 tag, update_confirmed_transcript_hash g m = Ok g1 ∧ serialized_context g1 = Ok serialized ∧
    confirmation_tag_of (ciphersuite_of a) (es_confirmation_key secrets) (confirmed_transcript_hash (diff_context g1)) = Ok tag ∧
    m' = set_confirmation_tag m tag ∧ update_interim_transcript_hash g1 (ciphersuite_of a) tag = Ok g' ∧
    unexpected (joiner_secret (ciphersuite_of a) cs (init_secret (group_epoch_secrets a)) serialized) = Ok joiner ∧
    ∃ psk, psk_secret (ciphersuite_of a) psks = Ok psk ∧
      epoch_of (ciphersuite_of a) joiner psk serialized = Ok (welcome, secrets).
Proof.
  unfold schedule_epoch. fold (ciphersuite_of a). set (c := ciphersuite_of a).
  destruct (update_confirmed_transcript_hash g m) as [g1|]; cbn [map_err]; [|done].
  destruct (serialized_context g1) as [ser|] eqn:Es; cbn [map_err]; [|done].
  destruct (unexpected (joiner_secret c cs _ ser)) as [j|] eqn:Ej; cbn [map_err]; [|done].
  destruct (psk_secret c psks) as [psk|] eqn:Ek; cbn [map_err]; [|done].
  destruct (schedule_init c j psk) as [k|] eqn:Ei; cbn [map_err]; [|done].
  destruct (schedule_welcome k c) as [w|] eqn:Ew; cbn [wrong_state map_err]; [|done].
  destruct (add_context k ser) as [k1 [[]|]] eqn:Ea; cbn [wrong_state map_err]; [|done].
  destruct (epoch_secrets k1 c) as [k2 [es|]] eqn:Ees; cbn [snd wrong_state map_err]; [|done].
  destruct (confirmation_tag_of c (es_confirmation_key es) _) as [tag|] eqn:Et; cbn [unexpected map_err]; [|done].
  destruct (update_interim_transcript_hash g1 c tag) as [g2|] eqn:Eg; cbn [map_err]; [|done].
  intros [= <- <- <- <- <- <-]. exists g1, tag. do 6 (split; [done|]). exists psk. split; [done|].
  by apply (schedule_answers _ _ _ _ k w k1 k2).
Qed.

Lemma joiner_default c cs init serialized :
  joiner_secret c (Some (default (zero_secret c) cs)) init serialized = joiner_secret c cs init serialized.
Proof. by destruct cs. Qed.

Lemma derive_epoch_secrets_ok a b values cs joiner welcome psks psk secrets serialized :
  public_group b = public_group a → group_epoch_secrets b = group_epoch_secrets a →
  external_init_proposal_option values = None →
  load_psks (psk_storage b) (resumption_psk_store b) (presharedkeys values) = Ok psks →
  unexpected (joiner_secret (ciphersuite_of a) cs (init_secret (group_epoch_secrets a)) serialized) = Ok joiner →
  psk_secret (ciphersuite_of a) psks = Ok psk → epoch_of (ciphersuite_of a) joiner psk serialized = Ok (welcome, secrets) →
  derive_epoch_secrets b values (default (zero_secret (ciphersuite_of a)) cs) serialized = Ok secrets.
Proof.
  intros Hp Hs He Hl Hj Hk Ho. unfold derive_epoch_secrets. rewrite Hp, Hs, He. fold (ciphersuite_of a).
  rewrite joiner_default, Hj. cbn [map_err]. rewrite Hl. cbn [map_err]. rewrite Hk. cbn [map_err].
  destruct (schedule_in_order _ _ _ _ _ _ Ho) as (k & k1 & k2 & -> & _ & Ea & Ee). cbn [map_err]. rewrite Ea. cbn [wrong_state map_err].
  by rewrite Ee.
Qed.

(** *** What [build_commit] went through *)
Record built (a : MlsGroup) (q : ProposalQueue) (p : CommitParameters) (random : CommitRandomness) (dc : Capabilities)
    (r : CommitResult) (d : TreeSyncDiff) (g : PublicGroupDiff) (m : CommitMessage) (secrets : EpochSecrets)
    (serialized : bytes) (staged : StagedPublicGroupDiff) : Prop := {
  built_values : apply_proposals (empty_diff (group_tree_of a)) q (Some (own_leaf_index a)) = Some (Ok (result_values r, d));
  built_stays : self_removed (result_values r) = false;
  built_path : commit_path_result a (with_tree (public_empty_diff (public_group a)) d) p random dc (result_values r)
    = Some (Ok (result_path r, g));
  built_content : commit_content p (Member (own_leaf_index a)) (MkCommit (commit_list q) (encrypted_path (result_path r)))
    (group_context (public_group a)) = Ok m;
  built_schedule : schedule_epoch a g (loaded_psks p) (commit_secret (result_path r)) m
    = Ok (result_commit r, result_joiner_secret r, result_welcome_secret r, secrets, serialized, result_diff r);
  built_staged : public_into_staged_diff (result_diff r) (ciphersuite_of a) = Some (Ok staged);
  built_result : result_staged r =
    let (epoch_secrets, message_secrets) :=
      split_secrets secrets serialized (diff.size (tree_diff (result_diff r))) (own_leaf_index a) in
    MkMemberStagedCommitState epoch_secrets message_secrets staged (new_keypairs (result_path r)) None
      (update_leaf_node <$> encrypted_path (result_path r));
}.
#[global] Arguments built_values {_ _ _ _ _ _ _ _ _ _ _ _} _.
#[global] Arguments built_stays {_ _ _ _ _ _ _ _ _ _ _ _} _.
#[global] Arguments built_path {_ _ _ _ _ _ _ _ _ _ _ _} _.
#[global] Arguments built_content {_ _ _ _ _ _ _ _ _ _ _ _} _.
#[global] Arguments built_schedule {_ _ _ _ _ _ _ _ _ _ _ _} _.
#[global] Arguments built_staged {_ _ _ _ _ _ _ _ _ _ _ _} _.
#[global] Arguments built_result {_ _ _ _ _ _ _ _ _ _ _ _} _.

Lemma build_commit_spec a q p random dc r : external_credential p = None → build_commit a q p random dc = Some (Ok r) →
  ∃ d g m secrets serialized staged, built a q p random dc r d g m secrets serialized staged.
Proof.
  intros He. unfold build_commit. rewrite He. cbn [public_empty_diff tree_diff]. fold (group_tree_of a).
  destruct (apply_proposals _ q _) as [[[values d]|]|] eqn:Ev; cbn [lift_err fmap option_fmap option_map map_err]; [|done..].
  rewrite bool_decide_eq_true_2, andb_true_r by done. destruct (self_removed values) eqn:Esr; [done|].
  destruct (commit_path_result a _ p random dc values) as [[[path g]|]|] eqn:Ep; [|done..].
  destruct (map_err LeafNodeValidation _); [|done].
  destruct (commit_content p (Member (own_leaf_index a)) _ _) as [m|] eqn:Em; cbn [map_err]; [|done].
  destruct (schedule_epoch a g (loaded_psks p) (commit_secret path) m) as [[[[[[m' joiner] welcome] secrets] serialized] g']|] eqn:Esch; [|done].
  destruct (split_secrets secrets serialized _ _) as [es ms] eqn:Esp.
  destruct (public_into_staged_diff g' _) as [[staged|]|] eqn:Est; cbn [lift_err fmap option_fmap option_map map_err]; [|done..].
  intros [= <-]. exists d, g, m, secrets, serialized, staged. split; try done. cbn [result_staged result_diff result_path]. by rewrite Esp.
Qed.

Lemma transcript_tree g m g1 : update_confirmed_transcript_hash g m = Ok g1 →
  tree_diff g1 = tree_diff g ∧ context_ciphersuite (diff_context g1) = context_ciphersuite (diff_context g).
Proof.
  unfold update_confirmed_transcript_hash. case_bool_decide; [done|].
  destruct (ok_or _ MissingBoundCheck); [|done]. destruct (ok_or _ UnexpectedCryptoError); [|done]. by intros [= <-].
Qed.

Lemma interim_tree g c tag g1 : update_interim_transcript_hash g c tag = Ok g1 → tree_diff g1 = tree_diff g.
Proof.
  unfold update_interim_transcript_hash. destruct (ok_or _ MissingBoundCheck); [|done].
  destruct (ok_or _ UnexpectedCryptoError); [|done]. by intros [= <-].
Qed.

(** Staging, once the path is read *)
Lemma stage_read a b g values commit s m leafs p cs new leafkp old joiner welcome secrets serialized r_commit g' staged psks :
  public_group b = public_group a → group_epoch_secrets b = group_epoch_secrets a →
  external_init_proposal_option values = None →
  load_psks (psk_storage b) (resumption_psk_store b) (presharedkeys values) = Ok psks →
  receive_path b values p commit s old leafs = Some (Ok (PathRead (default (zero_secret (ciphersuite_of a)) cs) new leafkp, g)) →
  schedule_epoch a g psks cs m = Ok (r_commit, joiner, welcome, secrets, serialized, g') →
  public_into_staged_diff g' (ciphersuite_of a) = Some (Ok staged) →
  stage_applied_proposal_values b values p commit s r_commit old leafs =
    let (epoch_secrets, message_secrets) := split_secrets secrets serialized (diff.size (tree_diff g')) (own_leaf_index b) in
    Some (Ok (GroupMember (MkMemberStagedCommitState epoch_secrets message_secrets staged new leafkp
      (update_leaf_node <$> commit_path commit)))).
Proof.
  intros Hp Hs He Hl Hr Hsch Hst.
  destruct (schedule_epoch_spec _ _ _ _ _ _ _ _ _ _ _ Hsch) as (g1 & tag & Ec & Eser & Et & -> & Ei & Ej & psk & Ek & Eo).
  unfold stage_applied_proposal_values. rewrite Hr, Hp. fold (ciphersuite_of a).
  change (update_confirmed_transcript_hash g (set_confirmation_tag m tag)) with (update_confirmed_transcript_hash g m).
  rewrite Ec. cbn [map_err]. cbn [set_confirmation_tag auth confirmation_tag ok_or]. rewrite Eser. cbn [map_err].
  rewrite (derive_epoch_secrets_ok a b values cs joiner welcome psks psk secrets) by done.
  rewrite (interim_tree _ _ _ _ Ei). unfold split_secrets. cbn [confirmation_key].
  rewrite Et. cbn [unexpected map_err]. rewrite bool_decide_eq_true_2 by done. cbn [negb]. rewrite Ei. cbn [map_err].
  unfold lift_err. by rewrite Hst.
Qed.
Lemma staged_tree_of g c staged : public_into_staged_diff g c = Some (Ok staged) →
  staged_diff (staged_tree staged) = diff.stage (tree_diff g).
Proof.
  unfold public_into_staged_diff, into_staged_diff. destruct (compute_tree_hashes c (tree_diff g)) as [[h|]|]; [|done..].
  by intros [= <-].
Qed.

Lemma staged_alike g g' c staged : tree_diff g' = tree_diff g → public_into_staged_diff g' c = Some (Ok staged) →
  ∃ st, public_into_staged_diff g c = Some (Ok st) ∧ staged_tree st = staged_tree staged.
Proof.
  intros E. unfold public_into_staged_diff. rewrite E.
  destruct (into_staged_diff c (tree_diff g)) as [[t|]|]; [|done..]. intros [= <-]. by eexists.
Qed.

(** Staging, for a member that is removed *)
Lemma stage_removed b values p commit s message old leafs g st :
  receive_path b values p commit s old leafs = Some (Ok (PathRemoved, g)) →
  public_into_staged_diff g (ciphersuite_of b) = Some (Ok st) →
  stage_applied_proposal_values b values p commit s message old leafs
    = Some (Ok (PublicState st (update_leaf_node <$> commit_path commit))).
Proof.
  intros Hr Hst. unfold stage_applied_proposal_values. rewrite Hr. fold (ciphersuite_of b). unfold lift_err. by rewrite Hst.
Qed.

(** A commit without a path covers no update and no removal. *)
Lemma no_path_no_change q own new : path_required (values_of q own new) = false → updates_of q = [] ∧ removed_of q = [].
Proof.
  unfold values_of, updates_of, removed_of. cbn. intros [H _]%orb_false_iff. revert H.
  induction (queued_proposals q) as [|x ps IH]; [done|]. cbn [existsb]. intros [Hx Hps]%orb_false_iff.
  destruct (IH Hps) as [IH1 IH2]. cbn [omap list_omap]. rewrite IH1, IH2. unfold compose, is_path_required, proposal_type in Hx.
  unfold as_update, as_removed. by destruct (proposal x).
Qed.

Lemma commit_path_spec a g p random dc values n path g' : external_credential p = None →
  stands (tree_diff g) n → own_leaf_index a < 2 ^ n → commit_path_result a g p random dc values = Some (Ok (path, g')) →
  (∃ own leaf leaf_keypair keypairs nodes serialized, computed g n (own_leaf_index a) random (exclusion_list values)
     (updated_extensions values) path g' own leaf leaf_keypair keypairs nodes serialized) ∨
  (path = no_path ∧ path_required values = false ∧ update_group_context g (updated_extensions values) = Some (Ok g')).
Proof.
  intros He Hd Hs. unfold commit_path_result. rewrite He. destruct (_ || _ || _ || _) eqn:Eb.
  - destruct (match new_signer p with Some signer => _ | None => _ end) as [params|]; [|done]. intros H. left.
    by apply (compute_path_spec _ _ _ _ _ _ _ n) in H.
  - destruct (update_group_context g _) as [[g1|]|]; cbn [lift_err fmap option_fmap option_map map_err]; [|done..].
    intros [= <- <-]. right. split; [done|]. split; [|done]. by repeat apply orb_false_iff in Eb as [Eb _].
Qed.

(** The secrets of one epoch's messages, split for two members *)
Record same_messages (i j : N) (x y : MessageSecrets) : Prop := {
  same_sender_data : sender_data_secret x = sender_data_secret y;
  same_membership : membership_key x = membership_key y;
  same_confirmation : confirmation_key x = confirmation_key y;
  same_context : MlsPastSecrets.serialized_context x = MlsPastSecrets.serialized_context y;
  same_secret_tree : ∃ encryption_secret size, secret_tree x = MlsSecretTree.new encryption_secret size i ∧
    secret_tree y = MlsSecretTree.new encryption_secret size j;
}.

(** What another member of the author's group and epoch has: [leafs] are the key pairs of its own
    updates, [psks] what it loads for the queue. *)
Record fellow (a b : MlsGroup) (n : N) (M : gmap N LeafNode) (q : ProposalQueue) (psks : list (PreSharedKeyId * Secret))
    (leafs : list EncryptionKeyPair) : Prop := {
  fellow_public : public_group b = public_group a;
  fellow_secrets : group_epoch_secrets b = group_epoch_secrets a;
  fellow_member : is_Some (M !! own_leaf_index b);
  fellow_other : own_leaf_index b ≠ own_leaf_index a;
  fellow_psks : load_psks (psk_storage b) (resumption_psk_store b) (psks_of q) = Ok psks;
  fellow_keyed : keyed (ciphersuite_of a) (group_tree_of a) n (own_leaf_index b) (epoch_keypairs b);
  fellow_leafs : Forall (valid (ciphersuite_of a)) leafs;
  fellow_update l : updated M (updates_of q) !! own_leaf_index b = Some l →
    leaf_encryption_key l ∈ public_key <$> (epoch_keypairs b ++ leafs);
}.
#[global] Arguments fellow_public {_ _ _ _ _ _ _} _.
#[global] Arguments fellow_secrets {_ _ _ _ _ _ _} _.
#[global] Arguments fellow_member {_ _ _ _ _ _ _} _.
#[global] Arguments fellow_other {_ _ _ _ _ _ _} _.
#[global] Arguments fellow_psks {_ _ _ _ _ _ _} _.
#[global] Arguments fellow_keyed {_ _ _ _ _ _ _} _.
#[global] Arguments fellow_leafs {_ _ _ _ _ _ _} _.
#[global] Arguments fellow_update {_ _ _ _ _ _ _} _.

Section followed.
Context (a : MlsGroup) (n : N) (M : gmap N LeafNode) (q : ProposalQueue) (p : CommitParameters) (random : CommitRandomness).
Context (dc : Capabilities) (r : CommitResult) (d : TreeSyncDiff) (g : PublicGroupDiff) (msg : CommitMessage).
Context (secrets : EpochSecrets) (serialized : bytes) (staged : StagedPublicGroupDiff).
Hypotheses (Ht : group_tree (group_tree_of a) n M) (Hq : Forall (proposed_by_members M) (queued_proposals q)).
Hypotheses (Hext : external_credential p = None) (Hs : is_Some (M !! own_leaf_index a)).
Hypotheses (Hb : built a q p random dc r d g msg secrets serialized staged).

(** What the proposals made of the tree, for everybody *)
Record applied (m n' : N) (M' : gmap N LeafNode) (new : list N) : Prop := {
  applied_phase : phase (empty_diff (group_tree_of a)) n m M;
  applied_values : result_values r = values_of q (Some (own_leaf_index a)) new;
  applied_alike own : apply_proposals (empty_diff (group_tree_of a)) q own = Some (Ok (values_of q own new, d));
  applied_adding : adding (without (updated M (updates_of q)) (removed_of q)) (add_leaf_node <$> adds_of q) M' new;
  applied_length : length new = length (adds_of q);
  applied_fitting : fitting d n' M';
  applied_evolves : evolves (empty_diff (group_tree_of a)) d n' new;
}.
Arguments applied_phase {_ _ _ _} _.
Arguments applied_values {_ _ _ _} _.
Arguments applied_alike {_ _ _ _} _.
Arguments applied_adding {_ _ _ _} _.
Arguments applied_length {_ _ _ _} _.
Arguments applied_fitting {_ _ _ _} _.
Arguments applied_evolves {_ _ _ _} _.

Lemma proposals_applied : ∃ m n' M' new, applied m n' M' new.
Proof using Ht Hq Hb.
  destruct (group_phase _ n M Ht) as [m Hp].
  destruct (apply_proposals_spec _ n m M q Hp Hq)
    as [(d' & n' & M' & new & E & Had & Hlen & Hf & Hev)|(k & M' & new & E & _)].
  - pose proof (built_values Hb) as Hv. rewrite E in Hv. injection Hv as Hv ->.
    exists m, n', M', new. by split.
  - pose proof (built_values Hb) as Hv. by rewrite E in Hv.
Qed.

Section with_applied.
Context (m n' : N) (M' : gmap N LeafNode) (new : list N).
Hypothesis (Ha : applied m n' M' new).

Lemma member_bound i : is_Some (M !! i) → i < 2 ^ n.
Proof using Ha.
  intros Hi. pose proof (phase_bound _ _ _ _ i (applied_phase Ha) Hi).
  pose proof (growing_room _ _ _ (phase_growing _ _ _ _ (applied_phase Ha))). lia.
Qed.

(** A member that is not removed stays, with its updated leaf. *)
Lemma member_stays i : is_Some (M !! i) → i ∉ removed_of q →
  M' !! i = updated M (updates_of q) !! i ∧ is_Some (M' !! i) ∧ i ∉ new.
Proof using Ha.
  intros Hi Hr. destruct (updated_is_some M (updates_of q) i Hi) as [l Hl]. pose proof (applied_adding Ha) as Had.
  assert (H1 : without (updated M (updates_of q)) (removed_of q) !! i = Some l) by (by rewrite lookup_without, decide_False).
  assert (Hn : i ∉ new) by (intros Hn; by rewrite (adding_fresh _ _ _ _ _ Had Hn) in H1).
  rewrite (adding_old _ _ _ _ _ Had Hn), H1. split; [done|]. split; [by eexists|done].
Qed.

Lemma author_not_removed : own_leaf_index a ∉ removed_of q.
Proof using Ha Hb.
  pose proof (built_stays Hb) as H. rewrite (applied_values Ha) in H. cbn in H.
  intros Hin. apply not_true_iff_false in H. apply H, existsb_exists. exists (own_leaf_index a). split; [by apply list_elem_of_In|].
  by apply bool_decide_eq_true_2.
Qed.

Lemma author_stays : is_Some (M' !! own_leaf_index a) ∧ own_leaf_index a < 2 ^ n'.
Proof using Ha Hb Hs.
  destruct (member_stays _ Hs author_not_removed) as (_ & Hi & _). split; [done|].
  by apply (fitting_inside _ _ _ (applied_fitting Ha)).
Qed.

(** The leaf of a member and the keys above it, which it had before *)
Lemma above_had i pk : is_Some (M !! i) → i ∉ removed_of q → pk ∈ omap (key_above d i) (levels n') →
  pk ∈ keys_of (empty_diff (group_tree_of a)) n i.
Proof using Ha.
  intros Hi Hr. destruct (member_stays i Hi Hr) as (_ & Hi' & Hn).
  destruct Ha as [Hp _ _ _ _ Hf Hev]. apply (keys_after_proposals _ _ n m M n' M' new); [done..|by apply member_bound| |done].
  by apply (fitting_inside _ _ _ Hf).
Qed.
(** The members of the next epoch, and its tree *)
Definition next_members : gmap N LeafNode :=
  match encrypted_path (result_path r) with
  | Some path => <[own_leaf_index a := update_leaf_node path]> M'
  | None => M'
  end.

Lemma path_or_none :
  (∃ own leaf leaf_keypair keypairs nodes ser, computed (with_tree (public_empty_diff (public_group a)) d) n' (own_leaf_index a)
     random (exclusion_list (result_values r)) (updated_extensions (result_values r)) (result_path r) g own leaf leaf_keypair
     keypairs nodes ser) ∨
  (result_path r = no_path ∧ path_required (result_values r) = false ∧
   update_group_context (with_tree (public_empty_diff (public_group a)) d) (updated_extensions (result_values r)) = Some (Ok g)).
Proof using Hext Hs Hb Ha.
  destruct author_stays as [_ Hlt]. apply (commit_path_spec _ _ p _ dc _ n'); [done| |done|apply Hb].
  apply (fitting_stands _ _ _ (applied_fitting Ha)).
Qed.

Lemma next_fitting : fitting (tree_diff g) n' next_members ∧ diff.original_tree (tree_diff g) = group_tree_of a.
Proof using Hext Hs Hb Ha.
  pose proof (applied_fitting Ha) as Hf. pose proof (evolves_tree _ _ _ _ (applied_evolves Ha)) as Hev. cbn in Hev.
  unfold next_members. destruct path_or_none as [(own & leaf & kp & kps & nodes & ser & Hc)|(-> & _ & Hg)].
  - rewrite (computed_result Hc). cbn [encrypted_path update_leaf_node].
    destruct (computed_update Hc) as (secret & path & h & e & Hown).
    pose proof (own_repathed Hown) as Hre. cbn in Hre. destruct author_stays as [Hs' Hlt].
    split; [by eapply fitting_repathed|]. by rewrite (repathed_tree Hre).
  - cbn. apply update_group_context_spec in Hg as [-> _]. done.
Qed.

Lemma result_tree : tree_diff (result_diff r) = tree_diff g.
Proof using Hb.
  destruct (schedule_epoch_spec _ _ _ _ _ _ _ _ _ _ _ (built_schedule Hb))
    as (g1 & tag & Hc & _ & _ & _ & Hi & _). rewrite (interim_tree _ _ _ _ Hi). by apply transcript_tree in Hc as [-> _].
Qed.

(** The tree of the merged group *)
Lemma next_tree : staged_public (result_staged r) = staged ∧
  sync_tree (treesync (merge_public_group (public_group a) staged))
    = merge_diff (diff.original_tree (tree_diff g)) (diff.stage (tree_diff g)) ∧
  group_tree (sync_tree (treesync (merge_public_group (public_group a) staged))) n' next_members ∧
  (∀ i, is_Some (next_members !! i) → i < 2 ^ n') ∧
  ∀ i, i < 2 ^ n' → keys_of (empty_diff (sync_tree (treesync (merge_public_group (public_group a) staged)))) n' i
    = keys_of (tree_diff g) n' i.
Proof using Hext Hs Hb Ha.
  destruct next_fitting as [Hf Ho]. split.
  { rewrite (built_result Hb). by destruct (split_secrets _ _ _ _). }
  assert (E : sync_tree (treesync (merge_public_group (public_group a) staged))
    = merge_diff (diff.original_tree (tree_diff g)) (diff.stage (tree_diff g))).
  { rewrite Ho, <-result_tree, <-(staged_tree_of _ _ _ (built_staged Hb)). done. }
  rewrite E. split; [done|]. split; [by apply fitting_merged|]. split; [apply Hf|].
  intros i Hi. by apply (keys_of_merged _ _ next_members).
Qed.

(** The author has the keys of its place. *)
Lemma author_keeps ring : keyed (ciphersuite_of a) (group_tree_of a) n (own_leaf_index a) ring →
  keyed (ciphersuite_of a) (sync_tree (treesync (merge_public_group (public_group a) staged))) n' (own_leaf_index a)
    (ring ++ new_keypairs (result_path r)).
Proof using Hext Hs Hb Ha.
  intros [Hv Hk]. destruct author_stays as [Hs' Hlt]. destruct next_tree as (_ & _ & _ & _ & Hkeys).
  pose proof (applied_fitting Ha) as Hf.
  destruct path_or_none as [(own & leaf & kp & kps & nodes & ser & Hc)|(Hno & Hreq & Hg)].
  - rewrite (computed_result Hc). cbn [new_keypairs].
    destruct (computed_update Hc) as (secret & path & h & e & Hown).
    rewrite (own_pairs Hown). split.
    + apply Forall_app. split; [done|]. constructor; [apply (own_leaf_valid Hown)|].
      by destruct (derive_path_spec _ _ _ _ _ _ _ (own_derive Hown)).
    + intros pk. rewrite Hkeys by done. rewrite fmap_app, elem_of_app. intros Hpk. right.
      rewrite (keys_of_author _ _ _ _ _ _ (own_repathed Hown)) in Hpk; [|done|].
      * rewrite fmap_cons. by rewrite <-(own_leaf_key Hown).
      * unfold full_leaf. cbn. by rewrite (fitting_shows _ _ _ Hf).
  - rewrite Hno. cbn [new_keypairs no_path]. rewrite app_nil_r. split; [done|]. intros pk. rewrite Hkeys by done.
    apply update_group_context_spec in Hg as [-> _]. cbn [with_tree tree_diff]. unfold keys_of. rewrite elem_of_app. intros [Hl|Habove].
    + apply Hk. unfold keys_of. apply elem_of_app. left. unfold leaf_keys in *.
      rewrite (fitting_shows _ _ _ Hf) in Hl. rewrite (phase_shows _ _ _ _ (applied_phase Ha)).
      destruct (member_stays _ Hs author_not_removed) as (E & _). rewrite E in Hl.
      rewrite (applied_values Ha) in Hreq. apply no_path_no_change in Hreq as [Hu _]. by rewrite Hu in Hl.
    + apply Hk. apply above_had; [done|apply author_not_removed|done].
Qed.

(** *** The others *)

Section other.
Context (b : MlsGroup) (leafs : list EncryptionKeyPair).
Hypotheses (Hinit : external_init_of q = None) (Hfellow : fellow a b n M q (loaded_psks p) leafs).

Definition values_for : ApplyProposalsValues := values_of q (Some (own_leaf_index b)) new.

Lemma stage_commit_applied commit message old : stage_commit b commit q (own_leaf_index a) message old leafs =
  stage_applied_proposal_values b values_for (with_tree (public_empty_diff (public_group a)) d) commit (own_leaf_index a)
    message old leafs.
Proof using Ha Hfellow.
  unfold stage_commit. rewrite (fellow_public Hfellow). cbn [public_empty_diff tree_diff].
  fold (group_tree_of a). by rewrite (applied_alike Ha).
Qed.

Lemma self_removed_for : self_removed values_for = true ↔ own_leaf_index b ∈ removed_of q.
Proof using Type.
  unfold values_for. cbn. rewrite existsb_exists. split.
  - intros (i & Hi & [= ->]%bool_decide_eq_true). by apply list_elem_of_In.
  - intros Hi. exists (own_leaf_index b). split; [by apply list_elem_of_In|by apply bool_decide_eq_true_2].
Qed.

Lemma excluded_new i : i ∈ exclusion_list values_for ↔ i ∈ new.
Proof using Ha.
  unfold exclusion_list, values_for. cbn [invitation_list values_of].
  rewrite fst_zip by (rewrite (applied_length Ha); lia). by rewrite elem_of_list_to_set.
Qed.

(** The computation does not look at [self_removed]. *)
Lemma computed_for own leaf kp kps nodes ser :
  computed (with_tree (public_empty_diff (public_group a)) d) n' (own_leaf_index a) random (exclusion_list (result_values r))
    (updated_extensions (result_values r)) (result_path r) g own leaf kp kps nodes ser →
  computed (with_tree (public_empty_diff (public_group a)) d) n' (own_leaf_index a) random (exclusion_list values_for)
    (updated_extensions values_for) (result_path r) g own leaf kp kps nodes ser.
Proof using Ha. by rewrite (applied_values Ha). Qed.

Lemma removed_follows old : own_leaf_index b ∈ removed_of q →
  ∃ st l, stage_commit b (MkCommit (commit_list q) (encrypted_path (result_path r))) q (own_leaf_index a) (result_commit r) old leafs
      = Some (Ok (PublicState st l)) ∧ staged_tree st = staged_tree staged.
Proof using Hext Hs Hb Ha Hfellow.
  intros Hr. destruct author_stays as [Hs' _].
  pose proof (applied_fitting Ha) as Hf. pose proof (fellow_public Hfellow) as Hpub.
  destruct path_or_none as [(own & leaf & kp & kps & nodes & ser & Hc)|(_ & Hreq & _)].
  - assert (Hread : receive_path b values_for (with_tree (public_empty_diff (public_group a)) d)
      (MkCommit (commit_list q) (encrypted_path (result_path r))) (own_leaf_index a) old leafs = Some (Ok (PathRemoved, g))).
    { eapply removed_reads; [exact Hf|exact Hs'|by apply computed_for|by rewrite Hpub|by apply self_removed_for]. }
    destruct (staged_alike g (result_diff r) (ciphersuite_of a) staged) as (st & Hst & Et);
      [by rewrite result_tree|apply Hb|].
    rewrite stage_commit_applied. exists st. eexists. split; [|exact Et].
    eapply stage_removed; [exact Hread|]. unfold ciphersuite_of. by rewrite Hpub.
  - rewrite (applied_values Ha) in Hreq. apply no_path_no_change in Hreq as [_ Hno]. rewrite Hno in Hr.
    by apply elem_of_nil in Hr.
Qed.

(** It reads the path, or there is none, and has its keys. *)
Lemma member_has_read : own_leaf_index b ∉ removed_of q →
  ∃ newk leafkp, receive_path b values_for (with_tree (public_empty_diff (public_group a)) d)
      (MkCommit (commit_list q) (encrypted_path (result_path r))) (own_leaf_index a) (epoch_keypairs b) leafs
      = Some (Ok (PathRead (default (zero_secret (ciphersuite_of a)) (commit_secret (result_path r))) newk leafkp, g)) ∧
    Forall (valid (ciphersuite_of a)) (newk ++ option_list leafkp) ∧
    ∀ pk, pk ∈ keys_of (tree_diff g) n' (own_leaf_index b) → pk ∈ public_key <$> (epoch_keypairs b ++ newk ++ option_list leafkp).
Proof using Hext Hs Hb Ha Hfellow Hinit laws.
  intros Hr. destruct author_stays as [Hs' _]. pose proof (applied_fitting Ha) as Hf.
  destruct Hfellow as [Hpub Hsec Hmem Hother Hpsks [Hvalid Hkeyed] Hleafs Hupdate].
  destruct (member_stays _ Hmem Hr) as (Hstay & Hstays & Hnew). pose proof (fitting_inside _ _ _ Hf _ Hstays) as Hlt.
  assert (Hrf : self_removed values_for = false) by (apply not_true_iff_false; by rewrite self_removed_for).
  assert (Hleaf : ∀ pk, pk ∈ leaf_keys d (own_leaf_index b) → pk ∈ public_key <$> (epoch_keypairs b ++ leafs)).
  { intros pk. unfold leaf_keys. rewrite (fitting_shows _ _ _ Hf), Hstay.
    destruct (updated M (updates_of q) !! own_leaf_index b) as [l|] eqn:El; [|by intros ?%elem_of_nil].
    intros ->%list_elem_of_singleton. by apply Hupdate. }
  assert (Habove : ∀ pk, pk ∈ omap (key_above d (own_leaf_index b)) (levels n') → pk ∈ public_key <$> epoch_keypairs b).
  { intros pk Hpk. by apply Hkeyed, above_had. }
  destruct path_or_none as [(own & leaf & kp & kps & nodes & ser & Hc)|(Hno & Hreq & Hg)].
  - destruct (member_reads b values_for (with_tree (public_empty_diff (public_group a)) d) g n' (own_leaf_index a) M' random
      (result_path r) own leaf kp kps nodes ser (epoch_keypairs b) leafs Hf Hs' (computed_for _ _ _ _ _ _ Hc)
      ltac:(by rewrite Hpub) (commit_list q) (own_leaf_index b)) as (newk & E & Hv & Hk); try done.
    + by rewrite excluded_new.
    + by apply Forall_app.
    + exists newk, (own_leaf_keypair (tree_diff g) (own_leaf_index b) leafs). rewrite E. split; [|split; [|done]].
      * by rewrite (computed_result Hc).
      * apply Forall_app. split; [done|]. unfold own_leaf_keypair. destruct (diff.leaf _ _) as [l|]; [|constructor].
        destruct (filter _ leafs) as [|x xs] eqn:Ef; [constructor|]. constructor; [|constructor].
        rewrite Forall_forall in Hleafs. apply Hleafs.
        assert (Hx : x ∈ filter (λ kp, leaf_encryption_key l = public_key kp) leafs) by (rewrite Ef; by left).
        by apply list_elem_of_filter in Hx as [].
  - exists [], None. rewrite (applied_values Ha) in Hreq, Hg. unfold receive_path. rewrite Hno.
    cbn [no_path encrypted_path commit_path commit_secret]. change (path_required values_for) with (path_required (values_of q (Some (own_leaf_index a)) new)).
    rewrite Hreq. change (updated_extensions values_for) with (updated_extensions (values_of q (Some (own_leaf_index a)) new)).
    rewrite Hg, Hpub. cbn [lift_err fmap option_fmap option_map map_err default]. split; [done|]. split; [constructor|].
    apply update_group_context_spec in Hg as [-> _]. cbn [with_tree tree_diff option_list app]. rewrite app_nil_r.
    intros pk. unfold keys_of. rewrite elem_of_app. intros [Hpk|Hpk]; [|by apply Habove].
    apply Hkeyed. unfold keys_of. apply elem_of_app. left. unfold leaf_keys in *.
    rewrite (fitting_shows _ _ _ Hf), Hstay in Hpk. rewrite (phase_shows _ _ _ _ (applied_phase Ha)).
    apply no_path_no_change in Hreq as [Hu _]. by rewrite Hu in Hpk.
Qed.

Lemma member_follows : own_leaf_index b ∉ removed_of q → ∃ st,
  stage_commit b (MkCommit (commit_list q) (encrypted_path (result_path r))) q (own_leaf_index a) (result_commit r)
    (epoch_keypairs b) leafs = Some (Ok (GroupMember st)) ∧
  staged_public st = staged ∧ staged_epoch_secrets st = staged_epoch_secrets (result_staged r) ∧
  same_messages (own_leaf_index b) (own_leaf_index a) (staged_message_secrets st) (staged_message_secrets (result_staged r)) ∧
  keyed (ciphersuite_of a) (sync_tree (treesync (merge_public_group (public_group a) staged))) n' (own_leaf_index b)
    (epoch_keypairs b ++ staged_new_keypairs st ++ option_list (new_leaf_keypair_option st)).
Proof using Hext Hs Hb Ha Hfellow Hinit laws.
  intros Hr. rewrite stage_commit_applied. destruct next_tree as (_ & _ & _ & _ & Hkeys).
  destruct (member_has_read Hr) as (newk & leafkp & Hread & Hv & Hk).
  destruct Hfellow as [Hpub Hsec Hmem Hother Hpsks [Hvalid Hkeyed] Hleafs Hupdate].
  destruct (member_stays _ Hmem Hr) as (_ & Hstays & _). pose proof (fitting_inside _ _ _ (applied_fitting Ha) _ Hstays) as Hlt.
  erewrite (stage_read a b g); [|done|done|done|exact Hpsks|exact Hread|apply Hb|apply Hb].
  unfold split_secrets. eexists. split; [done|]. cbn [staged_public staged_epoch_secrets staged_message_secrets staged_new_keypairs new_leaf_keypair_option].
  rewrite (built_result Hb). cbn [split_secrets staged_epoch_secrets staged_message_secrets].
  split; [done|]. split; [done|]. split; [split; try done; by do 2 eexists|].
  split; [by apply Forall_app|]. intros pk. rewrite Hkeys by done. apply Hk.
Qed.
End other.

(** *** The new members *)

Lemma invited_new i k : (i, k) ∈ invitation_list (result_values r) →
  i ∈ new ∧ is_Some (M' !! i) ∧ leaf_keys d i = [leaf_encryption_key (add_leaf_node k)] ∧ i ≠ own_leaf_index a.
Proof using Hs Hb Ha.
  intros Hin. destruct (member_stays _ Hs author_not_removed) as (_ & _ & Hnot).
  rewrite (applied_values Ha) in Hin. cbn in Hin. apply list_elem_of_lookup in Hin as (j & Hj).
  rewrite lookup_zip_with in Hj. destruct (new !! j) as [i'|] eqn:Ei; cbn in Hj; [|done].
  destruct (adds_of q !! j) as [k'|] eqn:Ek; cbn in Hj; [|done]. injection Hj as -> ->.
  assert (Hl : M' !! i = Some (add_leaf_node k)).
  { eapply (adding_new _ _ _ _ j); [apply (applied_adding Ha)|done|]. by rewrite list_lookup_fmap, Ek. }
  apply list_elem_of_lookup_2 in Ei. split; [done|]. split; [by rewrite Hl|]. split; [|by intros ->].
  unfold leaf_keys. by rewrite (fitting_shows _ _ _ (applied_fitting Ha)), Hl.
Qed.

(** A new member is unmerged in all parents above it. *)
Lemma nothing_above i (ls : list nat) : i ∈ new → (∀ k, k ∈ ls → N.of_nat k < n') → omap (key_above d i) ls = [].
Proof using Ha.
  intros Hi Hls. pose proof (applied_fitting Ha) as Hf. apply omap_none. intros k Hk. unfold key_above.
  destruct (diff.parent d (up i k)) as [P|] eqn:E; [|done]. rewrite decide_True; [done|].
  eapply (evolves_new _ _ _ _ (applied_evolves Ha)); [done| |done]. apply up_bound; [by apply Hls|].
  apply (fitting_inside _ _ _ Hf). pose proof (applied_adding Ha) as Had. apply list_elem_of_lookup in Hi as [j Hj].
  destruct (lookup_lt_is_Some_2 (add_leaf_node <$> adds_of q) j) as [l Hl].
  { rewrite length_fmap, <-(applied_length Ha). by eapply lookup_lt_Some. }
  rewrite (adding_new _ _ _ _ _ _ _ Had Hj Hl). by eexists.
Qed.

(** What a new member is told opens the epoch's keys above the node where it meets the path. *)
Lemma invited_keys i k t : (i, k) ∈ invitation_list (result_values r) →
  sync_tree t = sync_tree (treesync (merge_public_group (public_group a) staged)) →
  ∃ w, welcome_secrets_of (tree_diff (result_diff r)) (result_joiner_secret r) (plain_path (result_path r))
      (presharedkeys (result_values r)) (own_leaf_index a) i = Some (Ok w) ∧
    welcome_joiner_secret w = result_joiner_secret r ∧ welcome_psks w = psks_of q ∧
    ∃ pairs, Forall (valid (ciphersuite_of a)) pairs ∧
      match welcome_path_secret w with
      | Some secret => ∃ last, derive_path_secrets (ciphersuite_of a) t secret (own_leaf_index a) i = Some (Ok (pairs, last))
      | None => pairs = []
      end ∧ keys_of (tree_diff g) n' i = leaf_encryption_key (add_leaf_node k) :: (public_key <$> pairs).
Proof using Hext Hs Hb Ha.
  intros Hin Htree. destruct (invited_new i k Hin) as (Hnew & Hi & Hleaf & Hne). destruct author_stays as [Hs' Hlt].
  pose proof (applied_fitting Ha) as Hf. pose proof (fitting_inside _ _ _ Hf _ Hi) as Hlt'.
  rewrite result_tree. unfold welcome_secrets_of.
  assert (Hpsks : presharedkeys (result_values r) = psks_of q) by (by rewrite (applied_values Ha)).
  assert (Hfs : full_leaf d (own_leaf_index a)) by (unfold full_leaf; by rewrite (fitting_shows _ _ _ Hf)).
  assert (Hfi : full_leaf d i) by (unfold full_leaf; by rewrite (fitting_shows _ _ _ Hf)).
  destruct next_fitting as [Hfit _]. destruct next_tree as (_ & Etree & Hgroup & _ & _).
  destruct (meet_exists n' (own_leaf_index a) i Hlt Hlt' ltac:(congruence)) as (K & HK & Hm).
  destruct path_or_none as [(own & leaf & kp & kps & nodes & ser & Hc)|(Hno & Hreq & Hg)].
  - destruct (computed_update Hc) as (secret & path & h & e & Hown).
    pose proof (own_repathed Hown) as Hre. cbn in Hre.
    pose proof (own_derive Hown) as Hderive. cbn in Hderive.
    assert (Hfs' : full_leaf (tree_diff g) (own_leaf_index a)) by (eapply repathed_full; [done..|by eexists|done]).
    assert (Hfi' : full_leaf (tree_diff g) i) by (eapply repathed_full; [done..|by eexists|done]).
    assert (Hlow : low (tree_diff g) K (own_leaf_index a) = low d K (own_leaf_index a)).
    { unfold low. apply filter_ext_in. intros x _. eapply repathed_occupied; [done..|by eexists]. }
    rewrite (subtree_root_position_low (tree_diff g) n' (own_leaf_index a) i K), Hlow by (done || apply Hfit).
    cbn [lift_err fmap option_fmap option_map map_err]. rewrite (computed_result Hc). cbn [plain_path].
    destruct (derive_path_spec _ _ _ _ _ _ _ Hderive) as [_ _ Hpk Hlen Hvalid].
    assert (Hkl : length (own_plain_path own) = length (kept d n' (own_leaf_index a))).
    { by rewrite <-(length_fmap plain_public_key), Hpk, length_fmap, Hlen, length_fmap. }
    destruct (lookup_lt_is_Some_2 (own_plain_path own) (length (low d K (own_leaf_index a)))) as [node Hnode].
    { rewrite Hkl. eapply lookup_lt_Some. apply (kept_at_low d n' (own_leaf_index a) i K); (done || apply Hf). }
    rewrite Hnode. cbn [ok_or]. eexists. split; [done|]. cbn [welcome_joiner_secret welcome_psks welcome_path_secret].
    split; [done|]. split; [done|]. exists (drop (length (low d K (own_leaf_index a))) kps). split; [by apply Forall_drop|].
    split.
    + exists (own_commit_secret own). eapply (derive_path_secrets_ok _ d (tree_diff g) n' _ _ K); try done; [apply Hf| |].
      * rewrite Htree. apply Hgroup.
      * intros x Hx. rewrite Htree, Etree. destruct (merged_view _ _ (fitting_stands _ _ _ Hfit)) as (_ & _ & Hp).
        rewrite <-(Hp x Hx). unfold diff.parent. cbn. by rewrite lookup_empty.
    + rewrite (keys_of_other d (tree_diff g) n' _ i K _ leaf), Hleaf by done. rewrite fmap_drop. cbn [app]. f_equal.
      rewrite nothing_above; [done|done|]. intros x Hx%elem_of_seq. lia.
  - apply update_group_context_spec in Hg as [Hg _]. cbn [with_tree tree_diff] in Hg.
    rewrite Hg, (subtree_root_position_low d n' (own_leaf_index a) i K) by (done || apply Hf).
    cbn [lift_err fmap option_fmap option_map map_err]. rewrite Hno. cbn [plain_path no_path]. eexists. split; [done|].
    cbn [welcome_joiner_secret welcome_psks welcome_path_secret]. split; [done|]. split; [done|]. exists []. split; [constructor|].
    split; [done|]. unfold keys_of. rewrite Hleaf, nothing_above; [done|done|]. by intros x Hx%elem_of_levels.
Qed.

End with_applied.

Lemma result_body :
  body (content (result_commit r)) = CommitBody (MkCommit (commit_list q) (encrypted_path (result_path r))).
Proof using Hb.
  destruct (schedule_epoch_spec _ _ _ _ _ _ _ _ _ _ _ (built_schedule Hb))
    as (? & tag & _ & _ & _ & -> & _).
  pose proof (built_content Hb) as Hm. unfold commit_content in Hm.
  destruct (ok_or _ MissingBoundCheck); [|done]. destruct (ok_or _ _); [|done]. by injection Hm as <-.
Qed.
End followed.

(** *** Agreement *)

(** What a member that stays has staged, next to what the author has *)
Record follows (a b : MlsGroup) (r : CommitResult) (n : N) (leafs : list EncryptionKeyPair)
    (st : MemberStagedCommitState) : Prop := {
  follows_public : staged_public st = staged_public (result_staged r);
  follows_secrets : staged_epoch_secrets st = staged_epoch_secrets (result_staged r);
  follows_messages : same_messages (own_leaf_index b) (own_leaf_index a) (staged_message_secrets st)
    (staged_message_secrets (result_staged r));
  follows_keyed : keyed (ciphersuite_of a) (sync_tree (treesync (merge_public_group (public_group a) (staged_public st)))) n
    (own_leaf_index b) (epoch_keypairs b ++ staged_new_keypairs st ++ option_list (new_leaf_keypair_option st));
}.

(** C2: what a member's commit makes, the other members make of it.  Its author ends up with a
    well-formed tree of the members that the proposals leave, and with the private keys of its
    place in it.  Whoever reads the commit from the same epoch, with the same pre-shared keys and
    the keys of its own place, stages the same public group (tree, context and transcript
    hashes) and the same epoch and message secrets, its confirmation tag matches, and it has the
    keys of its place in the new tree; who is removed stages the same tree and learns no secret. *)
Theorem commit_agreement a n M q p random dc r :
  group_tree (group_tree_of a) n M → Forall (proposed_by_members M) (queued_proposals q) →
  external_credential p = None → external_init_of q = None → is_Some (M !! own_leaf_index a) →
  keyed (ciphersuite_of a) (group_tree_of a) n (own_leaf_index a) (epoch_keypairs a) →
  build_commit a q p random dc = Some (Ok r) →
  let next := sync_tree (treesync (merge_public_group (public_group a) (staged_public (result_staged r)))) in
  ∃ commit n' M' new, body (content (result_commit r)) = CommitBody commit ∧
    adding (without (updated M (updates_of q)) (removed_of q)) (add_leaf_node <$> adds_of q) M' new ∧
    group_tree next n' (next_members a r M') ∧
    keyed (ciphersuite_of a) next n' (own_leaf_index a) (epoch_keypairs a ++ staged_new_keypairs (result_staged r)) ∧
    ∀ b leafs, fellow a b n M q (loaded_psks p) leafs →
      let staged := stage_commit b commit q (own_leaf_index a) (result_commit r) (epoch_keypairs b) leafs in
      if decide (own_leaf_index b ∈ removed_of q)
      then ∃ st leaf, staged = Some (Ok (PublicState st leaf)) ∧ staged_tree st = staged_tree (staged_public (result_staged r))
      else ∃ st, staged = Some (Ok (GroupMember st)) ∧ follows a b r n' leafs st.
Proof using Type*.
  intros Ht Hq Hext Hinit Hs Hk Hbuild. destruct (build_commit_spec _ _ _ _ _ _ Hext Hbuild) as (d & g & m & secrets & ser & staged & Hb).
  destruct (proposals_applied a n M q p random dc r d g m secrets ser staged Ht Hq Hb) as (k & n' & M' & new & Ha).
  destruct (next_tree a n M q p random dc r d g m secrets ser staged Hext Hs Hb k n' M' new Ha) as (Est & _ & Hg & _).
  rewrite Est. exists (MkCommit (commit_list q) (encrypted_path (result_path r))), n', M', new.
  split; [by eapply result_body|]. split; [apply Ha|]. split; [done|]. split.
  { rewrite (built_result Hb). cbn. by eapply author_keeps. }
  intros b leafs Hf. case_decide as Hr; [by eapply removed_follows|].
  eapply member_follows in Hr as (st & E & E1 & E2 & Hm & Hks); [|done..]. exists st. split; [done|].
  by split; rewrite ?E1.
Qed.

(** *** Merging *)

Lemma add_answers s epoch m leaves : ∃ trees, add s epoch m leaves = Some (MkStore (max_epochs s) trees (message_secrets s)).
Proof using Type.
  unfold add, rotate_left. destruct (N.eqb_spec (max_epochs s) 0) as [E|E]; [by destruct s; eexists|].
  destruct (N.leb_spec (max_epochs s) (N.of_nat (length (past_epoch_trees s)))); [|by eexists].
  rewrite (proj2 (Nat.ltb_ge _ _)) by lia. by eexists.
Qed.

Lemma owned_keys t n M i : group_tree (sync_tree t) n M → is_Some (M !! i) →
  i < 2 ^ n ∧ owned_encryption_keys t i = Some (keys_of (empty_diff (sync_tree t)) n i).
Proof using Type.
  intros Hg Hi. destruct (group_phase _ _ _ Hg) as [m Hp].
  assert (Hlt : i < 2 ^ n).
  { pose proof (phase_bound _ _ _ _ _ Hp Hi). pose proof (growing_room _ _ _ (phase_growing _ _ _ _ Hp)). lia. }
  split; [done|]. apply encryption_keys_of; [apply (growing_stands _ _ _ (phase_growing _ _ _ _ Hp))|apply Hp|done].
Qed.

(** What a member has after the merge *)
Record merged_with (group : MlsGroup) (s : MemberStagedCommitState) (n : N) (group' : MlsGroup) : Prop := {
  merged_public : public_group group' = merge_public_group (public_group group) (staged_public s);
  merged_index : own_leaf_index group' = own_leaf_index group;
  merged_secrets : group_epoch_secrets group' = staged_epoch_secrets s;
  merged_messages : message_secrets (secrets_store group') = staged_message_secrets s;
  merged_keyed c : Forall (valid c) (epoch_keypairs group ++ staged_new_keypairs s ++ option_list (new_leaf_keypair_option s)) →
    keyed c (group_tree_of group') n (own_leaf_index group) (epoch_keypairs group');
  merged_only kp : kp ∈ epoch_keypairs group' → public_key kp ∈ keys_of (empty_diff (group_tree_of group')) n (own_leaf_index group);
}.

(** C5: merging a staged commit into a group.  A member that has the private keys of its place in
    the new tree, no two keys of its path and no two of its pairs being the same, merges without
    an error; it then has the staged tree and context, the secrets of the new epoch, and among its
    key pairs those of its leaf and of the parents above it, and no others. *)
Theorem merge_keeps_keys group s n M :
  let next := sync_tree (treesync (merge_public_group (public_group group) (staged_public s))) in
  let pairs := epoch_keypairs group ++ staged_new_keypairs s ++ option_list (new_leaf_keypair_option s) in
  group_tree next n M → is_Some (M !! own_leaf_index group) →
  (∀ pk, pk ∈ keys_of (empty_diff next) n (own_leaf_index group) → pk ∈ public_key <$> pairs) →
  NoDup (keys_of (empty_diff next) n (own_leaf_index group)) → NoDup (public_key <$> pairs) →
  ∃ group', merge_commit group (GroupMember s) = Some (group', Ok ()) ∧ merged_with group s n group'.
Proof using Type.
  cbn zeta. intros Hg Hi Hkeys Hnd Hnp. destruct (owned_keys _ _ _ _ Hg Hi) as [_ Ho]. unfold merge_commit.
  unfold merge_secrets. cbn [message_secrets_store group_epoch].
  edestruct (add_answers (MkStore (max_epochs (secrets_store group)) (past_epoch_trees (secrets_store group)) (staged_message_secrets s)))
    as [trees ->]. rewrite Ho. fold (option_list (new_leaf_keypair_option s)).
  rewrite (proj2 (Nat.eqb_eq _ _)) by (by apply filter_owned_length).
  eexists. split; [done|]. split; try done; cbn.
  - intros c Hv. split; [|].
    + apply Forall_forall. intros kp Hkp. apply list_elem_of_filter in Hkp as [_ Hkp]. by eapply Forall_forall in Hv.
    + intros pk Hpk. apply Hkeys in Hpk as Hin. apply list_elem_of_fmap in Hin as (kp & -> & Hkp).
      apply list_elem_of_fmap. exists kp. split; [done|]. by apply list_elem_of_filter.
  - intros kp Hkp. by apply list_elem_of_filter in Hkp as [].
Qed.

(** *** Joining *)

Lemma interim_context g c tag g1 : update_interim_transcript_hash g c tag = Ok g1 →
  diff_context g1 = diff_context g ∧ diff_confirmation_tag g1 = tag.
Proof using Type.
  unfold update_interim_transcript_hash. destruct (ok_or _ MissingBoundCheck); [|done].
  destruct (ok_or _ UnexpectedCryptoError); [|done]. by intros [= <-].
Qed.

Lemma staged_group g c staged : public_into_staged_diff g c = Some (Ok staged) →
  staged_context staged = diff_context g ∧ staged_confirmation_tag staged = diff_confirmation_tag g.
Proof using Type.
  unfold public_into_staged_diff. destruct (into_staged_diff c (tree_diff g)) as [[t|]|]; [|done..]. by intros [= <-].
Qed.

Section invited.
Context (a : MlsGroup) (r : CommitResult) (g : PublicGroupDiff) (msg : CommitMessage) (psks : list (PreSharedKeyId * Secret)).
Context (secrets : EpochSecrets) (serialized : bytes) (staged : StagedPublicGroupDiff) (cs : option CommitSecret).
Context (storage : Psk → option Secret) (store : ResumptionPskStore) (w : WelcomeSecrets).
Hypotheses (Hsch : schedule_epoch a g psks cs msg
  = Ok (result_commit r, result_joiner_secret r, result_welcome_secret r, secrets, serialized, result_diff r)).
Hypotheses (Hst : public_into_staged_diff (result_diff r) (ciphersuite_of a) = Some (Ok staged)).
Hypotheses (Hpsks : load_psks storage store (welcome_psks w) = Ok psks).
Hypotheses (Hw : validate_in_welcome (welcome_psks w) (ciphersuite_of a) = Ok tt).
Hypotheses (Hj : welcome_joiner_secret w = result_joiner_secret r).

(** The schedule of a new member goes on to the secrets of the author. *)
Lemma joined_schedule : ∃ ks ks' ks'', process_welcome (ciphersuite_of a) storage store w = Ok (ks, result_welcome_secret r) ∧
  add_context ks serialized = (ks', Ok tt) ∧ epoch_secrets ks' (ciphersuite_of a) = (ks'', Ok secrets) ∧
  tls_group_context (staged_context staged) = Some serialized ∧
  confirmation_tag_of (ciphersuite_of a) (es_confirmation_key secrets) (confirmed_transcript_hash (staged_context staged))
    = Ok (staged_confirmation_tag staged).
Proof using Type*.
  destruct (schedule_epoch_spec _ _ _ _ _ _ _ _ _ _ _ Hsch) as (g1 & tag & _ & Eser & Et & _ & Ei & _ & psk & Ek & Eo).
  destruct (interim_context _ _ _ _ Ei) as [Ectx Etag]. destruct (staged_group _ _ _ Hst) as [-> ->]. rewrite Ectx, Etag.
  destruct (schedule_in_order _ _ _ _ _ _ Eo) as (ks & ks' & ks'' & Einit & Ew & Ea & Ee).
  exists ks, ks', ks''. split; [|split; [done|split; [done|split; [|done]]]].
  - unfold process_welcome. rewrite Hw, Hpsks. cbn [map_err]. rewrite Ek. cbn [map_err]. rewrite Hj, Einit. cbn [map_err].
    rewrite Ew. done.
  - unfold serialized_context in Eser. by destruct (tls_group_context (diff_context g1)); [injection Eser as ->|].
Qed.

(** Staging the welcome, once the keys of the path are derived *)
Lemma stage_welcome_ok public i s pairs : ∀ ks ks' ks'', add_context ks serialized = (ks', Ok tt) →
  epoch_secrets ks' (ciphersuite_of a) = (ks'', Ok secrets) →
  tls_group_context (group_context public) = Some serialized →
  confirmation_tag_of (ciphersuite_of a) (es_confirmation_key secrets) (confirmed_transcript_hash (group_context public))
    = Ok (group_confirmation_tag public) →
  match welcome_path_secret w with
  | Some secret => ∃ last, derive_path_secrets (ciphersuite_of a) (treesync public) secret s i = Some (Ok (pairs, last))
  | None => pairs = []
  end →
  ∃ joined, stage_welcome (ciphersuite_of a) ks w public i s = Some (Ok joined) ∧ welcome_public_group joined = public ∧
    (welcome_epoch_secrets joined, welcome_message_secrets joined)
      = split_secrets secrets serialized (tree.tree_size (sync_tree (treesync public))) i ∧
    default [] (welcome_path_keypairs joined) = pairs.
Proof using Type.
  intros ks ks' ks'' Ea Ee Es Et Hpath. unfold stage_welcome. rewrite Es. cbn [ok_or]. rewrite Ea. cbn [wrong_state map_err].
  rewrite Ee. cbn [snd wrong_state map_err]. unfold split_secrets. cbn [confirmation_key]. rewrite Et.
  cbn [unexpected map_err]. rewrite bool_decide_eq_true_2 by done. cbn [negb]. destruct (welcome_path_secret w) as [secret|].
  - destruct Hpath as [last ->]. eexists. split; [done|]. by split.
  - subst pairs. eexists. split; [done|]. by split.
Qed.
End invited.

(** C4: who is invited by a commit arrives in the epoch that the members arrive in.  With what the
    author tells it, and the same pre-shared keys and public group, a new member finds the secret
    that opens the group info, derives the secrets of the epoch, checks the confirmation tag, and
    has, besides the key of its key package, exactly the private keys of the parents above its
    leaf. *)
Theorem welcome_agreement a n M q p random dc r i k storage store public :
  group_tree (group_tree_of a) n M → Forall (proposed_by_members M) (queued_proposals q) →
  external_credential p = None → is_Some (M !! own_leaf_index a) →
  build_commit a q p random dc = Some (Ok r) → (i, k) ∈ invitation_list (result_values r) →
  load_psks storage store (psks_of q) = Ok (loaded_psks p) → validate_in_welcome (psks_of q) (ciphersuite_of a) = Ok tt →
  let next := merge_public_group (public_group a) (staged_public (result_staged r)) in
  treesync public = treesync next → group_context public = group_context next →
  group_confirmation_tag public = group_confirmation_tag next →
  ∃ n' w ks joined,
    welcome_secrets_of (tree_diff (result_diff r)) (result_joiner_secret r) (plain_path (result_path r))
      (presharedkeys (result_values r)) (own_leaf_index a) i = Some (Ok w) ∧
    process_welcome (ciphersuite_of a) storage store w = Ok (ks, result_welcome_secret r) ∧
    stage_welcome (ciphersuite_of a) ks w public i (own_leaf_index a) = Some (Ok joined) ∧
    welcome_epoch_secrets joined = staged_epoch_secrets (result_staged r) ∧
    same_messages i (own_leaf_index a) (welcome_message_secrets joined) (staged_message_secrets (result_staged r)) ∧
    Forall (valid (ciphersuite_of a)) (default [] (welcome_path_keypairs joined)) ∧
    keys_of (empty_diff (sync_tree (treesync public))) n' i
      = leaf_encryption_key (add_leaf_node k) :: (public_key <$> default [] (welcome_path_keypairs joined)).
Proof using Type*.
  cbn zeta. intros Ht Hq Hext Hs Hbuild Hin Hpsks Hval Etree Ectx Etag.
  destruct (build_commit_spec _ _ _ _ _ _ Hext Hbuild) as (d & g & m & secrets & ser & staged & Hb).
  destruct (proposals_applied a n M q p random dc r d g m secrets ser staged Ht Hq Hb) as (x & n' & M' & new & Ha).
  destruct (next_tree a n M q p random dc r d g m secrets ser staged Hext Hs Hb x n' M' new Ha) as (Est & _ & Hg & _ & Hkeys).
  rewrite Est in Etree, Ectx, Etag.
  destruct (invited_new a n M q p random dc r d g m secrets ser staged Hs Hb x n' M' new Ha i k Hin) as (_ & Hi & _).
  edestruct (invited_keys a n M q p random dc r d g m secrets ser staged Hext Hs Hb x n' M' new Ha i k (treesync public))
    as (w & Ew & Ejoin & Eps & pairs & Hv & Hpath & Hk); [done|by rewrite Etree|].
  destruct (joined_schedule a r g m (loaded_psks p) secrets ser staged (commit_secret (result_path r)) storage store w)
    as (ks & ks' & ks'' & Eproc & Eadd & Esec & Eser & Econf); [apply Hb|apply Hb|by rewrite Eps..|done|].
  destruct (stage_welcome_ok a secrets ser w public i (own_leaf_index a) pairs ks ks' ks'')
    as (joined & Ej & _ & Esplit & Epairs); [done..|by rewrite Ectx|by rewrite Ectx, Etag|done|].
  exists n', w, ks, joined. do 3 (split; [done|]). rewrite Epairs, Etree.
  assert (Esize : tree.tree_size (sync_tree (treesync public)) = diff.size (tree_diff (result_diff r))).
  { rewrite Etree, (group_size _ _ _ Hg). symmetry.
    rewrite (result_tree a q p random dc r d g m secrets ser staged Hb). apply stands_size.
    by destruct (next_fitting a n M q p random dc r d g m secrets ser staged Hext Hs Hb x n' M' new Ha) as [[] _]. }
  rewrite Esize in Esplit. rewrite (built_result Hb). unfold split_secrets in *. injection Esplit as -> ->.
  split; [done|]. split; [split; try done; by do 2 eexists|]. split; [done|]. rewrite Hkeys, Hk; [done|].
  apply (fitting_inside d n' M'); [by eapply applied_fitting|done].
Qed.
End epochs.

(** ** A group of three: member 2 commits to two new members, an update of 1 and the removal of 0

    The toy provider hashes by sums and seals without secrecy. *)

Definition toy_digest (n : N) (b : bytes) : bytes :=
  let x := toy_sum b in (λ i, octet (x + N.of_nat i * (2 * x + 1))) <$> seq 0 (N.to_nat n).

#[export] Instance toy_tree_crypto : TreeCrypto := {|
  crypto_hash h b := Some (toy_digest (hash_size h) b);
  crypto_derive_hpke_keypair _ ikm := Some (ikm, ikm);
  crypto_hpke_seal _ coins public info plaintext := Some (public ++ info, plaintext);
  crypto_hpke_open _ ciphertext private info :=
    if bool_decide (ciphertext.1 = private ++ info) then Some ciphertext.2 else None;
  tls_tree_hash_input i :=
    Some match i with
         | LeafNodeHashInput i l => octet i :: match l with Some l => leaf_encryption_key l | None => [] end
         | ParentNodeHashInput p l r => match p with Some p => parent_encryption_key p | None => [] end ++ l ++ r
         end;
  tls_parent_hash_input i := Some (hashed_public_key i ++ hashed_parent_hash i ++ original_sibling_tree_hash i);
  tls_encrypt_context label context := Some (label ++ context);
  sign_leaf_node l := Some (encryption_key (tbs_payload l));
|}.

#[export] Instance toy_tree_laws : TreeLaws.
Proof. split. intros c ikm pk sk coins info m ct [= <- <-] [= <-]. cbn. by rewrite bool_decide_eq_true_2. Qed.

#[export] Instance toy_schedule_crypto : ScheduleCrypto := {|
  crypto_hkdf_extract h salt ikm := Some (toy_digest (hash_size h) (salt ++ ikm));
  crypto_hmac h key message := Some (toy_digest (hash_size h) (key ++ message));
  tls_psk_label l := Some (octet (label_index l) :: octet (label_count l) :: psk_nonce (label_id l));
  crypto_hpke_setup_receiver_and_export _ enc private info context n := Some (toy_digest n (enc ++ private ++ info ++ context));
|}.

#[export] Instance toy_commit_codec : CommitCodec := {|
  tls_group_context g := Some (octet (context_epoch g) :: context_tree_hash g ++ confirmed_transcript_hash g);
  tls_confirmed_transcript_hash_input _ content signature := Some (octet (MlsMessages.epoch content) :: signature);
  tls_interim_transcript_hash_input tag := Some tag;
  tls_group_secrets := {|
    tls_serialize s := Some (toy_write (secret_value (welcome_joiner_secret s)));
    tls_deserialize b := let! (joiner, rest) <- toy_read b in Some (MkWelcomeSecrets (MkSecret joiner) None [], rest);
  |};
  tls_key_package k := Some (init_key (package_payload k));
  tls_hash_reference_input label value := Some (label ++ value);
  decode_required_capabilities _ := MkRequiredCapabilities [] [] [];
  sign_content _ content context := Some (octet (MlsMessages.epoch content) :: context);
|}.

Definition toy_capabilities : Capabilities := MkCapabilities [] [] [] [] [].

Definition toy_public : PublicGroup :=
  MkPublicGroup (MkTreeSync toy_group []) (MkGroupContext 1 toy_suite [Byte.x0a] 7 [] [] []) [] [].

(** Member [i] of the group with its private key, which is the public one *)
Definition toy_member (i : N) (key : Byte.byte) : MlsGroup :=
  MkMlsGroup toy_public i
    (MkGroupEpochSecrets (toy_secret Byte.x11) (toy_secret Byte.x12) (toy_secret Byte.x13) (toy_secret Byte.x14) (toy_secret Byte.x15))
    (new_with_secret 5 (toy_secrets Byte.x09)) (new_psk_store 2) (λ _, None) [MkEncryptionKeyPair [key] [key]].

Definition toy_parameters : CommitParameters :=
  MkCommitParameters false true (MkLeafNodeParameters None None None) None [] None [] PrivateMessageFormat.

Definition toy_randomness : CommitRandomness :=
  MkCommitRandomness (Some (replicate 32 Byte.x21)) (Some (replicate 32 Byte.x22)) (λ _ _, []).

Definition toy_commit : option CommitResult :=
  match build_commit (toy_member 2 Byte.x03) toy_queue toy_parameters toy_randomness toy_capabilities with
  | Some (Ok r) => Some r
  | _ => None
  end.

Lemma toy_committed : ∃ r,
  build_commit (toy_member 2 Byte.x03) toy_queue toy_parameters toy_randomness toy_capabilities = Some (Ok r) ∧ toy_commit = Some r.
Proof.
  assert (H : bool_decide (is_Some toy_commit) = true) by (vm_compute; reflexivity). unfold toy_commit in *.
  destruct (build_commit _ _ _ _ _) as [[r|e]|]; [by exists r|done..].
Qed.

Lemma toy_proposed : Forall (proposed_by_members toy_members) (queued_proposals toy_queue).
Proof. vm_compute. repeat constructor; eexists; try done; split; [done|]; by eexists. Qed.

Lemma toy_keyed i key : i < 4 → keys_of (empty_diff toy_group) 2 i = [[key]] →
  keyed toy_suite toy_group 2 i (epoch_keypairs (toy_member i key)).
Proof. intros Hi E. split; [by repeat constructor; eexists|]. intros pk. by rewrite E. Qed.

Lemma toy_fellow i key update : i = 0 ∧ key = Byte.x01 ∨ i = 1 ∧ key = Byte.x02 ∧ update = [MkEncryptionKeyPair [Byte.x05] [Byte.x05]] →
  Forall (valid toy_suite) update →
  fellow (toy_member 2 Byte.x03) (toy_member i key) 2 toy_members toy_queue (loaded_psks toy_parameters) update.
Proof.
  intros Hi Hv. split; try done.
  - destruct Hi as [[-> _]|[-> _]]; by eexists.
  - by destruct Hi as [[-> _]|[-> _]].
  - by destruct Hi as [[-> ->]|[-> [-> _]]]; apply toy_keyed.
  - destruct Hi as [[-> ->]|(-> & -> & ->)]; intros l; vm_compute; intros [= <-]; cbn; set_solver.
Qed.

Lemma toy_removed : removed_of toy_queue = [0].
Proof. vm_compute. reflexivity. Qed.

Lemma toy_update_valid : Forall (valid toy_suite) [MkEncryptionKeyPair [Byte.x05] [Byte.x05]].
Proof. constructor; [by eexists|constructor]. Qed.

Lemma commit_agreement_witness : ∃ r commit, toy_commit = Some r ∧ body (content (result_commit r)) = CommitBody commit ∧
  (∃ st leaf, stage_commit (toy_member 0 Byte.x01) commit toy_queue 2 (result_commit r) [MkEncryptionKeyPair [Byte.x01] [Byte.x01]] []
    = Some (Ok (PublicState st leaf))) ∧
  ∃ st n, stage_commit (toy_member 1 Byte.x02) commit toy_queue 2 (result_commit r) [MkEncryptionKeyPair [Byte.x02] [Byte.x02]]
      [MkEncryptionKeyPair [Byte.x05] [Byte.x05]] = Some (Ok (GroupMember st)) ∧
    follows (toy_member 2 Byte.x03) (toy_member 1 Byte.x02) r n [MkEncryptionKeyPair [Byte.x05] [Byte.x05]] st.
Proof.
  destruct toy_committed as (r & Hr & Er).
  destruct (commit_agreement (toy_member 2 Byte.x03) 2 toy_members toy_queue toy_parameters toy_randomness toy_capabilities r
    toy_group_tree toy_proposed eq_refl eq_refl (ltac:(by eexists)) (toy_keyed 2 Byte.x03 eq_refl eq_refl) Hr)
    as (commit & n' & M' & new & Hbody & _ & _ & _ & Hothers).
  exists r, commit. split; [done|]. split; [done|]. split.
  - pose proof (Hothers (toy_member 0 Byte.x01) [] (toy_fellow 0 Byte.x01 [] (or_introl (conj eq_refl eq_refl)) (Forall_nil_2 _))) as H.
    cbv zeta in H. rewrite decide_True in H by (rewrite toy_removed; by left).
    destruct H as (st & leaf & E & _). exists st, leaf. exact E.
  - pose proof (Hothers (toy_member 1 Byte.x02) _ (toy_fellow 1 Byte.x02 _ (or_intror (conj eq_refl (conj eq_refl eq_refl))) toy_update_valid)) as H.
    cbv zeta in H. rewrite decide_False in H by (rewrite toy_removed; by intros ?%list_elem_of_singleton).
    destruct H as (st & E & Hst). exists st, n'. split; [exact E|exact Hst].
Defined.

(** Merging drops the key pair of a node that the member is no longer under. *)
Definition toy_staged : MemberStagedCommitState :=
  MkMemberStagedCommitState (group_epoch_secrets (toy_member 2 Byte.x03)) (toy_secrets Byte.x0b)
    (MkStagedPublicGroupDiff (MkStagedTreeSyncDiff (diff.stage (empty_diff toy_group)) []) (group_context toy_public) [] [])
    [MkEncryptionKeyPair [Byte.x0c] [Byte.x0c]] None None.

Lemma toy_fitting : fitting (empty_diff toy_group) 2 toy_members.
Proof.
  assert (Hs : shows (empty_diff toy_group) toy_members).
  { destruct (group_phase _ _ _ toy_group_tree) as [m Hp]. apply Hp. }
  split; [split; [apply toy_group_tree|done..]|apply toy_group_tree|done| |].
  - intros i [l Hi]. rewrite <-(group_members _ _ _ toy_group_tree) in Hi. unfold tree.leaf in Hi. cbn in Hi.
    destruct (decide (i < 4)); [done|]. rewrite lookup_ge_None_2 in Hi by (cbn; lia). done.
  - right. exists 2. split; [by eexists|done].
Qed.

Lemma merge_keeps_keys_witness : ∃ group', merge_commit (toy_member 2 Byte.x03) (GroupMember toy_staged) = Some (group', Ok tt) ∧
  merged_with (toy_member 2 Byte.x03) toy_staged 2 group' ∧ epoch_keypairs group' = [MkEncryptionKeyPair [Byte.x03] [Byte.x03]].
Proof.
  assert (Ek : keys_of (empty_diff (sync_tree (treesync (merge_public_group (public_group (toy_member 2 Byte.x03))
    (staged_public toy_staged))))) 2 (own_leaf_index (toy_member 2 Byte.x03)) = [[Byte.x03]]) by (vm_compute; reflexivity).
  destruct (merge_keeps_keys (toy_member 2 Byte.x03) toy_staged 2 toy_members) as (g & E & Hm).
  - exact (fitting_merged _ _ _ toy_fitting).
  - by eexists.
  - intros pk Hpk. rewrite Ek in Hpk. apply list_elem_of_singleton in Hpk as ->. cbn. by left.
  - rewrite Ek. apply NoDup_singleton.
  - apply NoDup_ListNoDup. repeat constructor; cbn; intuition discriminate.
  - exists g. split; [done|]. split; [done|]. vm_compute in E. by injection E as <-.
Defined.

Lemma welcome_agreement_witness : ∃ r w ks joined, toy_commit = Some r ∧
  process_welcome toy_suite (λ _, None) (new_psk_store 2) w = Ok (ks, result_welcome_secret r) ∧
  stage_welcome toy_suite ks w (merge_public_group toy_public (staged_public (result_staged r))) 3 2 = Some (Ok joined) ∧
  welcome_epoch_secrets joined = staged_epoch_secrets (result_staged r).
Proof.
  destruct toy_committed as (r & Hr & Er).
  assert (Hin : (3, toy_package Byte.x06) ∈ invitation_list (result_values r)).
  { assert (E : (λ r, invitation_list (result_values r)) <$> toy_commit = Some [(0, toy_package Byte.x04); (3, toy_package Byte.x06)])
      by (vm_compute; reflexivity).
    rewrite Er in E. injection E as ->. by right; left. }
  destruct (welcome_agreement (toy_member 2 Byte.x03) 2 toy_members toy_queue toy_parameters toy_randomness toy_capabilities r 3
    (toy_package Byte.x06) (λ _, None) (new_psk_store 2) (merge_public_group toy_public (staged_public (result_staged r)))
    toy_group_tree toy_proposed eq_refl (ltac:(by eexists)) Hr Hin eq_refl eq_refl eq_refl eq_refl eq_refl)
    as (n' & w & ks & joined & _ & Ew & Ej & Es & _).
  exists r, w, ks, joined. split; [exact Er|]. split; [exact Ew|]. split; [exact Ej|exact Es].
Defined.
