(* ===== verification/SenderKeyState.v ===== *)
(** * Sender key chains, states and records

    The in-tree libsignal's [sender_keys.rs], with the key types of [curve.rs] it stores:
    the hash chain a sender's message keys come from, one sending device's state with the
    message keys it has skipped, and the record of a distribution's last states.  The
    primitives (HMAC, HKDF, AES-CBC, curve arithmetic, the protobuf codec) are the class
    [SignalCrypto]; [SignalLaws] has what the proofs rely on, and a toy instance keeps it. *)

From S2P Require Import Prelude ToyMls.
From stdpp Require Import options.

Local Open Scope N_scope.

Definition byte_of (n : N) : Byte.byte := default Byte.x00 (Byte.of_N (n `mod` 256)).

(** ** The primitives *)

(** The fields of the protobuf messages [SenderKeyMessage] and
    [SenderKeyDistributionMessage] *)
Record WireMessage := MkWireMessage {
  wm_uuid : option bytes;
  wm_chain_id : option N;
  wm_iteration : option N;
  wm_ciphertext : option bytes;
}.

Record WireDistribution := MkWireDistribution {
  wd_uuid : option bytes;
  wd_chain_id : option N;
  wd_iteration : option N;
  wd_chain_key : option bytes;
  wd_signing_key : option bytes;
}.

Class SignalCrypto := {
  hmac_sha256 : bytes → bytes → bytes;
  (** [Hkdf::<Sha256>::new(None, seed).expand(info, [0; length])] *)
  hkdf_expand : bytes → bytes → nat → bytes;
  (** Key, initialisation vector and text *)
  cbc_encrypt : bytes → bytes → bytes → bytes;
  cbc_decrypt : bytes → bytes → bytes → option bytes;
  clamp_integer : bytes → bytes;
  derive_public_key : bytes → bytes;
  (** Private key, random bytes and message *)
  curve_sign : bytes → bytes → bytes → bytes;
  curve_verify : bytes → bytes → bytes → bool;
  encode_message : WireMessage → bytes;
  decode_message : bytes → option WireMessage;
  encode_distribution : WireDistribution → bytes;
  decode_distribution : bytes → option WireDistribution;
  (** A [Uuid] is its 128-bit number. *)
  uuid_bytes : N → bytes;
  uuid_from_slice : bytes → option N;
}.

Definition u32_field (o : option N) : Prop := match o with Some n => n <= u32_max | None => True end.

Class SignalLaws {crypto : SignalCrypto} := {
  hmac_length k b : length (hmac_sha256 k b) = 32%nat;
  hkdf_length s i n : length (hkdf_expand s i n) = n;
  cbc_roundtrip k iv p : cbc_decrypt k iv (cbc_encrypt k iv p) = Some p;
  cbc_blocks k iv p :
    cbc_encrypt k iv p ≠ [] ∧ (length (cbc_encrypt k iv p) `mod` 16 = 0)%nat;
  clamp_length k : length (clamp_integer k) = length k;
  clamp_twice k : clamp_integer (clamp_integer k) = clamp_integer k;
  derive_length k : length (derive_public_key k) = 32%nat;
  sign_length k r m : length (curve_sign k r m) = 64%nat;
  verify_sign k r m :
    clamp_integer k = k → curve_verify (derive_public_key k) m (curve_sign k r m) = true;
  message_roundtrip m :
    u32_field (wm_chain_id m) → u32_field (wm_iteration m) →
    decode_message (encode_message m) = Some m;
  distribution_roundtrip d :
    u32_field (wd_chain_id d) → u32_field (wd_iteration d) →
    decode_distribution (encode_distribution d) = Some d;
  (** The encoding contains the byte fields. *)
  distribution_length d ck sk :
    wd_chain_key d = Some ck → wd_signing_key d = Some sk →
    (length ck + length sk <= length (encode_distribution d))%nat;
  uuid_roundtrip u : u <= u128_max → uuid_from_slice (uuid_bytes u) = Some u;
}.

(** ** Curve keys *)

Inductive CurveError :=
| NoKeyTypeIdentifier
| BadKeyType (t : Byte.byte)
| BadKeyLength (n : nat)
| InvalidKeyAgreement.

(** [KeyType::Djb] *)
Definition DJB : Byte.byte := Byte.x05.

(** The 32 bytes of a Djb key *)
Record PublicKey := DjbPublicKey { public_key_bytes : bytes }.
Record PrivateKey := DjbPrivateKey { private_key_bytes : bytes }.

#[export] Instance public_key_eq_dec : EqDecision PublicKey.
Proof. solve_decision. Defined.

Section curve.
Context {crypto : SignalCrypto}.

Definition public_serialize (k : PublicKey) : bytes := DJB :: public_key_bytes k.

Definition public_deserialize (value : bytes) : result CurveError PublicKey :=
  match value with
  | [] => Err NoKeyTypeIdentifier
  | t :: value =>
      if decide (t = DJB) then
        if (length value <? 32)%nat then Err (BadKeyLength (length value + 1))
        else Ok (DjbPublicKey (take 32 value))
      else Err (BadKeyType t)
  end.

Definition private_serialize (k : PrivateKey) : bytes := private_key_bytes k.

Definition private_deserialize (value : bytes) : result CurveError PrivateKey :=
  if (length value =? 32)%nat then Ok (DjbPrivateKey (clamp_integer value))
  else Err (BadKeyLength (length value)).

Definition calculate_signature (k : PrivateKey) (random message : bytes) : bytes :=
  curve_sign (private_key_bytes k) random message.

Definition verify_signature (k : PublicKey) (message signature : bytes) : bool :=
  if (length signature =? 64)%nat then curve_verify (public_key_bytes k) message signature
  else false.

Record KeyPair := MkKeyPair { kp_public : PublicKey; kp_private : PrivateKey }.

(** [KeyPair::generate] from 32 random bytes *)
Definition generate (random : bytes) : KeyPair :=
  let k := clamp_integer random in
  MkKeyPair (DjbPublicKey (derive_public_key k)) (DjbPrivateKey k).
End curve.

(** ** Chains *)

Inductive SignalProtocolError :=
| InvalidArgument (what : string)
| InvalidState (f : string) (what : string)
| InvalidProtobufEncoding
| CiphertextMessageTooShort (n : nat)
| LegacyCiphertextVersion (v : N)
| UnrecognizedCiphertextVersion (v : N)
| UnrecognizedMessageVersion (v : N)
| FromCurve (e : CurveError)
| SignatureValidationFailed
| UntrustedIdentity (address : string)
| InvalidPreKeyId
| InvalidSignedPreKeyId
| InvalidKyberPreKeyId
| NoSenderKeyState (distribution_id : N)
| SessionNotFound (address : string)
| InvalidSessionStructure (what : string)
| InvalidSenderKeySession (distribution_id : N)
| DuplicatedMessage (current iteration : N)
| InvalidMessage (message_type what : string)
| BadKEMKeyType (t : Byte.byte)
| WrongKEMKeyType (found expected : Byte.byte)
| BadKEMKeyLength (key_type : string) (n : nat)
| BadKEMCiphertextLength (key_type : string) (n : nat)
| InvalidMacKeyLength (n : nat)
(** Not an error of the source: an assertion fails and the task ends. *)
| Panicked (assertion : string).

Abbreviation outcome := (result SignalProtocolError).

Definition MAX_FORWARD_JUMPS : N := 25000.
Definition MAX_MESSAGE_KEYS : nat := 2000.
Definition MAX_SENDER_KEY_STATES : nat := 5.

Section chains.
Context {crypto : SignalCrypto}.

Record SenderMessageKey := MkMessageKey {
  mk_iteration : N;
  iv : bytes;
  cipher_key : bytes;
  mk_seed : bytes;
}.

Definition WHISPER_GROUP : bytes := String.list_byte_of_string "WhisperGroup".

Definition message_key_new (iteration : N) (seed : bytes) : SenderMessageKey :=
  let derived := hkdf_expand seed WHISPER_GROUP 48 in
  MkMessageKey iteration (take 16 derived) (drop 16 derived) seed.

Record SenderChainKey := MkChainKey { iteration : N; chain_key : bytes }.

Definition MESSAGE_KEY_SEED : Byte.byte := Byte.x01.
Definition CHAIN_KEY_SEED : Byte.byte := Byte.x02.

Definition get_derivative (k : SenderChainKey) (label : Byte.byte) : bytes :=
  hmac_sha256 (chain_key k) [label].

Definition next (k : SenderChainKey) : outcome SenderChainKey :=
  if iteration k + 1 <=? u32_max
  then Ok (MkChainKey (iteration k + 1) (get_derivative k CHAIN_KEY_SEED))
  else Err (InvalidState "sender_chain_key_next" "Sender chain is too long").

Definition sender_message_key (k : SenderChainKey) : SenderMessageKey :=
  message_key_new (iteration k) (get_derivative k MESSAGE_KEY_SEED).

(** ** States *)

(** A message key as it is stored *)
Record StoredKey := MkStoredKey { sk_iteration : N; sk_seed : bytes }.

Definition from_protobuf (k : StoredKey) : SenderMessageKey :=
  message_key_new (sk_iteration k) (sk_seed k).
Definition as_protobuf (k : SenderMessageKey) : StoredKey :=
  MkStoredKey (mk_iteration k) (mk_seed k).

(** [SenderKeyStateStructure]; the signing keys are stored in serialised form. *)
Record SenderKeyState := MkState {
  stored_version : N;
  chain_id : N;
  sender_chain_key : option SenderChainKey;
  sender_signing_key : option (bytes * bytes);
  sender_message_keys : list StoredKey;
}.

Definition new_state (message_version chain_id iteration : N) (chain_key : bytes)
    (signature_key : PublicKey) (signature_private_key : option PrivateKey) : SenderKeyState :=
  MkState message_version chain_id (Some (MkChainKey iteration chain_key))
    (Some (public_serialize signature_key,
           match signature_private_key with None => [] | Some k => private_serialize k end)) [].

Definition message_version (s : SenderKeyState) : N :=
  if stored_version s =? 0 then 3 else stored_version s.

Definition set_sender_chain_key (s : SenderKeyState) (k : SenderChainKey) : SenderKeyState :=
  MkState (stored_version s) (chain_id s) (Some k) (sender_signing_key s) (sender_message_keys s).

Definition set_message_keys (s : SenderKeyState) (l : list StoredKey) : SenderKeyState :=
  MkState (stored_version s) (chain_id s) (sender_chain_key s) (sender_signing_key s) l.

(** [None] is an [InvalidSessionError]. *)
Definition signing_key_public (s : SenderKeyState) : option PublicKey :=
  let! keys <- sender_signing_key s in
  match public_deserialize keys.1 with Ok k => Some k | Err _ => None end.

Definition signing_key_private (s : SenderKeyState) : option PrivateKey :=
  let! keys <- sender_signing_key s in
  match private_deserialize keys.2 with Ok k => Some k | Err _ => None end.

(** Pushing a key drops the oldest ones beyond [MAX_MESSAGE_KEYS]. *)
Definition add_sender_message_key (s : SenderKeyState) (k : SenderMessageKey) : SenderKeyState :=
  let l := sender_message_keys s ++ [as_protobuf k] in
  set_message_keys s (drop (length l - MAX_MESSAGE_KEYS) l).

(** [position] and [remove]: the first stored key of the iteration. *)
Fixpoint take_key (iteration : N) (l : list StoredKey) : option (StoredKey * list StoredKey) :=
  match l with
  | [] => None
  | k :: l =>
      if sk_iteration k =? iteration then Some (k, l)
      else let! (found, rest) <- take_key iteration l in Some (found, k :: rest)
  end.

Definition remove_sender_message_key (s : SenderKeyState) (iteration : N) :
    option (SenderMessageKey * SenderKeyState) :=
  let! (k, l) <- take_key iteration (sender_message_keys s) in
  Some (from_protobuf k, set_message_keys s l).

End chains.

(** ** Records *)

(** The states of a distribution, the current one first *)
Abbreviation SenderKeyRecord := (list SenderKeyState).

Section records.
Context {crypto : SignalCrypto}.

Definition new_empty : SenderKeyRecord := [].

Definition sender_key_state (r : SenderKeyRecord) : option SenderKeyState := head r.

Definition sender_key_state_for_chain_id (r : SenderKeyRecord) (id : N) : option SenderKeyState :=
  head (filter (λ s, chain_id s =? id) r).

(** Writing through the [&mut SenderKeyState] of the first state of a chain *)
Fixpoint update_state (r : SenderKeyRecord) (id : N) (s : SenderKeyState) : SenderKeyRecord :=
  match r with
  | [] => []
  | s' :: r => if chain_id s' =? id then s :: r else s' :: update_state r id s
  end.

Definition matches (id : N) (key : PublicKey) (s : SenderKeyState) : bool :=
  (chain_id s =? id) && bool_decide (signing_key_public s = Some key).

(** [find_position] and [remove] *)
Fixpoint remove_state (id : N) (key : PublicKey) (r : SenderKeyRecord) :
    option SenderKeyState * SenderKeyRecord :=
  match r with
  | [] => (None, [])
  | s :: r =>
      if matches id key s then (Some s, r)
      else let '(found, rest) := remove_state id key r in (found, s :: rest)
  end.

Definition remove_states_with_chain_id (id : N) (r : SenderKeyRecord) : SenderKeyRecord :=
  filter (λ s, negb (chain_id s =? id)) r.

Definition add_sender_key_state (r : SenderKeyRecord) (message_version id iteration : N)
    (chain_key : bytes) (signature_key : PublicKey) (signature_private_key : option PrivateKey) :
    SenderKeyRecord :=
  let '(existing, r) := remove_state id signature_key r in
  let r := remove_states_with_chain_id id r in
  let state := match existing with
               | None => new_state message_version id iteration chain_key signature_key
                           signature_private_key
               | Some s => s
               end in
  state :: take (MAX_SENDER_KEY_STATES - 1) r.
End records.

(** ** Keys and their serialisation *)

Section laws.
Context {crypto : SignalCrypto} {laws : SignalLaws}.

Lemma public_roundtrip k :
  length (public_key_bytes k) = 32%nat → public_deserialize (public_serialize k) = Ok k.
Proof.
  intros Hk. unfold public_deserialize, public_serialize. rewrite decide_True by done.
  rewrite Hk. cbn. rewrite take_ge by lia. by destruct k.
Qed.

Lemma private_roundtrip k :
  length (private_key_bytes k) = 32%nat → clamp_integer (private_key_bytes k) = private_key_bytes k →
  private_deserialize (private_serialize k) = Ok k.
Proof.
  intros Hk Hc. unfold private_deserialize, private_serialize. rewrite Hk. cbn.
  rewrite Hc. by destruct k.
Qed.

(** A pair whose signatures its public key verifies *)
Definition sound_pair (kp : KeyPair) : Prop :=
  length (public_key_bytes (kp_public kp)) = 32%nat
  ∧ length (private_key_bytes (kp_private kp)) = 32%nat
  ∧ clamp_integer (private_key_bytes (kp_private kp)) = private_key_bytes (kp_private kp)
  ∧ public_key_bytes (kp_public kp) = derive_public_key (private_key_bytes (kp_private kp)).

Lemma generate_sound random : length random = 32%nat → sound_pair (generate random).
Proof using laws.
  intros H. split_and!; cbn; [apply derive_length|by rewrite clamp_length|apply clamp_twice|done].
Qed.

Lemma verify_calculated kp r m :
  sound_pair kp →
  verify_signature (kp_public kp) m (calculate_signature (kp_private kp) r m) = true.
Proof using laws.
  intros (_ & _ & Hc & Hp). unfold verify_signature, calculate_signature.
  rewrite sign_length. cbn. rewrite Hp. by apply verify_sign.
Qed.
End laws.

(** * Toy primitives for the Signal components

    The smallest primitives that keep the promises of [SignalLaws], without secrecy: the
    theorems about sender keys are applied to them on concrete runs. *)

Local Open Scope N_scope.

(** Cut or filled up to [n] bytes *)
Definition pad (n : nat) (b : bytes) : bytes := take n (b ++ replicate n Byte.x00).

Lemma pad_length n b : length (pad n b) = n.
Proof. unfold pad. rewrite length_take, length_app, length_replicate. lia. Qed.

(** The last byte of a public key is zero. *)
Definition toy_public (k : bytes) : bytes := pad 31 k ++ [Byte.x00].

Lemma toy_public_length k : length (toy_public k) = 32%nat.
Proof. unfold toy_public. by rewrite length_app, pad_length. Qed.

(** A text, a mark, and zeros up to 16 times its length and one *)
Definition toy_encrypt (p : bytes) : bytes :=
  p ++ Byte.x01 :: replicate (15 * S (length p)) Byte.x00.
Definition toy_decrypt (c : bytes) : option bytes := Some (take (length c `div` 16 - 1) c).

Lemma toy_encrypt_length p : length (toy_encrypt p) = (16 * S (length p))%nat.
Proof. unfold toy_encrypt. rewrite length_app. cbn [length]. rewrite length_replicate. lia. Qed.

(** The two byte fields follow the encoded fields. *)
Definition toy_distribution (d : WireDistribution) : bytes :=
  to_bytes (wd_uuid d, wd_chain_id d, wd_iteration d, wd_chain_key d, wd_signing_key d)
  ++ Byte.x02 :: default [] (wd_chain_key d) ++ default [] (wd_signing_key d).

Fixpoint before_mark (b : bytes) : bytes :=
  match b with
  | [] => []
  | Byte.x02 :: _ => []
  | x :: b => x :: before_mark b
  end.

Lemma before_mark_bits p rest : before_mark (bits p ++ Byte.x02 :: rest) = bits p.
Proof. induction p; cbn; by rewrite ?IHp. Qed.

Lemma of_bits {A} `{Countable A} (x : A) : of_bytes (bits (encode x)) = Some x.
Proof. apply of_to_bytes. Qed.

#[export] Instance toy_crypto : SignalCrypto := {|
  hmac_sha256 k b := pad 32 (b ++ k);
  hkdf_expand s i n := pad n (s ++ i);
  cbc_encrypt _ _ p := toy_encrypt p;
  cbc_decrypt _ _ c := toy_decrypt c;
  clamp_integer k := k;
  derive_public_key k := toy_public k;
  curve_sign k _ m := toy_public k ++ pad 32 m;
  curve_verify k m s := bool_decide (s = k ++ pad 32 m);
  encode_message m := to_bytes (wm_uuid m, wm_chain_id m, wm_iteration m, wm_ciphertext m);
  decode_message b :=
    '(u, c, i, t) ← of_bytes (A := option bytes * option N * option N * option bytes) b;
    Some (MkWireMessage u c i t);
  encode_distribution := toy_distribution;
  decode_distribution b :=
    '(u, c, i, k, s) ← of_bytes (A := option bytes * option N * option N * option bytes * option bytes)
                         (before_mark b);
    Some (MkWireDistribution u c i k s);
  uuid_bytes u := to_bytes u;
  uuid_from_slice b := of_bytes b;
|}.

#[export] Program Instance toy_signal_laws : SignalLaws.
Next Obligation. intros. apply pad_length. Qed.
Next Obligation. intros. apply pad_length. Qed.
Next Obligation.
  intros k iv p. change (toy_decrypt (toy_encrypt p) = Some p). unfold toy_decrypt. rewrite toy_encrypt_length.
  rewrite Nat.mul_comm, Nat.div_mul by done. cbn [Nat.sub]. rewrite Nat.sub_0_r.
  unfold toy_encrypt. by rewrite take_app_length.
Qed.
Next Obligation.
  intros k iv p. change (cbc_encrypt k iv p) with (toy_encrypt p). rewrite toy_encrypt_length.
  split; [by destruct p|]. rewrite (Nat.mul_comm 16). apply Nat.Div0.mod_mul.
Qed.
Next Obligation. done. Qed.
Next Obligation. done. Qed.
Next Obligation. intros. apply toy_public_length. Qed.
Next Obligation. intros. cbn. by rewrite length_app, toy_public_length, pad_length. Qed.
Next Obligation. intros k r m _. cbn. by apply bool_decide_eq_true_2. Qed.
Next Obligation. intros [] _ _. cbn. by rewrite of_to_bytes. Qed.
Next Obligation.
  intros [u c i k s] _ _. cbn. unfold toy_distribution. cbn [wd_uuid wd_chain_id wd_iteration wd_chain_key
    wd_signing_key]. unfold to_bytes at 1. rewrite before_mark_bits.
  rewrite of_bits. done.
Qed.
Next Obligation.
  intros [u c i k s] ck sk E1 E2. cbn in *. subst. unfold toy_distribution. cbn. rewrite length_app.
  cbn [length]. rewrite length_app. lia.
Qed.
Next Obligation. intros u _. cbn. apply of_to_bytes. Qed.
