(* ===== verification/GroupCipher.v ===== *)
(** * Group encryption with sender keys

    The in-tree libsignal's [group_cipher.rs] over the messages of [protocol.rs] and the
    in-memory store: a sender's messages are sealed with the keys of its chain, and a
    recipient that has processed the sender's distribution message opens them, in any
    order, each once ([any_order_once]). *)

From S2P Require Import Prelude SenderKeyState.
From stdpp Require Import options.

Local Open Scope N_scope.

Definition SENDERKEY_MESSAGE_CURRENT_VERSION : N := 3.
Definition SIGNATURE_LEN : nat := 64.

Section messages.
Context {crypto : SignalCrypto}.

(** ** Messages *)

Record SenderKeyMessage := MkMessage {
  m_version : N;
  m_distribution_id : N;
  m_chain_id : N;
  m_iteration : N;
  m_ciphertext : bytes;
  m_serialized : bytes;
}.

(** [((message_version & 0xF) << 4) | SENDERKEY_MESSAGE_CURRENT_VERSION] *)
Definition version_byte (version : N) : Byte.byte :=
  byte_of (N.lor (N.shiftl (N.land version 15) 4) SENDERKEY_MESSAGE_CURRENT_VERSION).

Definition message_new (version distribution_id chain_id iteration : N) (ciphertext random : bytes)
    (signature_key : PrivateKey) : SenderKeyMessage :=
  let proto := MkWireMessage (Some (uuid_bytes distribution_id)) (Some chain_id) (Some iteration)
                 (Some ciphertext) in
  let serialized := version_byte version :: encode_message proto in
  let signature := calculate_signature signature_key random serialized in
  MkMessage SENDERKEY_MESSAGE_CURRENT_VERSION distribution_id chain_id iteration ciphertext
    (serialized ++ signature).

(** [verify_signature] splits the signature off the serialised message. *)
Definition message_signed_by (m : SenderKeyMessage) (key : PublicKey) : bool :=
  let n := (length (m_serialized m) - SIGNATURE_LEN)%nat in
  verify_signature key (take n (m_serialized m)) (drop n (m_serialized m)).

Definition check_version (first : Byte.byte) : outcome N :=
  let version := N.shiftr (Byte.to_N first) 4 in
  if version <? SENDERKEY_MESSAGE_CURRENT_VERSION then Err (LegacyCiphertextVersion version)
  else if SENDERKEY_MESSAGE_CURRENT_VERSION <? version then Err (UnrecognizedCiphertextVersion version)
  else Ok version.

Definition uuid_field (o : option bytes) : outcome N :=
  ok_or (o ≫= uuid_from_slice) InvalidProtobufEncoding.

Definition message_try_from (value : bytes) : outcome SenderKeyMessage :=
  match value with
  | first :: rest =>
      if (length value <? 1 + SIGNATURE_LEN)%nat then Err (CiphertextMessageTooShort (length value))
      else
        let? version <- check_version first in
        let? proto <- ok_or (decode_message (take (length rest - SIGNATURE_LEN) rest))
                        InvalidProtobufEncoding in
        let? distribution_id <- uuid_field (wm_uuid proto) in
        let? chain_id <- ok_or (wm_chain_id proto) InvalidProtobufEncoding in
        let? iteration <- ok_or (wm_iteration proto) InvalidProtobufEncoding in
        let? ciphertext <- ok_or (wm_ciphertext proto) InvalidProtobufEncoding in
        Ok (MkMessage version distribution_id chain_id iteration ciphertext value)
  | [] => Err (CiphertextMessageTooShort 0)
  end.

Record SenderKeyDistributionMessage := MkDistribution {
  d_version : N;
  d_distribution_id : N;
  d_chain_id : N;
  d_iteration : N;
  d_chain_key : bytes;
  d_signing_key : PublicKey;
  d_serialized : bytes;
}.

Definition distribution_new (version distribution_id chain_id iteration : N) (chain_key : bytes)
    (signing_key : PublicKey) : SenderKeyDistributionMessage :=
  let proto := MkWireDistribution (Some (uuid_bytes distribution_id)) (Some chain_id)
                 (Some iteration) (Some chain_key) (Some (public_serialize signing_key)) in
  MkDistribution version distribution_id chain_id iteration chain_key signing_key
    (version_byte version :: encode_distribution proto).

Definition distribution_try_from (value : bytes) : outcome SenderKeyDistributionMessage :=
  match value with
  | first :: rest =>
      if (length value <? 1 + 32 + 32)%nat then Err (CiphertextMessageTooShort (length value))
      else
        let? version <- check_version first in
        let? proto <- ok_or (decode_distribution rest) InvalidProtobufEncoding in
        let? distribution_id <- uuid_field (wd_uuid proto) in
        let? chain_id <- ok_or (wd_chain_id proto) InvalidProtobufEncoding in
        let? iteration <- ok_or (wd_iteration proto) InvalidProtobufEncoding in
        let? chain_key <- ok_or (wd_chain_key proto) InvalidProtobufEncoding in
        let? signing_key <- ok_or (wd_signing_key proto) InvalidProtobufEncoding in
        if negb (length chain_key =? 32)%nat || negb (length signing_key =? 33)%nat
        then Err InvalidProtobufEncoding
        else match public_deserialize signing_key with
             | Ok key => Ok (MkDistribution version distribution_id chain_id iteration chain_key key value)
             | Err e => Err (FromCurve e)
             end
  | [] => Err (CiphertextMessageTooShort 0)
  end.

(** ** The store *)

(** A [ProtocolAddress]: a name and a device *)
Record ProtocolAddress := MkAddress { address_name : string; device_id : N }.

#[export] Instance address_eq_dec : EqDecision ProtocolAddress.
Proof. solve_decision. Defined.
#[export] Program Instance address_countable : Countable ProtocolAddress :=
  inj_countable' (λ a, (address_name a, device_id a)) (λ p, MkAddress p.1 p.2) _.
Next Obligation. by intros []. Qed.

(** [InMemSenderKeyStore] *)
Definition store_sender_key (s : gmap (ProtocolAddress * N) SenderKeyRecord) (a : ProtocolAddress)
    (id : N) (r : SenderKeyRecord) : gmap (ProtocolAddress * N) SenderKeyRecord :=
  <[(a, id) := r]> s.
End messages.

Abbreviation SenderKeyStore := (gmap (ProtocolAddress * N) SenderKeyRecord).

Section cipher.
Context {crypto : SignalCrypto}.

Implicit Types (store : SenderKeyStore) (sender : ProtocolAddress) (distribution_id : N).

(** ** AES-256-CBC, with the lengths it checks *)

(** [None] is [BadKeyOrIv]. *)
Definition aes_256_cbc_encrypt (ptext key iv : bytes) : option bytes :=
  if (length key =? 32)%nat && (length iv =? 16)%nat then Some (cbc_encrypt key iv ptext) else None.

Inductive DecryptionError := BadKeyOrIv | BadCiphertext.

Definition aes_256_cbc_decrypt (ctext key iv : bytes) : result DecryptionError bytes :=
  if bool_decide (ctext = []) || negb (length ctext `mod` 16 =? 0)%nat then Err BadCiphertext
  else if (length key =? 32)%nat && (length iv =? 16)%nat
  then ok_or (cbc_decrypt key iv ctext) BadCiphertext
  else Err BadKeyOrIv.

(** ** Sealing *)

(** [message_version().try_into()] to [u8] *)
Definition version_u8 (s : SenderKeyState) : option N :=
  let v := message_version s in if v <=? 255 then Some v else None.

Definition group_encrypt store sender distribution_id (plaintext random : bytes) :
    SenderKeyStore * outcome SenderKeyMessage :=
  let attempt :=
    let? record <- ok_or (store !! (sender, distribution_id)) (NoSenderKeyState distribution_id) in
    let invalid := InvalidSenderKeySession distribution_id in
    let? state <- ok_or (sender_key_state record) invalid in
    let? version <- ok_or (version_u8 state) invalid in
    let? chain <- ok_or (sender_chain_key state) invalid in
    let keys := sender_message_key chain in
    let? ciphertext <- ok_or (aes_256_cbc_encrypt plaintext (cipher_key keys) (iv keys)) invalid in
    let? signing_key <- ok_or (signing_key_private state) invalid in
    let skm := message_new version distribution_id (chain_id state) (mk_iteration keys) ciphertext
                 random signing_key in
    let? chain <- next chain in
    Ok (set_sender_chain_key state chain :: tail record, skm) in
  match attempt with
  | Ok (record, skm) => (store_sender_key store sender distribution_id record, Ok skm)
  | Err e => (store, Err e)
  end.

(** ** Opening *)

(** The loop [while sender_chain_key.iteration() < iteration] *)
Fixpoint skip_keys (fuel : nat) (s : SenderKeyState) (k : SenderChainKey) (iteration : N) :
    outcome (SenderKeyState * SenderChainKey) :=
  match fuel with
  | O => Ok (s, k)
  | S fuel =>
      if SenderKeyState.iteration k <? iteration then
        let s := add_sender_message_key s (sender_message_key k) in
        let? k <- next k in skip_keys fuel s k iteration
      else Ok (s, k)
  end.

Definition get_sender_key (s : SenderKeyState) (iteration distribution_id : N) :
    outcome (SenderKeyState * SenderMessageKey) :=
  let? chain <- ok_or (sender_chain_key s) (InvalidSenderKeySession distribution_id) in
  let current := SenderKeyState.iteration chain in
  if iteration <? current then
    match remove_sender_message_key s iteration with
    | Some (key, s) => Ok (s, key)
    | None => Err (DuplicatedMessage current iteration)
    end
  else if MAX_FORWARD_JUMPS <? iteration - current
  then Err (InvalidMessage "SenderKey" "message from too far into the future")
  else
    let? (s, chain) <- skip_keys (N.to_nat (iteration - current)) s chain iteration in
    let? following <- next chain in
    Ok (set_sender_chain_key s following, sender_message_key chain).

Definition group_decrypt (skm_bytes : bytes) store sender : SenderKeyStore * outcome bytes :=
  let attempt :=
    let? skm <- message_try_from skm_bytes in
    let distribution_id := m_distribution_id skm in
    let missing := NoSenderKeyState distribution_id in
    let invalid := InvalidSenderKeySession distribution_id in
    let? record <- ok_or (store !! (sender, distribution_id)) missing in
    let? state <- ok_or (sender_key_state_for_chain_id record (m_chain_id skm)) missing in
    if negb (m_version skm =? message_version state)
    then Err (UnrecognizedMessageVersion (m_version skm))
    else
      let? signing_key <- ok_or (signing_key_public state) invalid in
      if negb (message_signed_by skm signing_key) then Err SignatureValidationFailed
      else
        let? (state, key) <- get_sender_key state (m_iteration skm) distribution_id in
        match aes_256_cbc_decrypt (m_ciphertext skm) (cipher_key key) (iv key) with
        | Ok plaintext => Ok (distribution_id, update_state record (m_chain_id skm) state, plaintext)
        | Err BadKeyOrIv => Err invalid
        | Err BadCiphertext => Err (InvalidMessage "SenderKey" "decryption failed")
        end in
  match attempt with
  | Ok (id, record, plaintext) => (store_sender_key store sender id record, Ok plaintext)
  | Err e => (store, Err e)
  end.

(** ** Distribution *)

Definition process_sender_key_distribution_message sender (skdm : SenderKeyDistributionMessage)
    store : SenderKeyStore :=
  let id := d_distribution_id skdm in
  let record := default new_empty (store !! (sender, id)) in
  store_sender_key store sender id
    (add_sender_key_state record (d_version skdm) (d_chain_id skdm) (d_iteration skdm)
       (d_chain_key skdm) (d_signing_key skdm) None).

(** What a new sender key is drawn from *)
Record SenderKeySeeds := MkSeeds {
  chain_id_seed : N;
  chain_seed : bytes;
  signing_seed : bytes;
}.

Definition create_record (seeds : SenderKeySeeds) : SenderKeyRecord :=
  let pair := generate (signing_seed seeds) in
  add_sender_key_state new_empty SENDERKEY_MESSAGE_CURRENT_VERSION
    (N.shiftr (chain_id_seed seeds) 1) 0 (chain_seed seeds) (kp_public pair)
    (Some (kp_private pair)).

Definition create_sender_key_distribution_message sender distribution_id store
    (seeds : SenderKeySeeds) : SenderKeyStore * outcome SenderKeyDistributionMessage :=
  let '(store, record) :=
    match store !! (sender, distribution_id) with
    | Some record => (store, record)
    | None =>
        let record := create_record seeds in
        (store_sender_key store sender distribution_id record, record)
    end in
  let invalid := InvalidSenderKeySession distribution_id in
  (store,
   let? state <- ok_or (sender_key_state record) invalid in
   let? chain <- ok_or (sender_chain_key state) invalid in
   let? version <- ok_or (version_u8 state) invalid in
   let? key <- ok_or (signing_key_public state) invalid in
   Ok (distribution_new version distribution_id (chain_id state) (SenderKeyState.iteration chain)
         (chain_key chain) key)).
End cipher.

(** ** Chains run ahead *)

Section windows.
Context {crypto : SignalCrypto}.

Implicit Types (store : SenderKeyStore) (sender : ProtocolAddress) (distribution_id : N).

Definition seed_at (seed : bytes) (n : nat) : bytes :=
  Nat.iter n (λ s, hmac_sha256 s [CHAIN_KEY_SEED]) seed.

(** The chain [n] steps after [k] *)
Definition chain_at (k : SenderChainKey) (n : nat) : SenderChainKey :=
  MkChainKey (iteration k + N.of_nat n) (seed_at (chain_key k) n).

Lemma chain_at_0 k : chain_at k 0 = k.
Proof. unfold chain_at. cbn. rewrite N.add_0_r. by destruct k. Qed.

Lemma next_chain_at k n :
  iteration k + N.of_nat (S n) <= u32_max → next (chain_at k n) = Ok (chain_at k (S n)).
Proof.
  intros H. unfold next, chain_at, get_derivative. cbn [iteration chain_key].
  rewrite (proj2 (N.leb_le _ _)) by lia. do 2 f_equal. lia.
Qed.

Lemma chain_at_add k n m : chain_at (chain_at k n) m = chain_at k (m + n).
Proof.
  unfold chain_at. cbn. f_equal; [lia|]. unfold seed_at. by rewrite Nat.iter_add.
Qed.

(** The key of message [n], and what is stored of it *)
Definition key_at (k : SenderChainKey) (n : nat) : SenderMessageKey := sender_message_key (chain_at k n).
Definition stored_at (k : SenderChainKey) (n : nat) : StoredKey := as_protobuf (key_at k n).

(** ** The window of a recipient *)

(** The chain has run to [reached]; the keys of [skipped] are kept, oldest first. *)
Record Window := MkWindow { reached : nat; skipped : list nat }.

Definition trim {A} (l : list A) : list A := drop (length l - MAX_MESSAGE_KEYS) l.

Inductive Opening := Opened | AlreadyOpened | TooFar.

(** What becomes of message [j] *)
Definition open_window (w : Window) (j : nat) : Window * Opening :=
  if decide (j < reached w)%nat then
    if decide (j ∈ skipped w)
    then (MkWindow (reached w) (filter (λ i, i ≠ j) (skipped w)), Opened)
    else (w, AlreadyOpened)
  else if decide (MAX_FORWARD_JUMPS < N.of_nat (j - reached w)) then (w, TooFar)
  else (MkWindow (S j) (trim (skipped w ++ seq (reached w) (j - reached w))), Opened).

Definition window_ok (w : Window) : Prop :=
  NoDup (skipped w) ∧ Forall (λ i, i < reached w)%nat (skipped w).

(** The state holds exactly the window's keys of the chain from [k] on. *)
Record follows (s : SenderKeyState) (k : SenderChainKey) (w : Window) : Prop := {
  follows_chain : sender_chain_key s = Some (chain_at k (reached w));
  follows_keys : sender_message_keys s = stored_at k <$> skipped w;
}.

Lemma trim_length {A} (l : list A) : (length (trim l) <= MAX_MESSAGE_KEYS)%nat.
Proof. unfold trim. rewrite length_drop. lia. Qed.

Lemma trim_idemp {A} (l : list A) : trim (trim l) = trim l.
Proof.
  pose proof (trim_length l). unfold trim at 1.
  by replace (length (trim l) - MAX_MESSAGE_KEYS)%nat with 0%nat by lia.
Qed.

Lemma trim_push {A} (l : list A) x : trim (trim l ++ [x]) = trim (l ++ [x]).
Proof.
  unfold trim. rewrite !length_app, length_drop. cbn [length].
  set (n := (length l - MAX_MESSAGE_KEYS)%nat).
  assert (Hn : (n <= length l)%nat) by lia.
  transitivity (drop (length l - n + 1 - MAX_MESSAGE_KEYS) (drop n (l ++ [x]))).
  { by rewrite (drop_app_le l [x] n). }
  rewrite drop_drop. f_equal. lia.
Qed.

Lemma trim_app {A} (l k : list A) : trim (trim l ++ k) = trim (l ++ k).
Proof.
  revert l. induction k as [|x k IH]; intros l.
  - rewrite !app_nil_r. apply trim_idemp.
  - change (x :: k) with ([x] ++ k). rewrite !app_assoc. rewrite <-IH, trim_push. apply IH.
Qed.

Lemma trim_short {A} (l : list A) : (length l <= MAX_MESSAGE_KEYS)%nat → trim l = l.
Proof. intros H. unfold trim. by replace (length l - MAX_MESSAGE_KEYS)%nat with 0%nat by lia. Qed.

Lemma trim_fmap {A B} (f : A → B) l : trim (f <$> l) = f <$> trim l.
Proof. unfold trim. by rewrite length_fmap, fmap_drop. Qed.

Lemma trim_suffix {A} (l : list A) : trim l `suffix_of` l.
Proof. apply suffix_drop. Qed.

Lemma sublist_ok {A} (P : A → Prop) (l k : list A) :
  l `suffix_of` k → NoDup k ∧ Forall P k → NoDup l ∧ Forall P l.
Proof.
  intros [j ->] [Hn Hf]. apply NoDup_app in Hn as (_ & _ & Hn). apply Forall_app in Hf as [_ Hf].
  done.
Qed.

Lemma open_window_ok w j : window_ok w → window_ok (open_window w j).1.
Proof.
  intros [Hn Hf]. unfold open_window. do 2 case_decide; cbn; [|done..|].
  - split; cbn; [by apply NoDup_filter|]. apply Forall_forall. intros i Hi.
    apply list_elem_of_filter in Hi as [_ Hi]. by eapply Forall_forall in Hf.
  - eapply sublist_ok; [apply trim_suffix|]. split.
    + apply NoDup_app. split_and!; [done| |apply NoDup_seq].
      intros i Hi Hs. apply elem_of_seq in Hs. eapply Forall_forall in Hf; [|exact Hi]. cbn in Hf. lia.
    + apply Forall_app. split; [eapply Forall_impl; [exact Hf|]; cbn; lia|].
      apply Forall_seq. cbn. lia.
Qed.

(** ** Opening follows the window *)

Lemma take_key_stored k j l :
  NoDup l →
  take_key (iteration k + N.of_nat j) (stored_at k <$> l)
  = if decide (j ∈ l) then Some (stored_at k j, stored_at k <$> filter (λ i, i ≠ j) l) else None.
Proof.
  induction l as [|i l IH]; intros Hl; [done|]. apply NoDup_cons in Hl as [Hi Hl].
  cbn [fmap list_fmap take_key]. change (sk_iteration (stored_at k i)) with (iteration k + N.of_nat i).
  rewrite filter_cons. destruct (decide (i = j)) as [->|Hne].
  - rewrite N.eqb_refl, decide_True by set_solver. rewrite (decide_False (P := j ≠ j)) by auto.
    do 2 f_equal. symmetry. f_equal. apply filter_all_true. apply Forall_forall.
    intros x Hx ->. done.
  - rewrite (proj2 (N.eqb_neq _ _)) by lia. rewrite IH by done.
    rewrite (decide_True (P := i ≠ j)) by done.
    destruct (decide (j ∈ l)); [rewrite decide_True by set_solver|rewrite decide_False by set_solver];
      done.
Qed.

Definition same_settings (s s' : SenderKeyState) : Prop :=
  stored_version s' = stored_version s ∧ chain_id s' = chain_id s
  ∧ sender_signing_key s' = sender_signing_key s.

Lemma skip_keys_spec k j n : ∀ s w,
  sender_message_keys s = stored_at k <$> skipped w → trim (skipped w) = skipped w →
  (reached w + n = j)%nat → iteration k + N.of_nat j <= u32_max →
  ∃ s', skip_keys n s (chain_at k (reached w)) (iteration k + N.of_nat j) = Ok (s', chain_at k j)
    ∧ sender_message_keys s' = stored_at k <$> trim (skipped w ++ seq (reached w) n)
    ∧ same_settings s s'.
Proof.
  induction n as [|n IH]; intros s w Hk Ht Hj Hmax; cbn [skip_keys].
  - exists s. rewrite Nat.add_0_r in Hj. subst j. cbn. by rewrite app_nil_r, Ht.
  - change (SenderKeyState.iteration (chain_at k (reached w))) with
      (iteration k + N.of_nat (reached w)).
    rewrite (proj2 (N.ltb_lt _ _)) by lia. rewrite next_chain_at by lia.
    edestruct (IH (add_sender_message_key s (sender_message_key (chain_at k (reached w))))
      (MkWindow (S (reached w)) (trim (skipped w ++ [reached w])))) as (s' & Hs & Hkeys & Hset);
      cbn [reached skipped].
    + cbn. rewrite Hk. change [as_protobuf _] with (stored_at k <$> [reached w]).
      rewrite <-fmap_app. apply (trim_fmap (stored_at k)).
    + apply trim_idemp.
    + lia.
    + done.
    + exists s'. split; [exact Hs|]. split; [|exact Hset].
      rewrite Hkeys. cbn [skipped reached seq]. f_equal.
      change (reached w :: seq (S (reached w)) n) with ([reached w] ++ seq (S (reached w)) n).
      rewrite app_assoc. apply trim_app.
Qed.

(** Taking the key of message [j] moves the window. *)
Lemma get_sender_key_window s k w j distribution_id :
  follows s k w → window_ok w → trim (skipped w) = skipped w →
  iteration k + N.of_nat (S j) <= u32_max →
  match open_window w j with
  | (w', Opened) => ∃ s',
      get_sender_key s (iteration k + N.of_nat j) distribution_id = Ok (s', key_at k j)
      ∧ follows s' k w' ∧ same_settings s s'
  | (w', AlreadyOpened) => ∃ current,
      get_sender_key s (iteration k + N.of_nat j) distribution_id
      = Err (DuplicatedMessage current (iteration k + N.of_nat j))
  | (w', TooFar) =>
      get_sender_key s (iteration k + N.of_nat j) distribution_id
      = Err (InvalidMessage "SenderKey" "message from too far into the future")
  end.
Proof.
  intros [Hc Hk] [Hnd Hlt] Ht Hmax. unfold open_window, get_sender_key. rewrite Hc.
  cbn [ok_or]. change (SenderKeyState.iteration (chain_at k (reached w))) with
    (iteration k + N.of_nat (reached w)).
  destruct (decide (j < reached w)%nat) as [Hj|Hj].
  - rewrite (proj2 (N.ltb_lt _ _)) by lia. unfold remove_sender_message_key.
    rewrite Hk, take_key_stored by done.
    destruct (decide (j ∈ skipped w)); [|by eexists].
    eexists. split; [done|]. split; [|done]. by split.
  - rewrite (proj2 (N.ltb_ge _ _)) by lia.
    replace (iteration k + N.of_nat j - (iteration k + N.of_nat (reached w)))
      with (N.of_nat (j - reached w)) by lia.
    destruct (decide (MAX_FORWARD_JUMPS < N.of_nat (j - reached w))) as [Hfar|Hnear].
    + by rewrite (proj2 (N.ltb_lt _ _)).
    + rewrite (proj2 (N.ltb_ge _ _)) by lia. rewrite Nat2N.id.
      destruct (skip_keys_spec k j (j - reached w) s w Hk Ht ltac:(lia) ltac:(lia))
        as (s' & -> & Hs' & Hset).
      rewrite next_chain_at by lia. eexists. split; [done|]. split; [|done]. by split.
Qed.
End windows.

(** ** Messages on the wire *)

Section proofs.
Context {crypto : SignalCrypto} {laws : SignalLaws}.

Lemma key_lengths k n :
  length (cipher_key (key_at k n)) = 32%nat ∧ length (iv (key_at k n)) = 16%nat.
Proof using laws.
  unfold key_at, sender_message_key, message_key_new. cbn [cipher_key iv].
  rewrite length_drop, length_take, hkdf_length. done.
Qed.

Lemma message_parses id c i ct r sk :
  id <= u128_max → c <= u32_max → i <= u32_max →
  let m := message_new 3 id c i ct r sk in message_try_from (m_serialized m) = Ok m.
Proof using laws.
  intros Hid Hc Hi m. unfold m, message_new, message_try_from, m_serialized.
  set (proto := MkWireMessage _ _ _ _). set (body := version_byte 3 :: encode_message proto).
  set (sig := calculate_signature sk r body).
  assert (Hsig : length sig = SIGNATURE_LEN) by apply sign_length.
  change (body ++ sig) with (version_byte 3 :: encode_message proto ++ sig). cbn [length].
  rewrite length_app, Hsig. rewrite (proj2 (Nat.ltb_ge _ _)) by lia.
  change (check_version (version_byte 3)) with (Ok (E := SignalProtocolError) 3).
  rewrite Nat.add_sub, take_app_length, message_roundtrip by done.
  cbn. unfold uuid_field. cbn. by rewrite uuid_roundtrip.
Qed.

Lemma message_signed id c i ct r kp :
  sound_pair kp → Is_true (message_signed_by (message_new 3 id c i ct r (kp_private kp)) (kp_public kp)).
Proof using laws.
  intros Hkp. unfold message_signed_by, message_new. cbn [m_serialized].
  set (body := version_byte 3 :: _). set (sig := calculate_signature _ _ _).
  assert (Hsig : length sig = SIGNATURE_LEN) by apply sign_length.
  rewrite length_app, Hsig, Nat.add_sub, take_app_length, drop_app_length.
  unfold sig. by rewrite verify_calculated.
Qed.

Lemma distribution_parses id c i ck key :
  id <= u128_max → c <= u32_max → i <= u32_max → length ck = 32%nat →
  length (public_key_bytes key) = 32%nat →
  let d := distribution_new 3 id c i ck key in distribution_try_from (d_serialized d) = Ok d.
Proof using laws.
  intros Hid Hc Hi Hck Hkey d. unfold d, distribution_new, distribution_try_from, d_serialized.
  set (proto := MkWireDistribution _ _ _ _ _).
  pose proof (distribution_length proto ck (public_serialize key) eq_refl eq_refl) as Hlen.
  unfold public_serialize in Hlen at 1. cbn [length] in Hlen. rewrite Hck, Hkey in Hlen.
  cbn [length]. rewrite (proj2 (Nat.ltb_ge _ _)) by lia.
  change (check_version (version_byte 3)) with (Ok (E := SignalProtocolError) 3).
  rewrite distribution_roundtrip by done. unfold uuid_field.
  cbn [ok_or proto wd_uuid wd_chain_id wd_iteration wd_chain_key wd_signing_key].
  change (Some (uuid_bytes id) ≫= uuid_from_slice) with (uuid_from_slice (uuid_bytes id)).
  rewrite uuid_roundtrip by done. cbn [ok_or]. rewrite public_roundtrip by done.
  unfold public_serialize. cbn [length]. by rewrite Hck, Hkey.
Qed.

(** ** Sealing and opening one message *)

(** The sender's current state: its keys are [kp], its chain has run to [k]. *)
Record sends (s : SenderKeyState) (kp : KeyPair) (k : SenderChainKey) : Prop := {
  sends_version : message_version s = 3;
  sends_chain : sender_chain_key s = Some k;
  sends_private : signing_key_private s = Some (kp_private kp);
  sends_public : signing_key_public s = Some (kp_public kp);
}.

(** Message [n] of the chain from [k] on, of text [p] and signed with [random] *)
Definition sealed (kp : KeyPair) (id c : N) (k : SenderChainKey) (n : nat) (p random : bytes) :
    SenderKeyMessage :=
  let key := key_at k n in
  message_new 3 id c (iteration k + N.of_nat n) (cbc_encrypt (cipher_key key) (iv key) p) random
    (kp_private kp).

Lemma group_encrypt_spec store sender id s r kp k n p random :
  store !! (sender, id) = Some (s :: r) → sends s kp (chain_at k n) →
  iteration k + N.of_nat (S n) <= u32_max →
  group_encrypt store sender id p random
  = (<[(sender, id) := set_sender_chain_key s (chain_at k (S n)) :: r]> store,
     Ok (sealed kp id (chain_id s) k n p random)).
Proof using laws.
  intros Hs [Hv Hc Hpr Hpu] Hmax. unfold group_encrypt. rewrite Hs. cbn [ok_or sender_key_state head].
  unfold version_u8. rewrite Hv. change (3 <=? 255) with true. cbn [ok_or].
  rewrite Hc. cbn [ok_or]. change (sender_message_key (chain_at k n)) with (key_at k n).
  destruct (key_lengths k n) as [H1 H2].
  unfold aes_256_cbc_encrypt. rewrite H1, H2. cbn [Nat.eqb andb ok_or].
  rewrite Hpr. cbn [ok_or]. by rewrite next_chain_at.
Qed.

(** The state of a recipient *)
Record receives (s : SenderKeyState) (kp : KeyPair) (c : N) (k : SenderChainKey) (w : Window) :
    Prop := {
  receives_version : message_version s = 3;
  receives_id : chain_id s = c;
  receives_public : signing_key_public s = Some (kp_public kp);
  receives_window : follows s k w;
}.

Lemma receives_settings s s' kp c k w w' :
  receives s kp c k w → same_settings s s' → follows s' k w' → receives s' kp c k w'.
Proof.
  intros [Hv Hi Hp _] (E1 & E2 & E3) Hf. split; [|congruence| |done].
  - unfold message_version in *. by rewrite E1.
  - unfold signing_key_public in *. by rewrite E3.
Qed.

Lemma state_after_update r c s s' :
  sender_key_state_for_chain_id r c = Some s → chain_id s' = c →
  sender_key_state_for_chain_id (update_state r c s') c = Some s'.
Proof.
  unfold sender_key_state_for_chain_id. intros H Hc. induction r as [|s0 r IH]; [done|].
  cbn [update_state]. revert H. destruct (chain_id s0 =? c) eqn:E.
  - intros _. rewrite filter_true; [done|]. by apply N.eqb_eq.
  - rewrite !filter_false by done. exact IH.
Qed.

(** What the window answers to message [j] of text [p] *)
Definition answers_as (a : Opening) (iteration : N) (p : bytes) (r : outcome bytes) : Prop :=
  match a with
  | Opened => r = Ok p
  | AlreadyOpened => ∃ current, r = Err (DuplicatedMessage current iteration)
  | TooFar => r = Err (InvalidMessage "SenderKey" "message from too far into the future")
  end.

Lemma open_window_rejects w j w' a : open_window w j = (w', a) → a ≠ Opened → w' = w.
Proof. unfold open_window. repeat case_decide; intros [= <- <-]; done. Qed.

Lemma decrypt_key_at k j p :
  aes_256_cbc_decrypt (cbc_encrypt (cipher_key (key_at k j)) (iv (key_at k j)) p)
    (cipher_key (key_at k j)) (iv (key_at k j)) = Ok p.
Proof using laws.
  unfold aes_256_cbc_decrypt. destruct (key_lengths k j) as [H1 H2].
  destruct (cbc_blocks (cipher_key (key_at k j)) (iv (key_at k j)) p) as [Hne Hmod].
  rewrite bool_decide_eq_false_2, Hmod, H1, H2 by done. cbn. by rewrite cbc_roundtrip.
Qed.

Lemma group_decrypt_window store sender id rec s kp c k w j p random :
  sound_pair kp → id <= u128_max → c <= u32_max → iteration k + N.of_nat (S j) <= u32_max →
  store !! (sender, id) = Some rec → sender_key_state_for_chain_id rec c = Some s →
  receives s kp c k w → window_ok w → trim (skipped w) = skipped w →
  let '(store', r) := group_decrypt (m_serialized (sealed kp id c k j p random)) store sender in
  let '(w', a) := open_window w j in
  answers_as a (iteration k + N.of_nat j) p r
  ∧ ∃ rec' s', store' !! (sender, id) = Some rec' ∧ sender_key_state_for_chain_id rec' c = Some s'
      ∧ receives s' kp c k w'.
Proof using laws.
  intros Hkp Hid Hc Hmax Hrec Hs Hr Hw Ht. unfold group_decrypt, sealed. cbv zeta.
  rewrite message_parses by lia. set (m := message_new _ _ _ _ _ _ _).
  change (m_distribution_id m) with id. change (m_chain_id m) with c.
  rewrite Hrec. cbn [ok_or]. rewrite Hs. cbn [ok_or].
  rewrite (receives_version _ _ _ _ _ Hr), (receives_public _ _ _ _ _ Hr).
  change (negb (m_version m =? 3)) with false. cbn [ok_or].
  rewrite (Is_true_true_1 _ (message_signed id c (iteration k + N.of_nat j) _ random kp Hkp)
             : message_signed_by m (kp_public kp) = true).
  cbn [negb]. change (m_iteration m) with (iteration k + N.of_nat j).
  change (m_ciphertext m) with (cbc_encrypt (cipher_key (key_at k j)) (iv (key_at k j)) p).
  pose proof (get_sender_key_window s k w j id (receives_window _ _ _ _ _ Hr) Hw Ht Hmax) as Hget.
  destruct (open_window w j) as [w' []] eqn:Ew.
  - destruct Hget as (s' & -> & Hf & Hset). rewrite decrypt_key_at. split; [done|].
    exists (update_state rec c s'), s'. unfold store_sender_key. rewrite lookup_insert_eq.
    split; [done|]. pose proof (receives_settings _ _ _ _ _ _ _ Hr Hset Hf) as Hr'. split; [|done].
    eapply state_after_update; [exact Hs|]. by destruct Hr'.
  - destruct Hget as (current & ->). split; [by exists current|].
    rewrite (open_window_rejects _ _ _ _ Ew) by done. by exists rec, s.
  - rewrite Hget. split; [done|]. rewrite (open_window_rejects _ _ _ _ Ew) by done. by exists rec, s.
Qed.
End proofs.

(** ** Streams of messages *)

Section streams.
Context {crypto : SignalCrypto}.

(** Sealing texts, each with its random bytes *)
Fixpoint encrypt_all (store : SenderKeyStore) (sender : ProtocolAddress) (distribution_id : N)
    (ps : list (bytes * bytes)) : SenderKeyStore * list (outcome SenderKeyMessage) :=
  match ps with
  | [] => (store, [])
  | (p, random) :: ps =>
      let '(store, m) := group_encrypt store sender distribution_id p random in
      let '(store, ms) := encrypt_all store sender distribution_id ps in
      (store, m :: ms)
  end.

Fixpoint decrypt_all (store : SenderKeyStore) (sender : ProtocolAddress) (ms : list bytes) :
    SenderKeyStore * list (outcome bytes) :=
  match ms with
  | [] => (store, [])
  | m :: ms =>
      let '(store, r) := group_decrypt m store sender in
      let '(store, rs) := decrypt_all store sender ms in
      (store, r :: rs)
  end.

(** The answers [rs] to the messages [js] of the texts [ps]: each text the first time,
    and a refused duplicate after that. *)
Fixpoint each_once (ps : list (bytes * bytes)) (earlier js : list nat) (rs : list (outcome bytes)) :
    Prop :=
  match js, rs with
  | [], [] => True
  | j :: js, r :: rs =>
      (if decide (j ∈ earlier) then ∃ current iteration, r = Err (DuplicatedMessage current iteration)
       else fst <$> ps !! j = match r with Ok p => Some p | Err _ => None end)
      ∧ each_once ps (j :: earlier) js rs
  | _, _ => False
  end.

(** *** The window over a short stream *)

(** From message [start] on, the [earlier] ones have been opened. *)
Record opened (start : nat) (earlier : list nat) (w : Window) : Prop := {
  opened_reached : (start <= reached w)%nat;
  opened_earlier : Forall (λ i, start + i < reached w)%nat earlier;
  opened_skipped : skipped w = filter (λ i, i ∉ (Nat.add start <$> earlier)) (seq start (reached w - start));
}.

Lemma filter_in_iff {A} (P Q : A → Prop) `{∀ x, Decision (P x), ∀ x, Decision (Q x)} (l : list A) :
  (∀ x, x ∈ l → P x ↔ Q x) → filter P l = filter Q l.
Proof.
  induction l as [|x l IH]; intros H1; [done|]. rewrite !filter_cons.
  rewrite IH by (intros; apply H1; by right).
  destruct (H1 x) as [HPQ HQP]; [by left|]. repeat case_decide; naive_solver.
Qed.

Lemma opened_ok start earlier w : opened start earlier w → window_ok w.
Proof.
  intros [Hr _ Hs]. unfold window_ok. rewrite Hs.
  split; [apply NoDup_filter, NoDup_seq|]. apply Forall_forall. intros i Hi.
  apply list_elem_of_filter in Hi as [_ Hi]. apply elem_of_seq in Hi. lia.
Qed.

Lemma opened_short start earlier w n :
  opened start earlier w → (reached w <= start + n)%nat → (n <= MAX_MESSAGE_KEYS)%nat →
  trim (skipped w) = skipped w.
Proof.
  intros [Hr _ Hs] Hn Hmax. apply trim_short. rewrite Hs.
  etrans; [apply length_filter|]. rewrite length_seq. lia.
Qed.

Lemma opened_step start earlier w n j :
  opened start earlier w → (reached w <= start + n)%nat → (n <= MAX_MESSAGE_KEYS)%nat →
  (j < n)%nat →
  let '(w', a) := open_window w (start + j) in
  (a = if decide (j ∈ earlier) then AlreadyOpened else Opened)
  ∧ opened start (j :: earlier) w' ∧ (reached w' <= start + n)%nat.
Proof.
  intros Ho Hn Hmax Hj. destruct (Ho) as [Hr He Hs]. unfold open_window.
  assert (Hmem : (start + j)%nat ∈ (Nat.add start <$> earlier) ↔ j ∈ earlier).
  { split; [|apply list_elem_of_fmap_2]. intros (x & E & Hx)%list_elem_of_fmap.
    by replace j with x by lia. }
  destruct (decide (start + j < reached w)%nat) as [Hlt|Hge].
  - destruct (decide ((start + j)%nat ∈ skipped w)) as [Hin|Hout].
    + rewrite Hs in Hin. apply list_elem_of_filter in Hin as [Hin _].
      rewrite decide_False by (intros H; by apply Hin, Hmem). split; [done|]. split; [|done].
      split; cbn; [done|by constructor|]. rewrite Hs, list_filter_filter.
      apply list_filter_iff. intros i. cbn. rewrite not_elem_of_cons. tauto.
    + assert (Hin : j ∈ earlier).
      { apply Hmem. apply dec_stable. intros H. apply Hout. rewrite Hs.
        apply list_elem_of_filter. split; [done|]. apply elem_of_seq. lia. }
      rewrite decide_True by done. split; [done|]. split; [|done].
      split; [done|by constructor|]. rewrite Hs. apply list_filter_iff. intros i. cbn.
      rewrite not_elem_of_cons. split; [|tauto]. intros H. split; [|done].
      intros ->. by apply H, Hmem.
  - assert (Hout : j ∉ earlier).
    { intros H. eapply Forall_forall in He; [|exact H]. cbn in He. lia. }
    rewrite decide_False by (unfold MAX_FORWARD_JUMPS, MAX_MESSAGE_KEYS in *; lia).
    rewrite decide_False by done. split; [done|]. split; [|cbn; lia].
    split; cbn [reached skipped]; [lia| |].
    + constructor; [cbn; lia|]. eapply Forall_impl; [exact He|]. cbn. lia.
    + rewrite trim_short.
      2:{ rewrite length_app, length_seq, Hs.
          pose proof (length_filter (λ i, i ∉ (Nat.add start <$> earlier)) (seq start (reached w - start))).
          rewrite length_seq in H. lia. }
      replace (S (start + j) - start)%nat with
        ((reached w - start) + ((start + j - reached w) + 1))%nat by lia.
      rewrite !seq_app, !filter_app, Hs.
      replace (start + (reached w - start))%nat with (reached w) by lia.
      replace (reached w + (start + j - reached w))%nat with (start + j)%nat by lia.
      f_equal; [|rewrite (filter_all_false _ (seq (start + j) 1))].
      * apply filter_in_iff. intros i Hi%elem_of_seq. cbn. rewrite not_elem_of_cons.
        split; [|tauto]. intros H. split; [lia|done].
      * rewrite app_nil_r. symmetry. apply filter_all_true. apply Forall_forall.
        intros i Hi%elem_of_seq. cbn. apply not_elem_of_cons. split; [lia|].
        intros (x & -> & Hx)%list_elem_of_fmap. eapply Forall_forall in He; [|exact Hx].
        cbn in He. lia.
      * cbn. repeat constructor. intros H. apply H. left.
Qed.
End streams.

Section stream_proofs.
Context {crypto : SignalCrypto} {laws : SignalLaws}.

Lemma sends_next s kp k k' :
  sends s kp k → sends (set_sender_chain_key s k') kp k' ∧ chain_id (set_sender_chain_key s k') = chain_id s.
Proof. intros [Hv Hc Hpr Hpu]. by split. Qed.

Lemma encrypt_all_spec sender id r kp k ps : ∀ store s n,
  store !! (sender, id) = Some (s :: r) → sends s kp (chain_at k n) →
  iteration k + N.of_nat (n + length ps) <= u32_max →
  let '(store', ms) := encrypt_all store sender id ps in
  ms = imap (λ i p, Ok (sealed kp id (chain_id s) k (n + i) p.1 p.2)) ps
  ∧ ∃ s', store' !! (sender, id) = Some (s' :: r) ∧ sends s' kp (chain_at k (n + length ps))
      ∧ chain_id s' = chain_id s.
Proof using laws.
  induction ps as [|[p random] ps IH]; intros store s n Hs Hk Hmax; cbn [encrypt_all].
  - split; [done|]. exists s. by rewrite Nat.add_0_r.
  - cbn [length] in Hmax. rewrite (group_encrypt_spec _ _ _ _ r kp k n) by (done || lia).
    destruct (sends_next s kp _ (chain_at k (S n)) Hk) as [Hk' Hc].
    specialize (IH (<[(sender, id) := set_sender_chain_key s (chain_at k (S n)) :: r]> store)
      _ (S n) (lookup_insert_eq _ _ _) Hk' ltac:(lia)).
    destruct (encrypt_all _ sender id ps) as [store' ms]. destruct IH as (-> & s' & H1 & H2 & H3).
    split.
    + cbn [imap]. rewrite Nat.add_0_r. f_equal. apply imap_ext. intros i q _. cbn.
      by replace (n + S i)%nat with (S (n + i)) by lia.
    + exists s'. cbn [length]. replace (n + S (length ps))%nat with (S n + length ps)%nat by lia. done.
Qed.

(** The recipient's stored state, in the window [w] *)
Definition stores (store : SenderKeyStore) (sender : ProtocolAddress) (id : N) (kp : KeyPair) (c : N)
    (k : SenderChainKey) (w : Window) : Prop :=
  ∃ rec s, store !! (sender, id) = Some rec ∧ sender_key_state_for_chain_id rec c = Some s
    ∧ receives s kp c k w.

Definition text (ps : list (bytes * bytes)) (j : nat) : bytes * bytes := default ([], []) (ps !! j).

Lemma text_lookup ps j : (j < length ps)%nat → ps !! j = Some (text ps j).
Proof. apply lookup_default. Qed.

Lemma decrypt_all_once sender id kp c k start ps js : ∀ store w earlier,
  sound_pair kp → id <= u128_max → c <= u32_max →
  iteration k + N.of_nat (start + length ps) <= u32_max → (length ps <= MAX_MESSAGE_KEYS)%nat →
  stores store sender id kp c k w → opened start earlier w → (reached w <= start + length ps)%nat →
  Forall (λ j, j < length ps)%nat js →
  each_once ps earlier js
    (decrypt_all store sender
       ((λ j, m_serialized (sealed kp id c k (start + j) (text ps j).1 (text ps j).2)) <$> js)).2.
Proof using laws.
  induction js as [|j js IH]; intros store w earlier Hkp Hid Hc Hmax Hlen Hst Ho Hr Hjs; [done|].
  apply Forall_cons in Hjs as [Hj Hjs]. cbn beta in Hj. destruct (Hst) as (rec & s & Hrec & Hs & Hrcv).
  cbn [fmap list_fmap decrypt_all].
  pose proof (text_lookup ps j Hj) as Hp. set (p := text ps j) in *.
  pose proof (group_decrypt_window store sender id rec s kp c k w (start + j) p.1 p.2 Hkp Hid Hc
    ltac:(lia) Hrec Hs Hrcv (opened_ok _ _ _ Ho) (opened_short _ _ _ _ Ho Hr Hlen)) as H.
  pose proof (opened_step start earlier w (length ps) j Ho Hr Hlen Hj) as Hstep.
  destruct (group_decrypt _ store sender) as [store' r].
  destruct (open_window w (start + j)) as [w' a]. destruct H as [Ha Hst'], Hstep as (-> & Ho' & Hr').
  specialize (IH store' w' (j :: earlier) Hkp Hid Hc Hmax Hlen).
  destruct (decrypt_all store' sender _) as [store2 rs]. cbn [snd each_once].
  split.
  - case_decide; cbn in Ha; [|by rewrite Hp, Ha].
    destruct Ha as (current & ->). by eexists _, _.
  - apply IH; [|done..]. destruct Hst' as (rec' & s' & ? & ? & ?). by exists rec', s'.
Qed.

(** *** A fresh sender key *)

Definition good_seeds (seeds : SenderKeySeeds) : Prop :=
  chain_id_seed seeds <= u32_max ∧ length (chain_seed seeds) = 32%nat
  ∧ length (signing_seed seeds) = 32%nat.

Definition fresh_chain (seeds : SenderKeySeeds) : SenderChainKey := MkChainKey 0 (chain_seed seeds).
Definition fresh_id (seeds : SenderKeySeeds) : N := N.shiftr (chain_id_seed seeds) 1.

Lemma fresh_id_bound seeds : good_seeds seeds → fresh_id seeds <= u32_max.
Proof. intros [H _]. unfold fresh_id. rewrite N.shiftr_div_pow2. etrans; [|exact H]. apply N.Div0.div_le_upper_bound. lia. Qed.

Lemma create_record_sends seeds :
  good_seeds seeds →
  ∃ s, create_record seeds = [s] ∧ chain_id s = fresh_id seeds
    ∧ sends s (generate (signing_seed seeds)) (fresh_chain seeds).
Proof using laws.
  intros (_ & _ & Hl). eexists. split; [done|]. split; [done|].
  destruct (generate_sound _ Hl) as (H1 & H2 & H3 & _). split; [done..| |].
  - unfold signing_key_private. cbn -[private_deserialize private_serialize generate].
    by rewrite private_roundtrip.
  - unfold signing_key_public. cbn -[public_deserialize public_serialize generate].
    by rewrite public_roundtrip.
Qed.

(** The distribution message of a sender's current chain *)
Definition distribution_at (kp : KeyPair) (id c : N) (k : SenderChainKey) : SenderKeyDistributionMessage :=
  distribution_new 3 id c (iteration k) (chain_key k) (kp_public kp).

Lemma create_existing store sender id seeds s r kp k :
  store !! (sender, id) = Some (s :: r) → sends s kp k →
  create_sender_key_distribution_message sender id store seeds
  = (store, Ok (distribution_at kp id (chain_id s) k)).
Proof.
  intros Hs [Hv Hc Hpr Hpu]. unfold create_sender_key_distribution_message. rewrite Hs.
  cbn [sender_key_state head ok_or]. rewrite Hc. cbn [ok_or]. unfold version_u8. rewrite Hv.
  change (3 <=? 255) with true. cbn [ok_or]. by rewrite Hpu.
Qed.

Lemma create_fresh store sender id seeds :
  store !! (sender, id) = None → good_seeds seeds →
  ∃ store' s,
    create_sender_key_distribution_message sender id store seeds
    = (store', Ok (distribution_at (generate (signing_seed seeds)) id (fresh_id seeds) (fresh_chain seeds)))
    ∧ store' !! (sender, id) = Some [s] ∧ chain_id s = fresh_id seeds
    ∧ sends s (generate (signing_seed seeds)) (fresh_chain seeds).
Proof using laws.
  intros Hs Hg. destruct (create_record_sends seeds Hg) as (s & Hr & Hc & Hk).
  set (store' := <[(sender, id) := [s]]> store).
  assert (Hs' : store' !! (sender, id) = Some [s]) by apply lookup_insert_eq.
  exists store', s. split; [|done].
  pose proof (create_existing store' sender id seeds s [] _ _ Hs' Hk) as H. rewrite Hc in H.
  rewrite <-H. unfold create_sender_key_distribution_message. rewrite Hs, Hs', Hr. done.
Qed.

(** Processing the distribution of the chain [n] steps on opens a window there. *)
Lemma process_stores store sender kp id c k n :
  store !! (sender, id) = None → sound_pair kp →
  stores (process_sender_key_distribution_message sender (distribution_at kp id c (chain_at k n)) store)
    sender id kp c k (MkWindow n []).
Proof.
  intros Hs (Hl & _). unfold process_sender_key_distribution_message.
  cbn [d_distribution_id distribution_at distribution_new]. rewrite Hs.
  unfold store_sender_key. do 2 eexists. rewrite lookup_insert_eq. split; [done|].
  unfold sender_key_state_for_chain_id, add_sender_key_state. cbn [default new_empty remove_state].
  unfold remove_states_with_chain_id. rewrite filter_nil.
  rewrite filter_true by apply N.eqb_refl. split; [done|]. split; [done..| |].
  - unfold signing_key_public. cbn -[public_deserialize public_serialize].
    by rewrite public_roundtrip.
  - by split.
Qed.

Lemma seed_length seed n : length seed = 32%nat → length (seed_at seed n) = 32%nat.
Proof using laws. intros H. destruct n; [done|]. apply hmac_length. Qed.

(** C19: sender keys deliver a stream in any order, each message once, and nothing from
    before the recipient was let in.  A sender with a fresh sender key seals some
    messages, then creates a distribution message for a recipient that has none yet, and
    seals up to [MAX_MESSAGE_KEYS] more.  The distribution message parses back; after
    processing it, the recipient refuses every earlier message, and whatever order the
    later ones arrive in, with losses and repetitions, it opens each to its text the
    first time and refuses it after that. *)
Theorem any_order_once sender id seeds seeds' store_s store_r before ps js :
  store_s !! (sender, id) = None → store_r !! (sender, id) = None →
  good_seeds seeds → id <= u128_max →
  N.of_nat (length before + length ps) <= u32_max →
  (length ps <= MAX_MESSAGE_KEYS)%nat →
  Forall (λ j, j < length ps)%nat js →
  let '(s0, _) := create_sender_key_distribution_message sender id store_s seeds in
  let '(s1, past) := encrypt_all s0 sender id before in
  let '(s2, distribution) := create_sender_key_distribution_message sender id s1 seeds' in
  let '(_, sent) := encrypt_all s2 sender id ps in
  ∃ d ms ms', distribution = Ok d ∧ past = Ok <$> ms ∧ sent = Ok <$> ms'
    ∧ distribution_try_from (d_serialized d) = Ok d
    ∧ let store_r := process_sender_key_distribution_message sender d store_r in
      (∀ m, m ∈ ms → ∃ current iteration,
         (group_decrypt (m_serialized m) store_r sender).2 = Err (DuplicatedMessage current iteration))
      ∧ each_once ps [] js
          (decrypt_all store_r sender ((λ j, default [] (m_serialized <$> ms' !! j)) <$> js)).2.
Proof using laws.
  intros Hs Hr Hg Hid Hmax Hlen Hjs. pose proof (fresh_id_bound seeds Hg) as Hc.
  set (kp := generate (signing_seed seeds)). set (k := fresh_chain seeds). set (c := fresh_id seeds) in *.
  assert (Hkp : sound_pair kp) by (apply generate_sound, Hg).
  destruct (create_fresh store_s sender id seeds Hs Hg) as (s0 & st & -> & Hs0 & Hst & Hk).
  fold kp k c in Hst, Hk. rewrite <-(chain_at_0 k) in Hk.
  pose proof (encrypt_all_spec sender id [] kp k before s0 st 0 Hs0 Hk) as H1.
  destruct (encrypt_all s0 sender id before) as [s1 past].
  destruct H1 as (-> & st1 & Hs1 & Hk1 & Hc1); [cbn; lia|].
  rewrite (create_existing _ _ _ _ _ _ _ _ Hs1 Hk1).
  pose proof (encrypt_all_spec sender id [] kp k ps s1 st1 _ Hs1 Hk1) as H2.
  destruct (encrypt_all s1 sender id ps) as [s2 sent].
  destruct H2 as (-> & _); [cbn; lia|].
  rewrite Hc1, Hst.
  pose proof (process_stores store_r sender kp id c k (length before) Hr Hkp) as Hstores.
  eexists _, (imap (λ i p, sealed kp id c k i p.1 p.2) before),
    (imap (λ i p, sealed kp id c k (length before + i) p.1 p.2) ps).
  rewrite !fmap_imap. do 3 (split; [done|]).
  split; [|split].
  - apply distribution_parses; [done..| | |apply Hkp].
    + cbn. lia.
    + cbn [chain_key chain_at]. apply seed_length, Hg.
  - intros m (i & p & -> & Hp)%elem_of_lookup_imap.
    destruct Hstores as (rec & s & H1 & H2 & H3).
    assert (Hi : (i < length before)%nat) by (by eapply lookup_lt_Some).
    pose proof (group_decrypt_window _ sender id rec s kp c k _ i p.1 p.2 Hkp Hid Hc
      ltac:(cbn; lia) H1 H2 H3) as H.
    destruct (group_decrypt _ _ sender) as [store' r]. cbn [snd].
    unfold open_window in H. cbn [reached skipped] in H. rewrite decide_True in H by done.
    destruct H as [[current Ha] _]; [by split; constructor|done|by eexists _, _].
  - erewrite list_fmap_ext; [eapply decrypt_all_once with (start := length before); try done|].
    + cbn. lia.
    + split; cbn; [done|done|]. by rewrite Nat.sub_diag.
    + cbn. lia.
    + intros n j Hj. cbn beta. assert (Hjl : (j < length ps)%nat).
      { eapply Forall_forall in Hjs; [exact Hjs|]. by eapply list_elem_of_lookup_2. }
      by rewrite list_lookup_imap, (text_lookup ps j Hjl).
Qed.
End stream_proofs.

(** Two messages before the recipient is let in, three after; they arrive as the third,
    the first, the third again and the second. *)
Definition toy_seeds : SenderKeySeeds :=
  MkSeeds 7 (pad 32 [Byte.x41]) (pad 32 [Byte.x42]).
Definition toy_texts (l : list string) : list (bytes * bytes) :=
  (λ t, (String.list_byte_of_string t, [])) <$> l.

Definition toy_alice : ProtocolAddress := MkAddress "alice" 1.

Lemma any_order_once_witness :
  (good_seeds toy_seeds ∧ Forall (λ j, j < 3)%nat [2; 0; 2; 1]%nat)
  ∧ ∃ c a dup b,
      each_once (toy_texts ["a"; "b"; "c"]) [] [2; 0; 2; 1]%nat [c; a; dup; b]
      ∧ c = Ok (String.list_byte_of_string "c").
Proof.
  assert (Hg : good_seeds toy_seeds) by (split_and!; [done|apply pad_length..]).
  assert (Hjs : Forall (λ j, j < 3)%nat [2; 0; 2; 1]%nat) by (repeat constructor).
  split; [done|].
  pose proof (any_order_once toy_alice 9 toy_seeds toy_seeds ∅ ∅ (toy_texts ["p"; "q"])
    (toy_texts ["a"; "b"; "c"]) [2; 0; 2; 1]%nat (lookup_empty _) (lookup_empty _) Hg) as H.
  specialize (H ltac:(done) ltac:(done) ltac:(apply Nat.leb_le; vm_compute; done) Hjs).
  destruct (create_sender_key_distribution_message _ _ ∅ _) as [s0 d0].
  destruct (encrypt_all s0 _ _ _) as [s1 past].
  destruct (create_sender_key_distribution_message _ _ s1 _) as [s2 distribution].
  destruct (encrypt_all s2 _ _ _) as [s3 sent].
  destruct H as (d & ms & ms' & _ & _ & _ & _ & _ & H). revert H.
  generalize (decrypt_all (process_sender_key_distribution_message toy_alice d ∅) toy_alice
    ((λ j, default [] (m_serialized <$> ms' !! j)) <$> [2; 0; 2; 1]%nat)).2.
  intros [|c [|a [|dup [|b [|]]]]]; try (cbn; tauto).
  intros H. exists c, a, dup, b. split; [exact H|]. destruct H as [Hc _].
  rewrite decide_False in Hc by apply not_elem_of_nil. by destruct c; inversion Hc.
Defined.
