(* ===== verification/SignalHttp.v ===== *)
(** * The Signal worker's HTTP calls

    The calls of [Signal_containerized/src/worker_api.rs] to the prekey repository and to
    the pairwise relay, over the shared effects of [HttpEffects], and the network of a worker
    and these two services. *)

From S2P Require Import Prelude Text Http Interaction HttpRetry Servers Inbox.
From S2P Require Export HttpEffects.
From S2P Require KeyRepository MessageRelay.
From stdpp Require Import options.

Local Open Scope N_scope.

Inductive SignalJson :=
| KrJson (j : Keys.JsonBody)
| MessageJson (m : MessageRelay.PendingMessage).

Inductive SignalRequest :=
| ToKr (r : Keys.Request)
| ToRelay (r : PairwiseRelay.Request).

Abbreviation SignalEffect := (Effect SignalRequest SignalJson).
Abbreviation SignalExternals := (Externals SignalJson).

Section calls.
Context {extern : SignalExternals}.

Definition kr_post_empty (kr_url path : string) (r : Keys.Request) (op participant_id : string) :
    prog SignalEffect (result Error unit) :=
  retry_transient_http_async op (Some participant_id) (kr_url +:+ path)
    (attempt (ToKr r) (decide_reply "KR POST empty" (λ _, Success tt))).

Definition kr_put_json (kr_url path : string) (r : Keys.Request) (op participant_id : string) :
    prog SignalEffect (result Error unit) :=
  retry_transient_http_async op (Some participant_id) (kr_url +:+ path)
    (attempt (ToKr r) (decide_reply "KR PUT" (λ _, Success tt))).

Definition pick_bundle (j : SignalJson) : option KeyRepository.PrekeyBundleStorable :=
  match j with KrJson (Keys.Bundle b) => Some b | _ => None end.

(** [kr_get_bytes] followed by [serde_json::from_slice] of the bundle, whose error is
    [undecodable]. *)
Definition kr_get_bundle (kr_url path : string) (r : Keys.Request) (op participant_id : string)
    (undecodable : Body SignalJson → Error) : prog SignalEffect (result Error KeyRepository.PrekeyBundleStorable) :=
  res ← retry_transient_http_async op (Some participant_id) (kr_url +:+ path)
          (attempt (ToKr r) (decide_reply "KR GET" (read_body (λ b, Ok b))));
  mret (let? body <- res in
        match body with
        | Json j => ok_or (pick_bundle j) (undecodable body)
        | _ => Err (undecodable body)
        end).

Definition pick_stock (j : SignalJson) : option KeyRepository.PrekeyStock :=
  match j with KrJson (Keys.Stock s) => Some s | _ => None end.

Definition kr_get_stock (kr_url path : string) (r : Keys.Request) (op participant_id : string) :
    prog SignalEffect (result Error KeyRepository.PrekeyStock) :=
  retry_transient_http_async op (Some participant_id) (kr_url +:+ path)
    (attempt (ToKr r) (decide_reply "KR GET" (read_body (json_as pick_stock)))).

Definition published_prekey_stock (kr_url participant_id : string) :
    prog SignalEffect (result Error KeyRepository.PrekeyStock) :=
  kr_get_stock kr_url ("/prekey-bundle/" +:+ participant_id +:+ "/stock")
    (Keys.GetStock participant_id) "prekey_stock" participant_id.

Definition relay_post_message (relay_url conversation_id sender : string)
    (recipients : list string) (b : bytes) : prog SignalEffect (result Error unit) :=
  retry_transient_http_async "relay.publish_message" (Some sender)
    (trim_end_matches "/" relay_url +:+ "/conversation/" +:+ conversation_id +:+ "/message/"
     +:+ sender)
    (attempt (ToRelay (PairwiseRelay.Publish conversation_id sender
                         (Some (Some (recipients_header recipients))) b))
       (decide_reply "Relay POST" (λ _, Success tt))).

Definition relay_get_message (relay_url recipient : string) :
    prog SignalEffect (result Error bytes) :=
  retry_transient_http_async "relay.fetch_message" (Some recipient)
    (trim_end_matches "/" relay_url +:+ "/message/" +:+ recipient)
    (attempt (ToRelay (PairwiseRelay.Fetch recipient))
       (decide_reply "Relay GET" (read_body (λ b, Ok (octets_of b))))).

Definition pick_pending (j : SignalJson) : option MessageRelay.PendingMessage :=
  match j with MessageJson m => Some m | _ => None end.

Definition relay_get_pending_message (relay_url recipient : string) (sender : option string) :
    prog SignalEffect (result Error MessageRelay.PendingMessage) :=
  let base := trim_end_matches "/" relay_url +:+ "/message/" +:+ recipient +:+ "/pending" in
  let '(url, r) :=
    match sender with
    | Some sender => (base +:+ "/" +:+ sender, PairwiseRelay.FetchPendingFrom recipient sender)
    | None => (base, PairwiseRelay.FetchPending recipient)
    end in
  retry_transient_http_async "relay.fetch_pending_message" (Some recipient) url
    (attempt (ToRelay r)
       (decide_reply "Relay pending message GET" (read_body (json_as pick_pending)))).

Definition relay_ack_message (relay_url recipient message_id : string) :
    prog SignalEffect (result Error unit) :=
  retry_transient_http_async "relay.ack_message" (Some recipient)
    (trim_end_matches "/" relay_url +:+ "/message/" +:+ recipient +:+ "/ack/" +:+ message_id)
    (attempt (ToRelay (PairwiseRelay.Ack recipient message_id))
       (decide_reply "Relay ack message" (λ _, Success tt))).
End calls.

(** * The Signal workers' servers on a good network

    The prekey repository and the pairwise relay behind the calls of [SignalHttp], when
    every request is answered in full, and what each call does then.  [now] is the
    reading of the clock. *)

Local Open Scope N_scope.

Record Servers := MkServers {
  repository : KeyRepository.KeyRepository;
  relay : MessageRelay.MessageRelay;
}.

(** The header of [relay_post_message] carries names without blanks and commas. *)
Definition plain_name (n : string) : Prop :=
  n ≠ "" ∧ no_space n ∧ Is_true (char_free "," n).

Lemma header_parses recipients : recipients ≠ [] → Forall plain_name recipients →
  parse_recipients_header (Some (recipients_header recipients)) = Ok recipients.
Proof.
  intros Hne Hnames. unfold parse_recipients_header, recipients_header. cbn [ok_or].
  rewrite split_join; [|done|by eapply Forall_impl; [exact Hnames|]; intros ? (? & ? & ?)].
  assert (Ht : Text.trim <$> recipients = recipients).
  { clear Hne. induction Hnames as [|r rs (? & ? & ?) _ IH]; [done|].
    by rewrite fmap_cons, IH, trim_no_space. }
  rewrite Ht, filter_all_true by (eapply Forall_impl; [exact Hnames|]; by intros ? (? & ? & ?)).
  by destruct recipients.
Qed.

Section network.
Context {extern : SignalExternals}.
Context (hex_encode : bytes → string) (now : N).

Definition json_map {J} (f : J → SignalJson) (b : Body J) : Body SignalJson :=
  match b with
  | NoBody => NoBody
  | Octets b => Octets b
  | Message s => Message s
  | Json j => Json (f j)
  end.

Definition handle_request (w : Servers) (r : SignalRequest) : Servers * N * Body SignalJson :=
  match r with
  | ToKr r =>
      let '(kr, resp) := Keys.kr_handle (repository w) 1 r in
      (MkServers kr (relay w), status resp, json_map KrJson (body resp))
  | ToRelay r =>
      let '(rl, resp) := PairwiseRelay.relay_handle hex_encode (relay w) 1 r in
      (MkServers (repository w) rl, status resp, json_map MessageJson (body resp))
  end.

Definition reliable (X : Type) (w : Servers) (e : SignalEffect X) : Servers * X :=
  match e in HttpEffects.Effect _ _ X return Servers * X with
  | Http r => let '(w', s, b) := handle_request w r in (w', Replied s (Ok b))
  | Sleep _ => (w, tt)
  | Draw lo _ => (w, lo)
  | Now => (w, now)
  | Choose => (w, true)
  | Entropy => (w, 0)
  end.

Abbreviation runr := (run reliable).

Lemma run_answered {T} w op client_id url r (decision : Reply SignalJson → RetryDecision T) w' status b :
  handle_request w r = (w', status, b) →
  is_transient (decision (Replied status (Ok b))) = false →
  runr w (retry_transient_http_async op client_id url (attempt r decision))
  = (w', match decision (Replied status (Ok b)) with
         | Success v => Ok v
         | Transient cause => Err (failed op client_id url 1 (now - now) cause)
         | Fatal err => Err (retry_error op client_id url 1 now now err)
         end).
Proof.
  intros Hh Ht. apply run_retry_first with (reply := Replied status (Ok b)); [done| |done].
  cbn [reliable]. by rewrite Hh.
Qed.

(** ** The relay *)

(** The state of the servers apart from metrics *)
Definition waiting (w : Servers) (r : string) : list MessageRelay.RelayEnvelope :=
  queue (MessageRelay.inboxes (relay w)) r.
Definition next_id (w : Servers) : N := MessageRelay.next_message_id (relay w).

Definition same_repository (w w' : Servers) : Prop :=
  KeyRepository.prekey_bundles (repository w') = KeyRepository.prekey_bundles (repository w)
  ∧ KeyRepository.one_time_prekey_consumption (repository w')
    = KeyRepository.one_time_prekey_consumption (repository w).

Definition same_relay (w w' : Servers) : Prop :=
  MessageRelay.inboxes (relay w') = MessageRelay.inboxes (relay w) ∧ next_id w' = next_id w.

#[export] Instance same_repository_preorder : PreOrder same_repository.
Proof. split; [by split|]. intros x y z [] []. split; congruence. Qed.
#[export] Instance same_relay_preorder : PreOrder same_relay.
Proof. split; [by split|]. intros x y z [] []. split; congruence. Qed.

Lemma same_relay_waiting w w' r : same_relay w w' → waiting w' r = waiting w r.
Proof. intros [E _]. unfold waiting. by rewrite E. Qed.

Lemma handle_publish w conversation sender recipients b :
  recipients ≠ [] → Forall plain_name recipients →
  ∃ w', handle_request w (ToRelay (PairwiseRelay.Publish conversation sender
                            (Some (Some (recipients_header recipients))) b)) = (w', OK, NoBody)
    ∧ same_repository w w'
    ∧ MessageRelay.inboxes (relay w')
      = MessageRelay.fan_out (MessageRelay.inboxes (relay w)) conversation sender (next_id w) b recipients
    ∧ next_id w' = wrap64 (next_id w + 1).
Proof.
  intros Hne Hnames. cbn. unfold PairwiseRelay.publish_pairwise_message, observed, publish_operation.
  rewrite header_parses by done. cbn.
  unfold MessageRelay.Pairwise.publish_pairwise_message, MessageRelay.publish. destruct recipients; [done|].
  eexists. split; [reflexivity|]. split; [done|]. split; reflexivity.
Qed.

Lemma run_post w url conversation sender recipients b :
  recipients ≠ [] → Forall plain_name recipients →
  ∃ w', runr w (relay_post_message url conversation sender recipients b) = (w', Ok tt)
    ∧ same_repository w w'
    ∧ MessageRelay.inboxes (relay w')
      = MessageRelay.fan_out (MessageRelay.inboxes (relay w)) conversation sender (next_id w) b recipients
    ∧ next_id w' = wrap64 (next_id w + 1).
Proof.
  intros Hne Hnames. destruct (handle_publish w conversation sender recipients b Hne Hnames) as (w' & E & H).
  exists w'. split; [|done]. unfold relay_post_message. by erewrite run_answered by done.
Qed.

Lemma run_pending w url recipient sender e :
  MessageRelay.Pairwise.fetch_pending_message_record (relay w) recipient sender = Some e →
  ∃ w', runr w (relay_get_pending_message url recipient sender)
        = (w', Ok (MessageRelay.pending hex_encode e))
    ∧ same_repository w w' ∧ same_relay w w'.
Proof.
  intros He.
  assert (Hh : ∃ w', handle_request w (ToRelay match sender with
      | Some sender => PairwiseRelay.FetchPendingFrom recipient sender
      | None => PairwiseRelay.FetchPending recipient end)
    = (w', OK, Json (MessageJson (MessageRelay.pending hex_encode e)))
    ∧ same_repository w w' ∧ same_relay w w').
  { destruct sender as [sender|]; cbn;
      unfold PairwiseRelay.fetch_pending_message_from, PairwiseRelay.fetch_pending_message, observed,
        MessageRelay.Pairwise.fetch_pending_message_from, MessageRelay.Pairwise.fetch_pending_message,
        MessageRelay.Pairwise.fetch_pending_message_record in *;
      cbn [MessageRelay.inboxes set_relay_metrics]; rewrite He; cbn;
      eexists; (split; [reflexivity|by split]). }
  destruct Hh as (w' & Hh & H). exists w'. split; [|done]. unfold relay_get_pending_message.
  destruct sender as [sender|]; by erewrite run_answered by done.
Qed.

Lemma run_ack w url recipient id :
  ∃ w', runr w (relay_ack_message url recipient id) = (w', Ok tt)
    ∧ same_repository w w'
    ∧ MessageRelay.inboxes (relay w')
      = (ack MessageRelay.env_id (MessageRelay.inboxes (relay w)) recipient id).1
    ∧ next_id w' = next_id w.
Proof.
  assert (Hh : ∃ w' b, handle_request w (ToRelay (PairwiseRelay.Ack recipient id)) = (w', OK, b)
    ∧ same_repository w w'
    ∧ MessageRelay.inboxes (relay w')
      = (ack MessageRelay.env_id (MessageRelay.inboxes (relay w)) recipient id).1
    ∧ next_id w' = next_id w).
  { cbn. unfold PairwiseRelay.ack_message, ack_handler, observed, MessageRelay.ack_envelope.
    cbn [MessageRelay.inboxes set_relay_metrics]. destruct (ack _ _ _ _) as [m acked].
    destruct acked; cbn; do 2 eexists; (split; [reflexivity|by split]). }
  destruct Hh as (w' & b & Hh & H). exists w'. split; [|done]. unfold relay_ack_message.
  by erewrite run_answered by done.
Qed.
End network.
