(* ===== verification/PreKeys.v ===== *)
(** * Prekeys, bundles and identities

    What libsignal keeps and publishes to establish sessions: the KEM keys of [kem.rs],
    the identity keys of [identity_key.rs], the stored prekeys of [state/], the bundle an
    initiator starts from, and the in-memory stores of [storage/inmem.rs].  The random
    generator and the lattice arithmetic (libcrux) are the classes [Csprng] and
    [KemPrimitives]. *)

From S2P Require Import Prelude SenderKeyState GroupCipher.
From stdpp Require Import options.

Local Open Scope N_scope.

(** [rand::rngs::StdRng]: [fill_bytes], [random::<[u8; n]>()] and [random::<u32>()] *)
Class Csprng := {
  Rng : Type;
  fill_bytes : nat → Rng → bytes * Rng;
  random_array : nat → Rng → bytes * Rng;
  random_u32 : Rng → N * Rng;
}.

Class CsprngLaws {csprng : Csprng} := {
  fill_length n g : length (fill_bytes n g).1 = n;
  array_length n g : length (random_array n g).1 = n;
  u32_bound g : (random_u32 g).1 <= u32_max;
}.

(** ** KEM keys *)

Module kem.
Inductive KeyType := Kyber768 | Kyber1024.

#[export] Instance key_type_eq_dec : EqDecision KeyType.
Proof. solve_decision. Defined.

Definition value (t : KeyType) : Byte.byte :=
  match t with Kyber768 => Byte.x07 | Kyber1024 => Byte.x08 end.

(** [Display] *)
Definition display (t : KeyType) : string :=
  match t with Kyber768 => "Kyber768 key" | Kyber1024 => "Kyber1024 key" end.

Definition key_type_try_from (x : Byte.byte) : outcome KeyType :=
  match x with
  | Byte.x07 => Ok Kyber768
  | Byte.x08 => Ok Kyber1024
  | t => Err (BadKEMKeyType t)
  end.

(** The lengths of libcrux's types, its key generation from 64 random bytes, its
    encapsulation (public key and 32 random bytes to secret and ciphertext) and
    decapsulation (secret key and ciphertext) *)
Class KemPrimitives := {
  public_key_length : KeyType → nat;
  secret_key_length : KeyType → nat;
  ciphertext_length : KeyType → nat;
  generate_key_pair : KeyType → bytes → bytes * bytes;
  kem_encapsulate : KeyType → bytes → bytes → bytes * bytes;
  kem_decapsulate : KeyType → bytes → bytes → bytes;
}.

Class KemLaws {prim : KemPrimitives} := {
  generated_lengths t seed :
    length (generate_key_pair t seed).1 = public_key_length t
    ∧ length (generate_key_pair t seed).2 = secret_key_length t;
  encapsulated_length t pk r : length (kem_encapsulate t pk r).2 = ciphertext_length t;
  decapsulate_encapsulated t seed r :
    let '(pk, sk) := generate_key_pair t seed in
    let '(secret, ciphertext) := kem_encapsulate t pk r in
    kem_decapsulate t sk ciphertext = secret;
}.

Inductive KeyKind := Public | Secret.

Record Key (kind : KeyKind) := MkKey { key_type : KeyType; key_data : bytes }.
Arguments MkKey {_} _ _.
Arguments key_type {_} _.
Arguments key_data {_} _.

Abbreviation PublicKey := (Key Public).
Abbreviation SecretKey := (Key Secret).

Record KeyPair := MkKeyPair { public_key : PublicKey; secret_key : SecretKey }.

Section keys.
Context {prim : KemPrimitives}.

Definition key_length (kind : KeyKind) (t : KeyType) : nat :=
  match kind with Public => public_key_length t | Secret => secret_key_length t end.

Definition deserialize {kind} (v : bytes) : outcome (Key kind) :=
  match v with
  | [] => Err (FromCurve NoKeyTypeIdentifier)
  | t :: data =>
      let? t <- key_type_try_from t in
      if (length v =? key_length kind t + 1)%nat then Ok (MkKey t data)
      else Err (BadKEMKeyLength (display t) (length v))
  end.

Definition serialize {kind} (k : Key kind) : bytes := value (key_type k) :: key_data k.

Definition generate {csprng : Csprng} (t : KeyType) (g : Rng) : KeyPair * Rng :=
  let '(seed, g) := random_array 64 g in
  let '(pk, sk) := generate_key_pair t seed in
  (MkKeyPair (MkKey t pk) (MkKey t sk), g).

Definition from_public_and_private (pk sk : bytes) : outcome KeyPair :=
  let? pk <- deserialize (kind := Public) pk in
  let? sk <- deserialize (kind := Secret) sk in
  if decide (key_type pk = key_type sk) then Ok (MkKeyPair pk sk)
  else Err (WrongKEMKeyType (value (key_type sk)) (value (key_type pk))).

(** [Key<Public>::encapsulate]: the shared secret and the serialised ciphertext *)
Definition encapsulate {csprng : Csprng} (k : PublicKey) (g : Rng) :
    Rng * outcome (bytes * bytes) :=
  let t := key_type k in
  if (length (key_data k) =? public_key_length t)%nat then
    let '(random, g) := random_array 32 g in
    let '(ss, ct) := kem_encapsulate t (key_data k) random in
    (g, Ok (ss, value t :: ct))
  else (g, Err (BadKEMKeyLength (display t) (length (key_data k)))).

(** [Ciphertext::deserialize] *)
Definition ciphertext_deserialize (v : bytes) : outcome (KeyType * bytes) :=
  match v with
  | [] => Err (FromCurve NoKeyTypeIdentifier)
  | t :: data =>
      let? t <- key_type_try_from t in
      if (length v =? ciphertext_length t + 1)%nat then Ok (t, data)
      else Err (BadKEMCiphertextLength (display t) (length v))
  end.

(** [Key<Secret>::decapsulate]; the ciphertext's length is checked by then. *)
Definition decapsulate (k : SecretKey) (ct_bytes : bytes) : outcome bytes :=
  let? (t, ct) <- ciphertext_deserialize ct_bytes in
  if decide (t = key_type k) then
    if (length (key_data k) =? secret_key_length t)%nat then Ok (kem_decapsulate t (key_data k) ct)
    else Err (BadKEMKeyLength (display t) (length (key_data k)))
  else Err (WrongKEMKeyType (value t) (value (key_type k))).

Lemma decapsulate_encapsulate {laws : KemLaws} {csprng : Csprng} t seed_state g :
  let kp := (generate t seed_state).1 in
  ∃ g' ss ct, encapsulate (public_key kp) g = (g', Ok (ss, ct))
    ∧ decapsulate (secret_key kp) ct = Ok ss.
Proof.
  unfold generate. destruct (random_array 64 seed_state) as [seed s'].
  pose proof (generated_lengths t seed) as [Hp Hs]. pose proof (decapsulate_encapsulated t seed) as Hd.
  destruct (generate_key_pair t seed) as [pk sk]. cbn [fst snd] in *.
  unfold encapsulate. cbn [key_type key_data public_key]. rewrite Hp, Nat.eqb_refl.
  destruct (random_array 32 g) as [r g'] eqn:Er. specialize (Hd r).
  pose proof (encapsulated_length t pk r) as Hl.
  destruct (kem_encapsulate t pk r) as [ss ct]. cbn [snd] in Hl.
  exists g', ss, (value t :: ct). split; [done|]. unfold decapsulate, ciphertext_deserialize.
  replace (key_type_try_from (value t)) with (@Ok SignalProtocolError _ t) by by destruct t.
  cbn [length]. rewrite Hl, Nat.add_1_r, Nat.eqb_refl. cbn [secret_key key_type key_data].
  rewrite decide_True by done. by rewrite Hs, Nat.eqb_refl, Hd.
Qed.

Lemma serialize_deserialize {kind} (k : Key kind) :
  length (key_data k) = key_length kind (key_type k) → deserialize (serialize k) = Ok k.
Proof.
  destruct k as [t data]. cbn. intros H. unfold deserialize, serialize. cbn [key_type key_data].
  replace (key_type_try_from (value t)) with (@Ok SignalProtocolError _ t) by by destruct t.
  cbn [length]. rewrite H, Nat.add_1_r, Nat.eqb_refl. done.
Qed.

Lemma generate_lengths {laws : KemLaws} {csprng : Csprng} t g :
  let pair := (generate t g).1 in
  length (key_data (public_key pair)) = key_length Public (key_type (public_key pair))
  ∧ length (key_data (secret_key pair)) = key_length Secret (key_type (secret_key pair)).
Proof.
  unfold generate. destruct (random_array 64 g) as [seed g'].
  pose proof (generated_lengths t seed) as [H1 H2].
  by destruct (generate_key_pair t seed) as [pk sk].
Qed.

Definition generated {csprng : Csprng} (kp : KeyPair) : Prop := ∃ t g, kp = (generate t g).1.

Lemma generated_sound {laws : KemLaws} {csprng : Csprng} kp : generated kp →
  length (key_data (public_key kp)) = key_length Public (key_type (public_key kp))
  ∧ length (key_data (secret_key kp)) = key_length Secret (key_type (secret_key kp))
  ∧ key_type (public_key kp) = key_type (secret_key kp).
Proof.
  intros (t & g & ->). pose proof (generate_lengths t g) as [H1 H2]. split_and!; [done..|].
  unfold generate. destruct (random_array 64 g) as [seed g']. by destruct (generate_key_pair t seed).
Qed.
End keys.
End kem.

(** ** Identities *)

Record IdentityKey := MkIdentityKey { identity_public_key : PublicKey }.

#[export] Instance identity_key_eq_dec : EqDecision IdentityKey.
Proof. solve_decision. Defined.

Record IdentityKeyPair := MkIdentityKeyPair {
  ik_identity_key : IdentityKey;
  ik_private_key : PrivateKey;
}.

Section random.
Context {crypto : SignalCrypto} {csprng : Csprng}.

(** [curve::KeyPair::generate(&mut csprng)] *)
Definition generate_pair (g : Rng) : KeyPair * Rng :=
  let '(seed, g) := fill_bytes 32 g in (generate seed, g).

(** [private_key.calculate_signature(message, &mut csprng)] *)
Definition sign (k : PrivateKey) (message : bytes) (g : Rng) : bytes * Rng :=
  let '(random, g) := fill_bytes 64 g in (calculate_signature k random message, g).

Definition identity_generate (g : Rng) : IdentityKeyPair * Rng :=
  let '(kp, g) := generate_pair g in
  (MkIdentityKeyPair (MkIdentityKey (kp_public kp)) (kp_private kp), g).

Lemma generate_pair_sound {laws : SignalLaws} {glaws : CsprngLaws} g :
  sound_pair (generate_pair g).1.
Proof.
  unfold generate_pair. pose proof (fill_length 32 g) as H.
  destruct (fill_bytes 32 g) as [seed g']. by apply generate_sound.
Qed.
End random.

(** ** Stored prekeys *)

(** [PreKeyRecordStructure] *)
Record PreKeyRecord := MkPreKeyRecord {
  pre_id : N;
  pre_public : bytes;
  pre_private : bytes;
}.

(** [SignedPreKeyRecordStructure], of both [SignedPreKeyRecord] and [KyberPreKeyRecord] *)
Record SignedPreKeyRecord := MkSignedPreKeyRecord {
  spk_id : N;
  spk_timestamp : N;
  spk_public : bytes;
  spk_private : bytes;
  spk_signature : bytes;
}.

Section records.
Context {crypto : SignalCrypto} {prim : kem.KemPrimitives}.

Definition from_curve {A} (r : result CurveError A) : outcome A :=
  match r with Ok a => Ok a | Err e => Err (FromCurve e) end.

Definition pre_key_new (id : N) (pair : KeyPair) : PreKeyRecord :=
  MkPreKeyRecord id (public_serialize (kp_public pair)) (private_serialize (kp_private pair)).

Definition pre_key_public (r : PreKeyRecord) : outcome PublicKey :=
  from_curve (public_deserialize (pre_public r)).

(** [KeyPair::from_public_and_private] *)
Definition pair_from (pk sk : bytes) : outcome KeyPair :=
  let? pk <- from_curve (public_deserialize pk) in
  let? sk <- from_curve (private_deserialize sk) in
  Ok (MkKeyPair pk sk).

Definition pre_key_pair (r : PreKeyRecord) : outcome KeyPair :=
  pair_from (pre_public r) (pre_private r).

Definition signed_pre_key_new (id timestamp : N) (pair : KeyPair) (signature : bytes) :
    SignedPreKeyRecord :=
  MkSignedPreKeyRecord id timestamp (public_serialize (kp_public pair))
    (private_serialize (kp_private pair)) signature.

Definition signed_pre_key_public (r : SignedPreKeyRecord) : outcome PublicKey :=
  from_curve (public_deserialize (spk_public r)).

Definition signed_pre_key_pair (r : SignedPreKeyRecord) : outcome KeyPair :=
  pair_from (spk_public r) (spk_private r).

Definition kyber_pre_key_new (id timestamp : N) (pair : kem.KeyPair) (signature : bytes) :
    SignedPreKeyRecord :=
  MkSignedPreKeyRecord id timestamp (kem.serialize (kem.public_key pair))
    (kem.serialize (kem.secret_key pair)) signature.

Definition kyber_pre_key_public (r : SignedPreKeyRecord) : outcome kem.PublicKey :=
  kem.deserialize (spk_public r).

Definition kyber_pre_key_pair (r : SignedPreKeyRecord) : outcome kem.KeyPair :=
  kem.from_public_and_private (spk_public r) (spk_private r).
End records.

(** ** Bundles *)

Record PreKeyBundle := MkPreKeyBundle {
  b_registration_id : N;
  b_device_id : N;
  b_pre_key_id : option N;
  b_pre_key_public : option PublicKey;
  b_signed_pre_key_id : N;
  b_signed_pre_key_public : PublicKey;
  b_signed_pre_key_signature : bytes;
  b_identity_key : IdentityKey;
  b_kyber_pre_key_id : N;
  b_kyber_pre_key_public : kem.PublicKey;
  b_kyber_pre_key_signature : bytes;
}.

(** [PreKeyBundle::new] *)
Definition bundle_new (registration_id device_id : N) (pre_key : option (N * PublicKey))
    (signed_id : N) (signed_public : PublicKey) (signed_signature : bytes) (kyber_id : N)
    (kyber_public : kem.PublicKey) (kyber_signature : bytes) (identity : IdentityKey) :
    PreKeyBundle :=
  MkPreKeyBundle registration_id device_id (fst <$> pre_key) (snd <$> pre_key) signed_id
    signed_public signed_signature identity kyber_id kyber_public kyber_signature.

(** [DeviceId::new] *)
Definition MAX_VALID_DEVICE_ID : N := 127.
Definition device_id_new (id : N) : option N :=
  if (1 <=? id) && (id <=? MAX_VALID_DEVICE_ID) then Some id else None.

(** ** In-memory stores *)

(** [InMemIdentityKeyStore] *)
Record IdentityStore := MkIdentityStore {
  is_key_pair : IdentityKeyPair;
  is_registration_id : N;
  known_keys : gmap ProtocolAddress IdentityKey;
}.

Definition save_identity (s : IdentityStore) (a : ProtocolAddress) (k : IdentityKey) :
    IdentityStore :=
  let saved := MkIdentityStore (is_key_pair s) (is_registration_id s) (<[a := k]> (known_keys s)) in
  match known_keys s !! a with
  | None => saved
  | Some k' => if decide (k' = k) then s else saved
  end.

Definition is_trusted_identity (s : IdentityStore) (a : ProtocolAddress) (k : IdentityKey) : bool :=
  match known_keys s !! a with None => true | Some k' => bool_decide (k' = k) end.

Definition get_pre_key (s : gmap N PreKeyRecord) (id : N) : outcome PreKeyRecord :=
  ok_or (s !! id) InvalidPreKeyId.
Definition save_pre_key (s : gmap N PreKeyRecord) (id : N) (r : PreKeyRecord) :
    gmap N PreKeyRecord := <[id := r]> s.
Definition remove_pre_key (s : gmap N PreKeyRecord) (id : N) : gmap N PreKeyRecord := delete id s.

Definition get_signed_pre_key (s : gmap N SignedPreKeyRecord) (id : N) :
    outcome SignedPreKeyRecord := ok_or (s !! id) InvalidSignedPreKeyId.
Definition save_signed_pre_key (s : gmap N SignedPreKeyRecord) (id : N) (r : SignedPreKeyRecord) :
    gmap N SignedPreKeyRecord := <[id := r]> s.

(** [InMemKyberPreKeyStore] *)
Record KyberStore := MkKyberStore {
  kyber_pre_keys : gmap N SignedPreKeyRecord;
  base_keys_seen : gmap (N * N) (list PublicKey);
}.

Definition get_kyber_pre_key (s : KyberStore) (id : N) : outcome SignedPreKeyRecord :=
  ok_or (kyber_pre_keys s !! id) InvalidKyberPreKeyId.

Definition save_kyber_pre_key (s : KyberStore) (id : N) (r : SignedPreKeyRecord) : KyberStore :=
  MkKyberStore (<[id := r]> (kyber_pre_keys s)) (base_keys_seen s).

(** [or_default] leaves an empty entry behind when the key is refused later; it never
    is, on an entry just created. *)
Definition mark_kyber_pre_key_used (s : KyberStore) (kyber_id signed_id : N) (base : PublicKey) :
    outcome KyberStore :=
  let seen := default [] (base_keys_seen s !! (kyber_id, signed_id)) in
  if decide (base ∈ seen) then Err (InvalidMessage "PreKey" "reused base key")
  else Ok (MkKyberStore (kyber_pre_keys s)
             (<[(kyber_id, signed_id) := seen ++ [base]]> (base_keys_seen s))).
