(* ===== verification/Ratchet.v ===== *)
(** * Key agreement and the double ratchet

    The in-tree libsignal's [pqxdh.rs], [ratchet/keys.rs] and [double_ratchet.rs]: how two
    participants agree on their first keys, the chains of message keys, and the ratchet
    that starts new chains from fresh key agreements.  The arithmetic of X25519 and the
    salted HKDF are the class [AgreementPrimitives].  Profiling and logs are left out. *)

From S2P Require Import Prelude SenderKeyState GroupCipher PreKeys.
From stdpp Require Import options.

Local Open Scope N_scope.

Class AgreementPrimitives := {
  (** Private and public key *)
  curve_agree : bytes → bytes → bytes;
  (** [MontgomeryPoint(k).to_edwards(0).is_some_and(|ed| ed.is_torsion_free())] *)
  is_torsion_free : bytes → bool;
  (** [Hkdf::<Sha256>::new(Some(salt), ikm).expand(info, [0; length])] *)
  hkdf_salted : bytes → bytes → bytes → nat → bytes;
}.

(** [!(k[31] & 0x80 != 0 || (k[0] >= 0u8.wrapping_sub(19) && k[1..31] == [0xFF; 30] &&
    k[31] == 0x7F))]: the number is below [2^255 - 19]. *)
Definition scalar_is_in_range (k : bytes) : bool :=
  let at_ i := Byte.to_N (nth i k Byte.x00) in
  negb (negb (N.land (at_ 31%nat) 128 =? 0)
        || ((237 <=? at_ 0%nat) && bool_decide (take 30 (drop 1 k) = replicate 30 Byte.xff)
            && (at_ 31%nat =? 127))).

Class AgreementLaws {crypto : SignalCrypto} {agreement : AgreementPrimitives} := {
  (** Diffie-Hellman, for keys generated as [KeyPair::generate] does *)
  agree_comm k k' : clamp_integer k = k → clamp_integer k' = k' →
    curve_agree k (derive_public_key k') = curve_agree k' (derive_public_key k);
  agree_nonzero k k' : clamp_integer k = k → clamp_integer k' = k' →
    curve_agree k (derive_public_key k') ≠ replicate 32 Byte.x00;
  derived_canonical k : clamp_integer k = k →
    is_torsion_free (derive_public_key k) = true ∧ scalar_is_in_range (derive_public_key k) = true;
  hkdf_salted_length s k i n : length (hkdf_salted s k i n) = n;
}.

Definition MAX_RECEIVER_CHAINS : nat := 5.

Section agreement.
Context {crypto : SignalCrypto} {agreement : AgreementPrimitives}.

(** [PublicKey::is_canonical] *)
Definition is_canonical (k : PublicKey) : bool :=
  is_torsion_free (public_key_bytes k) && scalar_is_in_range (public_key_bytes k).

(** [PrivateKey::calculate_agreement] *)
Definition calculate_agreement (k : PrivateKey) (their : PublicKey) : outcome bytes :=
  let shared := curve_agree (private_key_bytes k) (public_key_bytes their) in
  if decide (shared = replicate 32 Byte.x00) then Err (FromCurve InvalidKeyAgreement)
  else Ok shared.

Definition hkdf (salt : option bytes) (ikm info : bytes) (n : nat) : bytes :=
  match salt with Some s => hkdf_salted s ikm info n | None => hkdf_expand ikm info n end.

(** ** Message keys and chains ([ratchet/keys.rs]) *)

Record MessageKeys := MkMessageKeys {
  mks_cipher_key : bytes;
  mks_mac_key : bytes;
  mks_iv : bytes;
  mks_counter : N;
}.

(** [derive_arrays] cuts the output into pieces of 32, 32 and 16 bytes. *)
Definition derive_keys (input_key_material : bytes) (salt : option bytes) (counter : N) :
    MessageKeys :=
  let okm := hkdf salt input_key_material (String.list_byte_of_string "WhisperMessageKeys") 80 in
  MkMessageKeys (take 32 okm) (take 32 (drop 32 okm)) (drop 64 okm) counter.

Inductive MessageKeyGenerator :=
| Keys (k : MessageKeys)
| Seed (seed : bytes) (counter : N).

(** [storage.proto] *)
Record MessageKeyPb := MkMessageKeyPb {
  pb_index : N;
  pb_cipher_key : bytes;
  pb_mac_key : bytes;
  pb_iv : bytes;
  pb_seed : bytes;
}.
Record ChainKeyPb := MkChainKeyPb { pb_chain_index : N; pb_key : bytes }.
Record Chain := MkChain {
  pb_ratchet_key : bytes;
  pb_ratchet_key_private : bytes;
  pb_chain_key : option ChainKeyPb;
  pb_message_keys : list MessageKeyPb;
}.

Definition generate_keys (g : MessageKeyGenerator) (pqr_key : option bytes) : outcome MessageKeys :=
  match g with
  | Seed seed counter => Ok (derive_keys seed pqr_key counter)
  | Keys k =>
      match pqr_key with
      | None => Ok k
      | Some _ => Err (Panicked "assertion failed: pqr_key.is_none()")
      end
  end.

Definition into_pb (g : MessageKeyGenerator) : MessageKeyPb :=
  match g with
  | Keys k => MkMessageKeyPb (mks_counter k) (mks_cipher_key k) (mks_mac_key k) (mks_iv k) []
  | Seed seed counter => MkMessageKeyPb counter [] [] [] seed
  end.

(** [try_into] to an array, with the [InvalidSessionError] of a wrong length *)
Definition array_of (n : nat) (b : bytes) (what : string) : outcome bytes :=
  if (length b =? n)%nat then Ok b else Err (InvalidSessionStructure what).

Definition from_pb (pb : MessageKeyPb) : outcome MessageKeyGenerator :=
  match pb_seed pb with
  | [] =>
      let? cipher_key <- array_of 32 (pb_cipher_key pb) "invalid message cipher key" in
      let? mac_key <- array_of 32 (pb_mac_key pb) "invalid message MAC key" in
      let? iv <- array_of 16 (pb_iv pb) "invalid message IV" in
      Ok (Keys (MkMessageKeys cipher_key mac_key iv (pb_index pb)))
  | seed => Ok (Seed seed (pb_index pb))
  end.

Record ChainKey := MkChainKey { ck_key : bytes; ck_index : N }.

Definition next_chain_key (k : ChainKey) : ChainKey :=
  MkChainKey (hmac_sha256 (ck_key k) [CHAIN_KEY_SEED]) (wrap32 (ck_index k + 1)).

Definition message_keys (k : ChainKey) : MessageKeyGenerator :=
  Seed (hmac_sha256 (ck_key k) [MESSAGE_KEY_SEED]) (ck_index k).

Definition chain_key_from_pb (pb : ChainKeyPb) : outcome ChainKey :=
  let? key <- array_of 32 (pb_key pb) "invalid chain key" in
  Ok (MkChainKey key (pb_chain_index pb)).

Definition chain_key_to_pb (k : ChainKey) : ChainKeyPb := MkChainKeyPb (ck_index k) (ck_key k).

(** [RootKey::create_chain]; a root key is its 32 bytes. *)
Definition create_chain (root : bytes) (their : PublicKey) (our : PrivateKey) :
    outcome (bytes * ChainKey) :=
  let? shared <- calculate_agreement our their in
  let okm := hkdf (Some root) shared (String.list_byte_of_string "WhisperRatchet") 64 in
  Ok (take 32 okm, MkChainKey (drop 32 okm) 0).

(** ** PQXDH ([pqxdh.rs]) *)

Record HandshakeKeys := MkHandshakeKeys {
  root_key : bytes;
  hk_chain_key : ChainKey;
  pqr_key : bytes;
}.

Definition handshake_derive (secret_input : bytes) : HandshakeKeys :=
  let okm := hkdf None secret_input
               (String.list_byte_of_string "WhisperText_X25519_SHA-256_CRYSTALS-KYBER-1024") 96 in
  MkHandshakeKeys (take 32 okm) (MkChainKey (take 32 (drop 32 okm)) 0) (drop 64 okm).

Record InitiatorParameters := MkInitiator {
  ip_our_identity : IdentityKeyPair;
  ip_our_ephemeral : KeyPair;
  ip_their_identity : IdentityKey;
  ip_their_signed_pre_key : PublicKey;
  ip_their_one_time_pre_key : option PublicKey;
  ip_their_ratchet_key : PublicKey;
  ip_their_kyber_pre_key : kem.PublicKey;
  ip_self_session : bool;
}.

Record RecipientParameters := MkRecipient {
  rp_our_identity : IdentityKeyPair;
  rp_our_signed_pre_key : KeyPair;
  rp_our_one_time_pre_key : option KeyPair;
  rp_our_kyber_pre_key : kem.KeyPair;
  rp_their_identity : IdentityKey;
  rp_their_ephemeral : PublicKey;
  rp_their_kyber_ciphertext : bytes;
  rp_self_session : bool;
}.

Definition discontinuity_bytes : bytes := replicate 32 Byte.xff.

Section initiate.
Context {prim : kem.KemPrimitives} {csprng : Csprng}.

(** The secrets of the elliptic-curve agreements *)
Definition initiator_secrets (p : InitiatorParameters) : outcome bytes :=
  let ours := kp_private (ip_our_ephemeral p) in
  let? s1 <- calculate_agreement (ik_private_key (ip_our_identity p)) (ip_their_signed_pre_key p) in
  let? s2 <- calculate_agreement ours (identity_public_key (ip_their_identity p)) in
  let? s3 <- calculate_agreement ours (ip_their_signed_pre_key p) in
  let? s4 <- match ip_their_one_time_pre_key p with
             | Some k => calculate_agreement ours k
             | None => Ok []
             end in
  Ok (discontinuity_bytes ++ s1 ++ s2 ++ s3 ++ s4).

Definition pqxdh_initiate (p : InitiatorParameters) (g : Rng) :
    Rng * outcome (bytes * HandshakeKeys) :=
  match initiator_secrets p with
  | Err e => (g, Err e)
  | Ok secrets =>
      let '(g, encapsulated) := kem.encapsulate (ip_their_kyber_pre_key p) g in
      (g, let? (ss, ct) <- encapsulated in Ok (ct, handshake_derive (secrets ++ ss)))
  end.

Definition recipient_secrets (p : RecipientParameters) : outcome bytes :=
  let signed := kp_private (rp_our_signed_pre_key p) in
  let? s1 <- calculate_agreement signed (identity_public_key (rp_their_identity p)) in
  let? s2 <- calculate_agreement (ik_private_key (rp_our_identity p)) (rp_their_ephemeral p) in
  let? s3 <- calculate_agreement signed (rp_their_ephemeral p) in
  let? s4 <- match rp_our_one_time_pre_key p with
             | Some k => calculate_agreement (kp_private k) (rp_their_ephemeral p)
             | None => Ok []
             end in
  Ok (discontinuity_bytes ++ s1 ++ s2 ++ s3 ++ s4).

Definition pqxdh_accept (p : RecipientParameters) : outcome HandshakeKeys :=
  if negb (is_canonical (rp_their_ephemeral p))
  then Err (InvalidMessage "PreKey" "incoming base key is invalid")
  else
    let? secrets <- recipient_secrets p in
    let? ss <- kem.decapsulate (kem.secret_key (rp_our_kyber_pre_key p))
                 (rp_their_kyber_ciphertext p) in
    Ok (handshake_derive (secrets ++ ss)).
End initiate.

(** ** The double ratchet ([double_ratchet.rs]) *)

Record SenderChain := MkSenderChain { ratchet_key : KeyPair; sc_chain_key : ChainKey }.

Record RatchetState := MkRatchetState {
  rs_root_key : bytes;
  rs_sender_chain : option SenderChain;
  rs_receiver_chains : list Chain;
  rs_previous_counter : N;
  rs_max_forward_jumps : N;
}.

Definition sender_chain_from_pb (c : Chain) : outcome SenderChain :=
  let invalid {A} (r : result CurveError A) what : outcome A :=
    match r with Ok a => Ok a | Err _ => Err (InvalidSessionStructure what) end in
  let? public_key <- invalid (public_deserialize (pb_ratchet_key c))
                       "invalid sender ratchet public key" in
  let? private_key <- invalid (private_deserialize (pb_ratchet_key_private c))
                        "invalid sender ratchet private key" in
  let? chain_key <- ok_or (pb_chain_key c) (InvalidSessionStructure "missing sender chain key") in
  let? chain_key <- chain_key_from_pb chain_key in
  Ok (MkSenderChain (MkKeyPair public_key private_key) chain_key).

Definition sender_chain_to_pb (c : SenderChain) : Chain :=
  MkChain (public_serialize (kp_public (ratchet_key c)))
    (private_serialize (kp_private (ratchet_key c))) (Some (chain_key_to_pb (sc_chain_key c))) [].

Definition set_receiver_chains (s : RatchetState) (l : list Chain) : RatchetState :=
  MkRatchetState (rs_root_key s) (rs_sender_chain s) l (rs_previous_counter s)
    (rs_max_forward_jumps s).

Definition receives_with (their : PublicKey) (c : Chain) : bool :=
  match public_deserialize (pb_ratchet_key c) with
  | Ok key => bool_decide (key = their)
  | Err _ => false
  end.

Definition find_receiver_chain_index (s : RatchetState) (their : PublicKey) : option nat :=
  fst <$> list_find (λ c, Is_true (receives_with their c)) (rs_receiver_chains s).

Definition receiver_chain (s : RatchetState) (their : PublicKey) : option Chain :=
  let! i <- find_receiver_chain_index s their in rs_receiver_chains s !! i.

(** The change of [self.receiver_chains[chain_idx]], when there is one *)
Definition alter_receiver_chain (s : RatchetState) (their : PublicKey) (f : Chain → Chain) :
    RatchetState :=
  match find_receiver_chain_index s their with
  | Some i => set_receiver_chains s (alter f i (rs_receiver_chains s))
  | None => s
  end.

Definition find_receiver_chain_key (s : RatchetState) (their : PublicKey) :
    outcome (option ChainKey) :=
  match receiver_chain s their with
  | None => Ok None
  | Some c =>
      let? pb <- ok_or (pb_chain_key c) (InvalidSessionStructure "missing receiver chain key") in
      let? k <- chain_key_from_pb pb in
      Ok (Some k)
  end.

(** A failed step leaves the root key it has taken out zeroed; its callers discard the
    state then. *)
Definition dh_ratchet_step {csprng : Csprng} (s : RatchetState) (their : PublicKey) (g : Rng) :
    (RatchetState * Rng) * outcome ChainKey :=
  match rs_sender_chain s with
  | None => ((s, g), Err (InvalidSessionStructure "missing sender chain"))
  | Some sender =>
      let taken := MkRatchetState (replicate 32 Byte.x00) (rs_sender_chain s)
                     (rs_receiver_chains s) (rs_previous_counter s) (rs_max_forward_jumps s) in
      match create_chain (rs_root_key s) their (kp_private (ratchet_key sender)) with
      | Err e => ((taken, g), Err e)
      | Ok (new_root_key, receiver_chain_key) =>
          let '(new_sender_key, g) := generate_pair g in
          match create_chain new_root_key their (kp_private new_sender_key) with
          | Err e => ((taken, g), Err e)
          | Ok (final_root_key, sender_chain_key) =>
              let chains := rs_receiver_chains s ++
                [MkChain (public_serialize their) [] (Some (chain_key_to_pb receiver_chain_key)) []]
              in
              ((MkRatchetState final_root_key (Some (MkSenderChain new_sender_key sender_chain_key))
                  (drop (length chains - MAX_RECEIVER_CHAINS) chains)
                  (ck_index (sc_chain_key sender) - 1) (rs_max_forward_jumps s), g),
               Ok receiver_chain_key)
          end
      end
  end.

Definition ensure_receiver_chain {csprng : Csprng} (s : RatchetState) (their : PublicKey) (g : Rng) :
    (RatchetState * Rng) * outcome ChainKey :=
  match find_receiver_chain_key s their with
  | Err e => ((s, g), Err e)
  | Ok (Some k) => ((s, g), Ok k)
  | Ok None => dh_ratchet_step s their g
  end.

(** [keys.iter().position(..)] and [keys.remove(pos)] *)
Fixpoint take_index (counter : N) (l : list MessageKeyPb) :
    option (MessageKeyPb * list MessageKeyPb) :=
  match l with
  | [] => None
  | k :: l =>
      if pb_index k =? counter then Some (k, l)
      else let! (k', l') <- take_index counter l in Some (k', k :: l')
  end.

Definition set_message_keys (c : Chain) (l : list MessageKeyPb) : Chain :=
  MkChain (pb_ratchet_key c) (pb_ratchet_key_private c) (pb_chain_key c) l.

Definition take_skipped_key (s : RatchetState) (their : PublicKey) (counter : N) :
    RatchetState * outcome (option MessageKeyGenerator) :=
  match (let! c <- receiver_chain s their in take_index counter (pb_message_keys c)) with
  | None => (s, Ok None)
  | Some (pb, rest) =>
      (alter_receiver_chain s their (λ c, set_message_keys c rest),
       let? g <- from_pb pb in Ok (Some g))
  end.

(** The last two are only called for chains that exist. *)
Definition store_skipped_key (s : RatchetState) (their : PublicKey) (key : MessageKeyGenerator) :
    RatchetState :=
  alter_receiver_chain s their (λ c,
    let keys := into_pb key :: pb_message_keys c in
    set_message_keys c
      (if (MAX_MESSAGE_KEYS <? length keys)%nat then removelast keys else keys)).

Definition set_receiver_chain_key (s : RatchetState) (their : PublicKey) (k : ChainKey) :
    RatchetState :=
  alter_receiver_chain s their
    (λ c, MkChain (pb_ratchet_key c) (pb_ratchet_key_private c) (Some (chain_key_to_pb k))
            (pb_message_keys c)).

(** The loop [while chain_key.index() < counter], of which there are [n] turns *)
Fixpoint skip_ahead (n : nat) (s : RatchetState) (their : PublicKey) (k : ChainKey) :
    RatchetState * ChainKey :=
  match n with
  | O => (s, k)
  | S n => skip_ahead n (store_skipped_key s their (message_keys k)) their (next_chain_key k)
  end.

Definition consume_message_key (s : RatchetState) (their : PublicKey) (k : ChainKey) (counter : N)
    (original_message_type : string) : RatchetState * outcome MessageKeyGenerator :=
  let chain_index := ck_index k in
  if counter <? chain_index then
    let '(s, key) := take_skipped_key s their counter in
    (s, let? key <- key in ok_or key (DuplicatedMessage chain_index counter))
  else
    let jump := counter - chain_index in
    if rs_max_forward_jumps s <? jump
    then (s, Err (InvalidMessage original_message_type "message from too far into the future"))
    else
      let '(s, k) := skip_ahead (N.to_nat jump) s their k in
      (set_receiver_chain_key s their (next_chain_key k), Ok (message_keys k)).
End agreement.
