(* ===== verification/Sessions.v ===== *)
(** * Pairwise sessions

    The in-tree libsignal's [SignalMessage]s and [PreKeySignalMessage]s ([protocol.rs]),
    session states and records ([state/session.rs]), their creation ([ratchet.rs],
    [session.rs]), the triple ratchet ([triple_ratchet.rs]) and the choice of a session to
    encrypt or decrypt with ([session_management.rs]).  The post-quantum ratchet (the
    [spqr] crate) and the protobuf codecs are classes.  Profiling and logs are left out;
    times are milliseconds. *)

From S2P Require Import Prelude SenderKeyState GroupCipher PreKeys Ratchet.
From stdpp Require Import options.

Local Open Scope N_scope.

(** ** The crates *)

(** [version] and [min_version] are [V1]. *)
Inductive SpqrDirection := A2B | B2A.

Class Spqr {csprng : Csprng} := {
  SpqrError : Type;
  is_state_decode : SpqrError → bool;
  spqr_display : SpqrError → string;
  (** The key, the direction, [max_jump] and [max_ooo_keys] *)
  spqr_initial_state : bytes → SpqrDirection → N → N → result SpqrError bytes;
  (** The new state, the message key, and the message *)
  spqr_send : bytes → Rng → Rng * result SpqrError (bytes * option bytes * bytes);
  spqr_recv : bytes → bytes → result SpqrError (bytes * option bytes);
}.

(** A message sent on a connection, its key, and whether the other end has received it *)
Record PqSent := MkPqSent { pq_msg : bytes; pq_key : option bytes; pq_received : bool }.

Definition pq_receive (m : PqSent) : PqSent := MkPqSent (pq_msg m) (pq_key m) true.

(** The two ends of a connection agree on a key for every message, whatever the order the
    messages arrive in, within the crate's limits.  [pq_linked] has all the messages sent
    so far in the two directions, in order.  A message has the epoch of the secret its key
    comes from, and an index among those of its sender in that epoch:
    - of the keys of an epoch the receiver skips at most [max_jump], and keeps those at most
      [max_ooo_keys] indices before the newest: a direction in which no more than
      [MAX_MESSAGE_KEYS] messages have been sent reaches neither limit;
    - an end that sends in an epoch keeps that epoch and the one before it, and forgets
      the keys of the earlier ones ([EPOCHS_TO_KEEP_PRIOR_TO_SEND_EPOCH]): a message is
      received while the receiver has sent none two epochs after it.
    A message that has been received, or is past these limits, is promised nothing. *)
Class SpqrLaws {csprng : Csprng} {spqr : Spqr} := {
  spqr_epoch : bytes → N;
  pq_linked : bytes → bytes → list PqSent → list PqSent → Prop;
  pq_initial key max_jump max_ooo_keys :
    N.of_nat MAX_MESSAGE_KEYS <= max_jump → N.of_nat MAX_MESSAGE_KEYS <= max_ooo_keys →
    ∃ a b, spqr_initial_state key A2B max_jump max_ooo_keys = Ok a
      ∧ spqr_initial_state key B2A max_jump max_ooo_keys = Ok b ∧ pq_linked a b [] [];
  pq_sym a b there back : pq_linked a b there back → pq_linked b a back there;
  pq_send a b there back g :
    pq_linked a b there back → (length there < MAX_MESSAGE_KEYS)%nat →
    ∃ g' a' key msg, spqr_send a g = (g', Ok (a', key, msg))
      ∧ pq_linked a' b (there ++ [MkPqSent msg key false]) back;
  pq_recv a b there back i msg key :
    pq_linked a b there back → (length there <= MAX_MESSAGE_KEYS)%nat →
    there !! i = Some (MkPqSent msg key false) →
    Forall (λ m, spqr_epoch (pq_msg m) <= spqr_epoch msg + 1) back →
    ∃ b', spqr_recv b msg = Ok (b', key) ∧ pq_linked a b' (alter pq_receive i there) back;
}.

(** [wire.proto] *)
Record WireSignal := MkWireSignal {
  ws_ratchet_key : option bytes;
  ws_counter : option N;
  ws_previous_counter : option N;
  ws_ciphertext : option bytes;
  ws_pq_ratchet : option bytes;
  ws_addresses : option bytes;
}.

Record WirePreKeySignal := MkWirePreKeySignal {
  wp_registration_id : option N;
  wp_pre_key_id : option N;
  wp_signed_pre_key_id : option N;
  wp_kyber_pre_key_id : option N;
  wp_kyber_ciphertext : option bytes;
  wp_base_key : option bytes;
  wp_identity_key : option bytes;
  wp_message : option bytes;
}.

(** [storage.proto]; [signed_pre_key_id] is an [i32]. *)
Record PendingPreKey := MkPendingPreKey {
  ppk_pre_key_id : option N;
  ppk_signed_pre_key_id : Z;
  ppk_base_key : bytes;
  ppk_timestamp : N;
}.
Record PendingKyberPreKey := MkPendingKyber { pkk_pre_key_id : N; pkk_ciphertext : bytes }.

Record SessionStructure := MkSession {
  ss_session_version : N;
  ss_local_identity : bytes;
  ss_remote_identity : bytes;
  ss_root_key : bytes;
  ss_previous_counter : N;
  ss_sender_chain : option Chain;
  ss_receiver_chains : list Chain;
  ss_pending_pre_key : option PendingPreKey;
  ss_pending_kyber_pre_key : option PendingKyberPreKey;
  ss_remote_registration_id : N;
  ss_local_registration_id : N;
  ss_alice_base_key : bytes;
  ss_pq_ratchet_state : bytes;
}.

Abbreviation SessionState := SessionStructure.

Class SessionCodec := {
  encode_signal : WireSignal → bytes;
  decode_signal : bytes → option WireSignal;
  encode_prekey_signal : WirePreKeySignal → bytes;
  decode_prekey_signal : bytes → option WirePreKeySignal;
  encode_session : SessionStructure → bytes;
  decode_session : bytes → option SessionStructure;
  (** [Uuid::try_parse] *)
  uuid_try_parse : string → option N;
}.

Class SessionCodecLaws {codec : SessionCodec} := {
  signal_roundtrip m : u32_field (ws_counter m) → u32_field (ws_previous_counter m) →
    decode_signal (encode_signal m) = Some m;
  prekey_signal_roundtrip m :
    u32_field (wp_registration_id m) → u32_field (wp_pre_key_id m) →
    u32_field (wp_signed_pre_key_id m) → u32_field (wp_kyber_pre_key_id m) →
    decode_prekey_signal (encode_prekey_signal m) = Some m;
  (** Field 1 of a [SignalMessage] is its ratchet key, that of a [PreKeySignalMessage] is a
      number. *)
  prekey_signal_rejects m rest : is_Some (ws_ratchet_key m) →
    decode_prekey_signal (encode_signal m ++ rest) = None;
}.

Definition CIPHERTEXT_MESSAGE_CURRENT_VERSION : N := 4.
Definition CIPHERTEXT_MESSAGE_PRE_KYBER_VERSION : N := 3.
Definition MAC_LENGTH : nat := 8.
Definition ARCHIVED_STATES_MAX_LENGTH : nat := 40.
(** Thirty days *)
Definition MAX_UNACKNOWLEDGED_SESSION_AGE : N := 1000 * (60 * 60 * 24 * 30).

Inductive CiphertextMessageType := Whisper | PreKey.
(** [Debug] *)
Definition type_name (t : CiphertextMessageType) : string :=
  match t with Whisper => "Whisper" | PreKey => "PreKey" end.

(** [Display] *)
Definition address_display (a : ProtocolAddress) : string :=
  address_name a +:+ "." +:+ pretty (device_id a).

Section sessions.
Context {crypto : SignalCrypto} {agreement : AgreementPrimitives} {csprng : Csprng}.
Context {prim : kem.KemPrimitives} {spqr : Spqr} {codec : SessionCodec}.

(** ** Service identifiers ([address.rs]) *)

Inductive ServiceId := Aci (uuid : N) | Pni (uuid : N).

#[export] Instance service_id_eq_dec : EqDecision ServiceId.
Proof. solve_decision. Defined.

Definition try_parse_hyphenated (input : string) : option N :=
  if (String.length input =? 36)%nat then uuid_try_parse input else None.

Definition parse_from_service_id_string (input : string) : option ServiceId :=
  if String.prefix "PNI:" input
  then Pni <$> try_parse_hyphenated (String.substring 4 (String.length input - 4) input)
  else Aci <$> try_parse_hyphenated input.

Definition service_id_fixed_width_binary (s : ServiceId) : bytes :=
  match s with
  | Aci u => Byte.x00 :: uuid_bytes u
  | Pni u => Byte.x01 :: uuid_bytes u
  end.

(** ** Identity keys *)

Definition identity_serialize (k : IdentityKey) : bytes := public_serialize (identity_public_key k).

Definition identity_decode (b : bytes) : outcome IdentityKey :=
  let? k <- from_curve (public_deserialize b) in Ok (MkIdentityKey k).

Definition is_same_account (k : IdentityKey) (self : ProtocolAddress) (other_key : IdentityKey)
    (other : ProtocolAddress) : bool :=
  if decide (k = other_key) then
    match parse_from_service_id_string (address_name self),
          parse_from_service_id_string (address_name other) with
    | Some s, Some o => bool_decide (s = o)
    | _, _ => false
    end
  else false.

(** ** Messages ([protocol.rs]) *)

Record SignalMessage := MkSignalMessage {
  sm_version : N;
  sm_ratchet_key : PublicKey;
  sm_counter : N;
  sm_previous_counter : N;
  sm_ciphertext : bytes;
  sm_pq_ratchet : bytes;
  sm_addresses : option bytes;
  sm_serialized : bytes;
}.

Definition ciphertext_version_byte (version : N) : Byte.byte :=
  byte_of (N.lor (N.shiftl (N.land version 15) 4) CIPHERTEXT_MESSAGE_CURRENT_VERSION).

Definition serialize_addresses (sender recipient : ProtocolAddress) : option bytes :=
  let! s <- parse_from_service_id_string (address_name sender) in
  let! r <- parse_from_service_id_string (address_name recipient) in
  Some (service_id_fixed_width_binary s ++ [byte_of (device_id sender)]
        ++ service_id_fixed_width_binary r ++ [byte_of (device_id recipient)]).

Definition compute_mac (sender receiver : IdentityKey) (mac_key message : bytes) : outcome bytes :=
  if (length mac_key =? 32)%nat
  then Ok (take MAC_LENGTH
         (hmac_sha256 mac_key (identity_serialize sender ++ identity_serialize receiver ++ message)))
  else Err (InvalidMacKeyLength (length mac_key)).

Definition signal_message_new (version : N) (mac_key : bytes)
    (addresses : option (ProtocolAddress * ProtocolAddress)) (ratchet_key : PublicKey)
    (counter previous_counter : N) (ciphertext : bytes) (sender receiver : IdentityKey)
    (pq_ratchet : bytes) : outcome SignalMessage :=
  let addresses := let! (s, r) <- addresses in serialize_addresses s r in
  let message := MkWireSignal (Some (public_serialize ratchet_key)) (Some counter)
                   (Some previous_counter) (Some ciphertext)
                   (if bool_decide (pq_ratchet = []) then None else Some pq_ratchet) addresses in
  let serialized := ciphertext_version_byte version :: encode_signal message in
  let? mac <- compute_mac sender receiver mac_key serialized in
  Ok (MkSignalMessage version ratchet_key counter previous_counter ciphertext pq_ratchet addresses
        (serialized ++ mac)).

Definition verify_mac (m : SignalMessage) (sender receiver : IdentityKey) (mac_key : bytes) :
    outcome bool :=
  let n := (length (sm_serialized m) - MAC_LENGTH)%nat in
  let? our_mac <- compute_mac sender receiver mac_key (take n (sm_serialized m)) in
  Ok (bool_decide (our_mac = drop n (sm_serialized m))).

Definition verify_mac_with_addresses (m : SignalMessage) (sender_address recipient_address : ProtocolAddress)
    (sender receiver : IdentityKey) (mac_key : bytes) : outcome bool :=
  let? valid <- verify_mac m sender receiver mac_key in
  if negb valid then Ok false
  else match sm_addresses m with
       | None => Ok true
       | Some encoded =>
           match serialize_addresses sender_address recipient_address with
           | None => Ok false
           | Some expected => Ok (bool_decide (expected = encoded))
           end
       end.

(** The version both [TryFrom]s check *)
Definition ciphertext_version (first : Byte.byte) : outcome N :=
  let version := N.shiftr (Byte.to_N first) 4 in
  if version <? CIPHERTEXT_MESSAGE_PRE_KYBER_VERSION then Err (LegacyCiphertextVersion version)
  else if CIPHERTEXT_MESSAGE_CURRENT_VERSION <? version
  then Err (UnrecognizedCiphertextVersion version)
  else Ok version.

Definition signal_message_try_from (value : bytes) : outcome SignalMessage :=
  match value with
  | [] => Err (CiphertextMessageTooShort 0)
  | first :: rest =>
      if (length value <? MAC_LENGTH + 1)%nat then Err (CiphertextMessageTooShort (length value))
      else
        let? version <- ciphertext_version first in
        let? proto <- ok_or (decode_signal (take (length rest - MAC_LENGTH) rest))
                        InvalidProtobufEncoding in
        let? ratchet_key <- ok_or (ws_ratchet_key proto) InvalidProtobufEncoding in
        let? ratchet_key <- from_curve (public_deserialize ratchet_key) in
        let? counter <- ok_or (ws_counter proto) InvalidProtobufEncoding in
        let? ciphertext <- ok_or (ws_ciphertext proto) InvalidProtobufEncoding in
        Ok (MkSignalMessage version ratchet_key counter (default 0 (ws_previous_counter proto))
              ciphertext (default [] (ws_pq_ratchet proto)) (ws_addresses proto) value)
  end.

(** [pm_kyber] is the [KyberPayload]. *)
Record PreKeySignalMessage := MkPreKeySignalMessage {
  pm_version : N;
  pm_registration_id : N;
  pm_pre_key_id : option N;
  pm_signed_pre_key_id : N;
  pm_kyber : option (N * bytes);
  pm_base_key : PublicKey;
  pm_identity_key : IdentityKey;
  pm_message : SignalMessage;
  pm_serialized : bytes;
}.

Definition prekey_message_new (version registration_id : N) (pre_key_id : option N)
    (signed_pre_key_id : N) (kyber : option (N * bytes)) (base_key : PublicKey)
    (identity_key : IdentityKey) (message : SignalMessage) : PreKeySignalMessage :=
  let proto := MkWirePreKeySignal (Some registration_id) pre_key_id (Some signed_pre_key_id)
                 (fst <$> kyber) (snd <$> kyber) (Some (public_serialize base_key))
                 (Some (identity_serialize identity_key)) (Some (sm_serialized message)) in
  MkPreKeySignalMessage version registration_id pre_key_id signed_pre_key_id kyber base_key
    identity_key message (ciphertext_version_byte version :: encode_prekey_signal proto).

Definition kyber_payload (version : N) (id : option N) (ct : option bytes) :
    outcome (option (N * bytes)) :=
  match id, ct with
  | Some id, Some ct => Ok (Some (id, ct))
  | None, None =>
      if version <=? CIPHERTEXT_MESSAGE_PRE_KYBER_VERSION then Ok None
      else Err (InvalidMessage "PreKey" "Kyber pre key must be present for this session version")
  | _, _ =>
      Err (InvalidMessage "PreKey"
             "Both or neither kyber pre_key_id and kyber_ciphertext can be present")
  end.

Definition prekey_message_try_from (value : bytes) : outcome PreKeySignalMessage :=
  match value with
  | [] => Err (CiphertextMessageTooShort 0)
  | first :: rest =>
      let? version <- ciphertext_version first in
      let? proto <- ok_or (decode_prekey_signal rest) InvalidProtobufEncoding in
      let? base_key <- ok_or (wp_base_key proto) InvalidProtobufEncoding in
      let? identity_key <- ok_or (wp_identity_key proto) InvalidProtobufEncoding in
      let? message <- ok_or (wp_message proto) InvalidProtobufEncoding in
      let? signed_pre_key_id <- ok_or (wp_signed_pre_key_id proto) InvalidProtobufEncoding in
      let? base_key <- from_curve (public_deserialize base_key) in
      let? kyber <- kyber_payload version (wp_kyber_pre_key_id proto) (wp_kyber_ciphertext proto) in
      let? identity_key <- identity_decode identity_key in
      let? message <- signal_message_try_from message in
      Ok (MkPreKeySignalMessage version (default 0 (wp_registration_id proto)) (wp_pre_key_id proto)
            signed_pre_key_id kyber base_key identity_key message value)
  end.

(** ** Session states ([state/session.rs]) *)

Definition set_sender_chain (s : SessionState) (c : option Chain) : SessionState :=
  MkSession (ss_session_version s) (ss_local_identity s) (ss_remote_identity s) (ss_root_key s)
    (ss_previous_counter s) c (ss_receiver_chains s) (ss_pending_pre_key s)
    (ss_pending_kyber_pre_key s) (ss_remote_registration_id s) (ss_local_registration_id s)
    (ss_alice_base_key s) (ss_pq_ratchet_state s).

Definition set_session_chains (s : SessionState) (l : list Chain) : SessionState :=
  MkSession (ss_session_version s) (ss_local_identity s) (ss_remote_identity s) (ss_root_key s)
    (ss_previous_counter s) (ss_sender_chain s) l (ss_pending_pre_key s)
    (ss_pending_kyber_pre_key s) (ss_remote_registration_id s) (ss_local_registration_id s)
    (ss_alice_base_key s) (ss_pq_ratchet_state s).

Definition set_pq_ratchet_state (s : SessionState) (pq : bytes) : SessionState :=
  MkSession (ss_session_version s) (ss_local_identity s) (ss_remote_identity s) (ss_root_key s)
    (ss_previous_counter s) (ss_sender_chain s) (ss_receiver_chains s) (ss_pending_pre_key s)
    (ss_pending_kyber_pre_key s) (ss_remote_registration_id s) (ss_local_registration_id s)
    (ss_alice_base_key s) pq.

Definition set_pending (s : SessionState) (pre_key : option PendingPreKey)
    (kyber : option PendingKyberPreKey) : SessionState :=
  MkSession (ss_session_version s) (ss_local_identity s) (ss_remote_identity s) (ss_root_key s)
    (ss_previous_counter s) (ss_sender_chain s) (ss_receiver_chains s) pre_key kyber
    (ss_remote_registration_id s) (ss_local_registration_id s)
    (ss_alice_base_key s) (ss_pq_ratchet_state s).

Definition set_registration_ids (s : SessionState) (remote local : N) : SessionState :=
  MkSession (ss_session_version s) (ss_local_identity s) (ss_remote_identity s) (ss_root_key s)
    (ss_previous_counter s) (ss_sender_chain s) (ss_receiver_chains s) (ss_pending_pre_key s)
    (ss_pending_kyber_pre_key s) remote local (ss_alice_base_key s) (ss_pq_ratchet_state s).

(** [SessionState::new] *)
Definition session_state_new (version : N) (ours theirs : IdentityKey) (root : bytes)
    (alice_base_key : PublicKey) (pq : bytes) : SessionState :=
  MkSession version (identity_serialize ours) (identity_serialize theirs) root 0 None [] None None
    0 0 (public_serialize alice_base_key) pq.

Definition session_version (s : SessionState) : N :=
  if ss_session_version s =? 0 then 2 else ss_session_version s.

Definition invalid_session {E A} (r : result E A) (what : string) : outcome A :=
  match r with Ok a => Ok a | Err _ => Err (InvalidSessionStructure what) end.

Definition remote_identity_key (s : SessionState) : outcome (option IdentityKey) :=
  match ss_remote_identity s with
  | [] => Ok None
  | b => let? k <- invalid_session (identity_decode b) "invalid remote identity key" in Ok (Some k)
  end.

Definition local_identity_key (s : SessionState) : outcome IdentityKey :=
  invalid_session (identity_decode (ss_local_identity s)) "invalid local identity key".

Definition sender_ratchet_key (s : SessionState) : outcome PublicKey :=
  let? c <- ok_or (ss_sender_chain s) (InvalidSessionStructure "missing sender chain") in
  invalid_session (public_deserialize (pb_ratchet_key c)) "invalid sender chain ratchet key".

Definition sender_ratchet_private_key (s : SessionState) : outcome PrivateKey :=
  let? c <- ok_or (ss_sender_chain s) (InvalidSessionStructure "missing sender chain") in
  invalid_session (private_deserialize (pb_ratchet_key_private c))
    "invalid sender chain private ratchet key".

Definition get_sender_chain_key (s : SessionState) : outcome ChainKey :=
  let? c <- ok_or (ss_sender_chain s) (InvalidSessionStructure "missing sender chain") in
  let? k <- ok_or (pb_chain_key c) (InvalidSessionStructure "missing sender chain key") in
  let? key <- array_of 32 (pb_key k) "invalid sender chain key" in
  Ok (MkChainKey key (pb_chain_index k)).

Definition set_sender_chain_key (s : SessionState) (k : ChainKey) : SessionState :=
  set_sender_chain s (Some
    match ss_sender_chain s with
    | None => MkChain [] [] (Some (chain_key_to_pb k)) []
    | Some c => MkChain (pb_ratchet_key c) (pb_ratchet_key_private c) (Some (chain_key_to_pb k))
                  (pb_message_keys c)
    end).

Definition add_receiver_chain (s : SessionState) (sender : PublicKey) (k : ChainKey) : SessionState :=
  let chains := ss_receiver_chains s ++
                  [MkChain (public_serialize sender) [] (Some (chain_key_to_pb k)) []] in
  set_session_chains s (if (MAX_RECEIVER_CHAINS <? length chains)%nat then tail chains else chains).

Definition with_sender_chain (s : SessionState) (sender : KeyPair) (k : ChainKey) : SessionState :=
  set_sender_chain s (Some (sender_chain_to_pb (MkSenderChain sender k))).

(** [u32 as i32] and back *)
Definition as_i32 (n : N) : Z :=
  if n <? 2147483648 then Z.of_N n else (Z.of_N n - 4294967296)%Z.
Definition as_u32 (z : Z) : N := Z.to_N (z mod 4294967296)%Z.

Definition set_unacknowledged_pre_key_message (s : SessionState) (pre_key_id : option N)
    (signed_pre_key_id : N) (base_key : PublicKey) (now : N) : SessionState :=
  set_pending s (Some (MkPendingPreKey pre_key_id (as_i32 signed_pre_key_id)
                         (public_serialize base_key) (now `div` 1000)))
    (ss_pending_kyber_pre_key s).

Definition set_kyber_ciphertext (s : SessionState) (ct : bytes) : SessionState :=
  set_pending s (ss_pending_pre_key s) (Some (MkPendingKyber u32_max ct)).

(** The ciphertext has been set before. *)
Definition set_unacknowledged_kyber_pre_key_id (s : SessionState) (id : N) : SessionState :=
  set_pending s (ss_pending_pre_key s)
    ((λ k, MkPendingKyber id (pkk_ciphertext k)) <$> ss_pending_kyber_pre_key s).

Record UnacknowledgedItems := MkItems {
  it_pre_key_id : option N;
  it_signed_pre_key_id : N;
  it_base_key : PublicKey;
  it_kyber_pre_key_id : option N;
  it_kyber_ciphertext : option bytes;
  it_timestamp : N;
}.

Definition unacknowledged_pre_key_message_items (s : SessionState) :
    outcome (option UnacknowledgedItems) :=
  match ss_pending_pre_key s with
  | None => Ok None
  | Some p =>
      let? base_key <- invalid_session (public_deserialize (ppk_base_key p))
                         "invalid pending PreKey message base key" in
      Ok (Some (MkItems (ppk_pre_key_id p) (as_u32 (ppk_signed_pre_key_id p)) base_key
                  (pkk_pre_key_id <$> ss_pending_kyber_pre_key s)
                  (pkk_ciphertext <$> ss_pending_kyber_pre_key s) (1000 * ppk_timestamp p)))
  end.

Definition clear_unacknowledged_pre_key_message (s : SessionState) : SessionState :=
  set_pending s None None.

(** [RatchetState::from_pb], after the receiver chains have been moved out *)
Definition take_ratchet_state (s : SessionState) (self_session : bool) : outcome RatchetState :=
  let? root <- array_of 32 (ss_root_key s) "invalid root key" in
  let? sender <- match ss_sender_chain s with
                 | None => Ok None
                 | Some c => let? c <- sender_chain_from_pb c in Ok (Some c)
                 end in
  Ok (MkRatchetState root sender (ss_receiver_chains s) (ss_previous_counter s)
        (if self_session : bool then u64_max else MAX_FORWARD_JUMPS)).

(** [RatchetState::apply_to_pb] *)
Definition apply_ratchet_state (s : SessionState) (r : RatchetState) : SessionState :=
  MkSession (ss_session_version s) (ss_local_identity s) (ss_remote_identity s) (rs_root_key r)
    (rs_previous_counter r) (sender_chain_to_pb <$> rs_sender_chain r) (rs_receiver_chains r)
    (ss_pending_pre_key s) (ss_pending_kyber_pre_key s) (ss_remote_registration_id s)
    (ss_local_registration_id s) (ss_alice_base_key s) (ss_pq_ratchet_state s).

(** ** Session records *)

Record SessionRecord := MkRecord {
  current_session : option SessionState;
  previous_sessions : list bytes;
}.

Definition new_fresh : SessionRecord := MkRecord None [].

Definition archive_current_state_inner (r : SessionRecord) : SessionRecord :=
  match current_session r with
  | None => r
  | Some s =>
      let kept := if (ARCHIVED_STATES_MAX_LENGTH <=? length (previous_sessions r))%nat
                  then removelast (previous_sessions r) else previous_sessions r in
      MkRecord None (encode_session (clear_unacknowledged_pre_key_message s) :: kept)
  end.

Definition promote_state (r : SessionRecord) (s : SessionState) : SessionRecord :=
  MkRecord (Some s) (previous_sessions (archive_current_state_inner r)).

Definition promote_old_session (r : SessionRecord) (old : nat) (s : SessionState) : SessionRecord :=
  promote_state (MkRecord (current_session r) (delete old (previous_sessions r))) s.

(** What [previous_session_states] yields *)
Definition previous_session (b : bytes) : outcome SessionState :=
  ok_or (decode_session b) (InvalidSessionStructure "failed to decode previous session protobuf").

Definition matches_session (version : N) (base_key : bytes) (s : SessionState) : bool :=
  (session_version s =? version) && bool_decide (base_key = ss_alice_base_key s).

(** The index and the state of the first matching previous session *)
Fixpoint find_matching (i : nat) (version : N) (base_key : bytes) (l : list bytes) :
    outcome (option (nat * SessionState)) :=
  match l with
  | [] => Ok None
  | b :: l =>
      let? s <- previous_session b in
      if matches_session version base_key s then Ok (Some (i, s))
      else find_matching (S i) version base_key l
  end.

(** The record with the session promoted, when there is one *)
Definition promote_matching_session (r : SessionRecord) (version : N) (base_key : bytes) :
    outcome (option SessionRecord) :=
  if match current_session r with
     | Some s => matches_session version base_key s
     | None => false
     end
  then Ok (Some r)
  else
    let? found <- find_matching 0 version base_key (previous_sessions r) in
    Ok ((λ '(i, s), promote_old_session r i s) <$> found).

(** ** New sessions ([ratchet.rs]) *)

(** [max_jump] and [max_ooo_keys] of [spqr_chain_params] *)
Definition spqr_max_jump (self_session : bool) : N :=
  if self_session then u32_max else MAX_FORWARD_JUMPS.
Definition spqr_max_ooo_keys : N := N.of_nat MAX_MESSAGE_KEYS.

Definition initial_pq_state (key : bytes) (d : SpqrDirection) (self_session : bool) (name : string) :
    outcome bytes :=
  match spqr_initial_state key d (spqr_max_jump self_session) spqr_max_ooo_keys with
  | Ok s => Ok s
  | Err e => Err (InvalidArgument ("post-quantum ratchet: error creating initial " +:+ name
                                   +:+ " state: " +:+ spqr_display e))
  end.

Definition initialize_alice_session (p : InitiatorParameters) (g : Rng) :
    Rng * outcome SessionState :=
  let '(g, agreed) := pqxdh_initiate p g in
  match agreed with
  | Err e => (g, Err e)
  | Ok (ct, keys) =>
      let '(ratchet_key, g) := generate_pair g in
      (g, let? (root, chain) <- create_chain (root_key keys) (ip_their_ratchet_key p)
                                  (kp_private ratchet_key) in
          let? pq <- initial_pq_state (pqr_key keys) A2B (ip_self_session p) "A2B" in
          let s := session_state_new CIPHERTEXT_MESSAGE_CURRENT_VERSION
                     (ik_identity_key (ip_our_identity p)) (ip_their_identity p) root
                     (kp_public (ip_our_ephemeral p)) pq in
          let s := add_receiver_chain s (ip_their_ratchet_key p) (hk_chain_key keys) in
          Ok (set_kyber_ciphertext (with_sender_chain s ratchet_key chain) ct))
  end.

Definition initialize_bob_session (p : RecipientParameters) (our_ratchet_key : KeyPair) :
    outcome SessionState :=
  let? keys <- pqxdh_accept p in
  let? pq <- initial_pq_state (pqr_key keys) B2A (rp_self_session p) "B2A" in
  Ok (with_sender_chain
        (session_state_new CIPHERTEXT_MESSAGE_CURRENT_VERSION (ik_identity_key (rp_our_identity p))
           (rp_their_identity p) (root_key keys) (rp_their_ephemeral p) pq)
        our_ratchet_key (hk_chain_key keys)).

(** ** From a bundle or a first message ([session.rs]) *)

Abbreviation SessionStore := (gmap ProtocolAddress SessionRecord).

Definition process_prekey_bundle (remote local : ProtocolAddress) (sessions : SessionStore)
    (identities : IdentityStore) (b : PreKeyBundle) (now : N) (g : Rng) :
    (SessionStore * IdentityStore * Rng) * outcome unit :=
  let their_identity := b_identity_key b in
  if negb (is_trusted_identity identities remote their_identity)
  then ((sessions, identities, g), Err (UntrustedIdentity (address_display remote)))
  else if negb (verify_signature (identity_public_key their_identity)
                  (public_serialize (b_signed_pre_key_public b)) (b_signed_pre_key_signature b))
  then ((sessions, identities, g), Err SignatureValidationFailed)
  else if negb (verify_signature (identity_public_key their_identity)
                  (kem.serialize (b_kyber_pre_key_public b)) (b_kyber_pre_key_signature b))
  then ((sessions, identities, g), Err SignatureValidationFailed)
  else
    let record := default new_fresh (sessions !! remote) in
    let '(base_key, g) := generate_pair g in
    let ours := is_key_pair identities in
    let parameters := MkInitiator ours base_key their_identity (b_signed_pre_key_public b)
      (b_pre_key_public b) (b_signed_pre_key_public b) (b_kyber_pre_key_public b)
      (is_same_account (ik_identity_key ours) local their_identity remote) in
    let '(g, session) := initialize_alice_session parameters g in
    match session with
    | Err e => ((sessions, identities, g), Err e)
    | Ok s =>
        let s := set_unacknowledged_pre_key_message s (b_pre_key_id b) (b_signed_pre_key_id b)
                   (kp_public base_key) now in
        let s := set_unacknowledged_kyber_pre_key_id s (b_kyber_pre_key_id b) in
        let s := set_registration_ids s (b_registration_id b) (is_registration_id identities) in
        ((<[remote := promote_state record s]> sessions,
          save_identity identities remote their_identity, g), Ok tt)
    end.

Record PreKeysUsed := MkPreKeysUsed {
  one_time_ec_pre_key_id : option N;
  signed_ec_pre_key_id : N;
  used_kyber_pre_key_id : option N;
}.

Definition process_prekey_impl (m : PreKeySignalMessage) (remote local : ProtocolAddress)
    (record : SessionRecord) (signed_pre_keys : gmap N SignedPreKeyRecord) (kyber : KyberStore)
    (pre_keys : gmap N PreKeyRecord) (identities : IdentityStore) :
    outcome (SessionRecord * option PreKeysUsed) :=
  let? promoted <- promote_matching_session record (pm_version m)
                     (public_serialize (pm_base_key m)) in
  match promoted with
  | Some record => Ok (record, None)
  | None =>
      if pm_version m =? CIPHERTEXT_MESSAGE_PRE_KYBER_VERSION
      then Err (InvalidMessage "PreKey" "X3DH no longer supported")
      else
        let? signed <- get_signed_pre_key signed_pre_keys (pm_signed_pre_key_id m) in
        let? signed <- signed_pre_key_pair signed in
        let? id <- ok_or (fst <$> pm_kyber m) (InvalidMessage "PreKey" "missing pq pre-key ID") in
        let? kyber_record <- get_kyber_pre_key kyber id in
        let? kyber_pair <- kyber_pre_key_pair kyber_record in
        let? ct <- ok_or (snd <$> pm_kyber m) (InvalidMessage "PreKey" "missing pq ciphertext") in
        let? one_time <- match pm_pre_key_id m with
                         | Some id =>
                             let? r <- get_pre_key pre_keys id in
                             let? k <- pre_key_pair r in Ok (Some k)
                         | None => Ok None
                         end in
        let ours := is_key_pair identities in
        let parameters := MkRecipient ours signed one_time kyber_pair (pm_identity_key m)
          (pm_base_key m) ct
          (is_same_account (ik_identity_key ours) local (pm_identity_key m) remote) in
        let? s <- initialize_bob_session parameters signed in
        let s := set_registration_ids s (pm_registration_id m) (is_registration_id identities) in
        Ok (promote_state record s,
            Some (MkPreKeysUsed (pm_pre_key_id m) (pm_signed_pre_key_id m) (Some id)))
  end.

Definition process_prekey (m : PreKeySignalMessage) (remote local : ProtocolAddress)
    (record : SessionRecord) (identities : IdentityStore) (pre_keys : gmap N PreKeyRecord)
    (signed_pre_keys : gmap N SignedPreKeyRecord) (kyber : KyberStore) :
    outcome (SessionRecord * option PreKeysUsed) :=
  if is_trusted_identity identities remote (pm_identity_key m)
  then process_prekey_impl m remote local record signed_pre_keys kyber pre_keys identities
  else Err (UntrustedIdentity (address_display remote)).

(** ** The triple ratchet ([triple_ratchet.rs]) *)

Record OutgoingTripleRatchet := MkOutgoing {
  ot_ratchet_key : KeyPair;
  ot_chain_key : ChainKey;
  ot_previous_counter : N;
  ot_pqr_state : bytes;
  ot_version : N;
  ot_local_identity : IdentityKey;
  ot_remote_identity : IdentityKey;
}.

(** It takes the post-quantum state out of the session, which is put back by
    [outgoing_apply] or discarded. *)
Definition outgoing_from_session (s : SessionState) : outcome OutgoingTripleRatchet :=
  let? public_key <- sender_ratchet_key s in
  let? private_key <- sender_ratchet_private_key s in
  let? chain_key <- get_sender_chain_key s in
  let? version <- (if session_version s <=? 255 then Ok (session_version s)
                   else Err (InvalidSessionStructure "version does not fit in u8")) in
  let? local <- local_identity_key s in
  let? remote <- remote_identity_key s in
  let? remote <- ok_or remote (InvalidSessionStructure "missing remote identity key") in
  Ok (MkOutgoing (MkKeyPair public_key private_key) chain_key (ss_previous_counter s)
        (ss_pq_ratchet_state s) version local remote).

Definition outgoing_apply (t : OutgoingTripleRatchet) (s : SessionState) : SessionState :=
  set_pq_ratchet_state (set_sender_chain_key s (ot_chain_key t)) (ot_pqr_state t).

Definition triple_encrypt (t : OutgoingTripleRatchet) (plaintext : bytes)
    (local : option ProtocolAddress) (remote : ProtocolAddress) (g : Rng) :
    Rng * outcome (OutgoingTripleRatchet * SignalMessage) :=
  let '(g, sent) := spqr_send (ot_pqr_state t) g in
  (g, match sent with
      | Err e => Err (InvalidState "encrypt"
                        ("post-quantum ratchet send error: " +:+ spqr_display e))
      | Ok (pqr_state, pqr_key, pqr_msg) =>
          let? keys <- generate_keys (message_keys (ot_chain_key t)) pqr_key in
          let? ctext <- ok_or (aes_256_cbc_encrypt plaintext (mks_cipher_key keys) (mks_iv keys))
                          (InvalidSessionStructure "invalid sender chain message keys") in
          let? m <- signal_message_new (ot_version t) (mks_mac_key keys)
                      ((λ l, (l, remote)) <$> local) (kp_public (ot_ratchet_key t))
                      (ck_index (ot_chain_key t)) (ot_previous_counter t) ctext
                      (ot_local_identity t) (ot_remote_identity t) pqr_msg in
          Ok (MkOutgoing (ot_ratchet_key t) (next_chain_key (ot_chain_key t))
                (ot_previous_counter t) pqr_state (ot_version t) (ot_local_identity t)
                (ot_remote_identity t), m)
      end).

(** [TripleRatchet::decrypt]: the new ratchet and post-quantum states and the text.  What
    a failure leaves behind is discarded. *)
Definition triple_decrypt (r : RatchetState) (pqr : bytes) (local_identity remote_identity : IdentityKey)
    (sender recipient : ProtocolAddress) (m : SignalMessage) (t : CiphertextMessageType) (g : Rng) :
    Rng * outcome (RatchetState * bytes * bytes) :=
  let their_ephemeral := sm_ratchet_key m in
  let '((r, g), chain_key) := ensure_receiver_chain r their_ephemeral g in
  (g, let? chain_key <- chain_key in
      let '(r, generator) :=
        consume_message_key r their_ephemeral chain_key (sm_counter m) (type_name t) in
      let? generator <- generator in
      let? (pqr, pqr_key) <-
        match spqr_recv pqr (sm_pq_ratchet m) with
        | Ok received => Ok received
        | Err e =>
            Err (if is_state_decode e
                 then InvalidState "decrypt" ("post-quantum ratchet error: " +:+ spqr_display e)
                 else InvalidMessage (type_name t) "post-quantum ratchet error")
        end in
      let? keys <- generate_keys generator pqr_key in
      let? mac_valid <- verify_mac_with_addresses m sender recipient remote_identity local_identity
                          (mks_mac_key keys) in
      if negb mac_valid then Err (InvalidMessage (type_name t) "MAC verification failed")
      else match aes_256_cbc_decrypt (sm_ciphertext m) (mks_cipher_key keys) (mks_iv keys) with
           | Ok ptext => Ok (r, pqr, ptext)
           | Err BadKeyOrIv =>
               Err (InvalidSessionStructure "invalid receiver chain message keys")
           | Err BadCiphertext => Err (InvalidMessage (type_name t) "failed to decrypt")
           end).

(** ** Choosing a session ([session_management.rs]) *)

Definition try_decrypt_with_state (s : SessionState) (remote local : ProtocolAddress)
    (m : SignalMessage) (t : CiphertextMessageType) (g : Rng) :
    Rng * outcome (SessionState * bytes) :=
  let self_session :=
    match (let? ours <- local_identity_key s in
           let? theirs <- remote_identity_key s in
           let? theirs <- ok_or theirs (InvalidSessionStructure "missing remote identity key") in
           Ok (is_same_account ours local theirs remote)) with
    | Ok b => b
    | Err _ => false
    end in
  let taken :=
    let? r <- take_ratchet_state s self_session in
    let? ours <- local_identity_key s in
    let? theirs <- remote_identity_key s in
    let? theirs <- ok_or theirs (InvalidSessionStructure "missing remote identity key") in
    Ok (r, ours, theirs) in
  match taken with
  | Err e => (g, Err e)
  | Ok (r, ours, theirs) =>
      let '(g, opened) :=
        triple_decrypt r (ss_pq_ratchet_state s) ours theirs remote local m t g in
      (g, let? (r, pqr, ptext) <- opened in
          Ok (clear_unacknowledged_pre_key_message
                (set_pq_ratchet_state (apply_ratchet_state s r) pqr), ptext))
  end.

Definition decryption_failed (t : CiphertextMessageType) : SignalProtocolError :=
  InvalidMessage (type_name t) "decryption failed".

(** The loop over the previous sessions: the text, the index and the updated state *)
Fixpoint try_previous (i : nat) (l : list bytes) (remote local : ProtocolAddress) (m : SignalMessage)
    (t : CiphertextMessageType) (g : Rng) : Rng * outcome (nat * SessionState * bytes) :=
  match l with
  | [] => (g, Err (decryption_failed t))
  | b :: l =>
      match previous_session b with
      | Err _ => try_previous (S i) l remote local m t g
      | Ok s =>
          if negb (session_version s =? sm_version m) then try_previous (S i) l remote local m t g
          else
            let '(g, tried) := try_decrypt_with_state s remote local m t g in
            match tried with
            | Ok (s, ptext) => (g, Ok (i, s, ptext))
            | Err (DuplicatedMessage _ _ as e) => (g, Err e)
            | Err _ => try_previous (S i) l remote local m t g
            end
      end
  end.

Definition try_decrypt_from_record (r : SessionRecord) (remote local : ProtocolAddress)
    (m : SignalMessage) (t : CiphertextMessageType) (g : Rng) : Rng * outcome (SessionRecord * bytes) :=
  let previous g :=
    let '(g, tried) := try_previous 0 (previous_sessions r) remote local m t g in
    (g, let? (i, s, ptext) <- tried in Ok (promote_old_session r i s, ptext)) in
  match current_session r with
  | None => previous g
  | Some s =>
      if negb (session_version s =? sm_version m) then previous g
      else
        let '(g, tried) := try_decrypt_with_state s remote local m t g in
        match tried with
        | Ok (s, ptext) => (g, Ok (MkRecord (Some s) (previous_sessions r), ptext))
        | Err (DuplicatedMessage _ _ as e) => (g, Err e)
        | Err _ => match t with PreKey => (g, Err (decryption_failed t)) | Whisper => previous g end
        end
  end.

Definition message_decrypt_signal (m : SignalMessage) (remote local : ProtocolAddress)
    (sessions : SessionStore) (identities : IdentityStore) (g : Rng) :
    (SessionStore * IdentityStore * Rng) * outcome bytes :=
  match sessions !! remote with
  | None => ((sessions, identities, g), Err (SessionNotFound (address_display remote)))
  | Some record =>
      let '(g, tried) := try_decrypt_from_record record remote local m Whisper g in
      let checked :=
        let? (record, ptext) <- tried in
        let theirs := let! s <- current_session record in
                      match remote_identity_key s with Ok k => k | Err _ => None end in
        let? theirs <- ok_or theirs
                         (Panicked "successfully decrypted; must have a remote identity key") in
        if is_trusted_identity identities remote theirs then Ok (record, ptext, theirs)
        else Err (UntrustedIdentity (address_display remote)) in
      match checked with
      | Err e => ((sessions, identities, g), Err e)
      | Ok (record, ptext, theirs) =>
          ((<[remote := record]> sessions, save_identity identities remote theirs, g), Ok ptext)
      end
  end.

(** What [message_decrypt_prekey] changes, in order: the identity is saved, the prekeys
    are used up, the session is stored. *)
Definition message_decrypt_prekey (m : PreKeySignalMessage) (remote local : ProtocolAddress)
    (sessions : SessionStore) (identities : IdentityStore) (pre_keys : gmap N PreKeyRecord)
    (signed_pre_keys : gmap N SignedPreKeyRecord) (kyber : KyberStore) (g : Rng) :
    (SessionStore * IdentityStore * gmap N PreKeyRecord * KyberStore * Rng) * outcome bytes :=
  let record := default new_fresh (sessions !! remote) in
  match process_prekey m remote local record identities pre_keys signed_pre_keys kyber with
  | Err e => ((sessions, identities, pre_keys, kyber, g), Err e)
  | Ok (record, used) =>
      let '(g, tried) := try_decrypt_from_record record remote local (pm_message m) PreKey g in
      match tried with
      | Err e => ((sessions, identities, pre_keys, kyber, g), Err e)
      | Ok (record, ptext) =>
          let identities := save_identity identities remote (pm_identity_key m) in
          let marked :=
            match used with
            | Some (MkPreKeysUsed _ signed_id (Some kyber_id)) =>
                mark_kyber_pre_key_used kyber kyber_id signed_id (pm_base_key m)
            | _ => Ok kyber
            end in
          match marked with
          | Err e => ((sessions, identities, pre_keys, kyber, g), Err e)
          | Ok kyber =>
              let pre_keys :=
                match used with
                | Some (MkPreKeysUsed (Some id) _ _) => remove_pre_key pre_keys id
                | _ => pre_keys
                end in
              ((<[remote := record]> sessions, identities, pre_keys, kyber, g), Ok ptext)
          end
      end
  end.

Definition message_decrypt (c : SignalMessage + PreKeySignalMessage) (remote local : ProtocolAddress)
    (sessions : SessionStore) (identities : IdentityStore) (pre_keys : gmap N PreKeyRecord)
    (signed_pre_keys : gmap N SignedPreKeyRecord) (kyber : KyberStore) (g : Rng) :
    (SessionStore * IdentityStore * gmap N PreKeyRecord * KyberStore * Rng) * outcome bytes :=
  match c with
  | inl m =>
      let '((sessions, identities, g), r) :=
        message_decrypt_signal m remote local sessions identities g in
      ((sessions, identities, pre_keys, kyber, g), r)
  | inr m =>
      message_decrypt_prekey m remote local sessions identities pre_keys signed_pre_keys kyber g
  end.

Definition message_encrypt (ptext : bytes) (remote local : ProtocolAddress)
    (sessions : SessionStore) (identities : IdentityStore) (now : N) (g : Rng) :
    (SessionStore * IdentityStore * Rng) * outcome (SignalMessage + PreKeySignalMessage) :=
  let not_found := SessionNotFound (address_display remote) in
  let prepared :=
    let? record <- ok_or (sessions !! remote) not_found in
    let? s <- ok_or (current_session record) not_found in
    let? t <- outgoing_from_session s in
    let? items <- unacknowledged_pre_key_message_items s in
    match items with
    | Some items =>
        if it_timestamp items + MAX_UNACKNOWLEDGED_SESSION_AGE <? now then Err not_found
        else Ok (record, s, t, Some items)
    | None => Ok (record, s, t, None)
    end in
  match prepared with
  | Err e => ((sessions, identities, g), Err e)
  | Ok (record, s, t, items) =>
      let '(g, sealed) := triple_encrypt t ptext ((λ _, local) <$> items) remote g in
      match sealed with
      | Err e => ((sessions, identities, g), Err e)
      | Ok (t', m) =>
          let message :=
            match items with
            | Some items =>
                let kyber := let! id <- it_kyber_pre_key_id items in
                             let! ct <- it_kyber_ciphertext items in Some (id, ct) in
                inr (prekey_message_new (ot_version t) (ss_local_registration_id s)
                       (it_pre_key_id items) (it_signed_pre_key_id items) kyber (it_base_key items)
                       (ot_local_identity t) m)
            | None => inl m
            end in
          let theirs := ot_remote_identity t in
          if negb (is_trusted_identity identities remote theirs)
          then ((sessions, identities, g), Err (UntrustedIdentity (address_display remote)))
          else ((<[remote := MkRecord (Some (outgoing_apply t' s)) (previous_sessions record)]> sessions,
                 save_identity identities remote theirs, g), Ok message)
      end
  end.
End sessions.

Abbreviation SessionStore := (gmap ProtocolAddress SessionRecord).
