(* ===== verification/RatchetSchedule.v ===== *)
(** * The key schedule the two ends of a session share

    The ratchet keys of a conversation form one sequence: the responder's signed prekey,
    the initiator's first ratchet key, the responder's next, and so on, one for each turn.
    Every turn has a root key and a chain, from the agreement of its ratchet key with the
    previous one.  An end that is in turn [e] sends on the chain of turn [e] and has
    windows ([GroupCipher]) of chains of the other end's turns; both ends follow the same
    schedule, so that the message keys agree. *)

From S2P Require Import Prelude SenderKeyState GroupCipher PreKeys Ratchet.
From stdpp Require Import options.

Local Open Scope N_scope.

(** ** One chain *)

Section chains.
Context {crypto : SignalCrypto} {agreement : AgreementPrimitives}.

(** The chain from [key] on after [n] messages, and the key of message [n] *)
Definition link_at (key : bytes) (n : nat) : ChainKey := MkChainKey (seed_at key n) (N.of_nat n).
Definition seed_of (key : bytes) (n : nat) : bytes := hmac_sha256 (seed_at key n) [MESSAGE_KEY_SEED].
Definition kept_at (key : bytes) (n : nat) : MessageKeyPb :=
  MkMessageKeyPb (N.of_nat n) [] [] [] (seed_of key n).

Lemma next_link key n : N.of_nat (S n) <= u32_max →
  next_chain_key (link_at key n) = link_at key (S n).
Proof.
  intros H. unfold next_chain_key, link_at. cbn [ck_key ck_index]. f_equal.
  rewrite wrap32_small by lia. lia.
Qed.

Lemma message_keys_at key n : message_keys (link_at key n) = Seed (seed_of key n) (N.of_nat n).
Proof. done. Qed.

(** A receiver chain whose keys are those of a window *)
Definition windowed (their : PublicKey) (key : bytes) (w : Window) : Chain :=
  MkChain (public_serialize their) [] (Some (chain_key_to_pb (link_at key (reached w))))
    (reverse (kept_at key <$> skipped w)).

(** A window with no more than the keys a chain keeps *)
Record window_sound (w : Window) : Prop := {
  sound_window : window_ok w;
  sound_trim : trim (skipped w) = skipped w;
}.

Lemma open_window_sound w n : window_sound w → window_sound (open_window w n).1.
Proof.
  intros [Hw Ht]. split; [by apply open_window_ok|]. unfold open_window.
  repeat case_decide; cbn; try done; [|apply trim_idemp]. apply trim_short.
  pose proof (trim_length (skipped w)). rewrite Ht in *.
  etrans; [apply length_filter|done].
Qed.

Lemma take_index_kept key n l :
  NoDup l →
  take_index (N.of_nat n) (kept_at key <$> l)
  = if decide (n ∈ l) then Some (kept_at key n, kept_at key <$> filter (λ i, i ≠ n) l) else None.
Proof.
  induction l as [|i l IH]; intros Hl; [done|]. apply NoDup_cons in Hl as [Hi Hl].
  cbn [fmap list_fmap take_index]. change (pb_index (kept_at key i)) with (N.of_nat i).
  rewrite filter_cons. destruct (decide (i = n)) as [->|Hne].
  - rewrite N.eqb_refl, decide_True by set_solver. rewrite (decide_False (P := n ≠ n)) by auto.
    do 2 f_equal. symmetry. f_equal. apply filter_all_true. apply Forall_forall.
    intros x Hx ->. done.
  - rewrite (proj2 (N.eqb_neq _ _)) by lia. rewrite IH by done.
    rewrite (decide_True (P := i ≠ n)) by done.
    destruct (decide (n ∈ l)); [rewrite decide_True by set_solver|rewrite decide_False by set_solver];
      done.
Qed.

Lemma filter_reverse {A} (P : A → Prop) `{∀ x, Decision (P x)} (l : list A) :
  filter P (reverse l) = reverse (filter P l).
Proof.
  induction l as [|x l IH]; [done|]. rewrite reverse_cons, filter_app, IH.
  destruct (decide (P x)) as [Hx|Hx].
  - rewrite (filter_cons_True P x []), (filter_cons_True P x l) by done. by rewrite reverse_cons.
  - rewrite (filter_cons_False P x []), (filter_cons_False P x l) by done. by rewrite app_nil_r.
Qed.

(** Pushing a key to the front and popping the last one is the window's trim. *)
Lemma push_kept key l n :
  trim l = l →
  let keys := kept_at key n :: reverse (kept_at key <$> l) in
  (if (MAX_MESSAGE_KEYS <? length keys)%nat then removelast keys else keys)
  = reverse (kept_at key <$> trim (l ++ [n])).
Proof.
  intros Ht keys. pose proof (trim_length l) as Hl. rewrite Ht in Hl.
  assert (Hk : keys = reverse (kept_at key <$> (l ++ [n]))).
  { unfold keys. by rewrite fmap_app, reverse_app. }
  assert (Hlen : length keys = S (length l)).
  { unfold keys. cbn [length]. by rewrite length_reverse, length_fmap. }
  rewrite Hlen. destruct (Nat.ltb_spec MAX_MESSAGE_KEYS (S (length l))).
  - destruct l as [|x l]; [cbn in *; unfold MAX_MESSAGE_KEYS in *; lia|].
    rewrite Hk. cbn [app]. rewrite fmap_cons, reverse_cons, removelast_last.
    unfold trim. cbn [length] in *. rewrite length_app. cbn [length].
    by replace (S (length l + 1) - MAX_MESSAGE_KEYS)%nat with 1%nat by lia.
  - rewrite Hk. f_equal. f_equal. symmetry. apply trim_short. rewrite length_app. cbn. lia.
Qed.
(** ** The receiver chains of a state *)

Implicit Types (s : RatchetState) (their : PublicKey).

Lemma find_alter s their f :
  (∀ c, pb_ratchet_key (f c) = pb_ratchet_key c) →
  find_receiver_chain_index (alter_receiver_chain s their f) their
  = find_receiver_chain_index s their.
Proof.
  intros Hf. unfold alter_receiver_chain.
  destruct (find_receiver_chain_index s their) as [i|] eqn:E; [|done]. rewrite <-E. clear E.
  unfold find_receiver_chain_index. cbn [rs_receiver_chains set_receiver_chains].
  generalize (rs_receiver_chains s) as l. intros l. revert i.
  assert (Hr : ∀ c, receives_with their (f c) = receives_with their c)
    by (intros c; unfold receives_with; by rewrite Hf).
  induction l as [|c l IH]; intros i; [done|]. destruct i as [|i]; cbn [alter list_alter list_find].
  - rewrite Hr. by destruct (decide (Is_true (receives_with their c))).
  - destruct (decide (Is_true (receives_with their c))); [done|].
    specialize (IH i). by destruct (list_find _ (alter f i l)) as [[]|], (list_find _ l) as [[]|];
      simplify_eq/=.
Qed.

Lemma alter_twice s their f g :
  (∀ c, pb_ratchet_key (f c) = pb_ratchet_key c) →
  alter_receiver_chain (alter_receiver_chain s their f) their g
  = alter_receiver_chain s their (g ∘ f).
Proof.
  intros Hf. unfold alter_receiver_chain at 1. rewrite find_alter by done.
  unfold alter_receiver_chain. destruct (find_receiver_chain_index s their) as [i|]; [|done].
  unfold set_receiver_chains. cbn. f_equal. by rewrite list_alter_alter_eq.
Qed.

(** What [skip_ahead] does to the keys of the chain *)
Fixpoint pushed (key : bytes) (r n : nat) (keys : list MessageKeyPb) : list MessageKeyPb :=
  match n with
  | O => keys
  | S n =>
      let keys := kept_at key r :: keys in
      pushed key (S r) n (if (MAX_MESSAGE_KEYS <? length keys)%nat then removelast keys else keys)
  end.

Lemma pushed_window key n : ∀ r l, trim l = l →
  pushed key r n (reverse (kept_at key <$> l)) = reverse (kept_at key <$> trim (l ++ seq r n)).
Proof.
  induction n as [|n IH]; intros r l Hl; cbn [pushed seq]; [by rewrite app_nil_r, Hl|].
  rewrite push_kept by done. rewrite IH by apply trim_idemp.
  change (r :: seq (S r) n) with ([r] ++ seq (S r) n). rewrite app_assoc. by rewrite trim_app.
Qed.

Lemma skip_ahead_spec their key n : ∀ s r,
  N.of_nat (r + n) <= u32_max →
  skip_ahead n s their (link_at key r)
  = (alter_receiver_chain s their
       (λ c, set_message_keys c (pushed key r n (pb_message_keys c))), link_at key (r + n)).
Proof.
  induction n as [|n IH]; intros s r Hn; cbn [skip_ahead].
  - rewrite Nat.add_0_r. f_equal. unfold alter_receiver_chain.
    destruct (find_receiver_chain_index s their) as [i|]; [|done].
    cbn [pushed]. destruct s as [root sender chains prev jumps]. unfold set_receiver_chains. cbn. f_equal.
    symmetry. apply list_alter_id. by intros [].
  - rewrite next_link by lia. unfold store_skipped_key. rewrite IH by lia. f_equal; [|f_equal; lia].
    rewrite alter_twice by done. reflexivity.
Qed.

(** The peer's chains an end has windows of *)
Record PeerChain := MkPeer { pc_key : PublicKey; pc_seed : bytes; pc_window : Window }.
Definition peer_chain (c : PeerChain) : Chain := windowed (pc_key c) (pc_seed c) (pc_window c).
Definition set_window (c : PeerChain) (w : Window) : PeerChain := MkPeer (pc_key c) (pc_seed c) w.

Definition has_chains s (l : list PeerChain) : Prop := rs_receiver_chains s = peer_chain <$> l.

Record peers_ok (l : list PeerChain) : Prop := {
  peers_keys : Forall (λ c, length (public_key_bytes (pc_key c)) = 32%nat) l;
  peers_seeds : Forall (λ c, length (pc_seed c) = 32%nat) l;
  peers_distinct : NoDup (pc_key <$> l);
  peers_sound : Forall (λ c, window_sound (pc_window c)) l;
}.

Lemma list_find_cons_fst {A} (P : A → Prop) `{∀ x, Decision (P x)} x l :
  fst <$> list_find P (x :: l)
  = if decide (P x) then Some 0%nat else S <$> (fst <$> list_find P l).
Proof. cbn. destruct (decide (P x)); [done|]. by destruct (list_find P l) as [[]|]. Qed.

Lemma receives_peer their c : length (public_key_bytes (pc_key c)) = 32%nat →
  receives_with their (peer_chain c) = bool_decide (pc_key c = their).
Proof.
  intros Hc. unfold receives_with, peer_chain, windowed. cbn [pb_ratchet_key].
  by rewrite public_roundtrip.
Qed.

Lemma find_peer s l i c : has_chains s l → peers_ok l → l !! i = Some c →
  find_receiver_chain_index s (pc_key c) = Some i.
Proof.
  intros Hs [Hk _ Hd _] Hi. unfold find_receiver_chain_index. rewrite Hs. clear Hs. revert i Hi.
  induction l as [|c0 l IH]; intros i Hi; [done|].
  apply Forall_cons in Hk as [Hk0 Hk]. apply NoDup_cons in Hd as [Hd0 Hd].
  rewrite fmap_cons, list_find_cons_fst. rewrite receives_peer by done.
  destruct i as [|i]; cbn in Hi.
  - injection Hi as ->. by rewrite bool_decide_eq_true_2.
  - rewrite bool_decide_eq_false_2.
    2:{ intros E. apply Hd0. rewrite E. apply list_elem_of_fmap. exists c. split; [done|].
        by eapply list_elem_of_lookup_2. }
    cbn [decide]. by rewrite (IH Hk Hd i Hi).
Qed.

Lemma find_no_peer s l their : has_chains s l → peers_ok l → their ∉ pc_key <$> l →
  find_receiver_chain_index s their = None.
Proof.
  intros Hs [Hk _ _ _] Hn. unfold find_receiver_chain_index. rewrite Hs. clear Hs.
  induction l as [|c l IH]; [done|]. apply Forall_cons in Hk as [Hk0 Hk].
  apply not_elem_of_cons in Hn as [Hn0 Hn].
  rewrite fmap_cons, list_find_cons_fst, receives_peer by done.
  rewrite bool_decide_eq_false_2 by done. cbn [decide]. by rewrite (IH Hk Hn).
Qed.

Lemma alter_peer s l i c c' f :
  has_chains s l → peers_ok l → l !! i = Some c → f (peer_chain c) = peer_chain c' →
  has_chains (alter_receiver_chain s (pc_key c) f) (<[i := c']> l).
Proof.
  intros Hs Hl Hi Hf. unfold alter_receiver_chain. rewrite (find_peer _ _ _ _ Hs Hl Hi).
  unfold has_chains. cbn. rewrite Hs, list_fmap_insert. rewrite <-Hf.
  apply list_eq. intros j. destruct (decide (i = j)) as [<-|Hne].
  - rewrite list_lookup_alter_eq, list_lookup_fmap, Hi. cbn.
    rewrite list_lookup_insert_eq; [done|]. rewrite length_fmap. by eapply lookup_lt_Some.
  - by rewrite list_lookup_alter_ne, list_lookup_insert_ne.
Qed.

Lemma peers_ok_insert l i c w : peers_ok l → l !! i = Some c → window_sound w →
  peers_ok (<[i := set_window c w]> l).
Proof.
  intros [Hk Hse Hd Hs] Hi Hw. split.
  - apply Forall_insert; [done|]. exact (Forall_lookup_1 _ _ _ _ Hk Hi).
  - apply Forall_insert; [done|]. exact (Forall_lookup_1 _ _ _ _ Hse Hi).
  - rewrite list_fmap_insert. replace (<[i := _]> (pc_key <$> l)) with (pc_key <$> l); [done|].
    symmetry. apply list_insert_id. by rewrite list_lookup_fmap, Hi.
  - by apply Forall_insert.
Qed.
(** Everything but the receiver chains *)
Record same_sending s s' : Prop := {
  same_root : rs_root_key s' = rs_root_key s;
  same_sender : rs_sender_chain s' = rs_sender_chain s;
  same_previous : rs_previous_counter s' = rs_previous_counter s;
  same_jumps : rs_max_forward_jumps s' = rs_max_forward_jumps s;
}.

Lemma alter_same_sending s their f : same_sending s (alter_receiver_chain s their f).
Proof. unfold alter_receiver_chain. by destruct (find_receiver_chain_index s their). Qed.

Lemma from_kept key n : length (seed_of key n) = 32%nat →
  from_pb (kept_at key n) = Ok (message_keys (link_at key n)).
Proof.
  intros H. rewrite message_keys_at. unfold from_pb, kept_at. cbn [pb_seed pb_index].
  by destruct (seed_of key n).
Qed.

Context {laws : SignalLaws}.

Lemma seed_of_length key n : length (seed_of key n) = 32%nat.
Proof using laws. apply hmac_length. Qed.

(** Taking the key of message [n] of a chain moves its window. *)
Lemma consume_window s l i c n t :
  has_chains s l → peers_ok l → l !! i = Some c → N.of_nat (S n) <= u32_max →
  MAX_FORWARD_JUMPS <= rs_max_forward_jumps s →
  let consumed := consume_message_key s (pc_key c) (link_at (pc_seed c) (reached (pc_window c)))
                    (N.of_nat n) t in
  match open_window (pc_window c) n with
  | (w', Opened) => ∃ s', consumed = (s', Ok (message_keys (link_at (pc_seed c) n)))
      ∧ has_chains s' (<[i := set_window c w']> l) ∧ same_sending s s'
  | (_, AlreadyOpened) => ∃ current,
      consumed = (s, Err (DuplicatedMessage current (N.of_nat n)))
  | (_, TooFar) => True
  end.
Proof using laws.
  intros Hs Hl Hi Hn Hj. cbv zeta. destruct c as [their key w]. cbn [pc_key pc_seed pc_window] in *.
  pose proof (Forall_lookup_1 _ _ _ _ (peers_sound _ Hl) Hi) as [[Hnd Hlt] Ht].
  cbn [pc_window] in Hnd, Hlt, Ht.
  pose proof (find_peer _ _ _ _ Hs Hl Hi) as Hf. cbn [pc_key] in Hf.
  unfold open_window, consume_message_key.
  change (ck_index (link_at key (reached w))) with (N.of_nat (reached w)).
  destruct (decide (n < reached w)%nat) as [Hlow|Hhigh].
  - rewrite (proj2 (N.ltb_lt _ _)) by lia. unfold take_skipped_key, receiver_chain.
    rewrite Hf. cbn [ok_or].
    assert (Hc : rs_receiver_chains s !! i = Some (peer_chain (MkPeer their key w))).
    { by rewrite Hs, list_lookup_fmap, Hi. }
    change (Some i ≫= λ i, rs_receiver_chains s !! i) with (rs_receiver_chains s !! i).
    rewrite Hc. change (Some ?x ≫= ?f) with (f x).
    change (pb_message_keys (peer_chain (MkPeer their key w)))
      with (reverse (kept_at key <$> skipped w)).
    rewrite <-fmap_reverse, take_index_kept by (by rewrite reverse_Permutation).
    destruct (decide (n ∈ skipped w)) as [Hin|Hin].
    + rewrite decide_True by (by rewrite reverse_Permutation). eexists. split; [|split].
      * rewrite from_kept by apply seed_of_length. reflexivity.
      * apply (alter_peer s l i _ _ _ Hs Hl Hi). unfold peer_chain, windowed, set_message_keys. cbn.
        by rewrite filter_reverse, fmap_reverse.
      * apply alter_same_sending.
    + rewrite decide_False by (by rewrite reverse_Permutation). by eexists.
  - destruct (decide (MAX_FORWARD_JUMPS < N.of_nat (n - reached w))) as [|Hnear]; [done|].
    rewrite (proj2 (N.ltb_ge _ _)) by lia.
    replace (N.of_nat n - N.of_nat (reached w)) with (N.of_nat (n - reached w)) by lia.
    rewrite (proj2 (N.ltb_ge _ _)) by lia. rewrite Nat2N.id, skip_ahead_spec by lia.
    replace (reached w + (n - reached w))%nat with n by lia. rewrite next_link by done.
    eexists. split; [reflexivity|]. split.
    + unfold set_receiver_chain_key. rewrite alter_twice by done.
      apply (alter_peer s l i _ _ _ Hs Hl Hi). unfold peer_chain, windowed. cbn.
      by rewrite pushed_window.
    + unfold set_receiver_chain_key. rewrite alter_twice by done. apply alter_same_sending.
Qed.
End chains.

(** ** The schedule *)

Section schedule.
Context {crypto : SignalCrypto} {agreement : AgreementPrimitives}.

(** The ratchet key of each turn, and the keys the handshake gives to turn 0 *)
Record Schedule := MkSchedule {
  first_root : bytes;
  first_chain : bytes;
  turn_key : nat → KeyPair;
}.

Definition turn_public (sc : Schedule) (j : nat) : PublicKey := kp_public (turn_key sc j).

(** What [create_chain] derives from a root key and two ratchet keys *)
Definition mixed (root : bytes) (theirs ours : KeyPair) : bytes :=
  hkdf (Some root)
    (curve_agree (private_key_bytes (kp_private ours)) (public_key_bytes (kp_public theirs)))
    (String.list_byte_of_string "WhisperRatchet") 64.

Fixpoint root_of (sc : Schedule) (j : nat) : bytes :=
  match j with
  | O => first_root sc
  | S i => take 32 (mixed (root_of sc i) (turn_key sc i) (turn_key sc (S i)))
  end.

Definition chain_of (sc : Schedule) (j : nat) : bytes :=
  match j with
  | O => first_chain sc
  | S i => drop 32 (mixed (root_of sc i) (turn_key sc i) (turn_key sc (S i)))
  end.

Record schedule_ok (sc : Schedule) (last : nat) : Prop := {
  schedule_root : length (first_root sc) = 32%nat;
  schedule_chain : length (first_chain sc) = 32%nat;
  schedule_keys j : (j <= last)%nat → sound_pair (turn_key sc j);
}.

(** The key of one more turn *)
Definition extend (sc : Schedule) (j : nat) (kp : KeyPair) : Schedule :=
  MkSchedule (first_root sc) (first_chain sc) (λ i, if decide (i = j) then kp else turn_key sc i).

Lemma extend_other sc j kp i : i ≠ j → turn_key (extend sc j kp) i = turn_key sc i.
Proof. intros H. unfold extend. cbn. by rewrite decide_False. Qed.

Lemma extend_same sc j kp : turn_key (extend sc j kp) j = kp.
Proof. unfold extend. cbn. by rewrite decide_True. Qed.

Lemma root_of_extend sc j kp i : (i < j)%nat → root_of (extend sc j kp) i = root_of sc i.
Proof.
  induction i as [|i IH]; intros H; [done|]. cbn [root_of]. rewrite IH by lia.
  by rewrite !extend_other by lia.
Qed.

Lemma chain_of_extend sc j kp i : (i < j)%nat → chain_of (extend sc j kp) i = chain_of sc i.
Proof.
  destruct i as [|i]; intros H; [done|]. cbn [chain_of]. rewrite root_of_extend by lia.
  by rewrite !extend_other by lia.
Qed.

Lemma schedule_extend sc last kp : schedule_ok sc last → sound_pair kp →
  schedule_ok (extend sc (S last) kp) (S last).
Proof.
  intros [H1 H2 H3] Hkp. split; [done..|]. intros j Hj. destruct (decide (j = S last)) as [->|].
  - by rewrite extend_same.
  - rewrite extend_other by done. apply H3. lia.
Qed.

Context {laws : SignalLaws} {agree : AgreementLaws}.

Lemma mixed_length root theirs ours : length (mixed root theirs ours) = 64%nat.
Proof using agree. apply hkdf_salted_length. Qed.

Lemma root_length sc last j : schedule_ok sc last → length (root_of sc j) = 32%nat.
Proof using agree.
  intros H. destruct j; [apply (schedule_root _ _ H)|]. cbn [root_of].
  by rewrite length_take, mixed_length.
Qed.

Lemma chain_length sc last j : schedule_ok sc last → length (chain_of sc j) = 32%nat.
Proof using agree.
  intros H. destruct j; [apply (schedule_chain _ _ H)|]. cbn [chain_of].
  by rewrite length_drop, mixed_length.
Qed.

Lemma agreement_ok kp kp' : sound_pair kp → sound_pair kp' →
  calculate_agreement (kp_private kp) (kp_public kp')
  = Ok (curve_agree (private_key_bytes (kp_private kp)) (public_key_bytes (kp_public kp'))).
Proof using agree.
  intros (_ & _ & Hc & _) (_ & _ & Hc' & Hd'). unfold calculate_agreement.
  rewrite decide_False; [done|]. rewrite Hd'. by apply agree_nonzero.
Qed.

Lemma agreement_comm kp kp' : sound_pair kp → sound_pair kp' →
  curve_agree (private_key_bytes (kp_private kp)) (public_key_bytes (kp_public kp'))
  = curve_agree (private_key_bytes (kp_private kp')) (public_key_bytes (kp_public kp)).
Proof using agree.
  intros (_ & _ & Hc & Hd) (_ & _ & Hc' & Hd'). rewrite Hd, Hd'. by apply agree_comm.
Qed.

Lemma create_own sc last j : schedule_ok sc last → (S j <= last)%nat →
  create_chain (root_of sc j) (turn_public sc j) (kp_private (turn_key sc (S j)))
  = Ok (root_of sc (S j), link_at (chain_of sc (S j)) 0).
Proof using agree.
  intros H Hj. unfold create_chain, turn_public.
  rewrite agreement_ok by (apply (schedule_keys _ _ H); lia). done.
Qed.

Lemma create_peer sc last j : schedule_ok sc last → (S j <= last)%nat →
  create_chain (root_of sc j) (turn_public sc (S j)) (kp_private (turn_key sc j))
  = Ok (root_of sc (S j), link_at (chain_of sc (S j)) 0).
Proof using agree.
  intros H Hj. unfold create_chain, turn_public.
  rewrite agreement_ok, agreement_comm by (apply (schedule_keys _ _ H); lia). done.
Qed.

(** ** An end in its turn *)

(** The windows of the other end's turns, oldest first *)
Abbreviation Windows := (list (nat * Window)).

Definition peers (sc : Schedule) (l : Windows) : list PeerChain :=
  (λ '(j, w), MkPeer (turn_public sc j) (chain_of sc j) w) <$> l.

Record in_turn (sc : Schedule) (e sent : nat) (l : Windows) (s : RatchetState) : Prop := {
  turn_root : rs_root_key s = root_of sc e;
  turn_sender : rs_sender_chain s
                = Some (MkSenderChain (turn_key sc e) (link_at (chain_of sc e) sent));
  turn_chains : has_chains s (peers sc l);
  turn_jumps : MAX_FORWARD_JUMPS <= rs_max_forward_jumps s;
  turn_previous : rs_previous_counter s <= u32_max;
}.

(** What keeps the windows apart *)
Record windows_ok (sc : Schedule) (e : nat) (l : Windows) : Prop := {
  windows_turns : Forall (λ p, p.1 < e)%nat l;
  windows_distinct : NoDup (turn_public sc <$> l.*1);
  windows_sound : Forall (λ p, window_sound p.2) l;
}.

Lemma peers_fst sc l : pc_key <$> peers sc l = turn_public sc <$> l.*1.
Proof. unfold peers. rewrite <-!list_fmap_compose. apply list_fmap_ext. by intros i []. Qed.

Lemma windows_peers sc last e l : schedule_ok sc last → (e <= S last)%nat → windows_ok sc e l →
  peers_ok (peers sc l).
Proof using agree laws.
  intros Hsc He [Ht Hd Hw]. split.
  - apply Forall_fmap. eapply Forall_impl; [exact Ht|]. intros [j w] Hj. cbn in *.
    apply (schedule_keys _ _ Hsc). lia.
  - apply Forall_fmap, Forall_true. intros [j w]. cbn. by eapply chain_length.
  - by rewrite peers_fst.
  - apply Forall_fmap. eapply Forall_impl; [exact Hw|]. by intros [].
Qed.

Lemma peers_extend sc e l j kp : windows_ok sc e l → (e <= j)%nat →
  peers (extend sc j kp) l = peers sc l.
Proof.
  intros [Ht _ _] He. unfold peers. apply list_fmap_ext. intros i [k w] Hi.
  pose proof (Forall_lookup_1 _ _ _ _ Ht Hi) as Hk. cbn in Hk.
  unfold turn_public. rewrite extend_other, chain_of_extend by lia. done.
Qed.

Lemma windows_extend sc e l j kp : windows_ok sc e l → (e <= j)%nat →
  windows_ok (extend sc j kp) e l.
Proof using agreement crypto.
  intros Hl He. pose proof Hl as [Ht Hd Hw]. split; [done| |done].
  by rewrite <-peers_fst, (peers_extend sc e), peers_fst.
Qed.

(** The other end's draw for its turn does not concern an end in an earlier turn. *)
Lemma in_turn_extend sc e sent l s j kp : windows_ok sc e l → (e < j)%nat →
  in_turn sc e sent l s → in_turn (extend sc j kp) e sent l s.
Proof.
  intros Hl Hj [H1 H2 H3 H4 H5]. split; [| | |done|done].
  - by rewrite root_of_extend by lia.
  - by rewrite extend_other, chain_of_extend by lia.
  - by rewrite (peers_extend sc e) by (done || lia).
Qed.

(** ** Receiving *)

Context {csprng : Csprng} {glaws : CsprngLaws}.

Definition fresh_window : Window := MkWindow 0 [].
Definition latest (l : Windows) : Windows := drop (length l - MAX_RECEIVER_CHAINS) l.

Lemma fresh_window_sound : window_sound fresh_window.
Proof. by repeat split; constructor. Qed.

Lemma latest_sublist l : sublist (latest l) l.
Proof. apply sublist_drop. Qed.

Lemma sublist_all {A} (P : A → Prop) l l' : sublist l' l → Forall P l → Forall P l'.
Proof. rewrite !Forall_forall. intros Hs Hl x Hx. apply Hl. by eapply elem_of_sublist. Qed.

Lemma windows_sublist sc e l l' : sublist l' l → windows_ok sc e l → windows_ok sc e l'.
Proof.
  intros Hs [Ht Hd Hw]. split.
  - eapply sublist_all; done.
  - eapply sublist_NoDup; [exact Hd|]. by do 2 apply fmap_sublist.
  - eapply sublist_all; done.
Qed.

(** An end that hears the next turn for the first time starts a turn of its own. *)
Lemma ensure_new sc e sent l s g :
  schedule_ok sc (S e) → windows_ok sc e l → in_turn sc e sent l s →
  turn_public sc (S e) ∉ turn_public sc <$> l.*1 → N.of_nat sent <= u32_max →
  ∃ s', ensure_receiver_chain s (turn_public sc (S e)) g
        = ((s', (generate_pair g).2), Ok (link_at (chain_of sc (S e)) 0))
    ∧ in_turn (extend sc (S (S e)) (generate_pair g).1) (S (S e)) 0
        (latest (l ++ [(S e, fresh_window)])) s'.
Proof using laws agree glaws.
  intros Hsc Hl [Hr Hse Hch Hj _] Hnew Hsent. pose proof (generate_pair_sound g) as Hkp.
  pose proof (windows_peers sc (S e) e l Hsc ltac:(lia) Hl) as Hp.
  unfold ensure_receiver_chain, find_receiver_chain_key, receiver_chain.
  rewrite (find_no_peer s (peers sc l)); [|done|done|by rewrite peers_fst].
  change (None ≫= ?f) with (@None Chain). cbn [ok_or]. unfold dh_ratchet_step.
  rewrite Hse, Hr. cbn [ratchet_key sc_chain_key]. rewrite (create_peer sc (S e)) by (done || lia).
  destruct (generate_pair g) as [kp g'] eqn:Eg. cbn [fst snd] in *.
  set (sc' := extend sc (S (S e)) kp).
  assert (Hsc' : schedule_ok sc' (S (S e))) by by apply schedule_extend.
  assert (Ek : turn_key sc' (S (S e)) = kp) by apply extend_same.
  assert (Er : root_of sc' (S e) = root_of sc (S e)) by (apply root_of_extend; lia).
  assert (Ep : turn_public sc' (S e) = turn_public sc (S e)).
  { unfold turn_public, sc'. rewrite extend_other by lia. done. }
  pose proof (create_own sc' (S (S e)) (S e) Hsc' ltac:(lia)) as Hc. rewrite Er, Ep, Ek in Hc.
  rewrite Hc. eexists. split; [reflexivity|].
  assert (Hlp : peers sc' (latest (l ++ [(S e, fresh_window)]))
    = drop (length (l ++ [(S e, fresh_window)]) - MAX_RECEIVER_CHAINS)
        (peers sc l ++ [MkPeer (turn_public sc (S e)) (chain_of sc (S e)) fresh_window])).
  { unfold latest, peers. rewrite fmap_drop, fmap_app. f_equal. f_equal.
    - by apply (peers_extend sc e); [done|lia].
    - cbn [fmap list_fmap]. rewrite Ep. unfold sc'. by rewrite chain_of_extend by lia. }
  split; cbn [rs_root_key rs_sender_chain rs_receiver_chains rs_max_forward_jumps
    rs_previous_counter sc_chain_key ck_index link_at]; [done| | |done|lia].
  - by rewrite Ek.
  - unfold has_chains. cbn [rs_receiver_chains]. rewrite Hlp, fmap_drop, fmap_app, <-Hch.
    assert (El : length (rs_receiver_chains s) = length l).
    { rewrite Hch. unfold peers. by rewrite !length_fmap. }
    rewrite !length_app, El. done.
Qed.

Lemma ensure_known sc last e sent l s i j w g :
  schedule_ok sc last → (e <= S last)%nat → windows_ok sc e l → in_turn sc e sent l s →
  l !! i = Some (j, w) →
  ensure_receiver_chain s (turn_public sc j) g = ((s, g), Ok (link_at (chain_of sc j) (reached w))).
Proof using laws agree.
  intros Hsc He Hl [_ _ Hch _ _] Hi.
  pose proof (windows_peers sc last e l Hsc He Hl) as Hp.
  assert (Hpi : peers sc l !! i = Some (MkPeer (turn_public sc j) (chain_of sc j) w)).
  { unfold peers. by rewrite list_lookup_fmap, Hi. }
  unfold ensure_receiver_chain, find_receiver_chain_key, receiver_chain.
  pose proof (find_peer s (peers sc l) i _ Hch Hp Hpi) as Hf. cbn [pc_key] in Hf. rewrite Hf.
  change (Some i ≫= λ i, rs_receiver_chains s !! i) with (rs_receiver_chains s !! i).
  rewrite Hch, list_lookup_fmap, Hpi. cbn -[link_at].
  unfold chain_key_from_pb, array_of. cbn [chain_key_to_pb link_at pb_key ck_key pb_chain_index ck_index].
  assert (Hlen : length (seed_at (chain_of sc j) (reached w)) = 32%nat).
  { destruct (reached w); [by eapply chain_length|apply hmac_length]. }
  by rewrite Hlen.
Qed.
End schedule.
