(* ===== verification/SessionTurns.v ===== *)
(** * Messages between the two ends of a session

    A message sent in turn [j] as number [n] and what a session in turn [e] makes of it:
    the lemmas the conversation theorem is proved with. *)

From S2P Require Import Prelude SenderKeyState GroupCipher PreKeys Ratchet Sessions.
From S2P Require Import RatchetSchedule.
From stdpp Require Import options.

Local Open Scope N_scope.

Section turns.
Context {crypto : SignalCrypto} {agreement : AgreementPrimitives} {csprng : Csprng}.
Context {prim : kem.KemPrimitives} {spqr : Spqr} {codec : SessionCodec}.

Implicit Types (sc : Schedule) (ours theirs : IdentityKey) (s : SessionState) (m : SignalMessage).

(** ** Letters *)

Definition letter_keys sc (j n : nat) (pq_key : option bytes) : MessageKeys :=
  derive_keys (seed_of (chain_of sc j) n) pq_key (N.of_nat n).

(** The message with text [p] and number [n] of turn [j], with the post-quantum message
    and key [pq], from the owner of the first identity and address to the second *)
Definition letter sc (from to : IdentityKey) (from_address to_address : ProtocolAddress) (j n : nat)
    (p : bytes) (pq : bytes * option bytes) m : Prop :=
  ∃ previous addressed, previous <= u32_max ∧
    let keys := letter_keys sc j n pq.2 in
    signal_message_new 4 (mks_mac_key keys)
      (if addressed : bool then Some (from_address, to_address) else None) (turn_public sc j)
      (N.of_nat n) previous (cbc_encrypt (mks_cipher_key keys) (mks_iv keys) p) from to pq.1
    = Ok m.

Lemma letter_extend sc from to fa ta j n p pq m i kp : (j < i)%nat →
  letter sc from to fa ta j n p pq m → letter (extend sc i kp) from to fa ta j n p pq m.
Proof.
  intros Hj (previous & addressed & Hp & H). exists previous, addressed. split; [done|].
  unfold letter_keys, turn_public in *. by rewrite chain_of_extend, extend_other by lia.
Qed.

(** ** Sessions in their turn *)

Record session_in_turn sc (e sent : nat) (l : list (nat * Window)) ours theirs (pq : bytes) s : Prop := {
  session_v4 : session_version s = 4;
  session_ours : ss_local_identity s = identity_serialize ours;
  session_theirs : ss_remote_identity s = identity_serialize theirs;
  session_root : ss_root_key s = root_of sc e;
  session_sender : ss_sender_chain s
    = Some (sender_chain_to_pb (MkSenderChain (turn_key sc e) (link_at (chain_of sc e) sent)));
  session_chains : ss_receiver_chains s = peer_chain <$> peers sc l;
  session_pq : ss_pq_ratchet_state s = pq;
  session_previous : ss_previous_counter s <= u32_max;
}.

Definition sound_identity (k : IdentityKey) : Prop :=
  length (public_key_bytes (identity_public_key k)) = 32%nat.

Lemma session_extend sc e sent l ours theirs pq s j kp :
  windows_ok sc e l → (e < j)%nat →
  session_in_turn sc e sent l ours theirs pq s →
  session_in_turn (extend sc j kp) e sent l ours theirs pq s.
Proof.
  intros Hl Hj [? ? ? Hr Hs Hc ? ?]. split; [done..| | | |done|done].
  - by rewrite root_of_extend by lia.
  - by rewrite extend_other, chain_of_extend by lia.
  - by rewrite (peers_extend sc e) by (done || lia).
Qed.

(** The unacknowledged prekey message comes and goes without consequences. *)
Lemma session_set_pending sc e sent l ours theirs pq s a b :
  session_in_turn sc e sent l ours theirs pq s →
  session_in_turn sc e sent l ours theirs pq (set_pending s a b).
Proof. by intros []. Qed.

Lemma session_set_registration sc e sent l ours theirs pq s a b :
  session_in_turn sc e sent l ours theirs pq s →
  session_in_turn sc e sent l ours theirs pq (set_registration_ids s a b).
Proof. by intros []. Qed.

Lemma identity_roundtrip k : sound_identity k → identity_decode (identity_serialize k) = Ok k.
Proof.
  intros H. unfold identity_decode, identity_serialize. rewrite public_roundtrip by done. by destruct k.
Qed.

Lemma session_local sc e sent l ours theirs pq s :
  sound_identity ours → session_in_turn sc e sent l ours theirs pq s → local_identity_key s = Ok ours.
Proof.
  intros Ho [_ E _ _ _ _ _ _]. unfold local_identity_key. by rewrite E, identity_roundtrip.
Qed.

Lemma session_remote sc e sent l ours theirs pq s :
  sound_identity theirs → session_in_turn sc e sent l ours theirs pq s →
  remote_identity_key s = Ok (Some theirs).
Proof.
  intros Ho [_ _ E _ _ _ _ _]. unfold remote_identity_key. rewrite E.
  pose proof (identity_roundtrip theirs Ho) as H. destruct (identity_serialize theirs); [done|].
  by rewrite H.
Qed.

Context {laws : SignalLaws} {agree : AgreementLaws} {glaws : CsprngLaws}.

Lemma letter_key_lengths sc j n pk :
  let keys := letter_keys sc j n pk in
  length (mks_cipher_key keys) = 32%nat ∧ length (mks_mac_key keys) = 32%nat
  ∧ length (mks_iv keys) = 16%nat.
Proof using laws agree.
  unfold letter_keys, derive_keys. cbn [mks_cipher_key mks_mac_key mks_iv].
  set (okm := hkdf _ _ _ _).
  assert (H : length okm = 80%nat).
  { unfold okm, hkdf. destruct pk; [apply hkdf_salted_length|apply hkdf_length]. }
  by rewrite !length_take, !length_drop, H.
Qed.

Lemma letter_aes sc j n pk p :
  let keys := letter_keys sc j n pk in
  aes_256_cbc_encrypt p (mks_cipher_key keys) (mks_iv keys)
    = Some (cbc_encrypt (mks_cipher_key keys) (mks_iv keys) p)
  ∧ aes_256_cbc_decrypt (cbc_encrypt (mks_cipher_key keys) (mks_iv keys) p) (mks_cipher_key keys)
      (mks_iv keys) = Ok p.
Proof using laws agree.
  cbv zeta. destruct (letter_key_lengths sc j n pk) as (H1 & _ & H2).
  unfold aes_256_cbc_encrypt, aes_256_cbc_decrypt. rewrite H1, H2.
  destruct (cbc_blocks (mks_cipher_key (letter_keys sc j n pk)) (mks_iv (letter_keys sc j n pk)) p)
    as [Hne Hmod].
  split; [done|]. rewrite bool_decide_eq_false_2, Hmod by done. cbn. by rewrite cbc_roundtrip.
Qed.

(** What a letter is made of *)
Lemma letter_fields sc from to fa ta j n p pq m :
  letter sc from to fa ta j n p pq m →
  sm_version m = 4 ∧ sm_ratchet_key m = turn_public sc j ∧ sm_counter m = N.of_nat n
  ∧ sm_pq_ratchet m = pq.1
  ∧ sm_ciphertext m = cbc_encrypt (mks_cipher_key (letter_keys sc j n pq.2))
                        (mks_iv (letter_keys sc j n pq.2)) p.
Proof using laws agree.
  intros (previous & addressed & _ & H). revert H. unfold signal_message_new, compute_mac.
  destruct (letter_key_lengths sc j n pq.2) as (_ & -> & _). by intros [= <-].
Qed.

Lemma letter_mac sc from to fa ta j n p pq m :
  letter sc from to fa ta j n p pq m →
  verify_mac_with_addresses m fa ta from to (mks_mac_key (letter_keys sc j n pq.2)) = Ok true.
Proof using laws agree.
  intros (previous & addressed & _ & H). revert H. unfold signal_message_new, compute_mac.
  destruct (letter_key_lengths sc j n pq.2) as (_ & Hk & _).
  rewrite Hk. change (32 =? 32)%nat with true. cbv iota zeta beta.
  set (a := let! (s, r) <- _ in _). generalize (ciphertext_version_byte 4 :: encode_signal
    (MkWireSignal (Some (public_serialize (turn_public sc j))) (Some (N.of_nat n)) (Some previous)
       (Some (cbc_encrypt (mks_cipher_key (letter_keys sc j n pq.2)) (mks_iv (letter_keys sc j n pq.2)) p))
       (if bool_decide (pq.1 = []) then None else Some pq.1) a)) as body. intros body.
  set (mac := take MAC_LENGTH _). intros [= <-].
  assert (Hmac : length mac = MAC_LENGTH) by (unfold mac; by rewrite length_take, hmac_length).
  unfold verify_mac_with_addresses, verify_mac, compute_mac. cbn [sm_serialized sm_addresses].
  rewrite Hk. change (32 =? 32)%nat with true. cbv iota zeta beta.
  rewrite length_app, Hmac, Nat.add_sub, take_app_length, drop_app_length.
  fold mac. rewrite bool_decide_eq_true_2 by done. cbn [negb].
  destruct addressed; cbn in a; [|done].
  unfold a. destruct (serialize_addresses fa ta); [|done]. by rewrite bool_decide_eq_true_2.
Qed.

(** ** Between a session and its ratchet state *)

Lemma seed_at_length key n : length key = 32%nat → length (seed_at key n) = 32%nat.
Proof using laws. intros H. destruct n; [done|apply hmac_length]. Qed.

Lemma sender_chain_roundtrip kp key n : sound_pair kp → length key = 32%nat →
  sender_chain_from_pb (sender_chain_to_pb (MkSenderChain kp (link_at key n)))
  = Ok (MkSenderChain kp (link_at key n)).
Proof using laws.
  intros (H1 & H2 & H3 & _) Hk. unfold sender_chain_from_pb, sender_chain_to_pb.
  cbn [pb_ratchet_key pb_ratchet_key_private pb_chain_key ratchet_key sc_chain_key].
  rewrite public_roundtrip, private_roundtrip by done. cbn [ok_or].
  unfold chain_key_from_pb, array_of. cbn [chain_key_to_pb link_at pb_key ck_key pb_chain_index ck_index].
  rewrite seed_at_length by done. cbn. by destruct kp.
Qed.

Lemma take_in_turn sc last e sent l ours theirs pq s b :
  schedule_ok sc last → (e <= last)%nat → session_in_turn sc e sent l ours theirs pq s →
  ∃ r, take_ratchet_state s b = Ok r ∧ in_turn sc e sent l r.
Proof using laws agree.
  intros Hsc He [_ _ _ Hr Hs Hc _ Hp]. unfold take_ratchet_state, array_of.
  rewrite Hr, (root_length sc last e Hsc). change (32 =? 32)%nat with true. cbv iota beta.
  rewrite Hs, sender_chain_roundtrip by (by apply (schedule_keys _ _ Hsc) || by eapply chain_length).
  eexists. split; [reflexivity|]. split; cbn; [done|done|by unfold has_chains| |done].
  destruct b; unfold MAX_FORWARD_JUMPS, u64_max; lia.
Qed.

Lemma apply_in_turn sc e sent l ours theirs pq s r pq' sc' e' sent' l' :
  session_in_turn sc e sent l ours theirs pq s → in_turn sc' e' sent' l' r →
  session_in_turn sc' e' sent' l' ours theirs pq'
    (set_pq_ratchet_state (apply_ratchet_state s r) pq').
Proof.
  intros [? ? ? _ _ _ _ _] [Hr Hs Hc _ Hp]. split; cbn; try done. by rewrite Hs.
Qed.

(** ** Opening letters *)

Lemma peer_lookup sc l i j w : l !! i = Some (j, w) →
  peers sc l !! i = Some (MkPeer (turn_public sc j) (chain_of sc j) w).
Proof. intros Hi. unfold peers. by rewrite list_lookup_fmap, Hi. Qed.

Lemma peers_insert sc l i j w w' : l !! i = Some (j, w) →
  <[i := set_window (MkPeer (turn_public sc j) (chain_of sc j) w) w']> (peers sc l)
  = peers sc (<[i := (j, w')]> l).
Proof. intros Hi. unfold peers. by rewrite list_fmap_insert. Qed.

(** Once the chain of a letter is known, its window decides. *)
Lemma triple_decrypt_opens sc last e sent l ours theirs from to r r1 pq j n w p msg key m t g g1 i :
  schedule_ok sc last → (e <= S last)%nat → windows_ok sc e l → in_turn sc e sent l r1 →
  ensure_receiver_chain r (turn_public sc j) g
    = ((r1, g1), Ok (link_at (chain_of sc j) (reached w))) →
  l !! i = Some (j, w) → letter sc theirs ours from to j n p (msg, key) m →
  N.of_nat (S n) <= u32_max →
  match open_window w n with
  | (w', Opened) => ∀ pq', spqr_recv pq msg = Ok (pq', key) →
      ∃ r', triple_decrypt r pq ours theirs from to m t g = (g1, Ok (r', pq', p))
        ∧ in_turn sc e sent (<[i := (j, w')]> l) r'
  | (_, AlreadyOpened) => ∃ current,
      triple_decrypt r pq ours theirs from to m t g
      = (g1, Err (DuplicatedMessage current (N.of_nat n)))
  | (_, TooFar) => True
  end.
Proof using laws agree.
  intros Hsc He Hl Hr1 Hens Hi Hm Hn.
  destruct (letter_fields _ _ _ _ _ _ _ _ _ _ Hm) as (Hv & Hk & Hc & Hq & Ht).
  pose proof (windows_peers sc last e l Hsc He Hl) as Hp.
  pose proof (consume_window r1 (peers sc l) i _ n (type_name t) (turn_chains _ _ _ _ _ Hr1) Hp
    (peer_lookup sc l i j w Hi) Hn (turn_jumps _ _ _ _ _ Hr1)) as Hcons.
  cbn [pc_key pc_seed pc_window] in Hcons. unfold triple_decrypt. rewrite Hk, Hens, Hc.
  destruct (open_window w n) as [w' []].
  - intros pq' Hpq. destruct Hcons as (r' & -> & Hch & [S1 S2 S3 S4]). rewrite Hq. cbn [fst].
    rewrite Hpq, message_keys_at. cbn [generate_keys].
    change (derive_keys (seed_of (chain_of sc j) n) key (N.of_nat n)) with (letter_keys sc j n key).
    pose proof (letter_mac _ _ _ _ _ _ _ _ _ _ Hm) as Hmac. cbn [snd] in Hmac, Ht.
    rewrite Hmac. cbn [negb]. rewrite Ht. destruct (letter_aes sc j n key p) as [_ ->].
    exists r'. split; [done|]. rewrite (peers_insert sc l i j w w' Hi) in Hch.
    destruct Hr1 as [T1 T2 _ T4 T5]. split; [congruence|congruence|done|by rewrite S4|by rewrite S3].
  - destruct Hcons as [current ->]. by exists current.
  - done.
Qed.

(** ** Sealing letters *)

Lemma outgoing_in_turn sc last e sent l ours theirs pq s :
  schedule_ok sc last → (e <= last)%nat → sound_identity ours → sound_identity theirs →
  session_in_turn sc e sent l ours theirs pq s →
  outgoing_from_session s
  = Ok (MkOutgoing (turn_key sc e) (link_at (chain_of sc e) sent) (ss_previous_counter s) pq 4 ours
          theirs).
Proof using laws agree.
  intros Hsc He Ho Ht Hs. pose proof (schedule_keys _ _ Hsc e He) as (K1 & K2 & K3 & _).
  unfold outgoing_from_session, sender_ratchet_key, sender_ratchet_private_key, get_sender_chain_key.
  rewrite (session_sender _ _ _ _ _ _ _ _ Hs). cbn [ok_or].
  unfold sender_chain_to_pb. cbn [pb_ratchet_key pb_ratchet_key_private pb_chain_key ratchet_key sc_chain_key].
  rewrite public_roundtrip, private_roundtrip by done. cbn [invalid_session ok_or].
  unfold array_of. cbn [chain_key_to_pb link_at pb_key ck_key pb_chain_index ck_index].
  rewrite seed_at_length by by eapply chain_length. change (32 =? 32)%nat with true. cbv iota beta.
  rewrite (session_v4 _ _ _ _ _ _ _ _ Hs). change (4 <=? 255) with true. cbv iota beta.
  rewrite (session_local _ _ _ _ _ _ _ _ Ho Hs), (session_remote _ _ _ _ _ _ _ _ Ht Hs).
  cbn [ok_or]. rewrite (session_pq _ _ _ _ _ _ _ _ Hs). by destruct (turn_key sc e).
Qed.

Lemma apply_outgoing sc e sent l ours theirs pq s previous pq' :
  session_in_turn sc e sent l ours theirs pq s →
  session_in_turn sc e (S sent) l ours theirs pq'
    (outgoing_apply (MkOutgoing (turn_key sc e) (link_at (chain_of sc e) (S sent)) previous pq' 4 ours
       theirs) s).
Proof.
  intros [? ? ? ? Hs ? ? ?]. split; try done. cbn. unfold set_sender_chain_key. by rewrite Hs.
Qed.

Lemma triple_encrypt_letter sc e sent ours theirs from to (addressed : bool) previous pq p g g' pq' msg key :
  spqr_send pq g = (g', Ok (pq', key, msg)) → previous <= u32_max → N.of_nat (S sent) <= u32_max →
  ∃ m,
    triple_encrypt (MkOutgoing (turn_key sc e) (link_at (chain_of sc e) sent) previous pq 4 ours theirs)
      p (if addressed then Some from else None) to g
    = (g', Ok (MkOutgoing (turn_key sc e) (link_at (chain_of sc e) (S sent)) previous pq' 4 ours theirs,
               m))
    ∧ letter sc ours theirs from to e sent p (msg, key) m.
Proof using laws agree.
  intros Hsend Hprev Hn. unfold triple_encrypt. cbn [ot_pqr_state ot_chain_key ot_version ot_ratchet_key
    ot_previous_counter ot_local_identity ot_remote_identity]. rewrite Hsend, message_keys_at.
  cbn [generate_keys].
  change (derive_keys (seed_of (chain_of sc e) sent) key (N.of_nat sent)) with (letter_keys sc e sent key).
  destruct (letter_aes sc e sent key p) as [-> _]. cbn [ok_or].
  assert (Hm : ∃ m, signal_message_new 4 (mks_mac_key (letter_keys sc e sent key))
      (if addressed then Some (from, to) else None) (turn_public sc e) (N.of_nat sent) previous
      (cbc_encrypt (mks_cipher_key (letter_keys sc e sent key)) (mks_iv (letter_keys sc e sent key)) p)
      ours theirs msg = Ok m).
  { unfold signal_message_new, compute_mac. destruct (letter_key_lengths sc e sent key) as (_ & -> & _).
    by eexists. }
  destruct Hm as [m Hm]. exists m. split; [|by exists previous, addressed].
  replace ((λ l, (l, to)) <$> (if addressed then Some from else None))
    with (if addressed then Some (from, to) else None) by by destruct addressed.
  change (kp_public (turn_key sc e)) with (turn_public sc e).
  change (ck_index (link_at (chain_of sc e) sent)) with (N.of_nat sent).
  rewrite Hm, next_link by done. done.
Qed.

(** ** Opening letters in a session *)

Lemma try_decrypt_taken sc last e sent l ours theirs pq s remote local m t g :
  schedule_ok sc last → (e <= last)%nat → sound_identity ours → sound_identity theirs →
  session_in_turn sc e sent l ours theirs pq s →
  ∃ r, in_turn sc e sent l r
    ∧ try_decrypt_with_state s remote local m t g
      = (let '(g, opened) := triple_decrypt r pq ours theirs remote local m t g in
         (g, let? (r, pq, ptext) <- opened in
             Ok (clear_unacknowledged_pre_key_message
                   (set_pq_ratchet_state (apply_ratchet_state s r) pq), ptext))).
Proof using laws agree.
  intros Hsc He Ho Ht Hs.
  pose proof (session_local _ _ _ _ _ _ _ _ Ho Hs) as El.
  pose proof (session_remote _ _ _ _ _ _ _ _ Ht Hs) as Er.
  destruct (take_in_turn sc last e sent l ours theirs pq s
    (is_same_account ours local theirs remote) Hsc He Hs) as (r & Hr & Hin).
  exists r. split; [done|]. unfold try_decrypt_with_state. rewrite El, Er. cbn [ok_or].
  rewrite Hr, (session_pq _ _ _ _ _ _ _ _ Hs). done.
Qed.

Lemma cleared_in_turn sc e sent l ours theirs pq s r pq' sc' e' sent' l' :
  session_in_turn sc e sent l ours theirs pq s → in_turn sc' e' sent' l' r →
  session_in_turn sc' e' sent' l' ours theirs pq'
    (clear_unacknowledged_pre_key_message (set_pq_ratchet_state (apply_ratchet_state s r) pq')).
Proof. intros Hs Hr. apply session_set_pending. by eapply apply_in_turn. Qed.

(** The state after a letter has been opened: its base key, registration ids and pending
    message *)
Definition acknowledged (s s' : SessionState) : Prop :=
  ss_alice_base_key s' = ss_alice_base_key s
  ∧ ss_remote_registration_id s' = ss_remote_registration_id s
  ∧ ss_local_registration_id s' = ss_local_registration_id s
  ∧ ss_pending_pre_key s' = None.

(** A letter of a chain that is known *)
Lemma try_decrypt_known sc last e sent l ours theirs from to pq s j n w p msg key m t g i :
  schedule_ok sc last → (e <= last)%nat → sound_identity ours → sound_identity theirs →
  windows_ok sc e l → session_in_turn sc e sent l ours theirs pq s → l !! i = Some (j, w) →
  letter sc theirs ours from to j n p (msg, key) m → N.of_nat (S n) <= u32_max →
  match open_window w n with
  | (w', Opened) => ∀ pq', spqr_recv pq msg = Ok (pq', key) →
      ∃ s', try_decrypt_with_state s from to m t g = (g, Ok (s', p))
        ∧ session_in_turn sc e sent (<[i := (j, w')]> l) ours theirs pq' s' ∧ acknowledged s s'
  | (_, AlreadyOpened) => ∃ current,
      try_decrypt_with_state s from to m t g = (g, Err (DuplicatedMessage current (N.of_nat n)))
  | (_, TooFar) => True
  end.
Proof using laws agree.
  intros Hsc He Ho Ht Hl Hs Hi Hm Hn.
  destruct (try_decrypt_taken sc last e sent l ours theirs pq s from to m t g Hsc He Ho Ht Hs)
    as (r & Hr & ->).
  pose proof (triple_decrypt_opens sc last e sent l ours theirs from to r r pq j n w p msg key m t g g i
    Hsc ltac:(lia) Hl Hr) as Hopen.
  rewrite (ensure_known sc last e sent l r i j w g Hsc ltac:(lia) Hl Hr Hi) in Hopen.
  specialize (Hopen eq_refl Hi Hm Hn). destruct (open_window w n) as [w' []]; [| |done].
  - intros pq' Hpq. destruct (Hopen pq' Hpq) as (r' & -> & Hr').
    eexists. split; [reflexivity|]. split; [by eapply cleared_in_turn|done].
  - destruct Hopen as [current ->]. by exists current.
Qed.

(** The first letter heard of a new turn *)
Lemma try_decrypt_new sc e sent l ours theirs from to pq s n p msg key m t g pq' :
  schedule_ok sc (S e) → sound_identity ours → sound_identity theirs →
  windows_ok sc e l → session_in_turn sc e sent l ours theirs pq s →
  turn_public sc (S e) ∉ turn_public sc <$> l.*1 → N.of_nat sent <= u32_max →
  letter sc theirs ours from to (S e) n p (msg, key) m → (n < MAX_MESSAGE_KEYS)%nat →
  spqr_recv pq msg = Ok (pq', key) →
  ∃ s' g' kp i w', sound_pair kp
    ∧ try_decrypt_with_state s from to m t g = (g', Ok (s', p))
    ∧ open_window fresh_window n = (w', Opened)
    ∧ latest (l ++ [(S e, fresh_window)]) !! i = Some (S e, fresh_window)
    ∧ session_in_turn (extend sc (S (S e)) kp) (S (S e)) 0
        (<[i := (S e, w')]> (latest (l ++ [(S e, fresh_window)]))) ours theirs pq' s'
    ∧ acknowledged s s'.
Proof using laws agree glaws.
  intros Hsc Ho Ht Hl Hs Hnew Hsent Hm Hn Hpq.
  destruct (try_decrypt_taken sc (S e) e sent l ours theirs pq s from to m t g Hsc ltac:(lia) Ho Ht Hs)
    as (r & Hr & ->).
  destruct (ensure_new sc e sent l r g Hsc Hl Hr Hnew Hsent) as (r1 & Hens & Hr1).
  pose proof (generate_pair_sound g) as Hkp. set (kp := (generate_pair g).1) in *.
  set (sc' := extend sc (S (S e)) kp) in *. set (l' := latest _) in *.
  assert (Hsc' : schedule_ok sc' (S (S e))) by by apply schedule_extend.
  assert (Hl' : windows_ok sc' (S (S e)) l').
  { apply (windows_sublist _ _ (l ++ [(S e, fresh_window)])); [apply latest_sublist|].
    pose proof (windows_extend sc e l (S (S e)) kp Hl ltac:(lia)) as [W1 W2 W3]. split.
    - apply Forall_app. split; [eapply Forall_impl; [exact W1|]; cbn; lia|]. repeat constructor.
    - fold sc' in W2. rewrite !fmap_app. apply NoDup_app. split; [done|]. split; [|apply NoDup_singleton].
      intros k Hk ->%list_elem_of_singleton. apply Hnew. revert Hk.
      rewrite <-!peers_fst. unfold sc'. rewrite (peers_extend sc e) by (done || lia).
      cbn [fst]. unfold turn_public. by rewrite extend_other by lia.
    - apply Forall_app. split; [done|]. constructor; [apply fresh_window_sound|done]. }
  assert (Hi : ∃ i, l' !! i = Some (S e, fresh_window)).
  { apply list_elem_of_lookup. unfold l', latest. rewrite length_app. cbn [length].
    rewrite drop_app_le by (unfold MAX_RECEIVER_CHAINS; lia). apply elem_of_app. right. left. }
  destruct Hi as [i Hi].
  assert (Hw : ∃ w', open_window fresh_window n = (w', Opened)).
  { unfold open_window. cbn [reached fresh_window]. rewrite decide_False by lia.
    rewrite decide_False by (unfold MAX_FORWARD_JUMPS, MAX_MESSAGE_KEYS in *; lia). by eexists. }
  destruct Hw as [w' Hw].
  pose proof (triple_decrypt_opens sc' (S (S e)) (S (S e)) 0 l' ours theirs from to r r1 pq (S e) n
    fresh_window p msg key m t g (generate_pair g).2 i Hsc' ltac:(lia) Hl' Hr1) as Hopen.
  rewrite Hw in Hopen. destruct (Hopen) with (pq' := pq') as (r' & -> & Hr'); try done.
  - unfold sc' at 1, turn_public. rewrite extend_other by lia. fold (turn_public sc (S e)). rewrite Hens.
    unfold sc'. by rewrite chain_of_extend by lia.
  - by apply letter_extend; [lia|].
  - unfold MAX_MESSAGE_KEYS, u32_max in *. lia.
  - eexists _, _, kp, i, w'. split; [exact Hkp|]. split; [reflexivity|]. split; [done|]. split; [exact Hi|].
    split; [by eapply cleared_in_turn|done].
Qed.

(** ** Letters as bytes *)

Context {claws : SessionCodecLaws}.

Lemma version_byte : ciphertext_version (ciphertext_version_byte 4) = Ok 4.
Proof. by vm_compute. Qed.

Lemma letter_parses sc from to fa ta j n p pq m :
  letter sc from to fa ta j n p pq m → length (public_key_bytes (turn_public sc j)) = 32%nat →
  N.of_nat n <= u32_max →
  signal_message_try_from (sm_serialized m) = Ok m
  ∧ prekey_message_try_from (sm_serialized m) = Err InvalidProtobufEncoding.
Proof using laws agree claws.
  intros (previous & addressed & Hprev & H) Hkey Hn. revert H. unfold signal_message_new, compute_mac.
  destruct (letter_key_lengths sc j n pq.2) as (_ & Hk & _).
  rewrite Hk. change (32 =? 32)%nat with true. cbv iota zeta beta.
  set (a := let! (s, r) <- _ in _).
  set (w := MkWireSignal (Some (public_serialize (turn_public sc j))) _ _ _ _ _).
  set (mac := take MAC_LENGTH _). intros Hm. injection Hm as <-. cbn [sm_serialized].
  assert (Hmac : length mac = 8%nat) by (unfold mac; by rewrite length_take, hmac_length).
  clearbody mac. assert (Hw : decode_signal (encode_signal w) = Some w) by by apply signal_roundtrip.
  split.
  - unfold signal_message_try_from. cbn [app]. rewrite (proj2 (Nat.ltb_ge _ _)).
    2:{ cbn [length]. rewrite length_app, Hmac. unfold MAC_LENGTH. lia. }
    rewrite version_byte, length_app, Hmac. unfold MAC_LENGTH. rewrite Nat.add_sub, take_app_length, Hw.
    unfold w. cbn [ok_or ws_ratchet_key ws_counter ws_previous_counter ws_ciphertext ws_pq_ratchet ws_addresses].
    rewrite public_roundtrip by done. cbn [from_curve default].
    case_bool_decide as E; cbn [default]; by rewrite ?E.
  - unfold prekey_message_try_from. cbn [app]. rewrite version_byte.
    rewrite prekey_signal_rejects by done. done.
Qed.

Lemma wrapped_parses registration pre_key_id signed_id kyber_id ct base identity m :
  registration <= u32_max → u32_field pre_key_id → signed_id <= u32_max → kyber_id <= u32_max →
  length (public_key_bytes base) = 32%nat → sound_identity identity →
  signal_message_try_from (sm_serialized m) = Ok m →
  let wrapped := prekey_message_new 4 registration pre_key_id signed_id (Some (kyber_id, ct)) base
                   identity m in
  prekey_message_try_from (pm_serialized wrapped) = Ok wrapped.
Proof using claws.
  intros Hr Hp Hs Hk Hb Hi Hm wrapped. unfold prekey_message_try_from, wrapped, prekey_message_new.
  cbn [pm_serialized]. rewrite version_byte, prekey_signal_roundtrip by done.
  cbn [ok_or wp_base_key wp_identity_key wp_message wp_signed_pre_key_id wp_kyber_pre_key_id
    wp_kyber_ciphertext wp_registration_id wp_pre_key_id fmap option_fmap option_map fst snd kyber_payload].
  rewrite public_roundtrip by done. cbn [from_curve]. rewrite identity_roundtrip, Hm by done. done.
Qed.
End turns.
