(* ===== verification/Correspondence.v ===== *)
(** * Two sides writing letters to each other

    What a pairwise session promises, without keys: each side writes in turns, hears the
    other's letters in any order, each of them once, and starts a new turn when it hears
    the other's latest one.  [linked] says how two sessions carry such a correspondence;
    [linked_say], [linked_hear] and [linked_again] are the simulation.  A first contact leaves
    two linked sides: both ends of the handshake reach the same secrets. *)

From S2P Require Import Prelude SenderKeyState GroupCipher PreKeys Ratchet Sessions RatchetSchedule.
From S2P Require Import SessionTurns.
From stdpp Require Import options.

Local Open Scope N_scope.

(** ** The letters of a side *)

Record Letter := MkLetter { l_turn : nat; l_number : nat; l_text : bytes; l_opened : bool }.
Record Side := MkSide { turn : nat; sent : nat; letters : list Letter }.

Definition open_letter (l : Letter) : Letter := MkLetter (l_turn l) (l_number l) (l_text l) true.

Definition write (x : Side) (text : bytes) : Side :=
  MkSide (turn x) (S (sent x)) (letters x ++ [MkLetter (turn x) (sent x) text false]).

Definition mark (y : Side) (i : nat) : Side :=
  MkSide (turn y) (sent y) (alter open_letter i (letters y)).

(** Hearing a letter of the other's turn [j] *)
Definition answer (x : Side) (j : nat) : Side :=
  if decide (j = S (turn x)) then MkSide (S j) 0 (letters x) else x.

(** The numbers of the opened letters of turn [j] *)
Definition opened_numbers (ls : list Letter) (j : nat) : list nat :=
  l_number <$> filter (λ l, l_turn l = j ∧ l_opened l = true) ls.

(** [e] is the other's turn. *)
Record letters_ok (y : Side) (e : nat) : Prop := {
  letters_turn : Forall (λ l, ∃ k, turn y = (l_turn l + 2 * k)%nat) (letters y);
  letters_sent : (sent y <= length (letters y))%nat;
  letters_number : Forall (λ l, l_number l < length (letters y))%nat (letters y);
  letters_current : Forall (λ l, l_turn l = turn y → (l_number l < sent y)%nat) (letters y);
  letters_distinct : NoDup ((λ l, (l_turn l, l_number l)) <$> letters y);
  letters_opened : Forall (λ l, l_opened l = true → (l_turn l < e)%nat) (letters y);
}.

Lemma letters_ok_write y e text : letters_ok y e → letters_ok (write y text) e.
Proof.
  intros [H1 H2 H3 H4 H5 H6]. split; cbn [write turn sent letters]; rewrite ?length_app; cbn [length].
  - apply Forall_app. split; [done|]. constructor; [|done]. exists 0%nat. cbn. lia.
  - lia.
  - apply Forall_app. split; [eapply Forall_impl; [exact H3|]; cbn; lia|]. by repeat constructor; cbn; lia.
  - apply Forall_app. split; [eapply Forall_impl; [exact H4|]; cbn; lia|]. repeat constructor; cbn; lia.
  - rewrite fmap_app. apply NoDup_app. split; [done|]. split; [|apply NoDup_singleton].
    intros ? (l & -> & Hl)%list_elem_of_fmap [= E1 E2]%list_elem_of_singleton. cbn in *.
    eapply Forall_forall in H4; [|exact Hl]. specialize (H4 E1). lia.
  - apply Forall_app. split; [done|]. by repeat constructor.
Qed.

Lemma letters_ok_answer y e : letters_ok y e → letters_ok (answer y (S (turn y))) e.
Proof.
  intros [H1 H2 H3 H4 H5 H6]. unfold answer. rewrite decide_True by done.
  split; cbn [turn sent letters]; try done; [|lia|].
  - eapply Forall_impl; [exact H1|]. intros l [k Hk]. exists (S k). lia.
  - eapply Forall_impl; [exact H1|]. intros l [k Hk] E. lia.
Qed.

Lemma letters_ok_later y e e' : (e <= e')%nat → letters_ok y e → letters_ok y e'.
Proof.
  intros He [H1 H2 H3 H4 H5 H6]. split; try done. eapply Forall_impl; [exact H6|]. cbn.
  intros l Hl Ho. specialize (Hl Ho). lia.
Qed.

Lemma letters_ok_mark y e i l :
  letters_ok y e → letters y !! i = Some l → (l_turn l < e)%nat → letters_ok (mark y i) e.
Proof.
  intros [H1 H2 H3 H4 H5 H6] Hi Hl.
  assert (Hf : ∀ P : Letter → Prop, Forall P (letters y) → (P l → P (open_letter l)) →
    Forall P (alter open_letter i (letters y))).
  { intros P HP Ho. apply Forall_alter; [done|]. intros l' Hi' Hl'. simplify_eq. auto. }
  split; cbn [mark turn sent letters]; rewrite ?length_alter; try apply Hf; try done.
  rewrite (list_fmap_alter _ _ (λ x, x)) by (by apply Forall_true).
  by rewrite list_alter_id.
Qed.

Lemma opened_numbers_elem ls j n :
  n ∈ opened_numbers ls j ↔ ∃ i l, ls !! i = Some l ∧ l_turn l = j ∧ l_number l = n ∧ l_opened l = true.
Proof.
  unfold opened_numbers. rewrite list_elem_of_fmap. setoid_rewrite list_elem_of_filter.
  setoid_rewrite list_elem_of_lookup. naive_solver.
Qed.

(** A letter has been opened exactly when its number has. *)
Lemma letter_opened y e i l : letters_ok y e → letters y !! i = Some l →
  l_number l ∈ opened_numbers (letters y) (l_turn l) ↔ l_opened l = true.
Proof.
  intros H Hi. rewrite opened_numbers_elem. split; [|by exists i, l].
  intros (i' & l' & Hi' & E1 & E2 & Ho). assert (i' = i) as ->; [|congruence].
  eapply NoDup_lookup; [apply (letters_distinct _ _ H)| |].
  - by rewrite list_lookup_fmap, Hi'.
  - rewrite list_lookup_fmap, Hi. cbn. by rewrite E1, E2.
Qed.

Lemma opened_numbers_mark ls i l j n : ls !! i = Some l →
  n ∈ opened_numbers (alter open_letter i ls) j
  ↔ n ∈ opened_numbers ls j ∨ (l_turn l = j ∧ l_number l = n).
Proof.
  intros Hi. rewrite !opened_numbers_elem. split.
  - intros (i' & l' & Hi' & E1 & E2 & Ho). destruct (decide (i = i')) as [<-|Hne].
    + rewrite list_lookup_alter_eq, Hi in Hi'. cbn in Hi'. simplify_eq. by right.
    + rewrite list_lookup_alter_ne in Hi' by done. left. by exists i', l'.
  - intros [(i' & l' & Hi' & E1 & E2 & Ho)|[E1 E2]].
    + exists i'. destruct (decide (i = i')) as [<-|Hne].
      * exists (open_letter l). rewrite list_lookup_alter_eq, Hi. simplify_eq. done.
      * exists l'. by rewrite list_lookup_alter_ne.
    + exists i, (open_letter l). by rewrite list_lookup_alter_eq, Hi.
Qed.

Lemma opened_numbers_write y text j :
  opened_numbers (letters (write y text)) j = opened_numbers (letters y) j.
Proof.
  unfold opened_numbers. cbn [write letters]. rewrite filter_app, filter_cons_False by (by intros []).
  by rewrite app_nil_r.
Qed.

Lemma opened_iff start earlier earlier' w :
  (∀ n, n ∈ earlier ↔ n ∈ earlier') → opened start earlier w → opened start earlier' w.
Proof.
  intros He [H1 H2 H3]. split; [done| |].
  - apply Forall_forall. intros n Hn%He. by eapply Forall_forall in H2.
  - rewrite H3. apply list_filter_iff. intros n. apply not_iff_compat.
    rewrite !list_elem_of_fmap. by setoid_rewrite He.
Qed.

(** ** The turns whose letters a side can open *)

(** The other side's last [k] turns before turn [e], latest first *)
Fixpoint heard_turns (k e : nat) : list nat :=
  match k, e with
  | S k, S (S e) => S e :: heard_turns k e
  | S k, 1 => [0]
  | _, _ => []
  end%nat.

Definition in_reach (e j : nat) : Prop := (e <= j + 9)%nat.

Lemma heard_turns_take k : ∀ e, take k (heard_turns (S k) e) = heard_turns k e.
Proof.
  induction k as [|k IH]; intros e; [done|]. destruct e as [|[|e]]; [done|by destruct k|].
  change (heard_turns (S (S k)) (S (S e))) with (S e :: heard_turns (S k) e).
  cbn [take heard_turns]. f_equal. apply IH.
Qed.

Lemma heard_turns_next k e : heard_turns (S k) (S (S e)) = take (S k) (S e :: heard_turns (S k) e).
Proof. cbn [take]. by rewrite heard_turns_take. Qed.

Lemma heard_turns_elem k : ∀ e j d, e = (j + S (2 * d))%nat → (d < k)%nat → j ∈ heard_turns k e.
Proof.
  induction k as [|k IH]; intros e j d He Hd; [lia|]. destruct d as [|d].
  - replace e with (S j) by lia. destruct j; cbn; left.
  - destruct e as [|[|e]]; [lia..|]. cbn. right. apply (IH e j d); lia.
Qed.

Lemma heard_turns_lt k : ∀ e, Forall (λ j, j < e)%nat (heard_turns k e).
Proof.
  induction k as [|k IH]; intros e; [constructor|]. destruct e as [|[|e]]; cbn; [constructor|by repeat constructor|].
  constructor; [lia|]. eapply Forall_impl; [apply IH|]. cbn. lia.
Qed.

(** ** Sessions that carry the letters *)

Abbreviation Sealed := ((bytes * option bytes) * SignalMessage)%type.

Record End := MkEnd {
  side : Side;
  identity : IdentityKey;
  end_address : ProtocolAddress;
  (** What it has of the other's chains *)
  windows : list (nat * Window);
  (** Its letters as messages, with their post-quantum messages and keys *)
  sealed_letters : list Sealed;
  session : SessionState;
}.

(** The letters as the messages of a post-quantum connection *)
Definition pq_history (ls : list Letter) (ms : list Sealed) : list PqSent :=
  zip_with (λ l s, MkPqSent s.1.1 s.1.2 (l_opened l)) ls ms.

Section linked.
Context {crypto : SignalCrypto} {agreement : AgreementPrimitives} {csprng : Csprng}.
Context {spqr : Spqr} {codec : SessionCodec}.

Implicit Types (sc : Schedule) (x y : End) (m : SignalMessage).

Record hears sc (e : nat) (ls : list Letter) (l : list (nat * Window)) : Prop := {
  hears_turns : reverse l.*1 = heard_turns MAX_RECEIVER_CHAINS e;
  hears_distinct : NoDup (turn_public sc <$> l.*1);
  hears_opened :
    Forall (λ '(j, w), opened 0 (opened_numbers ls j) w ∧ (reached w <= length ls)%nat) l;
}.

(** [x] writes to [y] and hears it. *)
Record half sc x y : Prop := {
  half_session : session_in_turn sc (turn (side x)) (sent (side x)) (windows x) (identity x)
                   (identity y) (ss_pq_ratchet_state (session x)) (session x);
  half_identity : sound_identity (identity x);
  half_letters : letters_ok (side x) (turn (side y));
  half_short : (length (letters (side x)) <= MAX_MESSAGE_KEYS)%nat;
  half_sealed : Forall2 (λ l '(pq, m),
    letter sc (identity x) (identity y) (end_address x) (end_address y) (l_turn l) (l_number l)
      (l_text l) pq m) (letters (side x)) (sealed_letters x);
  half_hears : hears sc (turn (side x)) (letters (side y)) (windows x);
}.

Definition history_of x : list PqSent := pq_history (letters (side x)) (sealed_letters x).

Context {prim : kem.KemPrimitives} {pqlaws : SpqrLaws}.

Record linked sc x y : Prop := {
  linked_schedule : schedule_ok sc (turn (side x) `max` turn (side y));
  linked_turns : turn (side y) = S (turn (side x)) ∨ turn (side x) = S (turn (side y));
  linked_there : half sc x y;
  linked_back : half sc y x;
  linked_pq : pq_linked (ss_pq_ratchet_state (session x)) (ss_pq_ratchet_state (session y))
                (history_of x) (history_of y);
}.

Lemma linked_sym sc x y : linked sc x y → linked sc y x.
Proof.
  intros [H1 H2 H3 H4 H5]. split; [by rewrite Nat.max_comm|tauto|done|done|by apply pq_sym].
Qed.

(** ** The post-quantum history *)

Lemma history_app ls ms l s : length ls = length ms →
  pq_history (ls ++ [l]) (ms ++ [s]) = pq_history ls ms ++ [MkPqSent s.1.1 s.1.2 (l_opened l)].
Proof. intros Hl. unfold pq_history. by rewrite zip_with_app. Qed.

Lemma history_lookup ls ms i l s : ls !! i = Some l → ms !! i = Some s →
  pq_history ls ms !! i = Some (MkPqSent s.1.1 s.1.2 (l_opened l)).
Proof. intros Hl Hs. apply lookup_zip_with_Some. eauto. Qed.

Lemma history_open ls : ∀ ms i,
  pq_history (alter open_letter i ls) ms = alter pq_receive i (pq_history ls ms).
Proof.
  induction ls as [|l ls IH]; intros [|s ms] [|i]; try done. cbn. f_equal. apply IH.
Qed.

Lemma history_length ls ms : (length (pq_history ls ms) <= length ls)%nat.
Proof. unfold pq_history. rewrite length_zip_with. lia. Qed.

(** [x] has sent nothing two epochs or more after [msg]. *)
Definition keeps_epoch x (msg : bytes) : Prop :=
  Forall (λ s, spqr_epoch s.1.1 <= spqr_epoch msg + 1) (sealed_letters x).

Lemma keeps_epoch_history x msg : keeps_epoch x msg →
  Forall (λ p, spqr_epoch (pq_msg p) <= spqr_epoch msg + 1) (history_of x).
Proof.
  intros H. apply Forall_lookup. intros i p (l & s & -> & _ & Hs)%lookup_zip_with_Some.
  by apply (Forall_lookup_1 _ _ _ _ H Hs).
Qed.

(** ** Windows *)

Lemma hears_windows sc e ls l : (length ls <= MAX_MESSAGE_KEYS)%nat → hears sc e ls l →
  windows_ok sc e l.
Proof.
  intros Hls [Ht Hd Ho]. split; [|done|].
  - pose proof (heard_turns_lt MAX_RECEIVER_CHAINS e) as Hlt. rewrite <-Ht in Hlt.
    apply Forall_reverse, Forall_fmap in Hlt. exact Hlt.
  - eapply Forall_impl; [exact Ho|]. intros [j w] [Hw Hr]. split; [by eapply opened_ok|].
    by eapply opened_short.
Qed.

Lemma hears_lookup sc e ls l j d : hears sc e ls l → e = (j + S (2 * d))%nat → in_reach e j →
  ∃ i w, l !! i = Some (j, w).
Proof.
  intros [Ht _ _] He Hr. assert (Hj : j ∈ l.*1).
  { rewrite <-(reverse_Permutation l.*1), Ht. apply (heard_turns_elem _ _ _ d He).
    unfold in_reach, MAX_RECEIVER_CHAINS in *. lia. }
  apply list_elem_of_lookup in Hj as [i Hi]. rewrite list_lookup_fmap in Hi.
  destruct (l !! i) as [[j' w]|] eqn:E; [|done]. cbn in Hi. simplify_eq. by exists i, w.
Qed.

Lemma hears_write sc e (y : Side) text l : hears sc e (letters y) l → hears sc e (letters (write y text)) l.
Proof.
  intros [Ht Hd Ho]. split; [done..|]. eapply Forall_impl; [exact Ho|]. intros [j w] [Hw Hr].
  rewrite opened_numbers_write. split; [done|]. cbn. rewrite length_app. cbn. lia.
Qed.

(** Opening letter [i] of a chain that is known *)
Lemma hears_mark sc e ls l i k lt w w' :
  hears sc e ls l → ls !! i = Some lt → l !! k = Some (l_turn lt, w) →
  opened 0 (l_number lt :: opened_numbers ls (l_turn lt)) w' → (reached w' <= length ls)%nat →
  hears sc e (alter open_letter i ls) (<[k := (l_turn lt, w')]> l).
Proof.
  intros [Ht Hd Ho] Hi Hk Hw Hr.
  assert (E : (<[k := (l_turn lt, w')]> l).*1 = l.*1).
  { rewrite list_fmap_insert. apply list_insert_id. by rewrite list_lookup_fmap, Hk. }
  split; [by rewrite E|by rewrite E|]. rewrite length_alter.
  apply Forall_lookup. intros k' [j w0] Hk'.
  assert (Hkl : (k < length l)%nat) by by eapply lookup_lt_Some.
  destruct (decide (k = k')) as [<-|Hne].
  - rewrite list_lookup_insert_eq in Hk' by done. simplify_eq. split; [|done].
    eapply opened_iff; [|exact Hw]. intros n. rewrite (opened_numbers_mark ls i lt) by done.
    rewrite elem_of_cons. naive_solver.
  - rewrite list_lookup_insert_ne in Hk' by done.
    pose proof (Forall_lookup_1 _ _ _ _ Ho Hk') as [H1 H2]. split; [|done].
    eapply opened_iff; [|exact H1]. intros n. rewrite (opened_numbers_mark ls i lt) by done.
    split; [tauto|]. intros [|[<- _]]; [done|]. exfalso. apply Hne.
    eapply (NoDup_lookup (l.*1)); [by apply NoDup_fmap_1 in Hd| |];
      rewrite list_lookup_fmap; [by rewrite Hk|by rewrite Hk'].
Qed.

(** A new turn, of which nothing has been opened *)
Lemma hears_new sc e ls l :
  hears sc e ls l → turn_public sc (S e) ∉ turn_public sc <$> l.*1 →
  opened_numbers ls (S e) = [] →
  hears sc (S (S e)) ls (latest (l ++ [(S e, fresh_window)])).
Proof.
  intros [Ht Hd Ho] Hnew Hn. unfold latest.
  assert (Hsub : sublist (drop (length (l ++ [(S e, fresh_window)]) - MAX_RECEIVER_CHAINS)
    (l ++ [(S e, fresh_window)])) (l ++ [(S e, fresh_window)])) by apply sublist_drop.
  split.
  - rewrite fmap_drop, fmap_app. cbn [fmap list_fmap fst].
    replace (length (l ++ [(S e, fresh_window)])) with (length (l.*1 ++ [S e]))
      by (rewrite !length_app, length_fmap; done).
    rewrite <-take_reverse, reverse_app, Ht. symmetry. apply heard_turns_next.
  - eapply sublist_NoDup; [|apply fmap_sublist, fmap_sublist, Hsub].
    rewrite !fmap_app. apply NoDup_app. split; [done|]. split; [|apply NoDup_singleton].
    intros k Hk ->%list_elem_of_singleton. done.
  - apply (sublist_all _ _ _ Hsub). apply Forall_app. split; [done|]. constructor; [|done].
    rewrite Hn. cbn. split; [by split|lia].
Qed.

(** ** Saying *)

Definition write_end x (text : bytes) (message : Sealed) (s : SessionState) : End :=
  MkEnd (write (side x) text) (identity x) (end_address x) (windows x)
    (sealed_letters x ++ [message]) s.

Definition with_session x (s : SessionState) : End :=
  MkEnd (side x) (identity x) (end_address x) (windows x) (sealed_letters x) s.

Context {laws : SignalLaws} {agree : AgreementLaws} {glaws : CsprngLaws}.

Lemma linked_with_session sc x y s :
  linked sc x y → ss_pq_ratchet_state s = ss_pq_ratchet_state (session x) →
  session_in_turn sc (turn (side x)) (sent (side x)) (windows x) (identity x) (identity y)
    (ss_pq_ratchet_state s) s →
  linked sc (with_session x s) y.
Proof.
  intros [H1 H2 [] H4 H5] Hpq Hs. split; [done|done|by split| |by cbn; rewrite Hpq].
  destruct H4. by split.
Qed.

Lemma linked_say sc x y :
  linked sc x y → (length (letters (side x)) < MAX_MESSAGE_KEYS)%nat →
  ∃ t, outgoing_from_session (session x) = Ok t
    ∧ ot_version t = 4 ∧ ot_local_identity t = identity x ∧ ot_remote_identity t = identity y
    ∧ ∀ text (addressed : bool) g, ∃ g' t' pq m,
        triple_encrypt t text (if addressed then Some (end_address x) else None) (end_address y) g
        = (g', Ok (t', m))
        ∧ linked sc (write_end x text (pq, m) (outgoing_apply t' (session x))) y.
Proof using laws agree pqlaws.
  intros [Hsc Ht Hx Hy Hpq] Hmax. destruct (Hx) as [Hs Hix Hl Hshort Hse Hh].
  pose proof (letters_sent _ _ Hl) as Hsent.
  eexists. split; [eapply (outgoing_in_turn sc _ (turn (side x))); [exact Hsc|lia|exact Hix|apply Hy|exact Hs]|].
  split_and!; [done..|]. intros text addressed g.
  assert (Hsends : (length (history_of x) < MAX_MESSAGE_KEYS)%nat)
    by (eapply Nat.le_lt_trans; [apply history_length|exact Hmax]).
  destruct (pq_send _ _ _ _ g Hpq Hsends) as (g' & pq' & key & msg & Hsend & Hpq').
  destruct (triple_encrypt_letter sc (turn (side x)) (sent (side x)) (identity x) (identity y)
    (end_address x) (end_address y) addressed (ss_previous_counter (session x)) _ text g g' pq' msg key Hsend)
    as (m & Hm & Hletter).
  { apply (session_previous _ _ _ _ _ _ _ _ Hs). }
  { unfold MAX_MESSAGE_KEYS, u32_max in *. lia. }
  eexists g', _, (msg, key), m. split; [exact Hm|].
  split; cbn [write_end side write turn identity end_address windows sealed_letters session]; [done|done| | |].
  - split; cbn [write_end side turn sent identity end_address windows sealed_letters session];
      [|done|by apply letters_ok_write|cbn; rewrite length_app; cbn; lia| |done].
    + by eapply apply_outgoing.
    + cbn. apply Forall2_app; [done|]. by repeat constructor.
  - destruct Hy as [? ? Hly ? ? Hhy]. split; try done. by apply hears_write.
  - unfold history_of. cbn [write_end side write letters sealed_letters].
    rewrite history_app; [exact Hpq'|by eapply Forall2_length].
Qed.

(** ** Hearing *)

Definition mark_end y (i : nat) : End :=
  MkEnd (mark (side y) i) (identity y) (end_address y) (windows y) (sealed_letters y) (session y).

Definition answer_end x (j : nat) (l : list (nat * Window)) (s : SessionState) : End :=
  MkEnd (answer (side x) j) (identity x) (end_address x) l (sealed_letters x) s.

(** A letter is of a turn that has been heard, or of the next one. *)
Lemma letter_turn sc x y i lt : linked sc x y → letters (side y) !! i = Some lt →
  l_turn lt = S (turn (side x)) ∨ ∃ d, turn (side x) = (l_turn lt + S (2 * d))%nat.
Proof.
  intros [_ Ht _ Hy _] Hi.
  pose proof (Forall_lookup_1 _ _ _ _ (letters_turn _ _ (half_letters _ _ _ Hy)) Hi) as [k Hk].
  destruct Ht as [Ht|Ht]; [|right; exists k; lia].
  destruct k as [|k]; [left; lia|right; exists k; lia].
Qed.

Lemma letter_message sc x y i lt pq m : linked sc x y →
  letters (side y) !! i = Some lt → sealed_letters y !! i = Some (pq, m) →
  letter sc (identity y) (identity x) (end_address y) (end_address x) (l_turn lt) (l_number lt)
    (l_text lt) pq m
  ∧ (l_number lt < length (letters (side y)))%nat
  ∧ (length (letters (side y)) <= MAX_MESSAGE_KEYS)%nat.
Proof.
  intros [_ _ _ Hy _] Hi Hm. split; [|split; [|apply Hy]].
  - pose proof (Forall2_lookup_lr _ _ _ _ _ _ (half_sealed _ _ _ Hy) Hi Hm) as H. exact H.
  - exact (Forall_lookup_1 _ _ _ _ (letters_number _ _ (half_letters _ _ _ Hy)) Hi).
Qed.

(** The window a letter of a known chain is opened with, and how *)
Lemma letter_window sc x y i lt d : linked sc x y → letters (side y) !! i = Some lt →
  turn (side x) = (l_turn lt + S (2 * d))%nat → in_reach (turn (side x)) (l_turn lt) →
  ∃ k w, windows x !! k = Some (l_turn lt, w) ∧
    let '(w', a) := open_window w (l_number lt) in
    a = (if l_opened lt then AlreadyOpened else Opened)
    ∧ (reached w' <= length (letters (side y)))%nat
    ∧ opened 0 (l_number lt :: opened_numbers (letters (side y)) (l_turn lt)) w'.
Proof.
  intros [_ _ Hx Hy _] Hi Hd Hr.
  destruct (hears_lookup _ _ _ _ _ d (half_hears _ _ _ Hx) Hd Hr) as (k & w & Hk).
  exists k, w. split; [done|].
  pose proof (Forall_lookup_1 _ _ _ _ (hears_opened _ _ _ _ (half_hears _ _ _ Hx)) Hk) as [Ho Hle].
  pose proof (Forall_lookup_1 _ _ _ _ (letters_number _ _ (half_letters _ _ _ Hy)) Hi) as Hn.
  pose proof (opened_step 0 _ w _ (l_number lt) Ho Hle (half_short _ _ _ Hy) Hn) as Hstep.
  cbn [Nat.add] in Hstep. destruct (open_window w (l_number lt)) as [w' a].
  destruct Hstep as (-> & Ho' & Hle'). split; [|done].
  pose proof (letter_opened _ _ _ _ (half_letters _ _ _ Hy) Hi) as Hiff.
  destruct (l_opened lt); [rewrite decide_True by tauto; done|rewrite decide_False by naive_solver; done].
Qed.

(** A letter is not opened twice. *)
Lemma linked_again sc x y i lt pq m t g :
  linked sc x y → letters (side y) !! i = Some lt → sealed_letters y !! i = Some (pq, m) →
  l_opened lt = true → in_reach (turn (side x)) (l_turn lt) →
  ∃ current, try_decrypt_with_state (session x) (end_address y) (end_address x) m t g
    = (g, Err (DuplicatedMessage current (N.of_nat (l_number lt)))).
Proof using laws agree.
  intros H Hi Hm Ho Hr. destruct (letter_message _ _ _ _ _ _ _ H Hi Hm) as (Hletter & Hn & Hmax).
  assert (Hd : ∃ d, turn (side x) = (l_turn lt + S (2 * d))%nat).
  { destruct (letter_turn _ _ _ _ _ H Hi) as [E|]; [|done].
    pose proof (Forall_lookup_1 _ _ _ _
      (letters_opened _ _ (half_letters _ _ _ (linked_back _ _ _ H))) Hi Ho). cbn in *. lia. }
  destruct Hd as [d Hd]. destruct (letter_window _ _ _ _ _ d H Hi Hd Hr) as (k & w & Hk & Hw).
  rewrite Ho in Hw. destruct H as [Hsc Ht Hx Hy Hpq]. destruct pq as [msg key].
  pose proof (try_decrypt_known sc _ (turn (side x)) (sent (side x)) (windows x) (identity x) (identity y)
    (end_address y) (end_address x) (ss_pq_ratchet_state (session x)) (session x) (l_turn lt) (l_number lt) w (l_text lt) msg key m t g k Hsc ltac:(lia)
    (half_identity _ _ _ Hx) (half_identity _ _ _ Hy)
    (hears_windows _ _ _ _ Hmax (half_hears _ _ _ Hx)) (half_session _ _ _ Hx) Hk Hletter) as Hopen.
  destruct (open_window w (l_number lt)) as [w' a]. destruct Hw as [-> _].
  apply Hopen. unfold MAX_MESSAGE_KEYS, u32_max in *. lia.
Qed.

Lemma hears_extend sc e ls l i kp : (length ls <= MAX_MESSAGE_KEYS)%nat → (e <= i)%nat →
  hears sc e ls l → hears (extend sc i kp) e ls l.
Proof using agreement crypto.
  intros Hls He H. pose proof (hears_windows _ _ _ _ Hls H) as Hw. destruct H as [Ht Hd Ho].
  split; [done| |done]. by rewrite <-peers_fst, (peers_extend sc e), peers_fst by done.
Qed.

Definition seals sc x y (ls : list Letter) : Prop :=
  Forall2 (λ l '(pq, m),
    letter sc (identity x) (identity y) (end_address x) (end_address y) (l_turn l) (l_number l)
      (l_text l) pq m) ls (sealed_letters x).

Lemma seals_mark sc x y ls i : seals sc x y ls → seals sc x y (alter open_letter i ls).
Proof. intros H. apply Forall2_alter_l; [exact H|]. by intros l [pq m] _ _. Qed.

Lemma seals_extend sc x y ls i kp : Forall (λ l, l_turn l < i)%nat ls → seals sc x y ls →
  seals (extend sc i kp) x y ls.
Proof.
  intros Hls H. unfold seals in *. revert Hls. induction H as [|l [pq m] ls ms Hl H IH]; intros Hls;
    constructor; inversion_clear Hls; [by apply letter_extend|by apply IH].
Qed.

Lemma letters_bound (x : Side) e i : letters_ok x e → (turn x < i)%nat → Forall (λ l, l_turn l < i)%nat (letters x).
Proof.
  intros H Hi. eapply Forall_impl; [apply (letters_turn _ _ H)|]. intros l [k Hk]. lia.
Qed.

(** The post-quantum side of hearing letter [i] *)
Lemma linked_recv sc x y i lt pq m : linked sc x y → letters (side y) !! i = Some lt →
  sealed_letters y !! i = Some (pq, m) → l_opened lt = false → keeps_epoch x pq.1 →
  ∃ pq', spqr_recv (ss_pq_ratchet_state (session x)) pq.1 = Ok (pq', pq.2)
    ∧ pq_linked pq' (ss_pq_ratchet_state (session y)) (history_of x) (history_of (mark_end y i)).
Proof using pqlaws.
  intros [_ _ _ Hy Hpq] Hi Hm Ho He. apply pq_sym in Hpq.
  pose proof (history_lookup _ _ _ _ _ Hi Hm) as Hk. rewrite Ho in Hk.
  destruct (pq_recv _ _ _ _ i pq.1 pq.2 Hpq) as (pq' & Hrecv & Hpq').
  { etrans; [apply history_length|apply Hy]. }
  { exact Hk. }
  { by apply keeps_epoch_history. }
  exists pq'. split; [exact Hrecv|]. apply pq_sym. unfold history_of.
  cbn [mark_end side mark letters sealed_letters]. by rewrite history_open.
Qed.

Lemma mark_half sc x x' y i lt e :
  half sc y x → letters (side y) !! i = Some lt → (l_turn lt < e)%nat →
  (turn (side x) <= e)%nat → turn (side x') = e →
  identity x' = identity x → end_address x' = end_address x → letters (side x') = letters (side x) →
  half sc (mark_end y i) x'.
Proof.
  intros [Hs Hid Hl Hsh Hse Hh] Hi Hlt He Ht Ei Ea El.
  split; cbn [mark_end side mark turn sent letters identity windows session end_address sealed_letters].
  - by rewrite Ei.
  - done.
  - rewrite Ht. eapply letters_ok_mark; [by eapply letters_ok_later|done|done].
  - by rewrite length_alter.
  - rewrite Ei, Ea. by apply seals_mark.
  - by rewrite El.
Qed.

(** The first letter heard of a new turn *)
Lemma linked_hear_new sc x y i lt pq m t g :
  linked sc x y → letters (side y) !! i = Some lt → sealed_letters y !! i = Some (pq, m) →
  l_opened lt = false → keeps_epoch x pq.1 → l_turn lt = S (turn (side x)) →
  turn_public sc (l_turn lt) ∉ turn_public sc <$> (windows x).*1 →
  ∃ g' s' sc' l',
    try_decrypt_with_state (session x) (end_address y) (end_address x) m t g = (g', Ok (s', l_text lt))
    ∧ acknowledged (session x) s' ∧ linked sc' (answer_end x (l_turn lt) l' s') (mark_end y i)
    ∧ turn_public sc' 0 = turn_public sc 0
    ∧ ∀ j, j ∈ l'.*1 → j ∈ (windows x).*1 ∨ j = l_turn lt.
Proof using laws agree glaws pqlaws.
  intros H Hi Hm Ho He E Hfresh.
  destruct (letter_message _ _ _ _ _ _ _ H Hi Hm) as (Hletter & Hn & Hmax).
  destruct (linked_recv _ _ _ _ _ _ _ H Hi Hm Ho He) as (pq' & Hrecv & Hpq').
  pose proof H as [Hsc Ht Hx Hy _]. pose proof Hx as [Hs Hid Hl Hsh Hse Hh]. destruct pq as [msg key].
  pose proof (hears_windows _ _ _ _ Hmax Hh) as Hw. pose proof (half_identity _ _ _ Hy) as Hidy.
  assert (Hty : turn (side y) = S (turn (side x))).
  { pose proof (Forall_lookup_1 _ _ _ _ (letters_turn _ _ (half_letters _ _ _ Hy)) Hi) as [k Hk]. lia. }
  rewrite E in Hfresh, Hletter |- *. rewrite Hty in Hsc. rewrite Nat.max_r in Hsc by lia.
  set (e := turn (side x)) in *.
  destruct (try_decrypt_new sc e (sent (side x)) (windows x) (identity x) (identity y)
    (end_address y) (end_address x) _ (session x) (l_number lt) (l_text lt) msg key m t g pq'
    Hsc Hid Hidy Hw Hs Hfresh) as (s' & g' & kp & k & w' & Hkp & Htry & Hop & Hk & Hs' & Hack); try done.
  { pose proof (letters_sent _ _ Hl). unfold MAX_MESSAGE_KEYS, u32_max in *. lia. }
  { lia. }
  assert (Hempty : opened_numbers (letters (side y)) (S e) = []).
  { apply elem_of_nil_inv. intros n (i' & l' & Hi' & E1 & _ & Ho')%opened_numbers_elem.
    pose proof (Forall_lookup_1 _ _ _ _ (letters_opened _ _ (half_letters _ _ _ Hy)) Hi' Ho') as Hlt.
    cbn in Hlt. fold e in Hlt. lia. }
  assert (Hopen : opened 0 (l_number lt :: opened_numbers (letters (side y)) (l_turn lt)) w'
    ∧ (reached w' <= length (letters (side y)))%nat).
  { rewrite E, Hempty.
    pose proof (opened_step 0 [] fresh_window _ (l_number lt) ltac:(split; [done|constructor|done]) ltac:(cbn; lia)
      Hmax Hn) as Hstep. cbn [Nat.add] in Hstep. rewrite Hop in Hstep. tauto. }
  set (sc' := extend sc (S (S e)) kp) in *.
  assert (Hans : answer (side x) (S e) = MkSide (S (S e)) 0 (letters (side x))).
  { unfold answer. by rewrite decide_True. }
  exists g', s', sc', (<[k := (S e, w')]> (latest (windows x ++ [(S e, fresh_window)]))).
  split; [done|]. split; [done|]. split; [|split; [unfold turn_public, sc'; by rewrite extend_other by lia|]].
  2:{ rewrite list_fmap_insert, list_insert_id by (by rewrite list_lookup_fmap, Hk).
      intros j Hj. eapply elem_of_sublist in Hj; [|apply fmap_sublist, latest_sublist].
      rewrite fmap_app, elem_of_app in Hj.
      destruct Hj as [|Hj%list_elem_of_singleton]; [by left|by right]. }
  split; cbn [answer_end mark_end side mark turn session].
  + rewrite Hans, Hty. cbn [turn]. rewrite Nat.max_l by lia. by apply schedule_extend.
  + rewrite Hans, Hty. cbn [turn]. right. done.
  + split; cbn [answer_end mark_end side identity windows session sealed_letters end_address];
      rewrite ?Hans; cbn [turn sent letters mark].
    * rewrite (session_pq _ _ _ _ _ _ _ _ Hs'). exact Hs'.
    * done.
    * rewrite <-Hans. pose proof (letters_ok_answer _ _ Hl) as Ha. by rewrite Hty in *.
    * done.
    * apply seals_extend; [eapply letters_bound; [exact Hl|unfold e; lia]|exact Hse].
    * rewrite <-E in Hk |- *. apply (hears_mark _ _ _ _ _ _ _ fresh_window); [|done|done|apply Hopen..].
      rewrite E. unfold sc'. apply hears_new.
      -- by apply hears_extend; [|lia|].
      -- rewrite <-peers_fst, (peers_extend sc e), peers_fst by (done || lia).
         unfold turn_public. by rewrite extend_other by lia.
      -- done.
  + apply (mark_half _ x _ _ _ lt (S (S e))); cbn [answer_end side]; try done; [|lia|unfold e; lia|by rewrite Hans|by rewrite Hans].
    destruct Hy as [Hsy _ Hly Hshy Hsey Hhy]. pose proof (hears_windows _ _ _ _ Hsh Hhy) as Hwy.
    split; try done.
    * by apply session_extend; [|lia|].
    * apply seals_extend; [eapply letters_bound; [exact Hly|lia]|exact Hsey].
    * by apply hears_extend; [|lia|].
  + rewrite (session_pq _ _ _ _ _ _ _ _ Hs'). unfold history_of at 1.
    cbn [answer_end side sealed_letters]. rewrite Hans. exact Hpq'.
Qed.

(** A letter of a chain that is known *)
Lemma linked_hear_known sc x y i lt pq m t g d :
  linked sc x y → letters (side y) !! i = Some lt → sealed_letters y !! i = Some (pq, m) →
  l_opened lt = false → keeps_epoch x pq.1 →
  turn (side x) = (l_turn lt + S (2 * d))%nat → in_reach (turn (side x)) (l_turn lt) →
  ∃ g' s' sc' l',
    try_decrypt_with_state (session x) (end_address y) (end_address x) m t g = (g', Ok (s', l_text lt))
    ∧ acknowledged (session x) s' ∧ linked sc' (answer_end x (l_turn lt) l' s') (mark_end y i)
    ∧ turn_public sc' 0 = turn_public sc 0
    ∧ ∀ j, j ∈ l'.*1 → j ∈ (windows x).*1 ∨ j = l_turn lt.
Proof using laws agree pqlaws.
  intros H Hi Hm Ho He Hd Hr.
  destruct (letter_message _ _ _ _ _ _ _ H Hi Hm) as (Hletter & Hn & Hmax).
  destruct (linked_recv _ _ _ _ _ _ _ H Hi Hm Ho He) as (pq' & Hrecv & Hpq').
  pose proof H as [Hsc Ht Hx Hy _]. pose proof Hx as [Hs Hid Hl Hsh Hse Hh]. destruct pq as [msg key].
  pose proof (hears_windows _ _ _ _ Hmax Hh) as Hw. pose proof (half_identity _ _ _ Hy) as Hidy.
  destruct (letter_window _ _ _ _ _ d H Hi Hd Hr) as (k & w & Hk & Hwin). rewrite Ho in Hwin.
  pose proof (try_decrypt_known sc _ (turn (side x)) (sent (side x)) (windows x) (identity x) (identity y)
    (end_address y) (end_address x) _ (session x) (l_turn lt) (l_number lt) w (l_text lt) msg key m t g k
    Hsc ltac:(lia) Hid Hidy Hw Hs Hk Hletter) as Hopen.
  destruct (open_window w (l_number lt)) as [w' a]. destruct Hwin as (-> & Hle & Hop).
  destruct (Hopen) with (pq' := pq') as (s' & Htry & Hs' & Hack); try done.
  { unfold MAX_MESSAGE_KEYS, u32_max in *. lia. }
  assert (Hans : answer (side x) (l_turn lt) = side x).
  { unfold answer. rewrite decide_False by lia. done. }
  exists g, s', sc, (<[k := (l_turn lt, w')]> (windows x)). split; [done|]. split; [done|].
  split; [|split; [done|]].
  2:{ rewrite list_fmap_insert, list_insert_id by (by rewrite list_lookup_fmap, Hk). by left. }
  split; cbn [answer_end mark_end side mark turn session]; rewrite ?Hans; try done.
  + split; cbn [answer_end mark_end side identity windows session sealed_letters end_address];
      rewrite ?Hans; try done.
    * rewrite (session_pq _ _ _ _ _ _ _ _ Hs'). exact Hs'.
    * by eapply hears_mark.
  + apply (mark_half _ x _ _ _ lt (turn (side x))); cbn [answer_end side]; rewrite ?Hans; try done. lia.
  + rewrite (session_pq _ _ _ _ _ _ _ _ Hs'). unfold history_of at 1.
    cbn [answer_end side sealed_letters]. rewrite Hans. exact Hpq'.
Qed.

(** A letter that has not been opened is opened, and its text is the one that was written.
    The first letter of a new turn must come with a new key. *)
Lemma linked_hear sc x y i lt pq m t g :
  linked sc x y → letters (side y) !! i = Some lt → sealed_letters y !! i = Some (pq, m) →
  l_opened lt = false → keeps_epoch x pq.1 → in_reach (turn (side x)) (l_turn lt) →
  (l_turn lt = S (turn (side x)) → turn_public sc (l_turn lt) ∉ turn_public sc <$> (windows x).*1) →
  ∃ g' s' sc' l',
    try_decrypt_with_state (session x) (end_address y) (end_address x) m t g = (g', Ok (s', l_text lt))
    ∧ acknowledged (session x) s' ∧ linked sc' (answer_end x (l_turn lt) l' s') (mark_end y i)
    ∧ turn_public sc' 0 = turn_public sc 0
    ∧ ∀ j, j ∈ l'.*1 → j ∈ (windows x).*1 ∨ j = l_turn lt.
Proof using laws agree glaws pqlaws.
  intros H Hi Hm Ho He Hr Hfresh. destruct (letter_turn _ _ _ _ _ H Hi) as [E|[d Hd]].
  - eapply linked_hear_new; eauto.
  - eapply linked_hear_known; eauto.
Qed.
End linked.

(** * From a bundle to two sessions

    The post-quantum handshake ([pqxdh.rs]) gives the initiator and the recipient the same
    keys, and the sessions [ratchet.rs] makes of them carry a correspondence in which
    nothing has been written yet. *)

Local Open Scope N_scope.

Section contact.
Context {crypto : SignalCrypto} {agreement : AgreementPrimitives} {csprng : Csprng}.
Context {prim : kem.KemPrimitives} {spqr : Spqr} {codec : SessionCodec}.
Context {laws : SignalLaws} {agree : AgreementLaws} {glaws : CsprngLaws} {klaws : kem.KemLaws}.
Context {pqlaws : SpqrLaws}.

Definition identity_pair (k : IdentityKeyPair) : KeyPair :=
  MkKeyPair (identity_public_key (ik_identity_key k)) (ik_private_key k).

Context (ours theirs : IdentityKeyPair) (base signed : KeyPair) (one_time : option KeyPair).
Context (kyber : kem.KeyPair) (self : bool).
Context (Hours : sound_pair (identity_pair ours)) (Htheirs : sound_pair (identity_pair theirs)).
Context (Hbase : sound_pair base) (Hsigned : sound_pair signed).
Context (Hone_time : ∀ kp, one_time = Some kp → sound_pair kp) (Hkyber : kem.generated kyber).

Definition initiator : InitiatorParameters :=
  MkInitiator ours base (ik_identity_key theirs) (kp_public signed) (kp_public <$> one_time)
    (kp_public signed) (kem.public_key kyber) self.

Definition recipient (ct : bytes) : RecipientParameters :=
  MkRecipient theirs signed one_time kyber (ik_identity_key ours) (kp_public base) ct self.

Lemma agreed kp kp' : sound_pair kp → sound_pair kp' →
  ∃ s, calculate_agreement (kp_private kp) (kp_public kp') = Ok s
    ∧ calculate_agreement (kp_private kp') (kp_public kp) = Ok s.
Proof using agree.
  intros H H'. eexists. split; [by apply agreement_ok|].
  rewrite agreement_comm by done. by apply agreement_ok.
Qed.

Lemma secrets_agree ct : ∃ secrets,
  initiator_secrets initiator = Ok secrets ∧ recipient_secrets (recipient ct) = Ok secrets.
Proof using agree Hours Htheirs Hbase Hsigned Hone_time.
  unfold initiator_secrets, recipient_secrets.
  cbn [initiator recipient ip_our_identity ip_our_ephemeral ip_their_identity ip_their_signed_pre_key
    ip_their_one_time_pre_key rp_our_identity rp_our_signed_pre_key rp_our_one_time_pre_key
    rp_their_identity rp_their_ephemeral].
  destruct (agreed (identity_pair ours) signed Hours Hsigned) as (s1 & A1 & B1).
  destruct (agreed base (identity_pair theirs) Hbase Htheirs) as (s2 & A2 & B2).
  destruct (agreed base signed Hbase Hsigned) as (s3 & A3 & B3). cbn [identity_pair kp_public kp_private] in *.
  rewrite A1, B1, A2, B2, A3, B3. destruct one_time as [kp|]; cbn [fmap option_fmap option_map]; [|by eexists].
  destruct (agreed base kp Hbase (Hone_time kp eq_refl)) as (s4 & -> & ->). by eexists.
Qed.

Lemma handshake_agrees g : ∃ g' ct secret,
  pqxdh_initiate initiator g = (g', Ok (ct, handshake_derive secret))
  ∧ pqxdh_accept (recipient ct) = Ok (handshake_derive secret).
Proof using agree klaws Hours Htheirs Hbase Hsigned Hone_time Hkyber.
  destruct Hkyber as (t & g0 & Ek).
  pose proof (kem.decapsulate_encapsulate t g0 g) as (g' & ss & ct & Henc & Hdec). rewrite <-Ek in *.
  destruct (secrets_agree ct) as (secrets & Hi & Hr).
  exists g', ct, (secrets ++ ss). unfold pqxdh_initiate, pqxdh_accept. rewrite Hi, Hr.
  change (ip_their_kyber_pre_key initiator) with (kem.public_key kyber). rewrite Henc. split; [done|].
  destruct Hbase as (_ & _ & Hc & Hd). destruct (derived_canonical _ Hc) as [C1 C2].
  assert (Hcan : is_canonical (rp_their_ephemeral (recipient ct)) = true).
  { unfold is_canonical. cbn [recipient rp_their_ephemeral]. by rewrite Hd, C1, C2. }
  rewrite Hcan. cbn [negb].
  change (rp_our_kyber_pre_key (recipient ct)) with kyber.
  change (rp_their_kyber_ciphertext (recipient ct)) with ct. by rewrite Hdec.
Qed.

(** The schedule of a new session *)
Definition first_schedule (keys : HandshakeKeys) (ratchet : KeyPair) : Schedule :=
  MkSchedule (root_key keys) (ck_key (hk_chain_key keys))
    (λ j, match j with 1%nat => ratchet | _ => signed end).

Lemma first_schedule_ok secret ratchet : sound_pair ratchet →
  schedule_ok (first_schedule (handshake_derive secret) ratchet) 1.
Proof using laws Hsigned.
  intros Hr. assert (Hl : ∀ okm : bytes, length okm = 96%nat →
    length (take 32 okm) = 32%nat ∧ length (take 32 (drop 32 okm)) = 32%nat).
  { intros okm E. by rewrite !length_take, length_drop, E. }
  destruct (Hl (hkdf None secret (String.list_byte_of_string
    "WhisperText_X25519_SHA-256_CRYSTALS-KYBER-1024") 96)) as [H1 H2]; [apply hkdf_length|].
  split; [exact H1|exact H2|]. intros [|[|j]] _; done.
Qed.

Definition first_end (k : IdentityKeyPair) (a : ProtocolAddress) (turn : nat) (l : list (nat * Window))
    (s : SessionState) : End := MkEnd (MkSide turn 0 []) (ik_identity_key k) a l [] s.

Lemma no_letters turn e : letters_ok (MkSide turn 0 []) e.
Proof. split; cbn; try constructor; lia. Qed.

(** Both sessions, and the correspondence they begin *)
Lemma sessions_agree from to g : ∃ g' ct s s' sc,
  initialize_alice_session initiator g = (g', Ok (set_kyber_ciphertext s ct))
  ∧ initialize_bob_session (recipient ct) signed = Ok s'
  ∧ linked sc (first_end ours from 1 [(0%nat, fresh_window)] s) (first_end theirs to 0 [] s')
  ∧ turn_public sc 0 = kp_public signed
  ∧ ss_alice_base_key s' = public_serialize (kp_public base) ∧ ss_pending_pre_key s' = None.
Proof using laws agree glaws klaws pqlaws Hours Htheirs Hbase Hsigned Hone_time Hkyber.
  destruct (handshake_agrees g) as (g1 & ct & secret & Hi & Ha).
  unfold initialize_alice_session. rewrite Hi. clear Hi.
  pose proof (generate_pair_sound g1) as Hr. destruct (generate_pair g1) as [ratchet g2]. cbn [fst] in Hr.
  set (keys := handshake_derive secret). set (sc := first_schedule keys ratchet).
  pose proof (first_schedule_ok secret ratchet Hr) as Hsc. fold keys sc in Hsc.
  pose proof (create_own sc 1 0 Hsc ltac:(lia)) as Hc.
  change (create_chain (root_key keys) (ip_their_ratchet_key initiator) (kp_private ratchet)) with
    (create_chain (root_of sc 0) (turn_public sc 0) (kp_private (turn_key sc 1))). rewrite Hc.
  destruct (pq_initial (pqr_key keys) (spqr_max_jump self) spqr_max_ooo_keys) as (a & b & Ea & Eb & Hab).
  { unfold spqr_max_jump. destruct self; unfold MAX_FORWARD_JUMPS, MAX_MESSAGE_KEYS, u32_max; lia. }
  { done. }
  unfold initial_pq_state. cbn [initiator ip_self_session]. rewrite Ea.
  eexists g2, ct, _, _, sc. split; [reflexivity|]. split.
  { unfold initialize_bob_session. rewrite Ha. unfold initial_pq_state. fold keys. cbn [recipient rp_self_session].
    rewrite Eb. reflexivity. }
  assert (Hst : sound_identity (ik_identity_key theirs)) by apply Htheirs.
  assert (Hso : sound_identity (ik_identity_key ours)) by apply Hours.
  split; [|by split_and!]. split; cbn [first_end side turn]; [done|by right| | |exact Hab].
  - split; cbn [first_end side turn sent letters identity windows end_address sealed_letters].
    + by split.
    + done.
    + apply no_letters.
    + cbn. lia.
    + constructor.
    + split; [done|cbn; apply NoDup_singleton|]. constructor; [|done]. split; [|cbn; lia].
      split; [done|constructor|done].
  - split; cbn [first_end side turn sent letters identity windows end_address sealed_letters].
    + by split.
    + done.
    + apply no_letters.
    + cbn. lia.
    + constructor.
    + split; [done|constructor|constructor].
Qed.
End contact.
