(* ===== verification/Participant.v ===== *)
(** * A Signal participant

    [Signal_containerized/src/signal_participant.rs] and the methods [sender_keys.rs]
    adds to it: its identity and prekeys, the bundles it publishes, its pairwise sessions
    and its sender key.  [PairwiseLibrary] is libsignal's session management.  Profiling
    contexts, which only label measurements, are left out. *)

From S2P Require Import Prelude Text Interaction HttpRetry SenderKeyState GroupCipher PreKeys.
From stdpp Require Import options.

Local Open Scope N_scope.

(** ** Errors as text *)

(** The [uuid] crate's rendering *)
Class UuidText := uuid_text : N → string.

(** [{:#04x}] *)
Definition hex_byte (b : Byte.byte) : string :=
  let n := Byte.to_N b in
  "0x" +:+ String (hex_digit (n `div` 16)) (String (hex_digit (n mod 16)) "").

Definition curve_display (e : CurveError) : string :=
  match e with
  | NoKeyTypeIdentifier => "no key type identifier"
  | BadKeyType t => "bad key type <" +:+ hex_byte t +:+ ">"
  | BadKeyLength n => "bad key length <" +:+ pretty (N.of_nat n) +:+ "> for key with type <Djb>"
  | InvalidKeyAgreement => "invalid key agreement output (all-zero shared secret)"
  end.

Definition signal_display `{!UuidText} (e : SignalProtocolError) : string :=
  match e with
  | InvalidArgument what => "invalid argument: " +:+ what
  | InvalidState f what => "invalid state for call to " +:+ f +:+ " to succeed: " +:+ what
  | InvalidProtobufEncoding => "protobuf encoding was invalid"
  | CiphertextMessageTooShort n =>
      "ciphertext serialized bytes were too short <" +:+ pretty (N.of_nat n) +:+ ">"
  | LegacyCiphertextVersion v => "ciphertext version was too old <" +:+ pretty v +:+ ">"
  | UnrecognizedCiphertextVersion v =>
      "ciphertext version was unrecognized <" +:+ pretty v +:+ ">"
  | UnrecognizedMessageVersion v => "unrecognized message version <" +:+ pretty v +:+ ">"
  | FromCurve InvalidKeyAgreement => "invalid key agreement"
  | FromCurve e => curve_display e
  | SignatureValidationFailed => "invalid signature detected"
  | UntrustedIdentity a => "untrusted identity for address " +:+ a
  | InvalidPreKeyId => "invalid prekey identifier"
  | InvalidSignedPreKeyId => "invalid signed prekey identifier"
  | InvalidKyberPreKeyId => "invalid Kyber prekey identifier"
  | NoSenderKeyState id => "missing sender key state for distribution ID " +:+ uuid_text id
  | SessionNotFound a => "session with " +:+ a +:+ " not found"
  | InvalidSessionStructure what => "invalid session: " +:+ what
  | InvalidSenderKeySession id =>
      "invalid sender key session with distribution ID " +:+ uuid_text id
  | DuplicatedMessage current counter =>
      "message with old counter " +:+ pretty current +:+ " / " +:+ pretty counter
  | InvalidMessage t what => "invalid " +:+ t +:+ " message: " +:+ what
  | BadKEMKeyType t => "bad KEM key type <" +:+ hex_byte t +:+ ">"
  | WrongKEMKeyType found expected =>
      "unexpected KEM key type <" +:+ hex_byte found +:+ "> (expected <" +:+ hex_byte expected
      +:+ ">)"
  | BadKEMKeyLength t n =>
      "bad KEM key length <" +:+ pretty (N.of_nat n) +:+ "> for key with type <" +:+ t +:+ ">"
  | BadKEMCiphertextLength t n =>
      "bad KEM ciphertext length <" +:+ pretty (N.of_nat n) +:+ "> for key with type <" +:+ t
      +:+ ">"
  | InvalidMacKeyLength n => "invalid MAC key length <" +:+ pretty (N.of_nat n) +:+ ">"
  | Panicked what => what
  end.

(** [?] into [anyhow::Error]; the errors modelled here have no source. *)
Definition lift `{!UuidText} {A} (r : outcome A) : result Error A :=
  match r with Ok a => Ok a | Err e => Err (anyhow (signal_display e)) end.

(** ** Pairwise sessions *)

Class PairwiseLibrary {csprng : Csprng} := {
  SessionRecord : Type;
  SignalMessage : Type;
  PreKeySignalMessage : Type;
  signal_message_serialized : SignalMessage → bytes;
  signal_message_try_from : bytes → outcome SignalMessage;
  prekey_message_serialized : PreKeySignalMessage → bytes;
  prekey_message_try_from : bytes → outcome PreKeySignalMessage;
  (** Remote and local address, the stores it changes, the bundle, the time *)
  process_prekey_bundle :
    ProtocolAddress → ProtocolAddress → gmap ProtocolAddress SessionRecord → IdentityStore →
    PreKeyBundle → N → Rng →
    (gmap ProtocolAddress SessionRecord * IdentityStore * Rng) * outcome unit;
  message_encrypt :
    bytes → ProtocolAddress → ProtocolAddress → gmap ProtocolAddress SessionRecord →
    IdentityStore → N → Rng →
    (gmap ProtocolAddress SessionRecord * IdentityStore * Rng)
    * outcome (SignalMessage + PreKeySignalMessage);
  message_decrypt :
    SignalMessage + PreKeySignalMessage → ProtocolAddress → ProtocolAddress →
    gmap ProtocolAddress SessionRecord → IdentityStore → gmap N PreKeyRecord →
    gmap N SignedPreKeyRecord → KyberStore → Rng →
    (gmap ProtocolAddress SessionRecord * IdentityStore * gmap N PreKeyRecord * KyberStore * Rng)
    * outcome bytes;
}.

(** The two kinds of [CiphertextMessage] of a pairwise session *)
Abbreviation CiphertextMessage := (SignalMessage + PreKeySignalMessage)%type.
Abbreviation SessionStore := (gmap ProtocolAddress SessionRecord).

Definition DEFAULT_INITIAL_ONE_TIME_PREKEY_COUNT : N := 16.
Definition DEFAULT_ONE_TIME_PREKEY_REFILL_COUNT : N := 16.
Definition DEFAULT_ONE_TIME_PREKEY_LOW_WATERMARK : N := 4.
Definition LAST_RESORT_PQ_PREKEY_ID : N := u32_max.
Definition DEVICE_ID : N := 1.

(** The value of the environment variable, when it is set and readable *)
Definition env_positive_u32 (value : option string) (default_value : N) : N :=
  default default_value
    (let! v <- value in let! n <- parse_u32 v in if 0 <? n then Some n else None).

Definition env_usize (value : option string) (default_value : N) : N :=
  default default_value (let! v <- value in parse_usize v).

Section participant.
Context {crypto : SignalCrypto} {csprng : Csprng} {prim : kem.KemPrimitives}.
Context {pairwise : PairwiseLibrary} {text : UuidText}.

Definition serialize (c : CiphertextMessage) : bytes :=
  match c with
  | inl m => signal_message_serialized m
  | inr m => prekey_message_serialized m
  end.

(** [InMemSignalProtocolStore] *)
Record SignalStore := MkSignalStore {
  session_store : SessionStore;
  pre_key_store : gmap N PreKeyRecord;
  signed_pre_key_store : gmap N SignedPreKeyRecord;
  kyber_pre_key_store : KyberStore;
  identity_store : IdentityStore;
  sender_key_store : SenderKeyStore;
}.

Definition store_new (identity : IdentityKeyPair) (registration_id : N) : SignalStore :=
  MkSignalStore ∅ ∅ ∅ (MkKyberStore ∅ ∅) (MkIdentityStore identity registration_id ∅) ∅.

Record SignalParticipant := MkParticipant {
  name : string;
  address : ProtocolAddress;
  store : SignalStore;
  identity_key_pair : IdentityKeyPair;
  registration_id : N;
  signed_prekey_id : N;
  signed_prekey_record : SignedPreKeyRecord;
  last_resort_pq_prekey_id : N;
  last_resort_pq_prekey_record : SignedPreKeyRecord;
  next_one_time_prekey_id : N;
  initial_one_time_prekey_count : N;
  one_time_prekey_refill_count : N;
  one_time_prekey_low_watermark : N;
  rng : Rng;
  sender_key_id : option N;
}.

Definition set_store (p : SignalParticipant) (s : SignalStore) : SignalParticipant :=
  MkParticipant (name p) (address p) s (identity_key_pair p) (registration_id p)
    (signed_prekey_id p) (signed_prekey_record p) (last_resort_pq_prekey_id p)
    (last_resort_pq_prekey_record p) (next_one_time_prekey_id p)
    (initial_one_time_prekey_count p) (one_time_prekey_refill_count p)
    (one_time_prekey_low_watermark p) (rng p) (sender_key_id p).

Definition set_rng (p : SignalParticipant) (g : Rng) : SignalParticipant :=
  MkParticipant (name p) (address p) (store p) (identity_key_pair p) (registration_id p)
    (signed_prekey_id p) (signed_prekey_record p) (last_resort_pq_prekey_id p)
    (last_resort_pq_prekey_record p) (next_one_time_prekey_id p)
    (initial_one_time_prekey_count p) (one_time_prekey_refill_count p)
    (one_time_prekey_low_watermark p) g (sender_key_id p).

Definition set_next_id (p : SignalParticipant) (id : N) : SignalParticipant :=
  MkParticipant (name p) (address p) (store p) (identity_key_pair p) (registration_id p)
    (signed_prekey_id p) (signed_prekey_record p) (last_resort_pq_prekey_id p)
    (last_resort_pq_prekey_record p) id
    (initial_one_time_prekey_count p) (one_time_prekey_refill_count p)
    (one_time_prekey_low_watermark p) (rng p) (sender_key_id p).

Definition set_sender_key_id (p : SignalParticipant) (id : option N) : SignalParticipant :=
  MkParticipant (name p) (address p) (store p) (identity_key_pair p) (registration_id p)
    (signed_prekey_id p) (signed_prekey_record p) (last_resort_pq_prekey_id p)
    (last_resort_pq_prekey_record p) (next_one_time_prekey_id p)
    (initial_one_time_prekey_count p) (one_time_prekey_refill_count p)
    (one_time_prekey_low_watermark p) (rng p) id.

Definition set_sender_key_store (p : SignalParticipant) (s : SenderKeyStore) :
    SignalParticipant :=
  set_store p (MkSignalStore (session_store (store p)) (pre_key_store (store p))
    (signed_pre_key_store (store p)) (kyber_pre_key_store (store p)) (identity_store (store p)) s).

(** ** Generating prekeys *)

(** A reading of the clock in milliseconds; [None] is a clock before the epoch. *)
Definition current_timestamp (reading : option N) : result Error N :=
  match reading with
  | Some ms => Ok (wrap64 ms)
  | None => Err ["system time"; "second time provided was later than self"]
  end.

Definition generate_kyber_prekey_record (id : N) (identity : IdentityKeyPair)
    (reading : option N) (g : Rng) : Rng * result Error SignedPreKeyRecord :=
  let '(kp, g) := kem.generate kem.Kyber768 g in
  let public_key := kem.serialize (kem.public_key kp) in
  let '(signature, g) := sign (ik_private_key identity) public_key g in
  (g, let? timestamp <- current_timestamp reading in
      Ok (kyber_pre_key_new id timestamp kp signature)).

(** [clock] has the successive readings of the system clock during a call. *)
Definition new (n : string) (env : string → option string) (clock : nat → option N) (g : Rng) :
    result Error SignalParticipant :=
  let a := MkAddress n DEVICE_ID in
  let '(identity, g) := identity_generate g in
  let '(registration, g) := random_u32 g in
  let '(signed_prekey, g) := generate_pair g in
  let '(signature, g) :=
    sign (ik_private_key identity) (public_serialize (kp_public signed_prekey)) g in
  let? timestamp <- current_timestamp (clock 0%nat) in
  let signed_record := signed_pre_key_new 1 timestamp signed_prekey signature in
  let '(g, pq_record) :=
    generate_kyber_prekey_record LAST_RESORT_PQ_PREKEY_ID identity (clock 1%nat) g in
  let? pq_record <- pq_record in
  Ok (MkParticipant n a (store_new identity registration) identity registration 1 signed_record
        LAST_RESORT_PQ_PREKEY_ID pq_record 1
        (env_positive_u32 (env "SIGNAL_INITIAL_ONE_TIME_PREKEY_COUNT")
           DEFAULT_INITIAL_ONE_TIME_PREKEY_COUNT)
        (env_positive_u32 (env "SIGNAL_ONE_TIME_PREKEY_REFILL_COUNT")
           DEFAULT_ONE_TIME_PREKEY_REFILL_COUNT)
        (env_usize (env "SIGNAL_ONE_TIME_PREKEY_LOW_WATERMARK")
           DEFAULT_ONE_TIME_PREKEY_LOW_WATERMARK)
        g None).

(** Both halves of a one-time prekey are saved under the same number. *)
Definition save_one_time (p : SignalParticipant) (id : N) (r : PreKeyRecord)
    (pq : SignedPreKeyRecord) : SignalParticipant :=
  let s := store p in
  set_store p (MkSignalStore (session_store s) (save_pre_key (pre_key_store s) id r)
    (signed_pre_key_store s) (save_kyber_pre_key (kyber_pre_key_store s) id pq)
    (identity_store s) (sender_key_store s)).

(** The parts of a bundle that do not change: the signed prekey and its signature *)
Definition bundle_with (p : SignalParticipant) (signed_prekey : PublicKey) (signature : bytes)
    (pre_key : option (N * PublicKey)) (pq_id : N) (pq : SignedPreKeyRecord) :
    result Error PreKeyBundle :=
  let? pq_public <- lift (kyber_pre_key_public pq) in
  Ok (bundle_new (registration_id p) DEVICE_ID pre_key (signed_prekey_id p) signed_prekey signature
        pq_id pq_public (spk_signature pq) (ik_identity_key (identity_key_pair p))).

(** One turn of the loop; the prekeys are in the store before the bundle is put
    together. *)
Definition generate_one_time (p : SignalParticipant) (signed_prekey : PublicKey)
    (signature : bytes) (reading : option N) : SignalParticipant * result Error PreKeyBundle :=
  let id := next_one_time_prekey_id p in
  match checked_add32 id 1 with
  | None => (p, Err (anyhow "one-time prekey id space exhausted"))
  | Some following =>
      let p := set_next_id p following in
      let '(prekey, g) := generate_pair (rng p) in
      let record := pre_key_new id prekey in
      let '(g, pq_record) := generate_kyber_prekey_record id (identity_key_pair p) reading g in
      let p := set_rng p g in
      match pq_record with
      | Err e => (p, Err e)
      | Ok pq_record =>
          let p := save_one_time p id record pq_record in
          (p, let? public <- lift (pre_key_public record) in
              bundle_with p signed_prekey signature (Some (id, public)) id pq_record)
      end
  end.

Fixpoint generate_one_times (count : nat) (p : SignalParticipant) (signed_prekey : PublicKey)
    (signature : bytes) (clock : nat → option N) :
    SignalParticipant * result Error (list PreKeyBundle) :=
  match count with
  | O => (p, Ok [])
  | S count =>
      let '(p, bundle) := generate_one_time p signed_prekey signature (clock 0%nat) in
      match bundle with
      | Err e => (p, Err e)
      | Ok bundle =>
          let '(p, bundles) :=
            generate_one_times count p signed_prekey signature (λ i, clock (S i)) in
          (p, let? bundles <- bundles in Ok (bundle :: bundles))
      end
  end.

Definition generate_publishable_prekey_bundles (p : SignalParticipant) (count : N)
    (include_last_resort : bool) (clock : nat → option N) :
    SignalParticipant * result Error (list PreKeyBundle) :=
  let signature := spk_signature (signed_prekey_record p) in
  match lift (signed_pre_key_public (signed_prekey_record p)) with
  | Err e => (p, Err e)
  | Ok signed_prekey =>
      let '(p, bundles) :=
        generate_one_times (N.to_nat count) p signed_prekey signature clock in
      (p, let? bundles <- bundles in
          if include_last_resort then
            let? last <- bundle_with p signed_prekey signature None (last_resort_pq_prekey_id p)
                           (last_resort_pq_prekey_record p) in
            Ok (bundles ++ [last])
          else Ok bundles)
  end.

Definition generate_prekey_bundles (p : SignalParticipant) (clock : nat → option N) :=
  generate_publishable_prekey_bundles p (initial_one_time_prekey_count p) true clock.

Definition generate_replenishment_prekey_bundles (p : SignalParticipant)
    (clock : nat → option N) :=
  generate_publishable_prekey_bundles p (one_time_prekey_refill_count p) true clock.

Definition store_own_prekeys (p : SignalParticipant) : SignalParticipant :=
  let s := store p in
  set_store p (MkSignalStore (session_store s) (pre_key_store s)
    (save_signed_pre_key (signed_pre_key_store s) (signed_prekey_id p) (signed_prekey_record p))
    (save_kyber_pre_key (kyber_pre_key_store s) (last_resort_pq_prekey_id p)
       (last_resort_pq_prekey_record p))
    (identity_store s) (sender_key_store s)).

Definition remaining_prekeys (p : SignalParticipant) : nat :=
  let one_time_ec_count := size (pre_key_store (store p)) in
  let one_time_pq_count := (size (kyber_pre_keys (kyber_pre_key_store (store p))) - 1)%nat in
  (one_time_ec_count `min` one_time_pq_count)%nat.

(** ** Pairwise sessions *)

(** The stores a call of the library changes, put back *)
Definition with_sessions (p : SignalParticipant) (sessions : SessionStore)
    (identities : IdentityStore) (g : Rng) : SignalParticipant :=
  let s := store p in
  set_rng (set_store p (MkSignalStore sessions (pre_key_store s) (signed_pre_key_store s)
    (kyber_pre_key_store s) identities (sender_key_store s))) g.

Definition establish_session_from_bundle (p : SignalParticipant) (remote : ProtocolAddress)
    (bundle : PreKeyBundle) (now : N) : SignalParticipant * result Error unit :=
  let s := store p in
  let '((sessions, identities, g), r) :=
    process_prekey_bundle remote (address p) (session_store s) (identity_store s) bundle now
      (rng p) in
  (with_sessions p sessions identities g, lift r).

Definition encrypt_message (p : SignalParticipant) (remote : ProtocolAddress) (plaintext : bytes)
    (now : N) : SignalParticipant * result Error CiphertextMessage :=
  let s := store p in
  let '((sessions, identities, g), r) :=
    message_encrypt plaintext remote (address p) (session_store s) (identity_store s) now (rng p) in
  (with_sessions p sessions identities g, lift r).

Definition decrypt_message (p : SignalParticipant) (remote : ProtocolAddress)
    (ciphertext : CiphertextMessage) : SignalParticipant * result Error bytes :=
  let s := store p in
  let '((sessions, identities, pre_keys, kyber, g), r) :=
    message_decrypt ciphertext remote (address p) (session_store s) (identity_store s)
      (pre_key_store s) (signed_pre_key_store s) (kyber_pre_key_store s) (rng p) in
  (set_rng (set_store p (MkSignalStore sessions pre_keys (signed_pre_key_store s) kyber identities
     (sender_key_store s))) g, lift r).

Definition has_session_with (p : SignalParticipant) (remote : ProtocolAddress) : bool :=
  bool_decide (is_Some (session_store (store p) !! remote)).

(** The sessions that were there are removed and counted. *)
Fixpoint reset_sessions_with (p : SignalParticipant) (remote_names : list string) :
    SignalParticipant * N :=
  match remote_names with
  | [] => (p, 0)
  | n :: rest =>
      let a := MkAddress n DEVICE_ID in
      let s := store p in
      let removed := has_session_with p a in
      let p := set_store p (MkSignalStore (delete a (session_store s)) (pre_key_store s)
                 (signed_pre_key_store s) (kyber_pre_key_store s) (identity_store s)
                 (sender_key_store s)) in
      let '(p, count) := reset_sessions_with p rest in
      (p, if removed then count + 1 else count)
  end.

(** ** Sender keys ([sender_keys.rs]) *)

(** [address(name)] *)
Definition address_of (n : string) : ProtocolAddress := MkAddress n 1.

(** What [create_sender_key_distribution_message] draws, when it draws *)
Definition draw_seeds (g : Rng) : SenderKeySeeds * Rng :=
  let '(chain_id, g) := random_u32 g in
  let '(chain, g) := random_array 32 g in
  let '(signing, g) := fill_bytes 32 g in
  (MkSeeds chain_id chain signing, g).

(** [Uuid::from_u128(generation)] is the generation. *)
Definition next_generation (p : SignalParticipant) (generation : option N) :
    result Error SignalParticipant :=
  match generation with
  | None => Ok p
  | Some generation =>
      let old_is_newer :=
        match sender_key_id p with Some old => generation <=? old | None => false end in
      if (generation =? 0) || old_is_newer
      then Err (anyhow "Sender Key generations must increase and be nonzero")
      else Ok (set_sender_key_id p (Some generation))
  end.

Definition sender_key_distribution (p : SignalParticipant) (generation : option N) :
    SignalParticipant * result Error bytes :=
  match next_generation p generation with
  | Err e => (p, Err e)
  | Ok p =>
      match sender_key_id p with
      | None => (p, Err (anyhow "Sender Key not initialized"))
      | Some id =>
          let keys := sender_key_store (store p) in
          let '(seeds, g) :=
            match keys !! (address p, id) with
            | Some _ => (MkSeeds 0 [] [], rng p)
            | None => draw_seeds (rng p)
            end in
          let '(keys, d) := create_sender_key_distribution_message (address p) id keys seeds in
          (set_rng (set_sender_key_store p keys) g, lift (let? d <- d in Ok (d_serialized d)))
      end
  end.

Definition process_sender_key_distribution (p : SignalParticipant) (sender : string) (b : bytes) :
    SignalParticipant * result Error unit :=
  match distribution_try_from b with
  | Err e => (p, lift (Err e))
  | Ok d =>
      (set_sender_key_store p
         (process_sender_key_distribution_message (address_of sender) d
            (sender_key_store (store p))), Ok tt)
  end.

(** The signature's 64 random bytes are drawn when there is something to sign: only the
    end of the chain ([InvalidState]) is noticed after that. *)
Definition sender_key_encrypt (p : SignalParticipant) (plaintext : bytes) :
    SignalParticipant * result Error bytes :=
  match sender_key_id p with
  | None => (p, Err (anyhow "Sender Key not initialized"))
  | Some id =>
      let '(random, g) := fill_bytes 64 (rng p) in
      let '(keys, m) :=
        group_encrypt (sender_key_store (store p)) (address p) id plaintext random in
      (set_rng (set_sender_key_store p keys) (match m with Ok _ | Err (InvalidState _ _) => g | Err _ => rng p end),
       lift (let? m <- m in Ok (m_serialized m)))
  end.

Definition sender_key_decrypt (p : SignalParticipant) (sender : string) (b : bytes) :
    SignalParticipant * result Error bytes :=
  let '(keys, r) := group_decrypt b (sender_key_store (store p)) (address_of sender) in
  (set_sender_key_store p keys, lift r).
End participant.
