(* ===== verification/ToySession.v ===== *)
(** * Toy primitives for pairwise sessions

    The smallest primitives that keep the promises of [AgreementLaws], [KemLaws],
    [SpqrLaws] and [SessionCodecLaws], without secrecy, and a random generator that
    counts: the theorems about sessions are applied to them on concrete runs. *)

From S2P Require Import Prelude HttpRetry ToyMls SenderKeyState GroupCipher PreKeys.
From S2P Require Import Ratchet Sessions.
From S2P Require Import SignalHttp Participant.
From S2P Require Client.
From stdpp Require Import options.

Local Open Scope N_scope.

(** ** Random numbers *)

#[export] Instance toy_rng : Csprng := {|
  Rng := N;
  fill_bytes n g := (pad n (to_bytes g), g + 1);
  random_array n g := (pad n (to_bytes g), g + 1);
  random_u32 g := (g `mod` 4294967296, g + 1);
|}.

#[export] Program Instance toy_rng_laws : CsprngLaws.
Next Obligation. intros. apply pad_length. Qed.
Next Obligation. intros. apply pad_length. Qed.
Next Obligation. intros g. cbn. pose proof (N.mod_lt g 4294967296). unfold u32_max. lia. Qed.

(** ** Agreement *)

Definition xor_byte (a b : Byte.byte) : Byte.byte := byte_of (N.lxor (Byte.to_N a) (Byte.to_N b)).

(** A mark, and the private part of the public key mixed with the private key *)
Definition toy_agree (k pub : bytes) : bytes := Byte.x01 :: zip_with xor_byte (pad 31 k) (take 31 pub).

#[export] Instance toy_agreement : AgreementPrimitives := {|
  curve_agree := toy_agree;
  is_torsion_free _ := true;
  hkdf_salted s k i n := pad n (k ++ s ++ i);
|}.

Lemma toy_take_public k : take 31 (toy_public k) = pad 31 k.
Proof. unfold toy_public. rewrite take_app_le by by rewrite pad_length. apply take_ge. by rewrite pad_length. Qed.

#[export] Program Instance toy_agreement_laws : AgreementLaws.
Next Obligation.
  intros k k' _ _. cbn. unfold toy_agree. rewrite !toy_take_public. f_equal.
  generalize (pad 31 k) as a, (pad 31 k') as b. induction a as [|x a IH]; intros [|y b]; try done. cbn.
  unfold xor_byte at 1 3. by rewrite N.lxor_comm, IH.
Qed.
Next Obligation. intros k k' _ _ [=]. Qed.
Next Obligation.
  intros k _. split; [done|]. cbn. unfold scalar_is_in_range.
  assert (H : nth 31 (toy_public k) Byte.x00 = Byte.x00).
  { unfold toy_public. rewrite app_nth2 by (rewrite pad_length; lia). by rewrite pad_length. }
  rewrite H. change (Byte.to_N Byte.x00) with 0. by rewrite andb_false_r.
Qed.
Next Obligation. intros. apply pad_length. Qed.

(** ** Encapsulation *)

#[export] Instance toy_kem : kem.KemPrimitives := {|
  kem.public_key_length _ := 8%nat;
  kem.secret_key_length _ := 8%nat;
  kem.ciphertext_length _ := 8%nat;
  kem.generate_key_pair _ seed := (pad 8 seed, pad 8 seed);
  kem.kem_encapsulate _ pk r := (pad 8 r ++ pk, pad 8 r);
  kem.kem_decapsulate _ sk ct := ct ++ sk;
|}.

#[export] Program Instance toy_kem_laws : kem.KemLaws.
Next Obligation. intros. split; apply pad_length. Qed.
Next Obligation. intros. apply pad_length. Qed.
Next Obligation. done. Qed.

(** ** The post-quantum ratchet *)

Fixpoint ones (b : bytes) : nat * bytes :=
  match b with
  | Byte.x01 :: b => let '(n, rest) := ones b in (S n, rest)
  | _ :: b => (0%nat, b)
  | [] => (0%nat, [])
  end.

Lemma ones_replicate n rest : ones (replicate n Byte.x01 ++ Byte.x00 :: rest) = (n, rest).
Proof. induction n as [|n IH]; [done|]. cbn. by rewrite IH. Qed.

(** Every message carries its key and is the only one of its epoch.  An end counts the
    messages it has sent: its own epoch is the last one, of which it keeps one before. *)
#[export] Instance toy_spqr : Spqr := {|
  SpqrError := unit;
  is_state_decode _ := false;
  spqr_display _ := "epoch out of range";
  spqr_initial_state _ _ _ _ := Ok [];
  spqr_send s g :=
    let '(key, g) := fill_bytes 4 g in
    (g, Ok (Byte.x01 :: s, Some key, replicate (length s) Byte.x01 ++ Byte.x00 :: key));
  spqr_recv s msg :=
    let '(epoch, key) := ones msg in
    if (length s <=? epoch + 2)%nat then Ok (s, Some key) else Err tt;
|}.

(** An end's state, and what it has sent *)
Definition toy_sends (s : bytes) (sent : list PqSent) : Prop :=
  length s = length sent
  ∧ ∀ i m, sent !! i = Some m → ones (pq_msg m) = (i, default [] (pq_key m)) ∧ is_Some (pq_key m).

Lemma toy_sends_receive s sent i : toy_sends s sent → toy_sends s (alter pq_receive i sent).
Proof.
  intros [Hl H]. split; [by rewrite length_alter|]. intros j m Hj. destruct (decide (i = j)) as [<-|Hne].
  - rewrite list_lookup_alter_eq in Hj. destruct (sent !! i) as [m0|] eqn:E; [|done].
    injection Hj as <-. by apply H in E.
  - rewrite list_lookup_alter_ne in Hj by done. by apply H.
Qed.

Lemma toy_sends_send s sent key : toy_sends s sent →
  toy_sends (Byte.x01 :: s)
    (sent ++ [MkPqSent (replicate (length s) Byte.x01 ++ Byte.x00 :: key) (Some key) false]).
Proof.
  intros [Hl H]. split; [rewrite length_app; cbn; lia|]. intros i m Hi.
  apply lookup_app_Some in Hi as [Hi|[Hi [Hn E]%list_lookup_singleton_Some]]; [by apply H|].
  rewrite <-E. cbn [pq_msg pq_key default from_option id]. rewrite ones_replicate.
  split; [|by eexists]. f_equal. lia.
Qed.

#[export] Program Instance toy_spqr_laws : SpqrLaws := {|
  spqr_epoch msg := N.of_nat (ones msg).1;
  pq_linked a b there back := toy_sends a there ∧ toy_sends b back;
|}.
Next Obligation. intros. exists [], []. by split_and!. Qed.
Next Obligation. intros a b there back [H1 H2]. by split. Qed.
Next Obligation.
  intros a b there back g [Ha Hb] _. eexists _, _, _, _. split; [reflexivity|]. split; [|done].
  by apply toy_sends_send.
Qed.
Next Obligation.
  intros a b there back i msg key [Ha Hb] _ Hi He. exists b. cbn.
  split; [|split; [by apply toy_sends_receive|done]].
  destruct Ha as [_ Ha]. destruct (Ha i _ Hi) as [E [k Ek]]. cbn in E, Ek. subst key. rewrite E. cbn.
  rewrite E in He. cbn [fst] in He.
  assert (Hle : (length b <= i + 2)%nat).
  { destruct Hb as [Hlb Hb]. rewrite Hlb. destruct (last back) as [m|] eqn:El.
    - rewrite last_lookup in El. destruct (Hb _ _ El) as [Em _].
      pose proof (Forall_lookup_1 _ _ _ _ He El) as Hm. cbn in Hm. rewrite Em in Hm. cbn in Hm. lia.
    - apply last_None in El as ->. cbn. lia. }
  apply Nat.leb_le in Hle. by rewrite Hle.
Qed.

(** ** Encodings *)

(** The length, in unary, before the bytes *)
Definition block (b : bytes) : bytes := replicate (length b) Byte.x01 ++ Byte.x00 :: b.

Definition unblock (b : bytes) : bytes * bytes :=
  let '(n, rest) := ones b in (take n rest, drop n rest).

Lemma unblock_block b rest : unblock (block b ++ rest) = (b, rest).
Proof.
  unfold unblock, block. rewrite <-app_assoc.
  cbn [app]. rewrite ones_replicate. by rewrite take_app_length, drop_app_length.
Qed.

Definition field (o : option bytes) : bytes :=
  match o with None => [Byte.x00] | Some b => Byte.x01 :: block b end.
Definition unfield (b : bytes) : option bytes * bytes :=
  match b with
  | Byte.x01 :: b => let '(b, rest) := unblock b in (Some b, rest)
  | _ => (None, tail b)
  end.

Lemma unfield_field o rest : unfield (field o ++ rest) = (o, rest).
Proof. destruct o as [b|]; [|done]. cbn -[block]. by rewrite unblock_block. Qed.

Definition number (o : option N) : option bytes := to_bytes <$> o.
Definition unnumber (o : option bytes) : option N := let! b <- o in of_bytes b.

Lemma unnumber_number o : unnumber (number o) = o.
Proof. destruct o as [n|]; [|done]. apply of_to_bytes. Qed.

Fixpoint fields (l : list (option bytes)) : bytes :=
  match l with [] => [] | o :: l => field o ++ fields l end.
Fixpoint unfields (n : nat) (b : bytes) : list (option bytes) :=
  match n with O => [] | S n => let '(o, rest) := unfield b in o :: unfields n rest end.

Lemma unfields_fields l : unfields (length l) (fields l) = l.
Proof. induction l as [|o l IH]; [done|]. cbn. by rewrite unfield_field, IH. Qed.

(** The first byte tells the two messages apart. *)
#[export] Instance toy_codec : SessionCodec := {|
  encode_signal m :=
    Byte.x0a :: fields [ws_ratchet_key m; number (ws_counter m); number (ws_previous_counter m);
                        ws_ciphertext m; ws_pq_ratchet m; ws_addresses m];
  decode_signal b :=
    match unfields 6 (tail b) with
    | [rk; n; pn; c; pq; a] => Some (MkWireSignal rk (unnumber n) (unnumber pn) c pq a)
    | _ => None
    end;
  encode_prekey_signal m :=
    Byte.x08 :: fields [number (wp_registration_id m); number (wp_pre_key_id m);
                        number (wp_signed_pre_key_id m); number (wp_kyber_pre_key_id m);
                        wp_kyber_ciphertext m; wp_base_key m; wp_identity_key m; wp_message m];
  decode_prekey_signal b :=
    match b with
    | Byte.x08 :: b =>
        match unfields 8 b with
        | [r; p; s; k; ct; bk; ik; m] =>
            Some (MkWirePreKeySignal (unnumber r) (unnumber p) (unnumber s) (unnumber k) ct bk ik m)
        | _ => None
        end
    | _ => None
    end;
  encode_session _ := [];
  decode_session _ := None;
  uuid_try_parse _ := None;
|}.

#[export] Program Instance toy_codec_laws : SessionCodecLaws.
Next Obligation.
  intros [rk n pn c pq a] _ _. cbn -[fields unfields number].
  pose proof (unfields_fields [rk; number n; number pn; c; pq; a]) as E.
  cbn [length] in E. rewrite E. by rewrite !unnumber_number.
Qed.
Next Obligation.
  intros [r p s k ct bk ik m] _ _ _ _. cbn -[fields unfields number].
  pose proof (unfields_fields [number r; number p; number s; number k; ct; bk; ik; m]) as E.
  cbn [length] in E. rewrite E. by rewrite !unnumber_number.
Qed.
Next Obligation. done. Qed.

(** ** Third-party code for the workers *)

#[export] Instance toy_uuid_text : UuidText := λ n, pretty n.

#[export] Instance toy_signal_externals : SignalExternals := {|
  utf8_lossy s := s;
  status_text n := if n =? 404 then "404 Not Found" else pretty n;
  json_text _ := "";
  decode_error _ := MkReqwestError "error decoding response body" false false false false [];
  hex_decode s := Ok (unhex s);
|}.

Lemma toy_signal_hex b : hex_decode (Externals := toy_signal_externals) (Client.hex_encode b) = Ok b.
Proof. cbn. by rewrite unhex_encode. Qed.
