(* ===== verification/SignalWorker.v ===== *)
(** * The Signal worker's commands

    [Signal_containerized/src/worker_api.rs] from [receive_message_delivery] on, and the
    commands of [sender_keys.rs]: what a worker does for each command, over its
    participant and the servers.  Profiling and metrics are left out: the outcome of a
    command is its message.  [clock] tells the readings of the system clock during a call
    that starts at an instant. *)

From S2P Require Import Prelude Text Http Interaction HttpRetry Servers SignalHttp.
From S2P Require Import SenderKeyState GroupCipher PreKeys Participant.
From S2P Require KeyRepository MessageRelay Worker.
From stdpp Require Import options.

Local Open Scope N_scope.

Inductive Command :=
| SenderKeyDistribute (recipients : list string) (generation : option N) (conversation_size : N)
| SenderKeyOnboard (participants : list string) (generation conversation_size : N)
| SenderKeyReceiveDistribution (sender : string) (conversation_size : N)
    (expected_generation : option N)
| SenderKeyEncrypt (recipients : list string) (message : string) (conversation_size : N)
| SenderKeyDecrypt (sender : string) (profile : bool) (conversation_size : N)
    (expected_plaintext_bytes : N)
| RegisterParticipant
| GeneratePrekeyBundle
| PublishPrekeyBundle
| UpdateOneTimePrekeys
| EstablishSessions (participants : list string) (conversation_size : option N) (profile : bool)
| ResetSessions (participants : list string)
| EncryptMessage (recipient message : string) (conversation_size : option N)
| DecryptMessage (sender : string) (profile : bool)
    (conversation_size expected_plaintext_bytes : option N)
| ProcessPending (max_messages : option N)
| ShowParticipantState
| RemoveParticipants (participants : list string).

Definition kind (c : Command) : string :=
  match c with
  | SenderKeyDistribute _ _ _ => "SenderKeyDistribute"
  | SenderKeyOnboard _ _ _ => "SenderKeyOnboard"
  | SenderKeyReceiveDistribution _ _ _ => "SenderKeyReceiveDistribution"
  | SenderKeyEncrypt _ _ _ => "SenderKeyEncrypt"
  | SenderKeyDecrypt _ _ _ _ => "SenderKeyDecrypt"
  | RegisterParticipant => "RegisterParticipant"
  | GeneratePrekeyBundle => "GeneratePrekeyBundle"
  | PublishPrekeyBundle => "PublishPrekeyBundle"
  | UpdateOneTimePrekeys => "UpdateOneTimePrekeys"
  | EstablishSessions _ _ _ => "EstablishSessions"
  | ResetSessions _ => "ResetSessions"
  | EncryptMessage _ _ _ => "EncryptMessage"
  | DecryptMessage _ _ _ _ => "DecryptMessage"
  | ProcessPending _ => "ProcessPending"
  | ShowParticipantState => "ShowParticipantState"
  | RemoveParticipants _ => "RemoveParticipants"
  end.

Definition is_mutating (c : Command) : bool :=
  match c with ShowParticipantState => false | _ => true end.

Lemma lowercase_app s t : to_ascii_lowercase (s +:+ t) = to_ascii_lowercase s +:+ to_ascii_lowercase t.
Proof.
  induction s as [|c s IH]; [done|].
  change (String c s +:+ t) with (String c (s +:+ t)). cbn [to_ascii_lowercase]. by rewrite IH.
Qed.

Definition looks_like_duplicate_receive (error : string) : bool :=
  contains_any ["replay"; "duplicate"; "already"; "generation"; "out of order"; "stale"]
    (to_ascii_lowercase error).

Section worker.
Context {crypto : SignalCrypto} {csprng : Csprng} {prim : kem.KemPrimitives}.
Context {pairwise : PairwiseLibrary} {text : UuidText} {extern : SignalExternals}.
Context (clock : N → nat → option N).
(** serde's error for a body that is not a bundle *)
Context (from_slice_error : Body SignalJson → string).

Abbreviation W := (M SignalParticipant SignalEffect).
Abbreviation PrekeyBundleStorable := KeyRepository.PrekeyBundleStorable.

Definition participant_name : W string := inspect (λ p, Ok (name p)).

(** ** Bundles on the wire *)

(** The loop of [prekey_bundle_batch]: the one-time prekeys and the last bundle without
    one, as number, public key and signature of its KEM prekey *)
Fixpoint sort_bundles (bundles : list PreKeyBundle)
    (one_time : list KeyRepository.OneTimePrekeyStorable) (fallback : option (N * bytes * bytes)) :
    result Error (list KeyRepository.OneTimePrekeyStorable * option (N * bytes * bytes)) :=
  match bundles with
  | [] => Ok (one_time, fallback)
  | b :: rest =>
      let pq_id := b_kyber_pre_key_id b in
      let pq_public := kem.serialize (b_kyber_pre_key_public b) in
      let pq_signature := b_kyber_pre_key_signature b in
      match b_pre_key_id b, b_pre_key_public b with
      | Some id, Some public =>
          sort_bundles rest
            (one_time ++ [KeyRepository.MkOneTimePrekey id (public_serialize public) pq_id
                            pq_public pq_signature]) fallback
      | None, None => sort_bundles rest one_time (Some (pq_id, pq_public, pq_signature))
      | Some id, None =>
          Err (anyhow ("prekey_id " +:+ pretty id +:+ " was present without public key"))
      | None, Some _ => Err (anyhow "prekey public key was present without id")
      end
  end.

Definition prekey_bundle_batch (bundles : list PreKeyBundle) :
    result Error KeyRepository.PrekeyBundleBatchStorable :=
  let? first <- ok_or (head bundles) (anyhow "no prekey bundles generated") in
  let? (one_time, fallback) <- sort_bundles bundles [] None in
  let? (pq_id, pq_public, pq_signature) <-
    ok_or fallback (anyhow "no last-resort PQ prekey bundle generated") in
  Ok (KeyRepository.MkBatch (b_registration_id first) (b_device_id first)
        (b_signed_pre_key_id first) (public_serialize (b_signed_pre_key_public first))
        (b_signed_pre_key_signature first)
        (public_serialize (identity_public_key (b_identity_key first)))
        pq_id pq_public pq_signature one_time true).

(** [PublicKey::deserialize(bytes).map_err(|e| anyhow!("{what}: {e}"))] *)
Definition decode_public (what : string) (b : bytes) : result Error PublicKey :=
  match public_deserialize b with
  | Ok k => Ok k
  | Err e => Err (anyhow (what +:+ ": " +:+ curve_display e))
  end.

(** What [EstablishSessions] makes of a fetched bundle *)
Definition decode_bundle (s : PrekeyBundleStorable) : result Error PreKeyBundle :=
  let? prekey_public <-
    match KeyRepository.prekey_id s, KeyRepository.prekey_public s with
    | Some _, Some b => let? k <- decode_public "invalid prekey public" b in Ok (Some k)
    | Some id, None =>
        Err (anyhow ("prekey_id " +:+ pretty id +:+ " was present without prekey_public"))
    | None, Some _ => Err (anyhow "prekey_public was present without prekey_id")
    | None, None => Ok None
    end in
  let? identity <- decode_public "invalid identity key" (KeyRepository.identity_key_public s) in
  let? kyber <- match kem.deserialize (KeyRepository.kyber_prekey_public s) with
                | Ok k => Ok k
                | Err e => Err (anyhow ("invalid kyber prekey: " +:+ signal_display e))
                end in
  let? device <- (if KeyRepository.device_id s <=? 255 then Ok (KeyRepository.device_id s)
                  else Err (anyhow "invalid device_id")) in
  let? device <- ok_or (device_id_new device) (anyhow "invalid device_id value") in
  let? signed <- decode_public "invalid signed prekey" (KeyRepository.signed_prekey_public s) in
  Ok (bundle_new (KeyRepository.registration_id s) device
        (let! id <- KeyRepository.prekey_id s in let! k <- prekey_public in Some (id, k))
        (KeyRepository.signed_prekey_id s) signed (KeyRepository.signed_prekey_signature s)
        (KeyRepository.kyber_prekey_id s) kyber (KeyRepository.kyber_prekey_signature s)
        (MkIdentityKey identity)).

(** ** Receiving *)

Definition ciphertext_from_bytes (b : bytes) : result Error CiphertextMessage :=
  match prekey_message_try_from b with
  | Ok m => Ok (inr m)
  | Err _ =>
      match signal_message_try_from b with
      | Ok m => Ok (inl m)
      | Err _ => Err (anyhow "unrecognized ciphertext message type")
      end
  end.

Definition labels (d : MessageRelay.PendingMessage) : string :=
  " conversation=" +:+ MessageRelay.pm_conversation d +:+ " sender=" +:+ MessageRelay.pm_sender d.

Definition ack (relay_url message_id : string) : W unit :=
  let* n <- participant_name in call (relay_ack_message relay_url n message_id).

Definition receive_message_delivery (relay_url : string) (sender : option string)
    (expected_plaintext_bytes : option N) : W string :=
  let* n <- participant_name in
  let* delivery <- call (relay_get_pending_message relay_url n sender) in
  let id := MessageRelay.pm_id delivery in
  let from := MessageRelay.pm_sender delivery in
  let* _ <- match sender with
            | Some expected =>
                ensure (String.eqb from expected)
                  ("Relay returned sender " +:+ from +:+ " while " +:+ expected
                   +:+ " was requested")
            | None => ok tt
            end in
  let* message_bytes <-
    inspect (λ _, match hex_decode (MessageRelay.pm_message_hex delivery) with
                  | Ok b => Ok b
                  | Err e =>
                      Err (context ("decode pending message id=" +:+ id +:+ labels delivery) e)
                  end) in
  match ciphertext_from_bytes message_bytes with
  | Err _ =>
      let* _ <- ack relay_url id in
      ok ("message already processed (deserialize failed): message_id=" +:+ id +:+ labels delivery)
  | Ok ciphertext =>
      let* received <- catch (modify (λ p, decrypt_message p (address_of from) ciphertext)) in
      match received with
      | Ok plaintext =>
          let* _ <- match expected_plaintext_bytes with
                    | Some expected =>
                        ensure (N.of_nat (length plaintext) =? expected)
                          ("Decrypted " +:+ pretty (N.of_nat (length plaintext))
                           +:+ " plaintext bytes from " +:+ from +:+ ", expected "
                           +:+ pretty expected)
                    | None => ok tt
                    end in
          let* _ <- ack relay_url id in
          ok ("pairwise message received: " +:+ utf8_lossy (String.string_of_list_byte plaintext)
              +:+ "; message_id=" +:+ id +:+ labels delivery)
      | Err err =>
          let text := alternate err in
          if looks_like_duplicate_receive text then
            let* _ <- ack relay_url id in
            ok ("pairwise message already processed: message_id=" +:+ id +:+ labels delivery)
          else fail (anyhow text)
      end
  end.

(** The loop of [process_pending], [fuel] turns of it; [None] when they are not enough. *)
Fixpoint process_messages (fuel : nat) (relay_url : string) (remaining processed : N) :
    W (option (N * list string)) :=
  if 0 <? remaining then
    match fuel with
    | O => ok None
    | S fuel =>
        let* received <- catch (receive_message_delivery relay_url None None) in
        match received with
        | Ok _ => process_messages fuel relay_url (remaining - 1) (processed + 1)
        | Err err =>
            let text := alternate err in
            ok (Some (processed,
                      if contains Worker.not_found_text text then []
                      else ["message error=" +:+ text]))
        end
    end
  else ok (Some (processed, [])).

Definition process_pending (fuel : nat) (relay_url : string) (max_messages : option N) :
    W (option string) :=
  let* finished <- process_messages fuel relay_url (default u64_max max_messages) 0 in
  match finished with
  | None => ok None
  | Some (processed, []) =>
      ok (Some ("process_pending processed; messages_processed=" +:+ pretty processed
                +:+ " errors=[]"))
  | Some (processed, errors) =>
      fail (anyhow ("process_pending errors; messages_processed=" +:+ pretty processed
                    +:+ " errors=" +:+ Worker.debug_list errors))
  end.

(** ** Sender keys ([sender_keys.rs]) *)

Definition distribution_conversation : string := "sender-key-distribution".
Definition application_conversation : string := "sender-key-application".
Definition eager_refresh : string := "removal.eager_refresh".

Definition is_eager (phase : option string) : bool := bool_decide (phase = Some eager_refresh).

Definition reset_sender_keys : W unit :=
  modify (λ p, (set_sender_key_store p ∅, Ok tt)).

Definition encrypt_to (recipient : string) (plaintext : bytes) : W bytes :=
  let* now <- perform Now in
  let* c <- modify (λ p, encrypt_message p (address_of recipient) plaintext now) in
  ok (serialize c).

Fixpoint send_distribution (relay : string) (recipients : list string) (distribution : bytes) :
    W unit :=
  match recipients with
  | [] => ok tt
  | recipient :: rest =>
      let* known <- inspect (λ p, Ok (has_session_with p (address_of recipient))) in
      let* _ <- ensure known "distribution requires pairwise session" in
      let* b <- encrypt_to recipient distribution in
      let* n <- participant_name in
      let* _ <- call (relay_post_message relay distribution_conversation n [recipient] b) in
      send_distribution relay rest distribution
  end.

Definition distribute (relay : string) (recipients : list string) (generation : option N) :
    W unit :=
  let* distribution <- modify (λ p, sender_key_distribution p generation) in
  send_distribution relay recipients distribution.

(** The generation a decrypted distribution announces *)
Definition announced (distribution : bytes) : result Error N :=
  lift (let? d <- distribution_try_from distribution in Ok (d_distribution_id d)).

(** One turn of the loop of [receive_distribution]; [true] returns. *)
Definition receive_distribution_turn (relay sender : string) (phase : option string)
    (expected_generation : option N) : W bool :=
  let* n <- participant_name in
  let* delivery <- call (relay_get_pending_message relay n (Some sender)) in
  let id := MessageRelay.pm_id delivery in
  if is_eager phase && String.eqb (MessageRelay.pm_conversation delivery) application_conversation
  then let* _ <- ack relay id in ok false
  else
    let* _ <- ensure (String.eqb (MessageRelay.pm_conversation delivery) distribution_conversation
                      && String.eqb (MessageRelay.pm_sender delivery) sender)
                ("expected protected Sender Key distribution from " +:+ sender) in
    let* b <- inspect (λ _, hex_decode (MessageRelay.pm_message_hex delivery)) in
    let* ciphertext <- inspect (λ _, ciphertext_from_bytes b) in
    let* distribution <- modify (λ p, decrypt_message p (address_of sender) ciphertext) in
    let* stale <-
      match expected_generation with
      | None => ok false
      | Some expected =>
          let* actual <- inspect (λ _, announced distribution) in
          let* _ <- ensure (actual <=? expected) "unexpected future Sender Key generation" in
          ok (actual <? expected)
      end in
    if stale : bool then let* _ <- ack relay id in ok false
    else
      let* _ <- modify (λ p, process_sender_key_distribution p sender distribution) in
      let* _ <- ack relay id in
      ok true.

(** The loop, [fuel] turns of it; [false] when they are not enough. *)
Fixpoint receive_distribution (fuel : nat) (relay sender : string) (phase : option string)
    (expected_generation : option N) : W bool :=
  match fuel with
  | O => ok false
  | S fuel =>
      let* finished <- receive_distribution_turn relay sender phase expected_generation in
      if finished : bool then ok true
      else receive_distribution fuel relay sender phase expected_generation
  end.

Fixpoint receive_distributions (fuel : nat) (relay : string) (senders : list string)
    (phase : option string) : W bool :=
  match senders with
  | [] => ok true
  | sender :: rest =>
      let* finished <- receive_distribution fuel relay sender phase None in
      if finished : bool then receive_distributions fuel relay rest phase else ok false
  end.

Definition sender_key_receive (relay sender : string) (expected_plaintext_bytes : N) : W unit :=
  let* n <- participant_name in
  let* delivery <- call (relay_get_pending_message relay n (Some sender)) in
  let* _ <- ensure (String.eqb (MessageRelay.pm_conversation delivery) application_conversation
                    && String.eqb (MessageRelay.pm_sender delivery) sender)
              "expected Sender Key application message" in
  let* b <- inspect (λ _, hex_decode (MessageRelay.pm_message_hex delivery)) in
  let* plaintext <- modify (λ p, sender_key_decrypt p sender b) in
  let* _ <- ensure (N.of_nat (length plaintext) =? expected_plaintext_bytes)
              "unexpected plaintext size" in
  ack relay (MessageRelay.pm_id delivery).

Definition sender_key_send (relay : string) (recipients : list string) (message : string) :
    W unit :=
  let* b <- modify (λ p, sender_key_encrypt p (String.list_byte_of_string message)) in
  let* n <- participant_name in
  call (relay_post_message relay application_conversation n recipients b).

(** ** Prekeys *)

Definition stock (kr_url : string) : W nat :=
  let* n <- participant_name in
  let* s <- call (published_prekey_stock kr_url n) in
  ok (KeyRepository.one_time_available s).

Definition upload (kr_url op : string) (batch : KeyRepository.PrekeyBundleBatchStorable) : W unit :=
  let* n <- participant_name in
  call (kr_put_json kr_url ("/prekey-bundles/" +:+ n) (Keys.PublishBundles n batch) op n).

Definition generated
    (f : SignalParticipant → (nat → option N) → SignalParticipant * result Error (list PreKeyBundle)) :
    W KeyRepository.PrekeyBundleBatchStorable :=
  let* now <- perform Now in
  let* bundles <- modify (λ p, f p (clock now)) in
  inspect (λ _, prekey_bundle_batch bundles).

Definition bundle_count (batch : KeyRepository.PrekeyBundleBatchStorable) : nat :=
  (length (KeyRepository.one_time_prekeys batch)
   + (if KeyRepository.signed_prekey_fallback batch then 1 else 0))%nat.

Definition generate_and_publish (kr_url : string) : W string :=
  let* batch <- generated generate_prekey_bundles in
  let* _ <- stock kr_url in
  let* _ <- upload kr_url "store_prekey_bundles" batch in
  let* _ <- stock kr_url in
  let* n <- participant_name in
  ok ("prekey bundle generated and published for " +:+ n +:+ "; bundles="
      +:+ pretty (N.of_nat (bundle_count batch))).

Definition update_one_time_prekeys (kr_url : string) : W string :=
  let* before <- stock kr_url in
  let* n <- participant_name in
  let* threshold <- inspect (λ p, Ok (one_time_prekey_low_watermark p)) in
  if threshold <? N.of_nat before then
    ok ("one-time prekey stock for " +:+ n +:+ " is above low watermark: available="
        +:+ pretty (N.of_nat before) +:+ " threshold=" +:+ pretty threshold)
  else
    let* batch <- generated generate_replenishment_prekey_bundles in
    let* _ <- upload kr_url "update_one_time_prekeys" batch in
    let* after <- stock kr_url in
    ok ("one-time prekey stock updated for " +:+ n +:+ "; before=" +:+ pretty (N.of_nat before)
        +:+ " after=" +:+ pretty (N.of_nat after) +:+ " refill="
        +:+ pretty (N.of_nat (length (KeyRepository.one_time_prekeys batch)))).

Definition establish_session (kr_url peer : string) : W unit :=
  let* n <- participant_name in
  let* storable <-
    call (kr_get_bundle kr_url ("/prekey-bundle/" +:+ peer) (Keys.FetchBundle peer)
            "fetch_prekey_bundle" n
            (λ b, context ("decode fetched prekey bundle for " +:+ peer)
                    (anyhow (from_slice_error b)))) in
  let* bundle <- inspect (λ _, decode_bundle storable) in
  let* now <- perform Now in
  let* _ <- modify (λ p, establish_session_from_bundle p (address_of peer) bundle now) in
  let* _ <- catch (call (kr_post_empty kr_url ("/prekey-bundle/" +:+ peer +:+ "/consume")
                           (Keys.ConsumeOneTime peer) "consume_prekey" n)) in
  ok tt.

(** How many sessions are new and how many existed *)
Fixpoint establish_sessions (kr_url : string) (participants : list string)
    (established existing : N) : W (N * N) :=
  match participants with
  | [] => ok (established, existing)
  | peer :: rest =>
      let* known <- inspect (λ p, Ok (has_session_with p (address_of peer))) in
      if known : bool then establish_sessions kr_url rest established (existing + 1)
      else
        let* _ <- establish_session kr_url peer in
        establish_sessions kr_url rest (established + 1) existing
  end.

(** ** Commands *)

Definition address_debug (a : ProtocolAddress) : string :=
  "ProtocolAddress { name: " +:+ Worker.debug_string (address_name a) +:+ ", device_id: DeviceId("
  +:+ pretty (device_id a) +:+ ") }".

Definition handle_command (fuel : nat) (kr_url relay_url : string) (command : Command)
    (phase : option string) : W (option string) :=
  let returns (m : W string) : W (option string) := let* message <- m in ok (Some message) in
  match command with
  | SenderKeyDistribute recipients generation _ =>
      returns (let* _ <- if is_eager phase then reset_sender_keys else ok tt in
               let* _ <- distribute relay_url recipients generation in
               ok "sender key distributed")
  | SenderKeyOnboard participants generation _ =>
      let* _ <- reset_sender_keys in
      let* finished <- receive_distributions fuel relay_url participants phase in
      if finished : bool then
        returns (let* _ <- distribute relay_url participants (Some generation) in
                 ok "sender key onboarding complete")
      else ok None
  | SenderKeyReceiveDistribution sender _ expected_generation =>
      let* finished <- receive_distribution fuel relay_url sender phase expected_generation in
      ok (if finished : bool then Some "sender key distribution processed" else None)
  | SenderKeyEncrypt recipients message _ =>
      returns (let* _ <- sender_key_send relay_url recipients message in
               ok "sender key message encrypted and sent")
  | SenderKeyDecrypt sender _ _ expected_plaintext_bytes =>
      returns (let* _ <- sender_key_receive relay_url sender expected_plaintext_bytes in
               ok "sender key message received")
  | RegisterParticipant =>
      returns (let* n <- participant_name in ok ("participant " +:+ n +:+ " registered"))
  | GeneratePrekeyBundle => returns (generate_and_publish kr_url)
  | PublishPrekeyBundle =>
      returns (let* _ <- modify (λ p, (store_own_prekeys p, Ok tt)) in
               let* n <- participant_name in ok ("prekeys stored locally for " +:+ n))
  | UpdateOneTimePrekeys => returns (update_one_time_prekeys kr_url)
  | EstablishSessions participants _ _ =>
      returns (let* (established, existing) <- establish_sessions kr_url participants 0 0 in
               ok ("session establishment: new=" +:+ pretty established +:+ " existing="
                   +:+ pretty existing +:+ " total_target="
                   +:+ pretty (N.of_nat (length participants))))
  | ResetSessions participants =>
      returns (let* removed <-
                 modify (λ p, let '(p, n) := reset_sessions_with p participants in (p, Ok n)) in
               ok ("sessions reset: removed=" +:+ pretty removed +:+ " requested="
                   +:+ pretty (N.of_nat (length participants))))
  | EncryptMessage recipient message _ =>
      returns (let* b <- encrypt_to recipient (String.list_byte_of_string message) in
               let* n <- participant_name in
               let* _ <- call (relay_post_message relay_url ("conversation-" +:+ n) n [recipient]
                                 b) in
               ok ("pairwise message encrypted and sent to " +:+ recipient))
  | DecryptMessage sender _ _ expected_plaintext_bytes =>
      returns (receive_message_delivery relay_url
                 (match expected_plaintext_bytes with Some _ => Some sender | None => None end)
                 expected_plaintext_bytes)
  | ProcessPending max_messages => process_pending fuel relay_url max_messages
  | ShowParticipantState =>
      returns (let* n <- participant_name in
               let* remaining <- inspect (λ p, Ok (remaining_prekeys p)) in
               let* a <- inspect (λ p, Ok (address p)) in
               ok ("participant=" +:+ n +:+ " remaining_prekeys=" +:+ pretty (N.of_nat remaining)
                   +:+ " address=" +:+ address_debug a))
  | RemoveParticipants participants =>
      ok (Some ("participants " +:+ Worker.debug_list participants
                +:+ " deactivated; local sessions retained"))
  end.
End worker.
