(* ===== verification/LibsignalSessions.v ===== *)
(** * Participants with libsignal's sessions

    libsignal's functions are the [PairwiseLibrary] of a participant, and a participant
    whose store has one side of a correspondence takes its steps: what
    [encrypt_message] and [decrypt_message] of [signal_participant.rs] do to it. *)

From S2P Require Import Prelude HttpRetry SenderKeyState GroupCipher PreKeys Participant.
From S2P Require Import SignalWorker.
From S2P Require Import Ratchet Sessions RatchetSchedule SessionTurns Correspondence.
From stdpp Require Import options.

Local Open Scope N_scope.

Section library.
Context {crypto : SignalCrypto} {agreement : AgreementPrimitives} {csprng : Csprng}.
Context {prim : kem.KemPrimitives} {spqr : Spqr} {codec : SessionCodec}.

#[export] Instance libsignal : PairwiseLibrary := {|
  Participant.SessionRecord := Sessions.SessionRecord;
  Participant.SignalMessage := Sessions.SignalMessage;
  Participant.PreKeySignalMessage := Sessions.PreKeySignalMessage;
  Participant.signal_message_serialized := sm_serialized;
  Participant.signal_message_try_from := Sessions.signal_message_try_from;
  Participant.prekey_message_serialized := pm_serialized;
  Participant.prekey_message_try_from := Sessions.prekey_message_try_from;
  Participant.process_prekey_bundle := Sessions.process_prekey_bundle;
  Participant.message_encrypt := Sessions.message_encrypt;
  Participant.message_decrypt := Sessions.message_decrypt;
|}.
End library.

Section steps.
Context {crypto : SignalCrypto} {agreement : AgreementPrimitives} {csprng : Csprng}.
Context {prim : kem.KemPrimitives} {spqr : Spqr} {codec : SessionCodec} {text : UuidText}.
Context {laws : SignalLaws} {agree : AgreementLaws} {glaws : CsprngLaws}.
Context {pqlaws : SpqrLaws} {claws : SessionCodecLaws}.

Implicit Types (p : SignalParticipant) (x y : End) (sc : Schedule) (m : Sessions.SignalMessage).

(** ** Envelopes *)

(** What the messages of an unanswered session repeat; [c_since] in seconds *)
Record Contact := MkContact {
  c_registration : N;
  c_pre_key_id : option N;
  c_signed_id : N;
  c_kyber_id : N;
  c_ciphertext : bytes;
  c_base : PublicKey;
  c_since : N;
}.

Record contact_ok (c : Contact) : Prop := {
  ok_registration : c_registration c <= u32_max;
  ok_pre_key_id : u32_field (c_pre_key_id c);
  ok_signed_id : c_signed_id c <= u32_max;
  ok_kyber_id : c_kyber_id c <= u32_max;
  ok_base : length (public_key_bytes (c_base c)) = 32%nat;
}.

Definition wrap (c : Contact) (k : IdentityKey) m : Sessions.PreKeySignalMessage :=
  prekey_message_new 4 (c_registration c) (c_pre_key_id c) (c_signed_id c)
    (Some (c_kyber_id c, c_ciphertext c)) (c_base c) k m.

Definition sealed_as (o : option Contact) (k : IdentityKey) m :
    Sessions.SignalMessage + Sessions.PreKeySignalMessage :=
  match o with None => inl m | Some c => inr (wrap c k m) end.

(** The contact a session's messages still repeat *)
Definition pending (o : option Contact) (s : SessionState) : Prop :=
  match o with
  | None => ss_pending_pre_key s = None
  | Some c =>
      ss_pending_pre_key s = Some (MkPendingPreKey (c_pre_key_id c) (as_i32 (c_signed_id c))
                                     (public_serialize (c_base c)) (c_since c))
      ∧ ss_pending_kyber_pre_key s = Some (MkPendingKyber (c_kyber_id c) (c_ciphertext c))
      ∧ ss_local_registration_id s = c_registration c
  end.

Definition in_time (o : option Contact) (now : N) : Prop :=
  match o with
  | None => True
  | Some c => now <= 1000 * c_since c + MAX_UNACKNOWLEDGED_SESSION_AGE
  end.

Lemma as_i32_u32 n : n <= u32_max → as_u32 (as_i32 n) = n.
Proof.
  unfold as_u32, as_i32, u32_max. intros H. destruct (N.ltb_spec n 2147483648).
  - rewrite Z.mod_small by lia. lia.
  - replace (Z.of_N n - 4294967296)%Z with (Z.of_N n + (-1) * 4294967296)%Z by lia.
    rewrite Z.mod_add by lia. rewrite Z.mod_small by lia. lia.
Qed.

Lemma pending_items o s : (∀ c, o = Some c → contact_ok c) → pending o s →
  unacknowledged_pre_key_message_items s
  = Ok ((λ c, MkItems (c_pre_key_id c) (c_signed_id c) (c_base c) (Some (c_kyber_id c))
                (Some (c_ciphertext c)) (1000 * c_since c)) <$> o).
Proof.
  intros Ho H. unfold unacknowledged_pre_key_message_items. destruct o as [c|]; cbn in H; [|by rewrite H].
  destruct H as (-> & -> & _). destruct (Ho c eq_refl).
  cbn [ppk_base_key ppk_pre_key_id ppk_signed_pre_key_id ppk_timestamp].
  rewrite public_roundtrip by done. cbn [invalid_session]. by rewrite as_i32_u32.
Qed.

(** ** A participant on one side *)

Record corresponds p x y : Prop := {
  corresponds_address : address p = end_address x;
  corresponds_session : ∃ previous,
    session_store (store p) !! end_address y = Some (MkRecord (Some (session x)) previous);
  corresponds_trusted : is_trusted_identity (identity_store (store p)) (end_address y) (identity y) = true;
}.

Lemma trusted_saved s a k : is_trusted_identity s a k = true →
  is_trusted_identity (save_identity s a k) a k = true.
Proof.
  unfold is_trusted_identity, save_identity. intros H. destruct (known_keys s !! a) as [k'|] eqn:E.
  - apply bool_decide_eq_true in H as ->. rewrite decide_True by done. rewrite E.
    by apply bool_decide_eq_true.
  - cbn. rewrite lookup_insert_eq. by apply bool_decide_eq_true.
Qed.

Lemma encrypt_say sc p x y o p_text now :
  linked sc x y → corresponds p x y → (length (letters (side x)) < MAX_MESSAGE_KEYS)%nat →
  (∀ c, o = Some c → contact_ok c) → pending o (session x) → in_time o now →
  ∃ p' pq m s',
    encrypt_message p (end_address y) p_text now = (p', Ok (sealed_as o (identity x) m))
    ∧ linked sc (write_end x p_text (pq, m) s') y ∧ corresponds p' (write_end x p_text (pq, m) s') y
    ∧ pending o s' ∧ ss_alice_base_key s' = ss_alice_base_key (session x).
Proof using laws agree pqlaws.
  intros H [Ha [previous Hs] Ht] Hmax Ho Hp Hnow.
  destruct (linked_say _ _ _ H Hmax) as (t & Et & Ev & El & Er & Hsay).
  destruct (Hsay p_text (bool_decide (is_Some o)) (rng p)) as (g' & t' & pq & m & Hm & Hlinked).
  unfold encrypt_message. cbn [Participant.message_encrypt libsignal]. unfold Sessions.message_encrypt.
  cbn [Participant.SessionRecord libsignal] in Hs |- *. rewrite Hs. cbn [ok_or current_session]. rewrite Et, (pending_items o) by done.
  assert (Hpre : match (λ c, MkItems (c_pre_key_id c) (c_signed_id c) (c_base c) (Some (c_kyber_id c))
                    (Some (c_ciphertext c)) (1000 * c_since c)) <$> o with
                 | Some items => it_timestamp items + MAX_UNACKNOWLEDGED_SESSION_AGE <? now
                 | None => false
                 end = false).
  { destruct o as [c|]; [|done]. cbn. apply N.ltb_ge. exact Hnow. }
  rewrite Ha. destruct o as [c|]; cbn [fmap option_fmap option_map] in *.
  - rewrite Hpre. cbn [fmap option_fmap option_map]. rewrite bool_decide_eq_true_2 in Hm by by eexists. rewrite Hm, Er, Ht. cbn [negb].
    eexists _, pq, m, (outgoing_apply t' (session x)). split; [|split; [exact Hlinked|]].
    + cbn [it_kyber_pre_key_id it_kyber_ciphertext it_pre_key_id it_signed_pre_key_id it_base_key].
      rewrite Ev, El. destruct Hp as (_ & _ & ->). reflexivity.
    + split; [|done]. split; cbn; [done|exists previous; by rewrite lookup_insert_eq|by apply trusted_saved].
  - rewrite bool_decide_eq_false_2 in Hm by (by intros []). rewrite Hm, Er, Ht. cbn [negb].
    eexists _, pq, m, (outgoing_apply t' (session x)). split; [reflexivity|].
    split; [exact Hlinked|]. split; [|done].
    split; cbn; [done|exists previous; by rewrite lookup_insert_eq|by apply trusted_saved].
Qed.

(** ** Hearing *)

(** The base key by which a repeated first message is recognised *)
Definition base_known (o : option Contact) (s : SessionState) : Prop :=
  ∀ c, o = Some c → ss_alice_base_key s = public_serialize (c_base c).

Definition duplicated (e : SignalProtocolError) : Prop := ∃ current n, e = DuplicatedMessage current n.

(** The current session decides when it opens the message or knows it. *)
Lemma record_decrypts s previous remote local m t g g' r :
  session_version s = sm_version m → try_decrypt_with_state s remote local m t g = (g', r) →
  match r with Ok _ => True | Err e => duplicated e end →
  try_decrypt_from_record (MkRecord (Some s) previous) remote local m t g
  = (g', let? (s', ptext) <- r in Ok (MkRecord (Some s') previous, ptext)).
Proof.
  intros Hv Ht Hr. unfold try_decrypt_from_record. cbn [current_session previous_sessions].
  rewrite Hv, N.eqb_refl. cbn [negb]. rewrite Ht. destruct r as [[s' ptext]|e]; [done|].
  by destruct Hr as (current & n & ->).
Qed.

Lemma process_known p x y previous c m :
  session_version (session x) = 4 → base_known (Some c) (session x) →
  is_trusted_identity (identity_store (store p)) (end_address y) (identity y) = true →
  process_prekey (wrap c (identity y) m) (end_address y) (end_address x)
    (MkRecord (Some (session x)) previous) (identity_store (store p)) (pre_key_store (store p))
    (signed_pre_key_store (store p)) (kyber_pre_key_store (store p))
  = Ok (MkRecord (Some (session x)) previous, None).
Proof.
  intros Hv Hb Ht. unfold process_prekey, process_prekey_impl.
  cbn [wrap prekey_message_new pm_identity_key pm_version pm_base_key]. rewrite Ht.
  unfold promote_matching_session, matches_session. cbn [current_session].
  rewrite Hv, (Hb c eq_refl), N.eqb_refl, bool_decide_eq_true_2 by done. done.
Qed.

Definition kind (o : option Contact) : CiphertextMessageType :=
  match o with None => Whisper | Some _ => PreKey end.

(** What a participant makes of a message of a session it has *)
Lemma decrypt_known p x y o m g' r :
  corresponds p x y → base_known o (session x) →
  session_version (session x) = 4 → sm_version m = 4 →
  try_decrypt_with_state (session x) (end_address y) (end_address x) m (kind o) (rng p) = (g', r) →
  match r with
  | Ok (s', _) => remote_identity_key s' = Ok (Some (identity y))
  | Err e => duplicated e
  end →
  ∃ p', decrypt_message p (end_address y) (sealed_as o (identity y) m) = (p', lift (let? (_, ptext) <- r in Ok ptext))
    ∧ address p' = address p
    ∧ is_trusted_identity (identity_store (store p')) (end_address y) (identity y) = true
    ∧ ∃ previous, session_store (store p') !! end_address y
        = Some (MkRecord (Some match r with Ok (s', _) => s' | Err _ => session x end) previous).
Proof.
  intros [Ha [previous Hs] Ht] Hb Hv Hm Htry Hr.
  pose proof (record_decrypts (session x) previous (end_address y) (end_address x) m (kind o) (rng p) g' r)
    as Hrec. rewrite Hv, Hm in Hrec. specialize (Hrec eq_refl Htry).
  assert (Hd : match r with Ok _ => True | Err e => duplicated e end) by by destruct r as [[]|].
  specialize (Hrec Hd). unfold decrypt_message. cbn [Participant.message_decrypt libsignal]. rewrite Ha.
  cbn [Participant.SessionRecord libsignal] in Hs |- *.
  destruct o as [c|]; cbn [sealed_as kind Sessions.message_decrypt] in *.
  - unfold message_decrypt_prekey. rewrite Hs. cbn [from_option id].
    rewrite (process_known p x y previous c m Hv Hb Ht). cbn [wrap prekey_message_new pm_message pm_identity_key].
    rewrite Hrec. destruct r as [[s' ptext]|e].
    + eexists. split; [reflexivity|]. split; [done|]. split; [by apply trusted_saved|].
      exists previous. cbn. by rewrite lookup_insert_eq.
    + eexists. split; [reflexivity|]. split; [done|]. split; [done|]. by exists previous.
  - unfold message_decrypt_signal. rewrite Hs, Hrec. destruct r as [[s' ptext]|e].
    + cbn [current_session]. change (Some s' ≫= ?f) with (f s'). cbv beta. rewrite Hr. cbn [ok_or].
      rewrite Ht. eexists. split; [reflexivity|]. split; [done|]. split; [by apply trusted_saved|].
      exists previous. cbn. by rewrite lookup_insert_eq.
    + eexists. split; [reflexivity|]. split; [done|]. split; [done|]. by exists previous.
Qed.

Lemma linked_versions sc x y i lt pq m : linked sc x y → letters (side y) !! i = Some lt →
  sealed_letters y !! i = Some (pq, m) → session_version (session x) = 4 ∧ sm_version m = 4.
Proof using laws agree.
  intros H Hi Hm. destruct (letter_message _ _ _ _ _ _ _ H Hi Hm) as (Hl & _).
  split; [apply (half_session _ _ _ (linked_there _ _ _ H))|apply (letter_fields _ _ _ _ _ _ _ _ _ _ Hl)].
Qed.

Lemma linked_remote sc x y : linked sc x y →
  remote_identity_key (session x) = Ok (Some (identity y)).
Proof.
  intros [_ _ Hx Hy _]. eapply session_remote; [apply Hy|apply (half_session _ _ _ Hx)].
Qed.

Lemma decrypt_hear sc p x y i lt pq m o :
  linked sc x y → corresponds p x y → letters (side y) !! i = Some lt →
  sealed_letters y !! i = Some (pq, m) → l_opened lt = false → keeps_epoch x pq.1 →
  in_reach (turn (side x)) (l_turn lt) →
  (l_turn lt = S (turn (side x)) → turn_public sc (l_turn lt) ∉ turn_public sc <$> (windows x).*1) →
  base_known o (session x) →
  ∃ p' s' sc' l',
    decrypt_message p (end_address y) (sealed_as o (identity y) m) = (p', Ok (l_text lt))
    ∧ acknowledged (session x) s'
    ∧ linked sc' (answer_end x (l_turn lt) l' s') (mark_end y i)
    ∧ corresponds p' (answer_end x (l_turn lt) l' s') (mark_end y i)
    ∧ turn_public sc' 0 = turn_public sc 0
    ∧ ∀ j, j ∈ l'.*1 → j ∈ (windows x).*1 ∨ j = l_turn lt.
Proof using laws agree glaws pqlaws.
  intros H Hp Hi Hm Ho He Hr Hf Hb. destruct (linked_versions _ _ _ _ _ _ _ H Hi Hm) as [Hv Hvm].
  destruct (linked_hear _ _ _ _ _ _ _ (kind o) (rng p) H Hi Hm Ho He Hr Hf)
    as (g' & s' & sc' & l' & Htry & Hack & Hlinked & H0 & Hl').
  destruct (decrypt_known p x y o m g' _ Hp Hb Hv Hvm Htry) as (p' & Hd & Ha & Ht & Hs).
  { apply (linked_remote _ _ _ Hlinked). }
  exists p', s', sc', l'. split_and!; [exact Hd|done|done| |done|done].
  split; [|exact Hs|exact Ht]. rewrite Ha. apply Hp.
Qed.

Lemma decrypt_again sc p x y i lt pq m o :
  linked sc x y → corresponds p x y → letters (side y) !! i = Some lt →
  sealed_letters y !! i = Some (pq, m) → l_opened lt = true → in_reach (turn (side x)) (l_turn lt) →
  base_known o (session x) →
  ∃ p' e, decrypt_message p (end_address y) (sealed_as o (identity y) m) = (p', lift (Err e))
    ∧ duplicated e ∧ corresponds p' x y.
Proof using laws agree.
  intros H Hp Hi Hm Ho Hr Hb. destruct (linked_versions _ _ _ _ _ _ _ H Hi Hm) as [Hv Hvm].
  destruct (linked_again _ _ _ _ _ _ _ (kind o) (rng p) H Hi Hm Ho Hr) as [current Htry].
  destruct (decrypt_known p x y o m _ _ Hp Hb Hv Hvm Htry) as (p' & Hd & Ha & Ht & Hs); [by eexists _, _|].
  eexists p', _. split; [exact Hd|]. split; [by eexists _, _|].
  split; [|exact Hs|exact Ht]. rewrite Ha. apply Hp.
Qed.

(** ** The first message *)

(** A participant without a session, which [process_prekey] would make *)
Record awaits (c : Contact) p x y : Prop := {
  awaits_address : address p = end_address x;
  awaits_none : session_store (store p) !! end_address y = None;
  awaits_trusted : is_trusted_identity (identity_store (store p)) (end_address y) (identity y) = true;
  awaits_process m :
    process_prekey (wrap c (identity y) m) (end_address y) (end_address x) new_fresh
      (identity_store (store p)) (pre_key_store (store p)) (signed_pre_key_store (store p))
      (kyber_pre_key_store (store p))
    = Ok (MkRecord (Some (session x)) [],
          Some (MkPreKeysUsed (c_pre_key_id c) (c_signed_id c) (Some (c_kyber_id c))));
  awaits_unseen : is_ok (mark_kyber_pre_key_used (kyber_pre_key_store (store p)) (c_kyber_id c)
                           (c_signed_id c) (c_base c)) = true;
}.

Lemma decrypt_first sc p x y i lt pq m c :
  linked sc x y → awaits c p x y → letters (side y) !! i = Some lt →
  sealed_letters y !! i = Some (pq, m) → l_opened lt = false → keeps_epoch x pq.1 →
  in_reach (turn (side x)) (l_turn lt) →
  (l_turn lt = S (turn (side x)) → turn_public sc (l_turn lt) ∉ turn_public sc <$> (windows x).*1) →
  ∃ p' s' sc' l',
    decrypt_message p (end_address y) (sealed_as (Some c) (identity y) m) = (p', Ok (l_text lt))
    ∧ acknowledged (session x) s'
    ∧ linked sc' (answer_end x (l_turn lt) l' s') (mark_end y i)
    ∧ corresponds p' (answer_end x (l_turn lt) l' s') (mark_end y i)
    ∧ turn_public sc' 0 = turn_public sc 0
    ∧ ∀ j, j ∈ l'.*1 → j ∈ (windows x).*1 ∨ j = l_turn lt.
Proof using laws agree glaws pqlaws.
  intros H [Ha Hn Htr Hproc Hseen] Hi Hm Ho He Hr Hf.
  destruct (linked_versions _ _ _ _ _ _ _ H Hi Hm) as [Hv Hvm].
  destruct (linked_hear _ _ _ _ _ _ _ PreKey (rng p) H Hi Hm Ho He Hr Hf)
    as (g' & s' & sc' & l' & Htry & Hack & Hlinked & H0 & Hl').
  pose proof (record_decrypts (session x) [] (end_address y) (end_address x) m PreKey (rng p) g' _
    ltac:(congruence) Htry I) as Hrec. cbn beta iota in Hrec.
  destruct (mark_kyber_pre_key_used _ _ _ _) as [kyber|] eqn:Ek in Hseen; [|done].
  unfold decrypt_message. cbn [Participant.message_decrypt libsignal]. rewrite Ha.
  cbn [Participant.SessionRecord libsignal] in Hn |- *.
  cbn [sealed_as Sessions.message_decrypt]. unfold message_decrypt_prekey. rewrite Hn. cbn [from_option].
  rewrite Hproc. cbn [wrap prekey_message_new pm_message pm_identity_key pm_base_key]. rewrite Hrec, Ek.
  eexists _, s', sc', l'. split; [reflexivity|]. split_and!; [done|done| |done|done].
  split; cbn; [done|exists []; by rewrite lookup_insert_eq|by apply trusted_saved].
Qed.

(** ** As bytes *)

Lemma sealed_parses sc from to fa ta j n letter_text pq m o :
  letter sc from to fa ta j n letter_text pq m → length (public_key_bytes (turn_public sc j)) = 32%nat →
  N.of_nat n <= u32_max → sound_identity from → (∀ c, o = Some c → contact_ok c) →
  ciphertext_from_bytes (serialize (sealed_as o from m)) = Ok (sealed_as o from m).
Proof using laws agree claws.
  intros Hm Hk Hn Hi Ho. destruct (letter_parses _ _ _ _ _ _ _ _ _ _ Hm Hk Hn) as [H1 H2].
  unfold ciphertext_from_bytes, serialize.
  cbn [Participant.prekey_message_try_from Participant.signal_message_try_from
    Participant.signal_message_serialized Participant.prekey_message_serialized libsignal].
  destruct o as [c|]; cbn [sealed_as].
  - destruct (Ho c eq_refl). unfold wrap. by rewrite wrapped_parses.
  - by rewrite H2, H1.
Qed.
End steps.
