(* ===== verification/PrekeyLifecycle.v ===== *)
(** * From a participant's prekeys to its initiators

    The way of a bundle through the components: [Participant] generates it and keeps its
    private halves, [SignalWorker] packs the bundles for the repository and unpacks what
    an initiator fetches, [KeyRepository] hands them out.  [each_initiator_its_prekey]
    follows it end to end. *)

From S2P Require Import Prelude Inbox SenderKeyState GroupCipher PreKeys Participant SignalHttp.
From S2P Require Import SignalWorker.
From S2P Require Import Ratchet Sessions LibsignalSessions ToySession.
From S2P Require KeyRepository ServiceMetrics.
From stdpp Require Import options.

Local Open Scope N_scope.

Section lifecycle.
Context {crypto : SignalCrypto} {csprng : Csprng} {prim : kem.KemPrimitives}.
Context {pairwise : PairwiseLibrary} {text : UuidText}.

(** ** What initiators and the participant check *)

(** The two signatures [process_prekey_bundle] verifies *)
Definition verifies (b : PreKeyBundle) : Prop :=
  let identity := identity_public_key (b_identity_key b) in
  verify_signature identity (public_serialize (b_signed_pre_key_public b))
    (b_signed_pre_key_signature b) = true
  ∧ verify_signature identity (kem.serialize (b_kyber_pre_key_public b))
      (b_kyber_pre_key_signature b) = true.

(** The private halves [process_prekey_impl] loads belong to the bundle's public keys. *)
Definition answers (s : SignalStore) (b : PreKeyBundle) : Prop :=
  (∃ r kp, get_signed_pre_key (signed_pre_key_store s) (b_signed_pre_key_id b) = Ok r
     ∧ signed_pre_key_pair r = Ok kp ∧ sound_pair kp ∧ kp_public kp = b_signed_pre_key_public b)
  ∧ (∃ r kp, get_kyber_pre_key (kyber_pre_key_store s) (b_kyber_pre_key_id b) = Ok r
       ∧ kyber_pre_key_pair r = Ok kp ∧ kem.generated kp
       ∧ kem.public_key kp = b_kyber_pre_key_public b)
  ∧ match b_pre_key_id b with
    | Some id =>
        ∃ r kp, get_pre_key (pre_key_store s) id = Ok r
          ∧ pre_key_pair r = Ok kp ∧ sound_pair kp ∧ b_pre_key_public b = Some (kp_public kp)
    | None => b_pre_key_public b = None
    end.

(** ** Sound participants *)

Definition signed_by (k : PrivateKey) (message signature : bytes) : Prop :=
  ∃ random, signature = calculate_signature k random message.

Definition own_key (p : SignalParticipant) : PrivateKey := ik_private_key (identity_key_pair p).

Definition kyber_record (k : PrivateKey) (id : N) (r : SignedPreKeyRecord) (kp : kem.KeyPair) :
    Prop :=
  kem.generated kp ∧ ∃ timestamp signature,
    signed_by k (kem.serialize (kem.public_key kp)) signature
    ∧ r = kyber_pre_key_new id timestamp kp signature.

Record participant_ok (p : SignalParticipant) : Prop := {
  ok_identity : sound_pair (MkKeyPair (identity_public_key (ik_identity_key (identity_key_pair p)))
                              (own_key p));
  ok_signed : ∃ kp timestamp signature,
    sound_pair kp ∧ signed_by (own_key p) (public_serialize (kp_public kp)) signature
    ∧ signed_prekey_record p = signed_pre_key_new (signed_prekey_id p) timestamp kp signature;
  ok_last : ∃ kp, kyber_record (own_key p) (last_resort_pq_prekey_id p)
                    (last_resort_pq_prekey_record p) kp;
  ok_last_id : last_resort_pq_prekey_id p = u32_max;
  ok_store_identity : is_key_pair (identity_store (store p)) = identity_key_pair p;
  ok_store_registration : is_registration_id (identity_store (store p)) = registration_id p;
}.

(** What generating prekeys leaves alone *)
Record same_owner (p p' : SignalParticipant) : Prop := {
  same_name : name p' = name p;
  same_identity : identity_key_pair p' = identity_key_pair p;
  same_registration : registration_id p' = registration_id p;
  same_signed_id : signed_prekey_id p' = signed_prekey_id p;
  same_signed : signed_prekey_record p' = signed_prekey_record p;
  same_last_id : last_resort_pq_prekey_id p' = last_resort_pq_prekey_id p;
  same_last : last_resort_pq_prekey_record p' = last_resort_pq_prekey_record p;
  same_store_identity : identity_store (store p') = identity_store (store p);
}.

#[export] Instance same_owner_preorder : PreOrder same_owner.
Proof.
  split; [by split|]. intros p q r [] []. split; etrans; eassumption.
Qed.

Lemma participant_ok_same p p' : same_owner p p' → participant_ok p → participant_ok p'.
Proof.
  intros [] [H1 H2 H3 H4 H5 H6]. unfold own_key in *.
  split; unfold own_key; [congruence|..].
  - destruct H2 as (kp & t & s & ? & ? & ?). exists kp, t, s. split_and!; congruence.
  - destruct H3 as (kp & ?). exists kp. congruence.
  - congruence.
  - congruence.
  - congruence.
Qed.

Context {laws : SignalLaws} {glaws : CsprngLaws} {klaws : kem.KemLaws}.

Lemma lift_ok {A} (a : A) : lift (Ok a) = Ok a.
Proof. done. Qed.

(** ** Generating *)

Lemma sign_signed k m g : signed_by k m (sign k m g).1.
Proof. unfold sign. destruct (fill_bytes 64 g) as [random g']. by exists random. Qed.

Lemma generate_kyber_record id identity ms g :
  ∃ g' r kp, generate_kyber_prekey_record id identity (Some ms) g = (g', Ok r)
    ∧ kyber_record (ik_private_key identity) id r kp.
Proof using klaws.
  unfold generate_kyber_prekey_record.
  assert (Hk : kem.generated (kem.generate kem.Kyber768 g).1) by by eexists _, _.
  destruct (kem.generate kem.Kyber768 g) as [kp g1]. cbn [fst] in Hk.
  pose proof (sign_signed (ik_private_key identity) (kem.serialize (kem.public_key kp)) g1) as Hs.
  destruct (sign _ _ g1) as [signature g2]. cbn [current_timestamp].
  eexists g2, _, kp. split; [done|]. split; [done|]. by eexists _, _.
Qed.

Lemma kyber_record_public k id r kp : kyber_record k id r kp →
  kyber_pre_key_public r = Ok (kem.public_key kp).
Proof using klaws.
  intros (Hg & t & s & _ & ->). apply kem.serialize_deserialize, (kem.generated_sound _ Hg).
Qed.

Lemma kyber_record_pair k id r kp : kyber_record k id r kp → kyber_pre_key_pair r = Ok kp.
Proof using klaws.
  intros (Hg & t & s & _ & ->). destruct (kem.generated_sound _ Hg) as (Hl1 & Hl2 & Ht).
  unfold kyber_pre_key_pair, kem.from_public_and_private. cbn [spk_public spk_private kyber_pre_key_new].
  rewrite !kem.serialize_deserialize by done. rewrite decide_True by done. by destruct kp.
Qed.

Lemma pair_from_sound kp : sound_pair kp →
  pair_from (public_serialize (kp_public kp)) (private_serialize (kp_private kp)) = Ok kp.
Proof.
  intros (H1 & H2 & H3 & _). unfold pair_from. rewrite public_roundtrip by done. cbn [from_curve].
  rewrite private_roundtrip by done. by destruct kp.
Qed.

Lemma new_ok n env clock g ms ms' : clock 0%nat = Some ms → clock 1%nat = Some ms' →
  ∃ p, new n env clock g = Ok p ∧ participant_ok p ∧ next_one_time_prekey_id p = 1.
Proof using laws glaws klaws.
  intros H0 H1. unfold new, identity_generate.
  pose proof (generate_pair_sound g) as Hi. destruct (generate_pair g) as [ikp g1].
  destruct (random_u32 g1) as [reg g2].
  pose proof (generate_pair_sound g2) as Hs. destruct (generate_pair g2) as [spk g3].
  cbn [ik_private_key].
  pose proof (sign_signed (kp_private ikp) (public_serialize (kp_public spk)) g3) as Hg.
  destruct (sign _ _ g3) as [sig g4]. cbn [fst] in *. rewrite H0, H1. cbn [current_timestamp].
  destruct (generate_kyber_record LAST_RESORT_PQ_PREKEY_ID
    (MkIdentityKeyPair (MkIdentityKey (kp_public ikp)) (kp_private ikp)) ms' g4)
    as (g5 & r & kp & -> & Hr).
  eexists. split; [done|]. split; [|done].
  split; cbn; [by destruct ikp|by eexists spk, _, sig|by exists kp|done..].
Qed.

(** ** One-time bundles *)

(** The bundle number [id], with its private halves in the store *)
Definition one_time (p : SignalParticipant) (signed : PublicKey) (signature : bytes) (id : N)
    (b : PreKeyBundle) : Prop :=
  ∃ kp pq r, sound_pair kp ∧ kyber_record (own_key p) id r pq
    ∧ pre_key_store (store p) !! id = Some (pre_key_new id kp)
    ∧ kyber_pre_keys (kyber_pre_key_store (store p)) !! id = Some r
    ∧ b = bundle_new (registration_id p) DEVICE_ID (Some (id, kp_public kp)) (signed_prekey_id p)
            signed signature id (kem.public_key pq) (spk_signature r)
            (ik_identity_key (identity_key_pair p)).

(** The prekeys outside a range are untouched. *)
Definition outside (lo n : N) (p p' : SignalParticipant) : Prop :=
  ∀ id, id < lo ∨ lo + n <= id →
    pre_key_store (store p') !! id = pre_key_store (store p) !! id
    ∧ kyber_pre_keys (kyber_pre_key_store (store p')) !! id
      = kyber_pre_keys (kyber_pre_key_store (store p)) !! id.

Lemma one_time_later p p' signed signature id b lo n :
  same_owner p p' → outside lo n p p' → id < lo → one_time p signed signature id b →
  one_time p' signed signature id b.
Proof.
  intros [] Ho Hid (kp & pq & r & H1 & H2 & H3 & H4 & ->).
  destruct (Ho id ltac:(by left)) as [E1 E2]. exists kp, pq, r. unfold own_key in *.
  split_and!; [done|congruence|congruence|congruence|].
  unfold bundle_new. congruence.
Qed.

Lemma generate_one_time_spec p signed signature ms :
  next_one_time_prekey_id p < u32_max →
  ∃ p' b, generate_one_time p signed signature (Some ms) = (p', Ok b)
    ∧ same_owner p p' ∧ next_one_time_prekey_id p' = next_one_time_prekey_id p + 1
    ∧ outside (next_one_time_prekey_id p) 1 p p'
    ∧ one_time p' signed signature (next_one_time_prekey_id p) b.
Proof using laws glaws klaws.
  intros Hlt. unfold generate_one_time, checked_add32.
  replace (next_one_time_prekey_id p + 1 <=? u32_max) with true by (symmetry; apply N.leb_le; lia).
  set (id := next_one_time_prekey_id p) in *.
  pose proof (generate_pair_sound (rng (set_next_id p (id + 1)))) as Hs.
  destruct (generate_pair _) as [kp g1]. cbn [fst] in Hs.
  destruct (generate_kyber_record id (identity_key_pair (set_next_id p (id + 1))) ms g1)
    as (g2 & r & pq & E & Hr). rewrite E. clear E.
  assert (E : pre_key_public (pre_key_new id kp) = Ok (kp_public kp)).
  { destruct Hs as (H1 & _). unfold pre_key_public, pre_key_new. cbn [pre_public].
    by rewrite public_roundtrip. }
  rewrite E. unfold bundle_with. rewrite (kyber_record_public _ _ _ _ Hr), !lift_ok.
  eexists _, _. split; [done|]. split; [by split|]. split; [done|]. split.
  - intros id' Hid'. cbn. split; apply lookup_insert_ne; lia.
  - exists kp, pq, r. split; [done|]. split; [done|].
    split; [apply lookup_insert_eq|]. split; [apply lookup_insert_eq|done].
Qed.

Lemma generate_one_times_spec signed signature count : ∀ p clock,
  next_one_time_prekey_id p + N.of_nat count <= u32_max →
  (∀ i, (i < count)%nat → is_Some (clock i)) →
  ∃ p' bs, generate_one_times count p signed signature clock = (p', Ok bs)
    ∧ same_owner p p' ∧ next_one_time_prekey_id p' = next_one_time_prekey_id p + N.of_nat count
    ∧ outside (next_one_time_prekey_id p) (N.of_nat count) p p' ∧ length bs = count
    ∧ ∀ i b, bs !! i = Some b →
        one_time p' signed signature (next_one_time_prekey_id p + N.of_nat i) b.
Proof using laws glaws klaws.
  induction count as [|count IH]; intros p clock Hn Hc.
  - exists p, []. split; [done|]. split; [reflexivity|]. split; [cbn; lia|].
    split; [by intros id _|]. done.
  - destruct (Hc 0%nat ltac:(lia)) as [ms Hms]. cbn [generate_one_times]. rewrite Hms.
    destruct (generate_one_time_spec p signed signature ms ltac:(lia))
      as (p1 & b & -> & Hs1 & Hid1 & Ho1 & Hb).
    destruct (IH p1 (λ i, clock (S i)) ltac:(lia) ltac:(intros; apply Hc; lia))
      as (p2 & bs & -> & Hs2 & Hid2 & Ho2 & Hl & Hbs).
    exists p2, (b :: bs). split; [done|]. split; [by etrans|]. split; [lia|]. split.
    { intros id Hid. destruct (Ho1 id ltac:(lia)), (Ho2 id ltac:(lia)). split; congruence. }
    split; [cbn; lia|]. intros [|i] b'; cbn.
    + intros [= <-]. rewrite N.add_0_r. eapply one_time_later; [done|done| |done]. lia.
    + intros Hb'. specialize (Hbs i b' Hb'). rewrite Hid1 in Hbs.
      by replace (next_one_time_prekey_id p + N.of_nat (S i))
        with (next_one_time_prekey_id p + 1 + N.of_nat i) by lia.
Qed.

(** The last-resort bundle *)
Definition last_resort (p : SignalParticipant) (signed : PublicKey) (signature : bytes)
    (b : PreKeyBundle) : Prop :=
  ∃ pq, kyber_record (own_key p) (last_resort_pq_prekey_id p) (last_resort_pq_prekey_record p) pq
    ∧ b = bundle_new (registration_id p) DEVICE_ID None (signed_prekey_id p)
            signed signature (last_resort_pq_prekey_id p) (kem.public_key pq)
            (spk_signature (last_resort_pq_prekey_record p)) (ik_identity_key (identity_key_pair p)).

Lemma generate_spec p clock count :
  participant_ok p → next_one_time_prekey_id p + count <= u32_max →
  (∀ i, (i < N.to_nat count)%nat → is_Some (clock i)) →
  ∃ p' bs last kp timestamp signature,
    generate_publishable_prekey_bundles p count true clock = (p', Ok (bs ++ [last]))
    ∧ same_owner p p' ∧ next_one_time_prekey_id p' = next_one_time_prekey_id p + count
    ∧ outside (next_one_time_prekey_id p) count p p' ∧ length bs = N.to_nat count
    ∧ sound_pair kp ∧ signed_by (own_key p) (public_serialize (kp_public kp)) signature
    ∧ signed_prekey_record p = signed_pre_key_new (signed_prekey_id p) timestamp kp signature
    ∧ last_resort p' (kp_public kp) signature last
    ∧ ∀ i b, bs !! i = Some b →
        one_time p' (kp_public kp) signature (next_one_time_prekey_id p + N.of_nat i) b.
Proof using laws glaws klaws.
  intros Hok Hn Hc. destruct (ok_signed _ Hok) as (kp & ts & sig & Hkp & Hsig & Er).
  unfold generate_publishable_prekey_bundles. rewrite Er.
  assert (E : signed_pre_key_public (signed_pre_key_new (signed_prekey_id p) ts kp sig) = Ok (kp_public kp)).
  { destruct Hkp as (H1 & _). unfold signed_pre_key_public, signed_pre_key_new. cbn [spk_public].
    by rewrite public_roundtrip. }
  rewrite E, lift_ok. cbn [spk_signature signed_pre_key_new].
  destruct (generate_one_times_spec (kp_public kp) sig (N.to_nat count) p clock)
    as (p' & bs & -> & Hs & Hid & Ho & Hl & Hbs); [lia|done|]. rewrite N2Nat.id in *.
  pose proof (participant_ok_same _ _ Hs Hok) as Hok'.
  destruct (ok_last _ Hok') as (pq & Hpq).
  unfold bundle_with. rewrite (kyber_record_public _ _ _ _ Hpq), lift_ok.
  eexists p', bs, _, kp, ts, sig. split_and!; try done. by exists pq.
Qed.

(** ** Bundles are accepted *)

Lemma one_time_accepted p kp timestamp signature id b :
  participant_ok p → id < u32_max → sound_pair kp →
  signed_by (own_key p) (public_serialize (kp_public kp)) signature →
  signed_prekey_record p = signed_pre_key_new (signed_prekey_id p) timestamp kp signature →
  one_time p (kp_public kp) signature id b →
  verifies b ∧ answers (store (store_own_prekeys p)) b.
Proof using laws klaws.
  intros Hok Hid Hkp [random ->] Er (kp1 & pq & r & Hkp1 & Hr & H1 & H2 & ->).
  pose proof (ok_identity _ Hok) as Hi. split.
  - split; cbn [b_identity_key bundle_new b_signed_pre_key_public b_signed_pre_key_signature
      b_kyber_pre_key_public b_kyber_pre_key_signature].
    + apply (verify_calculated _ _ _ Hi).
    + destruct Hr as (_ & ts & s & [rnd ->] & ->). apply (verify_calculated _ _ _ Hi).
  - split_and!; cbn.
    + exists (signed_prekey_record p), kp. unfold get_signed_pre_key, save_signed_pre_key.
      rewrite lookup_insert_eq. split; [done|]. rewrite Er. split; [by apply pair_from_sound|done].
    + exists r, pq. unfold get_kyber_pre_key. cbn.
      rewrite lookup_insert_ne, H2 by (rewrite (ok_last_id _ Hok); lia).
      split; [done|]. split; [by eapply kyber_record_pair|]. split; [apply Hr|done].
    + exists (pre_key_new id kp1), kp1. unfold get_pre_key. rewrite H1.
      split; [done|]. split; [by apply pair_from_sound|done].
Qed.

Lemma last_resort_accepted p kp timestamp signature b :
  participant_ok p → sound_pair kp →
  signed_by (own_key p) (public_serialize (kp_public kp)) signature →
  signed_prekey_record p = signed_pre_key_new (signed_prekey_id p) timestamp kp signature →
  last_resort p (kp_public kp) signature b →
  verifies b ∧ answers (store (store_own_prekeys p)) b.
Proof using laws klaws.
  intros Hok Hkp [random ->] Er (pq & Hr & ->).
  pose proof (ok_identity _ Hok) as Hi. split.
  - split; cbn [b_identity_key bundle_new b_signed_pre_key_public b_signed_pre_key_signature
      b_kyber_pre_key_public b_kyber_pre_key_signature].
    + apply (verify_calculated _ _ _ Hi).
    + destruct Hr as (_ & ts & s & [rnd ->] & ->). apply (verify_calculated _ _ _ Hi).
  - split_and!; cbn; [| |done].
    + exists (signed_prekey_record p), kp. unfold get_signed_pre_key, save_signed_pre_key.
      rewrite lookup_insert_eq. split; [done|]. rewrite Er. split; [by apply pair_from_sound|done].
    + eexists _, pq. unfold get_kyber_pre_key. cbn. rewrite lookup_insert_eq.
      split; [done|]. split; [by eapply kyber_record_pair|]. split; [apply Hr|done].
Qed.

(** ** Through the batch and back *)

Definition storable (b : PreKeyBundle) : KeyRepository.OneTimePrekeyStorable :=
  KeyRepository.MkOneTimePrekey (default 0 (b_pre_key_id b))
    (from_option public_serialize [] (b_pre_key_public b)) (b_kyber_pre_key_id b)
    (kem.serialize (b_kyber_pre_key_public b)) (b_kyber_pre_key_signature b).

(** The batch of one-time bundles and a last-resort bundle, with [b]'s common fields *)
Definition batch_of (b : PreKeyBundle) (bs : list PreKeyBundle) (last : PreKeyBundle) :
    KeyRepository.PrekeyBundleBatchStorable :=
  KeyRepository.MkBatch (b_registration_id b) (b_device_id b) (b_signed_pre_key_id b)
    (public_serialize (b_signed_pre_key_public b)) (b_signed_pre_key_signature b)
    (public_serialize (identity_public_key (b_identity_key b)))
    (b_kyber_pre_key_id last) (kem.serialize (b_kyber_pre_key_public last))
    (b_kyber_pre_key_signature last) (storable <$> bs) true.

Definition has_pre_key (b : PreKeyBundle) : Prop :=
  is_Some (b_pre_key_id b) ∧ is_Some (b_pre_key_public b).
Definition no_pre_key (b : PreKeyBundle) : Prop :=
  b_pre_key_id b = None ∧ b_pre_key_public b = None.

Lemma sort_bundles_spec bs last : ∀ acc f,
  Forall has_pre_key bs → no_pre_key last →
  sort_bundles (bs ++ [last]) acc f
  = Ok (acc ++ (storable <$> bs),
        Some (b_kyber_pre_key_id last, kem.serialize (b_kyber_pre_key_public last),
              b_kyber_pre_key_signature last)).
Proof.
  induction bs as [|b bs IH]; intros acc f Hbs [Hl1 Hl2]; cbn [app sort_bundles].
  - by rewrite Hl1, Hl2, app_nil_r.
  - inversion_clear Hbs as [|?? [[id Hid] [k Hk]] Hbs'].
    assert (Eb : storable b = KeyRepository.MkOneTimePrekey id (public_serialize k)
                   (b_kyber_pre_key_id b) (kem.serialize (b_kyber_pre_key_public b))
                   (b_kyber_pre_key_signature b)) by (unfold storable; by rewrite Hid, Hk).
    rewrite Hid, Hk, IH, <-Eb, <-app_assoc by done. done.
Qed.

Lemma batch_spec bs last : Forall has_pre_key bs → no_pre_key last →
  prekey_bundle_batch (bs ++ [last]) = Ok (batch_of (default last (head bs)) bs last).
Proof.
  intros Hbs Hl. unfold prekey_bundle_batch.
  replace (head (bs ++ [last])) with (Some (default last (head bs))) by by destruct bs.
  cbn [ok_or]. by rewrite sort_bundles_spec.
Qed.

(** The fields a batch keeps once *)
Definition common (b b' : PreKeyBundle) : Prop :=
  b_registration_id b = b_registration_id b' ∧ b_device_id b = b_device_id b'
  ∧ b_signed_pre_key_id b = b_signed_pre_key_id b'
  ∧ b_signed_pre_key_public b = b_signed_pre_key_public b'
  ∧ b_signed_pre_key_signature b = b_signed_pre_key_signature b'
  ∧ b_identity_key b = b_identity_key b'.

(** Keys of the lengths the decoder asks for *)
Definition decodable (b : PreKeyBundle) : Prop :=
  b_device_id b = DEVICE_ID
  ∧ length (public_key_bytes (b_signed_pre_key_public b)) = 32%nat
  ∧ length (public_key_bytes (identity_public_key (b_identity_key b))) = 32%nat
  ∧ length (kem.key_data (b_kyber_pre_key_public b))
    = kem.key_length kem.Public (kem.key_type (b_kyber_pre_key_public b))
  ∧ from_option (λ k, length (public_key_bytes k) = 32%nat) True (b_pre_key_public b).

Lemma decode_public_ok what k : length (public_key_bytes k) = 32%nat →
  decode_public what (public_serialize k) = Ok k.
Proof. intros H. unfold decode_public. by rewrite public_roundtrip. Qed.

Lemma decode_one_time b0 bs last b :
  common b0 b → decodable b → has_pre_key b →
  decode_bundle (KeyRepository.one_time_bundle (batch_of b0 bs last) (storable b)) = Ok b.
Proof.
  intros (E1 & E2 & E3 & E4 & E5 & E6) (D1 & D2 & D3 & D4 & D5) [[id Hid] [k Hk]].
  unfold decode_bundle. cbn -[decode_public kem.deserialize kem.serialize public_serialize device_id_new].
  rewrite Hid, Hk in *. cbn [default from_option] in *.
  rewrite E1, E2, E3, E4, E5, E6, !decode_public_ok by done.
  rewrite kem.serialize_deserialize by done. rewrite D1.
  cbn -[bundle_new]. unfold bundle_new. destruct b as [? ? ? ? ? ? ? [] ? ? ?]. cbn in *. congruence.
Qed.

Lemma decode_last_resort b0 bs last :
  common b0 last → decodable last → no_pre_key last →
  decode_bundle (KeyRepository.fallback_bundle (batch_of b0 bs last)) = Ok last.
Proof.
  intros (E1 & E2 & E3 & E4 & E5 & E6) (D1 & D2 & D3 & D4 & D5) [Hid Hk].
  unfold decode_bundle. cbn -[decode_public kem.deserialize kem.serialize public_serialize device_id_new].
  rewrite E1, E2, E3, E4, E5, E6, !decode_public_ok by done.
  rewrite kem.serialize_deserialize by done. rewrite D1.
  cbn -[bundle_new]. unfold bundle_new. destruct last as [? ? ? ? ? ? ? [] ? ? ?]. cbn in *. congruence.
Qed.

(** ** What every bundle of a participant shares *)

Record owned (p : SignalParticipant) (signed : PublicKey) (signature : bytes) (b : PreKeyBundle) :
    Prop := {
  owned_registration : b_registration_id b = registration_id p;
  owned_device : b_device_id b = DEVICE_ID;
  owned_signed_id : b_signed_pre_key_id b = signed_prekey_id p;
  owned_signed : b_signed_pre_key_public b = signed;
  owned_signature : b_signed_pre_key_signature b = signature;
  owned_identity : b_identity_key b = ik_identity_key (identity_key_pair p);
}.

Lemma owned_common p signed signature b b' :
  owned p signed signature b → owned p signed signature b' → common b b'.
Proof. intros [] []. unfold common. split_and!; congruence. Qed.

Lemma kyber_record_length k id r pq : kyber_record k id r pq →
  length (kem.key_data (kem.public_key pq)) = kem.key_length kem.Public (kem.key_type (kem.public_key pq)).
Proof using klaws. intros (Hg & _). apply (kem.generated_sound _ Hg). Qed.

Lemma owned_decodable p signed signature b :
  participant_ok p → length (public_key_bytes signed) = 32%nat → owned p signed signature b →
  length (kem.key_data (b_kyber_pre_key_public b))
    = kem.key_length kem.Public (kem.key_type (b_kyber_pre_key_public b)) →
  from_option (λ k, length (public_key_bytes k) = 32%nat) True (b_pre_key_public b) → decodable b.
Proof.
  intros Hok Hs [] Hk Ho. destruct (ok_identity _ Hok) as (Hi & _). cbn in Hi.
  unfold decodable. split_and!; [done|congruence|congruence|done|done].
Qed.

Lemma one_time_shape p signed signature id b :
  participant_ok p → length (public_key_bytes signed) = 32%nat → one_time p signed signature id b →
  owned p signed signature b ∧ has_pre_key b ∧ b_pre_key_id b = Some id ∧ decodable b.
Proof using laws klaws.
  intros Hok Hs (kp & pq & r & Hkp & Hr & _ & _ & ->).
  match goal with |- owned _ _ _ ?b ∧ _ => assert (Ho : owned p signed signature b) by done end.
  split; [done|]. split; [by split; eexists|]. split; [done|].
  eapply owned_decodable; [done..| |apply Hkp]. by eapply kyber_record_length.
Qed.

Lemma last_resort_shape p signed signature b :
  participant_ok p → length (public_key_bytes signed) = 32%nat → last_resort p signed signature b →
  owned p signed signature b ∧ no_pre_key b ∧ decodable b.
Proof using laws klaws.
  intros Hok Hs (pq & Hr & ->).
  match goal with |- owned _ _ _ ?b ∧ _ => assert (Ho : owned p signed signature b) by done end.
  split; [done|]. split; [by split|]. eapply owned_decodable; [done..| |done]. by eapply kyber_record_length.
Qed.
End lifecycle.

(** ** Through the repository *)

(** Initiators one after the other: each fetches, then reports the use of its bundle. *)
Fixpoint initiators (n : nat) (kr : KeyRepository.KeyRepository) (participant : string) :
    list (option KeyRepository.PrekeyBundleStorable) :=
  match n with
  | O => []
  | S n =>
      KeyRepository.fetch_prekey_bundle kr participant
      :: initiators n (KeyRepository.consume_one_time_prekey kr participant).1 participant
  end.

Lemma initiators_last n participant b : ∀ kr,
  KeyRepository.is_one_time b = false →
  KeyRepository.prekey_bundles kr !! participant = Some [b] →
  initiators n kr participant = replicate n (Some b).
Proof.
  induction n as [|n IH]; intros kr Hb Hq; [done|]. cbn [initiators replicate].
  unfold KeyRepository.fetch_prekey_bundle, peek. rewrite Hq. cbn [head]. f_equal.
  unfold KeyRepository.consume_one_time_prekey. rewrite Hq.
  unfold KeyRepository.is_one_time in Hb. rewrite Hb. cbn [negb fst].
  by apply IH.
Qed.

Lemma initiators_spec participant b ots : ∀ n kr,
  Forall (λ b, KeyRepository.is_one_time b = true) ots → KeyRepository.is_one_time b = false →
  KeyRepository.prekey_bundles kr !! participant = Some (ots ++ [b]) →
  initiators n kr participant = (λ i, Some (default b (ots !! i))) <$> seq 0 n.
Proof.
  induction ots as [|o ots IH]; intros n kr Hots Hb Hq.
  - rewrite (initiators_last n participant b) by done. clear. generalize 0%nat.
    induction n as [|n IHn]; intros s; [done|]. cbn. f_equal. apply IHn.
  - inversion_clear Hots as [|?? Ho Hots']. destruct n as [|n]; [done|]. cbn [initiators seq fmap list_fmap].
    unfold KeyRepository.fetch_prekey_bundle, peek. rewrite Hq. cbn [head app]. f_equal.
    unfold KeyRepository.consume_one_time_prekey. rewrite Hq. cbn [app].
    unfold KeyRepository.is_one_time in Ho. rewrite Ho. cbn [negb fst].
    rewrite (IH n) by (done || apply lookup_insert_eq).
    by rewrite <-fmap_S_seq, <-list_fmap_compose.
Qed.

(** A batch for a participant the repository has no bundles of *)
Lemma publish_first kr participant batch :
  KeyRepository.prekey_bundles kr !! participant = None →
  KeyRepository.signed_prekey_fallback batch = true →
  KeyRepository.prekey_bundles (KeyRepository.publish_prekey_bundle_batch kr participant batch) !! participant
  = Some ((KeyRepository.one_time_bundle batch <$> KeyRepository.one_time_prekeys batch)
          ++ [KeyRepository.fallback_bundle batch]).
Proof.
  intros Hn Hf. unfold KeyRepository.publish_prekey_bundle_batch, KeyRepository.publish_prekey_bundles, queue.
  rewrite Hn, !KeyRepository.foldl_sort. unfold KeyRepository.expand. rewrite Hf. cbn [fst snd default app].
  set (ots := KeyRepository.one_time_bundle batch <$> _).
  assert (Hots : Forall (λ b, KeyRepository.is_one_time b = true) ots).
  { apply Forall_forall. by intros b (k & -> & _)%list_elem_of_fmap. }
  assert (E1 : filter KeyRepository.is_one_time (ots ++ [KeyRepository.fallback_bundle batch]) = ots).
  { rewrite filter_app, filter_all_true, filter_false, app_nil_r; [done..|].
    eapply Forall_impl; [exact Hots|]. by intros b ->. }
  assert (E2 : filter (λ b, negb (KeyRepository.is_one_time b)) (ots ++ [KeyRepository.fallback_bundle batch])
    = [KeyRepository.fallback_bundle batch]).
  { rewrite filter_app, filter_all_false, filter_true; [done..|].
    eapply Forall_impl; [exact Hots|]. intros b ->. by intros []. }
  rewrite E1, E2. cbn. apply lookup_insert_eq.
Qed.

Section journey.
Context {crypto : SignalCrypto} {csprng : Csprng} {prim : kem.KemPrimitives}.
Context {pairwise : PairwiseLibrary} {text : UuidText}.
Context {laws : SignalLaws} {glaws : CsprngLaws} {klaws : kem.KemLaws}.

(** [p] itself answers the bundle [b], and it carries [p]'s identity. *)
Definition acceptable (p : SignalParticipant) (b : PreKeyBundle) : Prop :=
  verifies b ∧ answers (store p) b
  ∧ b_identity_key b = ik_identity_key (is_key_pair (identity_store (store p))).

Lemma generated_acceptable p' bs last kp timestamp signature lo :
  participant_ok p' → sound_pair kp →
  signed_by (own_key p') (public_serialize (kp_public kp)) signature →
  signed_prekey_record p' = signed_pre_key_new (signed_prekey_id p') timestamp kp signature →
  lo + N.of_nat (length bs) <= u32_max → last_resort p' (kp_public kp) signature last →
  (∀ i b, bs !! i = Some b → one_time p' (kp_public kp) signature (lo + N.of_nat i) b) →
  ∀ b, b ∈ bs ++ [last] → acceptable (store_own_prekeys p') b.
Proof using laws klaws.
  intros Hok Hkp Hsig Er Hlo Hl Hbs b Hb.
  assert (Hid : ik_identity_key (is_key_pair (identity_store (store (store_own_prekeys p'))))
    = ik_identity_key (identity_key_pair p')) by (cbn; by rewrite (ok_store_identity _ Hok)).
  apply elem_of_app in Hb as [[i Hi]%list_elem_of_lookup| ->%list_elem_of_singleton].
  - pose proof (Hbs i b Hi) as Hot. pose proof (lookup_lt_Some _ _ _ Hi).
    destruct (one_time_accepted p' kp timestamp signature (lo + N.of_nat i) b Hok ltac:(lia) Hkp Hsig Er Hot) as [Hv Ha].
    split; [done|]. split; [done|]. rewrite Hid.
    apply (owned_identity _ _ _ _ (proj1 (one_time_shape _ _ _ _ _ Hok (proj1 Hkp) Hot))).
  - destruct (last_resort_accepted _ _ _ _ _ Hok Hkp Hsig Er Hl) as [Hv Ha].
    split; [done|]. split; [done|]. rewrite Hid.
    apply (owned_identity _ _ _ _ (proj1 (last_resort_shape _ _ _ _ Hok (proj1 Hkp) Hl))).
Qed.

(** C20: The bundles a participant generates, put into a batch and published in the
    repository, reach its initiators: initiator number [i], who fetches, decodes and then
    reports the use of a bundle, gets exactly the [i]th bundle that was generated, with the
    [i]th one-time prekey number, so that no one-time prekey is handed out twice; when the
    one-time bundles are used up, it gets the last-resort bundle, again and again.  Every
    bundle handed out passes the signature checks of [process_prekey_bundle], carries the
    participant's identity, and the participant, after [store_own_prekeys], has the private
    keys that answer it.  The numbers of the one-time prekeys must not exceed [u32::MAX]. *)
Theorem each_initiator_its_prekey p clock count kr n :
  participant_ok p → next_one_time_prekey_id p + count <= u32_max →
  (∀ i, (i < N.to_nat count)%nat → is_Some (clock i)) →
  KeyRepository.prekey_bundles kr !! name p = None →
  let '(p', bundles) := generate_publishable_prekey_bundles p count true clock in
  ∃ bs last batch,
    bundles = Ok (bs ++ [last]) ∧ prekey_bundle_batch (bs ++ [last]) = Ok batch
    ∧ length bs = N.to_nat count
    ∧ (∀ i b, bs !! i = Some b → b_pre_key_id b = Some (next_one_time_prekey_id p + N.of_nat i))
    ∧ (∀ b, b ∈ bs ++ [last] → acceptable (store_own_prekeys p') b)
    ∧ ∀ i, (i < n)%nat →
        ∃ s, initiators n (KeyRepository.publish_prekey_bundle_batch kr (name p) batch) (name p) !! i
             = Some (Some s)
          ∧ decode_bundle s = Ok (default last (bs !! i)).
Proof using laws glaws klaws.
  intros Hok Hn Hc Hkr.
  destruct (generate_spec p clock count Hok Hn Hc)
    as (p' & bs & last & kp & ts & sig & -> & Hsame & _ & _ & Hlen & Hkp & Hsig & Er & Hl & Hbs).
  pose proof (participant_ok_same _ _ Hsame Hok) as Hok'.
  assert (Hshape : ∀ i b, bs !! i = Some b → owned p' (kp_public kp) sig b ∧ has_pre_key b
    ∧ b_pre_key_id b = Some (next_one_time_prekey_id p + N.of_nat i) ∧ decodable b).
  { intros i b Hi. by apply one_time_shape, Hbs; [|apply Hkp|]. }
  destruct (last_resort_shape p' _ sig last Hok' (proj1 Hkp) Hl) as (Hlo & Hln & Hld).
  assert (Hhas : Forall has_pre_key bs).
  { apply Forall_lookup. intros i b Hi. by apply (Hshape i b Hi). }
  exists bs, last, (batch_of (default last (head bs)) bs last).
  assert (Hhead : owned p' (kp_public kp) sig (default last (head bs))).
  { destruct bs as [|b bs']; [done|]. apply (Hshape 0%nat b eq_refl). }
  split; [done|]. split; [by apply batch_spec|]. split; [done|].
  split; [intros i b Hi; apply (Hshape i b Hi)|]. split.
  { eapply (generated_acceptable p' bs last kp ts sig); [done..| | | |done|exact Hbs].
    - by destruct Hsame; unfold own_key in *; congruence.
    - by destruct Hsame; congruence.
    - rewrite Hlen. lia. }
  intros i Hi. set (batch := batch_of _ _ _).
  rewrite (initiators_spec (name p) (KeyRepository.fallback_bundle batch)
    (KeyRepository.one_time_bundle batch <$> KeyRepository.one_time_prekeys batch)); [..|done|].
  - rewrite list_lookup_fmap, lookup_seq_lt by done. eexists. split; [reflexivity|].
    cbn [KeyRepository.one_time_prekeys batch batch_of]. rewrite !list_lookup_fmap, Nat.add_0_l.
    destruct (bs !! i) as [b|] eqn:Eb; cbn [fmap option_fmap option_map default from_option id].
    + destruct (Hshape i b Eb) as (Ho & Hp & _ & Hd). apply decode_one_time; [exact (owned_common _ _ _ _ _ Hhead Ho)|done..].
    + apply decode_last_resort; [exact (owned_common _ _ _ _ _ Hhead Hlo)|done..].
  - apply Forall_forall. by intros b (k & -> & _)%list_elem_of_fmap.
  - by apply publish_first.
Qed.
End journey.

(** Bob publishes two bundles and four initiators come. *)
Lemma each_initiator_its_prekey_witness : ∃ p,
  new (csprng := toy_rng) "bob" (λ _, None) (λ i, Some (N.of_nat i)) 2000 = Ok p
  ∧ (participant_ok p ∧ next_one_time_prekey_id p + 2 <= u32_max)
  ∧ let '(p', bundles) := generate_publishable_prekey_bundles p 2 true (λ i, Some (N.of_nat i)) in
    ∃ bs last batch,
      bundles = Ok (bs ++ [last]) ∧ prekey_bundle_batch (bs ++ [last]) = Ok batch
      ∧ length bs = 2%nat
      ∧ (∀ i b, bs !! i = Some b → b_pre_key_id b = Some (next_one_time_prekey_id p + N.of_nat i))
      ∧ (∀ b, b ∈ bs ++ [last] → acceptable (store_own_prekeys p') b)
      ∧ ∀ i, (i < 4)%nat →
          ∃ s, initiators 4 (KeyRepository.publish_prekey_bundle_batch
                               (KeyRepository.new (ServiceMetrics.new None)) (name p) batch) (name p) !! i
               = Some (Some s)
            ∧ decode_bundle s = Ok (default last (bs !! i)).
Proof.
  destruct (new_ok (csprng := toy_rng) "bob" (λ _, None) (λ i, Some (N.of_nat i)) 2000 0 1 eq_refl eq_refl)
    as (p & Hp & Hok & Hid).
  exists p. split; [exact Hp|].
  assert (Hn : next_one_time_prekey_id p + 2 <= u32_max) by (rewrite Hid; done).
  split; [by split|].
  exact (each_initiator_its_prekey p (λ i, Some (N.of_nat i)) 2 (KeyRepository.new (ServiceMetrics.new None)) 4
    Hok Hn (λ i _, ltac:(eexists; reflexivity)) (lookup_empty _)).
Defined.
