(* ===== verification/SignalRunner.v ===== *)
(** * The Signal runner and its workers

    The lower layers of [Signal_containerized/src/staircase_runner.rs]: what the runner does
    to the world ([RunnerEffect]), its errors, one command sent to one worker until an
    answer comes ([send_command_with_context]), the state it keeps ([Runner]), its
    records of workers that failed ([record_worker_oom_if_evidenced]), and batches of commands.
    The printed diagnostics and the copy of a record in the profile file are left out. *)

From S2P Require Import Prelude Text Interaction HttpRetry SignalWorker Program.
From S2P Require CommandCache Batches RunnerConfig RunnerCommands.
From S2P Require HttpEffects Batches RunnerCommands RunnerState.
From stdpp Require Import options.

Local Open Scope N_scope.

Abbreviation CommandResponse := CommandCache.CommandResponse.
Abbreviation response_status := CommandCache.status.
Abbreviation response_message := CommandCache.message.

(** ** Workers, cursors and requests *)

Inductive ContainerMode := Singleton | Packed.

#[export] Instance container_mode_eq_dec : EqDecision ContainerMode.
Proof. solve_decision. Defined.

(** The fields of [WorkerSpec] the runner reads after start-up *)
Record WorkerSpec := MkWorkerSpec {
  id : string;
  url : string;
  physical_worker_id : string;
  container_mode : ContainerMode;
  profile_enabled : bool;
}.

#[export] Instance worker_spec_eq_dec : EqDecision WorkerSpec.
Proof. solve_decision. Defined.

Record BenchmarkCursor := MkCursor {
  plateau_index : N;
  target_size : N;
  active_size : N;
  phase : string;
  operation : string;
  operation_seq : option N;
  payload_size : option N;
}.

Definition new_cursor (plateau_index target_size active_size : N) (phase operation : string) :
    BenchmarkCursor :=
  MkCursor plateau_index target_size active_size phase operation None None.

Definition at_operation (c : BenchmarkCursor) (seq : N) (payload : option N) : BenchmarkCursor :=
  MkCursor (plateau_index c) (target_size c) (active_size c) (phase c) (operation c) (Some seq) payload.

(** A workflow: its id, and which pair of how many *)
Definition Workflow : Type := N * N * N.

Record WorkerCommandContext := MkContext {
  ctx_request_id : string;
  ctx_phase : option string;
  ctx_cursor : option BenchmarkCursor;
  ctx_workflow : option Workflow;
}.

Definition with_workflow (c : WorkerCommandContext) (workflow_id pair_index pair_count : N) :
    WorkerCommandContext :=
  MkContext (ctx_request_id c) (ctx_phase c) (ctx_cursor c) (Some (workflow_id, pair_index, pair_count)).

Record CommandRequestEnvelope := MkRequest {
  req_request_id : string;
  req_command : Command;
  req_context : WorkerCommandContext;
}.

(** [BatchCommandItem] has the same fields. *)
Record BatchFanoutCommand := MkBatchCommand {
  participant_id : string;
  cmd_request_id : option string;
  cmd_command : Command;
  cmd_phase : option string;
  cmd_profile : option bool;
  cmd_cursor : option BenchmarkCursor;
  cmd_workflow : option Workflow;
}.

Record BatchCommandResult := MkBatchResult {
  res_participant_id : string;
  res_response : CommandResponse;
}.

(** ** Errors *)

Inductive WorkerCommandErrorClass := TransportRetryable | FatalHttpStatus | FatalDecode.

Definition class_as_str (c : WorkerCommandErrorClass) : string :=
  match c with
  | TransportRetryable => "transport-retryable"
  | FatalHttpStatus => "fatal-http-status"
  | FatalDecode => "fatal-decode"
  end.

Record WorkerCommandError := MkCommandError {
  ce_worker_id : string;
  ce_command : string;
  ce_url : string;
  ce_request_id : string;
  ce_attempts : N;
  ce_classification : WorkerCommandErrorClass;
  ce_last_error : string;
  ce_diagnostic : option string;
}.

(** [anyhow::Error] with the types the runner downcasts to; [EndpointFailure] is a
    [SenderKeyEndpointFailure] with the error of its command as context. *)
Inductive RunnerError :=
| Plain (e : Error)
| CommandFailed (e : WorkerCommandError)
| BatchFanoutError (phase operation : string) (failures : list FanoutFailure)
| ExpectedProfiledFailureStop (count limit : N)
| EndpointFailure (worker_id : string) (context : RunnerError)
with FanoutFailure := MkFailure (worker : WorkerSpec) (error : RunnerError).

Definition failed_worker (f : FanoutFailure) : WorkerSpec := let '(MkFailure w _) := f in w.
Definition failure_error (f : FanoutFailure) : RunnerError := let '(MkFailure _ e) := f in e.

Definition bail (message : string) : RunnerError := Plain (anyhow message).

Definition display_command_error (e : WorkerCommandError) : string :=
  "runner.worker_command failed: worker=" +:+ ce_worker_id e +:+ " command=" +:+ ce_command e
  +:+ " url=" +:+ ce_url e +:+ " request_id=" +:+ ce_request_id e +:+ " attempts="
  +:+ pretty (ce_attempts e) +:+ " classification=" +:+ class_as_str (ce_classification e)
  +:+ " last_error=" +:+ ce_last_error e
  +:+ match ce_diagnostic e with Some d => " diagnostic=" +:+ d | None => "" end.

(** [{}]; a batch shows five of its failures. *)
Fixpoint display_error (e : RunnerError) : string :=
  match e with
  | Plain e => display e
  | CommandFailed e => display_command_error e
  | BatchFanoutError phase operation failures =>
      "batch_fanout phase=" +:+ phase +:+ " operation=" +:+ operation +:+ " failed_workers="
      +:+ pretty (N.of_nat (length failures)) +:+ " sample_errors=["
      +:+ String.concat "; " (take 5 (map display_failure failures)) +:+ "]"
  | ExpectedProfiledFailureStop count limit =>
      "expected profiled resource-failure stop after " +:+ pretty count +:+ "/" +:+ pretty limit
      +:+ " workers"
  | EndpointFailure _ context => display_error context
  end
with display_failure (f : FanoutFailure) : string :=
  match f with MkFailure w e => id w +:+ ": " +:+ display_error e end.

(** [{:#}] *)
Definition error_text (e : RunnerError) : string :=
  match e with
  | Plain e => alternate e
  | EndpointFailure worker_id context =>
      display_error context +:+ ": Sender Keys endpoint " +:+ worker_id
      +:+ " removed after resource failure"
  | e => display_error e
  end.

(** No error of the runner is a bare [reqwest::Error]. *)
Definition classify_worker_error (error : RunnerError) : string :=
  let error_str := to_ascii_lowercase (error_text error) in
  if contains "app_heap_budget_exceeded" error_str then "app_heap_budget_exceeded"
  else if contains "app_heap_budget_allocator_abort" error_str
  then "app_heap_budget_allocator_abort"
  else if contains "embedded_budget_timeout" error_str then "embedded_budget_timeout"
  else if contains "connection refused" error_str then "container_exit"
  else if contains_any ["timeout"; "deadline"; "timed out"] error_str
  then "cpu_starvation_timeout"
  else if contains "connect" error_str then "worker_unreachable"
  else "infrastructure_failure".

(** ** The world *)

Abbreviation OomEvidence := RunnerCommands.OomEvidence.
Abbreviation HttpOutcome := RunnerCommands.HttpOutcome.

Definition evidence_matches (e : OomEvidence) (worker : WorkerSpec) : bool :=
  bool_decide (RunnerCommands.evidence_worker_id e = Some (id worker))
  || bool_decide (RunnerCommands.evidence_physical_worker_id e = Some (physical_worker_id worker)).

(** The fields of [RunnerEvent] that are not the clock *)
Record RunnerEvent := MkEvent {
  failed_worker_id : string;
  failed_physical_worker_id : string;
  failure_class : string;
  failure_detail : string;
  failure_evidence_source : option string;
  failure_evidence_detail : option string;
  failure_action : string;
  reassigned_to_worker_id : option string;
  event_cursor : BenchmarkCursor;
}.

(** [NextRequestSeq] and [NextWorkflowId] are the two counters; [ThreadRange lo hi] is
    [random_range(lo..=hi)]; the others are as those of the OpenMLS runner. *)
Inductive RunnerEffect : Type → Type :=
| NextRequestSeq : RunnerEffect N
| NextWorkflowId : RunnerEffect N
| PostCommand (url : string) (r : CommandRequestEnvelope) : RunnerEffect (HttpOutcome CommandResponse)
| PostBatch (url : string) (items : list BatchFanoutCommand) :
    RunnerEffect (HttpOutcome (list BatchCommandResult))
| ReadOomEvidence : RunnerEffect (list OomEvidence)
| AppendEvent (e : RunnerEvent) : RunnerEffect (result Error unit)
| HashOrder (n : nat) : RunnerEffect (list nat)
| CompletionOrder (n : nat) : RunnerEffect (list nat)
| SleepMs (ms : N) : RunnerEffect unit
| ThreadRange (lo hi : N) : RunnerEffect N
| NowMs : RunnerEffect N.

Class RunnerExternals := {
  http_status_text : N → string;
  process_id : N;
}.

Abbreviation Call A := (prog RunnerEffect (result RunnerError A)).

Section commands.
Context {ext : RunnerExternals}.

(** ** One command *)

Definition WORKER_COMMAND_MAX_ATTEMPTS : N := 10.
Definition WORKER_COMMAND_INITIAL_DELAY : N := 100.
Definition WORKER_COMMAND_MAX_DELAY : N := 3000.

Definition with_cursor (worker : WorkerSpec) (command : Command) (phase : option string)
    (cursor : option BenchmarkCursor) : prog RunnerEffect WorkerCommandContext :=
  seq ← trigger NextRequestSeq;
  mret (MkContext
          ("runner-" +:+ pretty process_id +:+ "-" +:+ id worker +:+ "-" +:+ kind command +:+ "-"
           +:+ pretty seq) phase cursor None).

Definition with_metadata (worker : WorkerSpec) (command : Command) (phase : option string) :
    prog RunnerEffect WorkerCommandContext :=
  with_cursor worker command phase None.

Definition show_bool (b : bool) : string := if b then "true" else "false".

Definition worker_reqwest_error_diagnostic (err : ReqwestError) : string :=
  String.concat "; "
    (["top_level=" +:+ re_display err;
      "is_connect=" +:+ show_bool (re_is_connect err);
      "is_timeout=" +:+ show_bool (re_is_timeout err);
      "is_request=" +:+ show_bool (re_is_request err);
      "is_body=" +:+ show_bool (re_is_body err);
      "status=-";
      "inferred_stage="
      +:+ (if re_is_connect err then "connect"
           else if re_is_timeout err then "timeout"
           else if re_is_body err then "reading response body"
           else if re_is_request err then "writing request"
           else "unknown")]
     ++ imap (λ i s, "source[" +:+ pretty (N.of_nat i) +:+ "]=" +:+ s) (re_sources err)).

Definition worker_command_next_delay (delay : N) : N := N.min (delay * 2) WORKER_COMMAND_MAX_DELAY.

Definition worker_command_with_jitter (delay : N) : prog RunnerEffect N :=
  jitter_ms ← trigger (ThreadRange 0 (N.max 1 (N.min (delay `div` 10) 100)));
  mret (delay + jitter_ms).

Definition command_url (worker : WorkerSpec) : string := url worker +:+ "/command".

Definition command_failed (worker : WorkerSpec) (command : Command) (context : WorkerCommandContext)
    (attempts : N) (class : WorkerCommandErrorClass) (last_error : string)
    (diagnostic : option string) : RunnerError :=
  CommandFailed (MkCommandError (id worker) (kind command) (command_url worker)
                   (ctx_request_id context) attempts class last_error diagnostic).

(** The loop [for attempt in 1..=WORKER_COMMAND_MAX_ATTEMPTS], [later] attempts before the
    last one. *)
Fixpoint send_attempts (later : nat) (attempt delay : N) (worker : WorkerSpec)
    (command : Command) (context : WorkerCommandContext) : Call CommandResponse :=
  let stop class last_error diagnostic :=
    mret (Err (command_failed worker command context attempt class last_error diagnostic)) in
  let again class last_error diagnostic :=
    match later with
    | O => stop class last_error diagnostic
    | S later =>
        sleep_for ← worker_command_with_jitter delay;
        _ ← trigger (SleepMs sleep_for);
        send_attempts later (attempt + 1) (worker_command_next_delay delay) worker command context
    end in
  outcome ← trigger (PostCommand (command_url worker)
                       (MkRequest (ctx_request_id context) command context));
  match outcome with
  | RunnerCommands.SendError err =>
      let diagnostic := Some (worker_reqwest_error_diagnostic err) in
      if is_transient_reqwest_error err || is_connect_stage_reqwest_error err
      then again TransportRetryable (re_display err) diagnostic
      else stop FatalDecode (re_display err) diagnostic
  | RunnerCommands.BadStatus status body =>
      let last_error := "HTTP " +:+ http_status_text status +:+ ": " +:+ body in
      if is_transient_status status then again FatalHttpStatus last_error None
      else stop FatalHttpStatus last_error None
  | RunnerCommands.Decoded response => mret (Ok response)
  | RunnerCommands.DecodeError err =>
      let diagnostic := Some (worker_reqwest_error_diagnostic err) in
      if is_transient_reqwest_error err then again TransportRetryable (re_display err) diagnostic
      else stop FatalDecode (re_display err) diagnostic
  end.

Definition send_command_with_context (worker : WorkerSpec) (command : Command)
    (context : WorkerCommandContext) : Call CommandResponse :=
  send_attempts (pred (N.to_nat WORKER_COMMAND_MAX_ATTEMPTS)) 1 WORKER_COMMAND_INITIAL_DELAY
    worker command context.

(** The match on the response of [send_cmd_expect_ok_fragment_with_context] *)
Definition expect_ok_fragment (worker : WorkerSpec) (ok_fragment : string)
    (response : CommandResponse) : result RunnerError string :=
  let status := response_status response in
  let message := response_message response in
  if String.eqb status "ok" then
    if contains ok_fragment message then Ok message
    else Err (bail ("Worker " +:+ id worker +:+ " returned unexpected ok message: " +:+ message))
  else if String.eqb status "error" then
    Err (bail ("Worker " +:+ id worker +:+ " error: " +:+ message))
  else Err (bail ("Worker " +:+ id worker +:+ " returned unknown status '" +:+ status +:+ "': "
                  +:+ message)).

Definition send_cmd_expect_ok_fragment_with_context (worker : WorkerSpec) (command : Command)
    (ok_fragment : string) (context : WorkerCommandContext) : Call string :=
  let^ response <- send_command_with_context worker command context in
  mret (expect_ok_fragment worker ok_fragment response).

Definition send_cmd_expect_ok_fragment (worker : WorkerSpec) (command : Command)
    (ok_fragment : string) : Call string :=
  context ← with_metadata worker command None;
  send_cmd_expect_ok_fragment_with_context worker command ok_fragment context.

(** ** Evidence of a killed worker *)

Definition latest_oom_evidence_for (lines : list OomEvidence) (worker : WorkerSpec) :
    option OomEvidence :=
  last (filter (λ e, evidence_matches e worker = true) lines).

(** The loop [for attempt in 0..6] *)
Fixpoint find_evidence (later : nat) (worker : WorkerSpec) : prog RunnerEffect (option OomEvidence) :=
  lines ← trigger ReadOomEvidence;
  match latest_oom_evidence_for lines worker, later with
  | Some evidence, _ => mret (Some evidence)
  | None, O => mret None
  | None, S later => _ ← trigger (SleepMs 200); find_evidence later worker
  end.

Definition find_oom_evidence (worker : WorkerSpec) : prog RunnerEffect (option OomEvidence) :=
  find_evidence 5 worker.
End commands.

(** ** What the runner keeps *)

(** [session_budget] is the map behind [external_profile_budget]. *)
Record Runner := MkRunner {
  active : list WorkerSpec;
  idle : list WorkerSpec;
  fanout : Batches.FanoutController;
  session_budget : gmap string N;
  budget_failures : gset string;
}.

(** The settings the phases read; [loop_fuel] bounds the loops of the model. *)
Class Settings := {
  profiled_failure_stop_after : N;
  resource_sweep : bool;
  external_devices : bool;
  sender_keys : bool;
  profile_only_singletons : bool;
  min_profiled_samples_per_operation : N;
  external_density_ids : gset string;
  app_rounds : N;
  max_app_samples_per_payload : N;
  payload_sizes : RunnerConfig.PayloadSizes;
  loop_fuel : nat;
}.

Abbreviation M := (Program.M Runner RunnerEffect RunnerError).
Abbreviation outcome := (Program.outcome RunnerError).

Definition set_active (l : list WorkerSpec) (s : Runner) : Runner :=
  MkRunner l (idle s) (fanout s) (session_budget s) (budget_failures s).
Definition set_idle (l : list WorkerSpec) (s : Runner) : Runner :=
  MkRunner (active s) l (fanout s) (session_budget s) (budget_failures s).
Definition set_fanout (f : Batches.FanoutController) (s : Runner) : Runner :=
  MkRunner (active s) (idle s) f (session_budget s) (budget_failures s).
Definition set_budget (b : gmap string N) (s : Runner) : Runner :=
  MkRunner (active s) (idle s) (fanout s) b (budget_failures s).
Definition set_failures (x : gset string) (s : Runner) : Runner :=
  MkRunner (active s) (idle s) (fanout s) (session_budget s) x.

(** ** Recording a failed worker *)

Section failures.
Context {ext : RunnerExternals} {cfg : Settings}.

Definition COUNTED_CLASSES : list string :=
  ["app_heap_budget_exceeded"; "app_heap_budget_allocator_abort"; "embedded_budget_timeout";
   "cpu_starvation_timeout"; "oom_kill"].

Definition profiled_singleton (worker : WorkerSpec) : bool :=
  profile_enabled worker && bool_decide (container_mode worker = Singleton).

Definition count_profiled_budget_failure (worker : WorkerSpec) (failure_class : string) : M unit :=
  if (profiled_failure_stop_after =? 0) || negb (profiled_singleton worker)
     || negb (bool_decide (failure_class ∈ COUNTED_CLASSES))
  then ret tt
  else
    let~ _ <- modify (λ s, set_failures ({[id worker]} ∪ budget_failures s) s) in
    let~ count <- gets (λ s, N.of_nat (size (budget_failures s))) in
    if profiled_failure_stop_after <=? count
    then fail (ExpectedProfiledFailureStop count profiled_failure_stop_after)
    else ret tt.

Definition non_empty_string (value : string) : option string :=
  if String.eqb value "" then None else Some value.

Definition record_worker_failure (cursor : BenchmarkCursor) (worker : WorkerSpec) (error : RunnerError)
    (class : string) (evidence : option OomEvidence) (action : string)
    (reassigned_to : option WorkerSpec) : M unit :=
  let event :=
    MkEvent (id worker) (physical_worker_id worker) class (error_text error)
      (evidence ≫= λ e, non_empty_string (RunnerCommands.evidence_source e))
      (evidence ≫= RunnerCommands.evidence_detail) action (id <$> reassigned_to) cursor in
  let~ _ <- (let~ written <- perform (trigger (AppendEvent event)) in
             match written with Ok _ => ret tt | Err e => fail (Plain e) end) in
  count_profiled_budget_failure worker class.

Definition RESOURCE_CLASSES : list string :=
  ["app_heap_budget_exceeded"; "app_heap_budget_allocator_abort"; "embedded_budget_timeout"].

(** Whether the failure was one the worker does not survive, which is then recorded *)
Definition record_worker_oom_if_evidenced (cursor : BenchmarkCursor) (worker : WorkerSpec)
    (error : RunnerError) (action : string) (reassigned_to : option WorkerSpec) : M bool :=
  let~ evidence <- perform (find_oom_evidence worker) in
  match evidence with
  | None =>
      let class := classify_worker_error error in
      if bool_decide (class ∈ RESOURCE_CLASSES) then
        let~ _ <- record_worker_failure cursor worker error class None action reassigned_to in
        ret true
      else ret false
  | Some evidence =>
      let~ _ <- record_worker_failure cursor worker error "oom_kill" (Some evidence) action
                  reassigned_to in
      ret true
  end.
End failures.

(** * The Signal runner's batches

    The batch fan-out of [Signal_containerized/src/staircase_runner.rs]: one request per
    physical worker with the commands of its participants, and one more pass for the
    participants that failed.  Nothing is reconciled: a participant whose answer was lost is
    sent its command again, under the same request id.  Concurrent requests are performed
    in the order in which they end, which the world chooses. *)

Local Open Scope N_scope.

Abbreviation pick := RunnerState.pick.
Abbreviation collect_map := RunnerState.collect_map.

Definition in_hash_order {A} (l : list A) : prog RunnerEffect (list A) :=
  order ← trigger (HashOrder (length l)); mret (pick order l).

Definition physical_groups (workers : list WorkerSpec) : gmap string (list WorkerSpec) :=
  foldl (λ groups w,
           <[physical_worker_id w := default [] (groups !! physical_worker_id w) ++ [w]]> groups)
    ∅ workers.

Definition PhysicalCommands : Type := list (string * list BatchFanoutCommand).

Definition with_request_id (c : BatchFanoutCommand) (request_id : string) : BatchFanoutCommand :=
  MkBatchCommand (participant_id c) (Some request_id) (cmd_command c) (cmd_phase c) (cmd_profile c)
    (cmd_cursor c) (cmd_workflow c).

Section fanout.
Context {ext : RunnerExternals}.

(** ** Building the batches *)

Definition batch_request_id (worker : WorkerSpec) (command : BatchFanoutCommand) :
    prog RunnerEffect string :=
  context ← with_metadata worker (cmd_command command) (cmd_phase command);
  mret (ctx_request_id context).

Fixpoint build_group (command_for : WorkerSpec → prog RunnerEffect BatchFanoutCommand)
    (group : list WorkerSpec) : prog RunnerEffect (list BatchFanoutCommand) :=
  match group with
  | [] => mret []
  | w :: rest =>
      command ← command_for w;
      command ← match cmd_request_id command with
                | Some _ => mret command
                | None =>
                    request_id ← batch_request_id w command;
                    mret (with_request_id command request_id)
                end;
      commands ← build_group command_for rest;
      mret (command :: commands)
  end.

Fixpoint build_groups (command_for : WorkerSpec → prog RunnerEffect BatchFanoutCommand)
    (groups : list (string * list WorkerSpec)) : prog RunnerEffect PhysicalCommands :=
  match groups with
  | [] => mret []
  | (physical_id, group) :: rest =>
      cmds ← build_group command_for group;
      commands ← build_groups command_for rest;
      mret ((physical_id, cmds) :: commands)
  end.

Definition build_batch_commands (workers : list WorkerSpec)
    (command_for : WorkerSpec → prog RunnerEffect BatchFanoutCommand) :
    prog RunnerEffect PhysicalCommands :=
  groups ← in_hash_order (map_to_list (physical_groups workers));
  build_groups command_for groups.

(** ** One physical worker *)

Definition workers_by_id (workers : list WorkerSpec) : gmap string WorkerSpec :=
  collect_map ((λ w, (id w, w)) <$> workers).

Definition batch_physical_base_url (physical_id : string) (cmds : list BatchFanoutCommand)
    (by_id : gmap string WorkerSpec) : string :=
  match head (omap (λ c, by_id !! participant_id c) cmds) with
  | Some worker =>
      match RunnerCommands.split_once_str "/participant/" (url worker) with
      | Some (base, _) => HttpEffects.trim_end_matches "/" base
      | None => HttpEffects.trim_end_matches "/" (url worker)
      end
  | None => "http://" +:+ physical_id +:+ ":8080"
  end.

(** The successes are only counted. *)
Record BatchPhysicalAttempt := MkAttempt {
  attempt_failures : list FanoutFailure;
  attempt_latency_ms : N;
}.

Definition all_failed (by_id : gmap string WorkerSpec) (cmds : list BatchFanoutCommand)
    (error : RunnerError) : list FanoutFailure :=
  omap (λ c, (λ w, MkFailure w error) <$> by_id !! participant_id c) cmds.

Definition item_failure (by_id : gmap string WorkerSpec) (r : BatchCommandResult) :
    option FanoutFailure :=
  if String.eqb (response_status (res_response r)) "ok" then None
  else (λ w, MkFailure w (bail ("participant " +:+ res_participant_id r +:+ " batch error: "
                                +:+ response_message (res_response r))))
       <$> by_id !! res_participant_id r.

(** The match on the response *)
Definition failures_of (by_id : gmap string WorkerSpec) (cmds : list BatchFanoutCommand)
    (outcome : HttpOutcome (list BatchCommandResult)) : list FanoutFailure :=
  match outcome with
  | RunnerCommands.Decoded items => omap (item_failure by_id) items
  | RunnerCommands.DecodeError _ => all_failed by_id cmds (bail "batch response parse error")
  | RunnerCommands.BadStatus status body =>
      all_failed by_id cmds
        (bail ("batch HTTP error: " +:+ http_status_text status +:+ " " +:+ body))
  | RunnerCommands.SendError err =>
      all_failed by_id cmds (bail ("batch request error: " +:+ re_display err))
  end.

Definition batch_physical_request (by_id : gmap string WorkerSpec) (physical_id : string)
    (cmds : list BatchFanoutCommand) : prog RunnerEffect BatchPhysicalAttempt :=
  let batch_url := HttpEffects.trim_end_matches "/" (batch_physical_base_url physical_id cmds by_id)
                   +:+ "/batch-command" in
  started ← trigger NowMs;
  outcome ← trigger (PostBatch batch_url cmds);
  now ← trigger NowMs;
  mret (MkAttempt (failures_of by_id cmds outcome) (now - started)).

(** ** The passes *)

Record FanoutPass := MkPass {
  pass_failures : list FanoutFailure;
  pass_latencies : list N;
  pass_request_count : N;
}.

Fixpoint collect_attempts (by_id : gmap string WorkerSpec) (commands : PhysicalCommands)
    (p : FanoutPass) : prog RunnerEffect FanoutPass :=
  match commands with
  | [] => mret p
  | (physical_id, cmds) :: rest =>
      attempt ← batch_physical_request by_id physical_id cmds;
      collect_attempts by_id rest
        (MkPass (pass_failures p ++ attempt_failures attempt)
           (pass_latencies p ++ [attempt_latency_ms attempt]) (pass_request_count p + 1))
  end.

Definition retry_batch_commands_for_failures (commands : PhysicalCommands)
    (failures : list FanoutFailure) : PhysicalCommands :=
  let failed_ids : gset string := list_to_set ((λ f, id (failed_worker f)) <$> failures) in
  omap (λ '(physical_id, cmds),
          match filter (λ c, participant_id c ∈ failed_ids) cmds with
          | [] => None
          | retry_cmds => Some (physical_id, retry_cmds)
          end) commands.

(** [DEFAULT_FANOUT_RETRY_PASSES] *)
Definition FANOUT_RETRY_PASSES : nat := 1.

(** The loop [for retry_pass in 0..=DEFAULT_FANOUT_RETRY_PASSES], [passes] of them left; [t]
    has the totals, and the failures of the last pass. *)
Fixpoint fanout_passes (passes : nat) (workers : list WorkerSpec)
    (all_commands retry_commands : PhysicalCommands) (t : FanoutPass) : prog RunnerEffect FanoutPass :=
  match passes, retry_commands with
  | O, _ | _, [] => mret t
  | S passes, _ =>
      order ← trigger (CompletionOrder (length retry_commands));
      pass ← collect_attempts (workers_by_id workers) (pick order retry_commands) (MkPass [] [] 0);
      fanout_passes passes workers all_commands
        (retry_batch_commands_for_failures all_commands (pass_failures pass))
        (MkPass (pass_failures pass) (pass_latencies t ++ pass_latencies pass)
           (pass_request_count t + pass_request_count pass))
  end.

Definition batch_fanout_workers (phase operation : string) (workers : list WorkerSpec)
    (commands_by_physical : PhysicalCommands) : M unit :=
  let~ t <- perform (fanout_passes (S FANOUT_RETRY_PASSES) workers commands_by_physical
                       commands_by_physical (MkPass [] [] 0)) in
  let '(_, p95, _, _) := RunnerState.latency_percentiles (pass_latencies t) in
  let~ _ <- modify (λ s, set_fanout
    (Batches.record (fanout s)
       (Batches.MkFanoutSummary (pass_request_count t) (N.of_nat (length (pass_failures t))) p95)) s) in
  match pass_failures t with
  | [] => ret tt
  | failures => fail (BatchFanoutError phase operation failures)
  end.
End fanout.
