(* ===== verification/SignalMembership.v ===== *)
(** * Who is active in the Signal benchmark

    The part of [Signal_containerized/src/staircase_runner.rs] that changes the set of
    active participants: establishing pairwise sessions, the sender keys of a group,
    enrolling and deactivating participants, and moving to a target size.  In pairwise mode
    there is no shared group: a participant is active when it has a session with everyone.

    [external_profile_budget] is [Some] exactly when samples are asked for; it is then the
    map [session_budget].  A loop has [loop_fuel] turns.  Progress output is left out. *)

From S2P Require Import Prelude Text Interaction HttpRetry SignalWorker Program SignalRunner.
From S2P Require Membership Worker RunnerCommands.
From stdpp Require Import options.

Local Open Scope N_scope.

Abbreviation len := Membership.len.
Abbreviation min_by := Membership.min_by.

(** [retain(|worker| !failed_ids.contains(&worker.id))] *)
Definition not_in (failed : gset string) (l : list WorkerSpec) : list WorkerSpec :=
  filter (λ w, id w ∉ failed) l.

Definition others (wid : string) (l : list WorkerSpec) : list WorkerSpec :=
  filter (λ w, id w ≠ wid) l.

Definition retain_active (failed : gset string) : M unit :=
  modify (λ s, set_active (not_in failed (active s)) s).

Section membership.
Context {ext : RunnerExternals} {cfg : Settings}.

(** ** Preparing a participant *)

Definition register_participant (worker : WorkerSpec) : Call unit :=
  let^ _ <- send_cmd_expect_ok_fragment worker RegisterParticipant "registered" in
  mret (Ok tt).

Definition generate_publish_prekey_bundle (worker : WorkerSpec) : Call unit :=
  let^ _ <- send_cmd_expect_ok_fragment worker PublishPrekeyBundle "prekeys stored locally" in
  let^ _ <- send_cmd_expect_ok_fragment worker GeneratePrekeyBundle
              "prekey bundle generated and published" in
  mret (Ok tt).

(** ** Pairwise sessions *)

Definition session_established_count (message : string) : N :=
  default 0 (let! value <- head (omap (strip_prefix "new=") (split_whitespace message)) in
             parse_usize value).

(** A command with [with_metadata] and a phase *)
Definition send_in_phase (worker : WorkerSpec) (command : Command) (phase fragment : string) :
    Call string :=
  context ← with_metadata worker command (Some phase);
  send_cmd_expect_ok_fragment_with_context worker command fragment context.

Definition reset_session_pair (actor peer : WorkerSpec) : Call unit :=
  let^ _ <- send_in_phase actor (ResetSessions [id peer]) "sampling.session_reset" "sessions reset" in
  let^ _ <- send_in_phase peer (ResetSessions [id actor]) "sampling.session_reset" "sessions reset" in
  mret (Ok tt).

(** [external_profile_budget.and_then(|budget| budget.get(&actor.id))] *)
Definition budget_left (actor : WorkerSpec) (s : Runner) : option N :=
  if min_profiled_samples_per_operation =? 0 then None else session_budget s !! id actor.

Definition spend (actor : WorkerSpec) (s : Runner) : Runner :=
  match budget_left actor s with
  | Some remaining => set_budget (<[id actor := remaining - 1]> (session_budget s)) s
  | None => s
  end.

(** How one pair ended: the loop goes on, or returns with the actor among the failed. *)
Inductive PairOutcome := Established | PeerFailed | ActorFailed.

Definition removed_if_evidenced (cursor : BenchmarkCursor) (worker : WorkerSpec)
    (verdict : PairOutcome) (error : RunnerError) : M PairOutcome :=
  if resource_sweep then
    let~ recorded <- record_worker_oom_if_evidenced cursor worker error "remove_active_participant"
                       None in
    if recorded : bool then ret verdict else fail error
  else fail error.

Definition initial_message (actor peer : WorkerSpec) : string :=
  "signal-initial-handshake:" +:+ id actor +:+ "->" +:+ id peer.

(** The peer opens the initial message and renews its one-time prekeys. *)
Definition peer_answers (cursor : BenchmarkCursor) (actor peer : WorkerSpec) : M PairOutcome :=
  let expected :=
    if resource_sweep || external_devices
    then Some (N.of_nat (String.length (initial_message actor peer))) else None in
  let~ _ <- call (send_in_phase peer (DecryptMessage (id actor) true (Some 2) expected)
                    "handshake.initial_message_decrypt" "pairwise message received")
    or removed_if_evidenced cursor peer PeerFailed in
  let~ _ <- call (send_in_phase peer UpdateOneTimePrekeys "prekey.maintenance_after_handshake"
                    "one-time prekey stock")
    or removed_if_evidenced cursor peer PeerFailed in
  ret Established.

(** One turn of the loop of [establish_sessions] *)
Definition establish_pair (actor : WorkerSpec) (conversation_size : N) (cursor : BenchmarkCursor)
    (decrypt_on_peer : bool) (workflow_id pair_index pair_count : N) (peer : WorkerSpec) :
    M PairOutcome :=
  let~ remaining <- gets (budget_left actor) in
  let requires_fresh_external_sample := from_option (N.ltb 0) false remaining in
  let profile := from_option (N.ltb 0) true remaining in
  let~ _ <- (if requires_fresh_external_sample then call (reset_session_pair actor peer)
             else ret tt) in
  let command := EstablishSessions [id peer] (Some conversation_size) profile in
  let~ message <-
    call (context ← with_cursor actor command (Some "handshake.initiator_process_bundle")
                      (Some cursor);
          send_cmd_expect_ok_fragment_with_context actor command "session establishment"
            (with_workflow context workflow_id pair_index pair_count))
    or removed_if_evidenced cursor actor ActorFailed in
  let~ _ <- (if profile && (0 <? session_established_count message) then modify (spend actor)
             else ret tt) in
  let~ _ <-
    (if decrypt_on_peer || negb external_devices
     then let~ _ <- call (send_in_phase actor
                            (EncryptMessage (id peer) (initial_message actor peer) (Some 2))
                            "handshake.initial_message_encrypt" "encrypted and sent") in
          ret tt
     else ret tt)
    or removed_if_evidenced cursor actor ActorFailed in
  if decrypt_on_peer then peer_answers cursor actor peer else ret Established.

Fixpoint establish_pairs (actor : WorkerSpec) (conversation_size : N) (cursor : BenchmarkCursor)
    (decrypt_on_peer : bool) (workflow_id pair_index pair_count : N) (peers : list WorkerSpec)
    (failed_ids : gset string) : M (gset string) :=
  match peers with
  | [] => ret failed_ids
  | peer :: rest =>
      let~ ended <- establish_pair actor conversation_size cursor decrypt_on_peer workflow_id
                     pair_index pair_count peer in
      match ended with
      | ActorFailed => ret ({[id actor]} ∪ failed_ids)
      | PeerFailed | Established =>
          establish_pairs actor conversation_size cursor decrypt_on_peer workflow_id
            (pair_index + 1) pair_count rest
            (match ended with PeerFailed => {[id peer]} ∪ failed_ids | _ => failed_ids end)
      end
  end.

(** The ids of the workers that failed *)
Definition establish_sessions (actor : WorkerSpec) (existing_participants : list WorkerSpec)
    (conversation_size : N) (cursor : BenchmarkCursor) (decrypt_on_peer : bool) : M (gset string) :=
  match existing_participants with
  | [] => ret ∅
  | _ =>
      let~ workflow_id <- perform (trigger NextWorkflowId) in
      establish_pairs actor conversation_size cursor decrypt_on_peer workflow_id 0
        (len existing_participants) existing_participants ∅
  end.

(** ** Sampling sessions of external devices *)

Definition density_peer_before (w w' : WorkerSpec) : bool :=
  let class (w : WorkerSpec) : N := if bool_decide (id w ∈ external_density_ids) then 1 else 0 in
  Membership.key_before (class w, id w) (class w', id w').

Definition session_density_peer (actor : WorkerSpec) (l : list WorkerSpec) : option WorkerSpec :=
  min_by density_peer_before (others (id actor) l).

(** [{:?}] of a [HashSet] *)
Definition debug_set (ids : gset string) : prog RunnerEffect string :=
  ordered ← in_hash_order (elements ids);
  mret ("{" +:+ String.concat ", " (Worker.debug_string <$> ordered) +:+ "}").

Definition external_budget_left (actor : WorkerSpec) (s : Runner) : N :=
  default 0 (session_budget s !! id actor).

Definition density_trial_text (actor : WorkerSpec) (target_size : N) : string :=
  "session density trial for " +:+ id actor +:+ " at plateau " +:+ pretty target_size.

(** One turn of the [while] loop: one more session of the device is sampled. *)
Definition density_trial (plateau_index target_size : N) (actor peer : WorkerSpec)
    (density_seq : N) : M (N + unit) :=
  let~ before <- gets (external_budget_left actor) in
  if before =? 0 then ret (inr tt)
  else
    let~ active_size <- gets (λ s, len (active s)) in
    let cursor := at_operation (new_cursor plateau_index target_size active_size "enrollment"
                                  "establish_session_external_density") density_seq None in
    let~ failed_ids <- establish_sessions actor [peer] target_size cursor true in
    let~ _ <- (if bool_decide (failed_ids = ∅) then ret tt
               else let~ shown <- perform (debug_set failed_ids) in
                    fail (bail ("external " +:+ density_trial_text actor target_size
                                +:+ " failed for workers " +:+ shown))) in
    let~ after <- gets (external_budget_left actor) in
    if before <=? after
    then fail (bail ("fresh " +:+ density_trial_text actor target_size
                     +:+ " produced no persisted session measurement"))
    else ret (inl (saturating_add64 density_seq 1)).

Definition top_up_external_session_density (plateau_index target_size : N) : M unit :=
  let~ l <- gets active in
  let actors := merge_sort (λ w w', Is_true (str_leb (id w) (id w')))
                  (filter (λ w, id w ∈ external_density_ids) l) in
  for_each actors (λ actor,
    match session_density_peer actor l with
    | None =>
        fail (bail ("external session density requires an active peer for " +:+ id actor
                    +:+ " at plateau " +:+ pretty target_size))
    | Some peer => iterate loop_fuel (density_trial plateau_index target_size actor peer) 0
    end).

(** ** Sender keys *)

Definition sender_key_command (worker : WorkerSpec) (command : Command) (phase : string)
    (cursor : BenchmarkCursor) (expected : string) : M unit :=
  let~ _ <-
    call (context ← with_cursor worker command (Some phase) (Some cursor);
          workflow_id ← trigger NextWorkflowId;
          send_cmd_expect_ok_fragment_with_context worker command expected
            (with_workflow context workflow_id 0 1))
    or (λ error,
      let~ recorded <- record_worker_oom_if_evidenced cursor worker error
                         "remove_failed_sender_keys_endpoint" None in
      fail (if recorded : bool then EndpointFailure (id worker) error else error)) in
  ret tt.

Fixpoint number_senders (l : list WorkerSpec) : prog RunnerEffect (list (WorkerSpec * N)) :=
  match l with
  | [] => mret []
  | sender :: rest =>
      generation ← trigger NextWorkflowId;
      senders ← number_senders rest;
      mret ((sender, generation) :: senders)
  end.

(** Everyone distributes, then everyone receives. *)
Definition refresh_attempt (cursor : BenchmarkCursor) (l : list WorkerSpec)
    (senders : list (WorkerSpec * N)) : M unit :=
  let~ _ <- for_each senders (λ '(sender, generation),
    sender_key_command sender
      (SenderKeyDistribute (id <$> others (id sender) l) (Some generation) (len l))
      eager_refresh cursor "sender key distributed") in
  for_each l (λ recipient,
    for_each (filter (λ s, id s.1 ≠ id recipient) senders) (λ '(sender, generation),
      sender_key_command recipient
        (SenderKeyReceiveDistribution (id sender) (len l) (Some generation))
        eager_refresh cursor "sender key distribution processed")).

(** One turn of the loop *)
Definition refresh_turn (plateau_index target_size : N) (_ : unit) : M (unit + unit) :=
  let~ l <- gets active in
  let cursor := new_cursor plateau_index target_size (len l) "removal" "sender_key_eager_refresh" in
  let~ senders <- perform (number_senders l) in
  let~ _ <- refresh_attempt cursor l senders
    or (λ error,
      match error with
      | EndpointFailure wid _ =>
          let~ _ <- modify (λ s, set_active (others wid (active s)) s) in ret (inl tt)
      | _ => fail error
      end) in
  ret (inr tt).

Definition refresh_sender_keys (plateau_index target_size : N) : M unit :=
  iterate loop_fuel (refresh_turn plateau_index target_size) tt.

(** The block [result] of [enroll_sender_key_participant] *)
Definition onboard (cursor : BenchmarkCursor) (l : list WorkerSpec) (joiner : WorkerSpec) : M unit :=
  let population := len l + 1 in
  let~ _ <- sender_key_command joiner RegisterParticipant "join.prepare" cursor "registered" in
  let~ _ <- sender_key_command joiner PublishPrekeyBundle "join.prepare" cursor "stored" in
  let~ _ <- sender_key_command joiner GeneratePrekeyBundle "join.prepare" cursor "published" in
  let~ _ <- for_each l (λ member,
    let~ _ <- sender_key_command member (EstablishSessions [id joiner] (Some population) true)
                "handshake.initiator_process_bundle" cursor "session establishment" in
    sender_key_command member (SenderKeyDistribute [id joiner] None population)
      "join.distribution" cursor "sender key distributed") in
  let~ generation <- perform (trigger NextWorkflowId) in
  let~ _ <- sender_key_command joiner (SenderKeyOnboard (id <$> l) generation population)
              "join.onboarding" cursor "sender key onboarding complete" in
  let~ _ <- for_each l (λ member,
    sender_key_command member
      (SenderKeyReceiveDistribution (id joiner) population (Some generation))
      "join.distribution" cursor "sender key distribution processed") in
  sender_key_command joiner UpdateOneTimePrekeys "prekey.maintenance_after_handshake" cursor
    "one-time prekey stock".

Definition enroll_sender_key_participant (plateau_index target_size : N) : M unit :=
  let~ waiting <- gets idle in
  match waiting with
  | [] => fail (bail "no idle Sender Keys participant")
  | joiner :: rest =>
      let~ _ <- modify (set_idle rest) in
      let~ l <- gets active in
      let cursor := new_cursor plateau_index target_size (len l + 1) "enrollment"
                      "sender_key_onboarding" in
      let~ _ <- onboard cursor l joiner
        or (λ error,
          match error with
          | EndpointFailure wid _ =>
              let~ _ <- modify (λ s, set_active (others wid (active s)) s) in
              refresh_sender_keys plateau_index target_size
          | _ => fail error
          end) in
      modify (λ s, set_active (active s ++ [joiner]) s)
  end.

(** ** Enrolling in pairwise mode *)

(** The participant is registered and its prekeys are published, or it is dropped. *)
Definition prepare_participant (plateau_index target_size : N) (participant : WorkerSpec) : M bool :=
  let~ active_size <- gets (λ s, len (active s)) in
  let cursor := new_cursor plateau_index target_size active_size "enrollment"
                  "prepare_participant" in
  let dropped error :=
    let~ recorded <- record_worker_oom_if_evidenced cursor participant error
                       "drop_idle_participant" None in
    if recorded : bool then ret false else fail error in
  let~ _ <- call (register_participant participant) or dropped in
  let~ _ <- call (generate_publish_prekey_bundle participant) or dropped in
  ret true.

Fixpoint prepare_participants (plateau_index target_size : N) (enrollments : list WorkerSpec) :
    M (list WorkerSpec) :=
  match enrollments with
  | [] => ret []
  | participant :: rest =>
      let~ prepared <- prepare_participant plateau_index target_size participant in
      let~ others <- prepare_participants plateau_index target_size rest in
      ret (if prepared : bool then participant :: others else others)
  end.

(** The loops over the workers that establish sessions: each with the peers it is given,
    which may depend on the workers failed so far; [None] skips it. *)
Definition Turn : Type := WorkerSpec * (gset string → option (list WorkerSpec)).

Definition unless_failed (worker : WorkerSpec) (peers : gset string → list WorkerSpec) : Turn :=
  (worker, λ failed, if bool_decide (id worker ∈ failed) then None else Some (peers failed)).

Definition some_peers (peers : list WorkerSpec) : option (list WorkerSpec) :=
  match peers with [] => None | _ => Some peers end.

Fixpoint establish_each (plateau_index target_size : N) (operation : string) (decrypt_on_peer : bool)
    (turns : list Turn) (failed_ids : gset string) : M (gset string) :=
  match turns with
  | [] => ret failed_ids
  | (actor, peers) :: rest =>
      match peers failed_ids with
      | None => establish_each plateau_index target_size operation decrypt_on_peer rest failed_ids
      | Some peers =>
          let~ active_size <- gets (λ s, len (active s)) in
          let~ more <- establish_sessions actor peers target_size
                         (new_cursor plateau_index target_size active_size "enrollment" operation)
                         decrypt_on_peer in
          establish_each plateau_index target_size operation decrypt_on_peer rest
            (more ∪ failed_ids)
      end
  end.

(** One such loop, after which the failed workers are not active *)
Definition establish_all (plateau_index target_size : N) (operation : string)
    (decrypt_on_peer : bool) (turns : list Turn) (failed_ids : gset string) : M (gset string) :=
  let~ failed_ids <- establish_each plateau_index target_size operation decrypt_on_peer turns
                       failed_ids in
  let~ _ <- retain_active failed_ids in
  ret failed_ids.

Definition profiled (l : list WorkerSpec) : list WorkerSpec :=
  filter (λ w, profile_enabled w = true) l.
Definition unprofiled (l : list WorkerSpec) : list WorkerSpec :=
  filter (λ w, profile_enabled w = false) l.

(** With [--profile-only-singletons]: the workers that are profiled go first.  The second
    loop stops when no peer is left, which is to skip the rest. *)
Definition establish_profiled_first (plateau_index target_size : N) (existing prepared : list WorkerSpec) :
    M (gset string) :=
  let establish := establish_all plateau_index target_size in
  let newcomer existing prepared (p : WorkerSpec) :=
    unless_failed p (λ failed, not_in failed existing ++ not_in failed (others (id p) prepared)) in
  let profiled_existing := profiled existing in
  let~ failed <- establish "establish_session_existing_profiled" true
    ((λ e : WorkerSpec, (e, λ failed, if bool_decide (id e ∈ failed) then None
                         else some_peers (unprofiled prepared))) <$> profiled_existing) ∅ in
  let existing := not_in failed existing in
  let profiled_existing := not_in failed profiled_existing in
  let~ failed <- establish "establish_session_existing_to_new_profiled" resource_sweep
    ((λ e : WorkerSpec, (e, λ failed, some_peers (not_in failed (profiled prepared))))
       <$> profiled_existing) failed in
  let existing := not_in failed existing in
  let~ failed <- establish "establish_session_new_profiled" true
    (newcomer existing prepared <$> profiled prepared) failed in
  let existing := not_in failed existing in
  let unprofiled_prepared := unprofiled prepared in
  let prepared := not_in failed prepared in
  let~ failed <- establish "establish_session_existing_nonprofiled" true
    ((λ e, unless_failed e (λ failed, not_in failed prepared)) <$> unprofiled existing) failed in
  let existing := not_in failed existing in
  let prepared := not_in failed prepared in
  establish "establish_session_new_nonprofiled" true
    (newcomer existing prepared <$> unprofiled_prepared) failed.

(** Otherwise every newcomer goes first, then everyone who was active. *)
Definition establish_in_order (plateau_index target_size : N) (existing prepared : list WorkerSpec) :
    M (gset string) :=
  let~ failed <- establish_each plateau_index target_size "establish_session" true
    (imap (λ idx p, (p, λ _, Some (existing ++ delete idx prepared))) prepared) ∅ in
  establish_each plateau_index target_size "establish_session_reverse" true
    ((λ e, (e, λ _, Some prepared)) <$> existing) failed.

Definition enroll_participants (plateau_index target_size : N) (batch_size : nat) : M unit :=
  let~ waiting <- gets idle in
  if (batch_size =? 0)%nat then fail (bail "Cannot enroll zero participants")
  else if (length waiting <? batch_size)%nat then
    fail (bail ("Requested enroll batch of " +:+ pretty (N.of_nat batch_size)
                +:+ " participants, but only " +:+ pretty (len waiting) +:+ " idle workers available"))
  else
    let~ _ <- modify (set_idle (drop batch_size waiting)) in
    let~ prepared <- prepare_participants plateau_index target_size (take batch_size waiting) in
    match prepared with
    | [] => ret tt
    | _ =>
        let~ existing <- gets active in
        let~ failed_ids <-
          (if profile_only_singletons
           then establish_profiled_first plateau_index target_size existing prepared
           else establish_in_order plateau_index target_size existing prepared) in
        let~ _ <- retain_active failed_ids in
        modify (λ s, set_active (active s ++ not_in failed_ids prepared) s)
    end.

(** ** Deactivating *)

(** [(0..batch_size).map(|_| active.remove(random_range(0..active.len())))] *)
Fixpoint remove_random (n : nat) : M (list WorkerSpec) :=
  match n with
  | O => ret []
  | S n =>
      let~ l <- gets active in
      let~ idx <- perform (trigger (ThreadRange 0 (len l - 1))) in
      let~ worker <- expect (l !! N.to_nat idx) in
      let~ _ <- modify (set_active (delete (N.to_nat idx) l)) in
      let~ removed <- remove_random n in
      ret (worker :: removed)
  end.

Definition deactivate_participants (batch_size : nat) : M unit :=
  let~ l <- gets active in
  if (length l <=? 1)%nat then fail (bail "Cannot deactivate the last remaining participant")
  else if (batch_size =? 0)%nat then fail (bail "Cannot deactivate zero participants")
  else if (length l <=? batch_size)%nat then
    fail (bail ("Cannot deactivate " +:+ pretty (N.of_nat batch_size) +:+ " participants from "
                +:+ pretty (len l) +:+ " active"))
  else
    let~ removed <- remove_random batch_size in
    let~ l <- gets active in
    let~ _ <-
      match l with
      | notifier :: _ =>
          let~ _ <- attempt (call (send_cmd_expect_ok_fragment notifier
                                     (RemoveParticipants (id <$> removed)) "deactivated")) in
          ret tt
      | [] => ret tt
      end in
    modify (λ s, set_idle (idle s ++ removed) s).

(** ** Moving to a size *)

Definition MAX_RANDOM_BATCH_SIZE : nat := 8.

Definition grow_turn (plateau_index : N) (target_size : nat) (_ : unit) : M (unit + unit) :=
  let~ l <- gets active in
  let~ waiting <- gets idle in
  if (target_size <=? length l)%nat then ret (inr tt)
  else
    match waiting with
    | [] => ret (inr tt)
    | _ =>
        let remaining := (target_size - length l)%nat in
        let batch_size := (((remaining `min` length waiting) `min` MAX_RANDOM_BATCH_SIZE) `max` 1)%nat in
        let~ _ <-
          (if sender_keys
           then enroll_sender_key_participant plateau_index (N.of_nat target_size)
           else enroll_participants plateau_index (N.of_nat target_size) batch_size) in
        ret (inl tt)
    end.

Definition shrink_turn (plateau_index : N) (target_size : nat) (_ : unit) : M (unit + unit) :=
  let~ l <- gets active in
  if (length l <=? target_size)%nat then ret (inr tt)
  else
    let remaining := (length l - target_size)%nat in
    let batch_size :=
      (((remaining `min` (length l - 1)) `min` MAX_RANDOM_BATCH_SIZE) `max` 1)%nat in
    let~ _ <- deactivate_participants batch_size in
    let~ _ <- (if sender_keys then refresh_sender_keys plateau_index (N.of_nat target_size)
               else ret tt) in
    ret (inl tt).

Definition transition_to_size (plateau_index : N) (target_size : nat) : M unit :=
  let~ _ <- iterate loop_fuel (grow_turn plateau_index target_size) tt in
  iterate loop_fuel (shrink_turn plateau_index target_size) tt.
End membership.
