(* ===== verification/SignalBenchmark.v ===== *)
(** * The Signal benchmark, plateau by plateau

    The rest of the run of [Signal_containerized/src/staircase_runner.rs]: sending a message
    to everyone ([broadcast_message]), the application phase with its choice of senders and
    profiled recipients, and the loop over the plateaus, from the workers waiting to the
    verdict on the run.  The sequence of plateaus is that of [Plateau].  Progress output,
    the written files and the health checks before the run are left out. *)

From S2P Require Import Prelude Text Interaction HttpRetry SignalWorker Program SignalRunner.
From S2P Require Import SignalMembership.
From S2P Require Batches RunnerConfig Sampling Membership RunnerPhases Worker.
From stdpp Require Import options.

Local Open Scope N_scope.

Section benchmark.
Context {ext : RunnerExternals} {cfg : Settings}.

(** ** Sending to everyone *)

Definition encrypt_command (recipient : WorkerSpec) (payload : string) (conversation_size : N) :
    Command :=
  EncryptMessage (id recipient) payload (Some conversation_size).

(** The loop over the recipients in pairwise mode *)
Fixpoint encrypt_each (sender : WorkerSpec) (payload : string) (conversation_size : N)
    (cursor : BenchmarkCursor) (workflow_id pair_index pair_count : N) (recipients : list WorkerSpec) :
    Call unit :=
  match recipients with
  | [] => mret (Ok tt)
  | recipient :: rest =>
      let command := encrypt_command recipient payload conversation_size in
      let^ _ <-
        (context ← with_cursor sender command None (Some cursor);
         send_cmd_expect_ok_fragment_with_context sender command "encrypted and sent"
           (with_workflow context workflow_id pair_index pair_count)) in
      encrypt_each sender payload conversation_size cursor workflow_id (pair_index + 1) pair_count
        rest
  end.

Definition encrypt_for (sender : WorkerSpec) (recipients : list WorkerSpec) (payload : string)
    (cursor : BenchmarkCursor) : Call unit :=
  let conversation_size := len recipients + 1 in
  send_workflow_id ← trigger NextWorkflowId;
  if sender_keys then
    let command := SenderKeyEncrypt (id <$> recipients) payload conversation_size in
    let^ _ <-
      (context ← with_cursor sender command None (Some cursor);
       send_cmd_expect_ok_fragment_with_context sender command "encrypted and sent"
         (with_workflow context send_workflow_id 0 1)) in
    mret (Ok tt)
  else encrypt_each sender payload conversation_size cursor send_workflow_id 0 (len recipients)
         recipients.

(** The cursor of the profiled recipient *)
Definition delivery_cursor (c : BenchmarkCursor) : BenchmarkCursor :=
  MkCursor (plateau_index c) (target_size c) (active_size c) (phase c) "receive_message_delivery"
    (operation_seq c) (payload_size c).

Definition receive_command (sender : WorkerSpec) (conversation_size : N) (payload : string)
    (profiling_recipient_id : option string) (cursor : BenchmarkCursor) (worker : WorkerSpec) :
    prog RunnerEffect BatchFanoutCommand :=
  let is_profiled := bool_decide (profiling_recipient_id = Some (id worker)) in
  receive_workflow_id ←
    (if is_profiled then workflow_id ← trigger NextWorkflowId; mret (Some workflow_id)
     else mret None);
  let command :=
    if sender_keys
    then SenderKeyDecrypt (id sender) is_profiled conversation_size
           (N.of_nat (String.length payload))
    else DecryptMessage (id sender) is_profiled (Some conversation_size)
           (if resource_sweep || external_devices then payload_size cursor else None) in
  mret (MkBatchCommand (id worker) None command (Some "application.fanout_receive_message")
          (if is_profiled then Some true else None)
          (if is_profiled then Some (delivery_cursor cursor) else None)
          ((λ workflow_id, (workflow_id, 0, 1)) <$> receive_workflow_id)).

Definition broadcast_message (sender : WorkerSpec) (recipients : list WorkerSpec)
    (payload : string) (profiling_recipient_id : option string) (cursor : BenchmarkCursor) : M unit :=
  let~ _ <- call (encrypt_for sender recipients payload cursor) in
  let~ commands_by_physical <-
    perform (build_batch_commands recipients
               (receive_command sender (len recipients + 1) payload profiling_recipient_id
                  cursor)) in
  batch_fanout_workers "application" "receive_message" recipients commands_by_physical.

(** ** Choosing senders and profiled recipients *)

(** The assertions are [None]; the product is a [u128]. *)
Definition sampled_participant_index (member_count sample_count seq_no : N) : option N :=
  if (member_count =? 0) || (sample_count =? 0) then None
  else if member_count <=? sample_count then Some (seq_no mod member_count)
  else
    let sample_no := seq_no mod sample_count in
    let one_based_index := ((sample_no + 1) * member_count) `div` sample_count in
    Some (saturating_sub one_based_index 1).

(** The candidates of [profiled_density_pair], in the order of their sort keys *)
Record Candidate := MkCandidate {
  missing : N;
  uses : N;
  candidate_actor : string;
  candidate_recipient : string;
  candidate_actor_idx : nat;
  candidate_recipient_idx : nat;
}.

Definition string_before (s t : string) : bool := negb (bool_decide (s = t)) && str_leb s t.

(** [<] of tuples *)
Definition candidate_before (c d : Candidate) : bool :=
  (missing c <? missing d)
  || (missing c =? missing d) && ((uses c <? uses d)
  || (uses c =? uses d) && (string_before (candidate_actor c) (candidate_actor d)
  || String.eqb (candidate_actor c) (candidate_actor d)
     && (string_before (candidate_recipient c) (candidate_recipient d)
  || String.eqb (candidate_recipient c) (candidate_recipient d)
     && ((candidate_actor_idx c <? candidate_actor_idx d)%nat
  || (candidate_actor_idx c =? candidate_actor_idx d)%nat
     && (candidate_recipient_idx c <? candidate_recipient_idx d)%nat)))).

Definition count_of (counts : gmap string N) (wid : string) : N := default 0 (counts !! wid).

Definition candidate (l : list WorkerSpec) (actor_successes receiver_successes : gmap string N)
    (required : N) (actor_idx recipient_idx : nat) : option Candidate :=
  let! actor <- l !! actor_idx in
  let! recipient <- l !! recipient_idx in
  let actor_count := count_of actor_successes (id actor) in
  let receiver_count := count_of receiver_successes (id recipient) in
  let progress := (if actor_count <? required then 1 else 0)
                  + (if receiver_count <? required then 1 else 0) in
  if (actor_idx =? recipient_idx)%nat || (progress =? 0) then None
  else Some (MkCandidate (saturating_sub 2 progress) (saturating_add64 actor_count receiver_count)
               (id actor) (id recipient) actor_idx recipient_idx).

Definition profiled_density_pair (l : list WorkerSpec) (profiled_indices : list nat)
    (actor_successes receiver_successes : gmap string N) (required : N) : option (nat * nat) :=
  (λ c, (candidate_actor_idx c, candidate_recipient_idx c)) <$>
    min_by candidate_before
      (profiled_indices ≫= λ actor_idx,
         omap (candidate l actor_successes receiver_successes required actor_idx) profiled_indices).

(** The remainder is by a length that is not zero. *)
Definition profiled_recipient_index (profiled_indices : list nat) (actor_selection_idx : nat) :
    option nat :=
  if (length profiled_indices <? 2)%nat then None
  else profiled_indices !! (S actor_selection_idx `mod` length profiled_indices)%nat.

Definition deterministic_payload : nat → N → N → N → string → string :=
  RunnerPhases.deterministic_payload.

Definition cap_count (raw cap : N) : N := if cap =? 0 then 0 else N.min raw cap.

Definition app_sends_per_plateau (size app_rounds max_app_samples : N) : N :=
  if size <? 2 then 0 else cap_count (Sampling.saturating_mul app_rounds size) max_app_samples.

(** ** The application phase *)

(** [PayloadSizes::sources] and [PayloadSizeSource::sample], with the thread's generator *)
Definition sources (p : RunnerConfig.PayloadSizes) : list RunnerConfig.PayloadSizeSource :=
  match p with
  | RunnerConfig.FixedSizes sizes => RunnerConfig.FixedSource <$> sizes
  | RunnerConfig.SizeRange min max => [RunnerConfig.RangeSource min max]
  end.

Definition sample_payload (source : RunnerConfig.PayloadSizeSource) : M N :=
  match source with
  | RunnerConfig.FixedSource size => ret size
  | RunnerConfig.RangeSource min max => perform (trigger (ThreadRange min max))
  end.

Definition is_density (w : WorkerSpec) : bool := bool_decide (id w ∈ external_density_ids).

Definition indices_where (p : WorkerSpec → bool) (l : list WorkerSpec) : list nat :=
  filter (λ i, from_option p false (l !! i) = true) (seq 0 (length l)).

(** What is sent at one payload size: [density_enabled], [samples_per_external] and
    [base_per_payload_count] *)
Record Plan := MkPlan {
  density_enabled : bool;
  samples_per_external : N;
  base_count : N;
}.

Definition payload_plan (base_per_payload_count : N) (l : list WorkerSpec) : Plan :=
  let initial_external_count := len (filter (λ w, is_density w = true) l) in
  let density := (0 <? min_profiled_samples_per_operation) && (2 <=? initial_external_count) in
  MkPlan density
    (if density
     then N.max min_profiled_samples_per_operation
            (saturating_add64 base_per_payload_count (initial_external_count - 1)
             `div` initial_external_count)
     else 0)
    base_per_payload_count.

(** [actor_successes], [receiver_successes] and [seq_no] *)
Record Sent := MkSent {
  actor_successes : gmap string N;
  receiver_successes : gmap string N;
  seq_no : N;
}.

Definition bump (counts : gmap string N) (wid : string) : gmap string N :=
  <[wid := count_of counts wid + 1]> counts.

Definition one_more (plan : Plan) (actor : WorkerSpec) (profiling_recipient_id : option string)
    (sent : Sent) : Sent :=
  if density_enabled plan
  then MkSent (bump (actor_successes sent) (id actor))
         (from_option (bump (receiver_successes sent)) (receiver_successes sent)
            profiling_recipient_id)
         (seq_no sent + 1)
  else MkSent (actor_successes sent) (receiver_successes sent) (seq_no sent + 1).

Definition profiled_indices_of (plan : Plan) (l : list WorkerSpec) : list nat :=
  match indices_where (λ w, if density_enabled plan then is_density w else profile_enabled w) l with
  | [] => seq 0 (length l)
  | profiled_indices => profiled_indices
  end.

(** The position of the sender among the profiled, and its index *)
Definition choose_sender (plan : Plan) (sent : Sent) (profiled_indices : list nat)
    (density_pair : option (nat * nat)) : M (nat * nat) :=
  let~ selection <-
    match density_pair with
    | Some (actor_idx, _) =>
        expect (fst <$> list_find (λ i, i = actor_idx) profiled_indices)
    | None =>
        expect (N.to_nat <$> sampled_participant_index (len profiled_indices) (base_count plan)
                               (seq_no sent))
    end in
  let~ actor_idx <- expect (profiled_indices !! selection) in
  ret (selection, actor_idx).

Definition choose_recipient (plan : Plan) (sent : Sent) (l : list WorkerSpec)
    (profiled_indices : list nat) (density_pair : option (nat * nat)) (selection actor_idx : nat) :
    M (option string) :=
  let at_index i := let~ worker <- expect (l !! i) in ret (Some (id worker)) in
  match density_pair with
  | Some (_, recipient_idx) => at_index recipient_idx
  | None =>
      if (length profiled_indices <? 2)%nat then ret None
      else if external_devices then
        let~ recipient_idx <- expect (profiled_recipient_index profiled_indices selection) in
        at_index recipient_idx
      else
        let indices := filter (λ i, i ≠ actor_idx) profiled_indices in
        let~ sampled <- expect (sampled_participant_index (len indices) (base_count plan)
                                  (seq_no sent)) in
        let~ recipient_idx <- expect (indices !! N.to_nat sampled) in
        at_index recipient_idx
  end.

Definition STARVED_CLASSES : list string :=
  ["app_heap_budget_exceeded"; "app_heap_budget_allocator_abort"; "embedded_budget_timeout";
   "cpu_starvation_timeout"].

(** The failed recipients that a retry does without *)
Fixpoint dead_recipients (cursor : BenchmarkCursor) (actor : WorkerSpec)
    (failures : list FanoutFailure) (oom_ids : gset string) : M (gset string) :=
  match failures with
  | [] => ret oom_ids
  | failure :: rest =>
      let worker := failed_worker failure in
      let error := failure_error failure in
      let~ recorded <- record_worker_oom_if_evidenced cursor worker error
                         "remove_active_recipient_and_retry" (Some actor) in
      dead_recipients cursor actor rest
        (if (recorded : bool)
            || profiled_singleton worker
               && bool_decide (classify_worker_error error ∈ STARVED_CLASSES)
         then {[id worker]} ∪ oom_ids else oom_ids)
  end.

Definition refresh_in_sender_keys (plateau_index plateau_size : N) : M unit :=
  if sender_keys then refresh_sender_keys plateau_index plateau_size else ret tt.

(** After an error of the broadcast: who is left out of the retry *)
Definition broadcast_failed (plateau_index plateau_size : N) (cursor : BenchmarkCursor)
    (actor : WorkerSpec) (error : RunnerError) : M unit :=
  let~ l <- gets active in
  let~ recorded <- record_worker_oom_if_evidenced cursor actor error
                     "remove_active_actor_and_retry" (head (others (id actor) l)) in
  if recorded : bool then
    let~ _ <- modify (λ s, set_active (others (id actor) (active s)) s) in
    refresh_in_sender_keys plateau_index plateau_size
  else
    match error with
    | BatchFanoutError _ _ failures =>
        let~ oom_ids <- dead_recipients cursor actor failures ∅ in
        if (size oom_ids =? length failures)%nat then
          let~ _ <- retain_active oom_ids in
          refresh_in_sender_keys plateau_index plateau_size
        else fail error
    | _ => fail error
    end.

(** One turn of the inner loop; [inr false] leaves the whole phase. *)
Definition application_turn (plateau_index plateau_size : N)
    (source : RunnerConfig.PayloadSizeSource) (plan : Plan) (sent : Sent) : M (Sent + bool) :=
  let~ l <- gets active in
  if (length l <? 2)%nat then ret (inr false)
  else
    let profiled_indices := profiled_indices_of plan l in
    let density_pair :=
      if density_enabled plan
      then profiled_density_pair l profiled_indices (actor_successes sent)
             (receiver_successes sent) (samples_per_external plan)
      else None in
    if density_enabled plan && bool_decide (density_pair = None) then ret (inr true)
    else if negb (density_enabled plan) && (base_count plan <=? seq_no sent) then ret (inr true)
    else
      let~ chosen <- choose_sender plan sent profiled_indices density_pair in
      let~ actor <- expect (l !! chosen.2) in
      let~ payload_size <- sample_payload source in
      let payload := deterministic_payload (N.to_nat payload_size) plateau_size payload_size
                       (seq_no sent) (id actor) in
      let recipients := delete chosen.2 l in
      let~ profiling_recipient_id <-
        choose_recipient plan sent l profiled_indices density_pair chosen.1 chosen.2 in
      let cursor := at_operation (new_cursor plateau_index plateau_size (len l) "application"
                                    "broadcast_message") (seq_no sent + 1) (Some payload_size) in
      let~ _ <- broadcast_message actor recipients payload profiling_recipient_id cursor
        or (λ error,
          let~ _ <- broadcast_failed plateau_index plateau_size cursor actor error in
          ret (inl sent)) in
      ret (inl (one_more plan actor profiling_recipient_id sent)).

(** The loop over the payload sources *)
Fixpoint each_payload (plateau_index plateau_size base_per_payload_count : N)
    (l : list RunnerConfig.PayloadSizeSource) : M unit :=
  match l with
  | [] => ret tt
  | source :: rest =>
      let~ members <- gets active in
      let~ finished <-
        iterate loop_fuel
          (application_turn plateau_index plateau_size source
             (payload_plan base_per_payload_count members)) (MkSent ∅ ∅ 0) in
      if finished : bool then each_payload plateau_index plateau_size base_per_payload_count rest
      else ret tt
  end.

Definition run_application_phase (plateau_index plateau_size : N) : M unit :=
  let~ l <- gets active in
  let base_per_payload_count :=
    app_sends_per_plateau plateau_size app_rounds max_app_samples_per_payload in
  if (length l <? 2)%nat then ret tt
  else if (base_per_payload_count =? 0) && (min_profiled_samples_per_operation =? 0) then ret tt
  else each_payload plateau_index plateau_size base_per_payload_count (sources payload_sizes).

(** ** The run *)

Definition any_profile_enabled_remaining (s : Runner) : bool :=
  existsb profile_enabled (active s ++ idle s).

Definition frontload_profile_enabled_singletons_in_idle (l : list WorkerSpec) : list WorkerSpec :=
  filter (λ w, profiled_singleton w = true) l ++ filter (λ w, profiled_singleton w = false) l.

Definition session_budgets : gmap string N :=
  set_fold (λ wid, insert wid min_profiled_samples_per_operation) ∅ external_density_ids.

(** [{:?}] of the devices and their missing samples *)
Definition debug_missing (l : list (string * N)) : string :=
  "[" +:+ String.concat ", "
    ((λ '(wid, n), "(" +:+ Worker.debug_string wid +:+ ", " +:+ pretty n +:+ ")") <$> l) +:+ "]".

Definition incomplete_session_devices (s : Runner) : list (string * N) :=
  filter (λ d, 0 < d.2)
    ((λ w, (id w, default min_profiled_samples_per_operation (session_budget s !! id w)))
       <$> filter (λ w, is_density w = true) (active s)).

(** The sweep stops when no profiled worker is left. *)
Definition no_profiled_left : M bool :=
  gets (λ s, resource_sweep && profile_only_singletons && negb (any_profile_enabled_remaining s)).

(** One turn of the loop over the plateaus; [false] leaves it. *)
Definition run_plateau (plateau_index target_size : N) : M bool :=
  let~ _ <- modify (set_budget session_budgets) in
  let~ _ <- transition_to_size plateau_index (N.to_nat target_size) in
  let~ _ <- (if 0 <? min_profiled_samples_per_operation
             then top_up_external_session_density plateau_index target_size else ret tt) in
  let~ incomplete <- gets incomplete_session_devices in
  let~ _ <- match incomplete with
            | [] => ret tt
            | _ => fail (bail ("plateau " +:+ pretty target_size
                               +:+ " failed to satisfy the external session profiling budget: "
                               +:+ debug_missing incomplete))
            end in
  let~ stop <- no_profiled_left in
  if stop : bool then ret false
  else
    let~ _ <- run_application_phase plateau_index target_size in
    let~ stop <- no_profiled_left in
    ret (negb stop).

Fixpoint run_plateaus (plateau_index : N) (sequence : list N) : M unit :=
  match sequence with
  | [] => ret tt
  | target_size :: rest =>
      let~ go_on <- run_plateau plateau_index target_size in
      if go_on : bool then run_plateaus (plateau_index + 1) rest else ret tt
  end.

(** The run and its verdict: an expected stop is a success. *)
Definition run_benchmark (sequence : list N) : M unit :=
  let~ _ <- run_plateaus 1 sequence
    or (λ error, match error with ExpectedProfiledFailureStop _ _ => ret tt | _ => fail error end) in
  ret tt.

Definition initial_runner (new_fanout : Batches.FanoutController) (workers : list WorkerSpec) :
    Runner :=
  MkRunner [] (if profile_only_singletons
               then frontload_profile_enabled_singletons_in_idle workers else workers)
    new_fanout ∅ ∅.
End benchmark.
