(* ===== verification/SignalTermination.v ===== *)
(** * The Signal runner always comes to an end

    Whatever the workers answer, and whichever of them die: the loops of
    [Signal_containerized/src/staircase_runner.rs] end, no index is out of range, and the
    active and the idle workers are always some of those it was given.  The world keeps one
    promise: a random number is in its range. *)

From S2P Require Import Prelude Text Interaction HttpRetry SignalWorker Program SignalRunner.
From S2P Require Import SignalMembership SignalBenchmark.
From S2P Require Batches RunnerConfig Sampling Membership PhaseTermination RunnerState.
From stdpp Require Import options.

Local Open Scope N_scope.

Definition contract (_ : unit) (X : Type) (e : RunnerEffect X) : X → unit → Prop :=
  match e in RunnerEffect X return X → unit → Prop with
  | ThreadRange lo hi => λ x _, lo <= hi → lo <= x <= hi
  | _ => λ _ _, True
  end.

Abbreviation ends := (ensures (S := Runner) contract).

(** ** Lists of workers *)

Lemma others_sublist wid l : sublist (others wid l) l.
Proof. apply sublist_filter. Qed.

Lemma not_in_sub failed l : sublist (not_in failed l) l.
Proof. apply sublist_filter. Qed.

(** A filter that leaves someone out *)
Lemma filter_shorter {A} (P : A → Prop) `{!∀ x, Decision (P x)} l x :
  x ∈ l → ¬ P x → (length (filter P l) < length l)%nat.
Proof.
  intros (k & k' & ->)%list_elem_of_split Hx.
  rewrite filter_app, filter_cons_False, !length_app by done. cbn.
  pose proof (length_filter P k). pose proof (length_filter P k'). lia.
Qed.

Lemma others_shorter wid l : wid ∈ id <$> l → (length (others wid l) < length l)%nat.
Proof. intros (w & -> & Hw)%list_elem_of_fmap. eapply filter_shorter; [exact Hw|]. by intros []. Qed.

Lemma not_in_shorter failed l wid :
  wid ∈ failed → wid ∈ id <$> l → (length (not_in failed l) < length l)%nat.
Proof. intros Hf (w & -> & Hw)%list_elem_of_fmap. eapply filter_shorter; [exact Hw|]. auto. Qed.

Lemma sublist_ids l k wid : sublist l k → wid ∈ id <$> l → wid ∈ id <$> k.
Proof.
  intros Hs (w & -> & Hw)%list_elem_of_fmap. apply list_elem_of_fmap_2.
  by eapply elem_of_submseteq; [|apply sublist_submseteq].
Qed.

(** ** What the programs do to the state *)

(** The samples that are missing only become fewer. *)
Definition spends (s s' : Runner) : Prop :=
  ∀ wid n, session_budget s' !! wid = Some n → ∃ n0, session_budget s !! wid = Some n0 ∧ n <= n0.

Definition population (s : Runner) : list WorkerSpec := active s ++ idle s.

(** They leave the workers alone; they may leave out active workers; they may make workers
    active and idle besides, but none comes in from elsewhere. *)
Definition untouched s s' : Prop := active s' = active s ∧ idle s' = idle s ∧ spends s s'.
Definition fewer s s' : Prop := sublist (active s') (active s) ∧ idle s' = idle s ∧ spends s s'.
Definition kept s s' : Prop := population s' ⊆+ population s ∧ spends s s'.

#[export] Instance spends_preorder : PreOrder spends.
Proof.
  split; [by intros s wid n H; exists n|]. intros s1 s2 s3 H12 H23 wid n Hn.
  destruct (H23 _ _ Hn) as (n2 & H2 & ?). destruct (H12 _ _ H2) as (n1 & H1 & ?). exists n1.
  split; [done|lia].
Qed.

#[export] Instance untouched_preorder : PreOrder untouched.
Proof.
  split; [done|]. intros s1 s2 s3 (H1 & H2 & H3) (H4 & H5 & H6).
  split_and!; [congruence|congruence|by etrans].
Qed.

#[export] Instance fewer_preorder : PreOrder fewer.
Proof.
  split; [done|]. intros s1 s2 s3 (H1 & H2 & H3) (H4 & H5 & H6).
  split_and!; [by etrans|congruence|by etrans].
Qed.

#[export] Instance kept_preorder : PreOrder kept.
Proof. split; [done|]. intros s1 s2 s3 [H1 H2] [H3 H4]. split; by etrans. Qed.

Lemma untouched_fewer s s' : untouched s s' → fewer s s'.
Proof. intros (H1 & H2 & H3). split_and!; [by rewrite H1|done..]. Qed.

Lemma fewer_kept s s' : fewer s s' → kept s s'.
Proof.
  intros (H1 & H2 & H3). split; [|done]. unfold population. rewrite H2.
  apply submseteq_app; [by apply sublist_submseteq|done].
Qed.

Lemma same_kept s s' : untouched s s' → kept s s'.
Proof. intros H. by apply fewer_kept, untouched_fewer. Qed.

Abbreviation harmless := (quiet (S := Runner) (Er := RunnerError) contract untouched).
Abbreviation thinning := (quiet (S := Runner) (Er := RunnerError) contract fewer).
Abbreviation harmless_bind := (quiet_bind contract untouched).
Abbreviation harmless_ret := (quiet_ret contract untouched).
Abbreviation harmless_fail := (quiet_fail contract untouched).
Abbreviation harmless_perform := (quiet_perform contract untouched).
Abbreviation harmless_gets := (quiet_gets contract untouched).
Abbreviation harmless_expect := (quiet_expect contract untouched).
Abbreviation harmless_modify := (quiet_modify contract untouched).
Abbreviation harmless_rescue := (quiet_rescue contract untouched).
Abbreviation harmless_mono := (quiet_mono contract untouched).
Abbreviation harmless_each := (quiet_for_each contract untouched).
Abbreviation thinning_bind := (quiet_bind contract fewer).
Abbreviation thinning_ret := (quiet_ret contract fewer).
Abbreviation ends_harmless := (ensures_quiet contract untouched).
Abbreviation ends_rescue := (ensures_quiet_rescue contract untouched).

Lemma harmless_update f F :
  (∀ s, active (f s) = active s ∧ idle (f s) = idle s ∧ session_budget (f s) = session_budget s) →
  harmless (modify f) (λ _, True) F.
Proof.
  intros Hf. apply harmless_modify. intros s. destruct (Hf s) as (H1 & H2 & H3).
  split_and!; [done..|]. intros wid n Hn. rewrite H3 in Hn. by exists n.
Qed.

Lemma thinning_harmless {A} (m : M A) Q F : harmless m Q F → thinning m Q F.
Proof. apply quiet_weaken, untouched_fewer. Qed.

(** ** Whom the errors blame *)

(** The workers an error is told to be about are some of [ids]. *)
Definition blames (ids : list string) (e : RunnerError) : Prop :=
  match e with
  | BatchFanoutError _ _ failures =>
      failures ≠ [] ∧ Forall (λ f, id (failed_worker f) ∈ ids) failures
  | EndpointFailure wid _ => wid ∈ ids
  | _ => True
  end.

Lemma blames_sub ids ids' e : ids ⊆ ids' → blames ids e → blames ids' e.
Proof.
  intros Hs. destruct e; cbn; [done..| |done|auto]. intros [Hne Hf]. split; [done|].
  eapply Forall_impl; [exact Hf|]. auto.
Qed.

Lemma blames_none ids e : blames [] e → blames ids e.
Proof. apply blames_sub. by intros ??%not_elem_of_nil. Qed.

Section calls.
Context {ext : RunnerExternals}.

(** A command by itself blames no one. *)
Definition fails_alone {A} (p : Call A) : Prop :=
  ∀ t, always contract t p (λ _ r, match r with Err e => blames [] e | Ok _ => True end).

Lemma solo_bind {A B} (m : Call A) (f : A → Call B) :
  fails_alone m → (∀ a, fails_alone (f a)) → fails_alone (let^ a <- m in f a).
Proof.
  intros Hm Hf t. apply always_bind. eapply always_mono; [|apply Hm].
  intros t1 [a|e] He; [by apply Hf|done].
Qed.

Lemma solo_after {A B} (m : prog RunnerEffect A) (f : A → Call B) :
  (∀ a, fails_alone (f a)) → fails_alone (m ≫= f).
Proof. intros Hf t. apply always_bind. eapply always_mono; [|apply always_true]. intros; apply Hf. Qed.

Lemma solo_ret {A} (r : result RunnerError A) :
  match r with Err e => blames [] e | Ok _ => True end → fails_alone (mret r).
Proof. intros Hr t. exact Hr. Qed.

Lemma attempts_alone later : ∀ attempt delay worker command context,
  fails_alone (send_attempts later attempt delay worker command context).
Proof.
  induction later as [|later IH]; intros attempt delay worker command context; cbn [send_attempts];
    apply solo_after; intros [err|status body|response|err]; cbv zeta;
    repeat (case_match || (apply solo_after; intros ?) || apply IH); done.
Qed.

Lemma fragment_context_alone worker command fragment context :
  fails_alone (send_cmd_expect_ok_fragment_with_context worker command fragment context).
Proof.
  apply solo_bind; [apply attempts_alone|]. intros response. apply solo_ret. unfold expect_ok_fragment.
  repeat case_match; simplify_eq; done.
Qed.

Lemma fragment_alone worker command fragment :
  fails_alone (send_cmd_expect_ok_fragment worker command fragment).
Proof. apply solo_after. intros context. apply fragment_context_alone. Qed.

Lemma harmless_call {A} (p : Call A) : fails_alone p → harmless (call p) (λ _, True) (blames []).
Proof.
  intros Hp. eapply harmless_bind; [by apply harmless_perform; exact Hp|].
  intros [a|e] He; [by apply harmless_ret|by apply harmless_fail].
Qed.

Lemma harmless_called {A} (p : Call A) : harmless (call p) (λ _, True) (λ _, True).
Proof. apply (quiet_call contract untouched). Qed.

(** *** Batches *)

Lemma by_id_elem workers k w : workers_by_id workers !! k = Some w → w ∈ workers.
Proof.
  intros H%RunnerState.collect_map_elem. apply list_elem_of_fmap in H as (w' & [= -> ->] & Hw). done.
Qed.

Definition among (workers : list WorkerSpec) (failures : list FanoutFailure) : Prop :=
  Forall (λ f, failed_worker f ∈ workers) failures.

Lemma all_failed_among workers cmds error : among workers (all_failed (workers_by_id workers) cmds error).
Proof.
  apply Forall_forall. intros f Hf. apply list_elem_of_omap in Hf as (c & _ & Hc).
  destruct (workers_by_id workers !! participant_id c) as [w|] eqn:E; [|done]. injection Hc as <-.
  by eapply by_id_elem.
Qed.

Lemma failures_among workers cmds outcome : among workers (failures_of (workers_by_id workers) cmds outcome).
Proof.
  destruct outcome as [err|status body|items|err]; cbn; [by apply all_failed_among..| |by apply all_failed_among].
  apply Forall_forall. intros f Hf. apply list_elem_of_omap in Hf as (r & _ & Hr).
  unfold item_failure in Hr. destruct (String.eqb _ _); [done|].
  destruct (workers_by_id workers !! res_participant_id r) as [w|] eqn:E; [|done].
  injection Hr as <-. by eapply by_id_elem.
Qed.

Lemma collect_among workers commands : ∀ p t, among workers (pass_failures p) →
  always contract t (collect_attempts (workers_by_id workers) commands p)
    (λ _ p', among workers (pass_failures p')).
Proof.
  induction commands as [|[physical_id cmds] rest IH]; intros p t Hp; cbn [collect_attempts]; [done|].
  apply always_bind. unfold batch_physical_request.
  apply always_bind, always_trigger. intros started t1 _.
  apply always_bind, always_trigger. intros outcome t2 _.
  apply always_bind, always_trigger. intros now t3 _. cbn [mret always].
  apply IH, Forall_app_2; [done|apply failures_among].
Qed.

Lemma passes_among workers commands passes : ∀ retry tot t, among workers (pass_failures tot) →
  always contract t (fanout_passes passes workers commands retry tot)
    (λ _ tot', among workers (pass_failures tot')).
Proof.
  induction passes as [|passes IH]; intros retry tot t Hp; cbn [fanout_passes]; [done|].
  destruct retry as [|c retry]; [done|].
  apply always_bind, always_trigger. intros order t1 _. apply always_bind.
  eapply always_mono; [|by apply collect_among; constructor]. intros t2 pass Hpass. by apply IH.
Qed.

Lemma harmless_fanout phase operation workers commands :
  harmless (batch_fanout_workers phase operation workers commands) (λ _, True)
    (blames (id <$> workers)).
Proof.
  eapply harmless_bind.
  { apply harmless_perform. intros t. apply (passes_among workers). constructor. }
  intros tot Hb. destruct (RunnerState.latency_percentiles _) as [[[p50 p95] p99] top].
  eapply harmless_bind; [by apply harmless_update|]. intros _ _. cbn in Hb.
  destruct (pass_failures tot) as [|f failures] eqn:E; [by apply harmless_ret|].
  apply harmless_fail. split; [done|]. eapply Forall_impl; [exact Hb|]. cbn. intros g Hg.
  by apply list_elem_of_fmap_2.
Qed.
End calls.

(** ** Records, sessions, preparations *)

Section sessions.
Context {ext : RunnerExternals} {cfg : Settings}.

Lemma counting_harmless worker class :
  harmless (count_profiled_budget_failure worker class) (λ _, True) (blames []).
Proof.
  unfold count_profiled_budget_failure. destruct (_ || _); [by apply harmless_ret|].
  eapply harmless_bind; [by apply harmless_update|]. intros _ _.
  eapply harmless_bind; [by apply (harmless_gets _ (λ _, True))|]. intros n _.
  destruct (_ <=? _); [by apply harmless_fail|by apply harmless_ret].
Qed.

Lemma harmless_failure cursor worker error class evidence action reassigned :
  harmless (record_worker_failure cursor worker error class evidence action reassigned)
    (λ _, True) (blames []).
Proof.
  eapply harmless_bind with (P := λ _, True); [|intros _ _; apply counting_harmless].
  eapply harmless_bind; [by apply harmless_perform; intros; apply always_true|].
  intros [[]|e] _; [by apply harmless_ret|by apply harmless_fail].
Qed.

Lemma recording_harmless cursor worker error action reassigned :
  harmless (record_worker_oom_if_evidenced cursor worker error action reassigned)
    (λ _, True) (blames []).
Proof.
  eapply harmless_bind; [by apply harmless_perform; intros; apply always_true|].
  intros [evidence|] _; [|cbv zeta; case_bool_decide; [|by apply harmless_ret]];
    (eapply harmless_bind; [apply harmless_failure|]); intros _ _; by apply harmless_ret.
Qed.

Lemma harmless_anyhow {A} (m : M A) Q F : harmless m Q F → harmless m (λ _, True) (λ _, True).
Proof. intros Hm. by eapply harmless_mono; [| |exact Hm]. Qed.

Lemma spend_harmless actor F : harmless (modify (spend actor)) (λ _, True) F.
Proof.
  apply harmless_modify. intros s. unfold spend, budget_left.
  destruct (_ =? 0); [done|]. destruct (session_budget s !! id actor) as [n|] eqn:E; [|done].
  split_and!; [done..|]. intros wid m. cbn. destruct (decide (id actor = wid)) as [<-|Hne].
  - rewrite lookup_insert_eq. intros [= <-]. exists n. split; [done|lia].
  - rewrite lookup_insert_ne by done. intros Hm. by exists m.
Qed.

Lemma removed_harmless cursor worker verdict error :
  harmless (removed_if_evidenced cursor worker verdict error) (λ _, True) (λ _, True).
Proof.
  unfold removed_if_evidenced. destruct resource_sweep; [|by apply harmless_fail].
  eapply harmless_bind; [eapply harmless_anyhow, recording_harmless|].
  intros [] _; [by apply harmless_ret|by apply harmless_fail].
Qed.

Lemma harmless_establish actor peers size cursor decrypt :
  harmless (establish_sessions actor peers size cursor decrypt) (λ _, True) (λ _, True).
Proof.
  unfold establish_sessions. destruct peers as [|peer0 peers0]; [by apply harmless_ret|].
  eapply harmless_bind; [by apply harmless_perform; intros; apply always_true|].
  intros workflow _. generalize (len (peer0 :: peers0)) as n, 0, (∅ : gset string).
  intros n. induction (peer0 :: peers0) as [|peer peers IH]; intros k failed; cbn [establish_pairs].
  { by apply harmless_ret. }
  eapply harmless_bind with (P := λ _, True); [|intros [] _; [apply IH..|by apply harmless_ret]].
  eapply harmless_bind; [by apply (harmless_gets _ (λ _, True))|]. intros left_over _.
  eapply harmless_bind; [by case_match; [apply harmless_called|apply harmless_ret]|]. intros _ _.
  cbv zeta. eapply harmless_rescue; [apply harmless_called| |intros; apply removed_harmless].
  intros message _.
  eapply harmless_bind; [by case_match; [apply spend_harmless|apply harmless_ret]|]. intros _ _.
  eapply harmless_rescue; [| |intros e _; apply removed_harmless].
  { case_match; [|by apply (harmless_ret _ (λ _, True) (λ _, True))].
    eapply harmless_bind; [apply harmless_called|]. intros _ _. by apply harmless_ret. }
  intros _ _. destruct decrypt; [|by apply harmless_ret]. unfold peer_answers. cbv zeta.
  eapply harmless_rescue; [apply harmless_called| |intros; apply removed_harmless]. intros _ _.
  eapply harmless_rescue; [apply harmless_called| |intros; apply removed_harmless]. intros _ _.
  by apply harmless_ret.
Qed.

Lemma preparing_harmless plateau target enrollments :
  harmless (prepare_participants plateau target enrollments) (λ r, sublist r enrollments) (λ _, True).
Proof.
  induction enrollments as [|w rest IH]; cbn [prepare_participants]; [by apply harmless_ret|].
  eapply harmless_bind with (P := λ _, True).
  - eapply harmless_bind; [by apply (harmless_gets _ (λ _, True))|]. intros size _. cbv zeta.
    assert (Hd : ∀ cursor e, harmless
      (let~ recorded <- record_worker_oom_if_evidenced cursor w e "drop_idle_participant" None in
       if recorded : bool then ret false else fail e) (λ _, True) (λ _, True)).
    { intros cursor e. eapply harmless_bind; [eapply harmless_anyhow, recording_harmless|].
      intros [] _; [by apply harmless_ret|by apply harmless_fail]. }
    eapply harmless_rescue; [apply harmless_called| |intros; apply Hd]. intros _ _.
    eapply harmless_rescue; [apply harmless_called| |intros; apply Hd]. intros _ _.
    by apply harmless_ret.
  - intros prepared _. eapply harmless_bind; [apply IH|]. intros r Hr. apply harmless_ret.
    destruct prepared; by constructor.
Qed.

Lemma thinning_retain failed F : thinning (retain_active failed) (λ _, True) F.
Proof.
  apply (quiet_modify contract fewer). intros s. split_and!; [apply not_in_sub|done|].
  intros wid n Hn. by exists n.
Qed.

Lemma harmless_establish_each plateau target operation decrypt turns : ∀ failed,
  harmless (establish_each plateau target operation decrypt turns failed) (λ _, True) (λ _, True).
Proof.
  induction turns as [|[actor peers] rest IH]; intros failed; cbn [establish_each].
  { by apply harmless_ret. }
  destruct (peers failed); [|apply IH].
  eapply harmless_bind; [by apply (harmless_gets _ (λ _, True))|]. intros size _.
  eapply harmless_bind; [apply harmless_establish|]. intros more _. apply IH.
Qed.

Lemma thinning_all plateau target operation decrypt turns failed :
  thinning (establish_all plateau target operation decrypt turns failed) (λ _, True) (λ _, True).
Proof.
  eapply thinning_bind; [apply thinning_harmless, harmless_establish_each|]. intros f _.
  eapply thinning_bind; [apply thinning_retain|]. intros _ _. by apply thinning_ret.
Qed.

Lemma thinning_establish plateau target existing prepared :
  thinning (if profile_only_singletons
            then establish_profiled_first plateau target existing prepared
            else establish_in_order plateau target existing prepared) (λ _, True) (λ _, True).
Proof.
  destruct profile_only_singletons.
  - unfold establish_profiled_first. cbv zeta.
    do 4 (eapply thinning_bind; [apply thinning_all|]; intros ? _). apply thinning_all.
  - eapply thinning_bind; [apply thinning_harmless, harmless_establish_each|].
    intros failed _. apply thinning_harmless, harmless_establish_each.
Qed.

(** *** Sender keys *)

Lemma harmless_sender_key worker command ph cursor expected :
  harmless (sender_key_command worker command ph cursor expected) (λ _, True) (blames [id worker]).
Proof.
  eapply harmless_rescue.
  - apply harmless_call, solo_after. intros context. apply solo_after. intros workflow.
    apply fragment_context_alone.
  - intros _ _. by apply harmless_ret.
  - intros error He. eapply harmless_bind; [eapply harmless_mono; [| |apply recording_harmless]; [done|]|].
    + apply blames_none.
    + intros [] _; apply harmless_fail; [by left|by apply blames_none].
Qed.

Lemma harmless_command_of ids worker command ph cursor expected : id worker ∈ ids →
  harmless (sender_key_command worker command ph cursor expected) (λ _, True) (blames ids).
Proof.
  intros Hw. eapply harmless_mono; [| |apply harmless_sender_key]; [done|]. intros e. apply blames_sub.
  by intros ? ->%list_elem_of_singleton.
Qed.

Lemma number_senders_fst l t : always contract t (number_senders l) (λ _ senders, senders.*1 = l).
Proof.
  revert t. induction l as [|w l IH]; intros t; cbn [number_senders]; [done|].
  apply always_bind, always_trigger. intros g t1 _. apply always_bind.
  eapply always_mono; [|apply IH]. intros t2 senders Hs. cbn. by f_equal.
Qed.

Lemma harmless_refresh_attempt cursor l senders : senders.*1 = l →
  harmless (refresh_attempt cursor l senders) (λ _, True) (blames (id <$> l)).
Proof.
  intros Hs. eapply harmless_bind.
  - apply harmless_each. intros [sender generation] Hin. apply harmless_command_of.
    apply list_elem_of_fmap_2. rewrite <-Hs. by apply (list_elem_of_fmap_2 fst) in Hin.
  - intros _ _. apply harmless_each. intros recipient Hr. apply harmless_each.
    intros [sender generation] _. apply harmless_command_of. by apply list_elem_of_fmap_2.
Qed.

Lemma harmless_onboard cursor l joiner : harmless (onboard cursor l joiner) (λ _, True) (λ _, True).
Proof.
  unfold onboard. cbv zeta.
  assert (Hc : ∀ w c p e, harmless (sender_key_command w c p cursor e) (λ _, True) (λ _, True))
    by (intros; eapply harmless_anyhow, harmless_sender_key).
  do 3 (eapply harmless_bind; [apply Hc|]; intros _ _).
  eapply harmless_bind.
  { apply harmless_each. intros m _. eapply harmless_bind; [apply Hc|]. intros _ _. apply Hc. }
  intros _ _. eapply harmless_bind; [by apply harmless_perform; intros; apply always_true|].
  intros g _. eapply harmless_bind; [apply Hc|]. intros _ _.
  eapply harmless_bind; [apply harmless_each; intros; apply Hc|]. intros _ _. apply Hc.
Qed.

Lemma leave_out wid s : fewer s (set_active (others wid (active s)) s).
Proof. split_and!; [apply others_sublist|done|]. intros w n Hn. by exists n. Qed.

Lemma refresh_ends plateau target t s : (length (active s) < loop_fuel)%nat →
  ends t s (refresh_sender_keys plateau target) (λ _ s' o, fewer s s' ∧ settled o).
Proof.
  intros Hf. apply (ensures_iterate contract _ (λ _ _ s1, fewer s s1) (λ _ s1, length (active s1)));
    [|change (fewer s s); reflexivity|exact Hf].
  clear t Hf. intros t [] s1 Hs1. apply ensures_gets.
  eapply ends_harmless with (F := λ _, True); [apply harmless_perform; intros; apply number_senders_fst| |].
  2: { intros t2 s2 e Hu _. split; [|done]. etrans; [done|by apply untouched_fewer]. }
  intros t2 s2 senders Hu2 Hs. eapply ends_rescue; [by apply harmless_refresh_attempt|..].
  - intros t3 s3 _ Hu3 _. split; [|done]. etrans; [done|]. by apply untouched_fewer; etrans.
  - intros t3 s3 e Hu3 Hb.
    assert (Hu : untouched s1 s3) by (by etrans). assert (Hfew : fewer s s3).
    { etrans; [done|]. by apply untouched_fewer. }
    destruct e as [| |ph op fs| |wid context]; try (by split). split.
    + etrans; [done|]. apply leave_out.
    + destruct Hu as (Ha & _). cbn. rewrite <-Ha in Hb. rewrite <-Ha. by apply others_shorter.
Qed.
End sessions.

(** ** Moving to a size *)

Section moving.
Context {ext : RunnerExternals} {cfg : Settings}.

(** The loops have the fuel for the workers to lose, the samples to take and the messages
    the settings allow. *)
Definition roomy (s : Runner) : Prop :=
  (∀ wid n, session_budget s !! wid = Some n → n <= min_profiled_samples_per_operation)
  ∧ min_profiled_samples_per_operation < N.of_nat loop_fuel
  ∧ (let workers := N.of_nat (length (population s)) in
     workers * (2 * N.max min_profiled_samples_per_operation (max_app_samples_per_payload + workers) + 1)
     + max_app_samples_per_payload + 1 < N.of_nat loop_fuel).

Lemma kept_shorter s s' : kept s s' → (length (population s') <= length (population s))%nat.
Proof. intros [H _]. by apply submseteq_length. Qed.

Lemma roomy_kept s s' : kept s s' → roomy s → roomy s'.
Proof.
  intros Hk (Hb & Hm & Hf). split_and!; [|done|].
  - intros wid n Hn. destruct (proj2 Hk wid n Hn) as (n0 & H0 & ?). pose proof (Hb wid n0 H0). lia.
  - cbv zeta in *. pose proof (kept_shorter s s' Hk) as Hl.
    set (n := N.of_nat (length (population s'))) in *.
    set (N := N.of_nat (length (population s))) in *.
    assert (n <= N) by lia.
    assert (N.max min_profiled_samples_per_operation (max_app_samples_per_payload + n)
            <= N.max min_profiled_samples_per_operation (max_app_samples_per_payload + N)) by lia.
    nia.
Qed.

Lemma population_length s : length (population s) = (length (active s) + length (idle s))%nat.
Proof. apply length_app. Qed.

Lemma roomy_workers s : roomy s → (length (population s) < loop_fuel)%nat.
Proof. intros (_ & _ & Hf). cbv zeta in Hf. nia. Qed.

Lemma roomy_active s : roomy s → (length (active s) < loop_fuel)%nat.
Proof. intros H%roomy_workers. rewrite population_length in H. lia. Qed.

(** It settles, and the workers are as before, less some. *)
Definition safe {A} s s' (o : outcome A) : Prop := kept s s' ∧ settled o.

Definition sound {A} (m : M A) : Prop := ∀ t s, roomy s → ends t s m (λ _ s' o, safe s s' o).

Lemma steady_bind {A B} (m : M A) (f : A → M B) :
  sound m → (∀ a, sound (f a)) → sound (bind m f).
Proof.
  intros Hm Hf t s Hr. apply ensures_bind. eapply ensures_mono; [|by apply Hm].
  intros t1 s1 [a|e| |] [Hk Ho]; [|done..].
  eapply ensures_mono; [|apply Hf; by eapply roomy_kept].
  intros t2 s2 o [Hk2 Ho2]. split; [by etrans|done].
Qed.

Lemma sound_thinning {A} (m : M A) Q F : thinning m Q F → sound m.
Proof.
  intros Hm t s Hr. eapply ensures_mono; [|apply Hm]. intros t1 s1 o [Hu Ho].
  split; [by apply fewer_kept|by destruct o].
Qed.

Lemma steady_harmless {A} (m : M A) Q F : harmless m Q F → sound m.
Proof. intros Hm. by eapply sound_thinning, thinning_harmless. Qed.

Lemma steady_ret {A} (a : A) : sound (ret a).
Proof. by apply (steady_harmless _ (λ _, True) (λ _, True)), harmless_ret. Qed.

Lemma steady_fail {A} e : sound (fail (A := A) e).
Proof. by apply (steady_harmless _ (λ _, True) (λ _, True)), harmless_fail. Qed.

Lemma sound_refresh plateau target : sound (refresh_sender_keys plateau target).
Proof.
  intros t s Hr. eapply ensures_mono; [|by apply refresh_ends, roomy_active].
  intros t1 s1 o [Hf Ho]. split; [by apply fewer_kept|done].
Qed.

(** *** Growing *)

(** The population is kept and fewer workers are idle. *)
Definition taken {A} s s' (o : outcome A) : Prop :=
  safe s s' o ∧ (length (idle s') < length (idle s))%nat.

Lemma popped s n : spends s (set_idle (drop n (idle s)) s) ∧ kept s (set_idle (drop n (idle s)) s).
Proof.
  assert (Hs : spends s (set_idle (drop n (idle s)) s)) by (intros w k Hk; by exists k).
  split; [done|]. split; [|done]. unfold population. cbn. apply submseteq_app; [done|].
  apply sublist_submseteq, sublist_drop.
Qed.

Lemma taken_fewer {A} s s1 s' (o : outcome A) :
  (length (idle s1) < length (idle s))%nat → kept s s1 → fewer s1 s' → settled o → taken s s' o.
Proof.
  intros Hi Hk Hf Ho. split; [split; [|done]|].
  - etrans; [done|]. by apply fewer_kept.
  - destruct Hf as (_ & -> & _). done.
Qed.


Lemma enroll_sender_key_ends plateau target t s : roomy s → idle s ≠ [] →
  ends t s (enroll_sender_key_participant plateau target) (λ _ s' o, taken s s' o).
Proof.
  intros Hr Hi. apply ensures_gets. destruct (idle s) as [|joiner rest] eqn:Ei; [done|].
  apply ensures_modify. set (s1 := set_idle rest s).
  assert (H1 : kept s s1) by (pose proof (popped s 1) as [_ H]; by rewrite Ei in H).
  assert (Hl : (length (idle s1) < length (idle s))%nat) by (rewrite Ei; cbn; lia).
  apply ensures_gets.
  eapply ends_rescue; [apply harmless_onboard|..].
  - intros t2 s2 _ Hu _. destruct Hu as (Ha & Hi2 & Hs2). split; [split; [|done]|].
    + split; [|etrans; [apply H1|exact Hs2]]. unfold population. cbn. rewrite Ha, Hi2, Ei. cbn.
      by rewrite <-app_assoc.
    + cbn. rewrite Hi2. done.
  - intros t2 s2 e Hu _. apply untouched_fewer in Hu.
    destruct e as [| |ph op fs| |wid context]; try (by eapply taken_fewer).
    apply ensures_modify. eapply ensures_mono; [|apply refresh_ends].
    + intros t3 s3 o [Hf Hso]. eapply taken_fewer; [exact Hl|exact H1| |exact Hso].
      etrans; [exact Hu|]. etrans; [apply leave_out|exact Hf].
    + cbn. apply Nat.le_lt_trans with (length (active s2)).
      { apply sublist_length, others_sublist. }
      apply roomy_active. eapply roomy_kept; [|exact Hr]. etrans; [exact H1|by apply fewer_kept].
Qed.

Lemma enroll_ends plateau target batch_size t s :
  (0 < batch_size <= length (idle s))%nat →
  ends t s (enroll_participants plateau target batch_size) (λ _ s' o, taken s s' o).
Proof.
  intros Hb. apply ensures_gets.
  rewrite (proj2 (Nat.eqb_neq _ _)), (proj2 (Nat.ltb_ge _ _)) by lia.
  apply ensures_modify. set (s1 := set_idle (drop batch_size (idle s)) s).
  destruct (popped s batch_size) as [Hsp Hk1].
  assert (Hl : (length (idle s1) < length (idle s))%nat) by (cbn; rewrite length_drop; lia).
  eapply ends_harmless; [apply preparing_harmless|..].
  2: { intros t2 s2 e Hu _. eapply taken_fewer; [done|done|by apply untouched_fewer|done]. }
  intros t2 s2 prepared Hu Hp. apply untouched_fewer in Hu.
  destruct prepared as [|w prepared].
  { apply ensures_ret. eapply taken_fewer; [done|done|exact Hu|done]. }
  revert Hp. generalize (w :: prepared). clear w prepared. intros prepared Hp.
  apply ensures_gets. eapply (ensures_quiet contract fewer); [apply thinning_establish|..].
  2: { intros t3 s3 e Hf _. eapply taken_fewer; [done|done| |done]. by etrans. }
  intros t3 s3 failed Hf _. apply ensures_modify.
  set (s4 := set_active _ s3). assert (H4 : fewer s1 s4).
  { etrans; [exact Hu|]. etrans; [exact Hf|]. split_and!; [apply not_in_sub|done|].
    intros v n Hn. by exists n. }
  clearbody s4. destruct H4 as (Ha & Hi & Hs). split; [split; [|done]|].
  - split; [|etrans; [exact Hsp|exact Hs]]. unfold population. cbn. rewrite Hi. cbn.
    rewrite <-(take_drop batch_size (idle s)) at 2. rewrite <-app_assoc.
    apply submseteq_app; [by apply sublist_submseteq|]. apply submseteq_app; [|done].
    apply sublist_submseteq. etrans; [apply not_in_sub|exact Hp].
  - cbn. by rewrite Hi.
Qed.

(** Enough workers are active, or none is idle. *)
Definition grown (target_size : nat) (s : Runner) : Prop :=
  (target_size <= length (active s))%nat ∨ idle s = [].

Lemma grow_ends plateau target t s : roomy s →
  ends t s (iterate loop_fuel (grow_turn plateau target) tt)
    (λ _ s' o, safe s s' o ∧ (o = Returned tt → grown target s')).
Proof.
  intros Hr.
  apply (ensures_iterate contract _ (λ _ _ s1, kept s s1) (λ _ s1, length (idle s1)));
    [|change (kept s s); reflexivity|].
  2: { pose proof (roomy_workers s Hr) as H. rewrite population_length in H. lia. }
  clear t. intros t [] s1 Hk. apply ensures_gets, ensures_gets.
  destruct (Nat.leb_spec target (length (active s1))) as [Hle|Hlt].
  { split; [split; [exact Hk|done]|]. by left. }
  destruct (idle s1) as [|w rest] eqn:Ei.
  { split; [split; [exact Hk|done]|]. by right. }
  cbv zeta. apply ensures_bind.
  eapply ensures_mono with (Q := λ _ s' o, taken s1 s' o).
  - intros t2 s2 [[]|e| |] [[Hk2 Ho] Hi]; [|by (split; [split; [by etrans|done]|])|done..].
    split; [by etrans|]. by rewrite <-Ei.
  - destruct sender_keys.
    + apply enroll_sender_key_ends; [by eapply roomy_kept|by rewrite Ei].
    + apply enroll_ends. rewrite Ei. cbn. unfold MAX_RANDOM_BATCH_SIZE. lia.
Qed.

(** *** Shrinking *)

Lemma remove_random_ends n : ∀ t s, (n <= length (active s))%nat →
  ends t s (remove_random n) (λ _ s' o, ∃ removed, o = Returned removed
    ∧ active s ≡ₚ removed ++ active s' ∧ idle s' = idle s ∧ spends s s' ∧ length removed = n).
Proof.
  induction n as [|n IH]; intros t s Hn; cbn [remove_random].
  { apply ensures_ret. by exists []. }
  apply ensures_gets, ensures_bind, ensures_perform, always_trigger.
  intros idx t1 Hidx. cbn in Hidx. unfold len, Membership.len in Hidx.
  destruct (lookup_lt_is_Some_2 (active s) (N.to_nat idx)) as [w Hw]; [lia|].
  eapply ensures_expect; [exact Hw|]. apply ensures_modify, ensures_bind.
  eapply ensures_mono; [|apply IH; cbn; rewrite length_delete; [lia|by exists w]].
  intros t2 s2 o (removed & -> & Hp & Hi & Hs & Hl). exists (w :: removed). split_and!.
  - done.
  - rewrite (delete_Permutation _ _ _ Hw). cbn. constructor. exact Hp.
  - exact Hi.
  - exact Hs.
  - cbn. by rewrite Hl.
Qed.

Lemma deactivate_ends batch_size t s :
  ends t s (deactivate_participants batch_size) (λ _ s' o, safe s s' o
    ∧ (o = Returned tt → (length (active s') + batch_size = length (active s))%nat
                         ∧ (0 < batch_size)%nat)).
Proof.
  assert (Hfail : ∀ e, safe s s (Failed (A := unit) e) ∧ (Failed (A := unit) e = Returned tt →
    (length (active s) + batch_size = length (active s))%nat ∧ (0 < batch_size)%nat))
    by (intros e; by split).
  apply ensures_gets. destruct (Nat.leb_spec (length (active s)) 1) as [|H1]; [apply Hfail|].
  destruct (Nat.eqb_spec batch_size 0) as [|H0]; [apply Hfail|].
  destruct (Nat.leb_spec (length (active s)) batch_size) as [|H2]; [apply Hfail|].
  apply ensures_bind. eapply ensures_mono; [|apply remove_random_ends; lia].
  intros t1 s1 o (removed & -> & Hp & Hi & Hs & Hl). apply ensures_gets.
  eapply ends_harmless with (Q := λ _, True) (F := λ _, False).
  - destruct (active s1); [by apply harmless_ret|].
    eapply harmless_bind with (P := λ _, True); [|intros _ _; by apply harmless_ret].
    intros t2 s2. apply ensures_attempt. eapply ensures_mono; [|apply harmless_called].
    intros t3 s3 [m|e| |] [Hu Ho]; [by split..|done|done].
  - intros t2 s2 _ (Ha2 & Hi2 & Hs2) _. cbn. split.
    + split; [|done]. split; [|etrans; [exact Hs|exact Hs2]].
      unfold population. cbn. rewrite Ha2, Hi2, Hi, Hp. apply Permutation_submseteq. solve_Permutation.
    + intros _. rewrite Ha2, Hp, length_app. lia.
  - done.
Qed.

(** The size is reached unless there are too few workers; in sender-key mode a failed
    member may be lost besides. *)
Definition reached (target_size : nat) (s : Runner) : Prop :=
  (length (active s) <= target_size)%nat
  ∧ (sender_keys = false → length (active s) = target_size ∨ idle s = []).

Lemma shrink_ends plateau target t s : roomy s → grown target s →
  ends t s (iterate loop_fuel (shrink_turn plateau target) tt)
    (λ _ s' o, safe s s' o ∧ (o = Returned tt → reached target s')).
Proof.
  intros Hr Hg.
  apply (ensures_iterate contract _ (λ _ _ s1, kept s s1 ∧ (sender_keys = false → grown target s1))
           (λ _ s1, length (active s1))); [|done|by apply roomy_active].
  clear t Hg. intros t [] s1 [Hk Hg]. apply ensures_gets.
  destruct (Nat.leb_spec (length (active s1)) target) as [Hle|Hgt].
  { split; [split; [exact Hk|done]|]. intros _. cbn. split; [done|]. intros Hp.
    destruct (Hg Hp) as [H|H]; [left; lia|by right]. }
  cbv zeta. set (batch := ((_ `min` _) `max` 1)%nat). apply ensures_bind.
  eapply ensures_mono; [|apply deactivate_ends].
  intros t2 s2 [[]|e| |] [[Hk2 Ho] Hn];
    [|by (split; [split; [by etrans|done]|])|done..].
  destruct (Hn eq_refl) as [Hlen Hpos]. cbn in Hlen, Hk2.
  assert (Hk' : kept s s2) by (by etrans).
  destruct sender_keys eqn:Ek.
  - apply ensures_bind. eapply ensures_mono; [|apply refresh_ends, roomy_active; by eapply roomy_kept].
    intros t3 s3 [[]|e| |] [Hf Ho3];
      [|by (split; [split; [etrans; [exact Hk'|by apply fewer_kept]|done]|])|done..].
    split; [split; [etrans; [exact Hk'|by apply fewer_kept]|done]|].
    destruct Hf as (Hs%sublist_length & _). cbn. lia.
  - split; [split; [exact Hk'|]|cbn; lia]. intros _. left. cbn. subst batch.
    unfold MAX_RANDOM_BATCH_SIZE in *. lia.
Qed.

Lemma moving_ends plateau target t s : roomy s →
  ends t s (transition_to_size plateau target)
    (λ _ s' o, safe s s' o ∧ (o = Returned tt → reached target s')).
Proof.
  intros Hr. apply ensures_bind. eapply ensures_mono; [|by apply grow_ends].
  intros t1 s1 [[]|e| |] [[Hk Ho] Hg]; [|by (split; [by split|])|done..].
  eapply ensures_mono; [|apply shrink_ends; [by eapply roomy_kept|by apply Hg]].
  intros t2 s2 o [[Hk2 Ho2] Hrch]. split; [split; [by etrans|done]|done].
Qed.

(** ** Sampling sessions *)

Lemma trials_sound plateau target actor peer : 
  sound (iterate loop_fuel (density_trial plateau target actor peer) 0).
Proof.
  intros t s Hr. eapply ensures_mono.
  2: { apply (ensures_iterate contract (density_trial plateau target actor peer)
         (λ _ _ s1, untouched s s1) (λ _ s1, N.to_nat (external_budget_left actor s1))
         (λ _ s' o, untouched s s' ∧ settled o)); [|change (untouched s s); reflexivity|].
       2: { destruct Hr as (Hb & Hm & _). unfold external_budget_left.
            destruct (session_budget s !! id actor) as [n|] eqn:E; cbn; [|lia].
            pose proof (Hb _ _ E). lia. }
       clear t. intros t k s1 Hu. apply ensures_gets.
       destruct (N.eqb_spec (external_budget_left actor s1) 0) as [|Hb]; [by split|].
       apply ensures_gets. cbv zeta. eapply ends_harmless; [apply harmless_establish|..].
       2: { intros t2 s2 e Hu2 _. split; [by etrans|done]. }
       intros t2 s2 failed Hu2 _. assert (Hu' : untouched s s2) by (by etrans).
       eapply ends_harmless with (Q := λ _, True) (F := λ _, True).
       - case_bool_decide; [by apply harmless_ret|].
         eapply harmless_bind; [by apply harmless_perform; intros; apply always_true|].
         intros shown _. by apply harmless_fail.
       - intros t3 s3 _ Hu3 _. apply ensures_gets.
         destruct (N.leb_spec (external_budget_left actor s1) (external_budget_left actor s3)).
         + split; [by etrans|done].
         + split; [by etrans|cbn [fst snd]; lia].
       - intros t3 s3 e Hu3 _. split; [by etrans|done]. }
  intros t1 s1 o [Hu Ho]. split; [by apply same_kept|done].
Qed.

Lemma sound_each {A} (l : list A) (body : A → M unit) :
  (∀ a, sound (body a)) → sound (for_each l body).
Proof.
  intros Hb. induction l as [|a l IH]; cbn [for_each]; [apply steady_ret|].
  apply steady_bind; [apply Hb|]. intros _. exact IH.
Qed.

Lemma top_up_sound plateau target : sound (top_up_external_session_density plateau target).
Proof.
  intros t s Hr. apply ensures_gets. apply sound_each; [|done]. intros actor.
  destruct (session_density_peer actor (active s)); [apply trials_sound|apply steady_fail].
Qed.
End moving.
