(* ===== verification/SignalRun.v ===== *)
(** * A whole run of the Signal runner

    The sender-key groups, the application phase - which sender and which profiled recipient
    come next, and what happens when a broadcast fails - and the run over all plateaus: it
    settles, it never panics, and it never makes up a worker. *)

From S2P Require Import Prelude Text Interaction HttpRetry SignalWorker Program SignalRunner SignalMembership.
From S2P Require Import SignalBenchmark SignalTermination.
From S2P Require Batches RunnerConfig RunnerCommands Sampling Membership PhaseTermination.
From stdpp Require Import options.

Local Open Scope N_scope.

(** ** Sums over the workers *)

Lemma sum_sublist {A} (f : A → nat) l k : sublist l k → (sum_list_with f l <= sum_list_with f k)%nat.
Proof. induction 1; cbn; lia. Qed.

Lemma sum_less {A} (f g : A → nat) l x :
  (∀ y, f y <= g y)%nat → x ∈ l → (f x < g x)%nat → (sum_list_with f l < sum_list_with g l)%nat.
Proof.
  intros Hle. assert (Hall : ∀ k, (sum_list_with f k <= sum_list_with g k)%nat).
  { induction k as [|y k IH]; cbn; [done|]. specialize (Hle y). lia. }
  induction l as [|y l IH]; [by intros ?%not_elem_of_nil|]. intros [->|Hx]%elem_of_cons Hlt; cbn.
  - specialize (Hall l). lia.
  - specialize (IH Hx Hlt). specialize (Hle y). lia.
Qed.

Lemma sum_bound {A} (f : A → nat) l n : (∀ x, f x <= n)%nat → (sum_list_with f l <= length l * n)%nat.
Proof. intros Hf. induction l as [|x l IH]; cbn; [lia|]. specialize (Hf x). lia. Qed.

Lemma count_of_bump counts wid wid' :
  count_of (bump counts wid) wid' = count_of counts wid' + (if decide (wid = wid') then 1 else 0).
Proof.
  unfold bump, count_of at 1. case_decide as E.
  - subst. by rewrite lookup_insert_eq.
  - rewrite lookup_insert_ne by done. unfold count_of. lia.
Qed.

Section phase.
Context {ext : RunnerExternals} {cfg : Settings}.

(** ** What is left to send *)

(** The samples a worker is still to give as a sender and as a recipient *)
Definition need (plan : Plan) (sent : Sent) (w : WorkerSpec) : nat :=
  N.to_nat (samples_per_external plan - count_of (actor_successes sent) (id w))
  + N.to_nat (samples_per_external plan - count_of (receiver_successes sent) (id w)).

Definition to_send (plan : Plan) (sent : Sent) (l : list WorkerSpec) : nat :=
  (length l + if density_enabled plan then sum_list_with (need plan sent) l
              else N.to_nat (base_count plan - seq_no sent))%nat.

Lemma to_send_fewer plan sent l k :
  sublist l k → (length l < length k)%nat → (to_send plan sent l < to_send plan sent k)%nat.
Proof.
  intros Hs Hl. unfold to_send. destruct (density_enabled plan); [|lia].
  pose proof (sum_sublist (need plan sent) l k Hs). lia.
Qed.

(** A pair is chosen when one of its two samples is missing. *)
Lemma density_pair_spec l indices sent plan i j :
  profiled_density_pair l indices (actor_successes sent) (receiver_successes sent)
    (samples_per_external plan) = Some (i, j) →
  i ∈ indices ∧ j ∈ indices ∧ ∃ actor recipient, l !! i = Some actor ∧ l !! j = Some recipient
    ∧ (count_of (actor_successes sent) (id actor) < samples_per_external plan
       ∨ count_of (receiver_successes sent) (id recipient) < samples_per_external plan).
Proof.
  unfold profiled_density_pair. destruct (min_by _ _) as [c|] eqn:E; [|done]. intros [= <- <-].
  apply PhaseTermination.min_by_elem, list_elem_of_bind in E as (a & Hc & Ha).
  apply list_elem_of_omap in Hc as (r & Hr & Hc). unfold candidate in Hc.
  destruct (l !! a) as [actor|] eqn:E1; [|done]. cbn in Hc.
  destruct (l !! r) as [recipient|] eqn:E2; [|done]. cbn in Hc.
  destruct (_ || _) eqn:Et in Hc; [done|]. injection Hc as <-. cbn.
  apply orb_false_iff in Et as [_ Hp]. split_and!; [done..|]. exists actor, recipient.
  split_and!; [done..|].
  destruct (N.ltb_spec (count_of (actor_successes sent) (id actor)) (samples_per_external plan)); [by left|].
  destruct (N.ltb_spec (count_of (receiver_successes sent) (id recipient)) (samples_per_external plan));
    [by right|done].
Qed.

Lemma to_send_sent plan sent l i j actor recipient :
  density_enabled plan = true → l !! i = Some actor → l !! j = Some recipient →
  count_of (actor_successes sent) (id actor) < samples_per_external plan
  ∨ count_of (receiver_successes sent) (id recipient) < samples_per_external plan →
  (to_send plan (one_more plan actor (Some (id recipient)) sent) l < to_send plan sent l)%nat.
Proof.
  intros Hd Hi Hj Hm. unfold to_send, one_more. rewrite Hd. cbn [from_option].
  apply Nat.add_lt_mono_l.
  assert (Hle : ∀ w, (need plan (MkSent (bump (actor_successes sent) (id actor))
      (bump (receiver_successes sent) (id recipient)) (seq_no sent + 1)) w <= need plan sent w)%nat).
  { intros w. unfold need. cbn. rewrite !count_of_bump. lia. }
  destruct Hm as [Hm|Hm].
  - apply (sum_less _ _ l actor); [done|by eapply list_elem_of_lookup_2|].
    unfold need. cbn. rewrite !count_of_bump, decide_True by done. lia.
  - apply (sum_less _ _ l recipient); [done|by eapply list_elem_of_lookup_2|].
    unfold need. cbn. rewrite !count_of_bump, (decide_True (P := id recipient = id recipient)) by done. lia.
Qed.

(** ** The choices are in range *)

Lemma indices_where_lt p l i : i ∈ indices_where p l → (i < length l)%nat.
Proof. intros [_ Hi]%list_elem_of_filter. apply elem_of_seq in Hi. lia. Qed.

Lemma profiled_indices_spec plan l : (2 <= length l)%nat →
  profiled_indices_of plan l ≠ [] ∧ NoDup (profiled_indices_of plan l)
  ∧ ∀ i, i ∈ profiled_indices_of plan l → (i < length l)%nat.
Proof.
  intros Hl. unfold profiled_indices_of. destruct (indices_where _ l) as [|i0 more] eqn:E.
  - split_and!; [|apply NoDup_seq|].
    + intros Hs. apply (f_equal length) in Hs. rewrite length_seq in Hs. cbn in Hs. lia.
    + intros i Hi%elem_of_seq. lia.
  - split_and!; [done| |].
    + rewrite <-E. apply NoDup_filter, NoDup_seq.
    + intros j Hj. rewrite <-E in Hj. by eapply indices_where_lt.
Qed.

Lemma sampled_in_range n count k : 0 < n → 0 < count →
  ∃ i, sampled_participant_index n count k = Some i ∧ i < n.
Proof. apply Sampling.sampled_member_range. Qed.

(** What is known of a pair and of the samples to take when there is none *)
Definition choosable (plan : Plan) (l : list WorkerSpec) (indices : list nat)
    (pair : option (nat * nat)) : Prop :=
  match pair with
  | Some (i, j) => i ∈ indices ∧ j ∈ indices
  | None => 0 < base_count plan
  end.

Lemma choose_sender_spec plan sent l indices p : indices ≠ [] → choosable plan l indices p →
  harmless (choose_sender plan sent indices p)
    (λ c, indices !! c.1 = Some c.2 ∧ ∀ i j, p = Some (i, j) → c.2 = i) (λ _, False).
Proof.
  intros Hne Hp. unfold choose_sender. destruct p as [[i j]|].
  - destruct Hp as [Hi _].
    destruct (list_find_elem_of (λ k, k = i) indices i Hi eq_refl) as [[k i'] Hk].
    pose proof Hk as (Hlk & -> & _)%list_find_Some. rewrite Hk. cbn [fmap option_fmap option_map fst].
    eapply harmless_bind with (P := λ r, r = k); [by apply (harmless_ret k (λ r, r = k))|].
    intros ? ->. eapply harmless_expect; [exact Hlk|]. apply harmless_ret. split; [exact Hlk|].
    by intros ? ? [= -> ->].
  - assert (Hlen : 0 < len indices) by (destruct indices; [done|unfold len, Membership.len; cbn; lia]).
    destruct (sampled_in_range (len indices) (base_count plan) (seq_no sent) Hlen Hp) as (k & Hk & Hlt).
    rewrite Hk. cbn [fmap option_fmap option_map].
    unfold len, Membership.len in Hlt.
    destruct (lookup_lt_is_Some_2 indices (N.to_nat k)) as [i Hi]; [lia|].
    eapply harmless_bind with (P := λ r, r = N.to_nat k); [by apply (harmless_ret _ (λ r, r = N.to_nat k))|].
    intros ? ->. eapply harmless_expect; [exact Hi|]. by apply harmless_ret.
Qed.

Lemma choose_recipient_spec plan sent l indices p selection actor_idx :
  NoDup indices → (∀ i, i ∈ indices → (i < length l)%nat) → choosable plan l indices p →
  indices !! selection = Some actor_idx →
  harmless (choose_recipient plan sent l indices p selection actor_idx)
    (λ o, ∀ i j w, p = Some (i, j) → l !! j = Some w → o = Some (id w)) (λ _, False).
Proof.
  intros Hnd Hr Hp Hs. unfold choose_recipient. destruct p as [[i j]|].
  - destruct Hp as [_ Hj]. destruct (lookup_lt_is_Some_2 l j (Hr j Hj)) as [w Hw].
    eapply harmless_expect; [exact Hw|]. apply harmless_ret. intros i' j' w' [= <- <-] Hw'. congruence.
  - assert (Hat : ∀ k, k ∈ indices → harmless (let~ worker <- expect (l !! k) in ret (Some (id worker)))
        (λ o, ∀ (i j : nat) (w : WorkerSpec), None = Some (i, j) → l !! j = Some w → o = Some (id w))
        (λ _, False)).
    { intros k Hk. destruct (lookup_lt_is_Some_2 l k (Hr k Hk)) as [w Hw].
      eapply harmless_expect; [exact Hw|]. by apply harmless_ret. }
    destruct (Nat.ltb_spec (length indices) 2) as [|Hl]; [by apply harmless_ret|].
    destruct external_devices.
    + unfold profiled_recipient_index. rewrite (proj2 (Nat.ltb_ge _ _)) by done.
      destruct (lookup_lt_is_Some_2 indices (S selection `mod` length indices)%nat) as [k Hk].
      { apply Nat.mod_upper_bound. lia. }
      eapply harmless_expect; [exact Hk|]. apply Hat. by eapply list_elem_of_lookup_2.
    + cbv zeta. set (rest := filter (λ k, k ≠ actor_idx) indices).
      assert (Hrest : 0 < len rest).
      { unfold len, Membership.len. destruct rest as [|k rest'] eqn:Er; [|cbn; lia]. exfalso.
        assert (Hall : ∀ k, k ∈ indices → k = actor_idx).
        { intros k Hk. destruct (decide (k = actor_idx)); [done|].
          assert (Hin : k ∈ rest) by (by apply list_elem_of_filter). rewrite Er in Hin.
          by apply not_elem_of_nil in Hin. }
        destruct indices as [|a [|b indices]]; [cbn in Hl; lia..|].
        apply NoDup_cons in Hnd as [Hab _]. apply Hab.
        rewrite (Hall a) by left. rewrite <-(Hall b) by (right; left). left. }
      destruct (sampled_in_range (len rest) (base_count plan) (seq_no sent) Hrest Hp) as (k & Hk & Hlt).
      eapply harmless_expect; [exact Hk|]. unfold len, Membership.len in Hlt.
      destruct (lookup_lt_is_Some_2 rest (N.to_nat k)) as [i Hi]; [lia|].
      eapply harmless_expect; [exact Hi|]. apply Hat.
      apply list_elem_of_lookup_2, list_elem_of_filter in Hi. apply Hi.
Qed.

(** ** A broadcast *)

Lemma encrypt_each_alone sender payload size cursor workflow count recipients : ∀ k,
  fails_alone (encrypt_each sender payload size cursor workflow k count recipients).
Proof.
  induction recipients as [|r rest IH]; intros k; cbn [encrypt_each]; [by apply solo_ret|].
  apply solo_bind; [|intros _; apply IH]. apply solo_after. intros context.
  apply fragment_context_alone.
Qed.

Lemma encrypt_alone sender recipients payload cursor :
  fails_alone (encrypt_for sender recipients payload cursor).
Proof.
  apply solo_after. intros workflow. destruct sender_keys; [|apply encrypt_each_alone].
  apply solo_bind; [|intros _; by apply solo_ret]. apply solo_after. intros context.
  apply fragment_context_alone.
Qed.

Lemma harmless_broadcast sender recipients payload profiling cursor :
  harmless (broadcast_message sender recipients payload profiling cursor) (λ _, True)
    (blames (id <$> recipients)).
Proof.
  eapply harmless_bind.
  { eapply harmless_mono; [done| |apply harmless_call, encrypt_alone]. apply blames_none. }
  intros _ _. eapply harmless_bind; [by apply harmless_perform; intros; apply always_true|].
  intros commands _. apply harmless_fanout.
Qed.

Lemma dead_recipients_spec cursor actor failures : ∀ ids,
  harmless (dead_recipients cursor actor failures ids)
    (λ r, ∀ wid, wid ∈ r → wid ∈ ids ∨ wid ∈ (λ f, id (failed_worker f)) <$> failures) (λ _, True).
Proof.
  induction failures as [|f failures IH]; intros ids; cbn [dead_recipients].
  { apply harmless_ret. by left. }
  eapply harmless_bind; [eapply harmless_anyhow, recording_harmless|]. intros recorded _.
  eapply harmless_mono; [|done|apply IH]. cbn. intros r Hr wid Hwid.
  destruct (Hr wid Hwid) as [Hin|Hin]; [|right; by right]. revert Hin.
  destruct (_ || _); [|by left]. intros [->%elem_of_singleton|Hin]%elem_of_union; [right; left|by left].
Qed.

(** It settles, with no more members; when it returns, someone was left out. *)
Definition lost (s s' : Runner) (o : outcome unit) : Prop :=
  fewer s s' ∧ settled o ∧ (o = Returned tt → (length (active s') < length (active s))%nat).

Lemma lost_failed s s' e : untouched s s' → lost s s' (Failed e).
Proof. intros Hu. split_and!; [by apply untouched_fewer|done..]. Qed.

Lemma refresh_lost plateau plateau_size t s s1 s2 : roomy s → untouched s s1 → fewer s1 s2 →
  (length (active s2) < length (active s1))%nat →
  ends t s2 (refresh_in_sender_keys plateau plateau_size) (λ _ s' o, lost s s' o).
Proof.
  intros Hr Hu Hf Hl. assert (Hf' : fewer s s2) by (etrans; [by apply untouched_fewer|done]).
  assert (Hl' : (length (active s2) < length (active s))%nat) by (destruct Hu as (<- & _); done).
  unfold refresh_in_sender_keys. destruct sender_keys; [|by apply ensures_ret].
  eapply ensures_mono; [|apply refresh_ends].
  - intros t3 s3 o [Hf3 Ho]. split_and!; [by etrans|done|]. intros _.
    destruct Hf3 as (Hs%sublist_length & _). lia.
  - pose proof (roomy_active s Hr). lia.
Qed.

Lemma broadcast_failed_ends plateau plateau_size cursor actor error t s :
  roomy s → id actor ∈ id <$> active s → blames (id <$> active s) error →
  ends t s (broadcast_failed plateau plateau_size cursor actor error) (λ _ s' o, lost s s' o).
Proof.
  intros Hr Ha He.
  apply ensures_gets. eapply ends_harmless; [eapply harmless_anyhow, recording_harmless|..].
  2: { intros t1 s1 e Hu _. by apply lost_failed. }
  intros t1 s1 [] Hu _.
  - apply ensures_modify. eapply refresh_lost; [done|exact Hu|apply leave_out|]. cbn.
    apply others_shorter. destruct Hu as (-> & _). done.
  - destruct error as [| |ph op failures| |]; try by apply ensures_fail, lost_failed.
    destruct He as [Hne Hin]. eapply ends_harmless; [apply dead_recipients_spec|..].
    2: { intros t2 s2 e Hu2 _. apply lost_failed. by etrans. }
    intros t2 s2 dead Hu2 Hd. assert (Hu' : untouched s s2) by (by etrans).
    destruct (Nat.eqb_spec (size dead) (length failures)) as [Hsz|_];
      [|by apply ensures_fail, lost_failed].
    apply ensures_modify. eapply refresh_lost; [done|exact Hu'| |].
    + split_and!; [apply not_in_sub|done|]. intros v n Hn. by exists n.
    + destruct (set_choose_or_empty dead) as [[wid Hwid]|Hempty].
      * cbn. eapply not_in_shorter; [exact Hwid|]. destruct Hu' as (-> & _).
        destruct (Hd wid Hwid) as [?%elem_of_empty|(f & -> & Hf)%list_elem_of_fmap]; [done|].
        exact (proj1 (Forall_forall _ _) Hin f Hf).
      * exfalso. apply Hne, length_zero_iff_nil. rewrite <-Hsz. by apply size_empty_iff.
Qed.

(** ** The application phase *)

Lemma sample_harmless source : harmless (sample_payload source) (λ _, True) (λ _, False).
Proof.
  destruct source; [by apply harmless_ret|]. by apply harmless_perform; intros; apply always_true.
Qed.

(** One turn sends a message that was missing, or leaves someone out. *)
Lemma broadcast_turn_ends plateau plateau_size source plan sent t s : roomy s →
  ends t s (application_turn plateau plateau_size source plan sent) (λ _ s' o,
    fewer s s' ∧ match o with
                 | Returned (inl sent') =>
                     (to_send plan sent' (active s') < to_send plan sent (active s))%nat
                 | Returned (inr _) | Failed _ => True
                 | _ => False
                 end).
Proof.
  intros Hr. apply ensures_gets. destruct (Nat.ltb_spec (length (active s)) 2) as [|Hl]; [by split|].
  cbv zeta. set (l := active s) in *. set (indices := profiled_indices_of plan l).
  set (pair := if density_enabled plan then _ else None).
  destruct (profiled_indices_spec plan l Hl) as (Hne & Hnd & Hlt).
  destruct (density_enabled plan && bool_decide (pair = None)) eqn:Ed; [by split|].
  destruct (negb (density_enabled plan) && (base_count plan <=? seq_no sent)) eqn:Es; [by split|].
  assert (Hp : choosable plan l indices pair).
  { destruct pair as [[i j]|] eqn:Ep; subst pair.
    - destruct (density_enabled plan); [|done]. apply density_pair_spec in Ep as (Hi & Hj & _). done.
    - destruct (density_enabled plan); [by rewrite bool_decide_true in Ed|]. cbn in Es |- *.
      apply N.leb_gt in Es. lia. }
  eapply ends_harmless; [by apply (choose_sender_spec _ _ l)| |by intros].
  intros t1 s1 [selection actor_idx] Hu1 [Hsel Hfst]. cbn [fst snd] in *.
  destruct (lookup_lt_is_Some_2 l actor_idx) as [actor Hactor].
  { apply Hlt. by eapply list_elem_of_lookup_2. }
  eapply ensures_expect; [exact Hactor|].
  eapply ends_harmless; [apply sample_harmless| |by intros]. intros t2 s2 payload Hu2 _.
  eapply ends_harmless; [by apply choose_recipient_spec| |by intros].
  intros t3 s3 recipient Hu3 Hrec. assert (Hu : untouched s s3) by (etrans; [exact Hu1|by etrans]).
  eapply ends_rescue; [apply harmless_broadcast|..].
  - intros t4 s4 _ Hu4 _. apply ensures_ret.
    assert (Hu' : untouched s s4) by (by etrans). split; [by apply untouched_fewer|].
    destruct Hu' as (Ha & _). rewrite Ha. fold l.
    destruct (density_enabled plan) eqn:Eden.
    + destruct pair as [[i j]|] eqn:Ep; [|by rewrite bool_decide_true in Ed]. subst pair.
      pose proof (Hfst i j eq_refl) as ->.
      apply density_pair_spec in Ep as (Hi & Hj & actor' & w & Ha' & Hw & Hm).
      rewrite Hactor in Ha'. injection Ha' as <-. rewrite (Hrec i j w eq_refl Hw).
      by eapply to_send_sent.
    + unfold to_send, one_more. rewrite Eden. cbn. apply N.leb_gt in Es. lia.
  - intros t4 s4 e Hu4 He. assert (Hu' : untouched s s4) by (by etrans).
    apply ensures_bind. eapply ensures_mono; [|apply broadcast_failed_ends].
    + intros t5 s5 o (Hf & Ho & Hlost). assert (Hf' : fewer s s5).
      { etrans; [by apply untouched_fewer|exact Hf]. }
      destruct o as [[]|e'| |]; [|by split|done..]. apply ensures_ret. split; [exact Hf'|].
      apply to_send_fewer; [apply Hf'|]. destruct Hu' as (Ha & _). rewrite Ha in Hlost. by apply Hlost.
    + eapply roomy_kept; [|exact Hr]. by apply same_kept.
    + destruct Hu' as (-> & _). by apply list_elem_of_fmap_2, (list_elem_of_lookup_2 _ actor_idx).
    + eapply blames_sub; [|exact He]. destruct Hu' as (-> & _). fold l.
      intros v (w & -> & Hw)%list_elem_of_fmap. apply list_elem_of_fmap_2.
      eapply elem_of_submseteq; [exact Hw|]. apply sublist_submseteq, sublist_delete.
Qed.

Lemma cap_count_le raw cap : cap_count raw cap <= cap.
Proof. unfold cap_count. case_match; lia. Qed.

Lemma app_sends_le n rounds max : app_sends_per_plateau n rounds max <= max.
Proof. unfold app_sends_per_plateau. case_match; [lia|apply cap_count_le]. Qed.

(** The fuel is enough for what a plan asks for. *)
Lemma plan_fits base s : roomy s → base <= max_app_samples_per_payload →
  (to_send (payload_plan base (active s)) (MkSent ∅ ∅ 0) (active s) < loop_fuel)%nat.
Proof.
  intros (_ & _ & Hf) Hb. cbv zeta in Hf. set (l := active s).
  assert (Hl : (length l <= length (population s))%nat) by (rewrite population_length; unfold l; lia).
  set (n := N.of_nat (length (population s))) in *.
  set (req := samples_per_external (payload_plan base l)).
  assert (Hreq : req <= N.max min_profiled_samples_per_operation (max_app_samples_per_payload + n)).
  { unfold req, payload_plan. cbn [samples_per_external]. destruct (_ && _); [|lia].
    set (e := len _). assert (He : e <= n).
    { unfold e, len, Membership.len. pose proof (length_filter (λ w, is_density w = true) l). lia. }
    assert (saturating_add64 base (e - 1) `div` e <= max_app_samples_per_payload + n); [|lia].
    etrans; [apply N.Div0.div_le_mono with (b := max_app_samples_per_payload + n)|].
    - unfold saturating_add64. lia.
    - destruct (N.eq_dec e 0) as [->|]; [by rewrite N.div_0_r; lia|].
      apply N.Div0.div_le_upper_bound. nia. }
  unfold to_send. destruct (density_enabled _).
  - pose proof (sum_bound (need (payload_plan base l) (MkSent ∅ ∅ 0)) l (N.to_nat (2 * req))) as Hs.
    assert (Hneed : ∀ x, (need (payload_plan base l) (MkSent ∅ ∅ 0) x <= N.to_nat (2 * req))%nat).
    { intros x. unfold need. fold req. lia. }
    specialize (Hs Hneed).
    assert (N.of_nat (length l * N.to_nat (2 * req)) <= n * (2 * req)) by nia.
    assert (n * (2 * req) <= n * (2 * N.max min_profiled_samples_per_operation (max_app_samples_per_payload + n)))
      by nia.
    nia.
  - cbn [base_count payload_plan seq_no]. nia.
Qed.

Lemma payload_sound plateau plateau_size base source : base <= max_app_samples_per_payload →
  sound (let~ members <- gets active in
         iterate loop_fuel (application_turn plateau plateau_size source (payload_plan base members))
           (MkSent ∅ ∅ 0)).
Proof.
  intros Hb t s Hr. apply ensures_gets.
  apply (ensures_iterate contract _ (λ _ _ s1, fewer s s1)
           (λ sent s1, to_send (payload_plan base (active s)) sent (active s1)));
    [|change (fewer s s); reflexivity|by apply plan_fits].
  clear t. intros t sent s1 Hf. eapply ensures_mono; [|apply broadcast_turn_ends].
  - intros t2 s2 [[sent'|b]|e| |] [Hf2 Ho]; [|..|done|done].
    + split; [by etrans|exact Ho].
    + split; [apply fewer_kept; by etrans|done].
    + split; [apply fewer_kept; by etrans|done].
  - eapply roomy_kept; [|exact Hr]. by apply fewer_kept.
Qed.

Lemma each_payload_sound plateau plateau_size base l : base <= max_app_samples_per_payload →
  sound (each_payload plateau plateau_size base l).
Proof.
  intros Hb. induction l as [|source rest IH]; cbn [each_payload]; [apply steady_ret|].
  change (sound (let~ members <- gets active in
    let~ finished <- iterate loop_fuel (application_turn plateau plateau_size source
                       (payload_plan base members)) (MkSent ∅ ∅ 0) in
    if finished : bool then each_payload plateau plateau_size base rest else ret tt)).
  assert (Hs := steady_bind _ (λ finished : bool, if finished then each_payload plateau plateau_size base rest
                  else ret tt) (payload_sound plateau plateau_size base source Hb)).
  apply Hs. intros []; [exact IH|apply steady_ret].
Qed.

Lemma application_sound plateau plateau_size : sound (run_application_phase plateau plateau_size).
Proof.
  intros t s Hr. apply ensures_gets. cbv zeta.
  destruct (_ <? _)%nat; [by apply steady_ret|]. destruct (_ && _); [by apply steady_ret|].
  apply each_payload_sound; [apply app_sends_le|done].
Qed.

(** ** The plateaus *)

Lemma budgets_exact wid n : session_budgets !! wid = Some n → n = min_profiled_samples_per_operation.
Proof.
  unfold session_budgets. revert n.
  apply (set_fold_ind_L (λ (m : gmap string N) _, ∀ n, m !! wid = Some n → n = min_profiled_samples_per_operation)).
  - done.
  - intros x X m _ IH n. destruct (decide (x = wid)) as [->|Hne].
    + by rewrite lookup_insert_eq; intros [= <-].
    + rewrite lookup_insert_ne by done. apply IH.
Qed.

(** Between plateaus the budgets are renewed: only the workers matter. *)
Definition runs {A} (m : M A) : Prop := ∀ t s, roomy s →
  ends t s m (λ _ s' o, population s' ⊆+ population s ∧ roomy s' ∧ settled o).

Lemma runs_sound {A} (m : M A) : sound m → runs m.
Proof.
  intros Hm t s Hr. eapply ensures_mono; [|by apply Hm]. intros t' s' o [Hk Ho].
  split_and!; [apply Hk|by eapply roomy_kept|done].
Qed.

Lemma plateaus_bind {A B} (m : M A) (f : A → M B) : runs m → (∀ a, runs (f a)) → runs (bind m f).
Proof.
  intros Hm Hf t s Hr. apply ensures_bind. eapply ensures_mono; [|by apply Hm].
  intros t1 s1 [a|e| |] (Hp & Hr1 & Ho); [|done..].
  eapply ensures_mono; [|by apply Hf]. intros t2 s2 o (Hp2 & Hr2 & Ho2).
  split_and!; [by etrans|done..].
Qed.

Lemma runs_gets {A} (f : Runner → A) : runs (gets f).
Proof. by eapply runs_sound, steady_harmless, (harmless_gets _ (λ _, True) (λ _, True)). Qed.

Lemma transition_sound plateau target : sound (transition_to_size plateau target).
Proof.
  intros t s Hr. eapply ensures_mono; [|by apply moving_ends]. by intros t' s' o [Hs _].
Qed.

Lemma plateau_runs plateau target_size : runs (run_plateau plateau target_size).
Proof.
  apply plateaus_bind.
  { intros t s (Hb & Hm & Hf). split_and!; [done| |done]. split_and!; [|done|exact Hf].
    intros wid n Hn. apply budgets_exact in Hn. lia. }
  intros _. apply plateaus_bind; [apply runs_sound, transition_sound|]. intros _.
  apply plateaus_bind; [destruct (_ <? _); [apply runs_sound, top_up_sound|apply runs_sound, steady_ret]|].
  intros _. apply plateaus_bind; [apply runs_gets|]. intros incomplete.
  apply plateaus_bind; [destruct incomplete; [apply runs_sound, steady_ret|apply runs_sound, steady_fail]|].
  intros _. apply plateaus_bind; [apply runs_gets|]. intros []; [apply runs_sound, steady_ret|].
  apply plateaus_bind; [apply runs_sound, application_sound|]. intros _.
  apply plateaus_bind; [apply runs_gets|]. intros stop. apply runs_sound, steady_ret.
Qed.

Lemma plateaus_run sequence : ∀ plateau, runs (run_plateaus plateau sequence).
Proof.
  induction sequence as [|target_size rest IH]; intros plateau; cbn [run_plateaus].
  { apply runs_sound, steady_ret. }
  apply plateaus_bind; [apply plateau_runs|]. intros []; [apply IH|apply runs_sound, steady_ret].
Qed.

Lemma initial_population new_fanout workers :
  population (initial_runner new_fanout workers) ≡ₚ workers.
Proof.
  unfold population, initial_runner. cbn. destruct profile_only_singletons; [|done].
  unfold frontload_profile_enabled_singletons_in_idle.
  rewrite (list_filter_iff (λ w, profiled_singleton w = false) (λ w, ¬ profiled_singleton w = true)).
  - apply filter_app_complement.
  - intros w. by destruct (profiled_singleton w).
Qed.
End phase.

(** ** Examples *)

Definition example_externals : RunnerExternals := {| http_status_text _ := ""; process_id := 1 |}.

Definition example_settings (group : bool) : Settings :=
  {| profiled_failure_stop_after := 0; resource_sweep := true; external_devices := false;
     sender_keys := group; profile_only_singletons := false;
     min_profiled_samples_per_operation := 0; external_density_ids := ∅; app_rounds := 1;
     max_app_samples_per_payload := 3; payload_sizes := RunnerConfig.FixedSizes [16];
     loop_fuel := 100 |}.

Definition example_worker (name : string) : WorkerSpec :=
  MkWorkerSpec name ("http://" +:+ name +:+ ":8080") name Singleton true.

Definition example_workers : list WorkerSpec := example_worker <$> ["alice"; "bob"; "carol"].

Definition example_fanout : Batches.FanoutController :=
  Batches.new_controller 4 1 false (Batches.f64_of_usize 1) 5000.

(** Alice and Bob talk, Carol waits. *)
Definition example_runner : Runner :=
  MkRunner (take 2 example_workers) (drop 2 example_workers) example_fanout ∅ ∅.

Lemma example_roomy group s : session_budget s = ∅ → length (population s) = 3%nat →
  roomy (cfg := example_settings group) s.
Proof.
  intros Hb Hp. unfold roomy. rewrite Hb, Hp. split_and!; [|done|done].
  intros wid n. by rewrite lookup_empty.
Qed.

(** ** The run *)

(** C30: A run of the Signal benchmark always comes to an end, whatever the workers answer and
    whichever of them fail: it returns or reports an error, without a panic and without a
    loop that goes round for ever; and the workers active and idle at its end are some of
    those it was given, none of them more often.  Identifiers are ASCII, as everywhere
    ([Text]): in a payload that [deterministic_payload] cuts inside a wider character
    [String::truncate] panics. *)
Theorem signal_run_settles {ext : RunnerExternals} {cfg : Settings}
    (new_fanout : Batches.FanoutController) (workers : list WorkerSpec) (sequence : list N)
    (Hfuel : roomy (initial_runner new_fanout workers)) :
  ensures contract tt (initial_runner new_fanout workers) (run_benchmark sequence) (λ _ s' o,
    (o = Returned tt ∨ ∃ e, o = Failed e) ∧ active s' ++ idle s' ⊆+ workers).
Proof.
  apply ensures_rescue. eapply ensures_mono; [|by apply plateaus_run].
  intros t s' o (Hp & _ & Ho). rewrite initial_population in Hp.
  destruct o as [[]|e| |]; [|..|done|done].
  - apply ensures_ret. split; [by left|done].
  - destruct e; try (apply ensures_fail; split; [right; by eexists|done]).
    apply ensures_ret. split; [by left|done].
Qed.

Lemma signal_run_settles_witness :
  let externals := example_externals in let settings := example_settings false in
  roomy (initial_runner example_fanout example_workers)
  ∧ ensures contract tt (initial_runner example_fanout example_workers) (run_benchmark [2; 3])
      (λ _ s' o, (o = Returned tt ∨ ∃ e, o = Failed e) ∧ active s' ++ idle s' ⊆+ example_workers).
Proof.
  intros externals settings.
  assert (Hr : roomy (initial_runner example_fanout example_workers)) by by apply example_roomy.
  split; [exact Hr|]. exact (signal_run_settles example_fanout example_workers [2; 3] Hr).
Defined.

(** ** A recipient that takes the sender with it *)

(** No worker was killed, and the record is written. *)
Definition no_kills (_ : unit) (X : Type) (e : RunnerEffect X) : X → unit → Prop :=
  match e in RunnerEffect X return X → unit → Prop with
  | ReadOomEvidence => λ lines _, lines = []
  | AppendEvent _ => λ written _, written = Ok tt
  | _ => λ _ _, True
  end.

Lemma find_nothing worker t : always no_kills t (find_oom_evidence worker) (λ _ o, o = None).
Proof.
  unfold find_oom_evidence. generalize 5%nat. intros later. revert t.
  induction later as [|later IH]; intros t; cbn [find_evidence];
    apply always_bind, always_trigger; intros lines t1 ->; [done|].
  apply always_bind, always_trigger. intros [] t2 _. apply IH.
Qed.

Lemma contains_front p s t : contains p s = true → contains p (s +:+ t) = true.
Proof.
  induction s as [|c s IH].
  - destruct p as [|d p]; [|done]. intros _. exact (contains_prefix "" t).
  - change (String c s +:+ t) with (String c (s +:+ t)). cbn [contains].
    destruct (strip_prefix p (String c s)) as [r|] eqn:E.
    + apply strip_prefix_Some in E as Hs. intros _.
      replace (String c (s +:+ t)) with (p +:+ (r +:+ t)).
      * by rewrite strip_prefix_app.
      * rewrite <-string_app_assoc, <-Hs. done.
    + intros Hs. rewrite (IH Hs). by case_match.
Qed.

Lemma contains_concat p sep l x : x ∈ l → contains p (to_ascii_lowercase x) = true →
  contains p (to_ascii_lowercase (String.concat sep l)) = true.
Proof.
  induction l as [|y l IH]; [by intros ?%not_elem_of_nil|]. intros Hx Hp.
  destruct l as [|z l].
  - apply list_elem_of_singleton in Hx as ->. exact Hp.
  - change (String.concat sep (y :: z :: l)) with (y +:+ (sep +:+ String.concat sep (z :: l))).
    rewrite !lowercase_app. apply elem_of_cons in Hx as [->|Hx]; [by apply contains_front|].
    do 2 apply contains_app. by apply IH.
Qed.

(** The text of a failed batch holds the texts of its first five failures. *)
Lemma batch_text_contains p ph operation failures f : f ∈ take 5 failures →
  contains p (to_ascii_lowercase (display_error (failure_error f))) = true →
  contains p (to_ascii_lowercase (error_text (BatchFanoutError ph operation failures))) = true.
Proof.
  intros Hf Hp. cbn [error_text display_error]. rewrite !lowercase_app. do 7 apply contains_app.
  apply contains_front, (contains_concat _ _ _ (display_failure f)).
  - rewrite firstn_map. by apply (list_elem_of_fmap_2 display_failure).
  - destruct f as [w e]. cbn [display_failure]. rewrite !lowercase_app. by do 2 apply contains_app.
Qed.

(** C31: When a recipient runs out of its heap budget while it receives a broadcast, the runner
    blames the sender: the text of the failed batch holds the recipient's error, so the sender
    is recorded and left out, and the recipient that failed stays - to fail the next sender.
    Here no worker was killed, sessions are pairwise and the run does not count failures. *)
Theorem sender_removed_for_recipient {ext : RunnerExternals} {cfg : Settings}
    (plateau_index plateau_size : N) (cursor : BenchmarkCursor) (actor : WorkerSpec) (s : Runner)
    (ph operation : string) (failures : list FanoutFailure) (f : FanoutFailure)
    (Hpairwise : sender_keys = false) (Hcount : profiled_failure_stop_after = 0)
    (Hfailed : f ∈ take 5 failures) (Hrecipient : failed_worker f ∈ others (id actor) (active s))
    (Hheap : contains "app_heap_budget_exceeded"
               (to_ascii_lowercase (display_error (failure_error f))) = true) :
  ensures no_kills tt s
    (broadcast_failed plateau_index plateau_size cursor actor
       (BatchFanoutError ph operation failures))
    (λ _ s' o, o = Returned tt ∧ active s' = others (id actor) (active s)
       ∧ failed_worker f ∈ active s').
Proof.
  apply ensures_gets, ensures_bind, ensures_bind, ensures_perform.
  eapply always_mono; [|apply find_nothing]. intros t o ->. cbv zeta.
  assert (Hclass : classify_worker_error (BatchFanoutError ph operation failures)
                   = "app_heap_budget_exceeded").
  { unfold classify_worker_error. cbv zeta. by rewrite (batch_text_contains _ _ _ _ f). }
  rewrite Hclass, bool_decide_true by (by left).
  apply ensures_bind, ensures_bind, ensures_bind, ensures_perform, always_trigger.
  intros written t1 ->. apply ensures_ret. unfold count_profiled_budget_failure. rewrite Hcount.
  apply ensures_ret, ensures_ret, ensures_modify. unfold refresh_in_sender_keys.
  rewrite Hpairwise. by apply ensures_ret.
Qed.

(** Bob has no heap left; Alice goes. *)
Definition bob_failed : FanoutFailure :=
  MkFailure (example_worker "bob")
    (bail "participant bob batch error: app_heap_budget_exceeded participant=bob").

Lemma sender_removed_for_recipient_witness :
  let externals := example_externals in let settings := example_settings false in
  ensures no_kills tt example_runner
    (broadcast_failed 1 2 (new_cursor 1 2 2 "application" "broadcast_message")
       (example_worker "alice") (BatchFanoutError "application" "receive_message" [bob_failed]))
    (λ _ s' o, o = Returned tt ∧ active s' = others "alice" (active example_runner)
       ∧ failed_worker bob_failed ∈ active s').
Proof.
  intros externals settings.
  apply (sender_removed_for_recipient 1 2 _ (example_worker "alice") example_runner
           "application" "receive_message" [bob_failed] bob_failed).
  - reflexivity.
  - reflexivity.
  - left.
  - by apply (bool_decide_unpack _).
  - reflexivity.
Defined.

(** * Moving the Signal benchmark to a size

    What [transition_to_size] of [Signal_containerized/src/staircase_runner.rs] comes to, in
    pairwise mode and with sender keys, and what an enrolment with sender keys does to a
    joiner when a member of the group fails. *)

Local Open Scope N_scope.

Lemma kept_distinct s s' : kept s s' → NoDup (id <$> population s) → NoDup (id <$> population s').
Proof.
  intros [(k & Hk)%submseteq_Permutation _]. rewrite Hk, fmap_app. by intros [? _]%NoDup_app.
Qed.

(** C29: Moving to a target size always ends, whatever the workers answer and whichever of
    them fail: it returns or reports an error.  The workers it leaves are workers it was
    given, none of them twice and none both active and idle.  When it returns, at most the
    target number of them is active; in pairwise mode exactly that number, unless no worker
    is idle any more. *)
Theorem transition_terminates {ext : RunnerExternals} {cfg : Settings} (plateau_index : N)
    (target : nat) (s : Runner)
    (Hfuel : roomy s) (Hdistinct : NoDup (id <$> active s ++ idle s)) :
  ensures contract tt s (transition_to_size plateau_index target) (λ _ s' o,
    (o = Returned tt ∨ ∃ e, o = Failed e)
    ∧ active s' ++ idle s' ⊆+ active s ++ idle s ∧ NoDup (id <$> active s' ++ idle s')
    ∧ (o = Returned tt → (length (active s') <= target)%nat
         ∧ (sender_keys = false → length (active s') = target ∨ idle s' = []))).
Proof.
  eapply ensures_mono; [|by apply moving_ends]. intros t s' o [[Hk Ho] Hr]. split_and!.
  - destruct o as [[]|e| |]; [by left|right; by exists e|done..].
  - apply Hk.
  - by eapply kept_distinct.
  - exact Hr.
Qed.

Lemma transition_terminates_witness :
  let externals := example_externals in let settings := example_settings true in
  NoDup (id <$> active example_runner ++ idle example_runner)
  ∧ ensures contract tt example_runner (transition_to_size 1 1) (λ _ s' o,
      (o = Returned tt ∨ ∃ e, o = Failed e)
      ∧ active s' ++ idle s' ⊆+ active example_runner ++ idle example_runner
      ∧ NoDup (id <$> active s' ++ idle s')
      ∧ (o = Returned tt → (length (active s') <= 1)%nat
           ∧ (sender_keys = false → length (active s') = 1%nat ∨ idle s' = []))).
Proof.
  intros externals settings. split; [by apply (bool_decide_unpack _)|].
  apply (transition_terminates 1 1 example_runner).
  - by apply example_roomy.
  - by apply (bool_decide_unpack _).
Defined.

(** A run is one of the behaviours. *)
Lemma ensures_run {W A} (h : ∀ X, W → RunnerEffect X → W * X) (m : M A) s Q w :
  (∀ X w e, contract tt X e (h X w e).2 tt) → ends tt s m (λ _ s' o, Q s' o) →
  Q (run h w (m s)).2.1 (run h w (m s)).2.2.
Proof.
  intros Hh Hm.
  exact (always_run contract h (λ _, tt) (m s) (λ _ r, Q r.1 r.2) Hh w Hm).
Qed.

Lemma gets_then {A B} (f : Runner → A) (k : A → M B) s : bind (gets f) k s = k (f s) s.
Proof. done. Qed.

Lemma modify_then {B} f (k : unit → M B) s : bind (modify f) k s = k tt (f s).
Proof. done. Qed.

(** When a member of the group fails while a joiner is enrolled, the joiner, which is
    well, is lost: the enrolment goes on without it, and it is idle no more. *)
Lemma enroll_loses_joiner {ext : RunnerExternals} {cfg : Settings} {W}
    (h : ∀ X, W → RunnerEffect X → W * X) w (s s1 : Runner) plateau target joiner rest w1 wid context :
  (∀ X w e, contract tt X e (h X w e).2 tt) → roomy s → NoDup (population s) →
  idle s = joiner :: rest →
  run h w (onboard (new_cursor plateau target (len (active s) + 1) "enrollment" "sender_key_onboarding")
             (active s) joiner (set_idle rest s)) = (w1, (s1, Failed (EndpointFailure wid context))) →
  let s' := (run h w (enroll_sender_key_participant plateau target s)).2.1 in
  joiner ∉ population s'.
Proof.
  intros Hh Hr Hnd Hi Ho.
  assert (Hu : untouched (set_idle rest s) s1).
  { pose proof (ensures_run h _ _ (λ s' _, untouched (set_idle rest s) s') w Hh
      (ensures_mono contract tt (set_idle rest s) _ _ _ (λ _ _ _ H, proj1 H)
         (harmless_onboard
            (new_cursor plateau target (len (active s) + 1) "enrollment" "sender_key_onboarding")
            (active s) joiner tt (set_idle rest s)))) as H.
    by rewrite Ho in H. }
  unfold enroll_sender_key_participant.
  rewrite gets_then, Hi, modify_then, gets_then.
  change (active (set_idle rest s)) with (active s).
  unfold rescue, bind at 1, attempt. rewrite !run_bind, Ho. cbn [run mret prog_ret].
  rewrite modify_then.
  set (s2 := set_active _ s1).
  assert (Hf : fewer (set_idle rest s) s2).
  { etrans; [by apply untouched_fewer|apply leave_out]. }
  pose proof (ensures_run h (refresh_sender_keys plateau target) s2 (λ s' _, fewer s2 s') w1 Hh) as H.
  destruct (run h w1 _) as [w3 [s3 o]]. cbn [fst snd] in *.
  assert (H3 : fewer s2 s3).
  { apply H. eapply ensures_mono; [|apply refresh_ends]; [by intros t s' o' [? _]|].
    apply roomy_active. eapply roomy_kept; [|exact Hr]. apply fewer_kept in Hf.
    etrans; [|exact Hf]. pose proof (popped s 1) as [_ Hk]. by rewrite Hi in Hk. }
  assert (Hk : kept (set_idle rest s) s3) by (apply fewer_kept; by etrans).
  intros Hin. eapply elem_of_submseteq in Hin; [|apply Hk]. unfold population in Hnd, Hin.
  rewrite Hi in Hnd. apply NoDup_app in Hnd as (_ & Ha & [Hj _]%NoDup_cons).
  apply elem_of_app in Hin as [Hin|Hin]; [|done]. apply (Ha joiner Hin). left.
Qed.
