(* ===== verification/Conversation.v ===== *)
(** * Conversations of two participants

    The participant that fetched a bundle and the one that published it, after
    [establish_session_from_bundle]: the first has its side of a correspondence, and the
    second makes the other side of the first message that arrives.  Then whole runs: whatever
    the two write and in whatever order it is delivered, it is read as it was written, within
    the limits that the library and its post-quantum ratchet have. *)

From S2P Require Import Prelude HttpRetry SenderKeyState GroupCipher PreKeys Participant SignalWorker.
From S2P Require Import PrekeyLifecycle Ratchet Sessions RatchetSchedule SessionTurns Correspondence.
From S2P Require Import LibsignalSessions ToySession.
From stdpp Require Import options.

Local Open Scope N_scope.

Section establishment.
Context {crypto : SignalCrypto} {agreement : AgreementPrimitives} {csprng : Csprng}.
Context {prim : kem.KemPrimitives} {spqr : Spqr} {codec : SessionCodec} {text : UuidText}.
Context {laws : SignalLaws} {agree : AgreementLaws} {glaws : CsprngLaws} {klaws : kem.KemLaws}.
Context {pqlaws : SpqrLaws} {claws : SessionCodecLaws}.

Implicit Types (p q : SignalParticipant) (b : PreKeyBundle).

Definition own_identity p : IdentityKeyPair := is_key_pair (identity_store (store p)).
Definition trusts p (a : ProtocolAddress) (k : IdentityKey) : bool :=
  is_trusted_identity (identity_store (store p)) a k.

(** The first key [establish_session_from_bundle] draws *)
Definition drawn_base p : KeyPair := (generate_pair (rng p)).1.

(** [p] may use the bundle [b] that [q] published, and nobody has used the base key it
    will draw. *)
Record introduced p q b : Prop := {
  introduced_verifies : verifies b;
  introduced_answers : answers (store q) b;
  introduced_identity : b_identity_key b = ik_identity_key (own_identity q);
  introduced_sound : sound_pair (identity_pair (own_identity p))
                     ∧ sound_pair (identity_pair (own_identity q));
  introduced_trust : trusts p (address q) (ik_identity_key (own_identity q)) = true;
  introduced_trusted : trusts q (address p) (ik_identity_key (own_identity p)) = true;
  introduced_stranger : session_store (store q) !! address p = None;
  introduced_unseen : kp_public (drawn_base p) ∉
    default [] (base_keys_seen (kyber_pre_key_store (store q))
                  !! (b_kyber_pre_key_id b, b_signed_pre_key_id b));
  introduced_ids : is_registration_id (identity_store (store p)) <= u32_max
    ∧ u32_field (b_pre_key_id b) ∧ b_signed_pre_key_id b <= u32_max ∧ b_kyber_pre_key_id b <= u32_max;
}.

Lemma same_account_sym k a k' a' : is_same_account k a k' a' = is_same_account k' a' k a.
Proof.
  unfold is_same_account. destruct (decide (k = k')) as [->|Hne].
  - rewrite decide_True by done.
    destruct (parse_from_service_id_string (address_name a)),
      (parse_from_service_id_string (address_name a')); try done.
    apply bool_decide_ext. naive_solver.
  - by rewrite decide_False by congruence.
Qed.

(** The prekeys of a bundle as its publisher loads them *)
Lemma answers_pairs s b : answers s b →
  ∃ r signed kr kyber one_time,
    get_signed_pre_key (signed_pre_key_store s) (b_signed_pre_key_id b) = Ok r
    ∧ signed_pre_key_pair r = Ok signed ∧ sound_pair signed
    ∧ kp_public signed = b_signed_pre_key_public b
    ∧ get_kyber_pre_key (kyber_pre_key_store s) (b_kyber_pre_key_id b) = Ok kr
    ∧ kyber_pre_key_pair kr = Ok kyber ∧ kem.generated kyber
    ∧ kem.public_key kyber = b_kyber_pre_key_public b
    ∧ (∀ kp, one_time = Some kp → sound_pair kp)
    ∧ b_pre_key_public b = kp_public <$> one_time
    ∧ match b_pre_key_id b with
      | Some id => let? r <- get_pre_key (pre_key_store s) id in
                   let? k <- pre_key_pair r in Ok (Some k)
      | None => Ok None
      end = Ok one_time.
Proof.
  intros ((r & signed & H1 & H2 & H3 & H4) & (kr & kyber & K1 & K2 & K3 & K4) & H).
  destruct (b_pre_key_id b) as [id|].
  - destruct H as (pr & kp & P1 & P2 & P3 & P4).
    exists r, signed, kr, kyber, (Some kp). split_and!; try done; [by intros ? [= <-]|by rewrite P1, P2].
  - exists r, signed, kr, kyber, None. by split_and!.
Qed.

(** The correspondence that begins *)
Definition initiator_end p (s : SessionState) : End :=
  first_end (own_identity p) (address p) 1 [(0%nat, fresh_window)] s.
Definition publisher_end q (s : SessionState) : End := first_end (own_identity q) (address q) 0 [] s.

Definition contact_of p b (ct : bytes) (now : N) : Contact :=
  MkContact (is_registration_id (identity_store (store p))) (b_pre_key_id b) (b_signed_pre_key_id b)
    (b_kyber_pre_key_id b) ct (kp_public (drawn_base p)) (now `div` 1000).

Lemma linked_renew sc x y s s' :
  linked sc x y → ss_pq_ratchet_state s = ss_pq_ratchet_state (session x) →
  session_in_turn sc (turn (side x)) (sent (side x)) (windows x) (identity x) (identity y)
    (ss_pq_ratchet_state (session x)) s →
  ss_pq_ratchet_state s' = ss_pq_ratchet_state (session y) →
  session_in_turn sc (turn (side y)) (sent (side y)) (windows y) (identity y) (identity x)
    (ss_pq_ratchet_state (session y)) s' →
  linked sc (with_session x s) (with_session y s').
Proof.
  intros H E1 H1 E2 H2. apply linked_sym, linked_with_session; [|done|cbn; by rewrite E2].
  apply linked_sym, linked_with_session; [done..|by rewrite E1].
Qed.

(** What the initiator stores of the new session [s] *)
Definition stored_session p b (now : N) (s : SessionState) : SessionState :=
  set_registration_ids
    (set_unacknowledged_kyber_pre_key_id
       (set_unacknowledged_pre_key_message s (b_pre_key_id b) (b_signed_pre_key_id b)
          (kp_public (drawn_base p)) now) (b_kyber_pre_key_id b))
    (b_registration_id b) (is_registration_id (identity_store (store p))).

Lemma initiator_establishes p q b now signed one_time kyber self g' s :
  verifies b → b_identity_key b = ik_identity_key (own_identity q) →
  trusts p (address q) (ik_identity_key (own_identity q)) = true →
  kp_public signed = b_signed_pre_key_public b → b_pre_key_public b = kp_public <$> one_time →
  kem.public_key kyber = b_kyber_pre_key_public b →
  self = is_same_account (ik_identity_key (own_identity p)) (address p)
           (ik_identity_key (own_identity q)) (address q) →
  initialize_alice_session
    (initiator (own_identity p) (own_identity q) (drawn_base p) signed one_time kyber self)
    (generate_pair (rng p)).2 = (g', Ok s) →
  ∃ p', establish_session_from_bundle p (address q) b now = (p', Ok tt)
    ∧ address p' = address p
    ∧ trusts p' (address q) (ik_identity_key (own_identity q)) = true
    ∧ ∃ previous, session_store (store p') !! address q
        = Some (MkRecord (Some (stored_session p b now s)) previous).
Proof.
  intros [Hv1 Hv2] Hid Ht Es Eo Ek -> Ha. unfold establish_session_from_bundle.
  cbn [Participant.process_prekey_bundle Participant.SessionRecord libsignal].
  unfold Sessions.process_prekey_bundle. rewrite Hid. unfold trusts in Ht. rewrite Ht. cbn [negb].
  rewrite Hid in Hv1, Hv2. rewrite Hv1, Hv2. cbn [negb].
  unfold initiator, drawn_base in Ha. unfold stored_session, drawn_base.
  destruct (generate_pair (rng p)) as [base g]. cbn [fst snd] in Ha.
  rewrite Es, <-Eo, Ek in Ha. fold (own_identity p). rewrite Ha.
  eexists. split; [reflexivity|]. split; [done|]. split; [by apply trusted_saved|].
  eexists. cbn. rewrite lookup_insert_eq. reflexivity.
Qed.

Lemma publisher_awaits p q b ct now signed r kyber kr one_time self s y :
  introduced p q b → let c := contact_of p b ct now in
  get_signed_pre_key (signed_pre_key_store (store q)) (b_signed_pre_key_id b) = Ok r →
  signed_pre_key_pair r = Ok signed →
  get_kyber_pre_key (kyber_pre_key_store (store q)) (b_kyber_pre_key_id b) = Ok kr →
  kyber_pre_key_pair kr = Ok kyber →
  match b_pre_key_id b with
  | Some id => let? r <- get_pre_key (pre_key_store (store q)) id in
               let? k <- pre_key_pair r in Ok (Some k)
  | None => Ok None
  end = Ok one_time →
  self = is_same_account (ik_identity_key (own_identity p)) (address p)
           (ik_identity_key (own_identity q)) (address q) →
  initialize_bob_session
    (recipient (own_identity p) (own_identity q) (drawn_base p) signed one_time kyber self ct) signed
  = Ok s →
  identity y = ik_identity_key (own_identity p) → end_address y = address p →
  awaits c q (publisher_end q (set_registration_ids s (c_registration c)
                                 (is_registration_id (identity_store (store q))))) y.
Proof.
  intros [_ _ _ _ _ Ht Hn Hu _] c R1 R2 K1 K2 Hl -> Hb Ey Ea. unfold trusts in Ht.
  split; cbn [publisher_end first_end session end_address identity]; rewrite ?Ey, ?Ea; [done|done|done| |].
  - intros m. unfold process_prekey, process_prekey_impl.
    cbn [wrap prekey_message_new pm_identity_key pm_version pm_base_key pm_signed_pre_key_id pm_kyber
      pm_pre_key_id pm_registration_id c contact_of c_pre_key_id c_signed_id c_kyber_id c_base
      c_ciphertext c_registration].
    rewrite Ht. unfold promote_matching_session. cbn [new_fresh current_session previous_sessions find_matching fmap option_fmap option_map].
    rewrite R1, R2. cbn [fst snd ok_or fmap option_fmap option_map]. rewrite K1, K2. cbn [ok_or].
    fold (own_identity q). unfold recipient in Hb. rewrite same_account_sym in Hb.
    destruct (b_pre_key_id b) as [id|].
    + destruct (get_pre_key _ id) as [pr|]; [|done]. destruct (pre_key_pair pr) as [k|]; [|done].
      injection Hl as <-. cbn [ok_or]. rewrite Hb. done.
    + injection Hl as <-. rewrite Hb. done.
  - unfold mark_kyber_pre_key_used. by rewrite decide_False by done.
Qed.

Lemma establish p q b now : introduced p q b →
  ∃ p' s s' ct sc, let c := contact_of p b ct now in
    establish_session_from_bundle p (address q) b now = (p', Ok tt)
    ∧ linked sc (initiator_end p s) (publisher_end q s')
    ∧ corresponds p' (initiator_end p s) (publisher_end q s')
    ∧ awaits c q (publisher_end q s') (initiator_end p s)
    ∧ contact_ok c ∧ pending (Some c) s ∧ pending None s'
    ∧ ss_alice_base_key s' = public_serialize (c_base c)
    ∧ turn_public sc 0 = b_signed_pre_key_public b.
Proof using laws agree glaws klaws pqlaws.
  intros H. pose proof H as [Hv Hans Hid [Hsp Hsq] Htp _ _ _ (I1 & I2 & I3 & I4)].
  destruct (answers_pairs _ _ Hans) as (r & signed & kr & kyber & one_time & R1 & R2 & Hsi & Es & K1 & K2
    & Hky & Ek & Hot & Eo & Hload).
  pose proof (generate_pair_sound (rng p)) as Hbase. fold (drawn_base p) in Hbase.
  set (self := is_same_account (ik_identity_key (own_identity p)) (address p)
                 (ik_identity_key (own_identity q)) (address q)).
  destruct (sessions_agree (own_identity p) (own_identity q) (drawn_base p) signed one_time kyber self
    Hsp Hsq Hbase Hsi Hot Hky (address p) (address q) (generate_pair (rng p)).2)
    as (g' & ct & s0 & s0' & sc & Ha & Hb & Hlinked & Hsc0 & Hbk & Hpe).
  destruct (initiator_establishes p q b now signed one_time kyber self g' _ Hv Hid Htp Es Eo Ek eq_refl Ha)
    as (p' & Hest & Haddr & Htr & Hst).
  exists p', (stored_session p b now (set_kyber_ciphertext s0 ct)),
    (set_registration_ids s0' (is_registration_id (identity_store (store p)))
       (is_registration_id (identity_store (store q)))), ct, sc. cbv zeta.
  split; [exact Hest|]. split.
  { apply (linked_renew _ _ _ _ _ Hlinked); [done| |done|].
    - apply session_set_registration. unfold set_unacknowledged_kyber_pre_key_id, set_unacknowledged_pre_key_message,
        set_kyber_ciphertext. do 3 apply session_set_pending. apply (half_session _ _ _ (linked_there _ _ _ Hlinked)).
    - apply session_set_registration. apply (half_session _ _ _ (linked_back _ _ _ Hlinked)). }
  split; [by split|]. split; [by eapply publisher_awaits|].
  split; [split; [done..|apply Hbase]|]. split; [done|]. split; [done|]. split; [done|]. by rewrite Hsc0.
Qed.
End establishment.

(** * A conversation

    Two participants of [signal_participant.rs], after one has established a session from
    the other's bundle, write and hear messages in any order.  [conversation] says that
    they do what the correspondence of [Correspondence] does: every message is read
    once, as it was written, and a repeated one is refused as a duplicate. *)

Local Open Scope N_scope.

(** ** What is expected *)

Inductive Who := Initiator | Publisher.
Definition other (w : Who) : Who := match w with Initiator => Publisher | Publisher => Initiator end.

Record Both (A : Type) := MkBoth { of_initiator : A; of_publisher : A }.
Arguments MkBoth {_} _ _.
Arguments of_initiator {_} _.
Arguments of_publisher {_} _.

Definition get {A} (w : Who) (b : Both A) : A :=
  match w with Initiator => of_initiator b | Publisher => of_publisher b end.
Definition put {A} (w : Who) (a : A) (b : Both A) : Both A :=
  match w with
  | Initiator => MkBoth a (of_publisher b)
  | Publisher => MkBoth (of_initiator b) a
  end.

(** Writing a text at a time, and hearing the other's message with an index *)
Inductive Event := Say (w : Who) (text : bytes) (now : N) | Hear (w : Who) (i : nat).

Inductive Reply :=
| Written
| NoSession
| Read (text : bytes)
| Repeated.

(** The initiator starts in turn 1; the publisher has no session while it is in turn 0. *)
Definition beginning : Both Side := MkBoth (MkSide 1 0 []) (MkSide 0 0 []).

(** [None]: more than [MAX_MESSAGE_KEYS] messages of a side, a message that has not been
    written, or one of a turn that is too old *)
Definition expect (t : Both Side) (e : Event) : option (Both Side * Reply) :=
  match e with
  | Say w text _ =>
      let x := get w t in
      if decide (turn x = 0%nat) then Some (t, NoSession)
      else if decide (length (letters x) < MAX_MESSAGE_KEYS)%nat
      then Some (put w (write x text) t, Written)
      else None
  | Hear w i =>
      let x := get w t in
      let y := get (other w) t in
      let! l <- letters y !! i in
      if decide (turn x <= l_turn l + 9)%nat then
        if l_opened l then Some (t, Repeated)
        else Some (put w (answer x (l_turn l)) (put (other w) (mark y i) t), Read (l_text l))
      else None
  end.

Fixpoint expect_all (t : Both Side) (es : list Event) : option (Both Side * list Reply) :=
  match es with
  | [] => Some (t, [])
  | e :: es =>
      let! (t, r) <- expect t e in
      let! (t, rs) <- expect_all t es in
      Some (t, r :: rs)
  end.

(** ** What happens *)

Section run.
Context {crypto : SignalCrypto} {csprng : Csprng} {prim : kem.KemPrimitives}.
Context {pairwise : PairwiseLibrary} {text : UuidText}.

(** The messages each side has sent so far, as bytes *)
Record World := MkWorld { participants : Both SignalParticipant; posted : Both (list bytes) }.

Inductive Outcome :=
| Encrypted (r : result Error bytes)
| Decrypted (r : result Error bytes)
| NoMessage.

Definition act (w : World) (e : Event) : World * Outcome :=
  match e with
  | Say who p_text now =>
      let '(p, r) :=
        encrypt_message (get who (participants w)) (address (get (other who) (participants w)))
          p_text now in
      let w := MkWorld (put who p (participants w)) (posted w) in
      match r with
      | Ok c =>
          (MkWorld (participants w) (put who (get who (posted w) ++ [serialize c]) (posted w)),
           Encrypted (Ok (serialize c)))
      | Err e => (w, Encrypted (Err e))
      end
  | Hear who i =>
      match get (other who) (posted w) !! i with
      | None => (w, NoMessage)
      | Some b =>
          match ciphertext_from_bytes b with
          | Err e => (w, Decrypted (Err e))
          | Ok c =>
              let '(p, r) :=
                decrypt_message (get who (participants w))
                  (address (get (other who) (participants w))) c in
              (MkWorld (put who p (participants w)) (posted w), Decrypted r)
          end
      end
  end.

Fixpoint act_all (w : World) (es : list Event) : World * list Outcome :=
  match es with
  | [] => (w, [])
  | e :: es =>
      let '(w, o) := act w e in
      let '(w, os) := act_all w es in
      (w, o :: os)
  end.

Definition agrees (r : Reply) (o : Outcome) : Prop :=
  match r, o with
  | Written, Encrypted (Ok _) => True
  | NoSession, Encrypted (Err e) => ∃ a, e = anyhow (signal_display (SessionNotFound a))
  | Read t, Decrypted r => r = Ok t
  | Repeated, Decrypted (Err e) =>
      ∃ current n, e = anyhow (signal_display (DuplicatedMessage current n))
  | _, _ => False
  end.
End run.

(** ** Fresh keys and epochs *)

Section keys.
Context {crypto : SignalCrypto} {agreement : AgreementPrimitives} {csprng : Csprng}.
Context {prim : kem.KemPrimitives} {spqr : Spqr} {codec : SessionCodec} {text : UuidText}.

Definition ratchet_of (b : bytes) : option PublicKey :=
  match ciphertext_from_bytes b with
  | Ok (inl m) => Some (sm_ratchet_key m)
  | Ok (inr m) => Some (sm_ratchet_key (pm_message m))
  | Err _ => None
  end.

(** The epoch of the post-quantum ratchet a message belongs to *)
Definition epoch_of {pqlaws : SpqrLaws} (b : bytes) : N :=
  match ciphertext_from_bytes b with
  | Ok (inl m) => spqr_epoch (sm_pq_ratchet m)
  | Ok (inr m) => spqr_epoch (sm_pq_ratchet (pm_message m))
  | Err _ => 0
  end.

(** What is heard for the first time is of an epoch whose keys the hearer still has: the
    hearer has not sent in an epoch two or more after it. *)
Definition event_in_epoch {pqlaws : SpqrLaws} (t : Both Side) (w : World) (e : Event) : bool :=
  match e with
  | Say _ _ _ => true
  | Hear who i =>
      match letters (get (other who) t) !! i, get (other who) (posted w) !! i with
      | Some l, Some b =>
          l_opened l || forallb (λ b', epoch_of b' <=? epoch_of b + 1) (get who (posted w))
      | _, _ => true
      end
  end.

Fixpoint in_epoch {pqlaws : SpqrLaws} (t : Both Side) (w : World) (es : list Event) : bool :=
  match es with
  | [] => true
  | e :: es =>
      event_in_epoch t w e
      && match expect t e with Some (t', _) => in_epoch t' (act w e).1 es | None => true end
  end.

(** Messages of different turns have different ratchet keys. *)
Definition distinct_turns (turns : list nat) (bs : list bytes) : Prop :=
  ∀ i j t t' b b', turns !! i = Some t → turns !! j = Some t' → bs !! i = Some b → bs !! j = Some b' →
    t ≠ t' → ratchet_of b ≠ ratchet_of b'.

Definition same_key_same_turn (x y : nat * bytes) : Prop := x.1 = y.1 ∨ ratchet_of x.2 ≠ ratchet_of y.2.

#[export] Instance same_key_same_turn_dec x y : Decision (same_key_same_turn x y).
Proof. unfold same_key_same_turn. apply _. Defined.

Lemma distinct_turns_check turns bs :
  Forall (λ x, Forall (same_key_same_turn x) (zip turns bs)) (zip turns bs) → distinct_turns turns bs.
Proof.
  intros H i j t t' b b' Hi Hj Hbi Hbj Hne.
  assert (Hx : zip turns bs !! i = Some (t, b)) by (apply lookup_zip_with_Some; eauto).
  assert (Hy : zip turns bs !! j = Some (t', b')) by (apply lookup_zip_with_Some; eauto).
  pose proof (Forall_lookup_1 _ _ _ _ (Forall_lookup_1 _ _ _ _ H Hx) Hy) as [E|E]; done.
Qed.

Definition turns_of (t : Both Side) (w : Who) : list nat := l_turn <$> letters (get w t).

(** The ratchet keys the participants have drawn are new; [first] is the signed prekey. *)
Definition fresh_keys (first : PublicKey) (t : Both Side) (bs : Both (list bytes)) : Prop :=
  (∀ w, distinct_turns (turns_of t w) (get w bs))
  ∧ Forall (λ b, ratchet_of b ≠ Some first) (of_publisher bs).
End keys.

Lemma get_put {A} w (a : A) b : get w (put w a b) = a.
Proof. by destruct w. Qed.
Lemma get_put_other {A} w (a : A) b : get (other w) (put w a b) = get (other w) b.
Proof. by destruct w. Qed.
Lemma get_other_put {A} w (a : A) b : get w (put (other w) a b) = get w b.
Proof. by destruct w. Qed.
Lemma other_other w : other (other w) = w.
Proof. by destruct w. Qed.
Lemma both_sides (P : Who → Prop) w : P w → P (other w) → ∀ w', P w'.
Proof. by destruct w; intros ? ? []. Qed.

(** ** The participants carry the correspondence *)

Section simulation.
Context {crypto : SignalCrypto} {agreement : AgreementPrimitives} {csprng : Csprng}.
Context {prim : kem.KemPrimitives} {spqr : Spqr} {codec : SessionCodec} {text : UuidText}.
Context {laws : SignalLaws} {agree : AgreementLaws} {glaws : CsprngLaws}.
Context {pqlaws : SpqrLaws} {claws : SessionCodecLaws}.
Context (c : Contact) (first : PublicKey) (Hc : contact_ok c).

Implicit Types (t : Both Side) (w : World) (ends : Both End) (who : Who).

(** The envelopes of a side's messages *)
Definition allowed t who (o : option Contact) : Prop :=
  match who with
  | Initiator => o = Some c ∨ (turn (of_publisher t) ≠ 0%nat ∧ o = None)
  | Publisher => o = None
  end.

Definition sealed_at (k : IdentityKey) t who (s : Sealed) (b : bytes) : Prop :=
  ∃ o, allowed t who o ∧ b = serialize (sealed_as o k s.2).

Record stands t w ends who : Prop := {
  stands_side : side (get who ends) = get who t;
  stands_address : address (get who (participants w)) = end_address (get who ends);
  stands_ready : turn (get who t) ≠ 0%nat →
    corresponds (get who (participants w)) (get who ends) (get (other who) ends);
  stands_waiting : turn (get who t) = 0%nat →
    who = Publisher ∧ letters (get who t) = []
    ∧ awaits c (get who (participants w)) (get who ends) (get (other who) ends);
  stands_pending : ∃ o, allowed t who o ∧ pending o (session (get who ends));
  stands_posted : Forall2 (sealed_at (identity (get who ends)) t who)
                    (sealed_letters (get who ends)) (get who (posted w));
  stands_heard j : j ∈ (windows (get who ends)).*1 →
    (j = 0%nat ∧ who = Initiator) ∨ j ∈ turns_of t (other who);
}.

Record conversing t w ends sc : Prop := {
  conversing_stands who : stands t w ends who;
  conversing_linked who : linked sc (get who ends) (get (other who) ends);
  conversing_base : ss_alice_base_key (session (of_publisher ends)) = public_serialize (c_base c);
  conversing_first : turn_public sc 0 = first;
}.

Lemma linked_both sc ends who : linked sc (get who ends) (get (other who) ends) →
  ∀ who', linked sc (get who' ends) (get (other who') ends).
Proof. intros H. apply (both_sides _ who); [done|]. rewrite other_other. by apply linked_sym. Qed.

Lemma allowed_ok t who o : allowed t who o → ∀ c', o = Some c' → contact_ok c'.
Proof using Hc. destruct who; cbn; [|by intros ->]. by intros [->|[_ ->]] c' [= <-]. Qed.

Lemma allowed_known t w ends sc who o : conversing t w ends sc → allowed t (other who) o →
  base_known o (session (get who ends)).
Proof.
  intros [_ _ Hb _] Ho c' ->. destruct who; cbn in *; [done|]. by destruct Ho as [[= ->]|[_ ?]].
Qed.

Lemma allowed_later t t' who o :
  (turn (of_publisher t) ≠ 0%nat → turn (of_publisher t') ≠ 0%nat) → allowed t who o → allowed t' who o.
Proof. destruct who; cbn; tauto. Qed.

(** ** Keys of messages *)

Lemma letter_posted t w ends sc who i l : conversing t w ends sc →
  letters (get who t) !! i = Some l → ∃ b, get who (posted w) !! i = Some b.
Proof.
  intros H Hl. destruct (conversing_stands _ _ _ _ H who) as [Hs _ _ _ _ Hp _].
  apply lookup_lt_is_Some_2. rewrite <-(Forall2_length _ _ _ Hp).
  pose proof (Forall2_length _ _ _ (half_sealed _ _ _ (linked_there _ _ _
    (conversing_linked _ _ _ _ H who)))) as <-.
  rewrite Hs. by eapply lookup_lt_Some.
Qed.

Lemma letter_bytes t w ends sc who i l b : conversing t w ends sc →
  letters (get who t) !! i = Some l → get who (posted w) !! i = Some b →
  ∃ pq m o, sealed_letters (get who ends) !! i = Some (pq, m) ∧ allowed t who o
    ∧ ciphertext_from_bytes b = Ok (sealed_as o (identity (get who ends)) m)
    ∧ ratchet_of b = Some (turn_public sc (l_turn l)) ∧ epoch_of b = spqr_epoch pq.1.
Proof using laws agree claws Hc.
  intros H Hl Hb. destruct (conversing_stands _ _ _ _ H who) as [Hs _ _ _ _ Hp _].
  destruct (Forall2_lookup_r _ _ _ _ _ Hp Hb) as ([pq m] & Hm & o & Ho & ->). cbn [snd] in *.
  pose proof (conversing_linked _ _ _ _ H who) as Hlink.
  rewrite <-Hs in Hl.
  destruct (letter_message _ _ _ i l pq m (linked_sym _ _ _ Hlink) Hl Hm) as (Hletter & Hn & Hmax).
  assert (Hparse : ciphertext_from_bytes (serialize (sealed_as o (identity (get who ends)) m))
    = Ok (sealed_as o (identity (get who ends)) m)).
  { eapply sealed_parses; [exact Hletter| | |apply (linked_there _ _ _ Hlink)|by eapply allowed_ok].
    - apply (schedule_keys _ _ (linked_schedule _ _ _ Hlink)).
      pose proof (Forall_lookup_1 _ _ _ _
        (letters_turn _ _ (half_letters _ _ _ (linked_there _ _ _ Hlink))) Hl) as [k Hk]. lia.
    - unfold MAX_MESSAGE_KEYS, u32_max in *. lia. }
  exists pq, m, o. unfold ratchet_of, epoch_of. rewrite Hparse.
  destruct (letter_fields _ _ _ _ _ _ _ _ _ _ Hletter) as (_ & <- & _ & <- & _). by destruct o.
Qed.

(** A new turn's key is not among those heard. *)
Lemma new_turn_fresh t w ends sc who i l b : conversing t w ends sc → fresh_keys first t (posted w) →
  letters (get (other who) t) !! i = Some l → get (other who) (posted w) !! i = Some b →
  l_turn l = S (turn (get who t)) →
  turn_public sc (l_turn l) ∉ turn_public sc <$> (windows (get who ends)).*1.
Proof using laws agree claws Hc.
  intros H [Hf Hf0] Hl Hb E (j & Ej & Hj)%list_elem_of_fmap.
  destruct (letter_bytes _ _ _ _ _ _ _ _ H Hl Hb) as (_ & _ & _ & _ & _ & _ & Hr & _).
  destruct (conversing_stands _ _ _ _ H who) as [Hs _ _ _ _ _ Hheard].
  destruct (Hheard j Hj) as [[-> ->]|Hin].
  - rewrite (conversing_first _ _ _ _ H) in Ej. rewrite Forall_forall in Hf0.
    apply (Hf0 b); [by eapply list_elem_of_lookup_2|]. by rewrite Hr, Ej.
  - unfold turns_of in Hin. apply list_elem_of_fmap in Hin as (l' & -> & Hl').
    apply list_elem_of_lookup in Hl' as [i' Hi'].
    destruct (letter_posted _ _ _ _ _ _ _ H Hi') as [b' Hb'].
    destruct (letter_bytes _ _ _ _ _ _ _ _ H Hi' Hb') as (_ & _ & _ & _ & _ & _ & Hr' & _).
    apply (Hf (other who) i i' (l_turn l) (l_turn l') b b'); try done.
    + unfold turns_of. by rewrite list_lookup_fmap, Hl.
    + unfold turns_of. by rewrite list_lookup_fmap, Hi'.
    + pose proof (conversing_linked _ _ _ _ H who) as Hlink.
      pose proof (hears_windows _ _ _ _ (half_short _ _ _ (linked_back _ _ _ Hlink))
        (half_hears _ _ _ (linked_there _ _ _ Hlink))) as [Hlt _ _].
      apply list_elem_of_fmap in Hj as ([j0 w0] & E0 & Hj0). cbn in E0.
      rewrite Forall_forall in Hlt. specialize (Hlt _ Hj0). cbn in Hlt. rewrite Hs in Hlt. lia.
    + by rewrite Hr, Hr', Ej.
Qed.

(** The epochs of what a side has posted are those of its letters. *)
Lemma posted_epochs t w ends sc who i l b pq m :
  conversing t w ends sc → letters (get (other who) t) !! i = Some l → l_opened l = false →
  get (other who) (posted w) !! i = Some b → event_in_epoch t w (Hear who i) = true →
  epoch_of b = spqr_epoch pq.1 → sealed_letters (get (other who) ends) !! i = Some (pq, m) →
  keeps_epoch (get who ends) pq.1.
Proof using laws agree claws Hc.
  intros H Hl Hop Hb He Eb Hm. cbn [event_in_epoch] in He. rewrite Hl, Hb, Hop in He. cbn [orb] in He.
  apply Forall_lookup. intros j [pq' m'] Hj.
  pose proof (conversing_stands _ _ _ _ H who) as [Hs _ _ _ _ Hp _].
  destruct (Forall2_lookup_l _ _ _ _ _ Hp Hj) as (b' & Hb' & _).
  destruct (Forall2_lookup_r _ _ _ _ _ (half_sealed _ _ _ (linked_there _ _ _
    (conversing_linked _ _ _ _ H who))) Hj) as (l' & Hl' & _). rewrite Hs in Hl'.
  destruct (letter_bytes _ _ _ _ _ _ _ _ H Hl' Hb') as (pq0 & m0 & _ & Hj0 & _ & _ & _ & E').
  rewrite Hj in Hj0. injection Hj0 as <- <-. cbn [fst] in *. rewrite <-Eb, <-E'.
  rewrite forallb_forall in He. apply N.leb_le, He.
  by apply list_elem_of_In, (list_elem_of_lookup_2 _ j).
Qed.

(** ** The steps *)

(** What a step of the other side must leave alone *)
Lemma stands_other t w ends t' w' ends' who :
  stands t w ends who →
  get who t' = get who t ∨ (∃ i, get who t' = mark (get who t) i) →
  side (get who ends') = get who t' → identity (get who ends') = identity (get who ends) →
  end_address (get who ends') = end_address (get who ends) →
  session (get who ends') = session (get who ends) → windows (get who ends') = windows (get who ends) →
  sealed_letters (get who ends') = sealed_letters (get who ends) →
  get who (participants w') = get who (participants w) → get who (posted w') = get who (posted w) →
  identity (get (other who) ends') = identity (get (other who) ends) →
  end_address (get (other who) ends') = end_address (get (other who) ends) →
  (∀ o, allowed t who o → allowed t' who o) →
  (∀ j, j ∈ turns_of t (other who) → j ∈ turns_of t' (other who)) →
  stands t' w' ends' who.
Proof.
  intros [Hs Ha Hr Hw Hp Hpo Hh] Ht E1 E2 E3 E4 E5 E6 E7 E8 E9 E10 Hall Hturns.
  assert (Hturn : turn (get who t') = turn (get who t)) by (destruct Ht as [->|[i ->]]; done).
  split.
  - done.
  - congruence.
  - rewrite Hturn, E7. intros H0. destruct (Hr H0) as [R1 R2 R3].
    split; rewrite ?E3, ?E4, ?E9, ?E10; done.
  - rewrite Hturn, E7. intros H0. destruct (Hw H0) as (W1 & W2 & [A1 A2 A3 A4 A5]).
    split; [done|]. split; [|split; rewrite ?E3, ?E4, ?E9, ?E10; done].
    destruct Ht as [->|[i ->]]; [done|]. cbn. by rewrite W2.
  - destruct Hp as (o & Ho & Hp). exists o. rewrite E4. auto.
  - rewrite E2, E6, E8. eapply Forall2_impl; [exact Hpo|]. intros s b (o & Ho & Hb). exists o. auto.
  - rewrite E5. intros j Hj. destruct (Hh j Hj); auto.
Qed.

Lemma step_say t w ends sc who p_text now :
  conversing t w ends sc → turn (get who t) ≠ 0%nat →
  (length (letters (get who t)) < MAX_MESSAGE_KEYS)%nat → in_time (Some c) now →
  ∃ b ends', (act w (Say who p_text now)).2 = Encrypted (Ok b)
    ∧ conversing (put who (write (get who t) p_text) t) (act w (Say who p_text now)).1 ends' sc.
Proof using laws agree pqlaws Hc.
  intros H H0 Hmax Hnow. destruct (conversing_stands _ _ _ _ H who) as [Hs Ha Hr _ (o & Ho & Hpe) Hpo Hh].
  pose proof (conversing_stands _ _ _ _ H (other who)) as Hother.
  pose proof (conversing_linked _ _ _ _ H who) as Hlink.
  destruct (encrypt_say sc (get who (participants w)) (get who ends) (get (other who) ends) o p_text now
    Hlink (Hr H0)) as (p' & pq & m & s' & Henc & Hlink' & Hcor & Hpe' & Hbase).
  { by rewrite Hs. }
  { by eapply allowed_ok. }
  { done. }
  { destruct who; cbn in Ho; [|by subst]. by destruct Ho as [->|[_ ->]]. }
  cbn [act]. rewrite (stands_address _ _ _ _ Hother), Henc. cbn [fst snd].
  set (x' := write_end (get who ends) p_text (pq, m) s') in *.
  eexists _, (put who x' ends). split; [reflexivity|].
  assert (Hall : ∀ who' o, allowed t who' o → allowed (put who (write (get who t) p_text) t) who' o).
  { intros who' o'. apply allowed_later. by destruct who. }
  split.
  - apply (both_sides _ who).
    + split; cbn [participants posted]; rewrite ?get_put, ?get_put_other.
      * cbn. by rewrite Hs.
      * rewrite (corresponds_address _ _ _ Hcor). done.
      * done.
      * by intros.
      * exists o. auto.
      * cbn [x' write_end sealed_letters identity]. apply Forall2_app.
        -- eapply Forall2_impl; [exact Hpo|]. intros s b (o' & Ho' & Hb). exists o'. auto.
        -- constructor; [|done]. exists o. auto.
      * intros j Hj. unfold turns_of. rewrite get_put_other. by apply Hh.
    + apply (stands_other t w ends); rewrite ?other_other; cbn [participants posted];
        rewrite ?get_put, ?get_put_other; try done.
      * by left.
      * apply Hother.
      * auto.
      * intros j Hj. unfold turns_of. rewrite get_put. cbn. rewrite fmap_app. apply elem_of_app. by left.
  - apply (linked_both _ _ who). rewrite get_put, get_put_other. exact Hlink'.
  - destruct who; cbn; [apply H|]. rewrite Hbase. apply H.
  - apply H.
Qed.

Lemma with_sessions_same p :
  with_sessions p (session_store (store p)) (identity_store (store p)) (rng p) = p.
Proof. by destruct p as [? ? [] ? ? ? ? ? ? ? ? ? ? ? ?]. Qed.

(** A publisher that has not heard anything has no session to write with. *)
Lemma step_refused t w ends sc who p_text now :
  conversing t w ends sc → turn (get who t) = 0%nat →
  ∃ a, (act w (Say who p_text now)).2 = Encrypted (Err (anyhow (signal_display (SessionNotFound a))))
    ∧ conversing t (act w (Say who p_text now)).1 ends sc.
Proof.
  intros H H0. destruct (conversing_stands _ _ _ _ H who) as [_ Ha _ Hw _ _ _].
  destruct (Hw H0) as (_ & _ & [_ Hn _ _ _]).
  pose proof (stands_address _ _ _ _ (conversing_stands _ _ _ _ H (other who))) as Hao.
  cbn [act]. rewrite Hao. unfold encrypt_message.
  cbn [Participant.message_encrypt Participant.SessionRecord libsignal] in Hn |- *.
  unfold Sessions.message_encrypt. rewrite Hn. cbn [ok_or fst snd lift].
  eexists. split; [reflexivity|]. rewrite with_sessions_same.
  replace (put who _ (participants w)) with (participants w) by by destruct who, (participants w).
  by destruct w.
Qed.

(** The letter's message, whether or not the hearer has a session yet *)
Lemma conversing_decrypt t w ends sc who i l pq m o :
  conversing t w ends sc → letters (get (other who) t) !! i = Some l →
  sealed_letters (get (other who) ends) !! i = Some (pq, m) → allowed t (other who) o →
  l_opened l = false → keeps_epoch (get who ends) pq.1 →
  in_reach (turn (get who t)) (l_turn l) →
  (l_turn l = S (turn (get who t)) →
    turn_public sc (l_turn l) ∉ turn_public sc <$> (windows (get who ends)).*1) →
  let x := get who ends in let y := get (other who) ends in
  ∃ p' s' sc' l',
    decrypt_message (get who (participants w)) (end_address y) (sealed_as o (identity y) m)
    = (p', Ok (l_text l))
    ∧ acknowledged (session x) s'
    ∧ linked sc' (answer_end x (l_turn l) l' s') (mark_end y i)
    ∧ corresponds p' (answer_end x (l_turn l) l' s') (mark_end y i)
    ∧ turn_public sc' 0 = turn_public sc 0
    ∧ ∀ j, j ∈ l'.*1 → j ∈ (windows x).*1 ∨ j = l_turn l.
Proof using laws agree glaws pqlaws.
  intros H Hl Hm Ho Hop Hep Hr Hf x y.
  destruct (conversing_stands _ _ _ _ H who) as [Hs _ Hready Hwait _ _ _].
  pose proof (stands_side _ _ _ _ (conversing_stands _ _ _ _ H (other who))) as Hso.
  pose proof (conversing_linked _ _ _ _ H who) as Hlink. fold x y in Hs, Hready, Hwait, Hso, Hlink.
  rewrite <-Hs in Hr, Hf. rewrite <-Hso in Hl.
  destruct (decide (turn (get who t) = 0%nat)) as [H0|H0].
  - destruct (Hwait H0) as (-> & _ & Hawaits). destruct Ho as [->|[Hne _]]; [|done].
    by eapply decrypt_first.
  - eapply decrypt_hear; try done; [by apply Hready|by eapply allowed_known].
Qed.

Lemma answer_turn x j : turn (answer x j) = 0%nat → turn x = 0%nat ∧ j ≠ S (turn x).
Proof. unfold answer. case_decide; [done|]. done. Qed.

Lemma step_hear t w ends sc who i l :
  conversing t w ends sc → letters (get (other who) t) !! i = Some l → l_opened l = false →
  in_reach (turn (get who t)) (l_turn l) → fresh_keys first t (posted w) →
  event_in_epoch t w (Hear who i) = true →
  ∃ ends' sc', (act w (Hear who i)).2 = Decrypted (Ok (l_text l))
    ∧ conversing (put who (answer (get who t) (l_turn l)) (put (other who) (mark (get (other who) t) i) t))
        (act w (Hear who i)).1 ends' sc'.
Proof using laws agree glaws pqlaws claws Hc.
  intros H Hl Hop Hr Hf He. destruct (letter_posted _ _ _ _ _ _ _ H Hl) as [b Hb].
  destruct (letter_bytes _ _ _ _ _ _ _ _ H Hl Hb) as (pq & m & o & Hm & Ho & Hparse & _ & Eb).
  assert (Hep : keeps_epoch (get who ends) pq.1) by by eapply posted_epochs.
  destruct (conversing_decrypt _ _ _ _ who i l pq m o H Hl Hm Ho Hop Hep Hr)
    as (p' & s' & sc' & l' & Hdec & (Hack & _ & _ & Hpe) & Hlink' & Hcor & H0 & Hl').
  { intros E. by eapply new_turn_fresh. }
  destruct (conversing_stands _ _ _ _ H who) as [Hs Ha _ _ _ Hpo Hh].
  pose proof (conversing_stands _ _ _ _ H (other who)) as Hother.
  pose proof (letter_turn _ _ _ i l (conversing_linked _ _ _ _ H who)) as Hturn.
  rewrite (stands_side _ _ _ _ Hother) in Hturn. rewrite Hs in Hturn. specialize (Hturn Hl).
  cbn [act]. rewrite Hb, Hparse, (stands_address _ _ _ _ Hother), Hdec. cbn [fst snd].
  set (x' := answer_end _ _ _ _) in *. set (y' := mark_end _ _) in *.
  set (t' := put who _ _). exists (put who x' (put (other who) y' ends)), sc'. split; [reflexivity|].
  assert (Hall : ∀ who' o, allowed t who' o → allowed t' who' o).
  { intros who' o'. apply allowed_later. unfold t'. destruct who; cbn; [done|].
    intros Hne E. by apply answer_turn in E as [? _]. }
  assert (Ht' : get who t' = answer (get who t) (l_turn l)) by by unfold t'; rewrite get_put.
  assert (Hto : get (other who) t' = mark (get (other who) t) i).
  { unfold t'. by rewrite get_put_other, get_put. }
  split.
  - apply (both_sides _ who).
    + split; cbn [participants posted]; rewrite ?get_put, ?get_put_other, ?get_put, ?Ht'.
      * cbn. by rewrite Hs.
      * rewrite (corresponds_address _ _ _ Hcor). done.
      * done.
      * intros [E Hne]%answer_turn. destruct Hturn as [?|[d Hd]]; [done|lia].
      * exists None. split; [|exact Hpe]. destruct who; [|done]. right. split; [|done].
        change (of_publisher t') with (get (other Initiator) t'). rewrite Hto. intros E.
        destruct (stands_waiting _ _ _ _ Hother E) as (_ & Hnil & _). cbn in Hnil, Hl. by rewrite Hnil in Hl.
      * cbn [x' answer_end sealed_letters identity].
        eapply Forall2_impl; [exact Hpo|]. intros s bs (o' & Ho' & Hbs). exists o'. auto.
      * intros j Hj. unfold turns_of. rewrite Hto. cbn [mark letters].
        rewrite (list_fmap_alter _ _ (λ x, x)) by (by apply Forall_true). rewrite list_alter_id by done.
        destruct (Hl' j Hj) as [Hj'| ->]; [by apply Hh|]. right.
        apply list_elem_of_fmap. exists l. split; [done|]. by eapply list_elem_of_lookup_2.
    + apply (stands_other t w ends); rewrite ?other_other; cbn [participants posted];
        rewrite ?get_put, ?get_put_other, ?get_put; try done.
      * right. by exists i.
      * rewrite Hto. cbn. by rewrite (stands_side _ _ _ _ Hother).
      * auto.
      * intros j Hj. unfold turns_of. rewrite Ht'. unfold answer. by case_decide.
  - apply (linked_both _ _ who). rewrite get_put, get_put_other, get_put. exact Hlink'.
  - destruct who; cbn; [apply H|]. rewrite Hack. apply H.
  - rewrite H0. apply H.
Qed.

Lemma step_again t w ends sc who i l :
  conversing t w ends sc → letters (get (other who) t) !! i = Some l → l_opened l = true →
  in_reach (turn (get who t)) (l_turn l) →
  ∃ e, (act w (Hear who i)).2 = Decrypted (Err (anyhow (signal_display e))) ∧ duplicated e
    ∧ conversing t (act w (Hear who i)).1 ends sc.
Proof using laws agree claws Hc.
  intros H Hl Hop Hr. destruct (letter_posted _ _ _ _ _ _ _ H Hl) as [b Hb].
  destruct (letter_bytes _ _ _ _ _ _ _ _ H Hl Hb) as (pq & m & o & Hm & Ho & Hparse & _).
  destruct (conversing_stands _ _ _ _ H who) as [Hs Ha Hready Hwait Hp Hpo Hh].
  pose proof (conversing_stands _ _ _ _ H (other who)) as Hother.
  pose proof (conversing_linked _ _ _ _ H who) as Hlink.
  assert (Hne : turn (get who t) ≠ 0%nat).
  { rewrite <-(stands_side _ _ _ _ Hother) in Hl.
    pose proof (Forall_lookup_1 _ _ _ _ (letters_opened _ _ (half_letters _ _ _ (linked_back _ _ _ Hlink)))
      Hl Hop) as Hlt. cbn in Hlt. rewrite Hs in Hlt. lia. }
  destruct (decrypt_again sc (get who (participants w)) (get who ends) (get (other who) ends) i l pq m o
    Hlink (Hready Hne)) as (p' & e & Hdec & Hdup & Hcor).
  { by rewrite (stands_side _ _ _ _ Hother). }
  { done. }
  { done. }
  { by rewrite Hs. }
  { by eapply allowed_known. }
  cbn [act]. rewrite Hb, Hparse, (stands_address _ _ _ _ Hother), Hdec. cbn [fst snd lift].
  exists e. split; [done|]. split; [done|]. destruct H as [_ Hl0 Hb0 Hf0]. split; [|done..].
  apply (both_sides _ who).
  - split; cbn [participants posted]; rewrite ?get_put; try done. by apply (corresponds_address _ _ _ Hcor).
  - apply (stands_other t w ends); cbn [participants posted]; rewrite ?get_put_other; try done; [by left|].
    apply Hother.
Qed.

(** ** Runs *)

Definition timely (e : Event) : Prop :=
  match e with Say _ _ now => in_time (Some c) now | Hear _ _ => True end.

Lemma step t w ends sc e t' r :
  conversing t w ends sc → expect t e = Some (t', r) → timely e → fresh_keys first t (posted w) →
  event_in_epoch t w e = true →
  ∃ ends' sc', conversing t' (act w e).1 ends' sc' ∧ agrees r (act w e).2.
Proof using laws agree glaws pqlaws claws Hc.
  intros H He Htime Hf Hep. destruct e as [who p_text now|who i]; cbn [expect timely] in *.
  - destruct (decide _) as [H0|H0] in He.
    + injection He as <- <-. destruct (step_refused _ _ _ _ who p_text now H H0) as (a & E & H').
      exists ends, sc. split; [done|]. rewrite E. by exists a.
    + destruct (decide _) as [Hmax|] in He; [|done]. injection He as <- <-.
      destruct (step_say _ _ _ _ who p_text now H H0 Hmax Htime) as (b & ends' & E & H').
      exists ends', sc. split; [done|]. by rewrite E.
  - destruct (letters _ !! i) as [l|] eqn:Hl in He; [|done].
    change (Some l ≫= ?f) with (f l) in He. cbv beta in He.
    destruct (decide _) as [Hr|] in He; [|done]. destruct (l_opened l) eqn:Hop; injection He as <- <-.
    + destruct (step_again _ _ _ _ who i l H Hl Hop Hr) as (e & E & (cur & n & ->) & H').
      exists ends, sc. split; [done|]. rewrite E. by exists cur, n.
    + destruct (step_hear _ _ _ _ who i l H Hl Hop Hr Hf Hep) as (ends' & sc' & E & H').
      exists ends', sc'. split; [done|]. by rewrite E.
Qed.

Lemma expect_grows t e t' r : expect t e = Some (t', r) →
  ∀ who, turns_of t who `prefix_of` turns_of t' who.
Proof.
  destruct e as [who p_text now|who i]; cbn [expect]; intros He.
  - destruct (decide _) in He; [by injection He as <- _|]. destruct (decide _) in He; [|done].
    injection He as <- _. apply (both_sides _ who); unfold turns_of; rewrite ?get_put, ?get_put_other; [|done].
    cbn. rewrite fmap_app. by apply prefix_app_r.
  - destruct (letters _ !! i) as [l|] eqn:Hl in He; [|done].
    change (Some l ≫= ?f) with (f l) in He. cbv beta in He.
    destruct (decide _) in He; [|done]. destruct (l_opened l); injection He as <- _; [done|].
    apply (both_sides _ who); unfold turns_of; rewrite ?get_put, ?get_put_other, ?get_put.
    + unfold answer. by case_decide.
    + cbn. rewrite (list_fmap_alter _ _ (λ x, x)) by (by apply Forall_true). by rewrite list_alter_id.
Qed.

Lemma act_grows w e who : get who (posted w) `prefix_of` get who (posted (act w e).1).
Proof.
  destruct e as [who' p_text now|who' i]; cbn [act].
  - destruct (encrypt_message _ _ _ _) as [p' [ct|]]; cbn [fst posted]; [|done].
    revert who. apply (both_sides _ who'); rewrite ?get_put, ?get_put_other; [by apply prefix_app_r|done].
  - destruct (_ !! i); [|done]. destruct (ciphertext_from_bytes _); [|done].
    by destruct (decrypt_message _ _ _).
Qed.

Lemma fresh_earlier_keys t bs t' bs' :
  (∀ who, turns_of t who `prefix_of` turns_of t' who) →
  (∀ who, get who bs `prefix_of` get who bs') → fresh_keys first t' bs' → fresh_keys first t bs.
Proof.
  intros Ht Hb [H1 H2]. split.
  - intros who i j a a' b b' Hi Hj Hbi Hbj.
    apply (H1 who i j); eapply prefix_lookup_Some; eauto.
  - destruct (Hb Publisher) as [k Hk]. cbn in Hk. rewrite Hk in H2. by apply Forall_app in H2 as [? _].
Qed.

Lemma expect_all_grows es : ∀ t t' rs, expect_all t es = Some (t', rs) →
  ∀ who, turns_of t who `prefix_of` turns_of t' who.
Proof.
  induction es as [|e es IH]; intros t t' rs; cbn [expect_all]; [by intros [= <- _]|].
  destruct (expect t e) as [[t1 r]|] eqn:E; [|done]. change (Some ?a ≫= ?f) with (f a). cbv beta iota.
  destruct (expect_all t1 es) as [[t2 rs']|] eqn:E'; [|done]. intros [= <- _] who.
  etrans; [by eapply expect_grows|by eapply IH].
Qed.

Lemma act_all_grows es : ∀ w who, get who (posted w) `prefix_of` get who (posted (act_all w es).1).
Proof.
  induction es as [|e es IH]; intros w who; cbn [act_all]; [done|].
  pose proof (act_grows w e who) as H. destruct (act w e) as [w1 o]. specialize (IH w1 who).
  destruct (act_all w1 es) as [w2 os]. cbn [fst] in *. by etrans.
Qed.

Lemma run_agrees es : ∀ t w ends sc t' rs,
  conversing t w ends sc → expect_all t es = Some (t', rs) → Forall timely es →
  fresh_keys first t' (posted (act_all w es).1) → in_epoch t w es = true →
  Forall2 agrees rs (act_all w es).2.
Proof using laws agree glaws pqlaws claws Hc.
  induction es as [|e es IH]; intros t w ends sc t' rs H He Htime Hf Hep;
    cbn [expect_all act_all in_epoch] in *.
  - injection He as <- <-. constructor.
  - destruct (expect t e) as [[t1 r]|] eqn:E; [|done].
    change (Some ?a ≫= ?f) with (f a) in He. cbv beta iota in He.
    destruct (expect_all t1 es) as [[t2 rs']|] eqn:E'; [|done]. injection He as <- <-.
    inversion_clear Htime as [|? ? Ht Hts]. apply andb_prop in Hep as [Hep Heps].
    destruct (step _ _ _ _ e _ _ H E Ht) as (ends' & sc' & H' & Hag); [|exact Hep|].
    { eapply fresh_earlier_keys; [| |exact Hf].
      - intros who. etrans; [by eapply expect_grows|by eapply expect_all_grows].
      - intros who. apply (act_all_grows (e :: es)). }
    specialize (IH t1 (act w e).1 ends' sc' t2 rs' H' E' Hts).
    destruct (act w e) as [w1 o]. cbn [fst snd] in *. destruct (act_all w1 es) as [w2 os]. cbn [fst snd] in *.
    constructor; auto.
Qed.
End simulation.

(** ** The theorem *)

Section conversation.
Context {crypto : SignalCrypto} {agreement : AgreementPrimitives} {csprng : Csprng}.
Context {prim : kem.KemPrimitives} {spqr : Spqr} {codec : SessionCodec} {text : UuidText}.
Context {laws : SignalLaws} {agree : AgreementLaws} {glaws : CsprngLaws} {klaws : kem.KemLaws}.
Context {pqlaws : SpqrLaws} {claws : SessionCodecLaws}.

Implicit Types (p q : SignalParticipant) (b : PreKeyBundle).

Lemma conversing_begins p q b now : introduced p q b →
  ∃ p' c ends sc, establish_session_from_bundle p (address q) b now = (p', Ok tt)
    ∧ contact_ok c ∧ c_since c = now `div` 1000
    ∧ conversing c (b_signed_pre_key_public b) beginning (MkWorld (MkBoth p' q) (MkBoth [] [])) ends sc.
Proof using laws agree glaws klaws pqlaws.
  intros H. destruct (establish p q b now H)
    as (p' & s & s' & ct & sc & He & Hl & Hcor & Haw & Hok & Hp & Hp' & Hbase & Hfirst).
  exists p', (contact_of p b ct now), (MkBoth (initiator_end p s) (publisher_end q s')), sc.
  split; [done|]. split; [done|]. split; [done|]. split.
  - intros []; split; cbn [participants posted get other of_initiator of_publisher beginning]; try done.
    + by apply (corresponds_address _ _ _ Hcor).
    + exists (Some (contact_of p b ct now)). split; [by left|done].
    + cbn. intros j ->%list_elem_of_singleton. by left.
    + by exists None.
    + cbn. by intros j Hj%elem_of_nil.
  - intros []; [exact Hl|by apply linked_sym].
  - done.
  - done.
Qed.

(** Messages within the thirty days an unanswered session is used for *)
Definition timely_after (now : N) (e : Event) : Prop :=
  match e with
  | Say _ _ then_ => then_ <= 1000 * (now `div` 1000) + MAX_UNACKNOWLEDGED_SESSION_AGE
  | Hear _ _ => True
  end.

(** C1: Two participants, one of which establishes a session from a bundle the other has
    published, read each other's messages as they were written: in whatever order the
    messages are sent and heard, lost or repeated, encryption succeeds, every message
    that is heard for the first time is decrypted to its text, and every repetition is
    refused as a duplicate.  This covers the first messages with their prekeys, the
    ratchet steps that both sides take, and the messages of earlier turns that arrive
    late.  The limits are those of the code and of the post-quantum ratchet's crate: at
    most [MAX_MESSAGE_KEYS] messages of a side, messages of the last five turns ([expect]);
    thirty days for a session that is not answered ([timely_after]); and a message is
    heard for the first time before its hearer has sent in a post-quantum epoch two or more
    after the message's, whose keys the crate then forgets ([in_epoch]; later than that
    nothing is claimed).  Ratchet keys are assumed not to collide ([fresh_keys]). *)
Theorem conversation p q b now es t' replies :
  introduced p q b → expect_all beginning es = Some (t', replies) → Forall (timely_after now) es →
  let '(p', r) := establish_session_from_bundle p (address q) b now in
  let w := MkWorld (MkBoth p' q) (MkBoth [] []) in
  let '(w', outcomes) := act_all w es in
  r = Ok tt
  ∧ (fresh_keys (b_signed_pre_key_public b) t' (posted w') → in_epoch beginning w es = true →
     Forall2 agrees replies outcomes).
Proof using laws agree glaws klaws pqlaws claws.
  intros H He Ht. destruct (conversing_begins p q b now H) as (p' & c & ends & sc & -> & Hok & Hs & Hc).
  cbv zeta. destruct (act_all _ es) as [w' outcomes] eqn:Ea. split; [done|]. intros Hf Hep.
  change outcomes with ((w', outcomes).2). rewrite <-Ea.
  eapply (run_agrees c (b_signed_pre_key_public b)); [done|exact Hc|exact He| |by rewrite Ea|exact Hep].
  eapply Forall_impl; [exact Ht|]. intros [] Htime; [|done]. cbn. by rewrite Hs.
Qed.
End conversation.

(** ** A concrete conversation *)

Definition toy_new (n : string) (g : N) : option SignalParticipant :=
  match new n (λ _, None) (λ i, Some (N.of_nat i)) g with Ok p => Some p | Err _ => None end.

(** A participant with one one-time prekey, and its bundle *)
Definition toy_publish (p : SignalParticipant) : option (SignalParticipant * PreKeyBundle) :=
  match generate_publishable_prekey_bundles p 1 true (λ i, Some (N.of_nat i)) with
  | (p, Ok (b :: _)) => Some (store_own_prekeys p, b)
  | _ => None
  end.

Lemma is_Some_test {A} (o : option A) : (if o is Some _ then true else false) = true → is_Some o.
Proof. by destruct o. Qed.

Lemma toy_alice_new : is_Some (toy_new "alice" 1000).
Proof. apply is_Some_test. vm_cast_no_check (eq_refl true). Qed.
Definition toy_published : option (SignalParticipant * PreKeyBundle) :=
  let! q <- toy_new "bob" 2000 in toy_publish q.
Lemma toy_bob_publishes : is_Some toy_published.
Proof. apply is_Some_test. vm_cast_no_check (eq_refl true). Qed.

Definition toy_alice : SignalParticipant := is_Some_proj toy_alice_new.
Definition toy_bob : SignalParticipant := (is_Some_proj toy_bob_publishes).1.
Definition toy_bundle : PreKeyBundle := (is_Some_proj toy_bob_publishes).2.

Definition toy_text (s : string) : bytes := String.list_byte_of_string s.

Definition toy_events : list Event :=
  [Say Publisher (toy_text "no") 0; Say Initiator (toy_text "one") 0; Say Initiator (toy_text "two") 0;
   Hear Publisher 1; Say Publisher (toy_text "three") 0; Hear Publisher 1; Hear Initiator 0;
   Say Initiator (toy_text "four") 0; Hear Publisher 2; Hear Publisher 0; Hear Initiator 0].

Definition toy_replies : list Reply :=
  [NoSession; Written; Written; Read (toy_text "two"); Written; Repeated; Read (toy_text "three");
   Written; Read (toy_text "four"); Read (toy_text "one"); Repeated].

Lemma toy_introduced : introduced toy_alice toy_bob toy_bundle.
Proof.
  split.
  - split; vm_compute; reflexivity.
  - split_and!.
    + do 2 eexists. do 2 (split; [vm_compute; reflexivity|]).
      split; [split_and!; vm_compute; reflexivity|vm_compute; reflexivity].
    + do 2 eexists. do 2 (split; [vm_compute; reflexivity|]).
      split; [|vm_compute; reflexivity]. exists kem.Kyber768, 2007. vm_compute. reflexivity.
    + replace (b_pre_key_id toy_bundle) with (Some 1) by (vm_cast_no_check (eq_refl (Some 1))).
      do 2 eexists. do 2 (split; [vm_compute; reflexivity|]).
      split; [split_and!; vm_compute; reflexivity|vm_compute; reflexivity].
  - vm_compute; reflexivity.
  - split; split_and!; vm_compute; reflexivity.
  - vm_compute; reflexivity.
  - vm_compute; reflexivity.
  - apply eq_None_not_Some. refine (bool_decide_unpack _ _). vm_cast_no_check I.
  - refine (bool_decide_unpack _ _). vm_cast_no_check I.
  - split_and!; vm_compute; discriminate.
Qed.

Definition toy_after : Both Side := from_option fst beginning (expect_all beginning toy_events).

Lemma toy_fresh_keys :
  let '(p, _) := establish_session_from_bundle toy_alice (address toy_bob) toy_bundle 0 in
  let '(w, _) := act_all (MkWorld (MkBoth p toy_bob) (MkBoth [] [])) toy_events in
  fresh_keys (b_signed_pre_key_public toy_bundle) toy_after (posted w).
Proof.
  destruct (establish_session_from_bundle _ _ _ _) as [p r] eqn:E.
  destruct (act_all _ _) as [w os] eqn:Ea.
  change w with ((w, os).1). rewrite <-Ea. change p with ((p, r).1). rewrite <-E. split.
  - intros []; apply distinct_turns_check; refine (bool_decide_unpack _ _); vm_cast_no_check I.
  - refine (bool_decide_unpack _ _); vm_cast_no_check I.
Qed.

Lemma toy_in_epoch :
  let '(p, _) := establish_session_from_bundle toy_alice (address toy_bob) toy_bundle 0 in
  in_epoch beginning (MkWorld (MkBoth p toy_bob) (MkBoth [] [])) toy_events = true.
Proof.
  destruct (establish_session_from_bundle _ _ _ _) as [p r] eqn:E.
  change p with ((p, r).1). rewrite <-E. vm_cast_no_check (eq_refl true).
Qed.

Lemma conversation_witness :
  (introduced toy_alice toy_bob toy_bundle ∧ Forall (timely_after 0) toy_events
   ∧ expect_all beginning toy_events = Some (toy_after, toy_replies))
  ∧ let '(p, r) := establish_session_from_bundle toy_alice (address toy_bob) toy_bundle 0 in
    let '(w, outcomes) := act_all (MkWorld (MkBoth p toy_bob) (MkBoth [] [])) toy_events in
    r = Ok tt ∧ Forall2 agrees toy_replies outcomes.
Proof.
  assert (Ht : Forall (timely_after 0) toy_events) by by repeat constructor.
  assert (He : expect_all beginning toy_events = Some (toy_after, toy_replies)) by (vm_compute; done).
  split; [split; [exact toy_introduced|by split]|].
  pose proof (conversation toy_alice toy_bob toy_bundle 0 toy_events toy_after toy_replies toy_introduced
    He Ht) as H. pose proof toy_fresh_keys as Hf. pose proof toy_in_epoch as Hep.
  destruct (establish_session_from_bundle toy_alice (address toy_bob) toy_bundle 0) as [p r].
  cbv zeta in H.
  destruct (act_all (MkWorld (MkBoth p toy_bob) (MkBoth [] [])) toy_events) as [w outcomes].
  destruct H as [Hr Ho]. split; [exact Hr|exact (Ho Hf Hep)].
Defined.
