(* ===== verification/Replay.v ===== *)
(** * A replayed pairwise message

    [receive_message_delivery] acknowledges a message that has been processed before when
    the error text looks like a duplicate's.  libsignal's text for a duplicate does not
    ([duplicate_not_recognised]), so the message stays in the relay. *)

From S2P Require Import Prelude Text Http Inbox Interaction HttpRetry Servers SignalHttp.
From S2P Require Import SenderKeyState GroupCipher PreKeys Participant SignalWorker.
From S2P Require Import Ratchet Sessions LibsignalSessions ToySession Conversation.
From S2P Require KeyRepository MessageRelay ServiceMetrics.
From stdpp Require Import options.

Local Open Scope N_scope.

(** ** The text of a duplicate *)

Lemma lowercase_digits s : all_digits s → to_ascii_lowercase s = s.
Proof.
  induction s as [|c s IH]; [done|]. cbn [all_digits to_ascii_lowercase].
  intros [Hc Hs]%andb_prop_elim. rewrite IH by done. f_equal.
  unfold is_digit in Hc. unfold ascii_lower.
  destruct (N.leb_spec 65 (N_of_ascii c)); [|done].
  apply andb_prop_elim in Hc as [_ Hc]. apply Is_true_true_1, N.leb_le in Hc. lia.
Qed.

(** A word without blanks and with an [e] is not in [message with old counter X / Y] when
    it is in none of its words. *)
Lemma not_in_duplicate_text word (current counter : N) :
  word ≠ "" → Is_true (char_free " " word) → ¬ char_free "e" word →
  Forall (λ w, contains word w = false) ["message"; "with"; "old"; "counter"; "/"] →
  contains word ("message with old counter " +:+ pretty current +:+ " / " +:+ pretty counter) = false.
Proof.
  intros Hne Hw He H. repeat (apply Forall_cons in H as [? H]).
  change ("message with old counter " +:+ pretty current +:+ " / " +:+ pretty counter)
    with ("message" +:+ String " " ("with" +:+ String " " ("old" +:+ String " "
            ("counter" +:+ String " " (pretty current +:+ String " " ("/" +:+ String " " (pretty counter))))))).
  rewrite !contains_split by done.
  rewrite !(contains_free "e" word (pretty _)) by (done || by apply pretty_char_free).
  by repeat (apply orb_false_intro; [done|]).
Qed.

Lemma duplicate_text_lowercase (current counter : N) :
  to_ascii_lowercase ("message with old counter " +:+ pretty current +:+ " / " +:+ pretty counter)
  = "message with old counter " +:+ pretty current +:+ " / " +:+ pretty counter.
Proof.
  rewrite !lowercase_app, (lowercase_digits (pretty current)), (lowercase_digits (pretty counter))
    by apply pretty_digits. done.
Qed.

Lemma duplicate_not_recognised `{!UuidText} (current counter : N) :
  looks_like_duplicate_receive (alternate (anyhow (signal_display (DuplicatedMessage current counter))))
  = false.
Proof.
  unfold looks_like_duplicate_receive, alternate, anyhow. cbn [signal_display String.concat].
  rewrite duplicate_text_lowercase. unfold contains_any. cbn [existsb].
  assert (Hf : Is_true (char_free "f"
    ("message with old counter " +:+ pretty current +:+ " / " +:+ pretty counter))).
  { rewrite !char_free_app. repeat (apply andb_prop_intro; split); try done; by apply pretty_char_free. }
  rewrite (contains_free "f" "out of order") by (exact Hf || by vm_compute).
  rewrite !not_in_duplicate_text by
    (discriminate || (by vm_compute) || by repeat constructor). done.
Qed.

(** ** The delivery *)

Section replay.
Context {crypto : SignalCrypto} {csprng : Csprng} {prim : kem.KemPrimitives}.
Context {pairwise : PairwiseLibrary} {text : UuidText} {extern : SignalExternals}.
Context (hex_encode : bytes → string) (hex : ∀ b, hex_decode (hex_encode b) = Ok b) (now : N).

Abbreviation runs := (runs (reliable hex_encode now)).

Lemma fetched_sender rl r s e :
  MessageRelay.Pairwise.fetch_pending_message_record rl r (Some s) = Some e →
  MessageRelay.env_sender e = s.
Proof.
  rewrite MessageRelay.fetch_from_filter. intros He%head_Some_elem_of.
  apply list_elem_of_filter in He as [He _]. by apply Is_true_true_1, String.eqb_eq in He.
Qed.

(** C21: A pairwise message that a worker has processed and that the relay still holds (its
    acknowledgement was lost) is never acknowledged: receiving it again fails with
    libsignal's duplicate error, which [looks_like_duplicate_receive] does not recognise,
    and the relay keeps the message at the front of what this sender has sent. *)
Theorem replayed_message_stays p w relay_url sender expected e c current counter :
  MessageRelay.Pairwise.fetch_pending_message_record (relay w) (name p) sender = Some e →
  ciphertext_from_bytes (MessageRelay.env_message_bytes e) = Ok c →
  (decrypt_message p (address_of (MessageRelay.env_sender e)) c).2
    = Err (anyhow (signal_display (DuplicatedMessage current counter))) →
  let '(w', (_, r)) :=
    run (reliable hex_encode now) w (receive_message_delivery relay_url sender expected p) in
  r = Err (anyhow ("message with old counter " +:+ pretty current +:+ " / " +:+ pretty counter))
  ∧ same_relay w w'.
Proof using hex.
  intros He Hc Hd. destruct (run_pending hex_encode now w relay_url (name p) sender e He) as (w' & Hr & _ & Hw).
  change (runs w p (receive_message_delivery relay_url sender expected)
    (λ w' _ r, r = Err (anyhow ("message with old counter " +:+ pretty current +:+ " / " +:+ pretty counter))
               ∧ same_relay w w')).
  apply runs_bind, runs_inspect.
  eapply runs_bind, runs_call; [exact Hr|]. apply runs_bind.
  assert (Hs : ∀ Q : Servers → SignalParticipant → result Error unit → Prop, Q w' p (Ok tt) →
    runs w' p match sender with
      | Some s => ensure (String.eqb (MessageRelay.pm_sender (MessageRelay.pending hex_encode e)) s)
          ("Relay returned sender " +:+ MessageRelay.pm_sender (MessageRelay.pending hex_encode e)
           +:+ " while " +:+ s +:+ " was requested")
      | None => ok tt end Q).
  { intros Q HQ. destruct sender as [s|]; [|by apply runs_ok]. apply runs_ensure; [|done].
    apply String.eqb_eq. by apply (fetched_sender (relay w) (name p)). }
  apply Hs. apply runs_bind, runs_inspect. cbn [MessageRelay.pending MessageRelay.pm_message_hex].
  rewrite hex, Hc. apply runs_bind, runs_catch.
  destruct (decrypt_message _ _ _) as [p' r] eqn:Ed. cbn [snd] in Hd. subst r.
  eapply runs_modify; [exact Ed|]. cbv beta iota. rewrite duplicate_not_recognised. split; [done|exact Hw].
Qed.
End replay.

(** ** A replay *)

(** Bob at the end of the conversation, and the second message of Alice, read before *)
Definition toy_end : World :=
  (act_all (MkWorld (MkBoth (establish_session_from_bundle toy_alice (address toy_bob) toy_bundle 0).1
                       toy_bob) (MkBoth [] [])) toy_events).1.
Definition toy_reader : SignalParticipant := of_publisher (participants toy_end).
Definition toy_seen : bytes := default [] (of_initiator (posted toy_end) !! 1%nat).

Lemma toy_seen_parses : is_ok (ciphertext_from_bytes toy_seen) = true.
Proof. vm_cast_no_check (eq_refl true). Qed.

Definition is_duplicate (r : result Error bytes) (current counter : N) : bool :=
  match r with
  | Err [e] => String.eqb e (signal_display (DuplicatedMessage current counter))
  | _ => false
  end.

Lemma is_duplicate_spec r current counter : is_duplicate r current counter = true →
  r = Err (anyhow (signal_display (DuplicatedMessage current counter))).
Proof. destruct r as [|[|e [|]]]; try done. by intros <-%String.eqb_eq. Qed.

Lemma toy_seen_duplicate c : ciphertext_from_bytes toy_seen = Ok c →
  (decrypt_message toy_reader (address_of "alice") c).2
  = Err (anyhow (signal_display (DuplicatedMessage 2 1))).
Proof.
  intros H. apply is_duplicate_spec.
  assert (Ht : (if ciphertext_from_bytes toy_seen is Ok c
                then is_duplicate (decrypt_message toy_reader (address_of "alice") c).2 2 1
                else false) = true) by (vm_cast_no_check (eq_refl true)).
  by rewrite H in Ht.
Qed.

Definition toy_held : MessageRelay.RelayEnvelope :=
  MessageRelay.envelope "conversation-alice" "alice" 7 toy_seen "bob".
Definition toy_relay : Servers :=
  MkServers (KeyRepository.new (ServiceMetrics.new None))
    (MessageRelay.MkMessageRelay {["bob" := [toy_held]]} 8 (ServiceMetrics.new None)).

Lemma ok_proj {E A} (r : result E A) : is_ok r = true → ∃ a, r = Ok a.
Proof. destruct r as [a|]; [by exists a|done]. Qed.

Lemma toy_reader_name : name toy_reader = "bob".
Proof. apply String.eqb_eq. vm_cast_no_check (eq_refl true). Qed.

Lemma toy_held_first :
  MessageRelay.Pairwise.fetch_pending_message_record (relay toy_relay) (name toy_reader) (Some "alice")
  = Some toy_held.
Proof. by rewrite toy_reader_name. Qed.

Lemma replayed_message_stays_witness : ∃ c,
  (MessageRelay.Pairwise.fetch_pending_message_record (relay toy_relay) (name toy_reader) (Some "alice")
     = Some toy_held
   ∧ ciphertext_from_bytes toy_seen = Ok c)
  ∧ let '(w, (_, r)) := run (reliable Client.hex_encode 0) toy_relay
      (receive_message_delivery "http://relay" (Some "alice") (Some 3) toy_reader) in
    r = Err (anyhow ("message with old counter " +:+ pretty 2 +:+ " / " +:+ pretty 1))
    ∧ same_relay toy_relay w.
Proof.
  destruct (ok_proj _ toy_seen_parses) as [c Hc]. exists c.
  split; [split; [apply toy_held_first|exact Hc]|].
  exact (replayed_message_stays Client.hex_encode toy_signal_hex 0 toy_reader toy_relay "http://relay"
    (Some "alice") (Some 3) toy_held c 2 1 toy_held_first Hc (toy_seen_duplicate c Hc)).
Defined.
